(* ===== verification/_CoqProject ===== *)
-Q . S2P
Prelude.v
Bytes.v
Json.v
Types.v
KeyFilter.v
Arrow.v
Schema.v
Stats.v
Operation.v
OperationSpec.v
CatalogError.v
CatalogDb.v
Commit.v
CommitSpec.v
CommitHistory.v
CommitExamples.v
Leases.v
Feed.v
Barrier.v
Parts.v
Pruning.v
CatalogGc.v
Gc.v
Tables.v
Pipelines.v
Batches.v
Expr.v
Merge.v
MergeSpec.v
PartRead.v
Rewrite.v
RewriteSpec.v
Compactor.v
CompactorPlan.v
SweepSpec.v
CompactorSpec.v
Deletion.v
Write.v
Publish.v
WriteSpec.v
Ingest.v
IngestSpec.v
IngestExamples.v
SqlPipeline.v
Mv.v
MvSpec.v
Health.v
Recovery.v
Float64.v
Supervisor.v
SupervisorSpec.v
Query.v
QuerySpec.v
QueryServer.v
QueryServerSpec.v
DiskCache.v
DiskCacheSpec.v
DiskCacheTheorems.v
ObjectCache.v
ObjectCacheSpec.v
CachedReads.v
ObjectUpload.v
MetadataCache.v
Collector.v
Config.v
ConfigSpec.v
Bootstrap.v
BootstrapSpec.v
SkipIndex.v
SkipIndexSpec.v
Fingerprints.v
Synth.v
SynthTopology.v
Variants.v
VariantsSpec.v
Staging.v
StagingSpec.v
Run.v
RunSpec.v
