(* ===== verification/Prelude.v ===== *)
(** * Ukiel: a verification library for the Ukiel data lake

    Ukiel ingests events from Kafka into Parquet files on an object store, keeps
    what it knows of them in PostgreSQL, merges, expires and re-derives the files
    in the background, and answers SQL over them, one namespace at a time. Its
    unit is the _part_, one immutable file with one row in the catalog; its only
    way to change is the _commit_, one transaction that adds parts, tombstones
    others and may advance Kafka offsets. Everything else is a client of commits:

    - a worker (ingest, compactor, deletion, views) uploads files, then commits;
    - a reader (queries, views, other workers) lists live parts, reads files;
    - the collector of garbage deletes the files no commit or reader needs;
    - the daemon runs the workers as roles, survives catalog outages, and stops.

    The library follows that shape: the catalog first, then each client against
    it, then the daemon around the clients, then the tools that make and check
    test data. Definitions are executable and read like the code; a theorem about
    several components composes their definitions, it does not restate them.

    ** How the code is modelled

    - A fallible call is a [result]; [let?] is the source's [?].
    - A catalog operation is a function of the tables ([CatalogDb]); a transaction
      runs in a state monad whose failures roll back all but the sequences.
    - What other processes do is an input: a worker's run takes, for each call to
      the catalog or the store, what the others did before it and what the call
      came to (succeeded, failed, failed without saying whether it took effect).
      A theorem about a worker holds for every such environment, or says which.
    - Loops that wait (daemon roles, the feed barrier, caches shared by tasks, the
      process) are step relations or step functions with explicit events; their
      theorems are invariants of every run.
    - Integers are [Z]; where the code's width shows -- counters, spans, shifts,
      byte encodings, [as] casts -- the wrap-around is written out.
    - A time is an integer, and each reading of a clock is an argument.

    ** Parameters

    Code that is not the repository's is an argument, with what the program relies
    on as named laws: [Jsonb] (PostgreSQL's equality of jsonb), [Platform]
    (BLAKE3, base64, roaring bitmaps, the Parquet reader, Arrow's row format and
    the writer's sizes), [WritePlatform] (Arrow's sort and casts, JSON text),
    [IngestPlatform] (the decoding of events, the calendar), [DataFusionOps] (compiling and
    evaluating one expression), [SqlEngine] (planning and executing a statement),
    [PartListing] (the catalog as the query provider sees it), [Io] (the file
    system of the disk cache). BLAKE3 is never assumed injective: results that
    need it say "or two inputs collide". Every such law is satisfied by a concrete
    instance in the examples, which the witnesses run.

    ** Files, parts of the program, and what is shown

    _Foundations._ [Prelude] (results, shared tactics and hints), [Bytes]
    (encodings and prefix-freeness), [Json] (serde_json values), [Arrow] and
    [Batches] (schemas and record batches, columns and rows), [Types]
    (ukiel-core's records).

    _Core data_ (crates/ukiel-core). [KeyFilter] (keyfilter.rs): a key put in a
    filter is never denied, and where the SQL predicate and the reader differ.
    [Schema] (schema.rs, sorting.rs): the three schemas of a table are what its JSON
    declares.
    [Stats] (stats.rs): streaming statistics equal those of the whole batch, a
    bitmap decodes to its keys. [Operation], [OperationSpec] (operation.rs): an
    identity is a function of the logical intent, and names one.

    _The catalog_ (crates/ukiel-catalog). [CatalogError] (error.rs),
    [CatalogDb] (the tables), [Commit] (commit.rs, offsets.rs, faults.rs) with
    [CommitSpec] (a commit is all or nothing; its live set; conflicts, replays;
    a lost acknowledgement is decided by a lookup), [CommitHistory] (offsets are
    consumed in disjoint ascending ranges, history is append-only) and
    [CommitExamples]; [Leases] (leases.rs: exclusion, dead tokens stay dead);
    [Feed] (feed.rs, cursors.rs: replaying the feed is the live set) and
    [Barrier] (the advisory lock: a published head is complete); [Parts]
    (parts.rs) and [Pruning] (pruning loses no row); [CatalogGc] (gc.rs);
    [Tables] (tables.rs); [Pipelines] (pipelines.rs: the view graph stays
    acyclic).

    _Writing._ [Write], [WriteSpec], [Publish] (crates/ukiel-write: a file is its
    rows in order under metadata that describes them; an upload is always named
    by an intent or a part); [Expr] (crates/ukiel-expr: expressions only fill
    gaps); [Ingest], [IngestSpec], [IngestExamples] (crates/ukiel-ingest: every
    message is published once, a restart resumes after the last flush, readiness).

    _Rewriting_ (crates/ukiel-compactor). [Merge], [MergeSpec] (merge.rs: the
    sorted union, and no worse than its worst stream); [PartRead], [Rewrite],
    [RewriteSpec] (rewrite.rs: rows are conserved, ranges meet only where one key
    was split); [Compactor] with [CompactorPlan] (planner and candidate query
    agree), [SweepSpec] (the rotation is fair) and [CompactorSpec] (a merge keeps
    the rows, a lost lease harms nothing); [Deletion] (deletion.rs: a key's rows
    go, the others stay). [Gc] (crates/ukiel-gc: only what the catalog authorizes
    is deleted, a pass ends, and the listing backstop's race).

    _Views._ [SqlPipeline] (crates/ukiel-pipeline: what a statement may read and
    return) and [Mv], [MvSpec] (crates/ukiel-mv: a cursor never passes an event
    whose result is not committed; fleets are acyclic).

    _Queries_ (crates/ukiel-query). [Query], [QuerySpec] (provider.rs: isolation,
    and pruned scans are full scans); [QueryServer], [QueryServerSpec] (server.rs,
    results.rs, error.rs: statuses name their causes); [DiskCache],
    [DiskCacheSpec], [DiskCacheTheorems] (cache/disk.rs: budget and leases);
    [ObjectCache], [ObjectCacheSpec], [CachedReads], [ObjectUpload] (cache.rs:
    reads through the cache are reads of the store); [MetadataCache].

    _The daemon_ (crates/ukield). [Health], [Recovery], [Supervisor],
    [SupervisorSpec] (one supervised role: what its state means, when it may be
    rebuilt, how it ends); [Config], [ConfigSpec] (what startup accepts is safe to
    run), with [Float64] (doubles compare as the numbers they stand for); [Bootstrap], [BootstrapSpec] (a boot adds what is missing);
    [Collector] (the gauges); [Run], [RunSpec] (the process: its tasks, its join
    loop, what its readiness means, what stops it).

    _Tools._ [SkipIndex], [SkipIndexSpec] (skip-index sidecars never hide a row),
    [Fingerprints] (row multisets), [Synth], [SynthTopology] (the generator of
    fixtures), [Staging], [StagingSpec] (a fixture's rows regrouped as level-0 files,
    none lost), [Variants], [VariantsSpec] (one-variable Parquet variants).

    ** Fuel and bounds

    A loop that is not structural takes fuel, and a theorem says how much is
    enough: the garbage collector's drains take one step per unpurged row or
    intent and one to see none; a merge, one step per input row and stream; a
    sweep, one per page of its window; a directory walk, one per directory;
    staging's buffer, one per row it holds; the
    generator's bounded draw, 2^64 draws, written as 64 doublings; its placement
    and repair, one turn per edge or unit of degree ([turns]). Where the code may
    not end -- a role under an endless outage, a draw over all seeds -- the model
    is a relation or a stream of answers, and what is proved holds of every prefix.

    ** Not modelled

    The end-to-end tests, benchmarks and load drivers run the components above
    against real services and have no logic of the program's own beyond their
    reports. Sockets, HTTP routing, log lines and the export of metrics are I/O.
    DataFusion's rewrite of view types (view_types.rs) is a plan transformation of
    that library. The floating-point scaling of a fixture's profile and the values
    of its rows, the byte census of a Parquet file and the other laboratory tools
    measure; they decide nothing. Arrow IPC, the TOML and JSON parsers and the SQL
    planner are parameters. *)

From stdpp Require Export base tactics numbers list strings gmap sorting pretty.
From Stdlib Require Export ZArith Lia.

#[global] Open Scope Z_scope.

(** ** Results: Rust's [Result<A, E>] and its [?] operator *)

Inductive result (A E : Type) : Type :=
| Ok (a : A)
| Err (e : E).
Arguments Ok {A E} a.
Arguments Err {A E} e.

Declare Scope ukiel_scope.
Delimit Scope ukiel_scope with ukiel.

Definition rbind {A B E} (r : result A E) (k : A -> result B E) : result B E :=
  match r with
  | Ok a => k a
  | Err e => Err e
  end.

Definition map_err {A E F} (f : E -> F) (r : result A E) : result A F :=
  match r with
  | Ok a => Ok a
  | Err e => Err (f e)
  end.

Definition ok_or {A E} (o : option A) (e : E) : result A E :=
  match o with
  | Some a => Ok a
  | None => Err e
  end.

Notation "'let?' x ':=' e 'in' k" := (rbind e (fun x => k))
  (at level 10, x pattern, e at level 100, k at level 200) : ukiel_scope.
#[global] Open Scope ukiel_scope.

Definition is_ok {A E} (r : result A E) : bool :=
  match r with Ok _ => true | Err _ => false end.

#[global] Instance result_eq_dec {A E} `{EqDecision A} `{EqDecision E} :
  EqDecision (result A E).
Proof. solve_decision. Defined.

#[global] Instance Ok_inj {A E} : Inj (=) (=) (@Ok A E).
Proof. by intros a b [=]. Qed.

Lemma rbind_Ok {A B E} (r : result A E) (k : A -> result B E) b :
  rbind r k = Ok b -> exists a, r = Ok a /\ k a = Ok b.
Proof. destruct r; simpl; [eauto | discriminate]. Qed.

Lemma rbind_Err {A B E} (r : result A E) (k : A -> result B E) e :
  rbind r k = Err e -> r = Err e \/ exists a, r = Ok a /\ k a = Err e.
Proof. destruct r; simpl; [eauto | intros [= ->]; auto]. Qed.

(** [mapr f l]: [l.iter().map(f).collect::<Result<Vec<_>, _>>()], which stops
    at the first error. *)
Fixpoint mapr {A B E} (f : A -> result B E) (l : list A) : result (list B) E :=
  match l with
  | [] => Ok []
  | x :: l' => let? y := f x in let? ys := mapr f l' in Ok (y :: ys)
  end.

(** ** Tactics and hints shared by the components *)

Create HintDb ukiel.
Create Rewrite HintDb ukiel.
#[export] Hint Extern 2 (_ <= _) => lia : ukiel.
#[export] Hint Extern 2 (_ < _) => lia : ukiel.
#[export] Hint Extern 2 (@eq Z _ _) => lia : ukiel.

(** Opens every [Ok]-valued bind of the context. *)
Ltac inv_ok :=
  repeat match goal with
  | H : rbind _ _ = Ok _ |- _ =>
      let a := fresh "a" in let E := fresh "E" in
      apply rbind_Ok in H as (a & E & H)
  | H : Ok _ = Ok _ |- _ => injection H as H; subst
  | H : Err _ = Ok _ |- _ => discriminate H
  | H : Ok _ = Err _ |- _ => discriminate H
  end.

Lemma mapr_Forall2 {A B E} (f : A -> result B E) l ys :
  mapr f l = Ok ys -> List.Forall2 (fun x y => f x = Ok y) l ys.
Proof.
  revert ys. induction l as [|x l IH]; simpl; intros ys H; inv_ok; constructor; auto.
Qed.

(** Case analysis on every boolean test and match of a hypothesis. *)
Ltac split_if H :=
  repeat match type of H with
  | context [if ?b then _ else _] =>
      let E := fresh "E" in destruct b eqn:E; try discriminate H
  | context [match ?o with Some _ => _ | None => _ end] =>
      let E := fresh "E" in destruct o eqn:E; try discriminate H
  end.

(** Boolean comparisons of the context become propositions. *)
Ltac boolp :=
  repeat match goal with
  | H : andb _ _ = true |- _ => apply andb_true_iff in H as [? ?]
  | H : orb _ _ = false |- _ => apply orb_false_iff in H as [? ?]
  | H : negb _ = true |- _ => apply negb_true_iff in H
  | H : negb _ = false |- _ => apply negb_false_iff in H
  | H : (_ <? _) = true |- _ => apply Z.ltb_lt in H
  | H : (_ <? _) = false |- _ => apply Z.ltb_ge in H
  | H : (_ <=? _) = true |- _ => apply Z.leb_le in H
  | H : (_ <=? _) = false |- _ => apply Z.leb_gt in H
  | H : (_ =? _) = true |- _ => apply Z.eqb_eq in H
  | H : (_ =? _) = false |- _ => apply Z.eqb_neq in H
  | H : (_ >? _) = true |- _ => apply Z.gtb_lt in H
  | H : bool_decide _ = true |- _ => apply bool_decide_eq_true in H
  | H : bool_decide _ = false |- _ => apply bool_decide_eq_false in H
  end.

(** ** Machine integers *)

Definition i64_min : Z := - 2 ^ 63.
Definition i64_max : Z := 2 ^ 63 - 1.
Definition in_i64 (z : Z) : Prop := i64_min <= z <= i64_max.
Definition in_i32 (z : Z) : Prop := - 2 ^ 31 <= z <= 2 ^ 31 - 1.

#[global] Instance in_i64_dec z : Decision (in_i64 z).
Proof. unfold in_i64; apply _. Defined.

(** Two's-complement wrap-around: a release build's [+] on [i64]. *)
Definition wrap_i64 (z : Z) : Z := (z + 2 ^ 63) mod 2 ^ 64 - 2 ^ 63.

Lemma wrap_i64_id z : in_i64 z -> wrap_i64 z = z.
Proof. unfold in_i64, i64_min, i64_max, wrap_i64. intros. rewrite Z.mod_small; lia. Qed.

(** The list length as Rust's [usize], read as an integer. *)
Definition len {A} (l : list A) : Z := Z.of_nat (length l).

Lemma len_nil {A} : len (@nil A) = 0.
Proof. reflexivity. Qed.
Lemma len_cons {A} (x : A) l : len (x :: l) = len l + 1.
Proof. unfold len; simpl; lia. Qed.
Lemma len_app {A} (l k : list A) : len (l ++ k) = len l + len k.
Proof. unfold len; rewrite length_app; lia. Qed.
Lemma len_nonneg {A} (l : list A) : 0 <= len l.
Proof. unfold len; lia. Qed.
#[export] Hint Rewrite @len_nil @len_cons @len_app : ukiel.
#[export] Hint Resolve len_nonneg : ukiel.

(** ** Sorting by a total order *)

Lemma merge_sort_perm_eq {A} (R : relation A) `{forall x y, Decision (R x y)}
    `{!Transitive R} `{!Total R} `{!AntiSymm (=) R} (l k : list A) :
  l ≡ₚ k -> merge_sort R l = merge_sort R k.
Proof.
  intros Hp. apply (StronglySorted_unique R); [apply StronglySorted_merge_sort; done..|].
  by rewrite !merge_sort_Permutation.
Qed.

(** [windows(2)] of a slice. *)
Fixpoint windows2 {A} (l : list A) : list (A * A) :=
  match l with
  | x :: ((y :: _) as l') => (x, y) :: windows2 l'
  | _ => []
  end.

Lemma filter_In_iff {A} (f : A -> bool) l x : x ∈ List.filter f l <-> x ∈ l /\ f x = true.
Proof. rewrite !list_elem_of_In. apply List.filter_In. Qed.

(** [List.map] is stdpp's [fmap]. *)
Lemma lookup_map {A B} (f : A -> B) (l : list A) i : List.map f l !! i = f <$> l !! i.
Proof. apply list_lookup_fmap. Qed.

Lemma map_at {A B} (f : A -> B) (l : list A) i x : l !! i = Some x -> List.map f l !! i = Some (f x).
Proof. rewrite lookup_map. by intros ->. Qed.

(** A stronger filter that drops one more element keeps strictly fewer. *)
Lemma filter_length_strict {A} (f g : A -> bool) l x :
  (forall y, f y = true -> g y = true) -> List.In x l -> g x = true -> f x = false ->
  (length (List.filter f l) < length (List.filter g l))%nat.
Proof.
  intros Sub Hx Gx Fx.
  assert (Le : forall k, (length (List.filter f k) <= length (List.filter g k))%nat).
  { induction k as [|y k IH]; simpl; [done|]. specialize (Sub y).
    destruct (f y); [rewrite Sub by done; simpl; lia|]. destruct (g y); simpl; lia. }
  induction l as [|y l IH]; simpl; [done|]. destruct Hx as [->|Hx].
  - rewrite Fx, Gx. simpl. specialize (Le l). lia.
  - specialize (IH Hx). specialize (Sub y). destruct (f y); [rewrite Sub by done; simpl; lia|].
    destruct (g y); simpl; lia.
Qed.

(** ** Steps *)

(** A preorder that every step keeps relates the ends of every run. *)
Lemma rtc_within {A} (step R : relation A) x y :
  PreOrder R -> (forall a b, step a b -> R a b) -> rtc step x y -> R x y.
Proof. intros P K. induction 1 as [a|a b c S _ IH]; [done|]. etransitivity; [by apply K|exact IH]. Qed.
