(* ===== verification/Bytes.v ===== *)
(** * Byte strings, big-endian integers and prefix-free encodings

    Rust's [u64::to_be_bytes], [i64::to_be_bytes] and [str::as_bytes], with the
    combinators that prove a length-delimited encoding unambiguous. *)

From S2P Require Import Prelude.

(** [n] bytes of [z], most significant first. *)
Fixpoint be_bytes (n : nat) (z : Z) : list Z :=
  match n with
  | O => []
  | S n' => (z / 256 ^ Z.of_nat n') mod 256 :: be_bytes n' z
  end.

Definition u64_be (z : Z) : list Z := be_bytes 8 z.
(** Two's complement: the [i64]'s bits read as a [u64]. *)
Definition i64_be (z : Z) : list Z := be_bytes 8 (z mod 2 ^ 64).

#[global] Arguments u64_be : simpl never.
#[global] Arguments i64_be : simpl never.

Definition ascii_byte (a : Ascii.ascii) : Z := Z.of_N (Ascii.N_of_ascii a).

Fixpoint str_bytes (s : string) : list Z :=
  match s with
  | EmptyString => []
  | String a s' => ascii_byte a :: str_bytes s'
  end.

Definition str_len (s : string) : Z := Z.of_nat (String.length s).

Lemma be_bytes_length n z : length (be_bytes n z) = n.
Proof. induction n; simpl; congruence. Qed.

Lemma be_bytes_mod n z k :
  (n <= k)%nat -> be_bytes n (z mod 256 ^ Z.of_nat k) = be_bytes n z.
Proof.
  induction n as [|n IH]; intros Hk; simpl; [done|].
  f_equal; [|apply IH; lia].
  replace (Z.of_nat k) with (Z.of_nat n + (1 + Z.of_nat (k - n - 1))) by lia.
  rewrite !Z.pow_add_r by lia.
  set (P := 256 ^ Z.of_nat n). set (Q := 256 ^ Z.of_nat (k - n - 1)).
  assert (0 < P) by (apply Z.pow_pos_nonneg; lia).
  assert (0 < Q) by (apply Z.pow_pos_nonneg; lia).
  change (256 ^ 1) with 256.
  rewrite Z.rem_mul_r by nia.
  rewrite Z.add_comm, (Z.mul_comm P), Z.div_add_l by lia.
  rewrite (Z.div_small (z mod P)), Z.add_0_r by (apply Z.mod_pos_bound; lia).
  rewrite Z.rem_mul_r by lia.
  rewrite (Z.mul_comm 256), Z.mod_add, Z.mod_mod by lia. done.
Qed.

Lemma be_bytes_inj n x y :
  0 <= x < 256 ^ Z.of_nat n -> 0 <= y < 256 ^ Z.of_nat n ->
  be_bytes n x = be_bytes n y -> x = y.
Proof.
  revert x y. induction n as [|n IH]; intros x y Hx Hy H; simpl in *; [lia|].
  injection H as Hh Ht.
  rewrite Nat2Z.inj_succ, Z.pow_succ_r in Hx, Hy by lia.
  set (P := 256 ^ Z.of_nat n) in *.
  assert (HP : 0 < P) by (apply Z.pow_pos_nonneg; lia).
  assert (x mod P = y mod P) as Hm.
  { apply IH; [by apply Z.mod_pos_bound | by apply Z.mod_pos_bound|].
    unfold P. by rewrite !be_bytes_mod by lia. }
  rewrite (Z.mod_small (x / P)) in Hh
    by (split; [apply Z.div_pos; lia | apply Z.div_lt_upper_bound; lia]).
  rewrite (Z.mod_small (y / P)) in Hh
    by (split; [apply Z.div_pos; lia | apply Z.div_lt_upper_bound; lia]).
  rewrite (Z.div_mod x P), (Z.div_mod y P) by lia. congruence.
Qed.

Lemma ascii_byte_inj a b : ascii_byte a = ascii_byte b -> a = b.
Proof.
  unfold ascii_byte. intros H%N2Z.inj.
  by rewrite <- (Ascii.ascii_N_embedding a), <- (Ascii.ascii_N_embedding b), H.
Qed.

Lemma str_bytes_length s : length (str_bytes s) = String.length s.
Proof. induction s; simpl; congruence. Qed.

Lemma str_bytes_inj s t : str_bytes s = str_bytes t -> s = t.
Proof.
  revert t. induction s as [|a s IH]; intros [|b t]; try discriminate; [done|].
  simpl. intros [= H1%ascii_byte_inj H2%IH]. congruence.
Qed.

(** ** Prefix-free encodings *)

(** [e] is decodable at [a], up to [R], whatever follows; [P] bounds the
    values the program can hold. *)
Definition pf_at {A} (P : A -> Prop) (R : A -> A -> Prop) (e : A -> list Z) (a : A) : Prop :=
  forall b r1 r2, P a -> P b -> e a ++ r1 = e b ++ r2 -> R a b /\ r1 = r2.

Definition prefix_free {A} (P : A -> Prop) (R : A -> A -> Prop) (e : A -> list Z) : Prop :=
  forall a, pf_at P R e a.

Lemma app_same_length {A} (l1 l2 r1 r2 : list A) :
  length l1 = length l2 -> l1 ++ r1 = l2 ++ r2 -> l1 = l2 /\ r1 = r2.
Proof.
  revert l2. induction l1 as [|x l1 IH]; intros [|y l2] L; try discriminate; [done|].
  simpl. intros [= -> H]. destruct (IH l2) as [-> ->]; [simpl in L; lia|done|done].
Qed.

Lemma pf_u64 : prefix_free (fun z => 0 <= z < 2 ^ 64) eq u64_be.
Proof.
  intros a b r1 r2 Ha Hb H. apply app_same_length in H as [H ->]; [|done].
  split; [|done]. by apply (be_bytes_inj 8).
Qed.

Lemma pf_i64 : prefix_free in_i64 eq i64_be.
Proof.
  intros a b r1 r2 Ha Hb H. apply app_same_length in H as [H ->]; [|done].
  split; [|done]. apply (be_bytes_inj 8) in H; [|by apply Z.mod_pos_bound..].
  unfold in_i64, i64_min, i64_max in *.
  pose proof (Z.div_mod a (2 ^ 64)). pose proof (Z.div_mod b (2 ^ 64)).
  pose proof (Z.mod_pos_bound a (2 ^ 64)). pose proof (Z.mod_pos_bound b (2 ^ 64)). lia.
Qed.

(** A string behind its length. *)
Definition enc_delimited (s : string) : list Z := u64_be (str_len s) ++ str_bytes s.

Definition small_string (s : string) : Prop := str_len s < 2 ^ 64.
#[global] Instance small_string_dec s : Decision (small_string s).
Proof. unfold small_string; apply _. Defined.

Lemma pf_delimited : prefix_free small_string eq enc_delimited.
Proof.
  intros a b r1 r2 Ha Hb. unfold enc_delimited. rewrite <- !app_assoc.
  intros [L H]%pf_u64; [|unfold small_string, str_len in *; lia..].
  apply app_same_length in H as [H ->];
    [|rewrite !str_bytes_length; unfold str_len in L; lia].
  split; [|done]. by apply str_bytes_inj.
Qed.

Lemma tag_inv {A} (t : A) a b r1 r2 : (t :: a) ++ r1 = (t :: b) ++ r2 -> a ++ r1 = b ++ r2.
Proof. simpl. congruence. Qed.

Lemma pf_tag {A} (tag : Z) P R (e : A -> list Z) :
  prefix_free P R e -> prefix_free P R (fun a => tag :: e a).
Proof. intros He a b r1 r2 Ha Hb H%tag_inv. by apply He in H. Qed.

Lemma pf_list_same_length {A} (P : A -> Prop) (R : A -> A -> Prop) (e : A -> list Z) l k r1 r2 :
  List.Forall (pf_at P R e) l ->
  length l = length k -> List.Forall P l -> List.Forall P k ->
  List.flat_map e l ++ r1 = List.flat_map e k ++ r2 -> List.Forall2 R l k /\ r1 = r2.
Proof.
  intros He. revert k. induction He as [|x l He _ IH]; intros [|y k] L Hl Hk H; try discriminate.
  - split; [constructor|done].
  - simpl in *. rewrite <- !app_assoc in H.
    apply List.Forall_cons_iff in Hl as [Hx Hl]. apply List.Forall_cons_iff in Hk as [Hy Hk].
    apply He in H as [HR H]; [|done|done].
    apply IH in H as [HR' ->]; [|lia|done|done]. split; [by constructor|done].
Qed.

(** A list behind its length. *)
Definition enc_list {A} (e : A -> list Z) (l : list A) : list Z :=
  u64_be (len l) ++ List.flat_map e l.

Definition small_list {A} (l : list A) : Prop := len l < 2 ^ 64.

Lemma pf_list_at {A} (P : A -> Prop) (R : A -> A -> Prop) (e : A -> list Z) l :
  List.Forall (pf_at P R e) l ->
  pf_at (fun l => small_list l /\ List.Forall P l) (List.Forall2 R) (enc_list e) l.
Proof.
  intros He k r1 r2 [Sl Hl] [Sk Hk]. unfold enc_list. rewrite <- !app_assoc.
  intros [L H]%pf_u64; [|unfold small_list, len in *; lia..].
  eapply pf_list_same_length in H; eauto. unfold len in L. lia.
Qed.

Lemma pf_list {A} (P : A -> Prop) (R : A -> A -> Prop) (e : A -> list Z) :
  prefix_free P R e ->
  prefix_free (fun l => small_list l /\ List.Forall P l) (List.Forall2 R) (enc_list e).
Proof. intros He l. apply pf_list_at, List.Forall_forall. intros x _. apply He. Qed.

Lemma pf_pair {A B} (PA : A -> Prop) RA (ea : A -> list Z) (PB : B -> Prop) RB (eb : B -> list Z) a b :
  pf_at PA RA ea a -> pf_at PB RB eb b ->
  pf_at (fun p => PA p.1 /\ PB p.2) (fun p q => RA p.1 q.1 /\ RB p.2 q.2)
        (fun p => ea p.1 ++ eb p.2) (a, b).
Proof.
  intros Ha Hb [a' b'] r1 r2 [Pa Pb] [Pa' Pb']; simpl. rewrite <- !app_assoc.
  intros [RA' H]%Ha; [|done..]. by apply Hb in H as [RB' ->].
Qed.

Lemma Forall2_eq {A} (l k : list A) : List.Forall2 eq l k -> l = k.
Proof. induction 1; congruence. Qed.

(** ** Little-endian integers *)

(** [to_le_bytes], [from_le_bytes]. *)
Fixpoint le_bytes (n : nat) (z : Z) : list Z :=
  match n with O => [] | S n => z mod 256 :: le_bytes n (z / 256) end.
Fixpoint of_le (bs : list Z) : Z :=
  match bs with [] => 0 | b :: bs => b + 256 * of_le bs end.

Lemma le_bytes_length n z : length (le_bytes n z) = n.
Proof. revert z. induction n as [|n IH]; intros z; simpl; [done|]. by rewrite IH. Qed.

Lemma of_le_bytes n z : of_le (le_bytes n z) = z mod 256 ^ Z.of_nat n.
Proof.
  revert z. induction n as [|n IH]; intros z; simpl; [by rewrite Z.mod_1_r|].
  rewrite IH, Nat2Z.inj_succ, Z.pow_succ_r by lia.
  assert (0 < 256 ^ Z.of_nat n) by (apply Z.pow_pos_nonneg; lia). rewrite Z.rem_mul_r by lia. done.
Qed.

Lemma le_bytes_inj n x y : 0 <= x < 256 ^ Z.of_nat n -> 0 <= y < 256 ^ Z.of_nat n -> le_bytes n x = le_bytes n y -> x = y.
Proof. intros Hx Hy H. apply (f_equal of_le) in H. by rewrite !of_le_bytes, !Z.mod_small in H. Qed.

(** Two's complement on [n] bytes. *)
Definition le_signed (n : nat) (z : Z) : list Z := le_bytes n (z mod 256 ^ Z.of_nat n).

Lemma pf_le n : prefix_free (fun z => 0 <= z < 256 ^ Z.of_nat n) eq (le_bytes n).
Proof.
  intros a b r1 r2 Ha Hb H. apply app_same_length in H as [H ->]; [|by rewrite !le_bytes_length].
  split; [|done]. by apply (le_bytes_inj n).
Qed.

Lemma pf_le_signed n : (0 < n)%nat -> prefix_free (fun z => - 256 ^ Z.of_nat n <= 2 * z < 256 ^ Z.of_nat n) eq (le_signed n).
Proof.
  intros Hn a b r1 r2 Ha Hb H. assert (0 < 256 ^ Z.of_nat n) by (apply Z.pow_pos_nonneg; lia).
  apply pf_le in H as [H ->]; [|by apply Z.mod_pos_bound..]. split; [|done].
  set (P := 256 ^ Z.of_nat n) in *. pose proof (Z.div_mod a P ltac:(lia)) as Da. pose proof (Z.div_mod b P ltac:(lia)) as Db. rewrite H in Da.
  assert (D : a - b = P * (a / P - b / P)) by lia. assert (- P < a - b < P) by lia.
  assert (a / P - b / P = 0) by nia. lia.
Qed.

#[export] Hint Resolve pf_u64 pf_i64 pf_delimited : ukiel.
