(* ===== verification/Json.v ===== *)
(** * JSON values (the part of serde_json the program relies on)

    [Value] as the program sees it.  [serde_json::Map] is a [BTreeMap] (the
    [preserve_order] feature is off), so an object is an association list in
    ascending key order with one entry per key ([json_wf]).  A number is an
    integer or a float, of which the program only reads the text. *)

From S2P Require Import Prelude Bytes.

Inductive json_number :=
| NumInt (z : Z)
| NumFloat (repr : string).

#[local] Unset Elimination Schemes.
Inductive json :=
| JNull
| JBool (b : bool)
| JNumber (n : json_number)
| JString (s : string)
| JArray (items : list json)
| JObject (map : list (string * json)).
#[local] Set Elimination Schemes.

Definition num_to_string (n : json_number) : string :=
  match n with NumInt z => pretty z | NumFloat s => s end.

(** ** Accessors *)

Fixpoint assoc {A} (k : string) (m : list (string * A)) : option A :=
  match m with
  | [] => None
  | (k', v) :: m' => if String.eqb k k' then Some v else assoc k m'
  end.

Definition jget (v : json) (k : string) : option json :=
  match v with JObject m => assoc k m | _ => None end.
Definition as_str (v : json) : option string :=
  match v with JString s => Some s | _ => None end.
Definition as_bool (v : json) : option bool :=
  match v with JBool b => Some b | _ => None end.
Definition as_array (v : json) : option (list json) :=
  match v with JArray l => Some l | _ => None end.
Definition as_object (v : json) : option (list (string * json)) :=
  match v with JObject m => Some m | _ => None end.
Definition as_i64 (v : json) : option Z :=
  match v with
  | JNumber (NumInt z) => if bool_decide (in_i64 z) then Some z else None
  | _ => None
  end.
Definition jint (z : Z) : json := JNumber (NumInt z).

(** [Map::insert]: replaces the entry or adds it in key order. *)
Fixpoint jinsert {A} (k : string) (v : A) (m : list (string * A)) : list (string * A) :=
  match m with
  | [] => [(k, v)]
  | (k', v') :: m' =>
      match String.compare k k' with
      | Eq => (k, v) :: m'
      | Lt => (k, v) :: (k', v') :: m'
      | Gt => (k', v') :: jinsert k v m'
      end
  end.

(** ** Induction over the nested type *)

Section json_ind.
Variable P : json -> Prop.
Hypothesis Hnull : P JNull.
Hypothesis Hbool : forall b, P (JBool b).
Hypothesis Hnum : forall n, P (JNumber n).
Hypothesis Hstr : forall s, P (JString s).
Hypothesis Harr : forall l, List.Forall P l -> P (JArray l).
Hypothesis Hobj : forall m, List.Forall (fun kv => P kv.2) m -> P (JObject m).

Fixpoint json_nested_ind (v : json) : P v :=
  match v with
  | JNull => Hnull
  | JBool b => Hbool b
  | JNumber n => Hnum n
  | JString s => Hstr s
  | JArray l =>
      Harr l ((fix go (l : list json) : List.Forall P l :=
        match l with
        | [] => List.Forall_nil P
        | x :: l' => @List.Forall_cons _ P x l' (json_nested_ind x) (go l')
        end) l)
  | JObject m =>
      Hobj m ((fix go (m : list (string * json)) : List.Forall (fun kv => P kv.2) m :=
        match m with
        | [] => List.Forall_nil _
        | kv :: m' => @List.Forall_cons _ _ kv m' (json_nested_ind kv.2) (go m')
        end) m)
  end.
End json_ind.

(** ** Decidable equality ([PartialEq] on [Value]) *)

#[global] Instance json_number_eq_dec : EqDecision json_number.
Proof. solve_decision. Defined.

Fixpoint list_eqb {A} (eqb : A -> A -> bool) (l k : list A) : bool :=
  match l, k with
  | [], [] => true
  | x :: l', y :: k' => eqb x y && list_eqb eqb l' k'
  | _, _ => false
  end.

Fixpoint json_eqb (a b : json) : bool :=
  match a, b with
  | JNull, JNull => true
  | JBool x, JBool y => Bool.eqb x y
  | JNumber m, JNumber n => bool_decide (m = n)
  | JString s, JString t => String.eqb s t
  | JArray l, JArray k => list_eqb json_eqb l k
  | JObject l, JObject k =>
      list_eqb (fun p q => String.eqb p.1 q.1 && json_eqb p.2 q.2) l k
  | _, _ => false
  end.

Lemma list_eqb_spec {A} (eqb : A -> A -> bool) l k :
  List.Forall (fun x => forall y, eqb x y = true <-> x = y) l ->
  list_eqb eqb l k = true <-> l = k.
Proof.
  intros H. revert k. induction H as [|x l Hx _ IH]; intros [|y k]; simpl; try done.
  rewrite andb_true_iff, Hx, IH. split; [by intros [-> ->] | by intros [= -> ->]].
Qed.

Lemma json_eqb_eq a b : json_eqb a b = true <-> a = b.
Proof.
  revert b. induction a using json_nested_ind; intros []; simpl; try done.
  - rewrite Bool.eqb_true_iff. naive_solver.
  - rewrite bool_decide_eq_true. naive_solver.
  - rewrite String.eqb_eq. naive_solver.
  - rewrite list_eqb_spec by done. naive_solver.
  - rewrite list_eqb_spec; [naive_solver|].
    eapply List.Forall_impl; [|exact H]. intros [k v] Hv [k' v']; simpl in *.
    rewrite andb_true_iff, String.eqb_eq, Hv. split; [by intros [-> ->] | by intros [= -> ->]].
Qed.

#[global] Instance json_eq_dec : EqDecision json.
Proof.
  intros a b. destruct (json_eqb a b) eqn:E.
  - left. by apply json_eqb_eq.
  - right. intros H%json_eqb_eq. congruence.
Defined.

(** ** Well-formed values and their normal form *)

Definition keys_sorted (ks : list string) : Prop :=
  StronglySorted String.le ks /\ NoDup ks.

Fixpoint json_wf (v : json) : Prop :=
  match v with
  | JNumber n => small_string (num_to_string n)
  | JString s => small_string s
  | JArray l =>
      small_list l /\
      (fix go (l : list json) : Prop :=
         match l with [] => True | x :: l' => json_wf x /\ go l' end) l
  | JObject m =>
      small_list m /\ NoDup (m.*1) /\
      (fix go (m : list (string * json)) : Prop :=
         match m with
         | [] => True
         | kv :: m' => (small_string kv.1 /\ json_wf kv.2) /\ go m'
         end) m
  | _ => True
  end.

Lemma json_wf_array l :
  json_wf (JArray l) <-> small_list l /\ List.Forall json_wf l.
Proof.
  simpl. apply and_iff_compat_l. induction l as [|x l IH]; [by split; constructor|].
  rewrite List.Forall_cons_iff. by rewrite <- IH.
Qed.

Lemma json_wf_object m :
  json_wf (JObject m) <->
  small_list m /\ NoDup (m.*1) /\
  List.Forall (fun kv => small_string kv.1 /\ json_wf kv.2) m.
Proof.
  simpl. apply and_iff_compat_l, and_iff_compat_l.
  induction m as [|x m IH]; [by split; constructor|].
  rewrite List.Forall_cons_iff. by rewrite <- IH.
Qed.

(** Entries in key order. *)
Definition entry_le {A} (p q : string * A) : Prop := String.le p.1 q.1.
#[global] Instance entry_le_dec {A} : RelDecision (@entry_le A).
Proof. unfold entry_le. intros p q. apply _. Defined.

Definition sort_entries {A} (m : list (string * A)) : list (string * A) :=
  merge_sort entry_le m.

(** Keys sorted, numbers by their text: two values with one normal form are
    the same value to the program. *)
Fixpoint json_norm (v : json) : json :=
  match v with
  | JNumber n => JNumber (NumFloat (num_to_string n))
  | JArray l => JArray (List.map json_norm l)
  | JObject m => JObject (sort_entries (List.map (fun kv => (kv.1, json_norm kv.2)) m))
  | _ => v
  end.

Definition json_equiv (a b : json) : Prop := json_norm a = json_norm b.

#[global] Instance json_equiv_equivalence : Equivalence json_equiv.
Proof. unfold json_equiv. split; [done | by intros ?? -> | by intros ??? -> ->]. Qed.

#[global] Instance entry_le_preorder {A} : PreOrder (@entry_le A).
Proof.
  unfold entry_le. split; [intros p; reflexivity | intros p q r; apply transitivity].
Qed.

#[global] Instance entry_le_total {A} : Total (@entry_le A).
Proof. intros p q. unfold entry_le. apply (total String.le). Qed.

Lemma sort_entries_perm {A} (m : list (string * A)) : sort_entries m ≡ₚ m.
Proof. apply merge_sort_Permutation. Qed.

Lemma sort_entries_sorted {A} (m : list (string * A)) :
  StronglySorted entry_le (sort_entries m).
Proof. apply StronglySorted_merge_sort; apply _. Qed.

(** Sorting the keys and looking each one up is sorting the entries. *)
Lemma assoc_In {A} k (v : A) m : NoDup (m.*1) -> List.In (k, v) m -> assoc k m = Some v.
Proof.
  induction m as [|[k' v'] m IH]; simpl; [done|].
  intros [Hn Hd]%NoDup_cons [[= -> ->]|Hin].
  - by rewrite String.eqb_refl.
  - destruct (String.eqb_spec k k') as [->|]; [|auto].
    destruct Hn. apply list_elem_of_In. by apply (List.in_map fst) in Hin.
Qed.

Lemma sorted_keys_unique (l k : list string) :
  StronglySorted String.le l -> StronglySorted String.le k -> l ≡ₚ k -> l = k.
Proof. intros Hl Hk. apply (StronglySorted_unique String.le); assumption. Qed.

Lemma sort_entries_keys {A} (m : list (string * A)) :
  (sort_entries m).*1 = merge_sort String.le (m.*1).
Proof.
  apply sorted_keys_unique.
  - pose proof (sort_entries_sorted m) as H. induction H as [|p l _ IH Hp]; simpl; constructor; auto.
    apply Forall_fmap. done.
  - apply StronglySorted_merge_sort; apply _.
  - rewrite sort_entries_perm. by rewrite merge_sort_Permutation.
Qed.

Lemma map_sort_entries {A B} (f : A -> B) (m : list (string * A)) :
  NoDup (m.*1) ->
  sort_entries (List.map (fun kv => (kv.1, f kv.2)) m)
  = List.map (fun kv => (kv.1, f kv.2)) (sort_entries m).
Proof.
  intros Hn.
  assert (Hk : (List.map (fun kv => (kv.1, f kv.2)) m).*1 = m.*1).
  { clear Hn. induction m as [|x m IH]; simpl; [done|]. f_equal. exact IH. }
  apply (StronglySorted_unique_strong entry_le).
  - intros [k1 v1] [k2 v2] H1 H2 L1 L2. unfold entry_le in *; simpl in *.
    assert (k1 = k2) as -> by (apply (anti_symm String.le); done).
    f_equal. rewrite sort_entries_perm in H1.
    assert (H2' : (k2, v2) ∈ List.map (fun kv => (kv.1, f kv.2)) m).
    { apply list_elem_of_In in H2. apply list_elem_of_In.
      rewrite in_map_iff in *. destruct H2 as (x & E & Hx).
      exists x. split; [done|]. apply list_elem_of_In.
      rewrite <- sort_entries_perm. by apply list_elem_of_In. }
    apply list_elem_of_In in H1. apply list_elem_of_In in H2'.
    rewrite <- Hk in Hn.
    apply (assoc_In _ _ _ Hn) in H1. apply (assoc_In _ _ _ Hn) in H2'. congruence.
  - apply sort_entries_sorted.
  - pose proof (sort_entries_sorted m) as H.
    induction H as [|p l _ IH Hp]; simpl; constructor; auto.
    apply Forall_fmap. done.
  - rewrite sort_entries_perm. symmetry. apply Permutation_map, sort_entries_perm.
Qed.

(** ** Maps in key order *)

Definition slt (a b : string) : Prop := String.le a b /\ a <> b.

Lemma string_compare_refl a : String.compare a a = Eq.
Proof.
  induction a as [|c a IH]; simpl; [done|].
  unfold Ascii.compare. by rewrite N.compare_refl.
Qed.

Lemma compare_spec a b :
  match String.compare a b with
  | Lt => slt a b
  | Eq => a = b
  | Gt => slt b a
  end.
Proof.
  unfold slt, String.le, String.leb.
  destruct (String.compare a b) eqn:E.
  - by apply String.compare_eq_iff.
  - split; [done|]. intros ->. by rewrite string_compare_refl in E.
  - rewrite String.compare_antisym, E. split; [done|].
    intros ->. by rewrite string_compare_refl in E.
Qed.

#[global] Instance slt_trans : Transitive slt.
Proof.
  intros a b c [L1 N1] [L2 N2]. split; [by transitivity b|].
  intros ->. apply N1. by apply (anti_symm String.le).
Qed.

Lemma slt_irrefl a : ~ slt a a.
Proof. by intros [_ []]. Qed.

Definition map_sorted {A} (m : list (string * A)) : Prop := StronglySorted slt (List.map fst m).

Lemma jinsert_key_In {A} k (v : A) m k' :
  List.In k' (List.map fst (jinsert k v m)) <-> k' = k \/ List.In k' (List.map fst m).
Proof.
  induction m as [|[k0 v0] m IH]; simpl; [intuition congruence|].
  pose proof (compare_spec k k0) as C.
  destruct (String.compare k k0); simpl; [subst|..]; rewrite ?IH; intuition congruence.
Qed.

Lemma jinsert_sorted {A} k (v : A) m : map_sorted m -> map_sorted (jinsert k v m).
Proof.
  unfold map_sorted. induction m as [|[k0 v0] m IH]; simpl; intros H; [repeat constructor|].
  inversion H as [|? ? Hs Hk]; subst. pose proof (compare_spec k k0) as C.
  destruct (String.compare k k0); simpl.
  - subst. by constructor.
  - constructor; [done|]. constructor; [done|].
    eapply List.Forall_impl; [|exact Hk]. intros x Hx. by transitivity k0.
  - constructor; [by apply IH|]. apply List.Forall_forall. intros x [->|Hx]%jinsert_key_In; [done|].
    rewrite List.Forall_forall in Hk. auto.
Qed.

Lemma assoc_not_In {A} k (m : list (string * A)) : ~ List.In k (List.map fst m) -> assoc k m = None.
Proof.
  induction m as [|[k0 v0] m IH]; simpl; [done|]. intros H.
  destruct (String.eqb_spec k k0) as [->|]; [tauto|]. apply IH. tauto.
Qed.

Lemma assoc_Some_In {A} k (v : A) m : assoc k m = Some v -> List.In (k, v) m.
Proof.
  induction m as [|[k0 v0] m IH]; simpl; [done|].
  destruct (String.eqb_spec k k0) as [->|]; [|auto]. intros [= ->]. auto.
Qed.

Lemma assoc_jinsert {A} k k' (v : A) m :
  map_sorted m -> assoc k' (jinsert k v m) = if String.eqb k' k then Some v else assoc k' m.
Proof.
  unfold map_sorted. induction m as [|[k0 v0] m IH]; simpl; intros H; [done|].
  inversion H as [|? ? Hs Hk]; subst. pose proof (compare_spec k k0) as C.
  destruct (String.compare k k0); simpl.
  - subst. by destruct (String.eqb_spec k' k0).
  - done.
  - rewrite IH by done. destruct (String.eqb_spec k' k0) as [->|]; [|done].
    destruct (String.eqb_spec k0 k) as [->|]; [|done]. by apply slt_irrefl in C.
Qed.

Lemma map_sorted_assoc_eq {A} (m1 m2 : list (string * A)) :
  map_sorted m1 -> map_sorted m2 -> (forall k, assoc k m1 = assoc k m2) -> m1 = m2.
Proof.
  unfold map_sorted. revert m2. induction m1 as [|[k1 v1] m1 IH]; intros [|[k2 v2] m2] H1 H2 E.
  - done.
  - specialize (E k2). simpl in E. by rewrite String.eqb_refl in E.
  - specialize (E k1). simpl in E. by rewrite String.eqb_refl in E.
  - inversion H1 as [|? ? S1 F1]; inversion H2 as [|? ? S2 F2]; subst. simpl in *.
    assert (A1 : forall k, List.In k (List.map fst m1) -> slt k1 k)
      by (by apply List.Forall_forall).
    assert (A2 : forall k, List.In k (List.map fst m2) -> slt k2 k)
      by (by apply List.Forall_forall).
    assert (k1 = k2) as ->.
    { pose proof (E k1) as E1. pose proof (E k2) as E2. simpl in E1, E2.
      rewrite String.eqb_refl in E1, E2.
      destruct (String.eqb_spec k1 k2) as [|N]; [done|].
      destruct (String.eqb_spec k2 k1) as [|N']; [done|].
      symmetry in E1. apply assoc_Some_In, (List.in_map fst), A2 in E1.
      apply assoc_Some_In, (List.in_map fst), A1 in E2. simpl in *.
      exfalso. apply (slt_irrefl k1). by transitivity k2. }
    f_equal.
    + specialize (E k2). rewrite String.eqb_refl in E. congruence.
    + apply IH; [done|done|]. intros k. specialize (E k).
      destruct (String.eqb_spec k k2) as [Ek|Nk]; [subst k|exact E].
      rewrite !assoc_not_In; [done|..].
      * intros Hin%A2. by apply slt_irrefl in Hin.
      * intros Hin%A1. by apply slt_irrefl in Hin.
Qed.
