(* ===== verification/Types.v ===== *)
(** * Shared types (crates/ukiel-core: ids, part, commit, table, pipeline) *)

From S2P Require Import Prelude Bytes Json.

(** The id newtypes over [i64] (ids.rs). *)
Definition HypertableId := Z.
Definition LogicalTableId := Z.
Definition PartId := Z.
Definition CommitId := Z.
Definition NamespaceId := Z.
Definition PipelineId := Z.
Definition StreamTableId := Z.

(** ** part.rs *)

Record PartMeta := mkPartMeta {
  path : string;
  partition_values : json;
  packing_key_min : Z;
  packing_key_max : Z;
  row_count : Z;
  size_bytes : Z;
  level : Z;
  column_stats : option json;
}.

Record ColumnRange := mkColumnRange {
  column : string;
  cr_min : option Z;
  cr_max : option Z;
}.

Record Part := mkPart {
  part_id : PartId;
  part_hypertable_id : HypertableId;
  meta : PartMeta;
  created_by_commit : CommitId;
}.

(** ** commit.rs *)

Inductive CommitOp :=
| Add (parts : list PartMeta)
| Replace (old : list PartId) (new : list PartMeta)
| Delete (parts : list PartId).

Definition kind (op : CommitOp) : string :=
  match op with
  | Add _ => "add"
  | Replace _ _ => "replace"
  | Delete _ => "delete"
  end.

Inductive CommitResult :=
| Committed (id : CommitId)
| AlreadyApplied (id : CommitId).

Definition commit_id (r : CommitResult) : CommitId :=
  match r with Committed id | AlreadyApplied id => id end.

Record ChangeEvent := mkChangeEvent {
  ev_commit_id : CommitId;
  ev_kind : string;
  added : list Part;
  removed : list PartId;
}.

(** ** table.rs *)

Inductive Placement :=
| Packed
| Separated
| SizeTargeted (n : Z).

Definition from_db (target_file_bytes : option Z) : Placement :=
  match target_file_bytes with
  | None => Packed
  | Some n => if n <=? 0 then Separated else SizeTargeted n
  end.

Definition to_db (p : Placement) : option Z :=
  match p with
  | Packed => None
  | Separated => Some 0
  | SizeTargeted n => Some n
  end.

Record Hypertable := mkHypertable {
  ht_id : HypertableId;
  ht_name : string;
  table_schema : json;
  partition_spec : json;
  sort_key : list string;
  packing_key : string;
  placement : Placement;
}.

Record LogicalTable := mkLogicalTable {
  lt_id : LogicalTableId;
  lt_namespace_id : NamespaceId;
  lt_name : string;
  lt_hypertable_id : HypertableId;
  column_mapping : option json;
}.

(** ** pipeline.rs *)

Inductive EndpointKind := KKafka | KParquet.

Inductive Endpoint :=
| Kafka (id : StreamTableId)
| Parquet (id : HypertableId).

Definition endpoint_kind (e : Endpoint) : EndpointKind :=
  match e with Kafka _ => KKafka | Parquet _ => KParquet end.
Definition endpoint_id (e : Endpoint) : Z :=
  match e with Kafka id | Parquet id => id end.

Inductive ErrorPolicy := Stall | Skip.
Inductive Delivery := ExactlyOnce.

Record StreamTableDefinition := mkStreamTableDefinition {
  st_name : string; st_topic : string; st_format : string; st_schema : json;
}.
Record StreamTable := mkStreamTable { st_id : StreamTableId; st_definition : StreamTableDefinition }.

Record PipelineDefinition := mkPipelineDefinition {
  pl_name : string;
  pl_source : Endpoint;
  pl_target : HypertableId;
  pl_sql : string;
  pl_delivery : Delivery;
  pl_error_policy : ErrorPolicy;
  pl_event_time_column : option string;
}.
Record Pipeline := mkPipeline { pl_id : PipelineId; pl_definition : PipelineDefinition }.

#[global] Instance Placement_eq_dec : EqDecision Placement.
Proof. solve_decision. Defined.
#[global] Instance PartMeta_eq_dec : EqDecision PartMeta.
Proof. solve_decision. Defined.
#[global] Instance Part_eq_dec : EqDecision Part.
Proof. solve_decision. Defined.
#[global] Instance CommitResult_eq_dec : EqDecision CommitResult.
Proof. solve_decision. Defined.
#[global] Instance Endpoint_eq_dec : EqDecision Endpoint.
Proof. solve_decision. Defined.
#[global] Instance ErrorPolicy_eq_dec : EqDecision ErrorPolicy.
Proof. solve_decision. Defined.
#[global] Instance Delivery_eq_dec : EqDecision Delivery.
Proof. solve_decision. Defined.
#[global] Instance StreamTableDefinition_eq_dec : EqDecision StreamTableDefinition.
Proof. solve_decision. Defined.
#[global] Instance PipelineDefinition_eq_dec : EqDecision PipelineDefinition.
Proof. solve_decision. Defined.

(** The database encoding of a placement that a table can hold ([to_db] of a
    non-positive size target is what [from_db] guards against). *)
Definition placement_valid (p : Placement) : Prop :=
  match p with SizeTargeted n => 0 < n | _ => True end.

(** a placement survives the round trip through the database exactly when
    its size target is positive, and whatever the column holds reads back as a
    valid placement. *)
Theorem placement_round_trip p :
  (from_db (to_db p) = p <-> placement_valid p) /\
  (forall target_file_bytes, placement_valid (from_db target_file_bytes)).
Proof.
  split.
  - destruct p as [| |n]; simpl; [done..|].
    destruct (Z.leb_spec n 0); split; [discriminate|lia|lia|done].
  - intros [n|]; simpl; [|done]. destruct (Z.leb_spec n 0); simpl; lia || done.
Qed.
