(* ===== verification/KeyFilter.v ===== *)
(** * The key filter (crates/ukiel-core/src/keyfilter.rs)

    A versioned, three-tier Bloom filter over a part's packing keys.  The
    catalog uses it to drop the parts it can prove do not hold a key. *)

From S2P Require Import Prelude.

Module KeyFilter.

Definition KEY_FILTER_V1 : Z := 1.
Definition PROBES : nat := 4.

Record Tier := mkTier { bytes : Z; supported_keys : Z }.

Definition TIERS : list Tier :=
  [mkTier 128 80; mkTier 1024 640; mkTier 2048 1280].

Definition last_tier : Tier := mkTier 2048 1280.

Definition SUPPORTED_KEYS : Z := supported_keys (List.last TIERS last_tier).
Definition MAX_KEYS_WORTH_FILTERING : Z := 8000.

Definition tier_for (keys : Z) : Tier :=
  match List.find (fun t => keys <=? supported_keys t) TIERS with
  | Some t => t
  | None => List.last TIERS last_tier
  end.

Definition encoded_len_for (keys : Z) : Z :=
  if (keys <=? 1) || (keys >? MAX_KEYS_WORTH_FILTERING) then 0
  else 1 + bytes (tier_for keys).

Record Probe := mkProbe { byte : Z; mask : Z }.

Definition HASH_PRIME : Z := 2147483647.

Definition PROBE_PARAMS : list (Z * Z) :=
  [(1640531527, 1013904223);
   (1103515245, 12345);
   (1664525, 1566083941);
   (2654435761 mod HASH_PRIME, 362437)].

(** [key.rem_euclid(HASH_PRIME)] is [Z.modulo]: the divisor is positive. *)
Definition bit_index (key : Z) (probe : nat) (bits : Z) : Z :=
  let k := key mod HASH_PRIME in
  let '(a, b) := List.nth probe PROBE_PARAMS (0, 0) in
  (((a * k + b) mod HASH_PRIME) mod bits).

Definition probes (key bits : Z) : list Probe :=
  List.map (fun probe =>
    let bit := bit_index key probe bits in
    mkProbe (1 + bit / 8) (Z.shiftl 1 (bit mod 8)))
    (List.seq 0 PROBES).

(** A blob is a list of bytes, each a [Z] in [0, 256).  An out-of-range read
    panics in Rust; [byte_at] is used in range only ([probes_in_range]). *)
Definition byte_at (blob : list Z) (i : Z) : Z := List.nth (Z.to_nat i) blob 0.

Definition set_bit (blob : list Z) (p : Probe) : list Z :=
  <[Z.to_nat (byte p) := Z.lor (byte_at blob (byte p)) (mask p)]> blob.

Definition add_key (bits : Z) (blob : list Z) (key : Z) : list Z :=
  List.fold_left set_bit (probes key bits) blob.

Definition build (keys : list Z) : option (list Z) :=
  if (len keys <=? 1) || (len keys >? MAX_KEYS_WORTH_FILTERING)
     || List.existsb (fun k => k <? 0) keys
  then None
  else
    let tier := tier_for (len keys) in
    let blob := KEY_FILTER_V1 :: List.repeat 0 (Z.to_nat (bytes tier)) in
    let bits := bytes tier * 8 in
    Some (List.fold_left (add_key bits) keys blob).

Definition demands (filter : list Z) (p : Probe) : bool :=
  negb (Z.land (byte_at filter (byte p)) (mask p) =? 0).

Definition maybe_contains (filter : list Z) (key : Z) : bool :=
  if (key <? 0) || (len filter <? 2) || negb (byte_at filter 0 =? KEY_FILTER_V1)
  then true
  else
    match List.find (fun t => len filter =? 1 + bytes t) TIERS with
    | None => true
    | Some tier =>
        List.forallb (demands filter) (probes key (bytes tier * 8))
    end.

(** [sql_predicate]: the generated [CASE] as the data it is made of -- one arm
    per tier, each with the length it dispatches on and the bind numbers of
    its [(get_byte(col, $byte) & $mask) <> 0] conjuncts. *)
Record Arm := mkArm { arm_len : Z; arm_binds : list (nat * nat) }.

Fixpoint sql_arms (tiers : list Tier) (bind : nat) : list Arm :=
  match tiers with
  | [] => []
  | t :: ts =>
      mkArm (1 + bytes t)
            (List.map (fun i => (bind + 2 * i, bind + 2 * i + 1)%nat)
                      (List.seq 0 PROBES))
      :: sql_arms ts (bind + 2 * PROBES)
  end.

Definition sql_predicate (first_bind : nat) : list Arm := sql_arms TIERS first_bind.

Definition sql_binds (key : Z) : list Z :=
  List.flat_map (fun t =>
    List.flat_map (fun p => [byte p; mask p]) (probes key (bytes t * 8))) TIERS.

(** What PostgreSQL answers for the predicate on a column value ([None] is SQL
    NULL) when [$first_bind + i] is bound to [binds !! i]. *)
Definition bind_at (first_bind : nat) (binds : list Z) (n : nat) : Z :=
  List.nth (n - first_bind) binds 0.

Definition sql_eval (arms : list Arm) (first_bind : nat) (binds : list Z)
    (col : option (list Z)) : bool :=
  match col with
  | None => true
  | Some f =>
      if len f <? 2 then true
      else if negb (byte_at f 0 =? KEY_FILTER_V1) then true
      else
        match List.find (fun a => len f =? arm_len a) arms with
        | None => true
        | Some a =>
            List.forallb (fun bm =>
              negb (Z.land (byte_at f (bind_at first_bind binds bm.1))
                           (bind_at first_bind binds bm.2) =? 0)) (arm_binds a)
        end
  end.

(** ** Bounds *)

Lemma PROBE_PARAMS_bound probe a b :
  List.nth probe PROBE_PARAMS (0, 0) = (a, b) ->
  0 <= a < 2 ^ 31 /\ 0 <= b < 2 ^ 31.
Proof.
  do 4 (destruct probe as [|probe]; [intros [= <- <-]; vm_compute; repeat split; congruence|]).
  destruct probe; intros [= <- <-]; lia.
Qed.

Lemma bit_index_bound key probe bits :
  0 < bits -> 0 <= bit_index key probe bits < bits.
Proof.
  intros. unfold bit_index. destruct (List.nth _ _ _). by apply Z.mod_pos_bound.
Qed.

Lemma hash_step_bound key probe a b :
  List.nth probe PROBE_PARAMS (0, 0) = (a, b) ->
  in_i64 (a * (key mod HASH_PRIME)) /\ in_i64 (a * (key mod HASH_PRIME) + b).
Proof.
  intros H. apply PROBE_PARAMS_bound in H as [Ha Hb].
  pose proof (Z.mod_pos_bound key HASH_PRIME ltac:(done)) as Hk.
  unfold in_i64, i64_min, i64_max, HASH_PRIME in *. nia.
Qed.

Lemma probes_In key bits p :
  List.In p (probes key bits) ->
  exists i, (i < PROBES)%nat /\
    p = mkProbe (1 + bit_index key i bits / 8) (Z.shiftl 1 (bit_index key i bits mod 8)).
Proof.
  unfold probes. rewrite in_map_iff. intros (i & <- & Hi%in_seq).
  exists i. split; [lia | done].
Qed.

Lemma probes_in_range key n p :
  0 < n -> List.In p (probes key (n * 8)) ->
  1 <= byte p < 1 + n /\ exists j, 0 <= j < 8 /\ mask p = 2 ^ j.
Proof.
  intros Hn (i & _ & ->)%probes_In; simpl.
  pose proof (bit_index_bound key i (n * 8) ltac:(lia)) as B.
  split.
  - split; [pose proof (Z.div_pos (bit_index key i (n * 8)) 8); lia|].
    assert (bit_index key i (n * 8) / 8 < n) by (apply Z.div_lt_upper_bound; lia). lia.
  - exists (bit_index key i (n * 8) mod 8).
    split; [apply Z.mod_pos_bound; lia|].
    rewrite Z.shiftl_1_l. done.
Qed.

(** ** The filter is monotone in its keys *)

Definition fits (n : Z) (p : Probe) : Prop :=
  1 <= byte p < n /\ exists j, 0 <= j < 8 /\ mask p = 2 ^ j.

Lemma land_pow2_testbit x j :
  0 <= j -> (Z.land x (2 ^ j) =? 0) = negb (Z.testbit x j).
Proof.
  intros Hj. rewrite <- Z.shiftl_1_l. destruct (Z.testbit x j) eqn:E; simpl.
  - apply Z.eqb_neq. intros H. apply (f_equal (fun z => Z.testbit z j)) in H.
    rewrite Z.land_spec, Z.shiftl_spec, Z.sub_diag, E, Z.bits_0 in H by lia. done.
  - apply Z.eqb_eq, Z.bits_inj'. intros k Hk.
    rewrite Z.land_spec, Z.shiftl_spec, Z.bits_0 by lia.
    destruct (decide (k = j)) as [->|]; [by rewrite E|].
    rewrite andb_false_iff. right.
    destruct (decide (k < j)); [by apply Z.testbit_neg_r; lia|].
    apply Z.bits_above_log2; simpl; lia.
Qed.

Lemma demands_testbit f p n :
  fits n p -> exists j, 0 <= j < 8 /\ mask p = 2 ^ j /\
  demands f p = Z.testbit (byte_at f (byte p)) j.
Proof.
  intros (_ & j & Hj & Hm). exists j. split_and!; [lia|lia|done|].
  unfold demands. rewrite Hm, land_pow2_testbit by lia. by destruct (Z.testbit _ _).
Qed.

Lemma set_bit_length f p : length (set_bit f p) = length f.
Proof. apply length_insert. Qed.

Lemma set_bit_at f p i :
  fits (len f) p -> 0 <= i ->
  byte_at (set_bit f p) i =
  if i =? byte p then Z.lor (byte_at f i) (mask p) else byte_at f i.
Proof.
  intros [Hr _] Hi. unfold byte_at, set_bit, len in *.
  rewrite !nth_lookup. destruct (Z.eqb_spec i (byte p)) as [->|Hne].
  - rewrite list_lookup_insert_eq by lia. simpl. unfold byte_at.
    by rewrite nth_lookup.
  - rewrite list_lookup_insert_ne by lia. done.
Qed.

Lemma set_bit_header f p :
  fits (len f) p -> byte_at (set_bit f p) 0 = byte_at f 0.
Proof.
  intros Hf. rewrite set_bit_at by (done || lia).
  destruct Hf as [Hr _]. by rewrite (proj2 (Z.eqb_neq 0 (byte p))) by lia.
Qed.

Lemma set_bit_demands f p q :
  fits (len f) p -> fits (len f) q ->
  demands f q = true \/ p = q -> demands (set_bit f p) q = true.
Proof.
  intros Hp Hq Hd. unfold demands in *.
  destruct Hq as (Hqr & j & Hj & Hm).
  rewrite set_bit_at by (done || lia). rewrite Hm, !land_pow2_testbit in * by lia.
  destruct Hd as [Hd| ->].
  - destruct (byte q =? byte p); [|done]. rewrite Z.lor_spec.
    by destruct (Z.testbit (byte_at f (byte q)) j).
  - rewrite Z.eqb_refl, Z.lor_spec, Hm, Z.pow2_bits_true by lia. by rewrite orb_true_r.
Qed.

Lemma set_bits_spec ps f :
  List.Forall (fits (len f)) ps ->
  let f' := List.fold_left set_bit ps f in
  len f' = len f /\ byte_at f' 0 = byte_at f 0 /\
  (forall q, fits (len f) q -> demands f q = true \/ List.In q ps -> demands f' q = true).
Proof.
  revert f. induction ps as [|p ps IH]; intros f Hf; simpl.
  - split_and!; [done|done|]. intros q _ [H|[]]; done.
  - apply List.Forall_cons_iff in Hf as [Hp Hps].
    assert (L : len (set_bit f p) = len f) by (unfold len; by rewrite set_bit_length).
    destruct (IH (set_bit f p)) as (E1 & E2 & E3); [by rewrite L|].
    rewrite L in *. split_and!; [done | by rewrite E2, set_bit_header |].
    intros q Hq Hd. apply E3; [done|].
    destruct Hd as [Hd|[->|Hin]]; [left|left|by right]; apply set_bit_demands; auto.
Qed.

Lemma probes_fit key n :
  0 < n -> List.Forall (fits (1 + n)) (probes key (n * 8)).
Proof.
  intros Hn. apply List.Forall_forall. intros p Hp. by apply (probes_in_range key).
Qed.

Lemma add_keys_spec n keys f :
  0 < n -> len f = 1 + n ->
  let f' := List.fold_left (add_key (n * 8)) keys f in
  len f' = 1 + n /\ byte_at f' 0 = byte_at f 0 /\
  (forall q, fits (1 + n) q ->
     demands f q = true \/ (exists k, List.In k keys /\ List.In q (probes k (n * 8))) ->
     demands f' q = true).
Proof.
  intros Hn. revert f. induction keys as [|k keys IH]; intros f L; simpl.
  - split_and!; [done|done|]. intros q _ [H|(? & [] & _)]; done.
  - pose proof (set_bits_spec (probes k (n * 8)) f) as S. rewrite L in S.
    destruct (S (probes_fit k n Hn)) as (S1 & S2 & S3).
    destruct (IH (add_key (n * 8) f k) S1) as (E1 & E2 & E3).
    split_and!; [done | by rewrite E2 |].
    intros q Hq Hd. apply E3; [done|].
    destruct Hd as [Hd|(k' & [->|Hin] & Hp)].
    + left; apply S3; auto.
    + left; apply S3; auto.
    + right; eauto.
Qed.

(** ** What [build] produces *)

Lemma tier_for_In keys : List.In (tier_for keys) TIERS.
Proof.
  unfold tier_for. destruct (List.find _ TIERS) eqn:E.
  - by apply List.find_some in E as [? _].
  - simpl; auto.
Qed.

Lemma TIERS_pos t : List.In t TIERS -> 0 < bytes t.
Proof. simpl. intros [<-|[<-|[<-|[]]]]; simpl; lia. Qed.

Lemma tier_of_len t :
  List.In t TIERS -> List.find (fun t' => 1 + bytes t =? 1 + bytes t') TIERS = Some t.
Proof. intros [<-|[<-|[<-|[]]]]; reflexivity. Qed.

Lemma len_repeat {A} (x : A) n : 0 <= n -> len (List.repeat x (Z.to_nat n)) = n.
Proof. intros. unfold len. rewrite List.repeat_length. lia. Qed.

Lemma build_spec keys f :
  build keys = Some f ->
  1 < len keys <= MAX_KEYS_WORTH_FILTERING /\
  (forall k, List.In k keys -> 0 <= k) /\
  len f = 1 + bytes (tier_for (len keys)) /\ byte_at f 0 = KEY_FILTER_V1 /\
  (forall k p, List.In k keys -> List.In p (probes k (bytes (tier_for (len keys)) * 8)) ->
     demands f p = true).
Proof.
  unfold build. destruct (_ || _ || _) eqn:G; [discriminate|]. intros [= <-].
  apply orb_false_iff in G as [G Gneg]. apply orb_false_iff in G as [G1 G2].
  apply Z.leb_gt in G1. rewrite Z.gtb_ltb in G2. apply Z.ltb_ge in G2.
  pose proof (TIERS_pos _ (tier_for_In (len keys))) as Hn.
  set (n := bytes (tier_for (len keys))) in *.
  destruct (add_keys_spec n keys (KEY_FILTER_V1 :: List.repeat 0 (Z.to_nat n)) Hn)
    as (E1 & E2 & E3).
  { rewrite len_cons, len_repeat; lia. }
  split_and!; [lia|lia| |done|by rewrite E2|].
  - intros k Hk. apply Z.nlt_ge. intros Hlt. apply not_true_iff_false in Gneg.
    apply Gneg, List.existsb_exists. exists k. split; [done|]. by apply Z.ltb_lt.
  - intros k p Hk Hp. apply E3; [|eauto].
    eapply List.Forall_forall in Hp; [|by apply probes_fit]. done.
Qed.

Lemma present_key_kept keys f k :
  build keys = Some f -> List.In k keys -> maybe_contains f k = true.
Proof.
  intros (_ & Hpos & Hl & Hv & Hd)%build_spec Hk. unfold maybe_contains.
  destruct (_ || _ || _); [done|]. rewrite Hl.
  rewrite tier_of_len by apply tier_for_In.
  apply List.forallb_forall. eauto.
Qed.

(** The binds of one tier, as the arm that reads them sees them. *)
Lemma arm_reads_probes f first_bind o pre suf key bits :
  length pre = o ->
  List.forallb (fun bm =>
      negb (Z.land (byte_at f (bind_at first_bind
                      (pre ++ List.flat_map (fun p => [byte p; mask p]) (probes key bits) ++ suf)
                      bm.1))
                   (bind_at first_bind
                      (pre ++ List.flat_map (fun p => [byte p; mask p]) (probes key bits) ++ suf)
                      bm.2) =? 0))
    (List.map (fun i => (first_bind + o + 2 * i, first_bind + o + 2 * i + 1)%nat)
              (List.seq 0 PROBES))
  = List.forallb (demands f) (probes key bits).
Proof.
  intros Hpre.
  assert (N : forall n l, List.nth (first_bind + o + n - first_bind) (pre ++ l) 0 = List.nth n l 0).
  { intros n l. rewrite app_nth2 by lia. f_equal. lia. }
  unfold bind_at, probes, demands. simpl List.map. simpl List.flat_map. simpl List.forallb.
  rewrite <- !Nat.add_assoc. rewrite !Nat.add_assoc, !N.
  rewrite <- !(Nat.add_assoc (first_bind + o)), !N. reflexivity.
Qed.

Lemma sql_eval_agrees f k first_bind :
  0 <= k ->
  sql_eval (sql_predicate first_bind) first_bind (sql_binds k) (Some f) = maybe_contains f k.
Proof.
  intros Hk. unfold sql_eval, maybe_contains.
  rewrite (proj2 (Z.ltb_ge k 0)) by done. simpl orb.
  destruct (len f <? 2); [done|]. simpl orb.
  destruct (negb (byte_at f 0 =? KEY_FILTER_V1)); [done|].
  unfold sql_predicate, sql_binds, TIERS. cbn [List.find arm_len bytes sql_arms List.flat_map].
  set (b1 := List.flat_map _ (probes k (128 * 8))).
  set (b2 := List.flat_map _ (probes k (1024 * 8))).
  set (b3 := List.flat_map _ (probes k (2048 * 8))).
  assert (L1 : length b1 = 8%nat) by reflexivity.
  assert (L2 : length b2 = 8%nat) by reflexivity.
  destruct (len f =? 1 + 128); cbn [arm_binds bytes].
  { etransitivity; [|apply (arm_reads_probes f first_bind 0 [] (b2 ++ b3 ++ []) k); done].
    by rewrite Nat.add_0_r. }
  destruct (len f =? 1 + 1024); cbn [arm_binds bytes].
  { by apply (arm_reads_probes f first_bind 8 b1 (b3 ++ []) k). }
  destruct (len f =? 1 + 2048); cbn [arm_binds bytes]; [|done].
  rewrite app_assoc.
  rewrite <- (arm_reads_probes f first_bind 16 (b1 ++ b2) [] k (2048 * 8))
    by (rewrite length_app; lia).
  by rewrite <- !Nat.add_assoc.
Qed.

(** A filter exists only over non-negative keys, so SQL agrees on its keys. *)
Lemma present_key_kept_sql keys f k first_bind :
  build keys = Some f -> List.In k keys ->
  sql_eval (sql_predicate first_bind) first_bind (sql_binds k) (Some f) = true.
Proof.
  intros B Hk. rewrite sql_eval_agrees; [by eapply present_key_kept|].
  apply build_spec in B as (_ & Pos & _). by apply Pos.
Qed.

(** ** Theorems *)

(** C32: a part's filter never denies a key the part holds, whichever side asks:
    the reader in Rust or the generated SQL, wherever its binds start. *)
Theorem filter_never_denies keys f k first_bind :
  build keys = Some f -> List.In k keys ->
  maybe_contains f k = true /\
  sql_eval (sql_predicate first_bind) first_bind (sql_binds k) (Some f) = true.
Proof. intros B Hk. split; [by eapply present_key_kept|by eapply present_key_kept_sql]. Qed.

Lemma filter_never_denies_witness :
  exists f, build [7; 3007; 44] = Some f /\ maybe_contains f 3007 = true.
Proof.
  destruct (build [7; 3007; 44]) as [f|] eqn:E; [|vm_compute in E; discriminate].
  exists f. split; [reflexivity|].
  exact (proj1 (filter_never_denies [7; 3007; 44] f 3007 3 E (or_intror (or_introl eq_refl)))).
Defined.

(** the predicate handed to PostgreSQL is the reader's test: for every
    non-negative key and every column value -- NULL, malformed, of an unknown
    size or version -- both give the same answer. *)
Theorem sql_predicate_is_reader k first_bind col :
  0 <= k ->
  sql_eval (sql_predicate first_bind) first_bind (sql_binds k) col
  = match col with None => true | Some f => maybe_contains f k end.
Proof. intros Hk. destruct col as [f|]; [by apply sql_eval_agrees|done]. Qed.

Lemma sql_predicate_is_reader_witness :
  sql_eval (sql_predicate 3) 3 (sql_binds 5) (Some [9; 9; 9]) = maybe_contains [9; 9; 9] 5.
Proof. apply (sql_predicate_is_reader 5 3 (Some [9; 9; 9])). lia. Defined.

(** for a negative key the two differ: the reader keeps every part, the SQL
    predicate can reject one -- here a filter of the keys 1 and 2. *)
Theorem negative_key_divergence :
  exists f, build [1; 2] = Some f /\ maybe_contains f (-1) = true /\
    sql_eval (sql_predicate 3) 3 (sql_binds (-1)) (Some f) = false.
Proof. eexists. split; [vm_compute; reflexivity|]. split; vm_compute; reflexivity. Qed.

(** what a filter costs is what was promised: [build] yields a blob of
    exactly [encoded_len_for] bytes -- none for a count it declines -- headed by
    the version, at most 2049 bytes. *)
Theorem encoded_len_is_length keys f :
  build keys = Some f ->
  len f = encoded_len_for (len keys) /\ byte_at f 0 = KEY_FILTER_V1 /\ len f <= 2049.
Proof.
  intros (Hn & _ & L & V & _)%build_spec. unfold encoded_len_for.
  destruct (Z.leb_spec (len keys) 1); [lia|]. rewrite Z.gtb_ltb.
  destruct (Z.ltb_spec MAX_KEYS_WORTH_FILTERING (len keys)); [lia|]. simpl.
  split_and!; [done|done|]. rewrite L.
  destruct (tier_for_In (len keys)) as [<-|[<-|[<-|[]]]]; simpl; lia.
Qed.

Lemma encoded_len_is_length_witness : exists f, build [1; 2] = Some f /\ len f = 129.
Proof.
  destruct (build [1; 2]) as [f|] eqn:E; [|vm_compute in E; discriminate].
  exists f. split; [reflexivity|]. exact (proj1 (encoded_len_is_length [1; 2] f E)).
Defined.

(** the hash arithmetic stays inside [i64] and every probe lands inside the
    blob, past the version byte, on a single bit. *)
Theorem probes_stay_in_bounds key probe a b n p :
  List.nth probe PROBE_PARAMS (0, 0) = (a, b) -> 0 < n -> List.In p (probes key (n * 8)) ->
  in_i64 (a * (key mod HASH_PRIME)) /\ in_i64 (a * (key mod HASH_PRIME) + b) /\
  1 <= byte p < 1 + n /\ exists j, 0 <= j < 8 /\ mask p = 2 ^ j.
Proof.
  intros P Hn Hp. destruct (hash_step_bound key probe a b P).
  split; [done|]. split; [done|]. by eapply probes_in_range.
Qed.

Lemma probes_stay_in_bounds_witness :
  in_i64 (1640531527 * ((-5) mod HASH_PRIME)).
Proof.
  exact (proj1 (probes_stay_in_bounds (-5) 0 1640531527 1013904223 128
    (List.hd (mkProbe 0 0) (probes (-5) (128 * 8))) eq_refl ltac:(lia) (or_introl eq_refl))).
Defined.

End KeyFilter.
