(* ===== verification/Arrow.v ===== *)
(** * Arrow's data model, as far as the program uses it

    A field is a name, a type, a nullability and string metadata; a schema is a
    list of fields; [index_of] finds the first field of a name; a batch is one
    array per field.  Only [Int64] values are ever read one by one; a value of
    any other type is carried as the bytes it is. *)

From S2P Require Import Prelude Bytes Json.

Inductive DataType :=
| Int64 | Float64 | Utf8 | Utf8View | Boolean
| OtherType (debug_lowercase : string).

#[global] Instance DataType_eq_dec : EqDecision DataType.
Proof. solve_decision. Defined.

Record Field := mkField {
  f_name : string;
  f_type : DataType;
  f_nullable : bool;
  f_metadata : list (string * string);
}.

#[global] Instance Field_eq_dec : EqDecision Field.
Proof. solve_decision. Defined.

Definition ArrowSchema := list Field.

Fixpoint index_from (i : nat) (schema : ArrowSchema) (name : string) : option nat :=
  match schema with
  | [] => None
  | f :: fs => if String.eqb (f_name f) name then Some i else index_from (S i) fs name
  end.
Definition index_of (schema : ArrowSchema) (name : string) : option nat :=
  index_from 0 schema name.

Definition has_column (schema : ArrowSchema) (c : string) : bool :=
  match index_of schema c with Some _ => true | None => false end.

Lemma index_from_bound i schema nm j :
  index_from i schema nm = Some j ->
  (i <= j)%nat /\ exists f, schema !! (j - i)%nat = Some f /\ f_name f = nm.
Proof.
  revert i. induction schema as [|f fs IH]; simpl; intros i; [discriminate|].
  destruct (String.eqb_spec (f_name f) nm).
  - intros [= <-]. split; [lia|]. rewrite Nat.sub_diag. eauto.
  - intros (L & g & G & N)%IH. split; [lia|].
    exists g. split; [|done]. by replace (j - i)%nat with (S (j - S i)) by lia.
Qed.

Lemma index_of_spec schema nm :
  match index_of schema nm with
  | Some j => exists f, schema !! j = Some f /\ f_name f = nm
  | None => nm ∉ List.map f_name schema
  end.
Proof.
  destruct (index_of schema nm) as [j|] eqn:E.
  - apply index_from_bound in E as (_ & f & F & N). rewrite Nat.sub_0_r in F. eauto.
  - unfold index_of in E. revert E. generalize 0%nat.
    induction schema as [|f fs IH]; simpl; intros i; [intros _; apply not_elem_of_nil|].
    destruct (String.eqb_spec (f_name f) nm); [discriminate|].
    intros E. apply not_elem_of_cons. split; [congruence|]. by apply (IH (S i)).
Qed.

Lemma has_column_In schema nm : has_column schema nm = true <-> nm ∈ List.map f_name schema.
Proof.
  unfold has_column. pose proof (index_of_spec schema nm) as H.
  destruct (index_of schema nm) as [j|].
  - split; [|done]. intros _. destruct H as (f & F & <-).
    apply list_elem_of_In, List.in_map, list_elem_of_In. eapply list_elem_of_lookup_2; eauto.
  - by split.
Qed.

(** ** Batches *)

(** A value of a type other than [Int64]: its bytes, which nothing reads. *)
Definition Opaque := list Z.

Inductive ArrayRef :=
| Int64Array (values : list (option Z))
| OtherArray (type : DataType) (values : list (option Opaque)).

Definition array_type (a : ArrayRef) : DataType :=
  match a with Int64Array _ => Int64 | OtherArray t _ => t end.

Definition array_len (a : ArrayRef) : nat :=
  match a with Int64Array vs => length vs | OtherArray _ vs => length vs end.

(** [as_any().downcast_ref::<Int64Array>()]. *)
Definition as_int64 (a : ArrayRef) : option (list (option Z)) :=
  match a with Int64Array vs => Some vs | OtherArray _ _ => None end.

Record RecordBatch := mkBatch {
  rb_schema : ArrowSchema;
  rb_columns : list ArrayRef;
}.

(** Rows [offset, offset + n) of an array, and the same rows of a batch
    ([RecordBatch::slice]). *)
Definition array_slice (offset n : nat) (a : ArrayRef) : ArrayRef :=
  match a with
  | Int64Array vs => Int64Array (take n (drop offset vs))
  | OtherArray t vs => OtherArray t (take n (drop offset vs))
  end.

Definition batch_slice (offset n : nat) (b : RecordBatch) : RecordBatch :=
  mkBatch (rb_schema b) (List.map (array_slice offset n) (rb_columns b)).

(** The non-null values ([iter().flatten()]). *)
Definition non_null (vs : list (option Z)) : list Z := omap id vs.

(** [arrow::compute::min] / [max]: over the non-null values. *)
Definition column_min (vs : list (option Z)) : option Z :=
  match non_null vs with [] => None | x :: xs => Some (List.fold_left Z.min xs x) end.
Definition column_max (vs : list (option Z)) : option Z :=
  match non_null vs with [] => None | x :: xs => Some (List.fold_left Z.max xs x) end.

Lemma non_null_app vs ws : non_null (vs ++ ws) = non_null vs ++ non_null ws.
Proof. unfold non_null. apply omap_app. Qed.

Lemma non_null_In vs z : List.In z (non_null vs) <-> List.In (Some z) vs.
Proof.
  unfold non_null. rewrite <- !list_elem_of_In, list_elem_of_omap. unfold id.
  split; [intros (x & Hx & ->); done | intros H; by exists (Some z)].
Qed.

(** Rows of [b2] after those of [b1]: what a stream of two batches holds. *)
Definition array_append (a b : ArrayRef) : ArrayRef :=
  match a, b with
  | Int64Array vs, Int64Array ws => Int64Array (vs ++ ws)
  | OtherArray t vs, OtherArray _ ws => OtherArray t (vs ++ ws)
  | _, _ => a
  end.

Definition batch_append (b1 b2 : RecordBatch) : RecordBatch :=
  mkBatch (rb_schema b1) (zip_with array_append (rb_columns b1) (rb_columns b2)).

(** An array of type [t]: only an [Int64Array] has type [Int64]. *)
Definition array_has_type (t : DataType) (a : ArrayRef) : Prop :=
  match a with Int64Array _ => t = Int64 | OtherArray t' _ => t = t' /\ t <> Int64 end.

(** Arrow's invariant: one column per field, of the field's type. *)
Definition batch_wf (b : RecordBatch) : Prop :=
  List.Forall2 (fun f c => array_has_type (f_type f) c) (rb_schema b) (rb_columns b).

Definition distinct_names (s : ArrowSchema) : Prop := NoDup (List.map f_name s).

Lemma array_append_type t a b :
  array_has_type t a -> array_has_type t b -> array_has_type t (array_append a b).
Proof. by destruct a, b. Qed.

Lemma batch_append_wf b1 b2 :
  batch_wf b1 -> batch_wf b2 -> rb_schema b1 = rb_schema b2 -> batch_wf (batch_append b1 b2).
Proof.
  destruct b1 as [s1 c1], b2 as [s2 c2]. unfold batch_wf; simpl. intros H1 H2 <-.
  revert c2 H2. induction H1 as [|f c s c1 Hf _ IH]; intros c2 H2; inversion H2; subst; simpl;
    constructor; auto using array_append_type.
Qed.

(** Slicing a batch in two and appending the halves gives it back. *)
Lemma batch_slice_append n b :
  batch_append (batch_slice 0 n b)
    (mkBatch (rb_schema b)
       (List.map (fun a => array_slice n (array_len a - n) a) (rb_columns b))) = b.
Proof.
  destruct b as [s cs]. unfold batch_append, batch_slice; simpl. f_equal.
  induction cs as [|c cs IH]; simpl; [done|]. f_equal; [|done].
  destruct c as [vs|t vs]; simpl; f_equal;
    rewrite (take_ge (drop n vs)) by (rewrite length_drop; lia); by rewrite drop_0, take_drop.
Qed.

(** ** Ranges of appended columns *)

Lemma fold_min_seed l a b : List.fold_left Z.min l (Z.min a b) = Z.min a (List.fold_left Z.min l b).
Proof. revert b. induction l as [|x l IH]; intros b; simpl; [done|]. by rewrite <- Z.min_assoc, IH. Qed.
Lemma fold_max_seed l a b : List.fold_left Z.max l (Z.max a b) = Z.max a (List.fold_left Z.max l b).
Proof. revert b. induction l as [|x l IH]; intros b; simpl; [done|]. by rewrite <- Z.max_assoc, IH. Qed.

Definition merge_range (a b : option (Z * Z)) : option (Z * Z) :=
  match a, b with
  | Some (mn, mx), Some (mn', mx') => Some (Z.min mn mn', Z.max mx mx')
  | Some r, None | None, Some r => Some r
  | None, None => None
  end.

Definition value_range (vs : list (option Z)) : option (Z * Z) :=
  mn ← column_min vs; mx ← column_max vs; Some (mn, mx).

Lemma value_range_append vs ws :
  value_range (vs ++ ws) = merge_range (value_range vs) (value_range ws).
Proof.
  unfold value_range, column_min, column_max. rewrite non_null_app.
  destruct (non_null vs) as [|x xs]; simpl; [by destruct (non_null ws)|].
  destruct (non_null ws) as [|y ys]; simpl; [by rewrite app_nil_r|].
  rewrite !List.fold_left_app. simpl. by rewrite fold_min_seed, fold_max_seed.
Qed.
