(* ===== verification/Schema.v ===== *)
(** * Table schemas, sort keys and writer layout
    (crates/ukiel-core/src/schema.rs, sorting.rs)

    The catalog's JSON schema parsed into column specs, the three schemas
    derived from it, and the layout policy of the Parquet writers. *)

From S2P Require Import Prelude Bytes Json Types Arrow.

Module Schema.

(** ** schema.rs *)

Definition UKIEL_TYPE_META : string := "ukiel:type".

(** The [Invalid] message names the offending field; the model keeps the
    distinguishing cause and the field. *)
Inductive SchemaError :=
| Invalid (why : string) (field : string)
| UnsupportedType (ty : string).

Definition ukiel_type_of (field : Field) : string :=
  match assoc UKIEL_TYPE_META (f_metadata field) with
  | Some t => t
  | None =>
      match f_type field with
      | Int64 => "int64"
      | Float64 => "float64"
      | Utf8 | Utf8View => "utf8"
      | Boolean => "bool"
      | OtherType d => d
      end
  end.

Inductive ColumnKind :=
| Stored
| Default (expr : string)
| Materialized (expr : string)
| Alias (expr : string).

#[global] Instance ColumnKind_eq_dec : EqDecision ColumnKind.
Proof. solve_decision. Defined.

Definition is_alias (k : ColumnKind) : bool :=
  match k with Alias _ => true | _ => false end.

Record ColumnSpec := mkColumnSpec {
  name : string;
  data_type : DataType;
  nullable : bool;
  column_kind : ColumnKind;
  ukiel_type : string;
  bloom_filter : bool;
}.

Record TableColumns := mkTableColumns { specs : list ColumnSpec }.

Definition type_of_name (type_name : string) : result DataType SchemaError :=
  if String.eqb type_name "int64" || String.eqb type_name "timestamp_ms" then Ok Int64
  else if String.eqb type_name "float64" then Ok Float64
  else if String.eqb type_name "utf8" then Ok Utf8
  else if String.eqb type_name "bool" then Ok Boolean
  else Err (UnsupportedType type_name).

Definition option_bind {A B} (o : option A) (f : A -> option B) : option B :=
  match o with Some a => f a | None => None end.

(** One iteration of the loop of [parse]. *)
Definition parse_field (f : json) : result ColumnSpec SchemaError :=
  let? name := ok_or (option_bind (jget f "name") as_str) (Invalid "field missing 'name'" EmptyString) in
  let? type_name := ok_or (option_bind (jget f "type") as_str) (Invalid "missing 'type'" name) in
  let nullable := default true (option_bind (jget f "nullable") as_bool) in
  let? data_type := type_of_name type_name in
  let expr_of := fun key => option_bind (jget f key) as_str in
  let? kind :=
    match expr_of "default"%string, expr_of "materialized"%string, expr_of "alias"%string with
    | None, None, None => Ok Stored
    | Some e, None, None => Ok (Default e)
    | None, Some e, None => Ok (Materialized e)
    | None, None, Some e => Ok (Alias e)
    | _, _, _ => Err (Invalid "default/materialized/alias are mutually exclusive" name)
    end in
  let bloom_filter := default false (option_bind (jget f "bloom_filter") as_bool) in
  if bloom_filter && is_alias kind
  then Err (Invalid "bloom_filter is invalid on an alias column (never stored)" name)
  else Ok (mkColumnSpec name data_type nullable kind type_name bloom_filter).

Definition parse (v : json) : result TableColumns SchemaError :=
  let? fields := ok_or (option_bind (jget v "fields") as_array)
                       (Invalid "missing 'fields' array" EmptyString) in
  let? specs := mapr parse_field fields in
  Ok (mkTableColumns specs).

Definition field_of (s : ColumnSpec) : Field :=
  mkField (name s) (data_type s) (nullable s)
    (if String.eqb (ukiel_type s) "timestamp_ms"
     then [(UKIEL_TYPE_META, ukiel_type s)] else []).

Definition schema_where (cols : TableColumns) (include : ColumnKind -> bool) : ArrowSchema :=
  List.map field_of (List.filter (fun s => include (column_kind s)) (specs cols)).

Definition input_schema (cols : TableColumns) : ArrowSchema :=
  schema_where cols (fun k => match k with Stored | Default _ => true | _ => false end).

Definition physical_schema (cols : TableColumns) : ArrowSchema :=
  schema_where cols (fun k => negb (is_alias k)).

Definition query_schema (cols : TableColumns) : ArrowSchema :=
  schema_where cols (fun _ => true).

Definition bloom_columns (cols : TableColumns) : list string :=
  List.map name
    (List.filter (fun s => bloom_filter s && negb (is_alias (column_kind s))) (specs cols)).

Definition arrow_schema_from_json (v : json) : result ArrowSchema SchemaError :=
  let? cols := parse v in Ok (physical_schema cols).

(** ** sorting.rs: the sort key and the writer's layout *)

Definition SORT_DESCENDING : bool := false.
Definition SORT_NULLS_FIRST : bool := true.

Inductive SortKeyError :=
| Empty
| PackingKeyNotFirst (first packing_key : string)
| UnknownColumn (c : string)
| TsNotInSortKey (c : string)
| SortArrow (e : string).

Record SortingColumn := mkSortingColumn {
  column_idx : Z; descending : bool; nulls_first : bool;
}.

Definition sorting_columns (schema : ArrowSchema) (sort_key : list string) : list SortingColumn :=
  List.map (fun idx => mkSortingColumn (Z.of_nat idx) SORT_DESCENDING SORT_NULLS_FIRST)
           (omap (index_of schema) sort_key).

Definition DEFAULT_MAX_ROW_GROUP_ROWS : Z := 128 * 1024.

Record WriteOpts := mkWriteOpts {
  wo_level : Z;
  ts_column : option string;
  wo_bloom_columns : list string;
  max_row_group_rows : Z;
}.

Definition for_level (level : Z) : WriteOpts :=
  mkWriteOpts level None [] DEFAULT_MAX_ROW_GROUP_ROWS.

Definition from_columns (cols : TableColumns) (sort_key : list string) (level : Z) : WriteOpts :=
  let ts_column :=
    List.find (fun nm =>
      List.existsb (fun s => String.eqb (name s) nm && String.eqb (ukiel_type s) "timestamp_ms")
                   (specs cols)) sort_key in
  mkWriteOpts level ts_column (bloom_columns cols) DEFAULT_MAX_ROW_GROUP_ROWS.

(** The Parquet writer properties [writer_props] sets. *)
Inductive Compression := LZ4_RAW | ZSTD_DEFAULT.
Record WriterProperties := mkWriterProperties {
  compression : Compression;
  row_group_rows : option Z;
  wp_sorting : option (list SortingColumn);
  delta_columns : list string;
  no_dictionary : list string;
  bloom_enabled : list string;
}.

Definition writer_props (schema : ArrowSchema) (sort_key : list string) (opts : WriteOpts)
  : WriterProperties :=
  let sorting := sorting_columns schema sort_key in
  let ts := match ts_column opts with
            | Some ts => if has_column schema ts then [ts] else []
            | None => []
            end in
  mkWriterProperties
    (if wo_level opts =? 0 then LZ4_RAW else ZSTD_DEFAULT)
    (Some (max_row_group_rows opts))
    (match sorting with [] => None | _ => Some sorting end)
    ts ts
    (List.filter (has_column schema) (wo_bloom_columns opts)).

Definition sorted_writer_props (schema : ArrowSchema) (sort_key : list string) : WriterProperties :=
  writer_props schema sort_key (for_level 1).

Definition validate_sort_key (schema : ArrowSchema) (sort_key : list string)
    (packing_key : string) (ts_column : option string) : result unit SortKeyError :=
  let? first := ok_or (List.hd_error sort_key) Empty in
  if negb (String.eqb first packing_key) then Err (PackingKeyNotFirst first packing_key)
  else
    match List.find (fun nm => negb (has_column schema nm)) sort_key with
    | Some nm => Err (UnknownColumn nm)
    | None =>
        match ts_column with
        | Some ts => if negb (List.existsb (fun c => String.eqb c ts) sort_key)
                     then Err (TsNotInSortKey ts) else Ok tt
        | None => Ok tt
        end
    end.

(** ** Facts *)

(** What a parsed column is allowed to be. *)
Definition spec_ok (s : ColumnSpec) : Prop :=
  type_of_name (ukiel_type s) = Ok (data_type s) /\
  (bloom_filter s = true -> is_alias (column_kind s) = false).

Lemma parse_field_ok f s : parse_field f = Ok s -> spec_ok s.
Proof.
  unfold parse_field, spec_ok. intros H. inv_ok. split_if H. injection H as <-; simpl.
  split; [done|]. intros Hb.
  match goal with F : _ && is_alias _ = false |- _ =>
    rewrite Hb in F; exact F end.
Qed.

Lemma parse_ok v cols : parse v = Ok cols -> List.Forall spec_ok (specs cols).
Proof.
  unfold parse. intros H. inv_ok. simpl. apply mapr_Forall2 in E0.
  clear E. induction E0 as [|f s fs ss Hf _ IH]; constructor; [by eapply parse_field_ok|exact IH].
Qed.

Lemma ukiel_type_of_field s : spec_ok s -> ukiel_type_of (field_of s) = ukiel_type s.
Proof.
  intros [H _]. unfold ukiel_type_of, field_of; simpl.
  destruct (String.eqb_spec (ukiel_type s) "timestamp_ms") as [->|N]; [done|]. simpl.
  unfold type_of_name in H.
  repeat match type of H with
  | (if ?b then _ else _) = _ => destruct b eqn:?; [injection H as <-|]
  end; [..|discriminate].
  all: repeat match goal with
  | E : _ || _ = true |- _ => apply orb_true_iff in E as [E|E]
  | E : String.eqb _ _ = true |- _ => apply String.eqb_eq in E
  end; congruence.
Qed.

(** the declared type names of a parsed table survive the mapping to Arrow:
    reading every field of the query schema back yields the declared types, in
    order, although [int64] and [timestamp_ms] share one Arrow type. *)
Theorem declared_types_survive v cols :
  parse v = Ok cols ->
  List.map ukiel_type_of (query_schema cols) = List.map ukiel_type (specs cols) /\
  List.map f_name (query_schema cols) = List.map name (specs cols).
Proof.
  intros H%parse_ok. unfold query_schema, schema_where.
  assert (forall l : list ColumnSpec, List.filter (fun _ => true) l = l) as ->.
  { induction l; simpl; congruence. }
  split; rewrite List.map_map; apply List.map_ext_in; intros s Hs; [|done].
  apply ukiel_type_of_field. rewrite List.Forall_forall in H. auto.
Qed.

(** *** What a schema declares, read off its JSON *)

Definition text (f : json) (key : string) : option string :=
  match jget f key with Some (JString s) => Some s | _ => None end.
Definition flag (f : json) (key : string) : option bool :=
  match jget f key with Some (JBool b) => Some b | _ => None end.
Definition unset (key : string) (f : json) : bool := bool_decide (text f key = None).

(** The column types there are, each with the Arrow type that stores it. *)
Definition supported_types : list (string * DataType) :=
  [("int64", Int64); ("timestamp_ms", Int64); ("float64", Float64); ("utf8", Utf8); ("bool", Boolean)]%string.

(** A field is named, of a supported type, takes its value in one way, and
    asks for a bloom filter only if it is stored. *)
Definition well_declared (f : json) : Prop :=
  is_Some (text f "name") /\
  (exists ty dt, text f "type" = Some ty /\ (ty, dt) ∈ supported_types) /\
  (length (omap (text f) ["default"; "materialized"; "alias"]%string) <= 1)%nat /\
  ~ (flag f "bloom_filter" = Some true /\ is_Some (text f "alias")).

(** The Arrow field is the declared column: its name, the type stored for its
    declared one, which can be read back, and whether it admits NULL. *)
Definition declares (f : json) (fd : Field) : Prop :=
  text f "name" = Some (f_name fd) /\ text f "type" = Some (ukiel_type_of fd) /\
  (ukiel_type_of fd, f_type fd) ∈ supported_types /\ f_nullable fd = default true (flag f "nullable").

(** A parsed column is the declared one, and where its value comes from. *)
Definition parsed_as (f : json) (s : ColumnSpec) : Prop :=
  well_declared f /\ declares f (field_of s) /\ text f "name" = Some (name s) /\
  bloom_filter s = default false (flag f "bloom_filter") /\
  match column_kind s with
  | Stored => unset "default" f && unset "materialized" f && unset "alias" f = true
  | Default e => text f "default" = Some e /\ unset "materialized" f && unset "alias" f = true
  | Materialized e => text f "materialized" = Some e /\ unset "default" f && unset "alias" f = true
  | Alias e => text f "alias" = Some e /\ unset "default" f && unset "materialized" f = true
  end.

Lemma text_spec f key : option_bind (jget f key) as_str = text f key.
Proof. unfold text. by destruct (jget f key) as [[]|]. Qed.

Lemma flag_spec f key : option_bind (jget f key) as_bool = flag f key.
Proof. unfold flag. by destruct (jget f key) as [[]|]. Qed.

Lemma type_of_name_spec ty dt : type_of_name ty = Ok dt <-> (ty, dt) ∈ supported_types.
Proof.
  unfold type_of_name, supported_types. rewrite !elem_of_cons, elem_of_nil.
  destruct (String.eqb_spec ty "int64") as [->|]; [simpl; naive_solver|].
  destruct (String.eqb_spec ty "timestamp_ms") as [->|]; [simpl; naive_solver|].
  destruct (String.eqb_spec ty "float64") as [->|]; [simpl; naive_solver|].
  destruct (String.eqb_spec ty "utf8") as [->|]; [simpl; naive_solver|].
  destruct (String.eqb_spec ty "bool") as [->|]; simpl; naive_solver.
Qed.

Lemma parse_field_cases f :
  match parse_field f with Ok s => parsed_as f s | Err _ => ~ well_declared f end.
Proof.
  destruct (parse_field f) as [s|e] eqn:P.
  - pose proof (parse_field_ok f s P) as So. pose proof (ukiel_type_of_field s So) as Ut. revert P So.
    unfold parse_field, spec_ok. rewrite !text_spec, !flag_spec. intros P [Ty Al]. inv_ok.
    destruct (text f "name") as [nm|] eqn:N; [|done]. destruct (text f "type") as [ty|] eqn:T; [|done].
    injection E as <-. injection E0 as <-. destruct (default false _ && is_alias a2) eqn:B; [done|].
    injection P as <-. simpl in *. apply type_of_name_spec in E1.
    unfold parsed_as, well_declared, declares, unset. simpl in *. rewrite N, T, Ut.
    destruct (text f "default") as [d|] eqn:Dq, (text f "materialized") as [m|] eqn:Mq, (text f "alias") as [l|] eqn:Aq;
      try done; injection E2 as <-; simpl in *; (split_and!; try done; try (by eexists _, _); try lia).
    all: intros [Bl [x Hx]]; rewrite ?Bl in B; done.
  - intros ([nm N] & (ty & dt & T & Ty) & L & Bl). revert P. unfold parse_field. rewrite !text_spec, !flag_spec, N, T. simpl.
    apply type_of_name_spec in Ty as ->. simpl. simpl in L.
    destruct (text f "default") as [d|] eqn:Dq, (text f "materialized") as [m|] eqn:Mq, (text f "alias") as [l|] eqn:Aq;
      simpl in *; try lia; rewrite ?andb_false_r; try done.
    destruct (flag f "bloom_filter") as [[]|]; simpl; try done. intros _. apply Bl. by split; [|exists l].
Qed.

(** Columns chosen by kind are the fields chosen by what they set. *)
Lemma schema_where_declares fs ss (include : ColumnKind -> bool) (chosen : json -> bool) :
  Forall2 parsed_as fs ss ->
  (forall f s, parsed_as f s -> include (column_kind s) = chosen f) ->
  Forall2 declares (List.filter chosen fs) (schema_where (mkTableColumns ss) include).
Proof.
  intros F C. unfold schema_where. simpl. induction F as [|f s fs ss Pf F IH]; simpl; [constructor|].
  rewrite (C f s Pf). destruct (chosen f); [|done]. constructor; [apply Pf|done].
Qed.

Lemma bloom_columns_declared fs ss :
  Forall2 parsed_as fs ss ->
  Forall2 (fun f c => text f "name" = Some c) (List.filter (fun f => default false (flag f "bloom_filter")) fs)
    (bloom_columns (mkTableColumns ss)).
Proof.
  unfold bloom_columns. simpl. induction 1 as [|f s fs ss (W & _ & N & B & K) F IH]; simpl; [constructor|].
  rewrite B. destruct (flag f "bloom_filter") as [[]|] eqn:Fl; simpl; try done.
  assert (A : is_alias (column_kind s) = false).
  { destruct (column_kind s); try done. destruct W as (_ & _ & _ & W). destruct W. split; [done|]. destruct K as [K _]. by eexists. }
  rewrite A. simpl. by constructor.
Qed.

(** C35: the three schemas are what the catalog's JSON declares, and a
    declaration that is refused is a wrong one.  A parsed schema has fields
    each named, of a supported type, with one source of values; SQL sees every
    one of them, files hold those that are not aliases, and ingest accepts
    those that are neither aliases nor materialized -- in the declared order,
    each under its name, with its type (which reads back from the Arrow
    field, [int64] and [timestamp_ms] apart) and its nullability; and bloom
    filters are written for exactly the flagged ones. *)
Theorem schemas_follow_the_declaration v :
  match parse v with
  | Ok cols =>
      exists fields, jget v "fields" = Some (JArray fields) /\ Forall well_declared fields /\
        Forall2 declares fields (query_schema cols) /\
        Forall2 declares (List.filter (unset "alias") fields) (physical_schema cols) /\
        Forall2 declares (List.filter (fun f => unset "alias" f && unset "materialized" f) fields) (input_schema cols) /\
        Forall2 (fun f c => text f "name" = Some c)
          (List.filter (fun f => default false (flag f "bloom_filter")) fields) (bloom_columns cols)
  | Err _ => forall fields, jget v "fields" = Some (JArray fields) -> ~ Forall well_declared fields
  end.
Proof.
  unfold parse. destruct (jget v "fields") as [j|]; simpl; [|done].
  destruct (as_array j) as [fields|] eqn:A; simpl; [|by intros fs [= ->]].
  destruct j; try done. injection A as ->. destruct (mapr parse_field fields) as [ss|e] eqn:M; simpl.
  - apply mapr_Forall2 in M.
    assert (F : Forall2 parsed_as fields ss).
    { eapply Forall2_impl; [exact M|]. intros f s P. pose proof (parse_field_cases f) as C. by rewrite P in C. }
    exists fields. split; [done|]. split; [by eapply Forall2_Forall_l; [exact F|apply Forall_forall; intros s _ f [W _]]|].
    assert (All : List.filter (fun _ => true) fields = fields) by (clear; induction fields; simpl; congruence).
    split; [rewrite <- All at 1; by apply schema_where_declares|].
    split; [|split; [|by apply bloom_columns_declared]]; apply schema_where_declares; try done;
      intros f s (_ & _ & _ & _ & K); unfold unset in *; destruct (column_kind s); destruct_and?; simpl in *; 
      repeat case_bool_decide; simpl in *; congruence.
  - intros fs [= <-] F. revert e M. induction F as [|f fs W F IH]; intros e M; simpl in M; [done|].
    pose proof (parse_field_cases f) as C. destruct (parse_field f) as [s|x]; [|done]. simpl in M.
    destruct (mapr parse_field fs) as [ss|x]; [done|]. by apply (IH x).
Qed.

Lemma validate_sort_key_Ok schema sk pk ts :
  validate_sort_key schema sk pk ts = Ok tt <->
  List.hd_error sk = Some pk /\
  (forall c, List.In c sk -> has_column schema c = true) /\
  (forall t, ts = Some t -> List.In t sk).
Proof.
  unfold validate_sort_key. destruct sk as [|c sk]; simpl; [split; [done|by intros [? _]]|].
  destruct (String.eqb_spec c pk) as [->|N]; simpl; [|split; [done|intros [[=] _]; done]].
  set (l := pk :: sk).
  change (if negb (has_column schema pk) then Some pk else _)
    with (List.find (fun nm => negb (has_column schema nm)) l).
  destruct (List.find _ l) eqn:F.
  - apply List.find_some in F as [Hin Hf]. split; [done|]. intros (_ & H & _).
    apply H in Hin. by rewrite Hin in Hf.
  - assert (Hc : forall c, List.In c l -> has_column schema c = true).
    { intros c Hc. apply (List.find_none _ _ F) in Hc. by apply negb_false_iff in Hc. }
    destruct ts as [t|]; [|split; [|done]; intros _; split_and!; done].
    change (String.eqb pk t || _) with (List.existsb (fun c => String.eqb c t) l).
    destruct (List.existsb _ l) eqn:X; simpl.
    + split; [|done]. intros _. split_and!; [done|done|]. intros t' [= <-].
      apply List.existsb_exists in X as (y & Hy & ->%String.eqb_eq). done.
    + split; [done|]. intros (_ & _ & H). specialize (H t eq_refl).
      apply not_true_iff_false in X. destruct X. apply List.existsb_exists.
      exists t. by rewrite String.eqb_refl.
Qed.

(** [validate_sort_key] accepts exactly the sort keys that lead with the
    packing key, name only columns of the schema and contain the known
    timestamp column; the stamped sorting columns then cover the whole key. *)
Theorem validate_sort_key_spec schema sk pk ts :
  (validate_sort_key schema sk pk ts = Ok tt <->
   List.hd_error sk = Some pk /\
   (forall c, List.In c sk -> has_column schema c = true) /\
   (forall t, ts = Some t -> List.In t sk)) /\
  (validate_sort_key schema sk pk ts = Ok tt ->
   List.Forall2 (fun c sc => exists f, schema !! Z.to_nat (column_idx sc) = Some f /\ f_name f = c)
                sk (sorting_columns schema sk)).
Proof.
  pose proof (validate_sort_key_Ok schema sk pk ts) as I.
  split; [exact I|]. intros (_ & H & _)%I. clear I. unfold sorting_columns.
  induction sk as [|c sk IH]; simpl; [constructor|].
  pose proof (index_of_spec schema c) as S. specialize (H c (or_introl eq_refl)) as Hc.
  unfold has_column in Hc. destruct (index_of schema c) as [j|] eqn:E; [|done]. simpl.
  constructor; [simpl; by rewrite Nat2Z.id|]. apply IH. intros c' Hc'. apply H. by right.
Qed.

(** ** The theorems applied *)

Definition field_json (nm ty : string) (more : list (string * json)) : json :=
  JObject ([("name"%string, JString nm); ("type"%string, JString ty)] ++ more).

Definition demo_json : json :=
  JObject [("fields", JArray
    [field_json "k" "int64" []; field_json "ts" "timestamp_ms" [("bloom_filter", JBool true)];
     field_json "v" "float64" [("default", JString "0")];
     field_json "w" "utf8" [("materialized", JString "v")];
     field_json "z" "bool" [("alias", JString "v > 0")]])]%string.

Definition demo : TableColumns := match parse demo_json with Ok c => c | Err _ => mkTableColumns [] end.

Example demo_parses : parse demo_json = Ok demo.
Proof. vm_compute. reflexivity. Qed.

Lemma declared_types_survive_witness :
  List.map ukiel_type_of (query_schema demo)
  = ["int64"; "timestamp_ms"; "float64"; "utf8"; "bool"]%string.
Proof. destruct (declared_types_survive demo_json demo demo_parses) as [-> _]. vm_compute. reflexivity. Defined.

(** The demo's schemas, field by field. *)
Example demo_schemas :
  (List.map f_name (input_schema demo), List.map f_name (physical_schema demo), List.map f_name (query_schema demo))
    = (["k"; "ts"; "v"], ["k"; "ts"; "v"; "w"], ["k"; "ts"; "v"; "w"; "z"])%string.
Proof. vm_compute. reflexivity. Qed.

Lemma validate_sort_key_spec_witness :
  List.Forall2 (fun c sc => exists f, physical_schema demo !! Z.to_nat (column_idx sc) = Some f /\ f_name f = c)
    ["k"; "ts"]%string (sorting_columns (physical_schema demo) ["k"; "ts"]%string) /\
  validate_sort_key (physical_schema demo) ["k"]%string "k" (Some "ts"%string) <> Ok tt.
Proof.
  split.
  - apply (validate_sort_key_spec (physical_schema demo) ["k"; "ts"]%string "k" (Some "ts"%string)).
    vm_compute. reflexivity.
  - vm_compute. discriminate.
Defined.

End Schema.
