(* ===== verification/Stats.v ===== *)
(** * Part statistics (crates/ukiel-core/src/stats.rs)

    Column min/max, the packing-key bitmap and the row-group spans a writer
    records in [column_stats].  The roaring treemap's serialization and base64
    are parameters; a treemap itself is the finite set of [u64] it denotes. *)

From S2P Require Import Prelude Bytes Json Arrow.

Module Stats.

Definition PACKING_KEYS_STAT : string := "packing_keys".
Definition KEY_ROW_GROUPS_STAT : string := "key_row_groups".
Definition MAX_BITMAP_KEYS : Z := 10000.

(** ** The key bitmap *)

Record KeyBitmapAccumulator := mkKeyBitmap {
  keys : gset Z;
  poisoned : bool;
}.

Definition kb_default : KeyBitmapAccumulator := mkKeyBitmap ∅ false.

(** The loop over the column's non-null values: stops at a negative one. *)
Fixpoint insert_keys (acc : KeyBitmapAccumulator) (vs : list Z) : KeyBitmapAccumulator :=
  match vs with
  | [] => acc
  | v :: vs' =>
      if v <? 0 then mkKeyBitmap (keys acc) true
      else insert_keys (mkKeyBitmap ({[v]} ∪ keys acc) (poisoned acc)) vs'
  end.

Definition kb_update (acc : KeyBitmapAccumulator) (batch : RecordBatch) (packing_key : string)
  : KeyBitmapAccumulator :=
  if poisoned acc then acc
  else match index_of (rb_schema batch) packing_key with
       | None => mkKeyBitmap (keys acc) true
       | Some idx =>
           match rb_columns batch !! idx ≫= as_int64 with
           | None => mkKeyBitmap (keys acc) true
           | Some col => insert_keys acc (non_null col)
           end
       end.

Section encoding.
(** [RoaringTreemap::serialize_into] / [deserialize_from], base64. *)
Context (tm_serialize : gset Z -> option (list Z)).
Context (tm_deserialize : list Z -> option (gset Z)).
Context (b64_encode : list Z -> string).
Context (b64_decode : string -> option (list Z)).

Definition kb_finish (acc : KeyBitmapAccumulator) : option string :=
  if poisoned acc || bool_decide (keys acc = ∅) then None
  else if Z.of_nat (size (keys acc)) >? MAX_BITMAP_KEYS then None
  else bytes ← tm_serialize (keys acc); Some (b64_encode bytes).

Definition key_bitmap (batch : RecordBatch) (packing_key : string) : option string :=
  kb_finish (kb_update kb_default batch packing_key).

Definition bitmap_contains (encoded : string) (key : Z) : option bool :=
  if key <? 0 then None
  else
    bytes ← b64_decode encoded;
    m ← tm_deserialize bytes;
    Some (bool_decide (key ∈ m)).

(** [i64::try_from] of a [u64]. *)
Definition i64_try_from (k : Z) : option Z := if k <=? i64_max then Some k else None.

(** Ascending iteration, all or nothing. *)
Definition bitmap_keys (encoded : string) : option (list Z) :=
  bytes ← b64_decode encoded;
  m ← tm_deserialize bytes;
  mapM i64_try_from (merge_sort Z.le (elements m)).
End encoding.

(** ** Row-group spans *)

Inductive Statistics :=
| StatsInt64 (min_opt max_opt : option Z)
| StatsOther.

Record RowGroupColumn := mkRgColumn {
  column_path : string;
  statistics : option Statistics;
}.

Definition RowGroupMetaData := list RowGroupColumn.

Definition row_group_span (packing_key : string) (rg : RowGroupMetaData) : option json :=
  col ← List.find (fun c => String.eqb (column_path c) packing_key) rg;
  match statistics col with
  | Some (StatsInt64 (Some mn) (Some mx)) => Some (JArray [jint mn; jint mx])
  | _ => None
  end.

Definition key_row_groups (row_groups : list RowGroupMetaData) (packing_key : string)
  : option json :=
  match row_groups with
  | [] => None
  | _ => spans ← mapM (row_group_span packing_key) row_groups; Some (JArray spans)
  end.

Definition with_key_index (stats : option json) (bitmap : option string) (spans : option json)
  : option json :=
  match bitmap, spans with
  | None, None => stats
  | _, _ =>
      let map := match stats with Some (JObject m) => m | _ => [] end in
      let map := match bitmap with
                 | Some b => jinsert PACKING_KEYS_STAT (JString b) map
                 | None => map
                 end in
      let map := match spans with
                 | Some s => jinsert KEY_ROW_GROUPS_STAT s map
                 | None => map
                 end in
      Some (JObject map)
  end.

(** ** Column min/max *)

Definition min_max_json (mn mx : Z) : json :=
  JObject (jinsert "max" (jint mx) (jinsert "min" (jint mn) [])).

(** The batch's fields beside their columns. *)
Definition fields_columns (batch : RecordBatch) : list (Field * ArrayRef) :=
  zip (rb_schema batch) (rb_columns batch).

(** What one loop iteration sees of a column: its name and, when it is an
    [Int64] column with a non-null value, its range. *)
Definition column_range (fc : Field * ArrayRef) : option (string * (Z * Z)) :=
  if negb (bool_decide (f_type fc.1 = Int64)) then None
  else
    col ← as_int64 fc.2;
    mn ← column_min col;
    mx ← column_max col;
    Some (f_name fc.1, (mn, mx)).

Definition stats_step (stats : list (string * json)) (fc : Field * ArrayRef)
  : list (string * json) :=
  match column_range fc with
  | None => stats
  | Some (nm, (mn, mx)) => jinsert nm (min_max_json mn mx) stats
  end.

Definition int64_column_stats (batch : RecordBatch) : option json :=
  match List.fold_left stats_step (fields_columns batch) [] with
  | [] => None
  | stats => Some (JObject stats)
  end.

Record Int64StatsAccumulator := mkStatsAcc {
  order : list string;
  stats : gmap string (Z * Z);
}.

Definition sa_default : Int64StatsAccumulator := mkStatsAcc [] ∅.

Definition sa_step (acc : Int64StatsAccumulator) (fc : Field * ArrayRef)
  : Int64StatsAccumulator :=
  match column_range fc with
  | None => acc
  | Some (nm, (bmin, bmax)) =>
      match stats acc !! nm with
      | Some (mn, mx) =>
          mkStatsAcc (order acc) (<[nm := (Z.min mn bmin, Z.max mx bmax)]> (stats acc))
      | None => mkStatsAcc (order acc ++ [nm]) (<[nm := (bmin, bmax)]> (stats acc))
      end
  end.

Definition sa_update (acc : Int64StatsAccumulator) (batch : RecordBatch)
  : Int64StatsAccumulator :=
  List.fold_left sa_step (fields_columns batch) acc.

(** [self.stats[name]] panics on an absent name; every name of [order] is
    present ([sa_invariant]). *)
Definition sa_finish (acc : Int64StatsAccumulator) : option json :=
  if bool_decide (stats acc = ∅) then None
  else
    Some (JObject (List.fold_left (fun map nm =>
      let '(mn, mx) := default (0, 0) (stats acc !! nm) in
      jinsert nm (min_max_json mn mx) map) (order acc) [])).

(** ** The streaming accumulator agrees with the one-shot computation *)

Definition ranges_of (b : RecordBatch) : list (string * (Z * Z)) :=
  omap column_range (fields_columns b).

Lemma column_range_name fc nm r : column_range fc = Some (nm, r) -> f_name fc.1 = nm.
Proof.
  unfold column_range. destruct (negb _); [done|].
  destruct (as_int64 _) as [col|]; simpl; [|done].
  destruct (column_min col), (column_max col); simpl; congruence.
Qed.

Lemma column_range_int64 f vs :
  f_type f = Int64 -> column_range (f, Int64Array vs) = (fun r => (f_name f, r)) <$> value_range vs.
Proof.
  intros H. unfold column_range; simpl. rewrite bool_decide_eq_true_2 by done. simpl.
  unfold value_range. by destruct (column_min vs), (column_max vs).
Qed.

Lemma column_range_other f t n : column_range (f, OtherArray t n) = None.
Proof. unfold column_range. by destruct (negb _). Qed.

Lemma ranges_names_In b nm :
  List.In nm (List.map fst (ranges_of b)) -> List.In nm (List.map f_name (rb_schema b)).
Proof.
  unfold ranges_of, fields_columns. destruct b as [s cs]; simpl.
  revert cs. induction s as [|f s IH]; intros [|c cs]; simpl; try done.
  destruct (column_range (f, c)) as [[n r]|] eqn:E; simpl.
  - apply column_range_name in E. simpl in E. intros [<-|H]; [auto|eauto].
  - eauto.
Qed.

Lemma ranges_NoDup b : distinct_names (rb_schema b) -> NoDup (List.map fst (ranges_of b)).
Proof.
  unfold distinct_names, ranges_of, fields_columns. destruct b as [s cs]; simpl.
  revert cs. induction s as [|f s IH]; intros [|c cs] H; simpl; try constructor.
  apply NoDup_cons in H as [Hn Hs]. specialize (IH cs Hs).
  destruct (column_range (f, c)) as [[n r]|] eqn:E; simpl; [|done].
  apply column_range_name in E. simpl in E. subst n. constructor; [|done].
  intros Hin%list_elem_of_In. apply Hn, list_elem_of_In.
  by apply (ranges_names_In (mkBatch s cs)).
Qed.

Lemma assoc_ranges_append b1 b2 nm :
  batch_wf b1 -> batch_wf b2 -> rb_schema b1 = rb_schema b2 -> distinct_names (rb_schema b1) ->
  assoc nm (ranges_of (batch_append b1 b2))
  = merge_range (assoc nm (ranges_of b1)) (assoc nm (ranges_of b2)).
Proof.
  destruct b1 as [s cs], b2 as [s2 ds]. unfold batch_wf; simpl. intros W1 W2 <- N.
  revert ds W2. induction W1 as [|f c s cs Hc W1 IH]; intros ds W2; inversion W2 as [|? d ? ds' Hd W2'];
    subst; [done|]. apply NoDup_cons in N as [Nf N]. specialize (IH N ds' W2').
  unfold ranges_of, fields_columns, batch_append in *; simpl in *.
  assert (NI : forall l, assoc (f_name f) (omap column_range (zip s l)) = None).
  { intros l. apply assoc_not_In. intros Hin. apply Nf, list_elem_of_In.
    by apply (ranges_names_In (mkBatch s l)). }
  destruct c as [vs|t n], d as [ws|t' n']; simpl in *; try (destruct_and?; congruence).
  - rewrite !column_range_int64, value_range_append by done.
    destruct (value_range vs) as [[? ?]|], (value_range ws) as [[? ?]|]; simpl;
      try (destruct (String.eqb_spec nm (f_name f)); subst; rewrite ?NI; simpl);
      first [done|exact IH].
  - rewrite !column_range_other. exact IH.
Qed.

(** *** One shot *)

Lemma stats_fold_spec rs m :
  map_sorted m -> NoDup (List.map fst rs) ->
  let m' := List.fold_left (fun m r => jinsert r.1 (min_max_json r.2.1 r.2.2) m) rs m in
  map_sorted m' /\
  forall nm, assoc nm m' = match assoc nm rs with
                          | Some r => Some (min_max_json r.1 r.2)
                          | None => assoc nm m
                          end.
Proof.
  revert m. induction rs as [|[n r] rs IH]; intros m Hm Hn; simpl in *; [done|].
  apply NoDup_cons in Hn as [Hn Hd].
  destruct (IH (jinsert n (min_max_json r.1 r.2) m)) as [S A]; [by apply jinsert_sorted|done|].
  split; [done|]. intros nm. rewrite A, assoc_jinsert by done.
  destruct (String.eqb_spec nm n) as [->|]; [|done].
  rewrite assoc_not_In; [done|]. by rewrite <- list_elem_of_In.
Qed.

Lemma stats_step_ranges fcs m :
  List.fold_left stats_step fcs m =
  List.fold_left (fun m r => jinsert r.1 (min_max_json r.2.1 r.2.2) m) (omap column_range fcs) m.
Proof.
  revert m. induction fcs as [|fc fcs IH]; intros m; simpl; [done|].
  unfold stats_step at 2. destruct (column_range fc) as [[n [mn mx]]|]; simpl; apply IH.
Qed.

(** *** The accumulator *)

(** The accumulator holds exactly the ranges of the batch [b]. *)
Definition sa_holds (acc : Int64StatsAccumulator) (look : string -> option (Z * Z)) : Prop :=
  (forall nm, stats acc !! nm = look nm) /\ NoDup (order acc) /\
  (forall nm, nm ∈ order acc <-> is_Some (look nm)).

Definition sa_put (acc : Int64StatsAccumulator) (r : string * (Z * Z)) : Int64StatsAccumulator :=
  match stats acc !! r.1 with
  | Some (mn, mx) =>
      mkStatsAcc (order acc) (<[r.1 := (Z.min mn r.2.1, Z.max mx r.2.2)]> (stats acc))
  | None => mkStatsAcc (order acc ++ [r.1]) (<[r.1 := r.2]> (stats acc))
  end.

Lemma sa_update_ranges acc b : sa_update acc b = List.fold_left sa_put (ranges_of b) acc.
Proof.
  unfold sa_update, ranges_of. revert acc.
  induction (fields_columns b) as [|fc fcs IH]; intros acc; simpl; [done|].
  unfold sa_step at 2. destruct (column_range fc) as [[n [mn mx]]|]; simpl; apply IH.
Qed.

Lemma sa_put_holds acc look r :
  sa_holds acc look ->
  sa_holds (sa_put acc r)
    (fun nm => if String.eqb nm r.1 then merge_range (look nm) (Some r.2) else look nm).
Proof.
  intros (S & N & O). destruct r as [n [mn mx]]. unfold sa_put; simpl.
  rewrite S. destruct (look n) as [[a b]|] eqn:E; unfold sa_holds; simpl.
  - split_and!; [|done|].
    + intros nm. destruct (String.eqb_spec nm n) as [->|Hne].
      * by rewrite lookup_insert_eq, E.
      * by rewrite lookup_insert_ne, S by done.
    + intros nm. rewrite O. destruct (String.eqb_spec nm n) as [->|]; [|done].
      rewrite E. simpl. split; eauto.
  - split_and!.
    + intros nm. destruct (String.eqb_spec nm n) as [->|Hne].
      * by rewrite lookup_insert_eq, E.
      * by rewrite lookup_insert_ne, S by done.
    + apply NoDup_app. split_and!; [done| |apply NoDup_singleton].
      intros x Hx ->%list_elem_of_singleton. apply O in Hx as [? Hx]. congruence.
    + intros nm. rewrite elem_of_app, O, list_elem_of_singleton.
      destruct (String.eqb_spec nm n) as [->|]; [|tauto].
      rewrite E. simpl. split; [eauto|auto].
Qed.

Lemma sa_holds_ext acc f g : (forall nm, f nm = g nm) -> sa_holds acc f -> sa_holds acc g.
Proof. intros E (S & N & O). split_and!; [by intros; rewrite <- E|done|by intros; rewrite <- E]. Qed.

Lemma sa_fold_holds rs acc look :
  NoDup (List.map fst rs) -> sa_holds acc look ->
  sa_holds (List.fold_left sa_put rs acc) (fun nm => merge_range (look nm) (assoc nm rs)).
Proof.
  revert acc look. induction rs as [|[n r] rs IH]; intros acc look Hn H; simpl in *.
  - eapply sa_holds_ext; [|exact H]. intros nm; simpl. by destruct (look nm) as [[]|].
  - apply NoDup_cons in Hn as [Hn Hd]. apply (sa_put_holds _ _ (n, r)) in H.
    eapply sa_holds_ext; [|by apply IH, H]. intros nm; simpl.
    destruct (String.eqb_spec nm n) as [->|]; [|done].
    rewrite assoc_not_In by (by rewrite <- list_elem_of_In).
    by destruct (look n) as [[]|], r.
Qed.

Definition sa_finish_step (st : gmap string (Z * Z)) (map : list (string * json)) (nm : string) :
    list (string * json) :=
  let '(mn, mx) := default (0, 0) (st !! nm) in jinsert nm (min_max_json mn mx) map.

Lemma sa_finish_fold st l : forall m,
  NoDup l -> map_sorted m ->
  let m' := List.fold_left (sa_finish_step st) l m in
  map_sorted m' /\
  (forall nm mn mx, nm ∈ l -> st !! nm = Some (mn, mx) -> assoc nm m' = Some (min_max_json mn mx)) /\
  (forall nm, nm ∉ l -> assoc nm m' = assoc nm m).
Proof.
  induction l as [|n l IH]; intros m Hl Hm; simpl.
  - split_and!; [done| |done]. by intros ? ? ? ?%not_elem_of_nil.
  - apply NoDup_cons in Hl as [Hn Hl].
    destruct (IH (sa_finish_step st m n) Hl) as (S2 & A2 & B2).
    { unfold sa_finish_step. destruct (default _ _). by apply jinsert_sorted. }
    split_and!; [done| |].
    + intros nm mn mx [->|Hin]%elem_of_cons E; [|by apply A2].
      rewrite B2 by done. unfold sa_finish_step. rewrite E; simpl.
      by rewrite assoc_jinsert, String.eqb_refl by done.
    + intros nm [Hne Hnl]%not_elem_of_cons. rewrite B2 by done.
      unfold sa_finish_step. destruct (default _ _). rewrite assoc_jinsert by done.
      by apply String.eqb_neq in Hne as ->.
Qed.

Lemma sa_finish_holds acc b :
  distinct_names (rb_schema b) -> sa_holds acc (fun nm => assoc nm (ranges_of b)) ->
  sa_finish acc = int64_column_stats b.
Proof.
  intros D (S & N & O). unfold sa_finish, int64_column_stats.
  rewrite stats_step_ranges. fold (ranges_of b). fold (sa_finish_step (stats acc)).
  set (rs := ranges_of b) in *.
  destruct (stats_fold_spec rs [] ltac:(constructor) (ranges_NoDup b D)) as [S1 A1].
  destruct (sa_finish_fold (stats acc) (order acc) [] N ltac:(constructor)) as (S2 & A2 & B2).
  set (m1 := List.fold_left _ rs []) in *. set (m2 := List.fold_left _ (order acc) []) in *.
  assert (m2 = m1) as ->.
  { apply map_sorted_assoc_eq; [done|done|]. intros nm. rewrite A1.
    destruct (assoc nm rs) as [[mn mx]|] eqn:E.
    - apply A2; [apply O; eauto|by rewrite S].
    - apply B2. rewrite O, E. by intros []. }
  clearbody m1. case_bool_decide as E.
  - destruct m1 as [|[n v] m1]; [done|].
    specialize (A1 n). simpl in A1. rewrite String.eqb_refl, <- S, E, lookup_empty in A1. done.
  - destruct m1 as [|p m1]; [|done]. destruct E. apply map_eq. intros nm.
    rewrite lookup_empty, S. specialize (A1 nm). simpl in A1. by destruct (assoc nm rs).
Qed.

Lemma sa_fold_finish b bs :
  distinct_names (rb_schema b) -> batch_wf b ->
  List.Forall (fun b' => batch_wf b' /\ rb_schema b' = rb_schema b) bs ->
  sa_finish (List.fold_left sa_update (b :: bs) sa_default)
  = int64_column_stats (List.fold_left batch_append bs b).
Proof.
  intros D W H. simpl.
  assert (H0 : sa_holds (sa_update sa_default b) (fun nm => assoc nm (ranges_of b))).
  { rewrite sa_update_ranges. eapply sa_holds_ext; [|apply (sa_fold_holds _ _ (fun _ => None))].
    - intros nm; simpl. by destruct (assoc nm _) as [[]|].
    - by apply ranges_NoDup.
    - split_and!; [intros; apply lookup_empty|constructor|].
      intros nm. split; [by intros ?%not_elem_of_nil|by intros []]. }
  revert H0. generalize (sa_update sa_default b). revert b D W H.
  induction bs as [|b' bs IH]; intros b D W H acc Hacc; simpl; [by apply sa_finish_holds|].
  apply List.Forall_cons_iff in H as [[W' E'] H].
  apply IH; [done|by apply batch_append_wf|done|].
  rewrite sa_update_ranges. eapply sa_holds_ext; [|apply sa_fold_holds; [|exact Hacc]].
  - intros nm; simpl. by rewrite assoc_ranges_append.
  - apply ranges_NoDup. by rewrite E'.
Qed.

(** statistics folded over a stream of batches are the statistics of the
    batches' concatenation -- the streaming writer records what a one-shot
    writer would. *)
Theorem streaming_stats_match_one_shot b bs :
  distinct_names (rb_schema b) -> batch_wf b ->
  List.Forall (fun b' => batch_wf b' /\ rb_schema b' = rb_schema b) bs ->
  sa_finish (List.fold_left sa_update (b :: bs) sa_default)
  = int64_column_stats (List.fold_left batch_append bs b).
Proof. apply sa_fold_finish. Qed.

(** ** The key bitmap is exact *)

(** The packing-key values of a batch: the column's non-null values, when the
    column exists and holds [Int64]. *)
Definition key_column (b : RecordBatch) (pk : string) : option (list Z) :=
  idx ← index_of (rb_schema b) pk; col ← rb_columns b !! idx ≫= as_int64; Some (non_null col).

Lemma insert_keys_spec vs : forall acc,
  poisoned acc = false ->
  let acc' := insert_keys acc vs in
  if poisoned acc' then exists v, v ∈ vs /\ v < 0
  else Forall (fun v => 0 <= v) vs /\ keys acc' = keys acc ∪ list_to_set vs.
Proof.
  induction vs as [|v vs IH]; intros acc Hp; simpl.
  - rewrite Hp. split; [constructor|set_solver].
  - destruct (Z.ltb_spec v 0); simpl.
    + exists v. split; [left|done].
    + specialize (IH (mkKeyBitmap ({[v]} ∪ keys acc) (poisoned acc)) Hp). simpl in IH.
      destruct (poisoned (insert_keys _ vs)).
      * destruct IH as (w & ? & ?). exists w. split; [by right|done].
      * destruct IH as [F E]. split; [by constructor|]. rewrite E. set_solver.
Qed.

(** Feeding one batch: what it does, by the batch's key column. *)
Lemma kb_update_spec acc b pk :
  poisoned acc = false ->
  let acc' := kb_update acc b pk in
  match key_column b pk with
  | None => poisoned acc' = true
  | Some vs => if poisoned acc' then exists v, v ∈ vs /\ v < 0
               else Forall (fun v => 0 <= v) vs /\ keys acc' = keys acc ∪ list_to_set vs
  end.
Proof.
  intros Hp. unfold kb_update, key_column. rewrite Hp.
  destruct (index_of _ _) as [idx|]; simpl; [|done].
  destruct (rb_columns b !! idx ≫= as_int64) as [col|]; simpl; [|done].
  by apply insert_keys_spec.
Qed.

Lemma kb_update_poisoned acc b pk : poisoned acc = true -> kb_update acc b pk = acc.
Proof. unfold kb_update. by intros ->. Qed.

Definition kb_equiv (a1 a2 : KeyBitmapAccumulator) : Prop :=
  poisoned a1 = poisoned a2 /\ (poisoned a1 = false -> keys a1 = keys a2).

Lemma kb_finish_proper ser b64 a1 a2 :
  kb_equiv a1 a2 -> kb_finish ser b64 a1 = kb_finish ser b64 a2.
Proof.
  intros [P K]. unfold kb_finish. rewrite <- P. destruct (poisoned a1); [done|]. by rewrite K.
Qed.

Lemma index_of_lookup_wf b pk idx :
  batch_wf b -> index_of (rb_schema b) pk = Some idx -> is_Some (rb_columns b !! idx).
Proof.
  intros W H. apply lookup_lt_is_Some. apply Forall2_length in W. rewrite <- W.
  pose proof (index_of_spec (rb_schema b) pk) as S. rewrite H in S.
  destruct S as (f & F & _). by eapply lookup_lt_Some.
Qed.

Lemma key_column_append b1 b2 pk :
  batch_wf b1 -> batch_wf b2 -> rb_schema b1 = rb_schema b2 ->
  key_column (batch_append b1 b2) pk
  = vs ← key_column b1 pk; ws ← key_column b2 pk; Some (vs ++ ws).
Proof.
  intros W1 W2 E. unfold key_column, batch_append; simpl. rewrite <- E.
  destruct (index_of (rb_schema b1) pk) as [i|] eqn:Hi; simpl; [|done].
  destruct (index_of_lookup_wf b1 pk i W1 Hi) as [c1 H1].
  destruct (index_of_lookup_wf b2 pk i W2) as [c2 H2]; [by rewrite <- E|].
  rewrite lookup_zip_with, H1, H2; simpl.
  destruct (Forall2_lookup_r _ _ _ _ _ W1 H1) as (f & Hf & T1).
  destruct (Forall2_lookup_r _ _ _ _ _ W2 H2) as (f' & Hf' & T2).
  rewrite <- E, Hf in Hf'. injection Hf' as <-.
  destruct c1, c2; simpl in *; try (destruct_and?; congruence); try done.
  by rewrite non_null_app.
Qed.

(** The accumulator after a prefix of the stream is that of the prefix's
    concatenation. *)
Lemma kb_update_append b1 b2 pk :
  batch_wf b1 -> batch_wf b2 -> rb_schema b1 = rb_schema b2 ->
  kb_equiv (kb_update (kb_update kb_default b1 pk) b2 pk)
           (kb_update kb_default (batch_append b1 b2) pk).
Proof.
  intros W1 W2 E.
  pose proof (kb_update_spec kb_default b1 pk eq_refl) as S1.
  pose proof (kb_update_spec kb_default (batch_append b1 b2) pk eq_refl) as S.
  rewrite key_column_append in S by done. cbv zeta in S1, S.
  destruct (key_column b1 pk) as [vs|] eqn:K1; simpl in S.
  - destruct (poisoned (kb_update kb_default b1 pk)) eqn:P1.
    + rewrite kb_update_poisoned by done. destruct S1 as (v & Hv & Hneg).
      split; [|congruence]. rewrite P1. symmetry.
      destruct (key_column b2 pk) as [ws|]; simpl in S; [|done].
      destruct (poisoned (kb_update kb_default (batch_append b1 b2) pk)) eqn:P; [done|].
      destruct S as [F _]. rewrite Forall_forall in F. specialize (F v ltac:(set_solver)). lia.
    + destruct S1 as [F1 K]. pose proof (kb_update_spec _ b2 pk P1) as S2. cbv zeta in S2.
      destruct (key_column b2 pk) as [ws|]; simpl in S; [|split; congruence].
      set (a := kb_update (kb_update _ _ _) _ _) in *.
      set (a' := kb_update kb_default (batch_append b1 b2) pk) in *.
      unfold kb_equiv. destruct (poisoned a) eqn:Pa, (poisoned a') eqn:Pa'; [done| | |].
      * destruct S2 as (v & Hv & ?), S as [F _]. rewrite Forall_forall in F.
        specialize (F v ltac:(set_solver)). lia.
      * destruct S2 as [F _], S as (v & Hv & ?). rewrite Forall_forall in F, F1.
        apply elem_of_app in Hv as [Hv|Hv]; [specialize (F1 v Hv)|specialize (F v Hv)]; lia.
      * split; [done|]. intros _. destruct S2 as [_ ->], S as [_ ->]. rewrite K. set_solver.
  - rewrite kb_update_poisoned by done. split; rewrite S1; [by rewrite S|done].
Qed.

Lemma kb_update_equiv a1 a2 b pk : kb_equiv a1 a2 -> kb_equiv (kb_update a1 b pk) (kb_update a2 b pk).
Proof.
  intros [P K]. destruct (poisoned a1) eqn:P1.
  - rewrite !kb_update_poisoned by congruence. split; congruence.
  - destruct a1 as [k1 p1], a2 as [k2 p2]; simpl in *. subst. by rewrite (K eq_refl).
Qed.

(** The key bitmap folded over a stream of batches is the bitmap of the
    batches' concatenation, poisoning included. *)
Lemma kb_fold_finish ser b64 pk b bs :
  batch_wf b -> List.Forall (fun b' => batch_wf b' /\ rb_schema b' = rb_schema b) bs ->
  kb_finish ser b64 (List.fold_left (fun a b => kb_update a b pk) (b :: bs) kb_default)
  = key_bitmap ser b64 (List.fold_left batch_append bs b) pk.
Proof.
  intros W H. unfold key_bitmap. apply kb_finish_proper. simpl.
  assert (E : kb_equiv (kb_update kb_default b pk) (kb_update kb_default b pk)) by done.
  revert E. generalize (kb_update kb_default b pk) at 1 3. revert b W H.
  induction bs as [|b' bs IH]; intros b W H acc E; simpl; [done|].
  apply List.Forall_cons_iff in H as [[W' E'] H].
  apply IH; [by apply batch_append_wf|done|].
  apply (kb_update_equiv _ _ b' pk) in E. destruct E as [E1 E2].
  destruct (kb_update_append b b' pk W W' (eq_sym E')) as [A1 A2].
  split; [congruence|]. intros P. rewrite E2 by done. apply A2. congruence.
Qed.

Lemma mapM_try_from l ks : mapM i64_try_from l = Some ks -> ks = l.
Proof.
  intros F%mapM_Some_1. induction F as [|x y l ks Hx _ IH]; [done|].
  unfold i64_try_from in Hx. destruct (x <=? i64_max); [|done]. injection Hx as <-. by f_equal.
Qed.

Section exactness.
Context (ser : gset Z -> option (list Z)) (deser : list Z -> option (gset Z)).
Context (enc : list Z -> string) (dec : string -> option (list Z)).
(** Documented behaviour: what is serialized and encoded reads back. *)
Context (deser_ser : forall m bytes, ser m = Some bytes -> deser bytes = Some m).
Context (dec_enc : forall bytes, dec (enc bytes) = Some bytes).

Lemma key_bitmap_reads_back batch pk s :
  key_bitmap ser enc batch pk = Some s ->
  exists vs, key_column batch pk = Some vs /\ vs <> [] /\ Forall (fun v => 0 <= v) vs /\
    (forall key, bitmap_contains deser dec s key
                 = if key <? 0 then None else Some (bool_decide (key ∈ vs))) /\
    (forall ks, bitmap_keys deser dec s = Some ks ->
       Sorted Z.le ks /\ NoDup ks /\ forall key, key ∈ ks <-> key ∈ vs) /\
    (Forall (fun v => v <= i64_max) vs -> is_Some (bitmap_keys deser dec s)).
Proof.
  intros H. unfold key_bitmap, kb_finish in H.
  pose proof (kb_update_spec kb_default batch pk eq_refl) as S. cbv zeta in S.
  destruct (kb_update kb_default batch pk) as [m p]; simpl in *.
  destruct p; simpl in H; [done|]. case_bool_decide as E; [done|].
  destruct (Z.of_nat (size m) >? MAX_BITMAP_KEYS); [done|].
  destruct (ser m) as [bytes|] eqn:Hs; simpl in H; [injection H as <-|done].
  destruct (key_column batch pk) as [vs|]; [|done]. destruct S as [F Hm].
  assert (Hin : forall k, k ∈ m <-> k ∈ vs) by (intros k; rewrite Hm; set_solver).
  exists vs. split_and!; [done| |done| | |].
  - intros ->. apply E. set_solver.
  - intros key. unfold bitmap_contains. rewrite dec_enc; simpl. rewrite (deser_ser _ _ Hs); simpl.
    destruct (key <? 0); [done|]. f_equal. by apply bool_decide_ext.
  - intros ks Hks. unfold bitmap_keys in Hks. rewrite dec_enc in Hks; simpl in Hks.
    rewrite (deser_ser _ _ Hs) in Hks; simpl in Hks. apply mapM_try_from in Hks as ->.
    assert (P : merge_sort Z.le (elements m) ≡ₚ elements m) by apply merge_sort_Permutation.
    split_and!.
    + apply Sorted_merge_sort, _.
    + rewrite P. apply NoDup_elements.
    + intros key. by rewrite P, elem_of_elements.
  - intros Hmax. unfold bitmap_keys. rewrite dec_enc; simpl. rewrite (deser_ser _ _ Hs); simpl.
    exists (merge_sort Z.le (elements m)). apply mapM_Some_2, Forall_Forall2_diag.
    rewrite (merge_sort_Permutation Z.le), Forall_forall.
    intros k Hk%elem_of_elements%Hin. rewrite Forall_forall in Hmax.
    unfold i64_try_from. destruct (Z.leb_spec k i64_max); [done|]. specialize (Hmax k Hk). lia.
Qed.

(** a recorded bitmap answers exactly: for every key it says whether the
    column holds it, and its enumeration is the sorted set of the column's
    keys. *)
Theorem key_bitmap_exact batch pk s :
  key_bitmap ser enc batch pk = Some s ->
  exists vs, key_column batch pk = Some vs /\ vs <> [] /\ Forall (fun v => 0 <= v) vs /\
    (forall key, bitmap_contains deser dec s key
                 = if key <? 0 then None else Some (bool_decide (key ∈ vs))) /\
    (forall ks, bitmap_keys deser dec s = Some ks ->
       Sorted Z.le ks /\ NoDup ks /\ forall key, key ∈ ks <-> key ∈ vs) /\
    (Forall (fun v => v <= i64_max) vs -> is_Some (bitmap_keys deser dec s)).
Proof. apply key_bitmap_reads_back. Qed.
End exactness.

(** ** Witnesses *)

Definition w_schema : ArrowSchema := [mkField "k" Int64 false []; mkField "s" Utf8 true []].

Definition w_batch (ks : list (option Z)) : RecordBatch :=
  mkBatch w_schema [Int64Array ks; OtherArray Utf8 (replicate (length ks) None)].

Lemma w_batch_wf ks : batch_wf (w_batch ks).
Proof. repeat constructor; done. Qed.

(** A transparent stand-in for roaring and base64: a set is its element list,
    and the list's code is spelled in binary. *)
Fixpoint pos_str (p : positive) : string :=
  match p with
  | xH => EmptyString
  | xO p => String Ascii.zero (pos_str p)
  | xI p => String Ascii.one (pos_str p)
  end.

Fixpoint str_pos (s : string) : positive :=
  match s with
  | EmptyString => xH
  | String c s => if Ascii.eqb c Ascii.one then xI (str_pos s) else xO (str_pos s)
  end.

Lemma str_pos_str p : str_pos (pos_str p) = p.
Proof. induction p; simpl; congruence. Qed.

Definition w_ser (m : gset Z) : option (list Z) := Some (elements m).
Definition w_deser (l : list Z) : option (gset Z) := Some (list_to_set l).
Definition w_enc (l : list Z) : string := pos_str (encode l).
Definition w_dec (s : string) : option (list Z) := decode (str_pos s).

Lemma w_deser_ser m bytes : w_ser m = Some bytes -> w_deser bytes = Some m.
Proof. intros [= <-]. unfold w_deser. by rewrite list_to_set_elements_L. Qed.

Lemma w_dec_enc bytes : w_dec (w_enc bytes) = Some bytes.
Proof. unfold w_dec, w_enc. by rewrite str_pos_str, decode_encode. Qed.

Lemma w_distinct : distinct_names w_schema.
Proof. unfold distinct_names. apply (bool_decide_unpack _). vm_compute. done. Qed.

Lemma streaming_stats_match_one_shot_witness :
  sa_finish (List.fold_left sa_update [w_batch [Some 4; None]; w_batch [Some (-2)]] sa_default)
  = int64_column_stats (List.fold_left batch_append [w_batch [Some (-2)]] (w_batch [Some 4; None])).
Proof.
  apply (streaming_stats_match_one_shot (w_batch [Some 4; None]) [w_batch [Some (-2)]]).
  - exact w_distinct.
  - apply w_batch_wf.
  - constructor; [|constructor]. split; [apply w_batch_wf|reflexivity].
Defined.

Lemma kb_fold_finish_example :
  kb_finish w_ser w_enc
    (List.fold_left (fun a b => kb_update a b "k") [w_batch [Some 4; None]; w_batch [Some 7]] kb_default)
  = key_bitmap w_ser w_enc (List.fold_left batch_append [w_batch [Some 7]] (w_batch [Some 4; None])) "k".
Proof.
  apply (kb_fold_finish w_ser w_enc "k" (w_batch [Some 4; None]) [w_batch [Some 7]]).
  - apply w_batch_wf.
  - constructor; [|constructor]. split; [apply w_batch_wf|reflexivity].
Defined.

Lemma key_bitmap_exact_witness :
  exists s vs, key_bitmap w_ser w_enc (w_batch [Some 3; None; Some 5]) "k" = Some s /\
    key_column (w_batch [Some 3; None; Some 5]) "k" = Some vs /\
    (forall key, bitmap_contains w_deser w_dec s key
                 = if key <? 0 then None else Some (bool_decide (key ∈ vs))).
Proof.
  assert (H : exists s, key_bitmap w_ser w_enc (w_batch [Some 3; None; Some 5]) "k" = Some s).
  { eexists. vm_compute. reflexivity. }
  destruct H as [s H]. exists s.
  destruct (key_bitmap_exact w_ser w_deser w_enc w_dec w_deser_ser w_dec_enc _ _ _ H)
    as (vs & K & _ & _ & C & _ & _).
  exists vs. split; [exact H|]. split; [exact K|exact C].
Defined.

End Stats.
