(* ===== verification/Operation.v ===== *)
(** * Operation identities (crates/ukiel-core/src/operation.rs)

    The canonical, type-tagged bytes of a logical mutation, and the identity
    (hypertable, key, fingerprint) hashed from them.  [blake3] is a parameter:
    the results that need no collision say so by exhibiting one. *)

From S2P Require Import Prelude Bytes Json Types.

Module Operation.

Definition MAX_OPERATION_KEY_LEN : Z := 128.

Record OperationIdentity := mkIdentity {
  hypertable_id : HypertableId;
  key : string;
  fingerprint : list Z;
}.

Record IngestRange := mkRange {
  topic : string; partition : Z; first : Z; last : Z;
}.

Record MvIntent := {
  pipeline_id : PipelineId;
  source_hypertable_id : HypertableId;
  source_commit_id : CommitId;
  mv_transformation_version : Z;
}.

Record CompactionIntent := {
  output_level : Z;
  input_parts : list PartId;
  partition_values : json;
  table_schema : json;
  sort_key : list string;
  placement : Placement;
  transformation_version : Z;
}.

Record DeleteKeyIntent := {
  dk_packing_key : Z;
  dk_input_parts : list PartId;
  dk_table_schema : json;
  dk_sort_key : list string;
  dk_placement : Placement;
  dk_transformation_version : Z;
}.

Inductive OperationError :=
| InvalidId (field : string) (value : Z)
| MvSelfLoop
| NoInputParts
| DuplicateInputPart (id : Z)
| NoOffsetRanges
| EmptyTopic
| InvertedOffsetRange (topic : string) (partition first last : Z)
| OverlappingOffsetRanges (topic : string) (partition first last : Z)
| EmptySortKey
| KeyTooLong (n : Z).

Definition TAG_STR : Z := 0x02.
Definition TAG_INT : Z := 0x03.
Definition TAG_LIST : Z := 0x04.
Definition TAG_JSON_NULL : Z := 0x10.
Definition TAG_JSON_BOOL : Z := 0x11.
Definition TAG_JSON_NUMBER : Z := 0x12.
Definition TAG_JSON_STRING : Z := 0x13.
Definition TAG_JSON_ARRAY : Z := 0x14.
Definition TAG_JSON_OBJECT : Z := 0x15.

(** ** The canonical encoder: a growing byte vector *)

Definition Canonical := list Z.

Definition c_len (c : Canonical) (n : Z) : Canonical := c ++ u64_be n.

Definition c_str (c : Canonical) (s : string) : Canonical :=
  c_len (c ++ [TAG_STR]) (str_len s) ++ str_bytes s.

Definition c_int (c : Canonical) (v : Z) : Canonical := (c ++ [TAG_INT]) ++ i64_be v.

Definition c_list {A} (each : Canonical -> A -> Canonical) (c : Canonical) (items : list A)
  : Canonical :=
  List.fold_left each items (c_len (c ++ [TAG_LIST]) (len items)).

(** The bytes [json] appends for one value. *)
Fixpoint json_bytes (v : json) : list Z :=
  match v with
  | JNull => [TAG_JSON_NULL]
  | JBool b => [TAG_JSON_BOOL; if b then 1 else 0]
  | JNumber n =>
      let s := num_to_string n in
      TAG_JSON_NUMBER :: u64_be (str_len s) ++ str_bytes s
  | JString s => TAG_JSON_STRING :: u64_be (str_len s) ++ str_bytes s
  | JArray items => TAG_JSON_ARRAY :: u64_be (len items) ++ List.flat_map json_bytes items
  | JObject m =>
      let values := List.map (fun kv => (kv.1, json_bytes kv.2)) m in
      let keys := merge_sort String.le (m.*1) in
      TAG_JSON_OBJECT :: u64_be (len m) ++
      List.flat_map (fun k =>
        (u64_be (str_len k) ++ str_bytes k) ++ default [] (assoc k values)) keys
  end.

Definition c_json (c : Canonical) (v : json) : Canonical := c ++ json_bytes v.

Definition c_placement (c : Canonical) (p : Placement) : Canonical :=
  match p with
  | Packed => c_str c "packed"
  | Separated => c_str c "separated"
  | SizeTargeted n => c_int (c_str c "size_targeted") n
  end.

(** ** Normalised inputs *)

Definition canonical_parts (parts : list PartId) : result (list Z) OperationError :=
  match parts with
  | [] => Err NoInputParts
  | _ =>
      let ids := merge_sort Z.le parts in
      match List.find (fun w => w.1 =? w.2) (windows2 ids) with
      | Some dup => Err (DuplicateInputPart dup.1)
      | None => Ok ids
      end
  end.

(** The derived [Ord]: field by field, in declaration order. *)
Definition range_le (a b : IngestRange) : Prop :=
  (topic a <> topic b /\ String.le (topic a) (topic b)) \/
  (topic a = topic b /\
   (partition a < partition b \/
    (partition a = partition b /\
     (first a < first b \/ (first a = first b /\ last a <= last b))))).

#[global] Instance range_le_dec : RelDecision range_le.
Proof. unfold range_le. intros a b. apply _. Defined.

Fixpoint check_ranges (sorted : list IngestRange) : result unit OperationError :=
  match sorted with
  | [] => Ok tt
  | r :: rs =>
      if String.eqb (topic r) EmptyString then Err EmptyTopic
      else if first r >? last r then
        Err (InvertedOffsetRange (topic r) (partition r) (first r) (last r))
      else check_ranges rs
  end.

Definition overlapping (prev next : IngestRange) : bool :=
  String.eqb (topic prev) (topic next) && (partition prev =? partition next)
  && (first next <=? last prev).

Definition canonical_ranges (ranges : list IngestRange)
  : result (list IngestRange) OperationError :=
  match ranges with
  | [] => Err NoOffsetRanges
  | _ =>
      let sorted := merge_sort range_le ranges in
      let? _ := check_ranges sorted in
      match List.find (fun w => overlapping w.1 w.2) (windows2 sorted) with
      | Some w =>
          Err (OverlappingOffsetRanges (topic w.2) (partition w.2) (first w.2) (last w.2))
      | None => Ok sorted
      end
  end.

(** ** Key text *)

Definition hex_digit (d : Z) : Ascii.ascii :=
  Ascii.ascii_of_N (Z.to_N (if d <? 10 then 48 + d else 87 + d)).

Fixpoint hex (bytes : list Z) : string :=
  match bytes with
  | [] => EmptyString
  | b :: bs => String (hex_digit (b / 16)) (String (hex_digit (b mod 16)) (hex bs))
  end.

(** [s.split('/')]: the text before the first separator, and the rest. *)
Fixpoint split_on (sep : Ascii.ascii) (s : string) : list string :=
  match s with
  | EmptyString => [EmptyString]
  | String a s' =>
      if Ascii.eqb a sep then EmptyString :: split_on sep s'
      else match split_on sep s' with
           | [] => [String a EmptyString]
           | w :: ws => String a w :: ws
           end
  end.

Definition slash : Ascii.ascii := Ascii.ascii_of_N 47.

(** [domain()]: [None] is the [expect] panic. *)
Definition domain (id : OperationIdentity) : option string :=
  List.nth_error (split_on slash (key id)) 1.

Section hashed.
(** The BLAKE3 hash function (the [blake3] crate). *)
Context (blake3 : list Z -> list Z).

(** What [finish] hashes. *)
Definition canonical_bytes (ht : HypertableId) (domain : string) (version : Z)
    (body : Canonical -> Canonical) : list Z :=
  body (c_int (c_int (c_str (c_str [] "ukiel") domain) version) ht).

Definition finish (ht : HypertableId) (domain : string) (version : Z)
    (body : Canonical -> Canonical) : result OperationIdentity OperationError :=
  let fp := blake3 (canonical_bytes ht domain version body) in
  let k := ("ukiel/" +:+ domain +:+ "/v" +:+ pretty version +:+ "/" +:+ hex fp)%string in
  if str_len k >? MAX_OPERATION_KEY_LEN then Err (KeyTooLong (str_len k))
  else Ok (mkIdentity ht k fp).

Definition mv_body (i : MvIntent) (c : Canonical) : Canonical :=
  c_int (c_int (c_int (c_int c (mv_transformation_version i)) (pipeline_id i))
               (source_hypertable_id i)) (source_commit_id i).

Fixpoint positive_ids (fields : list (string * Z)) : result unit OperationError :=
  match fields with
  | [] => Ok tt
  | (f, v) :: fs => if v <=? 0 then Err (InvalidId f v) else positive_ids fs
  end.

Definition mv (target : HypertableId) (i : MvIntent)
  : result OperationIdentity OperationError :=
  let? _ := positive_ids
    [("target_hypertable_id", target);
     ("pipeline_id", pipeline_id i);
     ("source_hypertable_id", source_hypertable_id i);
     ("source_commit_id", source_commit_id i)]%string in
  if target =? source_hypertable_id i then Err MvSelfLoop
  else finish target "mv" 1 (mv_body i).

Definition ingest_body (ranges : list IngestRange) (version : Z) (c : Canonical) : Canonical :=
  c_list (fun c r => c_int (c_int (c_int (c_str c (topic r)) (partition r)) (first r)) (last r))
         (c_int c version) ranges.

Definition ingest (ht : HypertableId) (ranges : list IngestRange) (version : Z)
  : result OperationIdentity OperationError :=
  let? ranges := canonical_ranges ranges in
  finish ht "ingest" 1 (ingest_body ranges version).

Definition compaction_body (parts : list Z) (i : CompactionIntent) (c : Canonical) : Canonical :=
  let c := c_int c (transformation_version i) in
  let c := c_int c (output_level i) in
  let c := c_list c_int c parts in
  let c := c_json c (partition_values i) in
  let c := c_json c (table_schema i) in
  let c := c_list c_str c (sort_key i) in
  c_placement c (placement i).

Definition compaction (ht : HypertableId) (i : CompactionIntent)
  : result OperationIdentity OperationError :=
  let? parts := canonical_parts (input_parts i) in
  match sort_key i with
  | [] => Err EmptySortKey
  | _ => finish ht "compaction" 1 (compaction_body parts i)
  end.

Definition delete_key_body (parts : list Z) (i : DeleteKeyIntent) (c : Canonical) : Canonical :=
  let c := c_int c (dk_transformation_version i) in
  let c := c_int c (dk_packing_key i) in
  let c := c_list c_int c parts in
  let c := c_json c (dk_table_schema i) in
  let c := c_list c_str c (dk_sort_key i) in
  c_placement c (dk_placement i).

Definition delete_key (ht : HypertableId) (i : DeleteKeyIntent)
  : result OperationIdentity OperationError :=
  let? parts := canonical_parts (dk_input_parts i) in
  match dk_sort_key i with
  | [] => Err EmptySortKey
  | _ => finish ht "delete-key" 1 (delete_key_body parts i)
  end.

Definition from_stored (ht : HypertableId) (k : string) (fp : list Z)
  : result OperationIdentity OperationError :=
  if str_len k >? MAX_OPERATION_KEY_LEN then Err (KeyTooLong (str_len k))
  else Ok (mkIdentity ht k fp).
End hashed.

End Operation.
