(* ===== verification/OperationSpec.v ===== *)
(** * What an operation identity promises

    The abstract contract of [Operation]: an identity names one logical intent,
    whatever order the caller enumerated its parts, ranges or JSON keys in. *)

From S2P Require Import Prelude Bytes Json Types Operation.
Import Operation.

Module OperationSpec.

#[local] Opaque u64_be i64_be.

(** ** The canonical encoder appends an unambiguous encoding *)

Definition enc_str (s : string) : list Z := TAG_STR :: enc_delimited s.
Definition enc_int (v : Z) : list Z := TAG_INT :: i64_be v.
Definition enc_items {A} (e : A -> list Z) (l : list A) : list Z := TAG_LIST :: enc_list e l.

Definition enc_placement (p : Placement) : list Z :=
  match p with
  | Packed => enc_str "packed"
  | Separated => enc_str "separated"
  | SizeTargeted n => enc_str "size_targeted" ++ enc_int n
  end.

Lemma c_str_app c s : c_str c s = c ++ enc_str s.
Proof. unfold c_str, c_len, enc_str, enc_delimited. by rewrite <- !app_assoc. Qed.

Lemma c_int_app c v : c_int c v = c ++ enc_int v.
Proof. unfold c_int. by rewrite <- app_assoc. Qed.

Lemma fold_left_app_each {A} (each : Canonical -> A -> Canonical) e c l :
  (forall c x, each c x = c ++ e x) ->
  List.fold_left each l c = c ++ List.flat_map e l.
Proof.
  intros He. revert c. induction l as [|x l IH]; intros c; simpl.
  - by rewrite app_nil_r.
  - by rewrite IH, He, <- app_assoc.
Qed.

Lemma c_list_app {A} (each : Canonical -> A -> Canonical) e c l :
  (forall c x, each c x = c ++ e x) ->
  c_list each c l = c ++ enc_items e l.
Proof.
  intros He. unfold c_list, c_len, enc_items, enc_list.
  rewrite (fold_left_app_each _ e) by done. by rewrite <- !app_assoc.
Qed.

Lemma c_placement_app c p : c_placement c p = c ++ enc_placement p.
Proof.
  destruct p; simpl; rewrite ?c_int_app, ?c_str_app; [done..|]. by rewrite <- app_assoc.
Qed.

Create Rewrite HintDb canonical.
#[export] Hint Rewrite c_str_app c_int_app c_placement_app : canonical.

Lemma pf_str : prefix_free small_string eq enc_str.
Proof. intros s. apply (pf_tag TAG_STR _ _ enc_delimited), pf_delimited. Qed.

Lemma pf_int : prefix_free in_i64 eq enc_int.
Proof. intros v. apply (pf_tag TAG_INT _ _ i64_be), pf_i64. Qed.

Lemma pf_items {A} (P : A -> Prop) (e : A -> list Z) :
  prefix_free P eq e ->
  prefix_free (fun l => small_list l /\ List.Forall P l) eq (enc_items e).
Proof.
  intros He l k r1 r2 Hl Hk H%tag_inv. eapply (pf_list P eq e He) in H as [H ->]; [|done..].
  split; [by apply Forall2_eq|done].
Qed.

Definition placement_fits (p : Placement) : Prop :=
  match p with SizeTargeted n => in_i64 n | _ => True end.

Lemma pf_placement : prefix_free placement_fits eq enc_placement.
Proof.
  assert (S : forall s t r1 r2, str_len s < 2 ^ 64 -> str_len t < 2 ^ 64 ->
    enc_str s ++ r1 = enc_str t ++ r2 -> s = t /\ r1 = r2).
  { intros s t r1 r2 Hs Ht. by apply pf_str. }
  intros [| |n] [| |m] r1 r2 Ha Hb; cbn [enc_placement]; rewrite <- ?app_assoc; intros H;
    apply S in H as [E H]; try discriminate E; try (unfold str_len; simpl; lia); [by subst..|].
  apply pf_int in H as [-> ->]; done.
Qed.

(** ** JSON *)

Lemma json_bytes_object m :
  NoDup (m.*1) ->
  json_bytes (JObject m) =
  TAG_JSON_OBJECT ::
  enc_list (fun kv => enc_delimited kv.1 ++ json_bytes kv.2) (sort_entries m).
Proof.
  intros Hn. cbn [json_bytes]. unfold enc_list. f_equal. f_equal.
  - f_equal. unfold len. by rewrite (Permutation_length (sort_entries_perm m)).
  - set (values := List.map _ m).
    assert (Hv : NoDup (values.*1)).
    { unfold values. clear -Hn. replace (_.*1) with (m.*1); [done|].
      clear Hn. induction m as [|x m IH]; simpl; [done|]. f_equal. exact IH. }
    assert (G : forall s, (forall kv, List.In kv s -> List.In kv m) ->
      List.flat_map (fun k => (u64_be (str_len k) ++ str_bytes k) ++ default [] (assoc k values)) (s.*1)
      = List.flat_map (fun kv => enc_delimited kv.1 ++ json_bytes kv.2) s).
    { induction s as [|[k v] s IH]; intros Hs; [done|].
      cbn [List.flat_map fmap list_fmap fst snd]. apply (f_equal2 app).
      - unfold enc_delimited. rewrite (assoc_In k (json_bytes v)); [reflexivity|done|].
        unfold values. apply (List.in_map (fun kv => (kv.1, json_bytes kv.2)) m (k, v)).
        apply Hs. by left.
      - apply IH. intros kv Hkv. apply Hs. by right. }
    rewrite <- sort_entries_keys. apply G.
    intros kv. rewrite <- !list_elem_of_In, sort_entries_perm. done.
Qed.

Lemma Forall_sort_entries {A} (P : string * A -> Prop) m :
  List.Forall P m -> List.Forall P (sort_entries m).
Proof. intros H. rewrite List.Forall_forall in *. intros x.
  rewrite <- list_elem_of_In, sort_entries_perm, list_elem_of_In. apply H. Qed.

Lemma json_equiv_object l k :
  NoDup (l.*1) -> NoDup (k.*1) ->
  List.Forall2 (fun p q => p.1 = q.1 /\ json_equiv p.2 q.2) (sort_entries l) (sort_entries k) ->
  json_equiv (JObject l) (JObject k).
Proof.
  intros Hl Hk H. unfold json_equiv. simpl. f_equal.
  rewrite !map_sort_entries by done.
  induction H as [|[? ?] [? ?] l' k' [? E] _ IH]; simpl in *; [done|].
  unfold json_equiv in E. congruence.
Qed.

(** canonical JSON bytes are unambiguous, whatever follows them. *)
Lemma pf_json : prefix_free json_wf json_equiv json_bytes.
Proof.
  intros a. induction a using json_nested_ind; intros b' r1 r2 Wa Wb E;
    destruct b'; try discriminate E.
  - injection E as ->. split; [reflexivity|done].
  - injection E as E ->. split; [|done]. destruct b, b0; done || discriminate.
  - apply tag_inv in E. cbv zeta in E. apply pf_delimited in E as [E ->]; [|done..].
    split; [|done]. unfold json_equiv; simpl. by rewrite E.
  - apply tag_inv, pf_delimited in E as [-> ->]; [|done..]. split; [reflexivity|done].
  - apply tag_inv in E. apply json_wf_array in Wa, Wb.
    apply (pf_list_at json_wf json_equiv json_bytes l H) in E as [E ->]; [|done..].
    split; [|done]. unfold json_equiv; simpl. f_equal.
    clear -E. induction E; simpl; [done|]. unfold json_equiv in *. congruence.
  - apply json_wf_object in Wa as (Sa & Na & Fa), Wb as (Sb & Nb & Fb).
    rewrite !json_bytes_object in E by done. apply tag_inv in E.
    eapply (pf_list_at (fun kv => small_string kv.1 /\ json_wf kv.2)
             (fun p q => p.1 = q.1 /\ json_equiv p.2 q.2)
             (fun kv => enc_delimited kv.1 ++ json_bytes kv.2)) in E as [E ->].
    + split; [|done]. by apply json_equiv_object.
    + apply Forall_sort_entries. eapply List.Forall_impl; [|exact H].
      intros [k v] Hv. apply pf_pair; [apply pf_delimited|exact Hv].
    + split; [|by apply Forall_sort_entries].
      unfold small_list, len in *. by rewrite (Permutation_length (sort_entries_perm m)).
    + split; [|by apply Forall_sort_entries].
      unfold small_list, len in *. by rewrite (Permutation_length (sort_entries_perm map)).
Qed.

Lemma sort_entries_idemp {A} (m : list (string * A)) :
  NoDup (m.*1) -> sort_entries (sort_entries m) = sort_entries m.
Proof.
  intros Hn. apply (StronglySorted_unique_strong entry_le).
  - intros [k1 v1] [k2 v2] H1 H2 L1 L2. unfold entry_le in *; simpl in *.
    assert (k1 = k2) as -> by (apply (anti_symm String.le); done). f_equal.
    rewrite !sort_entries_perm in H1. rewrite sort_entries_perm in H2.
    apply list_elem_of_In, (assoc_In _ _ _ Hn) in H1.
    apply list_elem_of_In, (assoc_In _ _ _ Hn) in H2. congruence.
  - apply sort_entries_sorted.
  - apply sort_entries_sorted.
  - apply sort_entries_perm.
Qed.

Lemma map_fst_values {A B} (f : A -> B) (m : list (string * A)) :
  (List.map (fun kv => (kv.1, f kv.2)) m).*1 = m.*1.
Proof. induction m as [|x m IH]; [done|]. simpl. f_equal. exact IH. Qed.

(** The bytes of a value are those of its normal form ... *)
Lemma json_bytes_norm a : json_wf a -> json_bytes (json_norm a) = json_bytes a.
Proof.
  induction a using json_nested_ind; intros W; try done.
  - apply json_wf_array in W as [_ W]. cbn [json_norm json_bytes]. unfold len.
    rewrite length_map. do 2 f_equal. clear -H W.
    induction H as [|x l Hx _ IH]; [done|].
    apply List.Forall_cons_iff in W as [? ?]. simpl. f_equal; auto.
  - apply json_wf_object in W as (_ & N & W). cbn [json_norm].
    rewrite map_sort_entries by done.
    rewrite !json_bytes_object; [|done|].
    2:{ rewrite map_fst_values. rewrite (Permutation_map fst (sort_entries_perm m)). done. }
    rewrite map_sort_entries by (rewrite (Permutation_map fst (sort_entries_perm m)); done).
    rewrite sort_entries_idemp by done.
    unfold enc_list, len. rewrite length_map. do 2 f_equal.
    apply Forall_sort_entries in H, W. clear N.
    induction H as [|x l Hx _ IH]; [done|].
    apply List.Forall_cons_iff in W as [[? ?] ?].
    cbn [List.flat_map List.map fst snd]. apply (f_equal2 app); [f_equal; auto|auto].
Qed.

(** ... so equivalent values have the same canonical bytes. *)
Lemma json_bytes_equiv a b :
  json_wf a -> json_wf b -> json_equiv a b -> json_bytes a = json_bytes b.
Proof.
  intros Wa Wb E. rewrite <- (json_bytes_norm a), <- (json_bytes_norm b) by done.
  unfold json_equiv in E. congruence.
Qed.

(** ** Offset ranges *)

#[export] Instance range_le_trans : Transitive range_le.
Proof.
  intros a b c. unfold range_le.
  intros [[N1 L1]|[E1 R1]] [[N2 L2]|[E2 R2]].
  - left. split; [|by transitivity (topic b)].
    intros E. rewrite E in L1. apply N1. rewrite E. by apply (anti_symm String.le).
  - left. rewrite <- E2. done.
  - left. rewrite E1. done.
  - right. split; [congruence|lia].
Qed.

#[export] Instance range_le_total : Total range_le.
Proof.
  intros a b. unfold range_le.
  destruct (decide (topic a = topic b)) as [E|N].
  - rewrite E. assert (D : forall x y : Z, x < y \/ x = y \/ y < x) by lia.
    destruct (D (partition a) (partition b)) as [?|[?|?]]; [left;right;auto| |right;right;auto].
    destruct (D (first a) (first b)) as [?|[?|?]]; [left;right;auto| |right;right;auto].
    destruct (Z.le_ge_cases (last a) (last b)); [left|right]; right; auto 10.
  - destruct (total String.le (topic a) (topic b)); [left|right]; left; auto.
Qed.

#[export] Instance range_le_antisymm : AntiSymm (=) range_le.
Proof.
  intros [ta pa fa la] [tb pb fb lb]. unfold range_le; simpl.
  intros [[N1 L1]|[E1 R1]] [[N2 L2]|[E2 R2]].
  - destruct N1. by apply (anti_symm String.le).
  - congruence.
  - congruence.
  - f_equal; [done|lia..].
Qed.

Definition range_wf (r : IngestRange) : Prop := topic r <> EmptyString /\ first r <= last r.

(** Two ranges consume no offset in common. *)
Definition range_disjoint (a b : IngestRange) : Prop :=
  topic a = topic b -> partition a = partition b -> last a < first b \/ last b < first a.

(** What the caller must offer: some ranges, each well formed, no offset twice. *)
Definition ranges_valid (rs : list IngestRange) : Prop :=
  rs <> [] /\ List.Forall range_wf rs /\ ForallOrdPairs range_disjoint rs.

Lemma check_ranges_ok rs : check_ranges rs = Ok tt <-> List.Forall range_wf rs.
Proof.
  induction rs as [|r rs IH]; simpl; [by split; constructor|].
  rewrite List.Forall_cons_iff. unfold range_wf at 1.
  destruct (String.eqb_spec (topic r) EmptyString) as [E|N].
  - split; [discriminate|]. intros [[? ?] ?]. done.
  - rewrite Z.gtb_ltb. destruct (Z.ltb_spec (last r) (first r)).
    + split; [discriminate|]. intros [[? ?] ?]. lia.
    + rewrite IH. tauto.
Qed.

Lemma ForallOrdPairs_perm {A} (R : A -> A -> Prop) l k :
  (forall a b, R a b -> R b a) -> l ≡ₚ k -> ForallOrdPairs R l -> ForallOrdPairs R k.
Proof.
  intros Hs Hp. induction Hp as [|x l k Hp IH|x y l|l1 l2 l3 _ IH1 _ IH2]; intros H; auto.
  - inversion H; subst. constructor; [|auto]. by rewrite <- Hp.
  - inversion H as [|? ? Hy Hl]; subst. inversion Hl as [|? ? Hx Hl']; subst.
    apply List.Forall_cons_iff in Hy as [? ?].
    constructor; [constructor; auto|]. constructor; auto.
Qed.

Lemma range_disjoint_sym a b : range_disjoint a b -> range_disjoint b a.
Proof. unfold range_disjoint. intros H E1 E2. destruct H; auto. Qed.

Lemma range_le_between a b c :
  range_le a b -> range_le b c -> topic a = topic c -> partition a = partition c ->
  topic a = topic b /\ partition a = partition b.
Proof.
  unfold range_le. intros [[N1 L1]|[E1 R1]] [[N2 L2]|[E2 R2]] E P.
  - destruct N2. apply (anti_symm String.le); [done|]. by rewrite <- E.
  - destruct N1. congruence.
  - destruct N2. congruence.
  - split; [done|lia].
Qed.

(** On a sorted list of well-formed ranges the adjacent test is enough. *)
Lemma adjacent_disjoint rs :
  StronglySorted range_le rs -> List.Forall range_wf rs ->
  List.find (fun w => overlapping w.1 w.2) (windows2 rs) = None <->
  ForallOrdPairs range_disjoint rs.
Proof.
  intros Hs. induction Hs as [|a rs Hs IH Ha]; intros Hw; [by split; constructor|].
  apply List.Forall_cons_iff in Hw as [Wa Hw]. specialize (IH Hw).
  destruct rs as [|b rs]; [by split; repeat constructor|].
  cbn [windows2 List.find fst snd].
  apply List.Forall_cons_iff in Ha as [Hab Ha].
  apply List.Forall_cons_iff in Hw as [Wb Hw].
  inversion Hs as [|? ? _ Hbs]; subst.
  assert (D : overlapping a b = false <-> range_disjoint a b).
  { unfold overlapping, range_disjoint.
    destruct (String.eqb_spec (topic a) (topic b)) as [E|N]; simpl; [|tauto].
    destruct (Z.eqb_spec (partition a) (partition b)) as [E'|N']; simpl; [|split; [lia|done]].
    destruct Wa, Wb. unfold range_le in Hab. rewrite Z.leb_gt.
    split; [by left|]. intros HH. destruct (HH E E'); [done|].
    destruct Hab as [[? _]|[_ Hab]]; [done|lia]. }
  destruct (overlapping a b).
  - split; [discriminate|]. intros H. inversion H as [|? ? Hd _]; subst.
    apply List.Forall_cons_iff in Hd as [Hd _]. apply D in Hd. discriminate.
  - rewrite IH. split; [|by inversion 1]. intros H. constructor; [|done].
    rewrite List.Forall_forall in Ha, Hbs |- *.
    intros c [<-|Hc]; [by apply D|]. intros E P.
    destruct (range_le_between a b c Hab (Hbs c Hc) E P) as [E' P'].
    assert (range_disjoint a b) as Dab by (by apply D).
    left. specialize (Hbs c Hc). destruct (Dab E' P'); unfold range_le in *; destruct Wa, Wb.
    + destruct Hbs as [[? _]|[_ Hbs]]; [congruence|lia].
    + destruct Hab as [[? _]|[_ Hab]]; [congruence|lia].
Qed.

Lemma sorted_ranges_facts rs :
  StronglySorted range_le (merge_sort range_le rs) /\ merge_sort range_le rs ≡ₚ rs.
Proof. split; [apply StronglySorted_merge_sort; apply _|apply merge_sort_Permutation]. Qed.

(** [canonical_ranges] accepts exactly the valid range lists -- non-empty,
    each range well formed, no offset of a topic partition claimed twice -- and
    returns them in one order, whatever order they came in. *)
Theorem canonical_ranges_spec rs :
  (ranges_valid rs -> canonical_ranges rs = Ok (merge_sort range_le rs)) /\
  (forall sorted, canonical_ranges rs = Ok sorted ->
     ranges_valid rs /\ sorted ≡ₚ rs /\ StronglySorted range_le sorted) /\
  (forall rs', rs ≡ₚ rs' -> canonical_ranges rs' = canonical_ranges rs).
Proof.
  destruct (sorted_ranges_facts rs) as [S P].
  split_and!.
  - intros (Hne & Hw & Hd). unfold canonical_ranges. destruct rs as [|r rs]; [done|].
    set (l := r :: rs) in *.
    assert (Hw' : List.Forall range_wf (merge_sort range_le l)) by (by rewrite P).
    rewrite (proj2 (check_ranges_ok _) Hw'). cbn [rbind].
    rewrite (proj2 (adjacent_disjoint _ S Hw')); [done|].
    eapply ForallOrdPairs_perm; [apply range_disjoint_sym|symmetry; exact P|done].
  - intros sorted. unfold canonical_ranges. destruct rs as [|r rs]; [discriminate|].
    set (l := r :: rs) in *. intros H. inv_ok. destruct a.
    apply check_ranges_ok in E. split_if H. injection H as <-.
    split_and!; [split_and!; [done| by rewrite <- P |]|done|done].
    apply (adjacent_disjoint _ S E) in E0.
    eapply ForallOrdPairs_perm; [apply range_disjoint_sym|exact P|done].
  - intros rs' Hp. unfold canonical_ranges.
    rewrite <- (merge_sort_perm_eq range_le rs rs' Hp).
    destruct rs as [|r rs]; [by apply Permutation_nil in Hp as ->|].
    destruct rs' as [|r' rs']; [|done]. by apply Permutation_sym, Permutation_nil_cons in Hp.
Qed.

(** ** Input parts *)

Lemma adjacent_NoDup (l : list Z) :
  StronglySorted Z.le l ->
  List.find (fun w => w.1 =? w.2) (windows2 l) = None <-> NoDup l.
Proof.
  intros Hs. induction Hs as [|a l Hs IH Ha]; [by split; constructor|].
  destruct l as [|b l]; [split; [intros _; apply NoDup_singleton|done]|].
  cbn [windows2 List.find fst snd]. rewrite NoDup_cons.
  inversion Hs as [|? ? _ Hb]; subst.
  destruct (Z.eqb_spec a b) as [->|N].
  - split; [discriminate|]. intros [Hn _]. destruct Hn. by left.
  - rewrite IH. split; [|tauto]. intros Hd. split; [|done].
    apply List.Forall_cons_iff in Ha as [Hab Ha].
    rewrite List.Forall_forall in Hb. intros [->|Hin]%elem_of_cons; [done|].
    apply list_elem_of_In, Hb in Hin. lia.
Qed.

(** [canonical_parts] accepts exactly the non-empty, duplicate-free part
    lists, and forgets the order they were enumerated in. *)
Theorem canonical_parts_spec parts :
  (parts <> [] -> NoDup parts -> canonical_parts parts = Ok (merge_sort Z.le parts)) /\
  (forall ids, canonical_parts parts = Ok ids ->
     parts <> [] /\ NoDup parts /\ ids ≡ₚ parts /\ StronglySorted Z.le ids) /\
  (forall parts', parts ≡ₚ parts' -> canonical_parts parts' = canonical_parts parts).
Proof.
  assert (S : StronglySorted Z.le (merge_sort Z.le parts))
    by (apply StronglySorted_merge_sort; apply _).
  assert (P : merge_sort Z.le parts ≡ₚ parts) by apply merge_sort_Permutation.
  pose proof (adjacent_NoDup _ S) as W. split_and!.
  - intros Hne Hn. unfold canonical_parts. destruct parts as [|p ps]; [done|].
    rewrite (proj2 W); [done|]. by rewrite P.
  - intros ids. unfold canonical_parts. destruct parts as [|p ps]; [discriminate|].
    intros H. split_if H. injection H as <-. destruct W as [W _].
    specialize (W eq_refl). rewrite P in W. done.
  - intros parts' Hp. unfold canonical_parts.
    rewrite <- (merge_sort_perm_eq Z.le parts parts' Hp).
    destruct parts as [|r rs]; [by apply Permutation_nil in Hp as ->|].
    destruct parts' as [|r' rs']; [|done]. by apply Permutation_sym, Permutation_nil_cons in Hp.
Qed.

(** ** Intents *)

Inductive Intent :=
| IMv (i : MvIntent)
| IIngest (ranges : list IngestRange) (version : Z)
| ICompaction (i : CompactionIntent)
| IDeleteKey (i : DeleteKeyIntent).

(** The identity factory of each kind of intent. *)
Definition identify (blake3 : list Z -> list Z) (ht : HypertableId) (i : Intent)
  : result OperationIdentity OperationError :=
  match i with
  | IMv i => mv blake3 ht i
  | IIngest rs v => ingest blake3 ht rs v
  | ICompaction i => compaction blake3 ht i
  | IDeleteKey i => delete_key blake3 ht i
  end.

(** The same logical work: order of parts, ranges and JSON keys aside. *)
Definition intent_equiv (a b : Intent) : Prop :=
  match a, b with
  | IMv a, IMv b => a = b
  | IIngest rs v, IIngest rs' v' => rs ≡ₚ rs' /\ v = v'
  | ICompaction a, ICompaction b =>
      output_level a = output_level b /\ input_parts a ≡ₚ input_parts b /\
      json_equiv (partition_values a) (partition_values b) /\
      json_equiv (table_schema a) (table_schema b) /\
      sort_key a = sort_key b /\ placement a = placement b /\
      transformation_version a = transformation_version b
  | IDeleteKey a, IDeleteKey b =>
      dk_packing_key a = dk_packing_key b /\ dk_input_parts a ≡ₚ dk_input_parts b /\
      json_equiv (dk_table_schema a) (dk_table_schema b) /\
      dk_sort_key a = dk_sort_key b /\ dk_placement a = dk_placement b /\
      dk_transformation_version a = dk_transformation_version b
  | _, _ => False
  end.

(** The values Rust's types can hold: [i64] ids, strings and slices no longer
    than the address space, JSON objects with one entry per key. *)
Definition ints_fit (l : list Z) : Prop := small_list l /\ List.Forall in_i64 l.
Definition strings_fit (l : list string) : Prop := small_list l /\ List.Forall small_string l.
Definition range_fits (r : IngestRange) : Prop :=
  small_string (topic r) /\ in_i64 (partition r) /\ in_i64 (first r) /\ in_i64 (last r).

Definition intent_fits (i : Intent) : Prop :=
  match i with
  | IMv i => in_i64 (pipeline_id i) /\ in_i64 (source_hypertable_id i) /\
             in_i64 (source_commit_id i) /\ in_i64 (mv_transformation_version i)
  | IIngest rs v => small_list rs /\ List.Forall range_fits rs /\ in_i64 v
  | ICompaction i =>
      in_i64 (output_level i) /\ ints_fit (input_parts i) /\ json_wf (partition_values i) /\
      json_wf (table_schema i) /\ strings_fit (sort_key i) /\ placement_fits (placement i) /\
      in_i64 (transformation_version i)
  | IDeleteKey i =>
      in_i64 (dk_packing_key i) /\ ints_fit (dk_input_parts i) /\ json_wf (dk_table_schema i) /\
      strings_fit (dk_sort_key i) /\ placement_fits (dk_placement i) /\
      in_i64 (dk_transformation_version i)
  end.

(** The hashed bytes of an intent, as a flat encoding. *)
Definition enc_range (r : IngestRange) : list Z :=
  enc_str (topic r) ++ enc_int (partition r) ++ enc_int (first r) ++ enc_int (last r).

Definition intent_domain (i : Intent) : string :=
  match i with
  | IMv _ => "mv" | IIngest _ _ => "ingest" | ICompaction _ => "compaction"
  | IDeleteKey _ => "delete-key"
  end.

Definition enc_body (i : Intent) : list Z :=
  match i with
  | IMv i => enc_int (mv_transformation_version i) ++ enc_int (pipeline_id i) ++
             enc_int (source_hypertable_id i) ++ enc_int (source_commit_id i)
  | IIngest rs v => enc_int v ++ enc_items enc_range (merge_sort range_le rs)
  | ICompaction i =>
      enc_int (transformation_version i) ++ enc_int (output_level i) ++
      enc_items enc_int (merge_sort Z.le (input_parts i)) ++
      json_bytes (partition_values i) ++ json_bytes (table_schema i) ++
      enc_items enc_str (sort_key i) ++ enc_placement (placement i)
  | IDeleteKey i =>
      enc_int (dk_transformation_version i) ++ enc_int (dk_packing_key i) ++
      enc_items enc_int (merge_sort Z.le (dk_input_parts i)) ++
      json_bytes (dk_table_schema i) ++
      enc_items enc_str (dk_sort_key i) ++ enc_placement (dk_placement i)
  end.

Definition intent_bytes (ht : HypertableId) (i : Intent) : list Z :=
  enc_str "ukiel" ++ enc_str (intent_domain i) ++ enc_int 1 ++ enc_int ht ++ enc_body i.

Lemma canonical_bytes_app ht d v body e :
  (forall c, body c = c ++ e) ->
  canonical_bytes ht d v body = enc_str "ukiel" ++ enc_str d ++ enc_int v ++ enc_int ht ++ e.
Proof.
  intros Hb. unfold canonical_bytes. rewrite Hb. autorewrite with canonical.
  by rewrite <- !app_assoc.
Qed.

Lemma finish_Ok blake3 ht d v body id :
  finish blake3 ht d v body = Ok id ->
  fingerprint id = blake3 (canonical_bytes ht d v body) /\ hypertable_id id = ht /\
  key id = ("ukiel/" +:+ d +:+ "/v" +:+ pretty v +:+ "/" +:+ hex (fingerprint id))%string.
Proof. unfold finish. intros H. split_if H. by injection H as <-. Qed.

Ltac bodies :=
  intros c; unfold mv_body, ingest_body, compaction_body, delete_key_body, c_json; cbv zeta;
  rewrite ?(c_list_app _ _ _ _ c_int_app), ?(c_list_app _ _ _ _ c_str_app);
  autorewrite with canonical; by rewrite <- ?app_assoc.

(** Every factory hashes the flat encoding of its intent. *)
Lemma identify_bytes blake3 ht i id :
  identify blake3 ht i = Ok id ->
  hypertable_id id = ht /\ fingerprint id = blake3 (intent_bytes ht i) /\
  key id = ("ukiel/" +:+ intent_domain i +:+ "/v1/" +:+ hex (fingerprint id))%string.
Proof.
  destruct i as [i|rs v|i|i]; simpl; intros H.
  - unfold mv in H. inv_ok. split_if H. apply finish_Ok in H as (-> & -> & K).
    split_and!; [done| |exact K]. unfold intent_bytes. f_equal; apply canonical_bytes_app; bodies.
  - unfold ingest in H. inv_ok.
    assert (a = merge_sort range_le rs) as ->.
    { destruct (canonical_ranges_spec rs) as (C1 & C2 & _).
      apply C2 in E as E'. destruct E' as [V _]. apply C1 in V. congruence. }
    apply finish_Ok in H as (-> & -> & K).
    split_and!; [done| |exact K]. unfold intent_bytes. apply (f_equal blake3), canonical_bytes_app.
    intros c. unfold ingest_body. rewrite (c_list_app _ enc_range).
    + autorewrite with canonical. by rewrite <- app_assoc.
    + intros c' r. autorewrite with canonical. unfold enc_range. by rewrite <- !app_assoc.
  - unfold compaction in H. inv_ok.
    assert (a = merge_sort Z.le (input_parts i)) as ->.
    { destruct (canonical_parts_spec (input_parts i)) as (C1 & C2 & _).
      apply C2 in E as E'. destruct E' as (V1 & V2 & _). specialize (C1 V1 V2). congruence. }
    destruct (sort_key i) eqn:Sk; [discriminate|]. apply finish_Ok in H as (-> & -> & K).
    split_and!; [done| |exact K]. unfold intent_bytes. f_equal; apply canonical_bytes_app; bodies.
  - unfold delete_key in H. inv_ok.
    assert (a = merge_sort Z.le (dk_input_parts i)) as ->.
    { destruct (canonical_parts_spec (dk_input_parts i)) as (C1 & C2 & _).
      apply C2 in E as E'. destruct E' as (V1 & V2 & _). specialize (C1 V1 V2). congruence. }
    destruct (dk_sort_key i) eqn:Sk; [discriminate|]. apply finish_Ok in H as (-> & -> & K).
    split_and!; [done| |exact K]. unfold intent_bytes. f_equal; apply canonical_bytes_app; bodies.
Qed.

(** Peels equal leading encodings off an equation of byte strings. *)
Ltac peel H :=
  repeat first
    [ apply pf_str in H as [? H]; [|done..]
    | apply pf_int in H as [? H]; [|done..]
    | apply pf_json in H as [? H]; [|done..]
    | apply pf_placement in H as [? H]; [|done..]
    | apply (pf_items in_i64 enc_int pf_int) in H as [? H]; [|done..]
    | apply (pf_items small_string enc_str pf_str) in H as [? H]; [|done..] ].

Lemma ints_fit_sort l : ints_fit l -> small_list (merge_sort Z.le l) /\ List.Forall in_i64 (merge_sort Z.le l).
Proof.
  intros [S F]. pose proof (merge_sort_Permutation Z.le l) as P. split.
  - unfold small_list, len in *. by rewrite (Permutation_length P).
  - by rewrite P.
Qed.

Lemma pf_range : prefix_free range_fits eq enc_range.
Proof.
  intros [] [] r1 r2 (? & ? & ? & ?) (? & ? & ? & ?) HE. unfold enc_range in HE; simpl in *.
  rewrite <- !app_assoc in HE. peel HE. by simplify_eq.
Qed.

Lemma merge_sort_eq_perm {A} (R : relation A) `{forall x y, Decision (R x y)} (l k : list A) :
  merge_sort R l = merge_sort R k -> l ≡ₚ k.
Proof. intros E. by rewrite <- (merge_sort_Permutation R l), E, merge_sort_Permutation. Qed.

Lemma enc_body_inj a b :
  intent_domain a = intent_domain b -> intent_fits a -> intent_fits b ->
  enc_body a ++ [] = enc_body b ++ [] -> intent_equiv a b.
Proof.
  destruct a as [a|a va|a|a], b as [b|b vb|b|b]; try discriminate; intros _ Fa Fb HE.
  - destruct Fa as (?&?&?&?), Fb as (?&?&?&?). cbn [enc_body] in HE. rewrite <- !app_assoc in HE.
    peel HE. destruct a, b; simpl in *. by simplify_eq.
  - destruct Fa as (S1&F1&?), Fb as (S2&F2&?). cbn [enc_body] in HE. rewrite <- !app_assoc in HE.
    apply pf_int in HE as [-> HE]; [|done..].
    apply (pf_items range_fits enc_range pf_range) in HE as [HE _].
    + split; [by apply (merge_sort_eq_perm range_le)|done].
    + unfold small_list, len in *. rewrite !merge_sort_Permutation. done.
    + unfold small_list, len in *. rewrite !merge_sort_Permutation. done.
  - destruct Fa as (?&I1&?&?&?&?&?), Fb as (?&I2&?&?&?&?&?).
    apply ints_fit_sort in I1, I2. cbn [enc_body] in HE. rewrite <- !app_assoc in HE. peel HE.
    repeat match goal with E : merge_sort _ _ = merge_sort _ _ |- _ =>
      apply merge_sort_eq_perm in E end.
    simpl. split_and!; done.
  - destruct Fa as (?&I1&?&?&?&?), Fb as (?&I2&?&?&?&?).
    apply ints_fit_sort in I1, I2. cbn [enc_body] in HE. rewrite <- !app_assoc in HE. peel HE.
    repeat match goal with E : merge_sort _ _ = merge_sort _ _ |- _ =>
      apply merge_sort_eq_perm in E end.
    simpl. split_and!; done.
Qed.

Lemma intent_bytes_inj h1 a h2 b :
  in_i64 h1 -> in_i64 h2 -> intent_fits a -> intent_fits b ->
  intent_bytes h1 a = intent_bytes h2 b -> h1 = h2 /\ intent_equiv a b.
Proof.
  intros H1 H2 Fa Fb E. unfold intent_bytes in E.
  apply (f_equal (fun l => l ++ [])) in E. rewrite <- !app_assoc in E.
  assert (D : forall i, small_string (intent_domain i)) by (intros []; done).
  apply pf_str in E as [_ E]; [|done..].
  apply pf_str in E as [Ed E]; [|done..].
  apply pf_int in E as [_ E]; [|done..].
  apply pf_int in E as [-> E]; [|done..].
  split; [done|]. by apply enc_body_inj.
Qed.

(** C33: an identity names its intent.  If two factory-built identities carry one
    fingerprint, they are of one hypertable and one logical intent -- same
    kind, same versions, same parts or ranges up to order, same JSON up to key
    order -- or else they exhibit a BLAKE3 collision. *)
Theorem fingerprint_names_intent blake3 h1 i1 h2 i2 a b :
  in_i64 h1 -> in_i64 h2 -> intent_fits i1 -> intent_fits i2 ->
  identify blake3 h1 i1 = Ok a -> identify blake3 h2 i2 = Ok b ->
  fingerprint a = fingerprint b ->
  (h1 = h2 /\ intent_equiv i1 i2) \/
  (exists x y, x <> y /\ blake3 x = blake3 y).
Proof.
  intros H1 H2 F1 F2 (_ & E1 & _)%identify_bytes (_ & E2 & _)%identify_bytes E.
  destruct (decide (intent_bytes h1 i1 = intent_bytes h2 i2)) as [Eb|N].
  - left. by apply intent_bytes_inj.
  - right. exists (intent_bytes h1 i1), (intent_bytes h2 i2). split; [done|congruence].
Qed.

(** ** The other direction: a retry of one intent is one identity *)

Lemma canonical_parts_perm l k : l ≡ₚ k -> canonical_parts l = canonical_parts k.
Proof. intros P. destruct (canonical_parts_spec k) as (_ & _ & H). by rewrite H. Qed.

Lemma finish_ext blake3 ht d v b1 b2 :
  (forall c, b1 c = b2 c) -> finish blake3 ht d v b1 = finish blake3 ht d v b2.
Proof. intros H. unfold finish, canonical_bytes. by rewrite H. Qed.

(** whatever order a retry enumerates its parts, ranges and JSON keys in, it
    computes the identity (or the error) of the first attempt. *)
Theorem identity_stable_under_retry blake3 ht i1 i2 :
  intent_fits i1 -> intent_fits i2 -> intent_equiv i1 i2 ->
  identify blake3 ht i1 = identify blake3 ht i2.
Proof.
  destruct i1 as [a|a va|a|a], i2 as [b|b vb|b|b]; simpl; try done.
  - by intros _ _ ->.
  - intros _ _ [P ->]. unfold ingest. destruct (canonical_ranges_spec a) as (_ & _ & H).
    by rewrite (H b P).
  - intros (?&?&?&?&?&?&?) (?&?&?&?&?&?&?) (El&P&J1&J2&Es&Ep&Ev). unfold compaction.
    rewrite (canonical_parts_perm _ _ P), Es.
    destruct (canonical_parts _); simpl; [|done]. destruct (sort_key b) eqn:Eb; [done|].
    apply finish_ext. intros c. unfold compaction_body, c_json.
    rewrite El, Ev, Es, Eb, Ep, (json_bytes_equiv (partition_values a) (partition_values b)),
      (json_bytes_equiv (table_schema a) (table_schema b)) by done. done.
  - intros (?&?&?&?&?&?) (?&?&?&?&?&?) (El&P&J2&Es&Ep&Ev). unfold delete_key.
    rewrite (canonical_parts_perm _ _ P), Es.
    destruct (canonical_parts _); simpl; [|done]. destruct (dk_sort_key b) eqn:Eb; [done|].
    apply finish_ext. intros c. unfold delete_key_body, c_json.
    rewrite El, Ev, Es, Eb, Ep, (json_bytes_equiv (dk_table_schema a) (dk_table_schema b)) by done. done.
Qed.

(** ** Keys *)

Lemma str_len_app a b : str_len (a +:+ b) = str_len a + str_len b.
Proof.
  unfold str_len. induction a as [|c a IH]; [done|].
  change (String c a +:+ b) with (String c (a +:+ b)). cbn [String.length]. lia.
Qed.

Lemma hex_len l : str_len (hex l) = 2 * len l.
Proof. unfold str_len, len. induction l as [|b l IH]; [done|]. cbn [hex String.length length]. lia. Qed.

Lemma factory_key_len d fp :
  length fp = 32%nat -> str_len d <= 10 ->
  str_len ("ukiel/" +:+ d +:+ "/v" +:+ pretty 1 +:+ "/" +:+ hex fp)%string
  <= MAX_OPERATION_KEY_LEN.
Proof.
  intros L D. rewrite !str_len_app, hex_len. unfold len. rewrite L.
  change (str_len (pretty 1)) with 1. change (str_len "ukiel/") with 6.
  change (str_len "/v") with 2. change (str_len "/") with 1.
  unfold MAX_OPERATION_KEY_LEN. lia.
Qed.

Lemma intent_domain_len i : str_len (intent_domain i) <= 10.
Proof. destruct i; done. Qed.

Lemma finish_len blake3 ht d body :
  (forall x, length (blake3 x) = 32%nat) -> str_len d <= 10 ->
  exists id, finish blake3 ht d 1 body = Ok id /\ str_len (key id) <= MAX_OPERATION_KEY_LEN.
Proof.
  intros L D. unfold finish.
  pose proof (factory_key_len d (blake3 (canonical_bytes ht d 1 body)) (L _) D) as K.
  rewrite Z.gtb_ltb. destruct (Z.ltb_spec MAX_OPERATION_KEY_LEN
    (str_len ("ukiel/" +:+ d +:+ "/v" +:+ pretty 1 +:+ "/" +:+
              hex (blake3 (canonical_bytes ht d 1 body)))%string)); [lia|].
  eexists. split; [reflexivity|exact K].
Qed.

(** with a 32-byte digest no factory key is ever over the stored bound: a
    factory fails only for a malformed intent, and its key carries its domain
    and can be rehydrated from the stored pair. *)
Theorem factory_keys_are_bounded blake3 ht i :
  (forall x, length (blake3 x) = 32%nat) ->
  (forall n, identify blake3 ht i <> Err (KeyTooLong n)) /\
  (forall id, identify blake3 ht i = Ok id ->
     str_len (key id) <= MAX_OPERATION_KEY_LEN /\
     domain id = Some (intent_domain i) /\
     from_stored (hypertable_id id) (key id) (fingerprint id) = Ok id).
Proof.
  intros L. split.
  - intros n.
    assert (F : forall d body, str_len d <= 10 -> finish blake3 ht d 1 body <> Err (KeyTooLong n)).
    { intros d body D. destruct (finish_len blake3 ht d body L D) as (id & -> & _). done. }
    assert (P : forall l, canonical_parts l <> Err (KeyTooLong n)).
    { intros l. unfold canonical_parts. destruct l; [done|]. by destruct (List.find _ _). }
    assert (R : forall l, check_ranges l <> Err (KeyTooLong n)).
    { induction l as [|r l IH]; simpl; [done|].
      destruct (String.eqb _ _); [done|]. by destruct (_ >? _). }
    destruct i as [i|rs v|i|i]; simpl.
    + unfold mv. simpl. repeat (destruct (_ <=? 0); [done|]; simpl).
      destruct (_ =? _); [done|]. by apply F.
    + unfold ingest, canonical_ranges. destruct rs as [|r rs]; [done|].
      set (l := merge_sort _ _). destruct (check_ranges l) eqn:E; simpl.
      * destruct (List.find _ _); [done|]. by apply F.
      * intros [= ->]. by apply (R l).
    + unfold compaction. destruct (canonical_parts _) eqn:E; simpl.
      * destruct (sort_key i); [done|]. by apply F.
      * intros [= ->]. by apply P in E.
    + unfold delete_key. destruct (canonical_parts _) eqn:E; simpl.
      * destruct (dk_sort_key i); [done|]. by apply F.
      * intros [= ->]. by apply P in E.
  - intros id (_ & E & K)%identify_bytes.
    assert (KL : str_len (key id) <= MAX_OPERATION_KEY_LEN).
    { rewrite K. pose proof (factory_key_len (intent_domain i) (fingerprint id)) as KL.
      change (pretty 1) with "1"%string in KL.
      transitivity (str_len ("ukiel/" +:+ intent_domain i +:+ "/v" +:+ "1" +:+ "/" +:+
                             hex (fingerprint id))%string); [done|].
      apply KL; [rewrite E; apply L | apply intent_domain_len]. }
    split_and!; [done| |].
    + unfold domain. rewrite K. by destruct i.
    + unfold from_stored. rewrite Z.gtb_ltb, (proj2 (Z.ltb_ge _ _) KL). by destruct id.
Qed.

(** ** The theorems applied *)

(** A stand-in digest: the bytes themselves. *)
Definition id_hash (l : list Z) : list Z := l.
Definition zero_hash (l : list Z) : list Z := List.repeat 0 32.

Definition mv1 : Intent := IMv (Build_MvIntent 1 2 3 1).
Definition ing (rs : list IngestRange) : Intent := IIngest rs 1.
Definition r0 : IngestRange := mkRange "events" 0 0 9.
Definition r1 : IngestRange := mkRange "events" 1 5 6.

Lemma demo_fits rs : rs = [r0; r1] \/ rs = [r1; r0] -> intent_fits (ing rs).
Proof.
  intros H. split; [by destruct H as [->| ->]|]. split; [|by split].
  assert (F0 : range_fits r0) by (repeat split; done). assert (F1 : range_fits r1) by (repeat split; done).
  destruct H as [->| ->]; by repeat constructor.
Qed.

Lemma fingerprint_names_intent_witness :
  (7 = 7 /\ intent_equiv (ing [r0; r1]) (ing [r1; r0])) \/ (exists x y, x <> y /\ zero_hash x = zero_hash y).
Proof.
  apply (fingerprint_names_intent zero_hash 7 (ing [r0; r1]) 7 (ing [r1; r0])
           (mkIdentity 7 ("ukiel/ingest/v1/" +:+ hex (zero_hash []))%string (zero_hash []))
           (mkIdentity 7 ("ukiel/ingest/v1/" +:+ hex (zero_hash []))%string (zero_hash []))).
  1-2: by split.
  1-2: apply demo_fits; by auto.
  - vm_compute. reflexivity.
  - vm_compute. reflexivity.
  - reflexivity.
Defined.

Lemma identity_stable_under_retry_witness :
  identify id_hash 7 (ing [r0; r1]) = identify id_hash 7 (ing [r1; r0]).
Proof.
  apply (identity_stable_under_retry id_hash 7 (ing [r0; r1]) (ing [r1; r0])); [apply demo_fits; by auto..|].
  split; [|reflexivity]. apply Permutation_swap.
Defined.

Lemma factory_keys_are_bounded_witness :
  (forall n, identify zero_hash 7 mv1 <> Err (KeyTooLong n)) /\
  exists id, identify zero_hash 7 mv1 = Ok id /\ domain id = Some "mv"%string.
Proof.
  split.
  - apply (factory_keys_are_bounded zero_hash 7 mv1). reflexivity.
  - eexists. split; [vm_compute; reflexivity|vm_compute; reflexivity].
Defined.

End OperationSpec.
