(* ===== verification/CatalogError.v ===== *)
(** * What a catalog failure means (crates/ukiel-catalog/src/error.rs, lib.rs)

    The catalog's error type, the class each error is decided to, and the
    lock-timeout check every pool is built behind. *)

From S2P Require Import Prelude Bytes Json Types Schema Operation.

Module CatalogError.

Inductive CatalogErrorClass :=
| SemanticConflict
| OwnershipViolation
| PermanentInput
| AbsentResource
| Transport
| RetryableDatabase
| PermanentDatabase.

#[global] Instance class_eq_dec : EqDecision CatalogErrorClass.
Proof. solve_decision. Defined.

Definition as_label (c : CatalogErrorClass) : string :=
  match c with
  | SemanticConflict => "semantic_conflict"
  | OwnershipViolation => "ownership_violation"
  | PermanentInput => "permanent_input"
  | AbsentResource => "absent_resource"
  | Transport => "transport"
  | RetryableDatabase => "retryable_database"
  | PermanentDatabase => "permanent_database"
  end.

(** [code.starts_with(p)]. *)
Definition starts_with (p code : string) : bool := String.prefix p code.

Definition class_for_sqlstate (code : string) : CatalogErrorClass :=
  if bool_decide (code ∈ ["40001"; "40P01"; "55P03"]) then RetryableDatabase
  else if bool_decide (code ∈ ["57P01"; "57P02"; "57P03"; "53300"]) then Transport
  else if starts_with "08" code then Transport
  else PermanentDatabase.

(** [sqlx::Error], by the variants the code tells apart. *)
Inductive SqlxError :=
| Io
| PoolTimedOut
| Protocol (msg : string)
| PoolClosed
| Database (code : option string)
| OtherSqlx.

#[global] Instance sqlx_eq_dec : EqDecision SqlxError.
Proof. solve_decision. Defined.

(** [sqlx::migrate::MigrateError]. *)
Inductive MigrateError :=
| Execute (e : SqlxError)
| ExecuteMigration (e : SqlxError) (version : Z)
| OtherMigrate.

#[global] Instance migrate_eq_dec : EqDecision MigrateError.
Proof. solve_decision. Defined.

(** [CatalogError]; where the code carries a partition's or a duration's
    rendering the constructor carries the value rendered. *)
Inductive CatalogError :=
| InvalidPipeline (msg : string)
| Invariant (msg : string)
| Conflict (expected live_matched : Z)
| LeaseLost (partition : json)
| LeasePartitionMismatch (partition : json)
| InvalidLeaseTtl (msg : string)
| InvalidLockTimeout (lock_timeout : Z)
| NotFound (msg : string)
| OperationKeyCollision (key : string)
| OperationHypertableMismatch (identity mutation : Z)
| AmbiguousMutation (identity : Operation.OperationIdentity) (key : string) (source : SqlxError)
| UnidentifiedAmbiguousMutation (source : SqlxError)
| OffsetRace (topic : string) (partition : Z)
| SchemaErr (e : Schema.SchemaError)
| SortKeyErr (e : Schema.SortKeyError)
| Db (e : SqlxError)
| Migrate (e : MigrateError).

Definition class_for_db_error (e : SqlxError) : CatalogErrorClass :=
  match e with
  | Io | PoolTimedOut => Transport
  | Protocol _ => Transport
  | PoolClosed => PermanentDatabase
  | Database code => default PermanentDatabase (class_for_sqlstate <$> code)
  | OtherSqlx => PermanentDatabase
  end.

Definition class (e : CatalogError) : CatalogErrorClass :=
  match e with
  | Conflict _ _ => SemanticConflict
  | LeaseLost _ | OffsetRace _ _ => OwnershipViolation
  | SchemaErr _ | SortKeyErr _ | LeasePartitionMismatch _ | InvalidLeaseTtl _
  | InvalidLockTimeout _ | InvalidPipeline _ | OperationKeyCollision _
  | OperationHypertableMismatch _ _ => PermanentInput
  | AmbiguousMutation _ _ _ => Transport
  | UnidentifiedAmbiguousMutation _ => PermanentDatabase
  | NotFound _ => AbsentResource
  | Invariant _ => PermanentDatabase
  | Migrate (Execute inner) | Migrate (ExecuteMigration inner _) => class_for_db_error inner
  | Migrate OtherMigrate => PermanentDatabase
  | Db e => class_for_db_error e
  end.

Definition is_recoverable_transport (e : CatalogError) : bool :=
  bool_decide (class e = Transport) || bool_decide (class e = RetryableDatabase).

(** ** The lock timeout of a pool (lib.rs, [connect_options])

    A [Duration] is its nanoseconds; [parse_url] and [with_options] are the
    driver's. *)
Section connect.
Context {PgConnectOptions : Type}.
Context (parse_url : string -> result PgConnectOptions SqlxError).
Context (with_options : PgConnectOptions -> list (string * string) -> PgConnectOptions).

Definition as_millis (nanos : Z) : Z := nanos / 1000000.
Definition from_millis (millis : Z) : Z := millis * 1000000.
Definition i32_max : Z := 2 ^ 31 - 1.

Definition connect_options (lock_timeout : Z) (url : string) : result PgConnectOptions CatalogError :=
  let millis := as_millis lock_timeout in
  if (millis =? 0) || (i32_max <? millis)
     || negb (lock_timeout =? from_millis (millis mod 2 ^ 64))
  then Err (InvalidLockTimeout lock_timeout)
  else
    let? options := map_err Db (parse_url url) in
    Ok (with_options options [("lock_timeout", (pretty millis +:+ "ms")%string)]).
End connect.

(** ** Theorems *)

(** an error is recoverable exactly when it is one of the failover
    signatures -- a dead or unobtainable connection, the admin-shutdown,
    connection-exception and too-many-connections states, a retryable
    serialization, deadlock or lock-timeout state, a migration broken by one of
    these, or an identified mutation whose outcome is unknown; in particular
    no conflict, ownership, input or absence error is ever retried. *)
Theorem recoverable_iff e :
  is_recoverable_transport e = true <->
  (exists i k s, e = AmbiguousMutation i k s) \/
  exists s, (e = Db s \/ e = Migrate (Execute s) \/ exists v, e = Migrate (ExecuteMigration s v)) /\
    (s = Io \/ s = PoolTimedOut \/ (exists m, s = Protocol m) \/
     exists c, s = Database (Some c) /\
       (c ∈ ["40001"; "40P01"; "55P03"; "57P01"; "57P02"; "57P03"; "53300"] \/
        starts_with "08" c = true)).
Proof.
  assert (D : forall s, bool_decide (class_for_db_error s = Transport)
                        || bool_decide (class_for_db_error s = RetryableDatabase) = true <->
    (s = Io \/ s = PoolTimedOut \/ (exists m, s = Protocol m) \/
     exists c, s = Database (Some c) /\
       (c ∈ ["40001"; "40P01"; "55P03"; "57P01"; "57P02"; "57P03"; "53300"] \/
        starts_with "08" c = true))).
  { intros s. destruct s as [| |m| |[c|]|]; simpl; try naive_solver.
    unfold class_for_sqlstate.
    destruct (bool_decide_reflect (c ∈ ["40001"; "40P01"; "55P03"])) as [H1|H1]; [set_solver|].
    destruct (bool_decide_reflect (c ∈ ["57P01"; "57P02"; "57P03"; "53300"])) as [H2|H2];
      [set_solver|].
    destruct (starts_with "08" c) eqn:P; [naive_solver|].
    split; [done|]. intros [?|[?|[[??]|(c' & [= <-] & [H|H])]]]; [done..| |congruence]. set_solver. }
  unfold is_recoverable_transport. destruct e as [| | | | | | | | | | | | | | |s|[s|s v|]]; simpl;
    try (rewrite D); naive_solver.
Qed.

Lemma as_millis_exact n : 0 <= n -> from_millis (as_millis n) = n <-> n mod 1000000 = 0.
Proof. unfold from_millis, as_millis. intros. pose proof (Z.div_mod n 1000000). lia. Qed.

Lemma as_from_millis ms : as_millis (from_millis ms) = ms.
Proof. apply Z.div_mul. lia. Qed.

(** a pool is built only behind a positive, whole-millisecond lock timeout
    that PostgreSQL can represent; a sub-millisecond, fractional, zero or
    oversized duration is refused before the URL is looked at. *)
Theorem lock_timeout_bounds {O} (parse_url : string -> result O SqlxError) with_options t url :
  0 <= t ->
  (connect_options parse_url with_options t url = Err (InvalidLockTimeout t) <->
   ~ exists ms, 1 <= ms <= i32_max /\ t = from_millis ms) /\
  (forall o, connect_options parse_url with_options t url = Ok o ->
     exists ms base, 1 <= ms <= i32_max /\ t = from_millis ms /\ parse_url url = Ok base /\
       o = with_options base [("lock_timeout", (pretty ms +:+ "ms")%string)]).
Proof.
  intros Ht. unfold connect_options.
  set (b := _ || _). assert (B : b = false <-> exists ms, 1 <= ms <= i32_max /\ t = from_millis ms).
  { unfold b, as_millis, from_millis, i32_max. split.
    - intros H. boolp. exists (t / 1000000).
      assert (0 <= t / 1000000) by (apply Z.div_pos; lia).
      rewrite Z.mod_small in * by lia. lia.
    - intros (ms & Hms & ->). rewrite Z.div_mul by lia. rewrite Z.mod_small by lia.
      rewrite Z.eqb_refl. apply orb_false_iff. split; [apply orb_false_iff; split|done];
        [apply Z.eqb_neq|apply Z.ltb_ge]; lia. }
  destruct b eqn:Hb.
  - split; [|done]. split; [|done]. intros _ H. apply B in H. done.
  - destruct B as [B _]. specialize (B eq_refl). split.
    + split; [|done]. destruct (parse_url url); simpl; done.
    + intros o H. destruct (parse_url url) as [base|] eqn:U; simpl in H; [|done].
      injection H as <-. destruct B as (ms & [? ?] & ->). exists ms, base. rewrite as_from_millis.
      by split_and!.
Qed.

Lemma lock_timeout_bounds_witness :
  connect_options (PgConnectOptions := unit) (fun _ => Ok tt) (fun o _ => o) 1500000 "u" = Err (InvalidLockTimeout 1500000).
Proof.
  apply (proj1 (lock_timeout_bounds (fun _ => Ok tt) (fun o _ => o) 1500000 "u" ltac:(lia))).
  intros (ms & _ & H). unfold from_millis in H. lia.
Defined.

End CatalogError.
