(* ===== verification/CatalogDb.v ===== *)
(** * The catalog's database

    The tables of crates/ukiel-catalog/migrations as the state every catalog
    operation is a function of: a table is its list of rows in physical order,
    [SELECT] is [filter] (with a sort where the statement orders), [UPDATE] is
    [map], [INSERT] appends with the identity drawn from the table's sequence.
    A sequence is not transactional: a rollback keeps what was drawn.

    PostgreSQL's [jsonb] and the driver's failures are not code of the
    repository: equality and text of [jsonb] are the class [Jsonb], whose laws
    say equality is an equivalence, and a statement's or a [COMMIT]'s failure is
    an input of the operation. Row locks serialise the transactions that touch
    the same rows, so an operation is a function of the state it runs on. *)

From S2P Require Import Prelude Bytes Json Types CatalogError.
Import CatalogError.

Class Jsonb := {
  jsonb_eqb : json -> json -> bool;
  jsonb_text : json -> string;
  jsonb_refl a : jsonb_eqb a a = true;
  jsonb_sym a b : jsonb_eqb a b = jsonb_eqb b a;
  jsonb_trans a b c : jsonb_eqb a b = true -> jsonb_eqb b c = true -> jsonb_eqb a c = true;
}.

Module CatalogDb.

Record CommitRow := mkCommitRow {
  c_id : CommitId;
  c_hypertable : HypertableId;
  c_kind : string;
  c_key : option string;
  c_fingerprint : option (list Z);
  c_created_at : Z;
}.

Record PartRow := mkPartRow {
  pr_id : PartId;
  pr_hypertable : HypertableId;
  pr_meta : PartMeta;
  pr_key_filter : option (list Z);
  pr_created_by : CommitId;
  pr_deleted_by : option CommitId;
  pr_purged_at : option Z;
}.

(** [impl From<PartRow> for Part] (parts.rs). *)
Definition part_of_row (r : PartRow) : Part :=
  mkPart (pr_id r) (pr_hypertable r) (pr_meta r) (pr_created_by r).

Record LeaseRow := mkLeaseRow {
  l_hypertable : HypertableId;
  l_partition : json;
  l_owner : Z;
  l_generation : Z;
  l_expires_at : Z;
}.

Record PendingRow := mkPendingRow {
  po_hypertable : HypertableId;
  po_path : string;
  po_created_at : Z;
}.

(** A row of [ingest_offsets], beside its key. *)
Record OffsetCell := mkOffsetCell {
  next_offset : Z;
  stream_table_id : option StreamTableId;
}.

Record PipelineRow := mkPipelineRow {
  pp_id : PipelineId;
  pp_name : string;
  pp_source_kind : string;
  pp_source_id : Z;
  pp_target_kind : string;
  pp_target_id : HypertableId;
  pp_sql : string;
  pp_delivery : string;
  pp_error_policy : string;
  pp_event_time_column : option string;
}.

Record Tables := mkTables {
  hypertables : list Hypertable;
  logical_tables : list LogicalTable;
  commits : list CommitRow;
  parts : list PartRow;
  ingest_offsets : gmap (HypertableId * string * Z) OffsetCell;
  worker_cursors : gmap (string * HypertableId) CommitId;
  pending_objects : list PendingRow;
  compaction_leases : list LeaseRow;
  stream_tables : list StreamTable;
  pipelines : list PipelineRow;
}.

(** The last value each sequence handed out. *)
Record Seqs := mkSeqs {
  hypertables_id_seq : Z;
  logical_tables_id_seq : Z;
  commits_id_seq : Z;
  parts_id_seq : Z;
  compaction_lease_generation_seq : Z;
  stream_tables_id_seq : Z;
  pipelines_id_seq : Z;
}.

Record DbState := mkDb { tables : Tables; seqs : Seqs }.

Definition empty_tables : Tables := mkTables [] [] [] [] ∅ ∅ [] [] [] [].
Definition empty_db : DbState := mkDb empty_tables (mkSeqs 0 0 0 0 0 0 0).

(** ** One-table updates *)

Definition with_hypertables (t : Tables) (x : list Hypertable) : Tables :=
  mkTables x (logical_tables t) (commits t) (parts t) (ingest_offsets t) (worker_cursors t)
    (pending_objects t) (compaction_leases t) (stream_tables t) (pipelines t).
Definition with_logical_tables (t : Tables) (x : list LogicalTable) : Tables :=
  mkTables (hypertables t) x (commits t) (parts t) (ingest_offsets t) (worker_cursors t)
    (pending_objects t) (compaction_leases t) (stream_tables t) (pipelines t).
Definition with_commits (t : Tables) (x : list CommitRow) : Tables :=
  mkTables (hypertables t) (logical_tables t) x (parts t) (ingest_offsets t) (worker_cursors t)
    (pending_objects t) (compaction_leases t) (stream_tables t) (pipelines t).
Definition with_parts (t : Tables) (x : list PartRow) : Tables :=
  mkTables (hypertables t) (logical_tables t) (commits t) x (ingest_offsets t) (worker_cursors t)
    (pending_objects t) (compaction_leases t) (stream_tables t) (pipelines t).
Definition with_offsets (t : Tables) (x : gmap (HypertableId * string * Z) OffsetCell) : Tables :=
  mkTables (hypertables t) (logical_tables t) (commits t) (parts t) x (worker_cursors t)
    (pending_objects t) (compaction_leases t) (stream_tables t) (pipelines t).
Definition with_cursors (t : Tables) (x : gmap (string * HypertableId) CommitId) : Tables :=
  mkTables (hypertables t) (logical_tables t) (commits t) (parts t) (ingest_offsets t) x
    (pending_objects t) (compaction_leases t) (stream_tables t) (pipelines t).
Definition with_pending (t : Tables) (x : list PendingRow) : Tables :=
  mkTables (hypertables t) (logical_tables t) (commits t) (parts t) (ingest_offsets t)
    (worker_cursors t) x (compaction_leases t) (stream_tables t) (pipelines t).
Definition with_leases (t : Tables) (x : list LeaseRow) : Tables :=
  mkTables (hypertables t) (logical_tables t) (commits t) (parts t) (ingest_offsets t)
    (worker_cursors t) (pending_objects t) x (stream_tables t) (pipelines t).
Definition with_stream_tables (t : Tables) (x : list StreamTable) : Tables :=
  mkTables (hypertables t) (logical_tables t) (commits t) (parts t) (ingest_offsets t)
    (worker_cursors t) (pending_objects t) (compaction_leases t) x (pipelines t).
Definition with_pipelines (t : Tables) (x : list PipelineRow) : Tables :=
  mkTables (hypertables t) (logical_tables t) (commits t) (parts t) (ingest_offsets t)
    (worker_cursors t) (pending_objects t) (compaction_leases t) (stream_tables t) x.

Definition nextval_commits (s : Seqs) : Z * Seqs :=
  (commits_id_seq s + 1,
   mkSeqs (hypertables_id_seq s) (logical_tables_id_seq s) (commits_id_seq s + 1) (parts_id_seq s)
     (compaction_lease_generation_seq s) (stream_tables_id_seq s) (pipelines_id_seq s)).
Definition nextval_parts (s : Seqs) : Z * Seqs :=
  (parts_id_seq s + 1,
   mkSeqs (hypertables_id_seq s) (logical_tables_id_seq s) (commits_id_seq s) (parts_id_seq s + 1)
     (compaction_lease_generation_seq s) (stream_tables_id_seq s) (pipelines_id_seq s)).
Definition nextval_generation (s : Seqs) : Z * Seqs :=
  (compaction_lease_generation_seq s + 1,
   mkSeqs (hypertables_id_seq s) (logical_tables_id_seq s) (commits_id_seq s) (parts_id_seq s)
     (compaction_lease_generation_seq s + 1) (stream_tables_id_seq s) (pipelines_id_seq s)).
Definition nextval_hypertables (s : Seqs) : Z * Seqs :=
  (hypertables_id_seq s + 1,
   mkSeqs (hypertables_id_seq s + 1) (logical_tables_id_seq s) (commits_id_seq s) (parts_id_seq s)
     (compaction_lease_generation_seq s) (stream_tables_id_seq s) (pipelines_id_seq s)).
Definition nextval_logical_tables (s : Seqs) : Z * Seqs :=
  (logical_tables_id_seq s + 1,
   mkSeqs (hypertables_id_seq s) (logical_tables_id_seq s + 1) (commits_id_seq s) (parts_id_seq s)
     (compaction_lease_generation_seq s) (stream_tables_id_seq s) (pipelines_id_seq s)).
Definition nextval_stream_tables (s : Seqs) : Z * Seqs :=
  (stream_tables_id_seq s + 1,
   mkSeqs (hypertables_id_seq s) (logical_tables_id_seq s) (commits_id_seq s) (parts_id_seq s)
     (compaction_lease_generation_seq s) (stream_tables_id_seq s + 1) (pipelines_id_seq s)).
Definition nextval_pipelines (s : Seqs) : Z * Seqs :=
  (pipelines_id_seq s + 1,
   mkSeqs (hypertables_id_seq s) (logical_tables_id_seq s) (commits_id_seq s) (parts_id_seq s)
     (compaction_lease_generation_seq s) (stream_tables_id_seq s) (pipelines_id_seq s + 1)).

(** ** Statements and transactions *)

(** A statement on the database: its answer or its failure, and the state it
    leaves (a failed statement changes no table). *)
Definition Stmt (A : Type) : Type := DbState -> result A SqlxError * DbState.

(** What the driver does to the [n]-th statement of a transaction, and to the
    [COMMIT]: the server may have applied it and lost the acknowledgement. *)
Inductive Outcome :=
| Acked
| Failed (e : SqlxError) (durable : bool).

Record TxEnv := mkTxEnv {
  now : Z;              (* the transaction's [now()] *)
  clock_timestamp : Z;  (* the clock when the fence reads it *)
  stmt_error : nat -> option SqlxError;
  commit_outcome : Outcome;
}.

Record TxState := mkTx { tx_db : DbState; tx_step : nat }.

Definition Tx (A : Type) : Type := TxEnv -> TxState -> result A CatalogError * TxState.

Definition tx_ret {A} (a : A) : Tx A := fun _ s => (Ok a, s).
Definition tx_fail {A} (e : CatalogError) : Tx A := fun _ s => (Err e, s).
Definition tx_bind {A B} (m : Tx A) (k : A -> Tx B) : Tx B := fun env s =>
  match m env s with
  | (Ok a, s') => k a env s'
  | (Err e, s') => (Err e, s')
  end.

(** One statement: [.execute(&mut *tx).await?]. *)
Definition sql {A} (f : TxEnv -> Stmt A) : Tx A := fun env s =>
  match stmt_error env (tx_step s) with
  | Some e => (Err (Db e), mkTx (tx_db s) (S (tx_step s)))
  | None =>
      let '(r, d) := f env (tx_db s) in
      (map_err Db r, mkTx d (S (tx_step s)))
  end.

(** A query: it reads the tables. *)
Definition query {A} (f : TxEnv -> Tables -> A) : Tx A :=
  sql (fun env d => (Ok (f env (tables d)), d)).

Definition liftr {A} (r : result A CatalogError) : Tx A := fun _ s => (r, s).

(** Dropping a transaction: the tables are as before, the sequences are not. *)
Definition rollback (d0 d1 : DbState) : DbState := mkDb (tables d0) (seqs d1).

(** A single statement sent to the pool is its own transaction. *)
Definition autocommit {A} (o : Outcome) (f : DbState -> result A CatalogError * DbState)
  (d : DbState) : result A CatalogError * DbState :=
  match o with
  | Acked => f d
  | Failed e false => (Err (Db e), d)
  | Failed e true => (Err (Db e), (f d).2)
  end.

(** A healthy environment: nothing fails. *)
Definition quiet (t : Z) : TxEnv := mkTxEnv t t (fun _ => None) Acked.

End CatalogDb.

Notation "'let*' x ':=' e 'in' k" := (CatalogDb.tx_bind e (fun x => k))
  (at level 10, x pattern, e at level 100, k at level 200) : ukiel_scope.
