(* ===== verification/Commit.v ===== *)
(** * Commits (crates/ukiel-catalog/src/commit.rs, offsets.rs, faults.rs)

    The commit transaction, statement by statement: the identity check, the
    feed barrier, the replay check and the lease fence, the keyed insert, the
    part rows, the offset compare-and-set, the [COMMIT] and its two fault
    points. *)

From S2P Require Import Prelude Bytes Json Types KeyFilter Stats Operation CatalogError CatalogDb.
Import CatalogError CatalogDb.

Module Commit.

Record OffsetRange := mkOffsetRange {
  topic : string; partition : Z; first : Z; last : Z;
}.

Record CompactionLease := mkLease {
  ls_hypertable_id : HypertableId;
  ls_partition_values : json;
  ls_owner_id : Z;
  ls_generation : Z;
  ls_expires_at : Z;
}.

Inductive OperationLookup :=
| Absent
| LookupCommitted (id : CommitId).

(** ** Fault points (faults.rs) *)

Inductive CommitFault := BeforeCommit | AfterCommitBeforeReturn.

Definition fault_code (f : CommitFault) : Z :=
  match f with BeforeCommit => 1 | AfterCommitBeforeReturn => 2 end.

Definition arm (f : CommitFault) (cell : Z) : Z := fault_code f.

(** [compare_exchange(code, NONE)]. *)
Definition take (f : CommitFault) (cell : Z) : bool * Z :=
  if cell =? fault_code f then (true, 0) else (false, cell).

Definition injected_transport_error : SqlxError := Io.

(** ** Reconciliation *)

Definition same_key (ht : HypertableId) (k : string) (c : CommitRow) : bool :=
  (c_hypertable c =? ht) && bool_decide (c_key c = Some k).

(** [SELECT id, operation_fingerprint FROM commits WHERE ... ] of an optional row. *)
Definition find_operation (t : Tables) (ht : HypertableId) (k : string)
  : option (Z * option (list Z)) :=
  (fun c => (c_id c, c_fingerprint c)) <$> List.find (same_key ht k) (commits t).

Definition reconcile (identity : Operation.OperationIdentity) (row : option (Z * option (list Z)))
  : result (option CommitId) CatalogError :=
  match row with
  | None => Ok None
  | Some (id, stored) =>
      let collision := OperationKeyCollision (Operation.key identity) in
      let? stored := ok_or stored collision in
      if negb (bool_decide (stored = Operation.fingerprint identity)) then Err collision
      else Ok (Some id)
  end.

Definition lookup_in_tx (identity : Operation.OperationIdentity) : Tx (option CommitId) :=
  let* row := query (fun _ t =>
    find_operation t (Operation.hypertable_id identity) (Operation.key identity)) in
  liftr (reconcile identity row).

Definition lookup_operation (identity : Operation.OperationIdentity) (d : DbState)
  : result OperationLookup CatalogError :=
  let? r := reconcile identity
    (find_operation (tables d) (Operation.hypertable_id identity) (Operation.key identity)) in
  match r with
  | Some id => Ok (LookupCommitted id)
  | None => Ok Absent
  end.

Definition ambiguous_or_definite (identity : option Operation.OperationIdentity) (e : SqlxError)
  : CatalogError :=
  let definite := Db e in
  if negb (bool_decide (class definite = Transport)) then definite
  else match identity with
       | Some identity => AmbiguousMutation identity (Operation.key identity) e
       | None => UnidentifiedAmbiguousMutation e
       end.

(** ** Statements of the transaction *)

Definition is_live (r : PartRow) : bool := bool_decide (pr_deleted_by r = None).

Definition delete_pending (paths : list string) (t : Tables) : Tables :=
  with_pending t (List.filter (fun p => negb (bool_decide (po_path p ∈ paths))) (pending_objects t)).

(** The [UPDATE ... SET deleted_by_commit] and its affected count. *)
Definition tombstone_hit (ids : list PartId) (ht : HypertableId) (r : PartRow) : bool :=
  bool_decide (pr_id r ∈ ids) && (pr_hypertable r =? ht) && is_live r.

Definition tombstone_row (c : CommitId) (r : PartRow) : PartRow :=
  mkPartRow (pr_id r) (pr_hypertable r) (pr_meta r) (pr_key_filter r) (pr_created_by r)
    (Some c) (pr_purged_at r).

Definition update_tombstones (c : CommitId) (ids : list PartId) (ht : HypertableId) (rs : list PartRow)
  : list PartRow :=
  List.map (fun r => if tombstone_hit ids ht r then tombstone_row c r else r) rs.

Definition tombstone_parts (ht : HypertableId) (c : CommitId) (ids : list PartId) : Tx unit :=
  let* updated := sql (fun _ d =>
    let t := tables d in
    (Ok (len (List.filter (tombstone_hit ids ht) (parts t))),
     mkDb (with_parts t (update_tombstones c ids ht (parts t))) (seqs d))) in
  if negb (updated =? len ids) then tx_fail (Conflict (len ids) updated) else tx_ret tt.

(** The offset compare-and-set: the upsert and its affected count. *)
Definition upsert_offset (ht : HypertableId) (range : OffsetRange) : Stmt Z := fun d =>
  let t := tables d in
  let k := (ht, topic range, partition range) in
  match ingest_offsets t !! k with
  | None =>
      (Ok 1, mkDb (with_offsets t (<[k := mkOffsetCell (wrap_i64 (last range + 1)) None]>
                                    (ingest_offsets t))) (seqs d))
  | Some cell =>
      if next_offset cell <=? first range then
        (Ok 1, mkDb (with_offsets t
                  (<[k := mkOffsetCell (wrap_i64 (last range + 1)) (stream_table_id cell)]>
                    (ingest_offsets t))) (seqs d))
      else (Ok 0, d)
  end.

Fixpoint advance_offsets (ht : HypertableId) (offsets : list OffsetRange) : Tx unit :=
  match offsets with
  | [] => tx_ret tt
  | range :: rest =>
      let* affected := sql (fun _ => upsert_offset ht range) in
      if affected =? 0 then tx_fail (OffsetRace (topic range) (partition range))
      else advance_offsets ht rest
  end.

(** The keyed insert. The identity is drawn before anything is checked; a taken
    key inserts nothing; the fingerprint's length is a [CHECK] constraint and
    the hypertable a foreign key. *)
Definition insert_commit (ht : HypertableId) (op : CommitOp)
    (identity : option Operation.OperationIdentity) : TxEnv -> Stmt (option Z) := fun env d =>
  let t := tables d in
  let '(id, s) := nextval_commits (seqs d) in
  let fp := Operation.fingerprint <$> identity in
  let k := Operation.key <$> identity in
  if negb (match fp with Some f => len f =? 32 | None => true end)
  then (Err (Database (Some "23514")), mkDb t s)
  else if match k with Some k => List.existsb (same_key ht k) (commits t) | None => false end
  then (Ok None, mkDb t s)
  else if negb (List.existsb (fun h => ht_id h =? ht) (hypertables t))
  then (Err (Database (Some "23503")), mkDb t s)
  else (Ok (Some id),
        mkDb (with_commits t (commits t ++ [mkCommitRow id ht (kind op) k fp (now env)])) s).

(** ** The lease fence *)

Section jsonb.
Context `{Jsonb}.

Definition lease_row_of (ht : HypertableId) (p : json) (l : LeaseRow) : bool :=
  (l_hypertable l =? ht) && jsonb_eqb (l_partition l) p.

Definition find_lease (t : Tables) (ht : HypertableId) (p : json) : option LeaseRow :=
  List.find (lease_row_of ht p) (compaction_leases t).

Definition fence_lease (ht : HypertableId) (lease : CompactionLease) (op : CommitOp) : Tx unit :=
  let p := ls_partition_values lease in
  if negb (ht =? ls_hypertable_id lease) then tx_fail (LeasePartitionMismatch p)
  else
    let* held := query (fun env t =>
      (fun l => (l_owner l, l_generation l, clock_timestamp env <? l_expires_at l))
        <$> find_lease t ht p) in
    let ours := match held with
                | Some (owner, generation, unexpired) =>
                    (owner =? ls_owner_id lease) && (generation =? ls_generation lease) && unexpired
                | None => false
                end in
    if negb ours then tx_fail (LeaseLost p)
    else
      match op with
      | Replace old new =>
          if List.existsb (fun m => negb (bool_decide (partition_values m = p))) new
          then tx_fail (LeasePartitionMismatch p)
          else
            let* inside := query (fun _ t =>
              len (List.filter (fun r => bool_decide (pr_id r ∈ old) && (pr_hypertable r =? ht)
                                         && jsonb_eqb (partition_values (pr_meta r)) p)
                               (parts t))) in
            if negb (inside =? len old) then tx_fail (LeasePartitionMismatch p) else tx_ret tt
      | _ => tx_fail (LeasePartitionMismatch p)
      end.

(** ** The transaction *)

Section bitmap.
(** Base64 and the roaring treemap's reader (see [Stats]). *)
Context (b64_decode : string -> option (list Z)).
Context (tm_deserialize : list Z -> option (gset Z)).

Definition key_filter (p : PartMeta) : option (list Z) :=
  stats ← column_stats p;
  v ← jget stats Stats.PACKING_KEYS_STAT;
  keys ← (as_str v ≫= Stats.bitmap_keys tm_deserialize b64_decode);
  KeyFilter.build keys.

Definition insert_part (ht : HypertableId) (c : CommitId) (p : PartMeta) : Stmt unit := fun d =>
  let t := tables d in
  let '(id, s) := nextval_parts (seqs d) in
  (Ok tt, mkDb (with_parts t (parts t ++ [mkPartRow id ht p (key_filter p) c None None])) s).

Fixpoint insert_part_rows (ht : HypertableId) (c : CommitId) (ps : list PartMeta) : Tx unit :=
  match ps with
  | [] => tx_ret tt
  | p :: rest => let* _ := sql (fun _ => insert_part ht c p) in insert_part_rows ht c rest
  end.

Definition insert_parts (ht : HypertableId) (c : CommitId) (ps : list PartMeta) : Tx unit :=
  let* _ := insert_part_rows ht c ps in
  sql (fun _ d => (Ok tt, mkDb (delete_pending (List.map path ps) (tables d)) (seqs d))).

Definition apply_op (ht : HypertableId) (c : CommitId) (op : CommitOp) : Tx unit :=
  match op with
  | Add ps => insert_parts ht c ps
  | Replace old new => let* _ := tombstone_parts ht c old in insert_parts ht c new
  | Delete ps => tombstone_parts ht c ps
  end.

(** What the statements between [BEGIN] and the boundary conclude. *)
Inductive Body :=
| Replayed (id : CommitId)   (* the early return: the transaction is dropped *)
| Applied (id : CommitId).   (* on to the boundary *)

Definition replay_check (identity : option Operation.OperationIdentity) : Tx (option CommitId) :=
  match identity with
  | Some identity => lookup_in_tx identity
  | None => tx_ret None
  end.

(** Unreachable without an identity ([identity.expect(...)]). *)
Definition taken_key (identity : option Operation.OperationIdentity) : Tx Body :=
  match identity with
  | None => tx_fail (Invariant "a conflict requires a key, and a key requires an identity")
  | Some identity =>
      let* existing := lookup_in_tx identity in
      match existing with
      | Some id => tx_ret (Replayed id)
      | None => tx_fail (NotFound ("commit for operation " +:+ Operation.key identity
                                   +:+ " vanished between conflict and read")%string)
      end
  end.

Definition keyed_apply (ht : HypertableId) (op : CommitOp)
    (identity : option Operation.OperationIdentity) (offsets : list OffsetRange) : Tx Body :=
  let* inserted := sql (insert_commit ht op identity) in
  match inserted with
  | None => taken_key identity
  | Some id =>
      let* _ := apply_op ht id op in
      let* _ := advance_offsets ht offsets in
      tx_ret (Applied id)
  end.

Definition commit_body (ht : HypertableId) (op : CommitOp)
    (identity : option Operation.OperationIdentity) (offsets : list OffsetRange)
    (lease : option CompactionLease) : Tx Body :=
  let* _ := query (fun _ _ => tt) (* BEGIN *) in
  let* _ := query (fun _ _ => tt) (* pg_advisory_xact_lock_shared *) in
  match lease with
  | Some lease =>
      let* existing := replay_check identity in
      match existing with
      | Some id => tx_ret (Replayed id)
      | None =>
          let* _ := fence_lease ht lease op in
          keyed_apply ht op identity offsets
      end
  | None => keyed_apply ht op identity offsets
  end.

(** An identity is scoped to its hypertable. *)
Definition hypertable_mismatch (identity : option Operation.OperationIdentity)
    (ht : HypertableId) : option CatalogError :=
  match identity with
  | Some i =>
      if negb (Operation.hypertable_id i =? ht)
      then Some (OperationHypertableMismatch (Operation.hypertable_id i) ht)
      else None
  | None => None
  end.

(** The boundary, with the fault cell before and after it. *)
Definition commit_txn (env : TxEnv) (ht : HypertableId) (op : CommitOp)
    (identity : option Operation.OperationIdentity) (offsets : list OffsetRange)
    (lease : option CompactionLease) (faults : Z) (d : DbState)
  : result CommitResult CatalogError * DbState * Z :=
  match hypertable_mismatch identity ht with
  | Some e => (Err e, d, faults)
  | None =>
      let '(r, s) := commit_body ht op identity offsets lease env (mkTx d 0) in
      let undone := rollback d (tx_db s) in
      match r with
      | Err e => (Err e, undone, faults)
      | Ok (Replayed id) => (Ok (AlreadyApplied id), undone, faults)
      | Ok (Applied id) =>
          let '(hit, faults) := take BeforeCommit faults in
          if hit then (Err (ambiguous_or_definite identity injected_transport_error), undone, faults)
          else
            match commit_outcome env with
            | Failed e durable =>
                (Err (ambiguous_or_definite identity e),
                 if durable then tx_db s else undone, faults)
            | Acked =>
                let '(hit, faults) := take AfterCommitBeforeReturn faults in
                if hit
                then (Err (ambiguous_or_definite identity injected_transport_error), tx_db s, faults)
                else (Ok (Committed id), tx_db s, faults)
            end
      end
  end.

(** The three public entries. *)
Definition commit env ht op identity := commit_txn env ht op identity [] None.
Definition commit_with_offsets env ht op offsets identity :=
  commit_txn env ht op (Some identity) offsets None.
Definition commit_compaction_replace env ht lease old new identity :=
  commit_txn env ht (Replace old new) (Some identity) [] (Some lease).
End bitmap.
End jsonb.

(** ** Offsets (offsets.rs) *)

Definition ingest_offsets_of (t : Tables) (ht : HypertableId) (tp : string) : gmap Z Z :=
  list_to_map (omap (fun '((h, tp', p), cell) =>
    if bool_decide (h = ht /\ tp' = tp) then Some (p, next_offset cell) else None)
    (map_to_list (ingest_offsets t))).

End Commit.
