(* ===== verification/CommitSpec.v ===== *)
(** * What a commit does (theorems about [Commit])

    The transaction either applies exactly its effect -- the commit row, the
    tombstones, the fresh parts, the advanced offsets, the cleared intents --
    or no table changes ([CommitSpec]). On top of that ([CommitTheorems]): the
    live set, conflicts, replays and collisions, acknowledgements decided by a
    lookup, the lease fence, and preservation of [db_wf]. *)

From S2P Require Import Prelude Bytes Json Types KeyFilter Stats Operation CatalogError CatalogDb Commit.
Import CatalogError CatalogDb Commit.

Module CommitSpec.

(** ** Running a transaction *)

Lemma tx_bind_Ok {A B} (m : Tx A) (k : A -> Tx B) env s b s' :
  tx_bind m k env s = (Ok b, s') ->
  exists a s1, m env s = (Ok a, s1) /\ k a env s1 = (Ok b, s').
Proof. unfold tx_bind. destruct (m env s) as [[a|e] s1]; [eauto|done]. Qed.

Lemma tx_bind_Err {A B} (m : Tx A) (k : A -> Tx B) env s e s' :
  tx_bind m k env s = (Err e, s') ->
  m env s = (Err e, s') \/ exists a s1, m env s = (Ok a, s1) /\ k a env s1 = (Err e, s').
Proof. unfold tx_bind. destruct (m env s) as [[a|e'] s1]; [eauto|intros [= -> ->]; auto]. Qed.

Lemma sql_Ok {A} (f : TxEnv -> Stmt A) env s a s' :
  sql f env s = (Ok a, s') -> f env (tx_db s) = (Ok a, tx_db s').
Proof.
  unfold sql. destruct (stmt_error env (tx_step s)); [done|].
  destruct (f env (tx_db s)) as [[x|x] d]; simpl; intros [= <- <-]; done.
Qed.

Lemma query_Ok {A} (f : TxEnv -> Tables -> A) env s a s' :
  query f env s = (Ok a, s') -> a = f env (tables (tx_db s)) /\ tx_db s' = tx_db s.
Proof. intros H%sql_Ok. simplify_eq. auto. Qed.

Lemma sql_quiet {A} (f : TxEnv -> Stmt A) t s :
  sql f (quiet t) s = (map_err Db (f (quiet t) (tx_db s)).1,
                       mkTx (f (quiet t) (tx_db s)).2 (S (tx_step s))).
Proof. unfold sql, quiet; simpl. by destruct (f _ _). Qed.

Ltac inv_tx :=
  repeat match goal with
  | H : tx_bind _ _ _ _ = (Ok _, _) |- _ =>
      let a := fresh "a" in let s := fresh "s" in let E := fresh "E" in
      apply tx_bind_Ok in H as (a & s & E & H)
  | H : query _ _ _ = (Ok _, _) |- _ =>
      let E1 := fresh "Q" in let E2 := fresh "D" in apply query_Ok in H as [E1 E2]
  | H : tx_ret _ _ _ = (Ok _, _) |- _ => unfold tx_ret in H; injection H as H; subst
  | H : tx_fail _ _ _ = (Ok _, _) |- _ => discriminate H
  end.

(** ** The effect of an applied commit *)

Section effect.
Context `{Jsonb}.
Context (b64_decode : string -> option (list Z)) (tm_deserialize : list Z -> option (gset Z)).

(** The parts a commit consumes and the parts it produces. *)
Definition inputs (op : CommitOp) : list PartId :=
  match op with Add _ => [] | Replace old _ => old | Delete ps => ps end.
Definition outputs (op : CommitOp) : list PartMeta :=
  match op with Add ps => ps | Replace _ new => new | Delete _ => [] end.

(** The rows of [ms], numbered from the sequence value [n]. *)
Fixpoint fresh_rows (n : Z) (ht : HypertableId) (c : CommitId) (ms : list PartMeta) : list PartRow :=
  match ms with
  | [] => []
  | m :: ms' =>
      mkPartRow (n + 1) ht m (key_filter b64_decode tm_deserialize m) c None None
      :: fresh_rows (n + 1) ht c ms'
  end.

(** The offsets after the ranges, each admitted by the compare-and-set. *)
Definition offset_cell (offs : gmap (HypertableId * string * Z) OffsetCell)
    (ht : HypertableId) (r : OffsetRange) : gmap (HypertableId * string * Z) OffsetCell :=
  let k := (ht, topic r, partition r) in
  <[k := mkOffsetCell (wrap_i64 (last r + 1)) (offs !! k ≫= stream_table_id)]> offs.

Definition offset_admits (offs : gmap (HypertableId * string * Z) OffsetCell)
    (ht : HypertableId) (r : OffsetRange) : Prop :=
  forall cell, offs !! (ht, topic r, partition r) = Some cell -> next_offset cell <= first r.

Fixpoint offsets_admit (offs : gmap (HypertableId * string * Z) OffsetCell)
    (ht : HypertableId) (rs : list OffsetRange) : Prop :=
  match rs with
  | [] => True
  | r :: rs' => offset_admits offs ht r /\ offsets_admit (offset_cell offs ht r) ht rs'
  end.

Definition commit_row (env : TxEnv) (id : CommitId) (ht : HypertableId) (op : CommitOp)
    (identity : option Operation.OperationIdentity) : CommitRow :=
  mkCommitRow id ht (kind op) (Operation.key <$> identity) (Operation.fingerprint <$> identity)
    (now env).

Definition effect (env : TxEnv) (id : CommitId) (ht : HypertableId) (op : CommitOp)
    (identity : option Operation.OperationIdentity) (offs : list OffsetRange) (d : DbState) : Tables :=
  let t := tables d in
  mkTables (hypertables t) (logical_tables t)
    (commits t ++ [commit_row env id ht op identity])
    (update_tombstones id (inputs op) ht (parts t)
       ++ fresh_rows (parts_id_seq (seqs d)) ht id (outputs op))
    (List.fold_left (fun m r => offset_cell m ht r) offs (ingest_offsets t))
    (worker_cursors t)
    (match op with
     | Delete _ => pending_objects t
     | _ => List.filter (fun p => negb (bool_decide (po_path p ∈ List.map path (outputs op))))
              (pending_objects t)
     end)
    (compaction_leases t) (stream_tables t) (pipelines t).

Lemma advance_offsets_Ok ht rs env s s' :
  advance_offsets ht rs env s = (Ok tt, s') ->
  offsets_admit (ingest_offsets (tables (tx_db s))) ht rs /\
  seqs (tx_db s') = seqs (tx_db s) /\
  tables (tx_db s') =
    with_offsets (tables (tx_db s))
      (List.fold_left (fun m r => offset_cell m ht r) rs (ingest_offsets (tables (tx_db s)))).
Proof.
  revert s. induction rs as [|r rs IH]; intros s H0; simpl in *; inv_tx.
  - split_and!; [done..|]. by destruct (tables (tx_db s')).
  - apply sql_Ok in E. destruct (a =? 0) eqn:A; [done|]. apply IH in H0 as (O & S & T).
    unfold upsert_offset in E. unfold offset_admits, offset_cell.
    destruct (ingest_offsets (tables (tx_db s)) !! (ht, topic r, partition r)) as [cell|] eqn:C.
    + destruct (Z.leb_spec (next_offset cell) (first r)); [|naive_solver].
      injection E as <- E. rewrite <- E in O, S, T. simpl in *. split_and!; [|done|done..].
      intros c [= <-]. lia.
    + injection E as <- E. rewrite <- E in O, S, T. simpl in *. split_and!; done.
Qed.

Lemma insert_part_rows_Ok ht c ms env s s' :
  insert_part_rows b64_decode tm_deserialize ht c ms env s = (Ok tt, s') ->
  tables (tx_db s') = with_parts (tables (tx_db s))
    (parts (tables (tx_db s)) ++ fresh_rows (parts_id_seq (seqs (tx_db s))) ht c ms) /\
  parts_id_seq (seqs (tx_db s')) = parts_id_seq (seqs (tx_db s)) + len ms /\
  commits_id_seq (seqs (tx_db s')) = commits_id_seq (seqs (tx_db s)) /\
  compaction_lease_generation_seq (seqs (tx_db s'))
    = compaction_lease_generation_seq (seqs (tx_db s)).
Proof.
  revert s. induction ms as [|m ms IH]; intros s H0; simpl in *; inv_tx.
  - rewrite app_nil_r, len_nil, Z.add_0_r. split_and!; try done. by destruct (tables (tx_db s')).
  - apply sql_Ok in E. destruct a. injection E as E. apply IH in H0 as (T & P & C & G).
    rewrite <- E in T, P, C, G. simpl in *. rewrite T, P, C, G, len_cons. simpl.
    split_and!; [|lia|done..]. unfold with_parts; simpl. by rewrite <- app_assoc.
Qed.

Lemma insert_parts_Ok ht c ms env s s' :
  insert_parts b64_decode tm_deserialize ht c ms env s = (Ok tt, s') ->
  tables (tx_db s') = delete_pending (List.map path ms) (with_parts (tables (tx_db s))
    (parts (tables (tx_db s)) ++ fresh_rows (parts_id_seq (seqs (tx_db s))) ht c ms)) /\
  parts_id_seq (seqs (tx_db s')) = parts_id_seq (seqs (tx_db s)) + len ms /\
  commits_id_seq (seqs (tx_db s')) = commits_id_seq (seqs (tx_db s)) /\
  compaction_lease_generation_seq (seqs (tx_db s'))
    = compaction_lease_generation_seq (seqs (tx_db s)).
Proof.
  unfold insert_parts. intros H0. inv_tx. apply sql_Ok in H0. injection H0 as H0.
  destruct a. apply insert_part_rows_Ok in E as (T & P & C & G).
  rewrite <- H0. simpl. by rewrite T.
Qed.

Definition hits (ids : list PartId) (ht : HypertableId) (rs : list PartRow) : list PartRow :=
  List.filter (tombstone_hit ids ht) rs.

Lemma tombstone_parts_Ok ht c ids env s s' :
  tombstone_parts ht c ids env s = (Ok tt, s') ->
  len (hits ids ht (parts (tables (tx_db s)))) = len ids /\
  tx_db s' = mkDb (with_parts (tables (tx_db s))
               (update_tombstones c ids ht (parts (tables (tx_db s))))) (seqs (tx_db s)).
Proof.
  unfold tombstone_parts. intros H0. inv_tx. apply sql_Ok in E. injection E as <- E.
  destruct (Z.eqb_spec (len (List.filter (tombstone_hit ids ht) (parts (tables (tx_db s))))) (len ids));
    simpl in H0; [|done].
  unfold tx_ret in H0. injection H0 as <-. auto.
Qed.

Lemma hits_nil ht rs : hits [] ht rs = [].
Proof. unfold hits. induction rs as [|r rs IH]; simpl; [done|]. by rewrite IH. Qed.

Lemma update_tombstones_nil c ht rs : update_tombstones c [] ht rs = rs.
Proof.
  unfold update_tombstones. rewrite <- (List.map_id rs) at 2. apply List.map_ext.
  intros r. reflexivity.
Qed.

Lemma apply_op_Ok ht c op env s s' :
  apply_op b64_decode tm_deserialize ht c op env s = (Ok tt, s') ->
  let t := tables (tx_db s) in
  len (hits (inputs op) ht (parts t)) = len (inputs op) /\
  parts (tables (tx_db s')) = update_tombstones c (inputs op) ht (parts t)
    ++ fresh_rows (parts_id_seq (seqs (tx_db s))) ht c (outputs op) /\
  tables (tx_db s') = with_pending (with_parts t (parts (tables (tx_db s'))))
    (match op with
     | Delete _ => pending_objects t
     | _ => List.filter (fun p => negb (bool_decide (po_path p ∈ List.map path (outputs op))))
              (pending_objects t)
     end) /\
  parts_id_seq (seqs (tx_db s')) = parts_id_seq (seqs (tx_db s)) + len (outputs op) /\
  commits_id_seq (seqs (tx_db s')) = commits_id_seq (seqs (tx_db s)) /\
  compaction_lease_generation_seq (seqs (tx_db s'))
    = compaction_lease_generation_seq (seqs (tx_db s)).
Proof.
  destruct op as [ps|old new|ps]; cbn [apply_op inputs outputs]; intros H0.
  - apply insert_parts_Ok in H0 as (T & P & C & G). rewrite hits_nil, update_tombstones_nil, T.
    by split_and!.
  - inv_tx. destruct a. apply tombstone_parts_Ok in E as [L D].
    apply insert_parts_Ok in H0 as (T & P & C & G). rewrite D in T, P, C, G. rewrite T. by split_and!.
  - apply tombstone_parts_Ok in H0 as [L D]. rewrite D. simpl. rewrite app_nil_r, len_nil, Z.add_0_r.
    by split_and!.
Qed.

(** *** The fence, the insert, the body *)

Definition fence_holds (env : TxEnv) (ht : HypertableId) (lease : CompactionLease) (op : CommitOp)
    (t : Tables) : Prop :=
  ht = ls_hypertable_id lease /\
  (exists row, find_lease t ht (ls_partition_values lease) = Some row /\
     l_owner row = ls_owner_id lease /\ l_generation row = ls_generation lease /\
     clock_timestamp env < l_expires_at row) /\
  exists old new, op = Replace old new /\
    Forall (fun m => partition_values m = ls_partition_values lease) new /\
    len (List.filter (fun r => bool_decide (pr_id r ∈ old) && (pr_hypertable r =? ht)
                               && jsonb_eqb (partition_values (pr_meta r)) (ls_partition_values lease))
                     (parts t)) = len old.

Lemma existsb_false_Forall {A} (f : A -> bool) l :
  List.existsb f l = false -> Forall (fun x => f x = false) l.
Proof.
  induction l as [|x l IH]; simpl; [constructor|]. intros [? ?]%orb_false_iff. constructor; auto.
Qed.

Lemma fence_lease_Ok ht lease op env s s' :
  fence_lease ht lease op env s = (Ok tt, s') ->
  fence_holds env ht lease op (tables (tx_db s)) /\ tx_db s' = tx_db s.
Proof.
  unfold fence_lease. destruct (Z.eqb_spec ht (ls_hypertable_id lease)) as [E|]; simpl; [|done].
  intros H0. inv_tx. subst. unfold fence_holds.
  destruct (find_lease _ _ _) as [row|] eqn:R; simpl in H0; [|done].
  destruct ((l_owner row =? ls_owner_id lease) && (l_generation row =? ls_generation lease)
            && (clock_timestamp env <? l_expires_at row)) eqn:O; simpl in H0; [|done].
  destruct op as [|old new|]; try done.
  destruct (List.existsb _ new) eqn:N; [done|]. inv_tx. subst.
  match type of H0 with context [negb (?x =? ?y)] => destruct (Z.eqb_spec x y) as [L|] end;
    simpl in H0; [|done].
  unfold tx_ret in H0. injection H0 as <-. boolp. split; [|congruence].
  split; [done|]. split; [eauto 6|]. exists old, new. split_and!; [done| |by rewrite <- D].
  apply existsb_false_Forall in N. eapply Forall_impl; [exact N|]. intros m Hm. simpl in Hm. boolp. done.
Qed.

Definition key_taken (identity : option Operation.OperationIdentity) (ht : HypertableId) (t : Tables) : bool :=
  match identity with
  | Some i => List.existsb (same_key ht (Operation.key i)) (commits t)
  | None => false
  end.

Lemma insert_commit_Ok ht op identity env d r d' :
  insert_commit ht op identity env d = (Ok r, d') ->
  seqs d' = (nextval_commits (seqs d)).2 /\
  match r with
  | Some id =>
      id = commits_id_seq (seqs d) + 1 /\ key_taken identity ht (tables d) = false /\
      (exists h, h ∈ hypertables (tables d) /\ ht_id h = ht) /\
      (forall i, identity = Some i -> len (Operation.fingerprint i) = 32) /\
      tables d' = with_commits (tables d) (commits (tables d) ++ [commit_row env id ht op identity])
  | None => key_taken identity ht (tables d) = true /\ tables d' = tables d
  end.
Proof.
  unfold insert_commit, nextval_commits, key_taken.
  destruct (match Operation.fingerprint <$> identity with
            | Some f => len f =? 32 | None => true end) eqn:F; simpl; [|done].
  assert (K : match Operation.key <$> identity with
              | Some k => List.existsb (same_key ht k) (commits (tables d)) | None => false end
            = key_taken identity ht (tables d)) by (by destruct identity).
  rewrite K. destruct (key_taken identity ht (tables d)) eqn:T.
  - intros [= <- <-]. simpl. destruct identity; simpl in T; done.
  - destruct (List.existsb _ (hypertables (tables d))) eqn:X; simpl; [|done].
    intros [= <- <-]. simpl. split_and!; try done.
    + apply List.existsb_exists in X as (h & Hin & Hh). exists h. split; [by apply list_elem_of_In|lia].
    + intros i ->. simpl in F. lia.
Qed.

Lemma find_operation_taken t ht k :
  List.existsb (same_key ht k) (commits t) = bool_decide (is_Some (find_operation t ht k)).
Proof.
  unfold find_operation. induction (commits t) as [|c cs IH]; simpl; [done|].
  destruct (same_key ht k c); simpl; [done|]. exact IH.
Qed.

Lemma lookup_in_tx_Ok i env s r s' :
  lookup_in_tx i env s = (Ok r, s') ->
  reconcile i (find_operation (tables (tx_db s)) (Operation.hypertable_id i) (Operation.key i)) = Ok r /\
  tx_db s' = tx_db s.
Proof. unfold lookup_in_tx. intros H0. inv_tx. unfold liftr in H0. injection H0 as H0 ->. by subst. Qed.

Lemma keyed_apply_Ok ht op identity offs env s b s' :
  keyed_apply b64_decode tm_deserialize ht op identity offs env s = (Ok b, s') ->
  match b with
  | Applied id =>
      id = commits_id_seq (seqs (tx_db s)) + 1 /\ key_taken identity ht (tables (tx_db s)) = false /\
      len (hits (inputs op) ht (parts (tables (tx_db s)))) = len (inputs op) /\
      offsets_admit (ingest_offsets (tables (tx_db s))) ht offs /\
      tables (tx_db s') = effect env id ht op identity offs (tx_db s) /\
      commits_id_seq (seqs (tx_db s')) = id /\
      parts_id_seq (seqs (tx_db s')) = parts_id_seq (seqs (tx_db s)) + len (outputs op) /\
      (exists h, h ∈ hypertables (tables (tx_db s)) /\ ht_id h = ht) /\
      (forall i, identity = Some i -> len (Operation.fingerprint i) = 32)
  | Replayed id =>
      key_taken identity ht (tables (tx_db s)) = true /\
      exists i, identity = Some i /\
        reconcile i (find_operation (tables (tx_db s)) (Operation.hypertable_id i) (Operation.key i))
        = Ok (Some id)
  end.
Proof.
  unfold keyed_apply. intros H0. inv_tx. apply sql_Ok in E.
  apply insert_commit_Ok in E as [S I]. destruct a as [id|].
  - destruct I as (-> & K & X & F & T). inv_tx. destruct a, a0.
    apply apply_op_Ok in E as (L & P & T1 & SP & SC & _).
    apply advance_offsets_Ok in E0 as (O & S2 & T2).
    rewrite T in L. rewrite T1, T in O. simpl in O, L. rewrite S2, SC, SP, S, T2, T1. simpl.
    split_and!; try done. rewrite P, T, S. unfold effect. simpl. done.
  - destruct I as [K T]. unfold taken_key in H0. destruct identity as [i|]; [|done].
    inv_tx. apply lookup_in_tx_Ok in E as [R D]. destruct a as [id|]; [|done].
    unfold tx_ret in H0. injection H0 as <- <-. split; [done|]. exists i. rewrite T in R. done.
Qed.

Lemma commit_body_Ok ht op identity offs lease env s b s' :
  commit_body b64_decode tm_deserialize ht op identity offs lease env s = (Ok b, s') ->
  match b with
  | Applied id =>
      id = commits_id_seq (seqs (tx_db s)) + 1 /\ key_taken identity ht (tables (tx_db s)) = false /\
      len (hits (inputs op) ht (parts (tables (tx_db s)))) = len (inputs op) /\
      offsets_admit (ingest_offsets (tables (tx_db s))) ht offs /\
      tables (tx_db s') = effect env id ht op identity offs (tx_db s) /\
      commits_id_seq (seqs (tx_db s')) = id /\
      parts_id_seq (seqs (tx_db s')) = parts_id_seq (seqs (tx_db s)) + len (outputs op) /\
      (exists h, h ∈ hypertables (tables (tx_db s)) /\ ht_id h = ht) /\
      (forall i, identity = Some i -> len (Operation.fingerprint i) = 32) /\
      (forall l, lease = Some l -> fence_holds env ht l op (tables (tx_db s)))
  | Replayed id =>
      exists i, identity = Some i /\
        reconcile i (find_operation (tables (tx_db s)) (Operation.hypertable_id i) (Operation.key i))
        = Ok (Some id)
  end.
Proof.
  unfold commit_body. intros H0.
  apply tx_bind_Ok in H0 as (? & s1 & [_ D1]%query_Ok & H0).
  apply tx_bind_Ok in H0 as (? & s2 & [_ D2]%query_Ok & H0).
  rewrite D1 in D2. rewrite <- D2. clear D1 D2.
  destruct lease as [l|].
  - apply tx_bind_Ok in H0 as (a & s3 & E & H0).
    assert (D3 : tx_db s3 = tx_db s2 /\ forall id, a = Some id -> exists i, identity = Some i /\
      reconcile i (find_operation (tables (tx_db s2)) (Operation.hypertable_id i) (Operation.key i))
        = Ok (Some id)).
    { destruct identity as [i|]; simpl in E.
      - apply lookup_in_tx_Ok in E as [R D]. split; [done|]. intros id ->. eauto.
      - unfold tx_ret in E. injection E as <- <-. done. }
    destruct D3 as [D3 R]. destruct a as [id|].
    { unfold tx_ret in H0. injection H0 as <- <-. eauto. }
    apply tx_bind_Ok in H0 as ([] & s4 & [F D4]%fence_lease_Ok & H0).
    apply keyed_apply_Ok in H0. rewrite D4 in H0. rewrite D3 in *.
    destruct b; [naive_solver|]. destruct_and!. split_and!; try done. by intros l' [= <-].
  - apply keyed_apply_Ok in H0. destruct b; [naive_solver|].
    destruct_and!. split_and!; try done.
Qed.
End effect.

(** ** Well-formed tables *)

Record db_wf (d : DbState) : Prop := {
  wf_commit_ids : NoDup (List.map c_id (commits (tables d)));
  wf_commit_bound : forall c, c ∈ commits (tables d) -> 0 < c_id c <= commits_id_seq (seqs d);
  wf_commit_keys : forall c1 c2 k, c1 ∈ commits (tables d) -> c2 ∈ commits (tables d) ->
    c_hypertable c1 = c_hypertable c2 -> c_key c1 = Some k -> c_key c2 = Some k -> c1 = c2;
  wf_fingerprints : forall c f, c ∈ commits (tables d) -> c_fingerprint c = Some f -> len f = 32;
  wf_part_ids : NoDup (List.map pr_id (parts (tables d)));
  wf_part_bound : forall r, r ∈ parts (tables d) -> 0 < pr_id r <= parts_id_seq (seqs d);
  wf_created : forall r, r ∈ parts (tables d) ->
    exists c, c ∈ commits (tables d) /\ c_id c = pr_created_by r /\ c_hypertable c = pr_hypertable r;
  wf_deleted : forall r id, r ∈ parts (tables d) -> pr_deleted_by r = Some id ->
    pr_created_by r < id /\
    exists c, c ∈ commits (tables d) /\ c_id c = id /\ c_hypertable c = pr_hypertable r;
  wf_seqs : 0 <= commits_id_seq (seqs d) /\ 0 <= parts_id_seq (seqs d);
}.

Lemma empty_db_wf : db_wf empty_db.
Proof. split; simpl; try constructor; try (intros; by exfalso; eapply not_elem_of_nil); lia. Qed.

Lemma NoDup_map_inj {A B} (f : A -> B) l x y :
  NoDup (List.map f l) -> x ∈ l -> y ∈ l -> f x = f y -> x = y.
Proof.
  induction l as [|z l IH]; simpl; intros N Hx Hy E; [by apply elem_of_nil in Hx|].
  apply NoDup_cons in N as [N1 N2].
  assert (M : forall w, w ∈ l -> f w <> f z).
  { intros w Hw Ew. apply N1. rewrite <- Ew. by apply list_elem_of_In, List.in_map, list_elem_of_In. }
  apply elem_of_cons in Hx as [->|Hx], Hy as [->|Hy]; [done| | |by apply IH].
  - by destruct (M y Hy).
  - by destruct (M x Hx).
Qed.

(** *** The keyed row *)

Lemma same_key_spec ht k c : same_key ht k c = true <-> c_hypertable c = ht /\ c_key c = Some k.
Proof. unfold same_key. rewrite andb_true_iff, Z.eqb_eq, bool_decide_eq_true. done. Qed.

Lemma find_operation_Some t ht k id fp :
  find_operation t ht k = Some (id, fp) ->
  exists c, c ∈ commits t /\ c_id c = id /\ c_fingerprint c = fp /\
    c_hypertable c = ht /\ c_key c = Some k.
Proof.
  unfold find_operation. destruct (List.find _ _) as [c|] eqn:F; simpl; [|done].
  intros [= <- <-]. apply List.find_some in F as [Hin Hk]. apply same_key_spec in Hk as [? ?].
  exists c. by rewrite list_elem_of_In.
Qed.

Lemma find_operation_None t ht k :
  find_operation t ht k = None ->
  forall c, c ∈ commits t -> c_hypertable c = ht -> c_key c = Some k -> False.
Proof.
  unfold find_operation. destruct (List.find _ _) as [c|] eqn:F; simpl; [done|]. intros _ c Hin E1 E2.
  apply list_elem_of_In in Hin. eapply List.find_none in Hin; [|exact F].
  assert (same_key ht k c = true) by by apply same_key_spec. congruence.
Qed.

Lemma find_operation_wf d c k :
  db_wf d -> c ∈ commits (tables d) -> c_key c = Some k ->
  find_operation (tables d) (c_hypertable c) k = Some (c_id c, c_fingerprint c).
Proof.
  intros W Hin K. destruct (find_operation (tables d) (c_hypertable c) k) as [[id fp]|] eqn:F.
  - apply find_operation_Some in F as (c' & H1 & <- & <- & E & K').
    by rewrite (wf_commit_keys d W c' c k H1 Hin E K' K).
  - by destruct (find_operation_None _ _ _ F c Hin eq_refl K).
Qed.

Lemma reconcile_Some i row id :
  reconcile i row = Ok (Some id) <-> row = Some (id, Some (Operation.fingerprint i)).
Proof.
  unfold reconcile. destruct row as [[id' [fp|]]|]; simpl; [|done|done].
  case_bool_decide; simpl; naive_solver.
Qed.

Lemma key_taken_spec ht t i :
  key_taken (Some i) ht t = true <-> is_Some (find_operation t ht (Operation.key i)).
Proof. unfold key_taken. rewrite find_operation_taken. apply bool_decide_eq_true. Qed.

(** *** Hits *)

Lemma tombstone_hit_spec ids ht r :
  tombstone_hit ids ht r = true <-> pr_id r ∈ ids /\ pr_hypertable r = ht /\ pr_deleted_by r = None.
Proof.
  unfold tombstone_hit, is_live. rewrite !andb_true_iff, !bool_decide_eq_true, Z.eqb_eq. tauto.
Qed.

Lemma NoDup_map_filter {A B} (g : A -> B) (f : A -> bool) l :
  NoDup (List.map g l) -> NoDup (List.map g (List.filter f l)).
Proof.
  induction l as [|x l IH]; simpl; intros N; [done|]. apply NoDup_cons in N as [N1 N2].
  destruct (f x); simpl; [|by apply IH]. constructor; [|by apply IH]. intros Hin. apply N1.
  apply list_elem_of_In in Hin. apply List.in_map_iff in Hin as (y & <- & Hy).
  apply List.filter_In in Hy as [Hy _]. apply list_elem_of_In. by apply List.in_map.
Qed.

(** Counting rows whose id is requested: the count matches the request exactly
    when the request is duplicate-free and every id is such a row. *)
Lemma count_matches_request {A} (g : A -> Z) (f : A -> bool) rs ids :
  NoDup (List.map g rs) ->
  (forall r, r ∈ rs -> f r = true -> g r ∈ ids) ->
  (len (List.filter f rs) = len ids <->
   NoDup ids /\ forall id, id ∈ ids -> exists r, r ∈ rs /\ g r = id /\ f r = true).
Proof.
  intros N Hf. set (got := List.map g (List.filter f rs)).
  assert (Ng : NoDup got) by by apply NoDup_map_filter.
  assert (L : length got = length (List.filter f rs)) by apply List.length_map.
  assert (In_got : forall id, id ∈ got <-> exists r, r ∈ rs /\ g r = id /\ f r = true).
  { intros id. unfold got. rewrite list_elem_of_In, List.in_map_iff. split.
    - intros (r & E & Hr). exists r. apply List.filter_In in Hr. rewrite list_elem_of_In. tauto.
    - intros (r & Hr & E & F). exists r. rewrite List.filter_In, <- list_elem_of_In. tauto. }
  assert (Sub : got ⊆+ ids).
  { apply NoDup_submseteq; [done|]. intros id. rewrite In_got. intros (r & Hr & <- & F). by apply Hf. }
  split.
  - intros E. assert (P : got ≡ₚ ids).
    { apply submseteq_length_Permutation; [done|]. rewrite L. unfold len in E. lia. }
    split; [by rewrite <- P|]. intros id. rewrite <- P. by rewrite In_got.
  - intros [Nd All]. unfold len. rewrite <- L. f_equal.
    apply Permutation_length, NoDup_Permutation; [done..|]. intros id. rewrite In_got. split.
    + intros (r & Hr & <- & F). by apply Hf.
    + apply All.
Qed.

Lemma hits_all d ids ht :
  db_wf d ->
  (len (hits ids ht (parts (tables d))) = len ids <->
   NoDup ids /\ forall id, id ∈ ids -> exists r, r ∈ parts (tables d) /\ pr_id r = id /\
     pr_hypertable r = ht /\ pr_deleted_by r = None).
Proof.
  intros W. unfold hits. rewrite (count_matches_request pr_id); [|apply W|].
  - split; intros [N A]; (split; [done|]); intros id Hid; destruct (A id Hid) as (r & Hr & E & F); exists r.
    + apply tombstone_hit_spec in F. tauto.
    + split_and!; try done. apply tombstone_hit_spec. destruct_and!. subst. done.
  - intros r _ F. by apply tombstone_hit_spec in F as [? _].
Qed.
End CommitSpec.

(** * The commit contract (theorems about [Commit])

    All or nothing, the live set, conflicts, replays and collisions, decided
    acknowledgements, the fence, and preservation of [db_wf]. *)

Import CatalogError CatalogDb Commit CommitSpec.

Module CommitTheorems.

Section theorems.
Context `{Jsonb}.
Context (b64_decode : string -> option (list Z)) (tm_deserialize : list Z -> option (gset Z)).
#[local] Abbreviation commit_txn := (commit_txn b64_decode tm_deserialize).
#[local] Abbreviation effect := (effect b64_decode tm_deserialize).
#[local] Abbreviation fresh_rows := (fresh_rows b64_decode tm_deserialize).

(** The driver is honest about a definite failure: only a transport error can
    hide a durable [COMMIT]. *)
Definition honest (env : TxEnv) : Prop :=
  forall e, commit_outcome env = Failed e true -> class (Db e) = Transport.

(** What one run of the transaction can come to. *)
Definition applied (env : TxEnv) ht op identity offs lease (d d' : DbState) (id : CommitId) : Prop :=
  id = commits_id_seq (seqs d) + 1 /\ key_taken identity ht (tables d) = false /\
  len (hits (inputs op) ht (parts (tables d))) = len (inputs op) /\
  offsets_admit (ingest_offsets (tables d)) ht offs /\
  tables d' = effect env id ht op identity offs d /\
  commits_id_seq (seqs d') = id /\
  parts_id_seq (seqs d') = parts_id_seq (seqs d) + len (outputs op) /\
  (exists h, h ∈ hypertables (tables d) /\ ht_id h = ht) /\
  (forall i, identity = Some i -> Operation.hypertable_id i = ht /\ len (Operation.fingerprint i) = 32) /\
  (forall l, lease = Some l -> fence_holds env ht l op (tables d)).

Definition already (ht : HypertableId) (identity : option Operation.OperationIdentity)
    (t : Tables) (id : CommitId) : Prop :=
  exists i, identity = Some i /\ Operation.hypertable_id i = ht /\
    find_operation t ht (Operation.key i) = Some (id, Some (Operation.fingerprint i)).

Definition ambiguous (identity : option Operation.OperationIdentity) (e : CatalogError) : Prop :=
  exists s, e = match identity with
                | Some i => AmbiguousMutation i (Operation.key i) s
                | None => UnidentifiedAmbiguousMutation s
                end.

Lemma ambiguous_class identity e :
  class (Db e) = Transport -> ambiguous identity (ambiguous_or_definite identity e).
Proof.
  unfold ambiguous_or_definite. intros ->. rewrite bool_decide_eq_true_2 by done. simpl.
  exists e. by destruct identity.
Qed.

Lemma commit_txn_cases env ht op identity offs lease f d r d' f' :
  honest env -> commit_txn env ht op identity offs lease f d = (r, d', f') ->
  match r with
  | Ok (Committed id) => applied env ht op identity offs lease d d' id
  | Ok (AlreadyApplied id) => tables d' = tables d /\ already ht identity (tables d) id
  | Err e => tables d' = tables d \/
             exists id, applied env ht op identity offs lease d d' id /\ ambiguous identity e
  end.
Proof.
  intros Hon. unfold Commit.commit_txn.
  destruct (hypertable_mismatch identity ht) as [e|] eqn:M; [intros [= <- <- <-]; by left|].
  assert (M' : forall i, identity = Some i -> Operation.hypertable_id i = ht).
  { intros i ->. simpl in M. destruct (Z.eqb_spec (Operation.hypertable_id i) ht); done. }
  destruct (commit_body _ _ ht op identity offs lease env (mkTx d 0)) as [[[id|id]|e] s] eqn:B.
  - apply commit_body_Ok in B as (i & -> & R). simpl in R. apply reconcile_Some in R.
    rewrite (M' i eq_refl) in R. intros [= <- <- <-]. split; [done|]. exists i. auto.
  - apply commit_body_Ok in B. simpl in B.
    assert (A : applied env ht op identity offs lease d (tx_db s) id).
    { destruct_and!. unfold applied. split_and!; eauto. }
    destruct (take BeforeCommit f) as [[] f1].
    { intros [= <- <- <-]. by left. }
    destruct (commit_outcome env) as [|e durable] eqn:O.
    + destruct (take AfterCommitBeforeReturn f1) as [[] f2]; intros [= <- <- <-]; [|done].
      right. exists id. split; [done|]. by apply ambiguous_class.
    + intros [= <- <- <-]. destruct durable; [|by left]. right. exists id. split; [done|].
      apply ambiguous_class, Hon, O.
  - intros [= <- <- <-]. by left.
Qed.

(** C1: a commit is all or nothing, whatever statement fails and on whichever
    side of the boundary the connection dies: the tables either carry exactly
    the operation's effect -- and then the caller holds its id or an ambiguous
    error -- or are unchanged; [AlreadyApplied] is answered only for a stored
    commit with this very fingerprint. *)
Theorem commit_all_or_nothing env ht op identity offs lease f d r d' f' :
  honest env -> commit_txn env ht op identity offs lease f d = (r, d', f') ->
  match r with
  | Ok (Committed id) =>
      id = commits_id_seq (seqs d) + 1 /\ tables d' = effect env id ht op identity offs d
  | Ok (AlreadyApplied id) =>
      tables d' = tables d /\
      exists i c, identity = Some i /\ c ∈ commits (tables d) /\ c_id c = id /\
        c_hypertable c = ht /\ c_key c = Some (Operation.key i) /\
        c_fingerprint c = Some (Operation.fingerprint i)
  | Err e =>
      tables d' = tables d \/
      tables d' = effect env (commits_id_seq (seqs d) + 1) ht op identity offs d /\
      ambiguous identity e
  end.
Proof.
  intros Hon R. apply commit_txn_cases in R; [|done]. destruct r as [[id|id]|e].
  - by destruct R as (? & _ & _ & _ & ? & _).
  - destruct R as (T & i & -> & E & F). split; [done|].
    apply find_operation_Some in F as (c & Hc & <- & Fp & Hh & K). exists i, c. by split_and!.
  - destruct R as [?|(id & (-> & _ & _ & _ & ? & _) & ?)]; auto.
Qed.

(** ** The live set *)

Definition live_rows (ht : HypertableId) (t : Tables) : list PartRow :=
  List.filter (fun r => (pr_hypertable r =? ht) && is_live r) (parts t).

Lemma live_rows_spec ht t r :
  r ∈ live_rows ht t <-> r ∈ parts t /\ pr_hypertable r = ht /\ pr_deleted_by r = None.
Proof.
  unfold live_rows, is_live. rewrite filter_In_iff, andb_true_iff, Z.eqb_eq, bool_decide_eq_true. tauto.
Qed.

Lemma update_tombstones_In c ids ht rs r' :
  r' ∈ update_tombstones c ids ht rs <->
  exists r, r ∈ rs /\ r' = if tombstone_hit ids ht r then tombstone_row c r else r.
Proof.
  unfold update_tombstones. rewrite list_elem_of_In, List.in_map_iff.
  split; intros (r & ? & ?); exists r; rewrite ?list_elem_of_In in *; auto.
Qed.

Lemma fresh_rows_In n ht c ms r :
  r ∈ fresh_rows n ht c ms ->
  n < pr_id r <= n + len ms /\ pr_hypertable r = ht /\ pr_created_by r = c /\
  pr_deleted_by r = None /\ pr_meta r ∈ ms /\
  pr_key_filter r = key_filter b64_decode tm_deserialize (pr_meta r).
Proof.
  revert n. induction ms as [|m ms IH]; intros n; simpl; [by intros ?%elem_of_nil|].
  rewrite len_cons. intros [->|Hr]%elem_of_cons; simpl.
  - pose proof (len_nonneg ms). split_and!; try done; [lia..|by left].
  - destruct (IH _ Hr) as ([? ?] & ? & ? & ? & ? & ?). split_and!; try done; [lia..|by right].
Qed.

Lemma fresh_rows_metas n ht c ms : List.map pr_meta (fresh_rows n ht c ms) = ms.
Proof. revert n. induction ms as [|m ms IH]; intros n; simpl; [done|]. by rewrite IH. Qed.

Lemma fresh_rows_NoDup n ht c ms : NoDup (List.map pr_id (fresh_rows n ht c ms)).
Proof.
  revert n. induction ms as [|m ms IH]; intros n; simpl; constructor; [|done].
  intros Hin%list_elem_of_In%List.in_map_iff. destruct Hin as (r & E & Hr).
  apply list_elem_of_In, fresh_rows_In in Hr. lia.
Qed.

Lemma update_tombstones_ids c ids ht rs :
  List.map pr_id (update_tombstones c ids ht rs) = List.map pr_id rs.
Proof.
  unfold update_tombstones. rewrite List.map_map. apply List.map_ext. intros r.
  by destruct (tombstone_hit ids ht r).
Qed.

Lemma applied_live env ht op identity offs lease d d' id r :
  applied env ht op identity offs lease d d' id ->
  r ∈ live_rows ht (tables d') <->
  (r ∈ live_rows ht (tables d) /\ pr_id r ∉ inputs op) \/
  r ∈ fresh_rows (parts_id_seq (seqs d)) ht id (outputs op).
Proof.
  intros (-> & _ & _ & _ & T & _). rewrite !live_rows_spec, T. simpl.
  rewrite elem_of_app, update_tombstones_In. split.
  - intros ([(r0 & Hr0 & ->)|Hr] & Hh & Hd); [|by right].
    destruct (tombstone_hit (inputs op) ht r0) eqn:X; [done|]. left. split; [done|].
    intros Hin. assert (tombstone_hit (inputs op) ht r0 = true) by by apply tombstone_hit_spec. congruence.
  - intros [[(Hr & Hh & Hd) Hn]|Hr].
    + split_and!; try done. left. exists r. split; [done|].
      destruct (tombstone_hit (inputs op) ht r) eqn:X; [|done]. by apply tombstone_hit_spec in X as [? _].
    + split; [by right|]. apply fresh_rows_In in Hr. naive_solver.
Qed.

(** a committed operation consumes exactly the live parts it names and
    produces exactly its outputs: every input was a live part of the
    hypertable, named once; afterwards the live parts are the untouched ones
    and the fresh ones, whose ids no part ever had; no other hypertable's
    parts change. *)
Theorem commit_live_set env ht op identity offs lease f d d' f' id :
  honest env -> db_wf d ->
  commit_txn env ht op identity offs lease f d = (Ok (Committed id), d', f') ->
  NoDup (inputs op) /\
  (forall p, p ∈ inputs op -> exists r, r ∈ live_rows ht (tables d) /\ pr_id r = p) /\
  exists new, List.map pr_meta new = outputs op /\
    (forall r, r ∈ new -> pr_created_by r = id /\ parts_id_seq (seqs d) < pr_id r) /\
    (forall r, r ∈ live_rows ht (tables d') <->
       (r ∈ live_rows ht (tables d) /\ pr_id r ∉ inputs op) \/ r ∈ new) /\
    (forall ht', ht' <> ht -> forall r, pr_hypertable r = ht' ->
       r ∈ parts (tables d') <-> r ∈ parts (tables d)).
Proof.
  intros Hon W R. apply commit_txn_cases in R; [|done].
  pose proof R as (-> & _ & L & _ & T & _). apply (hits_all d) in L as [N A]; [|done].
  split; [done|]. split.
  { intros p Hp. destruct (A p Hp) as (r & ? & ? & ?). exists r. by rewrite live_rows_spec. }
  exists (fresh_rows (parts_id_seq (seqs d)) ht (commits_id_seq (seqs d) + 1) (outputs op)).
  split_and!; [apply fresh_rows_metas| | |].
  - intros r Hr. apply fresh_rows_In in Hr. split; [naive_solver|lia].
  - intros r. by eapply applied_live.
  - intros ht' Hne r Hr. rewrite T. simpl. rewrite elem_of_app, update_tombstones_In. split.
    + intros [(r0 & Hr0 & ->)|Hf].
      * destruct (tombstone_hit (inputs op) ht r0) eqn:X; [|done].
        apply tombstone_hit_spec in X as (_ & ? & _). simpl in Hr. congruence.
      * apply fresh_rows_In in Hf as (_ & ? & _). congruence.
    + intros Hin. left. exists r. split; [done|]. destruct (tombstone_hit (inputs op) ht r) eqn:X; [|done].
      apply tombstone_hit_spec in X as (_ & ? & _). congruence.
Qed.

(** ** Deciding a lost acknowledgement *)

Lemma lookup_operation_spec i d :
  lookup_operation i d =
  match find_operation (tables d) (Operation.hypertable_id i) (Operation.key i) with
  | None => Ok Absent
  | Some (id, Some fp) =>
      if bool_decide (fp = Operation.fingerprint i) then Ok (LookupCommitted id)
      else Err (OperationKeyCollision (Operation.key i))
  | Some (id, None) => Err (OperationKeyCollision (Operation.key i))
  end.
Proof.
  unfold lookup_operation, reconcile. destruct (find_operation _ _ _) as [[id [fp|]]|]; simpl; [|done|done].
  by case_bool_decide.
Qed.

Lemma find_operation_snoc t ht k c :
  find_operation t ht k = None -> same_key ht k c = true ->
  find_operation (with_commits t (commits t ++ [c])) ht k = Some (c_id c, c_fingerprint c).
Proof.
  unfold find_operation. simpl. induction (commits t) as [|c' cs IH]; simpl.
  - intros _ ->. done.
  - destruct (same_key ht k c'); simpl; [done|]. exact IH.
Qed.

Lemma applied_lookup env ht op i offs lease d d' id :
  applied env ht op (Some i) offs lease d d' id -> lookup_operation i d' = Ok (LookupCommitted id).
Proof.
  intros (_ & K & _ & _ & T & _ & _ & _ & I & _). destruct (I i eq_refl) as [Hht _].
  rewrite lookup_operation_spec, T, Hht.
  assert (N : find_operation (tables d) ht (Operation.key i) = None).
  { destruct (find_operation _ _ _) eqn:F; [|done].
    assert (key_taken (Some i) ht (tables d) = true) by by (apply key_taken_spec; rewrite F). congruence. }
  pose proof (find_operation_snoc _ _ _ (commit_row env id ht op (Some i)) N) as F.
  unfold find_operation in *. simpl in *. rewrite F by (apply same_key_spec; done).
  simpl. by rewrite bool_decide_eq_true_2.
Qed.

(** *** Only the boundary is ambiguous *)

Definition definite (e : CatalogError) : Prop :=
  match e with AmbiguousMutation _ _ _ | UnidentifiedAmbiguousMutation _ => False | _ => True end.

Definition fails_definitely {A} (m : Tx A) : Prop :=
  forall env s e s', m env s = (Err e, s') -> definite e.

Lemma fd_bind {A B} (m : Tx A) (k : A -> Tx B) :
  fails_definitely m -> (forall a, fails_definitely (k a)) -> fails_definitely (tx_bind m k).
Proof. intros Hm Hk env s e s' [R|(a & s1 & _ & R)]%tx_bind_Err; [by eapply Hm|by eapply Hk]. Qed.
Lemma fd_ret {A} (a : A) : fails_definitely (tx_ret a).
Proof. by intros env s e s' [=]. Qed.
Lemma fd_fail {A} e : definite e -> fails_definitely (@tx_fail A e).
Proof. by intros D env s e' s' [= <- _]. Qed.
Lemma fd_sql {A} (f : TxEnv -> Stmt A) : fails_definitely (sql f).
Proof.
  intros env s e s'. unfold sql. destruct (stmt_error env (tx_step s)); [by intros [= <- _]|].
  destruct (f env (tx_db s)) as [[?|?] ?]; simpl; [done|]. by intros [= <- _].
Qed.
Lemma fd_query {A} (f : TxEnv -> Tables -> A) : fails_definitely (query f).
Proof. apply fd_sql. Qed.
Lemma fd_lookup i : fails_definitely (lookup_in_tx i).
Proof.
  apply fd_bind; [apply fd_query|]. intros [[id [fp|]]|] env s e s' [= E _]; simpl in E.
  - destruct (negb _); [by injection E as <-|done].
  - by subst.
Qed.
Lemma fd_fence ht l op : fails_definitely (fence_lease ht l op).
Proof.
  unfold fence_lease. destruct (negb _); [by apply fd_fail|].
  apply fd_bind; [apply fd_query|]. intros held. cbv zeta. destruct (negb _); [by apply fd_fail|].
  destruct op as [|old new|]; [by apply fd_fail| |by apply fd_fail].
  destruct (List.existsb _ _); [by apply fd_fail|]. apply fd_bind; [apply fd_query|].
  intros n. destruct (negb _); [by apply fd_fail|apply fd_ret].
Qed.
Lemma fd_tombstone ht c ids : fails_definitely (tombstone_parts ht c ids).
Proof.
  apply fd_bind; [apply fd_sql|]. intros n. destruct (negb _); [by apply fd_fail|apply fd_ret].
Qed.
Lemma fd_insert_parts ht c ms :
  fails_definitely (insert_parts b64_decode tm_deserialize ht c ms).
Proof.
  apply fd_bind; [|intros; apply fd_sql]. induction ms as [|m ms IH]; simpl; [apply fd_ret|].
  apply fd_bind; [apply fd_sql|done].
Qed.
Lemma fd_offsets ht rs : fails_definitely (advance_offsets ht rs).
Proof.
  induction rs as [|r rs IH]; simpl; [apply fd_ret|]. apply fd_bind; [apply fd_sql|].
  intros n. destruct (n =? 0); [by apply fd_fail|done].
Qed.
Lemma fd_keyed ht op identity offs :
  fails_definitely (keyed_apply b64_decode tm_deserialize ht op identity offs).
Proof.
  apply fd_bind; [apply fd_sql|]. intros [id|].
  - apply fd_bind; [|intros _; apply fd_bind; [apply fd_offsets|intros; apply fd_ret]].
    destruct op; simpl; [apply fd_insert_parts| |apply fd_tombstone].
    apply fd_bind; [apply fd_tombstone|intros; apply fd_insert_parts].
  - destruct identity as [i|]; simpl; [|by apply fd_fail]. apply fd_bind; [apply fd_lookup|].
    intros [id|]; [apply fd_ret|by apply fd_fail].
Qed.
Lemma fd_body ht op identity offs lease :
  fails_definitely (commit_body b64_decode tm_deserialize ht op identity offs lease).
Proof.
  apply fd_bind; [apply fd_query|]. intros _. apply fd_bind; [apply fd_query|]. intros _.
  destruct lease as [l|]; [|apply fd_keyed].
  apply fd_bind; [destruct identity; simpl; [apply fd_lookup|apply fd_ret]|].
  intros [id|]; [apply fd_ret|]. apply fd_bind; [apply fd_fence|]. intros; apply fd_keyed.
Qed.

Lemma ambiguous_or_definite_inv identity x i k s :
  ambiguous_or_definite identity x = AmbiguousMutation i k s ->
  identity = Some i /\ k = Operation.key i /\ x = s.
Proof.
  unfold ambiguous_or_definite. destruct (negb _); [done|]. destruct identity; [|done].
  by intros [= -> -> ->].
Qed.

Lemma commit_txn_ambiguous env ht op identity offs lease f d i k s d' f' :
  commit_txn env ht op identity offs lease f d = (Err (AmbiguousMutation i k s), d', f') ->
  identity = Some i /\ k = Operation.key i /\ Operation.hypertable_id i = ht.
Proof.
  unfold Commit.commit_txn. destruct (hypertable_mismatch identity ht) as [e|] eqn:M.
  { intros [= -> _ _]. unfold hypertable_mismatch in M. destruct identity; [|done]. by destruct (negb _). }
  intros R. assert (Hi : identity = Some i /\ k = Operation.key i).
  { revert R. destruct (commit_body _ _ ht op identity offs lease env (mkTx d 0)) as [[[?|?]|e] st] eqn:B.
    - by intros [=].
    - destruct (take BeforeCommit f) as [[] f1].
      { intros [= E _ _]. by apply ambiguous_or_definite_inv in E as (? & ? & _). }
      destruct (commit_outcome env).
      + destruct (take AfterCommitBeforeReturn f1) as [[] ?]; [|done].
        intros [= E _ _]. by apply ambiguous_or_definite_inv in E as (? & ? & _).
      + intros [= E _ _]. by apply ambiguous_or_definite_inv in E as (? & ? & _).
    - intros [= -> _ _]. by apply fd_body in B. }
  destruct Hi as [-> ->]. simpl in M. destruct (Z.eqb_spec (Operation.hypertable_id i) ht); [|done].
  by split_and!.
Qed.

(** C9: an ambiguous outcome is decidable by asking the catalog: after it the
    lookup of the carried identity answers [Absent] exactly when nothing was
    applied, and the commit's id exactly when the whole effect is durable. *)
Theorem ambiguity_is_decidable env ht op identity offs lease f d i k s d' f' :
  honest env -> find_operation (tables d) ht (Operation.key i) = None ->
  commit_txn env ht op identity offs lease f d = (Err (AmbiguousMutation i k s), d', f') ->
  identity = Some i /\ k = Operation.key i /\
  ((lookup_operation i d' = Ok Absent /\ tables d' = tables d) \/
   (exists id, lookup_operation i d' = Ok (LookupCommitted id) /\
               tables d' = effect env id ht op identity offs d)).
Proof.
  intros Hon N R. pose proof (commit_txn_ambiguous _ _ _ _ _ _ _ _ _ _ _ _ _ R) as (-> & -> & E).
  do 2 (split; [done|]). apply commit_txn_cases in R as [T|(id & A & _)]; [| |done].
  - left. split; [|done]. by rewrite lookup_operation_spec, T, E, N.
  - right. exists id. split; [by eapply applied_lookup|by destruct A as (_ & _ & _ & _ & ? & _)].
Qed.

(** ** Replays and collisions *)

Lemma sql_eval {A} (f : TxEnv -> Stmt A) env s :
  (forall n, stmt_error env n = None) ->
  sql f env s = (map_err Db (f env (tx_db s)).1, mkTx (f env (tx_db s)).2 (S (tx_step s))).
Proof. intros Q. unfold sql. rewrite Q. by destruct (f env (tx_db s)). Qed.

Lemma commit_body_recorded env ht op i offs lease d id fp :
  (forall n, stmt_error env n = None) -> len (Operation.fingerprint i) = 32 ->
  Operation.hypertable_id i = ht ->
  find_operation (tables d) ht (Operation.key i) = Some (id, fp) ->
  (commit_body b64_decode tm_deserialize ht op (Some i) offs lease env (mkTx d 0)).1
  = if bool_decide (fp = Some (Operation.fingerprint i)) then Ok (Replayed id)
    else Err (OperationKeyCollision (Operation.key i)).
Proof.
  intros Q F32 E F. unfold commit_body, query, tx_bind. rewrite !sql_eval by done. simpl.
  assert (R : reconcile i (Some (id, fp)) =
    if bool_decide (fp = Some (Operation.fingerprint i)) then Ok (Some id)
    else Err (OperationKeyCollision (Operation.key i))).
  { unfold reconcile. destruct fp as [fp|]; simpl; [|done].
    repeat case_bool_decide; simpl; naive_solver. }
  destruct lease as [l|].
  - unfold lookup_in_tx, query, tx_bind. rewrite sql_eval by done. simpl.
    rewrite E, F. unfold liftr. rewrite R. by case_bool_decide.
  - unfold keyed_apply, tx_bind. rewrite sql_eval by done. simpl. unfold insert_commit. simpl.
    rewrite F32. simpl.
    assert (K : List.existsb (same_key ht (Operation.key i)) (commits (tables d)) = true).
    { rewrite find_operation_taken, F. done. }
    rewrite K. simpl. unfold lookup_in_tx, query, tx_bind. rewrite sql_eval by done. simpl.
    rewrite E, F. unfold liftr. rewrite R. by case_bool_decide.
Qed.

(** once an operation is recorded, every undisturbed resubmission of its key
    is decided without applying anything: the same fingerprint is answered
    with the original commit -- whatever the retry's payload, offsets or
    lapsed lease -- and any other, or an unknowable one, is a collision. *)
Theorem replay_and_collision env ht op i offs lease f d c r d' f' :
  (forall n, stmt_error env n = None) -> db_wf d ->
  Operation.hypertable_id i = ht -> len (Operation.fingerprint i) = 32 ->
  c ∈ commits (tables d) -> c_hypertable c = ht -> c_key c = Some (Operation.key i) ->
  commit_txn env ht op (Some i) offs lease f d = (r, d', f') ->
  tables d' = tables d /\
  r = if bool_decide (c_fingerprint c = Some (Operation.fingerprint i))
      then Ok (AlreadyApplied (c_id c)) else Err (OperationKeyCollision (Operation.key i)).
Proof.
  intros Q W E F32 Hc Hh K. unfold Commit.commit_txn, hypertable_mismatch. rewrite E, Z.eqb_refl. simpl.
  assert (F : find_operation (tables d) ht (Operation.key i) = Some (c_id c, c_fingerprint c)).
  { rewrite <- Hh. by apply find_operation_wf. }
  pose proof (commit_body_recorded env ht op i offs lease d _ _ Q F32 E F) as B.
  destruct (commit_body _ _ _ _ _ _ _ _ _) as [b s]. simpl in B.
  case_bool_decide; subst b; intros [= <- <- <-]; done.
Qed.

(** ** Conflicts *)

Lemma hits_le ids ht rs : NoDup (List.map pr_id rs) -> len (hits ids ht rs) <= len ids.
Proof.
  intros N. unfold len, hits. rewrite <- (List.length_map pr_id). apply inj_le, submseteq_length.
  apply NoDup_submseteq; [by apply NoDup_map_filter|]. intros id Hin%list_elem_of_In%List.in_map_iff.
  destruct Hin as (r & <- & Hr%list_elem_of_In%filter_In_iff). by destruct Hr as [_ [? _]%tombstone_hit_spec].
Qed.

Lemma boundary_no_conflict identity x m n : ambiguous_or_definite identity x <> Conflict m n.
Proof. unfold ambiguous_or_definite. destruct (negb _); [done|]. by destruct identity. Qed.

(** an undisturbed, unkeyed delete fails with [Conflict] exactly when some
    input is not a distinct live part of the hypertable any more; the error
    reports how many still were, and nothing changes. *)
Theorem conflict_iff env ht ids f d r d' f' :
  (forall n, stmt_error env n = None) -> db_wf d ->
  (exists h, h ∈ hypertables (tables d) /\ ht_id h = ht) ->
  commit_txn env ht (Delete ids) None [] None f d = (r, d', f') ->
  ((exists n, r = Err (Conflict (len ids) n)) <->
   ~ (NoDup ids /\ forall p, p ∈ ids -> exists row, row ∈ live_rows ht (tables d) /\ pr_id row = p)) /\
  (forall m n, r = Err (Conflict m n) -> tables d' = tables d /\ n < m).
Proof.
  intros Q W (h & Hh & Eh) R.
  assert (L : len (hits ids ht (parts (tables d))) = len ids <->
    NoDup ids /\ forall p, p ∈ ids -> exists row, row ∈ live_rows ht (tables d) /\ pr_id row = p).
  { rewrite hits_all by done. split; intros [N A]; (split; [done|]); intros p Hp;
      destruct (A p Hp) as (row & Hr & E); exists row; rewrite live_rows_spec in *; naive_solver. }
  rewrite <- L. clear L.
  assert (X : List.existsb (fun h => ht_id h =? ht) (hypertables (tables d)) = true).
  { apply List.existsb_exists. exists h. split; [by apply list_elem_of_In|lia]. }
  unfold Commit.commit_txn in R. simpl in R.
  unfold commit_body, query, tx_bind in R. rewrite !sql_eval in R by done. simpl in R.
  unfold keyed_apply, tx_bind in R. rewrite sql_eval in R by done. simpl in R.
  unfold insert_commit in R. simpl in R. rewrite X in R. simpl in R.
  unfold tombstone_parts, tx_bind in R. rewrite sql_eval in R by done. simpl in R.
  fold (hits ids ht (parts (tables d))) in R.
  assert (Sub : len (hits ids ht (parts (tables d))) <= len ids).
  { apply hits_le; by apply W. }
  destruct (Z.eqb_spec (len (hits ids ht (parts (tables d)))) (len ids)) as [E|E]; simpl in R.
  - assert (NC : forall m n, r <> Err (Conflict m n)).
    { intros m n ->. revert R. destruct (take BeforeCommit f) as [[] f1].
      - by intros [=].
      - destruct (commit_outcome env) as [|e dur].
        + destruct (take AfterCommitBeforeReturn f1) as [[] ?]; by intros [=].
        + intros [= R _ _]. by apply boundary_no_conflict in R. }
    split; [split; [|done]|]; [intros [n C]|intros m n C]; by apply NC in C.
  - injection R as <- <- <-. split; [split; eauto|]. intros m n [= <- <-]. split; [done|lia].
Qed.
End theorems.

End CommitTheorems.
