(* ===== verification/CommitHistory.v ===== *)
(** * Commits over time (theorems about [Commit])

    What a sequence of commits keeps: the tables stay well formed, history is
    append-only, and every topic-partition is consumed in disjoint ascending
    ranges. *)

From S2P Require Import Prelude Bytes Json Types KeyFilter Stats Operation CatalogError CatalogDb Commit CommitSpec.
Import CatalogError CatalogDb Commit CommitSpec CommitTheorems.

Module CommitHistory.

(** ** Sequences only grow *)

Definition seqs_le (a b : Seqs) : Prop :=
  hypertables_id_seq a <= hypertables_id_seq b /\ logical_tables_id_seq a <= logical_tables_id_seq b /\
  commits_id_seq a <= commits_id_seq b /\ parts_id_seq a <= parts_id_seq b /\
  compaction_lease_generation_seq a <= compaction_lease_generation_seq b /\
  stream_tables_id_seq a <= stream_tables_id_seq b /\ pipelines_id_seq a <= pipelines_id_seq b.

#[global] Instance seqs_le_preorder : PreOrder seqs_le.
Proof. split; unfold seqs_le; [intros x; lia|intros x y z; lia]. Qed.

Definition grows {A} (m : Tx A) : Prop :=
  forall env s r s', m env s = (r, s') -> seqs_le (seqs (tx_db s)) (seqs (tx_db s')).

Lemma grows_bind {A B} (m : Tx A) (k : A -> Tx B) :
  grows m -> (forall a, grows (k a)) -> grows (tx_bind m k).
Proof.
  intros Hm Hk env s r s'. unfold tx_bind. destruct (m env s) as [[a|e] s1] eqn:E.
  - intros R. etransitivity; [by eapply Hm|by eapply Hk].
  - intros [= <- <-]. by eapply Hm.
Qed.
Lemma grows_pure {A} (r : result A CatalogError) : grows (fun _ s => (r, s)).
Proof. by intros env s r' s' [= <- <-]. Qed.
Lemma grows_sql {A} (f : TxEnv -> Stmt A) :
  (forall env d, seqs_le (seqs d) (seqs (f env d).2)) -> grows (sql f).
Proof.
  intros Hf env s r s'. unfold sql. destruct (stmt_error env (tx_step s)); [by intros [= <- <-]|].
  specialize (Hf env (tx_db s)). destruct (f env (tx_db s)). by intros [= <- <-].
Qed.
Lemma grows_query {A} (f : TxEnv -> Tables -> A) : grows (query f).
Proof. by apply grows_sql. Qed.

#[export] Hint Resolve @grows_bind @grows_pure @grows_query : ukiel.

Section history.
Context `{Jsonb}.
Context (b64_decode : string -> option (list Z)) (tm_deserialize : list Z -> option (gset Z)).
#[local] Abbreviation commit_txn := (commit_txn b64_decode tm_deserialize).
#[local] Abbreviation effect := (effect b64_decode tm_deserialize).
#[local] Abbreviation fresh_rows := (fresh_rows b64_decode tm_deserialize).

Lemma grows_lookup i : grows (lookup_in_tx i).
Proof. apply grows_bind; [apply grows_query|intros; apply grows_pure]. Qed.
Lemma grows_fence ht l op : grows (fence_lease ht l op).
Proof.
  unfold fence_lease. destruct (negb _); [apply grows_pure|].
  apply grows_bind; [apply grows_query|]. intros held. cbv zeta. destruct (negb _); [apply grows_pure|].
  destruct op as [|old new|]; try apply grows_pure. destruct (List.existsb _ _); [apply grows_pure|].
  apply grows_bind; [apply grows_query|]. intros n. destruct (negb _); apply grows_pure.
Qed.
Lemma grows_tombstone ht c ids : grows (tombstone_parts ht c ids).
Proof.
  apply grows_bind; [by apply grows_sql|]. intros n. destruct (negb _); apply grows_pure.
Qed.
Lemma grows_insert_parts ht c ms : grows (insert_parts b64_decode tm_deserialize ht c ms).
Proof.
  apply grows_bind; [|intros; by apply grows_sql].
  induction ms as [|m ms IH]; simpl; [apply grows_pure|].
  apply grows_bind; [|done]. apply grows_sql. intros env d. unfold seqs_le; simpl. lia.
Qed.
Lemma grows_offsets ht rs : grows (advance_offsets ht rs).
Proof.
  induction rs as [|r rs IH]; simpl; [apply grows_pure|]. apply grows_bind.
  - apply grows_sql. intros env d. unfold upsert_offset. destruct (_ !! _); [|done].
    by destruct (_ <=? _).
  - intros n. destruct (n =? 0); [apply grows_pure|done].
Qed.
Lemma grows_insert_commit ht op identity : grows (sql (insert_commit ht op identity)).
Proof.
  apply grows_sql. intros env d. unfold insert_commit; simpl.
  destruct (negb _); [unfold seqs_le; simpl; lia|].
  match goal with |- context [if ?b then _ else _] => destruct b end; [unfold seqs_le; simpl; lia|].
  destruct (negb _); unfold seqs_le; simpl; lia.
Qed.
Lemma grows_keyed ht op identity offs :
  grows (keyed_apply b64_decode tm_deserialize ht op identity offs).
Proof.
  apply grows_bind; [apply grows_insert_commit|]. intros [id|].
  - apply grows_bind; [|intros _; apply grows_bind; [apply grows_offsets|intros; apply grows_pure]].
    destruct op; simpl; [apply grows_insert_parts| |apply grows_tombstone].
    apply grows_bind; [apply grows_tombstone|intros; apply grows_insert_parts].
  - destruct identity as [i|]; simpl; [|apply grows_pure]. apply grows_bind; [apply grows_lookup|].
    intros [id|]; apply grows_pure.
Qed.
Lemma grows_body ht op identity offs lease :
  grows (commit_body b64_decode tm_deserialize ht op identity offs lease).
Proof.
  do 2 (apply grows_bind; [apply grows_query|intros _]). destruct lease as [l|]; [|apply grows_keyed].
  apply grows_bind; [destruct identity; simpl; [apply grows_lookup|apply grows_pure]|].
  intros [id|]; [apply grows_pure|]. apply grows_bind; [apply grows_fence|]. intros; apply grows_keyed.
Qed.

Lemma commit_txn_grows env ht op identity offs lease f d r d' f' :
  commit_txn env ht op identity offs lease f d = (r, d', f') -> seqs_le (seqs d) (seqs d').
Proof.
  unfold Commit.commit_txn. destruct (hypertable_mismatch identity ht); [by intros [= _ <- _]|].
  destruct (commit_body _ _ ht op identity offs lease env (mkTx d 0)) as [b s] eqn:B.
  apply grows_body in B. simpl in B. destruct b as [[id|id]|e]; [by intros [= _ <- _]| |by intros [= _ <- _]].
  destruct (take BeforeCommit f) as [[] f1]; [by intros [= _ <- _]|].
  destruct (commit_outcome env) as [|e dur]; [|intros [= _ <- _]; by destruct dur].
  destruct (take AfterCommitBeforeReturn f1) as [[] ?]; by intros [= _ <- _].
Qed.

(** ** Well-formedness is kept *)

Lemma wf_same_tables d d' :
  db_wf d -> tables d' = tables d -> seqs_le (seqs d) (seqs d') -> db_wf d'.
Proof.
  intros W E (_ & _ & C & P & _). destruct W as [W1 W2 W3 W4 W5 W6 W7 W8 W9].
  split; rewrite ?E; try done.
  - intros c Hc. specialize (W2 c Hc). lia.
  - intros r Hr. specialize (W6 r Hr). lia.
  - lia.
Qed.

Lemma NoDup_map_snoc {A B} (f : A -> B) l x :
  NoDup (List.map f l) -> f x ∉ List.map f l -> NoDup (List.map f (l ++ [x])).
Proof.
  intros N X. rewrite List.map_app. apply NoDup_app. split_and!; [done| |apply NoDup_singleton].
  intros y Hy ->%list_elem_of_singleton. done.
Qed.

Lemma applied_wf env ht op identity offs lease d d' id :
  db_wf d -> applied b64_decode tm_deserialize env ht op identity offs lease d d' id -> db_wf d'.
Proof.
  intros W (-> & K & _ & _ & T & C & P & _ & I & _).
  pose proof (wf_seqs d W) as [Q1 Q2]. pose proof (len_nonneg (outputs op)) as Q3.
  split; rewrite ?C, ?P; rewrite ?T; simpl.
  - apply NoDup_map_snoc; [apply W|]. intros Hin%list_elem_of_In%List.in_map_iff.
    destruct Hin as (c & E & Hc). apply list_elem_of_In, (wf_commit_bound d W) in Hc. simpl in E. lia.
  - intros c [Hc| ->%list_elem_of_singleton]%elem_of_app; simpl; [|lia].
    apply (wf_commit_bound d W) in Hc. lia.
  - assert (N : forall c k, c ∈ commits (tables d) -> c_hypertable c = ht -> c_key c = Some k ->
      Operation.key <$> identity = Some k -> False).
    { intros c k Hc Hh Hk Hi. destruct identity as [i|]; simpl in Hi; [|done]. injection Hi as <-.
      simpl in K. rewrite find_operation_taken in K. apply bool_decide_eq_false in K. apply K.
      rewrite <- Hh, (find_operation_wf d c _ W Hc Hk). eauto. }
    intros c1 c2 k [H1| ->%list_elem_of_singleton]%elem_of_app [H2| ->%list_elem_of_singleton]%elem_of_app;
      simpl; intros E K1 K2.
    + by eapply (wf_commit_keys d W).
    + by destruct (N c1 k H1 E K1 K2).
    + by destruct (N c2 k H2 (eq_sym E) K2 K1).
    + done.
  - intros c f [Hc| ->%list_elem_of_singleton]%elem_of_app; simpl; [by eapply (wf_fingerprints d W)|].
    destruct identity as [i|]; simpl; [|done]. intros [= <-]. by destruct (I i eq_refl).
  - rewrite List.map_app, update_tombstones_ids. apply NoDup_app.
    split_and!; [apply W| |apply fresh_rows_NoDup].
    intros x Hx%list_elem_of_In%List.in_map_iff Hy%list_elem_of_In%List.in_map_iff.
    destruct Hx as (r & <- & Hr%list_elem_of_In%(wf_part_bound d W)), Hy as (r' & E & Hr').
    apply list_elem_of_In, fresh_rows_In in Hr'. lia.
  - intros r [(r0 & Hr0 & ->)%update_tombstones_In|Hr]%elem_of_app.
    + apply (wf_part_bound d W) in Hr0. destruct (tombstone_hit _ _ r0); simpl; lia.
    + apply fresh_rows_In in Hr. lia.
  - intros r [(r0 & Hr0 & ->)%update_tombstones_In|Hr]%elem_of_app.
    + apply (wf_created d W) in Hr0 as (c & Hc & ? & ?). exists c.
      split; [by apply elem_of_app; left|]. by destruct (tombstone_hit _ _ r0).
    + apply fresh_rows_In in Hr as (_ & Hh & Hc & _).
      exists (commit_row env (commits_id_seq (seqs d) + 1) ht op identity). simpl.
      split; [apply elem_of_app; right; by apply list_elem_of_singleton|]. by rewrite Hh, Hc.
  - intros r id [(r0 & Hr0 & ->)%update_tombstones_In|Hr]%elem_of_app Hd.
    + destruct (tombstone_hit (inputs op) ht r0) eqn:X.
      * apply tombstone_hit_spec in X as (_ & Xh & _). injection Hd as <-. simpl. split.
        { apply (wf_created d W) in Hr0 as (c & Hc & <- & _). apply (wf_commit_bound d W) in Hc. lia. }
        exists (commit_row env (commits_id_seq (seqs d) + 1) ht op identity).
        split; [apply elem_of_app; right; by apply list_elem_of_singleton|done].
      * destruct (wf_deleted d W r0 id Hr0 Hd) as [L (c & Hc & ? & ?)]. split; [done|].
        exists c. split; [by apply elem_of_app; left|done].
    + apply fresh_rows_In in Hr as (_ & _ & _ & Hn & _). congruence.
  - lia.
Qed.

Lemma commit_txn_wf env ht op identity offs lease f d r d' f' :
  honest env -> db_wf d -> commit_txn env ht op identity offs lease f d = (r, d', f') -> db_wf d'.
Proof.
  intros Hon W R. pose proof (commit_txn_grows _ _ _ _ _ _ _ _ _ _ _ R) as G.
  apply commit_txn_cases in R; [|done]. destruct r as [[id|id]|e].
  - by eapply applied_wf.
  - destruct R as [T _]. by eapply wf_same_tables.
  - destruct R as [T|(id & A & _)]; [by eapply wf_same_tables|by eapply applied_wf].
Qed.

(** ** History is append-only *)

(** What may happen to a part row: only its tombstone and its purge stamp are
    ever set, each once. *)
Definition row_le (r r' : PartRow) : Prop :=
  pr_id r' = pr_id r /\ pr_hypertable r' = pr_hypertable r /\ pr_meta r' = pr_meta r /\
  pr_key_filter r' = pr_key_filter r /\ pr_created_by r' = pr_created_by r /\
  (forall c, pr_deleted_by r = Some c -> pr_deleted_by r' = Some c) /\
  (is_Some (pr_purged_at r) -> is_Some (pr_purged_at r')).

Definition extends (t t' : Tables) : Prop :=
  (exists cs, commits t' = commits t ++ cs) /\
  (exists qs new, parts t' = qs ++ new /\ Forall2 row_le (parts t) qs).

#[global] Instance row_le_preorder : PreOrder row_le.
Proof.
  split.
  - intros r. by split_and!.
  - intros r1 r2 r3 (? & ? & ? & ? & ? & D & P) (? & ? & ? & ? & ? & D' & P').
    split_and!; try congruence; auto.
Qed.

Lemma extends_refl t : extends t t.
Proof.
  split; [exists []; by rewrite app_nil_r|]. exists (parts t), []. rewrite app_nil_r. split; [done|].
  apply Forall_Forall2_diag. by apply Forall_forall.
Qed.

Lemma extends_trans t1 t2 t3 : extends t1 t2 -> extends t2 t3 -> extends t1 t3.
Proof.
  intros [(cs & C) (qs & new & P & F)] [(cs' & C') (qs' & new' & P' & F')].
  split; [exists (cs ++ cs'); by rewrite C', C, app_assoc|].
  rewrite P in F'. apply Forall2_app_inv_l in F' as (q1 & q2 & F1 & F2 & ->).
  exists q1, (q2 ++ new'). rewrite P', app_assoc. split; [done|].
  by transitivity qs.
Qed.

Lemma applied_extends env ht op identity offs lease d d' id :
  applied b64_decode tm_deserialize env ht op identity offs lease d d' id ->
  extends (tables d) (tables d').
Proof.
  intros (_ & _ & _ & _ & T & _). rewrite T. split; simpl; [eauto|].
  eexists _, _. split; [done|]. unfold update_tombstones.
  induction (parts (tables d)) as [|r rs IH]; simpl; constructor; [|done].
  destruct (tombstone_hit _ _ r) eqn:X; [|done]. apply tombstone_hit_spec in X as (_ & _ & N).
  split_and!; simpl; try done. intros c E. congruence.
Qed.

(** history is append-only: whatever a commit comes to, no earlier commit is
    altered or removed, every part row keeps its identity, metadata and
    creator, and a tombstone once set names its commit for good -- so a part
    is deleted by at most one commit. *)
Theorem commit_history_append_only env ht op identity offs lease f d r d' f' :
  honest env -> commit_txn env ht op identity offs lease f d = (r, d', f') ->
  extends (tables d) (tables d').
Proof.
  intros Hon R. apply commit_txn_cases in R; [|done]. destruct r as [[id|id]|e].
  - by eapply applied_extends.
  - destruct R as [-> _]. apply extends_refl.
  - destruct R as [->|(id & A & _)]; [apply extends_refl|by eapply applied_extends].
Qed.

(** committing keeps the catalog well formed, whatever it comes to: ids
    unique and below their sequences, keys unique per hypertable, every part
    created by an existing commit of its hypertable and deleted, if at all,
    by a later one. *)
Theorem commit_preserves_wf env ht op identity offs lease f d r d' f' :
  honest env -> db_wf d -> commit_txn env ht op identity offs lease f d = (r, d', f') ->
  db_wf d'.
Proof. apply commit_txn_wf. Qed.

(** ** Exactly-once consumption *)

Definition range_valid (r : OffsetRange) : Prop := i64_min <= first r <= last r /\ last r < i64_max.
Definition before (a b : OffsetRange) : Prop := last a < first b.

(** The ranges of one topic-partition among those committed. *)
Definition ranges_at (k : HypertableId * string * Z) (log : list (HypertableId * OffsetRange))
  : list OffsetRange :=
  List.map snd (List.filter (fun e => bool_decide ((e.1, topic e.2, partition e.2) = k)) log).

Lemma ranges_at_snoc k log e :
  ranges_at k (log ++ [e])
  = ranges_at k log ++ (if bool_decide ((e.1, topic e.2, partition e.2) = k) then [e.2] else []).
Proof.
  unfold ranges_at. rewrite List.filter_app, List.map_app. simpl. by destruct (bool_decide _).
Qed.

Definition cursor_covers (offs : gmap (HypertableId * string * Z) OffsetCell)
    (log : list (HypertableId * OffsetRange)) : Prop :=
  forall k, StronglySorted before (ranges_at k log) /\
    forall r, r ∈ ranges_at k log -> exists cell, offs !! k = Some cell /\ last r < next_offset cell.

Lemma StronglySorted_snoc {A} (R : relation A) l x :
  StronglySorted R l -> (forall y, y ∈ l -> R y x) -> StronglySorted R (l ++ [x]).
Proof.
  induction 1 as [|y l S IH F]; intros Hx; simpl; [repeat constructor|]. constructor.
  - apply IH. intros z Hz. apply Hx. by right.
  - apply Forall_app. split; [done|]. constructor; [|constructor]. apply Hx. left.
Qed.

Lemma cursor_covers_snoc offs log ht r :
  cursor_covers offs log -> range_valid r -> offset_admits offs ht r ->
  cursor_covers (offset_cell offs ht r) (log ++ [(ht, r)]).
Proof.
  intros Cv [V1 V2] Ad k. destruct (Cv k) as [S L]. rewrite ranges_at_snoc. simpl.
  unfold offset_cell. rewrite wrap_i64_id by (unfold in_i64; lia).
  case_bool_decide as E; [subst k|].
  - split.
    + apply StronglySorted_snoc; [done|]. intros a Ha. destruct (L a Ha) as (cell & C & Lt).
      specialize (Ad cell C). unfold before. lia.
    + intros a Ha. rewrite lookup_insert_eq. eexists. split; [done|]. simpl.
      apply elem_of_app in Ha as [Ha| ->%list_elem_of_singleton]; [|lia].
      destruct (L a Ha) as (cell & C & Lt). specialize (Ad cell C). lia.
  - rewrite app_nil_r. split; [done|]. intros a Ha. rewrite lookup_insert_ne by done. by apply L.
Qed.

Lemma cursor_covers_fold ht rs : forall offs log,
  cursor_covers offs log -> Forall range_valid rs -> offsets_admit offs ht rs ->
  cursor_covers (List.fold_left (fun m r => offset_cell m ht r) rs offs) (log ++ List.map (pair ht) rs).
Proof.
  induction rs as [|r rs IH]; intros offs log Cv V Ad; simpl; [by rewrite app_nil_r|].
  apply Forall_cons in V as [V1 V2]. destruct Ad as [A1 A2].
  replace (log ++ (ht, r) :: List.map (pair ht) rs) with ((log ++ [(ht, r)]) ++ List.map (pair ht) rs)
    by by rewrite <- app_assoc.
  apply IH; [by apply cursor_covers_snoc|done|done].
Qed.

(** A run of the catalog as the offsets see it: commits, of which the durable
    ones are logged, between steps that move no offset. *)
Inductive ingest_run : DbState -> list (HypertableId * OffsetRange) -> DbState -> Prop :=
| run_nil d : ingest_run d [] d
| run_commit d log d1 env ht op identity offs lease f r d2 f2 :
    ingest_run d log d1 -> honest env -> Forall range_valid offs ->
    commit_txn env ht op identity offs lease f d1 = (r, d2, f2) ->
    ingest_run d (if len (commits (tables d2)) =? len (commits (tables d1)) then log
                  else log ++ List.map (pair ht) offs) d2
| run_other d log d1 d2 :
    ingest_run d log d1 ->
    (forall k, next_offset <$> ingest_offsets (tables d2) !! k
               = next_offset <$> ingest_offsets (tables d1) !! k) ->
    ingest_run d log d2.

Lemma ingest_run_covers d log d' :
  ingest_offsets (tables d) = ∅ -> ingest_run d log d' ->
  cursor_covers (ingest_offsets (tables d')) log.
Proof.
  intros E0. induction 1 as [d|d log d1 env ht op identity offs lease f r d2 f2 R IH Hon V T
                             |d log d1 d2 R IH E]; [|specialize (IH E0)..].
  - intros k. split; [constructor|]. by intros r ?%elem_of_nil.
  - assert (Same : tables d2 = tables d1 -> cursor_covers (ingest_offsets (tables d2))
      (if len (commits (tables d2)) =? len (commits (tables d1)) then log
       else log ++ List.map (pair ht) offs)).
    { intros ->. by rewrite Z.eqb_refl. }
    assert (App : forall id, applied b64_decode tm_deserialize env ht op identity offs lease d1 d2 id ->
      cursor_covers (ingest_offsets (tables d2))
        (if len (commits (tables d2)) =? len (commits (tables d1)) then log
         else log ++ List.map (pair ht) offs)).
    { intros id (_ & _ & _ & Ad & -> & _). simpl. rewrite len_app, len_cons, len_nil.
      destruct (Z.eqb_spec (len (commits (tables d1)) + (0 + 1)) (len (commits (tables d1)))); [lia|].
      by apply cursor_covers_fold. }
    apply commit_txn_cases in T; [|done]. destruct r as [[id|id]|e]; [by eapply App| |].
    + destruct T as [T _]. by apply Same.
    + destruct T as [T|(id & A & _)]; [by apply Same|by eapply App].
  - intros k. destruct (IH k) as [S L]. split; [done|]. intros r Hr.
    destruct (L r Hr) as (cell & C & Lt). specialize (E k). rewrite C in E. simpl in E.
    destruct (ingest_offsets (tables d2) !! k) as [cell'|]; simpl in E; [|done].
    injection E as E. exists cell'. split; [done|lia].
Qed.

(** C2: ingestion is exactly once: over any run of the catalog -- retries,
    races, lost acknowledgements and all -- the ranges durably committed for a
    topic-partition are pairwise disjoint and ascending, and the stored cursor
    is past every one of them. *)
Theorem ingest_exactly_once d log d' :
  ingest_offsets (tables d) = ∅ -> ingest_run d log d' ->
  forall ht tp p,
    StronglySorted (fun a b => last a < first b) (ranges_at (ht, tp, p) log) /\
    forall r, r ∈ ranges_at (ht, tp, p) log ->
      exists cell, ingest_offsets (tables d') !! (ht, tp, p) = Some cell /\ last r < next_offset cell.
Proof. intros E R ht tp p. exact (ingest_run_covers d log d' E R (ht, tp, p)). Qed.

(** ** The lease fence *)

(** a leased rewrite that commits was fenced: at that instant the lease row
    of its partition carried this worker's owner and generation and had not
    expired, every consumed part is a live part of that very partition, and
    every produced part is placed in it. *)
Theorem leased_commit_was_fenced env ht lease old new i f d d' f' id :
  honest env -> db_wf d ->
  commit_compaction_replace b64_decode tm_deserialize env ht lease old new i f d
    = (Ok (Committed id), d', f') ->
  ht = ls_hypertable_id lease /\
  (exists row, row ∈ compaction_leases (tables d) /\ l_hypertable row = ht /\
     jsonb_eqb (l_partition row) (ls_partition_values lease) = true /\
     l_owner row = ls_owner_id lease /\ l_generation row = ls_generation lease /\
     clock_timestamp env < l_expires_at row) /\
  (forall p, p ∈ old -> exists r, r ∈ live_rows ht (tables d) /\ pr_id r = p /\
     jsonb_eqb (partition_values (pr_meta r)) (ls_partition_values lease) = true) /\
  Forall (fun m => partition_values m = ls_partition_values lease) new.
Proof.
  intros Hon W R. apply commit_txn_cases in R; [|done].
  destruct R as (_ & _ & L & _ & _ & _ & _ & _ & _ & F).
  destruct (F lease eq_refl) as (E & (row & Fr & O & G & X) & old' & new' & Eop & Pn & C).
  injection Eop as <- <-. simpl in L. apply (hits_all d) in L as [N A]; [|done].
  apply (count_matches_request pr_id _ _ _ (wf_part_ids d W)) in C as [_ C];
    [|intros r _ Hr; by boolp].
  split; [done|]. split.
  { apply List.find_some in Fr as [Hin Hr]. unfold lease_row_of in Hr. boolp.
    exists row. rewrite list_elem_of_In. by split_and!. }
  split; [|done]. intros p Hp. destruct (A p Hp) as (r & Hr & Ep & Hh & Hd).
  destruct (C p Hp) as (r2 & Hr2 & Ep2 & Hc). boolp.
  assert (r2 = r) as -> by (eapply (NoDup_map_inj pr_id); [apply W|done..|congruence]).
  exists r. rewrite live_rows_spec. by split_and!.
Qed.
End history.

End CommitHistory.
