(* ===== verification/CommitExamples.v ===== *)
(** * Commits at work

    One small catalog on which the commit theorems are applied: two parts
    ingested with their offsets, compacted under a lease, replayed, raced and
    cut at the boundary. *)

From S2P Require Import Prelude Bytes Json Types KeyFilter Stats Operation CatalogError CatalogDb Commit CommitSpec CommitHistory.
Import CatalogError CatalogDb Commit CommitSpec CommitTheorems CommitHistory.

Module CommitExamples.

(** [jsonb] equality as equality of normal forms. *)
#[export] Instance model_jsonb : Jsonb.
Proof.
  refine {|
    jsonb_eqb a b := bool_decide (json_norm a = json_norm b);
    jsonb_text v := match v with JString s => s | _ => EmptyString end;
  |}.
  - intros a. by apply bool_decide_eq_true.
  - intros a b. apply bool_decide_ext. naive_solver.
  - intros a b c. rewrite !bool_decide_eq_true. congruence.
Defined.

Definition no_b64 (s : string) : option (list Z) := None.
Definition no_tm (l : list Z) : option (gset Z) := None.

Definition ht1 : Hypertable := mkHypertable 1 "events" JNull JNull ["k"%string] "k" Packed.
Definition db0 : DbState := mkDb (with_hypertables empty_tables [ht1]) (mkSeqs 1 0 0 0 0 0 0).
Definition day : json := JString "2026-07-05".
Definition part (p : string) (lvl : Z) : PartMeta := mkPartMeta p day 0 9 10 100 lvl None.
Definition ident (k : string) (b : Z) : Operation.OperationIdentity :=
  Operation.mkIdentity 1 k (List.repeat b 32%nat).

Definition offsets1 : list OffsetRange := [mkOffsetRange "events" 0 0 9].
Definition run1 := commit_with_offsets no_b64 no_tm (quiet 5) 1 (Add [part "a" 0; part "b" 0])
  offsets1 (ident "k1" 1) 0 db0.
Definition db1 : DbState := run1.1.2.

Definition lease1 : CompactionLease := mkLease 1 day 77 3 100.
Definition db2 : DbState :=
  mkDb (with_leases (tables db1) [mkLeaseRow 1 day 77 3 100]) (mkSeqs 1 0 1 2 3 0 0).
Definition run2 := commit_compaction_replace no_b64 no_tm (quiet 7) 1 lease1 [1; 2] [part "c" 1]
  (ident "k2" 2) 0 db2.

Example run1_commits : run1.1.1 = Ok (Committed 1).
Proof. vm_compute. reflexivity. Qed.
Example run1_ids : List.map pr_id (parts (tables db1)) = [1; 2].
Proof. vm_compute. reflexivity. Qed.
Example run2_commits : run2.1.1 = Ok (Committed 2).
Proof. vm_compute. reflexivity. Qed.
Example run2_rows :
  List.map (fun r => (pr_id r, pr_deleted_by r)) (parts (tables run2.1.2))
  = [(1, Some 2); (2, Some 2); (3, None)].
Proof. vm_compute. reflexivity. Qed.

Lemma quiet_honest t : honest (quiet t).
Proof. by intros e [=]. Qed.

Lemma db0_wf : db_wf db0.
Proof. split; simpl; try constructor; try (intros; by exfalso; eapply not_elem_of_nil); lia. Qed.

Lemma surj3 {A B C} (x : A * B * C) : x = (x.1.1, x.1.2, x.2).
Proof. by destruct x as [[] ]. Qed.

Lemma run1_eq :
  commit_txn no_b64 no_tm (quiet 5) 1 (Add [part "a" 0; part "b" 0]) (Some (ident "k1" 1)) offsets1 None 0 db0
  = (Ok (Committed 1), db1, 0).
Proof. vm_compute. reflexivity. Qed.

Lemma run2_eq :
  commit_txn no_b64 no_tm (quiet 7) 1 (Replace [1; 2] [part "c" 1]) (Some (ident "k2" 2)) [] (Some lease1) 0 db2
  = (Ok (Committed 2), run2.1.2, 0).
Proof. vm_compute. reflexivity. Qed.

Lemma db1_wf : db_wf db1.
Proof. eapply commit_txn_wf; [apply quiet_honest|exact db0_wf|]. exact run1_eq. Qed.

Lemma db2_wf : db_wf db2.
Proof. destruct db1_wf. split; done. Qed.

(** ** The theorems applied *)

Lemma commit_all_or_nothing_witness :
  run1.1.1 = Ok (Committed 1) /\
  tables db1 = effect no_b64 no_tm (quiet 5) 1 1 (Add [part "a" 0; part "b" 0])
                 (Some (ident "k1" 1)) offsets1 db0.
Proof.
  split; [vm_compute; reflexivity|].
  apply (commit_all_or_nothing no_b64 no_tm (quiet 5) 1 (Add [part "a" 0; part "b" 0])
           (Some (ident "k1" 1)) offsets1 None 0 db0 (Ok (Committed 1)) db1 0 (quiet_honest 5) run1_eq).
Defined.

Lemma commit_live_set_witness :
  NoDup [1; 2] /\
  exists new, List.map pr_meta new = [part "c" 1] /\
    forall r, r ∈ live_rows 1 (tables run2.1.2) <->
      (r ∈ live_rows 1 (tables db2) /\ pr_id r ∉ [1; 2]) \/ r ∈ new.
Proof.
  destruct (commit_live_set no_b64 no_tm (quiet 7) 1 (Replace [1; 2] [part "c" 1])
    (Some (ident "k2" 2)) [] (Some lease1) 0 db2 run2.1.2 0 2 (quiet_honest 7) db2_wf)
    as (N & _ & new & E & _ & L & _).
  - exact run2_eq.
  - split; [exact N|]. exists new. split; [exact E|exact L].
Defined.

(** The connection dies after the server applied the [COMMIT]. *)
Definition cut (durable : bool) : TxEnv := mkTxEnv 5 5 (fun _ => None) (Failed Io durable).

Lemma cut_honest b : honest (cut b).
Proof. intros e [= <-]. reflexivity. Qed.

Lemma ambiguity_is_decidable_witness :
  let run := commit_with_offsets no_b64 no_tm (cut true) 1 (Add [part "a" 0]) offsets1 (ident "k1" 1) 0 db0 in
  (lookup_operation (ident "k1" 1) run.1.2 = Ok Absent /\ tables run.1.2 = tables db0) \/
  (exists id, lookup_operation (ident "k1" 1) run.1.2 = Ok (LookupCommitted id) /\
     tables run.1.2 = effect no_b64 no_tm (cut true) id 1 (Add [part "a" 0])
                        (Some (ident "k1" 1)) offsets1 db0).
Proof.
  intros run.
  apply (ambiguity_is_decidable no_b64 no_tm (cut true) 1 (Add [part "a" 0]) (Some (ident "k1" 1))
    offsets1 None 0 db0 (ident "k1" 1) "k1" Io run.1.2 0 (cut_honest true)).
  - vm_compute. reflexivity.
  - vm_compute. reflexivity.
Defined.

Definition replay := commit_with_offsets no_b64 no_tm (quiet 9) 1 (Add [part "z" 0]) [] (ident "k1" 1) 0 db1.
Definition commit1 : CommitRow := mkCommitRow 1 1 "add" (Some "k1"%string) (Some (List.repeat 1 32%nat)) 5.

Lemma replay_eq :
  commit_txn no_b64 no_tm (quiet 9) 1 (Add [part "z" 0]) (Some (ident "k1" 1)) [] None 0 db1
  = (replay.1.1, replay.1.2, replay.2).
Proof. vm_compute. reflexivity. Qed.

Lemma commits_db1 : commits (tables db1) = [commit1].
Proof. vm_compute. reflexivity. Qed.

Lemma replay_and_collision_witness :
  exists c, c ∈ commits (tables db1) /\ replay.1.1 = Ok (AlreadyApplied (c_id c)).
Proof.
  assert (Hc : commit1 ∈ commits (tables db1)) by (rewrite commits_db1; left).
  exists commit1. split; [exact Hc|].
  exact (proj2 (replay_and_collision no_b64 no_tm (quiet 9) 1 (Add [part "z" 0]) (ident "k1" 1) [] None 0 db1
    commit1 _ _ _ (fun _ => eq_refl) db1_wf eq_refl eq_refl Hc eq_refl eq_refl replay_eq)).
Defined.

Definition refused := commit no_b64 no_tm (quiet 9) 1 (Delete [2; 7]) None 0 db1.

Lemma refused_eq :
  commit_txn no_b64 no_tm (quiet 9) 1 (Delete [2; 7]) None [] None 0 db1 = (refused.1.1, refused.1.2, refused.2).
Proof. vm_compute. reflexivity. Qed.

Lemma db1_live_ids : List.map pr_id (live_rows 1 (tables db1)) = [1; 2].
Proof. vm_compute. reflexivity. Qed.

Lemma db1_hypertable : exists h, h ∈ hypertables (tables db1) /\ ht_id h = 1.
Proof. exists ht1. split; [|done]. apply list_elem_of_In. vm_compute. by left. Qed.

Lemma conflict_iff_witness : exists n, refused.1.1 = Err (Conflict 2 n).
Proof.
  apply (proj1 (conflict_iff no_b64 no_tm (quiet 9) 1 [2; 7] 0 db1 _ _ _ (fun _ => eq_refl) db1_wf
    db1_hypertable refused_eq)).
  intros [_ A]. destruct (A 7 ltac:(set_solver)) as (row & Hr & E).
  assert (I : 7 ∈ List.map pr_id (live_rows 1 (tables db1))).
  { apply list_elem_of_In, List.in_map_iff. exists row. split; [exact E|]. by apply list_elem_of_In. }
  rewrite db1_live_ids in I. set_solver.
Defined.

Lemma commit_history_append_only_witness : extends (tables db2) (tables run2.1.2).
Proof.
  apply (commit_history_append_only no_b64 no_tm (quiet 7) 1 (Replace [1; 2] [part "c" 1])
    (Some (ident "k2" 2)) [] (Some lease1) 0 db2 (Ok (Committed 2)) run2.1.2 0 (quiet_honest 7) run2_eq).
Defined.

Lemma commit_preserves_wf_witness : db_wf run2.1.2.
Proof.
  apply (commit_preserves_wf no_b64 no_tm (quiet 7) 1 (Replace [1; 2] [part "c" 1])
    (Some (ident "k2" 2)) [] (Some lease1) 0 db2 (Ok (Committed 2)) run2.1.2 0 (quiet_honest 7) db2_wf run2_eq).
Defined.

Definition offsets2 : list OffsetRange := [mkOffsetRange "events" 0 12 15].
Definition run3 := commit_with_offsets no_b64 no_tm (quiet 9) 1 (Add [part "d" 0]) offsets2 (ident "k3" 3) 0 db1.

Lemma run3_eq :
  commit_txn no_b64 no_tm (quiet 9) 1 (Add [part "d" 0]) (Some (ident "k3" 3)) offsets2 None 0 db1
  = (Ok (Committed 2), run3.1.2, 0).
Proof. vm_compute. reflexivity. Qed.

Lemma ingest_exactly_once_witness :
  StronglySorted (fun a b => last a < first b)
    (ranges_at (1, "events"%string, 0) [(1, mkOffsetRange "events" 0 0 9); (1, mkOffsetRange "events" 0 12 15)]).
Proof.
  apply (ingest_exactly_once no_b64 no_tm db0 _ run3.1.2 eq_refl).
  assert (V1 : Forall range_valid offsets1).
  { repeat constructor; simpl; unfold i64_min, i64_max; lia. }
  assert (V2 : Forall range_valid offsets2).
  { repeat constructor; simpl; unfold i64_min, i64_max; lia. }
  exact (run_commit no_b64 no_tm _ _ _ _ _ _ _ _ _ _ _ _ _
    (run_commit no_b64 no_tm _ _ _ _ _ _ _ _ _ _ _ _ _ (run_nil no_b64 no_tm db0)
       (quiet_honest 5) V1 run1_eq) (quiet_honest 9) V2 run3_eq).
Defined.

Lemma leased_commit_was_fenced_witness :
  exists row, row ∈ compaction_leases (tables db2) /\ l_owner row = 77 /\ 7 < l_expires_at row.
Proof.
  destruct (leased_commit_was_fenced no_b64 no_tm (quiet 7) 1 lease1 [1; 2] [part "c" 1] (ident "k2" 2) 0
    db2 run2.1.2 0 2 (quiet_honest 7) db2_wf) as (_ & (row & Hr & _ & _ & O & _ & X) & _).
  - exact run2_eq.
  - exists row. split; [exact Hr|]. split; [exact O|exact X].
Defined.

End CommitExamples.
