(* ===== verification/Leases.v ===== *)
(** * Compaction leases (crates/ukiel-catalog/src/leases.rs)

    One statement per operation.  The clock is PostgreSQL's, in microseconds;
    a statement reads [clock_timestamp()] several times, so each reading is an
    argument.  A TTL that leaves PostgreSQL's timestamp range fails the
    statement ([CatalogDb.autocommit]'s [Failed]). *)

From S2P Require Import Prelude Bytes Json Types CatalogError CatalogDb Commit CommitSpec CommitExamples.
Import CatalogError CatalogDb Commit CommitSpec.

Module Leases.

(** [ttl.as_millis()], checked; the [Duration] is its nanoseconds. *)
Definition ttl_millis (ttl : Z) : result Z CatalogError :=
  let ms := ttl / 1000000 in
  if ms =? 0 then Err (InvalidLeaseTtl "must be greater than zero")
  else if ms <=? i64_max then Ok ms else Err (InvalidLeaseTtl "exceeds i64 milliseconds").

(** [$n * INTERVAL '1 millisecond'] in microseconds. *)
Definition interval (ms : Z) : Z := ms * 1000.

(** [impl From<LeaseRow> for CompactionLease]. *)
Definition lease_of_row (r : LeaseRow) : CompactionLease :=
  mkLease (l_hypertable r) (l_partition r) (l_owner r) (l_generation r) (l_expires_at r).

(** The readings of [clock_timestamp()] in the claim statement. *)
Record ClaimClock := mkClaimClock { at_values : Z; at_where : Z; at_case : Z }.

Section leases.
Context `{Jsonb}.

(** The [DO UPDATE SET] of a claim on an existing row. *)
Definition claim_row (c : ClaimClock) (owner gen ms : Z) (row : LeaseRow) : LeaseRow :=
  mkLeaseRow (l_hypertable row) (l_partition row) owner
    (if (l_owner row =? owner) && (at_case c <? l_expires_at row)
     then l_generation row else gen)
    (at_values c + interval ms).

Definition map_lease (ht : HypertableId) (p : json) (f : LeaseRow -> LeaseRow) (t : Tables) : Tables :=
  with_leases t (List.map (fun l => if lease_row_of ht p l then f l else l) (compaction_leases t)).

Definition try_acquire_compaction_lease (c : ClaimClock) (ht : HypertableId) (p : json)
    (owner ttl : Z) (d : DbState) : result (option CompactionLease) CatalogError * DbState :=
  match ttl_millis ttl with
  | Err e => (Err e, d)
  | Ok ms =>
      let t := tables d in
      let '(gen, s) := nextval_generation (seqs d) in
      match find_lease t ht p with
      | None =>
          if List.existsb (fun h => ht_id h =? ht) (hypertables t) then
            let row := mkLeaseRow ht p owner gen (at_values c + interval ms) in
            (Ok (Some (lease_of_row row)),
             mkDb (with_leases t (compaction_leases t ++ [row])) s)
          else (Err (Db (Database (Some "23503"))), mkDb t s)
      | Some row =>
          if (l_expires_at row <=? at_where c) || (l_owner row =? owner) then
            (Ok (Some (lease_of_row (claim_row c owner gen ms row))),
             mkDb (map_lease ht p (claim_row c owner gen ms) t) s)
          else (Ok None, mkDb t s)
      end
  end.

(** The row a token still names. *)
Definition token_row (lease : CompactionLease) (l : LeaseRow) : bool :=
  lease_row_of (ls_hypertable_id lease) (ls_partition_values lease) l
  && (l_owner l =? ls_owner_id lease) && (l_generation l =? ls_generation lease).

Definition extend_row (expires : Z) (l : LeaseRow) : LeaseRow :=
  mkLeaseRow (l_hypertable l) (l_partition l) (l_owner l) (l_generation l) expires.

Definition renew_compaction_lease (c : ClaimClock) (lease : CompactionLease) (ttl : Z) (d : DbState)
  : result (option CompactionLease) CatalogError * DbState :=
  match ttl_millis ttl with
  | Err e => (Err e, d)
  | Ok ms =>
      let t := tables d in
      let hit l := token_row lease l && (at_where c <? l_expires_at l) in
      let up := extend_row (at_values c + interval ms) in
      (Ok ((fun l => lease_of_row (up l)) <$> List.find hit (compaction_leases t)),
       mkDb (with_leases t (List.map (fun l => if hit l then up l else l) (compaction_leases t)))
            (seqs d))
  end.

Definition release_compaction_lease (lease : CompactionLease) (d : DbState) : bool * DbState :=
  let t := tables d in
  (0 <? len (List.filter (token_row lease) (compaction_leases t)),
   mkDb (with_leases t (List.filter (fun l => negb (token_row lease l)) (compaction_leases t)))
        (seqs d)).

(** Active leases, and the age in microseconds of the oldest expired one. *)
Definition compaction_lease_stats (clock : Z) (t : Tables) : Z * Z :=
  (len (List.filter (fun l => clock <? l_expires_at l) (compaction_leases t)),
   List.fold_left Z.max
     (List.map (fun l => clock - l_expires_at l)
        (List.filter (fun l => l_expires_at l <=? clock) (compaction_leases t))) 0).

(** ** Theorems *)

(** a TTL is accepted exactly when it is a positive number of whole
    milliseconds that fits [i64]; zero and sub-millisecond durations are
    refused. *)
Theorem ttl_millis_spec ttl ms :
  0 <= ttl ->
  (ttl_millis ttl = Ok ms <-> ms = ttl / 1000000 /\ 1 <= ms <= i64_max) /\
  (ttl_millis ttl = Err (InvalidLeaseTtl "must be greater than zero") <-> ttl < 1000000).
Proof.
  intros Ht. unfold ttl_millis. assert (0 <= ttl / 1000000) by (apply Z.div_pos; lia).
  pose proof (Z.div_mod ttl 1000000). pose proof (Z.mod_pos_bound ttl 1000000).
  destruct (Z.eqb_spec (ttl / 1000000) 0); [|destruct (Z.leb_spec (ttl / 1000000) i64_max)].
  - split; [split; [done|lia]|]. split; [lia|done].
  - split; [|split; [done|lia]]. split; [intros [= <-]; lia|intros [-> _]; done].
  - split; [|split; [done|lia]]. split; [done|lia].
Qed.

(** One row per partition, of a generation the sequence has handed out. *)
Record leases_wf (d : DbState) : Prop := {
  lw_unique : forall i j l1 l2, compaction_leases (tables d) !! i = Some l1 ->
    compaction_leases (tables d) !! j = Some l2 ->
    lease_row_of (l_hypertable l2) (l_partition l2) l1 = true -> i = j;
  lw_generation : forall l, l ∈ compaction_leases (tables d) ->
    0 < l_generation l <= compaction_lease_generation_seq (seqs d);
  lw_seq : 0 <= compaction_lease_generation_seq (seqs d);
}.

Lemma lease_row_of_spec ht p l :
  lease_row_of ht p l = true <-> l_hypertable l = ht /\ jsonb_eqb (l_partition l) p = true.
Proof. unfold lease_row_of. rewrite andb_true_iff, Z.eqb_eq. done. Qed.

Lemma find_lease_Some t ht p l :
  find_lease t ht p = Some l ->
  l ∈ compaction_leases t /\ l_hypertable l = ht /\ jsonb_eqb (l_partition l) p = true.
Proof.
  intros [Hin Hl]%List.find_some. apply lease_row_of_spec in Hl. by rewrite list_elem_of_In.
Qed.

Lemma find_lease_None t ht p :
  find_lease t ht p = None -> forall l, l ∈ compaction_leases t -> lease_row_of ht p l = false.
Proof. intros F l Hl%list_elem_of_In. by eapply List.find_none in F. Qed.

Lemma lease_row_of_trans ht p l1 l2 :
  lease_row_of ht p l1 = true -> lease_row_of ht p l2 = true ->
  lease_row_of (l_hypertable l2) (l_partition l2) l1 = true.
Proof.
  rewrite !lease_row_of_spec. intros [-> J1] [-> J2]. split; [done|].
  eapply jsonb_trans; [exact J1|]. by rewrite jsonb_sym.
Qed.

Lemma find_lease_unique d ht p l l' :
  leases_wf d -> find_lease (tables d) ht p = Some l -> l' ∈ compaction_leases (tables d) ->
  lease_row_of ht p l' = true -> l' = l.
Proof.
  intros W F Hl' R'. apply find_lease_Some in F as (Hl & Fh & Fp).
  apply list_elem_of_lookup in Hl as [i Hi]. apply list_elem_of_lookup in Hl' as [j Hj].
  assert (j = i) as ->; [|congruence].
  eapply (lw_unique d W); [done|done|]. eapply lease_row_of_trans; [exact R'|]. by apply lease_row_of_spec.
Qed.

(** *** Finding a row after an update *)

Lemma find_map {A} (g : A -> bool) (h : A -> A) l :
  (forall x, g (h x) = g x) -> List.find g (List.map h l) = h <$> List.find g l.
Proof. intros Hg. induction l as [|x l IH]; simpl; [done|]. rewrite Hg. by destruct (g x). Qed.

Lemma find_app {A} (g : A -> bool) l1 l2 :
  List.find g (l1 ++ l2) = match List.find g l1 with Some x => Some x | None => List.find g l2 end.
Proof. induction l1 as [|x l1 IH]; simpl; [done|]. by destruct (g x). Qed.

Lemma find_filter_Some {A} (g k : A -> bool) l x :
  List.find g l = Some x -> k x = true -> List.find g (List.filter k l) = Some x.
Proof.
  intros F K. induction l as [|y l IH]; simpl in *; [done|].
  destruct (g y) eqn:G.
  - injection F as ->. rewrite K. simpl. by rewrite G.
  - destruct (k y); simpl; [rewrite G|]; by apply IH.
Qed.

Lemma find_ext {A} (g k : A -> bool) l : (forall x, g x = k x) -> List.find g l = List.find k l.
Proof. intros E. induction l as [|x l IH]; simpl; [done|]. by rewrite E, IH. Qed.

(** a claim is granted exactly to a free partition, an expired one, or the
    partition's own holder: the holder keeps its generation (its in-flight
    fence survives), anyone else starts a tenancy of a generation never drawn
    before, and a peer's unexpired lease answers [None] and is untouched. *)
Theorem acquire_spec c ht p owner ttl ms d r d' :
  leases_wf d -> ttl_millis ttl = Ok ms ->
  try_acquire_compaction_lease c ht p owner ttl d = (r, d') ->
  match find_lease (tables d) ht p with
  | Some row =>
      if (at_where c <? l_expires_at row) && negb (l_owner row =? owner)
      then r = Ok None /\ tables d' = tables d
      else exists gen, r = Ok (Some (mkLease ht (l_partition row) owner gen (at_values c + interval ms))) /\
        find_lease (tables d') ht p
          = Some (mkLeaseRow ht (l_partition row) owner gen (at_values c + interval ms)) /\
        if (l_owner row =? owner) && (at_case c <? l_expires_at row) then gen = l_generation row
        else gen = compaction_lease_generation_seq (seqs d) + 1 /\
             Forall (fun l => l_generation l < gen) (compaction_leases (tables d))
  | None =>
      (exists h, h ∈ hypertables (tables d) /\ ht_id h = ht) ->
      let gen := compaction_lease_generation_seq (seqs d) + 1 in
      r = Ok (Some (mkLease ht p owner gen (at_values c + interval ms))) /\
      find_lease (tables d') ht p = Some (mkLeaseRow ht p owner gen (at_values c + interval ms)) /\
      Forall (fun l => l_generation l < gen) (compaction_leases (tables d))
  end.
Proof.
  intros W T. unfold try_acquire_compaction_lease. rewrite T. simpl.
  assert (G : Forall (fun l => l_generation l < compaction_lease_generation_seq (seqs d) + 1)
                (compaction_leases (tables d))).
  { apply Forall_forall. intros l Hl. apply (lw_generation d W) in Hl. lia. }
  destruct (find_lease (tables d) ht p) as [row|] eqn:F.
  - pose proof (find_lease_Some _ _ _ _ F) as (_ & Eh & Ep).
    rewrite (Z.leb_antisym (at_where c)), (orb_comm (negb _)).
    destruct (l_owner row =? owner) eqn:O, (at_where c <? l_expires_at row) eqn:X; simpl;
      intros [= <- <-]; try (by split); simpl;
      (eexists; split; [unfold lease_of_row; simpl; rewrite Eh; reflexivity|]; split;
       [ unfold find_lease, map_lease in *; simpl; rewrite find_map;
         [rewrite F; simpl; rewrite (proj2 (lease_row_of_spec ht p row)) by done; unfold claim_row; by rewrite Eh, ?O
         |intros l; destruct (lease_row_of ht p l) eqn:E; [|done];
          apply lease_row_of_spec in E as [? ?]; by apply lease_row_of_spec]
       | rewrite ?O; simpl; try (destruct (at_case c <? l_expires_at row)); auto ]).
  - intros R (h & Hh & Eh). destruct (List.existsb _ (hypertables (tables d))) eqn:E.
    + injection R as <- <-. split; [done|]. split; [|done].
      unfold find_lease in *. simpl. rewrite find_app, F. simpl.
      by rewrite (proj2 (lease_row_of_spec ht p _)) by (split; [done|apply jsonb_refl]).
    + exfalso. assert (List.existsb (fun h => ht_id h =? ht) (hypertables (tables d)) = true); [|congruence].
      apply List.existsb_exists. exists h. split; [by apply list_elem_of_In|lia].
Qed.

(** ** Runs of lease operations *)

Inductive lease_op :=
| OpAcquire (c : ClaimClock) (ht : HypertableId) (p : json) (owner ttl : Z)
| OpRenew (c : ClaimClock) (lease : CompactionLease) (ttl : Z)
| OpRelease (lease : CompactionLease).

Definition run_op (o : lease_op) (d : DbState) : DbState :=
  match o with
  | OpAcquire c ht p owner ttl => (try_acquire_compaction_lease c ht p owner ttl d).2
  | OpRenew c lease ttl => (renew_compaction_lease c lease ttl d).2
  | OpRelease lease => (release_compaction_lease lease d).2
  end.

(** A step of the catalog as the leases see it: a lease operation, or one that
    leaves the leases alone and draws, at most, unused generations. *)
Inductive lease_step : DbState -> DbState -> Prop :=
| step_op o d : lease_step d (run_op o d)
| step_other d d' :
    compaction_leases (tables d') = compaction_leases (tables d) ->
    compaction_lease_generation_seq (seqs d) <= compaction_lease_generation_seq (seqs d') ->
    lease_step d d'.

Definition same_tenancy (l l' : LeaseRow) : Prop :=
  l_hypertable l' = l_hypertable l /\ l_partition l' = l_partition l /\
  l_owner l' = l_owner l /\ l_generation l' = l_generation l.

Lemma run_op_rows o d l' :
  l' ∈ compaction_leases (tables (run_op o d)) ->
  (exists l, l ∈ compaction_leases (tables d) /\ same_tenancy l l') \/
  l_generation l' = compaction_lease_generation_seq (seqs d) + 1.
Proof.
  assert (Id : l' ∈ compaction_leases (tables d) ->
    exists l, l ∈ compaction_leases (tables d) /\ same_tenancy l l') by (intros; by exists l').
  destruct o as [c ht p owner ttl|c lease ttl|lease]; simpl.
  - unfold try_acquire_compaction_lease. destruct (ttl_millis ttl) as [ms|]; [|auto]. simpl.
    destruct (find_lease _ _ _) as [row|]; [destruct (_ || _)|destruct (List.existsb _ _)]; simpl; auto.
    + intros (l & <- & Hl)%list_elem_of_In%List.in_map_iff. apply list_elem_of_In in Hl.
      destruct (lease_row_of ht p l) eqn:E; [|left; by exists l].
      unfold claim_row; simpl. destruct (Z.eqb_spec (l_owner l) owner); simpl; [|auto].
      destruct (at_case c <? l_expires_at l); [|auto]. left. exists l. by split_and!.
    + intros [?| ->%list_elem_of_singleton]%elem_of_app; auto.
  - unfold renew_compaction_lease. destruct (ttl_millis ttl) as [ms|]; [|auto]. simpl.
    intros (l & <- & Hl)%list_elem_of_In%List.in_map_iff. apply list_elem_of_In in Hl. left. exists l.
    split; [done|]. by destruct (_ && _).
  - intros Hl. apply filter_In_iff in Hl as [Hl _]. auto.
Qed.

Lemma run_op_seq o d :
  compaction_lease_generation_seq (seqs d) <= compaction_lease_generation_seq (seqs (run_op o d)).
Proof.
  destruct o as [c ht p owner ttl|c lease ttl|lease]; simpl; [| |apply Z.le_refl].
  - unfold try_acquire_compaction_lease. destruct (ttl_millis ttl); simpl; [|apply Z.le_refl].
    destruct (find_lease _ _ _); [destruct (_ || _)|destruct (List.existsb _ _)]; simpl; lia.
  - unfold renew_compaction_lease. destruct (ttl_millis ttl); apply Z.le_refl.
Qed.

Definition token_live (lease : CompactionLease) (d : DbState) : Prop :=
  exists l, l ∈ compaction_leases (tables d) /\ token_row lease l = true.

Lemma token_row_spec lease l :
  token_row lease l = true <->
  lease_row_of (ls_hypertable_id lease) (ls_partition_values lease) l = true /\
  l_owner l = ls_owner_id lease /\ l_generation l = ls_generation lease.
Proof. unfold token_row. rewrite !andb_true_iff, !Z.eqb_eq. tauto. Qed.

Lemma dead_token_step lease d d' :
  ls_generation lease <= compaction_lease_generation_seq (seqs d) -> ~ token_live lease d ->
  lease_step d d' ->
  ls_generation lease <= compaction_lease_generation_seq (seqs d') /\ ~ token_live lease d'.
Proof.
  intros Hg Hd St. destruct St as [o d|d d' E S].
  - split; [pose proof (run_op_seq o d); lia|]. intros (l' & Hl' & T). apply Hd.
    apply token_row_spec in T as (R & O & G). apply run_op_rows in Hl' as [(l & Hl & S1 & S2 & S3 & S4)|N].
    + exists l. split; [done|]. apply token_row_spec. split_and!; [|congruence..].
      apply lease_row_of_spec in R as [? ?]. apply lease_row_of_spec. by rewrite <- S1, <- S2.
    + lia.
  - split; [lia|]. intros (l & Hl & T). rewrite E in Hl. apply Hd. by exists l.
Qed.

(** a lost tenancy stays lost: once the token -- of any generation the
    sequence has drawn -- no longer names its row, after whatever further
    claims, renewals, releases and commits it can neither renew, nor release a
    successor, nor pass the commit's fence. *)
Theorem dead_token_stays_dead lease d d' c ttl ms env op :
  ls_generation lease <= compaction_lease_generation_seq (seqs d) -> ~ token_live lease d ->
  rtc lease_step d d' -> ttl_millis ttl = Ok ms ->
  (renew_compaction_lease c lease ttl d').1 = Ok None /\
  (release_compaction_lease lease d').1 = false /\
  ~ fence_holds env (ls_hypertable_id lease) lease op (tables d').
Proof.
  intros Hg Hd Hs T.
  assert (D : ls_generation lease <= compaction_lease_generation_seq (seqs d') /\ ~ token_live lease d').
  { clear T. induction Hs as [|x y z S _ IH]; [done|].
    destruct (dead_token_step lease x y Hg Hd S). auto. }
  destruct D as [_ D].
  assert (N : forall l, l ∈ compaction_leases (tables d') -> token_row lease l = false).
  { intros l Hl. destruct (token_row lease l) eqn:E; [|done]. destruct D. by exists l. }
  split_and!.
  - unfold renew_compaction_lease. rewrite T. simpl. f_equal.
    destruct (List.find _ _) as [l|] eqn:F; [|done]. apply List.find_some in F as [Hl F].
    apply list_elem_of_In in Hl. rewrite (N l Hl) in F. done.
  - unfold release_compaction_lease. simpl.
    destruct (List.filter (token_row lease) _) as [|l ls] eqn:F; [done|].
    assert (Hl : l ∈ List.filter (token_row lease) (compaction_leases (tables d'))) by (rewrite F; left).
    apply filter_In_iff in Hl as [Hl Tl]. by rewrite (N l Hl) in Tl.
  - intros (_ & (l & Fl & O & G & _) & _). apply find_lease_Some in Fl as (Hl & Hh & Hp).
    assert (token_row lease l = true); [|by rewrite (N l Hl) in *].
    apply token_row_spec. split_and!; [by apply lease_row_of_spec|done..].
Qed.

(** *** Mutual exclusion *)

(** An operation of another worker, all of whose readings precede [until]. *)
Definition foreign (me until : Z) (o : lease_op) : Prop :=
  match o with
  | OpAcquire c _ _ owner _ => owner <> me /\ at_where c < until
  | OpRenew _ lease _ => ls_owner_id lease <> me
  | OpRelease lease => ls_owner_id lease <> me
  end.

Inductive foreign_step (me until : Z) : DbState -> DbState -> Prop :=
| foreign_op o d : foreign me until o -> foreign_step me until d (run_op o d)
| foreign_other d d' :
    compaction_leases (tables d') = compaction_leases (tables d) -> foreign_step me until d d'.

Lemma find_map_id {A} (g : A -> bool) (h : A -> A) l x :
  (forall y, g (h y) = g y) -> h x = x -> List.find g l = Some x -> List.find g (List.map h l) = Some x.
Proof. intros Hg Hx F. rewrite find_map, F by done. simpl. by rewrite Hx. Qed.

Lemma foreign_keeps me until d d' ht p l :
  foreign_step me until d d' -> find_lease (tables d) ht p = Some l ->
  l_owner l = me -> until <= l_expires_at l -> find_lease (tables d') ht p = Some l.
Proof.
  intros St F O X. destruct St as [o d0 Fo|d0 d1 E]; [|by unfold find_lease in *; rewrite E].
  pose proof (find_lease_Some _ _ _ _ F) as (_ & Lh & Lp).
  destruct o as [c ht' p' owner ttl|c lease ttl|lease]; simpl in *.
  - destruct Fo as [Ho Hc]. unfold try_acquire_compaction_lease.
    destruct (ttl_millis ttl) as [ms|]; [|done]. simpl.
    destruct (find_lease (tables d0) ht' p') as [row|] eqn:F'.
    + destruct ((l_expires_at row <=? at_where c) || (l_owner row =? owner)) eqn:B; simpl; [|done].
      unfold find_lease, map_lease in *. simpl. apply find_map_id; [| |done].
      * intros y. destruct (lease_row_of ht' p' y); [|done]. done.
      * destruct (lease_row_of ht' p' l) eqn:R; [|done]. exfalso.
        (* the claimed partition is ours: its first row is [l] *)
        assert (Er : row = l).
        { apply lease_row_of_spec in R as [R1 R2].
          assert (Ext : forall y, lease_row_of ht' p' y = lease_row_of ht p y).
          { intros y. unfold lease_row_of. rewrite <- R1, Lh. f_equal.
            apply Bool.eq_true_iff_eq. split; intros J.
            - eapply jsonb_trans; [exact J|]. eapply jsonb_trans; [rewrite jsonb_sym; exact R2|done].
            - eapply jsonb_trans; [exact J|]. eapply jsonb_trans; [rewrite jsonb_sym; exact Lp|done]. }
          unfold find_lease in *. rewrite (find_ext _ _ _ Ext) in F'. congruence. }
        subst row. apply orb_true_iff in B as [B|B]; boolp; [lia|congruence].
    + destruct (List.existsb _ _); simpl; [|done]. unfold find_lease in *. simpl.
      by rewrite find_app, F.
  - unfold renew_compaction_lease. destruct (ttl_millis ttl) as [ms|]; [|done].
    unfold find_lease in *. simpl. apply find_map_id; [| |done].
    + intros y. by destruct (_ && _).
    + destruct (token_row lease l) eqn:T; simpl; [|done].
      apply token_row_spec in T as (_ & T & _). congruence.
  - unfold find_lease in *. simpl. apply find_filter_Some; [done|].
    destruct (token_row lease l) eqn:T; [|done]. apply token_row_spec in T as (_ & T & _). congruence.
Qed.

(** C11: tenancies never overlap: until a lease expires by PostgreSQL's clock, and
    unless its holder gives it up, nothing the other workers do takes or
    alters it, and each of their claims on the partition answers [None]. *)
Theorem lease_is_exclusive me d d' ht p l c owner ttl ms :
  find_lease (tables d) ht p = Some l -> l_owner l = me ->
  rtc (foreign_step me (l_expires_at l)) d d' ->
  owner <> me -> ttl_millis ttl = Ok ms -> at_where c < l_expires_at l ->
  find_lease (tables d') ht p = Some l /\
  (try_acquire_compaction_lease c ht p owner ttl d').1 = Ok None.
Proof.
  intros F O Hs Ho T X.
  assert (F' : find_lease (tables d') ht p = Some l).
  { clear T. induction Hs as [|x y z S _ IH]; [done|]. apply IH.
    eapply foreign_keeps; [exact S|done|done|lia]. }
  split; [done|]. unfold try_acquire_compaction_lease. rewrite T. simpl. rewrite F'.
  destruct (Z.leb_spec (l_expires_at l) (at_where c)); [lia|].
  destruct (Z.eqb_spec (l_owner l) owner); [congruence|done].
Qed.

(** *** The leases stay well formed *)

Lemma leases_wf_map d d' f :
  leases_wf d ->
  (forall l, l_hypertable (f l) = l_hypertable l /\ l_partition (f l) = l_partition l /\
     (l_generation (f l) = l_generation l \/
      l_generation (f l) = compaction_lease_generation_seq (seqs d) + 1)) ->
  compaction_leases (tables d') = List.map f (compaction_leases (tables d)) ->
  (exists k, compaction_lease_generation_seq (seqs d') = compaction_lease_generation_seq (seqs d) + k /\
     0 <= k /\ (k = 0 -> forall l, l_generation (f l) = l_generation l)) ->
  leases_wf d'.
Proof.
  intros W Hf E (k & K & K0 & K1). pose proof (lw_seq d W). split; rewrite ?E, ?K; [| |lia].
  - intros i j l1 l2. change (List.map f) with (fmap (M:=list) f). rewrite !list_lookup_fmap.
    destruct (_ !! i) as [a|] eqn:Hi; simpl; [|done]. destruct (_ !! j) as [b|] eqn:Hj; simpl; [|done].
    intros [= <-] [= <-]. destruct (Hf a) as (A1 & A2 & _), (Hf b) as (B1 & B2 & _).
    unfold lease_row_of. rewrite A1, A2, B1, B2. intros R. by eapply (lw_unique d W i j).
  - intros l (a & <- & Ha)%list_elem_of_In%List.in_map_iff. apply list_elem_of_In, (lw_generation d W) in Ha.
    destruct (Hf a) as (_ & _ & [G|G]); rewrite ?G; [lia|].
    destruct (Z.eq_dec k 0) as [->|]; [rewrite (K1 eq_refl) in G; lia|lia].
Qed.

Lemma leases_wf_snoc d d' row :
  leases_wf d -> find_lease (tables d) (l_hypertable row) (l_partition row) = None ->
  compaction_leases (tables d') = compaction_leases (tables d) ++ [row] ->
  l_generation row = compaction_lease_generation_seq (seqs d) + 1 ->
  compaction_lease_generation_seq (seqs d') = compaction_lease_generation_seq (seqs d) + 1 ->
  leases_wf d'.
Proof.
  intros W F E G S. pose proof (lw_seq d W). split; rewrite ?E, ?S; [| |lia].
  - assert (New : forall i l, compaction_leases (tables d) !! i = Some l ->
      lease_row_of (l_hypertable row) (l_partition row) l = true -> False).
    { intros i l Hi R. apply list_elem_of_lookup_2 in Hi.
      rewrite (find_lease_None _ _ _ F l Hi) in R. done. }
    intros i j l1 l2 Hi Hj R.
    apply lookup_app_Some in Hi as [Hi|[Hi1 Hi]], Hj as [Hj|[Hj1 Hj]].
    + by eapply (lw_unique d W).
    + apply list_lookup_singleton_Some in Hj as [Hj ->]. by destruct (New i l1 Hi).
    + apply list_lookup_singleton_Some in Hi as [Hi ->]. destruct (New j l2 Hj).
      unfold lease_row_of in *. rewrite Z.eqb_sym, jsonb_sym. done.
    + apply list_lookup_singleton_Some in Hi as [Hi ->]. apply list_lookup_singleton_Some in Hj as [Hj ->].
      lia.
  - intros l [Hl| ->%list_elem_of_singleton]%elem_of_app; [|lia]. apply (lw_generation d W) in Hl. lia.
Qed.

Lemma leases_wf_filter d f :
  leases_wf d ->
  leases_wf (mkDb (with_leases (tables d) (List.filter f (compaction_leases (tables d)))) (seqs d)).
Proof.
  intros W. split; simpl; [| |apply W].
  - pose proof (lw_unique d W) as U. clear W. revert U.
    induction (compaction_leases (tables d)) as [|x xs IH]; simpl; intros U.
    + intros i j l1 l2 Hi. by destruct i.
    + assert (Uxs : forall i j l1 l2, xs !! i = Some l1 -> xs !! j = Some l2 ->
        lease_row_of (l_hypertable l2) (l_partition l2) l1 = true -> i = j).
      { intros i j l1 l2 Hi Hj R. enough (S i = S j) by lia. by eapply (U (S i) (S j)). }
      assert (Ux : forall l, l ∈ xs -> lease_row_of (l_hypertable x) (l_partition x) l = true -> False).
      { intros l [i Hi]%list_elem_of_lookup R. by specialize (U (S i) 0%nat l x Hi eq_refl R). }
      specialize (IH Uxs). destruct (f x); [|done].
      intros [|i] [|j] l1 l2; simpl; intros Hi Hj R; [done| | |f_equal; by eapply IH].
      * injection Hi as ->. apply list_elem_of_lookup_2, filter_In_iff in Hj as [Hj _].
        destruct (Ux l2 Hj). unfold lease_row_of in *. rewrite Z.eqb_sym, jsonb_sym. done.
      * injection Hj as ->. apply list_elem_of_lookup_2, filter_In_iff in Hi as [Hi _].
        by destruct (Ux l1 Hi).
  - intros l [Hl _]%filter_In_iff. by apply (lw_generation d W).
Qed.

Lemma lease_ops_wf o d : leases_wf d -> leases_wf (run_op o d).
Proof.
  intros W. destruct o as [c ht p owner ttl|c lease ttl|lease]; simpl.
  - unfold try_acquire_compaction_lease. destruct (ttl_millis ttl) as [ms|]; [|done]. simpl.
    assert (Burn : leases_wf (mkDb (tables d) (nextval_generation (seqs d)).2)).
    { apply (leases_wf_map d _ (fun l => l) W); [by auto|by rewrite List.map_id|].
      exists 1. simpl. split; [done|]. split; [lia|intros K; lia]. }
    destruct (find_lease _ _ _) as [row|] eqn:F; [destruct (_ || _)|destruct (List.existsb _ _)]; try done.
    + eapply (leases_wf_map d); [done| |reflexivity|].
      * intros l. simpl. destruct (lease_row_of ht p l); simpl; [|by auto]. split_and!; try done.
        destruct (_ && _); auto.
      * exists 1. simpl. split; [done|]. split; [lia|intros K; lia].
    + apply (leases_wf_snoc d _ (mkLeaseRow ht p owner (compaction_lease_generation_seq (seqs d) + 1)
                                    (at_values c + interval ms)) W F); reflexivity.
  - unfold renew_compaction_lease. destruct (ttl_millis ttl) as [ms|]; [|done].
    eapply (leases_wf_map d); [done| |reflexivity|].
    + intros l. simpl. destruct (_ && _); by auto.
    + exists 0. rewrite Z.add_0_r. split; [done|]. split; [lia|]. intros _ l. simpl. by destruct (_ && _).
  - by apply leases_wf_filter.
Qed.

(** every lease operation keeps at most one row per partition (up to [jsonb]
    equality), of a positive generation the sequence has drawn. *)
Theorem lease_ops_preserve_wf o d : leases_wf d -> leases_wf (run_op o d).
Proof. apply lease_ops_wf. Qed.
End leases.

End Leases.

(** ** Leases at work *)

Module LeaseExamples.
Import Leases CommitExamples.

Definition at_ (t : Z) : ClaimClock := mkClaimClock t t t.
Definition second : Z := 1000000000.

Definition claim1 := try_acquire_compaction_lease (at_ 0) 1 day 77 second db1.
Definition d1 : DbState := claim1.2.
Definition row1 : LeaseRow := mkLeaseRow 1 day 77 1 1000000.

Example claim1_granted : claim1.1 = Ok (Some (mkLease 1 day 77 1 1000000)).
Proof. vm_compute. reflexivity. Qed.
Example taken_over :
  (try_acquire_compaction_lease (at_ 1000000) 1 day 78 second d1).1 = Ok (Some (mkLease 1 day 78 2 2000000)).
Proof. vm_compute. reflexivity. Qed.

Lemma db1_leases_wf : leases_wf db1.
Proof.
  split; [intros i j l1 l2 Hi; by destruct i| |vm_compute; discriminate].
  intros l Hl. by apply elem_of_nil in Hl.
Qed.

Lemma d1_leases_wf : leases_wf d1.
Proof. unfold d1. apply (lease_ops_wf (OpAcquire (at_ 0) 1 day 77 second) db1), db1_leases_wf. Qed.

Lemma ttl_millis_spec_witness : ttl_millis 999999 = Err (InvalidLeaseTtl "must be greater than zero").
Proof. apply (ttl_millis_spec 999999 0); lia. Defined.

Lemma acquire_spec_witness :
  (try_acquire_compaction_lease (at_ 5) 1 day 78 second d1).1 = Ok None.
Proof.
  pose proof (acquire_spec (at_ 5) 1 day 78 second 1000 d1 _ _ d1_leases_wf eq_refl
    (surjective_pairing (try_acquire_compaction_lease (at_ 5) 1 day 78 second d1))) as A.
  replace (find_lease (tables d1) 1 day) with (Some row1) in A by (vm_compute; reflexivity).
  exact (proj1 A).
Defined.

Definition old_token : CompactionLease := mkLease 1 day 77 1 1000000.
Definition taken : DbState := run_op (OpAcquire (at_ 1000000) 1 day 78 second) d1.

Lemma taken_dead :
  ls_generation old_token <= compaction_lease_generation_seq (seqs taken) /\ ~ token_live old_token taken.
Proof.
  split; [vm_compute; discriminate|].
  assert (E : compaction_leases (tables taken) = [mkLeaseRow 1 day 78 2 2000000])
    by (vm_compute; reflexivity).
  intros (l & Hl & T). rewrite E in Hl. apply list_elem_of_singleton in Hl as ->. discriminate T.
Qed.

Lemma dead_token_stays_dead_witness :
  (release_compaction_lease old_token (run_op (OpRelease (mkLease 1 day 78 2 2000000)) taken)).1 = false.
Proof.
  apply (dead_token_stays_dead old_token taken _ (at_ 0) second 1000 (quiet 0) (Add [])
    (proj1 taken_dead) (proj2 taken_dead)
    (rtc_once _ _ (step_op (OpRelease (mkLease 1 day 78 2 2000000)) taken)) eq_refl).
Defined.

Definition contended : DbState := run_op (OpAcquire (at_ 10) 1 day 78 second) d1.

Lemma d1_row : find_lease (tables d1) 1 day = Some row1.
Proof. vm_compute. reflexivity. Qed.

Lemma lease_is_exclusive_witness :
  find_lease (tables contended) 1 day = Some row1 /\
  (try_acquire_compaction_lease (at_ 20) 1 day 79 second contended).1 = Ok None.
Proof.
  apply (lease_is_exclusive 77 d1 contended 1 day row1 (at_ 20) 79 second 1000 d1_row eq_refl).
  - apply rtc_once. unfold contended. apply (foreign_op 77 1000000 (OpAcquire (at_ 10) 1 day 78 second) d1).
    split; [discriminate|reflexivity].
  - discriminate.
  - reflexivity.
  - reflexivity.
Defined.

Lemma lease_ops_preserve_wf_witness : leases_wf (run_op (OpRelease (mkLease 1 day 77 1 1000000)) d1).
Proof. apply (lease_ops_preserve_wf (OpRelease (mkLease 1 day 77 1 1000000)) d1 d1_leases_wf). Defined.

End LeaseExamples.
