(* ===== verification/Feed.v ===== *)
(** * The change feed (crates/ukiel-catalog/src/feed.rs, cursors.rs)

    Cursors, the feed head and the ordered feed as functions of the tables; the
    advisory-lock barrier between writers and feed readers as a step relation
    in [Barrier]. *)

From S2P Require Import Prelude Bytes Json Types CatalogError CatalogDb Commit CommitSpec CommitHistory CommitExamples.
Import CatalogError CatalogDb Commit CommitSpec CommitTheorems CommitHistory CommitExamples.

Module Feed.

(** ** Cursors (cursors.rs) *)

Definition get_cursor (t : Tables) (worker : string) (ht : HypertableId) : CommitId :=
  default 0 (worker_cursors t !! (worker, ht)).

(** The upsert that never retreats (the hypertable is a foreign key). *)
Definition set_cursor (worker : string) (ht : HypertableId) (cursor : CommitId) (d : DbState)
  : result unit CatalogError * DbState :=
  let t := tables d in
  match worker_cursors t !! (worker, ht) with
  | None =>
      if List.existsb (fun h => ht_id h =? ht) (hypertables t)
      then (Ok tt, mkDb (with_cursors t (<[(worker, ht) := cursor]> (worker_cursors t))) (seqs d))
      else (Err (Db (Database (Some "23503"))), d)
  | Some last =>
      (Ok tt, if last <? cursor
              then mkDb (with_cursors t (<[(worker, ht) := cursor]> (worker_cursors t))) (seqs d)
              else d)
  end.

(** [SELECT max(id) FROM commits WHERE hypertable_id = $1], [0] when empty. *)
Definition commit_ids (t : Tables) (ht : HypertableId) : list CommitId :=
  List.map c_id (List.filter (fun c => c_hypertable c =? ht) (commits t)).

Definition max_id (ids : list Z) : option Z :=
  match ids with [] => None | x :: xs => Some (List.fold_left Z.max xs x) end.

Definition feed_head (t : Tables) (ht : HypertableId) : CommitId :=
  default 0 (max_id (commit_ids t ht)).

Definition feed_lags (t : Tables) : list (string * HypertableId * Z) :=
  List.map (fun '((worker, ht), last) =>
    (worker, ht, Z.max (default 0 (max_id (commit_ids t ht)) - last) 0))
    (map_to_list (worker_cursors t)).

(** ** The feed *)

Definition commit_le (a b : CommitRow) : Prop := c_id a <= c_id b.
#[global] Instance commit_le_dec a b : Decision (commit_le a b).
Proof. unfold commit_le; apply _. Defined.
#[global] Instance commit_le_total : Total commit_le.
Proof. intros a b; unfold commit_le; lia. Qed.
#[global] Instance commit_le_trans : Transitive commit_le.
Proof. intros a b c; unfold commit_le; lia. Qed.

Definition row_id_le (a b : PartRow) : Prop := pr_id a <= pr_id b.
#[global] Instance row_id_le_dec a b : Decision (row_id_le a b).
Proof. unfold row_id_le; apply _. Defined.
#[global] Instance row_id_le_total : Total row_id_le.
Proof. intros a b; unfold row_id_le; lia. Qed.
#[global] Instance row_id_le_trans : Transitive row_id_le.
Proof. intros a b c; unfold row_id_le; lia. Qed.

(** [SELECT ... ORDER BY id] over part rows. *)
Definition select_parts (f : PartRow -> bool) (t : Tables) : list PartRow :=
  merge_sort row_id_le (List.filter f (parts t)).

Definition event_of (t : Tables) (c : CommitRow) : ChangeEvent :=
  mkChangeEvent (c_id c) (c_kind c)
    (List.map part_of_row (select_parts (fun r => pr_created_by r =? c_id c) t))
    (List.map pr_id (select_parts (fun r => bool_decide (pr_deleted_by r = Some (c_id c))) t)).

(** The commits after [after] up to [head], oldest first ([LIMIT] cuts it; a
    negative one is an error of the statement). *)
Definition feed_commits (t : Tables) (ht : HypertableId) (after head : CommitId) : list CommitRow :=
  merge_sort commit_le
    (List.filter (fun c => (c_hypertable c =? ht) && (after <? c_id c) && (c_id c <=? head)) (commits t)).

Definition changes_since (t : Tables) (ht : HypertableId) (after : CommitId) (limit : Z)
  : result (list ChangeEvent) CatalogError :=
  if limit <? 0 then Err (Db (Database (Some "2201W")))
  else Ok (List.map (event_of t)
             (firstn (Z.to_nat limit) (feed_commits t ht after (feed_head t ht)))).

(** ** Theorems *)

(** a worker's cursor never retreats: setting it leaves exactly the larger of
    the stored and the offered position, a stale or replayed write changes
    nothing at all, and no other cursor moves. *)
Theorem cursor_never_retreats worker ht cursor d d' :
  set_cursor worker ht cursor d = (Ok tt, d') ->
  match worker_cursors (tables d) !! (worker, ht) with
  | Some last => worker_cursors (tables d') !! (worker, ht) = Some (Z.max last cursor) /\
                 (cursor <= last -> d' = d)
  | None => worker_cursors (tables d') !! (worker, ht) = Some cursor
  end /\
  forall k, k <> (worker, ht) -> worker_cursors (tables d') !! k = worker_cursors (tables d) !! k.
Proof.
  unfold set_cursor. destruct (worker_cursors (tables d) !! (worker, ht)) as [last|] eqn:L.
  - intros [= <-]. destruct (Z.ltb_spec last cursor); simpl.
    + rewrite lookup_insert_eq, Z.max_r by lia. split; [split; [done|lia]|].
      intros k Hk. by rewrite lookup_insert_ne.
    + rewrite L, Z.max_l by lia. done.
  - destruct (List.existsb _ _); intros [= <-]. simpl. rewrite lookup_insert_eq. split; [done|].
    intros k Hk. by rewrite lookup_insert_ne.
Qed.

Lemma max_id_spec ids m : max_id ids = Some m -> m ∈ ids /\ forall x, x ∈ ids -> x <= m.
Proof.
  destruct ids as [|x xs]; simpl; [done|]. intros [= <-]. revert x.
  induction xs as [|y ys IH]; intros x; simpl.
  - split; [left|]. intros z [->|?%elem_of_nil]%elem_of_cons; [lia|done].
  - destruct (IH (Z.max x y)) as [I M]. split.
    + apply elem_of_cons in I as [->|I]; [|by do 2 right].
      destruct (Z.max_spec x y) as [[_ ->]|[_ ->]]; [right; left|left].
    + intros z [->|[->|Hz]%elem_of_cons]%elem_of_cons; [| |by apply M; right];
        (etransitivity; [|apply M; left]); lia.
Qed.

Lemma commit_ids_In t ht id :
  id ∈ commit_ids t ht <-> exists c, c ∈ commits t /\ c_hypertable c = ht /\ c_id c = id.
Proof.
  unfold commit_ids. rewrite list_elem_of_In, List.in_map_iff. split.
  - intros (c & <- & Hc%list_elem_of_In%filter_In_iff). exists c. rewrite Z.eqb_eq in Hc. tauto.
  - intros (c & Hc & Hh & <-). exists c. split; [done|]. apply list_elem_of_In, filter_In_iff. by rewrite Z.eqb_eq.
Qed.

Lemma feed_head_bound d ht c :
  db_wf d -> c ∈ commits (tables d) -> c_hypertable c = ht -> c_id c <= feed_head (tables d) ht.
Proof.
  intros W Hc Hh. unfold feed_head. destruct (max_id (commit_ids (tables d) ht)) as [m|] eqn:M; simpl.
  - apply max_id_spec in M as [_ M]. apply M, commit_ids_In. eauto.
  - destruct (commit_ids (tables d) ht) as [|x xs] eqn:E; [|done].
    assert (c_id c ∈ commit_ids (tables d) ht) as Hin by (apply commit_ids_In; eauto).
    rewrite E in Hin. by apply elem_of_nil in Hin.
Qed.

Lemma feed_commits_In t ht after head c :
  c ∈ feed_commits t ht after head <->
  c ∈ commits t /\ c_hypertable c = ht /\ after < c_id c <= head.
Proof.
  unfold feed_commits. rewrite (merge_sort_Permutation commit_le), filter_In_iff.
  rewrite !andb_true_iff, Z.eqb_eq, Z.ltb_lt, Z.leb_le. tauto.
Qed.

Lemma feed_commits_NoDup d ht after head :
  db_wf d -> NoDup (List.map c_id (feed_commits (tables d) ht after head)).
Proof.
  intros W. unfold feed_commits.
  assert (P : List.map c_id (merge_sort commit_le
    (List.filter (fun c => (c_hypertable c =? ht) && (after <? c_id c) && (c_id c <=? head)) (commits (tables d))))
    ≡ₚ List.map c_id (List.filter (fun c => (c_hypertable c =? ht) && (after <? c_id c) && (c_id c <=? head))
         (commits (tables d)))).
  { apply Permutation_map, merge_sort_Permutation. }
  rewrite P. apply NoDup_map_filter, W.
Qed.

Lemma feed_commits_sorted t ht after head : StronglySorted commit_le (feed_commits t ht after head).
Proof. apply (StronglySorted_merge_sort commit_le). Qed.

(** Distinct ids in ascending order: each page starts strictly after the last. *)
Lemma sorted_strict (l : list CommitRow) :
  StronglySorted commit_le l -> NoDup (List.map c_id l) ->
  StronglySorted (fun a b => c_id a < c_id b) l.
Proof.
  induction 1 as [|c l S IH F]; simpl; intros N; constructor; apply NoDup_cons in N as [N1 N2]; [by apply IH|].
  rewrite Forall_forall in *. intros x Hx. specialize (F x Hx). unfold commit_le in F.
  destruct (Z.eq_dec (c_id c) (c_id x)) as [E|]; [|lia]. exfalso. apply N1. rewrite E.
  by apply list_elem_of_In, List.in_map, list_elem_of_In.
Qed.

Lemma feed_commits_strict d ht after head :
  db_wf d -> StronglySorted (fun a b => c_id a < c_id b) (feed_commits (tables d) ht after head).
Proof. intros W. apply sorted_strict; [apply feed_commits_sorted|by apply feed_commits_NoDup]. Qed.

(** *** Paging *)

(** A consumer's loop: page after page, the cursor moving to each page's last
    commit, until a page comes back empty. *)
Fixpoint poll (fuel : nat) (t : Tables) (ht : HypertableId) (after : CommitId) (limit : Z)
  : list ChangeEvent :=
  match fuel with
  | O => []
  | S fuel =>
      match changes_since t ht after limit with
      | Ok (e :: es) =>
          (e :: es) ++ poll fuel t ht (ev_commit_id (List.last (e :: es) e)) limit
      | _ => []
      end
  end.

Lemma strict_split l1 c l2 :
  StronglySorted (fun a b => c_id a < c_id b) (l1 ++ c :: l2) ->
  (forall x, x ∈ l1 -> c_id x <= c_id c) /\ (forall x, x ∈ l2 -> c_id c < c_id x) /\
  StronglySorted (fun a b => c_id a < c_id b) l2.
Proof.
  induction l1 as [|y l1 IH]; simpl; inversion 1 as [|? ? S F]; subst.
  - rewrite Forall_forall in F. split; [by intros x ?%elem_of_nil|]. by split.
  - destruct (IH S) as (A & B & C). split_and!; [|done|done].
    intros x [->|Hx]%elem_of_cons; [|by apply A]. rewrite Forall_forall in F.
    specialize (F c ltac:(set_solver)). lia.
Qed.

(** The feed after a commit of the feed is the rest of the feed. *)
Lemma feed_commits_after d ht after head l1 c l2 :
  db_wf d -> feed_commits (tables d) ht after head = l1 ++ c :: l2 ->
  feed_commits (tables d) ht (c_id c) head = l2.
Proof.
  intros W E. pose proof (feed_commits_strict d ht after head W) as S. rewrite E in S.
  destruct (strict_split _ _ _ S) as (A & B & S2).
  pose proof (feed_commits_strict d ht (c_id c) head W) as S3.
  assert (Mem : forall x, x ∈ feed_commits (tables d) ht (c_id c) head <-> x ∈ l2).
  { intros x. rewrite feed_commits_In. split.
    - intros (Hx & Hh & Hi).
      assert (Hc : c ∈ feed_commits (tables d) ht after head) by (rewrite E; set_solver).
      apply feed_commits_In in Hc as (_ & _ & Hc).
      assert (Hx' : x ∈ feed_commits (tables d) ht after head) by (apply feed_commits_In; split_and!; done || lia).
      rewrite E in Hx'. apply elem_of_app in Hx' as [Hx'|[->|Hx']%elem_of_cons]; [|lia|done].
      apply A in Hx'. lia.
    - intros Hx. assert (Hx' : x ∈ feed_commits (tables d) ht after head) by (rewrite E; set_solver).
      apply feed_commits_In in Hx' as (? & ? & ?). apply B in Hx. split_and!; done || lia. }
  apply (StronglySorted_unique_strong (fun a b => c_id a < c_id b)); [|done|done|].
  - intros x y _ _ ? ?. lia.
  - apply NoDup_Permutation; [| |done].
    + by apply (NoDup_fmap_1 c_id), feed_commits_NoDup.
    + pose proof (feed_commits_NoDup d ht after head W) as N. rewrite E in N.
      apply (NoDup_fmap_1 c_id) in N. apply NoDup_app in N as (_ & _ & N). by apply NoDup_cons in N as [_ N].
Qed.

Lemma poll_complete d ht limit fuel : forall after,
  db_wf d -> 0 < limit ->
  (length (feed_commits (tables d) ht after (feed_head (tables d) ht)) < fuel)%nat ->
  poll fuel (tables d) ht after limit
  = List.map (event_of (tables d)) (feed_commits (tables d) ht after (feed_head (tables d) ht)).
Proof.
  induction fuel as [|fuel IH]; intros after W L Hf; [lia|]. cbn [poll].
  unfold changes_since. destruct (Z.ltb_spec limit 0); [lia|].
  set (l := feed_commits _ _ _ _) in *. set (n := Z.to_nat limit).
  assert (Hn : (0 < n)%nat) by (unfold n; lia).
  destruct (firstn n l) as [|c p] eqn:P; cbn [List.map].
  { destruct l as [|x l']; [done|]. destruct n; [lia|done]. }
  change (event_of (tables d) c :: List.map (event_of (tables d)) p)
    with (List.map (event_of (tables d)) (c :: p)).
  destruct (exists_last (l := c :: p) ltac:(done)) as (p1 & z & Ez).
  assert (Elast : List.last (List.map (event_of (tables d)) (c :: p)) (event_of (tables d) c)
                  = event_of (tables d) z).
  { rewrite Ez, List.map_app. simpl. apply List.last_last. }
  rewrite Elast. simpl ev_commit_id.
  assert (El : l = p1 ++ z :: skipn n l).
  { rewrite <- (firstn_skipn n l) at 1. rewrite P, Ez, <- app_assoc. done. }
  pose proof (feed_commits_after d ht after _ p1 z (skipn n l) W El) as Ef.
  rewrite IH; [|done|done|].
  - rewrite Ef. rewrite El at 2. rewrite <- List.map_app, Ez, <- app_assoc. done.
  - rewrite Ef. rewrite El, length_app in Hf. simpl in Hf. lia.
Qed.

(** the feed delivers everything once: paging with any positive limit, from
    any position, yields exactly the hypertable's commits past that position,
    each once, in ascending order -- and stops. *)
Theorem paging_delivers_all d ht after limit :
  db_wf d -> 0 < limit ->
  exists fuel, forall fuel', (fuel <= fuel')%nat ->
    let evs := poll fuel' (tables d) ht after limit in
    StronglySorted (fun a b => ev_commit_id a < ev_commit_id b) evs /\
    (forall e, e ∈ evs <-> exists c, c ∈ commits (tables d) /\ c_hypertable c = ht /\ after < c_id c /\
       e = event_of (tables d) c).
Proof.
  intros W L. exists (S (length (feed_commits (tables d) ht after (feed_head (tables d) ht)))).
  intros fuel' Hf evs. unfold evs. rewrite (poll_complete d ht limit fuel' after W L Hf).
  split.
  - pose proof (feed_commits_strict d ht after (feed_head (tables d) ht) W) as S.
    clear evs Hf. induction S as [|c l S IH F]; simpl; [constructor|]. constructor; [done|].
    rewrite Forall_forall in F. apply Forall_forall. intros e (c' & <- & Hc')%list_elem_of_In%List.in_map_iff. simpl.
    apply F. by apply list_elem_of_In.
  - intros e. rewrite list_elem_of_In, List.in_map_iff. split.
    + intros (c & <- & Hc%list_elem_of_In%feed_commits_In). exists c. destruct_and!. by split_and!.
    + intros (c & Hc & Hh & Ha & ->). exists c. split; [done|]. apply list_elem_of_In, feed_commits_In.
      split_and!; try done. by apply feed_head_bound.
Qed.

(** *** Replaying the feed *)

(** What a consumer that keeps the set of live parts does with an event. *)
Definition apply_event (s : gset PartId) (e : ChangeEvent) : gset PartId :=
  (s ∖ list_to_set (removed e)) ∪ list_to_set (List.map part_id (added e)).

Definition live_ids (t : Tables) (ht : HypertableId) : gset PartId :=
  list_to_set (List.map pr_id (live_rows ht t)).

Lemma event_added t c x :
  x ∈ List.map part_id (added (event_of t c)) <->
  exists r, r ∈ parts t /\ pr_id r = x /\ pr_created_by r = c_id c.
Proof.
  simpl. rewrite List.map_map. simpl. rewrite list_elem_of_In, List.in_map_iff.
  split; intros (r & A & B); exists r.
  - apply list_elem_of_In in B. unfold select_parts in B.
    rewrite (merge_sort_Permutation row_id_le), filter_In_iff, Z.eqb_eq in B. naive_solver.
  - destruct B as [<- B]. split; [done|]. apply list_elem_of_In. unfold select_parts.
    rewrite (merge_sort_Permutation row_id_le), filter_In_iff, Z.eqb_eq. done.
Qed.

Lemma event_removed t c x :
  x ∈ removed (event_of t c) <->
  exists r, r ∈ parts t /\ pr_id r = x /\ pr_deleted_by r = Some (c_id c).
Proof.
  simpl. rewrite list_elem_of_In, List.in_map_iff. split; intros (r & A & B); exists r.
  - apply list_elem_of_In in B. unfold select_parts in B.
    rewrite (merge_sort_Permutation row_id_le), filter_In_iff, bool_decide_eq_true in B. naive_solver.
  - destruct B as [<- B]. split; [done|]. apply list_elem_of_In. unfold select_parts.
    rewrite (merge_sort_Permutation row_id_le), filter_In_iff, bool_decide_eq_true. done.
Qed.

Definition alive_after (d : DbState) (ids : list CommitId) (x : PartId) : Prop :=
  exists r, r ∈ parts (tables d) /\ pr_id r = x /\ pr_created_by r ∈ ids /\
    forall c, pr_deleted_by r = Some c -> c ∉ ids.

Lemma replay_prefix d l x :
  db_wf d -> StronglySorted (fun a b => c_id a < c_id b) l ->
  x ∈ List.fold_left apply_event (List.map (event_of (tables d)) l) ∅ <->
  alive_after d (List.map c_id l) x.
Proof.
  intros W. induction l as [|c l IH] using rev_ind; intros S.
  { split; [by intros ?%elem_of_empty|]. by intros (r & _ & _ & ?%elem_of_nil & _). }
  assert (S' : StronglySorted (fun a b => c_id a < c_id b) l /\ forall y, y ∈ l -> c_id y < c_id c).
  { clear IH. induction l as [|y l IHl]; simpl in *; [split; [constructor|by intros y ?%elem_of_nil]|].
    apply StronglySorted_inv in S as [S F]. destruct (IHl S) as [S1 S2].
    apply Forall_app in F as [F1 F2]. apply Forall_cons in F2 as [F2 _]. split; [by constructor|].
    intros z [->|Hz]%elem_of_cons; auto. }
  destruct S' as [S1 S2]. rewrite !List.map_app, List.fold_left_app. simpl.
  unfold apply_event at 1. rewrite elem_of_union, elem_of_difference, !elem_of_list_to_set.
  rewrite event_added, event_removed, (IH S1). unfold alive_after.
  assert (Old : forall i, i ∈ List.map c_id l -> i < c_id c).
  { intros i (y & <- & Hy)%list_elem_of_In%List.in_map_iff. by apply S2, list_elem_of_In. }
  split.
  - intros [[(r & Hr & E & Hc & Hd) Hn]|(r & Hr & E & Hc)]; exists r; split_and!; try done.
    + apply elem_of_app. by left.
    + intros i Hi [Hin| ->%list_elem_of_singleton]%elem_of_app; [by eapply Hd|]. apply Hn. eauto.
    + apply elem_of_app. right. by apply list_elem_of_singleton.
    + intros i Hi. destruct (wf_deleted d W r i Hr Hi) as [Lt _].
      intros [Hin%Old| ->%list_elem_of_singleton]%elem_of_app; lia.
  - intros (r & Hr & E & Hc & Hd). apply elem_of_app in Hc as [Hc|Hc%list_elem_of_singleton].
    + left. split.
      * exists r. split_and!; try done. intros i Hi Hin. apply (Hd i Hi), elem_of_app. by left.
      * intros (r' & Hr' & E' & Hd').
        assert (r' = r) as -> by (eapply (NoDup_map_inj pr_id); [apply W|done..|congruence]).
        apply (Hd _ Hd'), elem_of_app. right. by apply list_elem_of_singleton.
    + right. exists r. by split_and!.
Qed.

(** C14: the feed is a faithful log: folding every event of a hypertable, from the
    beginning, over the empty set reconstructs exactly its live parts. *)
Theorem feed_replay_is_live_set d ht :
  db_wf d ->
  List.fold_left apply_event
    (List.map (event_of (tables d)) (feed_commits (tables d) ht 0 (feed_head (tables d) ht))) ∅
  = live_ids (tables d) ht.
Proof.
  intros W. apply set_eq. intros x. rewrite replay_prefix by auto using feed_commits_strict.
  assert (All : forall c, c ∈ commits (tables d) -> c_hypertable c = ht ->
    c_id c ∈ List.map c_id (feed_commits (tables d) ht 0 (feed_head (tables d) ht))).
  { intros c Hc Hh. apply list_elem_of_In, List.in_map, list_elem_of_In, feed_commits_In.
    split_and!; [done|done|by apply (wf_commit_bound d W)|by apply feed_head_bound]. }
  assert (Only : forall i, i ∈ List.map c_id (feed_commits (tables d) ht 0 (feed_head (tables d) ht)) ->
    exists c, c ∈ commits (tables d) /\ c_hypertable c = ht /\ c_id c = i).
  { intros i (c & <- & Hc%list_elem_of_In%feed_commits_In)%list_elem_of_In%List.in_map_iff.
    exists c. tauto. }
  unfold live_ids. rewrite elem_of_list_to_set, list_elem_of_In, List.in_map_iff. split.
  - intros (r & Hr & <- & Hc & Hd). exists r. split; [done|]. apply list_elem_of_In, live_rows_spec.
    apply Only in Hc as (c & Hc & Hh & E).
    destruct (wf_created d W r Hr) as (c2 & Hc2 & E2 & Hh2).
    assert (c2 = c) as -> by (eapply (NoDup_map_inj c_id); [apply W|done..|congruence]).
    split_and!; [done|congruence|]. destruct (pr_deleted_by r) as [i|] eqn:Ed; [|done].
    destruct (wf_deleted d W r i Hr Ed) as [_ (c3 & Hc3 & <- & Hh3)].
    destruct (Hd _ eq_refl). apply All; [done|congruence].
  - intros (r & <- & Hr%list_elem_of_In%live_rows_spec). destruct Hr as (Hr & Hh & Hd). exists r.
    destruct (wf_created d W r Hr) as (c & Hc & <- & Hhc).
    split_and!; [done|done|apply All; [done|congruence]|]. intros i Hi. congruence.
Qed.

(** ** The theorems applied *)

Lemma run2_wf : db_wf run2.1.2.
Proof. eapply commit_txn_wf; [apply quiet_honest|exact db2_wf|]. exact run2_eq. Qed.

Lemma cursor_never_retreats_witness :
  worker_cursors (tables (set_cursor "w" 1 5 (set_cursor "w" 1 9 db1).2).2) !! ("w"%string, 1) = Some 9.
Proof.
  set (d := (set_cursor "w" 1 9 db1).2).
  assert (R : set_cursor "w" 1 5 d = (Ok tt, d)) by (vm_compute; reflexivity).
  rewrite R. exact (proj1 (proj1 (cursor_never_retreats "w" 1 5 d d R))).
Defined.

Lemma paging_delivers_all_witness :
  exists fuel, forall fuel', (fuel <= fuel')%nat ->
    StronglySorted (fun a b => ev_commit_id a < ev_commit_id b) (poll fuel' (tables run2.1.2) 1 0 1).
Proof.
  destruct (paging_delivers_all run2.1.2 1 0 1 run2_wf ltac:(lia)) as [fuel H].
  exists fuel. intros fuel' Hf. exact (proj1 (H fuel' Hf)).
Defined.

Lemma feed_replay_is_live_set_witness :
  List.fold_left apply_event
    (List.map (event_of (tables run2.1.2)) (feed_commits (tables run2.1.2) 1 0 (feed_head (tables run2.1.2) 1))) ∅
  = live_ids (tables run2.1.2) 1 /\ live_ids (tables run2.1.2) 1 = {[3]}.
Proof. split; [apply (feed_replay_is_live_set _ _ run2_wf)|vm_compute; reflexivity]. Defined.

End Feed.
