(* ===== verification/Barrier.v ===== *)
(** * The feed publication barrier (commit.rs, feed.rs)

    Writers of a hypertable hold the shared advisory lock from before their
    commit id is drawn until their transaction ends; a feed reader takes the
    exclusive one, then reads the head with a fresh snapshot.  The protocol is a
    step relation over any number of concurrent writers and readers, one step
    per statement. *)

From S2P Require Import Prelude Bytes Json Types CatalogError CatalogDb Commit CommitSpec Feed.

Import CommitSpec.

Module Barrier.

(** [~$1::bigint]. *)
Definition barrier_key (ht : HypertableId) : Z := Z.lnot ht.

(** Where a writer's transaction is. *)
Inductive writer :=
| WBegun (ht : HypertableId)
| WLocked (ht : HypertableId)
| WInserted (ht : HypertableId) (id : CommitId).

(** Where a reader's transaction is. *)
Inductive reader :=
| RBegun (ht : HypertableId)
| RLocked (ht : HypertableId)
| RRead (ht : HypertableId) (head : CommitId).

(** A head handed to a consumer, with the commits its snapshot saw. *)
Record publication := mkPublication {
  pub_ht : HypertableId;
  pub_head : CommitId;
  pub_seen : list CommitId;
}.

Record state := mkState {
  seq : Z;
  committed : list (HypertableId * CommitId);
  writers : gmap nat writer;
  readers : gmap nat reader;
  published : list publication;
}.

Definition init : state := mkState 0 [] ∅ ∅ [].

(** The advisory lock a transaction holds. *)
Definition holds_shared (w : writer) (k : Z) : Prop :=
  match w with
  | WBegun _ => False
  | WLocked ht | WInserted ht _ => barrier_key ht = k
  end.
Definition holds_exclusive (r : reader) (k : Z) : Prop :=
  match r with
  | RBegun _ => False
  | RLocked ht | RRead ht _ => barrier_key ht = k
  end.

Definition shared_free (s : state) (k : Z) : Prop :=
  forall w x, writers s !! w = Some x -> ~ holds_shared x k.
Definition exclusive_free (s : state) (k : Z) : Prop :=
  forall r x, readers s !! r = Some x -> ~ holds_exclusive x k.

(** The committed ids of a hypertable. *)
Definition committed_ids (s : state) (ht : HypertableId) : list CommitId :=
  List.map snd (List.filter (fun c => c.1 =? ht) (committed s)).

Definition set_writer (s : state) (w : nat) (x : writer) : state :=
  mkState (seq s) (committed s) (<[w := x]> (writers s)) (readers s) (published s).
Definition set_reader (s : state) (r : nat) (x : reader) : state :=
  mkState (seq s) (committed s) (writers s) (<[r := x]> (readers s)) (published s).

Inductive step : state -> state -> Prop :=
| begin_writer s w ht :
    writers s !! w = None -> step s (set_writer s w (WBegun ht))
| lock_shared s w ht :
    writers s !! w = Some (WBegun ht) -> exclusive_free s (barrier_key ht) ->
    step s (set_writer s w (WLocked ht))
| insert_commit s w ht :
    writers s !! w = Some (WLocked ht) ->
    step s (mkState (seq s + 1) (committed s) (<[w := WInserted ht (seq s + 1)]> (writers s))
              (readers s) (published s))
| burn_id s w ht :  (* the keyed insert meets a taken key *)
    writers s !! w = Some (WLocked ht) ->
    step s (mkState (seq s + 1) (committed s) (writers s) (readers s) (published s))
| commit_writer s w ht id :
    writers s !! w = Some (WInserted ht id) ->
    step s (mkState (seq s) (committed s ++ [(ht, id)]) (delete w (writers s)) (readers s) (published s))
| abort_writer s w :
    step s (mkState (seq s) (committed s) (delete w (writers s)) (readers s) (published s))
| begin_reader s r ht :
    readers s !! r = None -> step s (set_reader s r (RBegun ht))
| lock_exclusive s r ht :
    readers s !! r = Some (RBegun ht) ->
    shared_free s (barrier_key ht) -> exclusive_free s (barrier_key ht) ->
    step s (set_reader s r (RLocked ht))
| read_head s r ht :
    readers s !! r = Some (RLocked ht) ->
    let ids := committed_ids s ht in
    let head := default 0 (Feed.max_id ids) in
    step s (mkState (seq s) (committed s) (writers s) (<[r := RRead ht head]> (readers s))
              (published s ++ [mkPublication ht head ids]))
| end_reader s r :
    step s (mkState (seq s) (committed s) (writers s) (delete r (readers s)) (published s)).

(** ** The barrier holds *)

Lemma barrier_key_inj a b : barrier_key a = barrier_key b -> a = b.
Proof. unfold barrier_key, Z.lnot. lia. Qed.

Lemma committed_ids_In s ht id : id ∈ committed_ids s ht <-> (ht, id) ∈ committed s.
Proof.
  unfold committed_ids. rewrite list_elem_of_In, List.in_map_iff. split.
  - intros ([h i] & <- & Hc%list_elem_of_In%filter_In_iff). simpl in *. destruct Hc as [Hc E%Z.eqb_eq]. by subst.
  - intros Hc. exists (ht, id). split; [done|]. apply list_elem_of_In, filter_In_iff. by rewrite Z.eqb_refl.
Qed.

Record inv (s : state) : Prop := {
  inv_committed : forall ht id, (ht, id) ∈ committed s -> 0 < id <= seq s;
  inv_inserted : forall w ht id, writers s !! w = Some (WInserted ht id) -> 0 < id <= seq s;
  inv_excl : forall r x w y k, readers s !! r = Some x -> writers s !! w = Some y ->
    holds_exclusive x k -> holds_shared y k -> False;
  inv_seq : 0 <= seq s;
  inv_pub_bound : forall p, p ∈ published s -> 0 <= pub_head p <= seq s;
  inv_pub_ahead : forall p w id, p ∈ published s ->
    writers s !! w = Some (WInserted (pub_ht p) id) -> pub_head p < id;
  inv_pub_seen : forall p id, p ∈ published s ->
    (id ∈ pub_seen p <-> id ∈ committed_ids s (pub_ht p) /\ id <= pub_head p);
}.

Lemma committed_ids_snoc s c w r p q ht :
  committed_ids (mkState q (committed s ++ [c]) w r p) ht
  = committed_ids s ht ++ (if c.1 =? ht then [c.2] else []).
Proof.
  unfold committed_ids. simpl. rewrite List.filter_app, List.map_app. f_equal.
  destruct c as [h i]. simpl. by destruct (h =? ht).
Qed.

Ltac map_case :=
  repeat match goal with
  | H : <[?k := _]> _ !! ?j = Some _ |- _ =>
      apply lookup_insert_Some in H as [[? H]|[? H]]; [simplify_eq|]
  | H : delete _ _ !! _ = Some _ |- _ => apply lookup_delete_Some in H as [? H]
  end.

Lemma step_inv s s' : inv s -> step s s' -> inv s'.
Proof.
  intros I St. pose proof (inv_seq s I) as Q.
  destruct St as [s w ht N|s w ht L X|s w ht L|s w ht L|s w ht id L|s w|s r ht N|s r ht L X1 X2
                 |s r ht L ids head|s r]; (split; simpl;
    [ try (intros h i Hc; pose proof (inv_committed s I h i Hc); lia); try apply (inv_committed s I)
    | try (intros w0 h i Hw; map_case; try done;
           try (pose proof (inv_inserted s I _ _ _ Hw)); lia)
    | intros r0 x0 w0 y0 k Hr Hw E Sh; map_case; simpl in *; try done;
      try (by eapply (inv_excl s I))
    | try lia
    | try (intros p Hp; pose proof (inv_pub_bound s I p Hp); lia)
    | try (intros p w0 i Hp Hw; map_case; try done; try (by eapply (inv_pub_ahead s I)))
    | try apply (inv_pub_seen s I) ]).
  - (* lock_shared: no exclusive holder *)
    apply (X r0 x0 Hr). by rewrite Sh.
  - (* insert: past every published head *)
    pose proof (inv_pub_bound s I p Hp). lia.
  - (* commit *)
    intros h i [Hc|[= -> ->]%list_elem_of_singleton]%elem_of_app; [by apply (inv_committed s I) in Hc|].
    by apply (inv_inserted s I) in L.
  - intros p i Hp. rewrite committed_ids_snoc. simpl. rewrite elem_of_app.
    rewrite (inv_pub_seen s I p i Hp). split; [tauto|]. intros [[Hi|Hi] Hb]; [done|].
    destruct (Z.eqb_spec ht (pub_ht p)) as [E|]; [|by apply elem_of_nil in Hi].
    apply list_elem_of_singleton in Hi as ->. subst ht.
    pose proof (inv_pub_ahead s I p w id Hp L). lia.
  - (* lock_exclusive: no shared holder *)
    apply (X1 w0 y0 Hw). by rewrite E.
  - intros p [Hp| ->%list_elem_of_singleton]%elem_of_app; [by apply (inv_pub_bound s I)|]. simpl.
    unfold head. destruct (Feed.max_id ids) as [m|] eqn:M; simpl; [|lia].
    apply Feed.max_id_spec in M as [M _]. apply committed_ids_In, (inv_committed s I) in M. lia.
  - apply elem_of_app in Hp as [Hp| ->%list_elem_of_singleton]; [by eapply (inv_pub_ahead s I)|].
    simpl in Hw. exfalso. eapply (inv_excl s I r (RLocked ht) w0 _ (barrier_key ht) L Hw); done.
  - intros p i [Hp| ->%list_elem_of_singleton]%elem_of_app; [by apply (inv_pub_seen s I)|]. simpl.
    unfold head, ids. change (committed_ids (mkState _ (committed s) _ _ _) ht) with (committed_ids s ht).
    split; [|tauto]. intros Hi. split; [done|].
    destruct (Feed.max_id (committed_ids s ht)) as [m|] eqn:M; simpl.
    + apply Feed.max_id_spec in M as [_ M]. by apply M.
    + destruct (committed_ids s ht); [by apply elem_of_nil in Hi|done].
Qed.

Lemma init_inv : inv init.
Proof. split; simpl; try (intros; set_solver); try (intros ? ? ? ?; by rewrite lookup_empty); lia. Qed.

Lemma reachable_inv s : rtc step init s -> inv s.
Proof.
  intros R. assert (G : forall a b, rtc step a b -> inv a -> inv b).
  { induction 1 as [|x y z S _ IH]; [done|]. intros I. by eapply IH, step_inv. }
  by eapply G, init_inv.
Qed.

(** C13: a published head is a complete prefix: however writers and readers
    interleave, a commit of the hypertable at or below a head a reader was ever
    given was already committed when that reader read -- nothing surfaces
    behind a cursor. *)
Theorem published_head_is_complete s p id :
  rtc step init s -> p ∈ published s -> (pub_ht p, id) ∈ committed s -> id <= pub_head p ->
  id ∈ pub_seen p.
Proof.
  intros R Hp Hc Hb. apply (inv_pub_seen s (reachable_inv s R) p id Hp). split; [|done].
  by apply committed_ids_In.
Qed.

(** Writer 0 draws id 1 and stalls; writer 1 commits id 2; a reader of the same
    hypertable has to wait for writer 0. *)
Definition w_state : state :=
  mkState 2 [(7, 2); (7, 1)] ∅ {[0%nat := RRead 7 2]} [mkPublication 7 2 [2; 1]].

Lemma w_reachable : rtc step init w_state.
Proof.
  eapply rtc_l; [apply (begin_writer _ 0 7); reflexivity|].
  eapply rtc_l; [apply (begin_writer _ 1 7); reflexivity|].
  eapply rtc_l; [apply (lock_shared _ 0 7); [reflexivity|by intros r x Hr]|].
  eapply rtc_l; [apply (lock_shared _ 1 7); [reflexivity|by intros r x Hr]|].
  eapply rtc_l; [apply (insert_commit _ 0 7); reflexivity|].
  eapply rtc_l; [apply (insert_commit _ 1 7); reflexivity|].
  eapply rtc_l; [apply (begin_reader _ 0 7); reflexivity|].
  eapply rtc_l; [apply (commit_writer _ 1 7 2); reflexivity|].
  eapply rtc_l; [apply (commit_writer _ 0 7 1); reflexivity|].
  eapply rtc_l; [apply (lock_exclusive _ 0 7); [reflexivity| |]|].
  { intros w x Hw. vm_compute in Hw. done. }
  { intros r x Hr. simpl in Hr. map_case; [by intros []|done]. }
  apply rtc_once. match goal with |- step ?s _ => exact (read_head s 0 7 eq_refl) end.
Qed.

Lemma published_head_is_complete_witness : 1 ∈ pub_seen (mkPublication 7 2 [2; 1]).
Proof.
  apply (published_head_is_complete w_state (mkPublication 7 2 [2; 1]) 1 w_reachable).
  - apply list_elem_of_singleton. reflexivity.
  - apply list_elem_of_In. right. left. reflexivity.
  - discriminate.
Defined.

End Barrier.
