(* ===== verification/Parts.v ===== *)
(** * Reading parts (crates/ukiel-catalog/src/parts.rs)

    The live and pruned part lists, the bounded candidate windows of the
    compaction sweeps, and the backlog gauges.  Times are microseconds; SQL's
    three truth values are [option bool]. *)

From S2P Require Import Prelude Bytes Json Types KeyFilter Stats CatalogError CatalogDb Commit CommitSpec Leases Feed.
Import CatalogError CatalogDb Commit CommitSpec CommitTheorems Feed.

Module Parts.

(** ** Live parts *)

Definition key_in_range (key : option Z) (m : PartMeta) : bool :=
  match key with
  | None => true
  | Some k => (packing_key_min m <=? k) && (k <=? packing_key_max m)
  end.

Definition live_in (ht : HypertableId) (r : PartRow) : bool := (pr_hypertable r =? ht) && is_live r.

Definition live_parts (t : Tables) (ht : HypertableId) (key : option Z) : list Part :=
  List.map part_of_row (select_parts (fun r => live_in ht r && key_in_range key (pr_meta r)) t).

(** *** Pruned by key filter and column statistics *)

Definition and3 (a b : option bool) : option bool :=
  match a, b with
  | Some false, _ | _, Some false => Some false
  | Some true, x => x
  | x, Some true => x
  | None, None => None
  end.

Section cast.
(** PostgreSQL's [::bigint] of a text that is not an integer's rendering. *)
Context (text_to_bigint : string -> option Z).

(** [(entry ->> name)::bigint]: [None] is NULL, a bad text is an error. *)
Definition bigint_of (v : option json) : result (option Z) SqlxError :=
  match v with
  | None | Some JNull => Ok None
  | Some (JNumber (NumInt z)) =>
      if bool_decide (in_i64 z) then Ok (Some z) else Err (Database (Some "22003"))
  | Some (JString s) =>
      match text_to_bigint s with
      | Some z => Ok (Some z)
      | None => Err (Database (Some "22P02"))
      end
  | Some _ => Err (Database (Some "22P02"))
  end.

(** The clause generated for one range:
    [column_stats -> col IS NULL OR (max >= $min AND min <= $max)], an absent
    bound being NULL and so no condition. *)
Definition range_clause (stats : option json) (r : ColumnRange) : result (option bool) SqlxError :=
  match stats ≫= (fun s => jget s (column r)) with
  | None => Ok (Some true)
  | Some entry =>
      let? lower :=
        match cr_min r with
        | None => Ok (Some true)
        | Some m => let? v := bigint_of (jget entry "max") in Ok ((fun x => m <=? x) <$> v)
        end in
      let? upper :=
        match cr_max r with
        | None => Ok (Some true)
        | Some m => let? v := bigint_of (jget entry "min") in Ok ((fun x => x <=? m) <$> v)
        end in
      Ok (and3 lower upper)
  end.

(** A row passes a [WHERE] when its conjunction is true -- not NULL. *)
Fixpoint ranges_pass (stats : option json) (ranges : list ColumnRange) : result bool SqlxError :=
  match ranges with
  | [] => Ok true
  | r :: rs =>
      let? here := range_clause stats r in
      let? rest := ranges_pass stats rs in
      Ok (bool_decide (here = Some true) && rest)
  end.

(** [key_clause]: the range, then the probes of the key filter. *)
Definition key_clause (key : option Z) (r : PartRow) : bool :=
  match key with
  | None => true
  | Some k =>
      key_in_range (Some k) (pr_meta r)
      && KeyFilter.sql_eval (KeyFilter.sql_predicate 3) 3 (KeyFilter.sql_binds k) (pr_key_filter r)
  end.

Fixpoint filter_rows (f : PartRow -> result bool SqlxError) (rs : list PartRow)
  : result (list PartRow) SqlxError :=
  match rs with
  | [] => Ok []
  | r :: rs =>
      let? keep := f r in
      let? rest := filter_rows f rs in
      Ok (if keep then r :: rest else rest)
  end.

Definition live_parts_pruned (t : Tables) (ht : HypertableId) (key : option Z)
    (ranges : list ColumnRange) : result (list Part) CatalogError :=
  let candidates := List.filter (fun r => live_in ht r && key_clause key r) (parts t) in
  let? rows := map_err Db
    (filter_rows (fun r => ranges_pass (column_stats (pr_meta r)) ranges) candidates) in
  Ok (List.map part_of_row (merge_sort row_id_le rows)).
End cast.

(** ** Candidate windows *)

Record CandidateWindow := mkWindow {
  partitions : list json;
  next_cursor : option string;
  eligible : Z;
  leased : Z;
}.

Definition claimable (w : CandidateWindow) : Z := eligible w - leased w.

Definition WindowRow : Type := Z * Z * option json * option string.

Definition from_rows (rows : list WindowRow) : CandidateWindow :=
  let '(e, l) := match rows with [] => (0, 0) | (e, l, _, _) :: _ => (e, l) end in
  let cursor := match List.rev rows with [] => None | (_, _, _, c) :: _ => c end in
  mkWindow (omap (fun r => let '(_, _, p, _) := r in p) rows) cursor e l.

Section jsonb.
Context `{Jsonb}.

(** [partition_values = $1]. *)
Definition in_partition (p : json) (r : PartRow) : bool := jsonb_eqb (partition_values (pr_meta r)) p.

(** The distinct partitions of some rows ([GROUP BY partition_values]). *)
Fixpoint distinct_partitions (ps : list json) : list json :=
  match ps with
  | [] => []
  | p :: rest => p :: List.filter (fun q => negb (jsonb_eqb q p)) (distinct_partitions rest)
  end.

Definition live_partitions (t : Tables) (ht : HypertableId) : list json :=
  distinct_partitions (List.map (fun r => partition_values (pr_meta r))
                         (List.filter (live_in ht) (parts t))).

(** [count(DISTINCT created_by_commit)]. *)
Definition runs (rs : list PartRow) : Z := len (remove_dups (List.map pr_created_by rs)).

Definition trigger (l0_fanout fanout lvl : Z) : Z := if lvl =? 0 then l0_fanout else fanout.

(** The partitions with a level at its trigger. *)
Definition ladder_eligible (t : Tables) (ht : HypertableId) (l0_fanout fanout : Z) : list json :=
  List.filter (fun p =>
    let rs := List.filter (fun r => live_in ht r && in_partition p r) (parts t) in
    List.existsb (fun lvl =>
      trigger l0_fanout fanout lvl
        <=? runs (List.filter (fun r => level (pr_meta r) =? lvl) rs))
      (List.map (fun r => level (pr_meta r)) rs))
    (live_partitions t ht).

(** The creation time of a part's commit ([JOIN commits]). *)
Definition arrival (t : Tables) (r : PartRow) : option Z :=
  c_created_at <$> List.find (fun c => c_id c =? pr_created_by r) (commits t).

(** The arrivals of L0 parts, tombstoned ones included. *)
Definition l0_arrivals (t : Tables) (ht : HypertableId) (p : json) : list Z :=
  omap (arrival t)
    (List.filter (fun r => (pr_hypertable r =? ht) && in_partition p r && (level (pr_meta r) =? 0))
       (parts t)).

Definition finalize_eligible (t : Tables) (ht : HypertableId) (now quiet : Z) : list json :=
  List.filter (fun p =>
    (2 <=? runs (List.filter (fun r => live_in ht r && in_partition p r) (parts t)))
    && negb (List.existsb (fun a => now - quiet <=? a) (l0_arrivals t ht p)))
    (live_partitions t ht).

Definition partition_l0_quiet_since (t : Tables) (ht : HypertableId) (p : json) (now quiet : Z) : bool :=
  match max_id (l0_arrivals t ht p) with
  | None => true
  | Some last => last <? now - quiet
  end.

(** Held by a peer under an unexpired lease. *)
Definition peer_holds (t : Tables) (ht : HypertableId) (owner clock : Z) (p : json) : bool :=
  List.existsb (fun l => (l_hypertable l =? ht) && jsonb_eqb (l_partition l) p
                         && (clock <? l_expires_at l) && negb (l_owner l =? owner))
    (compaction_leases t).

Definition text_le (a b : json) : Prop := String.le (jsonb_text a) (jsonb_text b).
#[global] Instance text_le_dec a b : Decision (text_le a b).
Proof. unfold text_le; apply _. Defined.

Definition text_gt (after : option string) (p : json) : bool :=
  match after with
  | None => true
  | Some a => bool_decide (String.le a (jsonb_text p) /\ a <> jsonb_text p)
  end.

(** [window_sql]: the counts, left-joined with one window of what is not
    leased, after the cursor, in text order. *)
Definition window_rows (elig : list json) (t : Tables) (ht : HypertableId) (owner clock limit : Z)
    (after : option string) : list WindowRow :=
  let held := peer_holds t ht owner clock in
  let e := len elig in
  let l := len (List.filter held elig) in
  let w := firstn (Z.to_nat limit)
    (merge_sort text_le (List.filter (fun p => negb (held p) && text_gt after p) elig)) in
  match w with
  | [] => [(e, l, None, None)]
  | _ => List.map (fun p => (e, l, Some p, Some (jsonb_text p))) w
  end.

(** A negative [LIMIT] is an error of the statement. *)
Definition limited {A} (limit : Z) (a : A) : result A CatalogError :=
  if limit <? 0 then Err (Db (Database (Some "2201W"))) else Ok a.

Definition compaction_candidates (t : Tables) (ht : HypertableId) (owner clock l0_fanout fanout limit : Z)
    (after : option string) : result CandidateWindow CatalogError :=
  limited limit (from_rows (window_rows (ladder_eligible t ht l0_fanout fanout) t ht owner clock limit after)).

Definition finalize_candidates (t : Tables) (ht : HypertableId) (owner clock now quiet limit : Z)
    (after : option string) : result CandidateWindow CatalogError :=
  limited limit (from_rows (window_rows (finalize_eligible t ht now quiet) t ht owner clock limit after)).

(** ** Counts and gauges *)

Definition max_live_l0_parts (t : Tables) (ht : HypertableId) (ps : list json) : Z :=
  match ps with
  | [] => 0
  | _ =>
      let rs := List.filter (fun r => live_in ht r && (level (pr_meta r) =? 0)
                                      && List.existsb (fun p => in_partition p r) ps) (parts t) in
      default 0 (max_id (List.map (fun p => len (List.filter (in_partition p) rs))
                           (distinct_partitions (List.map (fun r => partition_values (pr_meta r)) rs))))
  end.

(** The groups of a [GROUP BY hypertable_id, ...] over the live rows, in the order
    their first rows come. *)
Definition live_hypertables (t : Tables) : list HypertableId :=
  remove_dups (List.map pr_hypertable (List.filter is_live (parts t))).

Definition live_levels (rs : list PartRow) : list Z := remove_dups (List.map (fun r => level (pr_meta r)) rs).

(** The rows of the statement come in no order of their own. *)
Definition live_part_counts (t : Tables) : list (HypertableId * Z * Z) :=
  List.flat_map (fun ht =>
    let rs := List.filter (live_in ht) (parts t) in
    List.map (fun lvl => (ht, lvl, len (List.filter (fun r => level (pr_meta r) =? lvl) rs))) (live_levels rs))
    (live_hypertables t).

(** [g]: the runs of every hypertable, partition and level. *)
Definition run_groups (t : Tables) : list (HypertableId * json * Z * Z) :=
  List.flat_map (fun ht =>
    List.flat_map (fun p =>
      let rs := List.filter (fun r => live_in ht r && in_partition p r) (parts t) in
      List.map (fun lvl => (ht, p, lvl, runs (List.filter (fun r => level (pr_meta r) =? lvl) rs))) (live_levels rs))
      (live_partitions t ht))
    (live_hypertables t).

Definition backlog_groups (t : Tables) (l0_fanout fanout : Z) : Z :=
  len (List.filter (fun g => let '(_, _, lvl, n) := g in trigger l0_fanout fanout lvl <=? n) (run_groups t)).

(** [live_runs], left-joined with [last_arrival]. *)
Definition unfinalized_rows (t : Tables) : list (option Z) :=
  List.flat_map (fun ht =>
    List.map (fun p => max_id (l0_arrivals t ht p))
      (List.filter (fun p => 2 <=? runs (List.filter (fun r => live_in ht r && in_partition p r) (parts t)))
         (live_partitions t ht)))
    (live_hypertables t).

Definition is_quiet (now quiet : Z) (last : option Z) : bool :=
  match last with None => true | Some last => last <? now - quiet end.

(** The count, and the oldest age in microseconds; [max] skips the NULL of a
    partition that no L0 part ever came to. *)
Definition unfinalized_partitions (t : Tables) (now quiet : Z) : Z * Z :=
  let rows := List.filter (is_quiet now quiet) (unfinalized_rows t) in
  (len rows, default 0 (max_id (omap (fun last => (fun l => now - l) <$> last) rows))).

Definition live_partition_parts (t : Tables) (ht : HypertableId) (p : json) : list Part :=
  List.map part_of_row (select_parts (fun r => live_in ht r && in_partition p r) t).
End jsonb.

End Parts.
