(* ===== verification/Pruning.v ===== *)
(** * Pruning never loses a row (theorems about [Parts], [Stats], [KeyFilter])

    The catalog skips a part on three grounds: its key range, its key filter and
    its column statistics.  For a part whose metadata describes the file a
    writer wrote, none of them can skip a file holding a wanted row -- unless a
    user column bears one of the two names the key index reserves. *)

From S2P Require Import Prelude Bytes Json Arrow Types KeyFilter Stats CatalogError CatalogDb Commit CommitSpec Feed Parts.
Import CatalogError CatalogDb Commit CommitSpec CommitTheorems Feed Parts.

Module Pruning.

(** ** What the metadata of a written file says *)

(** Row [i] of the batch holds [v] in the [Int64] column [col]. *)
Definition row_has (b : RecordBatch) (i : nat) (col : string) (v : Z) : Prop :=
  exists idx vs, index_of (rb_schema b) col = Some idx /\
    rb_columns b !! idx = Some (Int64Array vs) /\ vs !! i = Some (Some v).

Definition reserved (col : string) : Prop :=
  col = Stats.PACKING_KEYS_STAT \/ col = Stats.KEY_ROW_GROUPS_STAT.

Section described.
Context (ser : gset Z -> option (list Z)) (enc : list Z -> string).

(** The part's metadata is what the writers record for the batch. *)
Record describes (m : PartMeta) (b : RecordBatch) (pk : string) : Prop := {
  d_wf : batch_wf b;
  d_names : distinct_names (rb_schema b);
  d_range : forall i v, row_has b i pk v -> packing_key_min m <= v <= packing_key_max m;
  d_stats : exists bitmap spans,
    column_stats m = Stats.with_key_index (Stats.int64_column_stats b) bitmap spans /\
    (bitmap = None \/ bitmap = Stats.key_bitmap ser enc b pk);
}.
End described.

(** ** Column ranges *)

Lemma fold_min_le l a : List.fold_left Z.min l a <= a /\ forall x, List.In x l -> List.fold_left Z.min l a <= x.
Proof.
  revert a. induction l as [|y l IH]; intros a; simpl; [split; [lia|done]|].
  destruct (IH (Z.min a y)) as [H1 H2]. split; [lia|]. intros x [->|Hx]; [lia|by apply H2].
Qed.
Lemma fold_max_ge l a : a <= List.fold_left Z.max l a /\ forall x, List.In x l -> x <= List.fold_left Z.max l a.
Proof.
  revert a. induction l as [|y l IH]; intros a; simpl; [split; [lia|done]|].
  destruct (IH (Z.max a y)) as [H1 H2]. split; [lia|]. intros x [->|Hx]; [lia|by apply H2].
Qed.

Lemma value_range_spec vs mn mx v :
  value_range vs = Some (mn, mx) -> Some v ∈ vs -> mn <= v <= mx.
Proof.
  intros R Hv. apply list_elem_of_In, non_null_In in Hv. revert R.
  unfold value_range, column_min, column_max. destruct (non_null vs) as [|x xs]; simpl; [done|].
  intros [= <- <-]. destruct (fold_min_le xs x) as [A1 A2], (fold_max_ge xs x) as [B1 B2].
  destruct Hv as [->|Hv]; [lia|]. split; [by apply A2|by apply B2].
Qed.

Lemma zip_lookup {A B} (l : list A) (k : list B) i x y :
  zip l k !! i = Some (x, y) <-> l !! i = Some x /\ k !! i = Some y.
Proof. rewrite lookup_zip_with. destruct (l !! i), (k !! i); simpl; naive_solver. Qed.

(** A recorded range is that of a column of the name. *)
Lemma ranges_of_column b col mn mx :
  assoc col (Stats.ranges_of b) = Some (mn, mx) ->
  exists j f vs, rb_schema b !! j = Some f /\ f_name f = col /\
    rb_columns b !! j = Some (Int64Array vs) /\ value_range vs = Some (mn, mx).
Proof.
  intros A. apply assoc_Some_In, list_elem_of_In in A. unfold Stats.ranges_of, Stats.fields_columns in A.
  apply list_elem_of_omap in A as ([f a] & Hin & R). apply list_elem_of_lookup in Hin as [j Hj].
  apply zip_lookup in Hj as [Hf Ha]. exists j, f.
  destruct a as [vs|t n]; [|by rewrite Stats.column_range_other in R].
  exists vs. unfold Stats.column_range in R. simpl in R. destruct (negb _); [done|]. simpl in R.
  unfold value_range. destruct (column_min vs), (column_max vs); simpl in *; try done.
  injection R as <- <- <-. by split_and!.
Qed.

Lemma index_of_unique s col j f :
  distinct_names s -> s !! j = Some f -> f_name f = col -> index_of s col = Some j.
Proof.
  intros N Hj E. pose proof (index_of_spec s col) as S. destruct (index_of s col) as [i|].
  - destruct S as (f' & Hi & E'). f_equal. unfold distinct_names in N.
    rewrite NoDup_alt in N.
    assert (M : forall i, List.map f_name s !! i = f_name <$> s !! i) by (intros; apply list_lookup_fmap).
    apply (N i j col); rewrite M; [by rewrite Hi; simpl; rewrite E'|by rewrite Hj; simpl; rewrite E].
  - destruct S. rewrite <- E. apply list_elem_of_In, List.in_map, list_elem_of_In.
    by eapply list_elem_of_lookup_2.
Qed.

Lemma recorded_range_covers b col i v mn mx :
  distinct_names (rb_schema b) -> row_has b i col v ->
  assoc col (Stats.ranges_of b) = Some (mn, mx) -> mn <= v <= mx.
Proof.
  intros N (idx & vs & Hi & Hc & Hv) A. apply ranges_of_column in A as (j & f & vs' & Hf & E & Hc' & R).
  assert (j = idx) as -> by (rewrite (index_of_unique _ _ _ _ N Hf E) in Hi; congruence).
  rewrite Hc in Hc'. injection Hc' as <-. eapply value_range_spec; [exact R|].
  by eapply list_elem_of_lookup_2.
Qed.

(** *** The statistics as the catalog's SQL sees them *)

Lemma int64_stats_entry b col :
  distinct_names (rb_schema b) ->
  (Stats.int64_column_stats b ≫= fun s => jget s col)
  = (fun r => Stats.min_max_json r.1 r.2) <$> assoc col (Stats.ranges_of b).
Proof.
  intros N. unfold Stats.int64_column_stats. rewrite Stats.stats_step_ranges.
  fold (Stats.ranges_of b).
  destruct (Stats.stats_fold_spec (Stats.ranges_of b) [] ltac:(constructor) (Stats.ranges_NoDup b N)) as [_ A].
  specialize (A col). simpl in A. destruct (List.fold_left _ (Stats.ranges_of b) []) as [|p m] eqn:E.
  - simpl in *. by destruct (assoc col (Stats.ranges_of b)).
  - simpl. simpl in A. rewrite A. by destruct (assoc col (Stats.ranges_of b)).
Qed.

Lemma int64_stats_sorted b m :
  distinct_names (rb_schema b) -> Stats.int64_column_stats b = Some (JObject m) -> map_sorted m.
Proof.
  intros N. unfold Stats.int64_column_stats. rewrite Stats.stats_step_ranges.
  fold (Stats.ranges_of b).
  destruct (Stats.stats_fold_spec (Stats.ranges_of b) [] ltac:(constructor) (Stats.ranges_NoDup b N)) as [S _].
  destruct (List.fold_left _ (Stats.ranges_of b) []); [done|]. by intros [= <-].
Qed.

Lemma int64_stats_shape b : Stats.int64_column_stats b = None \/ exists m, Stats.int64_column_stats b = Some (JObject m).
Proof. unfold Stats.int64_column_stats. destruct (List.fold_left _ _ _); eauto. Qed.

(** The key index leaves the entry of every other column alone. *)
Lemma key_index_keeps b bitmap spans col :
  distinct_names (rb_schema b) -> ~ reserved col ->
  (Stats.with_key_index (Stats.int64_column_stats b) bitmap spans ≫= fun s => jget s col)
  = Stats.int64_column_stats b ≫= fun s => jget s col.
Proof.
  intros N R. unfold reserved in R.
  assert (K1 : String.eqb col Stats.PACKING_KEYS_STAT = false) by (apply String.eqb_neq; tauto).
  assert (K2 : String.eqb col Stats.KEY_ROW_GROUPS_STAT = false) by (apply String.eqb_neq; tauto).
  set (m0 := match Stats.int64_column_stats b with Some (JObject m) => m | _ => [] end).
  assert (M0 : map_sorted m0 /\ assoc col m0 = Stats.int64_column_stats b ≫= fun s => jget s col).
  { unfold m0. destruct (int64_stats_shape b) as [E|[m E]]; rewrite E.
    - split; [constructor|done].
    - split; [by eapply int64_stats_sorted|done]. }
  destruct M0 as [S A]. rewrite <- A. unfold Stats.with_key_index. fold m0.
  destruct bitmap as [bm|], spans as [sp|]; simpl.
  - rewrite assoc_jinsert, K2, assoc_jinsert, K1; [done|done|by apply jinsert_sorted].
  - by rewrite assoc_jinsert, K1.
  - by rewrite assoc_jinsert, K2.
  - by rewrite A.
Qed.

Lemma min_max_get mn mx :
  jget (Stats.min_max_json mn mx) "min" = Some (jint mn) /\
  jget (Stats.min_max_json mn mx) "max" = Some (jint mx).
Proof. split; reflexivity. Qed.

Section sql.
Context (text_to_bigint : string -> option Z).

Lemma bigint_of_jint z r : bigint_of text_to_bigint (Some (jint z)) = Ok r -> r = Some z.
Proof. unfold jint. simpl. case_bool_decide; [by intros [= <-]|done]. Qed.

Lemma range_clause_covered stats r mn mx v x :
  (stats ≫= fun s => jget s (column r)) = Some (Stats.min_max_json mn mx) ->
  mn <= v <= mx ->
  (forall m, cr_min r = Some m -> m <= v) -> (forall m, cr_max r = Some m -> v <= m) ->
  range_clause text_to_bigint stats r = Ok x -> x = Some true.
Proof.
  intros E B Lo Hi. unfold range_clause. rewrite E. destruct (min_max_get mn mx) as [G1 G2].
  rewrite G1, G2. intros Rn. inv_ok. rename a into lo, a0 into hi.
  assert (L : lo = Some true).
  { destruct (cr_min r) as [m|]; [|by injection E0 as <-]. inv_ok. apply bigint_of_jint in E2 as ->.
    simpl. specialize (Lo m eq_refl). by rewrite (proj2 (Z.leb_le m mx)) by lia. }
  assert (U : hi = Some true).
  { destruct (cr_max r) as [m|]; [|by injection E1 as <-]. inv_ok. apply bigint_of_jint in E2 as ->.
    simpl. specialize (Hi m eq_refl). by rewrite (proj2 (Z.leb_le mn m)) by lia. }
  by subst.
Qed.

(** The row satisfies every requested range: one without bounds, or bounds that
    its value of the column keeps, the column not a reserved one. *)
Definition satisfies (b : RecordBatch) (i : nat) (ranges : list ColumnRange) : Prop :=
  Forall (fun r => (cr_min r = None /\ cr_max r = None) \/
    ~ reserved (column r) /\ exists v, row_has b i (column r) v /\
    (forall m, cr_min r = Some m -> m <= v) /\ (forall m, cr_max r = Some m -> v <= m)) ranges.

Lemma range_clause_unbounded stats r x :
  cr_min r = None -> cr_max r = None -> range_clause text_to_bigint stats r = Ok x -> x = Some true.
Proof. unfold range_clause. intros -> ->. destruct (stats ≫= _); by intros [= <-]. Qed.

Lemma ranges_pass_described ser enc m b pk i ranges x :
  describes ser enc m b pk -> satisfies b i ranges ->
  ranges_pass text_to_bigint (column_stats m) ranges = Ok x -> x = true.
Proof.
  intros D. revert x. induction ranges as [|r rs IH]; intros x Sat; simpl; [by intros [= <-]|].
  apply Forall_cons in Sat as [Here Sat]. intros Rn. inv_ok.
  rewrite (IH _ Sat E0), andb_true_r. apply bool_decide_eq_true.
  destruct Here as [[N1 N2]|(Nr & v & Hv & Lo & Hi)]; [by eapply range_clause_unbounded|].
  destruct (d_stats _ _ _ _ _ D) as (bitmap & spans & Es & _).
  assert (Eg : (column_stats m ≫= fun s => jget s (column r))
               = (fun r => Stats.min_max_json r.1 r.2) <$> assoc (column r) (Stats.ranges_of b)).
  { rewrite Es, key_index_keeps by (done || apply D). apply int64_stats_entry, D. }
  destruct (assoc (column r) (Stats.ranges_of b)) as [[mn mx]|] eqn:A; simpl in Eg.
  - eapply range_clause_covered; [exact Eg| |exact Lo|exact Hi|exact E].
    by eapply recorded_range_covers; [apply D|..].
  - unfold range_clause in E. rewrite Eg in E. by injection E as <-.
Qed.

Lemma filter_rows_keeps f rs r out :
  filter_rows f rs = Ok out -> r ∈ rs -> (forall x, f r = Ok x -> x = true) -> r ∈ out.
Proof.
  revert out. induction rs as [|r' rs IH]; intros out; simpl; [by intros _ ?%elem_of_nil|].
  intros Rn. inv_ok. rename a into keep, a0 into rest.
  intros [->|Hin]%elem_of_cons Ht.
  - rewrite (Ht _ E). left.
  - specialize (IH _ E0 Hin Ht). destruct keep; [by right|done].
Qed.
End sql.

(** ** The key filter *)

Section keys.
Context (ser : gset Z -> option (list Z)) (deser : list Z -> option (gset Z)).
Context (enc : list Z -> string) (dec : string -> option (list Z)).
Context (deser_ser : forall m bytes, ser m = Some bytes -> deser bytes = Some m).
Context (dec_enc : forall bytes, dec (enc bytes) = Some bytes).

Lemma row_has_key_column b i pk v :
  row_has b i pk v -> exists vs, Stats.key_column b pk = Some vs /\ v ∈ vs.
Proof.
  intros (idx & vs & Hi & Hc & Hv). exists (non_null vs). unfold Stats.key_column.
  rewrite Hi. simpl. rewrite Hc. simpl. split; [done|]. apply list_elem_of_In, non_null_In, list_elem_of_In.
  by eapply list_elem_of_lookup_2.
Qed.

(** The bitmap recorded for a part is its batch's, when there is one. *)
Lemma recorded_bitmap m b pk :
  describes ser enc m b pk ->
  forall s, (column_stats m ≫= fun st => jget st Stats.PACKING_KEYS_STAT) ≫= as_str = Some s ->
  Stats.key_bitmap ser enc b pk = Some s.
Proof.
  intros D s. destruct (d_stats _ _ _ _ _ D) as (bitmap & spans & Es & Hb). rewrite Es.
  set (m0 := match Stats.int64_column_stats b with Some (JObject m) => m | _ => [] end).
  assert (S0 : map_sorted m0).
  { unfold m0. destruct (int64_stats_shape b) as [E|[m' E]]; rewrite E; [constructor|].
    eapply int64_stats_sorted; [apply D|exact E]. }
  assert (Entry : forall v, (Stats.int64_column_stats b ≫= fun st => jget st Stats.PACKING_KEYS_STAT) = Some v ->
                  as_str v = None).
  { intros v. rewrite int64_stats_entry by apply D. destruct (assoc _ _) as [[]|]; simpl; [|done].
    by intros [= <-]. }
  assert (A0 : assoc Stats.PACKING_KEYS_STAT m0 = Stats.int64_column_stats b ≫= fun st => jget st Stats.PACKING_KEYS_STAT).
  { unfold m0. destruct (int64_stats_shape b) as [E|[m' E]]; by rewrite E. }
  assert (NoStr : (assoc Stats.PACKING_KEYS_STAT m0 ≫= as_str) = Some s -> False).
  { rewrite A0. destruct (Stats.int64_column_stats b ≫= _) as [v|] eqn:E; simpl; [|done].
    by rewrite (Entry v eq_refl). }
  unfold Stats.with_key_index. fold m0.
  assert (Neq : String.eqb Stats.PACKING_KEYS_STAT Stats.KEY_ROW_GROUPS_STAT = false) by reflexivity.
  destruct bitmap as [bm|], spans as [sp|]; cbn [mbind option_bind jget].
  - rewrite assoc_jinsert, Neq, assoc_jinsert, String.eqb_refl by (done || by apply jinsert_sorted).
    simpl. intros [= <-]. by destruct Hb as [|Hb].
  - rewrite assoc_jinsert, String.eqb_refl by done. simpl. intros [= <-]. by destruct Hb as [|Hb].
  - rewrite assoc_jinsert, Neq by done. by intros ?%NoStr.
  - destruct (Stats.int64_column_stats b ≫= fun st => jget st Stats.PACKING_KEYS_STAT) as [v|] eqn:E;
      simpl; [|done]. by rewrite (Entry v eq_refl).
Qed.

Lemma key_filter_keeps m b pk i k :
  describes ser enc m b pk -> row_has b i pk k ->
  KeyFilter.sql_eval (KeyFilter.sql_predicate 3) 3 (KeyFilter.sql_binds k) (key_filter dec deser m) = true.
Proof.
  intros D Hk. destruct (key_filter dec deser m) as [f|] eqn:F; [|done].
  unfold key_filter in F. destruct (column_stats m) as [st|] eqn:Es; simpl in F; [|done].
  destruct (jget st Stats.PACKING_KEYS_STAT) as [v|] eqn:Ev; simpl in F; [|done].
  destruct (as_str v) as [s|] eqn:Ea; simpl in F; [|done].
  destruct (Stats.bitmap_keys deser dec s) as [ks|] eqn:Ek; simpl in F; [|done].
  assert (B : Stats.key_bitmap ser enc b pk = Some s).
  { eapply (recorded_bitmap m b pk D). rewrite Es. simpl. rewrite Ev. exact Ea. }
  destruct (Stats.key_bitmap_reads_back ser deser enc dec deser_ser dec_enc b pk s B)
    as (vs & K & _ & _ & _ & Kk & _).
  destruct (row_has_key_column b i pk k Hk) as (vs' & K' & Hin).
  assert (vs' = vs) as -> by congruence.
  eapply KeyFilter.present_key_kept_sql; [exact F|].
  destruct (Kk ks Ek) as (_ & _ & M).
  apply list_elem_of_In. by apply M.
Qed.

Lemma key_clause_keeps r b pk i k :
  describes ser enc (pr_meta r) b pk -> pr_key_filter r = key_filter dec deser (pr_meta r) ->
  row_has b i pk k -> key_clause (Some k) r = true.
Proof.
  intros D Kf Hk. apply andb_true_iff. split.
  - destruct (d_range _ _ _ _ _ D i k Hk). simpl. apply andb_true_iff. split; lia.
  - rewrite Kf. by eapply key_filter_keeps.
Qed.

(** pruning never loses a row: if a live part's metadata describes the file
    its writer wrote, and some row of that file belongs to the asked key and
    satisfies every asked range, then the pruned listing contains the part --
    through its key range, its key filter and its column statistics -- as long
    as no range is on a column bearing a reserved statistics name. *)
Theorem pruning_never_loses_a_row text_to_bigint t ht key ranges r b pk i ps :
  r ∈ live_rows ht t ->
  describes ser enc (pr_meta r) b pk ->
  pr_key_filter r = key_filter dec deser (pr_meta r) ->
  (forall k, key = Some k -> row_has b i pk k) -> satisfies b i ranges ->
  live_parts_pruned text_to_bigint t ht key ranges = Ok ps ->
  part_of_row r ∈ ps.
Proof.
  intros Hr D Kf Hk Sat L. unfold live_parts_pruned in L. inv_ok.
  destruct (filter_rows _ _) as [rows|e] eqn:F; simpl in E; [|done]. injection E as <-.
  apply list_elem_of_In, List.in_map, list_elem_of_In. rewrite (merge_sort_Permutation row_id_le).
  eapply filter_rows_keeps; [exact F| |].
  - apply live_rows_spec in Hr as (Hin & Hh & Hd). apply filter_In_iff. split; [done|].
    apply andb_true_iff. split.
    { unfold live_in, is_live. by rewrite Hh, Z.eqb_refl, Hd. }
    destruct key as [k|]; [|done]. by eapply key_clause_keeps; [..|apply Hk].
  - intros x. by eapply ranges_pass_described.
Qed.
End keys.

(** an [Int64] column named like the key index is pruned wrongly: its recorded
    range is overwritten by the bitmap, whose missing bounds SQL reads as NULL,
    so a part whose only row satisfies the filter is left out. *)
Theorem reserved_name_loses_rows :
  exists b m st,
    describes Stats.w_ser Stats.w_enc m b "k" /\
    row_has b 0 "packing_keys" 5 /\
    column_stats m = Some st /\
    ranges_pass (fun _ => None) (Some st) [mkColumnRange "packing_keys" (Some 5) (Some 5)] = Ok false.
Proof.
  set (b := mkBatch [mkField "k" Int64 false []; mkField "packing_keys" Int64 false []]
              [Int64Array [Some 1; Some 2]; Int64Array [Some 5; Some 6]]).
  set (bm := Stats.key_bitmap Stats.w_ser Stats.w_enc b "k").
  set (cs := Stats.with_key_index (Stats.int64_column_stats b) bm None).
  assert (P : (cs ≫= fun st => match ranges_pass (fun _ => None) (Some st)
                 [mkColumnRange "packing_keys" (Some 5) (Some 5)] with Ok x => Some x | Err _ => None end)
              = Some false) by (vm_compute; reflexivity).
  destruct cs as [st|] eqn:C; [|done]. cbn [mbind option_bind] in P.
  destruct (ranges_pass (fun _ => None) _ _) as [x|] eqn:R; [|done]. injection P as ->.
  exists b, (mkPartMeta "a" JNull 1 2 2 10 0 (Some st)), st. split_and!; [|..|done|done].
  - split; [repeat constructor| | |].
    + apply (bool_decide_unpack _). vm_compute. done.
    + intros i v (idx & vs & Hi & Hc & Hv). vm_compute in Hi. injection Hi as <-. injection Hc as <-.
      destruct i as [|[|i]]; simpl in Hv; [injection Hv as <-; simpl; lia..|done].
    + exists bm, None. rewrite <- C. split; [done|by right].
  - exists 1%nat, [Some 5; Some 6]. split_and!; reflexivity.
Qed.

(** ** The theorem applied *)

Definition w_b : RecordBatch :=
  mkBatch [mkField "k" Int64 false []; mkField "ts" Int64 false []]
    [Int64Array [Some 1; Some 9]; Int64Array [Some 50; Some 60]].
Definition w_meta : PartMeta :=
  mkPartMeta "a" JNull 1 9 2 10 0
    (Stats.with_key_index (Stats.int64_column_stats w_b) (Stats.key_bitmap Stats.w_ser Stats.w_enc w_b "k") None).
Definition w_row : PartRow := mkPartRow 1 1 w_meta (key_filter Stats.w_dec Stats.w_deser w_meta) 1 None None.
Definition w_tables : Tables := with_parts empty_tables [w_row].

Lemma w_describes : describes Stats.w_ser Stats.w_enc w_meta w_b "k".
Proof.
  split; [repeat constructor| | |].
  - apply (bool_decide_unpack _). vm_compute. done.
  - intros i v (idx & vs & Hi & Hc & Hv). vm_compute in Hi. injection Hi as <-. injection Hc as <-.
    destruct i as [|[|i]]; simpl in Hv; [injection Hv as <-; simpl; lia..|done].
  - eexists _, None. split; [reflexivity|by right].
Qed.

Lemma pruning_never_loses_a_row_witness :
  exists ps, live_parts_pruned (fun _ => None) w_tables 1 (Some 9) [mkColumnRange "ts" (Some 55) None] = Ok ps /\
    part_of_row w_row ∈ ps.
Proof.
  assert (L : exists ps, live_parts_pruned (fun _ => None) w_tables 1 (Some 9)
                [mkColumnRange "ts" (Some 55) None] = Ok ps) by (eexists; vm_compute; reflexivity).
  destruct L as [ps L]. exists ps. split; [exact L|].
  apply (pruning_never_loses_a_row Stats.w_ser Stats.w_deser Stats.w_enc Stats.w_dec
    Stats.w_deser_ser Stats.w_dec_enc (fun _ => None) w_tables 1 (Some 9)
    [mkColumnRange "ts" (Some 55) None] w_row w_b "k" 1 ps).
  - apply live_rows_spec. split; [left|split; reflexivity].
  - exact w_describes.
  - reflexivity.
  - intros k [= <-]. exists 0%nat, [Some 1; Some 9]. split; [reflexivity|split; reflexivity].
  - constructor; [|constructor]. right. split; [intros [?|?]; discriminate|].
    exists 60. split; [|split; [intros m [= <-]; discriminate|intros m; discriminate]].
    exists 1%nat, [Some 50; Some 60]. split; [reflexivity|split; reflexivity].
  - exact L.
Defined.

End Pruning.
