(* ===== verification/CatalogGc.v ===== *)
(** * GC bookkeeping (crates/ukiel-catalog/src/gc.rs)

    Which tombstoned parts may have their objects deleted, the upload intents,
    and the paths the catalog accounts for.  Times are microseconds. *)

From S2P Require Import Prelude Bytes Json Types CatalogError CatalogDb Commit CommitSpec CommitHistory Feed.
Import CatalogError CatalogDb Commit CommitSpec CommitTheorems CommitHistory Feed.

Module CatalogGc.

(** [COALESCE((SELECT MIN(last_commit_id) ...), 9223372036854775807)]. *)
Definition ht_cursors (t : Tables) (ht : HypertableId) : list CommitId :=
  omap (fun '((w, h), last) => if h =? ht then Some last else None) (map_to_list (worker_cursors t)).

Definition fence (t : Tables) (ht : HypertableId) : CommitId :=
  match ht_cursors t ht with [] => 9223372036854775807 | c :: cs => List.fold_left Z.min cs c end.

Definition old_enough (t : Tables) (now grace : Z) (c : CommitId) : bool :=
  List.existsb (fun row => (c_id row =? c) && (c_created_at row <=? now - grace)) (commits t).

Definition is_reapable (t : Tables) (ht : HypertableId) (now grace : Z) (r : PartRow) : bool :=
  (pr_hypertable r =? ht) && bool_decide (pr_purged_at r = None)
  && match pr_deleted_by r with
     | Some c => old_enough t now grace c && (c <=? fence t ht)
     | None => false
     end.

Definition reapable_parts (t : Tables) (ht : HypertableId) (now grace : Z) : list Part :=
  List.map part_of_row (select_parts (is_reapable t ht now grace) t).

Definition next_reapable_part (t : Tables) (ht : HypertableId) (now grace : Z) : option Part :=
  head (reapable_parts t ht now grace).

Definition is_orphan (ht : HypertableId) (now grace : Z) (p : PendingRow) : bool :=
  (po_hypertable p =? ht) && (po_created_at p <=? now - grace).

Definition orphaned_pending_objects (t : Tables) (ht : HypertableId) (now grace : Z) : list string :=
  merge_sort String.le (List.map po_path (List.filter (is_orphan ht now grace) (pending_objects t))).

Definition next_orphaned_pending_object (t : Tables) (ht : HypertableId) (now grace : Z) : option string :=
  head (orphaned_pending_objects t ht now grace).

Definition purge_row (now : Z) (r : PartRow) : PartRow :=
  mkPartRow (pr_id r) (pr_hypertable r) (pr_meta r) (pr_key_filter r) (pr_created_by r)
    (pr_deleted_by r) (Some now).

Definition mark_purged (ids : list PartId) (now : Z) (d : DbState) : DbState :=
  let t := tables d in
  mkDb (with_parts t (List.map (fun r => if bool_decide (pr_id r ∈ ids) then purge_row now r else r)
                        (parts t))) (seqs d).

Definition all_part_paths (t : Tables) (ht : HypertableId) : list string :=
  List.map (fun r => path (pr_meta r))
    (List.filter (fun r => (pr_hypertable r =? ht) && bool_decide (pr_purged_at r = None)) (parts t)).

Definition all_pending_paths (t : Tables) (ht : HypertableId) : list string :=
  List.map po_path (List.filter (fun p => po_hypertable p =? ht) (pending_objects t)).

(** [INSERT ... SELECT UNNEST ... ON CONFLICT (path) DO NOTHING], path by path. *)
Definition register_path (ht : HypertableId) (now : Z) (rows : list PendingRow) (p : string)
  : list PendingRow :=
  if List.existsb (fun r => String.eqb (po_path r) p) rows then rows
  else rows ++ [mkPendingRow ht p now].

Definition register_pending_objects (ht : HypertableId) (paths : list string) (now : Z) (d : DbState)
  : result unit CatalogError * DbState :=
  let t := tables d in
  match paths with
  | [] => (Ok tt, d)
  | _ =>
      if List.existsb (fun h => ht_id h =? ht) (hypertables t)
      then (Ok tt, mkDb (with_pending t (List.fold_left (register_path ht now) paths (pending_objects t)))
                     (seqs d))
      else (Err (Db (Database (Some "23503"))), d)
  end.

Definition clear_pending_objects (paths : list string) (d : DbState) : DbState :=
  match paths with
  | [] => d
  | _ => mkDb (delete_pending paths (tables d)) (seqs d)
  end.

Record GcBacklogs := mkBacklogs {
  pending : Z;
  pending_oldest : Z;
  unpurged_tombstones : Z;
  oldest_tombstone : Z;
}.

(** [coalesce(now() - min(created_at), 0)]. *)
Definition age_of_oldest (now : Z) (ts : list Z) : Z :=
  match ts with [] => 0 | t :: ts => now - List.fold_left Z.min ts t end.

Definition gc_backlogs (t : Tables) (now : Z) : GcBacklogs :=
  let tombs := List.filter (fun r => negb (is_live r) && bool_decide (pr_purged_at r = None)) (parts t) in
  mkBacklogs (len (pending_objects t))
    (age_of_oldest now (List.map po_created_at (pending_objects t)))
    (len tombs)
    (age_of_oldest now (omap (fun r => c ← pr_deleted_by r;
        c_created_at <$> List.find (fun row => c_id row =? c) (commits t)) tombs)).

(** ** Theorems *)

Lemma ht_cursors_In t ht c :
  c ∈ ht_cursors t ht <-> exists w, worker_cursors t !! (w, ht) = Some c.
Proof.
  unfold ht_cursors. rewrite list_elem_of_omap. split.
  - intros ([[w h] last] & Hin%elem_of_map_to_list & E). simpl in E.
    destruct (Z.eqb_spec h ht); [|done]. injection E as ->. subst. eauto.
  - intros [w Hw]. exists ((w, ht), c). split; [by apply elem_of_map_to_list|]. simpl. by rewrite Z.eqb_refl.
Qed.

Lemma fence_spec t ht c :
  c <= fence t ht <->
  (ht_cursors t ht = [] -> c <= 9223372036854775807) /\
  forall w last, worker_cursors t !! (w, ht) = Some last -> c <= last.
Proof.
  assert (In : forall last, last ∈ ht_cursors t ht <-> exists w, worker_cursors t !! (w, ht) = Some last)
    by (intros; apply ht_cursors_In).
  unfold fence. destruct (ht_cursors t ht) as [|x xs].
  - split; [|by intros [H _]; apply H]. intros Hc. split; [done|]. intros w last Hw.
    exfalso. eapply elem_of_nil, In. eauto.
  - assert (Mn : forall l a, c <= List.fold_left Z.min l a <-> c <= a /\ forall y, y ∈ l -> c <= y).
    { induction l as [|y l IH]; intros a; simpl.
      - split; [intros; split; [done|by intros ? ?%elem_of_nil]|tauto].
      - rewrite IH. split.
        + intros [H1 H2]. split; [lia|]. intros z [->|Hz]%elem_of_cons; [lia|auto].
        + intros [H1 H2]. assert (c <= y) by (apply H2; left). split; [lia|]. intros z Hz. apply H2. by right. }
    rewrite Mn. split.
    + intros [H1 H2]. split; [done|]. intros w last Hw.
      assert (Hl : last ∈ x :: xs) by (apply In; eauto). apply elem_of_cons in Hl as [->|Hl]; auto.
    + intros [_ H]. split; [|intros y Hy].
      * destruct (proj1 (In x) ltac:(left)) as [w Hw]. eauto.
      * destruct (proj1 (In y) ltac:(by right)) as [w Hw]. eauto.
Qed.

Lemma is_reapable_spec t ht now grace r :
  is_reapable t ht now grace r = true <->
  pr_hypertable r = ht /\ pr_purged_at r = None /\
  exists c row, pr_deleted_by r = Some c /\ row ∈ commits t /\ c_id row = c /\
    c_created_at row <= now - grace /\ c <= fence t ht.
Proof.
  unfold is_reapable, old_enough. rewrite !andb_true_iff, Z.eqb_eq, bool_decide_eq_true.
  destruct (pr_deleted_by r) as [c|]; [|naive_solver].
  rewrite andb_true_iff, List.existsb_exists, Z.leb_le. split.
  - intros [[Hh Hp] [(row & Hr & E) Hf]]. boolp. split; [done|]. split; [done|].
    exists c, row. rewrite list_elem_of_In. by split_and!.
  - intros (Hh & Hp & c' & row & [= <-] & Hr & Hc & Ha & Hf). split; [done|]. split; [|done].
    exists row. split; [by apply list_elem_of_In|]. apply andb_true_iff. lia.
Qed.

Lemma head_In {A} (l : list A) x : head l = Some x -> x ∈ l.
Proof. destruct l; intros [= <-]. left. Qed.

Lemma next_reapable_spec t ht now grace p :
  next_reapable_part t ht now grace = Some p ->
  exists r, r ∈ parts t /\ part_of_row r = p /\ is_reapable t ht now grace r = true.
Proof.
  intros Hp%head_In. unfold reapable_parts, select_parts in Hp.
  apply list_elem_of_In, List.in_map_iff in Hp as (r & <- & Hr%list_elem_of_In).
  rewrite (merge_sort_Permutation row_id_le), filter_In_iff in Hr. exists r. tauto.
Qed.

(** a part is offered for reaping only when it is provably unneeded: it is
    tombstoned and unpurged, its deleting commit is older than the grace, and
    every registered cursor of its hypertable has passed that commit -- and it
    is the one of smallest id. *)
Theorem reap_candidate_is_safe t ht now grace p :
  next_reapable_part t ht now grace = Some p ->
  exists r c row, r ∈ parts t /\ part_of_row r = p /\ pr_hypertable r = ht /\
    pr_deleted_by r = Some c /\ pr_purged_at r = None /\
    row ∈ commits t /\ c_id row = c /\ c_created_at row <= now - grace /\
    (forall w last, worker_cursors t !! (w, ht) = Some last -> c <= last).
Proof.
  intros (r & Hr & E & R)%next_reapable_spec.
  apply is_reapable_spec in R as (Hh & Hp & c & row & Hd & Hrow & Hc & Ha & Hf).
  apply fence_spec in Hf as [_ Hf]. exists r, c, row. by split_and!.
Qed.

Definition w_tables : Tables :=
  with_cursors (with_commits (with_parts empty_tables
    [mkPartRow 1 1 (mkPartMeta "a" JNull 0 0 1 1 0 None) None 1 (Some 2) None])
    [mkCommitRow 2 1 "delete" None None 100]) {[("compactor"%string, 1) := 5]}.

Lemma reap_candidate_is_safe_witness :
  exists p r, next_reapable_part w_tables 1 1000 900 = Some p /\ part_of_row r = p /\ pr_deleted_by r = Some 2.
Proof.
  assert (N : next_reapable_part w_tables 1 1000 900
    = Some (mkPart 1 1 (mkPartMeta "a" JNull 0 0 1 1 0 None) 1)) by (vm_compute; reflexivity).
  destruct (reap_candidate_is_safe _ _ _ _ _ N) as (r & c & row & Hr & E & _ & Hd & _).
  exists (mkPart 1 1 (mkPartMeta "a" JNull 0 0 1 1 0 None) 1), r.
  split; [exact N|]. split; [exact E|].
  apply list_elem_of_singleton in Hr as ->. reflexivity.
Defined.

(** registering intents is idempotent and keeps paths unique, and a commit's
    clearing removes exactly the rows of its paths. *)
Theorem pending_paths_stay_unique ht paths now d r d' :
  NoDup (List.map po_path (pending_objects (tables d))) ->
  register_pending_objects ht paths now d = (r, d') ->
  NoDup (List.map po_path (pending_objects (tables d'))) /\
  (r = Ok tt -> forall p, p ∈ List.map po_path (pending_objects (tables d')) <->
     p ∈ paths \/ p ∈ List.map po_path (pending_objects (tables d))) /\
  (forall x, x ∈ pending_objects (tables d) -> x ∈ pending_objects (tables d')).
Proof.
  intros N.
  assert (Step : forall ps rows, NoDup (List.map po_path rows) ->
    let rows' := List.fold_left (register_path ht now) ps rows in
    NoDup (List.map po_path rows') /\
    (forall p, p ∈ List.map po_path rows' <-> p ∈ ps \/ p ∈ List.map po_path rows) /\
    (forall x, x ∈ rows -> x ∈ rows')).
  { induction ps as [|q ps IH]; intros rows Nr; simpl.
    - split; [done|]. split; [|done]. intros p. split; [auto|]. by intros [?%elem_of_nil|?].
    - assert (Q : List.existsb (fun r => String.eqb (po_path r) q) rows = true <-> q ∈ List.map po_path rows).
      { rewrite List.existsb_exists, list_elem_of_In, List.in_map_iff. split.
        - intros (x & Hx & E%String.eqb_eq). eauto.
        - intros (x & <- & Hx). exists x. split; [done|]. apply String.eqb_refl. }
      assert (R : register_path ht now rows q = if List.existsb (fun r => String.eqb (po_path r) q) rows
                then rows else rows ++ [mkPendingRow ht q now]) by done.
      rewrite R. clear R. destruct (List.existsb _ rows) eqn:X.
      + destruct (IH rows Nr) as (A & B & C). split; [done|]. split; [|done].
        intros p. rewrite B, elem_of_cons. destruct Q as [Q _]. specialize (Q eq_refl). naive_solver.
      + assert (Nq : q ∉ List.map po_path rows) by (intros Hq; apply Q in Hq; congruence).
        destruct (IH (rows ++ [mkPendingRow ht q now])) as (A & B & C).
        { by apply NoDup_map_snoc. }
        split; [done|]. split.
        * intros p. rewrite B, List.map_app, elem_of_app, elem_of_cons. simpl.
          rewrite list_elem_of_singleton. tauto.
        * intros x Hx. apply C, elem_of_app. by left. }
  unfold register_pending_objects. destruct paths as [|p0 ps].
  - intros [= <- <-]. split; [done|]. split; [|done]. intros _ p. split; [auto|]. by intros [?%elem_of_nil|?].
  - destruct (List.existsb _ (hypertables (tables d))); intros [= <- <-].
    + destruct (Step (p0 :: ps) _ N) as (A & B & C). by split_and!.
    + by split_and!.
Qed.

Lemma pending_paths_stay_unique_witness :
  NoDup (List.map po_path (pending_objects (tables
    (register_pending_objects 1 ["a"; "b"; "a"] 7
      (mkDb (with_hypertables empty_tables [mkHypertable 1 "t" JNull JNull [] "k" Packed]) (seqs empty_db))).2))).
Proof.
  apply (pending_paths_stay_unique 1 ["a"; "b"; "a"] 7
    (mkDb (with_hypertables empty_tables [mkHypertable 1 "t" JNull JNull [] "k" Packed]) (seqs empty_db))
    _ _ (NoDup_nil_2) (surjective_pairing _)).
Defined.

End CatalogGc.
