(* ===== verification/Gc.v ===== *)
(** * Object garbage collection (crates/ukiel-gc/src/lib.rs)

    The two destructive loops -- [reap] of tombstoned parts, [sweep] of orphaned
    intents -- one authorized candidate at a time, and the listing backstop.
    What the other processes do between two iterations, and what each call to
    the catalog or the store comes to, are inputs: an [Iteration]. [GcRun] is the
    worker's loop over passes, ticks and shutdown. *)

From S2P Require Import Prelude Bytes Json Types CatalogError CatalogDb Commit CommitSpec CommitHistory CommitExamples Feed CatalogGc.
Import CatalogError CatalogDb Commit CommitSpec CommitTheorems CommitHistory Feed CatalogGc.

Module Gc.

Inductive GcError :=
| Catalog (e : CatalogError)
| ObjectStore.

Record GcConfig := mkConfig {
  tombstone_grace : Z;   (* microseconds *)
  orphan_grace : Z;      (* microseconds *)
  reconcile_every_n_passes : Z;
}.

Record GcStats := mkStats { reaped_parts : Z; swept_orphans : Z; reconciled_orphans : Z }.

(** [store.delete]: deleted, already gone, or a store error. *)
Inductive Deletion := Deleted | NotFound | StoreError.

Record Iteration := mkIteration {
  others : DbState -> DbState;       (* what other processes committed meanwhile *)
  read_error : option SqlxError;     (* the candidate query *)
  it_now : Z;                        (* its [now()] *)
  deletion : Deletion;
  stamp_outcome : Outcome;           (* the stamping statement *)
}.

(** A deletion, with the state that authorized it. *)
Record Authorized (A : Type) := mkAuth { candidate : A; auth_db : DbState; auth_now : Z }.
Arguments mkAuth {A} _ _ _.
Arguments candidate {A} _.
Arguments auth_db {A} _.
Arguments auth_now {A} _.

Section drain.
Context {A : Type}.
Context (next : Tables -> Z -> option A).
Context (stamp : A -> Z -> DbState -> DbState).

(** The loop: ask, delete, stamp, ask again.  It returns its outcome, the
    database, the candidates whose objects were deleted (or found gone) in
    order, and how many it counted; [None] when the fuel runs out. *)
Fixpoint drain (fuel : nat) (its : nat -> Iteration) (n : nat) (d : DbState)
    (log : list (Authorized A)) (count : Z)
  : option (result unit GcError * DbState * list (Authorized A) * Z) :=
  match fuel with
  | O => None
  | S fuel =>
      let it := its n in
      let d := others it d in
      match read_error it with
      | Some e => Some (Err (Catalog (Db e)), d, log, count)
      | None =>
          match next (tables d) (it_now it) with
          | None => Some (Ok tt, d, log, count)
          | Some c =>
              match deletion it with
              | StoreError => Some (Err ObjectStore, d, log, count)
              | Deleted | NotFound =>
                  let log := log ++ [mkAuth c d (it_now it)] in
                  match autocommit (stamp_outcome it) (fun d => (Ok tt, stamp c (it_now it) d)) d with
                  | (Err e, d) => Some (Err (Catalog e), d, log, count)
                  | (Ok _, d) => drain fuel its (S n) d log (count + 1)
                  end
              end
          end
      end
  end.

(** *** Every deletion is authorized by the state read for it *)

Lemma drain_log_authorized fuel its : forall n d log count r d' log' count',
  drain fuel its n d log count = Some (r, d', log', count') ->
  exists more, log' = log ++ more /\
    Forall (fun a => next (tables (auth_db a)) (auth_now a) = Some (candidate a)) more.
Proof.
  induction fuel as [|fuel IH]; intros n d log count r d' log' count'; simpl; [done|].
  assert (Stop : forall x, log' = x -> exists more, log' = x ++ more /\
    Forall (fun a => next (tables (auth_db a)) (auth_now a) = Some (candidate a)) more).
  { intros x ->. exists []. by rewrite app_nil_r. }
  destruct (read_error (its n)); [intros [= _ _ <- _]; by apply Stop|].
  destruct (next (tables (others (its n) d)) (it_now (its n))) as [c|] eqn:N;
    [|intros [= _ _ <- _]; by apply Stop].
  set (a := mkAuth c (others (its n) d) (it_now (its n))).
  assert (Go : forall d1 more, log' = (log ++ [a]) ++ more ->
    Forall (fun a => next (tables (auth_db a)) (auth_now a) = Some (candidate a)) more ->
    d1 = d1 :> DbState -> exists more, log' = log ++ more /\
    Forall (fun a => next (tables (auth_db a)) (auth_now a) = Some (candidate a)) more).
  { intros _ more -> F _. exists (a :: more). split; [by rewrite <- app_assoc|]. by constructor. }
  destruct (deletion (its n)); [| |intros [= _ _ <- _]; by apply Stop];
    (destruct (autocommit _ _ _) as [[[]|e] d2];
     [intros R%IH; destruct R as (more & E & F); by eapply (Go d2)
     |intros [= _ _ <- _]; apply (Go d2 []); [by rewrite app_nil_r|constructor|done]]).
Qed.

(** *** Undisturbed, the loop ends with nothing left *)

(** A measure every stamping of a candidate decreases. *)
Context (pending : DbState -> nat).
Context (stamp_decreases : forall d c now t, next (tables d) now = Some c ->
  (pending (stamp c t d) < pending d)%nat).

Definition quiet_iteration (now : Z) (it : Iteration) : Prop :=
  (forall d, others it d = d) /\ read_error it = None /\ it_now it = now /\
  deletion it <> StoreError /\ stamp_outcome it = Acked.

Lemma drain_terminates now its fuel : forall n d log count,
  (forall i, quiet_iteration now (its i)) -> (pending d < fuel)%nat ->
  exists d' log' count', drain fuel its n d log count = Some (Ok tt, d', log', count') /\
    next (tables d') now = None.
Proof.
  induction fuel as [|fuel IH]; intros n d log count Q Hf; [lia|].
  simpl. destruct (Q n) as (Q1 & Q2 & Q3 & Q4 & Q5). rewrite Q1, Q2, Q3.
  destruct (next (tables d) now) as [c|] eqn:N; [|eauto 6].
  assert (Go : exists d' log' count',
    drain fuel its (S n) (stamp c now d) (log ++ [mkAuth c d now]) (count + 1)
      = Some (Ok tt, d', log', count') /\ next (tables d') now = None).
  { apply IH; [done|]. pose proof (stamp_decreases d c now now N). lia. }
  destruct (deletion (its n)); [| |done]; by rewrite Q5.
Qed.
End drain.

(** ** The two loops *)

Definition reap (grace : Z) (ht : HypertableId) :=
  drain (fun t now => next_reapable_part t ht now grace)
        (fun p now => mark_purged [part_id p] now).

Definition sweep (grace : Z) (ht : HypertableId) :=
  drain (fun t now => next_orphaned_pending_object t ht now grace)
        (fun path _ => clear_pending_objects [path]).

(** [run_once] of the hypertables listed, each with the iterations of its two
    loops. *)
Fixpoint run_once (cfg : GcConfig) (fuel : nat) (hts : list (HypertableId * (nat -> Iteration) * (nat -> Iteration)))
    (d : DbState) (stats : GcStats) : option (result GcStats GcError * DbState) :=
  match hts with
  | [] => Some (Ok stats, d)
  | (ht, reaps, sweeps) :: rest =>
      match reap (tombstone_grace cfg) ht fuel reaps 0 d [] 0 with
      | None => None
      | Some (Err e, d, _, _) => Some (Err e, d)
      | Some (Ok _, d, _, reaped) =>
          match sweep (orphan_grace cfg) ht fuel sweeps 0 d [] 0 with
          | None => None
          | Some (Err e, d, _, _) => Some (Err e, d)
          | Some (Ok _, d, _, swept) =>
              run_once cfg fuel rest d
                (mkStats (reaped_parts stats + reaped) (swept_orphans stats + swept)
                         (reconciled_orphans stats))
          end
      end
  end.

(** ** The listing backstop: one hypertable of [reconcile_once]

    [objects] is the store's listing (location, last modified); [ping] and
    [delete] are what the catalog and the store answer for the i-th object. *)
Fixpoint reconcile (grace now : Z) (known : list string) (objects : list (string * Z))
    (ping : nat -> option SqlxError) (delete : nat -> Deletion) (i : nat) (deleted_any : bool)
    (deleted : list string) : result unit GcError * list string :=
  match objects with
  | [] => (Ok tt, deleted)
  | (location, last_modified) :: rest =>
      let next := reconcile grace now known rest ping delete (S i) in
      if bool_decide (location ∈ known) then next deleted_any deleted
      else if Z.quot (now - last_modified) 1000000 <? grace then next deleted_any deleted
      else
        match (if deleted_any then ping i else None) with
        | Some e => (Err (Catalog (Db e)), deleted)
        | None =>
            match delete i with
            | StoreError => (Err ObjectStore, deleted)
            | Deleted | NotFound => next true (deleted ++ [location])
            end
        end
  end.

Definition known_paths (t : Tables) (ht : HypertableId) : list string :=
  all_part_paths t ht ++ all_pending_paths t ht.

(** ** Theorems *)

(** C15: whatever else the fleet commits meanwhile and however the pass ends, every
    object [reap] deletes was authorized by the state read for that very
    deletion: its part tombstoned and unpurged, the grace over, every cursor of
    the hypertable past the deleting commit. *)
Theorem reap_deletes_only_authorized grace ht fuel its d r d' log count :
  reap grace ht fuel its 0 d [] 0 = Some (r, d', log, count) ->
  Forall (fun a => exists row c, row ∈ parts (tables (auth_db a)) /\ part_of_row row = candidate a /\
    pr_hypertable row = ht /\ pr_purged_at row = None /\ pr_deleted_by row = Some c /\
    (exists cr, cr ∈ commits (tables (auth_db a)) /\ c_id cr = c /\
       c_created_at cr <= auth_now a - grace) /\
    (forall w last, worker_cursors (tables (auth_db a)) !! (w, ht) = Some last -> c <= last)) log.
Proof.
  intros R. apply drain_log_authorized in R as (more & -> & F). simpl.
  eapply Forall_impl; [exact F|]. intros a N. apply next_reapable_spec in N as (row & Hr & E & S).
  apply is_reapable_spec in S as (Hh & Hp & c & cr & Hd & Hc & Ec & Ha & Hf).
  apply fence_spec in Hf as [_ Hf]. exists row, c. split_and!; eauto.
Qed.

(** a deleted object is never needed again: from the state that authorized its
    deletion onwards, through any commits and stampings, its part never comes
    back to life. *)
Theorem reaped_part_stays_dead grace ht fuel its d r d' log count a later row :
  reap grace ht fuel its 0 d [] 0 = Some (r, d', log, count) -> a ∈ log ->
  db_wf (auth_db a) -> db_wf later -> extends (tables (auth_db a)) (tables later) ->
  row ∈ live_rows ht (tables later) -> pr_id row <> part_id (candidate a).
Proof.
  intros R Ha W W' [_ (qs & new & P & F)] Hr E.
  apply drain_log_authorized in R as (more & -> & Fa). simpl in Ha. rewrite Forall_forall in Fa.
  specialize (Fa a Ha). apply next_reapable_spec in Fa as (row0 & Hr0 & E0 & S).
  apply is_reapable_spec in S as (_ & _ & c & _ & Hd & _).
  apply list_elem_of_lookup in Hr0 as [i Hi].
  destruct (Forall2_lookup_l _ _ _ _ _ F Hi) as (row1 & Hi1 & L).
  destruct L as (Eid & _ & _ & _ & _ & D & _). specialize (D c Hd).
  apply live_rows_spec in Hr as (Hin & _ & Hn).
  assert (Hin1 : row1 ∈ parts (tables later)).
  { rewrite P. apply elem_of_app. left. by eapply list_elem_of_lookup_2. }
  assert (row = row1) as ->; [|congruence].
  eapply (NoDup_map_inj pr_id); [apply W'|done|done|]. rewrite E, Eid, <- E0. done.
Qed.

(** *** Termination *)

Definition unpurged (d : DbState) : nat :=
  length (List.filter (fun r => bool_decide (pr_purged_at r = None)) (parts (tables d))).

Lemma filter_length_lt {A} (f : A -> A) (g : A -> bool) l x :
  x ∈ l -> g x = true -> g (f x) = false -> (forall y, g (f y) = true -> g y = true) ->
  (length (List.filter g (List.map f l)) < length (List.filter g l))%nat.
Proof.
  intros Hx Gx Gfx Mono.
  assert (Le : forall k, (length (List.filter g (List.map f k)) <= length (List.filter g k))%nat).
  { induction k as [|y k IH]; simpl; [done|]. specialize (Mono y).
    destruct (g (f y)); [rewrite Mono by done; simpl; lia|]. destruct (g y); simpl; lia. }
  induction l as [|y l IH]; [by apply elem_of_nil in Hx|]. simpl.
  apply elem_of_cons in Hx as [->|Hx].
  - rewrite Gfx, Gx. simpl. specialize (Le l). lia.
  - specialize (IH Hx). specialize (Mono y). destruct (g (f y)); [rewrite Mono by done; simpl; lia|].
    destruct (g y); simpl; lia.
Qed.

Lemma stamp_purges d grace ht now t p :
  next_reapable_part (tables d) ht now grace = Some p ->
  (unpurged (mark_purged [part_id p] t d) < unpurged d)%nat.
Proof.
  intros (row & Hr & <- & S)%next_reapable_spec. apply is_reapable_spec in S as (_ & Hp & _).
  unfold unpurged, mark_purged. simpl. eapply filter_length_lt; [exact Hr| | |].
  - by apply bool_decide_eq_true.
  - rewrite (bool_decide_eq_true_2 (pr_id row ∈ _)) by (by apply list_elem_of_singleton). done.
  - intros y. destruct (bool_decide (pr_id y ∈ _)); [|done]. simpl. by intros [=].
Qed.

(** an undisturbed reap pass ends, within one iteration more than there are
    unpurged rows, and leaves nothing reapable behind. *)
Theorem reap_terminates grace ht now its d :
  (forall i, quiet_iteration now (its i)) ->
  exists d' log count, reap grace ht (S (unpurged d)) its 0 d [] 0 = Some (Ok tt, d', log, count) /\
    reapable_parts (tables d') ht now grace = [].
Proof.
  intros Q. destruct (drain_terminates (fun t now => next_reapable_part t ht now grace)
    (fun p now => mark_purged [part_id p] now) unpurged) with (now := now) (its := its)
    (fuel := S (unpurged d)) (n := 0%nat) (d := d) (log := @nil (Authorized Part)) (count := 0)
    as (d' & log & count & E & N); [|done|lia|].
  - intros d0 c now0 t0. apply stamp_purges.
  - exists d', log, count. split; [exact E|]. unfold next_reapable_part in N.
    by destruct (reapable_parts (tables d') ht now grace).
Qed.

Lemma next_orphan_spec t ht now grace p :
  next_orphaned_pending_object t ht now grace = Some p ->
  exists row, row ∈ pending_objects t /\ po_path row = p /\ po_hypertable row = ht /\
    po_created_at row <= now - grace.
Proof.
  intros Hp%head_In. unfold orphaned_pending_objects in Hp.
  rewrite (merge_sort_Permutation String.le) in Hp.
  apply list_elem_of_In, List.in_map_iff in Hp as (row & <- & Hr%list_elem_of_In%filter_In_iff).
  destruct Hr as [Hr O]. unfold is_orphan in O. boolp. exists row. by split_and!.
Qed.

(** a sweep ends, undisturbed, with no orphan left, and deletes only objects
    whose upload intent outlived the grace without a commit clearing it. *)
Theorem sweep_deletes_only_orphans grace ht fuel its d :
  (forall r d' log count, sweep grace ht fuel its 0 d [] 0 = Some (r, d', log, count) ->
     Forall (fun a => exists row, row ∈ pending_objects (tables (auth_db a)) /\
       po_path row = candidate a /\ po_hypertable row = ht /\
       po_created_at row <= auth_now a - grace) log) /\
  (forall now, (forall i, quiet_iteration now (its i)) ->
     (length (pending_objects (tables d)) < fuel)%nat ->
     exists d' log count, sweep grace ht fuel its 0 d [] 0 = Some (Ok tt, d', log, count) /\
       orphaned_pending_objects (tables d') ht now grace = []).
Proof.
  split.
  - intros r d' log count R. apply drain_log_authorized in R as (more & -> & F). simpl.
    eapply Forall_impl; [exact F|]. intros a N. by apply next_orphan_spec in N.
  - intros now Q Hf. destruct (drain_terminates (fun t now => next_orphaned_pending_object t ht now grace)
      (fun path _ => clear_pending_objects [path]) (fun d => length (pending_objects (tables d))))
      with (now := now) (its := its) (fuel := fuel) (n := 0%nat) (d := d)
      (log := @nil (Authorized string)) (count := 0) as (d' & log & count & E & N); [|done|done|].
    + intros d0 c now0 t0 N. apply next_orphan_spec in N as (row & Hr & Ep & _). simpl.
      induction (pending_objects (tables d0)) as [|x xs IH]; [by apply elem_of_nil in Hr|].
      simpl. apply elem_of_cons in Hr as [->|Hr].
      * rewrite bool_decide_eq_true_2 by (by apply list_elem_of_singleton). simpl.
        pose proof (List.filter_length_le (fun p => negb (bool_decide (po_path p ∈ [c]))) xs). lia.
      * specialize (IH Hr). destruct (negb _); simpl; lia.
    + exists d', log, count. split; [exact E|]. unfold next_orphaned_pending_object in N.
      by destruct (orphaned_pending_objects (tables d') ht now grace).
Qed.

(** the backstop deletes only objects the catalog does not account for --
    neither a non-purged part nor an intent -- that are past the grace, and
    after its first deletion it stops as soon as the catalog is gone. *)
Theorem reconcile_deletes_only_unknown grace now t ht objects ping delete i any r deleted :
  reconcile grace now (known_paths t ht) objects ping delete i any [] = (r, deleted) ->
  Forall (fun l => (exists m, (l, m) ∈ objects /\ grace <= Z.quot (now - m) 1000000) /\
    (forall row, row ∈ parts t -> pr_hypertable row = ht -> pr_purged_at row = None ->
       path (pr_meta row) <> l) /\
    (forall p, p ∈ pending_objects t -> po_hypertable p = ht -> po_path p <> l)) deleted /\
  (any = true -> (forall j, is_Some (ping j)) -> deleted = []).
Proof.
  assert (Known : forall l, l ∉ known_paths t ht ->
    (forall row, row ∈ parts t -> pr_hypertable row = ht -> pr_purged_at row = None ->
       path (pr_meta row) <> l) /\
    (forall p, p ∈ pending_objects t -> po_hypertable p = ht -> po_path p <> l)).
  { intros l Hn. split.
    - intros row Hr Hh Hp E. apply Hn, elem_of_app. left. apply list_elem_of_In, List.in_map_iff.
      exists row. split; [done|]. apply list_elem_of_In, filter_In_iff.
      by rewrite Hh, Z.eqb_refl, Hp.
    - intros p Hp Hh E. apply Hn, elem_of_app. right. apply list_elem_of_In, List.in_map_iff.
      exists p. split; [done|]. apply list_elem_of_In, filter_In_iff. by rewrite Hh, Z.eqb_refl. }
  set (ok := fun (objs : list (string * Z)) (l : string) => (exists m, (l, m) ∈ objs /\ grace <= Z.quot (now - m) 1000000) /\
    l ∉ known_paths t ht).
  assert (G : forall objs i any acc, reconcile grace now (known_paths t ht) objs ping delete i any acc = (r, deleted) ->
    exists more, deleted = acc ++ more /\ Forall (ok objs) more /\
      (any = true -> (forall j, is_Some (ping j)) -> more = [])).
  { induction objs as [|[l m] objs IH]; intros j b acc; simpl.
    - intros [= _ <-]. exists []. rewrite app_nil_r. split; [done|]. split; [constructor|done].
    - assert (Skip : reconcile grace now (known_paths t ht) objs ping delete (S j) b acc = (r, deleted) ->
        exists more, deleted = acc ++ more /\ Forall (ok ((l, m) :: objs)) more /\
          (b = true -> (forall j, is_Some (ping j)) -> more = [])).
      { intros (more & E & F & P)%IH. exists more. split; [done|]. split; [|done].
        eapply Forall_impl; [exact F|]. intros x [(m' & ? & ?) ?]. split; [|done]. exists m'.
        split; [by right|done]. }
      destruct (bool_decide_reflect (l ∈ known_paths t ht)) as [|Hn]; [exact Skip|].
      destruct (Z.ltb_spec (Z.quot (now - m) 1000000) grace) as [|Hg]; [exact Skip|].
      destruct (if b then ping j else None) as [e|] eqn:Pg.
      { intros [= _ <-]. exists []. rewrite app_nil_r. split; [done|]. split; [constructor|done]. }
      assert (Del : reconcile grace now (known_paths t ht) objs ping delete (S j) true (acc ++ [l]) = (r, deleted) ->
        exists more, deleted = acc ++ more /\ Forall (ok ((l, m) :: objs)) more /\
          (b = true -> (forall j, is_Some (ping j)) -> more = [])).
      { intros (more & E & F & _)%IH. exists (l :: more). split; [by rewrite E, <- app_assoc|]. split.
        - constructor; [split; [exists m; split; [left|done]|done]|].
          eapply Forall_impl; [exact F|]. intros x [(m' & ? & ?) ?]. split; [|done]. exists m'.
          split; [by right|done].
        - intros -> Hp. destruct (Hp j) as [e He]. congruence. }
      destruct (delete j); [exact Del|exact Del|].
      intros [= _ <-]. exists []. rewrite app_nil_r. split; [done|]. split; [constructor|done]. }
  intros R. apply G in R as (more & -> & F & P). simpl. split; [|done].
  eapply Forall_impl; [exact F|]. intros l [E Hn]. split; [done|]. by apply Known.
Qed.

(** ** The theorems applied *)

Definition w_part : Part := mkPart 1 1 (mkPartMeta "a" JNull 0 0 1 1 0 None) 1.
Definition w_db : DbState := mkDb CatalogGc.w_tables (mkSeqs 1 0 2 1 0 0 0).
Definition calm (now : Z) : nat -> Iteration := fun _ => mkIteration (fun d => d) None now Deleted Acked.
Definition w_run := reap 900 1 5 (calm 1000) 0 w_db [] 0.

Example w_run_reaps : (fun x => (x.1.1.1, x.2)) <$> w_run = Some (Ok tt, 1).
Proof. vm_compute. reflexivity. Qed.

Lemma calm_quiet now i : quiet_iteration now (calm now i).
Proof. by split_and!. Qed.

Definition w_db' : DbState := mark_purged [1] 1000 w_db.

Lemma w_run_eq : w_run = Some (Ok tt, w_db', [mkAuth w_part w_db 1000], 1).
Proof. vm_compute. reflexivity. Qed.

Lemma reap_deletes_only_authorized_witness :
  exists row c, row ∈ parts (tables w_db) /\ part_of_row row = w_part /\ pr_deleted_by row = Some c.
Proof.
  pose proof (reap_deletes_only_authorized 900 1 5 (calm 1000) w_db _ _ _ _ w_run_eq) as F.
  apply Forall_cons in F as [(row & c & Hr & E & _ & _ & Hd & _) _]. exists row, c.
  split; [exact Hr|]. split; [exact E|exact Hd].
Defined.

Lemma reap_terminates_witness :
  exists d' log count, reap 900 1 (S (unpurged w_db)) (calm 1000) 0 w_db [] 0 = Some (Ok tt, d', log, count) /\
    reapable_parts (tables d') 1 1000 900 = [].
Proof. apply (reap_terminates 900 1 1000 (calm 1000) w_db (calm_quiet 1000)). Defined.

(** A two-commit catalog: part 1 added, then deleted; part 2 lives. *)
Definition w_later : DbState :=
  mkDb (with_parts (with_commits CatalogGc.w_tables
          [mkCommitRow 1 1 "add" None None 50; mkCommitRow 2 1 "delete" None None 100])
        [mkPartRow 1 1 (mkPartMeta "a" JNull 0 0 1 1 0 None) None 1 (Some 2) None;
         mkPartRow 2 1 (mkPartMeta "b" JNull 0 0 1 1 0 None) None 1 None None])
       (mkSeqs 1 0 2 2 0 0 0).

Ltac wf_lists := repeat match goal with
  | H : _ ∈ _ :: _ |- _ => apply elem_of_cons in H as [->|H]
  | H : _ ∈ [] |- _ => by apply elem_of_nil in H
  end.

Lemma w_later_wf : db_wf w_later.
Proof.
  split; simpl.
  - apply (bool_decide_unpack _). vm_compute. done.
  - intros c Hc. wf_lists; simpl; lia.
  - intros c1 c2 k H1 H2. wf_lists; simpl; congruence.
  - intros c f Hc. wf_lists; simpl; congruence.
  - apply (bool_decide_unpack _). vm_compute. done.
  - intros r Hr. wf_lists; simpl; lia.
  - intros r Hr. exists (mkCommitRow 1 1 "add" None None 50). wf_lists; (split; [left|done]).
  - intros r id Hr. wf_lists; simpl; [|done]. intros [= <-]. split; [lia|].
    exists (mkCommitRow 2 1 "delete" None None 100). split; [right; left|done].
  - lia.
Qed.

Definition w_run2 := reap 900 1 5 (calm 1000) 0 w_later [] 0.

Lemma w_run2_eq : w_run2 = Some (Ok tt, mark_purged [1] 1000 w_later, [mkAuth w_part w_later 1000], 1).
Proof. vm_compute. reflexivity. Qed.

Lemma w_live : mkPartRow 2 1 (mkPartMeta "b" JNull 0 0 1 1 0 None) None 1 None None
  ∈ live_rows 1 (tables w_later).
Proof. apply list_elem_of_In. vm_compute. by left. Qed.

Lemma reaped_part_stays_dead_witness : 2 <> part_id w_part.
Proof.
  apply (reaped_part_stays_dead 900 1 5 (calm 1000) w_later _ _ _ _ (mkAuth w_part w_later 1000) w_later
    _ w_run2_eq ltac:(left) w_later_wf w_later_wf (extends_refl _) w_live).
Defined.

Definition w_pending : DbState :=
  mkDb (with_pending empty_tables [mkPendingRow 1 "x" 100; mkPendingRow 1 "y" 990]) (mkSeqs 0 0 0 0 0 0 0).

Lemma sweep_deletes_only_orphans_witness :
  exists d' log count, sweep 900 1 3 (calm 1000) 0 w_pending [] 0 = Some (Ok tt, d', log, count) /\
    orphaned_pending_objects (tables d') 1 1000 900 = [].
Proof.
  apply (proj2 (sweep_deletes_only_orphans 900 1 3 (calm 1000) w_pending) 1000 (calm_quiet 1000)).
  simpl. lia.
Defined.

Definition w_reconcile : result unit GcError * list string :=
  reconcile 3600 5000000000 (known_paths (tables w_db) 1) [("a", 0); ("z", 0)]%string
    (fun _ => None) (fun _ => Deleted) 0 false [].

Lemma reconcile_deletes_only_unknown_witness :
  w_reconcile = (Ok tt, ["z"%string]) /\
  (forall row, row ∈ parts (tables w_db) -> pr_hypertable row = 1 -> pr_purged_at row = None ->
     path (pr_meta row) <> "z"%string).
Proof.
  assert (R : w_reconcile = (Ok tt, ["z"%string])) by (vm_compute; reflexivity). split; [exact R|].
  destruct (reconcile_deletes_only_unknown _ _ _ _ _ _ _ _ _ _ _ R) as [F _].
  apply Forall_cons in F as [(_ & H & _) _]. exact H.
Defined.

End Gc.

(** * The worker's loop (crates/ukiel-gc/src/lib.rs: [reconcile_once], [run]) *)

Module GcRun.
Import Gc.

(** One hypertable of [reconcile_once]. The paths of its parts and those of its
    intents are read by two statements: other processes act between them. *)
Record Reconciling := mkReconciling {
  rc_ht : HypertableId;
  rc_before_parts : DbState -> DbState;
  rc_parts_error : option SqlxError;
  rc_before_pending : DbState -> DbState;
  rc_pending_error : option SqlxError;
  rc_listing : option (list (string * Z));   (* [None]: the store's listing failed *)
  rc_now : Z;
  rc_ping : nat -> option SqlxError;
  rc_delete : nat -> Deletion;
}.

(** [orphan_grace_secs]. *)
Definition orphan_grace_secs (cfg : GcConfig) : Z := Z.quot (orphan_grace cfg) 1000000.

Fixpoint reconcile_once (cfg : GcConfig) (l : list Reconciling) (d : DbState) (stats : GcStats) (deleted : list string) :
    result GcStats GcError * DbState * list string :=
  match l with
  | [] => (Ok stats, d, deleted)
  | r :: l =>
      let d1 := rc_before_parts r d in
      match rc_parts_error r with
      | Some e => (Err (Catalog (Db e)), d1, deleted)
      | None =>
          let d2 := rc_before_pending r d1 in
          match rc_pending_error r with
          | Some e => (Err (Catalog (Db e)), d2, deleted)
          | None =>
              let known := all_part_paths (tables d1) (rc_ht r) ++ all_pending_paths (tables d2) (rc_ht r) in
              match rc_listing r with
              | None => (Err ObjectStore, d2, deleted)
              | Some objects =>
                  match reconcile (orphan_grace_secs cfg) (rc_now r) known objects (rc_ping r) (rc_delete r) 0 false [] with
                  | (Err e, gone) => (Err e, d2, deleted ++ gone)
                  | (Ok _, gone) =>
                      reconcile_once cfg l d2
                        (mkStats (reaped_parts stats) (swept_orphans stats) (reconciled_orphans stats + len gone)) (deleted ++ gone)
                  end
              end
          end
      end
  end.

(** What a tick of the loop is given: the hypertables a pass lists with the
    iterations of its loops, and those of a reconciliation. *)
Record Pass := mkPass {
  ps_hypertables : result (list (HypertableId * (nat -> Iteration) * (nat -> Iteration))) SqlxError;
  ps_reconciling : result (list Reconciling) SqlxError;
}.

Inductive RunEvent := Cancelled | Ticked (p : Pass).

Record Running := mkRunning {
  run_db : DbState;
  passes : Z;
  ready_signals : nat;
  run_log : list GcStats;
  run_deleted : list string;
}.

Definition listed {A} (r : result A SqlxError) : result A GcError := map_err (fun e => Catalog (Db e)) r.

(** [x.is_multiple_of(n)] of a positive [n]. *)
Definition reconciles (cfg : GcConfig) (pass : Z) : bool :=
  (0 <? reconcile_every_n_passes cfg) && (pass mod reconcile_every_n_passes cfg =? 0).

(** One tick: [None] when the fuel of a drain runs out. *)
Definition on_tick (cfg : GcConfig) (fuel : nat) (p : Pass) (s : Running) : option (result unit GcError * Running) :=
  match listed (ps_hypertables p) with
  | Err e => Some (Err e, s)
  | Ok hts =>
      match run_once cfg fuel hts (run_db s) (mkStats 0 0 0) with
      | None => None
      | Some (Err e, d) => Some (Err e, mkRunning d (passes s) (ready_signals s) (run_log s) (run_deleted s))
      | Some (Ok stats, d) =>
          let pass := (passes s + 1) mod 2 ^ 64 in
          let s := mkRunning d pass (S (ready_signals s)) (run_log s) (run_deleted s) in
          if reconciles cfg pass then
            match listed (ps_reconciling p) with
            | Err e => Some (Err e, s)
            | Ok l =>
                match reconcile_once cfg l d (mkStats 0 0 0) [] with
                | (Err e, d, gone) => Some (Err e, mkRunning d pass (ready_signals s) (run_log s) (run_deleted s ++ gone))
                | (Ok more, d, gone) =>
                    Some (Ok tt, mkRunning d pass (ready_signals s)
                      (run_log s ++ [mkStats (reaped_parts stats) (swept_orphans stats) (reconciled_orphans stats + reconciled_orphans more)])
                      (run_deleted s ++ gone))
                end
            end
          else Some (Ok tt, mkRunning d pass (ready_signals s) (run_log s ++ [stats]) (run_deleted s))
      end
  end.

(** The loop over its events: [Some (Ok true)] when it was told to stop. *)
Fixpoint run (cfg : GcConfig) (fuel : nat) (events : list RunEvent) (s : Running) : option (result bool GcError * Running) :=
  match events with
  | [] => Some (Ok false, s)
  | Cancelled :: _ => Some (Ok true, s)
  | Ticked p :: events =>
      match on_tick cfg fuel p s with
      | None => None
      | Some (Err e, s) => Some (Err e, s)
      | Some (Ok _, s) => run cfg fuel events s
      end
  end.

(** ** An undisturbed pass *)

Lemma reapable_nil t ht now grace : reapable_parts t ht now grace = [] <-> forall r, r ∈ parts t -> is_reapable t ht now grace r = false.
Proof.
  unfold reapable_parts, select_parts. split.
  - intros E r Hr. apply not_true_iff_false. intros R. apply List.map_eq_nil in E.
    assert (I : r ∈ merge_sort row_id_le (List.filter (is_reapable t ht now grace) (parts t))) by (rewrite merge_sort_Permutation; by apply filter_In_iff).
    rewrite E in I. by apply elem_of_nil in I.
  - intros F. replace (List.filter _ _) with (@nil PartRow); [done|]. symmetry. induction (parts t) as [|r rs IH]; [done|]. simpl.
    rewrite F by left. apply IH. intros x Hx. apply F. by right.
Qed.

Lemma orphans_nil t ht now grace : orphaned_pending_objects t ht now grace = [] <-> forall p, p ∈ pending_objects t -> is_orphan ht now grace p = false.
Proof.
  unfold orphaned_pending_objects. split.
  - intros E p Hp. apply not_true_iff_false. intros R.
    assert (I : po_path p ∈ merge_sort String.le (List.map po_path (List.filter (is_orphan ht now grace) (pending_objects t)))).
    { rewrite merge_sort_Permutation. apply list_elem_of_In, List.in_map, list_elem_of_In. by apply filter_In_iff. }
    rewrite E in I. by apply elem_of_nil in I.
  - intros F. replace (List.filter _ _) with (@nil PendingRow); [done|]. symmetry. induction (pending_objects t) as [|r rs IH]; [done|]. simpl.
    rewrite F by left. apply IH. intros x Hx. apply F. by right.
Qed.

Section drain_keeps.
Context {A : Type} (next : Tables -> Z -> option A) (stamp : A -> Z -> DbState -> DbState).

(** What every stamping keeps, an undisturbed loop keeps. *)
Lemma drain_keeps (P : DbState -> Prop) now its : (forall i, quiet_iteration now (its i)) -> (forall d c, next (tables d) now = Some c -> P d -> P (stamp c now d)) ->
  forall fuel n d log count r d' log' count', P d -> drain next stamp fuel its n d log count = Some (r, d', log', count') -> P d'.
Proof.
  intros Q K. induction fuel as [|fuel IH]; intros n d log count r d' log' count' Pd; simpl; [done|].
  destruct (Q n) as (Q1 & Q2 & Q3 & Q4 & Q5). rewrite Q1, Q2, Q3. destruct (next (tables d) now) as [c|] eqn:N; [|by intros [= _ <- _ _]].
  rewrite Q5. destruct (deletion (its n)) eqn:D; [| |done]; (intros R; eapply IH; [|exact R]; by apply K).
Qed.
End drain_keeps.

(** What the pass leaves of the hypertables it went through. *)
Definition clean (cfg : GcConfig) (now : Z) (ht : HypertableId) (d : DbState) : Prop :=
  reapable_parts (tables d) ht now (tombstone_grace cfg) = [] /\ orphaned_pending_objects (tables d) ht now (orphan_grace cfg) = [].

Lemma clean_purge cfg now ht ids t d : clean cfg now ht d -> clean cfg now ht (mark_purged ids t d).
Proof.
  unfold clean. rewrite !reapable_nil, !orphans_nil. intros [R O]. split; [|exact O]. simpl. intros r Hr.
  apply list_elem_of_In, List.in_map_iff in Hr as (r0 & <- & Hr0%list_elem_of_In). specialize (R r0 Hr0).
  case_bool_decide; [|exact R]. unfold is_reapable. simpl. by rewrite andb_false_r.
Qed.

Lemma clean_clear cfg now ht paths d : clean cfg now ht d -> clean cfg now ht (clear_pending_objects paths d).
Proof.
  intros [R O]. destruct paths as [|p ps]; [done|]. split; [exact R|]. rewrite orphans_nil in *. intros q Hq. apply O. simpl in Hq.
  by apply filter_In_iff in Hq as [? _].
Qed.

Lemma clear_unpurged paths d : unpurged (clear_pending_objects paths d) = unpurged d.
Proof. by destruct paths. Qed.

Lemma clear_pending_le paths d : (length (pending_objects (tables (clear_pending_objects paths d))) <= length (pending_objects (tables d)))%nat.
Proof. destruct paths; [done|]. simpl. apply List.filter_length_le. Qed.

(** C16: a pass that nothing disturbs ends, over any number of hypertables, within as
    many iterations as there are unpurged rows and intents, and leaves none of them
    a part to reap nor an orphan to sweep. *)
Theorem gc_pass_ends cfg now fuel hts d stats :
  Forall (fun h => (forall i, quiet_iteration now (h.1.2 i)) /\ (forall i, quiet_iteration now (h.2 i))) hts ->
  (unpurged d < fuel)%nat -> (length (pending_objects (tables d)) < fuel)%nat ->
  exists stats' d', run_once cfg fuel hts d stats = Some (Ok stats', d') /\ Forall (fun h => clean cfg now h.1.1 d') hts.
Proof.
  intros Q U P. enough (G : forall done d stats, (unpurged d < fuel)%nat -> (length (pending_objects (tables d)) < fuel)%nat ->
    Forall (fun ht => clean cfg now ht d) done ->
    exists stats' d', run_once cfg fuel hts d stats = Some (Ok stats', d') /\ Forall (fun ht => clean cfg now ht d') (done ++ List.map (fun h => h.1.1) hts)).
  { destruct (G [] d stats U P) as (stats' & d' & R & F); [constructor|]. exists stats', d'. split; [exact R|].
    rewrite Forall_forall in F. apply Forall_forall. intros h Hh. apply (F h.1.1). simpl. apply list_elem_of_In, List.in_map_iff. exists h. by rewrite <-list_elem_of_In. }
  clear d stats U P. induction Q as [|[[ht reaps] sweeps] hts [Q1 Q2] Q IH]; intros done0 d stats U P C.
  - exists stats, d. rewrite app_nil_r. split; [done|exact C].
  - simpl in Q1, Q2. cbn [run_once].
    set (keep := fun n m d => (unpurged d <= n)%nat /\ (length (pending_objects (tables d)) <= m)%nat /\ Forall (fun ht => clean cfg now ht d) done0).
    destruct (drain_terminates (fun t now => next_reapable_part t ht now (tombstone_grace cfg)) (fun p now => mark_purged [part_id p] now) unpurged
      ltac:(intros d0 c now0 t0; apply stamp_purges) now reaps fuel 0 d [] 0 Q1 U) as (d1 & log1 & n1 & R1 & E1).
    assert (K1 : keep (unpurged d) (length (pending_objects (tables d))) d1).
    { eapply drain_keeps in R1; [exact R1|exact Q1| |by split_and!]. intros d0 c N (B1 & B2 & B3). split_and!; [pose proof (stamp_purges d0 _ ht now now c N); lia|exact B2|].
      eapply Forall_impl; [exact B3|]. intros h. apply clean_purge. }
    destruct K1 as (U1 & P1 & C1). unfold reap. rewrite R1.
    assert (Rn : reapable_parts (tables d1) ht now (tombstone_grace cfg) = []) by (unfold next_reapable_part in E1; by destruct (reapable_parts _ _ _ _)).
    destruct (proj2 (sweep_deletes_only_orphans (orphan_grace cfg) ht fuel sweeps d1) now Q2 ltac:(lia)) as (d2 & log2 & n2 & R2 & E2). rewrite R2.
    assert (K2 : keep (unpurged d) (length (pending_objects (tables d))) d2 /\ reapable_parts (tables d2) ht now (tombstone_grace cfg) = []).
    { unfold sweep in R2. eapply (drain_keeps _ _ (fun d => keep (unpurged d1) (length (pending_objects (tables d1))) d /\ reapable_parts (tables d) ht now (tombstone_grace cfg) = [])) in R2;
        [|exact Q2| |by split_and!].
      - destruct R2 as [(B1 & B2 & B3) B4]. split; [split_and!; [lia|lia|exact B3]|exact B4].
      - intros d0 c _ [(B1 & B2 & B3) B4]. pose proof (clear_pending_le [c] d0). split; [|exact B4]. split_and!; [by rewrite clear_unpurged|lia|].
        eapply Forall_impl; [exact B3|]. intros h. apply clean_clear. }
    destruct K2 as [(U2 & P2 & C2) Rn2]. 
    destruct (IH (done0 ++ [ht]) d2 (mkStats (reaped_parts stats + n1) (swept_orphans stats + n2) (reconciled_orphans stats))) as (stats' & d' & R & F); [lia|lia|by apply Forall_app; split; [|constructor]|].
    exists stats', d'. split; [exact R|]. simpl. by rewrite <-app_assoc in F.
Qed.

(** ** A commit between the two reads *)

(** An upload whose intent is on record and whose object is an hour old, and the
    commit that adds its part while the reconciliation reads the paths. *)
#[local] Existing Instance CommitExamples.model_jsonb.
Definition before_commit : DbState :=
  mkDb (with_pending (tables CommitExamples.db0) [mkPendingRow 1 "a" 0]) (seqs CommitExamples.db0).
Definition commits_between (d : DbState) : DbState :=
  (commit_with_offsets CommitExamples.no_b64 CommitExamples.no_tm (quiet 5) 1 (Add [CommitExamples.part "a" 0]) CommitExamples.offsets1
     (CommitExamples.ident "k1" 1) 0 d).1.2.
Definition racing : Reconciling :=
  mkReconciling 1 (fun d => d) None commits_between None (Some [("a"%string, 0)]) (3600 * 10 ^ 6) (fun _ => None) (fun _ => Deleted).
Definition hourly : GcConfig := mkConfig (900 * 10 ^ 6) (3600 * 10 ^ 6) 1.
Definition raced := reconcile_once hourly [racing] before_commit (mkStats 0 0 0) [].

(** the backstop reads the paths of the parts, then those of the intents, in two
    statements: a commit between them moves a path from the second to the first
    and is seen by neither, and the object of the part it added is deleted while
    the part is live. *)
Theorem reconcile_can_delete_a_live_part :
  all_pending_paths (tables before_commit) 1 = ["a"%string] /\
  raced.1.1 = Ok (mkStats 0 0 1) /\ raced.2 = ["a"%string] /\
  exists row, row ∈ live_rows 1 (tables raced.1.2) /\ path (pr_meta row) = "a"%string.
Proof.
  split_and!; [by vm_compute..|]. destruct (live_rows 1 (tables raced.1.2)) as [|row rows] eqn:E; [by vm_compute in E|].
  exists row. split; [left|]. vm_compute in E. by injection E as <- <-.
Qed.

(** Without such a commit the pass, which reconciles, keeps the object. *)
Example a_quiet_reconciliation_keeps_it :
  (fun x => (x.1, run_deleted x.2, run_log x.2)) <$>
    run hourly 3 [Ticked (mkPass (Ok [(1, calm 50, calm 50)]) (Ok [mkReconciling 1 (fun d => d) None (fun d => d) None (Some [("a", 0); ("z", 0)]%string)
      (3600 * 10 ^ 6) (fun _ => None) (fun _ => Deleted)])); Cancelled] (mkRunning before_commit 0 0 [] []) =
  Some (Ok true, ["z"%string], [mkStats 0 0 1]).
Proof. by vm_compute. Qed.

Example gc_pass_ends_witness :
  exists stats' d', run_once hourly 3 [(1, calm 50, calm 50)] before_commit (mkStats 0 0 0) = Some (Ok stats', d') /\
    Forall (fun h : Z * (nat -> Iteration) * (nat -> Iteration) => clean hourly 50 h.1.1 d') [(1, calm 50, calm 50)].
Proof.
  apply (gc_pass_ends hourly 50 3 [(1, calm 50, calm 50)] before_commit (mkStats 0 0 0)); [|vm_compute; lia|vm_compute; lia].
  constructor; [split; apply calm_quiet|constructor].
Defined.

End GcRun.
