(* ===== verification/Tables.v ===== *)
(** * Registered tables (crates/ukiel-catalog/src/tables.rs) *)

From S2P Require Import Prelude Bytes Json Arrow Types Schema CatalogError CatalogDb Commit CommitSpec.
Import CatalogError CatalogDb Commit CommitSpec.

Module Registry.

Definition unique_violation : CatalogError := Db (Database (Some "23505")).
Definition foreign_key_violation : CatalogError := Db (Database (Some "23503")).
Definition check_violation : CatalogError := Db (Database (Some "23514")).

(** The registration-time checks of [create_hypertable]. *)
Definition check_registration (table_schema : json) (sort_key : list string) (packing_key : string)
  : result unit CatalogError :=
  let? cols := map_err SchemaErr (Schema.parse table_schema) in
  map_err SortKeyErr
    (Schema.validate_sort_key (Schema.physical_schema cols) sort_key packing_key None).

Definition create_hypertable (name : string) (table_schema partition_spec : json)
    (sort_key : list string) (packing_key : string) (d : DbState)
  : result HypertableId CatalogError * DbState :=
  match check_registration table_schema sort_key packing_key with
  | Err e => (Err e, d)
  | Ok _ =>
      let t := tables d in
      let '(id, s) := nextval_hypertables (seqs d) in
      if List.existsb (fun h => String.eqb (ht_name h) name) (hypertables t)
      then (Err unique_violation, mkDb t s)
      else (Ok id, mkDb (with_hypertables t (hypertables t ++
              [mkHypertable id name table_schema partition_spec sort_key packing_key Packed])) s)
  end.

Definition get_hypertable (name : string) (t : Tables) : result Hypertable CatalogError :=
  ok_or (List.find (fun h => String.eqb (ht_name h) name) (hypertables t))
    (NotFound ("hypertable '" +:+ name +:+ "'")%string).

Definition get_hypertable_by_id (id : HypertableId) (t : Tables) : result Hypertable CatalogError :=
  ok_or (List.find (fun h => ht_id h =? id) (hypertables t))
    (NotFound ("hypertable id " +:+ pretty id)%string).

Definition create_logical_table (namespace_id : NamespaceId) (name : string) (ht : HypertableId)
    (d : DbState) : result LogicalTableId CatalogError * DbState :=
  let t := tables d in
  let '(id, s) := nextval_logical_tables (seqs d) in
  if List.existsb (fun l => (lt_namespace_id l =? namespace_id) && String.eqb (lt_name l) name)
       (logical_tables t)
  then (Err unique_violation, mkDb t s)
  else if negb (List.existsb (fun h => ht_id h =? ht) (hypertables t))
  then (Err foreign_key_violation, mkDb t s)
  else (Ok id, mkDb (with_logical_tables t (logical_tables t ++
          [mkLogicalTable id namespace_id name ht None])) s).

Definition get_logical_table (namespace_id : NamespaceId) (name : string) (t : Tables)
  : result LogicalTable CatalogError :=
  ok_or (List.find (fun l => (lt_namespace_id l =? namespace_id) && String.eqb (lt_name l) name)
           (logical_tables t))
    (NotFound ("logical table '" +:+ name +:+ "' in namespace " +:+ pretty namespace_id)%string).

Definition lt_name_le (a b : LogicalTable) : Prop := String.le (lt_name a) (lt_name b).
#[global] Instance lt_name_le_dec a b : Decision (lt_name_le a b).
Proof. unfold lt_name_le; apply _. Defined.

Definition list_logical_tables (namespace_id : NamespaceId) (t : Tables) : list LogicalTable :=
  merge_sort lt_name_le (List.filter (fun l => lt_namespace_id l =? namespace_id) (logical_tables t)).

Definition replace_placement (p : Placement) (h : Hypertable) : Hypertable :=
  mkHypertable (ht_id h) (ht_name h) (table_schema h) (partition_spec h) (sort_key h) (packing_key h) p.

(** The column keeps [to_db] of the placement; rows read it with [from_db]. *)
Definition set_placement (id : HypertableId) (p : Placement) (d : DbState)
  : result unit CatalogError * DbState :=
  let t := tables d in
  if List.existsb (fun h => ht_id h =? id) (hypertables t)
     && match to_db p with Some n => n <? 0 | None => false end
  then (Err check_violation, d)
  else (Ok tt, mkDb (with_hypertables t (List.map (fun h =>
          if ht_id h =? id then replace_placement (from_db (to_db p)) h else h) (hypertables t))) (seqs d)).

Definition ht_id_le (a b : Hypertable) : Prop := ht_id a <= ht_id b.
#[global] Instance ht_id_le_dec a b : Decision (ht_id_le a b).
Proof. unfold ht_id_le; apply _. Defined.

Definition list_hypertables (t : Tables) : list Hypertable := merge_sort ht_id_le (hypertables t).

(** ** Theorems *)

(** What registration guarantees of every hypertable. *)
Definition registered (h : Hypertable) : Prop :=
  exists cols, Schema.parse (table_schema h) = Ok cols /\
    List.hd_error (sort_key h) = Some (packing_key h) /\
    (forall c, List.In c (sort_key h) -> has_column (Schema.physical_schema cols) c = true) /\
    placement_valid (placement h).

Record tables_wf (d : DbState) : Prop := {
  tw_ids : NoDup (List.map ht_id (hypertables (tables d)));
  tw_bound : forall h, h ∈ hypertables (tables d) -> ht_id h <= hypertables_id_seq (seqs d);
  tw_names : NoDup (List.map ht_name (hypertables (tables d)));
  tw_registered : Forall registered (hypertables (tables d));
}.

Lemma from_db_valid x : placement_valid (from_db x).
Proof. destruct x as [n|]; simpl; [|done]. destruct (Z.leb_spec n 0); simpl; [done|lia]. Qed.

Lemma map_snoc_NoDup {A B} (f : A -> B) l x :
  NoDup (List.map f l) -> f x ∉ List.map f l -> NoDup (List.map f (l ++ [x])).
Proof.
  intros N X. rewrite List.map_app. apply NoDup_app. split_and!; [done| |apply NoDup_singleton].
  intros y Hy ->%list_elem_of_singleton. done.
Qed.

Lemma create_hypertable_cases name schema spec sk pk d r d' :
  create_hypertable name schema spec sk pk d = (r, d') ->
  match r with
  | Ok id => id = hypertables_id_seq (seqs d) + 1 /\ hypertables_id_seq (seqs d') = id /\
      check_registration schema sk pk = Ok tt /\
      (forall h, h ∈ hypertables (tables d) -> ht_name h <> name) /\
      tables d' = with_hypertables (tables d)
        (hypertables (tables d) ++ [mkHypertable id name schema spec sk pk Packed])
  | Err e => tables d' = tables d /\ hypertables_id_seq (seqs d) <= hypertables_id_seq (seqs d')
  end.
Proof.
  unfold create_hypertable. destruct (check_registration schema sk pk) as [[]|e] eqn:C;
    [|intros [= <- <-]; split; [done|lia]]. simpl.
  destruct (List.existsb _ (hypertables (tables d))) eqn:X; intros [= <- <-]; simpl.
  - split; [done|lia].
  - split_and!; try done. intros h Hh E. apply not_true_iff_false in X. apply X, List.existsb_exists.
    exists h. split; [by apply list_elem_of_In|]. by apply String.eqb_eq.
Qed.

(** every registered hypertable is usable: creation and re-placement keep ids
    and names unique, and each table's schema parses, its packing key leads its
    sort key, every sort column is physically stored, and its placement is a
    valid one. *)
Theorem registration_invariant d :
  tables_wf d ->
  (forall name schema spec sk pk, tables_wf (create_hypertable name schema spec sk pk d).2) /\
  (forall id p, tables_wf (set_placement id p d).2).
Proof.
  intros [W1 W2 W3 W4]. split.
  - intros name schema spec sk pk. destruct (create_hypertable name schema spec sk pk d) as [r d'] eqn:E.
    apply create_hypertable_cases in E. simpl. destruct r as [id|e].
    + destruct E as (-> & S & C & N & T). split; rewrite ?T, ?S; simpl.
      * apply map_snoc_NoDup; [done|]. intros Hin%list_elem_of_In%List.in_map_iff.
        destruct Hin as (h & E & Hh%list_elem_of_In%W2). simpl in E. lia.
      * intros h [Hh%W2| ->%list_elem_of_singleton]%elem_of_app; simpl; lia.
      * apply map_snoc_NoDup; [done|]. intros Hin%list_elem_of_In%List.in_map_iff.
        destruct Hin as (h & E & Hh%list_elem_of_In). by apply (N h).
      * apply Forall_app. split; [done|]. constructor; [|constructor].
        unfold check_registration in C. destruct (Schema.parse schema) as [cols|] eqn:P; simpl in C; [|done].
        exists cols. destruct (Schema.validate_sort_key _ sk pk None) as [[]|] eqn:V; [|done].
        apply Schema.validate_sort_key_Ok in V as (H1 & H2 & _). simpl. by split_and!.
    + destruct E as [T S]. split; rewrite ?T; try done. intros h Hh%W2. lia.
  - intros id p. unfold set_placement. destruct (_ && _); [by split|].
    split; simpl.
    + assert (E : forall l, List.map ht_id (List.map (fun h => if ht_id h =? id then
          replace_placement (from_db (to_db p)) h else h) l) = List.map ht_id l).
      { intros l. rewrite List.map_map. apply List.map_ext. intros h. by destruct (ht_id h =? id). }
      by rewrite E.
    + intros h (h0 & <- & Hh%list_elem_of_In%W2)%list_elem_of_In%List.in_map_iff.
      by destruct (ht_id h0 =? id).
    + assert (E : forall l, List.map ht_name (List.map (fun h => if ht_id h =? id then
          replace_placement (from_db (to_db p)) h else h) l) = List.map ht_name l).
      { intros l. rewrite List.map_map. apply List.map_ext. intros h. by destruct (ht_id h =? id). }
      by rewrite E.
    + apply Forall_forall. intros h (h0 & <- & Hh%list_elem_of_In)%list_elem_of_In%List.in_map_iff.
      rewrite Forall_forall in W4. destruct (W4 h0 Hh) as (cols & R1 & R2 & R3 & R4).
      exists cols. destruct (ht_id h0 =? id); simpl; split_and!; try done. apply from_db_valid.
Qed.

Definition w_schema : json :=
  JObject [("fields"%string, JArray [JObject [("name"%string, JString "k"); ("type"%string, JString "int64")]])].

Example w_registers : (create_hypertable "t" w_schema JNull ["k"%string] "k" empty_db).1 = Ok 1.
Proof. vm_compute. reflexivity. Qed.

Lemma empty_tables_wf : tables_wf empty_db.
Proof. split; simpl; try constructor. intros h Hh. by apply elem_of_nil in Hh. Qed.

Lemma registration_invariant_witness :
  tables_wf (create_hypertable "t" w_schema JNull ["k"%string] "k" empty_db).2.
Proof. apply (proj1 (registration_invariant empty_db empty_tables_wf)). Defined.

End Registry.
