(* ===== verification/Pipelines.v ===== *)
(** * Pipeline definitions (crates/ukiel-catalog/src/pipelines.rs)

    Immutable stream tables and pipelines, the endpoint and cycle checks, and
    the registration of a view's cursor.  A pipeline row is kept in the
    database's spelling and read back by [pipeline]. *)

From S2P Require Import Prelude Bytes Json Arrow Types Schema CatalogError CatalogDb Commit CommitSpec CommitHistory Feed Tables.
Import CatalogError CatalogDb Commit CommitSpec.

Module Pipelines.

(** ** Rust's [str::trim]

    [char::is_whitespace] on UTF-8: the ASCII spaces and controls, and the
    multi-byte space separators. *)
Definition ascii_space (b : Z) : bool := (b =? 32) || ((9 <=? b) && (b <=? 13)).

Fixpoint all_space (bs : list Z) : bool :=
  match bs with
  | [] => true
  | 0xC2 :: 0x85 :: rest | 0xC2 :: 0xA0 :: rest => all_space rest
  | 0xE1 :: 0x9A :: 0x80 :: rest => all_space rest
  | 0xE2 :: 0x81 :: 0x9F :: rest => all_space rest
  | 0xE3 :: 0x80 :: 0x80 :: rest => all_space rest
  | 0xE2 :: 0x80 :: b :: rest =>
      ((0x80 <=? b) && (b <=? 0x8A) || (b =? 0xA8) || (b =? 0xA9) || (b =? 0xAF)) && all_space rest
  | b :: rest => ascii_space b && all_space rest
  end.

Definition trim_is_empty (s : string) : bool := all_space (str_bytes s).

(** ** Rows *)

Definition PIPELINE_KIND (e : Endpoint) : string :=
  match e with Kafka _ => "kafka" | Parquet _ => "parquet" end.

Definition policy_text (p : ErrorPolicy) : string :=
  match p with Stall => "stall" | Skip => "skip" end.

Definition pipeline (row : PipelineRow) : result Pipeline CatalogError :=
  let? source :=
    (if String.eqb (pp_source_kind row) "kafka" then Ok (Kafka (pp_source_id row))
     else if String.eqb (pp_source_kind row) "parquet" then Ok (Parquet (pp_source_id row))
     else Err (Invariant ("unknown pipeline source kind " +:+ pp_source_kind row)%string)) in
  let? delivery :=
    (if String.eqb (pp_delivery row) "exactly_once" then Ok ExactlyOnce
     else Err (Invariant ("unknown pipeline delivery " +:+ pp_delivery row)%string)) in
  let? error_policy :=
    (if String.eqb (pp_error_policy row) "stall" then Ok Stall
     else if String.eqb (pp_error_policy row) "skip" then Ok Skip
     else Err (Invariant ("unknown pipeline error policy " +:+ pp_error_policy row)%string)) in
  if negb (String.eqb (pp_target_kind row) "parquet")
  then Err (Invariant "pipeline target is not parquet")
  else Ok (mkPipeline (pp_id row)
         (mkPipelineDefinition (pp_name row) source (pp_target_id row) (pp_sql row) delivery
            error_policy (pp_event_time_column row))).

Definition stream_table (s : StreamTable) : result StreamTable CatalogError :=
  if negb (String.eqb (st_format (st_definition s)) "json")
  then Err (Invariant ("unknown stream format " +:+ st_format (st_definition s))%string)
  else Ok s.

(** ** Stream tables *)

Definition stream_def_invalid (def : StreamTableDefinition) : bool :=
  trim_is_empty (st_name def) || trim_is_empty (st_topic def)
  || negb (String.eqb (st_format def) "json").

Definition find_stream (t : CatalogDb.Tables) (name : string) : option StreamTable :=
  List.find (fun s => String.eqb (st_name (st_definition s)) name) (stream_tables t).

(** [INSERT ... ON CONFLICT(name) DO NOTHING]; the topic is unique too. *)
Definition insert_stream (def : StreamTableDefinition) (d : DbState) : result unit CatalogError * DbState :=
  let t := tables d in
  let '(id, s) := nextval_stream_tables (seqs d) in
  match find_stream t (st_name def) with
  | Some _ => (Ok tt, mkDb t s)
  | None =>
      if List.existsb (fun x => String.eqb (st_topic (st_definition x)) (st_topic def)) (stream_tables t)
      then (Err Registry.unique_violation, mkDb t s)
      else (Ok tt, mkDb (with_stream_tables t (stream_tables t ++ [mkStreamTable id def])) s)
  end.

(** Adopts the offsets ingested from the topic before it was defined. *)
Definition adopt_offsets (id : StreamTableId) (topic : string) (t : CatalogDb.Tables) : CatalogDb.Tables :=
  with_offsets t (map_imap (fun k cell =>
    Some (if String.eqb k.1.2 topic && bool_decide (stream_table_id cell = None)
          then mkOffsetCell (next_offset cell) (Some id) else cell)) (ingest_offsets t)).

Definition ensure_stream_table (def : StreamTableDefinition) (d : DbState)
  : result StreamTable CatalogError * DbState :=
  if stream_def_invalid def
  then (Err (InvalidPipeline "stream name/topic and JSON format are required"), d)
  else
    match map_err SchemaErr (Schema.parse (st_schema def)) with
    | Err e => (Err e, d)
    | Ok cols =>
        if List.existsb (fun c => CatalogError.starts_with "__ukiel_" (Schema.name c)
                                  || match Schema.column_kind c with Schema.Stored => false | _ => true end)
             (Schema.specs cols)
        then (Err (InvalidPipeline
               "stream fields must be stored and cannot use the __ukiel_ prefix"), d)
        else
          let '(r, d1) := insert_stream def d in
          match r with
          | Err e => (Err e, rollback d d1)
          | Ok _ =>
              match ok_or (find_stream (tables d1) (st_name def)) (Db OtherSqlx) with
              | Err e => (Err e, rollback d d1)
              | Ok row =>
                  match stream_table row with
                  | Err e => (Err e, rollback d d1)
                  | Ok found =>
                      if negb (bool_decide (st_definition found = def))
                      then (Err (InvalidPipeline ("stream " +:+ st_name def
                              +:+ " differs from its immutable definition")%string), rollback d d1)
                      else (Ok found, mkDb (adopt_offsets (st_id found) (st_topic def) (tables d1)) (seqs d1))
                  end
              end
          end
    end.

(** ** Pipelines *)

Definition pipeline_def_invalid (def : PipelineDefinition) : bool :=
  trim_is_empty (pl_name def) || trim_is_empty (pl_sql def)
  || (endpoint_id (pl_source def) <=? 0) || (pl_target def <=? 0).

Definition find_pipeline (t : CatalogDb.Tables) (name : string) : option PipelineRow :=
  List.find (fun p => String.eqb (pp_name p) name) (pipelines t).

(** The view edges: source hypertable to target hypertable. *)
Definition edges (t : CatalogDb.Tables) : list (Z * Z) :=
  omap (fun p => if String.eqb (pp_source_kind p) "parquet"
                 then Some (pp_source_id p, pp_target_id p) else None) (pipelines t).

(** [WITH RECURSIVE reachable]: the targets reached from a set, until nothing is
    added; as many rounds as there are edges are enough ([closure_complete]). *)
Definition expand (es : list (Z * Z)) (s : gset Z) : gset Z :=
  s ∪ list_to_set (omap (fun e => if bool_decide (e.1 ∈ s) then Some e.2 else None) es).

Fixpoint closure (fuel : nat) (es : list (Z * Z)) (s : gset Z) : gset Z :=
  match fuel with O => s | S fuel => closure fuel es (expand es s) end.

Definition reachable (es : list (Z * Z)) (from : Z) : gset Z := closure (length es) es {[from]}.

Definition would_cycle (t : CatalogDb.Tables) (def : PipelineDefinition) : bool :=
  match pl_source def with
  | Parquet source => bool_decide (source ∈ reachable (edges t) (pl_target def))
  | Kafka _ => false
  end.

Definition source_exists (t : CatalogDb.Tables) (e : Endpoint) : bool :=
  match e with
  | Kafka id => List.existsb (fun s => st_id s =? id) (stream_tables t)
  | Parquet id => List.existsb (fun h => ht_id h =? id) (hypertables t)
  end.

Definition row_of (id : PipelineId) (def : PipelineDefinition) : PipelineRow :=
  mkPipelineRow id (pl_name def) (PIPELINE_KIND (pl_source def)) (endpoint_id (pl_source def)) "parquet"
    (pl_target def) (pl_sql def) "exactly_once" (policy_text (pl_error_policy def))
    (pl_event_time_column def).

Definition ensure_pipeline (def : PipelineDefinition) (d : DbState)
  : result Pipeline CatalogError * DbState :=
  let t := tables d in
  if pipeline_def_invalid def
  then (Err (InvalidPipeline "pipeline name, SQL, and valid endpoints are required"), d)
  else
    match find_pipeline t (pl_name def) with
    | Some row =>
        match pipeline row with
        | Err e => (Err e, d)
        | Ok found =>
            if negb (bool_decide (pl_definition found = def))
            then (Err (InvalidPipeline ("pipeline " +:+ pl_name def
                    +:+ " differs from its immutable definition")%string), d)
            else (Ok found, d)
        end
    | None =>
        if negb (source_exists t (pl_source def))
           || negb (List.existsb (fun h => ht_id h =? pl_target def) (hypertables t))
        then (Err (InvalidPipeline "pipeline endpoint does not exist in the declared kind"), d)
        else if would_cycle t def
        then (Err (InvalidPipeline "pipeline would create a cycle"), d)
        else
          let '(id, s) := nextval_pipelines (seqs d) in
          let row := row_of id def in
          match pipeline row with
          | Err e => (Err e, mkDb t s)
          | Ok found => (Ok found, mkDb (with_pipelines t (pipelines t ++ [row])) s)
          end
    end.

Definition get_pipeline (t : CatalogDb.Tables) (name : string) : result Pipeline CatalogError :=
  let? row := ok_or (find_pipeline t name) (NotFound ("pipeline " +:+ name)%string) in pipeline row.

Definition find_pipeline_id (t : CatalogDb.Tables) (id : PipelineId) : option PipelineRow :=
  List.find (fun p => pp_id p =? id) (pipelines t).

Definition get_pipeline_by_id (t : CatalogDb.Tables) (id : PipelineId) : result Pipeline CatalogError :=
  let? row := ok_or (find_pipeline_id t id) (NotFound ("pipeline " +:+ pretty id)%string) in pipeline row.

Definition pipeline_name_le (a b : PipelineRow) : Prop := String.le (pp_name a) (pp_name b).
#[global] Instance pipeline_name_le_dec a b : Decision (pipeline_name_le a b).
Proof. unfold pipeline_name_le; apply _. Defined.

Definition list_pipelines (t : CatalogDb.Tables) : result (list Pipeline) CatalogError :=
  mapr pipeline (merge_sort pipeline_name_le (pipelines t)).

(** ** The cursor of a view *)

Definition mv_worker (id : PipelineId) : string := ("mv/" +:+ pretty id)%string.

(** First selection registers the cursor at the head read behind the feed
    barrier; later ones return what is stored. *)
Definition ensure_mv_cursor (id : PipelineId) (d : DbState) : result CommitId CatalogError * DbState :=
  let t := tables d in
  match find_pipeline_id t id with
  | None => (Err (NotFound ("pipeline " +:+ pretty id)%string), d)
  | Some row =>
      if negb (String.eqb (pp_source_kind row) "parquet")
      then (Err (InvalidPipeline "MV cursor requires a Parquet source"), d)
      else
        let source := pp_source_id row in
        let key := (mv_worker id, source) in
        match worker_cursors t !! key with
        | Some cursor => (Ok cursor, d)
        | None =>
            let head := Feed.feed_head t source in
            (Ok head, mkDb (with_cursors t (<[key := head]> (worker_cursors t))) (seqs d))
        end
  end.

Definition read_mv_cursor (t : CatalogDb.Tables) (id : PipelineId) : result CommitId CatalogError :=
  match find_pipeline_id t id with
  | None => Err (NotFound ("pipeline " +:+ pretty id)%string)
  | Some row =>
      if negb (String.eqb (pp_source_kind row) "parquet")
      then Err (InvalidPipeline "MV cursor requires a Parquet source")
      else ok_or (worker_cursors t !! (mv_worker id, pp_source_id row))
             (Invariant ("MV " +:+ pretty id +:+ " has no registered cursor")%string)
  end.

(** ** Reachability *)

Definition edge (es : list (Z * Z)) (x y : Z) : Prop := (x, y) ∈ es.

Lemma expand_In es s x : x ∈ expand es s <-> x ∈ s \/ exists y, y ∈ s /\ edge es y x.
Proof.
  unfold expand, edge. rewrite elem_of_union, elem_of_list_to_set, list_elem_of_omap.
  split; (intros [?|H]; [by left|right]).
  - destruct H as ([a b] & Hin & E). simpl in E. case_bool_decide; [|done]. injection E as ->. eauto.
  - destruct H as (y & Hy & He). exists (y, x). split; [done|]. simpl. by rewrite bool_decide_eq_true_2.
Qed.

(** The edges leading out of a set. *)
Definition outside (es : list (Z * Z)) (s : gset Z) : nat :=
  length (List.filter (fun e => bool_decide (e.2 ∉ s)) es).

Lemma outside_shrinks es s y x :
  y ∈ s -> edge es y x -> x ∉ s -> (outside es (expand es s) < outside es s)%nat.
Proof.
  intros Hy He Hx. unfold outside. apply (filter_length_strict _ _ _ (y, x)).
  - intros e Hn%bool_decide_eq_true. apply bool_decide_eq_true. intros Hs. apply Hn, expand_In. by left.
  - by apply list_elem_of_In.
  - by apply bool_decide_eq_true.
  - apply bool_decide_eq_false. intros Hn. apply Hn, expand_In. eauto.
Qed.

Definition closed (es : list (Z * Z)) (s : gset Z) : Prop := forall y x, y ∈ s -> edge es y x -> x ∈ s.

Lemma expand_closed es s : closed es s -> expand es s = s.
Proof.
  intros C. apply set_eq. intros x. rewrite expand_In. split; [|by left].
  intros [?|(y & Hy & He)]; [done|by eapply C].
Qed.

Lemma closure_closed fuel es s : closed es s -> closure fuel es s = s.
Proof. intros C. induction fuel as [|fuel IH]; simpl; [done|]. by rewrite expand_closed. Qed.

(** A set is closed, or some edge leaves it. *)
Lemma closed_or es s : closed es s \/ exists y x, y ∈ s /\ edge es y x /\ x ∉ s.
Proof.
  assert (D : forall l : list (Z * Z), (forall y x, y ∈ s -> (y, x) ∈ l -> x ∈ s) \/
                        exists y x, y ∈ s /\ (y, x) ∈ l /\ x ∉ s).
  { induction l as [|[a b] l IH]; [left; by intros ? ? _ ?%elem_of_nil|].
    destruct IH as [IH|(y & x & ? & ? & ?)]; [|right; exists y, x; split_and!; [done|by right|done]].
    destruct (decide (a ∈ s)) as [Ha|Ha], (decide (b ∈ s)) as [Hb|Hb].
    all: try (left; intros y x Hy [[= -> ->]|Hin]%elem_of_cons; [done|by eapply IH]).
    right. exists a, b. split_and!; [done|left|done]. }
  destruct (D es) as [C|C]; [by left|by right].
Qed.

Lemma closure_complete fuel es : forall s, (outside es s <= fuel)%nat -> closed es (closure fuel es s).
Proof.
  induction fuel as [|fuel IH]; intros s Hf; simpl.
  - destruct (closed_or es s) as [C|(y & x & Hy & He & Hx)]; [done|].
    pose proof (outside_shrinks es s y x Hy He Hx). lia.
  - destruct (closed_or es s) as [C|(y & x & Hy & He & Hx)].
    + by rewrite expand_closed, closure_closed.
    + apply IH. pose proof (outside_shrinks es s y x Hy He Hx). lia.
Qed.

Lemma closure_mono fuel es : forall s x, x ∈ s -> x ∈ closure fuel es s.
Proof.
  induction fuel as [|fuel IH]; intros s x Hx; simpl; [done|]. apply IH, expand_In. by left.
Qed.

Lemma closure_sound fuel es from : forall s,
  (forall x, x ∈ s -> rtc (edge es) from x) -> forall x, x ∈ closure fuel es s -> rtc (edge es) from x.
Proof.
  induction fuel as [|fuel IH]; intros s Hs x; simpl; [apply Hs|]. apply IH.
  intros z [Hz|(y & Hy & He)]%expand_In; [by apply Hs|]. eapply rtc_r; [by apply Hs|done].
Qed.

Lemma outside_le es s : (outside es s <= length es)%nat.
Proof. apply List.filter_length_le. Qed.

(** The recursive query answers exactly reachability. *)
Lemma reachable_spec es from x : x ∈ reachable es from <-> rtc (edge es) from x.
Proof.
  unfold reachable. split.
  - apply closure_sound. intros y ->%elem_of_singleton. reflexivity.
  - intros R. pose proof (closure_complete (length es) es {[from]} (outside_le _ _)) as C.
    assert (H0 : from ∈ closure (length es) es {[from]}) by (apply closure_mono; set_solver).
    revert H0 C. generalize (closure (length es) es {[from]}). intros S H0 C.
    induction R as [|y z x' He _ IH]; [done|]. apply IH. by eapply C.
Qed.

(** ** The view graph *)

Definition acyclic (es : list (Z * Z)) : Prop := forall x, ~ tc (edge es) x x.

Lemma rtc_snoc es s t x y :
  rtc (edge (es ++ [(s, t)])) x y ->
  rtc (edge es) x y \/ (rtc (edge es) x s /\ rtc (edge es) t y).
Proof.
  induction 1 as [|x y z He _ IH]; [left; reflexivity|].
  apply elem_of_app in He as [He|[= -> ->]%list_elem_of_singleton].
  - destruct IH as [IH|[A B]]; [left|right; split; [|done]]; by eapply rtc_l.
  - right. split; [reflexivity|]. by destruct IH as [IH|[A B]].
Qed.

Lemma acyclic_snoc es s t : acyclic es -> ~ rtc (edge es) t s -> acyclic (es ++ [(s, t)]).
Proof.
  intros A N x T.
  assert (exists y, edge (es ++ [(s, t)]) x y /\ rtc (edge (es ++ [(s, t)])) y x) as (y & He & T2).
  { inversion T as [? ? He|? y ? He T2]; subst.
    - exists x. split; [done|reflexivity].
    - exists y. split; [done|by apply tc_rtc]. }
  apply rtc_snoc in T2. apply elem_of_app in He as [He|[= -> ->]%list_elem_of_singleton].
  - destruct T2 as [T2|[T2 T3]].
    + apply (A x). by eapply tc_rtc_r; [apply tc_once|].
    + apply N. transitivity x; [done|]. by eapply rtc_l.
  - destruct T2 as [T2|[_ T2]]; by apply N.
Qed.

Lemma edges_snoc t row :
  edges (with_pipelines t (pipelines t ++ [row])) =
  edges t ++ (if String.eqb (pp_source_kind row) "parquet" then [(pp_source_id row, pp_target_id row)] else []).
Proof. unfold edges. simpl. rewrite omap_app. simpl. by destruct (String.eqb _ _). Qed.

Lemma find_app_last {A} (g : A -> bool) l x :
  List.find g (l ++ [x]) = match List.find g l with Some y => Some y | None => if g x then Some x else None end.
Proof. induction l as [|y l IH]; simpl; [done|]. by destruct (g y). Qed.

Lemma pipeline_row_of id def : pipeline (row_of id def) = Ok (mkPipeline id def).
Proof. destruct def as [nm [k|k] tg sq [] [] ev]; reflexivity. Qed.

Lemma ensure_pipeline_cases def d r d' :
  ensure_pipeline def d = (r, d') ->
  (tables d' = tables d /\ (forall p, r = Ok p -> pl_definition p = def /\
     exists row, row ∈ pipelines (tables d) /\ pipeline row = Ok p)) \/
  (exists id, r = Ok (mkPipeline id def) /\ id = pipelines_id_seq (seqs d) + 1 /\
     find_pipeline (tables d) (pl_name def) = None /\
     source_exists (tables d) (pl_source def) = true /\
     would_cycle (tables d) def = false /\
     tables d' = with_pipelines (tables d) (pipelines (tables d) ++ [row_of id def])).
Proof.
  unfold ensure_pipeline. destruct (pipeline_def_invalid def); [intros [= <- <-]; by left|].
  destruct (find_pipeline (tables d) (pl_name def)) as [row|] eqn:F.
  - apply List.find_some in F as [Hin _]. destruct (pipeline row) as [p|e] eqn:P; [|intros [= <- <-]; by left].
    case_bool_decide as E; simpl; intros [= <- <-]; left; [|done].
    split; [done|]. intros p' [= <-]. split; [done|]. exists row. by rewrite list_elem_of_In.
  - destruct (source_exists (tables d) (pl_source def)) eqn:S; simpl; [|intros [= <- <-]; by left].
    destruct (negb (List.existsb _ (hypertables (tables d)))); [intros [= <- <-]; by left|].
    destruct (would_cycle (tables d) def) eqn:C; [intros [= <- <-]; by left|].
    rewrite pipeline_row_of. intros [= <- <-]. right. eexists. split_and!; try done.
Qed.

(** the view graph never gets a cycle: defining a pipeline keeps it acyclic,
    and a definition is refused as a cycle exactly when its target already
    reaches its source (itself included). *)
Theorem pipeline_graph_stays_acyclic def d r d' :
  acyclic (edges (tables d)) -> ensure_pipeline def d = (r, d') ->
  acyclic (edges (tables d')) /\
  (would_cycle (tables d) def = true <->
   exists source, pl_source def = Parquet source /\ rtc (edge (edges (tables d))) (pl_target def) source).
Proof.
  intros A R. split.
  - apply ensure_pipeline_cases in R as [[-> _]|(id & _ & _ & _ & _ & C & ->)]; [done|].
    rewrite edges_snoc. unfold row_of. simpl. unfold would_cycle in C.
    destruct (pl_source def) as [k|source]; simpl; [by rewrite app_nil_r|].
    apply acyclic_snoc; [done|]. rewrite <- reachable_spec. by apply bool_decide_eq_false in C.
  - unfold would_cycle. destruct (pl_source def) as [k|source]; [naive_solver|].
    rewrite bool_decide_eq_true, reachable_spec. naive_solver.
Qed.

(** a definition is immutable and its bootstrap idempotent: whatever
    [ensure_pipeline] returns carries exactly the requested definition, a first
    definition reads back by name as written, and asking again changes nothing
    and returns the same pipeline. *)
Theorem pipeline_definition_round_trip def d p d' :
  ensure_pipeline def d = (Ok p, d') ->
  pl_definition p = def /\ get_pipeline (tables d') (pl_name def) = Ok p /\
  ensure_pipeline def d' = (Ok p, d').
Proof.
  intros R. assert (Inv : pipeline_def_invalid def = false).
  { unfold ensure_pipeline in R. by destruct (pipeline_def_invalid def). }
  assert (G : pl_definition p = def /\ get_pipeline (tables d') (pl_name def) = Ok p).
  { unfold ensure_pipeline in R. rewrite Inv in R.
    destruct (find_pipeline (tables d) (pl_name def)) as [row|] eqn:F.
    - destruct (pipeline row) as [q|e] eqn:P; [|done].
      case_bool_decide as E; simpl in R; [|done]. injection R as <- <-. split; [done|].
      unfold get_pipeline. by rewrite F.
    - destruct (negb (source_exists _ _) || _); [done|]. destruct (would_cycle _ _); [done|]. simpl in R.
      rewrite pipeline_row_of in R. injection R as <- <-. split; [done|].
      unfold get_pipeline, find_pipeline in *. simpl. rewrite find_app_last, F. simpl.
      rewrite String.eqb_refl. simpl. by rewrite pipeline_row_of. }
  destruct G as [Ed G]. split; [done|]. split; [done|]. unfold ensure_pipeline. rewrite Inv.
  unfold get_pipeline in G. destruct (find_pipeline (tables d') (pl_name def)) as [row|]; simpl in G; [|done].
  rewrite G, Ed, bool_decide_eq_true_2 by done. done.
Qed.

(** a view's cursor is registered once, at the head of its source's feed, and
    registering again -- after any progress -- returns the stored cursor and
    changes nothing; reading it then agrees. *)
Theorem mv_cursor_registered_once id d cursor d' :
  ensure_mv_cursor id d = (Ok cursor, d') ->
  read_mv_cursor (tables d') id = Ok cursor /\ ensure_mv_cursor id d' = (Ok cursor, d') /\
  (tables d' = tables d \/ exists row, find_pipeline_id (tables d) id = Some row /\
     worker_cursors (tables d) !! (mv_worker id, pp_source_id row) = None /\
     cursor = Feed.feed_head (tables d) (pp_source_id row)).
Proof.
  unfold ensure_mv_cursor, read_mv_cursor.
  destruct (find_pipeline_id (tables d) id) as [row|] eqn:F; [|done].
  destruct (negb (String.eqb (pp_source_kind row) "parquet")) eqn:K; [done|].
  destruct (worker_cursors (tables d) !! (mv_worker id, pp_source_id row)) as [c|] eqn:W.
  - intros [= <- <-]. rewrite F, K, W. split; [done|]. split; [done|by left].
  - intros [= <- <-]. unfold find_pipeline_id in *. simpl. rewrite F, K, lookup_insert_eq.
    split; [done|]. split; [done|]. right. exists row. by split_and!.
Qed.

(** ** The theorems applied *)

Definition ht (i : Z) (nm : string) : Hypertable := mkHypertable i nm JNull JNull ["k"%string] "k" Packed.
Definition pdb : DbState :=
  mkDb (with_hypertables empty_tables [ht 1 "a"; ht 2 "b"; ht 3 "c"]) (mkSeqs 3 0 0 0 0 0 0).
Definition view (nm : string) (source target : Z) : PipelineDefinition :=
  mkPipelineDefinition nm (Parquet source) target "SELECT 1" ExactlyOnce Stall None.
Definition pdb1 : DbState := (ensure_pipeline (view "ab" 1 2) pdb).2.
Definition pdb2 : DbState := (ensure_pipeline (view "bc" 2 3) pdb1).2.

Example cycle_refused : (ensure_pipeline (view "ca" 3 1) pdb2).1 = Err (InvalidPipeline "pipeline would create a cycle").
Proof. vm_compute. reflexivity. Qed.

Lemma no_edges_acyclic : acyclic (edges (tables pdb)).
Proof. intros x T. inversion T as [? ? He|? ? ? He]; by apply elem_of_nil in He. Qed.

Lemma pipeline_graph_stays_acyclic_witness : acyclic (edges (tables pdb2)).
Proof.
  apply (pipeline_graph_stays_acyclic (view "bc" 2 3) pdb1 (ensure_pipeline (view "bc" 2 3) pdb1).1 pdb2);
    [|apply surjective_pairing].
  apply (pipeline_graph_stays_acyclic (view "ab" 1 2) pdb (ensure_pipeline (view "ab" 1 2) pdb).1 pdb1);
    [apply no_edges_acyclic|apply surjective_pairing].
Defined.

Lemma pipeline_definition_round_trip_witness :
  get_pipeline (tables pdb1) "ab" = Ok (mkPipeline 1 (view "ab" 1 2)).
Proof.
  apply (pipeline_definition_round_trip (view "ab" 1 2) pdb (mkPipeline 1 (view "ab" 1 2)) pdb1).
  vm_compute. reflexivity.
Defined.

Lemma mv_cursor_registered_once_witness :
  read_mv_cursor (tables (ensure_mv_cursor 1 pdb1).2) 1 = Ok 0.
Proof.
  apply (mv_cursor_registered_once 1 pdb1 0 (ensure_mv_cursor 1 pdb1).2). vm_compute. reflexivity.
Defined.

End Pipelines.
