(* ===== verification/Batches.v ===== *)
(** * The algebra of record batches

    Batches of one schema under append and slice: what the writers' row
    conservation is stated in. *)

From S2P Require Import Prelude Bytes Json Arrow.

Module Batches.

(** [num_rows], [RecordBatch::new_empty]. *)
Definition num_rows (b : RecordBatch) : nat :=
  match rb_columns b with [] => 0 | a :: _ => array_len a end.

Definition empty_array (t : DataType) : ArrayRef :=
  match t with Int64 => Int64Array [] | t => OtherArray t [] end.

Definition empty_batch (s : ArrowSchema) : RecordBatch :=
  mkBatch s (List.map (fun f => empty_array (f_type f)) s).

(** The batch of all rows of a list of batches ([concat_batches]). *)
Definition cat (s : ArrowSchema) (bs : list RecordBatch) : RecordBatch :=
  List.fold_right batch_append (empty_batch s) bs.

(** A well-formed batch of [n] rows of a schema. *)
Record batch_ok (s : ArrowSchema) (n : nat) (b : RecordBatch) : Prop := {
  ok_wf : batch_wf b;
  ok_schema : rb_schema b = s;
  ok_rows : List.Forall (fun c => array_len c = n) (rb_columns b);
}.

Lemma ok_columns s n b :
  batch_ok s n b <-> rb_schema b = s /\
    Forall2 (fun f c => array_has_type (f_type f) c /\ array_len c = n) s (rb_columns b).
Proof.
  split.
  - intros [W <- R]. split; [done|]. unfold batch_wf in W. induction W; constructor; inversion R; eauto.
  - intros [<- F]. split; [|done|]; unfold batch_wf; induction F; constructor; naive_solver.
Qed.

Lemma ok_num_rows s n b : s <> [] -> batch_ok s n b -> num_rows b = n.
Proof.
  intros N [_ F]%ok_columns. unfold num_rows. destruct F as [|f c ? ? [_ H] _]; [done|exact H].
Qed.

Lemma empty_ok s : batch_ok s 0 (empty_batch s).
Proof.
  apply ok_columns. split; [done|]. simpl. induction s as [|f s IH]; simpl; constructor; [|done].
  by destruct (f_type f).
Qed.

(** A batch of no rows is the empty one. *)
Lemma ok_zero s b : batch_ok s 0 b -> b = empty_batch s.
Proof.
  intros [E F]%ok_columns. destruct b as [s' cs]. simpl in *. subst s'. unfold empty_batch. f_equal.
  induction F as [|f c s cs [T L] _ IH]; simpl; [done|]. f_equal; [|done].
  destruct c as [vs|t vs]; simpl in *; destruct vs; try done; [by rewrite T|]. destruct T as [-> N]. by destruct t.
Qed.

Lemma array_slice_ok t n o m c :
  array_has_type t c -> array_len c = n -> (o + m <= n)%nat ->
  array_has_type t (array_slice o m c) /\ array_len (array_slice o m c) = m.
Proof.
  destruct c as [vs|t' vs]; simpl; intros T <- L; (split; [done|]); rewrite length_take, length_drop; lia.
Qed.

Lemma slice_ok s n b o m : batch_ok s n b -> (o + m <= n)%nat -> batch_ok s m (batch_slice o m b).
Proof.
  intros [E F]%ok_columns L. apply ok_columns. split; [done|]. simpl.
  apply Forall2_fmap_r. eapply Forall2_impl; [exact F|]. intros f c [T R]. by eapply array_slice_ok.
Qed.

Lemma append_ok s n m a b : batch_ok s n a -> batch_ok s m b -> batch_ok s (n + m) (batch_append a b).
Proof.
  intros [Ea Fa]%ok_columns [Eb Fb]%ok_columns. apply ok_columns. split; [done|]. simpl.
  revert Fb. generalize (rb_columns b). clear Ea Eb. induction Fa as [|f c s' cs [T L] _ IH]; intros cs' Fb.
  - inversion Fb; subst. constructor.
  - inversion Fb as [|? c' ? cs'' [T' L'] F']; subst. simpl. constructor; [|by apply IH].
    split; [by apply array_append_type|]. destruct c, c'; simpl in *; rewrite ?length_app; naive_solver.
Qed.

(** Equal columns, position by position. *)
Lemma zip_columns (P : ArrayRef -> ArrayRef -> Prop) (g h : ArrayRef -> ArrayRef -> ArrayRef) l k :
  Forall2 P l k -> (forall x y, P x y -> g x y = h x y) -> zip_with g l k = zip_with h l k.
Proof. intros F E. induction F; simpl; [done|]. by rewrite E, IHF. Qed.

Lemma array_append_assoc t a b c :
  array_has_type t a -> array_has_type t b -> array_has_type t c ->
  array_append (array_append a b) c = array_append a (array_append b c).
Proof.
  destruct a, b, c; simpl; intros; try naive_solver; f_equal; by rewrite app_assoc.
Qed.

Lemma append_assoc s n m k a b c :
  batch_ok s n a -> batch_ok s m b -> batch_ok s k c ->
  batch_append (batch_append a b) c = batch_append a (batch_append b c).
Proof.
  intros [Ea Fa]%ok_columns [Eb Fb]%ok_columns [Ec Fc]%ok_columns. unfold batch_append. simpl. f_equal.
  revert Fb Fc. generalize (rb_columns b), (rb_columns c). clear Ea Eb Ec.
  induction Fa as [|f x s' xs [T _] _ IH]; intros ys zs Fb Fc.
  - by inversion Fb.
  - inversion Fb as [|? y ? ys' [T' _] F']; inversion Fc as [|? z ? zs' [T'' _] F'']; subst. simpl. f_equal.
    + by eapply array_append_assoc.
    + by apply IH.
Qed.

Lemma array_empty_append t c : array_has_type t c -> array_append (empty_array t) c = c.
Proof. destruct c as [vs|t' vs]; simpl; [by intros ->|intros [<- N]; by destruct t]. Qed.
Lemma array_append_empty t c : array_has_type t c -> array_append c (empty_array t) = c.
Proof.
  destruct c as [vs|t' vs]; simpl; [intros ->; simpl; by rewrite app_nil_r|].
  intros [<- N]. destruct t; simpl; try done; by rewrite app_nil_r.
Qed.

Lemma empty_append s n b : batch_ok s n b -> batch_append (empty_batch s) b = b.
Proof.
  intros [E F]%ok_columns. destruct b as [s' cs]. simpl in *. subst s'. unfold batch_append. simpl. f_equal.
  induction F as [|f c s cs [T _] _ IH]; simpl; [done|]. by rewrite array_empty_append, IH.
Qed.
Lemma append_empty s n b : batch_ok s n b -> batch_append b (empty_batch s) = b.
Proof.
  intros [E F]%ok_columns. destruct b as [s' cs]. simpl in *. subst s'. unfold batch_append. simpl. f_equal.
  induction F as [|f c s cs [T _] _ IH]; simpl; [done|]. by rewrite array_append_empty, IH.
Qed.

Lemma slice_append s n b o m k :
  batch_ok s n b -> (o + m + k <= n)%nat ->
  batch_append (batch_slice o m b) (batch_slice (o + m) k b) = batch_slice o (m + k) b.
Proof.
  intros [E F]%ok_columns L. unfold batch_append, batch_slice. simpl. f_equal. clear E.
  induction F as [|f c s' cs [T R] _ IH]; simpl; [done|]. f_equal; [|done].
  destruct c as [vs|t vs]; simpl in *; f_equal; rewrite <- drop_drop; by rewrite take_take_drop.
Qed.

Lemma slice_all s n b : batch_ok s n b -> batch_slice 0 n b = b.
Proof.
  intros [E F]%ok_columns. destruct b as [s' cs]. simpl in *. subst s'. unfold batch_slice. simpl. f_equal.
  induction F as [|f c s cs [T R] _ IH]; simpl; [done|]. f_equal; [|done].
  destruct c as [vs|t vs]; simpl in *; f_equal; rewrite drop_0; apply take_ge; lia.
Qed.

Lemma slice_slice s n b o m o' m' :
  batch_ok s n b -> (o + m <= n)%nat -> (o' + m' <= m)%nat ->
  batch_slice o' m' (batch_slice o m b) = batch_slice (o + o') m' b.
Proof.
  intros [E F]%ok_columns L L'. unfold batch_slice. simpl. f_equal. clear E.
  induction F as [|f c s' cs [T R] _ IH]; simpl; [done|]. f_equal; [|done].
  destruct c as [vs|t vs]; simpl in *; f_equal; replace m with (o' + (m - o'))%nat by lia;
    rewrite <- take_drop_commute, take_take, drop_drop; do 2 f_equal; lia.
Qed.

(** ** Concatenations *)

Definition all_ok (s : ArrowSchema) (bs : list RecordBatch) : Prop :=
  Forall (fun b => exists n, batch_ok s n b) bs.

Lemma cat_ok s bs : all_ok s bs -> exists n, batch_ok s n (cat s bs).
Proof.
  induction 1 as [|b bs [n Hb] _ [m IH]]; simpl; [eexists; apply empty_ok|]. eexists. by eapply append_ok.
Qed.

Lemma cat_nil s : cat s [] = empty_batch s.
Proof. done. Qed.

Lemma cat_cons s b bs : cat s (b :: bs) = batch_append b (cat s bs).
Proof. done. Qed.

Lemma cat_app s bs bs' : all_ok s bs -> all_ok s bs' -> cat s (bs ++ bs') = batch_append (cat s bs) (cat s bs').
Proof.
  intros F F'. destruct (cat_ok s bs' F') as [m Hm]. induction F as [|b bs [n Hb] F IH]; simpl.
  - symmetry. by eapply empty_append.
  - destruct (cat_ok s bs F) as [k Hk]. rewrite IH. symmetry. by eapply append_assoc.
Qed.

Lemma cat_concat s bss : Forall (all_ok s) bss -> cat s (concat bss) = cat s (List.map (cat s) bss).
Proof.
  induction 1 as [|bs bss F Fs IH]; simpl; [done|]. rewrite cat_app, IH; [done|done|].
  apply Forall_concat. eapply Forall_impl; [exact Fs|]. done.
Qed.

Lemma cat_one s n b : batch_ok s n b -> cat s [b] = b.
Proof. apply append_empty. Qed.

Lemma cat_fold_left s b bs :
  all_ok s (b :: bs) -> cat s (b :: bs) = List.fold_left batch_append bs b.
Proof.
  intros [[n Hb] F]%Forall_cons. revert b n Hb. induction F as [|c bs [m Hc] F IH]; intros b n Hb; simpl.
  - by eapply append_empty.
  - rewrite <- (IH _ (n + m)%nat) by (by apply append_ok). simpl.
    destruct (cat_ok s bs F) as [k Hk]. symmetry. by eapply append_assoc.
Qed.

#[global] Arguments cat : simpl never.

(** ** The values of an [Int64] column *)

Definition column_values (b : RecordBatch) (name : string) : option (list (option Z)) :=
  idx ← index_of (rb_schema b) name; a ← rb_columns b !! idx; as_int64 a.

Lemma column_values_slice b nm o m vs :
  column_values b nm = Some vs -> column_values (batch_slice o m b) nm = Some (take m (drop o vs)).
Proof.
  unfold column_values. simpl. destruct (index_of (rb_schema b) nm) as [i|]; simpl; [|done].
  change (List.map ?f (rb_columns b)) with (f <$> rb_columns b). rewrite list_lookup_fmap.
  destruct (rb_columns b !! i) as [[]|]; simpl; [|done|done]. by intros [= ->].
Qed.

Lemma column_values_append s n m a b nm vs :
  batch_ok s n a -> batch_ok s m b -> column_values a nm = Some vs ->
  exists ws, column_values b nm = Some ws /\ column_values (batch_append a b) nm = Some (vs ++ ws).
Proof.
  intros [Ea Fa]%ok_columns [Eb Fb]%ok_columns. unfold column_values. simpl. rewrite Ea, Eb.
  destruct (index_of s nm) as [i|]; simpl; [|done]. rewrite lookup_zip_with.
  destruct (rb_columns a !! i) as [x|] eqn:X; simpl; [|done]. intros V.
  destruct (Forall2_lookup_r _ _ _ _ _ Fa X) as (f & Hf & Tx & _).
  destruct (Forall2_lookup_l _ _ _ _ _ Fb Hf) as (y & Y & Ty & _). rewrite Y. simpl.
  destruct x as [us|]; [|done]. injection V as ->. simpl in Tx. destruct y as [ws|]; [|naive_solver].
  by exists ws.
Qed.

Lemma column_values_length s n b nm vs : batch_ok s n b -> column_values b nm = Some vs -> length vs = n.
Proof.
  intros [_ _ R] V. unfold column_values in V. destruct (index_of _ _) as [i|]; simpl in V; [|done].
  destruct (rb_columns b !! i) as [c|] eqn:C; simpl in V; [|done]. destruct c; [|done]. injection V as ->.
  by apply (Forall_lookup_1 _ _ i (Int64Array vs) R) in C.
Qed.

(** ** A batch as its rows

    The columnar and the row view of the same values: what the merge's gather
    and the writers' slices have in common. *)

Inductive Cell :=
| CInt (v : option Z)
| COther (v : option Opaque).

#[global] Instance Cell_eq_dec : EqDecision Cell.
Proof. solve_decision. Defined.

Definition array_cells (a : ArrayRef) : list Cell :=
  match a with
  | Int64Array vs => List.map CInt vs
  | OtherArray _ vs => List.map COther vs
  end.

Definition cell_int (c : Cell) : option Z := match c with CInt v => v | COther _ => None end.
Definition cell_other (c : Cell) : option Opaque := match c with COther v => v | CInt _ => None end.

Definition cells_array (t : DataType) (cs : list Cell) : ArrayRef :=
  match t with
  | Int64 => Int64Array (List.map cell_int cs)
  | t => OtherArray t (List.map cell_other cs)
  end.

(** Cell [i] of every column of a list of columns. *)
Fixpoint heads (cols : list (list Cell)) (i : nat) : list Cell :=
  match cols with
  | [] => []
  | c :: cols => default (CInt None) (c !! i) :: heads cols i
  end.

Definition batch_rows (b : RecordBatch) : list (list Cell) :=
  List.map (heads (List.map array_cells (rb_columns b))) (seq 0 (num_rows b)).

(** Column [j] of some rows. *)
Definition row_column (rows : list (list Cell)) (j : nat) : list Cell :=
  List.map (fun r => default (CInt None) (r !! j)) rows.

Fixpoint rows_columns (s : ArrowSchema) (rows : list (list Cell)) (j : nat) : list ArrayRef :=
  match s with
  | [] => []
  | f :: s => cells_array (f_type f) (row_column rows j) :: rows_columns s rows (S j)
  end.

Definition of_rows (s : ArrowSchema) (rows : list (list Cell)) : RecordBatch :=
  mkBatch s (rows_columns s rows 0).

Lemma cells_array_ok t cs : array_has_type t (cells_array t cs) /\ array_len (cells_array t cs) = length cs.
Proof. destruct t; simpl; by rewrite ?length_map. Qed.

Lemma cells_array_app t xs ys : cells_array t (xs ++ ys) = array_append (cells_array t xs) (cells_array t ys).
Proof. destruct t; simpl; by rewrite List.map_app. Qed.

Lemma of_rows_ok s rows : batch_ok s (length rows) (of_rows s rows).
Proof.
  apply ok_columns. split; [done|]. simpl. generalize 0%nat.
  induction s as [|f s IH]; intros j; simpl; constructor; [|done].
  pose proof (cells_array_ok (f_type f) (row_column rows j)) as [? L]. split; [done|].
  rewrite L. apply List.length_map.
Qed.

Lemma of_rows_app s xs ys : of_rows s (xs ++ ys) = batch_append (of_rows s xs) (of_rows s ys).
Proof.
  unfold of_rows, batch_append. simpl. f_equal. generalize 0%nat.
  induction s as [|f s IH]; intros j; simpl; [done|]. rewrite IH. f_equal.
  unfold row_column. by rewrite List.map_app, cells_array_app.
Qed.

Lemma of_rows_nil s : of_rows s [] = empty_batch s.
Proof. apply ok_zero, (of_rows_ok s []). Qed.

Lemma of_rows_concat s rss : of_rows s (concat rss) = cat s (List.map (of_rows s) rss).
Proof. induction rss as [|r rss IH]; simpl; [apply of_rows_nil|]. by rewrite of_rows_app, IH. Qed.

Lemma batch_rows_length b : length (batch_rows b) = num_rows b.
Proof. unfold batch_rows. by rewrite List.length_map, List.length_seq. Qed.

Lemma heads_lookup cols i j c : cols !! j = Some c -> heads cols i !! j = Some (default (CInt None) (c !! i)).
Proof.
  revert j. induction cols as [|d cols IH]; intros [|j]; simpl; try done; [by intros [= ->]|apply IH].
Qed.

(** The column view of the rows of a column. *)
Lemma cells_array_cells t n a :
  array_has_type t a -> array_len a = n ->
  cells_array t (List.map (fun i => default (CInt None) (array_cells a !! i)) (seq 0 n)) = a.
Proof.
  intros T L. assert (E : List.map (fun i => default (CInt None) (array_cells a !! i)) (seq 0 n) = array_cells a).
  { assert (La : length (array_cells a) = n) by (destruct a; simpl in *; by rewrite List.length_map).
    clear T L. subst n. generalize (array_cells a) as l. clear a. intros l.
    apply list_eq. intros i. rewrite list_lookup_fmap.
    destruct (decide (i < length l)%nat) as [Hi|Hi].
    - rewrite lookup_seq_lt by done. simpl. destruct (l !! i) eqn:E; [done|]. apply lookup_ge_None in E. lia.
    - rewrite lookup_seq_ge, (lookup_ge_None_2 l) by lia. done. }
  rewrite E. destruct a as [vs|t' vs]; simpl in T.
  - subst t. simpl. f_equal. rewrite List.map_map. simpl. by rewrite List.map_id.
  - destruct T as [-> N]. assert (C : List.map cell_other (List.map COther vs) = vs).
    { rewrite List.map_map. simpl. by rewrite List.map_id. }
    simpl. destruct t'; simpl; try done; by rewrite C.
Qed.

Lemma of_rows_batch s n b : batch_ok s n b -> num_rows b = n -> of_rows s (batch_rows b) = b.
Proof.
  intros [E F]%ok_columns N. destruct b as [s' cs]. simpl in *. subst s'. unfold of_rows. f_equal.
  unfold batch_rows. rewrite N. simpl. clear N.
  assert (G : forall pre, rows_columns s
      (List.map (heads (List.map array_cells (pre ++ cs))) (seq 0 n)) (length pre) = cs); [|exact (G [])].
  induction F as [|f c s cs [T L] F IH]; intros pre; simpl; [done|]. f_equal.
  - unfold row_column. rewrite List.map_map. etransitivity; [|exact (cells_array_cells (f_type f) n c T L)].
    f_equal. apply List.map_ext. intros i. rewrite (heads_lookup _ i _ (array_cells c)); [done|].
    change (List.map array_cells (pre ++ c :: cs)) with (array_cells <$> (pre ++ c :: cs)).
    rewrite list_lookup_fmap, list_lookup_middle; done.
  - specialize (IH (pre ++ [c])). rewrite <- app_assoc, length_app in IH. simpl in IH.
    by rewrite Nat.add_1_r in IH.
Qed.

Lemma rows_columns_lookup s rows j i f :
  s !! i = Some f -> rows_columns s rows j !! i = Some (cells_array (f_type f) (row_column rows (j + i))).
Proof.
  revert j i. induction s as [|g s IH]; intros j [|i]; simpl; try done.
  - intros [= ->]. by rewrite Nat.add_0_r.
  - intros H. rewrite (IH (S j) i H). do 3 f_equal. lia.
Qed.

(** *** Rows that are a batch's *)

Definition cell_typed (t : DataType) (c : Cell) : Prop :=
  match c with CInt _ => t = Int64 | COther _ => t <> Int64 end.
Definition wf_row (s : ArrowSchema) (r : list Cell) : Prop := Forall2 (fun f c => cell_typed (f_type f) c) s r.

Lemma cells_of_array t cs : Forall (cell_typed t) cs -> array_cells (cells_array t cs) = cs.
Proof.
  assert (I : t = Int64 \/ t <> Int64 /\ array_cells (cells_array t cs) = List.map (fun c => COther (cell_other c)) cs).
  { destruct t; [by left|right; simpl; by rewrite List.map_map..]. }
  destruct I as [->|[N ->]]; intros F; simpl; rewrite ?List.map_map; induction F as [|c cs Hc F IH]; simpl; try done;
    rewrite IH; destruct c; simpl in *; congruence.
Qed.

Lemma array_cells_typed t n a i : array_has_type t a -> array_len a = n -> (i < n)%nat ->
  exists c, array_cells a !! i = Some c /\ cell_typed t c.
Proof.
  destruct a as [vs|t' vs]; simpl; intros T L Hi; rewrite <- L in Hi; rewrite lookup_map;
    apply lookup_lt_is_Some_2 in Hi as [v ->]; eexists; (split; [reflexivity|]); simpl; naive_solver.
Qed.

Lemma batch_rows_wf s n b r : batch_ok s n b -> num_rows b = n -> r ∈ batch_rows b -> wf_row s r.
Proof.
  intros [E F]%ok_columns N Hr. unfold batch_rows in Hr. apply list_elem_of_In, List.in_map_iff in Hr as (i & <- & Hi).
  apply List.in_seq in Hi. rewrite N in Hi. clear N E. unfold wf_row.
  induction F as [|f a s' cs [T L] F IH]; simpl; [constructor|]. constructor; [|exact IH].
  destruct (array_cells_typed (f_type f) n a i T L) as (c & -> & Tc); [lia|done].
Qed.

Lemma heads_length cols i : length (heads cols i) = length cols.
Proof. induction cols; simpl; by f_equal. Qed.

Lemma batch_rows_of_rows s rows : s <> [] -> Forall (wf_row s) rows -> batch_rows (of_rows s rows) = rows.
Proof.
  intros Ne F. unfold batch_rows. rewrite (ok_num_rows s _ _ Ne (of_rows_ok s rows)).
  apply list_eq. intros i. rewrite lookup_map. destruct (rows !! i) as [r|] eqn:R.
  2:{ rewrite lookup_seq_ge; [done|]. by apply lookup_ge_None in R. }
  rewrite lookup_seq_lt by (by eapply lookup_lt_Some). simpl. f_equal.
  pose proof (Forall_lookup_1 _ _ _ _ F R) as W. apply list_eq. intros j.
  pose proof (ok_columns s (length rows) (of_rows s rows)) as [Oc _]. specialize (Oc (of_rows_ok s rows)) as [_ Oc].
  simpl in Oc. destruct (s !! j) as [f|] eqn:Hf.
  - pose proof (rows_columns_lookup s rows 0 j f Hf) as Hc. simpl in Hc.
    rewrite (heads_lookup _ i j (row_column rows j)).
    + unfold row_column. rewrite lookup_map, R. simpl.
      destruct (Forall2_lookup_l _ _ _ _ _ W Hf) as (c & -> & _). done.
    + rewrite lookup_map, Hc. simpl. f_equal. apply cells_of_array. unfold row_column.
      apply Forall_forall. intros c Hc'. apply list_elem_of_In, List.in_map_iff in Hc' as (r' & <- & Hr').
      rewrite Forall_forall in F. apply list_elem_of_In in Hr'. specialize (F r' Hr').
      by destruct (Forall2_lookup_l _ _ _ _ _ F Hf) as (c & -> & ?).
  - apply lookup_ge_None in Hf. rewrite !lookup_ge_None_2; [done| |].
    + rewrite <- (Forall2_length _ _ _ W). exact Hf.
    + rewrite heads_length, List.length_map, <- (Forall2_length _ _ _ Oc). exact Hf.
Qed.

(** The values of an [Int64] column, row by row. *)
Definition int_at (j : nat) (r : list Cell) : option Z := cell_int (default (CInt None) (r !! j)).

Lemma column_values_of_rows s rows nm j f :
  index_of s nm = Some j -> s !! j = Some f -> f_type f = Int64 ->
  column_values (of_rows s rows) nm = Some (List.map (int_at j) rows).
Proof.
  intros I F T. unfold column_values. simpl. rewrite I. simpl. rewrite (rows_columns_lookup s rows 0 j f F). simpl.
  rewrite T. simpl. unfold row_column. by rewrite List.map_map.
Qed.

End Batches.
