(* ===== verification/Expr.v ===== *)
(** * Write-time column expressions (crates/ukiel-expr/src/lib.rs)

    Filling default and materialized columns of a batch, the backfill of the
    columns a file predates, and the validation of a table's expressions.
    Compiling and evaluating one expression is DataFusion's, a parameter. *)

From S2P Require Import Prelude Bytes Json Types Arrow Schema Batches.
Import Schema Batches.

Module Expr.

Inductive ExprError :=
| SchemaE (e : SchemaError)
| DataFusion (e : string)
| ArrowE (e : string).

(** [DataType::Timestamp(TimeUnit::Millisecond, None)]. *)
Definition TimestampMs : DataType := OtherType "timestamp(millisecond, none)".

(** DataFusion's expression planner and evaluator, and why Arrow's
    [RecordBatch::try_new] refuses some columns. *)
Class DataFusionOps := {
  Logical : Type;
  Compiled : Type;
  ColumnarValue : Type;
  parse_sql_expr : string -> ArrowSchema -> result Logical ExprError;
  expr_columns : Logical -> list string;
  cast_to : Logical -> DataType -> ArrowSchema -> result Logical ExprError;
  coerce : Logical -> ArrowSchema -> result Logical ExprError;
  simplify : Logical -> result Logical ExprError;
  create_physical_expr : Logical -> ArrowSchema -> result Compiled ExprError;
  physical_evaluate : Compiled -> RecordBatch -> result ColumnarValue ExprError;
  into_array : ColumnarValue -> nat -> result ArrayRef ExprError;
  try_new_error : ArrowSchema -> list ArrayRef -> option string;
}.

(** ** Arrow's kernels *)

Definition cell_null (c : Cell) : bool :=
  match c with CInt None | COther None => true | _ => false end.

Fixpoint zip_values {A} (computed input : list (option A)) : list (option A) :=
  match computed, input with
  | c :: cs, v :: vs => (match v with None => c | Some _ => v end) :: zip_values cs vs
  | _, _ => []
  end.

(** [zip(&is_null(input)?, &computed, input)]: the kernels want arrays of one
    type and one length. *)
Definition fill_nulls (computed input : ArrayRef) : result ArrayRef ExprError :=
  if negb (Nat.eqb (array_len computed) (array_len input)) then Err (ArrowE "zip: lengths")
  else
    match computed, input with
    | Int64Array cs, Int64Array vs => Ok (Int64Array (zip_values cs vs))
    | OtherArray t cs, OtherArray t' vs =>
        if decide (t = t') then Ok (OtherArray t (zip_values cs vs)) else Err (ArrowE "zip: types")
    | _, _ => Err (ArrowE "zip: types")
    end.

Section datafusion.
Context `{DF : DataFusionOps}.

Definition try_new (s : ArrowSchema) (cs : list ArrayRef) : result RecordBatch ExprError :=
  match try_new_error s cs with
  | Some e => Err (ArrowE e)
  | None => Ok (mkBatch s cs)
  end.

Definition name_le (a b : string) : Prop := String.leb a b = true.
#[global] Instance name_le_dec a b : Decision (name_le a b).
Proof. unfold name_le; apply _. Defined.

(** The column names an expression references: sorted, then deduplicated. *)
Definition column_refs (sql : string) (schema : ArrowSchema) : result (list string) ExprError :=
  let? logical := parse_sql_expr sql schema in Ok (remove_dups (merge_sort name_le (expr_columns logical))).

(** Parse, cast twice, coerce and simplify, plan. *)
Definition compile_to_storage (sql : string) (schema : ArrowSchema) (intermediate target : DataType)
  : result Compiled ExprError :=
  let? logical := parse_sql_expr sql schema in
  let? logical := cast_to logical intermediate schema in
  let? logical := cast_to logical target schema in
  let? logical := coerce logical schema in
  let? logical := simplify logical in
  create_physical_expr logical schema.

Definition evaluate (expr : Compiled) (batch : RecordBatch) : result ArrayRef ExprError :=
  let? v := physical_evaluate expr batch in into_array v (num_rows batch).

Definition compile (sql : string) (schema : ArrowSchema) (target : DataType) : result Compiled ExprError :=
  compile_to_storage sql schema target target.

Definition compile_for_field (sql : string) (schema : ArrowSchema) (target : Field)
  : result Compiled ExprError :=
  let intermediate :=
    if bool_decide (assoc UKIEL_TYPE_META (f_metadata target) = Some "timestamp_ms"%string)
    then TimestampMs else f_type target in
  compile_to_storage sql schema intermediate (f_type target).

(** The expression a spec is filled by. *)
Definition fill_expr (spec : ColumnSpec) : option string :=
  match column_kind spec with
  | Default e | Materialized e => Some e
  | _ => None
  end.

(** One round of the loop over the specs. *)
Definition fill_column (schema : ArrowSchema) (columns : list ArrayRef) (spec : ColumnSpec)
  : result (list ArrayRef) ExprError :=
  match fill_expr spec with
  | None => Ok columns
  | Some expr_sql =>
      let? idx := ok_or (index_of schema (name spec)) (ArrowE "unknown column") in
      let? current := try_new schema columns in
      let? field := ok_or (schema !! idx) (ArrowE "unknown column") in
      let? compiled := compile_for_field expr_sql schema field in
      let? computed := evaluate compiled current in
      let? column := match column_kind spec with
                     | Materialized _ => Ok computed
                     | _ => match columns !! idx with
                            | Some input => fill_nulls computed input
                            | None => Err (ArrowE "column index out of range")   (* a panic *)
                            end
                     end in
      Ok (<[idx := column]> columns)
  end.

Fixpoint fill_columns (schema : ArrowSchema) (columns : list ArrayRef) (ss : list ColumnSpec)
  : result (list ArrayRef) ExprError :=
  match ss with
  | [] => Ok columns
  | spec :: ss => let? columns := fill_column schema columns spec in fill_columns schema columns ss
  end.

Definition apply_defaults_and_materialized (batch : RecordBatch) (cols : TableColumns)
  : result RecordBatch ExprError :=
  let? columns := fill_columns (rb_schema batch) (rb_columns batch) (specs cols) in
  try_new (rb_schema batch) columns.

Definition apply_missing_defaults_and_materialized (batch : RecordBatch) (cols : TableColumns)
    (file_schema : ArrowSchema) : result RecordBatch ExprError :=
  apply_defaults_and_materialized batch
    (mkTableColumns (List.filter (fun spec => negb (has_column file_schema (name spec))) (specs cols))).

(** Whether one column's expression compiles where it is evaluated. *)
Definition validate_spec (input physical query : ArrowSchema) (spec : ColumnSpec) : result unit ExprError :=
  let field := ok_or (index_of query (name spec) ≫= (query !!.)) (ArrowE "unknown column") in
  match column_kind spec with
  | Stored => Ok tt
  | Default e | Materialized e =>
      let? f := field in let? _ := compile_for_field e input f in Ok tt
  | Alias e =>
      let? f := field in let? _ := compile_for_field e physical f in Ok tt
  end.

Definition validate_table_schema (v : json) : result unit ExprError :=
  let? cols := map_err SchemaE (parse v) in
  let? _ := mapr (validate_spec (input_schema cols) (physical_schema cols) (query_schema cols)) (specs cols) in
  Ok tt.

(** ** What filling keeps *)

(** The non-null cells of [a] are cells of [b]. *)
Definition keeps (a b : ArrayRef) : Prop :=
  forall i c, array_cells a !! i = Some c -> cell_null c = false -> array_cells b !! i = Some c.

#[local] Instance keeps_preorder : PreOrder keeps.
Proof. split; [by intros a i c|]. intros a b c H1 H2 i x Hx N. by apply H2; [apply H1|]. Qed.

Lemma zip_values_keeps {A} (f : option A -> Cell) (computed input : list (option A)) i c :
  (forall v, cell_null (f v) = false -> v <> None) -> length computed = length input ->
  List.map f input !! i = Some c -> cell_null c = false ->
  List.map f (zip_values computed input) !! i = Some c.
Proof.
  intros Hf L. change (List.map f ?l) with (f <$> l). rewrite !list_lookup_fmap. revert computed i L.
  induction input as [|v input IH]; intros [|x computed] i L; simpl in *; try done.
  destruct i as [|i]; simpl; [|apply IH; lia]. intros [= <-] N. specialize (Hf v N). by destruct v.
Qed.

Lemma fill_nulls_keeps computed input out : fill_nulls computed input = Ok out -> keeps input out.
Proof.
  unfold fill_nulls. destruct (Nat.eqb_spec (array_len computed) (array_len input)) as [L|]; simpl; [|done].
  destruct computed as [cs|t cs], input as [vs|t' vs]; simpl in *; try done; [|destruct (decide _); [|done]];
    intros [= <-] i c; apply zip_values_keeps; (done || by intros [v|]).
Qed.

(** The specs filling column [nm]: none, or defaults only. *)
Definition unfilled (ss : list ColumnSpec) (nm : string) : Prop :=
  Forall (fun s => name s = nm -> fill_expr s = None) ss.
Definition default_only (ss : list ColumnSpec) (nm : string) : Prop :=
  Forall (fun s => name s = nm -> forall e, column_kind s <> Materialized e) ss.

Lemma fill_column_spec schema columns spec out :
  fill_column schema columns spec = Ok out ->
  length out = length columns /\
  forall nm j, index_of schema nm = Some j ->
    ((name spec = nm -> fill_expr spec = None) -> out !! j = columns !! j) /\
    ((name spec = nm -> forall e, column_kind spec <> Materialized e) ->
     forall a, columns !! j = Some a -> exists b, out !! j = Some b /\ keeps a b).
Proof.
  unfold fill_column. destruct (fill_expr spec) as [sql|] eqn:F.
  2:{ intros [= <-]. split; [done|]. intros nm j _. split; [done|]. intros _ a Ha. by exists a. }
  intros H. inv_ok. rewrite length_insert. split; [done|]. intros nm j Hj.
  pose proof (index_of_spec schema (name spec)) as Si. destruct (index_of schema (name spec)) as [idx|] eqn:I; [|done].
  simpl in E. injection E as <-. destruct Si as (f & Hf & Nf).
  pose proof (index_of_spec schema nm) as Sj. rewrite Hj in Sj. destruct Sj as (g & Hg & Ng).
  destruct (decide (idx = j)) as [->|Ne].
  - assert (Nm : name spec = nm) by congruence. split; [intros U; specialize (U Nm); congruence|].
    intros D a Ha. rewrite list_lookup_insert_eq by (by eapply lookup_lt_Some). eexists; split; [done|].
    unfold fill_expr in F. destruct (column_kind spec) as [|e|e|e] eqn:K; try done;
      [rewrite Ha in E4; by eapply fill_nulls_keeps|by destruct (D Nm e)].
  - rewrite list_lookup_insert_ne by done. split; [done|]. intros _ a Ha. by exists a.
Qed.

Lemma fill_columns_spec schema ss : forall columns out,
  fill_columns schema columns ss = Ok out ->
  length out = length columns /\
  forall nm j, index_of schema nm = Some j ->
    (unfilled ss nm -> out !! j = columns !! j) /\
    (default_only ss nm -> forall a, columns !! j = Some a -> exists b, out !! j = Some b /\ keeps a b).
Proof.
  induction ss as [|s ss IH]; simpl; intros columns out H.
  - injection H as <-. split; [done|]. intros nm j _. split; [done|]. intros _ a Ha. by exists a.
  - apply rbind_Ok in H as (cs & H1 & H2). apply fill_column_spec in H1 as [L1 S1]. apply IH in H2 as [L2 S2].
    split; [congruence|]. intros nm j Hj. destruct (S1 nm j Hj) as [A1 B1], (S2 nm j Hj) as [A2 B2]. split.
    + intros [U1 U2]%Forall_cons. rewrite A2, A1; done.
    + intros [D1 D2]%Forall_cons a Ha. destruct (B1 D1 a Ha) as (b & Hb & K1). destruct (B2 D2 b Hb) as (c & Hc & K2).
      exists c. split; [done|]. by etransitivity.
Qed.

Lemma try_new_Ok s cs b : try_new s cs = Ok b -> b = mkBatch s cs.
Proof. unfold try_new. destruct (try_new_error s cs); [done|]. by intros [= <-]. Qed.

(** write-time expressions only fill gaps: a column without an expression is
    untouched, a default replaces no value that was given -- NULLs alone --
    and in a rewrite every column the file already has survives bit for bit,
    stored NULLs included, whatever its expression reads or draws. *)
Theorem expressions_only_fill batch cols file_schema nm j a out :
  index_of (rb_schema batch) nm = Some j -> rb_columns batch !! j = Some a ->
  (apply_defaults_and_materialized batch cols = Ok out ->
     rb_schema out = rb_schema batch /\
     (unfilled (specs cols) nm -> rb_columns out !! j = Some a) /\
     (default_only (specs cols) nm -> exists b, rb_columns out !! j = Some b /\ keeps a b)) /\
  (apply_missing_defaults_and_materialized batch cols file_schema = Ok out ->
     rb_schema out = rb_schema batch /\
     (has_column file_schema nm = true -> rb_columns out !! j = Some a)).
Proof.
  intros Hj Ha. unfold apply_missing_defaults_and_materialized, apply_defaults_and_materialized. split; intros H;
    apply rbind_Ok in H as (cs & F & ->%try_new_Ok); simpl; (split; [done|]);
    apply fill_columns_spec in F as [_ S]; destruct (S nm j Hj) as [A B].
  - split; [intros U; by rewrite A|]. intros D. by apply B.
  - intros P. rewrite A; [done|]. apply Forall_forall. intros s [_ N]%filter_In_iff En.
    by rewrite En, P in N.
Qed.

End datafusion.

(** ** The theorem applied: amount defaults to 0, doubled is computed *)

Definition ex_schema : ArrowSchema := [mkField "amount" Int64 true []; mkField "doubled" Int64 true []].
Definition ex_cols : TableColumns :=
  mkTableColumns [mkColumnSpec "amount" Int64 true (Default "0") "int64" false;
                  mkColumnSpec "doubled" Int64 true (Materialized "amount * 2") "int64" false].
Definition ex_eval (sql : string) (b : RecordBatch) : result ArrayRef ExprError :=
  match rb_columns b with
  | Int64Array vs :: _ =>
      Ok (Int64Array (List.map (fun v => if String.eqb sql "0" then Some 0 else Z.mul 2 <$> v) vs))
  | _ => Err (DataFusion sql)
  end.
#[local] Instance has_type_dec t a : Decision (array_has_type t a).
Proof. destruct a; simpl; apply _. Defined.

(** Columns of the schema's types and of one length, as [try_new] wants them. *)
Definition columns_fit (s : ArrowSchema) (cs : list ArrayRef) : Prop :=
  let n := match cs with [] => 0%nat | c :: _ => array_len c end in
  Forall2 (fun f c => array_has_type (f_type f) c /\ array_len c = n) s cs.
#[local] Instance columns_fit_dec s cs : Decision (columns_fit s cs).
Proof. unfold columns_fit. apply Forall2_dec. intros f c. apply _. Defined.
Definition ex_try (s : ArrowSchema) (cs : list ArrayRef) : option string :=
  if decide (columns_fit s cs) then None else Some "invalid columns"%string.

Lemma ex_try_checks s cs : ex_try s cs = None -> exists n, batch_ok s n (mkBatch s cs).
Proof.
  unfold ex_try. destruct (decide _) as [F|]; [|done]. intros _. eexists. apply ok_columns. split; [done|exact F].
Qed.

#[local] Instance ex_datafusion : DataFusionOps := {|
  Logical := string; Compiled := string; ColumnarValue := ArrayRef;
  parse_sql_expr sql _ := Ok sql; expr_columns sql := []; cast_to e _ _ := Ok e; coerce e _ := Ok e;
  simplify e := Ok e; create_physical_expr e _ := Ok e; physical_evaluate := ex_eval; into_array v _ := Ok v;
  try_new_error := ex_try |}.
Definition ex_batch : RecordBatch := mkBatch ex_schema [Int64Array [Some 5; None]; Int64Array [None; Some 9]].

Example ex_filled :
  apply_defaults_and_materialized ex_batch ex_cols
  = Ok (mkBatch ex_schema [Int64Array [Some 5; Some 0]; Int64Array [Some 10; Some 0]]).
Proof. vm_compute. reflexivity. Qed.

Lemma expressions_only_fill_witness :
  exists b, rb_columns (mkBatch ex_schema [Int64Array [Some 5; Some 0]; Int64Array [Some 10; Some 0]]) !! 0%nat = Some b /\
    keeps (Int64Array [Some 5; None]) b.
Proof.
  refine (proj2 (proj2 (proj1 (expressions_only_fill ex_batch ex_cols [] "amount" 0
    (Int64Array [Some 5; None]) _ eq_refl eq_refl) ex_filled)) _).
  constructor; [done|]. constructor; [done|constructor].
Defined.

End Expr.
