(* ===== verification/Merge.v ===== *)
(** * The streaming merge of sorted parts (crates/ukiel-compactor/src/merge.rs, error.rs)

    K cursors over already sorted batch streams and a heap of their heads.  A
    batch is the list of its rows; arrow's [RowConverter] is [row_key], whose
    order is total; a stream is the list of the items it will yield. *)

From S2P Require Import Prelude Bytes Json Arrow Schema Operation CatalogError Expr.

Module Merge.

Inductive CompactorError :=
| SchemaErr (e : Schema.SchemaError)
| ArrowErr (e : string)
| ParquetErr (e : string)
| ObjectStoreErr (e : string)
| CatalogErr (e : CatalogError.CatalogError)
| ExprErr (e : Expr.ExprError)
| SortKeyErr (e : Schema.SortKeyError)
| OperationErr (e : Operation.OperationError)
| MissingColumn (c : string)
| NotInt64 (c : string)
| PartRead (path : string) (e : string)
| MergeOrderViolation (path : string) (row : nat).

Definition MERGE_BATCH_ROWS : nat := 8 * 1024.

Section merge.
(** A row, the converted sort key of a row ([arrow::row::OwnedRow], for the
    columns at the sort indices), and arrow's row gather. *)
Context {Row K : Type} (kle : K -> K -> Prop) `{!TotalOrder kle, !RelDecision kle}.
Context (row_key : list nat -> Row -> K).
Context (interleave_record_batch : list (list Row) -> list (nat * nat) -> result (list Row) CompactorError).

Abbreviation Batch := (list Row).

Record PartBatchStream := mkStream {
  ps_path : string;
  ps_stream : list (result Batch CompactorError);
}.

Record Cursor := mkCursor {
  c_stream : list (result Batch CompactorError);
  c_path : string;
  c_batch : Batch;
  c_rows : list K;
  c_idx : nat;
  c_exhausted : bool;
  c_last : option K;
}.

(** The first [i >= from] whose row is below its predecessor. *)
Fixpoint first_regression (from : nat) (prev : K) (rows : list K) : option nat :=
  match rows with
  | [] => None
  | k :: rest => if bool_decide (kle prev k) then first_regression (S from) k rest else Some from
  end.

Definition convert_and_guard (sort_indices : list nat) (batch : Batch) (path : string)
    (prev_last : option K) : result (list K * option K) CompactorError :=
  let rows := List.map (row_key sort_indices) batch in
  match rows with
  | [] => Ok (rows, None)   (* not called on an empty batch *)
  | k :: rest =>
      match first_regression 1 k rest with
      | Some i => Err (MergeOrderViolation path i)
      | None =>
          if match prev_last with Some p => negb (bool_decide (kle p k)) | None => false end
          then Err (MergeOrderViolation path 0)
          else Ok (rows, last rows)
      end
  end.

(** [BinaryHeap<Reverse<(OwnedRow, usize)>>]: [pop] takes the least pair, the
    stream index breaking ties. *)
Definition head_le (a b : K * nat) : Prop :=
  (kle a.1 b.1 /\ a.1 <> b.1) \/ (a.1 = b.1 /\ (a.2 <= b.2)%nat).

#[local] Instance key_eq_dec : EqDecision K.
Proof.
  intros a b. destruct (decide (kle a b /\ kle b a)) as [[H1 H2]|H].
  - left. by apply (anti_symm kle).
  - right. intros ->. apply H. split; reflexivity.
Defined.

#[local] Instance head_le_dec a b : Decision (head_le a b).
Proof. unfold head_le. apply _. Defined.

Fixpoint pop (heap : list (K * nat)) : option ((K * nat) * list (K * nat)) :=
  match heap with
  | [] => None
  | x :: rest =>
      match pop rest with
      | None => Some (x, [])
      | Some (y, rest') => if bool_decide (head_le x y) then Some (x, rest) else Some (y, x :: rest')
      end
  end.

Record MergeState := mkMerge {
  cursors : list Cursor;
  heap : list (K * nat);
  sort_indices : list nat;
}.

(** The loop of [refill] on one cursor: the cursor, and the head to push. *)
Fixpoint refill_cursor (ix : list nat) (c : Cursor) (stream : list (result Batch CompactorError))
  : result (Cursor * option K) CompactorError :=
  match stream with
  | [] => Ok (mkCursor [] (c_path c) (c_batch c) (c_rows c) (c_idx c) true (c_last c), None)
  | Err e :: _ => Err e
  | Ok [] :: rest => refill_cursor ix c rest
  | Ok batch :: rest =>
      let? g := convert_and_guard ix batch (c_path c) (c_last c) in
      Ok (mkCursor rest (c_path c) batch g.1 0 false g.2, List.hd_error g.1)
  end.

Definition refill (s : nat) (st : MergeState) : result MergeState CompactorError :=
  match cursors st !! s with
  | None => Ok st   (* indexing panics: never out of range *)
  | Some c =>
      let? r := refill_cursor (sort_indices st) c (c_stream c) in
      let heap' := match r.2 with Some k => (k, s) :: heap st | None => heap st end in
      Ok (mkMerge (<[s := r.1]> (cursors st)) heap' (sort_indices st))
  end.

Fixpoint refill_all (ss : list nat) (st : MergeState) : result MergeState CompactorError :=
  match ss with
  | [] => Ok st
  | s :: rest => let? st := refill s st in refill_all rest st
  end.

Definition init (streams : list PartBatchStream) (schema : ArrowSchema) (sort_key : list string)
  : result MergeState CompactorError :=
  let? ix := mapr (fun n => ok_or (index_of schema n) (MissingColumn n)) sort_key in
  let cursors := List.map (fun ps => mkCursor (ps_stream ps) (ps_path ps) [] [] 0 false None) streams in
  refill_all (seq 0 (length cursors)) (mkMerge cursors [] ix).

Definition build (st : MergeState) (indices : list (nat * nat)) : result Batch CompactorError :=
  interleave_record_batch (List.map c_batch (cursors st)) indices.

Definition advance (c : Cursor) : Cursor :=
  mkCursor (c_stream c) (c_path c) (c_batch c) (c_rows c) (S (c_idx c)) (c_exhausted c) (c_last c).

(** [room] is what [MERGE_BATCH_ROWS] leaves for more indices. *)
Fixpoint next_loop (room : nat) (indices : list (nat * nat)) (st : MergeState)
  : result (option Batch * MergeState) CompactorError :=
  match pop (heap st) with
  | None =>
      match indices with
      | [] => Ok (None, st)
      | _ => let? out := build st indices in Ok (Some out, st)
      end
  | Some ((_, s), heap') =>
      match cursors st !! s with
      | None => Err (ArrowErr "cursor index out of range")   (* a panic: heads are of cursors *)
      | Some c =>
          let indices := indices ++ [(s, c_idx c)] in
          let c' := advance c in
          let st := mkMerge (<[s := c']> (cursors st)) heap' (sort_indices st) in
          if (length (c_batch c') <=? c_idx c')%nat then
            let? out := build st indices in
            let? st := refill s st in
            Ok (Some out, st)
          else
            match c_rows c' !! c_idx c' with
            | None => Err (ArrowErr "row index out of range")   (* a panic: one row key per row *)
            | Some head =>
              let st := mkMerge (cursors st) ((head, s) :: heap') (sort_indices st) in
              match room with
              | S (S _ as room) => next_loop room indices st
              | _ => let? out := build st indices in Ok (Some out, st)
              end
            end
      end
  end.

Definition next_batch (st : MergeState) : result (option Batch * MergeState) CompactorError :=
  next_loop MERGE_BATCH_ROWS [] st.

(** The unfolding of [merge_streams]: the batches it yields, and how it ends
    ([None]: out of fuel). *)
Fixpoint unfold_merge (fuel : nat) (st : MergeState) : list Batch * option (result unit CompactorError) :=
  match fuel with
  | O => ([], None)
  | S fuel =>
      match next_batch st with
      | Err e => ([], Some (Err e))
      | Ok (None, _) => ([], Some (Ok tt))
      | Ok (Some batch, st) =>
          let '(out, fin) := unfold_merge fuel st in (batch :: out, fin)
      end
  end.

Definition merge_streams (fuel : nat) (streams : list PartBatchStream) (schema : ArrowSchema)
    (sort_key : list string) : list Batch * option (result unit CompactorError) :=
  match init streams schema sort_key with
  | Err e => ([], Some (Err e))
  | Ok st => unfold_merge fuel st
  end.

End merge.

End Merge.
