(* ===== verification/MergeSpec.v ===== *)
(** * What the streaming merge promises

    An input stream is good when all its items are readable and its rows are
    in order; the merge yields sorted batches, and succeeds -- with exactly the
    rows of the inputs -- when and only when every stream is good. *)

From S2P Require Import Prelude Bytes Json Arrow Schema Operation CatalogError Merge.
Import Merge.

Module MergeSpec.

(** ** Lists of cursors *)

Lemma list_lookup_middle_split {A} (l : list A) i x :
  l !! i = Some x -> l = take i l ++ x :: drop (S i) l.
Proof. intros H. by rewrite take_drop_middle. Qed.

Lemma concat_insert_perm {A B} (f : A -> list B) l i x y r :
  l !! i = Some x -> f x = r :: f y ->
  concat (f <$> l) ≡ₚ r :: concat (f <$> <[i := y]> l).
Proof.
  intros H E. assert (i < length l)%nat by (by eapply lookup_lt_Some).
  rewrite (list_lookup_middle_split l i x H) at 1. rewrite insert_take_drop by done.
  rewrite !fmap_app, !concat_app, !fmap_cons, !concat_cons, E. simpl. apply Permutation_sym, Permutation_middle.
Qed.

Lemma concat_insert_same {A B} (f : A -> list B) l i x y :
  l !! i = Some x -> f x = f y -> concat (f <$> <[i := y]> l) = concat (f <$> l).
Proof.
  intros H E. f_equal. rewrite list_fmap_insert, <- E. apply list_insert_id. by rewrite list_lookup_fmap, H.
Qed.

Section spec.
Context {Row K : Type} (kle : K -> K -> Prop) `{!TotalOrder kle, !RelDecision kle}.
Context (row_key : list nat -> Row -> K).
Context (interleave : list (list Row) -> list (nat * nat) -> result (list Row) CompactorError).

(** The row a pair of indices names. *)
Definition gather (bs : list (list Row)) (ix : nat * nat) : option Row := bs !! ix.1 ≫= (.!! ix.2).

(** [interleave_record_batch]: in-range indices select their rows, in order. *)
Hypothesis interleave_gathers :
  forall bs ix rows, mapM (gather bs) ix = Some rows -> interleave bs ix = Ok rows.

Implicit Types (c : @Cursor Row K) (st : @MergeState Row K) (ix : list nat).

(** ** Good streams *)

Fixpoint ok_rows (items : list (result (list Row) CompactorError)) : list Row :=
  match items with
  | [] => []
  | Ok b :: rest => b ++ ok_rows rest
  | Err _ :: rest => ok_rows rest
  end.

Definition good ix (prev : option K) (items : list (result (list Row) CompactorError)) : Prop :=
  Forall (fun r => is_ok r = true) items /\
  StronglySorted kle (option_list prev ++ List.map (row_key ix) (ok_rows items)).

Definition head_of c : option K := c_rows c !! c_idx c.

Definition pending c : list Row := drop (c_idx c) (c_batch c) ++ ok_rows (c_stream c).

(** A cursor between two steps: its keys are its rows', in order, the last one
    remembered, and it has a head until its stream is drained. *)
Definition cursor_wf ix c : Prop :=
  c_rows c = List.map (row_key ix) (c_batch c) /\
  StronglySorted kle (c_rows c) /\
  last (c_rows c) = c_last c /\
  (c_idx c <= length (c_batch c))%nat.

Definition drained c : Prop := head_of c = None -> c_stream c = [].

Lemma first_regression_sorted from k rows :
  first_regression kle from k rows = None <-> StronglySorted kle (k :: rows).
Proof.
  revert from k. induction rows as [|x rows IH]; simpl; intros from k.
  - split; [by repeat constructor|done].
  - case_bool_decide as E.
    + rewrite IH. split.
      * intros S. constructor; [done|]. constructor; [done|]. apply StronglySorted_inv in S as [_ F].
        eapply Forall_impl; [exact F|]. intros y Hy. by etransitivity.
      * by intros [S _]%StronglySorted_inv.
    + split; [done|]. intros [_ F]%StronglySorted_inv. by apply Forall_cons in F as [? _].
Qed.

(** Two sorted lists that share a row are sorted joined there. *)
Lemma sorted_join l x r :
  StronglySorted kle (l ++ [x]) -> StronglySorted kle (l ++ x :: r) <-> StronglySorted kle (x :: r).
Proof.
  intros S. split; [by apply StronglySorted_app_1_r|]. intros S'.
  apply StronglySorted_app in S as (C & Sl & _). apply StronglySorted_app_2; [|done|done].
  intros a b Ha [->|Hb]%elem_of_cons; [apply C; [done|left]|].
  apply StronglySorted_inv in S' as [_ F]. rewrite Forall_forall in F.
  etransitivity; [apply C; [done|left]|by apply F].
Qed.

(** One batch of a good stream is a step of the guard. *)
Lemma good_step ix prev k ks b rest :
  List.map (row_key ix) b = k :: ks -> StronglySorted kle (option_list prev ++ k :: ks) ->
  good ix prev (Ok b :: rest) <-> good ix (last (k :: ks)) rest.
Proof.
  intros E S. destruct (last (k :: ks)) as [l|] eqn:L; [|by apply last_None in L]. unfold good. rewrite Forall_cons. simpl. rewrite List.map_app, E.
  apply last_Some in L as (m & L). rewrite L in S |- *.
  rewrite app_assoc in S. rewrite <- app_assoc, app_assoc. simpl.
  rewrite (sorted_join _ _ _ S). naive_solver.
Qed.

Lemma guard_spec ix b path prev k ks :
  List.map (row_key ix) b = k :: ks ->
  match convert_and_guard kle row_key ix b path prev with
  | Ok g => g = (k :: ks, last (k :: ks)) /\ StronglySorted kle (option_list prev ++ k :: ks)
  | Err e => ~ StronglySorted kle (option_list prev ++ k :: ks) /\ exists i, e = MergeOrderViolation path i
  end.
Proof.
  intros E. unfold convert_and_guard. rewrite E.
  destruct (first_regression kle 1 k ks) as [i|] eqn:R.
  - split; [|eauto]. intros S%StronglySorted_app_1_r.
    by rewrite (proj2 (first_regression_sorted 1 k ks) S) in R.
  - apply first_regression_sorted in R. destruct prev as [p|]; simpl; [|done].
    case_bool_decide as P; simpl.
    + split; [done|]. constructor; [done|]. constructor; [done|]. apply StronglySorted_inv in R as [_ F].
      eapply Forall_impl; [exact F|]. intros y Hy. by etransitivity.
    + split; [|eauto]. intros [_ F]%StronglySorted_inv. by apply Forall_cons in F as [? _].
Qed.

Lemma good_nil ix prev : good ix prev [].
Proof. split; [constructor|]. destruct prev; simpl; repeat constructor. Qed.

(** ** Refilling one cursor *)

Definition refilled ix c (items : list (result (list Row) CompactorError)) c' (h : option K) : Prop :=
  cursor_wf ix c' /\ drained c' /\ h = head_of c' /\ pending c' = ok_rows items /\ c_path c' = c_path c /\
  (good ix (c_last c) items <-> good ix (c_last c') (c_stream c')) /\
  (forall p k, c_last c = Some p -> h = Some k -> kle p k) /\
  (forall e, Err e ∈ c_stream c' -> Err e ∈ items).

Lemma refill_cursor_spec ix c items :
  cursor_wf ix c -> c_idx c = length (c_batch c) ->
  match refill_cursor kle row_key ix c items with
  | Ok (c', h) => refilled ix c items c' h
  | Err e => ~ good ix (c_last c) items /\
             (Err e ∈ items \/ exists i, e = MergeOrderViolation (c_path c) i)
  end.
Proof.
  intros (R & S & L & _) I.
  assert (N : length (c_rows c) = length (c_batch c)) by (by rewrite R, List.length_map).
  induction items as [|[b|e] items IH]; simpl.
  - unfold refilled, cursor_wf, drained, head_of, pending; simpl.
    assert (c_rows c !! c_idx c = None) as -> by (apply lookup_ge_None_2; lia).
    rewrite drop_ge by lia. split_and!; try done.
    lia.
  - destruct b as [|r b].
    + destruct (refill_cursor kle row_key ix c items) as [[c' h]|e'] eqn:E.
      * destruct IH as (W & D & H & P & Q & G & B & M). unfold refilled. split_and!; try done;
          [|intros e' He; right; by apply M]. rewrite <- G. unfold good. rewrite Forall_cons. simpl. naive_solver.
      * destruct IH as (G & Hin). split; [|destruct Hin; [left; by right|by right]].
        intros [[_ F]%Forall_cons S']. apply G. by split.
    + pose proof (guard_spec ix (r :: b) (c_path c) (c_last c) _ _ eq_refl) as H.
      destruct (convert_and_guard kle row_key ix (r :: b) (c_path c) (c_last c)) as [g|e'].
      * destruct H as [-> S']. simpl.
        unfold refilled, cursor_wf, drained, head_of, pending. simpl. split_and!; try done.
        -- by apply StronglySorted_app_1_r in S'.
        -- lia.
        -- by apply (good_step ix (c_last c) (row_key ix r) (List.map (row_key ix) b)).
        -- intros p k0 Hp [= <-]. rewrite Hp in S'. simpl in S'.
           apply StronglySorted_inv in S' as [_ F]. by apply Forall_cons in F as [? _].
        -- intros e He. by right.
      * destruct H as [H [i ->]]. split; [|by eauto]. intros [_ G]. apply H.
        change (ok_rows (Ok (r :: b) :: items)) with ((r :: b) ++ ok_rows items) in G.
        rewrite List.map_app, app_assoc in G. by apply StronglySorted_app_1_l in G.
  - split; [|left; left]. intros [F _]. by apply Forall_cons in F as [? _].
Qed.

(** ** The heap *)

#[local] Instance spec_key_eq_dec : EqDecision K := key_eq_dec kle.

Lemma head_le_trans (a b d : K * nat) : head_le kle a b -> head_le kle b d -> head_le kle a d.
Proof.
  intros [[A N]|[A B]] [[C M]|[C D]]; unfold head_le.
  - left. split; [by etransitivity|]. intros E. rewrite <- E in C. apply N. by apply (anti_symm kle).
  - left. rewrite <- C. done.
  - left. rewrite A. done.
  - right. split; [congruence|lia].
Qed.

Lemma head_le_key a b : head_le kle a b -> kle a.1 b.1.
Proof. intros [[H _]|[-> _]]; [done|reflexivity]. Qed.

Lemma head_le_total a b : ~ head_le kle a b -> head_le kle b a.
Proof.
  unfold head_le. intros N. destruct (decide (a.1 = b.1)) as [E|E].
  - right. split; [done|]. destruct (decide (a.2 <= b.2)%nat); [|lia]. exfalso. apply N. by right.
  - left. destruct (total kle a.1 b.1); [|by split; [|congruence]]. exfalso. apply N. left. by split.
Qed.

Lemma pop_spec (h : list (K * nat)) :
  match pop kle h with
  | None => h = []
  | Some (x, rest) => h ≡ₚ x :: rest /\ Forall (head_le kle x) rest
  end.
Proof.
  induction h as [|x h IH]; simpl; [done|]. destruct (pop kle h) as [[y rest]|].
  - destruct IH as [P F]. case_bool_decide as E.
    + split; [done|]. rewrite P. constructor; [done|]. eapply Forall_impl; [exact F|].
      intros z. by apply head_le_trans.
    + split; [rewrite P; apply Permutation_swap|]. constructor; [by apply head_le_total|done].
  - subst h. by split.
Qed.

Lemma Forall_insert_iff {A} (P : A -> Prop) l i x y :
  l !! i = Some x -> (P x <-> P y) -> Forall P l <-> Forall P (<[i := y]> l).
Proof.
  intros H E. assert (i < length l)%nat by (by eapply lookup_lt_Some).
  rewrite (list_lookup_middle_split l i x H) at 1. rewrite insert_take_drop by done.
  rewrite !Forall_app, !Forall_cons. tauto.
Qed.

(** The heap holds exactly the head of every cursor that has one. *)
Definition heap_ok (cs : list Cursor) (h : list (K * nat)) : Prop :=
  NoDup (h.*2) /\
  forall k s, (k, s) ∈ h <-> exists c : Cursor, cs !! s = Some c /\ head_of c = Some k.

Definition state_wf st : Prop :=
  heap_ok (cursors st) (heap st) /\
  Forall (cursor_wf (sort_indices st)) (cursors st) /\ Forall drained (cursors st).

Definition all_good st : Prop :=
  Forall (fun c => good (sort_indices st) (c_last c) (c_stream c)) (cursors st).

Definition all_pending st : list Row := concat (pending <$> cursors st).

Definition above (p : K) (h : list (K * nat)) : Prop := Forall (fun x => kle p x.1) h.

(** The heap without the entry of cursor [s], which is about to change. *)
Definition heap_except (cs : list Cursor) s (h : list (K * nat)) : Prop :=
  NoDup (h.*2) /\
  forall k s', (k, s') ∈ h <-> s' <> s /\ exists c : Cursor, cs !! s' = Some c /\ head_of c = Some k.

Lemma heap_pop cs h k s h' : heap_ok cs h -> h ≡ₚ (k, s) :: h' -> heap_except cs s h'.
Proof.
  intros [N H] P. rewrite P in N. simpl in N. apply NoDup_cons in N as [Ns N]. split; [done|].
  intros k' s'. rewrite <- H, P, elem_of_cons. split.
  - intros Hin. split; [|by right]. intros ->. apply Ns. by apply (list_elem_of_fmap_2 snd) in Hin.
  - by intros [? [[=]|?]].
Qed.

Lemma heap_headless cs h s c : heap_ok cs h -> cs !! s = Some c -> head_of c = None -> heap_except cs s h.
Proof.
  intros [N H] Hc Hn. split; [done|]. intros k s'. rewrite H. split; [|naive_solver].
  intros (d & Hd & Hk). split; [|eauto]. intros ->. rewrite Hc in Hd. injection Hd as <-. by rewrite Hn in Hk.
Qed.

Definition push (h : list (K * nat)) (s : nat) (o : option K) : list (K * nat) :=
  match o with Some k => (k, s) :: h | None => h end.

Lemma heap_put cs h s (c' : Cursor) :
  heap_except cs s h -> (s < length cs)%nat -> heap_ok (<[s := c']> cs) (push h s (head_of c')).
Proof.
  intros [N O] Hl.
  assert (O' : forall k' s', (k', s') ∈ h <->
                s' <> s /\ exists c : Cursor, <[s := c']> cs !! s' = Some c /\ head_of c = Some k').
  { intros k' s'. rewrite O. split; (intros [D Hd]; split; [done|]); by rewrite list_lookup_insert_ne in * by done. }
  assert (Ns : s ∉ h.*2).
  { intros ([k' s'] & -> & Hin)%list_elem_of_fmap. by apply O in Hin as [? _]. }
  assert (E : <[s := c']> cs !! s = Some c') by (by apply list_lookup_insert_eq).
  destruct (head_of c') as [k1|] eqn:Hd; split; try done; try (by simpl; constructor); intros k' s'; simpl.
  - rewrite elem_of_cons, O'. split.
    + intros [[= -> ->]|[_ ?]]; [by exists c'|done].
    + intros (d & Ed & Hk). destruct (decide (s' = s)) as [->|]; [left|right; eauto].
      rewrite E in Ed. injection Ed as <-. by rewrite Hd in Hk; injection Hk as ->.
  - rewrite O'. split; [by intros [_ ?]|]. intros (d & Ed & Hk). split; [|eauto].
    intros ->. rewrite E in Ed. injection Ed as <-. by rewrite Hd in Hk.
Qed.

(** The error names an unreadable item, or a row out of order, of one input. *)
Definition blames st (e : CompactorError) : Prop :=
  exists c, c ∈ cursors st /\ (Err e ∈ c_stream c \/ exists i, e = MergeOrderViolation (c_path c) i).

(** ** Progress: what emitting some rows does to the state *)

Definition keys st (rows : list Row) : list K := List.map (row_key (sort_indices st)) rows.

Record progress st (rows : list Row) st' : Prop := {
  pg_wf : state_wf st';
  pg_ix : sort_indices st' = sort_indices st;
  pg_pending : all_pending st ≡ₚ rows ++ all_pending st';
  pg_sorted : StronglySorted kle (keys st rows);
  pg_above : forall p, above p (heap st) -> Forall (kle p) (keys st rows) /\ above p (heap st');
  pg_below : Forall (fun k => above k (heap st')) (keys st rows);
  pg_good : all_good st <-> all_good st';
  pg_blame : forall e, blames st' e -> blames st e;
}.

Lemma keys_ix st st' rows : sort_indices st' = sort_indices st -> keys st' rows = keys st rows.
Proof. unfold keys. by intros ->. Qed.

Lemma progress_trans st rows st1 rows' st2 :
  progress st rows st1 -> progress st1 rows' st2 -> progress st (rows ++ rows') st2.
Proof.
  intros [W1 I1 P1 S1 A1 B1 G1 Q1] [W2 I2 P2 S2 A2 B2 G2 Q2].
  rewrite (keys_ix _ _ _ I1) in S2, B2.
  assert (A2' : forall p, above p (heap st1) -> Forall (kle p) (keys st rows') /\ above p (heap st2)).
  { intros p Hp. rewrite <- (keys_ix _ _ rows' I1). by apply A2. }
  split.
  - done.
  - congruence.
  - by rewrite P1, P2, app_assoc.
  - unfold keys in *. rewrite List.map_app. apply StronglySorted_app_2; [|done|done].
    intros a b Ha Hb. rewrite Forall_forall in B1. destruct (A2' a (B1 a Ha)) as [F _].
    rewrite Forall_forall in F. by apply F.
  - intros p Hp. destruct (A1 p Hp) as [F1 H1]. destruct (A2' p H1) as [F2 H2].
    split; [|done]. unfold keys in *. rewrite List.map_app. by apply Forall_app.
  - unfold keys in *. rewrite List.map_app. apply Forall_app. split; [|done].
    eapply Forall_impl; [exact B1|]. intros k Hk. by apply A2'.
  - by rewrite G1.
  - by intros e He%Q2%Q1.
Qed.

Lemma take_head st k s h' :
  state_wf st -> pop kle (heap st) = Some ((k, s), h') ->
  exists c r, cursors st !! s = Some c /\ heap st ≡ₚ (k, s) :: h' /\ c_batch c !! c_idx c = Some r /\
    row_key (sort_indices st) r = k /\ above k (heap st) /\ above k h' /\
    cursor_wf (sort_indices st) c /\ cursor_wf (sort_indices st) (advance c).
Proof.
  intros (H & W & _) E. pose proof (pop_spec (heap st)) as P. rewrite E in P. destruct P as [P F].
  assert (Hin : (k, s) ∈ heap st) by (rewrite P; left).
  apply H in Hin as (c & Hc & Hd). rewrite Forall_lookup in W. pose proof (W _ _ Hc) as Wc.
  pose proof Wc as (R & S & L & I). unfold head_of in Hd. rewrite R, list_lookup_fmap in Hd.
  destruct (c_batch c !! c_idx c) as [r|] eqn:B; [|done]. simpl in Hd. injection Hd as Hd.
  assert (A : above k h').
  { eapply Forall_impl; [exact F|]. intros x Hx. by apply head_le_key in Hx. }
  exists c, r. split_and!; try done.
  - unfold above. rewrite P. by constructor.
  - apply lookup_lt_Some in B. unfold cursor_wf, advance; simpl. split_and!; try done.
Qed.

Lemma progress_step st k s h' c r c' :
  state_wf st -> heap st ≡ₚ (k, s) :: h' -> above k (heap st) -> cursors st !! s = Some c ->
  c_batch c !! c_idx c = Some r -> row_key (sort_indices st) r = k ->
  cursor_wf (sort_indices st) c' -> drained c' -> pending c' = pending (advance c) ->
  c_path c' = c_path c -> (forall e, Err e ∈ c_stream c' -> Err e ∈ c_stream c) ->
  (forall k', head_of c' = Some k' -> kle k k') ->
  (good (sort_indices st) (c_last c) (c_stream c) <-> good (sort_indices st) (c_last c') (c_stream c')) ->
  progress st [r] (mkMerge (<[s := c']> (cursors st))
                     (push h' s (head_of c')) (sort_indices st)).
Proof.
  intros (H & W & D) P A Hc B E W' D' Pe Q M Hd G.
  assert (A' : forall p, above p (heap st) -> kle p k /\
    above p (push h' s (head_of c'))).
  { unfold above. intros p Hp. rewrite P in Hp. apply Forall_cons in Hp as [Hp Hp']. simpl in Hp.
    split; [done|]. destruct (head_of c') as [k'|]; [|done]. constructor; [|done]. simpl.
    etransitivity; [exact Hp|by apply Hd]. }
  split; simpl.
  - split; [|by split; apply Forall_insert]. apply heap_put; [by eapply heap_pop|by eapply lookup_lt_Some].
  - done.
  - unfold all_pending. simpl. apply (concat_insert_perm pending _ _ c); [done|]. rewrite Pe.
    unfold pending, advance; simpl. by rewrite (drop_S _ _ _ B).
  - repeat constructor.
  - unfold keys. simpl. rewrite E. intros p Hp. destruct (A' p Hp). split; [by repeat constructor|done].
  - unfold keys. simpl. rewrite E. constructor; [by apply A'|constructor].
  - unfold all_good. simpl. by apply (Forall_insert_iff (fun c => good (sort_indices st) (c_last c) (c_stream c)) _ _ c).
  - intros e (c0 & Hin & He). simpl in Hin. apply list_elem_of_lookup in Hin as [j Hj].
    destruct (decide (j = s)) as [->|].
    + rewrite list_lookup_insert_eq in Hj by (by eapply lookup_lt_Some). injection Hj as <-.
      exists c. split; [by eapply list_elem_of_lookup_2|]. destruct He as [He|[i ->]]; [left; by apply M|right].
      exists i. by rewrite Q.
    + rewrite list_lookup_insert_ne in Hj by done. exists c0. split; [by eapply list_elem_of_lookup_2|done].
Qed.

Lemma progress_refl st : state_wf st -> progress st [] st.
Proof. split; try done; repeat constructor; done. Qed.

(** ** One output batch *)

Lemma gather_snoc bs (ixs : list (nat * nat)) rows i r :
  mapM (gather bs) ixs = Some rows -> gather bs i = Some r -> mapM (gather bs) (ixs ++ [i]) = Some (rows ++ [r]).
Proof. intros H G. apply mapM_Some in H. apply mapM_Some. by apply Forall2_app; [|repeat constructor]. Qed.

Lemma refill_spec st k s h' c r :
  state_wf st -> heap st ≡ₚ (k, s) :: h' -> above k (heap st) -> cursors st !! s = Some c ->
  c_batch c !! c_idx c = Some r -> row_key (sort_indices st) r = k ->
  cursor_wf (sort_indices st) (advance c) -> c_idx (advance c) = length (c_batch c) ->
  match refill kle row_key s (mkMerge (<[s := advance c]> (cursors st)) h' (sort_indices st)) with
  | Ok st' => progress st [r] st'
  | Err e => ~ all_good st /\ blames st e
  end.
Proof.
  intros W P A Hc B E Wa I. unfold refill. simpl.
  rewrite list_lookup_insert_eq by (by eapply lookup_lt_Some).
  pose proof (refill_cursor_spec _ _ (c_stream (advance c)) Wa I) as R.
  destruct (refill_cursor kle row_key (sort_indices st) (advance c) (c_stream (advance c))) as [[c' h]|e]; simpl.
  - destruct R as (W' & D & -> & Pe & Q & G & Bd & M). rewrite list_insert_insert_eq.
    eapply progress_step; try done.
    + rewrite Pe. unfold pending. by rewrite drop_ge by (simpl in *; lia).
    + intros k' Hk'. destruct Wa as (R & S & L & _).
      assert (Hr : k ∈ c_rows (advance c)).
      { rewrite R, <- E. apply list_elem_of_fmap_2, (list_elem_of_lookup_2 _ (c_idx c) _ B). }
      destruct (last (c_rows (advance c))) as [p|] eqn:La; [|by apply last_None in La; rewrite La in Hr; apply elem_of_nil in Hr].
      etransitivity; [|by apply (Bd p k')]. apply last_Some in La as [m La]. rewrite La in S, Hr.
      apply elem_of_app in Hr as [Hr| ->%list_elem_of_singleton]; [|reflexivity].
      eapply StronglySorted_app_1_elem_of; [exact S|done|left].
  - destruct R as [G He]. split.
    + unfold all_good. rewrite Forall_lookup. intros F. by apply G, (F s c).
    + exists c. split; [by eapply list_elem_of_lookup_2|done].
Qed.

Lemma batches_advance cs s c :
  cs !! s = Some c -> List.map c_batch (<[s := advance c]> cs) = List.map (@c_batch Row K) cs.
Proof.
  intros H. change (c_batch <$> <[s := advance c]> cs = c_batch <$> cs).
  rewrite list_fmap_insert. apply list_insert_id. by rewrite list_lookup_fmap, H.
Qed.

Definition loop_result (indices : list (nat * nat)) (acc : list Row) room st
    (r : result (option (list Row) * MergeState) CompactorError) : Prop :=
  match r with
  | Ok (None, st') => st' = st /\ indices = [] /\ heap st = []
  | Ok (Some out, st') =>
      exists rows, out = acc ++ rows /\ (length rows <= room)%nat /\ (indices = [] -> rows <> []) /\
                   progress st rows st'
  | Err e => ~ all_good st /\ blames st e
  end.

Lemma next_loop_spec room : forall indices st acc,
  (0 < room)%nat -> state_wf st ->
  mapM (gather (List.map c_batch (cursors st))) indices = Some acc ->
  loop_result indices acc room st (next_loop kle row_key interleave room indices st).
Proof.
  induction room as [|room IH]; intros indices st acc Hr W G; [lia|].
  cbn [next_loop]. destruct (pop kle (heap st)) as [[[k s] h']|] eqn:E.
  2:{ pose proof (pop_spec (heap st)) as P. rewrite E in P. destruct indices as [|i indices]; [done|].
      unfold build. rewrite (interleave_gathers _ _ _ G). simpl. exists []. rewrite app_nil_r.
      split_and!; [done|simpl; lia|done|by apply progress_refl]. }
  destruct (take_head _ _ _ _ W E) as (c & r & Hc & P & B & Ek & A & A' & Wc & Wa). rewrite Hc.
  set (st1 := mkMerge (<[s := advance c]> (cursors st)) h' (sort_indices st)).
  assert (G' : mapM (gather (List.map c_batch (cursors st1))) (indices ++ [(s, c_idx c)]) = Some (acc ++ [r])).
  { simpl. rewrite (batches_advance _ _ _ Hc). apply gather_snoc; [done|].
    unfold gather. simpl. rewrite list_lookup_fmap, Hc. exact B. }
  assert (Hb : build interleave st1 (indices ++ [(s, c_idx c)]) = Ok (acc ++ [r])).
  { by apply interleave_gathers. }
  destruct (Nat.leb_spec (length (c_batch (advance c))) (c_idx (advance c))) as [Hx|Hx]; rewrite ?Hb; simpl rbind.
  - assert (I : c_idx (advance c) = length (c_batch c)) by (destruct Wa as (_ & _ & _ & ?); simpl in *; lia).
    pose proof (refill_spec st k s h' c r W P A Hc B Ek Wa I) as R. fold st1 in R.
    destruct (refill kle row_key s st1) as [st'|e]; simpl; [|done].
    exists [r]. split_and!; [done|simpl; lia|done|done].
  - assert (Hh : is_Some (c_rows (advance c) !! c_idx (advance c))).
    { apply lookup_lt_is_Some. destruct Wa as (-> & _). by rewrite List.length_map. }
    destruct Hh as [hd Hd]. rewrite Hd.
    assert (Pg : progress st [r] (mkMerge (cursors st1) ((hd, s) :: h') (sort_indices st))).
    { pose proof (progress_step st k s h' c r (advance c) W P A Hc B Ek Wa) as Q.
      unfold head_of in Q. rewrite Hd in Q. apply Q; [intros Hn; unfold head_of in Hn; by rewrite Hd in Hn|done|done|done| |done].
      intros k' [= <-]. destruct Wa as (R & S & _).
      assert (Hk : c_rows (advance c) !! c_idx c = Some k) by (rewrite R, list_lookup_fmap; simpl; rewrite B; simpl; by rewrite Ek).
      rewrite <- (take_drop_middle _ _ _ Hk) in S. apply StronglySorted_app_1_r, StronglySorted_inv in S as [_ F].
      rewrite Forall_lookup in F. apply (F 0%nat). rewrite lookup_drop, Nat.add_0_r. exact Hd. }
    destruct room as [|room].
    + unfold build in *. simpl in *. rewrite Hb. simpl. exists [r]. by split_and!; [|simpl; lia|..].
    + specialize (IH (indices ++ [(s, c_idx c)]) _ (acc ++ [r]) ltac:(lia) (pg_wf _ _ _ Pg) G').
      destruct (next_loop kle row_key interleave (S room) (indices ++ [(s, c_idx c)]) _) as [[[out|] st']|e];
        simpl in IH |- *.
      * destruct IH as (rows & -> & Hl & _ & Pg'). exists (r :: rows). rewrite <- app_assoc.
        split_and!; [done|simpl; lia|done|]. exact (progress_trans _ [r] _ rows _ Pg Pg').
      * destruct IH as (_ & IH & _). by destruct indices.
      * destruct IH as [N Bl]. split; [by rewrite (pg_good _ _ _ Pg)|by apply (pg_blame _ _ _ Pg)].
Qed.

(** ** The first refills *)

(** Cursors [n] and up have not been refilled yet. *)
Definition fresh c : Prop := c_batch c = [] /\ c_rows c = [] /\ c_idx c = 0%nat /\ c_last c = None.

Record partial_wf n st : Prop := {
  pw_heap : heap_ok (cursors st) (heap st);
  pw_cursors : Forall (cursor_wf (sort_indices st)) (cursors st);
  pw_done : forall s c, (s < n)%nat -> cursors st !! s = Some c -> drained c;
  pw_fresh : forall s c, (n <= s)%nat -> cursors st !! s = Some c -> fresh c;
}.

Lemma blames_insert cs s c c' h h' ix e :
  cs !! s = Some c -> c_path c' = c_path c -> (forall e, Err e ∈ c_stream c' -> Err e ∈ c_stream c) ->
  blames (mkMerge (<[s := c']> cs) h ix) e -> blames (mkMerge cs h' ix) e.
Proof.
  intros Hc Q M (c0 & Hin & He). simpl in Hin. apply list_elem_of_lookup in Hin as [j Hj].
  destruct (decide (j = s)) as [->|].
  - rewrite list_lookup_insert_eq in Hj by (by eapply lookup_lt_Some). injection Hj as <-.
    exists c. split; [by eapply list_elem_of_lookup_2|]. destruct He as [He|[i ->]]; [left; by apply M|right].
    exists i. by rewrite Q.
  - rewrite list_lookup_insert_ne in Hj by done. exists c0. split; [by eapply list_elem_of_lookup_2|done].
Qed.

Lemma refill_fresh n st c :
  partial_wf n st -> cursors st !! n = Some c ->
  match refill kle row_key n st with
  | Ok st' => partial_wf (S n) st' /\ sort_indices st' = sort_indices st /\
              length (cursors st') = length (cursors st) /\ all_pending st' = all_pending st /\
              (all_good st <-> all_good st') /\ (forall e, blames st' e -> blames st e)
  | Err e => ~ all_good st /\ blames st e
  end.
Proof.
  intros [H W D F] Hc. unfold refill. rewrite Hc.
  destruct (F n c) as (Fb & Fr & Fi & Fl); [done..|].
  pose proof (Forall_lookup_1 _ _ _ _ W Hc) as Wc.
  assert (Hl : (n < length (cursors st))%nat) by (by eapply lookup_lt_Some).
  pose proof (refill_cursor_spec _ c (c_stream c) Wc) as R. rewrite Fb, Fi in R. specialize (R eq_refl).
  destruct (refill_cursor kle row_key (sort_indices st) c (c_stream c)) as [[c' h]|e]; simpl.
  - destruct R as (W' & D' & -> & Pe & Q & G & _ & M). split_and!; try done.
    + split; simpl.
      * apply heap_put; [|done]. eapply heap_headless; [done..|]. unfold head_of. by rewrite Fr.
      * by apply Forall_insert.
      * intros s d Hs Hd. destruct (decide (s = n)) as [->|].
        -- rewrite list_lookup_insert_eq in Hd by done. by injection Hd as <-.
        -- rewrite list_lookup_insert_ne in Hd by done. apply (D s); [lia|done].
      * intros s d Hs Hd. rewrite list_lookup_insert_ne in Hd by lia. apply (F s); [lia|done].
    + simpl. by rewrite length_insert.
    + unfold all_pending. simpl. apply (concat_insert_same pending _ _ c); [done|].
      rewrite Pe. unfold pending. by rewrite Fb, Fi.
    + unfold all_good. simpl.
      by apply (Forall_insert_iff (fun c => good (sort_indices st) (c_last c) (c_stream c)) _ _ c).
    + intros e. destruct st. by apply (blames_insert _ n c).
  - destruct R as [G He]. split.
    + unfold all_good. rewrite Forall_lookup. intros Hg. by apply G, (Hg n c).
    + exists c. split; [by eapply list_elem_of_lookup_2|done].
Qed.

Lemma refill_all_spec k : forall n st,
  partial_wf n st -> length (cursors st) = (n + k)%nat ->
  match refill_all kle row_key (seq n k) st with
  | Ok st' => state_wf st' /\ sort_indices st' = sort_indices st /\ all_pending st' = all_pending st /\
              (all_good st <-> all_good st') /\ (forall e, blames st' e -> blames st e)
  | Err e => ~ all_good st /\ blames st e
  end.
Proof.
  induction k as [|k IH]; intros n st P L; simpl.
  - destruct P as [H W D _]. split_and!; try done. split; [done|]. split; [done|].
    apply Forall_lookup. intros s c Hc. apply (D s); [|done]. apply lookup_lt_Some in Hc. lia.
  - assert (is_Some (cursors st !! n)) as [c Hc] by (apply lookup_lt_is_Some; lia).
    pose proof (refill_fresh n st c P Hc) as R. destruct (refill kle row_key n st) as [st1|e]; simpl; [|done].
    destruct R as (P1 & I1 & L1 & A1 & G1 & B1). specialize (IH (S n) st1 P1 ltac:(lia)).
    destruct (refill_all kle row_key (seq (S n) k) st1) as [st2|e]; simpl.
    + destruct IH as (W2 & I2 & A2 & G2 & B2). split_and!; [done|congruence|congruence|by rewrite G1|].
      by intros e He%B2%B1.
    + destruct IH as [G2 B2]. split; [by rewrite G1|by apply B1].
Qed.

(** ** The whole merge *)

Lemma drained_state st : state_wf st -> heap st = [] -> all_good st /\ all_pending st = [].
Proof.
  intros (H & W & D) E.
  assert (N : forall s c, cursors st !! s = Some c -> c_stream c = [] /\ pending c = []).
  { intros s c Hc. pose proof (Forall_lookup_1 _ _ _ _ W Hc) as (R & _). pose proof (Forall_lookup_1 _ _ _ _ D Hc) as Dc.
    assert (Hn : head_of c = None).
    { destruct (head_of c) as [k|] eqn:Hk; [|done]. assert (Hin : (k, s) ∈ heap st) by (apply H; eauto).
      rewrite E in Hin. by apply elem_of_nil in Hin. }
    rewrite (Dc Hn). split; [done|]. unfold pending. rewrite (Dc Hn), app_nil_r.
    apply drop_ge. unfold head_of in Hn. rewrite R in Hn. apply lookup_ge_None_1 in Hn. by rewrite List.length_map in Hn. }
  split.
  - apply Forall_lookup. intros s c Hc. destruct (N s c Hc) as [-> _]. apply good_nil.
  - unfold all_pending. apply concat_nil_Forall, Forall_fmap, Forall_lookup. intros s c Hc. by apply (N s c).
Qed.

Lemma unfold_merge_spec fuel : forall st outs fin,
  state_wf st -> unfold_merge kle row_key interleave fuel st = (outs, fin) ->
  Forall (fun b => b <> [] /\ (length b <= MERGE_BATCH_ROWS)%nat) outs /\
  StronglySorted kle (keys st (concat outs)) /\
  (forall p, above p (heap st) -> Forall (kle p) (keys st (concat outs))) /\
  match fin with
  | Some (Ok _) => all_good st /\ concat outs ≡ₚ all_pending st
  | Some (Err e) => ~ all_good st /\ blames st e
  | None => (fuel <= length (all_pending st))%nat
  end.
Proof.
  induction fuel as [|fuel IH]; intros st outs fin W; simpl.
  { intros [= <- <-]. split_and!; try done; [constructor..|lia]. }
  pose proof (next_loop_spec MERGE_BATCH_ROWS [] st [] ltac:(unfold MERGE_BATCH_ROWS; lia) W eq_refl) as R.
  unfold next_batch.
  destruct (next_loop kle row_key interleave MERGE_BATCH_ROWS [] st) as [[[b|] st1]|e]; simpl in R.
  - destruct R as (rows & -> & Hl & Hne & Pg).
    destruct (unfold_merge kle row_key interleave fuel st1) as [out fin1] eqn:U. intros [= <- <-].
    destruct (IH st1 out fin1 (pg_wf _ _ _ Pg) U) as (F & S & A & C).
    rewrite (keys_ix _ _ _ (pg_ix _ _ _ Pg)) in S. simpl.
    assert (Ek : keys st (rows ++ concat out) = keys st rows ++ keys st (concat out)) by apply List.map_app.
    assert (A1 : forall p, above p (heap st1) -> Forall (kle p) (keys st (concat out))).
    { intros p Hp. rewrite <- (keys_ix _ _ _ (pg_ix _ _ _ Pg)). by apply A. }
    rewrite Ek. split_and!.
    + constructor; [split; [by apply Hne|done]|done].
    + apply StronglySorted_app_2; [|apply (pg_sorted _ _ _ Pg)|done]. intros k k' Hk Hk'.
      pose proof (pg_below _ _ _ Pg) as B. rewrite Forall_forall in B. pose proof (A1 k (B k Hk)) as Fk.
      rewrite Forall_forall in Fk. by apply Fk.
    + intros p Hp. destruct (pg_above _ _ _ Pg p Hp) as [Fr Hp1]. apply Forall_app. split; [done|by apply A1].
    + pose proof (pg_pending _ _ _ Pg) as Pe. destruct fin1 as [[[]|e]|].
      * destruct C as [G Pc]. split; [by rewrite (pg_good _ _ _ Pg)|]. by rewrite Pc, Pe.
      * destruct C as [G Bl]. split; [by rewrite (pg_good _ _ _ Pg)|by apply (pg_blame _ _ _ Pg)].
      * rewrite Pe, length_app. destruct rows as [|x rows]; [by destruct Hne|]. simpl. lia.
  - destruct R as (-> & _ & E). intros [= <- <-]. destruct (drained_state st W E) as [G Pe].
    rewrite Pe. split_and!; try done; simpl; constructor.
  - intros [= <- <-]. simpl. split_and!; try apply R; constructor.
Qed.

(** A good input: readable to the end, its rows in order. *)
Definition sorted_input ix (ps : @PartBatchStream Row) : Prop := good ix None (ps_stream ps).

Definition input_rows (streams : list (@PartBatchStream Row)) : list Row :=
  concat ((fun ps => ok_rows (ps_stream ps)) <$> streams).

Lemma init_spec streams schema sort_key ix :
  mapr (fun n => ok_or (index_of schema n) (MissingColumn n)) sort_key = Ok ix ->
  match init kle row_key streams schema sort_key with
  | Ok st => state_wf st /\ sort_indices st = ix /\ all_pending st = input_rows streams /\
             (Forall (sorted_input ix) streams <-> all_good st)
  | Err e => ~ Forall (sorted_input ix) streams
  end /\
  forall e, (init kle row_key streams schema sort_key = Err e \/
             exists st, init kle row_key streams schema sort_key = Ok st /\ blames st e) ->
    exists ps, ps ∈ streams /\ (Err e ∈ ps_stream ps \/ exists i, e = MergeOrderViolation (ps_path ps) i).
Proof.
  intros E. unfold init. rewrite E. simpl.
  set (st0 := mkMerge (List.map (fun ps => mkCursor (ps_stream ps) (ps_path ps) [] [] 0 false None) streams) [] ix).
  assert (Hs : forall s c, cursors st0 !! s = Some c -> exists ps, streams !! s = Some ps /\
             c = mkCursor (ps_stream ps) (ps_path ps) [] [] 0 false None).
  { intros s c Hc. unfold st0 in Hc. simpl in Hc. rewrite list_lookup_fmap in Hc.
    destruct (streams !! s) as [ps|]; [|done]. simpl in Hc. injection Hc as <-. eauto. }
  assert (P : partial_wf 0 st0).
  { split.
    - split; [constructor|]. intros k s. split; [by intros ?%elem_of_nil|].
      intros (c & (ps & _ & ->)%Hs & Hk). done.
    - apply Forall_lookup. intros s c (ps & _ & ->)%Hs. split_and!; simpl; try done. constructor.
    - lia.
    - intros s c _ (ps & _ & ->)%Hs. done. }
  assert (G0 : Forall (sorted_input ix) streams <-> all_good st0).
  { unfold all_good, st0, sorted_input. simpl. change (List.map ?f streams) with (f <$> streams).
    rewrite Forall_fmap. done. }
  assert (B0 : forall e, blames st0 e ->
    exists ps, ps ∈ streams /\ (Err e ∈ ps_stream ps \/ exists i, e = MergeOrderViolation (ps_path ps) i)).
  { intros e (c & [s (ps & Hp & ->)%Hs]%list_elem_of_lookup & He). exists ps.
    split; [by eapply list_elem_of_lookup_2|done]. }
  pose proof (refill_all_spec (length (cursors st0)) 0 st0 P eq_refl) as R.
  change (List.map _ streams) with (cursors st0).
  destruct (refill_all kle row_key (seq 0 (length (cursors st0))) st0) as [st|e] eqn:Er.
  - destruct R as (W & I & A & G & B). split; [split_and!; try done|].
    + rewrite A. unfold all_pending, st0, input_rows, pending. simpl. f_equal.
      change (List.map ?f streams) with (f <$> streams). by rewrite <- list_fmap_compose.
    + by rewrite G0.
    + intros e [[=]|(st' & [= <-] & Bl)]. by apply B0, B.
  - destruct R as [G B]. split; [by rewrite G0|]. intros e' [[= <-]|(st' & [=] & _)]. by apply B0.
Qed.

(** C20: the streaming merge is a sorted union that never lies: every batch it
    yields is non-empty and bounded and what it has yielded is in sort-key
    order, whatever the inputs; with fuel for one step per row it always ends;
    it ends well exactly when every input is readable and in order, and then it
    has yielded exactly their rows; and an error is either an input's own read
    error or names an input whose rows are out of order. *)
Theorem merge_is_sorted_union fuel streams schema sort_key ix outs fin :
  mapr (fun n => ok_or (index_of schema n) (MissingColumn n)) sort_key = Ok ix ->
  (length (input_rows streams) < fuel)%nat ->
  merge_streams kle row_key interleave fuel streams schema sort_key = (outs, fin) ->
  Forall (fun b => b <> [] /\ (length b <= MERGE_BATCH_ROWS)%nat) outs /\
  StronglySorted kle (List.map (row_key ix) (concat outs)) /\
  (fin = Some (Ok tt) <-> Forall (sorted_input ix) streams) /\
  (fin = Some (Ok tt) -> concat outs ≡ₚ input_rows streams) /\
  (fin <> Some (Ok tt) -> exists e ps, fin = Some (Err e) /\ ps ∈ streams /\
     (Err e ∈ ps_stream ps \/ exists i, e = MergeOrderViolation (ps_path ps) i)).
Proof.
  intros E Hf. pose proof (init_spec streams schema sort_key ix E) as [R Bl]. unfold merge_streams.
  destruct (init kle row_key streams schema sort_key) as [st|e].
  - destruct R as (W & I & A & G). intros U. apply unfold_merge_spec in U as (F & S & _ & C); [|done].
    unfold keys in S. rewrite I in S. split; [done|]. split; [done|]. destruct fin as [[[]|e]|].
    + rewrite G, <- A. naive_solver.
    + rewrite G. destruct C as [Ng Be]. split; [split; [done|by intros ?]|]. split; [done|]. intros _.
      destruct (Bl e) as (ps & ? & ?); [by right; exists st|]. by exists e, ps.
    + rewrite A in C. lia.
  - intros [= <- <-]. split_and!; [constructor|constructor|by split|done|]. intros _.
    destruct (Bl e) as (ps & ? & ?); [by left|]. by exists e, ps.
Qed.


End spec.
End MergeSpec.

Module MergeExamples.
Import MergeSpec.

Definition z_key (ix : list nat) (r : Z) : Z := r.
Definition z_interleave (bs : list (list Z)) (ixs : list (nat * nat)) : result (list Z) CompactorError :=
  ok_or (mapM (gather bs) ixs) (ArrowErr "interleave").

#[global] Instance Z_le_total_order : TotalOrder Z.le.
Proof. split; [apply _|]. intros a b. unfold strict. destruct (Z.lt_trichotomy a b) as [|[]]; lia. Qed.

Definition z_merge := merge_streams Z.le z_key z_interleave.
Definition k_schema : ArrowSchema := [mkField "k" Int64 false []].
Definition two : list (@PartBatchStream Z) :=
  [mkStream "a" [Ok [1; 3]; Ok []; Ok [5]]; mkStream "b" [Ok [2; 3; 9]]].

Example merged : z_merge 7 two k_schema ["k"%string] = ([[1; 2; 3]; [3; 5]; [9]], Some (Ok tt)).
Proof. vm_compute. reflexivity. Qed.
Example regressed :
  z_merge 7 [mkStream "a" [Ok [1; 3]; Ok [2]]] k_schema ["k"%string]
  = ([], Some (Err (MergeOrderViolation "a" 0))).
Proof. vm_compute. reflexivity. Qed.

Lemma merge_is_sorted_union_witness :
  Forall (sorted_input Z.le z_key [0%nat]) two /\ [1; 2; 3; 3; 5; 9] ≡ₚ input_rows two.
Proof.
  destruct (merge_is_sorted_union Z.le z_key z_interleave
              ltac:(intros bs ixs rows H; unfold z_interleave; by rewrite H)
              7 two k_schema ["k"%string] [0%nat] [[1; 2; 3]; [3; 5]; [9]] (Some (Ok tt)))
    as (_ & _ & A & B & _).
  - reflexivity.
  - simpl. lia.
  - vm_compute. reflexivity.
  - split; [by apply A|by apply B].
Defined.

End MergeExamples.
