(* ===== verification/PartRead.v ===== *)
(** * Reading parts back (crates/ukiel-compactor/src/rewrite.rs, the input half)

    A part's file as a stream of batches of the table's current schema: columns
    the file predates are NULL, or what their expression computes; stored
    values are as they were written.  Decoding a Parquet object is a parameter. *)

From S2P Require Import Prelude Bytes Json Types Arrow Schema Batches Expr Merge.
Import Schema Batches Merge.

Module PartRead.

Definition new_null_array (t : DataType) (n : nat) : ArrayRef :=
  match t with
  | Int64 => Int64Array (replicate n None)
  | t => OtherArray t (replicate n None)
  end.

Section read.
Context {Obj : Type} `{DF : Expr.DataFusionOps}.
(** The Parquet reader: the batches of an object, or why it is none. *)
Context (read_object : Obj -> result (list (result RecordBatch string)) string).

Abbreviation BatchStream := (string * list (result RecordBatch CompactorError))%type.

(** The closure of [adapt_to_schema] over one target field. *)
Definition adapt_column (batch : RecordBatch) (f : Field) : ArrayRef :=
  match index_of (rb_schema batch) (f_name f) ≫= (rb_columns batch !!.) with
  | Some c => c
  | None => new_null_array (f_type f) (num_rows batch)
  end.

Definition adapt_to_schema (batch : RecordBatch) (target : ArrowSchema) : result RecordBatch CompactorError :=
  match Expr.try_new_error target (List.map (adapt_column batch) target) with
  | Some e => Err (ArrowErr e)
  | None => Ok (mkBatch target (List.map (adapt_column batch) target))
  end.

(** The closure of [part_streams] over one decoded item. *)
Definition part_item (schema : ArrowSchema) (cols : TableColumns) (path : string)
    (item : result RecordBatch string) : result RecordBatch CompactorError :=
  let? batch := map_err (PartRead path) item in
  let? adapted := adapt_to_schema batch schema in
  map_err ExprErr
    (Expr.apply_missing_defaults_and_materialized adapted cols
       (rb_schema batch)).

Definition part_stream (store : gmap string Obj) (schema : ArrowSchema) (cols : TableColumns) (part : Part)
  : result BatchStream CompactorError :=
  let p := path (meta part) in
  let? obj := ok_or (store !! p) (PartRead p "object not found") in
  let? items := map_err (PartRead p) (read_object obj) in
  Ok (p, List.map (part_item schema cols p) items).

Definition part_streams (store : gmap string Obj) (schema : ArrowSchema) (cols : TableColumns)
    (parts : list Part) : result (list BatchStream) CompactorError :=
  mapr (part_stream store schema cols) parts.

(** [concat_batches]: batches of one schema. *)
Definition concat_batches (s : ArrowSchema) (bs : list RecordBatch) : result RecordBatch CompactorError :=
  if bool_decide (Forall (fun b => List.map f_type (rb_schema b) = List.map f_type s) bs)
  then Ok (cat s bs) else Err (ArrowErr "concat_batches: schemas").

Definition read_parts_for_rewrite (store : gmap string Obj) (cols : TableColumns) (parts : list Part)
  : result RecordBatch CompactorError :=
  let schema := physical_schema cols in
  let? streams := part_streams store schema cols parts in
  let? batches := mapr id (concat (List.map snd streams)) in
  concat_batches schema batches.

Definition read_parts_to_batch (store : gmap string Obj) (schema : ArrowSchema) (parts : list Part)
  : result RecordBatch CompactorError :=
  let? batchess := mapr (fun part =>
    let? obj := ok_or (store !! path (meta part)) (ObjectStoreErr "not found") in
    let? items := map_err ParquetErr (read_object obj) in
    mapr (fun item => let? b := map_err ParquetErr item in adapt_to_schema b schema) items) parts in
  concat_batches schema (concat batchess).

(** ** Additive evolution *)

Lemma new_null_array_cells t n : Forall (fun c => Expr.cell_null c = true) (array_cells (new_null_array t n)).
Proof.
  assert (F : forall A (f : option A -> Cell), Expr.cell_null (f None) = true ->
    Forall (fun c => Expr.cell_null c = true) (List.map f (replicate n None))).
  { intros A f E. induction n; simpl; constructor; done. }
  destruct t; by apply F.
Qed.

Lemma adapt_column_present batch f j :
  index_of (rb_schema batch) (f_name f) = Some j -> is_Some (rb_columns batch !! j) ->
  rb_columns batch !! j = Some (adapt_column batch f).
Proof. intros I [c Hc]. unfold adapt_column. rewrite I. simpl. by rewrite Hc. Qed.

Lemma adapt_column_missing batch f :
  has_column (rb_schema batch) (f_name f) = false ->
  adapt_column batch f = new_null_array (f_type f) (num_rows batch).
Proof. unfold has_column, adapt_column. by destruct (index_of _ _). Qed.

(** What one decoded batch becomes. *)
Lemma part_item_spec schema cols p batch out :
  part_item schema cols p (Ok batch) = Ok out ->
  rb_schema out = schema /\
  forall nm j f, index_of schema nm = Some j -> schema !! j = Some f ->
    (forall i c, index_of (rb_schema batch) nm = Some i -> rb_columns batch !! i = Some c ->
       rb_columns out !! j = Some c) /\
    (has_column (rb_schema batch) nm = false -> Expr.unfilled (specs cols) nm ->
       rb_columns out !! j = Some (new_null_array (f_type f) (num_rows batch))).
Proof.
  unfold part_item, adapt_to_schema. simpl. destruct (Expr.try_new_error _ _); [done|]. simpl. intros H.
  destruct (Expr.apply_missing_defaults_and_materialized _ _ _) as [b|] eqn:F; [|done]. injection H as ->.
  apply rbind_Ok in F as (cs & F & ->%Expr.try_new_Ok). simpl in *. split; [done|].
  apply Expr.fill_columns_spec in F as [_ S]. intros nm j f I Hf. destruct (S nm j I) as [A _].
  assert (N : f_name f = nm).
  { pose proof (index_of_spec schema nm) as Q. rewrite I in Q. destruct Q as (g & Hg & <-). congruence. }
  assert (L : List.map (adapt_column batch) schema !! j = Some (adapt_column batch f)).
  { rewrite lookup_map. apply fmap_Some. by exists f. }
  split.
  - intros i c Hi Hc. rewrite A, L.
    + symmetry. rewrite <- Hc. apply adapt_column_present; [by rewrite N|by rewrite Hc].
    + apply Forall_forall. intros s [_ Ns]%filter_In_iff En. rewrite En in Ns. unfold has_column in Ns.
      by rewrite Hi in Ns.
  - intros Hm U. rewrite A, L; [by rewrite adapt_column_missing by (by rewrite N)|].
    apply Forall_forall. intros s [Hs _]%filter_In_iff. unfold Expr.unfilled in U. rewrite Forall_forall in U. by apply U.
Qed.

(** a file written under an older schema reads under the current one: every
    batch of a part's stream has the current schema, each column the file
    stored is exactly as stored, a column the file predates is all NULL unless
    an expression computes it, and a damaged file is an error that names it. *)
Theorem old_files_read_under_new_schema store schema cols part p items :
  part_stream store schema cols part = Ok (p, items) ->
  p = path (meta part) /\
  exists obj decoded, store !! p = Some obj /\ read_object obj = Ok decoded /\ length items = length decoded /\
  forall k item, items !! k = Some item -> exists d, decoded !! k = Some d /\
    match d, item with
    | Err e, _ => item = Err (PartRead p e)
    | Ok _, Err _ => True
    | Ok batch, Ok out => rb_schema out = schema /\
        forall nm j f, index_of schema nm = Some j -> schema !! j = Some f ->
          (forall i c, index_of (rb_schema batch) nm = Some i -> rb_columns batch !! i = Some c ->
             rb_columns out !! j = Some c) /\
          (has_column (rb_schema batch) nm = false -> Expr.unfilled (specs cols) nm ->
             exists a, rb_columns out !! j = Some a /\ array_len a = num_rows batch /\
               Forall (fun c => Expr.cell_null c = true) (array_cells a))
    end.
Proof.
  unfold part_stream. intros H. inv_ok. split; [done|].
  destruct (store !! path (meta part)) as [obj|] eqn:O; simpl in E; [|done]. injection E as ->.
  destruct (read_object a) as [decoded|] eqn:R; simpl in E0; [|done]. injection E0 as ->.
  exists a, a0. split_and!; try done; [by rewrite List.length_map|]. intros k item Hk.
  rewrite lookup_map in Hk.
  destruct (a0 !! k) as [d|] eqn:D; simpl in Hk; [|done]. injection Hk as <-. exists d. split; [done|].
  destruct d as [batch|e]; [|done]. destruct (part_item schema cols (path (meta part)) (Ok batch)) as [out|] eqn:P; [|done].
  apply part_item_spec in P as [Es S]. split; [done|]. intros nm j f I Hf. destruct (S nm j f I Hf) as [A B].
  split; [done|]. intros Hm U. eexists. split; [by apply B|]. split; [|apply new_null_array_cells].
  destruct (f_type f); simpl; apply length_replicate.
Qed.

End read.

(** ** The theorem applied: a file that predates a column *)

#[local] Existing Instance Expr.ex_datafusion.

Definition old_schema : ArrowSchema := [mkField "k" Int64 false []].
Definition new_schema : ArrowSchema := [mkField "k" Int64 false []; mkField "v" Int64 true []].
Definition new_cols : TableColumns :=
  mkTableColumns [mkColumnSpec "k" Int64 false Stored "int64" false; mkColumnSpec "v" Int64 true Stored "int64" false].
Definition ex_part : Part := mkPart 1 1 (mkPartMeta "a" JNull 0 9 2 10 0 None) 1.
Definition ex_decoded : list (result RecordBatch string) := [Ok (mkBatch old_schema [Int64Array [Some 1; Some 2]])].
Definition ex_store : gmap string (list (result RecordBatch string)) := {["a"%string := ex_decoded]}.
Definition ex_read (o : list (result RecordBatch string)) : result (list (result RecordBatch string)) string := Ok o.

Example ex_stream :
  part_stream ex_read ex_store new_schema new_cols ex_part
  = Ok ("a"%string, [Ok (mkBatch new_schema [Int64Array [Some 1; Some 2]; Int64Array [None; None]])]).
Proof. vm_compute. reflexivity. Qed.

Lemma old_files_read_under_new_schema_witness :
  exists obj decoded, ex_store !! "a"%string = Some obj /\ ex_read obj = Ok decoded /\ length decoded = 1%nat.
Proof.
  destruct (old_files_read_under_new_schema ex_read ex_store new_schema
    new_cols ex_part _ _ ex_stream) as (_ & obj & decoded & A & B & C & _).
  exists obj, decoded. split; [exact A|]. split; [exact B|]. by rewrite <- C.
Defined.

End PartRead.
