(* ===== verification/Rewrite.v ===== *)
(** * The rewrite engine (crates/ukiel-compactor/src/rewrite.rs)

    Splitting sorted batches into key runs, planning chunks, and the streaming
    writer that cuts placement-shaped files.  The Parquet writer is the history
    of the calls made on it; what it reports (rows in progress, encoded size,
    flushed row groups, failures) are functions of that history. *)

From S2P Require Import Prelude Bytes Json Types Arrow Schema Stats Batches Merge.
From Stdlib Require Import SpecFloat.
Import Batches Merge.

Module Rewrite.

(** ** Columns and key runs *)

Definition int64_column (batch : RecordBatch) (name : string) : result (list (option Z)) CompactorError :=
  let? idx := ok_or (index_of (rb_schema batch) name) (MissingColumn name) in
  ok_or (rb_columns batch !! idx ≫= as_int64) (NotInt64 name).

Section nulls.
(** What the values buffer holds under a null slot. *)
Context (under_null : nat -> Z).

(** [keys.value(i)]. *)
Definition value (keys : list (option Z)) (i : nat) : Z :=
  match keys !! i with Some (Some v) => v | _ => under_null i end.

(** The loop over [1..=keys.len()], with its open run's start. *)
Fixpoint split_loop (keys : list (option Z)) (batch : RecordBatch) (start : nat) (idxs : list nat)
  : list (Z * RecordBatch) :=
  match idxs with
  | [] => []
  | i :: rest =>
      if Nat.eqb i (length keys) || negb (value keys i =? value keys start)
      then (value keys start, batch_slice start (i - start) batch) :: split_loop keys batch i rest
      else split_loop keys batch start rest
  end.

Definition split_by_key (batch : RecordBatch) (packing_key : string)
  : result (list (Z * RecordBatch)) CompactorError :=
  let? keys := int64_column batch packing_key in
  Ok (split_loop keys batch 0 (seq 1 (length keys))).

Definition key_range (batch : RecordBatch) (packing_key : string) : result (Z * Z) CompactorError :=
  let? keys := int64_column batch packing_key in
  let? min := ok_or (column_min keys) (MissingColumn packing_key) in
  let? max := ok_or (column_max keys) (MissingColumn packing_key) in
  Ok (min, max).

(** ** Planned chunks *)

(** Binary64 arithmetic, as the language defines it. *)
Definition f64 := spec_float.
Definition f64_of (z : Z) : f64 := binary_normalize 53 1024 z 0 false.
Definition f64_mul : f64 -> f64 -> f64 := SFmul 53 1024.
Definition f64_lt (a b : f64) : bool := SFltb a b.
Definition f64_max (a b : f64) : f64 :=
  match a, b with
  | S754_nan, _ => b
  | _, S754_nan => a
  | _, _ => if f64_lt a b then b else a
  end.

Record Chunks := mkChunks {
  ch_done : list (Z * Z * RecordBatch);
  ch_start : nat;
  ch_rows : nat;
  ch_min : Z;
  ch_max : Z;
}.

Definition over_target (target : Z) (bytes_per_row : f64) (rows : nat) : bool :=
  f64_lt (f64_of (Z.max target 1)) (f64_mul (f64_of (Z.of_nat rows)) (f64_max bytes_per_row (f64_of 1))).

Definition plan_step (sorted : RecordBatch) (target : Z) (bytes_per_row : f64) (c : Chunks)
    (kr : Z * RecordBatch) : Chunks :=
  let '(key, run) := kr in
  let n := num_rows run in
  let c :=
    if negb (Nat.eqb (ch_rows c) 0) && over_target target bytes_per_row (ch_rows c + n)
    then mkChunks (ch_done c ++ [(ch_min c, ch_max c, batch_slice (ch_start c) (ch_rows c) sorted)])
           (ch_start c + ch_rows c) 0 (ch_min c) (ch_max c)
    else c in
  mkChunks (ch_done c) (ch_start c) (ch_rows c + n)
    (if Nat.eqb (ch_rows c) 0 then key else ch_min c) key.

Definition plan_chunks (sorted : RecordBatch) (packing_key : string) (placement : Placement)
    (bytes_per_row : f64) : result (list (Z * Z * RecordBatch)) CompactorError :=
  match placement with
  | Packed =>
      let? r := key_range sorted packing_key in
      Ok [(r.1, r.2, sorted)]
  | Separated =>
      let? runs := split_by_key sorted packing_key in
      Ok (List.map (fun kr => (kr.1, kr.1, kr.2)) runs)
  | SizeTargeted target =>
      let? runs := split_by_key sorted packing_key in
      let c := List.fold_left (plan_step sorted target bytes_per_row) runs (mkChunks [] 0 0 0 0) in
      Ok (if Nat.eqb (ch_rows c) 0 then ch_done c
          else ch_done c ++ [(ch_min c, ch_max c, batch_slice (ch_start c) (ch_rows c) sorted)])
  end.

End nulls.

(** ** The Parquet writer *)

Inductive WriterCall :=
| CWrite (slice : RecordBatch)
| CFlush
| CClose.

(** The rows a history wrote. *)
Definition written (calls : list WriterCall) : list RecordBatch :=
  omap (fun c => match c with CWrite b => Some b | _ => None end) calls.

Record ChunkOutput := mkOutput {
  co_path : string;
  co_key_min : Z;
  co_key_max : Z;
  co_row_count : Z;
  co_size_bytes : Z;
  co_column_stats : option json;
}.

Record OpenFile := mkOpenFile {
  f_calls : list WriterCall;
  f_path : string;
  f_key_min : Z;
  f_key_max : Z;
  f_current_key : Z;
  f_rows : Z;
  f_stats : Stats.Int64StatsAccumulator;
  f_keys : Stats.KeyBitmapAccumulator;
  f_packing_key : string;
  f_dedicated : bool;
}.

(** What a run of the writer leaves: the last closed key, the paths whose
    upload intent it sent to be registered, the closed objects, the open file,
    the outputs. *)
Record ChunkWriter := mkChunkWriter {
  last_closed_key : option Z;
  opened : list string;
  objects : list (string * list WriterCall);
  open : option OpenFile;
  outputs : list ChunkOutput;
}.

Definition new_writer : ChunkWriter := mkChunkWriter None [] [] None [].

Section parquet.
(** The Parquet writer's and the object store's answers, the base64 and roaring
    encodings, fresh paths, and the intent registration. *)
Context (in_progress_rows : Schema.WriterProperties -> list WriterCall -> Z).
Context (encoded_size_of : Schema.WriterProperties -> list WriterCall -> Z).
Context (flushed_row_groups : Schema.WriterProperties -> list WriterCall -> list Stats.RowGroupMetaData).
Context (fault : string -> list WriterCall -> option CompactorError).
Context (head_size : string -> list WriterCall -> result Z CompactorError).
Context (tm_serialize : gset Z -> option (list Z)) (b64_encode : list Z -> string).
Context (under_null : nat -> Z).
Context (next_path : nat -> string) (on_open : string -> option CompactorError).

(** [batch_to_parquet_key_aligned]: the calls on an in-memory writer. *)
Definition mem_call (calls : list WriterCall) (c : WriterCall) : result (list WriterCall) CompactorError :=
  match fault EmptyString (calls ++ [c]) with Some e => Err e | None => Ok (calls ++ [c]) end.

(** [batch_to_parquet_opts], and [batch_to_parquet] with the default layout. *)
Definition one_group (calls : list WriterCall) (batch : RecordBatch) : result (list WriterCall) CompactorError :=
  let? calls := mem_call calls (CWrite batch) in mem_call calls CClose.

Definition batch_to_parquet_opts (batch : RecordBatch) (sort_key : list string) (opts : Schema.WriteOpts)
  : Schema.WriterProperties * result (list WriterCall) CompactorError :=
  (Schema.writer_props (rb_schema batch) sort_key opts, one_group [] batch).

Definition batch_to_parquet (batch : RecordBatch) (sort_key : list string)
  : Schema.WriterProperties * result (list WriterCall) CompactorError :=
  (Schema.sorted_writer_props (rb_schema batch) sort_key, one_group [] batch).

Fixpoint aligned_loop (props : Schema.WriterProperties) (cap : Z) (runs : list (Z * RecordBatch))
    (calls : list WriterCall) : result (list WriterCall) CompactorError :=
  match runs with
  | [] => Ok calls
  | (_, slice) :: rest =>
      let? calls :=
        (if (0 <? in_progress_rows props calls)
            && (cap <? in_progress_rows props calls + Z.of_nat (num_rows slice))
         then mem_call calls CFlush else Ok calls) in
      let? calls := mem_call calls (CWrite slice) in
      aligned_loop props cap rest calls
  end.

Definition batch_to_parquet_key_aligned (batch : RecordBatch) (packing_key : string)
    (sort_key : list string) (opts : Schema.WriteOpts) : result (list WriterCall * option json) CompactorError :=
  let props := Schema.writer_props (rb_schema batch) sort_key opts in
  let? runs := split_by_key under_null batch packing_key in
  let? calls := aligned_loop props (Schema.max_row_group_rows opts) runs [] in
  let? calls := mem_call calls CFlush in
  let spans := Stats.key_row_groups (flushed_row_groups props calls) packing_key in
  let? calls := mem_call calls CClose in
  Ok (calls, spans).

Section streaming.
Context (schema : ArrowSchema) (opts : Schema.WriteOpts) (placement : Placement).
Context (packing_key : string) (sort_key : list string).

Definition props : Schema.WriterProperties := Schema.writer_props schema sort_key opts.
Definition encoded_size (f : OpenFile) : Z := encoded_size_of props (f_calls f).

Definition writer_call (f : OpenFile) (c : WriterCall) : result OpenFile CompactorError :=
  let calls := f_calls f ++ [c] in
  match fault (f_path f) calls with
  | Some e => Err e
  | None => Ok (mkOpenFile calls (f_path f) (f_key_min f) (f_key_max f) (f_current_key f) (f_rows f)
                  (f_stats f) (f_keys f) (f_packing_key f) (f_dedicated f))
  end.

Definition write_slice (f : OpenFile) (key : Z) (slice : RecordBatch) : result OpenFile CompactorError :=
  let? f := writer_call f (CWrite slice) in
  Ok (mkOpenFile (f_calls f) (f_path f) (f_key_min f) (Z.max (f_key_max f) key) key
        (f_rows f + Z.of_nat (num_rows slice)) (Stats.sa_update (f_stats f) slice)
        (Stats.kb_update (f_keys f) slice (f_packing_key f)) (f_packing_key f) (f_dedicated f)).

Definition close (f : OpenFile) : result (ChunkOutput * list WriterCall) CompactorError :=
  let? flushed :=
    (if negb (f_key_min f =? f_key_max f) then
       let? f := writer_call f CFlush in
       Ok (f, Stats.kb_finish tm_serialize b64_encode (f_keys f),
           Stats.key_row_groups (flushed_row_groups props (f_calls f)) (f_packing_key f))
     else Ok (f, None, None)) in
  let f := flushed.1.1 in
  let? closed := writer_call f CClose in
  let? size_bytes := head_size (f_path f) (f_calls closed) in
  Ok (mkOutput (f_path f) (f_key_min f) (f_key_max f) (f_rows f) size_bytes
        (Stats.with_key_index (Stats.sa_finish (f_stats f)) flushed.1.2 flushed.2), f_calls closed).

(** A step of the writer: what it concludes, and the state it leaves. *)
Definition Wr A : Type := ChunkWriter -> result A CompactorError * ChunkWriter.
Definition w_bind {A B} (m : Wr A) (k : A -> Wr B) : Wr B := fun w =>
  let '(r, w') := m w in match r with Ok a => k a w' | Err e => (Err e, w') end.
Definition w_ret {A} (a : A) : Wr A := fun w => (Ok a, w).

Definition open_file (key : Z) (dedicated : bool) : Wr unit := fun w =>
  let path := next_path (length (opened w)) in
  match on_open path with
  | Some e => (Err e, mkChunkWriter (last_closed_key w) (opened w ++ [path]) (objects w) (open w) (outputs w))
  | None =>
      let w := mkChunkWriter (last_closed_key w) (opened w ++ [path]) (objects w) (open w) (outputs w) in
      match fault path [] with
      | Some e => (Err e, w)
      | None =>
          (Ok tt, mkChunkWriter (last_closed_key w) (opened w) (objects w)
                    (Some (mkOpenFile [] path key key key 0 Stats.sa_default Stats.kb_default
                             packing_key dedicated)) (outputs w))
      end
  end.

(** [last_closed_key = Some(f.current_key); outputs.push(f.close()?)]. *)
Definition close_open (remember : bool) : Wr unit := fun w =>
  match open w with
  | None => (Ok tt, w)
  | Some f =>
      let last := if remember then Some (f_current_key f) else last_closed_key w in
      match close f with
      | Err e => (Err e, mkChunkWriter last (opened w) (objects w) None (outputs w))
      | Ok (o, calls) =>
          (Ok tt, mkChunkWriter last (opened w) (objects w ++ [(f_path f, calls)]) None (outputs w ++ [o]))
      end
  end.

Definition as_usize (n : Z) : Z := n mod 2 ^ 64.

Definition cut_before (f : OpenFile) (k : Z) : bool :=
  match placement with
  | Packed => false
  | Separated => negb (f_current_key f =? k)
  | SizeTargeted n =>
      negb (f_current_key f =? k) && ((as_usize n <=? encoded_size f) || f_dedicated f)
  end.

Definition cut_after (f : OpenFile) : bool :=
  match placement with
  | SizeTargeted n => as_usize n <=? encoded_size f
  | _ => false
  end.

(** Flushes before an overflowing run, then writes the slice. *)
Definition put_slice (f : OpenFile) (k : Z) (slice : RecordBatch) (left cap : Z)
  : result OpenFile CompactorError :=
  let? f := (if (0 <? in_progress_rows props (f_calls f))
                && (cap <? in_progress_rows props (f_calls f) + left)
             then writer_call f CFlush else Ok f) in
  write_slice f k slice.

(** Opens a file when none is open: dedicated, when it continues the key of the
    last one closed. *)
Definition ensure_open (k : Z) : Wr unit := fun w =>
  match open w with
  | None => open_file k (bool_decide (last_closed_key w = Some k)) w
  | Some _ => (Ok tt, w)
  end.

(** Writes the next slice of a run into the open file, and cuts it when full. *)
Definition write_one (k : Z) (slice : RecordBatch) (left cap : Z) : Wr unit := fun w =>
  match open w with
  | None => (Ok tt, w)   (* [open.as_mut().unwrap()]: just opened *)
  | Some f =>
      match put_slice f k slice left cap with
      | Err e => (Err e, w)
      | Ok f =>
          let w := mkChunkWriter (last_closed_key w) (opened w) (objects w) (Some f) (outputs w) in
          if cut_after f then close_open true w else (Ok tt, w)
      end
  end.

(** The [while start < run_rows] loop: each round takes at least one row, so as
    many rounds as rows are enough ([write_run_inv]). *)
Fixpoint write_run (fuel : nat) (k : Z) (run : RecordBatch) (start : nat) : Wr unit :=
  let run_rows := num_rows run in
  let cap := Z.max (Schema.max_row_group_rows opts) 1 in
  match fuel with
  | O => w_ret tt
  | S fuel =>
      if (run_rows <=? start)%nat then w_ret tt
      else
        let left := Z.of_nat (run_rows - start) in
        let take := Z.to_nat (Z.min left cap) in
        w_bind (ensure_open k) (fun _ =>
        w_bind (write_one k (batch_slice start take run) left cap) (fun _ =>
        write_run fuel k run (start + take)))
  end.

(** Cuts before a new key when placement demands it. *)
Definition cut_if_due (k : Z) : Wr unit := fun w =>
  match open w with
  | Some f => if cut_before f k then close_open true w else (Ok tt, w)
  | None => (Ok tt, w)
  end.

Definition consume_key_run (k : Z) (run : RecordBatch) : Wr unit :=
  w_bind (cut_if_due k) (fun _ => write_run (num_rows run) k run 0).

Fixpoint consume_runs (runs : list (Z * RecordBatch)) : Wr unit :=
  match runs with
  | [] => w_ret tt
  | (k, run) :: rest => w_bind (consume_key_run k run) (fun _ => consume_runs rest)
  end.

Fixpoint consume_stream (stream : list (result RecordBatch CompactorError)) : Wr unit :=
  match stream with
  | [] => w_ret tt
  | Err e :: _ => fun w => (Err e, w)
  | Ok batch :: rest =>
      match split_by_key under_null batch packing_key with
      | Err e => fun w => (Err e, w)
      | Ok runs => w_bind (consume_runs runs) (fun _ => consume_stream rest)
      end
  end.

Definition write (stream : list (result RecordBatch CompactorError))
  : result (list ChunkOutput) CompactorError * ChunkWriter :=
  let '(r, w) := w_bind (consume_stream stream) (fun _ => close_open false) new_writer in
  match r with
  | Ok _ => (Ok (outputs w), w)
  | Err e => (Err e, w)
  end.

End streaming.
End parquet.

End Rewrite.
