(* ===== verification/RewriteSpec.v ===== *)
(** * What the rewrite engine promises

    Key runs cut a batch into its rows; the streaming writer conserves rows, in
    order, whatever the placement; each output's metadata is that of its file;
    and the files' key ranges only meet where one key was split. *)

From S2P Require Import Prelude Bytes Json Types Arrow Schema Stats Batches Merge Rewrite.
Import Batches Merge Rewrite.

Module RewriteSpec.

Lemma int64_column_values b nm vs : int64_column b nm = Ok vs <-> column_values b nm = Some vs.
Proof.
  unfold int64_column, column_values. destruct (index_of (rb_schema b) nm) as [i|]; simpl; [|done].
  destruct (rb_columns b !! i) as [a|]; simpl; [|done]. destruct (as_int64 a); simpl; naive_solver.
Qed.

Lemma value_some u ks i k : ks !! i = Some k -> value u (Some <$> ks) i = k.
Proof. unfold value. rewrite list_lookup_fmap. by intros ->. Qed.

Section spec.
Context (s : ArrowSchema) (pk : string).

(** ** Key runs *)

(** A non-empty batch of rows of one key. *)
Definition key_run (kr : Z * RecordBatch) : Prop :=
  exists m, (0 < m)%nat /\ batch_ok s m kr.2 /\ column_values kr.2 pk = Some (replicate m (Some kr.1)).

Definition differ (a b : Z * RecordBatch) : Prop := a.1 <> b.1.

Lemma slice_run u n b ks o m :
  batch_ok s n b -> column_values b pk = Some (Some <$> ks) -> (0 < m)%nat -> (o + m <= n)%nat ->
  (forall j, (o <= j < o + m)%nat -> value u (Some <$> ks) j = value u (Some <$> ks) o) ->
  key_run (value u (Some <$> ks) o, batch_slice o m b).
Proof.
  intros B V Hm L E. exists m. split; [done|]. split; [by eapply slice_ok|].
  simpl. rewrite (column_values_slice _ _ _ _ _ V). f_equal.
  pose proof (column_values_length _ _ _ _ _ B V) as Ln. rewrite length_fmap in Ln.
  apply list_eq. intros j. destruct (decide (j < m)%nat) as [Hj|Hj].
  - rewrite lookup_replicate_2 by done. rewrite lookup_take_lt by done. rewrite lookup_drop, list_lookup_fmap.
    destruct (ks !! (o + j)%nat) as [k|] eqn:K; [|apply lookup_ge_None_1 in K; lia].
    simpl. rewrite <- (E (o + j)%nat) by lia. by rewrite (value_some u _ _ _ K).
  - rewrite lookup_take_ge by lia.
    symmetry. apply lookup_replicate_None. lia.
Qed.

Lemma split_loop_spec u n b ks : batch_ok s n b -> column_values b pk = Some (Some <$> ks) ->
  forall k start i, (start < i)%nat -> (i + k = S n)%nat -> (i <= n)%nat ->
  (forall j, (start <= j < i)%nat -> value u (Some <$> ks) j = value u (Some <$> ks) start) ->
  let runs := split_loop u (Some <$> ks) b start (seq i k) in
  Forall key_run runs /\ cat s runs.*2 = batch_slice start (n - start) b /\
  Sorted differ runs /\ (exists r rest, runs = (value u (Some <$> ks) start, r) :: rest).
Proof.
  intros B V. pose proof (column_values_length _ _ _ _ _ B V) as Ln. rewrite length_fmap in Ln.
  induction k as [|k IH]; intros start i Hs Hi Hn E; [lia|]. simpl. rewrite length_fmap, Ln.
  assert (R : key_run (value u (Some <$> ks) start, batch_slice start (i - start) b)).
  { apply (slice_run u n); try done; [lia..|]. intros j Hj. apply E. lia. }
  destruct (Nat.eqb_spec i n) as [->|Ni]; simpl.
  - replace k with 0%nat by lia. simpl. split_and!.
    + constructor; [done|constructor].
    + eapply append_empty, slice_ok; [done|lia].
    + repeat constructor.
    + eauto.
  - destruct (Z.eqb_spec (value u (Some <$> ks) i) (value u (Some <$> ks) start)) as [Ek|Ek]; simpl.
    + apply (IH start (S i)); [lia..|]. intros j Hj. destruct (decide (j = i)) as [->|]; [done|apply E; lia].
    + destruct (IH i (S i)) as (F & C & D & r & rest & Er); [lia..| |].
      { intros j Hj. by replace j with i by lia. }
      split_and!.
      * by constructor.
      * change (batch_append (batch_slice start (i - start) b)
                  (cat s (split_loop u (Some <$> ks) b i (seq (S i) k)).*2) = batch_slice start (n - start) b).
        rewrite C. replace i with (start + (i - start))%nat at 2 by lia.
        rewrite (slice_append s n) by (done || lia). f_equal. lia.
      * constructor; [done|]. rewrite Er. by constructor.
      * eauto.
Qed.

(** The runs of a batch: its rows in order, one key each, neighbours' keys
    different; ascending when the keys are. *)
Lemma split_by_key_spec u n b ks runs :
  batch_ok s n b -> column_values b pk = Some (Some <$> ks) -> split_by_key u b pk = Ok runs ->
  Forall key_run runs /\ cat s runs.*2 = b /\ Sorted differ runs.
Proof.
  intros B V R. unfold split_by_key in R. apply int64_column_values in V as C. rewrite C in R. simpl in R.
  pose proof (column_values_length _ _ _ _ _ B V) as Ln. injection R as <-. rewrite Ln.
  destruct n as [|n].
  - simpl. split_and!; [constructor| |constructor]. symmetry. by apply ok_zero.
  - destruct (split_loop_spec u (S n) b ks B V (S n) 0 1) as (F & Ec & D & _); [lia..| |].
    { intros j Hj. by replace j with 0%nat by lia. }
    split_and!; [done| |done]. rewrite Ec, Nat.sub_0_r. by eapply slice_all.
Qed.

End spec.

Lemma Sorted_snoc {A} (R : A -> A -> Prop) l x :
  Sorted R l -> (forall y, last l = Some y -> R y x) -> Sorted R (l ++ [x]).
Proof.
  induction 1 as [|y l S IH H]; intros L; simpl; [repeat constructor|].
  constructor.
  - apply IH. intros z Hz. apply L. rewrite last_cons, Hz. done.
  - destruct l as [|z l]; simpl; [constructor; by apply L|]. inversion H; subst. by constructor.
Qed.

(** ** The streaming writer *)

Section writer.
Context (in_progress_rows : Schema.WriterProperties -> list WriterCall -> Z).
Context (encoded_size_of : Schema.WriterProperties -> list WriterCall -> Z).
Context (flushed_row_groups : Schema.WriterProperties -> list WriterCall -> list Stats.RowGroupMetaData).
Context (fault : string -> list WriterCall -> option CompactorError).
Context (head_size : string -> list WriterCall -> result Z CompactorError).
Context (ser : gset Z -> option (list Z)) (enc : list Z -> string) (under_null : nat -> Z).
Context (next_path : nat -> string) (on_open : string -> option CompactorError).
Context (s : ArrowSchema) (opts : Schema.WriteOpts) (placement : Placement).
Context (pk : string) (sort_key : list string).

(** The rows of a file, in one batch. *)
Definition file_batch (calls : list WriterCall) : RecordBatch := cat s (written calls).

Lemma written_app c d : written (c ++ d) = written c ++ written d.
Proof. apply omap_app. Qed.

(** An open file whose rows' keys are [ks]. *)
Record file_ok (f : OpenFile) (ks : list Z) : Prop := {
  fo_slices : all_ok s (written (f_calls f));
  fo_rows : batch_ok s (length ks) (file_batch (f_calls f));
  fo_keys : ks <> [] -> column_values (file_batch (f_calls f)) pk = Some (Some <$> ks);
  fo_count : f_rows f = len ks;
  fo_pk : f_packing_key f = pk;
  fo_range : Forall (fun k => f_key_min f <= k <= f_key_max f) ks;
  fo_ends : ks <> [] -> f_key_min f ∈ ks /\ f_key_max f ∈ ks;
  fo_current : f_current_key f = f_key_max f;
  fo_le : f_key_min f <= f_key_max f;
  fo_stats : f_stats f = List.fold_left Stats.sa_update (written (f_calls f)) Stats.sa_default;
  fo_bitmap : f_keys f = List.fold_left (fun a b => Stats.kb_update a b pk) (written (f_calls f)) Stats.kb_default;
}.

Definition same_file (f f' : OpenFile) : Prop :=
  f_path f' = f_path f /\ f_key_min f' = f_key_min f /\ f_dedicated f' = f_dedicated f.

Lemma flush_ok f f' c ks :
  (c = CFlush \/ c = CClose) -> file_ok f ks -> writer_call fault f c = Ok f' ->
  file_ok f' ks /\ same_file f f' /\ f_key_max f' = f_key_max f /\ written (f_calls f') = written (f_calls f) /\
  f_stats f' = f_stats f /\ f_keys f' = f_keys f /\ f_rows f' = f_rows f.
Proof.
  intros C [A1 A2 A3 A4 A5 A6 A7 A8 A9 A10 A11]. unfold writer_call. destruct (fault _ _); [done|]. intros [= <-].
  assert (W : written (f_calls f ++ [c]) = written (f_calls f)).
  { rewrite written_app. destruct C as [->| ->]; simpl; by rewrite app_nil_r. }
  unfold file_batch in *. split_and!; try done. split; simpl; unfold file_batch; rewrite ?W; try done.
Qed.

Lemma write_slice_ok f f' ks k slice :
  s <> [] -> file_ok f ks -> key_run s pk (k, slice) -> f_key_max f <= k -> (ks = [] -> f_key_min f = k) ->
  write_slice fault f k slice = Ok f' ->
  exists ks', file_ok f' ks' /\ ks' <> [] /\ same_file f f' /\ f_key_max f' = k /\
    written (f_calls f') = written (f_calls f) ++ [slice].
Proof.
  intros Ns [A1 A2 A3 A4 A5 A6 A7 A8 A9 A10 A11] (m & Hm & B & V) Hk He.
  unfold write_slice, writer_call. destruct (fault _ _); [done|]. intros [= <-]. simpl in *.
  assert (W : written (f_calls f ++ [CWrite slice]) = written (f_calls f) ++ [slice]) by apply written_app.
  assert (C : file_batch (f_calls f ++ [CWrite slice]) = batch_append (file_batch (f_calls f)) slice).
  { unfold file_batch. rewrite W, cat_app; [|done|by repeat constructor; exists m]. f_equal. by eapply cat_one. }
  assert (Ne : ks ++ replicate m k <> []) by (destruct ks, m; simpl; done || lia).
  exists (ks ++ replicate m k). split_and!; try done; simpl; [|lia].
  split; simpl; rewrite ?W, ?C; try done.
  - apply Forall_app. split; [done|]. by repeat constructor; exists m.
  - rewrite length_app, length_replicate. by apply append_ok.
  - intros _. destruct ks as [|k0 ks].
    + simpl. assert (E0 : file_batch (f_calls f) = empty_batch s).
      { by apply ok_zero. }
      rewrite E0, (empty_append _ _ _ B), V. by rewrite fmap_replicate.
    + destruct (column_values_append s _ _ _ _ pk _ A2 B (A3 ltac:(done))) as (ws & Hw & ->).
      rewrite V in Hw. injection Hw as <-. by rewrite fmap_app, fmap_replicate.
  - rewrite A4, (ok_num_rows s m) by done. rewrite len_app. unfold len. rewrite length_replicate. done.
  - apply Forall_app. split; [eapply Forall_impl; [exact A6|]; simpl; lia|].
    apply Forall_replicate. destruct ks; [rewrite He by done; lia|lia].
  - intros _. rewrite Z.max_r by lia. rewrite !elem_of_app. destruct m as [|m]; [lia|]. simpl. split; [|right; left].
    destruct ks as [|k0 ks]; [right; rewrite He by done; left|left; by apply A7].
  - lia.
  - lia.
  - rewrite List.fold_left_app. simpl. by rewrite A10.
  - rewrite List.fold_left_app. simpl. by rewrite A5, A11.
Qed.

(** What an output says of the object under its path. *)
Definition describes_file (o : ChunkOutput) (obj : string * list WriterCall) : Prop :=
  co_path o = obj.1 /\ all_ok s (written obj.2) /\
  exists ks, ks <> [] /\ batch_ok s (length ks) (file_batch obj.2) /\
    column_values (file_batch obj.2) pk = Some (Some <$> ks) /\
    co_row_count o = len ks /\
    Forall (fun k => co_key_min o <= k <= co_key_max o) ks /\ co_key_min o ∈ ks /\ co_key_max o ∈ ks /\
    (distinct_names s -> exists bitmap spans,
       co_column_stats o = Stats.with_key_index (Stats.int64_column_stats (file_batch obj.2)) bitmap spans /\
       (bitmap = None \/ bitmap = Stats.key_bitmap ser enc (file_batch obj.2) pk)).

Lemma stats_of_file f ks : file_ok f ks -> ks <> [] ->
  (distinct_names s -> Stats.sa_finish (f_stats f) = Stats.int64_column_stats (file_batch (f_calls f))) /\
  Stats.kb_finish ser enc (f_keys f) = Stats.key_bitmap ser enc (file_batch (f_calls f)) pk.
Proof.
  intros [A1 A2 A3 A4 A5 A6 A7 A8 A9 A10 A11] Ne. unfold file_batch in *.
  destruct (written (f_calls f)) as [|b bs] eqn:W.
  { exfalso. pose proof (ok_rows _ _ _ (empty_ok s)) as E. specialize (A3 Ne). simpl in A2, A3.
    pose proof (column_values_length _ _ _ _ _ (empty_ok s) A3) as L. rewrite length_fmap in L.
    by destruct ks. }
  rewrite A10, A11, (cat_fold_left _ _ _ A1). apply Forall_cons in A1 as [(n & [Wf Es _]) F].
  assert (F' : List.Forall (fun b' => batch_wf b' /\ rb_schema b' = rb_schema b) bs).
  { eapply Forall_impl; [exact F|]. intros b' (m & [Wf' Es' _]). split; [done|congruence]. }
  split; [intros D; apply Stats.sa_fold_finish; [by rewrite Es|done|done]|by apply Stats.kb_fold_finish].
Qed.

Notation close_file := (close flushed_row_groups fault head_size ser enc s opts sort_key).

Lemma close_ok f ks o calls :
  file_ok f ks -> ks <> [] -> close_file f = Ok (o, calls) ->
  describes_file o (f_path f, calls) /\ written calls = written (f_calls f) /\
  co_key_min o = f_key_min f /\ co_key_max o = f_key_max f.
Proof.
  intros H Ne. unfold close.
  set (st := if negb (f_key_min f =? f_key_max f) then _ else _).
  assert (S : forall x, st = Ok x -> exists f', x.1.1 = f' /\ file_ok f' ks /\ same_file f f' /\
    f_key_max f' = f_key_max f /\ written (f_calls f') = written (f_calls f) /\
    (x.1.2 = None \/ x.1.2 = Stats.key_bitmap ser enc (file_batch (f_calls f)) pk) /\ f_stats f' = f_stats f /\
    f_rows f' = f_rows f).
  { intros x. unfold st. destruct (negb _).
    - destruct (writer_call fault f CFlush) as [f'|e] eqn:E; [|done]. simpl. intros [= <-].
      destruct (flush_ok f f' CFlush ks ltac:(by left) H E) as (O & Sm & M & Wr & Ss & Kk & Rr).
      exists f'. split_and!; try done. right. rewrite Kk. by apply (stats_of_file f ks).
    - intros [= <-]. exists f. split_and!; try done. by left. }
  destruct st as [x|e]; [|done]. destruct (S x eq_refl) as (f' & E1 & O & (Sp & Sm & _) & M & Wr & Bm & Ss & Rr).
  simpl. rewrite E1. destruct (writer_call fault f' CClose) as [f2|e] eqn:C; [|done]. simpl.
  destruct (flush_ok f' f2 CClose ks ltac:(by right) O C) as (O2 & _ & _ & Wr2 & _).
  destruct (head_size _ _) as [size|e]; [|done]. simpl. intros [= <- <-]. simpl.
  assert (W : written (f_calls f2) = written (f_calls f)) by congruence.
  split_and!; [|done|done|done]. unfold describes_file. simpl. unfold file_batch. rewrite W.
  destruct H as [A1 A2 A3 A4 A5 A6 A7 A8 A9 A10 A11] eqn:Hf. unfold file_batch in *.
  split_and!; [done|done|]. exists ks. rewrite Sm, M. split_and!; try done.
  - by apply A3.
  - congruence.
  - by apply A7.
  - by apply A7.
  - intros D. exists x.1.2, x.2. split; [|done]. rewrite Ss. f_equal. by apply (stats_of_file f ks).
Qed.

(** ** The invariant of the writer *)

Definition open_slices w : list RecordBatch := match open w with Some f => written (f_calls f) | None => [] end.
Definition contents w : list RecordBatch := concat ((fun obj => written obj.2) <$> objects w) ++ open_slices w.
Definition open_path w : list string := match open w with Some f => [f_path f] | None => [] end.

(** Only a size target splits one key over several files. *)
Definition may_split : Prop := exists n, placement = SizeTargeted n.

Definition ranges_meet (a b : Z * Z) : Prop :=
  a.2 < b.1 \/ (a.2 = b.1 /\ b.1 = b.2 /\ may_split).

Definition out_range (o : ChunkOutput) : Z * Z := (co_key_min o, co_key_max o).

Record winv w (total : RecordBatch) (k : Z) : Prop := {
  i_slices : all_ok s (contents w);
  i_total : cat s (contents w) = total;
  i_outs : Forall2 describes_file (outputs w) (objects w);
  i_last : last_closed_key w = co_key_max <$> last (outputs w);
  i_chain : Sorted ranges_meet (out_range <$> outputs w);
  i_bound : Forall (fun o => co_key_max o <= k) (outputs w);
  i_paths : opened w = (objects w).*1 ++ open_path w;
  i_open : forall f, open w = Some f ->
    (exists ks, ks <> [] /\ file_ok f ks) /\ f_key_max f <= k /\
    f_dedicated f = bool_decide (last_closed_key w = Some (f_key_min f)) /\
    (f_dedicated f = true -> f_key_min f = f_key_max f) /\
    (forall o, last (outputs w) = Some o -> ranges_meet (out_range o) (f_key_min f, f_key_max f));
  i_place : match placement with
            | Packed => outputs w = []
            | Separated => Forall (fun o => co_key_min o = co_key_max o) (outputs w) /\
                           forall f, open w = Some f -> f_key_min f = f_key_max f
            | SizeTargeted _ => True
            end;
}.

Notation close_open' := (close_open flushed_row_groups fault head_size ser enc s opts sort_key).
Notation cut_if_due' := (cut_if_due encoded_size_of flushed_row_groups fault head_size ser enc s opts placement sort_key).
Notation ensure_open' := (ensure_open fault next_path on_open pk).
Notation write_one' :=
  (write_one in_progress_rows encoded_size_of flushed_row_groups fault head_size ser enc s opts placement sort_key).
Notation write_run' :=
  (write_run in_progress_rows encoded_size_of flushed_row_groups fault head_size ser enc next_path on_open
     s opts placement pk sort_key).
Notation consume_key_run' :=
  (consume_key_run in_progress_rows encoded_size_of flushed_row_groups fault head_size ser enc next_path on_open
     s opts placement pk sort_key).
Notation consume_runs' :=
  (consume_runs in_progress_rows encoded_size_of flushed_row_groups fault head_size ser enc next_path on_open
     s opts placement pk sort_key).
Notation consume_stream' :=
  (consume_stream in_progress_rows encoded_size_of flushed_row_groups fault head_size ser enc under_null next_path
     on_open s opts placement pk sort_key).

Lemma winv_le w total k k' : winv w total k -> k <= k' -> winv w total k'.
Proof.
  intros [B1 B2 B3 B4 B5 B6 B7 B8 B9] L. split; try done.
  - eapply Forall_impl; [exact B6|]. simpl. lia.
  - intros f Hf. destruct (B8 f Hf) as (? & ? & ?). split_and!; try done; try lia; naive_solver.
Qed.

Lemma w_bind_Ok {A B} (m : Wr A) (c : A -> Wr B) w b w' :
  w_bind m c w = (Ok b, w') -> exists a w1, m w = (Ok a, w1) /\ c a w1 = (Ok b, w').
Proof. unfold w_bind. destruct (m w) as [[a|e] w1]; [eauto|done]. Qed.

(** Closing a file, which a packed table never does before the end. *)
Lemma close_open_inv remember w w' total k f :
  winv w total k -> open w = Some f -> (placement = Packed -> remember = false) ->
  close_open' remember w = (Ok tt, w') ->
  open w' = None /\ contents w' = contents w /\
  (exists o, outputs w' = outputs w ++ [o] /\ co_key_min o = f_key_min f /\ co_key_max o = f_key_max f) /\
  Forall2 describes_file (outputs w') (objects w') /\ Sorted ranges_meet (out_range <$> outputs w') /\
  opened w' = (objects w').*1 /\
  (remember = true -> winv w' total k /\ last_closed_key w' = Some (f_key_max f)).
Proof.
  intros [B1 B2 B3 B4 B5 B6 B7 B8 B9] O Hp. unfold close_open. rewrite O.
  destruct (B8 f O) as ((ks & Ne & Fk) & Hk & Hd & Hd' & Hl).
  destruct (close_file f) as [[o calls]|e] eqn:C; [|done]. intros [= <-].
  destruct (close_ok f ks o calls Fk Ne C) as (D & W & Mn & Mx).
  unfold contents, open_slices, open_path in *. rewrite O in *. simpl in *.
  assert (Ct : concat ((fun obj => written obj.2) <$> objects w ++ [(f_path f, calls)]) ++ []
               = concat ((fun obj => written obj.2) <$> objects w) ++ written (f_calls f)).
  { rewrite fmap_app, concat_app. simpl. by rewrite !app_nil_r, W. }
  assert (F2 : Forall2 describes_file (outputs w ++ [o]) (objects w ++ [(f_path f, calls)])).
  { apply Forall2_app; [done|]. constructor; [done|constructor]. }
  assert (Ch : Sorted ranges_meet (out_range <$> outputs w ++ [o])).
  { rewrite fmap_app. apply Sorted_snoc; [done|]. intros y Hy. rewrite fmap_last in Hy.
    destruct (last (outputs w)) as [o'|]; [|done]. injection Hy as <-. unfold out_range. rewrite Mn, Mx. by apply Hl. }
  assert (Pa : opened w = (objects w ++ [(f_path f, calls)]).*1) by (by rewrite fmap_app).
  split_and!; try done.
  - by exists o.
  - intros ->. split; [|simpl; by rewrite (fo_current _ _ Fk)]. split; simpl; unfold contents, open_slices, open_path; simpl; try done.
    + by rewrite Ct.
    + by rewrite Ct.
    + rewrite last_snoc. simpl. by rewrite Mx, (fo_current _ _ Fk).
    + apply Forall_app. split; [done|]. constructor; [by rewrite Mx|constructor].
    + by rewrite app_nil_r.
    + destruct placement; [by specialize (Hp eq_refl)| |done]. destruct B9 as [P1 P2]. split; [|done].
      apply Forall_app. split; [done|]. constructor; [rewrite Mn, Mx; by apply P2|constructor].
Qed.

(** ** One slice of a key run *)

(** A file is open for key [k], or may be opened for it. *)
Definition can_take w (k : Z) : Prop :=
  match open w with
  | Some f => (f_dedicated f = true \/ placement = Separated) -> f_key_max f = k
  | None => last_closed_key w = Some k -> may_split
  end.

Record ready w (k : Z) (f : OpenFile) (ks : list Z) : Prop := {
  r_open : open w = Some f;
  r_file : file_ok f ks;
  r_le : f_key_max f <= k;
  r_first : ks = [] -> f_key_min f = k;
  r_ded : f_dedicated f = bool_decide (last_closed_key w = Some (f_key_min f));
  r_ded' : f_dedicated f = true -> f_key_min f = k;
  r_link : forall o, last (outputs w) = Some o -> ranges_meet (out_range o) (f_key_min f, k);
  r_sep : placement = Separated -> f_key_min f = k;
  r_paths : opened w = (objects w).*1 ++ [f_path f];
}.

Lemma new_file_ok path k ded :
  file_ok (mkOpenFile [] path k k k 0 Stats.sa_default Stats.kb_default pk ded) [].
Proof. split; simpl; try done; try lia; [by apply Forall_nil|apply empty_ok]. Qed.

Lemma ensure_open_ready w w' total k :
  winv w total k -> can_take w k -> ensure_open' k w = (Ok tt, w') ->
  exists f ks, ready w' k f ks /\ contents w' = contents w /\ objects w' = objects w /\
    outputs w' = outputs w /\ last_closed_key w' = last_closed_key w.
Proof.
  intros I C. unfold ensure_open, can_take in *. destruct I as [B1 B2 B3 B4 B5 B6 B7 B8 B9].
  destruct (open w) as [f|] eqn:O.
  - intros [= <-]. destruct (B8 f eq_refl) as ((ks & Ne & Fk) & Hk & Hd & Hd' & Hl).
    exists f, ks. split; [|done]. split; try done.
    + intros D. rewrite Hd' by done. by apply C; left.
    + intros o Ho. destruct (Hl o Ho) as [L|(E1 & E2 & E3)]; [by left|]. right. simpl in *.
      split_and!; try done. rewrite E2. apply C. left. rewrite Hd. apply bool_decide_eq_true. rewrite B4, Ho. simpl.
      by f_equal.
    + intros ->. destruct B9 as [_ P]. rewrite (P f eq_refl). apply C. by right.
    + rewrite B7. unfold open_path. by rewrite O.
  - unfold open_file. destruct (on_open _); [done|]. simpl. destruct (fault _ []); [done|]. intros [= <-].
    unfold contents, open_slices, open_path in *. rewrite O in *. rewrite app_nil_r in B7.
    eexists _, []. split; [|simpl; rewrite ?app_nil_r; done].
    split; simpl; try done.
    + apply new_file_ok.
    + intros o Ho. assert (co_key_max o <= k) by (by apply (Forall_forall _ _) with (x := o) in B6; [|apply last_Some_elem_of]).
      destruct (decide (co_key_max o = k)) as [E|]; [|left; simpl; lia]. right. simpl. split_and!; try done.
      apply C. rewrite B4, Ho. simpl. by f_equal.
    + by rewrite B7.
Qed.

(** What the caller has yet to see: a file left open only ends with [k]. *)
Lemma write_one_inv w0 w w' total k f ks slice left cap :
  s <> [] -> winv w0 total k -> ready w k f ks -> contents w = contents w0 -> objects w = objects w0 ->
  outputs w = outputs w0 -> last_closed_key w = last_closed_key w0 ->
  key_run s pk (k, slice) -> write_one' k slice left cap w = (Ok tt, w') ->
  winv w' (batch_append total slice) k /\ can_take w' k /\ (open w' = None -> may_split).
Proof.
  intros Ns I [O Fk Le Fi De De' Li Se Pa] Ec Eo Eu El R. pose proof R as (m & Hm & Bk & _).
  destruct I as [B1 B2 B3 B4 B5 B6 B7 B8 B9].
  unfold write_one. rewrite O. unfold put_slice.
  set (fl := if (0 <? in_progress_rows _ _) && _ then _ else _).
  assert (Hf : forall f1, fl = Ok f1 -> file_ok f1 ks /\ same_file f f1 /\ f_key_max f1 = f_key_max f /\
                                         written (f_calls f1) = written (f_calls f)).
  { intros f1. unfold fl. destruct (_ && _); [|intros [= <-]; done]. intros E.
    destruct (flush_ok f f1 CFlush ks ltac:(by left) Fk E) as (? & ? & ? & ? & _). done. }
  destruct fl as [f1|e]; [|done]. destruct (Hf f1 eq_refl) as (Fk1 & (Sp & Sm & Sd) & Mx & Wr). simpl.
  destruct (write_slice fault f1 k slice) as [f2|e] eqn:W; [|done].
  destruct (write_slice_ok f1 f2 ks k slice Ns Fk1 R) as (ks2 & Fk2 & Ne2 & (Sp2 & Sm2 & Sd2) & Mx2 & Wr2);
    [lia|by rewrite Sm|done|].
  set (w1 := mkChunkWriter (last_closed_key w) (opened w) (objects w) (Some f2) (outputs w)).
  assert (Cn : contents w1 = contents w ++ [slice]).
  { unfold contents, open_slices, w1. simpl. rewrite O, Wr2, Wr. by rewrite app_assoc. }
  assert (Sl : all_ok s [slice]) by (by repeat constructor; exists m).
  assert (I1 : winv w1 (batch_append total slice) k).
  { split; rewrite ?Cn, ?Ec; simpl.
    - by apply Forall_app.
    - rewrite cat_app, B2 by done. f_equal. by eapply cat_one.
    - by rewrite Eu, Eo.
    - by rewrite El, Eu.
    - by rewrite Eu.
    - by rewrite Eu.
    - rewrite Pa. unfold open_path. simpl. by rewrite Sp2, Sp.
    - intros f' [= <-]. rewrite Sm2, Sm, Mx2, Sd2, Sd. split_and!; try done; by exists ks2.
    - destruct placement; [by rewrite Eu| |done]. destruct B9 as [P1 P2]. split; [by rewrite Eu|].
      intros f' [= <-]. rewrite Sm2, Sm, Mx2. by apply Se. }
  destruct (cut_after _ _ _ _ _ _) eqn:Cu.
  - assert (Sp' : may_split).
    { unfold cut_after in Cu. destruct placement as [| |n] eqn:Pl; [done|done|]. by exists n. }
    intros E. destruct (close_open_inv true w1 w' _ k f2 I1 eq_refl) as (On & _ & _ & _ & _ & _ & Fin); [|done|].
    { destruct Sp' as [n ->]. done. }
    destruct (Fin eq_refl) as [I2 _]. split_and!; try done. unfold can_take. by rewrite On.
  - intros [= <-]. split_and!; try done. unfold can_take. simpl. intros _. by rewrite Mx2.
Qed.

Lemma slice_key_run k run m o n :
  batch_ok s m run -> column_values run pk = Some (replicate m (Some k)) -> (0 < n)%nat -> (o + n <= m)%nat ->
  key_run s pk (k, batch_slice o n run).
Proof.
  intros B V Hn L. exists n. split; [done|]. split; [by eapply slice_ok|]. simpl.
  rewrite (column_values_slice _ _ _ _ _ V). f_equal. rewrite drop_replicate, take_replicate. f_equal. lia.
Qed.

Lemma write_run_inv k run m : s <> [] -> batch_ok s m run -> column_values run pk = Some (replicate m (Some k)) ->
  forall fuel start w w' total, (start <= m)%nat -> (m - start <= fuel)%nat ->
  winv w total k -> can_take w k -> write_run' fuel k run start w = (Ok tt, w') ->
  winv w' (batch_append total (batch_slice start (m - start) run)) k /\
  ((start < m)%nat -> open w' = None -> may_split).
Proof.
  intros Ns B V. assert (N : num_rows run = m) by (by eapply ok_num_rows).
  induction fuel as [|fuel IH]; intros start w w' total Hs Hf I C; cbn [write_run]; rewrite ?N.
  - intros [= <-]. replace start with m by lia. rewrite Nat.sub_diag. split; [|lia].
    destruct (cat_ok s (contents w) (i_slices _ _ _ I)) as [n Hn]. rewrite (i_total _ _ _ I) in Hn.
    rewrite (ok_zero s (batch_slice m 0 run)), (append_empty _ _ _ Hn); [done|]. eapply slice_ok; [done|lia].
  - destruct (Nat.leb_spec m start) as [L|L].
    + intros [= <-]. replace start with m by lia. rewrite Nat.sub_diag. split; [|lia].
      destruct (cat_ok s (contents w) (i_slices _ _ _ I)) as [n Hn]. rewrite (i_total _ _ _ I) in Hn.
      rewrite (ok_zero s (batch_slice m 0 run)), (append_empty _ _ _ Hn); [done|]. eapply slice_ok; [done|lia].
    + set (take := Z.to_nat _). assert (Ht : (0 < take <= m - start)%nat) by (unfold take; lia).
      intros ([] & w1 & E1 & E)%w_bind_Ok. apply w_bind_Ok in E as ([] & w2 & E2 & E3).
      destruct (ensure_open_ready w w1 total k I C E1) as (f & ks & Rd & Ec & Eo & Eu & El).
      pose proof (slice_key_run k run m start take B V ltac:(lia) ltac:(lia)) as Ks.
      destruct (write_one_inv w w1 w2 total k f ks _ _ _ Ns I Rd Ec Eo Eu El Ks E2) as (I2 & C2 & N2).
      destruct (IH (start + take)%nat w2 w' _ ltac:(lia) ltac:(lia) I2 C2 E3) as [I3 N3]. split.
      * destruct (cat_ok s (contents w) (i_slices _ _ _ I)) as [n Hn]. rewrite (i_total _ _ _ I) in Hn.
        rewrite (append_assoc s n take (m - (start + take))) in I3; [|done|eapply slice_ok; [done|lia]..].
        rewrite (slice_append s m) in I3 by (done || lia).
        by replace (take + (m - (start + take)))%nat with (m - start)%nat in I3 by lia.
      * intros _ Hn. destruct (decide (start + take < m)%nat); [by apply N3|].
        apply N2. assert (m - (start + take) = 0)%nat as Z by lia. clear -E3 Z N Hn.
        destruct fuel; cbn [write_run] in E3; rewrite ?N in E3; [by injection E3 as <-|].
        destruct (Nat.leb_spec m (start + take)); [by injection E3 as <-|lia].
Qed.

(** ** Key runs and the stream *)

(** Between runs a file is open, or nothing is closed yet, or keys may split. *)
Definition boundary w : Prop := open w = None -> outputs w = [] \/ may_split.

Lemma cut_if_due_inv w w' total k0 k :
  winv w total k0 -> boundary w -> cut_if_due' k w = (Ok tt, w') ->
  winv w' total k0 /\ can_take w' k.
Proof.
  intros I Bd. unfold cut_if_due. pose proof I as [B1 B2 B3 B4 B5 B6 B7 B8 B9].
  destruct (open w) as [f|] eqn:O.
  - destruct (B8 f eq_refl) as ((ks & Ne & Fk) & Hk & Hd & Hd' & Hl). pose proof (fo_current _ _ Fk) as Cu.
    destruct (cut_before _ _ _ _ _ f k) eqn:C.
    + intros E. destruct (close_open_inv true w w' total k0 f I O) as (On & _ & _ & _ & _ & _ & Fin); [|done|].
      { intros Pl. unfold cut_before in C. by rewrite Pl in C. }
      destruct (Fin eq_refl) as [I' La]. split; [done|]. unfold can_take. rewrite On, La. intros [= <-].
      exfalso. unfold cut_before in C. rewrite Cu, Z.eqb_refl in C. by destruct placement.
    + intros [= <-]. split; [done|]. unfold can_take. rewrite O. intros D.
      destruct (decide (f_key_max f = k)) as [|Nk]; [done|]. exfalso. apply Z.eqb_neq in Nk.
      unfold cut_before in C. rewrite Cu, Nk in C. destruct placement as [| |n]; simpl in C; [|done|].
      * destruct D as [D|]; [|done]. rewrite Hd, B4, B9 in D. done.
      * destruct D as [D|]; [|done]. by rewrite D, orb_true_r in C.
  - intros [= <-]. split; [done|]. unfold can_take. rewrite O. destruct (Bd O) as [E|]; [|done].
    by rewrite B4, E.
Qed.

Lemma consume_key_run_inv w w' total k0 k run :
  s <> [] -> winv w total k0 -> boundary w -> k0 <= k -> key_run s pk (k, run) ->
  consume_key_run' k run w = (Ok tt, w') -> winv w' (batch_append total run) k /\ boundary w'.
Proof.
  intros Ns I Bd L (m & Hm & B & V) E. simpl in *. apply w_bind_Ok in E as ([] & w1 & E1 & E2).
  destruct (cut_if_due_inv _ _ _ _ _ I Bd E1) as [I1 C1]. rewrite (ok_num_rows s m) in E2 by done.
  destruct (write_run_inv k run m Ns B V m 0 w1 w' total ltac:(lia) ltac:(lia) (winv_le _ _ _ _ I1 L) C1 E2) as [I2 N2].
  rewrite Nat.sub_0_r, (slice_all s m) in I2 by done. split; [done|]. intros O. right. by apply N2.
Qed.

Definition run_keys (runs : list (Z * RecordBatch)) : list Z :=
  concat ((fun kr => replicate (num_rows kr.2) kr.1) <$> runs).

Lemma run_keys_sorted k0 runs : s <> [] -> Forall (key_run s pk) runs ->
  StronglySorted Z.le (k0 :: run_keys runs) -> StronglySorted Z.le (k0 :: runs.*1).
Proof.
  intros Ns F. revert k0. induction F as [|[k r] runs (m & Hm & B & _) _ IH]; intros k0 S; [by repeat constructor|].
  unfold run_keys in S. rewrite fmap_cons, concat_cons in S. simpl in *. rewrite (ok_num_rows s m) in S by done.
  destruct m as [|m]; [lia|]. simpl in S. apply StronglySorted_inv in S as [S H]. apply Forall_cons in H as [Hk Ht].
  assert (S' : StronglySorted Z.le (k :: run_keys runs)).
  { change (k :: replicate m k ++ ?x) with ((k :: replicate m k) ++ x) in S.
    apply StronglySorted_app in S as (C & _ & S2). constructor; [done|]. apply Forall_forall. intros x Hx.
    apply C; [left|done]. }
  specialize (IH k S'). constructor; [done|]. constructor; [done|].
  apply StronglySorted_inv in IH as [_ G]. eapply Forall_impl; [exact G|]. simpl. lia.
Qed.

Lemma run_values runs : s <> [] -> Forall (key_run s pk) runs -> runs <> [] ->
  column_values (cat s runs.*2) pk = Some (Some <$> run_keys runs).
Proof.
  intros Ns F. induction F as [|[k r] runs (m & Hm & B & V) F IH]; [done|]. intros _. simpl in *.
  unfold run_keys. rewrite fmap_cons, concat_cons, fmap_app, fmap_replicate. simpl. rewrite (ok_num_rows s m) by done.
  assert (A : all_ok s runs.*2).
  { apply Forall_fmap. eapply Forall_impl; [exact F|]. intros [k' r'] (m' & _ & B' & _). by exists m'. }
  destruct (cat_ok s _ A) as [n Hn]. destruct runs as [|kr runs].
  - simpl. rewrite cat_cons, cat_nil, (append_empty _ _ _ B), V. by rewrite app_nil_r.
  - rewrite cat_cons. change (list_fmap _ _ snd (kr :: runs)) with ((kr :: runs).*2).
    destruct (column_values_append s _ _ _ _ pk _ B Hn V) as (ws & Hw & ->).
    rewrite IH in Hw by done. by injection Hw as <-.
Qed.

Lemma consume_runs_inv runs : s <> [] -> Forall (key_run s pk) runs -> forall w w' total k0,
  winv w total k0 -> boundary w -> StronglySorted Z.le (k0 :: runs.*1) -> consume_runs' runs w = (Ok tt, w') ->
  winv w' (batch_append total (cat s runs.*2)) (default k0 (last runs.*1)) /\ boundary w'.
Proof.
  intros Ns F. induction F as [|[k r] runs R F IH]; intros w w' total k0 I Bd S E; simpl in E |- *.
  - injection E as <-. destruct (cat_ok s (contents w) (i_slices _ _ _ I)) as [n Hn].
    rewrite (i_total _ _ _ I) in Hn. by rewrite cat_nil, (append_empty _ _ _ Hn).
  - apply w_bind_Ok in E as ([] & w1 & E1 & E2). simpl in S. apply StronglySorted_inv in S as [S H].
    apply Forall_cons in H as [Hk _]. destruct (consume_key_run_inv _ _ _ _ _ _ Ns I Bd Hk R E1) as [I1 B1].
    destruct (IH w1 w' _ k I1 B1 S E2) as [I2 B2]. split; [|done].
    destruct (cat_ok s (contents w) (i_slices _ _ _ I)) as [n Hn]. rewrite (i_total _ _ _ I) in Hn.
    assert (A : all_ok s runs.*2).
    { apply Forall_fmap. eapply Forall_impl; [exact F|]. intros [k' r'] (m' & _ & B' & _). by exists m'. }
    destruct (cat_ok s _ A) as [n' Hn'], R as (m & _ & Bm & _).
    change (list_fmap _ _ snd runs) with (runs.*2). change (list_fmap _ _ fst runs) with (runs.*1).
    rewrite cat_cons.
    rewrite (append_assoc s n m n') in I2 by done.
    replace (default k0 (last (k :: runs.*1))) with (default k (last runs.*1)); [done|].
    rewrite last_cons. by destruct (last runs.*1).
Qed.

(** A batch of the stream, with its keys. *)
Definition keyed (b : RecordBatch) (ks : list Z) : Prop :=
  exists n, batch_ok s n b /\ column_values b pk = Some (Some <$> ks).

Lemma keyed_ok batches kss : Forall2 keyed batches kss -> all_ok s batches.
Proof. intros F. apply Forall_lookup. intros i b Hb. destruct (Forall2_lookup_l _ _ _ _ _ F Hb) as (ks & _ & n & B & _). by exists n. Qed.

Lemma consume_stream_inv batches kss : s <> [] -> Forall2 keyed batches kss -> forall w w' total k0,
  winv w total k0 -> boundary w -> StronglySorted Z.le (k0 :: concat kss) ->
  consume_stream' (Ok <$> batches) w = (Ok tt, w') ->
  exists k, winv w' (batch_append total (cat s batches)) k /\ boundary w'.
Proof.
  intros Ns F. induction F as [|b ks batches kss (n & B & V) F IH]; intros w w' total k0 I Bd S E; simpl in E |- *.
  - injection E as <-. destruct (cat_ok s (contents w) (i_slices _ _ _ I)) as [n Hn].
    rewrite (i_total _ _ _ I) in Hn. rewrite cat_nil, (append_empty _ _ _ Hn). eauto.
  - destruct (split_by_key under_null b pk) as [runs|e] eqn:Sp; [|done].
    destruct (split_by_key_spec s pk _ _ _ _ _ B V Sp) as (Fr & Cr & _).
    apply w_bind_Ok in E as ([] & w1 & E1 & E2).
    rewrite concat_cons, app_comm_cons in S. pose proof S as (Sa & Sb & Sc)%StronglySorted_app.
    assert (Ek : runs <> [] -> ks = run_keys runs).
    { intros Nr. pose proof (run_values runs Ns Fr Nr) as Rv. rewrite Cr, V in Rv. injection Rv as Rv.
      by apply (inj (fmap Some)) in Rv. }
    assert (Sr : StronglySorted Z.le (k0 :: runs.*1)).
    { destruct runs as [|r runs]; [by repeat constructor|]. apply run_keys_sorted; [done|done|]. by rewrite <- Ek. }
    destruct (consume_runs_inv runs Ns Fr w w1 total k0 I Bd Sr E1) as [I1 B1]. rewrite Cr in I1.
    assert (Sl : StronglySorted Z.le (default k0 (last runs.*1) :: concat kss)).
    { constructor; [done|]. apply Forall_forall. intros x Hx. apply Sa; [|done].
      destruct runs as [|r runs _] using rev_ind; [left|]. rewrite fmap_app. simpl. rewrite last_snoc. right.
      rewrite Ek by (by destruct runs). unfold run_keys. rewrite fmap_app, concat_app. apply elem_of_app. right.
      apply Forall_app in Fr as [_ Fr]. apply Forall_cons in Fr as [(m & Hm & Bm & _) _]. simpl.
      rewrite (ok_num_rows s m) by done. destruct m; [lia|]. left. }
    destruct (IH w1 w' _ _ I1 B1 Sl E2) as (k & I2 & B2). exists k. split; [|done].
    destruct (cat_ok s (contents w) (i_slices _ _ _ I)) as [n0 Hn0]. rewrite (i_total _ _ _ I) in Hn0.
    destruct (cat_ok s batches (keyed_ok _ _ F)) as [n' Hn']. rewrite cat_cons. by rewrite (append_assoc s n0 n n') in I2 by done.
Qed.

Lemma new_writer_inv k : winv new_writer (empty_batch s) k.
Proof. split; simpl; try done; try constructor. destruct placement; done. Qed.

Notation write' :=
  (write in_progress_rows encoded_size_of flushed_row_groups fault head_size ser enc under_null next_path
     on_open s opts placement pk sort_key).

(** What a successful run leaves. *)
Lemma write_spec batches kss outs w :
  s <> [] -> Forall2 keyed batches kss -> StronglySorted Z.le (concat kss) ->
  write' (Ok <$> batches) = (Ok outs, w) ->
  outs = outputs w /\ cat s (concat ((fun obj => written obj.2) <$> objects w)) = cat s batches /\
  Forall2 describes_file outs (objects w) /\ opened w = (objects w).*1 /\
  Sorted ranges_meet (out_range <$> outs) /\
  (placement = Packed -> (length outs <= 1)%nat) /\
  (placement = Separated -> Forall (fun o => co_key_min o = co_key_max o) outs).
Proof.
  intros Ns F S. unfold write. destruct (w_bind _ _ new_writer) as [[[]|e] w1] eqn:E; [|done]. intros [= <- <-].
  apply w_bind_Ok in E as ([] & w0 & E1 & E2).
  assert (S0 : StronglySorted Z.le (default 0 (head (concat kss)) :: concat kss)).
  { constructor; [done|]. destruct (concat kss) as [|k ks]; [constructor|]. simpl.
    apply StronglySorted_inv in S as [_ G]. by constructor. }
  destruct (consume_stream_inv batches kss Ns F new_writer w0 _ _ (new_writer_inv _) ltac:(by left) S0 E1) as (k & I & Bd).
  destruct (cat_ok s batches (keyed_ok _ _ F)) as [n Hn]. rewrite (empty_append _ _ _ Hn) in I.
  pose proof I as [B1 B2 B3 B4 B5 B6 B7 B8 B9]. destruct (open w0) as [f|] eqn:O.
  - destruct (close_open_inv false w0 w1 _ _ f I O ltac:(done) E2) as
      (On & Ec & (o & Eo & Mn & Mx) & F2 & Ch & Pa & _).
    split_and!; try done.
    + rewrite <- B2, <- Ec. unfold contents, open_slices. by rewrite On, app_nil_r.
    + intros Pl. rewrite Pl in B9. rewrite Eo, B9. simpl. lia.
    + intros Pl. rewrite Pl in B9. destruct B9 as [P1 P2]. rewrite Eo. apply Forall_app. split; [done|].
      constructor; [rewrite Mn, Mx; by apply P2|constructor].
  - unfold close_open in E2. rewrite O in E2. injection E2 as <-.
    unfold contents, open_slices, open_path in *. rewrite O, ?app_nil_r in *. split_and!; try done.
    + intros Pl. rewrite Pl in B9. rewrite B9. simpl. lia.
    + intros Pl. rewrite Pl in B9. by apply B9.
Qed.

(** C31: a rewrite never loses, repeats or reorders a row, whatever the placement,
    the size estimates and the row-group limits: when the streaming writer
    succeeds, the closed files hold, in order, exactly the rows of its input;
    every file's intent was registered under its own path; and each output says
    of its file what is in it -- its row count, its exact key range and its
    statistics. *)
Theorem chunk_writer_conserves_rows batches kss outs w :
  s <> [] -> Forall2 keyed batches kss -> StronglySorted Z.le (concat kss) ->
  write' (Ok <$> batches) = (Ok outs, w) ->
  cat s (concat ((fun obj => written obj.2) <$> objects w)) = cat s batches /\
  Forall2 describes_file outs (objects w) /\ opened w = (objects w).*1.
Proof. intros Ns F S E. destruct (write_spec _ _ _ _ Ns F S E) as (_ & ? & ? & ? & _). done. Qed.

(** the files of one rewrite form a run: their key ranges ascend and two of
    them meet only in one key, when a size target splits it and the later file
    holds nothing else; a packed table gets at most one file and a separated
    one a file per key. *)
Theorem chunk_ranges_are_disjoint batches kss outs w :
  s <> [] -> Forall2 keyed batches kss -> StronglySorted Z.le (concat kss) ->
  write' (Ok <$> batches) = (Ok outs, w) ->
  Sorted ranges_meet (out_range <$> outs) /\
  (placement = Packed -> (length outs <= 1)%nat) /\
  (placement = Separated -> Forall (fun o => co_key_min o = co_key_max o) outs).
Proof. intros Ns F S E. destruct (write_spec _ _ _ _ Ns F S E) as (_ & _ & _ & _ & ? & ? & ?). done. Qed.

End writer.

(** ** The theorems applied *)

(** A writer that reports the rows since its last flush, and ten bytes a row. *)
Fixpoint rows_since_flush (calls : list WriterCall) (acc : Z) : Z :=
  match calls with
  | [] => acc
  | CWrite b :: rest => rows_since_flush rest (acc + Z.of_nat (num_rows b))
  | _ :: rest => rows_since_flush rest 0
  end.
Definition ten_bytes (calls : list WriterCall) : Z := 10 * Z.of_nat (length (concat (List.map (fun b => replicate (num_rows b) tt) (written calls)))).

Definition k_schema : ArrowSchema := [mkField "k" Int64 false []].
Definition k_batch (ks : list Z) : RecordBatch := mkBatch k_schema [Int64Array (Some <$> ks)].
Definition no_fault (path : string) (calls : list WriterCall) : option CompactorError := None.

Definition demo_opts : Schema.WriteOpts := Schema.mkWriteOpts 1 None [] 2.
Definition demo_in_progress (p : Schema.WriterProperties) (calls : list WriterCall) : Z := rows_since_flush calls 0.
Definition demo_size (p : Schema.WriterProperties) : list WriterCall -> Z := ten_bytes.
Definition demo_groups (p : Schema.WriterProperties) (calls : list WriterCall) : list Stats.RowGroupMetaData := [].
Definition demo_head (path : string) (calls : list WriterCall) : result Z CompactorError := Ok (ten_bytes calls).
Definition demo_path (n : nat) : string := pretty n.
Definition demo_intent (path : string) : option CompactorError := None.

Definition demo (placement : Placement) (kss : list (list Z)) : result (list ChunkOutput) CompactorError * ChunkWriter :=
  write demo_in_progress demo_size demo_groups no_fault demo_head Stats.w_ser Stats.w_enc (fun _ => 0) demo_path
    demo_intent k_schema demo_opts placement "k" ["k"%string] (Ok <$> (k_batch <$> kss)).

(** Key 2 is larger than the target of 20 bytes: it gets files of its own. *)
Example whale :
  match demo (SizeTargeted 20) [[1; 2]; [2; 2; 2; 3]] with
  | (Ok outs, _) => List.map (fun o => (co_key_min o, co_key_max o, co_row_count o)) outs
  | _ => []
  end = [(1, 2, 2); (2, 2, 2); (2, 2, 1); (3, 3, 1)].
Proof. vm_compute. reflexivity. Qed.

Lemma k_keyed ks : keyed k_schema "k" (k_batch ks) ks.
Proof.
  exists (length ks). split; [|done]. split; [repeat constructor|done|]. repeat constructor. simpl.
  by rewrite length_fmap.
Qed.

Lemma demo_sorted : StronglySorted Z.le (concat [[1; 2]; [2; 2; 2; 3]]).
Proof. simpl. repeat first [apply SSorted_nil | apply SSorted_cons | apply Forall_nil_2 | apply Forall_cons_2 | lia]. Qed.

Lemma demo_keyed : Forall2 (keyed k_schema "k") (k_batch <$> [[1; 2]; [2; 2; 2; 3]]) [[1; 2]; [2; 2; 2; 3]].
Proof. constructor; [apply k_keyed|]. constructor; [apply k_keyed|constructor]. Qed.

Definition demo_outs : list ChunkOutput := match (demo (SizeTargeted 20) [[1; 2]; [2; 2; 2; 3]]).1 with Ok o => o | _ => [] end.
Definition demo_end : ChunkWriter := (demo (SizeTargeted 20) [[1; 2]; [2; 2; 2; 3]]).2.

Lemma chunk_writer_conserves_rows_witness :
  cat k_schema (concat ((fun obj => written obj.2) <$> objects demo_end)) = k_batch [1; 2; 2; 2; 2; 3].
Proof.
  destruct (chunk_writer_conserves_rows demo_in_progress demo_size demo_groups no_fault demo_head Stats.w_ser
    Stats.w_enc (fun _ => 0) demo_path demo_intent k_schema demo_opts (SizeTargeted 20) "k" ["k"%string]
    (k_batch <$> [[1; 2]; [2; 2; 2; 3]]) _ demo_outs demo_end
    ltac:(done) demo_keyed demo_sorted ltac:(vm_compute; reflexivity)) as [E _].
  rewrite E. reflexivity.
Defined.

Lemma chunk_ranges_are_disjoint_witness :
  Sorted (ranges_meet (SizeTargeted 20)) (out_range <$> demo_outs).
Proof.
  exact (proj1 (chunk_ranges_are_disjoint demo_in_progress demo_size demo_groups no_fault demo_head Stats.w_ser
    Stats.w_enc (fun _ => 0) demo_path demo_intent k_schema demo_opts (SizeTargeted 20) "k" ["k"%string]
    (k_batch <$> [[1; 2]; [2; 2; 2; 3]]) _ demo_outs demo_end
    ltac:(done) demo_keyed demo_sorted ltac:(vm_compute; reflexivity))).
Defined.

End RewriteSpec.
