(* ===== verification/Compactor.v ===== *)
(** * The compactor (crates/ukiel-compactor/src/compactor.rs)

    Planning a merge, the rotating sweep, the passes that claim, merge and
    release partitions, and the loop that alternates them. Between two calls to
    the catalog other processes commit what they like, and every call may fail:
    both are inputs ([Call], [MergeEnv]). A merge runs beside its lease's
    renewals; a lost lease drops it where it is. *)

From S2P Require Import Prelude Bytes Json Types Arrow Schema Stats Operation CatalogError CatalogDb Commit Leases Feed Parts CatalogGc Tables Batches Expr Merge PartRead Rewrite.
Import CatalogError CatalogDb Commit Leases Feed Parts CatalogGc Batches Merge PartRead Rewrite.

(** What the compactor runs on: hashing, the encodings, DataFusion, Arrow's
    row format and gather, and the Parquet reader and writer. *)
Class Platform := {
  blake3 : list Z -> list Z;
  b64_decode : string -> option (list Z);
  b64_encode : list Z -> string;
  tm_serialize : gset Z -> option (list Z);
  tm_deserialize : list Z -> option (gset Z);
  datafusion :: Expr.DataFusionOps;
  read_object : list WriterCall -> result (list (result RecordBatch string)) string;
  SortRow : Type;
  row_le : SortRow -> SortRow -> Prop;
  row_le_total :: TotalOrder row_le;
  row_le_dec :: RelDecision row_le;
  row_key : list nat -> list Cell -> SortRow;
  interleave : list (list (list Cell)) -> list (nat * nat) -> result (list (list Cell)) CompactorError;
  in_progress_rows : Schema.WriterProperties -> list WriterCall -> Z;
  encoded_size_of : Schema.WriterProperties -> list WriterCall -> Z;
  flushed_row_groups : Schema.WriterProperties -> list WriterCall -> list Stats.RowGroupMetaData;
  under_null : nat -> Z;
}.

Module Compactor.

Definition COMPACTION_TRANSFORMATION_VERSION : Z := 2.

(** The knobs the pass reads (the tick intervals only pace [run]). *)
Record CompactorConfig := mkConfig {
  worker_name : string;
  l0_fanout : Z;
  fanout : Z;
  finalize_after_secs : Z;
  candidate_limit : Z;
  lease_ttl_ms : Z;
}.

Definition default_config : CompactorConfig := mkConfig "compactor" 2 2 3600 64 60000.

Record CompactionStats := mkStats {
  merged_groups : Z;
  parts_in : Z;
  parts_out : Z;
  conflicts : Z;
  candidates : Z;
  stat_eligible : Z;
  leased_skips : Z;
  sweep_wraps : Z;
}.

Definition no_stats : CompactionStats := mkStats 0 0 0 0 0 0 0 0.

(** A release build's [+] on [i16]. *)
Definition wrap_i16 (z : Z) : Z := (z + 2 ^ 15) mod 2 ^ 16 - 2 ^ 15.

(** ** Planning *)

(** [by_level.entry(level).or_default().push(part)], over the parts. *)
Definition push_level (m : gmap Z (list Part)) (p : Part) : gmap Z (list Part) :=
  <[level (meta p) := default [] (m !! level (meta p)) ++ [p]]> m.

Definition level_le (a b : Z * list Part) : Prop := a.1 <= b.1.
#[global] Instance level_le_dec a b : Decision (level_le a b).
Proof. unfold level_le; apply _. Defined.

(** The map's entries in ascending order of level. *)
Definition by_level (ps : list Part) : list (Z * list Part) :=
  merge_sort level_le (map_to_list (List.fold_left push_level ps ∅)).

(** The distinct commits of a group. *)
Definition run_count (group : list Part) : Z := len (remove_dups (List.map created_by_commit group)).

Definition eligible_level (config : CompactorConfig) (ps : list Part) : option (Z * list Part) :=
  List.find (fun lg =>
    let trigger := if lg.1 =? 0 then l0_fanout config else fanout config in
    trigger <=? run_count lg.2) (by_level ps).

(** ** The environment *)

(** One call to the catalog: what others committed before it, its failure if it
    only reads, its clocks, and its outcome if it writes. *)
Record Call := mkCall {
  others : DbState -> DbState;
  read_error : option SqlxError;
  call_now : Z;
  call_clock : ClaimClock;
  write_outcome : Outcome;
}.

(** One tick of a lease's renewal. *)
Record Tick := mkTick { tick_others : DbState -> DbState; tick_clock : ClaimClock; tick_outcome : Outcome }.

(** A merge's run: the Parquet and object stores' failures, fresh names, and,
    for each of its steps -- the reads, then one intent per file, then the
    REPLACE -- the renewal ticks before it, what others commit, and whether a
    call that a lost lease cut off took effect. *)
Record MergeEnv := mkMergeEnv {
  fault : string -> list WriterCall -> option CompactorError;
  head_size : string -> list WriterCall -> result Z CompactorError;
  uuid : nat -> string;
  intent : string -> Outcome * Z;
  ticks : nat -> list Tick;
  peers : nat -> DbState -> DbState;
  in_flight : nat -> bool;
  closed_at_cut : nat;
  commit_tx : TxEnv;
}.

Abbreviation Store := (gmap string (list WriterCall)).

Definition add_objects (objs : list (string * list WriterCall)) (st : Store) : Store :=
  List.fold_left (fun st o => <[o.1 := o.2]> st) objs st.

(** The process and the world it acts on. *)
Record World := mkWorld {
  w_db : DbState;
  w_store : Store;
  w_calls : nat;
  w_merges : nat;
  ladder_cursors : gmap Z string;
  finalize_cursors : gmap Z string;
  w_stats : CompactionStats;
}.

Definition M A : Type := World -> result A CompactorError * World.
Definition ret {A} (a : A) : M A := fun w => (Ok a, w).
Definition fail {A} (e : CompactorError) : M A := fun w => (Err e, w).
Definition bind {A B} (m : M A) (k : A -> M B) : M B := fun w =>
  let '(r, w) := m w in match r with Ok a => k a w | Err e => (Err e, w) end.
Notation "'do!' x ':=' e 'in' k" := (bind e (fun x => k)) (at level 10, x pattern, e at level 100, k at level 200).

Definition with_db (w : World) (d : DbState) : World :=
  mkWorld d (w_store w) (S (w_calls w)) (w_merges w) (ladder_cursors w) (finalize_cursors w) (w_stats w).
Definition with_stats (w : World) (s : CompactionStats) : World :=
  mkWorld (w_db w) (w_store w) (w_calls w) (w_merges w) (ladder_cursors w) (finalize_cursors w) s.

(** The two sweeps' cursor maps. *)
Inductive SweepKind := Ladder | Finalize.
Definition cursors_of (k : SweepKind) (w : World) : gmap Z string :=
  match k with Ladder => ladder_cursors w | Finalize => finalize_cursors w end.
Definition with_cursors_of (k : SweepKind) (w : World) (m : gmap Z string) : World :=
  match k with
  | Ladder => mkWorld (w_db w) (w_store w) (w_calls w) (w_merges w) m (finalize_cursors w) (w_stats w)
  | Finalize => mkWorld (w_db w) (w_store w) (w_calls w) (w_merges w) (ladder_cursors w) m (w_stats w)
  end.

Section compactor.
Context `{Jsonb} `{Platform}.

Definition compaction_identity_for (hypertable : Hypertable) (group : list Part) (output_level : Z)
  : result Operation.OperationIdentity CompactorError :=
  match group with
  | [] => Err (OperationErr Operation.NoInputParts)   (* [group[0]] panics: groups are not empty *)
  | p :: _ =>
      map_err OperationErr (Operation.compaction blake3 (ht_id hypertable)
        (Operation.Build_CompactionIntent output_level (List.map part_id group) (partition_values (meta p))
           (table_schema hypertable) (sort_key hypertable) (placement hypertable)
           COMPACTION_TRANSFORMATION_VERSION))
  end.

(** ** One merge *)

Section merge.
Context (me : MergeEnv) (ttl : Z) (lease : CompactionLease).

(** The renewal loop over the ticks that come before the merge's next step:
    [Ok] is still ours. *)
Fixpoint renew_until_cancelled (ts : list Tick) (d : DbState) : result unit CatalogError * DbState :=
  match ts with
  | [] => (Ok tt, d)
  | t :: ts =>
      match autocommit (tick_outcome t) (renew_compaction_lease (tick_clock t) lease ttl) (tick_others t d) with
      | (Ok (Some _), d) => renew_until_cancelled ts d
      | (Ok None, d) => (Err (LeaseLost (ls_partition_values lease)), d)
      | (Err e, d) => (Err e, d)
      end
  end.

(** A step of the merge raced against the renewals: dropped when the lease is
    lost, its call in flight or not. *)
Definition raced {A} (n : nat) (call : DbState -> A * DbState) (d : DbState) : result A CatalogError * DbState :=
  match renew_until_cancelled (ticks me n) d with
  | (Err lost, d) => (Err lost, if in_flight me n then (call (peers me n d)).2 else d)
  | (Ok _, d) => let '(a, d) := call (peers me n d) in (Ok a, d)
  end.

(** The rows a stream yields. *)
Definition stream_rows (s : string * list (result RecordBatch CompactorError)) : list (list Cell) :=
  concat (List.map (fun item => match item with Ok b => batch_rows b | Err _ => [] end) s.2).

(** One merged batch stream from the sorted inputs: batches are lists of rows
    inside the merge, and columns outside. *)
Definition merge_batches (streams : list (string * list (result RecordBatch CompactorError)))
    (schema : ArrowSchema) (sort_key : list string) : list (result RecordBatch CompactorError) :=
  let view item := let? b := item in Ok (batch_rows b) in
  let inputs := List.map (fun s => mkStream s.1 (List.map view s.2)) streams in
  let fuel := S (length (concat (List.map stream_rows streams))) in   (* a row a step: enough *)
  let '(outs, fin) := merge_streams row_le row_key interleave fuel inputs schema sort_key in
  List.map (fun rs => Ok (of_rows schema rs)) outs
  ++ match fin with Some (Err e) => [Err e] | _ => [] end.

Definition output_path (ht : HypertableId) (output_level : Z) (n : nat) : string :=
  ("ht/" +:+ pretty ht +:+ "/L" +:+ pretty output_level +:+ "/" +:+ uuid me n +:+ ".parquet")%string.

(** [on_open]: the intent's registration, as the writer sees it. *)
Definition on_open (ht : HypertableId) (known : bool) (path : string) : option CompactorError :=
  match (intent me path).1 with
  | Failed e _ => Some (CatalogErr (Db e))
  | Acked => if known then None else Some (CatalogErr (Db (Database (Some "23503"))))
  end.

(** The registrations the writer sent, each raced: how many were made. *)
Fixpoint register_all (ht : HypertableId) (n : nat) (paths : list string) (d : DbState)
  : result unit CatalogError * nat * DbState :=
  match paths with
  | [] => (Ok tt, n, d)
  | p :: rest =>
      match raced n (autocommit (intent me p).1 (register_pending_objects ht [p] (intent me p).2)) d with
      | (Err lost, d) => (Err lost, n, d)
      | (Ok _, d) => register_all ht (S n) rest d
      end
  end.

Definition meta_of_output (partition_values : json) (output_level : Z) (c : ChunkOutput) : PartMeta :=
  mkPartMeta (co_path c) partition_values (co_key_min c) (co_key_max c) (co_row_count c) (co_size_bytes c)
    output_level (co_column_stats c).

(** How a merge future ends. *)
Inductive Merged :=
| Finished (r : result Z CompactorError)
| Abandoned (lost : CatalogError).

(** Writing the merged stream: pure up to the intents it sends. *)
Definition write_merged (hypertable : Hypertable) (known : bool) (cols : Schema.TableColumns) (output_level : Z)
    (merged : list (result RecordBatch CompactorError)) : result (list ChunkOutput) CompactorError * ChunkWriter :=
  write in_progress_rows encoded_size_of flushed_row_groups (fault me) (head_size me) tm_serialize b64_encode
    under_null (output_path (ht_id hypertable) output_level) (on_open (ht_id hypertable) known)
    (Schema.physical_schema cols) (Schema.from_columns cols (sort_key hypertable) output_level)
    (placement hypertable) (packing_key hypertable) (sort_key hypertable) merged.

Definition merge_parts (hypertable : Hypertable) (identity : Operation.OperationIdentity) (group : list Part)
    (output_level : Z) (d : DbState) (store : Store) : Merged * DbState * Store :=
  let partition := match group with p :: _ => partition_values (meta p) | [] => JNull end in
  let inputs :=
    let? cols := map_err SchemaErr (Schema.parse (table_schema hypertable)) in
    let? streams := part_streams read_object store
                      (Schema.physical_schema cols) cols group in
    Ok (cols, streams) in
  match raced 0 (fun d => (tt, d)) d with
  | (Err lost, d) => (Abandoned lost, d, store)
  | (Ok _, d) =>
      match inputs with
      | Err e => (Finished (Err e), d, store)
      | Ok (cols, streams) =>
          let merged := merge_batches streams (Schema.physical_schema cols) (sort_key hypertable) in
          let known := List.existsb (fun h => ht_id h =? ht_id hypertable) (hypertables (tables d)) in
          let '(r, w) := write_merged hypertable known cols output_level merged in
          match register_all (ht_id hypertable) 1 (opened w) d with
          | (Err lost, n, d) =>
              (Abandoned lost, d, add_objects (firstn (Nat.min (closed_at_cut me) (n - 1)) (objects w)) store)
          | (Ok _, n, d) =>
              let store := add_objects (objects w) store in
              match r with
              | Err e => (Finished (Err e), d, store)
              | Ok outputs =>
                  let new_parts := List.map (meta_of_output partition output_level) outputs in
                  match raced n (fun d =>
                    let '(r, d, _) := commit_compaction_replace b64_decode tm_deserialize (commit_tx me)
                      (ht_id hypertable) lease (List.map part_id group) new_parts identity 0 d in (r, d)) d with
                  | (Err lost, d) => (Abandoned lost, d, store)
                  | (Ok (Err e), d) => (Finished (Err (CatalogErr e)), d, store)
                  | (Ok (Ok _), d) => (Finished (Ok (len new_parts)), d, store)
                  end
              end
          end
      end
  end.
End merge.
(** ** The passes *)

Context (config : CompactorConfig) (owner_id : Z) (env : nat -> Call) (merges : nat -> MergeEnv).

(** [Duration::from_millis], in nanoseconds. *)
Definition lease_ttl : Z := lease_ttl_ms config * 1000000.

Definition catalog_read {A} (f : Call -> Tables -> result A CatalogError) : M A := fun w =>
  let c := env (w_calls w) in
  let w := with_db w (others c (w_db w)) in
  match read_error c with
  | Some e => (Err (CatalogErr (Db e)), w)
  | None => (map_err CatalogErr (f c (tables (w_db w))), w)
  end.

Definition catalog_write {A} (f : Call -> DbState -> result A CatalogError * DbState) : M A := fun w =>
  let c := env (w_calls w) in
  let '(r, d) := autocommit (write_outcome c) (f c) (others c (w_db w)) in
  (map_err CatalogErr r, with_db w d).

Definition claim (ht : HypertableId) (partition : json) : M (option CompactionLease) :=
  catalog_write (fun c => try_acquire_compaction_lease (call_clock c) ht partition owner_id lease_ttl).

(** Best-effort: its failure is only counted. *)
Definition release (lease : CompactionLease) : M unit := fun w =>
  let '(_, w) := catalog_write (fun _ d => let '(b, d) := release_compaction_lease lease d in (Ok b, d)) w in
  (Ok tt, w).

Definition merge_under_lease (hypertable : Hypertable) (lease : CompactionLease) (group : list Part)
    (output_level : Z) : M Z := fun w =>
  match compaction_identity_for hypertable group output_level with
  | Err e => (Err e, w)
  | Ok identity =>
      let '(fin, d, store) := merge_parts (merges (w_merges w)) lease_ttl lease hypertable identity group
                                output_level (w_db w) (w_store w) in
      (match fin with Finished r => r | Abandoned lost => Err (CatalogErr lost) end,
       mkWorld d store (w_calls w) (S (w_merges w)) (ladder_cursors w) (finalize_cursors w) (w_stats w))
  end.

Definition compact_partition (hypertable : Hypertable) (lease : CompactionLease) : M unit :=
  do! parts := catalog_read (fun _ t => Ok (live_partition_parts t (ht_id hypertable) (ls_partition_values lease))) in
  match eligible_level config parts with
  | None => ret tt
  | Some (level, group) => fun w =>
      let '(r, w) := merge_under_lease hypertable lease group (wrap_i16 (level + 1)) w in
      let s := w_stats w in
      match r with
      | Ok out =>
          (Ok tt, with_stats w (mkStats (merged_groups s + 1) (parts_in s + len group) (parts_out s + out)
             (conflicts s) (candidates s) (stat_eligible s) (leased_skips s) (sweep_wraps s)))
      | Err (CatalogErr (Conflict _ _)) =>
          (Ok tt, with_stats w (mkStats (merged_groups s) (parts_in s) (parts_out s) (conflicts s + 1)
             (candidates s) (stat_eligible s) (leased_skips s) (sweep_wraps s)))
      | Err (CatalogErr (LeaseLost _)) => (Ok tt, w)
      | Err e => (Err e, w)
      end
  end.

(** *** The rotating sweep *)

(** Where the cursor goes after a window, and whether a rotation completed. *)
Definition exhausted (window : CandidateWindow) : bool :=
  len (partitions window) <? as_usize (candidate_limit config).

Definition rotate (ht : HypertableId) (window : CandidateWindow) (cursors : gmap Z string) : gmap Z string :=
  match (if exhausted window then None else next_cursor window) with
  | Some next => <[ht := next]> cursors
  | None => delete ht cursors
  end.

Definition count_sweep (ran_off_tail : bool) (window : CandidateWindow) (s : CompactionStats) : CompactionStats :=
  let wrapped := (0 <? eligible window) && (ran_off_tail || exhausted window) in
  mkStats (merged_groups s) (parts_in s) (parts_out s) (conflicts s)
    (candidates s + len (partitions window)) (stat_eligible s + as_usize (eligible window))
    (leased_skips s + as_usize (leased window)) (sweep_wraps s + Z.b2z wrapped).

Definition sweep (kind : SweepKind) (ht : HypertableId) (window_at : option string -> M CandidateWindow)
  : M CandidateWindow := fun w =>
  let cursor := cursors_of kind w !! ht in
  let resumed := bool_decide (is_Some cursor) in
  (do! window := window_at cursor in
   let ran_off_tail := resumed && match partitions window with [] => true | _ => false end in
   do! window := (if ran_off_tail then window_at None else ret window) in
   fun w => (Ok window,
     with_stats (with_cursors_of kind w (rotate ht window (cursors_of kind w)))
       (count_sweep ran_off_tail window (w_stats w)))) w.

Definition ladder_window (ht : HypertableId) (after : option string) : M CandidateWindow :=
  catalog_read (fun c t =>
    compaction_candidates t ht owner_id (at_where (call_clock c)) (l0_fanout config) (fanout config)
      (candidate_limit config) after).

Fixpoint compact_all (hypertable : Hypertable) (ps : list json) : M unit :=
  match ps with
  | [] => ret tt
  | partition :: rest =>
      do! claimed := claim (ht_id hypertable) partition in
      match claimed with
      | None => compact_all hypertable rest
      | Some lease => fun w =>
          let '(r, w) := compact_partition hypertable lease w in
          (do! _ := release lease in
           match r with
           | Err e => fail e
           | Ok _ => compact_all hypertable rest
           end) w
      end
  end.

Definition compact_hypertable (hypertable : Hypertable) : M unit :=
  let ht := ht_id hypertable in
  do! window := sweep Ladder ht (ladder_window ht) in
  do! _ := compact_all hypertable (partitions window) in
  do! head := catalog_read (fun _ t => Ok (feed_head t ht)) in
  catalog_write (fun _ => set_cursor (worker_name config) ht head).

Fixpoint compact_hypertables (hs : list Hypertable) : M unit :=
  match hs with
  | [] => ret tt
  | h :: hs => do! _ := compact_hypertable h in compact_hypertables hs
  end.

Definition run_once : M CompactionStats := fun w =>
  (do! hs := catalog_read (fun _ t => Ok (Tables.Registry.list_hypertables t)) in
   do! _ := compact_hypertables hs in
   fun w => (Ok (w_stats w), w)) (with_stats w no_stats).

(** *** Finalization *)

Definition quiet_us : Z := finalize_after_secs config * 1000000.

Definition finalize_window (ht : HypertableId) (after : option string) : M CandidateWindow :=
  catalog_read (fun c t =>
    finalize_candidates t ht owner_id (at_where (call_clock c)) (call_now c) quiet_us
      (candidate_limit config) after).

(** [parts.iter().map(|p| p.meta.level).max().unwrap_or(0)]. *)
Definition top_level (ps : list Part) : Z := default 0 (max_id (List.map (fun p => level (meta p)) ps)).

Definition finalize_partition (hypertable : Hypertable) (lease : CompactionLease) : M bool :=
  let ht := ht_id hypertable in
  let partition := ls_partition_values lease in
  do! quiet := catalog_read (fun c t => Ok (partition_l0_quiet_since t ht partition (call_now c) quiet_us)) in
  if negb quiet then ret false
  else
    do! parts := catalog_read (fun _ t => Ok (live_partition_parts t ht partition)) in
    if run_count parts <? 2 then ret false
    else
      do! _ := merge_under_lease hypertable lease parts (wrap_i16 (top_level parts + 1)) in
      ret true.

Fixpoint finalize_all (hypertable : Hypertable) (ps : list json) (finalized : Z) : M Z :=
  match ps with
  | [] => ret finalized
  | partition :: rest =>
      do! claimed := claim (ht_id hypertable) partition in
      match claimed with
      | None => finalize_all hypertable rest finalized
      | Some lease => fun w =>
          let '(r, w) := finalize_partition hypertable lease w in
          (do! _ := release lease in
           match r with
           | Ok true => finalize_all hypertable rest (finalized + 1)
           | Ok false | Err (CatalogErr (Conflict _ _)) | Err (CatalogErr (LeaseLost _)) =>
               finalize_all hypertable rest finalized
           | Err e => fail e
           end) w
      end
  end.

Fixpoint finalize_hypertables (hs : list Hypertable) (finalized : Z) : M Z :=
  match hs with
  | [] => ret finalized
  | h :: hs =>
      do! window := sweep Finalize (ht_id h) (finalize_window (ht_id h)) in
      do! finalized := finalize_all h (partitions window) finalized in
      finalize_hypertables hs finalized
  end.

Definition finalize_once : M Z := fun w =>
  (do! hs := catalog_read (fun _ t => Ok (Tables.Registry.list_hypertables t)) in
   finalize_hypertables hs 0) (with_stats w no_stats).

(** *** The loop *)

(** What the [select!] of [run] yields. *)
Inductive RunEvent := Shutdown | LadderTick | FinalizeTick.

(** [run]: whether it was told to stop, and how often it signalled that it is ready
    -- after each clean ladder pass. *)
Fixpoint run (events : list RunEvent) (signals : nat) : M (bool * nat) :=
  match events with
  | [] => ret (false, signals)
  | Shutdown :: _ => ret (true, signals)
  | LadderTick :: events => do! _ := run_once in run events (S signals)
  | FinalizeTick :: events => do! _ := finalize_once in run events signals
  end.

End compactor.
End Compactor.
