(* ===== verification/CompactorPlan.v ===== *)
(** * Planning a merge: what [eligible_level] promises

    The level it picks, its agreement with the catalog's candidate query, and
    the run count that every ladder merge lowers. *)

From S2P Require Import Prelude Bytes Json Types CatalogError CatalogDb Commit CommitSpec Feed Parts Compactor.
Import CatalogError CatalogDb Commit CommitSpec CommitTheorems Feed Parts Compactor.

Module CompactorPlan.

Definition at_level (l : Z) (ps : list Part) : list Part := List.filter (fun p => level (meta p) =? l) ps.

Definition trigger_of (config : CompactorConfig) (l : Z) : Z :=
  if l =? 0 then l0_fanout config else fanout config.

(** ** Levels *)

Lemma push_levels ps m l :
  List.fold_left push_level ps m !! l =
  match at_level l ps with [] => m !! l | g => Some (default [] (m !! l) ++ g) end.
Proof.
  revert m. induction ps as [|p ps IH]; intros m; simpl; [done|]. rewrite IH. unfold push_level.
  destruct (Z.eqb_spec (level (meta p)) l) as [<-|N].
  - rewrite lookup_insert_eq. simpl. destruct (at_level _ ps); [done|]. by rewrite <- app_assoc.
  - by rewrite lookup_insert_ne.
Qed.

Lemma by_level_In ps l g : (l, g) ∈ by_level ps <-> g = at_level l ps /\ g <> [].
Proof.
  unfold by_level. rewrite (merge_sort_Permutation level_le), elem_of_map_to_list, push_levels, lookup_empty. simpl.
  destruct (at_level l ps) eqn:E; [naive_solver|]. split; [by intros [= <-]|]. by intros [-> _].
Qed.

#[local] Instance level_le_total : Total level_le.
Proof. intros [a ?] [b ?]. unfold level_le; simpl. lia. Qed.
#[local] Instance level_le_trans : Transitive level_le.
Proof. intros [a ?] [b ?] [c ?]. unfold level_le; simpl. lia. Qed.

Lemma by_level_sorted ps : StronglySorted level_le (by_level ps).
Proof. apply StronglySorted_merge_sort; apply _. Qed.

(** The first hit of a sorted list is the least one. *)
Lemma find_sorted {A} (R : A -> A -> Prop) (f : A -> bool) l x y :
  (forall a, R a a) -> StronglySorted R l -> List.find f l = Some x -> y ∈ l -> f y = true -> R x y.
Proof.
  intros Rf S. induction S as [|z l _ IH F]; simpl; [done|]. intros Hx Hy Fy.
  destruct (f z) eqn:Fz.
  - injection Hx as ->. apply elem_of_cons in Hy as [->|Hy]; [done|]. rewrite Forall_forall in F. by apply F.
  - apply elem_of_cons in Hy as [->|Hy]; [congruence|]. by apply IH.
Qed.

(** a partition's merge is the lowest level whose runs reached its trigger,
    and takes every part of that level; with no merge planned, every level is
    below its trigger. *)
Theorem eligible_level_spec config ps :
  match eligible_level config ps with
  | Some (l, g) =>
      g = at_level l ps /\ g <> [] /\ trigger_of config l <= run_count g /\
      forall l', at_level l' ps <> [] -> trigger_of config l' <= run_count (at_level l' ps) -> l <= l'
  | None => forall l, at_level l ps <> [] -> run_count (at_level l ps) < trigger_of config l
  end.
Proof.
  unfold eligible_level. destruct (List.find _ (by_level ps)) as [[l g]|] eqn:F.
  - pose proof F as [Hin T]%List.find_some. apply list_elem_of_In, by_level_In in Hin as [-> N].
    simpl in T. apply Z.leb_le in T. split_and!; try done. intros l' N' T'.
    apply (find_sorted level_le _ _ _ (l', at_level l' ps)) in F; [done|by intros [? ?]; apply Z.le_refl|
      apply by_level_sorted|by apply by_level_In|by apply Z.leb_le].
  - intros l N. assert (Hin : List.In (l, at_level l ps) (by_level ps)).
    { apply list_elem_of_In. by apply by_level_In. }
    apply (List.find_none _ _ F) in Hin. simpl in Hin. by apply Z.leb_gt in Hin.
Qed.

(** What the other proofs use of it. *)
Lemma eligible_Some config ps l g :
  eligible_level config ps = Some (l, g) -> g = at_level l ps /\ g <> [] /\ trigger_of config l <= run_count g.
Proof.
  unfold eligible_level. intros [Hin T]%List.find_some. apply list_elem_of_In, by_level_In in Hin as [-> N].
  simpl in T. apply Z.leb_le in T. done.
Qed.

Lemma eligible_is_Some config ps :
  eligible_level config ps <> None <->
  exists l, at_level l ps <> [] /\ trigger_of config l <= run_count (at_level l ps).
Proof.
  split.
  - destruct (eligible_level config ps) as [[l g]|] eqn:E; [|done]. intros _.
    apply eligible_Some in E as (-> & ? & ?). eauto.
  - intros (l & N & T) E. unfold eligible_level in E.
    assert (Hin : List.In (l, at_level l ps) (by_level ps)) by (apply list_elem_of_In; by apply by_level_In).
    apply (List.find_none _ _ E) in Hin. simpl in Hin. apply Z.leb_gt in Hin. unfold trigger_of in T. lia.
Qed.

(** ** The candidate query and the planner *)

Lemma remove_dups_length {A} `{EqDecision A} (l k : list A) :
  (forall x, x ∈ l <-> x ∈ k) -> length (remove_dups l) = length (remove_dups k).
Proof.
  intros E. apply Permutation_length, NoDup_Permutation; try apply NoDup_remove_dups.
  intros x. by rewrite !elem_of_remove_dups.
Qed.

Lemma filter_map {A B} (f : B -> bool) (g : A -> B) l :
  List.filter f (List.map g l) = List.map g (List.filter (fun x => f (g x)) l).
Proof. induction l as [|x l IH]; simpl; [done|]. rewrite IH. by destruct (f (g x)). Qed.

Section jsonb.
Context `{Jsonb}.

Definition partition_rows (t : Tables) (ht : HypertableId) (p : json) : list PartRow :=
  List.filter (fun r => live_in ht r && in_partition p r) (parts t).

Lemma select_parts_In f t r : r ∈ select_parts f t <-> r ∈ parts t /\ f r = true.
Proof. unfold select_parts. by rewrite (merge_sort_Permutation row_id_le), filter_In_iff. Qed.

(** The parts of a level in the listing, and the query's rows of it. *)
Lemma at_level_rows t ht p l q :
  q ∈ at_level l (live_partition_parts t ht p) <->
  exists r, r ∈ List.filter (fun r => level (pr_meta r) =? l) (partition_rows t ht p) /\ q = part_of_row r.
Proof.
  unfold at_level, live_partition_parts, partition_rows. rewrite filter_In_iff. split.
  - intros [(r & <- & Hr)%list_elem_of_In%List.in_map_iff L]. apply list_elem_of_In, select_parts_In in Hr as [Hr F].
    exists r. split; [|done]. by rewrite !filter_In_iff.
  - intros (r & [[Hr F]%filter_In_iff L]%filter_In_iff & ->). split; [|done].
    apply list_elem_of_In, List.in_map, list_elem_of_In, select_parts_In. done.
Qed.

Lemma run_count_rows t ht p l :
  run_count (at_level l (live_partition_parts t ht p))
  = runs (List.filter (fun r => level (pr_meta r) =? l) (partition_rows t ht p)).
Proof.
  unfold run_count, runs, len. f_equal. apply remove_dups_length. intros c.
  rewrite !list_elem_of_In, !List.in_map_iff. split.
  - intros (q & <- & (r & Hr & ->)%list_elem_of_In%at_level_rows). exists r. split; [done|by apply list_elem_of_In].
  - intros (r & <- & Hr). exists (part_of_row r). split; [done|]. apply list_elem_of_In, at_level_rows.
    exists r. split; [by apply list_elem_of_In|done].
Qed.

(** the catalog's candidate query and the compactor's planner agree: a live
    partition is offered to the ladder exactly when planning on its live parts
    finds a level to merge. *)
Theorem window_and_planner_agree config t ht p :
  p ∈ ladder_eligible t ht (l0_fanout config) (fanout config) <->
  p ∈ live_partitions t ht /\ eligible_level config (live_partition_parts t ht p) <> None.
Proof.
  unfold ladder_eligible. rewrite filter_In_iff, eligible_is_Some, List.existsb_exists.
  fold (partition_rows t ht p). unfold trigger_of. split; intros [Hp (l & A & B)]; (split; [done|]); exists l.
  - apply Z.leb_le in B. fold (trigger_of config l) in *. rewrite run_count_rows. split; [|exact B].
    apply List.in_map_iff in A as (r & <- & Hr). intros E.
    assert (I : part_of_row r ∈ at_level (level (pr_meta r)) (live_partition_parts t ht p)).
    { apply at_level_rows. exists r. split; [|done]. apply filter_In_iff. split; [by apply list_elem_of_In|].
      by rewrite Z.eqb_refl. }
    rewrite E in I. by apply elem_of_nil in I.
  - rewrite run_count_rows in B. split; [|by apply Z.leb_le].
    destruct (at_level l (live_partition_parts t ht p)) as [|q g] eqn:E; [done|].
    assert (I : q ∈ at_level l (live_partition_parts t ht p)) by (rewrite E; left).
    apply at_level_rows in I as (r & [Hr L%Z.eqb_eq]%filter_In_iff & _).
    apply List.in_map_iff. exists r. split; [done|by apply list_elem_of_In].
Qed.
End jsonb.

(** ** Every merge leaves fewer runs *)

(** The runs of some parts: their distinct commits, level by level. *)
Definition level_runs (ps : list Part) : gset (Z * Z) :=
  list_to_set (List.map (fun p => (level (meta p), created_by_commit p)) ps).

Lemma level_runs_In ps l c :
  (l, c) ∈ level_runs ps <-> exists p, p ∈ ps /\ level (meta p) = l /\ created_by_commit p = c.
Proof.
  unfold level_runs. rewrite elem_of_list_to_set, list_elem_of_In, List.in_map_iff. split.
  - intros (p & [= <- <-] & Hp). exists p. by rewrite list_elem_of_In.
  - intros (p & Hp & <- & <-). exists p. by rewrite <- list_elem_of_In.
Qed.

Lemma level_runs_at l ps : Z.of_nat (size (level_runs (at_level l ps))) = run_count (at_level l ps).
Proof.
  unfold run_count, len. f_equal.
  assert (E : level_runs (at_level l ps) =
    list_to_set (pair l <$> remove_dups (List.map created_by_commit (at_level l ps)))).
  { apply set_eq. intros [l' c]. rewrite level_runs_In, elem_of_list_to_set, list_elem_of_fmap. split.
    - intros (p & Hp & <- & <-). pose proof Hp as [_ L%Z.eqb_eq]%filter_In_iff. exists (created_by_commit p).
      split; [by rewrite L|]. apply elem_of_remove_dups, list_elem_of_In, List.in_map. by apply list_elem_of_In.
    - intros (c' & [= -> ->] & Hc). rewrite elem_of_remove_dups in Hc.
      apply list_elem_of_In, List.in_map_iff in Hc as (p & <- & Hp). exists p.
      apply list_elem_of_In in Hp. split; [done|]. by apply filter_In_iff in Hp as [_ L%Z.eqb_eq]. }
  rewrite E, size_list_to_set, length_fmap; [done|].
  apply NoDup_fmap_2; [by intros ? ? [= ->]|apply NoDup_remove_dups].
Qed.

(** A partition's parts before and after a ladder merge: the group gave way to
    one run, a level up. *)
Definition ladder_merge (config : CompactorConfig) (ps ps' : list Part) : Prop :=
  exists l g c, eligible_level config ps = Some (l, g) /\
    forall p, p ∈ ps' -> (p ∈ ps /\ p ∉ g) \/ (level (meta p) = l + 1 /\ created_by_commit p = c).

Lemma ladder_merge_lowers config ps ps' :
  2 <= l0_fanout config -> 2 <= fanout config -> ladder_merge config ps ps' ->
  (size (level_runs ps') < size (level_runs ps))%nat.
Proof.
  intros F0 F1 (l & g & c & (-> & _ & T)%eligible_Some & M).
  assert (T2 : 2 <= run_count (at_level l ps)) by (unfold trigger_of in T; destruct (l =? 0); lia).
  rewrite <- level_runs_at in T2.
  assert (Sub : level_runs (at_level l ps) ⊆ level_runs ps).
  { intros [l' c'] (p & [Hp _]%filter_In_iff & ? & ?)%level_runs_In. apply level_runs_In. eauto. }
  assert (Le : level_runs ps' ⊆ (level_runs ps ∖ level_runs (at_level l ps)) ∪ {[(l + 1, c)]}).
  { intros [l' c'] (p & Hp & <- & <-)%level_runs_In. apply elem_of_union.
    destruct (M p Hp) as [[Hq N]|[-> ->]]; [left|right; by apply elem_of_singleton].
    apply elem_of_difference. split; [apply level_runs_In; eauto|].
    intros (q & [_ L%Z.eqb_eq]%filter_In_iff & E & _)%level_runs_In. apply N, filter_In_iff.
    split; [done|]. apply Z.eqb_eq. congruence. }
  apply subseteq_size in Le. rewrite size_union_alt, size_difference in Le by done.
  pose proof (subseteq_size _ _ Sub). pose proof (size_singleton (C := gset (Z * Z)) (l + 1, c)).
  set (X := {[(l + 1, c)]} ∖ (level_runs ps ∖ level_runs (at_level l ps))) in Le.
  assert (size X <= 1)%nat.
  { unfold X. rewrite <- (size_singleton (C := gset (Z * Z)) (l + 1, c)). apply subseteq_size. set_solver. }
  lia.
Qed.

End CompactorPlan.
