(* ===== verification/SweepSpec.v ===== *)
(** * The rotating sweep is fair (Compactor.sweep over Parts.window_rows)

    What one candidate window promises to its client is [window_ok]; the
    catalog's query keeps it, and against it alone the rotation offers every
    partition that stays claimable within one rotation of the whole. *)

From S2P Require Import Prelude Bytes Json Types CatalogError CatalogDb Commit Leases Feed Parts Batches Merge Rewrite Compactor.
Import CatalogError CatalogDb Leases Feed Parts Rewrite Compactor.

Module SweepSpec.

(** ** Text order *)

Definition text_lt (a b : string) : Prop := String.le a b /\ a <> b.

#[global] Instance text_lt_dec a b : Decision (text_lt a b).
Proof. unfold text_lt. apply _. Defined.

Lemma text_lt_irrefl a : ~ text_lt a a.
Proof. by intros []. Qed.
Lemma text_lt_trans a b c : text_lt a b -> text_lt b c -> text_lt a c.
Proof.
  intros [L1 N1] [L2 N2]. split; [by etransitivity|]. intros ->. apply N1.
  by apply (anti_symm String.le).
Qed.
Lemma text_total a b : text_lt a b \/ a = b \/ text_lt b a.
Proof. destruct (decide (a = b)); [auto|]. destruct (total String.le a b); unfold text_lt; auto. Qed.

Definition past (after : option string) (x : string) : Prop :=
  match after with None => True | Some a => text_lt a x end.
#[global] Instance past_dec after x : Decision (past after x).
Proof. destruct after; simpl; apply _. Defined.

(** Counting the members of a universe of texts. *)
Definition count (P : string -> Prop) `{!forall x, Decision (P x)} (U : list string) : nat := length (filter P U).

Lemma count_le (P Q : string -> Prop) `{!forall x, Decision (P x), !forall x, Decision (Q x)} U :
  (forall x, P x -> Q x) -> (count P U <= count Q U)%nat.
Proof.
  intros S. unfold count. induction U as [|u U IH]; simpl; [lia|]. rewrite !filter_cons.
  destruct (decide (P u)), (decide (Q u)); simpl; (lia || naive_solver).
Qed.

(** Distinct members of [Q] outside [P] widen the count. *)
Lemma count_split (P Q : string -> Prop) `{!forall x, Decision (P x), !forall x, Decision (Q x)} U W :
  NoDup W -> W ⊆ U -> (forall x, P x -> Q x) -> (forall x, x ∈ W -> Q x /\ ~ P x) ->
  (count P U + length W <= count Q U)%nat.
Proof.
  intros N Sub S D. unfold count. rewrite <- length_app. apply submseteq_length.
  assert (E : filter Q U ≡ₚ filter P (filter Q U) ++ filter (fun x => ~ P x) (filter Q U)).
  { clear. induction (filter Q U) as [|x l IH]; [done|]. rewrite !filter_cons.
    destruct (decide (P x)); [rewrite decide_False by tauto|rewrite decide_True by done].
    - simpl. by rewrite <- IH.
    - rewrite IH at 1. by rewrite Permutation_middle. }
  rewrite E. apply submseteq_app.
  - assert (F : filter P (filter Q U) = filter P U); [|by rewrite F].
    clear -S. induction U as [|u U IH]; [done|]. rewrite !filter_cons. destruct (decide (Q u)) as [q|q].
    + rewrite filter_cons. destruct (decide (P u)); by rewrite IH.
    + rewrite decide_False; [done|]. by intros ?%S.
  - apply NoDup_submseteq; [done|]. intros x Hx. destruct (D x Hx). rewrite !list_elem_of_filter.
    split_and!; try done. by apply Sub.
Qed.

Section jsonb.
Context `{Jsonb}.

(** ** What a window promises *)

Record window_ok (claimable : list json) (limit : nat) (after : option string) (w : CandidateWindow) : Prop := {
  wk_length : (length (partitions w) <= limit)%nat;
  wk_claimable : forall p, p ∈ partitions w -> p ∈ claimable /\ past after (jsonb_text p);
  wk_sorted : StronglySorted text_le (partitions w);
  wk_distinct : NoDup (List.map jsonb_text (partitions w));
  wk_complete : forall p, p ∈ claimable -> past after (jsonb_text p) ->
    p ∈ partitions w \/
    (length (partitions w) = limit /\ forall q, q ∈ partitions w -> text_lt (jsonb_text q) (jsonb_text p));
  wk_cursor : next_cursor w = jsonb_text <$> last (partitions w);
}.

Lemma text_gt_past after p : text_gt after p = true <-> past after (jsonb_text p).
Proof. destruct after as [a|]; simpl; [|done]. apply bool_decide_eq_true. Qed.

#[local] Instance text_le_total : Total text_le.
Proof. intros a b. unfold text_le. apply (total String.le). Qed.
#[local] Instance text_le_trans : Transitive text_le.
Proof. intros a b c. unfold text_le. apply (transitivity (R := String.le)). Qed.

Lemma NoDup_map_sublist {A B} (f : A -> B) (l k : list A) : l `sublist_of` k -> NoDup (List.map f k) -> NoDup (List.map f l).
Proof. intros S N. eapply sublist_NoDup; [exact N|]. by apply (fmap_sublist f). Qed.

Lemma from_rows_window e h (ps : list json) :
  let rows : list WindowRow := match ps with
              | [] => [(e, h, None, None)]
              | _ => List.map (fun p => (e, h, Some p, Some (jsonb_text p))) ps
              end in
  partitions (from_rows rows) = ps /\ next_cursor (from_rows rows) = jsonb_text <$> last ps.
Proof.
  destruct ps as [|x ps]; [done|]. intros rows. unfold rows, from_rows. simpl. split.
  - f_equal. induction ps as [|y ps IH]; simpl; [done|]. by rewrite IH.
  - change (fun p => (e, h, Some p, Some (jsonb_text p))) with (fun p : json => (e, h, Some p, Some (jsonb_text p))).
    destruct ps as [|z ps _] using rev_ind; [done|].
    rewrite List.map_app, List.rev_app_distr. simpl. by rewrite app_comm_cons, last_snoc.
Qed.

(** The window query keeps the promise. *)
Lemma window_rows_ok elig t ht owner clock limit after :
  NoDup (List.map jsonb_text elig) ->
  window_ok (List.filter (fun p => negb (peer_holds t ht owner clock p)) elig) (Z.to_nat limit) after
    (from_rows (window_rows elig t ht owner clock limit after)).
Proof.
  intros N. unfold window_rows.
  set (F := List.filter (fun p => negb (peer_holds t ht owner clock p) && text_gt after p) elig). set (S := merge_sort text_le F).
  set (W := firstn (Z.to_nat limit) S). set (e := len elig). set (h := len _).
  assert (Nf : NoDup (List.map jsonb_text F)).
  { unfold F. clear -N. induction elig as [|x l IH]; simpl in *; [done|]. apply NoDup_cons in N as [N1 N2].
    destruct (_ && _); simpl; [|by apply IH]. constructor; [|by apply IH]. intros Hin. apply N1.
    apply list_elem_of_In, List.in_map_iff in Hin as (y & <- & Hy). apply List.filter_In in Hy as [Hy _].
    by apply list_elem_of_In, List.in_map. }
  assert (Ps : S ≡ₚ F) by apply merge_sort_Permutation.
  assert (Ns : NoDup (List.map jsonb_text S)).
  { revert Nf. change (List.map ?f ?l) with (f <$> l). by rewrite Ps. }
  assert (Sp : S = W ++ skipn (Z.to_nat limit) S) by (symmetry; apply take_drop).
  assert (So : StronglySorted text_le S) by (apply StronglySorted_merge_sort; apply _).
  pose proof (from_rows_window e h W) as [Hp Hc]. cbv zeta in Hp, Hc. split; rewrite ?Hp, ?Hc; try done.
  - unfold W. rewrite length_take. lia.
  - intros p Hin. assert (I : p ∈ F) by (rewrite <- Ps, Sp; apply elem_of_app; by left).
    apply filter_In_iff in I as [I [J K]%andb_true_iff]. rewrite filter_In_iff. split_and!; try done.
    by apply text_gt_past.
  - rewrite Sp in So. by apply StronglySorted_app in So as (_ & ? & _).
  - eapply NoDup_map_sublist; [|exact Ns]. apply sublist_take.
  - intros p [I J]%filter_In_iff K. assert (Q : p ∈ S).
    { rewrite Ps. apply filter_In_iff. split; [done|]. rewrite J. by apply text_gt_past. }
    rewrite Sp in Q. apply elem_of_app in Q as [Q|Q]; [by left|right]. split.
    + unfold W. rewrite length_take. assert (length (skipn (Z.to_nat limit) S) <> 0%nat).
      { destruct (skipn _ S); [by apply elem_of_nil in Q|done]. }
      rewrite length_drop in *. lia.
    + intros q Hq. split.
      * rewrite Sp in So. apply StronglySorted_app in So as (C & _ & _). by apply (C q p).
      * intros E. rewrite Sp, List.map_app in Ns. apply NoDup_app in Ns as (_ & D & _).
        apply (D (jsonb_text q)); [by apply list_elem_of_In, List.in_map, list_elem_of_In|].
        rewrite E. by apply list_elem_of_In, List.in_map, list_elem_of_In.
Qed.
(** ** Rotation *)

Section rotation.
Context (U : list string) (L : nat) (p : json).
Hypothesis positive : (0 < L)%nat.
Notation tp := (jsonb_text p).

(** A window over candidates that hold [p] and stay within the universe. *)
Definition good (after : option string) (w : CandidateWindow) : Prop :=
  exists claimable, p ∈ claimable /\ (forall q, q ∈ claimable -> jsonb_text q ∈ U) /\
    window_ok claimable L after w.

Definition between (c : option string) : nat := count (fun x => past c x /\ text_lt x tp) U.
Definition beyond (c : option string) : nat := count (past c) U.

(** Sweeps until [p] is offered, at most. *)
Definition rank (c : option string) : nat :=
  if decide (past c tp) then between c / L + 1 else beyond c / L + between None / L + 2.

Lemma sorted_last {A} (R : A -> A -> Prop) l x y :
  StronglySorted R l -> last l = Some y -> x ∈ l -> R x y \/ x = y.
Proof.
  intros S. induction S as [|z l S IH F]; [done|]. intros E Hx. apply elem_of_cons in Hx as [->|Hx].
  - destruct l as [|w l]; [injection E; auto|]. left. rewrite Forall_forall in F. apply F.
    change (last (z :: w :: l)) with (last (w :: l)) in E. by apply last_Some_elem_of.
  - destruct l as [|w l]; [by apply elem_of_nil in Hx|]. by apply IH.
Qed.

Lemma past_mono c a x : past c a -> past (Some a) x -> past c x.
Proof. destruct c; simpl; [apply text_lt_trans|done]. Qed.

(** A full window's cursor leaves its [L] partitions behind. *)
Lemma full_window c w a (P : string -> Prop) `{!forall x, Decision (P x)} :
  good c w -> length (partitions w) = L -> next_cursor w = Some a ->
  (forall x, x ∈ List.map jsonb_text (partitions w) -> P x) ->
  past c a /\ (count (fun x => past (Some a) x /\ P x) U + L <= count (fun x => past c x /\ P x) U)%nat.
Proof.
  intros (cl & _ & Un & [Wl Wc Ws Wd _ Wn]) Len Nx Hp.
  destruct (last (partitions w)) as [q|] eqn:E; rewrite Nx in Wn; [|done]. injection Wn as ->.
  assert (Hq : q ∈ partitions w) by by apply last_Some_elem_of.
  destruct (Wc q Hq) as [Hc Pa]. split; [done|]. rewrite <- Len at 1. rewrite <- (List.length_map jsonb_text).
  apply count_split; [done| | |].
  - intros x (r & <- & Hr)%list_elem_of_In%List.in_map_iff. apply list_elem_of_In, Wc in Hr as [Hr _]. by apply Un.
  - intros x [H1 H2]. split; [by eapply past_mono|done].
  - intros x Hx. pose proof (Hp x Hx) as Px. apply list_elem_of_In, List.in_map_iff in Hx as (r & <- & Hr).
    apply list_elem_of_In in Hr. split; [by split; [apply Wc|]|]. intros [[Le Ne] _].
    destruct (sorted_last _ _ r q Ws E Hr) as [L1| ->]; [|done]. apply Ne. by apply (anti_symm String.le).
Qed.

Lemma div_step a b : (a + L <= b)%nat -> (a / L < b / L)%nat.
Proof.
  intros Le. assert (a / L + 1 <= b / L)%nat; [|lia]. rewrite <- (Nat.div_add a 1 L) by lia.
  apply Nat.Div0.div_le_mono. lia.
Qed.

Lemma ahead_window c w :
  good c w -> past c tp -> p ∉ partitions w ->
  length (partitions w) = L /\ exists a, next_cursor w = Some a /\ past (Some a) tp /\
    (between (Some a) / L < between c / L)%nat.
Proof.
  intros G Pa N. pose proof G as (cl & Hp & _ & [Wl Wc Ws Wd Wk Wn]).
  destruct (Wk p Hp Pa) as [?|[Len Lt]]; [done|]. split; [done|].
  destruct (last (partitions w)) as [q|] eqn:E; [|apply last_None in E; rewrite E in Len; simpl in Len; lia].
  exists (jsonb_text q). split; [done|]. split; [by apply Lt, last_Some_elem_of|]. apply div_step.
  apply (full_window c w (jsonb_text q) (fun x => text_lt x tp) G Len); [done|].
  intros x (r & <- & Hr)%list_elem_of_In%List.in_map_iff. by apply Lt, list_elem_of_In.
Qed.

Lemma behind_window c w :
  good c w -> ~ past c tp -> length (partitions w) = L ->
  exists a, next_cursor w = Some a /\ ~ past (Some a) tp /\ (beyond (Some a) / L < beyond c / L)%nat.
Proof.
  intros G Pa Len. pose proof G as (cl & Hp & _ & [Wl Wc Ws Wd Wk Wn]).
  destruct (last (partitions w)) as [q|] eqn:E; [|apply last_None in E; rewrite E in Len; simpl in Len; lia].
  exists (jsonb_text q). split; [done|].
  destruct (full_window c w (jsonb_text q) (fun _ => True) G Len Wn ltac:(done)) as [Pq Lt].
  split; [intros ?; by apply Pa; eapply past_mono|]. apply div_step.
  assert (X : forall a, count (fun x => past a x /\ True) U = beyond a).
  { intros a. apply Nat.le_antisymm; apply count_le; naive_solver. }
  by rewrite !X in Lt.
Qed.

(** One sweep, from a cursor to the next: the retry from the head when a
    resumed window is empty, the reset when one is not full. *)
Definition swept (c : option string) (win : CandidateWindow) (c' : option string) : Prop :=
  (exists w1, good c w1 /\
     if bool_decide (is_Some c) && match partitions w1 with [] => true | _ => false end
     then good None win else win = w1) /\
  c' = if (length (partitions win) <? L)%nat then None else next_cursor win.

Lemma rank_None : rank None = (between None / L + 1)%nat.
Proof. unfold rank. by rewrite decide_True. Qed.

Lemma swept_rank c win c' : swept c win c' -> p ∉ partitions win -> (rank c' < rank c)%nat.
Proof.
  intros [(w1 & G & R) ->] N. unfold rank at 2. destruct (decide (past c tp)) as [Pa|Pa].
  - destruct (bool_decide (is_Some c) && _) eqn:B.
    + apply andb_true_iff in B as [_ B]. destruct (partitions w1) as [|x ps] eqn:E; [|done]. exfalso.
      destruct (ahead_window c w1 G Pa) as [Len _]; [rewrite E; apply not_elem_of_nil|]. rewrite E in Len. simpl in Len. lia.
    + subst win. destruct (ahead_window c w1 G Pa N) as (Len & a & Ea & Pn & Lt).
      rewrite Len, Nat.ltb_irrefl, Ea. unfold rank. rewrite decide_True by done. lia.
  - destruct (bool_decide (is_Some c) && _) eqn:B.
    + destruct (ahead_window None win R ltac:(done) N) as (Len & a & Ea & Pn & Lt).
      rewrite Len, Nat.ltb_irrefl, Ea. unfold rank. rewrite decide_True by done. lia.
    + subst win. destruct (Nat.ltb_spec (length (partitions w1)) L) as [Lt|Ge]; [rewrite rank_None; lia|].
      assert (Len : length (partitions w1) = L).
      { destruct G as (cl & _ & _ & Wk). pose proof (wk_length _ _ _ _ Wk). lia. }
      destruct (behind_window c w1 G Pa Len) as (a & Ea & Pn & Lt). rewrite Ea. unfold rank.
      rewrite decide_False by done. lia.
Qed.

Lemma count_disjoint (P Q : string -> Prop) `{!forall x, Decision (P x), !forall x, Decision (Q x)} V :
  (forall x, P x -> Q x -> False) -> (count P V + count Q V <= length V)%nat.
Proof.
  intros D. unfold count. induction V as [|x V IH]; [done|]. rewrite !filter_cons.
  destruct (decide (P x)), (decide (Q x)); simpl; [exfalso; eauto|lia..].
Qed.

Lemma rank_bound c : (rank c <= length U / L + 2)%nat.
Proof.
  unfold rank. destruct (decide (past c tp)) as [Pa|Pa].
  - assert (between c <= length U)%nat by apply length_filter.
    assert (between c / L <= length U / L)%nat by (by apply Nat.Div0.div_le_mono). lia.
  - assert (D : (beyond c + between None <= length U)%nat).
    { apply count_disjoint. intros x Hx [_ Hl]. apply Pa. destruct c as [a|]; simpl in *; [by eapply text_lt_trans|done]. }
    assert (beyond c / L + between None / L <= length U / L)%nat; [|lia].
    transitivity ((beyond c + between None) / L)%nat; [|by apply Nat.Div0.div_le_mono].
    apply Nat.div_le_lower_bound; [lia|]. pose proof (Nat.Div0.mul_div_le (beyond c) L).
    pose proof (Nat.Div0.mul_div_le (between None) L). lia.
Qed.

Lemma offered_within n : forall (cs : nat -> option string) (wins : nat -> CandidateWindow),
  (rank (cs 0%nat) <= n)%nat ->
  (forall i, (i < n)%nat -> swept (cs i) (wins i) (cs (S i))) ->
  exists i, (i < n)%nat /\ p ∈ partitions (wins i).
Proof.
  induction n as [|n IH]; intros cs wins R St.
  - exfalso. unfold rank in R. destruct (decide _); lia.
  - destruct (decide (p ∈ partitions (wins 0%nat))) as [Hin|N]; [exists 0%nat; split; [lia|done]|].
    pose proof (swept_rank _ _ _ (St 0%nat ltac:(lia)) N) as Lt.
    destruct (IH (fun i => cs (S i)) (fun i => wins (S i))) as (i & Hi & Hin); [lia| |].
    + intros i Hi. apply St. lia.
    + exists (S i). split; [lia|done].
Qed.
End rotation.

(** ** The compactor's sweeps *)

(** PostgreSQL reads a [jsonb] back from its text. *)
Definition text_reads_back : Prop := forall a b, jsonb_text a = jsonb_text b -> jsonb_eqb a b = true.

Lemma distinct_partitions_In ps q : q ∈ distinct_partitions ps -> q ∈ ps.
Proof.
  induction ps as [|x ps IH]; simpl; [done|]. intros [->|Hq]%elem_of_cons; [left|].
  apply filter_In_iff in Hq as [Hq _]. right. by apply IH.
Qed.

Lemma distinct_partitions_texts ps : text_reads_back -> NoDup (List.map jsonb_text (distinct_partitions ps)).
Proof.
  intros R. induction ps as [|x ps IH]; simpl; constructor.
  - intros (q & E & Hq)%list_elem_of_In%List.in_map_iff. apply List.filter_In in Hq as [_ Hq].
    by rewrite (R q x E) in Hq.
  - eapply NoDup_map_sublist; [|exact IH]. clear. induction (distinct_partitions ps) as [|q l IH]; simpl; [constructor|].
    destruct (negb _); by constructor.
Qed.

Lemma filter_texts (f : json -> bool) l : NoDup (List.map jsonb_text l) -> NoDup (List.map jsonb_text (List.filter f l)).
Proof.
  apply NoDup_map_sublist. induction l as [|q l IH]; simpl; [constructor|]. destruct (f q); by constructor.
Qed.

Section code.
Context (config : CompactorConfig) (owner_id : Z) (env : nat -> Call) (ht : HypertableId).

Definition elig_of (kind : SweepKind) (c : Call) (t : Tables) : list json :=
  match kind with
  | Ladder => ladder_eligible t ht (l0_fanout config) (fanout config)
  | Finalize => finalize_eligible t ht (call_now c) (quiet_us config)
  end.

Definition window_of (kind : SweepKind) : option string -> M CandidateWindow :=
  match kind with
  | Ladder => ladder_window config owner_id env ht
  | Finalize => finalize_window config owner_id env ht
  end.

(** The catalog states one sweep may read: its query, and its retry. *)
Definition asked (w : World) : list (Call * Tables) :=
  let c1 := env (w_calls w) in
  let d1 := others c1 (w_db w) in
  let c2 := env (S (w_calls w)) in
  [(c1, tables d1); (c2, tables (others c2 d1))].

(** [p] is eligible and no peer holds it, within a universe of partitions. *)
Definition claimable_in (kind : SweepKind) (U : list string) (p : json) (q : Call * Tables) : Prop :=
  p ∈ elig_of kind q.1 q.2 /\ peer_holds q.2 ht owner_id (at_where (call_clock q.1)) p = false /\
  forall x, x ∈ elig_of kind q.1 q.2 -> jsonb_text x ∈ U.

Lemma elig_texts kind c t : text_reads_back -> NoDup (List.map jsonb_text (elig_of kind c t)).
Proof. intros R. destruct kind; apply filter_texts, distinct_partitions_texts, R. Qed.

Lemma window_of_Ok kind after w win w' U p :
  text_reads_back -> 0 < candidate_limit config ->
  window_of kind after w = (Ok win, w') ->
  let c := env (w_calls w) in
  let d := others c (w_db w) in
  w' = with_db w d /\
  (claimable_in kind U p (c, tables d) -> good U (Z.to_nat (candidate_limit config)) p after win).
Proof.
  intros R Hl E c d.
  assert (X : w' = with_db w d /\
    win = from_rows (window_rows (elig_of kind c (tables d)) (tables d) ht owner_id (at_where (call_clock c))
                       (candidate_limit config) after)).
  { destruct kind; simpl in E; unfold ladder_window, finalize_window, catalog_read in E; fold c d in E;
      (destruct (read_error c); [done|]); unfold compaction_candidates, finalize_candidates, limited in E;
      destruct (Z.ltb_spec (candidate_limit config) 0); simpl in E; try lia; injection E as <- <-; done. }
  destruct X as [-> ->]. split; [done|]. intros (Hp & Ph & Un). simpl in *.
  exists (List.filter (fun q => negb (peer_holds (tables d) ht owner_id (at_where (call_clock c)) q))
            (elig_of kind c (tables d))). split_and!.
  - apply filter_In_iff. by rewrite Ph.
  - intros q [Hq _]%filter_In_iff. by apply Un.
  - apply window_rows_ok, elig_texts, R.
Qed.

Lemma cursors_with_db kind w d : cursors_of kind (with_db w d) = cursors_of kind w.
Proof. by destruct kind. Qed.

Lemma rotated_cursor kind w win ran_off :
  0 < candidate_limit config < 2 ^ 64 ->
  cursors_of kind (with_stats (with_cursors_of kind w (rotate config ht win (cursors_of kind w)))
                     (count_sweep config ran_off win (w_stats w))) !! ht
  = if (length (partitions win) <? Z.to_nat (candidate_limit config))%nat then None else next_cursor win.
Proof.
  intros Hl.
  assert (E : rotate config ht win (cursors_of kind w) !! ht
    = if (length (partitions win) <? Z.to_nat (candidate_limit config))%nat then None else next_cursor win).
  { unfold rotate, exhausted, as_usize, len. rewrite Z.mod_small by lia.
    destruct (Z.ltb_spec (Z.of_nat (length (partitions win))) (candidate_limit config)), 
      (Nat.ltb_spec (length (partitions win)) (Z.to_nat (candidate_limit config))); try lia;
      [apply lookup_delete_eq|]. destruct (next_cursor win); [apply lookup_insert_eq|apply lookup_delete_eq]. }
  rewrite <- E. by destruct kind.
Qed.

Lemma sweep_swept kind w win w' U p :
  text_reads_back -> 0 < candidate_limit config < 2 ^ 64 ->
  sweep config kind ht (window_of kind) w = (Ok win, w') ->
  Forall (claimable_in kind U p) (asked w) ->
  swept U (Z.to_nat (candidate_limit config)) p (cursors_of kind w !! ht) win (cursors_of kind w' !! ht).
Proof.
  intros R Hl E [C1 [C2 _]%Forall_cons]%Forall_cons. unfold sweep in E. set (cur := cursors_of kind w !! ht) in *.
  unfold bind in E. destruct (window_of kind cur w) as [[w1|e] wd1] eqn:E1; [|done].
  destruct (window_of_Ok kind cur w w1 wd1 U p R ltac:(lia) E1) as [-> G1].
  destruct (bool_decide (is_Some cur) && _) eqn:B.
  - destruct (window_of kind None _) as [[w2|e] wd2] eqn:E2; [|done].
    destruct (window_of_Ok kind None _ w2 wd2 U p R ltac:(lia) E2) as [-> G2]. injection E as <- <-.
    split; [exists w1; split; [by apply G1|rewrite B; by apply G2]|].
    exact (rotated_cursor kind (with_db (with_db w _) _) w2 _ Hl).
  - unfold ret in E. injection E as <- <-. split; [exists w1; split; [by apply G1|by rewrite B]|].
    exact (rotated_cursor kind (with_db w _) w1 false Hl).
Qed.

(** C21: no partition starves: however hot the others are and whatever the rest
    of the fleet commits between two passes, a partition that stays claimable
    is offered -- by the ladder's sweeps, as by finalization's -- within one
    rotation, which is two sweeps more than the partitions fill windows. *)
Theorem sweep_is_fair kind U p (ws ws' : nat -> World) (wins : nat -> CandidateWindow) :
  text_reads_back -> 0 < candidate_limit config < 2 ^ 64 ->
  let n := (length U / Z.to_nat (candidate_limit config) + 2)%nat in
  (forall i, (i < n)%nat -> sweep config kind ht (window_of kind) (ws i) = (Ok (wins i), ws' i)) ->
  (forall i, cursors_of kind (ws (S i)) !! ht = cursors_of kind (ws' i) !! ht) ->
  (forall i, (i < n)%nat -> Forall (claimable_in kind U p) (asked (ws i))) ->
  exists i, (i < n)%nat /\ p ∈ partitions (wins i).
Proof.
  intros R Hl n Sw Co Cl.
  apply (offered_within U (Z.to_nat (candidate_limit config)) p ltac:(lia) n (fun i => cursors_of kind (ws i) !! ht)).
  - apply rank_bound. lia.
  - intros i Hi. rewrite Co. apply sweep_swept; auto.
Qed.
End code.
End jsonb.
End SweepSpec.

Module SweepExamples.
Import SweepSpec.

(** Partitions named by strings. *)
#[local] Instance text_jsonb : Jsonb.
Proof.
  pose (text v := match v with JString s => s | _ => EmptyString end).
  refine {| jsonb_eqb a b := bool_decide (text a = text b); jsonb_text := text |}.
  - intros a. by apply bool_decide_eq_true.
  - intros a b. apply bool_decide_ext. naive_solver.
  - intros a b c. rewrite !bool_decide_eq_true. congruence.
Defined.

Lemma text_jsonb_reads_back : text_reads_back.
Proof. intros a b E. by apply bool_decide_eq_true. Qed.

Definition l0 (id : Z) (p : string) : PartRow :=
  mkPartRow id 1 (mkPartMeta p (JString p) 0 9 10 100 0 None) None id None None.

(** Partition "a" is hot and first; windows hold one partition. *)
Definition db : DbState :=
  mkDb (with_parts empty_tables [l0 1 "a"; l0 2 "a"; l0 3 "b"; l0 4 "b"]) (seqs empty_db).
Definition one_at_a_time : CompactorConfig := mkConfig "compactor" 2 2 3600 1 60000.
Definition call : Call := mkCall (fun d => d) None 0 (mkClaimClock 0 0 0) Acked.
Definition w0 : World := mkWorld db ∅ 0 0 ∅ ∅ no_stats.

Definition sweep1 (w : World) : result CandidateWindow Merge.CompactorError * World :=
  sweep one_at_a_time Ladder 1 (window_of one_at_a_time 77 (fun _ => call) 1 Ladder) w.

Fixpoint pass (n : nat) : World := match n with O => w0 | S n => (sweep1 (pass n)).2 end.
Definition win (n : nat) : CandidateWindow :=
  match (sweep1 (pass n)).1 with Ok w => w | Err _ => mkWindow [] None 0 0 end.

Example offered : List.map (fun n => partitions (win n)) [0; 1; 2; 3]%nat
  = [[JString "a"]; [JString "b"]; [JString "a"]; [JString "b"]].
Proof. vm_compute. reflexivity. Qed.

Lemma elig_db : ladder_eligible (tables db) 1 2 2 = [JString "a"; JString "b"].
Proof. vm_compute. reflexivity. Qed.

Lemma b_claimable :
  claimable_in one_at_a_time 77 1 Ladder ["a"; "b"]%string (JString "b") (call, tables db).
Proof.
  unfold claimable_in. cbn [elig_of fst snd l0_fanout fanout one_at_a_time]. rewrite elig_db. split_and!.
  - set_solver.
  - reflexivity.
  - intros x Hx. assert (x = JString "a" \/ x = JString "b") as [-> | ->] by set_solver; simpl; set_solver.
Qed.

Lemma asked_db n : (n < 4)%nat -> asked (fun _ => call) (pass n) = [(call, tables db); (call, tables db)].
Proof. intros H. destruct n as [|[|[|[|n]]]]; [vm_compute; reflexivity..|lia]. Qed.

Lemma sweep_pass n : (n < 4)%nat -> sweep1 (pass n) = (Ok (win n), pass (S n)).
Proof. intros H. destruct n as [|[|[|[|n]]]]; [vm_compute; reflexivity..|lia]. Qed.

Lemma sweep_is_fair_witness : exists n, (n < 4)%nat /\ JString "b" ∈ partitions (win n).
Proof.
  apply (sweep_is_fair one_at_a_time 77 (fun _ => call) 1 Ladder ["a"; "b"]%string (JString "b") pass
    (fun n => pass (S n)) win text_jsonb_reads_back).
  - split; reflexivity.
  - exact sweep_pass.
  - reflexivity.
  - intros n H. rewrite asked_db by exact H. constructor; [exact b_claimable|constructor; [exact b_claimable|constructor]].
Defined.

End SweepExamples.
