(* ===== verification/CompactorSpec.v ===== *)
(** * What a compaction promises

    The merge, the writer and the commit composed: a merge that succeeds has
    swapped its group for parts holding exactly the group's rows, in order and
    described by their metadata; one that loses its lease has changed no part;
    and every ladder merge leaves the partition fewer runs. [CompactorExamples]
    runs them on a small lake. *)

From S2P Require Import Prelude Bytes Json Types Arrow Schema Stats Operation CatalogError CatalogDb Commit CommitSpec Leases Feed Parts Pruning CatalogGc Batches Merge MergeSpec PartRead Rewrite RewriteSpec Compactor CompactorPlan CommitExamples Expr.
Import CatalogError CatalogDb CommitSpec CommitTheorems Leases Feed Parts CatalogGc Batches Merge MergeSpec PartRead Rewrite RewriteSpec Compactor CompactorPlan.

Module CompactorSpec.

(** ** Streams all of whose items are readable *)

Section platform.
Context `{Jsonb} `{Platform}.

(** Arrow's gather picks the rows asked for; its row format orders by the
    first sort column first, and an [Int64] column by value. *)
Definition interleave_gathers : Prop :=
  forall bs ix rows, mapM (gather bs) ix = Some rows -> interleave bs ix = Ok rows.
Definition leads_by_first_column : Prop :=
  forall j ix a b x y, int_at j a = Some x -> int_at j b = Some y ->
    row_le (row_key (j :: ix) a) (row_key (j :: ix) b) -> x <= y.

Definition view (item : result RecordBatch CompactorError) : result (list (list Cell)) CompactorError :=
  let? b := item in Ok (batch_rows b).

Lemma input_rows_view streams :
  input_rows (List.map (fun s => mkStream s.1 (List.map view s.2)) streams)
  = concat (List.map stream_rows streams).
Proof.
  unfold input_rows. change (List.map ?f streams) with (f <$> streams). rewrite <- list_fmap_compose. f_equal.
  apply list_fmap_ext. intros _ [p items] _. unfold compose, stream_rows. simpl.
  induction items as [|[b|e] items IH]; simpl; [done|by rewrite IH|done].
Qed.

(** What the merged stream is, when it carries no error. *)
Lemma merge_batches_spec streams schema sort_key ix batches :
  interleave_gathers ->
  mapr (fun n => ok_or (index_of schema n) (MissingColumn n)) sort_key = Ok ix ->
  merge_batches streams schema sort_key = Ok <$> batches ->
  exists rowss, batches = of_rows schema <$> rowss /\
    concat rowss ≡ₚ concat (List.map stream_rows streams) /\
    StronglySorted row_le (List.map (row_key ix) (concat rowss)).
Proof.
  intros Ig Ix. unfold merge_batches. change (fun item => let? b := item in Ok (batch_rows b)) with view.
  set (inputs := List.map (fun s => mkStream s.1 (List.map view s.2)) streams).
  destruct (merge_streams _ _ _ _ inputs schema sort_key) as [outs fin] eqn:Mg. intros E.
  pose proof (input_rows_view streams) as Ir. fold inputs in Ir.
  destruct (init_spec row_le row_key inputs schema sort_key ix Ix) as [R _]. unfold merge_streams in Mg.
  assert (Fin : match fin with Some (Err e) => False | _ => True end).
  { destruct fin as [[u|e]|]; try done. assert (Err e ∈ Ok <$> batches) as Hin.
    { rewrite <- E. apply elem_of_app. right. left. }
    by apply list_elem_of_fmap in Hin as (b & [=] & _). }
  assert (Eo : batches = of_rows schema <$> outs).
  { apply (list_fmap_eq_inj (@Ok RecordBatch CompactorError) _). rewrite <- E, <- list_fmap_compose.
    destruct fin as [[u|e]|]; [|done|]; apply app_nil_r. }
  exists outs. split; [done|].
  destruct (init row_le row_key inputs schema sort_key) as [st|e] eqn:I; [|by injection Mg as _ <-].
  destruct R as (W & Ixs & A & G). apply (unfold_merge_spec row_le row_key interleave Ig) in Mg as (_ & S & _ & C); [|done].
  unfold keys in S. rewrite Ixs in S. rewrite <- Ir, <- A. destruct fin as [[[]|e]|].
  - by destruct C as [_ C].
  - done.
  - rewrite A, Ir in C. lia.
Qed.

(** The writer only succeeds on a stream without errors. *)
Lemma consume_stream_readable next on ip es fr ft hs ser enc un schema opts pl pk sk items w w' :
  consume_stream ip es fr ft hs ser enc un next on schema opts pl pk sk items w = (Ok tt, w') ->
  exists batches, items = Ok <$> batches.
Proof.
  revert w. induction items as [|[b|e] items IH]; intros w E; simpl in E; [by exists []| |done].
  destruct (split_by_key un b pk) as [runs|e]; [|done].
  apply w_bind_Ok in E as ([] & w1 & _ & E). destruct (IH _ E) as [bs ->]. by exists (b :: bs).
Qed.

Lemma write_readable next on ip es fr ft hs ser enc un schema opts pl pk sk items outs w :
  write ip es fr ft hs ser enc un next on schema opts pl pk sk items = (Ok outs, w) ->
  exists batches, items = Ok <$> batches.
Proof.
  unfold write. destruct (w_bind _ _ new_writer) as [[[]|e] w1] eqn:E; [|done]. intros _.
  apply w_bind_Ok in E as ([] & w0 & E & _). by eapply consume_stream_readable.
Qed.

(** ** Keys of merged rows *)

(** Every row has a packing key. *)
Definition keyed_rows (j : nat) (rows : list (list Cell)) : Prop :=
  Forall (fun r => is_Some (int_at j r)) rows.

Definition keys_of (j : nat) (rows : list (list Cell)) : list Z := omap (int_at j) rows.

Lemma keys_of_some j rows : keyed_rows j rows -> List.map (int_at j) rows = Some <$> keys_of j rows.
Proof. induction 1 as [|r rows [k K] _ IH]; simpl; [done|]. rewrite K. simpl. by rewrite IH. Qed.

Lemma keys_sorted j ix rows :
  leads_by_first_column -> keyed_rows j rows -> StronglySorted row_le (List.map (row_key (j :: ix)) rows) ->
  StronglySorted Z.le (keys_of j rows).
Proof.
  intros Ld K. induction K as [|r rows [k Hk] K IH]; simpl; [constructor|].
  intros [S F]%StronglySorted_inv. rewrite Hk. simpl. constructor; [by apply IH|].
  apply Forall_forall. intros y Hy. unfold keys_of in Hy. apply list_elem_of_omap in Hy as (r' & Hr' & Hy).
  rewrite Forall_forall in F. eapply (Ld j ix r r'); [done|done|]. apply F.
  by apply list_elem_of_In, List.in_map, list_elem_of_In.
Qed.

Lemma keys_concat j rowss : keys_of j (concat rowss) = concat (keys_of j <$> rowss).
Proof. unfold keys_of. induction rowss as [|r rowss IH]; simpl; [done|]. by rewrite omap_app, IH. Qed.

(** ** One file's metadata is a part's *)

Lemma meta_describes s pk o obj partition lvl :
  distinct_names s -> describes_file tm_serialize b64_encode s pk o obj ->
  Pruning.describes tm_serialize b64_encode (meta_of_output partition lvl o) (file_batch s obj.2) pk.
Proof.
  intros Dn (_ & _ & ks & _ & B & V & _ & R & _ & _ & St). destruct (St Dn) as (bm & sp & Es & Hb).
  split; simpl.
  - apply B.
  - by rewrite (ok_schema _ _ _ B).
  - intros i v (idx & vs & Hi & Hc & Hv). unfold column_values in V. rewrite Hi in V. simpl in V.
    rewrite Hc in V. simpl in V. injection V as ->. rewrite list_lookup_fmap in Hv.
    destruct (ks !! i) as [k|] eqn:K; simpl in Hv; [|done]. injection Hv as ->.
    rewrite Forall_forall in R. apply R. by eapply list_elem_of_lookup_2.
  - by exists bm, sp.
Qed.

(** ** The steps of a merge *)

Section merge.
Context (me : MergeEnv) (ttl : Z) (lease : Commit.CompactionLease) (hypertable : Hypertable).
Notation ht := (ht_id hypertable).

(** A relation that everything around the merge's own REPLACE keeps: what
    others commit, the renewals and the intents. *)
Context (R : DbState -> DbState -> Prop) `{!PreOrder R}.
Hypothesis peers_R : forall n d, R d (peers me n d).
Hypothesis ticks_R : forall n t d, t ∈ ticks me n -> R d (tick_others t d).
Hypothesis renew_R : forall c d, R d (renew_compaction_lease c lease ttl d).2.
Hypothesis register_R : forall ps now d, R d (register_pending_objects ht ps now d).2.

Lemma autocommit_R {A} o (f : DbState -> result A CatalogError * DbState) d :
  R d (f d).2 -> R d (autocommit o f d).2.
Proof. by destruct o as [|e []]. Qed.

Lemma renewals_R n ts d r d' :
  (forall t, t ∈ ts -> t ∈ ticks me n) -> renew_until_cancelled ttl lease ts d = (r, d') -> R d d'.
Proof.
  revert d. induction ts as [|t ts IH]; intros d Sub E; simpl in E; [by injection E as <- <-|].
  assert (T : R d (tick_others t d)) by (apply (ticks_R n), Sub; left).
  pose proof (autocommit_R (tick_outcome t) (renew_compaction_lease (tick_clock t) lease ttl) (tick_others t d) (renew_R _ _)) as A.
  destruct (autocommit _ _ _) as [[[l|]|e] d1]; simpl in A.
  - etransitivity; [exact T|]. etransitivity; [exact A|]. apply (IH d1); [|done]. intros t' Ht. apply Sub. by right.
  - injection E as <- <-. by etransitivity.
  - injection E as <- <-. by etransitivity.
Qed.

Lemma raced_Ok {A} n (call : DbState -> A * DbState) d a d' :
  raced me ttl lease n call d = (Ok a, d') -> exists d1, R d d1 /\ call d1 = (a, d').
Proof.
  unfold raced. destruct (renew_until_cancelled _ _ _ _) as [[[]|lost] d1] eqn:E; [|done].
  apply (renewals_R n) in E; [|done]. destruct (call (peers me n d1)) as [a' d2] eqn:C. intros [= <- <-].
  exists (peers me n d1). split; [by etransitivity|done].
Qed.

Lemma raced_Err {A} n (call : DbState -> A * DbState) d lost d' :
  raced me ttl lease n call d = (Err lost, d') ->
  exists d1, R d d1 /\ (d' = d1 \/ d' = (call d1).2).
Proof.
  unfold raced. destruct (renew_until_cancelled _ _ _ _) as [[[]|l] d1] eqn:E.
  - by destruct (call (peers me n d1)).
  - apply (renewals_R n) in E; [|done]. intros [= <- <-]. destruct (in_flight me n).
    + exists (peers me n d1). split; [by etransitivity|by right].
    + exists d1. auto.
Qed.

Lemma register_all_R n paths d r k d' :
  register_all me ttl lease ht n paths d = (r, k, d') -> R d d'.
Proof.
  revert n d. induction paths as [|p paths IH]; intros n d E; simpl in E; [by injection E as <- <- <-|].
  assert (C : forall d1, R d1 (autocommit (intent me p).1 (register_pending_objects ht [p] (intent me p).2) d1).2)
    by (intros; by apply autocommit_R).
  destruct (raced _ _ _ _ _ d) as [[a|lost] d1] eqn:Rc.
  - apply raced_Ok in Rc as (d2 & R2 & E2). etransitivity; [exact R2|]. etransitivity; [apply C|].
    rewrite E2. by apply (IH _ _ E).
  - injection E as <- <- <-. apply raced_Err in Rc as (d2 & R2 & [->| ->]); [done|]. by etransitivity.
Qed.

Definition replace_at (identity : Operation.OperationIdentity) (group : list Part) (lvl : Z) (outs : list ChunkOutput)
    (d : DbState) : result CommitResult CatalogError * DbState * Z :=
  let partition := match group with p :: _ => partition_values (meta p) | [] => JNull end in
  Commit.commit_txn b64_decode tm_deserialize (commit_tx me) ht
    (Replace (List.map part_id group) (List.map (meta_of_output partition lvl) outs))
    (Some identity) [] (Some lease) 0 d.

(** What lies behind [Finished (Ok n)]. *)
Lemma merge_parts_Ok identity group lvl d store n d' store' :
  merge_parts me ttl lease hypertable identity group lvl d store = (Finished (Ok n), d', store') ->
  exists cols streams known outs w d1 r f,
    Schema.parse (table_schema hypertable) = Ok cols /\
    part_streams read_object store (Schema.physical_schema cols) cols
      group = Ok streams /\
    write_merged me hypertable known cols lvl
      (merge_batches streams (Schema.physical_schema cols) (sort_key hypertable)) = (Ok outs, w) /\
    store' = add_objects (objects w) store /\ n = len outs /\ R d d1 /\
    replace_at identity group lvl outs d1 = (Ok r, d', f).
Proof.
  unfold merge_parts. destruct (raced me ttl lease 0 _ d) as [[[]|e] d0] eqn:R0; [|done].
  apply raced_Ok in R0 as (d0' & R0 & E0). injection E0 as ->.
  destruct (map_err SchemaErr _) as [cols|e] eqn:Pc; simpl; [|done].
  destruct (part_streams _ _ _ _ _) as [streams|e] eqn:Ps; simpl; [|done].
  destruct (write_merged _ _ _ _ _ _) as [r w] eqn:W.
  destruct (register_all _ _ _ _ _ _ _) as [[[[]|e] k] d2] eqn:Rg; [|done]. apply register_all_R in Rg.
  destruct r as [outs|e]; [|done].
  destruct (raced me ttl lease k _ d2) as [[[res|e]|e] d3] eqn:Rc; [|done|done].
  intros [= <- <- <-]. apply raced_Ok in Rc as (d1 & R1 & Rc).
  destruct (Commit.commit_compaction_replace _ _ _ _ _ _ _ _ _ _) as [[r1 d4] f] eqn:Cm. injection Rc as -> ->.
  eexists cols, streams, _, outs, w, d1, res, f. split_and!; try done.
  - destruct (Schema.parse _); [by injection Pc as ->|done].
  - unfold len. by rewrite List.length_map.
  - etransitivity; [exact R0|]. by etransitivity.
Qed.

(** And behind [Abandoned]: at most a cut-off REPLACE took effect. *)
Lemma merge_parts_Abandoned identity group lvl d store lost d' store' :
  merge_parts me ttl lease hypertable identity group lvl d store = (Abandoned lost, d', store') ->
  (exists objs, store' = add_objects objs store) /\
  (R d d' \/ exists outs d1, R d d1 /\ d' = (replace_at identity group lvl outs d1).1.2).
Proof.
  unfold merge_parts. destruct (raced me ttl lease 0 _ d) as [[[]|e] d0] eqn:R0.
  2:{ intros [= <- <- <-]. apply raced_Err in R0 as (d1 & R1 & E). split; [by exists []|left].
      by destruct E as [->| ->]. }
  apply raced_Ok in R0 as (d0' & R0 & E0). injection E0 as ->.
  destruct (let? cols := map_err SchemaErr _ in _) as [[cols streams]|e]; [|done].
  destruct (write_merged _ _ _ _ _ _) as [r w].
  destruct (register_all _ _ _ _ _ _ _) as [[[[]|e] k] d2] eqn:Rg; apply register_all_R in Rg.
  2:{ intros [= <- <- <-]. split; [eauto|left]. by etransitivity. }
  destruct r as [outs|e]; [|done].
  destruct (raced me ttl lease k _ d2) as [[[res|e]|e] d3] eqn:Rc; [done|done|].
  intros [= <- <- <-]. split; [eauto|]. apply raced_Err in Rc as (d1 & R1 & [->| ->]).
  - left. etransitivity; [exact R0|]. by etransitivity.
  - right. exists outs, d1. split; [etransitivity; [exact R0|]; by etransitivity|].
    unfold replace_at, Commit.commit_compaction_replace. by destruct (Commit.commit_txn _ _ _ _ _ _ _ _ _ _) as [[? ?] ?].
Qed.
End merge.

(** No part or commit changed, and no intent was lost. *)
Definition kept (d d' : DbState) : Prop :=
  parts (tables d') = parts (tables d) /\ commits (tables d') = commits (tables d) /\
  forall x, x ∈ pending_objects (tables d) -> x ∈ pending_objects (tables d').

#[export] Instance kept_preorder : PreOrder kept.
Proof.
  split; [by intros d|]. intros a b c (A1 & A2 & A3) (B1 & B2 & B3). split_and!; [congruence..|]. auto.
Qed.

Lemma renew_kept lease ttl c d : kept d (renew_compaction_lease c lease ttl d).2.
Proof. unfold renew_compaction_lease. by destruct (ttl_millis ttl). Qed.

Lemma register_path_kept ht now ps rows x :
  x ∈ rows -> x ∈ List.fold_left (register_path ht now) ps rows.
Proof.
  revert rows. induction ps as [|p ps IH]; intros rows Hx; simpl; [done|]. apply IH. unfold register_path.
  destruct (List.existsb _ rows); [done|]. apply elem_of_app. by left.
Qed.

Lemma register_kept ht ps now d : kept d (register_pending_objects ht ps now d).2.
Proof.
  unfold register_pending_objects. destruct ps as [|p ps]; [done|]. destruct (List.existsb _ _); [|done].
  split_and!; try done. intros x Hx. by apply register_path_kept.
Qed.

(** ** What happens to the catalog around a merge

    Before its REPLACE a merge only lets others commit and its lease's renewals
    and intents be recorded; [rtc] of these steps relates the catalog it found
    to the one its REPLACE ran against. *)
Inductive merge_step (me : MergeEnv) (ttl : Z) (lease : Commit.CompactionLease) (ht : HypertableId)
  : DbState -> DbState -> Prop :=
| step_peers n d : merge_step me ttl lease ht d (peers me n d)
| step_tick n t d : t ∈ ticks me n -> merge_step me ttl lease ht d (tick_others t d)
| step_renew c d : merge_step me ttl lease ht d (renew_compaction_lease c lease ttl d).2
| step_intents ps now d : merge_step me ttl lease ht d (register_pending_objects ht ps now d).2.

(** The merge's own steps touch neither parts nor commits. *)
Lemma merge_step_kept me ttl lease ht d d1 :
  (forall n d, kept d (peers me n d)) -> (forall n t d, t ∈ ticks me n -> kept d (tick_others t d)) ->
  rtc (merge_step me ttl lease ht) d d1 -> kept d d1.
Proof.
  intros Pk Tk. apply rtc_within; [apply _|]. intros a b [n x|n t x Ht|c x|ps now x]; eauto using renew_kept, register_kept.
Qed.

(** A part of a table's files: its rows and what its metadata says of them. *)
Record merged_files (s : ArrowSchema) (pk : string) (partition : json) (lvl : Z)
    (rows : list (list Cell)) (metas : list PartMeta) (objs : list (string * list WriterCall)) : Prop := {
  mf_rows : cat s (concat ((fun obj => written obj.2) <$> objs)) = of_rows s rows;
  mf_metas : Forall2 (fun m obj => path m = obj.1 /\ level m = lvl /\ partition_values m = partition /\
    row_count m = Z.of_nat (num_rows (file_batch s obj.2)) /\
    (distinct_names s -> Pruning.describes tm_serialize b64_encode m (file_batch s obj.2) pk)) metas objs;
}.

Lemma write_merged_spec me hypertable known cols lvl streams outs w j f ix partition :
  interleave_gathers -> leads_by_first_column ->
  let s := Schema.physical_schema cols in
  let pk := packing_key hypertable in
  index_of s pk = Some j -> s !! j = Some f -> f_type f = Int64 ->
  mapr (fun n => ok_or (index_of s n) (MissingColumn n)) (sort_key hypertable) = Ok (j :: ix) ->
  keyed_rows j (concat (List.map stream_rows streams)) ->
  write_merged me hypertable known cols lvl (merge_batches streams s (sort_key hypertable)) = (Ok outs, w) ->
  exists rows, rows ≡ₚ concat (List.map stream_rows streams) /\
    StronglySorted row_le (List.map (row_key (j :: ix)) rows) /\
    merged_files s pk partition lvl rows (List.map (meta_of_output partition lvl) outs) (objects w).
Proof.
  intros Ig Ld s pk Ij Hf Tf Ix K W. unfold write_merged in W.
  destruct (write_readable _ _ _ _ _ _ _ _ _ _ _ _ _ _ _ _ _ _ W) as [batches E]. rewrite E in W.
  destruct (merge_batches_spec streams s (sort_key hypertable) (j :: ix) batches Ig Ix E) as (rowss & -> & P & S).
  assert (K' : keyed_rows j (concat rowss)) by (unfold keyed_rows; by rewrite P).
  assert (Ns : s <> []) by (intros Z; rewrite Z in Hf; done).
  assert (F : Forall2 (keyed s pk) (of_rows s <$> rowss) (keys_of j <$> rowss)).
  { apply Forall_concat in K'. clear -K' Ij Hf Tf. induction K' as [|rows rowss K _ IH]; simpl; constructor; [|done].
    exists (length rows). split; [apply of_rows_ok|].
    rewrite (column_values_of_rows s rows pk j f Ij Hf Tf). by rewrite keys_of_some. }
  assert (Sz : StronglySorted Z.le (concat (keys_of j <$> rowss))).
  { rewrite <- keys_concat. by eapply keys_sorted. }
  eapply write_spec in W as (-> & C & D & _); [|done|exact F|exact Sz].
  exists (concat rowss). split; [done|]. split; [done|]. split.
  - etransitivity; [exact C|]. symmetry. apply of_rows_concat.
  - clear -D Ns. apply Forall2_fmap_l. eapply Forall2_impl; [exact D|]. intros o obj Do.
    pose proof Do as (Ep & _ & ks & _ & B & _ & Rc & _).
    split_and!; try done; [simpl; rewrite Rc; unfold len; f_equal; symmetry; exact (ok_num_rows _ _ _ Ns B)|].
    intros Dn. by apply meta_describes.
Qed.
(** ** The rows of a partition survive *)

(** The packing key is an [Int64] column and leads the sort key. *)
Record table_ok (hypertable : Hypertable) (cols : Schema.TableColumns) (j : nat) (ix : list nat) : Prop := {
  to_cols : Schema.parse (table_schema hypertable) = Ok cols;
  to_key : index_of (Schema.physical_schema cols) (packing_key hypertable) = Some j;
  to_int64 : exists f, Schema.physical_schema cols !! j = Some f /\ f_type f = Int64;
  to_sort : mapr (fun n => ok_or (index_of (Schema.physical_schema cols) n) (MissingColumn n))
              (sort_key hypertable) = Ok (j :: ix);
}.

(** C4: compaction conserves rows end to end: when a merge succeeds, the files
    it stored hold exactly the rows of the group's parts, in sort-key order;
    each new part's metadata counts and describes its file, so that pruning is
    sound for it.  The catalog its REPLACE ran against is the one it found, but
    for what others committed, its renewals and its intents -- so with the same
    parts and commits where the others leave those alone -- and there, either
    every part of the group was live and the lease still held, and the group
    gave way in one commit to exactly the new parts, or this very operation had
    been applied before and nothing changed. *)
Theorem compaction_conserves_rows me ttl lease hypertable identity group lvl d store n d' store' cols j ix streams :
  honest (commit_tx me) -> interleave_gathers -> leads_by_first_column ->
  table_ok hypertable cols j ix ->
  part_streams read_object store (Schema.physical_schema cols) cols
    group = Ok streams ->
  keyed_rows j (concat (List.map stream_rows streams)) ->
  merge_parts me ttl lease hypertable identity group lvl d store = (Finished (Ok n), d', store') ->
  let s := Schema.physical_schema cols in
  let partition := match group with p :: _ => partition_values (meta p) | [] => JNull end in
  let ht := ht_id hypertable in
  exists rows metas objs d1,
    rows ≡ₚ concat (List.map stream_rows streams) /\
    StronglySorted row_le (List.map (row_key (j :: ix)) rows) /\
    merged_files s (packing_key hypertable) partition lvl rows metas objs /\
    store' = add_objects objs store /\ n = len metas /\
    rtc (merge_step me ttl lease ht) d d1 /\
    ((forall n d, kept d (peers me n d)) -> (forall n t d, t ∈ ticks me n -> kept d (tick_others t d)) -> kept d d1) /\
    ((exists id, tables d' = tables d1 /\ already ht (Some identity) (tables d1) id) \/
     exists id,
       applied b64_decode tm_deserialize (commit_tx me) ht (Replace (List.map part_id group) metas)
         (Some identity) [] (Some lease) d1 d' id /\
       exists new, List.map pr_meta new = metas /\
         forall r, r ∈ live_rows ht (tables d') <->
           (r ∈ live_rows ht (tables d1) /\ pr_id r ∉ List.map part_id group) \/ r ∈ new).
Proof.
  intros Hon Ig Ld [Pc Ij (f & Hf & Tf) Ix] Ps K E s partition ht.
  apply (merge_parts_Ok me ttl lease hypertable (rtc (merge_step me ttl lease ht))) in E;
    [|intros; apply rtc_once; by econstructor..].
  destruct E as (cols' & streams' & known & outs & w & d1 & r & fl & Pc' & Ps' & W & -> & -> & Mw & C).
  assert (cols' = cols) as -> by congruence. assert (streams' = streams) as -> by congruence.
  destruct (write_merged_spec me hypertable known cols lvl streams outs w j f ix partition Ig Ld Ij Hf Tf Ix K W)
    as (rows & P & S & Mf).
  exists rows, (List.map (meta_of_output partition lvl) outs), (objects w), d1. split_and!; try done.
  - unfold len. by rewrite List.length_map.
  - intros Pk Tk. by eapply merge_step_kept.
  - apply commit_txn_cases in C; [|done]. destruct r as [id|id]; [right|left; by exists id].
    exists id. split; [exact C|].
    exists (fresh_rows b64_decode tm_deserialize (parts_id_seq (seqs d1)) ht id
              (List.map (meta_of_output partition lvl) outs)). split; [apply fresh_rows_metas|].
    intros r. exact (applied_live b64_decode tm_deserialize _ _ _ _ _ _ _ _ _ r C).
Qed.

(** ** Losing the lease *)

Lemma add_objects_kept objs store p : is_Some (store !! p) -> is_Some (add_objects objs store !! p).
Proof.
  unfold add_objects. revert store. induction objs as [|o objs IH]; intros store Hs; simpl; [done|]. apply IH.
  destruct (decide (o.1 = p)) as [->|]; [by rewrite lookup_insert_eq|by rewrite lookup_insert_ne].
Qed.

(** C19: losing a lease mid-merge is harmless: whenever the renewal loop drops the
    merge, no object is deleted and, if the other processes leave the parts
    alone meanwhile, no part, no commit and no upload intent is gone -- unless
    the REPLACE itself was in flight, and then the catalog is as that one
    fenced transaction leaves it: its whole effect or nothing. *)
Theorem lost_lease_is_harmless me ttl lease hypertable identity group lvl d store lost d' store' :
  honest (commit_tx me) ->
  (forall n d, kept d (peers me n d)) -> (forall n t d, t ∈ ticks me n -> kept d (tick_others t d)) ->
  merge_parts me ttl lease hypertable identity group lvl d store = (Abandoned lost, d', store') ->
  (forall p, is_Some (store !! p) -> is_Some (store' !! p)) /\
  (kept d d' \/
   exists d1 metas, kept d d1 /\
     (tables d' = tables d1 \/
      tables d' = effect b64_decode tm_deserialize (commit_tx me) (commits_id_seq (seqs d1) + 1) (ht_id hypertable)
        (Replace (List.map part_id group) metas) (Some identity) [] d1 /\
      fence_holds (commit_tx me) (ht_id hypertable) lease (Replace (List.map part_id group) metas) (tables d1))).
Proof.
  intros Hon Pk Tk E. apply (merge_parts_Abandoned me ttl lease hypertable kept) in E;
    [|done|exact Tk|intros; apply renew_kept|intros; apply register_kept].
  destruct E as [[objs ->] E]. split; [intros p; apply add_objects_kept|].
  destruct E as [E|(outs & d1 & K & ->)]; [by left|right]. exists d1. eexists. split; [exact K|].
  unfold replace_at. destruct (Commit.commit_txn _ _ _ _ _ _ _ _ _ _) as [[r d2] f] eqn:C. simpl.
  apply commit_txn_cases in C; [|done]. destruct r as [[id|id]|e].
  - right. destruct C as (-> & _ & _ & _ & T & _ & _ & _ & _ & Fe). split; [exact T|by apply Fe].
  - left. by destruct C.
  - destruct C as [C|(id & (-> & _ & _ & _ & T & _ & _ & _ & _ & Fe) & _)]; [by left|right].
    split; [exact T|by apply Fe].
Qed.
(** ** The ladder quiesces *)

Lemma live_partition_In t ht p q :
  q ∈ live_partition_parts t ht p <->
  exists r, r ∈ live_rows ht t /\ in_partition p r = true /\ q = part_of_row r.
Proof.
  unfold live_partition_parts. rewrite list_elem_of_In, List.in_map_iff. unfold live_rows. split.
  - intros (r & <- & Hr%list_elem_of_In). apply select_parts_In in Hr as [Hr [L I]%andb_true_iff].
    exists r. split_and!; try done. by apply filter_In_iff.
  - intros (r & [Hr L]%filter_In_iff & I & ->). exists r. split; [done|]. apply list_elem_of_In, select_parts_In.
    split; [done|]. unfold live_in. by rewrite L, I.
Qed.

Lemma live_partition_parts_ext t t' ht p :
  parts t = parts t' -> live_partition_parts t ht p = live_partition_parts t' ht p.
Proof. unfold live_partition_parts, select_parts. by intros ->. Qed.

Lemma wrap_i16_id z : - 2 ^ 15 <= z < 2 ^ 15 -> wrap_i16 z = z.
Proof. intros. unfold wrap_i16. rewrite Z.mod_small; lia. Qed.

Lemma replace_ladder_merge config me hypertable lease identity ps l g outs d1 d' id f :
  honest (commit_tx me) ->
  eligible_level config ps = Some (l, g) -> - 2 ^ 15 <= l + 1 < 2 ^ 15 ->
  ps = live_partition_parts (tables d1) (ht_id hypertable) (Commit.ls_partition_values lease) ->
  replace_at me lease hypertable identity g (wrap_i16 (l + 1)) outs d1 = (Ok (Committed id), d', f) ->
  ladder_merge config ps
    (live_partition_parts (tables d') (ht_id hypertable) (Commit.ls_partition_values lease)).
Proof.
  intros Hon El Hl Eps C. unfold replace_at in C. apply commit_txn_cases in C; [|done].
  exists l, g, id. split; [done|]. intros p (r & Hr & I & ->)%live_partition_In.
  apply (applied_live b64_decode tm_deserialize _ _ _ _ _ _ _ _ _ r C) in Hr as [[Hr N]|Hr].
  - left. split; [rewrite Eps; apply live_partition_In; eauto|]. intros Hg. apply N. simpl.
    apply list_elem_of_In, List.in_map_iff. exists (part_of_row r). split; [done|by apply list_elem_of_In].
  - right. apply fresh_rows_In in Hr as (_ & _ & Cr & _ & M & _). simpl in M.
    apply list_elem_of_In, List.in_map_iff in M as (o & Mo & _). simpl.
    rewrite <- Mo. simpl. by rewrite wrap_i16_id.
Qed.

Lemma catalog_read_Ok {A} env (f : Call -> Tables -> result A CatalogError) w a w' :
  catalog_read env f w = (Ok a, w') ->
  f (env (w_calls w)) (tables (others (env (w_calls w)) (w_db w))) = Ok a /\
  w' = with_db w (others (env (w_calls w)) (w_db w)).
Proof.
  unfold catalog_read. destruct (read_error _); [done|]. simpl. destruct (f _ _); [|done]. by intros [= -> <-].
Qed.

(** merging makes progress: with sane triggers and nobody else touching the
    parts, a merge that [compact_partition] counts leaves the partition strictly
    fewer runs, level by level -- so the ladder comes to rest after at most as
    many merges as there were runs -- unless the catalog had already recorded
    this very operation. *)
Theorem ladder_merge_makes_progress config env merges hypertable lease w w' :
  2 <= l0_fanout config -> 2 <= fanout config ->
  (forall n, honest (commit_tx (merges n))) ->
  (forall n d, kept d (others (env n) d)) ->
  (forall m n d, kept d (peers (merges m) n d)) ->
  (forall m n t d, t ∈ ticks (merges m) n -> kept d (tick_others t d)) ->
  (forall r, r ∈ parts (tables (w_db w)) -> - 2 ^ 15 <= level (pr_meta r) < 2 ^ 15 - 1) ->
  compact_partition config env merges hypertable lease w = (Ok tt, w') ->
  merged_groups (w_stats w') <> merged_groups (w_stats w) ->
  let ps w := live_partition_parts (tables (w_db w)) (ht_id hypertable) (Commit.ls_partition_values lease) in
  parts (tables (w_db w')) = parts (tables (w_db w)) \/
  (size (level_runs (ps w')) < size (level_runs (ps w)))%nat.
Proof.
  intros F0 F1 Hon Ok1 Pk Tk Lv E Mg ps. unfold compact_partition, bind in E.
  destruct (catalog_read _ _ w) as [[got|e] w0] eqn:Rd; [|done].
  apply catalog_read_Ok in Rd as [Got ->]. injection Got as <-.
  set (d0 := others (env (w_calls w)) (w_db w)) in *.
  assert (P0 : parts (tables d0) = parts (tables (w_db w))) by apply Ok1.
  assert (Eps : live_partition_parts (tables d0) (ht_id hypertable) (Commit.ls_partition_values lease) = ps w)
    by (by apply live_partition_parts_ext).
  rewrite Eps in E. destruct (eligible_level config (ps w)) as [[l g]|] eqn:El; [|by injection E as <-].
  unfold merge_under_lease in E.
  destruct (compaction_identity_for _ _ _) as [identity|e] eqn:Id.
  2:{ exfalso. unfold compaction_identity_for in Id. destruct g; [by injection Id as <-|].
      destruct (Operation.compaction _ _ _); [done|]. by injection Id as <-. }
  destruct (merge_parts _ _ _ _ _ _ _ _ _) as [[fin d1] st] eqn:M.
  destruct fin as [[n|e]|lost].
  - injection E as E. subst w'. simpl.
    apply (merge_parts_Ok _ _ _ _ kept) in M; [|apply Pk|apply Tk|intros; apply renew_kept|intros; apply register_kept].
    destruct M as (cols & streams & known & outs & wr & d2 & r & f & _ & _ & _ & _ & _ & K & C).
    assert (P2 : parts (tables d2) = parts (tables (w_db w))) by (destruct K as [-> _]; exact P0).
    destruct r as [id|id].
    + right. eapply ladder_merge_lowers; [done|done|]. eapply replace_ladder_merge; [apply Hon|exact El| | |exact C].
      * apply eligible_Some in El as (-> & Ne & _). destruct (at_level l (ps w)) as [|q g] eqn:Eg; [done|].
        assert (Hq : q ∈ at_level l (ps w)) by (rewrite Eg; left).
        apply filter_In_iff in Hq as [(r & Hr & _ & ->)%live_partition_In L%Z.eqb_eq]. simpl in L.
        apply live_rows_spec in Hr as [Hr _]. specialize (Lv r Hr). lia.
      * by apply live_partition_parts_ext.
    + left. unfold replace_at in C. apply commit_txn_cases in C as [T _]; [|apply Hon]. by rewrite T, P2.
  - exfalso. destruct e as [| | | |[]| | | | | | |]; try done; injection E as E; subst w'; by apply Mg.
  - exfalso. destruct lost; try done; injection E as E; subst w'; by apply Mg.
Qed.

(** ** Contention never stops the worker *)

Definition contention (e : CompactorError) : Prop :=
  match e with
  | CatalogErr (Conflict _ _) | CatalogErr (LeaseLost _) => True
  | _ => False
  end.

Definition calm {A} (m : M A) : Prop := forall w e w', m w = (Err e, w') -> ~ contention e.

Lemma calm_bind {A B} (m : M A) (k : A -> M B) : calm m -> (forall a, calm (k a)) -> calm (bind m k).
Proof.
  intros Hm Hk w e w'. unfold bind. destruct (m w) as [[a|e'] w1] eqn:E; [apply Hk|].
  intros [= <- <-]. by eapply Hm.
Qed.
Lemma calm_ret {A} (a : A) : calm (ret a).
Proof. by intros w e w' [=]. Qed.

Definition calm_error (e : CatalogError) : Prop := ~ contention (CatalogErr e).

Lemma calm_read {A} env (f : Call -> Tables -> result A CatalogError) :
  (forall c t e, f c t = Err e -> calm_error e) -> calm (catalog_read env f).
Proof.
  intros Hf w e w'. unfold catalog_read. destruct (read_error _); [intros [= <- _]; by intros []|].
  destruct (f _ _) as [a|e'] eqn:E; simpl; [done|]. intros [= <- _]. by eapply Hf.
Qed.

Lemma calm_write {A} env (f : Call -> DbState -> result A CatalogError * DbState) :
  (forall c d e d', f c d = (Err e, d') -> calm_error e) -> calm (catalog_write env f).
Proof.
  intros Hf w e w'. unfold catalog_write, autocommit.
  destruct (write_outcome _) as [|x []]; simpl; [|intros [= <- _]; by intros []|intros [= <- _]; by intros []].
  destruct (f _ _) as [[a|e'] d] eqn:E; simpl; [done|]. intros [= <- _]. by eapply Hf.
Qed.

#[local] Hint Resolve @calm_bind @calm_ret @calm_read : ukiel.

Lemma calm_claim config owner env ht p : calm (claim config owner env ht p).
Proof.
  apply calm_write. intros c d e d'. unfold try_acquire_compaction_lease.
  destruct (ttl_millis _) as [ms|e'] eqn:T.
  - simpl. destruct (Commit.find_lease _ _ _); [by destruct (_ || _)|]. destruct (List.existsb _ _); [done|].
    intros [= <- _]. by intros [].
  - intros [= <- _]. unfold ttl_millis in T. destruct (_ =? 0); [injection T as <-; by intros []|].
    destruct (_ <=? _); [done|]. injection T as <-. by intros [].
Qed.

Lemma calm_set_cursor env worker ht head : calm (catalog_write env (fun _ => set_cursor worker ht head)).
Proof.
  apply calm_write. intros c d e d'. unfold set_cursor. destruct (_ !! _); [done|].
  destruct (List.existsb _ _); [done|]. intros [= <- _]. by intros [].
Qed.

Lemma release_Ok env lease w : exists w', release env lease w = (Ok tt, w').
Proof. unfold release. destruct (catalog_write _ _ _) as [r w1]. eauto. Qed.

Lemma calm_sweep config kind ht window_at : (forall a, calm (window_at a)) -> calm (sweep config kind ht window_at).
Proof.
  intros Hw w. revert w. intros w e w'. unfold sweep.
  set (resumed := bool_decide _).
  apply (calm_bind (window_at _) _ (Hw _)). intros win. destruct (resumed && _).
  - apply calm_bind; [apply Hw|]. by intros ? ? ? ? [=].
  - apply calm_bind; [apply calm_ret|]. by intros ? ? ? ? [=].
Qed.

Lemma limited_calm {A} lim (a : A) e : limited lim a = Err e -> calm_error e.
Proof. unfold limited. destruct (lim <? 0); [|done]. intros [= <-]. by intros []. Qed.

Lemma calm_compact_partition config env merges hypertable lease :
  calm (compact_partition config env merges hypertable lease).
Proof.
  apply calm_bind; [by apply calm_read|]. intros ps. destruct (eligible_level _ _) as [[l g]|]; [|apply calm_ret].
  intros w e w'. destruct (merge_under_lease _ _ _ _ _ _ w) as [[n|x] w1]; [done|].
  destruct x as [| | | |c| | | | | | |]; try (intros [= <- _]; by intros []).
  destruct c; try (intros [= <- _]; by intros []); done.
Qed.

Lemma calm_compact_all config owner env merges hypertable ps :
  calm (compact_all config owner env merges hypertable ps).
Proof.
  induction ps as [|p ps IH]; [apply calm_ret|]. apply calm_bind; [apply calm_claim|].
  intros [lease|]; [|done]. intros w e w'.
  destruct (compact_partition _ _ _ _ _ w) as [r w1] eqn:C. unfold bind.
  destruct (release_Ok env lease w1) as [w2 ->]. destruct r as [[]|x]; [apply IH|].
  intros [= <- <-]. by eapply calm_compact_partition.
Qed.

Lemma calm_finalize_all config owner env merges hypertable ps n :
  calm (finalize_all config owner env merges hypertable ps n).
Proof.
  revert n. induction ps as [|p ps IH]; intros n; [apply calm_ret|]. apply calm_bind; [apply calm_claim|].
  intros [lease|]; [|apply IH]. intros w e w'.
  destruct (finalize_partition _ _ _ _ _ w) as [r w1]. unfold bind.
  destruct (release_Ok env lease w1) as [w2 ->]. destruct r as [[]|x]; [apply IH|apply IH|].
  destruct x as [| | | |c| | | | | | |]; try (intros [= <- _]; by intros []).
  destruct c; try (intros [= <- _]; by intros []); apply IH.
Qed.

Lemma calm_run_once config owner env merges : calm (run_once config owner env merges).
Proof.
  assert (Ht : forall h, calm (compact_hypertable config owner env merges h)).
  { intros h. apply calm_bind.
    - apply calm_sweep. intros a. apply calm_read. intros c t x. apply limited_calm.
    - intros win. apply calm_bind; [apply calm_compact_all|]. intros _. apply calm_bind; [by apply calm_read|]. intros hd. apply calm_set_cursor. }
  assert (Hs : forall hs, calm (compact_hypertables config owner env merges hs)).
  { induction hs as [|h hs IH]; [apply calm_ret|]. apply calm_bind; [apply Ht|done]. }
  intros w e w'. unfold run_once. apply calm_bind; [by apply calm_read|]. intros hs. apply calm_bind; [apply Hs|]. by intros _ ? ? ? [=].
Qed.

Lemma calm_finalize_once config owner env merges : calm (finalize_once config owner env merges).
Proof.
  assert (Fs : forall hs n, calm (finalize_hypertables config owner env merges hs n)).
  { induction hs as [|h hs IH]; intros n; [apply calm_ret|]. apply calm_bind.
    - apply calm_sweep. intros a. apply calm_read. intros c t x. apply limited_calm.
    - intros win. apply calm_bind; [apply calm_finalize_all|done]. }
  intros w e w'. unfold finalize_once. apply calm_bind; [by apply calm_read|]. intros hs. apply Fs.
Qed.

(** contention never stops the worker: its loop, whatever the ticks it is given,
    fails for real errors only -- a peer's claim is skipped, a conflicting or
    fenced-out REPLACE is left to the next pass -- whatever the rest of the fleet
    does between any two of its calls; it returns otherwise only when it was told
    to, after the pass it was in. *)
Theorem contention_is_never_fatal config owner env merges events signals w r w' :
  run config owner env merges events signals w = (r, w') ->
  match r with
  | Err e => ~ contention e
  | Ok (stopped, _) => stopped = true <-> Shutdown ∈ events
  end.
Proof.
  revert signals w. induction events as [|[] events IH]; intros signals w; cbn [run].
  - intros [= <- _]. split; [done|by intros ?%elem_of_nil].
  - intros [= <- _]. split; [by left|done].
  - unfold bind. destruct (run_once config owner env merges w) as [[stats|e] w1] eqn:E; [|intros [= <- _]; by eapply calm_run_once].
    intros R%IH. destruct r as [[stopped n]|]; [|done]. rewrite R, elem_of_cons. naive_solver.
  - unfold bind. destruct (finalize_once config owner env merges w) as [[n0|e] w1] eqn:E; [|intros [= <- _]; by eapply calm_finalize_once].
    intros R%IH. destruct r as [[stopped n]|]; [|done]. rewrite R, elem_of_cons. naive_solver.
Qed.
End platform.
End CompactorSpec.

(** * Compactions at work

    A platform small enough to run -- files that read back as they were
    written, rows ordered by their first sort column -- and on it a merge of two
    files, a merge that loses its lease, and a pass that meets a real error. *)

Import CatalogError CatalogDb CommitSpec CommitTheorems CommitExamples Leases Feed Parts Batches Merge MergeSpec PartRead Rewrite RewriteSpec Compactor CompactorPlan CompactorSpec.

Module CompactorExamples.

Definition int_key (ix : list nat) (r : list Cell) : Z :=
  match ix with j :: _ => default 0 (int_at j r) | [] => 0 end.
Definition gather_rows (bs : list (list (list Cell))) (ixs : list (nat * nat)) : result (list (list Cell)) CompactorError :=
  ok_or (mapM (gather bs) ixs) (ArrowErr "interleave").
Definition read_back (calls : list WriterCall) : result (list (result RecordBatch string)) string :=
  Ok (List.map Ok (written calls)).

#[export] Instance demo_platform : Platform := {|
  blake3 bytes := List.repeat (List.fold_left (fun h b => (h * 31 + b) mod 251) bytes 7) 32%nat;
  b64_decode := no_b64; b64_encode := Stats.w_enc;
  tm_serialize := Stats.w_ser; tm_deserialize := no_tm;
  datafusion := Expr.ex_datafusion;
  read_object := read_back;
  SortRow := Z; row_le := Z.le; row_le_total := MergeExamples.Z_le_total_order; row_le_dec := Z_le_dec;
  row_key := int_key; interleave := gather_rows;
  in_progress_rows := demo_in_progress; encoded_size_of := demo_size; flushed_row_groups := demo_groups;
  under_null _ := 0;
|}.

Lemma demo_gathers : interleave_gathers.
Proof. intros bs ix rows E. simpl. unfold gather_rows. by rewrite E. Qed.

Lemma demo_leads : leads_by_first_column.
Proof. intros j ix a b x y Ha Hb. simpl. by rewrite Ha, Hb. Qed.

Definition schema_json : json :=
  JObject [("fields", JArray [JObject [("name", JString "k"); ("nullable", JBool false); ("type", JString "int64")]])]%string.
Definition table : Hypertable := mkHypertable 1 "events" schema_json JNull ["k"%string] "k" Packed.
Definition cols : Schema.TableColumns := Schema.mkTableColumns [Schema.mkColumnSpec "k" Int64 false Schema.Stored "int64" false].

Lemma demo_table_ok : table_ok table cols 0 [].
Proof. split; [reflexivity..| |reflexivity]. by exists (mkField "k" Int64 false []). Qed.

Definition l0 (id : Z) (p : string) : PartRow :=
  mkPartRow id 1 (mkPartMeta p day 0 9 2 20 0 None) None id None None.
Definition commit_of (id : Z) : CommitRow := mkCommitRow id 1 "add" None None 0.
Definition demo_lease : Commit.CompactionLease := Commit.mkLease 1 day 77 3 100.
Definition db : DbState :=
  mkDb (with_leases (with_parts (with_commits (with_hypertables empty_tables [table]) [commit_of 1; commit_of 2])
          [l0 1 "a"; l0 2 "b"]) [mkLeaseRow 1 day 77 3 100])
       (mkSeqs 1 0 2 2 3 0 0).
Definition store : Store :=
  {["a"%string := [CWrite (k_batch [1; 3]); CFlush; CClose]; "b"%string := [CWrite (k_batch [2; 3]); CFlush; CClose]]}.
Definition group : list Part := [part_of_row (l0 1 "a"); part_of_row (l0 2 "b")].

Definition calm_env (ts : nat -> list Tick) : MergeEnv :=
  mkMergeEnv no_fault demo_head demo_path (fun _ => (Acked, 0)) ts (fun _ d => d) (fun _ => false) 0 (quiet 7).
Definition no_ticks (n : nat) : list Tick := [].

Definition ident2 : Operation.OperationIdentity := ident "k2" 2.
Definition merged := merge_parts (calm_env no_ticks) 60000000000 demo_lease table ident2 group 1 db store.
Definition merged_db : DbState := merged.1.2.
Definition merged_store : Store := merged.2.

Lemma merged_eq :
  merge_parts (calm_env no_ticks) 60000000000 demo_lease table ident2 group 1 db store
  = (Finished (Ok 1), merged_db, merged_store).
Proof. vm_compute. reflexivity. Qed.

(** The file of the merge: the rows of both, in order. *)
Example merged_file :
  merged_store !! "ht/1/L1/0.parquet"%string = Some [CWrite (k_batch [1]); CWrite (k_batch [2]); CWrite (k_batch [3]); CWrite (k_batch [3]); CFlush; CClose].
Proof. vm_compute. reflexivity. Qed.

Definition demo_streams : list (string * list (result RecordBatch CompactorError)) :=
  [("a"%string, [Ok (k_batch [1; 3])]); ("b"%string, [Ok (k_batch [2; 3])])].

Lemma demo_streams_eq :
  part_streams read_back store (Schema.physical_schema cols) cols group
  = Ok demo_streams.
Proof. vm_compute. reflexivity. Qed.

Lemma compact_demo_keyed : keyed_rows 0 (concat (List.map stream_rows demo_streams)).
Proof. apply (bool_decide_unpack _). vm_compute. done. Qed.

Lemma kept_refl d : kept d d.
Proof. by split_and!. Qed.

Lemma calm_ticks_kept n t d : t ∈ no_ticks n -> kept d (tick_others t d).
Proof. by intros ?%elem_of_nil. Qed.

(** The merge of the two parts, as the theorem has it: both were live before. *)
Lemma compaction_conserves_rows_witness :
  exists rows d1, rows ≡ₚ [[CInt (Some 1)]; [CInt (Some 3)]; [CInt (Some 2)]; [CInt (Some 3)]] /\
    StronglySorted Z.le (List.map (int_key [0%nat]) rows) /\
    parts (tables d1) = parts (tables db).
Proof.
  destruct (compaction_conserves_rows (calm_env no_ticks) 60000000000 demo_lease table ident2 group 1 db store 1
    merged_db merged_store cols 0 [] demo_streams (quiet_honest 7) demo_gathers demo_leads demo_table_ok
    demo_streams_eq compact_demo_keyed merged_eq) as (rows & metas & objs & d1 & P & S & _ & _ & _ & _ & K & _).
  exists rows, d1. split; [exact P|]. split; [exact S|].
  exact (proj1 (K (fun _ d => kept_refl d) calm_ticks_kept)).
Defined.

(** The renewal before the REPLACE finds the lease expired. *)
Definition late_ticks (n : nat) : list Tick :=
  match n with 2%nat => [mkTick (fun d => d) (mkClaimClock 100 100 100) Acked] | _ => [] end.
Definition dropped := merge_parts (calm_env late_ticks) 60000000000 demo_lease table ident2 group 1 db store.

Lemma dropped_eq :
  merge_parts (calm_env late_ticks) 60000000000 demo_lease table ident2 group 1 db store
  = (Abandoned (LeaseLost day), dropped.1.2, dropped.2).
Proof. vm_compute. reflexivity. Qed.

Lemma late_ticks_kept n t d : t ∈ late_ticks n -> kept d (tick_others t d).
Proof.
  destruct n as [|[|[|n]]]; simpl; try by intros ?%elem_of_nil.
  intros ->%list_elem_of_singleton. apply kept_refl.
Qed.

Lemma lost_lease_is_harmless_witness :
  dropped.1.1 = Abandoned (LeaseLost day) /\
  (forall p, is_Some (store !! p) -> is_Some (dropped.2 !! p)).
Proof.
  split; [by vm_compute|].
  exact (proj1 (lost_lease_is_harmless (calm_env late_ticks) 60000000000 demo_lease table ident2 group 1 db store
    (LeaseLost day) dropped.1.2 dropped.2 (quiet_honest 7) (fun _ d => kept_refl d) late_ticks_kept dropped_eq)).
Defined.

(** ** The ladder *)

Definition call : Call := mkCall (fun d => d) None 7 (mkClaimClock 7 7 7) Acked.
Definition env (n : nat) : Call := call.
Definition merges (n : nat) : MergeEnv := calm_env no_ticks.
Definition w0 : World := mkWorld db store 0 0 ∅ ∅ no_stats.
Definition stepped := compact_partition default_config env merges table demo_lease w0.

Lemma stepped_eq : compact_partition default_config env merges table demo_lease w0 = (Ok tt, stepped.2).
Proof. vm_compute. reflexivity. Qed.

Lemma stepped_merged : merged_groups (w_stats stepped.2) = 1.
Proof. vm_compute. reflexivity. Qed.

Lemma db_levels r : r ∈ parts (tables db) -> - 2 ^ 15 <= level (pr_meta r) < 2 ^ 15 - 1.
Proof.
  simpl. intros Hr. assert (r = l0 1 "a" \/ r = l0 2 "b") as [-> | ->].
  { apply elem_of_cons in Hr as [->|Hr]; [by left|]. apply list_elem_of_singleton in Hr. by right. }
  all: simpl; lia.
Qed.

Lemma no_ticks_kept (m n : nat) t d : t ∈ ticks (merges m) n -> kept d (tick_others t d).
Proof. by intros ?%elem_of_nil. Qed.

Lemma ladder_merge_makes_progress_witness :
  parts (tables (w_db stepped.2)) = parts (tables db) \/
  (size (level_runs (live_partition_parts (tables (w_db stepped.2)) (ht_id table) day))
   < size (level_runs (live_partition_parts (tables db) (ht_id table) day)))%nat.
Proof.
  refine (ladder_merge_makes_progress default_config env merges table demo_lease w0 stepped.2 _ _
    (fun _ => quiet_honest 7) (fun _ d => kept_refl d) (fun _ _ d => kept_refl d) no_ticks_kept db_levels
    stepped_eq _).
  - simpl. lia.
  - simpl. lia.
  - rewrite stepped_merged. discriminate.
Defined.

(** A pass whose listing fails. *)
Definition broken (n : nat) : Call := mkCall (fun d => d) (Some Io) 7 (mkClaimClock 7 7 7) Acked.

Definition broken_run := Compactor.run default_config 77 broken merges [FinalizeTick; LadderTick; Shutdown] 0 w0.

Lemma broken_eq : broken_run.1 = Err (CatalogErr (Db Io)).
Proof. vm_compute. reflexivity. Qed.

(** A loop that merges, finds nothing more to do, and is told to stop. *)
Example a_calm_run : (Compactor.run default_config 77 env merges [LadderTick; FinalizeTick; LadderTick; Shutdown; LadderTick] 0 w0).1 = Ok (true, 2%nat).
Proof. vm_compute. reflexivity. Qed.

Lemma contention_is_never_fatal_witness : ~ contention (CatalogErr (Db Io)).
Proof.
  pose proof (contention_is_never_fatal default_config 77 broken merges [FinalizeTick; LadderTick; Shutdown] 0 w0 broken_run.1 broken_run.2
    (surjective_pairing _)) as C.
  rewrite broken_eq in C. exact C.
Defined.

End CompactorExamples.
