(* ===== verification/Deletion.v ===== *)
(** * Key deletion (crates/ukiel-compactor/src/deletion.rs)

    Erasing one packing key: files the key owns are dropped by metadata alone,
    packed files are rewritten without its rows, and one REPLACE swaps them. *)

From S2P Require Import Prelude Bytes Json Types Arrow Schema Stats Operation CatalogError CatalogDb Commit CommitSpec Feed Parts Pruning CatalogGc Batches Expr Merge PartRead Rewrite RewriteSpec Compactor CompactorSpec CommitExamples Leases.
Import CatalogError CatalogDb CommitSpec Parts CatalogGc Batches Merge PartRead Rewrite Compactor.

Module Deletion.

Definition DELETION_TRANSFORMATION_VERSION : Z := 2.

Record DeletionStats := mkDeletion {
  dropped_parts : Z;
  rewritten_parts : Z;
  rows_deleted : Z;
}.
Definition no_deletion : DeletionStats := mkDeletion 0 0 0.

(** ** Arrow's kernels *)

(** [neq] against a scalar: NULL compares to NULL. *)
Definition neq (keys : list (option Z)) (key : Z) : list (option bool) :=
  List.map (fmap (fun k => negb (k =? key))) keys.

(** [filter]: the slots whose mask is true. *)
Fixpoint filter_values {A} (mask : list (option bool)) (vs : list A) : list A :=
  match mask, vs with
  | Some true :: mask, v :: vs => v :: filter_values mask vs
  | _ :: mask, _ :: vs => filter_values mask vs
  | _, _ => []
  end.

Definition filter_array (mask : list (option bool)) (a : ArrayRef) : ArrayRef :=
  match a with
  | Int64Array vs => Int64Array (filter_values mask vs)
  | OtherArray t vs => OtherArray t (filter_values mask vs)
  end.

Definition filter_record_batch (b : RecordBatch) (mask : list (option bool)) : RecordBatch :=
  mkBatch (rb_schema b) (List.map (filter_array mask) (rb_columns b)).

(** ** The environment *)

(** The Parquet writer's failures and a finished file's length, fresh names,
    and the store's puts: a failure may or may not have left the object. *)
Record DeleteEnv := mkDeleteEnv {
  call_of : nat -> Call;
  writer_fault : string -> list WriterCall -> option CompactorError;
  file_length : list WriterCall -> Z;
  fresh : nat -> string;
  put_fails : string -> option (CompactorError * bool);
  swap_peers : DbState -> DbState;
  swap_tx : TxEnv;
}.

Section deletion.
Context `{Jsonb} `{Platform} (env : DeleteEnv).

Definition liftr {A} (r : result A CompactorError) : M A := fun w => (r, w).

Definition store_put (path : string) (calls : list WriterCall) : M unit := fun w =>
  let stored := mkWorld (w_db w) (<[path := calls]> (w_store w)) (w_calls w) (w_merges w)
                  (ladder_cursors w) (finalize_cursors w) (w_stats w) in
  match put_fails env path with
  | None => (Ok tt, stored)
  | Some (e, landed) => (Err e, if landed : bool then stored else w)
  end.

Definition rewritten_path (ht : HypertableId) (lvl : Z) (n : nat) : string :=
  ("ht/" +:+ pretty ht +:+ "/L" +:+ pretty lvl +:+ "/" +:+ fresh env n +:+ ".parquet")%string.

Definition rewritten_meta (part : Part) (kept : RecordBatch) (packing_key path : string) (key_min key_max size : Z)
    (spans : option json) : PartMeta :=
  mkPartMeta path (partition_values (meta part)) key_min key_max (Z.of_nat (num_rows kept)) size (level (meta part))
    (Stats.with_key_index (Stats.int64_column_stats kept)
       (if negb (key_min =? key_max) then Stats.key_bitmap tm_serialize b64_encode kept packing_key else None)
       (if negb (key_min =? key_max) then spans else None)).

(** One round of the loop over the overlapping parts. *)
Definition delete_from_part (hypertable : Hypertable) (cols : Schema.TableColumns) (key : Z) (part : Part)
    (acc : DeletionStats * list PartMeta) : M (DeletionStats * list PartMeta) :=
  let '(stats, new_parts) := acc in
  if (packing_key_min (meta part) =? key) && (packing_key_max (meta part) =? key)
  then ret (mkDeletion (dropped_parts stats + 1) (rewritten_parts stats) (rows_deleted stats + row_count (meta part)),
            new_parts)
  else
    do! batch := (fun w => (read_parts_for_rewrite read_object (w_store w) cols [part], w)) in
    do! keys := liftr (int64_column batch (packing_key hypertable)) in
    let kept := filter_record_batch batch (neq keys key) in
    let stats := mkDeletion (dropped_parts stats) (rewritten_parts stats + 1)
                   (rows_deleted stats + (Z.of_nat (num_rows batch) - Z.of_nat (num_rows kept))) in
    if Nat.eqb (num_rows kept) 0 then ret (stats, new_parts)
    else
      do! range := liftr (key_range kept (packing_key hypertable)) in
      do! file := liftr (batch_to_parquet_key_aligned in_progress_rows flushed_row_groups (writer_fault env) under_null
                           kept (packing_key hypertable) (sort_key hypertable)
                           (Schema.from_columns cols (sort_key hypertable) (level (meta part)))) in
      let path := rewritten_path (ht_id hypertable) (level (meta part)) (length new_parts) in
      do! _ := catalog_write (call_of env) (fun c => register_pending_objects (ht_id hypertable) [path] (call_now c)) in
      do! _ := store_put path file.1 in
      ret (stats, new_parts ++ [rewritten_meta part kept (packing_key hypertable) path range.1 range.2
                                  (file_length env file.1) file.2]).

Fixpoint delete_from_parts (hypertable : Hypertable) (cols : Schema.TableColumns) (key : Z) (parts : list Part)
    (acc : DeletionStats * list PartMeta) : M (DeletionStats * list PartMeta) :=
  match parts with
  | [] => ret acc
  | part :: parts =>
      do! acc := delete_from_part hypertable cols key part acc in
      delete_from_parts hypertable cols key parts acc
  end.

Definition deletion_identity (hypertable : Hypertable) (key : Z) (input_parts : list PartId)
  : result Operation.OperationIdentity CompactorError :=
  map_err OperationErr (Operation.delete_key blake3 (ht_id hypertable)
    (Operation.Build_DeleteKeyIntent key input_parts (table_schema hypertable) (sort_key hypertable)
       (placement hypertable) DELETION_TRANSFORMATION_VERSION)).

Definition swap (ht : HypertableId) (op : CommitOp) (identity : Operation.OperationIdentity) : M unit := fun w =>
  let '(r, d, _) := Commit.commit b64_decode tm_deserialize (swap_tx env) ht op (Some identity) 0
                      (swap_peers env (w_db w)) in
  (match r with Ok _ => Ok tt | Err e => Err (CatalogErr e) end, with_db w d).

Definition delete_key (hypertable : Hypertable) (key : Z) : M DeletionStats :=
  do! overlapping := catalog_read (call_of env) (fun _ t => Ok (live_parts t (ht_id hypertable) (Some key))) in
  match overlapping with
  | [] => ret no_deletion
  | _ =>
      let input_parts := List.map part_id overlapping in
      do! identity := liftr (deletion_identity hypertable key input_parts) in
      do! cols := liftr (map_err SchemaErr (Schema.parse (table_schema hypertable))) in
      do! acc := delete_from_parts hypertable cols key overlapping (no_deletion, []) in
      do! _ := swap (ht_id hypertable) (Replace input_parts acc.2) identity in
      ret acc.1
  end.

End deletion.
End Deletion.

(** * What a deletion erases, and what it keeps

    Every rewritten file holds the other keys' rows, in order; its metadata
    describes them; the swap replaces exactly the parts that were read. *)

Import CatalogError CatalogDb CommitSpec CommitTheorems Parts CatalogGc Batches Merge PartRead Rewrite RewriteSpec Compactor CompactorSpec Deletion.

Module DeletionSpec.

Lemma mapr_elem {A B E} (f : A -> result B E) l ys y :
  mapr f l = Ok ys -> y ∈ ys -> exists x, x ∈ l /\ f x = Ok y.
Proof.
  intros M%mapr_Forall2 [i Hi]%list_elem_of_lookup. destruct (Forall2_lookup_r _ _ _ _ _ M Hi) as (x & Hx & Ef).
  exists x. split; [by eapply list_elem_of_lookup_2|done].
Qed.

(** ** Filtering rows *)

(** A row of another key. *)
Definition survives (j : nat) (key : Z) (r : list Cell) : bool :=
  match int_at j r with Some k => negb (k =? key) | None => false end.

Lemma filter_values_map {A B} (f : A -> B) mask vs :
  filter_values mask (List.map f vs) = List.map f (filter_values mask vs).
Proof.
  revert vs. induction mask as [|[[]|] mask IH]; intros [|v vs]; simpl; try done. by rewrite IH.
Qed.

Lemma filter_values_neq j key rows :
  filter_values (neq (List.map (int_at j) rows) key) rows = List.filter (survives j key) rows.
Proof.
  unfold neq. induction rows as [|r rows IH]; simpl; [done|]. unfold survives at 1.
  destruct (int_at j r) as [k|]; simpl; [|done]. destruct (k =? key); simpl; by rewrite IH.
Qed.

Lemma filter_rows s rows mask :
  filter_record_batch (of_rows s rows) mask = of_rows s (filter_values mask rows).
Proof.
  unfold filter_record_batch, of_rows. simpl. f_equal. generalize 0%nat.
  induction s as [|f s IH]; intros j; simpl; [done|]. rewrite IH. f_equal.
  unfold row_column, cells_array. destruct (f_type f); simpl; by rewrite !filter_values_map.
Qed.

(** The survivors' keys. *)
Lemma survivors_keyed j key rows : keyed_rows j (List.filter (survives j key) rows).
Proof.
  apply Forall_forall. intros r [_ S]%filter_In_iff. unfold survives in S. by destruct (int_at j r).
Qed.

Lemma survivors_keys j key rows : Forall (fun k => k <> key) (keys_of j (List.filter (survives j key) rows)).
Proof.
  apply Forall_forall. intros k (r & [_ S]%filter_In_iff & K)%list_elem_of_omap. unfold survives in S.
  rewrite K in S. boolp. done.
Qed.

Section deletion.
Context `{Jsonb} `{Platform} (env : DeleteEnv).

(** [RecordBatch::try_new] accepts well-formed columns of one length. *)
Definition try_new_checks : Prop :=
  forall s cs, Expr.try_new_error s cs = None -> exists n, batch_ok s n (mkBatch s cs).

(** *** Reading a part *)

Lemma part_item_ok schema cols p item b :
  try_new_checks -> part_item schema cols p item = Ok b -> exists n, batch_ok schema n b.
Proof.
  intros T. unfold part_item, adapt_to_schema. intros E. inv_ok. destruct (Expr.try_new_error _ _); [done|].
  injection E1 as <-. destruct (Expr.apply_missing_defaults_and_materialized _ _ _) as [b'|] eqn:F; [|done].
  injection E as ->. unfold Expr.apply_missing_defaults_and_materialized, Expr.apply_defaults_and_materialized in F.
  apply rbind_Ok in F as (cs & _ & F). unfold Expr.try_new in F. simpl in F.
  destruct (Expr.try_new_error schema cs) eqn:N; [done|]. injection F as <-. by apply T.
Qed.

Lemma read_parts_ok store cols parts b :
  try_new_checks -> read_parts_for_rewrite read_object store cols parts = Ok b ->
  exists n, batch_ok (Schema.physical_schema cols) n b.
Proof.
  intros T. unfold read_parts_for_rewrite, concat_batches. intros E. inv_ok.
  case_bool_decide; [|done]. injection E as <-. apply cat_ok, Forall_forall. intros x Hx.
  eapply mapr_elem in Hx as (y & Hy & Hi); [|exact E1].
  apply list_elem_of_In, List.in_concat in Hy as (l & Hl & Hy). apply List.in_map_iff in Hl as ([p items] & <- & Hs).
  apply list_elem_of_In in Hs. eapply mapr_elem in Hs as (part & _ & Ps); [|exact E0]. unfold part_stream in Ps. inv_ok.
  simpl in Hy. apply List.in_map_iff in Hy as (item & <- & _). by eapply part_item_ok.
Qed.

Lemma read_part_ext st st' cols part :
  st !! path (meta part) = st' !! path (meta part) ->
  read_parts_for_rewrite read_object st cols [part] = read_parts_for_rewrite read_object st' cols [part].
Proof.
  intros E. unfold read_parts_for_rewrite, part_streams. simpl. unfold part_stream. by rewrite E.
Qed.

(** *** Writing the survivors *)

Lemma aligned_loop_written ft props cap runs calls calls' :
  aligned_loop in_progress_rows ft props cap runs calls = Ok calls' ->
  written calls' = written calls ++ runs.*2.
Proof.
  assert (C : forall c c' x, mem_call ft c x = Ok c' -> written c' = written c ++ written [x]).
  { intros c c' x. unfold mem_call. destruct (ft _ _); [done|]. intros [= <-]. apply written_app. }
  revert calls. induction runs as [|[k b] runs IH]; intros calls E; simpl in E; [injection E as <-; by rewrite app_nil_r|].
  inv_ok. apply IH in E. rewrite E. apply C in E1. rewrite E1. simpl.
  assert (W : written a = written calls).
  { destruct (_ && _); [|by injection E0 as ->]. apply C in E0. rewrite E0. simpl. by rewrite app_nil_r. }
  rewrite W, <- app_assoc. done.
Qed.

Lemma key_aligned_written ft s n b pk ks sort_key opts calls spans :
  batch_ok s n b -> column_values b pk = Some (Some <$> ks) ->
  batch_to_parquet_key_aligned in_progress_rows flushed_row_groups ft under_null b pk sort_key opts = Ok (calls, spans) ->
  cat s (written calls) = b.
Proof.
  intros B V. unfold batch_to_parquet_key_aligned. intros E. inv_ok.
  apply (split_by_key_spec s) with (n := n) (ks := ks) in E0 as (_ & C & _); [|done|done].
  apply aligned_loop_written in E1. unfold mem_call in *.
  destruct (ft _ (a0 ++ _)); [done|]. injection E2 as <-. destruct (ft _ _); [done|]. injection E3 as <-.
  rewrite !written_app. simpl. rewrite !app_nil_r, E1. exact C.
Qed.

(** *** One part *)

(** What erasing [key] makes of a part read from [store]: the rows it loses and
    the file it leaves, if any. *)
Inductive erased (cols : Schema.TableColumns) (pk : string) (j : nat) (key : Z) (store : Store) (part : Part)
  : Z -> list (PartMeta * list WriterCall) -> Prop :=
| erased_dropped :
    packing_key_min (meta part) = key -> packing_key_max (meta part) = key ->
    erased cols pk j key store part (row_count (meta part)) []
| erased_rewritten batch out :
    read_parts_for_rewrite read_object store cols [part] = Ok batch ->
    let kept := List.filter (survives j key) (batch_rows batch) in
    match out with
    | [] => kept = []
    | (m, calls) :: out =>
        out = [] /\ kept <> [] /\ cat (Schema.physical_schema cols) (written calls) = of_rows (Schema.physical_schema cols) kept /\
        row_count m = len kept /\ level m = level (meta part) /\ partition_values m = partition_values (meta part) /\
        (distinct_names (Schema.physical_schema cols) ->
           Pruning.describes tm_serialize b64_encode m (of_rows (Schema.physical_schema cols) kept) pk)
    end ->
    erased cols pk j key store part (len (batch_rows batch) - len kept) out.

Lemma key_range_spec b pk ks mn mx :
  column_values b pk = Some (Some <$> ks) -> key_range b pk = Ok (mn, mx) -> Forall (fun k => mn <= k <= mx) ks.
Proof.
  intros V. unfold key_range. apply int64_column_values in V as ->. simpl. intros E. inv_ok.
  apply Forall_forall. intros k Hk. apply (Pruning.value_range_spec (Some <$> ks)).
  - unfold value_range. destruct (column_min _), (column_max _); simpl in *; try done. by injection E0 as <-; injection E1 as <-.
  - by apply list_elem_of_fmap_2.
Qed.

Lemma rewritten_describes part s pk j ks p size spans mn mx rows :
  index_of s pk = Some j -> distinct_names s -> column_values (of_rows s rows) pk = Some (Some <$> ks) ->
  Forall (fun k => mn <= k <= mx) ks ->
  Pruning.describes tm_serialize b64_encode (rewritten_meta part (of_rows s rows) pk p mn mx size spans) (of_rows s rows) pk.
Proof.
  intros Ij D V R. split; simpl.
  - apply (of_rows_ok s rows).
  - exact D.
  - intros i v (idx & vs & Hi & Hc & Hv). unfold column_values in V. rewrite Hi in V. simpl in V. simpl in Hc.
    rewrite Hc in V. simpl in V. injection V as ->. rewrite list_lookup_fmap in Hv.
    destruct (ks !! i) as [k|] eqn:K; simpl in Hv; [|done]. injection Hv as ->.
    rewrite Forall_forall in R. apply R. by eapply list_elem_of_lookup_2.
  - eexists _, _. split; [reflexivity|]. destruct (negb _); auto.
Qed.

(** *** All parts *)

Lemma m_bind_Ok {A B} (m : M A) (k : A -> M B) w b w' :
  bind m k w = (Ok b, w') -> exists a w1, m w = (Ok a, w1) /\ k a w1 = (Ok b, w').
Proof. unfold bind. destruct (m w) as [[a|e] w1]; [eauto|done]. Qed.

Lemma liftr_Ok {A} (r : result A CompactorError) w a w' : liftr r w = (Ok a, w') -> r = Ok a /\ w' = w.
Proof. unfold liftr. by intros [= -> ->]. Qed.

Lemma catalog_write_store {A} calls (f : Call -> DbState -> result A CatalogError * DbState) w r w' :
  catalog_write calls f w = (r, w') -> w_store w' = w_store w.
Proof. unfold catalog_write. destruct (autocommit _ _ _). by intros [= <- <-]. Qed.

Definition files_of (out : list (PartMeta * list WriterCall)) : list (string * list WriterCall) :=
  (fun mc => (path mc.1, mc.2)) <$> out.

Definition fresh_path (ht : HypertableId) (p : string) : Prop := exists lvl n, p = rewritten_path env ht lvl n.

Lemma delete_from_part_spec hypertable cols j ix key part st new w st' new' w' :
  try_new_checks -> table_ok hypertable cols j ix ->
  delete_from_part env hypertable cols key part (st, new) w = (Ok (st', new'), w') ->
  exists n out, erased cols (packing_key hypertable) j key (w_store w) part n out /\
    new' = new ++ out.*1 /\ rows_deleted st' = rows_deleted st + n /\
    w_store w' = add_objects (files_of out) (w_store w) /\
    Forall (fun mc => fresh_path (ht_id hypertable) (path mc.1)) out.
Proof.
  intros T [_ Ij (f & Hf & Tf) _]. unfold delete_from_part. set (s := Schema.physical_schema cols) in *.
  destruct (_ && _) eqn:D.
  { intros [= <- <- <-]. boolp. exists (row_count (meta part)), []. rewrite app_nil_r. split; [by constructor|done]. }
  intros E. apply m_bind_Ok in E as (batch & w1 & Rd & E). injection Rd as Rd <-.
  pose proof (read_parts_ok _ _ _ _ T Rd) as [n B].
  assert (N : num_rows batch = n).
  { apply (ok_num_rows s); [|done]. intros ->. by destruct j. }
  assert (Eb : of_rows s (batch_rows batch) = batch) by (by eapply of_rows_batch).
  assert (Vb : column_values batch (packing_key hypertable) = Some (List.map (int_at j) (batch_rows batch))).
  { rewrite <- Eb at 1. by eapply column_values_of_rows. }
  apply m_bind_Ok in E as (keys & w1 & [Ks ->]%liftr_Ok & E). apply int64_column_values in Ks.
  assert (keys = List.map (int_at j) (batch_rows batch)) as -> by congruence.
  set (kept := List.filter (survives j key) (batch_rows batch)).
  assert (Ek : filter_record_batch batch (neq (List.map (int_at j) (batch_rows batch)) key) = of_rows s kept).
  { rewrite <- Eb at 1. by rewrite filter_rows, filter_values_neq. }
  rewrite Ek in E. pose proof (of_rows_ok s kept) as Bk.
  assert (Nk : num_rows (of_rows s kept) = length kept).
  { apply (ok_num_rows s); [|done]. intros ->. by destruct j. }
  assert (Lb : Z.of_nat (num_rows batch) = len (batch_rows batch)) by (unfold len; by rewrite batch_rows_length).
  rewrite Nk, Lb in E. cbv zeta in E. destruct (Nat.eqb_spec (length kept) 0) as [Z0|Z0].
  { injection E as <- <- <-. exists (len (batch_rows batch) - len kept), []. rewrite app_nil_r. simpl. split; [|done].
    econstructor; [exact Rd|]. simpl. by apply nil_length_inv in Z0. }
  apply m_bind_Ok in E as ([mn mx] & w1 & [Kr ->]%liftr_Ok & E).
  apply m_bind_Ok in E as ([calls spans] & w1 & [Fl ->]%liftr_Ok & E).
  apply m_bind_Ok in E as ([] & w1 & Rg%catalog_write_store & E).
  apply m_bind_Ok in E as ([] & w2 & Pt & E). injection E as <- <- <-.
  assert (Vk : column_values (of_rows s kept) (packing_key hypertable) = Some (Some <$> keys_of j kept)).
  { rewrite (column_values_of_rows s kept _ j f Ij Hf Tf). f_equal. apply keys_of_some, survivors_keyed. }
  exists (len (batch_rows batch) - len kept),
    [(rewritten_meta part (of_rows s kept) (packing_key hypertable)
        (rewritten_path env (ht_id hypertable) (level (meta part)) (length new)) mn mx (file_length env calls) spans, calls)].
  split_and!; [| |done| |].
  - econstructor; [exact Rd|]. simpl. fold kept. split_and!; try done.
    + by intros K; rewrite K in Z0.
    + eapply key_aligned_written; eauto.
    + exact (f_equal Z.of_nat Nk).
    + intros Dn. eapply rewritten_describes; eauto. by eapply key_range_spec.
  - done.
  - unfold store_put in Pt. simpl in Pt. destruct (put_fails _ _) as [[e []]|]; try done. injection Pt as <-. simpl.
    unfold files_of, add_objects. simpl. by rewrite Rg.
  - constructor; [|done]. by eexists _, _.
Qed.

Lemma erased_ext cols pk j key st st' part n out :
  st !! path (meta part) = st' !! path (meta part) ->
  erased cols pk j key st part n out -> erased cols pk j key st' part n out.
Proof.
  intros E. destruct 1 as [A B|batch out Rd kept O]; [by constructor|].
  econstructor; [by rewrite <- (read_part_ext st)|exact O].
Qed.

Lemma add_objects_other objs store p : Forall (fun o => o.1 <> p) objs -> add_objects objs store !! p = store !! p.
Proof.
  unfold add_objects. intros F. revert store. induction F as [|o objs Ho F IH]; intros store; simpl; [done|].
  by rewrite IH, lookup_insert_ne.
Qed.

Lemma add_objects_app a b store : add_objects (a ++ b) store = add_objects b (add_objects a store).
Proof. unfold add_objects. apply List.fold_left_app. Qed.

Definition sum (ns : list Z) : Z := List.fold_right Z.add 0 ns.

Lemma delete_from_parts_spec hypertable cols j ix key ps store0 :
  try_new_checks -> table_ok hypertable cols j ix ->
  Forall (fun part => ~ fresh_path (ht_id hypertable) (path (meta part))) ps ->
  forall st new w st' new' w',
  Forall (fun part => w_store w !! path (meta part) = store0 !! path (meta part)) ps ->
  delete_from_parts env hypertable cols key ps (st, new) w = (Ok (st', new'), w') ->
  exists outs, Forall2 (fun part o => erased cols (packing_key hypertable) j key store0 part o.1 o.2) ps outs /\
    new' = new ++ (concat outs.*2).*1 /\ rows_deleted st' = rows_deleted st + sum outs.*1 /\
    w_store w' = add_objects (files_of (concat outs.*2)) (w_store w).
Proof.
  intros T To Fr. induction Fr as [|part ps Np Fr IH]; intros st new w st' new' w' S E; cbn [delete_from_parts] in E.
  - injection E as <- <- <-. exists []. rewrite app_nil_r. simpl. split_and!; try done. exact (eq_sym (Z.add_0_r _)).
  - apply Forall_cons in S as [Sp S]. apply m_bind_Ok in E as ([st1 new1] & w1 & E1 & E).
    eapply delete_from_part_spec in E1 as (n & out & Er & -> & Rd & St & Fp); [|done..].
    apply IH in E as (outs & F & -> & R & W).
    + exists ((n, out) :: outs). simpl. split_and!.
      * constructor; [by eapply erased_ext|done].
      * by rewrite fmap_app, app_assoc.
      * rewrite R, Rd. exact (eq_sym (Z.add_assoc _ _ _)).
      * unfold files_of in *. by rewrite W, St, fmap_app, add_objects_app.
    + rewrite St. rewrite Forall_forall in Fr, S |- *. intros q Hq. rewrite <- (S q Hq).
      apply add_objects_other, Forall_fmap. eapply Forall_impl; [exact Fp|]. simpl. intros mc H1 E1.
      apply (Fr q Hq). by rewrite <- E1.
Qed.

(** ** The catalog while a deletion runs

    Between its read and its swap a deletion only lets others commit and
    records its intents. *)
Inductive delete_step (ht : HypertableId) : DbState -> DbState -> Prop :=
| step_others n d : delete_step ht d (others (call_of env n) d)
| step_swap_peers d : delete_step ht d (swap_peers env d)
| step_intents ps now d : delete_step ht d (register_pending_objects ht ps now d).2.

Lemma delete_step_kept ht d d1 :
  (forall n d, kept d (others (call_of env n) d)) -> (forall d, kept d (swap_peers env d)) ->
  rtc (delete_step ht) d d1 -> kept d d1.
Proof. intros Ok Sk. apply rtc_within; [apply _|]. intros a b [n x|x|ps now x]; eauto using register_kept. Qed.

Lemma intent_steps ht ps w r w' :
  catalog_write (call_of env) (fun c => register_pending_objects ht ps (call_now c)) w = (r, w') ->
  rtc (delete_step ht) (w_db w) (w_db w').
Proof.
  unfold catalog_write. set (c := call_of env (w_calls w)).
  pose proof (autocommit_R (rtc (delete_step ht)) (write_outcome c) (register_pending_objects ht ps (call_now c))
    (others c (w_db w)) (rtc_once _ _ (step_intents ht ps (call_now c) _))) as A.
  destruct (autocommit _ _ _) as [r0 d]. intros [= _ <-]. eapply rtc_l; [apply step_others|exact A].
Qed.

Lemma delete_from_part_steps hypertable cols key part acc w r w' :
  delete_from_part env hypertable cols key part acc w = (r, w') ->
  rtc (delete_step (ht_id hypertable)) (w_db w) (w_db w').
Proof.
  destruct acc as [st new]. unfold delete_from_part. destruct (_ && _); [by intros [= _ <-]|].
  unfold bind, liftr. destruct (read_parts_for_rewrite _ _ _ _) as [batch|e]; [|by intros [= _ <-]].
  destruct (int64_column _ _) as [ks|e]; [|by intros [= _ <-]]. cbv zeta.
  destruct (Nat.eqb _ _); [by intros [= _ <-]|].
  destruct (key_range _ _) as [rg|e]; [|by intros [= _ <-]].
  destruct (batch_to_parquet_key_aligned _ _ _ _ _ _ _ _) as [file|e]; [|by intros [= _ <-]].
  destruct (catalog_write _ _ w) as [[[]|e] w1] eqn:Rg; apply intent_steps in Rg; [|by intros [= _ <-]].
  unfold store_put. destruct (put_fails _ _) as [[e []]|]; by intros [= _ <-].
Qed.

Lemma delete_from_parts_steps hypertable cols key ps acc w r w' :
  delete_from_parts env hypertable cols key ps acc w = (r, w') ->
  rtc (delete_step (ht_id hypertable)) (w_db w) (w_db w').
Proof.
  revert acc w. induction ps as [|part ps IH]; intros acc w; cbn [delete_from_parts]; [by intros [= _ <-]|].
  unfold bind. destruct (delete_from_part _ _ _ _ _ _ w) as [[acc1|e] w1] eqn:E; apply delete_from_part_steps in E.
  - intros E1%IH. by etransitivity.
  - by intros [= _ <-].
Qed.

(** C10: deleting a key erases that key and nothing else: every part overlapping
    it is either wholly the key's and dropped, or rewritten to a file that
    holds exactly the rows of other keys in their order (a NULL key, which no
    writer stores, goes too), under metadata that
    describes them (no file when no row is left); the count returned is the
    rows lost.  The catalog its swap ran against is the one it found, but for
    what others committed and its intents -- so with the same parts and commits
    where the others leave those alone -- and there, either one commit swapped
    precisely the parts that were read, all still live, for the rewritten ones,
    or this very operation had been applied before and nothing changed. *)
Theorem deletion_erases_the_key hypertable key w stats w' cols j ix :
  try_new_checks -> honest (swap_tx env) -> table_ok hypertable cols j ix ->
  let c := call_of env (w_calls w) in
  let ht := ht_id hypertable in
  let overlapping := live_parts (tables (others c (w_db w))) ht (Some key) in
  Forall (fun part => ~ fresh_path ht (path (meta part))) overlapping ->
  delete_key env hypertable key w = (Ok stats, w') ->
  (overlapping = [] /\ stats = no_deletion /\ w_store w' = w_store w) \/
  exists outs d1 identity,
    Forall2 (fun part o => erased cols (packing_key hypertable) j key (w_store w) part o.1 o.2) overlapping outs /\
    rows_deleted stats = sum outs.*1 /\
    w_store w' = add_objects (files_of (concat outs.*2)) (w_store w) /\
    deletion_identity hypertable key (List.map part_id overlapping) = Ok identity /\
    rtc (delete_step ht) (w_db w) d1 /\
    ((forall n d, kept d (others (call_of env n) d)) -> (forall d, kept d (swap_peers env d)) -> kept (w_db w) d1) /\
    ((exists id, tables (w_db w') = tables d1 /\ already ht (Some identity) (tables d1) id) \/
     exists id,
       applied b64_decode tm_deserialize (swap_tx env) ht
         (Replace (List.map part_id overlapping) (concat outs.*2).*1) (Some identity) [] None d1 (w_db w') id /\
       exists new, List.map pr_meta new = (concat outs.*2).*1 /\
         forall r, r ∈ live_rows ht (tables (w_db w')) <->
           (r ∈ live_rows ht (tables d1) /\ pr_id r ∉ List.map part_id overlapping) \/ r ∈ new).
Proof.
  intros T Hon To c ht overlapping Fr E. unfold delete_key in E. apply m_bind_Ok in E as (ps & w1 & Rd & E).
  unfold catalog_read in Rd. fold c in Rd. destruct (read_error c) as [e|]; [done|]. injection Rd as <- <-.
  change (tables (w_db _)) with (tables (others c (w_db w))) in E. fold ht overlapping in E.
  destruct overlapping as [|p ps] eqn:Ov; [injection E as <- <-; by left|right].
  rewrite <- Ov in *. clear p ps Ov.
  apply m_bind_Ok in E as (identity & w1 & [Id ->]%liftr_Ok & E).
  apply m_bind_Ok in E as (cols' & w1 & [Pc ->]%liftr_Ok & E).
  pose proof (to_cols _ _ _ _ To) as Pc'. rewrite Pc' in Pc. injection Pc as <-.
  apply m_bind_Ok in E as ([st new] & w1 & Dp & E). apply m_bind_Ok in E as ([] & w2 & Sw & E). injection E as <- <-.
  pose proof (delete_from_parts_steps _ _ _ _ _ _ _ _ Dp) as Steps.
  eapply delete_from_parts_spec in Dp as (outs & F & -> & R & St); [|exact T|exact To|exact Fr|].
  2:{ apply Forall_forall. intros q _. reflexivity. }
  unfold swap in Sw. destruct (Commit.commit _ _ _ _ _ _ _ _) as [[r d] fl] eqn:C.
  destruct r as [r|e]; [|done]. injection Sw as <-. simpl in St.
  set (d1 := swap_peers env (w_db w1)) in *.
  assert (Rtc : rtc (delete_step ht) (w_db w) d1).
  { eapply rtc_l; [apply (step_others ht (w_calls w))|]. eapply rtc_r; [exact Steps|apply step_swap_peers]. }
  exists outs, d1, identity. split_and!; try done.
  { intros Ok Sk. by eapply delete_step_kept. }
  apply commit_txn_cases in C; [|done]. destruct r as [id|id].
  - right. exists id. split; [exact C|].
    exists (fresh_rows b64_decode tm_deserialize (parts_id_seq (seqs d1)) ht id (concat outs.*2).*1).
    split; [apply fresh_rows_metas|].
    intros r. exact (applied_live b64_decode tm_deserialize _ _ _ _ _ _ _ _ _ r C).
  - left. exists id. destruct C as [C1 C2]. by split.
Qed.

End deletion.
End DeletionSpec.

(** * The deletion theorem applied

    Three files, one of them the key's own: key 3 is erased from the day. *)

Import CatalogError CatalogDb CommitSpec CommitTheorems CommitExamples Leases Parts Batches Merge Rewrite RewriteSpec Compactor CompactorSpec CompactorExamples Deletion DeletionSpec.

Module DeletionExamples.

Definition own : PartRow := mkPartRow 3 1 (mkPartMeta "c" CommitExamples.day 3 3 5 20 0 None) None 2 None None.
Definition db3 : DbState :=
  mkDb (with_parts (tables CompactorExamples.db) [l0 1 "a"; l0 2 "b"; own]) (mkSeqs 1 0 2 3 3 0 0).
Definition store3 : Store := <["c"%string := [CWrite (k_batch [3; 3]); CFlush; CClose]]> CompactorExamples.store.
Definition erase_env : DeleteEnv :=
  mkDeleteEnv env no_fault (fun calls => len calls) demo_path (fun _ => None) (fun d => d) (quiet 7).
Definition start : World := mkWorld db3 store3 0 0 ∅ ∅ no_stats.
Definition erasing := delete_key erase_env table 3 start.

Lemma erasing_eq : delete_key erase_env table 3 start = (Ok (mkDeletion 1 2 7), erasing.2).
Proof. vm_compute. reflexivity. Qed.

Example erased_files :
  (fun p => w_store erasing.2 !! p) <$> ["ht/1/L0/0.parquet"; "ht/1/L0/1.parquet"]%string
  = [Some [CWrite (k_batch [1]); CFlush; CClose]; Some [CWrite (k_batch [2]); CFlush; CClose]].
Proof. vm_compute. reflexivity. Qed.

Lemma checks : try_new_checks.
Proof. intros s cs. apply Expr.ex_try_checks. Qed.

Lemma paths_fresh :
  Forall (fun part => ~ fresh_path erase_env (ht_id table) (path (meta part)))
    (live_parts (tables db3) (ht_id table) (Some 3)).
Proof.
  assert (E : List.map (fun p => path (meta p)) (live_parts (tables db3) (ht_id table) (Some 3)) = ["a"; "b"; "c"]%string)
    by (vm_compute; reflexivity).
  apply Forall_forall. intros q Hq (lvl & n & F).
  assert (I : path (meta q) ∈ ["a"; "b"; "c"]%string).
  { rewrite <- E. by apply list_elem_of_In, (List.in_map (fun p => path (meta p))), list_elem_of_In. }
  rewrite F in I. unfold rewritten_path in I. simpl in I.
  rewrite !elem_of_cons, elem_of_nil in I. destruct I as [I|[I|[I|[]]]]; discriminate I.
Qed.

Lemma deletion_erases_the_key_witness : exists outs d1, 7 = sum outs.*1 /\
  w_store erasing.2 = add_objects (files_of (concat outs.*2)) store3 /\
  parts (tables d1) = parts (tables db3).
Proof.
  destruct (deletion_erases_the_key erase_env table 3 start (mkDeletion 1 2 7) erasing.2 cols 0 []
    checks (quiet_honest 7) demo_table_ok paths_fresh erasing_eq) as [(E & _)|(outs & d1 & i & _ & R & S & _ & _ & K & _)].
  - discriminate E.
  - exists outs, d1. split; [exact R|]. split; [exact S|].
    exact (proj1 (K (fun _ d => kept_refl d) kept_refl)).
Defined.

End DeletionExamples.
