(* ===== verification/Write.v ===== *)
(** * Writing level-0 files (crates/ukiel-write/src/lib.rs, ukiel-core's sort_batch)

    Sorting and encoding a batch, adapting query output to a table and
    splitting it by partition, and publishing files: intent, upload, one commit.
    Other processes act between the calls to the catalog and any call may fail;
    both are inputs ([WriteEnv]). *)

From S2P Require Import Prelude Bytes Json Types Arrow Schema Stats Operation CatalogError CatalogDb Commit CatalogGc Batches Expr Rewrite Compactor.
Import CatalogError CatalogDb CatalogGc Batches Rewrite.

(** What the writers run on besides the [Platform]: Arrow's sort, cast and size
    of arrays, the JSON text and float numbers of serde_json. *)
Class WritePlatform := {
  platform :: Platform;
  lexsort_to_indices : list ArrayRef -> result (list nat) string;
  cast : ArrayRef -> DataType -> result ArrayRef string;
  can_cast_types : DataType -> DataType -> bool;
  array_memory_size : RecordBatch -> Z;
  json_text : json -> string;
  number_from_f64 : Opaque -> option json_number;
  file_length : list WriterCall -> Z;
}.

Module Write.

Inductive WriteError :=
| WCatalog (e : CatalogError)
| WObjectStore (e : string)
| WSchema (e : Schema.SchemaError)
| WArrow (e : string)
| WParquet (e : string)
| WExpr (e : Expr.ExprError)
| WSortKey (e : Schema.SortKeyError)
| InvalidTarget (why : string)
| BudgetExceeded (bytes : Z)
| EmptyBatch.

(** [bytes] is the file as the calls that wrote it. *)
Record EncodedPart := mkEncoded {
  bytes : list WriterCall;
  ep_row_count : Z;
  key_min : Z;
  key_max : Z;
  ep_column_stats : option json;
}.

Record FlushItem := mkItem { item_partition : json; item_part : EncodedPart }.

Inductive AddCommit :=
| IngestAdd (offsets : list Commit.OffsetRange) (identity : Operation.OperationIdentity)
| PlainAdd (identity : Operation.OperationIdentity).

Definition add_identity (c : AddCommit) : Operation.OperationIdentity :=
  match c with IngestAdd _ i | PlainAdd i => i end.

(** ** Arrow's kernels *)

(** [take]: the slots asked for, in that order. *)
Definition array_take (indices : list nat) (a : ArrayRef) : ArrayRef :=
  match a with
  | Int64Array vs => Int64Array (omap (vs !!.) indices)
  | OtherArray t vs => OtherArray t (omap (vs !!.) indices)
  end.

Definition batch_take (indices : list nat) (b : RecordBatch) : RecordBatch :=
  mkBatch (rb_schema b) (List.map (array_take indices) (rb_columns b)).

(** A [Utf8] value's bytes as text. *)
Definition utf8_text (v : Opaque) : string :=
  String.string_of_list_ascii (List.map (fun b => Ascii.ascii_of_N (Z.to_N b)) v).

Definition null_count (a : ArrayRef) : Z :=
  match a with
  | Int64Array vs => len (List.filter (fun v => bool_decide (v = None)) vs)
  | OtherArray _ vs => len (List.filter (fun v => bool_decide (v = None)) vs)
  end.

(** A partition's text, to its value and rows. *)
Abbreviation Groups := (gmap string (json * list nat)).

Section write.
Context `{Jsonb} `{WritePlatform}.
(** The in-memory Parquet writer's failures. *)
Context (writer_fails : list WriterCall -> option string).

(** ** Sorting and encoding one batch *)

Definition sort_batch (batch : RecordBatch) (sort_key : list string) : result RecordBatch Schema.SortKeyError :=
  let? columns := mapr (fun name =>
    ok_or (index_of (rb_schema batch) name ≫= (rb_columns batch !!.)) (Schema.UnknownColumn name)) sort_key in
  let? indices := map_err Schema.SortArrow (lexsort_to_indices columns) in
  let sorted := List.map (array_take indices) (rb_columns batch) in
  match Expr.try_new_error (rb_schema batch) sorted with
  | Some e => Err (Schema.SortArrow e)
  | None => Ok (mkBatch (rb_schema batch) sorted)
  end.

Fixpoint writer_calls (made todo : list WriterCall) : result (list WriterCall) string :=
  match writer_fails made with
  | Some e => Err e
  | None => match todo with [] => Ok made | c :: todo => writer_calls (made ++ [c]) todo end
  end.

Definition encode_batch (batch : RecordBatch) (packing_key : string) (sort_key : list string)
    (opts : Schema.WriteOpts) : result EncodedPart WriteError :=
  let? column := ok_or (index_of (rb_schema batch) packing_key ≫= (rb_columns batch !!.))
                   (WArrow "unknown column") in
  let? keys := ok_or (as_int64 column) (InvalidTarget "packing key must be Int64") in
  if 0 <? null_count column then Err (InvalidTarget "packing key contains NULL")
  else
    let? key_min := ok_or (column_min keys) EmptyBatch in
    let? key_max := ok_or (column_max keys) EmptyBatch in
    let column_stats :=
      Stats.with_key_index (Stats.int64_column_stats batch)
        (if negb (key_min =? key_max) then Stats.key_bitmap tm_serialize b64_encode batch packing_key else None)
        None in
    let? bytes := map_err WParquet (writer_calls [] [CWrite batch; CClose]) in
    Ok (mkEncoded bytes (Z.of_nat (num_rows batch)) key_min key_max column_stats).

(** ** A query's output as files of a table *)

Definition partition_columns (target : Hypertable) : result (list string) WriteError :=
  match jget (partition_spec target) "columns" ≫= as_array with
  | None => Err (InvalidTarget "partition spec must contain a columns array")
  | Some columns => mapr (fun c => ok_or (as_str c) (InvalidTarget "partition columns must be names")) columns
  end.

Definition required_columns (target : Hypertable) (partitions : list string) : list string :=
  sort_key target ++ partitions ++ [packing_key target].

(** The checks of the two loops of [validate_output_schema]. *)
Definition check_output_field (cols : Schema.TableColumns) (f : Field) : result unit WriteError :=
  match List.find (fun c => String.eqb (Schema.name c) (f_name f)) (Schema.specs cols) with
  | None => Err (InvalidTarget ("unknown output column " +:+ f_name f))
  | Some spec =>
      match Schema.column_kind spec with
      | Schema.Alias _ | Schema.Materialized _ =>
          Err (InvalidTarget ("column " +:+ Schema.name spec +:+ " is not writable"))
      | _ =>
          if negb (can_cast_types (f_type f) (Schema.data_type spec))
          then Err (InvalidTarget ("column " +:+ Schema.name spec +:+ " cannot be cast"))
          else Ok tt
      end
  end.

Definition missing_required (output : ArrowSchema) (required : list string) (spec : Schema.ColumnSpec) : bool :=
  match Schema.column_kind spec with
  | Schema.Stored =>
      (negb (Schema.nullable spec) || bool_decide (Schema.name spec ∈ required))
      && negb (has_column output (Schema.name spec))
  | _ => false
  end.

Definition validate_output_schema (output : ArrowSchema) (target : Hypertable) : result unit WriteError :=
  let? cols := map_err WSchema (Schema.parse (table_schema target)) in
  let? partitions := partition_columns target in
  let required := required_columns target partitions in
  let? _ := mapr (check_output_field cols) output in
  match List.find (missing_required output required) (Schema.specs cols) with
  | Some spec => Err (InvalidTarget ("missing required column " +:+ Schema.name spec))
  | None =>
      let physical := Schema.physical_schema cols in
      let? _ := map_err WSortKey (Schema.validate_sort_key physical (sort_key target) (packing_key target) None) in
      let? _ := mapr (fun name => ok_or (index_of physical name) (WArrow "unknown column")) required in
      Ok tt
  end.

(** Two arrays' types: [matches!(t, DataType::Timestamp(_, _))]. *)
Definition is_timestamp (t : DataType) : bool :=
  match t with OtherType s => String.prefix "timestamp(" s | _ => false end.

Definition stored_spec (spec : Schema.ColumnSpec) : bool :=
  match Schema.column_kind spec with Schema.Alias _ => false | _ => true end.

Definition adapt_output_column (batch : RecordBatch) (spec : Schema.ColumnSpec) : result ArrayRef WriteError :=
  match index_of (rb_schema batch) (Schema.name spec) ≫= (rb_columns batch !!.) with
  | Some array =>
      map_err WArrow
        (if String.eqb (Schema.ukiel_type spec) "timestamp_ms" && is_timestamp (array_type array)
         then let? millis := cast array Expr.TimestampMs in cast millis Int64
         else cast array (Schema.data_type spec))
  | None => Ok (PartRead.PartRead.new_null_array (Schema.data_type spec) (num_rows batch))
  end.

Definition try_new (s : ArrowSchema) (cs : list ArrayRef) : result RecordBatch WriteError :=
  match Expr.try_new_error s cs with Some e => Err (WArrow e) | None => Ok (mkBatch s cs) end.

(** A column the table does not allow to hold NULL, holding one. *)
Definition forbidden_null (schema : ArrowSchema) (columns : list ArrayRef) : option string :=
  f_name ∘ fst <$> List.find (fun fc => negb (f_nullable fc.1) && (0 <? null_count fc.2)) (zip schema columns).

(** One batch of the output as a batch of the table. *)
Definition adapt_output (cols : Schema.TableColumns) (target : Hypertable) (batch : RecordBatch)
  : result RecordBatch WriteError :=
  let schema := Schema.physical_schema cols in
  let evaluation_schema := List.map (fun f => mkField (f_name f) (f_type f) true (f_metadata f)) schema in
  let? arrays := mapr (adapt_output_column batch) (List.filter stored_spec (Schema.specs cols)) in
  let? adapted := try_new evaluation_schema arrays in
  map_err WExpr (Expr.apply_defaults_and_materialized adapted cols).

Definition check_nulls (schema : ArrowSchema) (target : Hypertable) (filled : RecordBatch)
  : result RecordBatch WriteError :=
  match forbidden_null schema (rb_columns filled) with
  | Some name => Err (InvalidTarget ("NULL in non-null column " +:+ name))
  | None =>
      let? key := ok_or (index_of schema (packing_key target) ≫= (rb_columns filled !!.)) (WArrow "unknown column") in
      if 0 <? null_count key then Err (InvalidTarget "packing key contains NULL")
      else try_new schema (rb_columns filled)
  end.

Definition saturating_add_usize (a b : Z) : Z := Z.min (a + b) (2 ^ 64 - 1).

(** The loop over the batches, with the bytes seen and the bytes filled. *)
Fixpoint adapt_batches (cols : Schema.TableColumns) (target : Hypertable) (max_bytes used materialized : Z)
    (batches : list RecordBatch) : result (list RecordBatch) WriteError :=
  match batches with
  | [] => Ok []
  | batch :: batches =>
      let? _ := validate_output_schema (rb_schema batch) target in
      let used := saturating_add_usize used (array_memory_size batch) in
      if max_bytes <? used then Err (BudgetExceeded max_bytes)
      else if Nat.eqb (num_rows batch) 0 then adapt_batches cols target max_bytes used materialized batches
      else
        let? filled := adapt_output cols target batch in
        let materialized := saturating_add_usize materialized (array_memory_size filled) in
        if max_bytes <? materialized then Err (BudgetExceeded max_bytes)
        else
          let? adapted := check_nulls (Schema.physical_schema cols) target filled in
          let? rest := adapt_batches cols target max_bytes used materialized batches in
          Ok (adapted :: rest)
  end.

(** One column's value of a row, as the partition holds it. *)
Definition partition_value (schema : ArrowSchema) (batch : RecordBatch) (row : nat) (name : string)
  : result (string * json) WriteError :=
  let? array := ok_or (index_of schema name ≫= (rb_columns batch !!.)) (WArrow "unknown column") in
  let? value :=
    match array with
    | Int64Array vs => Ok match vs !! row with Some (Some v) => jint v | _ => JNull end
    | OtherArray t vs =>
        match vs !! row with
        | Some (Some v) =>
            match t with
            | Float64 => let? n := ok_or (number_from_f64 v) (InvalidTarget ("non-finite partition value in " +:+ name)) in
                         Ok (JNumber n)
            | Boolean => Ok (JBool (bool_decide (v = [1])))
            | Utf8 => Ok (JString (utf8_text v))
            | _ => Err (InvalidTarget ("unsupported partition column " +:+ name))
            end
        | _ => Ok JNull
        end
    end in
  Ok (name, value).

Definition partition_of_row (schema : ArrowSchema) (partitions : list string) (batch : RecordBatch) (row : nat)
  : result json WriteError :=
  let? values := mapr (partition_value schema batch row) partitions in
  Ok (JObject (List.fold_left (fun m kv => jinsert kv.1 kv.2 m) values [])).

Definition push_row (groups : Groups) (value : json) (row : nat) : Groups :=
  let '(v, rows) := default (value, []) (groups !! json_text value) in
  <[json_text value := (v, rows ++ [row])]> groups.

Fixpoint group_rows (schema : ArrowSchema) (partitions : list string) (batch : RecordBatch) (rows : list nat)
    (groups : Groups) : result Groups WriteError :=
  match rows with
  | [] => Ok groups
  | row :: rows =>
      let? value := partition_of_row schema partitions batch row in
      group_rows schema partitions batch rows (push_row groups value row)
  end.

Definition text_le (a b : string * (json * list nat)) : Prop := Expr.name_le a.1 b.1.
#[local] Instance text_le_dec a b : Decision (text_le a b).
Proof. unfold text_le; apply _. Defined.

Definition item_of_group (cols : Schema.TableColumns) (target : Hypertable) (batch : RecordBatch)
    (group : string * (json * list nat)) : result FlushItem WriteError :=
  let? sorted := map_err WSortKey (sort_batch (batch_take group.2.2 batch) (sort_key target)) in
  let? part := encode_batch sorted (packing_key target) (sort_key target)
                 (Schema.from_columns cols (sort_key target) 0) in
  Ok (mkItem group.2.1 part).

Definition batches_to_l0_items (batches : list RecordBatch) (target : Hypertable) (max_bytes : Z)
  : result (list FlushItem) WriteError :=
  let? cols := map_err WSchema (Schema.parse (table_schema target)) in
  let schema := Schema.physical_schema cols in
  let? partitions := partition_columns target in
  let? adapted := adapt_batches cols target max_bytes 0 0 batches in
  match adapted with
  | [] => Ok []
  | _ =>
      let batch := cat schema adapted in
      if 2 ^ 32 - 1 <? Z.of_nat (num_rows batch) then Err (InvalidTarget "too many output rows for one write")
      else
        let? groups := group_rows schema partitions batch (seq 0 (num_rows batch)) ∅ in
        mapr (item_of_group cols target batch) (merge_sort text_le (map_to_list groups))
  end.

End write.
End Write.
