(* ===== verification/Publish.v ===== *)
(** * Publishing files (crates/ukiel-write/src/lib.rs, [L0Writer])

    The intent for every path, then the uploads, then one commit that adds the
    parts -- with the Kafka offsets they consume, when an ingest publishes. *)

From S2P Require Import Prelude Bytes Json Types Arrow Operation CatalogError CatalogDb Commit CatalogGc Rewrite Compactor Write CommitSpec CompactorSpec.
Import CatalogError CatalogDb CatalogGc Rewrite Write.

(** The catalog, the object store, and how many calls and names were used. *)
Record Sys := mkSys {
  sy_db : CatalogDb.DbState;
  sy_store : Compactor.Store;
  sy_calls : nat;
  sy_names : nat;
}.

(** What surrounds each call to the catalog -- what others commit first, whether
    a read fails, how a statement ends, a transaction's course -- the names
    drawn, and the puts that fail, the object stored or not. *)
Record WriteEnv := mkWriteEnv {
  peers_at : nat -> CatalogDb.DbState -> CatalogDb.DbState;
  read_fails : nat -> option SqlxError;
  outcome_at : nat -> CatalogDb.Outcome;
  clock_at : nat -> Z;
  tx_at : nat -> CatalogDb.TxEnv;
  name_at : nat -> string;
  put_fails : string -> option (string * bool);
}.

Module Publish.

(** Steps over the system that may fail. *)
Definition St E A : Type := Sys -> result A E * Sys.
Definition st_ret {E A} (a : A) : St E A := fun s => (Ok a, s).
Definition st_lift {E A} (r : result A E) : St E A := fun s => (r, s).
Definition st_bind {E A B} (m : St E A) (k : A -> St E B) : St E B := fun s =>
  let '(r, s) := m s in match r with Ok a => k a s | Err e => (Err e, s) end.
Definition st_map_err {E F A} (f : E -> F) (m : St E A) : St F A := fun s =>
  let '(r, s) := m s in (map_err f r, s).

Lemma st_bind_Ok {E A B} (m : St E A) (k : A -> St E B) s b s' :
  st_bind m k s = (Ok b, s') -> exists a s1, m s = (Ok a, s1) /\ k a s1 = (Ok b, s').
Proof. unfold st_bind. destruct (m s) as [[a|e] s1]; [eauto|done]. Qed.

Lemma st_map_err_Ok {E F A} (f : E -> F) (m : St E A) s a s' : st_map_err f m s = (Ok a, s') -> m s = (Ok a, s').
Proof. unfold st_map_err. destruct (m s) as [[x|e] s1]; simpl; [by intros [= -> ->]|done]. Qed.

Lemma st_lift_Ok {E A} (r : result A E) s a s' : st_lift r s = (Ok a, s') -> r = Ok a /\ s' = s.
Proof. unfold st_lift. by intros [= -> ->]. Qed.

Section publish.
Context `{Jsonb} `{WritePlatform} (env : WriteEnv).

Definition with_db (s : Sys) (d : DbState) : Sys := mkSys d (sy_store s) (S (sy_calls s)) (sy_names s).

Definition catalog_read {A} (f : Tables -> result A CatalogError) : St CatalogError A := fun s =>
  let n := sy_calls s in
  let d := peers_at env n (sy_db s) in
  match read_fails env n with
  | Some e => (Err (Db e), with_db s d)
  | None => (f (tables d), with_db s d)
  end.

Definition catalog_write {A} (f : Z -> DbState -> result A CatalogError * DbState) : St CatalogError A := fun s =>
  let n := sy_calls s in
  let '(r, d) := autocommit (outcome_at env n) (f (clock_at env n)) (peers_at env n (sy_db s)) in
  (r, with_db s d).

Definition catalog_commit (f : TxEnv -> DbState -> result CommitResult CatalogError * DbState * Z)
  : St CatalogError CommitResult := fun s =>
  let n := sy_calls s in
  let '(r, d, _) := f (tx_at env n) (peers_at env n (sy_db s)) in
  (r, with_db s d).

(** [Uuid::new_v4]. *)
Definition new_name {E} : St E string := fun s =>
  (Ok (name_at env (sy_names s)), mkSys (sy_db s) (sy_store s) (sy_calls s) (S (sy_names s))).

Definition put (path : string) (bytes : list WriterCall) : St WriteError unit := fun s =>
  let stored := mkSys (sy_db s) (<[path := bytes]> (sy_store s)) (sy_calls s) (sy_names s) in
  match put_fails env path with
  | None => (Ok tt, stored)
  | Some (e, landed) => (Err (WObjectStore e), if landed : bool then stored else s)
  end.

Definition l0_path (ht : HypertableId) (name : string) : string :=
  ("ht/" +:+ pretty ht +:+ "/L0/" +:+ name +:+ ".parquet")%string.

Fixpoint prepare (ht : HypertableId) (items : list FlushItem) : St WriteError (list (string * FlushItem)) :=
  match items with
  | [] => st_ret []
  | item :: items =>
      st_bind new_name (fun name =>
      st_bind (prepare ht items) (fun rest => st_ret ((l0_path ht name, item) :: rest)))
  end.

Definition part_of_item (path : string) (item : FlushItem) : PartMeta :=
  let p := item_part item in
  mkPartMeta path (item_partition item) (key_min p) (key_max p) (ep_row_count p) (file_length (bytes p)) 0
    (ep_column_stats p).

Fixpoint upload (prepared : list (string * FlushItem)) : St WriteError (list PartMeta) :=
  match prepared with
  | [] => st_ret []
  | (path, item) :: rest =>
      st_bind (put path (bytes (item_part item))) (fun _ =>
      st_bind (upload rest) (fun parts => st_ret (part_of_item path item :: parts)))
  end.

Definition commit_add (ht : HypertableId) (op : CommitOp) (commit : AddCommit) : St CatalogError CommitResult :=
  match commit with
  | IngestAdd offsets identity =>
      catalog_commit (fun tx d =>
        Commit.commit_with_offsets b64_decode tm_deserialize tx ht op offsets identity 0 d)
  | PlainAdd identity =>
      catalog_commit (fun tx d => Commit.commit b64_decode tm_deserialize tx ht op (Some identity) 0 d)
  end.

(** No statement is sent for no path. *)
Definition register_all (ht : HypertableId) (paths : list string) : St WriteError unit :=
  match paths with
  | [] => st_ret tt
  | _ => st_map_err WCatalog (catalog_write (register_pending_objects ht paths))
  end.

Definition publish_add (target : Hypertable) (items : list FlushItem) (commit : AddCommit)
  : St WriteError CommitResult :=
  let identity := add_identity commit in
  if negb (Operation.hypertable_id identity =? ht_id target)
  then st_lift (Err (WCatalog (OperationHypertableMismatch (Operation.hypertable_id identity) (ht_id target))))
  else
    st_bind (prepare (ht_id target) items) (fun prepared =>
    st_bind (register_all (ht_id target) (List.map fst prepared)) (fun _ =>
    st_bind (upload prepared) (fun parts =>
    st_map_err WCatalog (commit_add (ht_id target) (Add parts) commit)))).

End publish.
End Publish.

(** * What a publication leaves behind

    On success: one commit of exactly the items' parts, and every item's object
    stored.  Whatever fails: every object stored is named by an upload intent
    or by a part, so that none is ever lost track of. *)

Import CatalogError CatalogDb CommitSpec CommitTheorems CatalogGc Rewrite CompactorSpec Write Publish.

Module PublishSpec.

Section publish.
Context `{Jsonb} `{WritePlatform} (env : WriteEnv).

Abbreviation Prepared := (list (string * FlushItem)).

Definition part_of (pi : string * FlushItem) : PartMeta := part_of_item pi.1 pi.2.
Definition object_of (pi : string * FlushItem) : string * list WriterCall := (pi.1, bytes (item_part pi.2)).

Lemma prepare_spec ht items s : exists prepared s1,
  prepare env ht items s = (Ok prepared, s1) /\ prepared.*2 = items /\ sy_db s1 = sy_db s /\ sy_store s1 = sy_store s /\
  sy_calls s1 = sy_calls s /\ forall p, p ∈ prepared.*1 -> exists n, p = l0_path ht (name_at env n).
Proof.
  revert s. induction items as [|i items IH]; intros s; simpl.
  - exists [], s. split_and!; try done. intros p Hp. by apply elem_of_nil in Hp.
  - unfold st_bind at 1, new_name. simpl.
    destruct (IH (mkSys (sy_db s) (sy_store s) (sy_calls s) (S (sy_names s)))) as (pr & s1 & E & M & D & St & Ca & Na).
    unfold st_bind. rewrite E. eexists _, s1. split_and!; try done; [exact (f_equal (cons i) M)|]. simpl.
    intros p [->|Hp]%elem_of_cons; eauto.
Qed.

Lemma upload_Ok prepared s parts s' :
  upload env prepared s = (Ok parts, s') ->
  parts = List.map part_of prepared /\ sy_db s' = sy_db s /\ sy_calls s' = sy_calls s /\
  sy_store s' = Compactor.add_objects (List.map object_of prepared) (sy_store s).
Proof.
  revert s parts. induction prepared as [|[p i] pr IH]; intros s parts E; simpl in E; [by injection E as <- <-|].
  apply st_bind_Ok in E as ([] & s1 & Pt & E). apply st_bind_Ok in E as (ps & s2 & U & E). injection E as <- <-.
  unfold put in Pt. destruct (put_fails env p) as [[e l]|]; [done|]. injection Pt as <-.
  apply IH in U as (-> & D & Ca & St). done.
Qed.

(** Whatever happens, an upload touches only the paths it was given. *)
Lemma upload_touches prepared s r s' :
  upload env prepared s = (r, s') ->
  sy_db s' = sy_db s /\ forall p, p ∉ prepared.*1 -> sy_store s' !! p = sy_store s !! p.
Proof.
  revert s r s'. induction prepared as [|[p i] pr IH]; intros s r s' E; simpl in E; [by injection E as _ <-|].
  assert (Put : forall r1 s1, put env p (bytes (item_part i)) s = (r1, s1) ->
    sy_db s1 = sy_db s /\ forall q, q <> p -> sy_store s1 !! q = sy_store s !! q).
  { intros r1 s1. unfold put. destruct (put_fails env p) as [[e []]|]; intros [= _ <-]; simpl; (split; [done|]);
      intros q Hq; by rewrite ?lookup_insert_ne. }
  unfold st_bind in E. destruct (put env p (bytes (item_part i)) s) as [[[]|e] s1] eqn:Pt; specialize (Put _ _ eq_refl) as [D1 S1].
  - destruct (upload env pr s1) as [[ps|e] s2] eqn:U; destruct (IH _ _ _ U) as [D2 S2]; injection E as _ <-;
      (split; [congruence|]); simpl; intros q [Hq Hn]%not_elem_of_cons; by rewrite S2, S1.
  - injection E as _ <-. split; [done|]. simpl. intros q [Hq _]%not_elem_of_cons. by apply S1.
Qed.

Definition add_offsets (c : AddCommit) : list Commit.OffsetRange :=
  match c with IngestAdd offsets _ => offsets | PlainAdd _ => [] end.

Lemma commit_add_eq ht op c s :
  exists d1, d1 = peers_at env (sy_calls s) (sy_db s) /\
  forall r s', commit_add env ht op c s = (r, s') ->
    sy_store s' = sy_store s /\ sy_calls s' = S (sy_calls s) /\
    exists f, Commit.commit_txn b64_decode tm_deserialize (tx_at env (sy_calls s)) ht op
      (Some (add_identity c)) (add_offsets c) None 0 d1 = (r, sy_db s', f).
Proof.
  eexists. split; [reflexivity|]. intros r s'. destruct c as [offs i|i]; simpl; unfold catalog_commit;
    unfold Commit.commit_with_offsets, Commit.commit;
    destruct (Commit.commit_txn _ _ _ _ _ _ _ _ _ _) as [[r' d] f] eqn:E; intros [= <- <-]; simpl; eauto.
Qed.

(** Before its commit a publication only lets others commit and records its
    intents. *)
Inductive publish_step (ht : HypertableId) : DbState -> DbState -> Prop :=
| step_peers n d : publish_step ht d (peers_at env n d)
| step_intents ps now d : publish_step ht d (register_pending_objects ht ps now d).2.

Lemma register_all_steps ht paths s r s' :
  register_all env ht paths s = (r, s') ->
  sy_store s' = sy_store s /\ rtc (publish_step ht) (sy_db s) (sy_db s').
Proof.
  unfold register_all. destruct paths as [|p ps]; [by intros [= _ <-]|].
  unfold st_map_err, catalog_write. set (n := sy_calls s).
  pose proof (autocommit_R (rtc (publish_step ht)) (outcome_at env n) (register_pending_objects ht (p :: ps) (clock_at env n))
    (peers_at env n (sy_db s)) (rtc_once _ _ (step_intents ht (p :: ps) (clock_at env n) _))) as A.
  destruct (autocommit _ _ _) as [r0 d]. intros [= _ <-]. split; [done|]. eapply rtc_l; [apply step_peers|exact A].
Qed.

(** A publication that succeeds. *)
Lemma publish_add_Ok target items c s r s' :
  publish_add env target items c s = (Ok r, s') ->
  Operation.hypertable_id (add_identity c) = ht_id target /\
  exists prepared n d1 f, prepared.*2 = items /\
    Commit.commit_txn b64_decode tm_deserialize (tx_at env n) (ht_id target) (Add (List.map part_of prepared))
      (Some (add_identity c)) (add_offsets c) None 0 d1 = (Ok r, sy_db s', f) /\
    sy_store s' = Compactor.add_objects (List.map object_of prepared) (sy_store s) /\
    rtc (publish_step (ht_id target)) (sy_db s) d1.
Proof.
  unfold publish_add. destruct (Z.eqb_spec (Operation.hypertable_id (add_identity c)) (ht_id target)) as [Eh|]; simpl; [|done].
  intros E. split; [done|]. destruct (prepare_spec (ht_id target) items s) as (pr & s1 & Ep & M & D & St & _).
  unfold st_bind at 1 in E. rewrite Ep in E. apply st_bind_Ok in E as ([] & s2 & Rg & E).
  apply register_all_steps in Rg as [S2 R2]. rewrite D in R2.
  apply st_bind_Ok in E as (parts & s3 & U & E). apply upload_Ok in U as (-> & D3 & C3 & S3).
  apply st_map_err_Ok in E. destruct (commit_add_eq (ht_id target) (Add (List.map part_of pr)) c s3) as (d1 & -> & K).
  apply K in E as (S4 & _ & f & T). eexists pr, _, _, f. split_and!; try done; [by rewrite S4, S3, S2, St|].
  eapply rtc_r; [exact R2|]. rewrite D3. apply step_peers.
Qed.

(** ** No object is lost track of *)

(** A path the catalog knows: an upload intent's or a part's. *)
Definition tracked (t : Tables) (p : string) : Prop :=
  p ∈ List.map po_path (pending_objects t) \/ p ∈ List.map (fun r => path (pr_meta r)) (parts t).

Definition forgets_nothing (d d' : DbState) : Prop := forall p, tracked (tables d) p -> tracked (tables d') p.

#[local] Instance forgets_nothing_preorder : PreOrder forgets_nothing.
Proof. split; [by intros d p|]. intros a b c A B p Hp. by apply B, A. Qed.

Lemma register_path_has ht now ps rows p :
  p ∈ ps \/ p ∈ List.map po_path rows ->
  p ∈ List.map po_path (List.fold_left (register_path ht now) ps rows).
Proof.
  revert rows. induction ps as [|q ps IH]; intros rows [Hp|Hp]; simpl; [by apply elem_of_nil in Hp|done| |].
  - apply IH. apply elem_of_cons in Hp as [->|Hp]; [right|by left]. unfold register_path.
    destruct (List.existsb _ rows) eqn:X.
    + apply List.existsb_exists in X as (r & Hr & E%String.eqb_eq). subst q.
      by apply list_elem_of_In, List.in_map.
    + rewrite List.map_app. apply elem_of_app. right. by apply list_elem_of_singleton.
  - apply IH. right. unfold register_path. destruct (List.existsb _ rows); [done|]. rewrite List.map_app. apply elem_of_app. by left.
Qed.

Lemma register_tracks ht ps now d d' :
  register_pending_objects ht ps now d = (Ok tt, d') ->
  forgets_nothing d d' /\ forall p, p ∈ ps -> tracked (tables d') p.
Proof.
  unfold register_pending_objects. destruct ps as [|q ps].
  - intros [= <-]. split; [done|]. intros p Hp. by apply elem_of_nil in Hp.
  - destruct (List.existsb _ _); [|done]. intros [= <-]. split.
    + intros p [Hp|Hp]; [left|by right]. apply (register_path_has ht now (q :: ps)). by right.
    + intros p Hp. left. apply (register_path_has ht now (q :: ps)). by left.
Qed.

Lemma effect_tracks tx id ht ps i offs d p :
  tracked (tables d) p -> tracked (effect b64_decode tm_deserialize tx id ht (Add ps) i offs d) p.
Proof.
  unfold tracked. simpl. rewrite List.map_app. intros [Hp|Hp].
  - destruct (decide (p ∈ List.map path ps)) as [I|N].
    + right. apply elem_of_app. right. rewrite <- (List.map_map pr_meta path), fresh_rows_metas. exact I.
    + left. apply list_elem_of_In, List.in_map_iff in Hp as (r & <- & Hr). apply list_elem_of_In, List.in_map_iff.
      exists r. split; [done|]. apply List.filter_In. split; [done|]. by rewrite bool_decide_eq_false_2.
  - right. apply elem_of_app. left. apply list_elem_of_In, List.in_map_iff in Hp as (r & <- & Hr).
    unfold Commit.update_tombstones. rewrite List.map_map. apply list_elem_of_In, List.in_map_iff. exists r.
    split; [|done]. by destruct (Commit.tombstone_hit _ _ _).
Qed.

Lemma commit_tracks ht ps c s r s' :
  (forall n d, forgets_nothing d (peers_at env n d)) -> (forall n, honest (tx_at env n)) ->
  commit_add env ht (Add ps) c s = (r, s') -> forgets_nothing (sy_db s) (sy_db s') /\ sy_store s' = sy_store s.
Proof.
  intros Pe Hon E. destruct (commit_add_eq ht (Add ps) c s) as (d1 & -> & K). apply K in E as (St & _ & f & T).
  split; [|done]. etransitivity; [apply Pe|]. apply commit_txn_cases in T; [|done].
  assert (Same : forall d d', tables d' = tables d -> forgets_nothing d d') by (intros d d' T0 p; by rewrite T0).
  assert (App : forall d d' id, applied b64_decode tm_deserialize (tx_at env (sy_calls s)) ht (Add ps)
                  (Some (add_identity c)) (add_offsets c) None d d' id -> forgets_nothing d d').
  { intros d d' id (-> & _ & _ & _ & T' & _) p Hp. rewrite T'. by apply effect_tracks. }
  destruct r as [[id|id]|e]; [by eapply App|by apply Same, T|]. destruct T as [T|(id & A & _)]; [by apply Same|by eapply App].
Qed.

Lemma register_forgets_nothing ht ps now d : forgets_nothing d (register_pending_objects ht ps now d).2.
Proof.
  destruct (register_pending_objects ht ps now d) as [[[]|x] d'] eqn:R; [by apply register_tracks in R as [? _]|].
  unfold register_pending_objects in R. destruct ps; [done|]. destruct (List.existsb _ _); [done|].
  by injection R as _ <-.
Qed.

Lemma register_all_spec ht paths s r s' :
  (forall n d, forgets_nothing d (peers_at env n d)) ->
  register_all env ht paths s = (r, s') ->
  forgets_nothing (sy_db s) (sy_db s') /\ sy_store s' = sy_store s /\
  (r = Ok tt -> forall p, p ∈ paths -> tracked (tables (sy_db s')) p).
Proof.
  intros Pe. unfold register_all. destruct paths as [|q qs].
  { intros [= <- <-]. split_and!; [done..|]. intros _ p Hp. by apply elem_of_nil in Hp. }
  unfold st_map_err, catalog_write, autocommit.
  pose proof (register_forgets_nothing ht (q :: qs) (clock_at env (sy_calls s)) (peers_at env (sy_calls s) (sy_db s))) as F.
  assert (P := Pe (sy_calls s) (sy_db s)).
  destruct (outcome_at env (sy_calls s)) as [|e []]; [|intros [= <- <-]; simpl; split_and!; try done; by etransitivity..].
  destruct (register_pending_objects _ _ _ _) as [x d'] eqn:R. intros [= <- <-].
  cbn [snd sy_db sy_store with_db map_err] in *. split_and!; [by etransitivity|done|]. intros E p Hp. destruct x as [[]|]; [|done]. by apply register_tracks in R as [_ T]; apply T.
Qed.

(** C30: wherever a publication stops -- an intent refused, an upload failed, a
    commit lost or ambiguous -- it forgets no upload intent and no part, and
    every object it changed in the store is at a path that an intent or a part
    names: nothing is ever uploaded that garbage collection cannot find. *)
Theorem uploads_are_tracked target items c s r s' :
  (forall n d, forgets_nothing d (peers_at env n d)) -> (forall n, honest (tx_at env n)) ->
  publish_add env target items c s = (r, s') ->
  forgets_nothing (sy_db s) (sy_db s') /\
  forall p, sy_store s' !! p <> sy_store s !! p -> tracked (tables (sy_db s')) p.
Proof.
  intros Pe Hon. unfold publish_add. destruct (negb _); [by intros [= _ <-]|].
  intros E. destruct (prepare_spec (ht_id target) items s) as (pr & s1 & Ep & M & D & St & _).
  unfold st_bind at 1 in E. rewrite Ep in E. unfold st_bind at 1 in E.
  destruct (register_all env (ht_id target) (List.map fst pr) s1) as [rg s2] eqn:Rg.
  apply register_all_spec in Rg as (F2 & S2 & T2); [|done]. rewrite D in F2. rewrite St in S2.
  destruct rg as [[]|e]; [|injection E as _ <-; split; [done|]; intros p Hp; by rewrite S2 in Hp].
  specialize (T2 eq_refl). change (List.map fst pr) with (pr.*1) in T2. unfold st_bind at 1 in E.
  assert (Up : forall s3, sy_db s3 = sy_db s2 -> (forall p, p ∉ pr.*1 -> sy_store s3 !! p = sy_store s2 !! p) ->
    forall p, sy_store s3 !! p <> sy_store s !! p -> tracked (tables (sy_db s2)) p).
  { intros s3 D3 S3 p Hp. destruct (decide (p ∈ pr.*1)) as [I|I]; [by apply T2|]. by rewrite S3, S2 in Hp. }
  destruct (upload env pr s2) as [[parts|e] s3] eqn:U; apply upload_touches in U as [D3 S3].
  - unfold st_map_err in E. destruct (commit_add env (ht_id target) (Add parts) c s3) as [r4 s4] eqn:C.
    injection E as _ <-. apply commit_tracks in C as [F4 S4]; [|done|done]. rewrite D3 in F4.
    split; [by etransitivity|]. intros p Hp. rewrite S4 in Hp. by eapply F4, Up.
  - injection E as _ <-. rewrite D3. split; [done|]. intros p Hp. by eapply Up.
Qed.

End publish.
End PublishSpec.
