(* ===== verification/WriteSpec.v ===== *)
(** * What a level-0 file holds

    A file encodes a permutation of its rows, in sort-key order, under metadata
    that describes them; a query's output is split by partition, every row in
    exactly one file. *)

From S2P Require Import Prelude Bytes Json Types Arrow Schema Stats Operation CatalogError CatalogDb Commit CatalogGc Pruning Batches Expr Merge Rewrite RewriteSpec Compactor CompactorSpec Deletion Write Publish.
Import CatalogError Batches Rewrite RewriteSpec CompactorSpec DeletionSpec Write Publish.

Module WriteSpec.

(** ** Taking rows *)

Lemma omap_lookup_map {A B} (f : A -> B) l ixs :
  omap (List.map f l !!.) ixs = List.map f (omap (l !!.) ixs).
Proof.
  induction ixs as [|i ixs IH]; csimpl; [done|]. rewrite lookup_map. destruct (l !! i); csimpl; by rewrite IH.
Qed.

Lemma take_rows s rows ixs : batch_take ixs (of_rows s rows) = of_rows s (omap (rows !!.) ixs).
Proof.
  unfold batch_take, of_rows. simpl. f_equal. generalize 0%nat. induction s as [|f s IH]; intros j; simpl; [done|].
  rewrite IH. f_equal. unfold cells_array, row_column.
  destruct (f_type f); simpl; by rewrite !omap_lookup_map.
Qed.

Lemma omap_lookup_S {A} (x : A) l ixs : omap ((x :: l) !!.) (List.map S ixs) = omap (l !!.) ixs.
Proof. induction ixs as [|i ixs IH]; csimpl; [done|]. destruct (l !! i); csimpl; by rewrite IH. Qed.

Lemma omap_lookup_seq {A} (l : list A) : omap (l !!.) (seq 0 (length l)) = l.
Proof.
  induction l as [|x l IH]; csimpl; [done|]. f_equal. by rewrite <- List.seq_shift, omap_lookup_S, IH.
Qed.

Lemma take_permutes {A} (l : list A) ixs : ixs ≡ₚ seq 0 (length l) -> omap (l !!.) ixs ≡ₚ l.
Proof. intros P. transitivity (omap (l !!.) (seq 0 (length l))); [by rewrite P|by rewrite omap_lookup_seq]. Qed.

Section write.
Context `{Jsonb} `{WritePlatform} (writer_fails : list WriterCall -> option string).

(** Arrow's sort: a permutation of the rows, in the order of the row format. *)
Definition lexsort_orders : Prop :=
  forall s n b ix columns indices, s <> [] -> batch_ok s n b ->
    Forall2 (fun j c => rb_columns b !! j = Some c) ix columns -> lexsort_to_indices columns = Ok indices ->
    indices ≡ₚ seq 0 (num_rows b) /\
    StronglySorted row_le (List.map (row_key ix) (omap (batch_rows b !!.) indices)).

Definition sort_indices (s : ArrowSchema) (sort_key : list string) (ix : list nat) : Prop :=
  Forall2 (fun nm j => index_of s nm = Some j) sort_key ix.

Lemma sort_batch_spec s n b sk ix sorted :
  lexsort_orders -> s <> [] -> batch_ok s n b -> sort_indices s sk ix -> sort_batch b sk = Ok sorted ->
  exists rows, sorted = of_rows s rows /\ rows ≡ₚ batch_rows b /\ StronglySorted row_le (List.map (row_key ix) rows).
Proof.
  intros Lx Ne B Ix E. pose proof (ok_num_rows s n b Ne B) as N. pose proof (of_rows_batch s n b B N) as Eb.
  unfold sort_batch in E. inv_ok. destruct (Expr.try_new_error _ _); [done|]. injection E as <-.
  assert (F : Forall2 (fun j c => rb_columns b !! j = Some c) ix a).
  { apply mapr_Forall2 in E0. rewrite (ok_schema _ _ _ B) in E0. clear -Ix E0. revert a E0.
    induction Ix as [|nm j sk ix Hj Ix IH]; intros cs C; inversion C as [|? c ? cs' Hc C']; subst; constructor; [|by apply IH].
    rewrite Hj in Hc. simpl in Hc. destruct (rb_columns b !! j); simpl in Hc; [by injection Hc as ->|done]. }
  destruct (lexsort_to_indices a) as [ixs|] eqn:Lc; simpl in E1; [|done]. injection E1 as ->.
  destruct (Lx s n b ix a a0 Ne B F Lc) as [P S].
  exists (omap (batch_rows b !!.) a0). split_and!; [|apply take_permutes; by rewrite batch_rows_length|exact S].
  rewrite <- take_rows, Eb. done.
Qed.

(** A file that holds [rows] under metadata that describes them. *)
Record level0_file (s : ArrowSchema) (pk : string) (j : nat) (rows : list (list Cell)) (part : EncodedPart) : Prop := {
  lf_bytes : bytes part = [CWrite (of_rows s rows); CClose];
  lf_count : ep_row_count part = len rows;
  lf_keys : Forall (fun r => exists k, int_at j r = Some k /\ key_min part <= k <= key_max part) rows;
  lf_described : distinct_names s -> forall path partition,
    Pruning.describes tm_serialize b64_encode (Publish.part_of_item path (mkItem partition part)) (of_rows s rows) pk;
}.

Lemma writer_calls_Ok made todo bs : writer_calls writer_fails made todo = Ok bs -> bs = made ++ todo.
Proof.
  revert made. induction todo as [|c todo IH]; intros made; simpl; destruct (writer_fails made); try done.
  - intros [= <-]. by rewrite app_nil_r.
  - intros E%IH. by rewrite E, <- app_assoc.
Qed.

Lemma no_nulls vs : (0 <? null_count (Int64Array vs)) = false -> exists ks, vs = Some <$> ks.
Proof.
  simpl. unfold len. induction vs as [|[v|] vs IH]; simpl; intros E; [by exists []| |].
  - destruct (IH E) as [ks ->]. by exists (v :: ks).
  - boolp. lia.
Qed.

Lemma encode_batch_spec s pk j f sk opts rows part :
  index_of s pk = Some j -> s !! j = Some f -> f_type f = Int64 ->
  encode_batch writer_fails (of_rows s rows) pk sk opts = Ok part -> level0_file s pk j rows part.
Proof.
  intros Ij Hf Tf. pose proof (column_values_of_rows s rows pk j f Ij Hf Tf) as V.
  assert (Ne : s <> []) by (intros ->; by destruct j).
  unfold encode_batch. cbn [rb_schema of_rows]. rewrite Ij. cbn [mbind option_bind].
  unfold column_values in V. cbn [rb_schema of_rows] in V. rewrite Ij in V. simpl in V.
  change (option_bind _ _ (fun idx => rb_columns (of_rows s rows) !! idx) (Some j)) with (rb_columns (of_rows s rows) !! j).
  cbn [rb_columns of_rows]. destruct (rows_columns s rows 0 !! j) as [c|] eqn:C; simpl in V; [|done].
  destruct c as [vs|]; [|done]. injection V as ->. cbn [ok_or rbind as_int64].
  destruct (0 <? _) eqn:Nn; [done|]. apply no_nulls in Nn as [ks Ek]. intros E.
  inv_ok. destruct (writer_calls _ _ _) as [bs|] eqn:W; [|done]. injection E2 as <-.
  apply writer_calls_Ok in W as ->.
  assert (R : forall k, k ∈ ks -> a <= k <= a0).
  { intros k Hk. rewrite Ek in *. apply (Pruning.value_range_spec (Some <$> ks)); [|by apply list_elem_of_fmap_2].
    unfold value_range. destruct (column_min _), (column_max _); simpl in *; try done.
    by injection E0 as <-; injection E1 as <-. }
  split; simpl.
  - done.
  - rewrite (ok_num_rows s (length rows) _ Ne (of_rows_ok s rows)). done.
  - apply Forall_forall. intros r Hr. assert (Hi : int_at j r ∈ Some <$> ks).
    { rewrite <- Ek. by apply list_elem_of_In, List.in_map, list_elem_of_In. }
    apply list_elem_of_fmap in Hi as (k & -> & Hk). exists k. split; [done|by apply R].
  - intros D p partition. split; simpl; [apply (of_rows_ok s rows)|done| |].
    + intros i v (idx & vs & Hi & Hc & Hv). cbn [rb_schema of_rows] in Hi. rewrite Ij in Hi.
      injection Hi as <-. simpl in Hc. rewrite C in Hc.
      injection Hc as <-. rewrite Ek in Hv. apply list_elem_of_lookup_2, list_elem_of_fmap in Hv as (k & [= ->] & Hk). by apply R.
    + eexists _, _. split; [reflexivity|]. destruct (negb _); auto.
Qed.

(** ** Splitting by partition *)

Lemma batch_take_rows s n b ixs :
  s <> [] -> batch_ok s n b -> exists m, batch_ok s m (batch_take ixs b) /\ batch_rows (batch_take ixs b) = omap (batch_rows b !!.) ixs.
Proof.
  intros Ne B. pose proof (ok_num_rows s n b Ne B) as N.
  assert (Eb : batch_take ixs b = of_rows s (omap (batch_rows b !!.) ixs)) by (by rewrite <- take_rows, (of_rows_batch s n b B N)).
  rewrite Eb. eexists. split; [apply of_rows_ok|]. apply batch_rows_of_rows; [done|]. apply Forall_forall. intros r Hr.
  apply list_elem_of_omap in Hr as (i & _ & Hr). by eapply batch_rows_wf, list_elem_of_lookup_2.
Qed.

Lemma adapt_batches_ok cols target mx batches : try_new_checks -> forall used mat adapted,
  adapt_batches cols target mx used mat batches = Ok adapted -> all_ok (Schema.physical_schema cols) adapted.
Proof.
  intros T. induction batches as [|b batches IH]; intros used mat adapted E; simpl in E; [injection E as <-; constructor|].
  inv_ok. destruct (mx <? _); [done|]. destruct (Nat.eqb (num_rows b) 0); [by eapply IH|]. inv_ok.
  destruct (mx <? _); [done|]. inv_ok. constructor; [|by eapply IH].
  unfold check_nulls in E2. destruct (forbidden_null _ _); [done|]. apply rbind_Ok in E2 as (key & _ & E2).
  destruct (0 <? _); [done|]. unfold try_new in E2. destruct (Expr.try_new_error _ _) eqn:N; [done|].
  injection E2 as <-. by apply T.
Qed.

Section groups.
Context (s : ArrowSchema) (partitions : list string) (b : RecordBatch).

Definition value_of (row : nat) : result json WriteError := partition_of_row s partitions b row.

(** Every row of [rows] is in the group of its partition value's text, once. *)
Record grouped (rows : list nat) (g : Groups) : Prop := {
  gr_all : concat (List.map (fun kv => kv.2.2) (map_to_list g)) ≡ₚ rows;
  gr_text : forall k v rs, g !! k = Some (v, rs) -> json_text v = k /\ (exists r, r ∈ rs /\ value_of r = Ok v) /\
    forall r, r ∈ rs -> exists v', value_of r = Ok v' /\ json_text v' = k;
}.

Lemma grouped_push rows g v row :
  grouped rows g -> value_of row = Ok v -> grouped (rows ++ [row]) (push_row g v row).
Proof.
  intros [A T] V. unfold push_row. destruct (default (v, []) (g !! json_text v)) as [v0 rs0] eqn:D.
  split.
  - destruct (g !! json_text v) as [[v1 rs1]|] eqn:G; simpl in D; injection D as <- <-.
    + rewrite <- (map_to_list_delete g (json_text v) _ G) in A.
      rewrite <- insert_delete_eq, map_to_list_insert by apply lookup_delete_eq. simpl in *.
      rewrite <- A. by rewrite <- !app_assoc, (Permutation_app_comm [row]).
    + rewrite map_to_list_insert by done. simpl. rewrite A. by rewrite Permutation_app_comm.
  - intros k v' rs L. destruct (decide (k = json_text v)) as [->|Ne].
    + rewrite lookup_insert_eq in L. injection L as <- <-.
      destruct (g !! json_text v) as [[v1 rs1]|] eqn:G; simpl in D; injection D as <- <-.
      * destruct (T _ _ _ G) as (E & (r0 & H1 & H2) & R). split_and!; [done|exists r0; split; [set_solver|done]|].
        intros r [Hr| ->%list_elem_of_singleton]%elem_of_app; [by apply R|eauto].
      * split_and!; [done|exists row; split; [by left|done]|]. intros r ->%list_elem_of_singleton. eauto.
    + rewrite lookup_insert_ne in L by done. by apply T.
Qed.

Lemma group_rows_spec rows : forall done g g',
  grouped done g -> group_rows s partitions b rows g = Ok g' -> grouped (done ++ rows) g'.
Proof.
  induction rows as [|r rows IH]; intros dn g g' G E; simpl in E; [injection E as <-; by rewrite app_nil_r|].
  inv_ok. rewrite cons_middle, app_assoc. eapply IH; [|exact E]. by apply grouped_push.
Qed.
End groups.

(** One item of a partition: its rows, sorted, described, all of its value. *)
Definition item_of (s : ArrowSchema) (target : Hypertable) (partitions : list string) (b : RecordBatch) (j : nat)
    (ix : list nat) (rows : list nat) (item : FlushItem) : Prop :=
  rows <> [] /\ (forall r, r ∈ rows -> value_of s partitions b r = Ok (item_partition item)) /\
  exists sorted, sorted ≡ₚ omap (batch_rows b !!.) rows /\ StronglySorted row_le (List.map (row_key ix) sorted) /\
    level0_file s (packing_key target) j sorted (item_part item).

(** a query's output is written whole: the rows of the adapted batches are
    split by partition value into files, every row in exactly one of them and
    no two files of one partition; each file is in sort-key order under
    metadata that describes it.  No row, no file. *)
Theorem query_output_is_partitioned target batches max_bytes items cols partitions adapted j f ix :
  try_new_checks -> lexsort_orders ->   Schema.parse (table_schema target) = Ok cols -> partition_columns target = Ok partitions ->
  adapt_batches cols target max_bytes 0 0 batches = Ok adapted ->
  let s := Schema.physical_schema cols in
  index_of s (packing_key target) = Some j -> s !! j = Some f -> f_type f = Int64 ->
  sort_indices s (sort_key target) ix ->
  let value := value_of s partitions (cat s adapted) in
  (forall r r' v v', value r = Ok v -> value r' = Ok v' -> json_text v = json_text v' -> v = v') ->
  batches_to_l0_items writer_fails batches target max_bytes = Ok items ->
  exists rowss, Forall2 (item_of s target partitions (cat s adapted) j ix) rowss items /\
    concat rowss ≡ₚ seq 0 (num_rows (cat s adapted)) /\ NoDup (List.map item_partition items).
Proof.
  intros Tn Lx Pc Pp Ad s Ij Hf Tf Ix value Ji. subst value. unfold batches_to_l0_items. rewrite Pc. simpl. rewrite Pp. simpl. rewrite Ad. simpl.
  fold s. assert (Ok_b : exists n, batch_ok s n (cat s adapted)) by (eapply cat_ok, adapt_batches_ok; eauto).
  destruct adapted as [|a0 rest] eqn:Ea; [intros [= <-]|rewrite <- Ea in *; clear a0 rest Ea].
  { exists []. split_and!; [constructor| |constructor]. rewrite cat_nil.
    rewrite (ok_num_rows s 0 _); [done|by intros ->; destruct j|apply empty_ok]. }
  destruct Ok_b as [n B]. set (b := cat s adapted) in *. destruct (_ <? _); [done|]. intros E. inv_ok.
  apply (group_rows_spec s partitions b _ [] ∅) in E0; [|split; [by rewrite map_to_list_empty|]; intros k v rs L; by rewrite lookup_empty in L].
  simpl in E0. destruct E0 as [A T]. apply mapr_Forall2 in E.
  set (gs := merge_sort text_le (map_to_list a)) in *.
  assert (Gs : gs ≡ₚ map_to_list a) by apply merge_sort_Permutation.
  exists (List.map (fun kv => kv.2.2) gs). split_and!.
  - apply Forall2_fmap_l. apply Forall2_same_length_lookup. split; [by eapply Forall2_length|].
    intros i [k [v rs]] item Hk Hi. pose proof (Forall2_lookup_lr _ _ _ _ _ _ E Hk Hi) as Ei.
    apply list_elem_of_lookup_2 in Hk. rewrite Gs in Hk. apply elem_of_map_to_list in Hk. destruct (T _ _ _ Hk) as (Et & (r0 & H1 & H2) & R).
    simpl.
    unfold item_of_group in Ei. simpl in Ei. inv_ok. split_and!; [by intros ->; apply elem_of_nil in H1| |].
    + intros r Hr. destruct (R r Hr) as (v' & Hv & Ev). simpl. rewrite Hv. f_equal. apply (Ji r r0); [done..|congruence].
    + assert (Bt : exists m, batch_ok s m (batch_take rs b) /\ batch_rows (batch_take rs b) = omap (batch_rows b !!.) rs).
      { eapply batch_take_rows; [by intros Es; rewrite Es in Ij|exact B]. }
      destruct Bt as (m & Bt & Er). destruct (sort_batch _ _) as [sb|] eqn:Sb; simpl in E0; [|done]. injection E0 as ->.
      destruct (sort_batch_spec s m _ _ ix _ Lx ltac:(by intros Es; rewrite Es in Ij) Bt Ix Sb) as (rows & -> & P & S).
      exists rows. rewrite <- Er. split_and!; [done|done|]. by eapply encode_batch_spec.
  - rewrite <- A. by rewrite Gs.
  - apply (NoDup_fmap_1 json_text). replace (json_text <$> List.map item_partition items) with (gs.*1).
    { rewrite Gs. apply NoDup_fst_map_to_list. }
    clear -E T Gs. assert (I : forall kv, kv ∈ gs -> json_text kv.2.1 = kv.1).
    { intros [k [v rs]] Hk. rewrite Gs in Hk. apply elem_of_map_to_list in Hk. by destruct (T _ _ _ Hk). }
    clear T Gs. induction E as [|kv item gs items Ei E IH]; simpl; [done|].
    f_equal; [|apply IH; intros kv' Hk; apply I; by right].
    rewrite <- (I kv) by left. f_equal. unfold item_of_group in Ei. inv_ok. done.
Qed.

End write.
End WriteSpec.
