(* ===== verification/Ingest.v ===== *)
(** * Ingest (crates/ukiel-ingest/src)

    assignment.rs: which partitions a worker consumes and from where;
    writer.rs: rows to a level-0 file; flusher.rs: one flush as one identified
    commit with its offsets; consumer.rs: a route's buffers, its backpressure
    and its loop over messages, ticks and shutdown; and the worker over its
    route tasks, with the readiness gate they share ([IngestWorker]). *)

From S2P Require Import Prelude Bytes Json Types Arrow Schema Operation CatalogError CatalogDb Commit CatalogGc Parts Tables Batches Expr Rewrite Compactor Write Publish.
Import CatalogError CatalogDb Batches Write Publish.

(** Arrow's JSON decoder, serde_json's parser and chrono's calendar. *)
Class IngestPlatform := {
  write_platform :: WritePlatform;
  decode_json : ArrowSchema -> list json -> result (option RecordBatch) string;
  from_slice : list Z -> option json;
  day_of_millis : Z -> option string;
}.

Module Ingest.

Inductive IngestError :=
| IgSchema (e : Schema.SchemaError)
| IgArrow (e : string)
| IgParquet (e : string)
| IgObjectStore (e : string)
| IgCatalog (e : CatalogError)
| IgKafka (e : string)
| IgExpr (e : Expr.ExprError)
| IgSortKey (e : Schema.SortKeyError)
| IgOperation (e : Operation.OperationError)
| IgMissingColumn (row : nat) (column : string)
| EmptyFlush
| Config (why : string).

Definition of_write_error (e : WriteError) : IngestError :=
  match e with
  | WCatalog e => IgCatalog e
  | WObjectStore e => IgObjectStore e
  | WSchema e => IgSchema e
  | WArrow e => IgArrow e
  | WParquet e => IgParquet e
  | WExpr e => IgExpr e
  | WSortKey e => IgSortKey e
  | EmptyBatch => EmptyFlush
  | InvalidTarget e => Config e
  | BudgetExceeded n => Config ("write input exceeds " +:+ pretty n +:+ " bytes")
  end.

(** ** assignment.rs *)

Inductive Ownership := All | Subset (owned : gset Z).

Definition owns (o : Ownership) (partition : Z) : bool :=
  match o with All => true | Subset set => bool_decide (partition ∈ set) end.

Record PartitionStart := mkStart { ps_partition : Z; ps_offset : Z }.

Definition start_le (a b : PartitionStart) : Prop := ps_partition a <= ps_partition b.
#[global] Instance start_le_dec a b : Decision (start_le a b).
Proof. unfold start_le; apply _. Defined.

Definition desired_assignment (existing : list Z) (ownership : Ownership) (stored : gmap Z Z) : list PartitionStart :=
  merge_sort start_le
    (List.map (fun p => mkStart p (default 0 (stored !! p))) (List.filter (owns ownership) existing)).

(** ** config.rs *)

Record TableRoute := mkRoute { route_topic : string; route_hypertable : string; route_ts_column : string }.

Record IngestConfig := mkIngestConfig {
  max_buffer_rows : Z;
  l0_slowdown_parts : Z;
  l0_stop_parts : Z;
  max_event_age_days : Z;
  max_event_future_secs : Z;
}.

Definition default_l0_slowdown_parts : Z := 30.
Definition default_l0_stop_parts : Z := 200.
Definition default_max_event_age_days : Z := 3650.
Definition default_max_event_future_secs : Z := 3600.

(** ** consumer.rs: buffers and policies *)

Record Buffers := mkBuffers {
  rows_by_day : gmap string (list json);
  ranges : gmap Z (Z * Z);
  total_rows : Z;
  max_event_ts_ms : option Z;
  deferred_flushes : Z;
}.
Definition no_buffers : Buffers := mkBuffers ∅ ∅ 0 None 0.

Definition track_event_ts (current : option Z) (ts : Z) : Z :=
  match current with Some m => Z.max m ts | None => ts end.

Inductive FlushDecision := Flush | Defer.

(** Saturating arithmetic on [usize] and [i64]; [as i64] wraps. *)
Definition saturate_usize (z : Z) : Z := Z.max 0 (Z.min z (2 ^ 64 - 1)).
Definition saturate_i64 (z : Z) : Z := Z.max i64_min (Z.min z i64_max).

Definition flush_decision (max_live_l0 deferred total_rows : Z) (config : IngestConfig) : FlushDecision :=
  if saturate_usize (max_buffer_rows config * 2) <=? total_rows then Flush
  else if wrap_i64 (l0_stop_parts config) <=? max_live_l0 then Defer
  else if (wrap_i64 (l0_slowdown_parts config) <=? max_live_l0) && (deferred =? 0) then Defer
  else Flush.

Definition event_time_in_bounds (ts_ms now_ms : Z) (config : IngestConfig) : bool :=
  let max_age_ms := saturate_i64 (wrap_i64 (max_event_age_days config) * (24 * 3600 * 1000)) in
  let max_future_ms := saturate_i64 (wrap_i64 (max_event_future_secs config) * 1000) in
  (saturate_i64 (now_ms - max_age_ms) <=? ts_ms) && (ts_ms <=? saturate_i64 (now_ms + max_future_ms)).

(** One Kafka message, with the wall clock when it is buffered. *)
Record Message := mkMessage {
  msg_payload : option (list Z);
  msg_partition : Z;
  msg_offset : Z;
  msg_now : Z;
}.

Section ingest.
Context `{Jsonb} `{IngestPlatform} (writer_fails : list Rewrite.WriterCall -> option string).

(** ** writer.rs *)

Definition row_i64 (row : json) (col : string) : option Z := jget row col ≫= as_i64.

(** The check of one row, for the packing key and then the timestamp. *)
Definition check_row (packing_key ts_column : string) (i : nat) (row : json) : result unit IngestError :=
  let? _ := mapr (fun col => ok_or (row_i64 row col) (IgMissingColumn i col)) [packing_key; ts_column] in Ok tt.

Definition decode_rows (schema : ArrowSchema) (packing_key ts_column : string) (rows : list json)
  : result RecordBatch IngestError :=
  match rows with
  | [] => Err EmptyFlush
  | _ =>
      let? _ := mapr (fun ir => check_row packing_key ts_column ir.1 ir.2) (zip (seq 0 (length rows)) rows) in
      let? batch := map_err IgArrow (decode_json schema rows) in
      ok_or batch EmptyFlush
  end.

Definition finish_batch (batch : RecordBatch) (packing_key : string) (sort_key : list string)
    (opts : Schema.WriteOpts) : result EncodedPart IngestError :=
  map_err of_write_error (encode_batch writer_fails batch packing_key sort_key opts).

Definition rows_to_parquet (schema : ArrowSchema) (packing_key ts_column : string) (sort_key : list string)
    (rows : list json) : result EncodedPart IngestError :=
  let? batch := decode_rows schema packing_key ts_column rows in
  let? batch := map_err IgSortKey (sort_batch batch sort_key) in
  let o := Schema.for_level 0 in
  finish_batch batch packing_key sort_key
    (Schema.mkWriteOpts (Schema.wo_level o) (Some ts_column) (Schema.wo_bloom_columns o) (Schema.max_row_group_rows o)).

Definition encode_rows (cols : Schema.TableColumns) (packing_key ts_column : string) (sort_key : list string)
    (rows : list json) : result EncodedPart IngestError :=
  let? batch := decode_rows (Schema.physical_schema cols) packing_key ts_column rows in
  let? batch := map_err IgExpr (Expr.apply_defaults_and_materialized batch cols) in
  let? batch := map_err IgSortKey (sort_batch batch sort_key) in
  finish_batch batch packing_key sort_key (Schema.from_columns cols sort_key 0).

(** ** flusher.rs *)

Definition INGEST_TRANSFORMATION_VERSION : Z := 1.

Definition range_of (o : Commit.OffsetRange) : Operation.IngestRange :=
  Operation.mkRange (Commit.topic o) (Commit.partition o) (Commit.first o) (Commit.last o).

Definition ingest_identity (ht : HypertableId) (offsets : list Commit.OffsetRange)
  : result Operation.OperationIdentity IngestError :=
  map_err IgOperation (Operation.ingest blake3 ht (List.map range_of offsets) INGEST_TRANSFORMATION_VERSION).

Section route.
Context (env : WriteEnv) (config : IngestConfig) (route : TableRoute).

Definition flusher_flush (hypertable : Hypertable) (items : list FlushItem) (offsets : list Commit.OffsetRange)
  : St IngestError CommitResult :=
  st_bind (st_lift (ingest_identity (ht_id hypertable) offsets)) (fun identity =>
  st_map_err of_write_error (publish_add env hypertable items (IngestAdd offsets identity))).

(** ** consumer.rs: the route *)

(** What a message's row must be to be kept: parseable, with a timestamp in
    bounds and a packing key; its day. *)
Definition accepted (packing_key : string) (m : Message) : option (string * json * Z) :=
  payload ← msg_payload m;
  row ← from_slice payload;
  ts ← row_i64 row (route_ts_column route);
  _ ← row_i64 row packing_key;
  if negb (event_time_in_bounds ts (msg_now m) config) then None
  else day ← day_of_millis ts; Some (day, row, ts).

Definition buffer_message (packing_key : string) (m : Message) (b : Buffers) : Buffers :=
  let first := match ranges b !! msg_partition m with Some r => r.1 | None => msg_offset m end in
  let ranges := <[msg_partition m := (first, msg_offset m)]> (ranges b) in
  match accepted packing_key m with
  | None => mkBuffers (rows_by_day b) ranges (total_rows b) (max_event_ts_ms b) (deferred_flushes b)
  | Some (day, row, ts) =>
      mkBuffers (<[day := default [] (rows_by_day b !! day) ++ [row]]> (rows_by_day b)) ranges (total_rows b + 1)
        (Some (track_event_ts (max_event_ts_ms b) ts)) (deferred_flushes b)
  end.

Definition day_partition (day : string) : json := JObject [("day"%string, JString day)].

(** The probe of a flush that may be deferred. *)
Definition probe (hypertable : Hypertable) (b : Buffers) : St IngestError FlushDecision :=
  let partitions := List.map (fun dr => day_partition dr.1) (map_to_list (rows_by_day b)) in
  st_bind (st_map_err IgCatalog
    (catalog_read env (fun t => Ok (Parts.max_live_l0_parts t (ht_id hypertable) partitions)))) (fun max_live =>
  st_ret (flush_decision max_live (deferred_flushes b) (total_rows b) config)).

Definition day_item (hypertable : Hypertable) (cols : Schema.TableColumns) (dr : string * list json)
  : result FlushItem IngestError :=
  let? part := encode_rows cols (packing_key hypertable) (route_ts_column route) (sort_key hypertable) dr.2 in
  Ok (mkItem (day_partition dr.1) part).

Definition offsets_of (b : Buffers) : list Commit.OffsetRange :=
  List.map (fun pr => Commit.mkOffsetRange (route_topic route) pr.1 pr.2.1 pr.2.2) (map_to_list (ranges b)).

(** Everything the buffers hold, published: the rest of [flush]. *)
Definition publish_buffers (hypertable : Hypertable) (b : Buffers) : St IngestError Buffers :=
  st_bind (st_lift (map_err IgSchema (Schema.parse (table_schema hypertable)))) (fun cols =>
  st_bind (st_lift (mapr (day_item hypertable cols) (map_to_list (rows_by_day b)))) (fun items =>
  st_bind (flusher_flush hypertable items (offsets_of b)) (fun _ => st_ret no_buffers))).

Definition flush (hypertable : Hypertable) (force : bool) (b : Buffers) : St IngestError Buffers :=
  if bool_decide (map_to_list (ranges b) = []) then st_ret b
  else if negb force && negb (bool_decide (map_to_list (rows_by_day b) = []))
  then
    st_bind (probe hypertable b) (fun decision =>
    match decision with
    | Defer =>
        st_ret (mkBuffers (rows_by_day b) (ranges b) (total_rows b) (max_event_ts_ms b) ((deferred_flushes b + 1) mod 2 ^ 32))
    | Flush => publish_buffers hypertable b
    end)
  else publish_buffers hypertable b.

(** What the loop's [select!] yields. *)
Inductive Event := Shutdown | Tick | Received (m : result Message string).

(** The loop, over the events it is given: its buffers when it stops, and
    whether it was told to. *)
Fixpoint route_loop (hypertable : Hypertable) (events : list Event) (b : Buffers) : St IngestError (Buffers * bool) :=
  match events with
  | [] => st_ret (b, false)
  | Shutdown :: _ => st_bind (flush hypertable true b) (fun b => st_ret (b, true))
  | Tick :: events => st_bind (flush hypertable false b) (fun b => route_loop hypertable events b)
  | Received (Err e) :: _ => st_lift (Err (IgKafka e))
  | Received (Ok m) :: events =>
      let b := buffer_message (packing_key hypertable) m b in
      if max_buffer_rows config <=? total_rows b
      then st_bind (flush hypertable false b) (fun b => route_loop hypertable events b)
      else route_loop hypertable events b
  end.

(** [connect]: the metadata polls up to the first that lists partitions, or
    the deadline; then the assignment. *)
Definition connect (hypertable : Hypertable) (polls : list (result (list Z) string)) : St IngestError (list PartitionStart) :=
  st_bind (st_map_err IgCatalog
    (catalog_read env (fun t => Ok (Commit.ingest_offsets_of t (ht_id hypertable) (route_topic route))))) (fun stored =>
  st_lift
    ((fix poll polls :=
        match polls with
        | [] => Err (Config ("topic '" +:+ route_topic route +:+ "' has no partitions after 30s"))
        | Err e :: _ => Err (IgKafka e)
        | Ok [] :: polls => poll polls
        | Ok existing :: _ => Ok (desired_assignment existing All stored)
        end) polls)).

(** The start of [run]: the table, its sort key checked, and the assignment. *)
Definition start_route (polls : list (result (list Z) string)) : St IngestError (Hypertable * list PartitionStart) :=
  st_bind (st_map_err IgCatalog (catalog_read env (Tables.Registry.get_hypertable (route_hypertable route)))) (fun hypertable =>
  st_bind (st_lift (map_err IgSchema (Schema.parse (table_schema hypertable)))) (fun cols =>
  st_bind (st_lift (map_err IgSortKey (Schema.validate_sort_key (Schema.physical_schema cols) (sort_key hypertable)
                      (packing_key hypertable) (Some (route_ts_column route))))) (fun _ =>
  st_bind (connect hypertable polls) (fun starts => st_ret (hypertable, starts))))).

End route.
End ingest.
End Ingest.

(** * The worker (consumer.rs: [IngestWorker::run], [ReadyGate])

    One task per route, all over one catalog and store. A task takes a step when it
    is polled -- its start, then one event of its loop at a time -- and the worker
    joins tasks as they end; the first that failed ends it, and the others are
    aborted where they are. *)
Module IngestWorker.
Import Ingest.

Section worker.
Context `{Jsonb} `{IngestPlatform} (writer_fails : list Rewrite.WriterCall -> option string).
Context (env : WriteEnv) (config : IngestConfig).

Inductive TaskState :=
| Starting
| Consuming (hypertable : Hypertable) (b : Buffers)
| Done (r : result unit IngestError)
| Joined
| Aborted.

Record RouteTask := mkTask { rt_route : TableRoute; rt_state : TaskState; rt_arrived : bool }.

(** [remaining] is an [AtomicUsize]; [fired] counts the signals. *)
Record ReadyGate := mkGate { remaining : Z; fired : nat }.

(** [fetch_sub] returns what it found, and wraps. *)
Definition arrive (g : ReadyGate) : ReadyGate :=
  mkGate ((remaining g - 1) mod 2 ^ 64) (if remaining g =? 1 then S (fired g) else fired g).

Record Worker := mkWorker {
  tasks : list RouteTask;
  gate : ReadyGate;
  ended : option (result unit IngestError);
  wk_sys : Sys;
}.

Definition start (routes : list TableRoute) (s : Sys) : Worker :=
  mkWorker (List.map (fun r => mkTask r Starting false) routes) (mkGate (len routes) 0) None s.

Inductive WorkerEvent :=
| Begin (i : nat) (polls : list (result (list Z) string))
| Poll (i : nat) (ev : Event)
| Join (i : nat)
| NoneLeft.

Definition set_task (i : nat) (st : TaskState) (w : Worker) : list RouteTask :=
  alter (fun t => mkTask (rt_route t) st (rt_arrived t)) i (tasks w).

(** The start of a route; it arrives at the gate when it is positioned. *)
Definition begin (i : nat) (t : RouteTask) (polls : list (result (list Z) string)) (w : Worker) : Worker :=
  match start_route env (rt_route t) polls (wk_sys w) with
  | (Err e, s) => mkWorker (set_task i (Done (Err e)) w) (gate w) None s
  | (Ok (hypertable, _), s) =>
      mkWorker (alter (fun t => mkTask (rt_route t) (Consuming hypertable no_buffers) true) i (tasks w)) (arrive (gate w)) None s
  end.

(** One turn of a route's loop. *)
Definition poll (i : nat) (t : RouteTask) (hypertable : Hypertable) (b : Buffers) (ev : Event) (w : Worker) : Worker :=
  let '(r, s) := route_loop writer_fails env config (rt_route t) hypertable [ev] b (wk_sys w) in
  let st := match r with Err e => Done (Err e) | Ok (b, true) => Done (Ok tt) | Ok (b, false) => Consuming hypertable b end in
  mkWorker (set_task i st w) (gate w) None s.

Definition abort (t : RouteTask) : RouteTask :=
  mkTask (rt_route t) (match rt_state t with Joined => Joined | _ => Aborted end) (rt_arrived t).

(** [res.expect(..)?]. *)
Definition join (i : nat) (r : result unit IngestError) (w : Worker) : Worker :=
  match r with
  | Ok _ => mkWorker (set_task i Joined w) (gate w) None (wk_sys w)
  | Err e => mkWorker (List.map abort (set_task i Joined w)) (gate w) (Some (Err e)) (wk_sys w)
  end.

Definition is_joined (t : RouteTask) : bool := match rt_state t with Joined => true | _ => false end.

(** What one event does; [None] where it cannot happen. *)
Definition worker_step (ev : WorkerEvent) (w : Worker) : option Worker :=
  match ended w with
  | Some _ => None
  | None =>
      match ev with
      | Begin i polls => t ← tasks w !! i; match rt_state t with Starting => Some (begin i t polls w) | _ => None end
      | Poll i ev => t ← tasks w !! i; match rt_state t with Consuming h b => Some (poll i t h b ev w) | _ => None end
      | Join i => t ← tasks w !! i; match rt_state t with Done r => Some (join i r w) | _ => None end
      | NoneLeft => if List.forallb is_joined (tasks w) then Some (mkWorker (tasks w) (gate w) (Some (Ok tt)) (wk_sys w)) else None
      end
  end.

Fixpoint worker_run (evs : list WorkerEvent) (w : Worker) : option Worker :=
  match evs with
  | [] => Some w
  | ev :: evs => w' ← worker_step ev w; worker_run evs w'
  end.
End worker.

(** ** What the worker reports *)

Section theorems.
Context `{Jsonb} `{IngestPlatform} (writer_fails : list Rewrite.WriterCall -> option string).
Context (env : WriteEnv) (config : IngestConfig).

Definition arrivals (ts : list RouteTask) : nat := length (List.filter rt_arrived ts).

Record worker_inv (n : nat) (w : Worker) : Prop := {
  wi_tasks : length (tasks w) = n;
  wi_gate : remaining (gate w) = Z.of_nat n - Z.of_nat (arrivals (tasks w));
  wi_fired : fired (gate w) = if (0 <? Z.of_nat n) && (remaining (gate w) =? 0) then 1%nat else 0%nat;
  wi_starting : forall t, t ∈ tasks w -> rt_state t = Starting -> rt_arrived t = false;
  wi_running : forall t, t ∈ tasks w -> ended w <> None -> rt_state t = Joined \/ rt_state t = Aborted;
  wi_clean : ended w = Some (Ok tt) -> Forall (fun t => rt_state t = Joined) (tasks w);
}.

Lemma arrivals_le ts : (arrivals ts <= length ts)%nat.
Proof. apply List.filter_length_le. Qed.

Lemma arrivals_alter ts i f t : ts !! i = Some t -> rt_arrived (f t) = rt_arrived t -> arrivals (alter f i ts) = arrivals ts.
Proof.
  revert i. induction ts as [|x ts IH]; intros [|i]; simpl; try done.
  - intros [= ->] E. unfold arrivals. simpl. rewrite E. by destruct (rt_arrived t).
  - intros Hi E. specialize (IH i Hi E). unfold arrivals in *. simpl. change (list_alter f i ts) with (alter f i ts).
    destruct (rt_arrived x); cbn [length]; by rewrite IH.
Qed.

Lemma arrivals_arrive ts i f t : ts !! i = Some t -> rt_arrived t = false -> rt_arrived (f t) = true -> arrivals (alter f i ts) = S (arrivals ts).
Proof.
  revert i. induction ts as [|x ts IH]; intros [|i]; simpl; try done.
  - intros [= ->] E E'. unfold arrivals. simpl. by rewrite E, E'.
  - intros Hi E E'. specialize (IH i Hi E E'). unfold arrivals in *. simpl. change (list_alter f i ts) with (alter f i ts).
    destruct (rt_arrived x); cbn [length]; by rewrite IH.
Qed.

Lemma arrivals_abort ts : arrivals (List.map abort ts) = arrivals ts.
Proof. unfold arrivals. induction ts as [|t ts IH]; [done|]. simpl. destruct (rt_arrived t); simpl; by rewrite IH. Qed.

Lemma alter_elem {A} (f : A -> A) i (l : list A) x : x ∈ alter f i l -> x ∈ l \/ exists y, l !! i = Some y /\ x = f y.
Proof.
  intros [j Hj]%list_elem_of_lookup. destruct (decide (i = j)) as [->|N].
  - rewrite list_lookup_alter_eq in Hj. destruct (l !! j) as [y|]; [|done]. injection Hj as <-. right. by exists y.
  - rewrite list_lookup_alter_ne in Hj by done. left. by eapply list_elem_of_lookup_2.
Qed.

(** A task that changes state and does not arrive. *)
Lemma inv_set_task n w i t st s' : worker_inv n w -> ended w = None -> tasks w !! i = Some t -> (st = Starting -> False) ->
  worker_inv n (mkWorker (set_task i st w) (gate w) None s').
Proof.
  intros [A B C D E F] N Hi NS. unfold set_task. split; simpl; try done.
  - by rewrite length_alter.
  - by erewrite arrivals_alter.
  - intros x [Hx|(y & Hy & ->)]%alter_elem; [by apply D|]. intros Es. by destruct (NS Es).
Qed.

Lemma begin_inv n w i t polls : Z.of_nat n < 2 ^ 64 -> worker_inv n w -> ended w = None -> tasks w !! i = Some t -> rt_state t = Starting ->
  worker_inv n (begin env i t polls w).
Proof.
  intros L I N Hi St. unfold begin. destruct (start_route _ _ _ _) as [[[h starts]|e] s']; [|by eapply inv_set_task].
  pose proof I as [A B C D E F]. assert (Ar : rt_arrived t = false) by (apply D; [by eapply list_elem_of_lookup_2|done]).
  assert (Ea : arrivals (alter (fun t => mkTask (rt_route t) (Consuming h no_buffers) true) i (tasks w)) = S (arrivals (tasks w))) by (by eapply arrivals_arrive).
  pose proof (arrivals_le (alter (fun t => mkTask (rt_route t) (Consuming h no_buffers) true) i (tasks w))) as Le. rewrite length_alter, Ea, A in Le.
  split; simpl; try done.
  - by rewrite length_alter.
  - rewrite Ea, Z.mod_small; lia.
  - rewrite C, Z.mod_small by lia. destruct (Z.ltb_spec 0 (Z.of_nat n)); simpl; [|lia].
    destruct (Z.eqb_spec (remaining (gate w)) 1) as [E1|N1]; destruct (Z.eqb_spec (remaining (gate w)) 0); destruct (Z.eqb_spec (remaining (gate w) - 1) 0); try lia; done.
  - intros x [Hx|(y & Hy & ->)]%alter_elem; [by apply D|done].
Qed.

Lemma worker_step_inv n ev w w' : Z.of_nat n < 2 ^ 64 -> worker_inv n w -> worker_step writer_fails env config ev w = Some w' -> worker_inv n w'.
Proof.
  intros L I. unfold worker_step. destruct (ended w) eqn:N; [done|]. destruct ev as [i polls|i ev|i|].
  - destruct (tasks w !! i) as [t|] eqn:Hi; [|done]. simpl. destruct (rt_state t) eqn:St; try done. intros [= <-]. by apply begin_inv.
  - destruct (tasks w !! i) as [t|] eqn:Hi; [|done]. simpl. destruct (rt_state t) as [|h b| | |] eqn:St; try done. intros [= <-]. unfold poll.
    destruct (route_loop _ _ _ _ _ _ _ _) as [r s']. eapply inv_set_task; [done..|]. by destruct r as [[? []]|].
  - destruct (tasks w !! i) as [t|] eqn:Hi; [|done]. simpl. destruct (rt_state t) as [| |r| |] eqn:St; try done. intros [= <-]. unfold join.
    destruct r as [[]|e]; [by eapply inv_set_task|]. destruct (inv_set_task n w i t Joined (wk_sys w) I N Hi ltac:(done)) as [A B C D E F]. simpl in *.
    split; simpl; try done.
    + by rewrite length_map.
    + by rewrite arrivals_abort.
    + intros x Hx St'. apply list_elem_of_In, List.in_map_iff in Hx as (y & <- & Hy). simpl in St'. by destruct (rt_state y).
    + intros x Hx _. apply list_elem_of_In, List.in_map_iff in Hx as (y & <- & Hy). simpl. destruct (rt_state y); auto.
  - destruct (List.forallb is_joined (tasks w)) eqn:J; [|done]. intros [= <-]. destruct I as [A B C D E F].
    assert (Jd : Forall (fun t => rt_state t = Joined) (tasks w)).
    { apply Forall_forall. intros t Ht. rewrite List.forallb_forall in J. apply list_elem_of_In, J in Ht. unfold is_joined in Ht. by destruct (rt_state t). }
    split; simpl; try done. intros t Ht _. left. rewrite Forall_forall in Jd. by apply Jd.
Qed.

Lemma start_inv routes s : worker_inv (length routes) (start routes s).
Proof.
  unfold start. split; simpl; try done.
  - by rewrite length_map.
  - assert (E : arrivals (List.map (fun r => mkTask r Starting false) routes) = 0%nat) by (unfold arrivals; induction routes as [|r rs IH]; [done|exact IH]).
    rewrite E. unfold len. lia.
  - unfold len. by destruct routes.
  - intros t Ht _. apply list_elem_of_In, List.in_map_iff in Ht as (r & <- & _). done.
Qed.

(** the ingest role is ready once every route has read its offsets and positioned
    its consumer, and never before: the signal fires when the last one arrives,
    once, whatever the routes do in between; a route that fails to start leaves
    the role unready. When the worker returns no route is left running, and it
    returns cleanly only when every route did. *)
Theorem ready_once_every_route_is routes s evs w : routes <> [] -> len routes < 2 ^ 64 ->
  worker_run writer_fails env config evs (start routes s) = Some w ->
  (fired (gate w) = 1%nat <-> Forall (fun t => rt_arrived t = true) (tasks w)) /\ (fired (gate w) <= 1)%nat /\
  length (tasks w) = length routes /\
  (forall r, ended w = Some r -> Forall (fun t => rt_state t = Joined \/ (rt_state t = Aborted /\ r <> Ok tt)) (tasks w)).
Proof.
  intros NE L R. assert (I : worker_inv (length routes) w).
  { pose proof (start_inv routes s) as I. revert I R. generalize (start routes s). induction evs as [|ev evs IH]; intros w0 I; simpl; [by intros [= ->]|].
    destruct (worker_step _ _ _ ev w0) as [w1|] eqn:E; [|done]. simpl. apply IH. by eapply worker_step_inv. }
  assert (Pos : 0 < Z.of_nat (length routes)) by (destruct routes; [done|simpl; lia]).
  destruct I as [A B C D E F]. rewrite (proj2 (Z.ltb_lt _ _) Pos) in C. simpl in C. pose proof (arrivals_le (tasks w)) as Le. split_and!; [|destruct (_ =? _) in C; lia|done|].
  - rewrite C. destruct (Z.eqb_spec (remaining (gate w)) 0) as [Z0|N0]; (split; [|done || (intros All; exfalso)]).
    + intros _. assert (Eq : arrivals (tasks w) = length (tasks w)) by lia. revert Eq. unfold arrivals. clear. induction (tasks w) as [|t ts IH]; [constructor|]. simpl.
      destruct (rt_arrived t) eqn:Ar; simpl; [intros [= Eq]; constructor; [done|by apply IH]|].
      intros Eq. pose proof (List.filter_length_le rt_arrived ts). lia.
    + done.
    + apply N0. rewrite B, <-A. enough (arrivals (tasks w) = length (tasks w)) by lia. unfold arrivals. clear -All. induction All as [|t ts Ar _ IH]; [done|]. simpl. rewrite Ar. simpl. by rewrite IH.
  - intros r Er. apply Forall_forall. intros t Ht. destruct (E t Ht) as [J|Ab]; [by rewrite Er|by left|]. right. split; [done|]. intros ->.
    specialize (F Er). rewrite Forall_forall in F. specialize (F t Ht). congruence.
Qed.
End theorems.
End IngestWorker.
