(* ===== verification/IngestSpec.v ===== *)
(** * What a route does with the messages it consumes

    The buffers hold exactly the messages since the last flush, of bounded
    number; every message is published once, in order, with offsets that cover
    it; and a restart resumes right after the last one published. *)

From S2P Require Import Prelude Bytes Json Types Arrow Schema Operation CatalogError CatalogDb Commit CommitSpec CatalogGc Parts Pruning Batches Expr Rewrite Compactor CompactorSpec Deletion Write Publish WriteSpec Ingest.
Import CatalogError CatalogDb CommitSpec CommitTheorems Batches DeletionSpec Write Publish WriteSpec PublishSpec Ingest.

Module IngestSpec.

(** ** Assignment *)

#[local] Instance start_le_total : Total start_le.
Proof. intros a b. unfold start_le. lia. Qed.
#[local] Instance start_le_trans : Transitive start_le.
Proof. intros a b c. unfold start_le. lia. Qed.

Lemma assignment_in existing ownership stored p o :
  mkStart p o ∈ desired_assignment existing ownership stored <->
  p ∈ existing /\ owns ownership p = true /\ o = default 0 (stored !! p).
Proof.
  unfold desired_assignment. rewrite merge_sort_Permutation, list_elem_of_In, List.in_map_iff. split.
  - intros (x & [= <- <-] & Hx%List.filter_In). destruct Hx as [Hx O]. by rewrite list_elem_of_In.
  - intros (Hp & O & ->). exists p. split; [done|]. apply List.filter_In. by rewrite <- list_elem_of_In.
Qed.

(** a worker is assigned exactly the partitions that exist and are its own,
    each from the catalog's offset -- the start of the log when there is none
    -- in ascending order; a stored offset of a vanished partition assigns
    nothing. *)
Theorem assignment_spec existing ownership stored :
  let starts := desired_assignment existing ownership stored in
  StronglySorted start_le starts /\
  (forall p o, mkStart p o ∈ starts <->
     p ∈ existing /\ owns ownership p = true /\ o = default 0 (stored !! p)) /\
  length starts = length (List.filter (owns ownership) existing).
Proof.
  intros starts. unfold starts, desired_assignment. split_and!.
  - apply StronglySorted_merge_sort; apply _.
  - intros p o. apply assignment_in.
  - by rewrite merge_sort_Permutation, List.length_map.
Qed.

(** ** Event time *)

(** an age limit of 0 days refuses every event older than the clock: the
    configuration documents [0] as an unbounded past. *)
Theorem zero_age_refuses_the_past ts_ms now_ms config :
  max_event_age_days config = 0 -> in_i64 now_ms -> ts_ms < now_ms ->
  event_time_in_bounds ts_ms now_ms config = false.
Proof.
  intros Z0 I L. unfold event_time_in_bounds. rewrite Z0. change (wrap_i64 0 * (24 * 3600 * 1000)) with 0.
  unfold saturate_i64 at 1 2. unfold in_i64, i64_min, i64_max in *.
  apply andb_false_iff. left. apply Z.leb_gt. lia.
Qed.

Lemma zero_age_refuses_the_past_witness :
  event_time_in_bounds 999 1000 (mkIngestConfig 1000 30 200 0 3600) = false.
Proof. apply zero_age_refuses_the_past; [reflexivity|unfold in_i64, i64_min, i64_max; lia|lia]. Defined.

(** ** The stored offsets *)

Lemma ingest_offsets_of_lookup t ht tp p :
  Commit.ingest_offsets_of t ht tp !! p = next_offset <$> ingest_offsets t !! (ht, tp, p).
Proof.
  unfold Commit.ingest_offsets_of. set (sel := fun '((h, tp', p), cell) => _).
  assert (Sel : forall kc q o, sel kc = Some (q, o) <-> kc.1 = (ht, tp, q) /\ next_offset kc.2 = o).
  { intros [[[h tp'] q'] cell] q o. simpl. case_bool_decide; naive_solver. }
  assert (N : NoDup (omap sel (map_to_list (ingest_offsets t))).*1).
  { pose proof (NoDup_fst_map_to_list (ingest_offsets t)) as N. revert N. generalize (map_to_list (ingest_offsets t)).
    intros l. induction l as [|kc l IH]; simpl; intros N; [constructor|]. apply NoDup_cons in N as [N1 N2].
    destruct (sel kc) as [[q o]|] eqn:E; [|by apply IH]. simpl. constructor; [|by apply IH].
    apply Sel in E as [E _]. intros ([q' o'] & Eq & (kc' & Hk & E')%list_elem_of_omap)%list_elem_of_fmap. simpl in Eq. subst q'.
    apply Sel in E' as [E' _]. apply N1. rewrite E, <- E'. by apply list_elem_of_fmap_2. }
  apply option_eq. intros o. rewrite <- elem_of_list_to_map by exact N. rewrite list_elem_of_omap. split.
  - intros ([k cell] & Hk & [E <-]%Sel). simpl in *. subst k. apply elem_of_map_to_list in Hk. by rewrite Hk.
  - intros E. destruct (ingest_offsets t !! (ht, tp, p)) as [cell|] eqn:L; simpl in E; [|done]. injection E as <-.
    exists ((ht, tp, p), cell). split; [by apply elem_of_map_to_list|]. by apply Sel.
Qed.

Lemma offset_cells_lookup ht tp rs offs p :
  NoDup (List.map Commit.partition rs) -> (forall r, r ∈ rs -> Commit.topic r = tp) ->
  (forall r, r ∈ rs -> Commit.partition r = p ->
     next_offset <$> List.fold_left (fun m r => offset_cell m ht r) rs offs !! (ht, tp, p) = Some (wrap_i64 (Commit.last r + 1))) /\
  ((forall r, r ∈ rs -> Commit.partition r <> p) ->
     List.fold_left (fun m r => offset_cell m ht r) rs offs !! (ht, tp, p) = offs !! (ht, tp, p)).
Proof.
  revert offs. induction rs as [|r rs IH]; intros offs N T; simpl; [split; [intros r Hr; by apply elem_of_nil in Hr|done]|].
  apply NoDup_cons in N as [N1 N2]. assert (Tr : Commit.topic r = tp) by (apply T; left).
  destruct (IH (offset_cell offs ht r) N2) as [A B]; [intros q Hq; apply T; by right|]. split.
  - intros q [->|Hq]%elem_of_cons Pq; [|by apply A]. rewrite B.
    + unfold offset_cell. by rewrite Tr, Pq, lookup_insert_eq.
    + intros q' Hq' E. apply N1. rewrite Pq, <- E. by apply list_elem_of_In, List.in_map, list_elem_of_In.
  - intros Np. rewrite B; [|intros q Hq; apply Np; by right]. unfold offset_cell. rewrite lookup_insert_ne; [done|].
    intros [= _ E]. apply (Np r); [left|done].
Qed.

Lemma offsets_admit_each ht tp rs offs r :
  NoDup (List.map Commit.partition rs) -> (forall r, r ∈ rs -> Commit.topic r = tp) ->
  offsets_admit offs ht rs -> r ∈ rs -> offset_admits offs ht r.
Proof.
  revert offs. induction rs as [|q rs IH]; intros offs N T A Hr; [by apply elem_of_nil in Hr|].
  apply NoDup_cons in N as [N1 N2]. destruct A as [A1 A2]. apply elem_of_cons in Hr as [->|Hr]; [done|].
  intros cell Hc. apply (IH _ N2 (fun r H => T r ltac:(by right)) A2 Hr cell). unfold offset_cell.
  rewrite lookup_insert_ne; [done|]. intros [= _ E]. apply N1. rewrite E.
  by apply list_elem_of_In, List.in_map, list_elem_of_In.
Qed.

Section route.
Context `{Jsonb} `{IngestPlatform} (writer_fails : list Rewrite.WriterCall -> option string).
Context (env : WriteEnv) (config : IngestConfig) (route : TableRoute).

(** ** What buffers hold *)

(** The offsets of a partition's messages, and the first and last of them. *)
Definition offsets_in (p : Z) (ms : list Message) : list Z :=
  omap (fun m => if msg_partition m =? p then Some (msg_offset m) else None) ms.

Definition range_over (p : Z) (ms : list Message) : option (Z * Z) :=
  match offsets_in p ms with [] => None | o :: os => Some (o, List.last (o :: os) o) end.

(** The rows kept for a day. *)
Definition rows_for (pk day : string) (ms : list Message) : list json :=
  omap (fun m => match accepted config route pk m with
                 | Some (d, row, _) => if String.eqb d day then Some row else None
                 | None => None
                 end) ms.

Definition kept_messages (pk : string) (ms : list Message) : list (string * json * Z) :=
  omap (accepted config route pk) ms.

(** The buffers hold exactly the messages [ms]. *)
Record held (pk : string) (b : Buffers) (ms : list Message) : Prop := {
  h_ranges : forall p, ranges b !! p = range_over p ms;
  h_rows : forall d, rows_by_day b !! d = match rows_for pk d ms with [] => None | rows => Some rows end;
  h_total : total_rows b = len (kept_messages pk ms);
}.

Lemma held_nothing pk : held pk no_buffers [].
Proof. split; simpl; [intros p; by rewrite lookup_empty..|done]. Qed.

Lemma range_over_snoc p ms m :
  range_over p (ms ++ [m]) =
    if msg_partition m =? p
    then Some (match range_over p ms with Some r => r.1 | None => msg_offset m end, msg_offset m)
    else range_over p ms.
Proof.
  unfold range_over, offsets_in. rewrite omap_app. simpl. destruct (msg_partition m =? p); simpl; [|by rewrite app_nil_r].
  destruct (omap _ ms) as [|o os]; simpl; [done|]. f_equal. f_equal.
  change (match os ++ [msg_offset m] with [] => o | _ :: _ => List.last (os ++ [msg_offset m]) o end)
    with (List.last (o :: (os ++ [msg_offset m])) o).
  rewrite app_comm_cons. apply List.last_last.
Qed.

Lemma range_over_last p ms first last :
  range_over p ms = Some (first, last) -> exists m, m ∈ ms /\ msg_offset m = last.
Proof.
  unfold range_over. destruct (offsets_in p ms) as [|o os] eqn:O; [done|]. intros [= <- <-].
  assert (I : List.last (o :: os) o ∈ offsets_in p ms).
  { rewrite O. destruct (List.exists_last (l := o :: os)) as (l' & x & ->); [done|]. rewrite List.last_last. set_solver. }
  apply list_elem_of_omap in I as (m & Hm & E). exists m. split; [done|]. destruct (_ =? _); [|done].
  unfold range_over in *. by injection E as ->.
Qed.

Lemma rows_for_snoc pk d ms m :
  rows_for pk d (ms ++ [m]) = rows_for pk d ms ++
    match accepted config route pk m with
    | Some (d', row, _) => if String.eqb d' d then [row] else []
    | None => []
    end.
Proof.
  unfold rows_for. rewrite omap_app. simpl. destruct (accepted _ _ _ _) as [[[d' row] ts]|]; simpl; [|done].
  by destruct (String.eqb d' d).
Qed.

Lemma buffer_message_held pk b ms m :
  held pk b ms -> held pk (buffer_message config route pk m b) (ms ++ [m]).
Proof.
  intros [Hr Hd Ht]. unfold buffer_message.
  assert (R : forall p, <[msg_partition m := (match ranges b !! msg_partition m with Some r => r.1 | None => msg_offset m end,
                 msg_offset m)]> (ranges b) !! p = range_over p (ms ++ [m])).
  { intros p. rewrite range_over_snoc, !Hr. destruct (Z.eqb_spec (msg_partition m) p) as [->|Ne].
    - by rewrite lookup_insert_eq.
    - by rewrite lookup_insert_ne, Hr. }
  destruct (accepted config route pk m) as [[[day row] ts]|] eqn:A; split; simpl; try exact R.
  - intros d. rewrite rows_for_snoc, A. destruct (String.eqb_spec day d) as [->|Ne].
    + rewrite lookup_insert_eq, Hd. destruct (rows_for pk d ms); done.
    + rewrite lookup_insert_ne, Hd, app_nil_r by done. done.
  - unfold kept_messages. rewrite omap_app, len_app. simpl. rewrite A. unfold len at 2. simpl.
    rewrite Ht. unfold kept_messages. lia.
  - intros d. by rewrite rows_for_snoc, A, app_nil_r, Hd.
  - unfold kept_messages. rewrite omap_app. simpl. rewrite A, app_nil_r. exact Ht.
Qed.

(** ** The loop *)

(** The messages the loop buffers before it stops. *)
Fixpoint received (events : list Event) : list Message :=
  match events with
  | Received (Ok m) :: events => m :: received events
  | Tick :: events => received events
  | _ => []
  end.

Context (hypertable : Hypertable).
Abbreviation held' := (held (packing_key hypertable)).
Abbreviation publish := (publish_buffers writer_fails env route hypertable).

(** The catalog as it moves on by itself between two of the route's reads. *)
Inductive idle : Sys -> Sys -> Prop :=
| idle_refl s : idle s s
| idle_read s s' : idle (Publish.with_db s (peers_at env (sy_calls s) (sy_db s))) s' -> idle s s'.

(** A run of the route: the batches it publishes, one after the other. *)
Inductive session : list (list Message) -> Sys -> Sys -> Prop :=
| session_end s s' : idle s s' -> session [] s s'
| session_publish s s1 s2 s' b batch batches :
    idle s s1 -> held' b batch -> batch <> [] -> publish b s1 = (Ok no_buffers, s2) ->
    session batches s2 s' -> session (batch :: batches) s s'.

Lemma idle_trans s s1 s2 : idle s s1 -> idle s1 s2 -> idle s s2.
Proof. induction 1 as [s|s s1 I IH]; [done|]. intros I2. by apply idle_read, IH. Qed.

Lemma session_idle batches s s1 s' : idle s s1 -> session batches s1 s' -> session batches s s'.
Proof.
  intros I. destruct 1 as [s1 s' I'|s1 s2 s3 s' b batch batches I' Hh Ne P S].
  - constructor. by eapply idle_trans.
  - econstructor; [by eapply idle_trans|done..].
Qed.

Lemma held_no_ranges b ms : held' b ms -> map_to_list (ranges b) = [] <-> ms = [].
Proof.
  intros [Hr _ _]. rewrite map_to_list_empty_iff. split.
  - intros E. destruct ms as [|m ms]; [done|]. specialize (Hr (msg_partition m)). rewrite E, lookup_empty in Hr.
    unfold range_over, offsets_in in Hr. simpl in Hr. by rewrite Z.eqb_refl in Hr.
  - intros ->. apply map_eq. intros p. rewrite Hr, lookup_empty. done.
Qed.

Lemma publish_buffers_Ok b s b' s' : publish b s = (Ok b', s') -> b' = no_buffers.
Proof.
  intros E. apply st_bind_Ok in E as (? & ? & _ & E). apply st_bind_Ok in E as (? & ? & _ & E).
  apply st_bind_Ok in E as (? & ? & _ & E). by injection E as <- <-.
Qed.

(** A flush publishes everything or nothing. *)
Lemma flush_spec force b s b' s' ms :
  held' b ms -> flush writer_fails env config route hypertable force b s = (Ok b', s') ->
  (held' b' ms /\ idle s s' /\ (force = true -> ms = []) /\ total_rows b' = total_rows b /\
     (ms = [] \/ total_rows b < saturate_usize (max_buffer_rows config * 2))) \/
  (ms <> [] /\ b' = no_buffers /\ exists s1, idle s s1 /\ publish b s1 = (Ok no_buffers, s')).
Proof.
  intros Hh. unfold flush. case_bool_decide as R.
  { intros [= <- <-]. left. apply (held_no_ranges _ _ Hh) in R. split_and!; try done; [constructor|by left]. }
  assert (Ne : ms <> []) by (intros E; by apply R, (held_no_ranges _ _ Hh)).
  assert (Pub : forall s0, idle s s0 -> publish b s0 = (Ok b', s') -> ms <> [] /\ b' = no_buffers /\
      exists s1, idle s s1 /\ publish b s1 = (Ok no_buffers, s')).
  { intros s0 I P. pose proof (publish_buffers_Ok _ _ _ _ P) as ->. eauto. }
  destruct (negb force && _) eqn:F; [|intros E; right; apply (Pub s); [constructor|done]].
  intros E. apply st_bind_Ok in E as (dec & s1 & P & E). unfold probe in P. apply st_bind_Ok in P as (mx & s2 & Pr & P).
  injection P as <- <-. apply st_map_err_Ok in Pr. unfold Publish.catalog_read in Pr.
  destruct (read_fails env (sy_calls s)); [done|]. injection Pr as <- <-.
  set (s2 := Publish.with_db s _) in *. assert (I : idle s s2) by (apply idle_read; constructor).
  destruct (flush_decision _ _ _ _) eqn:D; [right; by apply (Pub s2)|].
  left. injection E as <- <-. destruct Hh as [Hr Hd Ht]. split_and!; try done.
  - intros ->. done.
  - right. unfold flush_decision in D. simpl. destruct (Z.leb_spec (saturate_usize (max_buffer_rows config * 2)) (total_rows b)); [done|lia].
Qed.

(** Few enough rows for the memory valve. *)
Definition bounded (b : Buffers) : Prop := total_rows b = 0 \/ total_rows b < 2 * max_buffer_rows config.

Lemma flush_session force b s b' s' ms :
  held' b ms -> flush writer_fails env config route hypertable force b s = (Ok b', s') ->
  exists batches pending, ms = concat batches ++ pending /\ held' b' pending /\ (force = true -> pending = []) /\
    (0 <= max_buffer_rows config -> bounded b') /\
    forall bs s2, session bs s' s2 -> session (batches ++ bs) s s2.
Proof.
  intros Hh E. destruct (flush_spec _ _ _ _ _ ms Hh E) as [(H1 & I & F & T & B)|(Ne & -> & s1 & I & P)].
  - exists [], ms. split_and!; try done; [|intros bs s2; by apply session_idle].
    intros M. destruct B as [->|B]; [left; by rewrite (h_total _ _ _ H1)|right].
    rewrite T. unfold saturate_usize in B. lia.
  - exists [ms], []. simpl. rewrite !app_nil_r. split_and!; try done; try apply held_nothing; try (intros _; by left).
    intros bs s2 S. by econstructor.
Qed.

Lemma route_loop_spec events : forall b s ms b' stopped s',
  held' b ms -> bounded b -> 0 <= max_buffer_rows config ->
  route_loop writer_fails env config route hypertable events b s = (Ok (b', stopped), s') ->
  exists batches pending, ms ++ received events = concat batches ++ pending /\ held' b' pending /\ bounded b' /\
    session batches s s' /\ (stopped = true -> pending = []).
Proof.
  induction events as [|ev events IH]; intros b s ms b' stopped s' Hh Bd M E; cbn [route_loop received] in *.
  { injection E as <- <- <-. exists [], ms. rewrite app_nil_r. split_and!; try done. constructor. constructor. }
  assert (Step : forall b0 ms0, held' b0 ms0 ->
    st_bind (flush writer_fails env config route hypertable false b0)
      (fun b => route_loop writer_fails env config route hypertable events b) s = (Ok (b', stopped), s') ->
    exists batches pending, ms0 ++ received events = concat batches ++ pending /\ held' b' pending /\ bounded b' /\
      session batches s s' /\ (stopped = true -> pending = [])).
  { intros b0 ms0 H0' E0. apply st_bind_Ok in E0 as (b1 & s1 & F & E0).
    destruct (flush_session _ _ _ _ _ ms0 H0' F) as (bs & pend & -> & H1 & _ & B1 & S1).
    apply (IH _ _ pend) in E0 as (bs' & pend' & Ep & H2 & B2 & S2 & St); [|done|by apply B1|done].
    exists (bs ++ bs'), pend'. rewrite concat_app, <- !app_assoc, Ep. split_and!; try done. by apply S1. }
  destruct ev as [| |[m|e]].
  - apply st_bind_Ok in E as (b1 & s1 & F & E). injection E as <- <- <-.
    destruct (flush_session _ _ _ _ _ ms Hh F) as (bs & pend & -> & H1 & Fo & B1 & S1).
    exists bs, pend. rewrite app_nil_r. split_and!; try done; [by apply B1|].
    rewrite <- (app_nil_r bs). apply S1. do 2 constructor.
  - by apply (Step b).
  - pose proof (buffer_message_held _ _ _ m Hh) as Hm. rewrite cons_middle, app_assoc.
    destruct (Z.leb_spec (max_buffer_rows config) (total_rows (buffer_message config route (packing_key hypertable) m b))).
    + by apply (Step (buffer_message config route (packing_key hypertable) m b)).
    + apply (IH _ _ _ _ _ _ Hm) in E; [exact E| |done]. right. lia.
  - done.
Qed.

(** C3: a route publishes every message it consumes exactly once: what it has
    received is, in order, the batches it published -- each by one identified
    commit -- followed by what its buffers hold; deferred flushes lose
    nothing, a shutdown leaves nothing behind, and the buffered rows stay
    under twice the cap. *)
Theorem every_message_is_published_once events b' stopped s s' :
  0 <= max_buffer_rows config ->
  route_loop writer_fails env config route hypertable events no_buffers s = (Ok (b', stopped), s') ->
  exists batches pending, received events = concat batches ++ pending /\ held' b' pending /\
    session batches s s' /\ (stopped = true -> pending = []) /\
    (total_rows b' = 0 \/ total_rows b' < 2 * max_buffer_rows config).
Proof.
  intros M E. eapply (route_loop_spec _ _ _ []) in E as (bs & pend & Er & Hh & Bd & S & St); [|apply held_nothing|by left|done].
  by exists bs, pend.
Qed.

(** ** One batch *)

Lemma offsets_of_spec b batch o :
  held' b batch ->
  o ∈ offsets_of route b <->
  Commit.topic o = route_topic route /\ range_over (Commit.partition o) batch = Some (Commit.first o, Commit.last o).
Proof.
  intros [Hr _ _]. unfold offsets_of. rewrite list_elem_of_In, List.in_map_iff. split.
  - intros ([p [f l]] & <- & Hp). apply list_elem_of_In, elem_of_map_to_list in Hp. by rewrite Hr in Hp.
  - intros [Et Er]. exists (Commit.partition o, (Commit.first o, Commit.last o)).
    split; [by destruct o; simpl in *; subst|]. apply list_elem_of_In, elem_of_map_to_list. by rewrite Hr.
Qed.

(** one flush publishes one batch whole: a file per day, each encoding
    exactly the batch's accepted rows of that day in the order they came;
    offsets that span, for every partition touched, its first to its last
    message -- skipped ones included; and all of it in one commit under the
    identity of those offsets. *)
Theorem batch_is_committed_with_its_offsets b batch s s' :
  held' b batch -> publish b s = (Ok no_buffers, s') ->
  let offsets := offsets_of route b in
  exists cols items identity r prepared n d1 f,
    Schema.parse (table_schema hypertable) = Ok cols /\
    Forall2 (fun dr item => dr.2 = rows_for (packing_key hypertable) dr.1 batch /\
       item_partition item = day_partition dr.1 /\
       encode_rows writer_fails cols (packing_key hypertable) (route_ts_column route) (sort_key hypertable) dr.2
         = Ok (item_part item)) (map_to_list (rows_by_day b)) items /\
    (forall d, is_Some (rows_by_day b !! d) <-> rows_for (packing_key hypertable) d batch <> []) /\
    (forall o, o ∈ offsets <-> Commit.topic o = route_topic route /\
       range_over (Commit.partition o) batch = Some (Commit.first o, Commit.last o)) /\
    ingest_identity (ht_id hypertable) offsets = Ok identity /\ prepared.*2 = items /\
    Commit.commit_with_offsets b64_decode tm_deserialize (tx_at env n) (ht_id hypertable)
      (Add (List.map part_of prepared)) offsets identity 0 d1 = (Ok r, sy_db s', f).
Proof.
  intros Hh E offsets. apply st_bind_Ok in E as (cols & s1 & [Pc ->]%st_lift_Ok & E).
  apply st_bind_Ok in E as (items & s1 & [It ->]%st_lift_Ok & E). apply st_bind_Ok in E as (r & s1 & Fl & E).
  injection E as <-. apply st_bind_Ok in Fl as (identity & s2 & [Id ->]%st_lift_Ok & Fl). apply st_map_err_Ok in Fl.
  apply publish_add_Ok in Fl as (_ & prepared & n & d1 & f & Ep & Cm & _ & _).
  exists cols, items, identity, r, prepared, n, d1, f. split_and!; try done.
  - destruct (Schema.parse _) as [c|]; [by injection Pc as ->|done].
  - apply mapr_Forall2 in It. apply Forall2_same_length_lookup. split; [by eapply Forall2_length|].
    intros i dr item Hi Hj. eapply (Forall2_lookup_lr _ _ _ _ _ _ It) in Hj; [|done]. unfold day_item in Hj.
    apply rbind_Ok in Hj as (part & En & Hj). injection Hj as <-. split_and!; try done.
    apply list_elem_of_lookup_2 in Hi. destruct dr as [d rows]. apply elem_of_map_to_list in Hi. simpl.
    rewrite (h_rows _ _ _ Hh) in Hi. destruct (rows_for _ _ batch); [done|by injection Hi as <-].
  - intros d. rewrite (h_rows _ _ _ Hh). destruct (rows_for _ _ batch); naive_solver.
  - intros o. by apply offsets_of_spec.
Qed.

Lemma offsets_of_partitions b : NoDup (List.map Commit.partition (offsets_of route b)).
Proof.
  unfold offsets_of. rewrite List.map_map. simpl. apply (NoDup_fst_map_to_list (ranges b)).
Qed.

(** Neither commits nor stored offsets changed. *)
Definition progress_kept (d d' : DbState) : Prop :=
  commits (tables d') = commits (tables d) /\ ingest_offsets (tables d') = ingest_offsets (tables d).

#[local] Instance progress_kept_preorder : PreOrder progress_kept.
Proof. split; [by intros d|]. intros a b c [A1 A2] [B1 B2]. split; congruence. Qed.

Lemma publish_step_progress ht d d1 :
  (forall n d, progress_kept d (peers_at env n d)) -> rtc (publish_step env ht) d d1 -> progress_kept d d1.
Proof.
  intros Pk. apply rtc_within; [apply _|]. intros a c [n x|ps now x]; [apply Pk|].
  unfold CatalogGc.register_pending_objects. destruct ps; [done|]. by destruct (List.existsb _ _).
Qed.

(** C12: a restart resumes exactly where the last flush left off.  The catalog
    that a successful flush committed to is the one it found, but for what
    others committed and its intents -- so with the same commits and stored
    offsets where the others leave those alone.  There, either this very flush
    had been applied before and nothing changed, or one commit applied it: no
    range was behind its stored offset, so nothing was applied twice, and
    afterwards every partition the batch covered starts at the offset after
    its last message, the others where they were. *)
Theorem restart_resumes_after_the_last_flush b batch s s' :
  (forall n, honest (tx_at env n)) -> held' b batch ->
  Forall (fun m => - 2 ^ 63 <= msg_offset m < 2 ^ 63 - 1) batch ->
  publish b s = (Ok no_buffers, s') ->
  let ht := ht_id hypertable in
  let stored := Commit.ingest_offsets_of (tables (sy_db s')) ht (route_topic route) in
  exists d1 identity,
    rtc (publish_step env ht) (sy_db s) d1 /\
    ((forall n d, progress_kept d (peers_at env n d)) -> progress_kept (sy_db s) d1) /\
    ingest_identity ht (offsets_of route b) = Ok identity /\
    ((exists id, tables (sy_db s') = tables d1 /\ already ht (Some identity) (tables d1) id) \/
     (exists n parts id,
        applied b64_decode tm_deserialize (tx_at env n) ht (Add parts) (Some identity) (offsets_of route b) None
          d1 (sy_db s') id) /\
     forall p,
       match range_over p batch with
       | Some (first, last) =>
           (forall cell, ingest_offsets (tables d1) !! (ht, route_topic route, p) = Some cell -> next_offset cell <= first) /\
           stored !! p = Some (last + 1) /\
           forall existing o, mkStart p o ∈ desired_assignment existing All stored -> o = last + 1
       | None => stored !! p = Commit.ingest_offsets_of (tables d1) ht (route_topic route) !! p
       end).
Proof.
  intros Hon Hh Bo E ht stored. apply st_bind_Ok in E as (cols & s1 & [Pc ->]%st_lift_Ok & E).
  apply st_bind_Ok in E as (items & s1 & [It ->]%st_lift_Ok & E). apply st_bind_Ok in E as (r & s1 & Fl & E).
  injection E as <-. apply st_bind_Ok in Fl as (identity & s2 & [Id ->]%st_lift_Ok & Fl). apply st_map_err_Ok in Fl.
  apply publish_add_Ok in Fl as (_ & prepared & n & d1 & f & Ep & Cm & _ & Steps). exists d1, identity.
  split; [exact Steps|]. split; [intros Pk; by eapply publish_step_progress|]. split; [exact Id|].
  apply commit_txn_cases in Cm; [|done]. destruct r as [id|id]; [right|by left; exists id].
  split; [eexists n, _, id; exact Cm|].
  destruct Cm as (_ & _ & _ & Ad & T & _). simpl in Ad, T. intros p.
  pose proof (offsets_of_partitions b) as Nd.
  assert (Tp : forall o, o ∈ offsets_of route b -> Commit.topic o = route_topic route).
  { intros o Ho. apply (offsets_of_spec b batch o Hh) in Ho. by destruct Ho. }
  destruct (offset_cells_lookup ht (route_topic route) _ (ingest_offsets (tables d1)) p Nd Tp) as [A B].
  assert (L : forall q, stored !! q = next_offset <$>
    List.fold_left (fun m r => offset_cell m ht r) (offsets_of route b) (ingest_offsets (tables d1)) !! (ht, route_topic route, q)).
  { intros q. unfold stored. rewrite ingest_offsets_of_lookup, T. done. }
  destruct (range_over p batch) as [[first last]|] eqn:R.
  - set (o := Commit.mkOffsetRange (route_topic route) p first last).
    assert (Ho : o ∈ offsets_of route b) by (by apply (offsets_of_spec b batch o Hh)).
    assert (St : stored !! p = Some (last + 1)).
    { rewrite L, (A o Ho eq_refl). simpl. f_equal. apply wrap_i64_id. unfold in_i64, i64_min, i64_max.
      apply range_over_last in R as (m & Hm & <-). rewrite Forall_forall in Bo. specialize (Bo m Hm). lia. }
    split; [exact (offsets_admit_each ht _ _ _ o Nd Tp Ad Ho)|]. split; [exact St|].
    intros existing off Hs. apply (assignment_in existing All stored) in Hs as (_ & _ & ->). by rewrite St.
  - rewrite L, B, ingest_offsets_of_lookup; [done|]. intros o Ho E. apply (offsets_of_spec b batch o Hh) in Ho as [_ Ho].
    by rewrite E, R in Ho.
Qed.

End route.

Section files.
Context `{Jsonb} `{IngestPlatform} (writer_fails : list Rewrite.WriterCall -> option string).

(** Arrow's JSON decoder yields batches of the schema it was given. *)
Definition decoder_keeps_schema : Prop :=
  forall s rows b, decode_json s rows = Ok (Some b) -> rb_schema b = s.

Lemma decode_rows_Ok s pk ts rows b :
  decode_rows s pk ts rows = Ok b ->
  rows <> [] /\ Forall (fun row => is_Some (row_i64 row pk) /\ is_Some (row_i64 row ts)) rows /\
  decode_json s rows = Ok (Some b).
Proof.
  unfold decode_rows. destruct rows as [|r0 rest] eqn:Er; [done|]. rewrite <- Er. assert (Ne : rows <> []) by (by rewrite Er).
  clear r0 rest Er. intros E. inv_ok. destruct (decode_json s rows) as [[b'|]|]; simpl in *; inv_ok; try done.
  simpl in E. injection E as ->. split_and!; try done. apply mapr_Forall2 in E0.
  apply Forall_forall. intros row Hr. apply list_elem_of_lookup in Hr as [i Hi].
  assert (Hz : zip (seq 0 (length rows)) rows !! i = Some (i, row)).
  { apply Pruning.Pruning.zip_lookup. split; [|done]. apply lookup_seq. split; [lia|by eapply lookup_lt_Some]. }
  destruct (Forall2_lookup_l _ _ _ _ _ E0 Hz) as (u & _ & C). unfold check_row in C. simpl in C.
  destruct (row_i64 row pk), (row_i64 row ts); simpl in C; try done.
Qed.

(** C17: a level-0 file holds the rows it was given, decoded and with their
    defaults and computed columns filled in, as a permutation in sort-key
    order; its key range, count and statistics describe exactly those rows;
    and it is only made of rows that carry a packing key and a timestamp. *)
Theorem level0_file_is_sorted_and_described cols pk ts sk rows part j f ix :
  try_new_checks -> lexsort_orders -> decoder_keeps_schema ->
  let s := Schema.physical_schema cols in
  index_of s pk = Some j -> s !! j = Some f -> f_type f = Int64 -> sort_indices s sk ix ->
  encode_rows writer_fails cols pk ts sk rows = Ok part ->
  Forall (fun row => is_Some (row_i64 row pk) /\ is_Some (row_i64 row ts)) rows /\
  exists decoded filled sorted,
    decode_json s rows = Ok (Some decoded) /\ Expr.apply_defaults_and_materialized decoded cols = Ok filled /\
    sorted ≡ₚ batch_rows filled /\ StronglySorted row_le (List.map (row_key ix) sorted) /\
    level0_file s pk j sorted part.
Proof.
  intros Tn Lx De s Ij Hf Tf Ix E. unfold encode_rows in E. fold s in E. inv_ok.
  apply decode_rows_Ok in E0 as (_ & F & Dj). split; [done|]. pose proof (De _ _ _ Dj) as Es.
  destruct (Expr.apply_defaults_and_materialized a cols) as [filled|] eqn:Fi; simpl in E1; [|done]. injection E1 as ->.
  destruct (sort_batch _ _) as [sb|] eqn:Sb; simpl in E2; [|done]. injection E2 as ->.
  assert (B : exists n, batch_ok s n a0).
  { unfold Expr.apply_defaults_and_materialized in Fi. apply rbind_Ok in Fi as (cs & _ & Fi). unfold Expr.try_new in Fi.
    destruct (Expr.try_new_error _ _) eqn:N; [done|]. injection Fi as <-. rewrite <- Es. by apply Tn. }
  destruct B as [n B]. assert (Ne : s <> []) by (intros X; by rewrite X in Ij).
  destruct (sort_batch_spec s n _ _ ix _ Lx Ne B Ix Sb) as (sorted & -> & P & S).
  exists a, a0, sorted. split_and!; try done. unfold finish_batch in E.
  destruct (encode_batch _ _ _ _ _) as [p|] eqn:En; simpl in E; [|done]. injection E as ->. by eapply encode_batch_spec.
Qed.

End files.
End IngestSpec.
