(* ===== verification/IngestExamples.v ===== *)
(** * An ingest at work

    A platform small enough to run, and on it a route that buffers, skips a
    poison message, flushes, and shuts down; a publication whose upload fails;
    and a query's output split by partition. *)

From S2P Require Import Prelude Bytes Json Types Arrow Schema Operation CatalogError CatalogDb Commit CommitSpec CommitExamples CatalogGc Parts Pruning Batches Expr Merge MergeSpec Rewrite RewriteSpec Compactor CompactorSpec Deletion Write Publish WriteSpec Ingest IngestSpec.
Import CatalogError CatalogDb CommitSpec CommitTheorems CommitExamples Batches Rewrite RewriteSpec Compactor CompactorSpec CompactorExamples DeletionSpec Write Publish WriteSpec PublishSpec Ingest IngestSpec.

Module IngestExamples.

(** ** The platform *)

(** The sort keys of the first column. *)
Definition first_keys (columns : list ArrayRef) : list Z :=
  match columns with
  | Int64Array vs :: _ => List.map (default 0) vs
  | OtherArray _ vs :: _ => List.map (fun _ => 0) vs
  | [] => []
  end.

Definition by_key (keys : list Z) (i k : nat) : Prop := default 0 (keys !! i) <= default 0 (keys !! k).
#[local] Instance by_key_dec keys i k : Decision (by_key keys i k).
Proof. unfold by_key; apply _. Defined.

Definition demo_lexsort (columns : list ArrayRef) : result (list nat) string :=
  match columns with
  | [] => Err "Sort requires at least one column"%string
  | _ => Ok (merge_sort (by_key (first_keys columns)) (seq 0 (length (first_keys columns))))
  end.

(** The text of a partition of one integer column. *)
Definition demo_text (v : json) : string :=
  match v with JObject [(_, JNumber (NumInt z))] => "i" +:+ pretty z | _ => "null" end.

#[export] Instance demo_write : WritePlatform := {|
  platform := demo_platform; lexsort_to_indices := demo_lexsort; cast a _ := Ok a;
  can_cast_types a b := bool_decide (a = b); array_memory_size b := Z.of_nat (8 * num_rows b);
  json_text := demo_text; number_from_f64 _ := None; file_length := len |}.

Definition demo_decode (s : ArrowSchema) (rows : list json) : result (option RecordBatch) string :=
  Ok (Some (mkBatch s (List.map (fun f => Int64Array (List.map (fun r => row_i64 r (f_name f)) rows)) s))).
Definition demo_slice (payload : list Z) : option json :=
  match payload with [k; ts] => Some (JObject [("k", jint k); ("ts", jint ts)]%string) | _ => None end.

#[export] Instance demo_ingest : IngestPlatform := {|
  write_platform := demo_write; decode_json := demo_decode; from_slice := demo_slice;
  day_of_millis _ := Some "2026-07-05"%string |}.

Lemma demo_decoder : decoder_keeps_schema.
Proof. intros s rows b [= <-]. done. Qed.

Lemma first_key_at s n b j ix c cs i r :
  batch_ok s n b -> Forall2 (fun j c => rb_columns b !! j = Some c) (j :: ix) (c :: cs) ->
  batch_rows b !! i = Some r -> int_key (j :: ix) r = default 0 (first_keys (c :: cs) !! i).
Proof.
  intros B F Hr. inversion F as [|? ? ? ? Hc _]; subst. unfold batch_rows in Hr. rewrite lookup_map in Hr.
  destruct (seq 0 (num_rows b) !! i) as [i'|] eqn:Hi; [|done]. apply lookup_seq in Hi as [-> _]. injection Hr as <-.
  simpl. unfold int_at. rewrite (heads_lookup _ i j (array_cells c)) by (by rewrite lookup_map, Hc).
  destruct c as [vs|t vs]; simpl; rewrite !lookup_map; by destruct (vs !! i) as [[v|]|].
Qed.

Lemma sorted_positions (keys : list Z) (key : list Cell -> Z) (rows : list (list Cell)) (ixs : list nat) :
  (forall i r, rows !! i = Some r -> key r = default 0 (keys !! i)) ->
  StronglySorted (by_key keys) ixs -> StronglySorted Z.le (List.map key (omap (rows !!.) ixs)).
Proof.
  intros K. induction 1 as [|i ixs S IH F]; [constructor|]. csimpl.
  destruct (rows !! i) as [r|] eqn:R; [|done]. csimpl. constructor; [done|].
  apply Forall_forall. intros z Hz. apply list_elem_of_In, List.in_map_iff in Hz as (r' & <- & Hr').
  apply list_elem_of_In, list_elem_of_omap in Hr' as (i' & Hi' & R'). rewrite (K _ _ R), (K _ _ R').
  rewrite Forall_forall in F. by apply F.
Qed.

Lemma demo_lexsorts : lexsort_orders.
Proof.
  intros s n b ix columns indices Ne B F E. pose proof (ok_num_rows s n b Ne B) as N.
  destruct columns as [|c cs]; [done|]. injection E as <-. inversion F as [|j ? ix' ? Hc F']; subst. split.
  - rewrite merge_sort_Permutation. f_equiv.
    assert (L : array_len c = num_rows b).
    { destruct B as [_ _ R]. rewrite Forall_forall in R. by apply R, (list_elem_of_lookup_2 _ j). }
    rewrite <- L. destruct c as [vs|t vs]; simpl; by rewrite List.length_map.
  - apply (sorted_positions (first_keys (c :: cs)) (int_key (j :: ix'))).
    + intros i r. by apply (first_key_at s _ b j ix' c cs i r B).
    + apply StronglySorted_merge_sort; [intros x y z; unfold by_key; lia|intros x y; unfold by_key; lia].
Qed.

(** ** A route *)

Definition ts_schema : json :=
  JObject [("fields", JArray [JObject [("name", JString "k"); ("nullable", JBool false); ("type", JString "int64")];
                              JObject [("name", JString "ts"); ("type", JString "timestamp_ms")]])]%string.
Definition events_table : Hypertable :=
  mkHypertable 1 "events" ts_schema (JObject [("columns", JArray [JString "k"])]%string) ["k"; "ts"]%string "k" Packed.
Definition no_fail (calls : list WriterCall) : option string := None.
Definition demo_env : WriteEnv :=
  mkWriteEnv (fun _ d => d) (fun _ => None) (fun _ => Acked) (fun _ => 7) (fun _ => quiet 7) (fun n => pretty n) (fun _ => None).
Definition demo_config : IngestConfig := mkIngestConfig 2 30 200 3650 3600.
Definition demo_route : TableRoute := mkRoute "t" "events" "ts".
Definition sys0 : Sys := mkSys (mkDb (with_hypertables empty_tables [events_table]) (mkSeqs 1 0 0 0 0 0 0)) ∅ 0 0.

Definition msg (p o k : Z) : Message := mkMessage (Some [k; 1000]) p o 1000.
Definition poison (p o : Z) : Message := mkMessage (Some [0]) p o 1000.
Definition demo_events : list Event :=
  [Received (Ok (msg 0 10 5)); Received (Ok (poison 0 11)); Received (Ok (msg 1 70 3)); Tick; Received (Ok (msg 0 12 8)); Shutdown].

Definition ran := route_loop no_fail demo_env demo_config demo_route events_table demo_events no_buffers sys0.

Lemma ran_eq :
  route_loop no_fail demo_env demo_config demo_route events_table demo_events no_buffers sys0
  = (Ok (no_buffers, true), ran.2).
Proof. vm_compute. reflexivity. Qed.

(** Two commits: the first three messages, the poison one's offset included,
    then the last one. *)
Example ran_offsets :
  (fun p => Commit.ingest_offsets_of (tables (sy_db ran.2)) 1 "t" !! p) <$> [0; 1] = [Some 13; Some 71] /\
  List.map (fun r => row_count (pr_meta r)) (parts (tables (sy_db ran.2))) = [2; 1].
Proof. vm_compute. done. Qed.

Lemma every_message_is_published_once_witness :
  exists batches, [msg 0 10 5; poison 0 11; msg 1 70 3; msg 0 12 8] = concat batches ++ [].
Proof.
  destruct (every_message_is_published_once no_fail demo_env demo_config demo_route events_table demo_events no_buffers true
    sys0 ran.2 ltac:(simpl; lia) ran_eq) as (batches & pending & E & _ & _ & P & _).
  exists batches. rewrite (P eq_refl) in E. exact E.
Defined.

(** The first flush. *)
Definition first_batch : list Message := [msg 0 10 5; poison 0 11; msg 1 70 3].
Definition full : Buffers :=
  List.fold_left (fun b m => buffer_message demo_config demo_route "k" m b) first_batch no_buffers.
Definition flushed := publish_buffers no_fail demo_env demo_route events_table full sys0.

Lemma flushed_eq : publish_buffers no_fail demo_env demo_route events_table full sys0 = (Ok no_buffers, flushed.2).
Proof. vm_compute. reflexivity. Qed.

Lemma full_held : held demo_config demo_route "k" full first_batch.
Proof.
  apply (buffer_message_held demo_config demo_route "k" _ [msg 0 10 5; poison 0 11] (msg 1 70 3)).
  apply (buffer_message_held demo_config demo_route "k" _ [msg 0 10 5] (poison 0 11)).
  apply (buffer_message_held demo_config demo_route "k" _ [] (msg 0 10 5)). apply held_nothing.
Qed.

Lemma batch_is_committed_with_its_offsets_witness :
  exists identity, ingest_identity 1 (offsets_of demo_route full) = Ok identity.
Proof.
  destruct (batch_is_committed_with_its_offsets no_fail demo_env demo_config demo_route events_table full first_batch sys0
    flushed.2 full_held flushed_eq) as (cols & items & identity & r & pr & n & d1 & f & _ & _ & _ & _ & I & _).
  exists identity. exact I.
Defined.

Lemma in_range : Forall (fun m => - 2 ^ 63 <= msg_offset m < 2 ^ 63 - 1) first_batch.
Proof. repeat constructor; simpl; lia. Qed.

(** Nothing had been stored before, so the flush was applied. *)
Lemma restart_resumes_after_the_last_flush_witness :
  exists d1 : DbState, commits (tables d1) = commits (tables (sy_db sys0)) /\
    ((exists identity id, already 1 (Some identity) (tables d1) id) \/
     forall existing o,
       mkStart 0 o ∈ desired_assignment existing All (Commit.ingest_offsets_of (tables (sy_db flushed.2)) 1 "t") -> o = 12).
Proof.
  destruct (restart_resumes_after_the_last_flush no_fail demo_env demo_config demo_route events_table full first_batch sys0
    flushed.2 (fun _ => quiet_honest 7) full_held in_range flushed_eq) as (d1 & i & _ & K & _ & C).
  exists d1. split; [exact (proj1 (K (fun _ d => conj eq_refl eq_refl)))|].
  destruct C as [(id & _ & L)|[_ R]].
  - left. exists i, id. exact L.
  - right. exact (proj2 (proj2 (R 0))).
Defined.

(** ** A worker *)

(** Two routes: one consumes a message and stops when told to; the other's broker
    fails before it is positioned, or, in the second run, later. *)
Definition other_route : TableRoute := mkRoute "u" "events" "ts".
Definition worker_events : list IngestWorker.WorkerEvent :=
  [IngestWorker.Begin 0 [Ok [0]]; IngestWorker.Poll 0 (Received (Ok (msg 0 10 5))); IngestWorker.Begin 1 [Ok []; Ok [0]];
   IngestWorker.Poll 1 Shutdown; IngestWorker.Poll 0 Shutdown; IngestWorker.Join 1; IngestWorker.Join 0; IngestWorker.NoneLeft].
Definition worked (evs : list IngestWorker.WorkerEvent) : option IngestWorker.Worker :=
  IngestWorker.worker_run no_fail demo_env demo_config evs (IngestWorker.start [demo_route; other_route] sys0).

Example worker_signals :
  (fun n => (fun w => (IngestWorker.fired (IngestWorker.gate w), IngestWorker.ended w)) <$> worked (firstn n worker_events)) <$> [2; 3; 8]%nat =
    [Some (0%nat, None); Some (1%nat, None); Some (1%nat, Some (Ok tt))] /\
  (fun w => (IngestWorker.fired (IngestWorker.gate w), IngestWorker.ended w)) <$>
    worked [IngestWorker.Begin 0 [Ok [0]]; IngestWorker.Begin 1 [Err "down"%string]; IngestWorker.Join 1] =
    Some (0%nat, Some (Err (IgKafka "down"))).
Proof. vm_compute. done. Qed.

Definition worker_done : IngestWorker.Worker :=
  default (IngestWorker.start [] sys0) (worked worker_events).

Lemma worker_done_eq : worked worker_events = Some worker_done.
Proof. vm_compute. reflexivity. Qed.

Lemma ready_once_every_route_is_witness :
  (IngestWorker.fired (IngestWorker.gate worker_done) = 1%nat <-> Forall (fun t => IngestWorker.rt_arrived t = true) (IngestWorker.tasks worker_done)).
Proof.
  apply (IngestWorker.ready_once_every_route_is no_fail demo_env demo_config [demo_route; other_route] sys0 worker_events worker_done);
    [discriminate|vm_compute; reflexivity|exact worker_done_eq].
Defined.

(** ** A file *)

Definition event_cols : Schema.TableColumns :=
  Schema.mkTableColumns [Schema.mkColumnSpec "k" Int64 false Schema.Stored "int64" false;
                         Schema.mkColumnSpec "ts" Int64 true Schema.Stored "timestamp_ms" false].
Definition event (k : Z) : json := JObject [("k", jint k); ("ts", jint 1000)]%string.
Definition encoded : result EncodedPart IngestError := encode_rows no_fail event_cols "k" "ts" ["k"; "ts"]%string [event 5; event 3].
Definition the_part : EncodedPart := match encoded with Ok p => p | Err _ => mkEncoded [] 0 0 0 None end.

Lemma encoded_eq : encode_rows no_fail event_cols "k" "ts" ["k"; "ts"]%string [event 5; event 3] = Ok the_part.
Proof. vm_compute. reflexivity. Qed.

Lemma event_indices : sort_indices (Schema.physical_schema event_cols) ["k"; "ts"]%string [0%nat; 1%nat].
Proof. repeat constructor. Qed.

Lemma level0_file_is_sorted_and_described_witness :
  exists sorted, StronglySorted Z.le (List.map (int_key [0%nat; 1%nat]) sorted) /\
    level0_file (Schema.physical_schema event_cols) "k" 0 sorted the_part.
Proof.
  destruct (level0_file_is_sorted_and_described (H0 := demo_ingest) no_fail event_cols "k" "ts" ["k"; "ts"]%string [event 5; event 3] the_part 0
    (mkField "k" Int64 false []) [0%nat; 1%nat] DeletionExamples.checks demo_lexsorts demo_decoder eq_refl eq_refl eq_refl
    event_indices encoded_eq) as (_ & decoded & filled & sorted & _ & _ & _ & S & L).
  exists sorted. split; [exact S|exact L].
Defined.

(** ** A publication whose second upload fails, the object stored all the same *)

Definition flaky_env : WriteEnv :=
  mkWriteEnv (fun _ d => d) (fun _ => None) (fun _ => Acked) (fun _ => 7) (fun _ => quiet 7) (fun n => pretty n)
    (fun p => if String.eqb p "ht/1/L0/1.parquet" then Some ("timeout"%string, true) else None).
Definition add_ident : Operation.OperationIdentity := ident "add" 3.
Definition two_items : list FlushItem := [mkItem day the_part; mkItem day the_part].
Definition failed := publish_add flaky_env events_table two_items (PlainAdd add_ident) sys0.

Lemma failed_eq :
  publish_add flaky_env events_table two_items (PlainAdd add_ident) sys0 = (Err (WObjectStore "timeout"), failed.2).
Proof. vm_compute. reflexivity. Qed.

Lemma orphan_stored : sy_store failed.2 !! "ht/1/L0/1.parquet"%string <> sy_store sys0 !! "ht/1/L0/1.parquet"%string.
Proof. vm_compute. discriminate. Qed.

Lemma uploads_are_tracked_witness : tracked (tables (sy_db failed.2)) "ht/1/L0/1.parquet".
Proof.
  exact (proj2 (uploads_are_tracked flaky_env events_table two_items (PlainAdd add_ident) sys0
    (Err (WObjectStore "timeout")) failed.2 (fun _ d p Hp => Hp) (fun _ => quiet_honest 7) failed_eq) _ orphan_stored).
Defined.

(** ** A query's output, split by key *)

Definition output : RecordBatch :=
  mkBatch (Schema.physical_schema event_cols) [Int64Array [Some 5; Some 3; Some 5]; Int64Array [Some 9; Some 8; Some 7]].
Definition split : result (list FlushItem) WriteError := batches_to_l0_items no_fail [output] events_table 1000.
Definition split_items : list FlushItem := match split with Ok items => items | Err _ => [] end.

Lemma split_eq : batches_to_l0_items no_fail [output] events_table 1000 = Ok split_items.
Proof. vm_compute. reflexivity. Qed.

Example split_counts : List.map (fun i => ep_row_count (item_part i)) split_items = [1; 2].
Proof. vm_compute. reflexivity. Qed.

Lemma adapted_eq : adapt_batches event_cols events_table 1000 0 0 [output] = Ok [output].
Proof. vm_compute. reflexivity. Qed.

Lemma value_shape r v :
  value_of (Schema.physical_schema event_cols) ["k"%string] (cat (Schema.physical_schema event_cols) [output]) r = Ok v ->
  v = JObject [("k"%string, JNull)] \/ exists z, v = JObject [("k"%string, jint z)].
Proof.
  destruct r as [|[|[|r]]]; vm_compute; intros [= <-]; eauto.
Qed.

Lemma texts_differ r r' v v' :
  let value := value_of (Schema.physical_schema event_cols) ["k"%string] (cat (Schema.physical_schema event_cols) [output]) in
  value r = Ok v -> value r' = Ok v' -> demo_text v = demo_text v' -> v = v'.
Proof.
  intros value [->|[z ->]]%value_shape [->|[z' ->]]%value_shape; simpl; try done. intros [= E].
  do 4 f_equal. unfold jint. do 2 f_equal. by apply (inj pretty).
Qed.

Lemma query_output_is_partitioned_witness :
  exists rowss, concat rowss ≡ₚ [0; 1; 2]%nat.
Proof.
  destruct (query_output_is_partitioned (H0 := demo_write) no_fail events_table [output] 1000 split_items event_cols ["k"%string]
    [output] 0 (mkField "k" Int64 false []) [0%nat; 1%nat] DeletionExamples.checks demo_lexsorts eq_refl eq_refl adapted_eq
    eq_refl eq_refl eq_refl event_indices texts_differ split_eq) as (rowss & _ & P & _).
  exists rowss. exact P.
Defined.

End IngestExamples.
