(* ===== verification/SqlPipeline.v ===== *)
(** * One SQL statement over one logical input (crates/ukiel-pipeline/src/lib.rs)

    A pipeline's SELECT is checked once, when it is prepared, and planned afresh
    at every execution over that execution's input, inside the four limits.
    DataFusion -- its planner, its traversal of a plan, its execution -- is the
    class [SqlEngine]; the wall clock of a call is one of its arguments, since a
    statement may read [now()]. *)

From S2P Require Import Prelude Bytes Json Types Arrow Schema Batches Rewrite Compactor Write.

Module SqlPipeline.

(** [DataFusionError], by the root the code tells apart. *)
Inductive DataFusionError :=
| DfExecution (msg : string)
| DfArrow (msg : string)
| DfOther (msg : string).

(** A node of a logical plan, by the variants [validate_plan] tells apart. *)
Inductive PlanNode :=
| TableScan (table : string)
| Join
| Ddl
| Dml
| Statement
| Copy
| DescribeTable
| Explain
| Analyze
| Extension
| RecursiveQuery
| OtherNode.

Inductive PipelineError :=
| PDataFusion (e : DataFusionError)
| InvalidQuery
| InputSchemaMismatch
| PBudgetExceeded (resource : string) (limit : Z)
| InvalidLimits.

Definition is_runtime_data_error (e : PipelineError) : bool :=
  match e with PDataFusion (DfExecution _) | PDataFusion (DfArrow _) => true | _ => false end.

Record ExecutionLimits := mkLimits {
  input_bytes : Z;
  output_bytes : Z;
  output_rows : Z;
  operator_memory_bytes : Z;
}.

Definition default_limits : ExecutionLimits :=
  mkLimits (64 * 1024 * 1024) (64 * 1024 * 1024) 1000000 (128 * 1024 * 1024).

Record PreparedPipeline := mkPrepared {
  source_name : string;
  sql : string;
  input_schema : ArrowSchema;
  output_schema : ArrowSchema;
  limits : ExecutionLimits;
}.

(** A session: one registered table and its memory limit. *)
Record SessionContext := mkSession {
  sc_table : string;
  sc_schema : ArrowSchema;
  sc_input : list RecordBatch;
  sc_memory : Z;
}.

End SqlPipeline.
Import Batches SqlPipeline.

Class SqlEngine := {
  LogicalPlan : Type;
  build_session : SessionContext -> result unit DataFusionError;
  create_logical_plan : SessionContext -> Z -> string -> result LogicalPlan DataFusionError;
  create_physical_plan : SessionContext -> LogicalPlan -> result unit DataFusionError;
  plan_schema : LogicalPlan -> ArrowSchema;
  apply_with_subqueries : LogicalPlan -> list PlanNode;
  execute_stream : SessionContext -> Z -> LogicalPlan ->
    result (list (result RecordBatch DataFusionError)) DataFusionError;
}.

Module Execute.

Definition check_budget (resource : string) (value limit : Z) : result unit PipelineError :=
  if limit <? value then Err (PBudgetExceeded resource limit) else Ok tt.

Definition saturating_add (a b : Z) : Z := Z.min (a + b) (2 ^ 64 - 1).

(** One node, over the scans seen and whether the plan is already refused. *)
Definition visit_node (source : string) (acc : Z * bool) (node : PlanNode) : Z * bool :=
  let '(scans, invalid) := acc in
  match node with
  | TableScan table => (scans + 1, invalid || negb (String.eqb table source))
  | Join | Ddl | Dml | Statement | Copy | DescribeTable | Explain | Analyze | Extension | RecursiveQuery =>
      (scans, true)
  | OtherNode => (scans, invalid)
  end.

Section engine.
Context `{WP : WritePlatform} `{SqlEngine}.

Definition validate_plan (plan : LogicalPlan) (source : string) : result unit PipelineError :=
  let '(scans, invalid) := List.fold_left (visit_node source) (apply_with_subqueries plan) (0, false) in
  if invalid || negb (scans =? 1) then Err InvalidQuery else Ok tt.

Definition context (source : string) (schema : ArrowSchema) (input : list RecordBatch) (limits : ExecutionLimits)
  : result SessionContext PipelineError :=
  if bool_decide (0 ∈ [input_bytes limits; output_bytes limits; output_rows limits; operator_memory_bytes limits])
  then Err InvalidLimits
  else
    let ctx := mkSession source schema input (operator_memory_bytes limits) in
    let? _ := map_err PDataFusion (build_session ctx) in
    Ok ctx.

Definition prepare_pipeline (now : Z) (source sql : string) (schema : ArrowSchema) (limits : ExecutionLimits)
  : result PreparedPipeline PipelineError :=
  let? ctx := context source schema [] limits in
  let? plan := map_err PDataFusion (create_logical_plan ctx now sql) in
  let? _ := validate_plan plan source in
  let? _ := map_err PDataFusion (create_physical_plan ctx plan) in
  Ok (mkPrepared source sql schema (plan_schema plan) limits).

(** The first loop: schema and bytes of the input. *)
Fixpoint check_input (prepared : PreparedPipeline) (bytes : Z) (input : list RecordBatch) : result unit PipelineError :=
  match input with
  | [] => Ok tt
  | batch :: input =>
      if negb (bool_decide ((rb_schema batch : list Field) = input_schema prepared)) then Err InputSchemaMismatch
      else
        let bytes := saturating_add bytes (array_memory_size batch) in
        let? _ := check_budget "input bytes" bytes (input_bytes (limits prepared)) in
        check_input prepared bytes input
  end.

(** The second: the stream, drained under the output limits. *)
Fixpoint drain (limits : ExecutionLimits) (bytes rows : Z) (stream : list (result RecordBatch DataFusionError))
  : result (list RecordBatch) PipelineError :=
  match stream with
  | [] => Ok []
  | item :: stream =>
      let? batch := map_err PDataFusion item in
      let bytes := saturating_add bytes (array_memory_size batch) in
      let rows := saturating_add rows (Z.of_nat (num_rows batch)) in
      let? _ := check_budget "output bytes" bytes (output_bytes limits) in
      let? _ := check_budget "output rows" rows (output_rows limits) in
      let? output := drain limits bytes rows stream in
      Ok (batch :: output)
  end.

Definition execute_pipeline (now : Z) (prepared : PreparedPipeline) (input : list RecordBatch)
  : result (list RecordBatch) PipelineError :=
  let? _ := check_input prepared 0 input in
  let? ctx := context (source_name prepared) (input_schema prepared) input (limits prepared) in
  let? plan := map_err PDataFusion (create_logical_plan ctx now (sql prepared)) in
  let? _ := validate_plan plan (source_name prepared) in
  let? stream := map_err PDataFusion (execute_stream ctx now plan) in
  drain (limits prepared) 0 0 stream.

(** ** What an execution is held to *)

Definition scans_of (nodes : list PlanNode) : list string :=
  omap (fun n => match n with TableScan t => Some t | _ => None end) nodes.

Definition forbidden (n : PlanNode) : bool :=
  match n with TableScan _ | OtherNode => false | _ => true end.

Lemma visit_fold source nodes scans invalid :
  List.fold_left (visit_node source) nodes (scans, invalid)
  = (scans + len (scans_of nodes),
     invalid || List.existsb (fun t => negb (String.eqb t source)) (scans_of nodes) || List.existsb forbidden nodes).
Proof.
  revert scans invalid. induction nodes as [|n nodes IH]; intros scans invalid; simpl.
  - rewrite len_nil. f_equal; [lia|by rewrite !orb_false_r].
  - destruct n; simpl; rewrite IH; csimpl; rewrite ?len_cons; f_equal; try lia;
      rewrite ?orb_true_r, ?orb_true_l, ?orb_assoc; try done.
Qed.

Lemma validate_plan_spec plan source :
  validate_plan plan source = Ok tt <->
  scans_of (apply_with_subqueries plan) = [source] /\ Forall (fun n => forbidden n = false) (apply_with_subqueries plan).
Proof.
  unfold validate_plan. rewrite visit_fold. cbv beta iota. rewrite Z.add_0_l, orb_false_l.
  assert (Fb : List.existsb forbidden (apply_with_subqueries plan) = false <->
    Forall (fun n => forbidden n = false) (apply_with_subqueries plan)).
  { rewrite <-not_true_iff_false, List.existsb_exists, Forall_forall. split.
    - intros N n Hn. destruct (forbidden n) eqn:F; [|done]. destruct N. exists n. by rewrite <-list_elem_of_In.
    - intros A (n & Hn & F). rewrite <-list_elem_of_In in Hn. by rewrite (A n Hn) in F. }
  assert (No : forall (b : bool) n, n <> 1 -> (if b || negb (n =? 1) then Err InvalidQuery else Ok tt) <> Ok tt).
  { intros b n N. destruct (Z.eqb_spec n 1); [done|]. by rewrite orb_true_r. }
  destruct (scans_of (apply_with_subqueries plan)) as [|t [|t' ts]].
  - split; [intros E; by apply No in E|]. by intros [? _].
  - cbn [List.existsb]. rewrite orb_false_r. change (len [t] =? 1) with true. rewrite orb_false_r.
    destruct (String.eqb_spec t source) as [->|N]; cbn [negb orb].
    + rewrite <-Fb. destruct (List.existsb _ _); simpl; split; naive_solver.
    + split; [done|]. intros [[= ?] _]. done.
  - split; [|by intros [? _]]. intros E. apply No in E; [done|]. rewrite !len_cons. pose proof (len_nonneg ts). lia.
Qed.

Definition bytes_of (bs : list RecordBatch) : Z := List.fold_left (fun n b => n + array_memory_size b) bs 0.
Definition rows_of (bs : list RecordBatch) : Z := List.fold_left (fun n b => n + Z.of_nat (num_rows b)) bs 0.

Lemma fold_add {A} (f : A -> Z) l n : List.fold_left (fun n x => n + f x) l n = n + List.fold_left (fun n x => n + f x) l 0.
Proof. revert n. induction l as [|x l IH]; intros n; simpl; [lia|]. rewrite (IH (n + f x)), (IH (0 + f x)). lia. Qed.

Lemma check_budget_Ok r v l : check_budget r v l = Ok tt <-> v <= l.
Proof. unfold check_budget. destruct (Z.ltb_spec l v); split; (done || lia). Qed.

Definition limits_wf (l : ExecutionLimits) : Prop :=
  input_bytes l < 2 ^ 64 - 1 /\ output_bytes l < 2 ^ 64 - 1 /\ output_rows l < 2 ^ 64 - 1.

Lemma check_input_Ok prepared n input :
  input_bytes (limits prepared) < 2 ^ 64 - 1 ->
  check_input prepared n input = Ok tt ->
  Forall (fun b => rb_schema b = input_schema prepared) input /\
  (input <> [] -> n + bytes_of input <= input_bytes (limits prepared)).
Proof.
  intros L. revert n. induction input as [|b input IH]; intros n; simpl; [done|].
  case_bool_decide as S; [|done]. simpl. intros E. inv_ok. destruct a. apply check_budget_Ok in E0.
  assert (B : n + array_memory_size b <= input_bytes (limits prepared)) by (unfold saturating_add in E0; lia).
  apply IH in E as [F I]. split; [by constructor|]. intros _. unfold bytes_of in *. simpl. rewrite fold_add.
  destruct input as [|b' input]; [simpl; lia|]. specialize (I ltac:(done)). unfold saturating_add in *. lia.
Qed.

Lemma drain_Ok l n r stream out :
  output_bytes l < 2 ^ 64 - 1 -> output_rows l < 2 ^ 64 - 1 ->
  drain l n r stream = Ok out ->
  stream = List.map Ok out /\
  (out <> [] -> n + bytes_of out <= output_bytes l /\ r + rows_of out <= output_rows l).
Proof.
  intros Lb Lr. revert n r out. induction stream as [|item stream IH]; intros n r out; simpl; [by intros [= <-]|].
  intros E. inv_ok. destruct a0, a1. apply check_budget_Ok in E1, E2.
  destruct item as [b|e]; simpl in E0; [|done]. injection E0 as <-.
  assert (B : n + array_memory_size b <= output_bytes l) by (unfold saturating_add in E1; lia).
  assert (R : r + Z.of_nat (num_rows b) <= output_rows l) by (unfold saturating_add in E2; lia).
  apply IH in E3 as [-> I]. split; [done|]. intros _. unfold bytes_of, rows_of in *. simpl.
  rewrite (fold_add array_memory_size), (fold_add (fun b => Z.of_nat (num_rows b))).
  destruct a2 as [|b' out]; [simpl; lia|]. specialize (I ltac:(done)) as [I1 I2]. unfold saturating_add in *. lia.
Qed.

(** An execution that succeeds ran the prepared statement over exactly one
    scan of its declared source and nothing else, on input of the declared
    schema; its input and its output fit the declared limits; and its output is
    the whole stream the plan produced, in order, never a prefix cut off by a
    limit. *)
Theorem executions_stay_in_bounds now0 now source sql schema lim prepared input out :
  limits_wf lim ->
  prepare_pipeline now0 source sql schema lim = Ok prepared ->
  execute_pipeline now prepared input = Ok out ->
  Forall (fun b => rb_schema b = schema) input /\
  (input <> [] -> bytes_of input <= input_bytes lim) /\
  (out <> [] -> bytes_of out <= output_bytes lim /\ rows_of out <= output_rows lim) /\
  0 ∉ [input_bytes lim; output_bytes lim; output_rows lim; operator_memory_bytes lim] /\
  exists plan,
    create_logical_plan (mkSession source schema input (operator_memory_bytes lim)) now sql = Ok plan /\
    scans_of (apply_with_subqueries plan) = [source] /\
    Forall (fun n => forbidden n = false) (apply_with_subqueries plan) /\
    execute_stream (mkSession source schema input (operator_memory_bytes lim)) now plan = Ok (List.map Ok out).
Proof.
  intros (W1 & W2 & W3) P. unfold prepare_pipeline in P. inv_ok. clear dependent a1. clear dependent a2.
  clear E0. unfold execute_pipeline. cbn [limits source_name input_schema SqlPipeline.sql]. intros X. inv_ok.
  destruct a1, a4. apply check_input_Ok in E0 as [F I]; [|done]. cbn [limits input_schema] in *.
  unfold context in E1. case_bool_decide as Z0; [done|]. inv_ok.
  destruct (create_logical_plan _ now sql) as [plan|] eqn:Pl; simpl in E2; [|done]. injection E2 as <-.
  apply validate_plan_spec in E3 as [V1 V2].
  destruct (execute_stream _ now plan) as [st|] eqn:Es; simpl in E4; [|done]. injection E4 as <-.
  apply drain_Ok in X as [-> O]; [|done..]. split_and!; try done. exists plan. done.
Qed.

End engine.

End Execute.
