(* ===== verification/Mv.v ===== *)
(** * Materialized views (crates/ukiel-mv/src/lib.rs)

    A fleet turns each ADD of a view's source into one identified ADD of its
    target, at the pace of a cursor in the catalog. The catalog, the store and
    the publication are those of Publish.v: other processes act before every
    call, any call may fail, and an object may be gone by the time it is read
    ([MvEnv]). A statement runs on [SqlEngine]. Log lines and counters are not
    modelled. *)

From S2P Require Import Prelude Bytes Json Types Arrow Schema Operation CatalogError CatalogDb Commit Feed Tables Pipelines Batches Expr PartRead Rewrite Compactor Write Publish SqlPipeline.
Import CatalogError CatalogDb Batches Write Publish SqlPipeline Execute.

(** [reads]: the objects other processes have deleted when the [k]-th part of
    an event is opened, by the calls made so far; [sql_clock]: the wall clock a
    statement reads. *)
Record MvEnv := mkMvEnv {
  mv_calls : WriteEnv;
  lost_objects : nat -> nat -> string -> bool;
  sql_clock : nat -> Z;
}.

Module Mv.

Definition MV_TRANSFORMATION_VERSION : Z := 1.

(** What is behind a failed read: an object that is not there, or anything else. *)
Inductive Cause :=
| NotFound
| OtherCause (msg : string).

Inductive MvError :=
| MvCatalog (e : CatalogError)
| MvPipeline (e : PipelineError)
| MvWrite (e : WriteError)
| MvSchema (e : Schema.SchemaError)
| MvExpr (e : Expr.ExprError)
| MvArrow (e : string)
| MvOperation (e : Operation.OperationError)
| Config (why : string)
| InputBudget (limit : Z)
| SourceRead (commit : CommitId) (part : PartId) (path : string) (source : Cause)
| SourceInputUnavailable (commit : CommitId) (part : PartId) (path : string) (source : Cause).

Definition catalog_error (e : MvError) : option CatalogError :=
  match e with
  | MvCatalog e | MvWrite (WCatalog e) => Some e
  | _ => None
  end.

Definition is_data_error (e : MvError) : bool :=
  match e with
  | MvPipeline e => is_runtime_data_error e
  | MvWrite (WArrow _) | MvWrite (WExpr _) | MvWrite (InvalidTarget _) => true
  | _ => false
  end.

Record MvConfig := mkMvConfig {
  pipelines : list string;
  poll_interval_ms : Z;
  mv_limits : ExecutionLimits;
}.

Record Selected := mkSelected {
  sel_pipeline : Pipeline;
  source : Hypertable;
  target : Hypertable;
  prepared : PreparedPipeline;
}.

Definition sel_definition (s : Selected) : PipelineDefinition := pl_definition (sel_pipeline s).

(** ** The selected graph *)

(** The depth-first search from one target: a node is popped from the end of
    [pending]; [None] when the fuel runs out. *)
Fixpoint finds_cycle (fuel : nat) (edges : list (Z * Z)) (source : Z) (pending : list Z) (visited : gset Z)
  : option bool :=
  match fuel with
  | O => None
  | S fuel =>
      match rev pending with
      | [] => Some false
      | node :: rest =>
          let pending := rev rest in
          if node =? source then Some true
          else if bool_decide (node ∈ visited) then finds_cycle fuel edges source pending visited
          else
            finds_cycle fuel edges source
              (pending ++ List.map snd (List.filter (fun e => e.1 =? node) edges)) ({[node]} ∪ visited)
      end
  end.

Definition selected_edges (selected : list Selected) : list (Z * Z) :=
  List.map (fun s => (ht_id (source s), ht_id (target s))) selected.

(** Each node is expanded once, so an edge's target is pushed once. *)
Definition cycle_fuel (selected : list Selected) : nat := (length selected + 2)%nat.

Definition on_cycle (selected : list Selected) (s : Selected) : bool :=
  default true
    (finds_cycle (cycle_fuel selected) (selected_edges selected) (ht_id (source s)) [ht_id (target s)] ∅).

Section mv.
Context `{Jsonb} `{WritePlatform} `{SqlEngine}.
Context (writer_fails : list Rewrite.WriterCall -> option string).
Context (env : MvEnv).
#[local] Abbreviation calls := (mv_calls env).

(** A read of the catalog as a database with these tables: the lookups of the
    commit path read nothing else. *)
Definition lookup_operation (identity : Operation.OperationIdentity) (t : Tables)
  : result Commit.OperationLookup CatalogError :=
  Commit.lookup_operation identity (mkDb t (seqs empty_db)).

(** ** [MvFleet::new] *)

(** One name of the configuration, after the ones before it. *)
Definition resolve (config : MvConfig) (names : list string) (edges : list (HypertableId * HypertableId))
    (name : string) : St MvError Selected :=
  if bool_decide (name ∈ names)
  then st_lift (Err (Config ("duplicate selected pipeline " +:+ name)))
  else
    st_bind (st_map_err MvCatalog (catalog_read calls (fun t => Pipelines.get_pipeline t name))) (fun pipeline =>
    match pl_source (pl_definition pipeline) with
    | Kafka _ => st_lift (Err (Config ("pipeline " +:+ name +:+ " is not Parquet-sourced")))
    | Parquet source_id =>
        if bool_decide ((source_id, pl_target (pl_definition pipeline)) ∈ edges)
        then st_lift (Err (Config "duplicate selected source/target pair"))
        else
          st_bind (st_map_err MvCatalog (catalog_read calls (Tables.Registry.get_hypertable_by_id source_id))) (fun source =>
          st_bind (st_map_err MvCatalog
            (catalog_read calls (Tables.Registry.get_hypertable_by_id (pl_target (pl_definition pipeline))))) (fun target =>
          st_bind (st_lift (map_err MvExpr (Expr.validate_table_schema (table_schema source)))) (fun _ =>
          st_bind (st_lift (map_err MvExpr (Expr.validate_table_schema (table_schema target)))) (fun _ =>
          st_bind (st_lift (map_err MvSchema (Schema.parse (table_schema source)))) (fun cols s =>
          (let? prepared := map_err MvPipeline (prepare_pipeline (sql_clock env (sy_calls s)) (ht_name source)
                              (pl_sql (pl_definition pipeline)) (Schema.query_schema cols) (mv_limits config)) in
           let? _ := map_err MvWrite (validate_output_schema (output_schema prepared) target) in
           let? _ := match pl_event_time_column (pl_definition pipeline) with
                     | None => Ok O
                     | Some column => ok_or (index_of (output_schema prepared) column) (MvArrow "unknown column")
                     end in
           Ok (mkSelected pipeline source target prepared), s))))))
    end).

Fixpoint resolve_all (config : MvConfig) (seen : list string) (edges : list (HypertableId * HypertableId))
    (names : list string) : St MvError (list Selected) :=
  match names with
  | [] => st_ret []
  | name :: names =>
      st_bind (resolve config seen edges name) (fun selected =>
      st_bind (resolve_all config (name :: seen)
                 ((ht_id (source selected), pl_target (sel_definition selected)) :: edges) names) (fun rest =>
      st_ret (selected :: rest)))
  end.

Fixpoint register_cursors (selected : list Selected) : St MvError unit :=
  match selected with
  | [] => st_ret tt
  | s :: selected =>
      st_bind (st_map_err MvCatalog
        (catalog_write calls (fun _ => Pipelines.ensure_mv_cursor (pl_id (sel_pipeline s))))) (fun _ =>
      register_cursors selected)
  end.

Definition new (config : MvConfig) : St MvError (list Selected) :=
  if bool_decide (pipelines config = []) || (poll_interval_ms config =? 0)
  then st_lift (Err (Config "a non-empty pipeline list and positive poll interval are required"))
  else
    st_bind (resolve_all config [] [] (pipelines config)) (fun selected =>
    if List.existsb (on_cycle selected) selected
    then st_lift (Err (Config "selected pipeline graph contains a cycle"))
    else st_bind (register_cursors selected) (fun _ => st_ret selected)).

(** ** Reading one event's input *)

Definition source_error (event : CommitId) (part : Part) (c : Cause) : MvError :=
  SourceRead event (part_id part) (path (meta part)) c.

(** The rendering of the errors a read meets; only [NotFound] is told apart. *)
Definition cause_of_expr (e : Expr.ExprError) : Cause :=
  match e with Expr.SchemaE _ => OtherCause "schema" | Expr.DataFusion m | Expr.ArrowE m => OtherCause m end.

Definition physical_column (batch : RecordBatch) (f : Field) : result ArrayRef string :=
  match index_of (rb_schema batch) (f_name f) ≫= (rb_columns batch !!.) with
  | Some c => cast c (f_type f)
  | None => Ok (PartRead.new_null_array (f_type f) (num_rows batch))
  end.

(** One column of the view's input: an alias is computed, any other is stored. *)
Definition query_column (physical query : ArrowSchema) (stored : RecordBatch) (spec : Schema.ColumnSpec)
  : result ArrayRef Expr.ExprError :=
  match Schema.column_kind spec with
  | Schema.Alias sql =>
      let? field := ok_or (index_of query (Schema.name spec) ≫= (query !!.)) (Expr.ArrowE "unknown column") in
      let? expr := Expr.compile_for_field sql physical field in
      Expr.evaluate expr stored
  | _ => ok_or (index_of (rb_schema stored) (Schema.name spec) ≫= (rb_columns stored !!.)) (Expr.ArrowE "unknown column")
  end.

Definition adapt_batch (cols : Schema.TableColumns) (batch : RecordBatch) : result RecordBatch Cause :=
  let physical := Schema.physical_schema cols in
  let query := Schema.query_schema cols in
  let? arrays := map_err OtherCause (mapr (physical_column batch) physical) in
  let? stored := map_err cause_of_expr (Expr.try_new physical arrays) in
  let? arrays := map_err cause_of_expr (mapr (query_column physical query stored) (Schema.specs cols)) in
  map_err cause_of_expr (Expr.try_new query arrays).

(** The batches of one part, with the bytes adapted so far. *)
Fixpoint read_batches (cols : Schema.TableColumns) (event : CommitId) (part : Part) (limit bytes : Z)
    (items : list (result RecordBatch string)) : result (list RecordBatch * Z) MvError :=
  match items with
  | [] => Ok ([], bytes)
  | item :: items =>
      let? batch := map_err (fun e => source_error event part (OtherCause e)) item in
      let? adapted := map_err (source_error event part) (adapt_batch cols batch) in
      let bytes := saturating_add bytes (array_memory_size adapted) in
      if limit <? bytes then Err (InputBudget limit)
      else
        let? (rest, bytes) := read_batches cols event part limit bytes items in
        Ok (adapted :: rest, bytes)
  end.

Fixpoint read_parts (open : nat -> string -> option (list Rewrite.WriterCall)) (cols : Schema.TableColumns)
    (event : CommitId) (limit bytes : Z) (k : nat) (parts : list Part) : result (list RecordBatch) MvError :=
  match parts with
  | [] => Ok []
  | part :: parts =>
      let? obj := ok_or (open k (path (meta part))) (source_error event part NotFound) in
      let? items := map_err (fun e => source_error event part (OtherCause e)) (read_object obj) in
      let? (batches, bytes) := read_batches cols event part limit bytes items in
      let? rest := read_parts open cols event limit bytes (S k) parts in
      Ok (batches ++ rest)
  end.

Definition read_input (open : nat -> string -> option (list Rewrite.WriterCall)) (source : Hypertable)
    (event : ChangeEvent) (limit : Z) : result (list RecordBatch) MvError :=
  let? cols := map_err MvSchema (Schema.parse (table_schema source)) in
  read_parts open cols (ev_commit_id event) limit 0 0 (added event).

(** The store as the [k]-th part of an event finds it. *)
Definition open_object (s : Sys) (k : nat) (path : string) : option (list Rewrite.WriterCall) :=
  if lost_objects env (sy_calls s) k path then None else sy_store s !! path.

Definition required_source_error (e : MvError) : MvError :=
  match e with
  | SourceRead commit part path NotFound => SourceInputUnavailable commit part path NotFound
  | e => e
  end.

(** ** One event *)

Section view.
Context (config : MvConfig) (sel : Selected).

Definition advance (commit : CommitId) : St MvError unit :=
  st_map_err MvCatalog
    (catalog_write calls (fun _ =>
       Feed.set_cursor (Pipelines.mv_worker (pl_id (sel_pipeline sel))) (ht_id (source sel)) commit)).

(** Whether authority already has the event's outcome, by the cursor or by the
    operation, whose cursor is then advanced. *)
Definition completed (event : CommitId) (identity : Operation.OperationIdentity) : St MvError bool :=
  st_bind (st_map_err MvCatalog
    (catalog_read calls (fun t => Pipelines.read_mv_cursor t (pl_id (sel_pipeline sel))))) (fun cursor =>
  if event <=? cursor then st_ret true
  else
    st_bind (st_map_err MvCatalog (catalog_read calls (lookup_operation identity))) (fun found =>
    match found with
    | Commit.LookupCommitted _ => st_bind (advance event) (fun _ => st_ret true)
    | Commit.Absent => st_ret false
    end)).

Definition mv_intent (event : CommitId) : Operation.MvIntent :=
  Operation.Build_MvIntent (pl_id (sel_pipeline sel)) (ht_id (source sel)) event MV_TRANSFORMATION_VERSION.

Definition mv_identity (event : CommitId) : result Operation.OperationIdentity Operation.OperationError :=
  Operation.mv blake3 (ht_id (target sel)) (mv_intent event).

(** The files of one event's output. *)
Definition transform (now : Z) (event : ChangeEvent) (input : list RecordBatch) : result (list FlushItem) MvError :=
  let? output :=
    match added event with
    | [] => Ok []
    | _ => map_err MvPipeline (execute_pipeline now (prepared sel) input)
    end in
  map_err MvWrite (batches_to_l0_items writer_fails output (target sel) (output_bytes (mv_limits config))).

(** What is published of a transformation: [None] when another attempt has
    finished the event, nothing when a data error is skipped. *)
Definition publishable (event : CommitId) (identity : Operation.OperationIdentity)
    (encoded : result (list FlushItem) MvError) : St MvError (option (list FlushItem)) :=
  match encoded with
  | Ok items => st_ret (Some items)
  | Err error =>
      st_bind (completed event identity) (fun done =>
      if done then st_ret None
      else if bool_decide (pl_error_policy (sel_definition sel) = Skip) && is_data_error error
      then st_ret (Some [])
      else st_lift (Err error))
  end.

Definition publish (event : CommitId) (identity : Operation.OperationIdentity) (items : list FlushItem)
  : St MvError unit :=
  st_bind (completed event identity) (fun done =>
  if done then st_ret tt
  else
    st_bind (st_map_err MvWrite (publish_add calls (target sel) items (PlainAdd identity))) (fun _ =>
    advance event)).

Definition process_add (event : ChangeEvent) (identity : Operation.OperationIdentity) : St MvError unit :=
  let id := ev_commit_id event in
  st_bind (completed id identity) (fun done =>
  if done then st_ret tt
  else fun s =>
    match read_input (open_object s) (source sel) event (input_bytes (mv_limits config)) with
    | Err error =>
        st_bind (completed id identity) (fun done =>
        if done then st_ret tt else st_lift (Err (required_source_error error))) s
    | Ok input =>
        st_bind (publishable id identity (transform (sql_clock env (sy_calls s)) event input)) (fun items =>
        match items with
        | None => st_ret tt
        | Some items => publish id identity items
        end) s
    end).

Definition process_event (event : ChangeEvent) : St MvError unit :=
  if String.eqb (ev_kind event) "replace" || String.eqb (ev_kind event) "delete"
  then advance (ev_commit_id event)
  else if negb (String.eqb (ev_kind event) "add")
  then st_lift (Err (Config ("unknown feed kind " +:+ ev_kind event)))
  else
    st_bind (st_lift (map_err MvOperation (mv_identity (ev_commit_id event)))) (process_add event).

(** The next event of a view, by its cursor. *)
Definition next_event : St MvError (option ChangeEvent) :=
  st_bind (st_map_err MvCatalog
    (catalog_read calls (fun t => Pipelines.read_mv_cursor t (pl_id (sel_pipeline sel))))) (fun cursor =>
  st_bind (st_map_err MvCatalog
    (catalog_read calls (fun t => Feed.changes_since t (ht_id (source sel)) cursor 1))) (fun events =>
  st_ret (head events))).

End view.

(** ** The fleet *)

(** One round over the selected views: how many moved, and the first data error. *)
Fixpoint process_all (config : MvConfig) (selected : list Selected) (processed : nat) (stalled : option MvError)
  : St MvError nat :=
  match selected with
  | [] => match stalled with Some error => st_lift (Err error) | None => st_ret processed end
  | sel :: selected =>
      st_bind (next_event sel) (fun event =>
      match event with
      | None => process_all config selected processed stalled
      | Some event => fun s =>
          match process_event config sel event s with
          | (Ok _, s) => process_all config selected (S processed) stalled s
          | (Err error, s) =>
              if is_data_error error then process_all config selected processed (Some (default error stalled)) s
              else (Err error, s)
          end
      end)
  end.

Definition process_once (config : MvConfig) (selected : list Selected) : St MvError nat :=
  process_all config selected 0 None.

(** A turn of [run]: whether the token is cancelled at its top, and during its sleep. *)
Record Turn := mkTurn { cancelled_at_top : bool; cancelled_asleep : bool }.

(** [run], over the turns it is given: whether it was told to stop. *)
Fixpoint run (config : MvConfig) (selected : list Selected) (turns : list Turn) : St MvError bool :=
  match turns with
  | [] => st_ret false
  | turn :: turns =>
      if cancelled_at_top turn then st_ret true
      else fun s =>
        match process_once config selected s with
        | (Ok (S _), s) => run config selected turns s
        | (Ok O, s) => if cancelled_asleep turn then (Ok true, s) else run config selected turns s
        | (Err error, s) =>
            if is_data_error error
            then if cancelled_asleep turn then (Ok true, s) else run config selected turns s
            else (Err error, s)
        end
  end.

End mv.
End Mv.
