(* ===== verification/MvSpec.v ===== *)
(** * What a materialized view promises

    A view's cursor passes an ADD of its source only when the operation named
    after that ADD is committed in the target -- by this attempt, by an earlier
    one whose acknowledgement was lost, or by another replica -- and an
    operation's key is committed at most once. The guarantee a round gives is
    the one it relies on from the other processes ([keeps_view]), so it holds of
    any number of replicas and of every failure. *)

From S2P Require Import Prelude Bytes Json Types Arrow Schema Operation CatalogError CatalogDb Commit CommitSpec CommitHistory Feed CatalogGc Tables Pipelines Batches Expr Rewrite Compactor CompactorSpec Write Publish SqlPipeline Mv CommitExamples RewriteSpec IngestExamples.
Import CatalogError CatalogDb CommitSpec CommitTheorems CommitHistory CatalogGc Rewrite CompactorSpec Write Publish PublishSpec SqlPipeline Execute Mv.

Module MvSpec.

Section view.
Context `{Jsonb} `{WritePlatform} `{SqlEngine}.
Context (writer_fails : list Rewrite.WriterCall -> option string) (env : MvEnv).
Implicit Types d : DbState.

(** ** The view's own part of the catalog *)

Section of_view.
Context (v : Selected).

Definition view_key : string * HypertableId :=
  (Pipelines.mv_worker (pl_id (sel_pipeline v)), ht_id (source v)).
Definition view_cursor d : option CommitId := worker_cursors (tables d) !! view_key.
Definition head_of d : CommitId := Feed.feed_head (tables d) (ht_id (source v)).

(** The catalog's row of the view agrees with what the fleet resolved. *)
Definition view_ok d : Prop :=
  db_wf d /\
  forall row, Pipelines.find_pipeline_id (tables d) (pl_id (sel_pipeline v)) = Some row ->
    pp_source_id row = ht_id (source v).

(** The ADD of this id is in the target, under the one key made of it. *)
Definition applied_add d (c : CommitId) : Prop :=
  exists i id, mv_identity v c = Ok i /\ Commit.lookup_operation i d = Ok (Commit.LookupCommitted id).

(** What any process may do to the view: append commits -- the source's above
    its head --, and move its cursor forward over ADDs already applied. *)
Record keeps_view d d' : Prop := {
  kv_ok : view_ok d -> view_ok d';
  kv_commits : exists new, commits (tables d') = commits (tables d) ++ new /\
    forall c, c ∈ new -> c_hypertable c = ht_id (source v) -> head_of d < c_id c;
  kv_cursor : forall c, view_cursor d = Some c -> exists c', view_cursor d' = Some c' /\
    (c' = c \/ (c < c' <= head_of d' /\
       forall row, row ∈ commits (tables d') -> c_hypertable row = ht_id (source v) ->
         c_kind row = "add"%string -> c < c_id row <= c' -> applied_add d' (c_id row)));
}.

Lemma keeps_refl d : keeps_view d d.
Proof.
  split; [done| |eauto]. exists []. rewrite app_nil_r. split; [done|]. intros c Hc. by apply elem_of_nil in Hc.
Qed.

Lemma lookup_grows i d d' id new :
  commits (tables d') = commits (tables d) ++ new ->
  Commit.lookup_operation i d = Ok (Commit.LookupCommitted id) ->
  Commit.lookup_operation i d' = Ok (Commit.LookupCommitted id).
Proof.
  intros E. rewrite !lookup_operation_spec. unfold Commit.find_operation. rewrite E.
  assert (F : forall f (l k : list CommitRow) x, List.find f l = Some x -> List.find f (l ++ k) = Some x).
  { intros f l k x. induction l as [|y l IH]; simpl; [done|]. by destruct (f y). }
  destruct (List.find _ (commits (tables d))) as [x|] eqn:X; [|done]. by rewrite (F _ _ _ _ X).
Qed.

Lemma applied_grows d d' c : keeps_view d d' -> applied_add d c -> applied_add d' c.
Proof.
  intros [_ (new & E & _) _] (i & id & Hi & L). exists i, id. split; [done|]. by eapply lookup_grows.
Qed.

Lemma head_above d c : db_wf d -> c ∈ commits (tables d) -> c_hypertable c = ht_id (source v) -> c_id c <= head_of d.
Proof. intros W Hc Hh. by eapply Feed.feed_head_bound. Qed.

Lemma head_grows d d' : db_wf d -> db_wf d' -> keeps_view d d' -> head_of d <= head_of d'.
Proof.
  intros W W' [_ (new & E & _) _]. unfold head_of at 1, Feed.feed_head.
  destruct (Feed.max_id _) as [m|] eqn:M; simpl.
  - apply Feed.max_id_spec in M as [M _]. apply Feed.commit_ids_In in M as (c & Hc & Hh & <-).
    apply head_above; [done| |done]. rewrite E. apply elem_of_app. by left.
  - unfold head_of, Feed.feed_head. destruct (Feed.max_id (Feed.commit_ids (tables d') _)) as [m|] eqn:M'; simpl; [|lia].
    apply Feed.max_id_spec in M' as [M' _]. apply Feed.commit_ids_In in M' as (c & Hc & Hh & <-).
    apply (wf_commit_bound d' W') in Hc. lia.
Qed.

Lemma keeps_trans d1 d2 d3 : view_ok d1 -> keeps_view d1 d2 -> keeps_view d2 d3 -> keeps_view d1 d3.
Proof.
  intros O1 K12 K23. pose proof (kv_ok _ _ K12 O1) as O2. pose proof (kv_ok _ _ K23 O2) as O3.
  destruct O1 as [W1 _], O2 as [W2 _], O3 as [W3 _].
  pose proof (head_grows _ _ W1 W2 K12) as H12. pose proof (head_grows _ _ W2 W3 K23) as H23. split.
  - intros O. apply K23, K12, O.
  - destruct (kv_commits _ _ K12) as (n1 & E1 & N1), (kv_commits _ _ K23) as (n2 & E2 & N2).
    exists (n1 ++ n2). rewrite E2, E1, app_assoc. split; [done|].
    intros c [Hc|Hc]%elem_of_app Hh; [by apply N1|]. specialize (N2 c Hc Hh). lia.
  - intros c1 C1. destruct (kv_cursor _ _ K12 c1 C1) as (c2 & C2 & P12).
    destruct (kv_cursor _ _ K23 c2 C2) as (c3 & C3 & P23). exists c3. split; [done|].
    destruct P12 as [->|[B12 A12]]; [done|]. right. split; [destruct P23 as [->|[? _]]; lia|].
    intros row Hr Hh Ka B. destruct (decide (c_id row <= c2)) as [L|L].
    + apply (applied_grows _ _ _ K23), A12; try done; [|lia].
      destruct (kv_commits _ _ K23) as (n2 & E2 & N2). rewrite E2 in Hr.
      apply elem_of_app in Hr as [Hr|Hr]; [done|]. specialize (N2 row Hr Hh). lia.
    + destruct P23 as [->|[B23 A23]]; [lia|]. apply A23; try done. lia.
Qed.

(** ** Steps that keep the view *)

(** [m], started where [P] holds, keeps the view however it ends, and [Q]
    holds of what it answers. *)
Definition safe {E A} (m : St E A) (P : DbState -> Prop) (Q : A -> DbState -> Prop) : Prop :=
  forall s r s', view_ok (sy_db s) -> P (sy_db s) -> m s = (r, s') ->
    view_ok (sy_db s') /\ keeps_view (sy_db s) (sy_db s') /\ forall a, r = Ok a -> Q a (sy_db s').

(** Facts other processes cannot undo. *)
Definition stable (P : DbState -> Prop) : Prop :=
  forall d d', view_ok d -> keeps_view d d' -> P d -> P d'.

Lemma stable_true : stable (fun _ => True).
Proof. done. Qed.

Lemma safe_bind {E A B} (m : St E A) (k : A -> St E B) P Q R :
  safe m P Q -> (forall a, safe (k a) (Q a) R) -> safe (st_bind m k) P R.
Proof.
  intros Hm Hk s r s' O Hp. unfold st_bind. destruct (m s) as [[a|e] s1] eqn:M.
  - destruct (Hm s _ s1 O Hp M) as (O1 & K1 & Q1). intros R1.
    destruct (Hk a s1 r s' O1 (Q1 a eq_refl) R1) as (O2 & K2 & R2). split_and!; [done| |done].
    by eapply keeps_trans.
  - destruct (Hm s _ s1 O Hp M) as (O1 & K1 & _). by intros [= <- <-].
Qed.

Lemma safe_ret {E A} (a : A) (P : DbState -> Prop) (Q : A -> DbState -> Prop) :
  (forall d, view_ok d -> P d -> Q a d) -> safe (@st_ret E A a) P Q.
Proof.
  intros I s r s' O Hp [= <- <-]. split_and!; [done|apply keeps_refl|]. intros b [= <-]. by apply I.
Qed.

Lemma safe_lift {E A} (x : result A E) (P : DbState -> Prop) (Q : A -> DbState -> Prop) :
  (forall a d, x = Ok a -> view_ok d -> P d -> Q a d) -> safe (st_lift x) P Q.
Proof.
  intros I s r s' O Hp [= <- <-]. split_and!; [done|apply keeps_refl|]. intros b E'. by apply I.
Qed.

Lemma safe_map_err {E F A} (f : E -> F) (m : St E A) P Q : safe m P Q -> safe (st_map_err f m) P Q.
Proof.
  intros Hm s r s' O Hp. unfold st_map_err. destruct (m s) as [x s1] eqn:M. intros [= <- <-].
  destruct (Hm s _ s1 O Hp M) as (O1 & K1 & Q1). split_and!; try done.
  intros a. destruct x; simpl; [|done]. intros [= <-]. by apply Q1.
Qed.

Lemma safe_weaken {E A} (m : St E A) (P P' : DbState -> Prop) (Q Q' : A -> DbState -> Prop) :
  (forall d, view_ok d -> P' d -> P d) -> (forall a d, view_ok d -> Q a d -> Q' a d) -> safe m P Q -> safe m P' Q'.
Proof.
  intros HP HQ Hm s r s' O Hp M. destruct (Hm s r s' O (HP _ O Hp) M) as (O1 & K1 & Q1). split_and!; auto.
Qed.

(** What was stable before a step still holds after it. *)
Lemma safe_frame {E A} (m : St E A) P Q : stable P -> safe m P Q -> safe m P (fun a d => P d /\ Q a d).
Proof.
  intros Sp Hm s r s' O Hp M. destruct (Hm s r s' O Hp M) as (O1 & K1 & Q1). split_and!; [done..|].
  intros a E'. split; [exact (Sp _ _ O K1 Hp)|by apply Q1].
Qed.

Context (peers_keep : forall n d, keeps_view d (peers_at (mv_calls env) n d)).

Lemma safe_read {A} (f : Tables -> result A CatalogError) P (Q : A -> DbState -> Prop) : stable P ->
  (forall a d, f (tables d) = Ok a -> view_ok d -> P d -> Q a d) ->
  safe (catalog_read (mv_calls env) f) P Q.
Proof.
  intros Sp I s r s' O Hp. unfold catalog_read. set (d1 := peers_at _ _ _).
  assert (K : keeps_view (sy_db s) d1) by apply peers_keep.
  assert (O1 : view_ok d1) by by apply (kv_ok _ _ K).
  destruct (read_fails _ _); intros [= <- <-]; simpl; split_and!; try done.
  intros a E'. apply I; [done|done|]. exact (Sp _ _ O K Hp).
Qed.

Lemma safe_write {A} (f : Z -> DbState -> result A CatalogError * DbState) P (Q : A -> DbState -> Prop) : stable P ->
  (forall z d, view_ok d -> P d -> view_ok (f z d).2 /\ keeps_view d (f z d).2 /\
     forall a, (f z d).1 = Ok a -> Q a (f z d).2) ->
  safe (catalog_write (mv_calls env) f) P Q.
Proof.
  intros Sp I s r s' O Hp. unfold catalog_write. set (d1 := peers_at _ _ _).
  assert (K : keeps_view (sy_db s) d1) by apply peers_keep.
  assert (O1 : view_ok d1) by by apply (kv_ok _ _ K).
  destruct (I (clock_at (mv_calls env) (sy_calls s)) d1 O1 (Sp _ _ O K Hp)) as (O2 & K2 & Q2).
  unfold autocommit. destruct (outcome_at _ _) as [|e []].
  - destruct (f _ d1) as [x d2]. intros [= <- <-]. simpl in *. split_and!; [done|by eapply keeps_trans|done].
  - intros [= <- <-]. simpl. split_and!; [done|by eapply keeps_trans|done].
  - intros [= <- <-]. by simpl.
Qed.

(** Statements that leave the commits, the parts, the cursors and the pipelines alone. *)
Lemma same_view d d' :
  commits (tables d') = commits (tables d) -> parts (tables d') = parts (tables d) ->
  view_cursor d' = view_cursor d ->
  CatalogDb.pipelines (tables d') = CatalogDb.pipelines (tables d) -> seqs d' = seqs d ->
  view_ok d -> view_ok d' /\ keeps_view d d'.
Proof.
  intros Ec Ep Ew El Es [W V].
  assert (O' : view_ok d').
  { split.
    - destruct W as [W1 W2 W3 W4 W5 W6 W7 W8 W9]. split; rewrite ?Ec, ?Ep, ?Es; done.
    - unfold Pipelines.find_pipeline_id. rewrite El. exact V. }
  split; [done|]. split; [done| |].
  - exists []. rewrite app_nil_r. split; [done|]. intros c Hc. by apply elem_of_nil in Hc.
  - intros c Hc. exists c. rewrite Ew. auto.
Qed.

Lemma safe_same {E A} (m : St E A) (P : DbState -> Prop) :
  (forall s r s', m s = (r, s') -> sy_db s' = sy_db s) -> safe m P (fun _ => P).
Proof.
  intros I s r s' O Hp M. rewrite (I s r s' M). split_and!; [done|apply keeps_refl|done].
Qed.

Definition found (i : Operation.OperationIdentity) d : Prop :=
  exists id, Commit.lookup_operation i d = Ok (Commit.LookupCommitted id).

Lemma found_stable i : stable (found i).
Proof. intros d d' _ [_ (new & E & _) _] (id & L). exists id. by eapply lookup_grows. Qed.

Lemma stable_and P Q : stable P -> stable Q -> stable (fun d => P d /\ Q d).
Proof. intros HP HQ d d' O K [A B]. split; [by eapply HP|by eapply HQ]. Qed.

(** A commit of any operation, of whatever outcome. *)
Lemma commit_keeps tx ht op i offs d r d' f :
  honest tx -> view_ok d ->
  Commit.commit_txn b64_decode tm_deserialize tx ht op (Some i) offs None 0 d = (r, d', f) ->
  view_ok d' /\ keeps_view d d' /\ forall c, r = Ok c -> found i d'.
Proof.
  intros Hon [W V] R. pose proof (commit_txn_wf _ _ _ _ _ _ _ _ _ _ _ _ _ Hon W R) as W'.
  apply commit_txn_cases in R; [|done].
  assert (Same : tables d' = tables d -> view_ok d' /\ keeps_view d d').
  { intros T. assert (O' : view_ok d') by (split; [done|by rewrite T]). split; [done|]. split; [done| |].
    - exists []. rewrite app_nil_r, T. split; [done|]. intros c Hc. by apply elem_of_nil in Hc.
    - intros c Hc. exists c. unfold view_cursor in *. rewrite T. auto. }
  assert (App : forall id, applied b64_decode tm_deserialize tx ht op (Some i) offs None d d' id ->
    view_ok d' /\ keeps_view d d').
  { intros id (-> & _ & _ & _ & T & _).
    assert (O' : view_ok d') by (split; [done|by rewrite T]). split; [done|]. split; [done| |].
    - exists [commit_row tx (commits_id_seq (seqs d) + 1) ht op (Some i)]. rewrite T. split; [done|].
      intros c ->%list_elem_of_singleton _. simpl. unfold head_of, Feed.feed_head.
      destruct (Feed.max_id _) as [m|] eqn:M; simpl; [|pose proof (wf_seqs d W); lia].
      apply Feed.max_id_spec in M as [M _]. apply Feed.commit_ids_In in M as (c & Hc & _ & <-).
      apply (wf_commit_bound d W) in Hc. lia.
    - intros c Hc. exists c. unfold view_cursor in *. rewrite T. auto. }
  destruct r as [[id|id]|e].
  - destruct (App id R) as [O' K]. split_and!; [done..|]. intros c _. exists id. by eapply applied_lookup.
  - destruct R as [T (i' & [= <-] & Hi & F)]. destruct (Same T) as [O' K]. split_and!; [done..|]. intros c _.
    exists id. rewrite lookup_operation_spec, T, Hi, F. by rewrite bool_decide_eq_true_2.
  - destruct R as [T|(id & A & _)]; [destruct (Same T)|destruct (App id A)]; by split_and!.
Qed.

Context (honest_calls : forall n, honest (tx_at (mv_calls env) n)).

Lemma register_keeps ht ps z d : view_ok d ->
  view_ok (register_pending_objects ht ps z d).2 /\ keeps_view d (register_pending_objects ht ps z d).2.
Proof.
  intros O. unfold register_pending_objects. destruct ps; [split; [done|apply keeps_refl]|].
  destruct (List.existsb _ _); [by apply same_view|]. split; [done|apply keeps_refl].
Qed.

Lemma safe_commit_add ht op c P : stable P ->
  safe (commit_add (mv_calls env) ht op c) P (fun _ d => P d /\ found (add_identity c) d).
Proof.
  intros Sp s r s' O Hp R. destruct (commit_add_eq (mv_calls env) ht op c s) as (d1 & E1 & K).
  destruct (K _ _ R) as (_ & _ & f & T). rewrite E1 in T.
  assert (K1 := peers_keep (sy_calls s) (sy_db s)). assert (O1 := kv_ok _ _ K1 O).
  destruct (commit_keeps _ _ _ _ _ _ _ _ _ (honest_calls _) O1 T) as (O2 & K2 & F).
  split_and!; [done|by eapply keeps_trans|]. intros a ->. split; [|by eapply F].
  exact (Sp _ _ O1 K2 (Sp _ _ O K1 Hp)).
Qed.

Lemma safe_publish_add tgt items c P : stable P ->
  safe (publish_add (mv_calls env) tgt items c) P (fun _ d => P d /\ found (add_identity c) d).
Proof.
  intros Sp. unfold publish_add. destruct (negb _); [by apply safe_lift|].
  apply safe_bind with (Q := fun _ => P).
  { apply safe_same. intros s r s' R. destruct (prepare_spec (mv_calls env) (ht_id tgt) items s) as (pr & s1 & Ep & _ & D & _).
    rewrite Ep in R. by injection R as _ <-. }
  intros pr. apply safe_bind with (Q := fun _ => P).
  { unfold register_all. destruct (List.map fst pr) as [|q qs]; [by apply safe_ret|].
    apply safe_map_err, safe_write; [done|]. intros z d O Hp.
    destruct (register_keeps (ht_id tgt) (q :: qs) z d O) as [O' K']. split_and!; [done..|].
    intros a _. exact (Sp _ _ O K' Hp). }
  intros _. apply safe_bind with (Q := fun _ => P).
  { apply safe_same. intros s r s' R. by apply upload_touches in R as [D _]. }
  intros parts. by apply safe_map_err, safe_commit_add.
Qed.

End of_view.

(** ** One view's attempt *)

Section attempt.
Context (v : Selected).
Context (peers_keep : forall n d, keeps_view v d (peers_at (mv_calls env) n d)).
Context (honest_calls : forall n, honest (tx_at (mv_calls env) n)).
Context (config : MvConfig).

(** [e], of this kind, is the first event past a position the cursor has reached. *)
Definition first_event d (e : CommitId) (kind : string) : Prop :=
  exists c0 c1, view_cursor v d = Some c1 /\ c0 <= c1 /\ c0 < e <= head_of v d /\
    (exists row, row ∈ commits (tables d) /\ c_id row = e /\ c_hypertable row = ht_id (source v) /\ c_kind row = kind) /\
    forall row, row ∈ commits (tables d) -> c_hypertable row = ht_id (source v) -> c0 < c_id row -> e <= c_id row.

Definition seen (e : CommitId) (kind : string) d : Prop :=
  exists d0, view_ok v d0 /\ keeps_view v d0 d /\ first_event d0 e kind.

Definition reached (e : CommitId) d : Prop := exists c, view_cursor v d = Some c /\ e <= c.

Lemma seen_stable e kind : stable v (seen e kind).
Proof.
  intros d d' O K (d0 & O0 & K0 & F). exists d0. split_and!; [done| |done]. by eapply keeps_trans.
Qed.

Lemma reached_stable e : stable v (reached e).
Proof.
  intros d d' _ K (c & Hc & L). destruct (kv_cursor _ _ _ K c Hc) as (c' & Hc' & Q). exists c'.
  split; [done|]. destruct Q as [->|[? _]]; lia.
Qed.

(** Moving the cursor to an event that was first past it, once its operation is
    found if it is an ADD. *)
Lemma advance_keeps e kind d : view_ok v d -> seen e kind d ->
  (kind = "add"%string -> applied_add v d e) ->
  let f := Feed.set_cursor (view_key v).1 (view_key v).2 e d in
  view_ok v f.2 /\ keeps_view v d f.2 /\ (f.1 = Ok tt -> reached e f.2).
Proof.
  intros O (d0 & O0 & K0 & c0 & cr & C0 & Le0 & B0 & (erow & Er1 & Er2 & Er3 & Er4) & First) Ap.
  destruct (kv_cursor _ _ _ K0 cr C0) as (c1 & C1 & Q1). cbv zeta. unfold Feed.set_cursor.
  change ((view_key v).1, (view_key v).2) with (view_key v).
  change (worker_cursors (tables d) !! view_key v) with (view_cursor v d). rewrite C1.
  destruct (Z.ltb_spec c1 e) as [L|L]; simpl; [|split_and!; [done|apply keeps_refl|]; intros _; exists c1; split; [done|lia]].
  set (d' := mkDb _ _). pose proof O as [W V].
  assert (Hw : view_ok v d').
  { split; [|exact V]. destruct W as [W1 W2 W3 W4 W5 W6 W7 W8 W9]. by split. }
  assert (Cur : view_cursor v d' = Some e).
  { unfold view_cursor, d'. simpl. by rewrite lookup_insert_eq. }
  assert (E0 : head_of v d' = head_of v d) by done.
  pose proof (head_grows v d0 d (proj1 O0) W K0) as HG.
  split_and!; [done| |intros _; exists e; split; [done|lia]]. split.
  - done.
  - exists []. rewrite app_nil_r. split; [done|]. intros c Hc. by apply elem_of_nil in Hc.
  - intros c Hc. rewrite C1 in Hc. injection Hc as <-. exists e. split; [done|]. right. split; [lia|].
    intros row Hr Hh Ka B. destruct (kv_commits _ _ _ K0) as (new & En & New).
    assert (R0 : row ∈ commits (tables d0)).
    { change (commits (tables d')) with (commits (tables d)) in Hr. rewrite En in Hr.
      apply elem_of_app in Hr as [Hr|Hr]; [done|]. specialize (New row Hr Hh). lia. }
    assert (c0 <= c1) by (destruct Q1 as [->|[? _]]; lia).
    assert (e <= c_id row) by (apply First; [done..|lia]). assert (Ei : c_id row = e) by lia.
    assert (row = erow) as ->.
    { eapply (NoDup_map_inj c_id); [apply (proj1 O0)|done..|congruence]. }
    rewrite Ei. destruct (Ap ltac:(congruence)) as (i & id & Hi & Lk). exists i, id. split; [done|]. exact Lk.
Qed.

Lemma stable_applied e : stable v (fun d => applied_add v d e).
Proof. intros d d' _ K A. by eapply applied_grows. Qed.

Lemma safe_advance e kind (P : DbState -> Prop) :
  stable v P -> (forall d, P d -> seen e kind d /\ (kind = "add"%string -> applied_add v d e)) ->
  safe v (advance env v e) P (fun _ => reached e).
Proof.
  intros Sp I. apply safe_map_err, safe_write; [done|done|]. intros _ d O Hp. destruct (I d Hp) as [S A].
  destruct (advance_keeps e kind d O S A) as (O' & K' & R). split_and!; [exact O'|exact K'|].
  intros [] E. by apply R.
Qed.

Definition add : string := "add".

Lemma read_cursor d c : view_ok v d ->
  Pipelines.read_mv_cursor (tables d) (pl_id (sel_pipeline v)) = Ok c -> view_cursor v d = Some c.
Proof.
  intros [W V]. unfold Pipelines.read_mv_cursor.
  destruct (Pipelines.find_pipeline_id _ _) as [row|] eqn:R; [|done]. destruct (negb _); [done|].
  rewrite (V row eq_refl). change (worker_cursors (tables d) !! (_, _)) with (view_cursor v d).
  destruct (view_cursor v d); [|done]. by intros [= ->].
Qed.

Lemma safe_completed e i : mv_identity v e = Ok i ->
  safe v (completed env v e i) (seen e add) (fun b d => seen e add d /\ (b = true -> reached e d)).
Proof.
  intros Hi. apply safe_bind with (Q := fun c d => seen e add d /\ exists c', view_cursor v d = Some c' /\ c <= c').
  { apply safe_map_err, safe_read; [done|apply seen_stable|]. intros c d E O S. split; [done|].
    apply read_cursor in E; [|done]. exists c. split; [done|lia]. }
  intros c. destruct (Z.leb_spec e c) as [L|L].
  { apply safe_ret. intros d _ [S (c' & C & Lc)]. split; [done|]. intros _. exists c'. split; [done|lia]. }
  apply safe_bind with (Q := fun x d => seen e add d /\ (forall id, x = Commit.LookupCommitted id -> applied_add v d e)).
  { apply safe_map_err, safe_read; [done| |].
    - apply stable_and; [apply seen_stable|]. intros d d' _ K (c' & C & Lc).
      destruct (kv_cursor _ _ _ K c' C) as (c2 & C2 & Q). exists c2. split; [done|]. destruct Q as [->|[? _]]; lia.
    - intros x d E O [S _]. split; [done|]. intros id ->. exists i, id. split; [done|].
      rewrite <-E. unfold lookup_operation. by rewrite !lookup_operation_spec. }
  intros [|id].
  - apply safe_ret. intros d _ [S _]. by split.
  - eapply safe_bind; [eapply safe_weaken; [| |apply safe_frame, (safe_advance e add (fun d => seen e add d /\ applied_add v d e))]|].
    + intros d _ [S A]. split; [done|by eapply A].
    + intros a d _ Q. exact Q.
    + apply stable_and; [apply seen_stable|apply stable_applied].
    + apply stable_and; [apply seen_stable|apply stable_applied].
    + by intros d [S A].
    + intros []. apply safe_ret. by intros d _ [[S _] R].
Qed.

Lemma safe_publish e i items : mv_identity v e = Ok i ->
  safe v (publish env v e i items) (seen e add) (fun _ => reached e).
Proof.
  intros Hi. eapply safe_bind; [by apply safe_completed|]. intros [].
  { apply safe_ret. intros d _ [_ R]. by apply R. }
  apply safe_bind with (Q := fun _ d => seen e add d /\ found i d).
  { eapply safe_weaken; [..|apply safe_map_err, (safe_publish_add v peers_keep honest_calls (target v) items
      (PlainAdd i) (seen e add) (seen_stable _ _))]; simpl; naive_solver. }
  intros _. apply safe_advance with (kind := add).
  - apply stable_and; [apply seen_stable|apply found_stable].
  - intros d [S (id & F)]. split; [done|]. intros _. by exists i, id.
Qed.

Lemma safe_publishable e i enc : mv_identity v e = Ok i ->
  safe v (publishable env v e i enc) (seen e add) (fun o d => seen e add d /\ (o = None -> reached e d)).
Proof.
  intros Hi. unfold publishable. destruct enc as [items|error].
  { apply safe_ret. by intros d _ S. }
  eapply safe_bind; [by apply safe_completed|]. intros [].
  { apply safe_ret. intros d _ [S R]. split; [done|]. intros _. by apply R. }
  destruct (_ && _); [apply safe_ret; by intros d _ [S _]|by apply safe_lift].
Qed.

Lemma safe_process_add ev i : mv_identity v (ev_commit_id ev) = Ok i ->
  safe v (process_add writer_fails env config v ev i) (seen (ev_commit_id ev) add) (fun _ => reached (ev_commit_id ev)).
Proof.
  intros Hi. unfold process_add. eapply safe_bind; [by apply safe_completed|]. intros [].
  { apply safe_ret. intros d _ [_ R]. by apply R. }
  intros s r s' O [S _]. destruct (read_input _ _ _ _) as [input|error].
  - refine (safe_bind v _ _ (seen (ev_commit_id ev) add) _ (fun _ => reached (ev_commit_id ev)) (safe_publishable _ _ _ Hi) _ s r s' O S).
    intros [items|].
    + eapply safe_weaken; [| |by apply safe_publish]; simpl; [by intros d _ [S' _]|done].
    + apply safe_ret. intros d _ [_ R]. by apply R.
  - refine (safe_bind v _ _ (seen (ev_commit_id ev) add) _ (fun _ => reached (ev_commit_id ev)) (safe_completed _ _ Hi) _ s r s' O S).
    intros []; [apply safe_ret; intros d _ [_ R]; by apply R|by apply safe_lift].
Qed.

Lemma safe_process_event ev :
  safe v (process_event writer_fails env config v ev) (seen (ev_commit_id ev) (ev_kind ev)) (fun _ => reached (ev_commit_id ev)).
Proof.
  unfold process_event. destruct (_ || _) eqn:Kd.
  { apply safe_advance with (kind := ev_kind ev); [apply seen_stable|]. intros d S. split; [done|]. intros Ka.
    by rewrite Ka in Kd. }
  destruct (String.eqb_spec (ev_kind ev) "add") as [Ka|]; simpl; [|by apply safe_lift].
  rewrite Ka. eapply safe_bind.
  { apply (safe_lift v _ _ (fun i d => seen (ev_commit_id ev) add d /\ mv_identity v (ev_commit_id ev) = Ok i)).
    intros i d E _ S. split; [done|]. by destruct (mv_identity v (ev_commit_id ev)); simpl in E; [injection E as ->|]. }
  intros i s r s' O [S Hi] M. by eapply safe_process_add.
Qed.

(** The event a view picks is the first past the cursor it read. *)
Lemma safe_next_event :
  safe v (next_event env v) (fun d => is_Some (view_cursor v d))
    (fun o d => is_Some (view_cursor v d) /\ forall ev, o = Some ev -> seen (ev_commit_id ev) (ev_kind ev) d).
Proof.
  assert (Reg : stable v (fun d => is_Some (view_cursor v d))).
  { intros d d' _ K [c C]. destruct (kv_cursor _ _ _ K c C) as (c' & C' & _). by exists c'. }
  unfold next_event. apply safe_bind with (Q := fun c d => exists c', view_cursor v d = Some c' /\ c <= c').
  { apply safe_map_err, safe_read; [done|done|]. intros c d E O _. apply read_cursor in E; [|done].
    exists c. split; [done|lia]. }
  intros c. apply safe_bind with (Q := fun evs d => is_Some (view_cursor v d) /\
    forall ev, head evs = Some ev -> seen (ev_commit_id ev) (ev_kind ev) d).
  - apply safe_map_err, safe_read; [done| |].
    + intros d d' _ K (c' & C & Lc). destruct (kv_cursor _ _ _ K c' C) as (c2 & C2 & Q). exists c2. split; [done|].
      destruct Q as [->|[? _]]; lia.
    + intros evs d E [W V] (c' & C & Lc). split; [by exists c'|]. intros ev Hev.
      unfold Feed.changes_since in E. simpl in E. injection E as <-.
      pose proof (Feed.feed_commits_sorted (tables d) (ht_id (source v)) c (Feed.feed_head (tables d) (ht_id (source v)))) as So.
      pose proof (fun x => Feed.feed_commits_In (tables d) (ht_id (source v)) c (Feed.feed_head (tables d) (ht_id (source v))) x) as In_.
      destruct (Feed.feed_commits _ _ _ _) as [|x xs]; [done|]. simpl in Hev. injection Hev as <-. simpl.
      exists d. split_and!; [done|apply keeps_refl|]. destruct (In_ x) as [Ix _].
      destruct (Ix ltac:(left)) as (I1 & I2 & I3). exists c, c'. split; [done|]. split; [done|]. split; [exact I3|]. split; [by exists x|].
      intros row Hr Hh L. assert (Ir : row ∈ x :: xs).
      { apply In_. split_and!; try done. by apply head_above. }
      apply elem_of_cons in Ir as [->|Ir]; [done|]. apply StronglySorted_inv in So as [_ F].
      rewrite Forall_forall in F. apply (F row Ir).
  - intros evs. apply safe_ret. intros d _ [R S]. by split.
Qed.

(** ** Another view's attempt *)

Definition keeps {E A} (m : St E A) : Prop := safe v m (fun _ => True) (fun _ _ => True).

Lemma keeps_bind {E A B} (m : St E A) (k : A -> St E B) : keeps m -> (forall a, keeps (k a)) -> keeps (st_bind m k).
Proof. intros Hm Hk. by eapply safe_bind. Qed.
Lemma keeps_ret {E A} (a : A) : keeps (@st_ret E A a).
Proof. by apply safe_ret. Qed.
Lemma keeps_lift {E A} (x : result A E) : keeps (st_lift x).
Proof. by apply safe_lift. Qed.
Lemma keeps_map_err {E F A} (f : E -> F) (m : St E A) : keeps m -> keeps (st_map_err f m).
Proof. apply safe_map_err. Qed.
Lemma keeps_read {A} (f : Tables -> result A CatalogError) : keeps (catalog_read (mv_calls env) f).
Proof. by apply safe_read. Qed.
Lemma keeps_publish_add tgt items c : keeps (publish_add (mv_calls env) tgt items c).
Proof.
  eapply safe_weaken; [..|exact (safe_publish_add v peers_keep honest_calls tgt items c (fun _ => True) (stable_true v))]; done.
Qed.

Context (o : Selected).
Context (another : pl_id (sel_pipeline o) <> pl_id (sel_pipeline v)).

Lemma keeps_advance e : keeps (advance env o e).
Proof.
  apply keeps_map_err, safe_write; [done|done|]. intros _ d O _.
  assert (N : (Pipelines.mv_worker (pl_id (sel_pipeline o)), ht_id (source o)) <> view_key v).
  { unfold view_key, Pipelines.mv_worker. intros E%(f_equal fst). simpl in E. injection E as E. apply (inj (@pretty Z _) (pl_id (sel_pipeline o)) (pl_id (sel_pipeline v))) in E. by apply another. }
  cut (view_ok v (Feed.set_cursor (Pipelines.mv_worker (pl_id (sel_pipeline o))) (ht_id (source o)) e d).2 /\
    keeps_view v d (Feed.set_cursor (Pipelines.mv_worker (pl_id (sel_pipeline o))) (ht_id (source o)) e d).2);
    [intros [A B]; by split_and!|].
  unfold Feed.set_cursor. destruct (worker_cursors (tables d) !! _) as [last|].
  - destruct (last <? e); [|split; [done|apply keeps_refl]]. apply same_view; try done.
    unfold view_cursor. simpl. by rewrite lookup_insert_ne.
  - destruct (List.existsb _ _); [|split; [done|apply keeps_refl]]. apply same_view; try done.
    unfold view_cursor. simpl. by rewrite lookup_insert_ne.
Qed.

#[local] Hint Resolve keeps_ret keeps_lift keeps_map_err keeps_read keeps_publish_add keeps_advance : ukiel.

Lemma keeps_completed e i : keeps (completed env o e i).
Proof.
  apply keeps_bind; [auto with ukiel|]. intros c. destruct (_ <=? _); [auto with ukiel|].
  apply keeps_bind; [auto with ukiel|]. intros []; [auto with ukiel|]. apply keeps_bind; auto with ukiel.
Qed.
#[local] Hint Resolve keeps_completed : ukiel.

Lemma keeps_publish e i items : keeps (publish env o e i items).
Proof. apply keeps_bind; [auto with ukiel|]. intros []; [auto with ukiel|]. apply keeps_bind; auto with ukiel. Qed.

Lemma keeps_publishable e i enc : keeps (publishable env o e i enc).
Proof.
  unfold publishable. destruct enc; [auto with ukiel|]. apply keeps_bind; [auto with ukiel|].
  intros []; [auto with ukiel|]. destruct (_ && _); auto with ukiel.
Qed.
#[local] Hint Resolve keeps_publish keeps_publishable : ukiel.

Lemma keeps_process_event ev : keeps (process_event writer_fails env config o ev).
Proof.
  unfold process_event. destruct (_ || _); [auto with ukiel|]. destruct (negb _); [auto with ukiel|].
  apply keeps_bind; [auto with ukiel|]. intros i. apply keeps_bind; [auto with ukiel|]. intros [].
  { auto with ukiel. }
  intros s r s' O Hp. destruct (read_input _ _ _ _) as [input|error].
  - refine (keeps_bind _ _ (keeps_publishable _ _ _) _ s r s' O Hp). intros [items|]; auto with ukiel.
  - refine (keeps_bind _ _ (keeps_completed _ _) _ s r s' O Hp). intros []; auto with ukiel.
Qed.

Lemma keeps_next_event : keeps (next_event env o).
Proof. apply keeps_bind; [auto with ukiel|]. intros c. apply keeps_bind; auto with ukiel. Qed.

End attempt.

(** ** The fleet *)

Section fleet.
Context (config : MvConfig) (v : Selected).
Context (peers_keep : forall n d, keeps_view v d (peers_at (mv_calls env) n d)).
Context (honest_calls : forall n, honest (tx_at (mv_calls env) n)).

Definition registered d : Prop := is_Some (view_cursor v d).

Lemma registered_stable : stable v registered.
Proof. intros d d' _ K [c C]. destruct (kv_cursor _ _ _ K c C) as (c' & C' & _). by exists c'. Qed.

(** What a round does with one selected view, own or another. *)
Lemma safe_turn o : (o = v \/ pl_id (sel_pipeline o) <> pl_id (sel_pipeline v)) ->
  safe v (next_event env o) registered (fun oe d => registered d /\
    (o = v -> forall ev, oe = Some ev -> seen v (ev_commit_id ev) (ev_kind ev) d)).
Proof.
  intros [->|N].
  - eapply safe_weaken; [..|by apply safe_next_event]; [done|]. intros oe d _ [R S]. by split.
  - eapply safe_weaken; [..|apply safe_frame, (safe_weaken v _ (fun _ => True) registered (fun _ _ => True) (fun _ _ => True));
      [apply registered_stable|done|done|by apply keeps_next_event]]; [done|].
    intros oe d _ [R _]. split; [done|]. intros ->. done.
Qed.

Lemma safe_event o ev : (o = v \/ pl_id (sel_pipeline o) <> pl_id (sel_pipeline v)) ->
  safe v (process_event writer_fails env config o ev)
    (fun d => registered d /\ (o = v -> seen v (ev_commit_id ev) (ev_kind ev) d)) (fun _ _ => True).
Proof.
  intros [->|N].
  - eapply safe_weaken; [..|by apply safe_process_event]; [|done]. intros d _ [_ S]. by apply S.
  - eapply safe_weaken; [..|by apply keeps_process_event]; done.
Qed.

Lemma safe_process_all selected n stalled :
  (forall o, o ∈ selected -> o = v \/ pl_id (sel_pipeline o) <> pl_id (sel_pipeline v)) ->
  safe v (process_all writer_fails env config selected n stalled) registered (fun _ _ => True).
Proof.
  revert n stalled. induction selected as [|o selected IH]; intros n stalled Hs; simpl.
  { destruct stalled; [by apply safe_lift|by apply safe_ret]. }
  assert (Ho : o = v \/ pl_id (sel_pipeline o) <> pl_id (sel_pipeline v)) by (apply Hs; left).
  assert (Hrest : forall n stalled, safe v (process_all writer_fails env config selected n stalled) registered (fun _ _ => True)).
  { intros n' st'. apply IH. intros o' I. apply Hs. by right. }
  eapply safe_bind; [by apply safe_turn|]. intros [ev|]; cbv beta.
  - intros s r s' O [R S]. destruct (process_event writer_fails env config o ev s) as [x s1] eqn:X.
    destruct (safe_event o ev Ho s x s1 O) as (O1 & K1 & _); [split; [done|]; intros E; by apply S|done|].
    assert (R1 : registered (sy_db s1)) by exact (registered_stable _ _ O K1 R).
    assert (Go : forall n stalled, process_all writer_fails env config selected n stalled s1 = (r, s') ->
      view_ok v (sy_db s') /\ keeps_view v (sy_db s) (sy_db s') /\ (forall a, r = Ok a -> True)).
    { intros n' st' M. destruct (Hrest n' st' s1 r s' O1 R1 M) as (O2 & K2 & _). split_and!; [done| |done].
      by eapply keeps_trans. }
    destruct x as [[]|e]; [apply Go|]. destruct (is_data_error e); [apply Go|]. intros [= <- <-]. by split_and!.
  - eapply safe_weaken; [..|apply Hrest]; [by intros d _ [R _]|done].
Qed.

(** C18: A round of the fleet, however its reads, uploads and commits fail and
    whatever the other processes do in between -- other replicas of the view
    included --, never loses an ADD of a view's source and never applies it
    twice: a view's cursor only moves forward, and of every ADD it moved past
    the target holds exactly one commit under the key made of that ADD, with
    that ADD's fingerprint. The other processes are only held to the same. *)
Theorem views_pass_only_applied_adds selected s r s' c :
  v ∈ selected -> NoDup (List.map (fun o => pl_id (sel_pipeline o)) selected) ->
  view_ok v (sy_db s) -> view_cursor v (sy_db s) = Some c ->
  process_once writer_fails env config selected s = (r, s') ->
  exists c', view_cursor v (sy_db s') = Some c' /\ c <= c' /\
    forall row, row ∈ commits (tables (sy_db s')) -> c_hypertable row = ht_id (source v) ->
      c_kind row = "add"%string -> c < c_id row <= c' ->
      exists i k, mv_identity v (c_id row) = Ok i /\
        k ∈ commits (tables (sy_db s')) /\ c_hypertable k = Operation.hypertable_id i /\
        c_key k = Some (Operation.key i) /\ c_fingerprint k = Some (Operation.fingerprint i) /\
        forall k', k' ∈ commits (tables (sy_db s')) -> c_hypertable k' = Operation.hypertable_id i ->
          c_key k' = Some (Operation.key i) -> k' = k.
Proof.
  intros Hv Nd O C M.
  assert (Hs : forall o, o ∈ selected -> o = v \/ pl_id (sel_pipeline o) <> pl_id (sel_pipeline v)).
  { intros o Ho. destruct (decide (pl_id (sel_pipeline o) = pl_id (sel_pipeline v))) as [E|E]; [left|by right].
    exact (NoDup_map_inj _ _ _ _ Nd Ho Hv E). }
  destruct (safe_process_all selected 0 None Hs s r s' O (mk_is_Some _ _ C) M) as ([W _] & K & _).
  destruct (kv_cursor _ _ _ K c C) as (c' & C' & P). exists c'. split; [done|].
  split; [destruct P as [->|[? _]]; lia|]. intros row Hr Hh Ka B. destruct P as [->|[_ P]]; [lia|].
  destruct (P row Hr Hh Ka B) as (i & id & Hi & L). rewrite lookup_operation_spec in L.
  destruct (Commit.find_operation _ _ _) as [[id' fp]|] eqn:F; [|done].
  apply find_operation_Some in F as (k & Hk & _ & Fp & Kh & Kk). destruct fp as [fp|]; [|done].
  case_bool_decide as Ef; [|done]. subst fp. exists i, k. split_and!; try done.
  intros k' Hk' Hh' Kk'. eapply (wf_commit_keys _ W); [done|done|congruence|done|done].
Qed.

End fleet.
End view.
End MvSpec.

(** * The graph of the selected views (crates/ukiel-mv/src/lib.rs, [MvFleet::new])

    The depth-first search that guards a fleet against a cyclic catalog always
    comes to an answer, and a fleet that was accepted is acyclic. *)

Import Pipelines Publish SqlPipeline Mv.

Module MvGraph.

(** The edges not yet followed. *)
Definition unfollowed (edges : list (Z * Z)) (visited : gset Z) : nat :=
  length (List.filter (fun e => negb (bool_decide (e.1 ∈ visited))) edges).

Definition successors (edges : list (Z * Z)) (node : Z) : list Z :=
  List.map snd (List.filter (fun e => e.1 =? node) edges).

Lemma unfollowed_visit edges visited node : node ∉ visited ->
  (unfollowed edges ({[node]} ∪ visited) + length (successors edges node))%nat = unfollowed edges visited.
Proof.
  intros N. unfold unfollowed, successors. rewrite List.length_map.
  induction edges as [|[a b] edges IH]; simpl; [done|].
  destruct (Z.eqb_spec a node) as [->|Ne]; simpl.
  - rewrite (bool_decide_true (node ∈ {[node]} ∪ visited)), (bool_decide_false (node ∈ visited)) by (done || set_solver).
    simpl. lia.
  - rewrite (bool_decide_ext (a ∈ {[node]} ∪ visited) (a ∈ visited)) by set_solver.
    destruct (bool_decide _); simpl; lia.
Qed.

Lemma rev_cons_inv {A} (l : list A) x rest : rev l = x :: rest -> l = rev rest ++ [x].
Proof. intros E. by rewrite <-(List.rev_involutive l), E. Qed.

Lemma search_ends fuel edges src pending visited :
  (length pending + unfollowed edges visited < fuel)%nat ->
  is_Some (finds_cycle fuel edges src pending visited).
Proof.
  revert pending visited. induction fuel as [|fuel IH]; intros pending visited L; [lia|]. simpl.
  destruct (rev pending) as [|node rest] eqn:R; [done|]. apply rev_cons_inv in R. subst pending.
  rewrite length_app in L. simpl in L. destruct (node =? src); [done|]. case_bool_decide as V; apply IH.
  - lia.
  - rewrite length_app. pose proof (unfollowed_visit edges visited node V). unfold successors in *. lia.
Qed.

(** What a search that answers no has shown. *)
Definition explored (edges : list (Z * Z)) (src : Z) (pending : list Z) (visited : gset Z) : Prop :=
  src ∉ visited /\ forall x y, x ∈ visited -> edge edges x y -> y ∈ visited \/ y ∈ pending.

Lemma search_no fuel edges src pending visited :
  explored edges src pending visited ->
  finds_cycle fuel edges src pending visited = Some false ->
  exists seen : gset Z, visited ⊆ seen /\ (forall x, x ∈ pending -> x ∈ seen) /\ explored edges src [] seen.
Proof.
  revert pending visited. induction fuel as [|fuel IH]; intros pending visited [Ns Cl]; simpl; [done|].
  destruct (rev pending) as [|node rest] eqn:R.
  { intros _. assert (pending = []) as -> by (by rewrite <-(List.rev_involutive pending), R).
    exists visited. split_and!; [done|by intros x Hx%elem_of_nil|by split]. }
  apply rev_cons_inv in R. subst pending. destruct (Z.eqb_spec node src) as [|Nn]; [done|].
  case_bool_decide as V; intros F.
  - destruct (IH (rev rest) visited) as (seen & S1 & S2 & S3); [|exact F|].
    { split; [done|]. intros x y Hx E. destruct (Cl x y Hx E) as [?|[?| ->%list_elem_of_singleton]%elem_of_app]; auto. }
    exists seen. split_and!; [done| |done]. intros x [?| ->%list_elem_of_singleton]%elem_of_app; auto.
  - destruct (IH (rev rest ++ successors edges node) ({[node]} ∪ visited)) as (seen & S1 & S2 & S3); [|exact F|].
    { split; [set_solver|]. intros x y [->%elem_of_singleton|Hx]%elem_of_union E.
      - right. apply elem_of_app. right. apply list_elem_of_In, List.in_map_iff. exists (node, y). split; [done|].
        apply List.filter_In. split; [by apply list_elem_of_In|apply Z.eqb_refl].
      - destruct (Cl x y Hx E) as [?|[?| ->%list_elem_of_singleton]%elem_of_app]; [left; set_solver|right|left; set_solver].
        apply elem_of_app. by left. }
    exists seen. split_and!; [set_solver| |done]. intros x [Hx| ->%list_elem_of_singleton]%elem_of_app; [|set_solver].
    apply S2, elem_of_app. by left.
Qed.

Lemma explored_closed edges src seen x y :
  explored edges src [] seen -> x ∈ seen -> rtc (edge edges) x y -> y ∈ seen.
Proof.
  intros [_ Cl] Hx T. induction T as [|x z y E _ IH]; [done|]. apply IH.
  destruct (Cl x z Hx E) as [|I%elem_of_nil]; done.
Qed.

(** A selection whose search answers no is on no cycle. *)
Lemma off_cycle selected s : on_cycle selected s = false ->
  ~ rtc (edge (selected_edges selected)) (ht_id (target s)) (ht_id (source s)).
Proof.
  unfold on_cycle. destruct (finds_cycle _ _ _ _ _) as [b|] eqn:F; simpl; [|done]. intros -> T.
  apply search_no in F as (seen & _ & S2 & S3); [|by split; set_solver].
  destruct S3 as [Ns Cl]. apply Ns. eapply explored_closed; [by split|by apply S2; left|exact T].
Qed.

(** The search of every selection comes to an answer within its fuel. *)
Lemma search_answers selected s :
  is_Some (finds_cycle (cycle_fuel selected) (selected_edges selected) (ht_id (source s)) [ht_id (target s)] ∅).
Proof.
  apply search_ends. unfold cycle_fuel, unfollowed. cbn [length].
  assert (L : length (selected_edges selected) = length selected) by apply List.length_map.
  match goal with |- context [List.filter ?f ?l] => pose proof (List.filter_length_le f l) end.
  lia.
Qed.

Section fleet.
Context `{Jsonb} `{WritePlatform} `{SqlEngine} (env : MvEnv).

(** What one resolution has checked. *)
Lemma resolve_Ok config names es name sel s s' :
  resolve env config names es name s = (Ok sel, s') ->
  name ∉ names /\ pl_source (sel_definition sel) = Parquet (ht_id (source sel)) /\
  pl_target (sel_definition sel) = ht_id (target sel) /\ (ht_id (source sel), ht_id (target sel)) ∉ es.
Proof.
  assert (Rd : forall id s t s1, st_map_err MvCatalog (catalog_read (mv_calls env) (Tables.Registry.get_hypertable_by_id id)) s
    = (Ok t, s1) -> ht_id t = id).
  { intros id s0 t s1 R%st_map_err_Ok. unfold catalog_read in R. destruct (read_fails _ _); [done|]. injection R as R _.
    unfold Tables.Registry.get_hypertable_by_id in R. destruct (List.find _ _) as [h|] eqn:F; [|done]. injection R as <-.
    apply List.find_some in F as [_ F]. lia. }
  unfold resolve. case_bool_decide as N; [done|]. intros (pl & s1 & _ & R)%st_bind_Ok.
  destruct (pl_source (pl_definition pl)) as [|src] eqn:Src; [done|]. case_bool_decide as D; [done|].
  apply st_bind_Ok in R as (a & s2 & Ea & R). apply st_bind_Ok in R as (b & s3 & Eb & R). apply Rd in Ea, Eb.
  repeat (apply st_bind_Ok in R as (? & ? & _ & R)). injection R as R _. inv_ok.
  unfold sel_definition. simpl. rewrite Src, Eb. by split_and!.
Qed.

Lemma resolve_all_Ok config seen es names selected s s' :
  resolve_all env config seen es names s = (Ok selected, s') ->
  NoDup names /\ (forall n, n ∈ names -> n ∉ seen) /\ length selected = length names /\
  Forall (fun o => pl_source (sel_definition o) = Parquet (ht_id (source o)) /\
                   pl_target (sel_definition o) = ht_id (target o)) selected /\
  NoDup (selected_edges selected) /\ forall e, e ∈ selected_edges selected -> e ∉ es.
Proof.
  revert seen es s selected. induction names as [|name names IH]; intros seen es s selected; simpl.
  { intros [= <- <-]. split_and!; try constructor; by intros ? ?%elem_of_nil. }
  intros (o & s1 & R & E)%st_bind_Ok. apply st_bind_Ok in E as (rest & s2 & A & E). injection E as <- <-.
  apply resolve_Ok in R as (N & Sr & Tg & D). apply IH in A as (A1 & A2 & A3 & A4 & A5 & A6). rewrite Tg in A6.
  split_and!.
  - constructor; [|done]. intros I. apply (A2 _ I). by left.
  - intros n [->|I]%elem_of_cons; [done|]. intros Is. apply (A2 n I). by right.
  - simpl. by rewrite A3.
  - by constructor.
  - simpl. constructor; [|done]. intros I. apply (A6 _ I). by left.
  - intros e [->|I]%elem_of_cons; [done|]. intros Is. apply (A6 e I). by right.
Qed.

(** C34: A fleet that starts selected an acyclic graph of views, each by a name
    of its own, from the source and into the target of its stored definition,
    no two along the same edge -- whatever the catalog holds --, and the search
    that guards it always comes to an answer: no view can feed itself through
    the others of its fleet. *)
Theorem fleets_are_acyclic config selected s s' :
  Mv.new env config s = (Ok selected, s') ->
  acyclic (selected_edges selected) /\ selected <> [] /\ NoDup (selected_edges selected) /\
  NoDup (pipelines config) /\ length selected = length (pipelines config) /\
  forall o, o ∈ selected ->
    is_Some (finds_cycle (cycle_fuel selected) (selected_edges selected) (ht_id (source o)) [ht_id (target o)] ∅) /\
    pl_source (sel_definition o) = Parquet (ht_id (source o)) /\ pl_target (sel_definition o) = ht_id (target o).
Proof.
  unfold Mv.new. case_bool_decide as Ne; [done|]. simpl. destruct (_ =? 0); [done|].
  intros (sel & s1 & R & E)%st_bind_Ok. destruct (List.existsb (on_cycle sel) sel) eqn:Cy; [done|].
  apply st_bind_Ok in E as ([] & s2 & _ & E). injection E as <- <-.
  apply resolve_all_Ok in R as (N & _ & L & D & Ed & _). rewrite Forall_forall in D. split_and!; try done.
  - assert (Off : forall o, o ∈ sel -> on_cycle sel o = false).
    { intros o Ho. destruct (on_cycle sel o) eqn:B; [|done]. rewrite <-Cy. symmetry. apply List.existsb_exists.
      exists o. by rewrite <-list_elem_of_In. }
    intros x T. assert (exists y, edge (selected_edges sel) x y /\ rtc (edge (selected_edges sel)) y x) as (y & Exy & Ryx).
    { inversion T as [? ? Q|? y ? Q Q']; subst; [by exists x|]. exists y. split; [done|by apply tc_rtc]. }
    apply list_elem_of_In, List.in_map_iff in Exy as (o & [= <- <-] & Ho%list_elem_of_In). by apply (off_cycle sel o (Off o Ho)).
  - intros ->. simpl in L. by destruct (pipelines config).
  - intros o Ho. destruct (D o Ho). split_and!; [apply search_answers|done..].
Qed.

End fleet.
End MvGraph.

(** * A view at work

    A platform small enough to run -- the engine returns its input -- and on it
    a fleet that resolves its view, applies one ADD, and, run again after its
    publication's acknowledgement was lost, finds the ADD applied. *)

Import CatalogError CatalogDb CommitSpec CommitTheorems CommitExamples Batches Rewrite RewriteSpec CompactorExamples Write Publish IngestExamples SqlPipeline Execute Mv MvSpec MvGraph.

Module MvExamples.

Definition k_fields : ArrowSchema := [mkField "k" Int64 false []].

#[export] Instance demo_engine : SqlEngine := {|
  LogicalPlan := string;
  build_session _ := Ok tt;
  create_logical_plan ctx _ sql := if String.eqb sql "SELECT" then Ok (sc_table ctx) else Err (DfOther "parse");
  create_physical_plan _ _ := Ok tt;
  plan_schema _ := k_fields;
  apply_with_subqueries table := [OtherNode; TableScan table];
  execute_stream ctx _ _ := Ok (List.map Ok (sc_input ctx));
|}.

Definition k_table (id : Z) (nm : string) : Hypertable :=
  mkHypertable id nm schema_json (JObject [("columns", JArray [JString "k"])]%string) ["k"%string] "k" Packed.
Definition copy_row : PipelineRow :=
  mkPipelineRow 1 "copy" "parquet" 1 "parquet" 2 "SELECT" "exactly_once" "stall" None.
Definition mv_db : DbState :=
  mkDb (with_cursors (with_pipelines (with_parts (with_commits (with_hypertables empty_tables [k_table 1 "events"; k_table 2 "copy"])
          [commit_of 1]) [mkPartRow 1 1 (mkPartMeta "a" JNull 0 9 2 20 0 None) None 1 None None]) [copy_row])
          {[("mv/1"%string, 1) := 0]})
       (mkSeqs 2 0 1 1 0 0 1).
Definition mv_sys : Sys := mkSys mv_db {["a"%string := [CWrite (k_batch [2; 2]); CFlush; CClose]]} 0 0.

(** The [n]-th call's transaction loses its acknowledgement. *)
Definition losing (n : nat) : TxEnv := mkTxEnv 7 7 (fun _ => None) (Failed Io true).
Definition mv_env (tx : nat -> TxEnv) : MvEnv :=
  mkMvEnv (mkWriteEnv (fun _ d => d) (fun _ => None) (fun _ => Acked) (fun _ => 7) tx (fun n => pretty n) (fun _ => None))
    (fun _ _ _ => false) (fun _ => 0).
Definition mv_config : MvConfig := mkMvConfig ["copy"%string] 1000 default_limits.

Definition fleet : list Selected :=
  match Mv.new (mv_env (fun _ => quiet 7)) mv_config mv_sys with (Ok selected, _) => selected | _ => [] end.
Definition the_view : Selected :=
  mkSelected (mkPipeline 1 (mkPipelineDefinition "copy" (Parquet 1) 2 "SELECT" ExactlyOnce Stall None))
    (k_table 1 "events") (k_table 2 "copy") (mkPrepared "events" "SELECT" k_fields k_fields default_limits).

Example fleet_eq : fleet = [the_view].
Proof. vm_compute. reflexivity. Qed.

Lemma new_eq : Mv.new (mv_env (fun _ => quiet 7)) mv_config mv_sys
  = (Ok [the_view], (Mv.new (mv_env (fun _ => quiet 7)) mv_config mv_sys).2).
Proof. vm_compute. reflexivity. Qed.

Lemma fleets_are_acyclic_witness :
  Pipelines.acyclic (selected_edges [the_view]) /\ NoDup (pipelines mv_config).
Proof.
  destruct (fleets_are_acyclic (mv_env (fun _ => quiet 7)) mv_config [the_view] mv_sys _ new_eq) as (A & _ & _ & B & _).
  split; [exact A|exact B].
Defined.

Definition round1 := process_once no_fail (mv_env losing) mv_config [the_view] mv_sys.
Definition round2 := process_once no_fail (mv_env (fun _ => quiet 7)) mv_config [the_view] round1.2.

(** The acknowledgement is lost: the cursor stays, the commit is there; the
    next round finds it and only moves the cursor. *)
Example lost_then_found :
  (is_ok round1.1, view_cursor the_view (sy_db round1.2), len (commits (tables (sy_db round1.2)))) = (false, Some 0, 2) /\
  (round2.1, view_cursor the_view (sy_db round2.2), len (commits (tables (sy_db round2.2)))) = (Ok 1%nat, Some 1, 2).
Proof. vm_compute. done. Qed.

Lemma mv_db_wf : db_wf mv_db.
Proof.
  split; simpl.
  - apply NoDup_singleton.
  - intros c ->%list_elem_of_singleton. simpl. lia.
  - by intros c1 c2 k ->%list_elem_of_singleton ->%list_elem_of_singleton.
  - by intros c f ->%list_elem_of_singleton.
  - apply NoDup_singleton.
  - intros r ->%list_elem_of_singleton. simpl. lia.
  - intros r ->%list_elem_of_singleton. exists (commit_of 1). split; [left|done].
  - by intros r id ->%list_elem_of_singleton.
  - lia.
Qed.

Lemma mv_view_ok : view_ok the_view mv_db.
Proof. split; [apply mv_db_wf|]. vm_compute. by intros row [= <-]. Qed.

Lemma losing_honest n : honest (losing n).
Proof. by intros e [= <-]. Qed.

Lemma round1_eq :
  process_once no_fail (mv_env losing) mv_config [the_view] mv_sys = (round1.1, round1.2).
Proof. apply surjective_pairing. Qed.

Lemma views_pass_only_applied_adds_witness :
  exists c', view_cursor the_view (sy_db round1.2) = Some c' /\ 0 <= c'.
Proof.
  destruct (views_pass_only_applied_adds no_fail (mv_env losing) mv_config the_view
    (fun n d => keeps_refl the_view d) losing_honest [the_view] mv_sys round1.1 round1.2 0) as (c' & A & B & _);
    [by left|by vm_compute; apply NoDup_singleton|apply mv_view_ok|by vm_compute|apply round1_eq|].
  exists c'. split; [exact A|exact B].
Defined.

Definition k_input : list RecordBatch := [mkBatch k_fields [Int64Array [Some 2; Some 2]]].

Lemma executions_stay_in_bounds_witness :
  bytes_of k_input <= input_bytes default_limits /\
  exists plan : string, scans_of (apply_with_subqueries plan) = ["events"%string].
Proof.
  destruct (executions_stay_in_bounds 0 5 "events" "SELECT" k_fields default_limits
    (mkPrepared "events" "SELECT" k_fields k_fields default_limits) k_input k_input)
    as (_ & B & _ & _ & plan & _ & S & _);
    [by split_and!; vm_compute|by vm_compute|by vm_compute|].
  split; [by apply B|by exists plan].
Defined.

End MvExamples.
