(* ===== verification/Health.v ===== *)
(** * Role and catalog health (crates/ukield/src/health.rs)

    The registry every role reports to: whether the catalog answers, and each
    role's own lifecycle. An [Instant] is its nanoseconds on the monotonic
    clock, and the clock reading of an operation is its argument. The registry
    is behind one lock and every operation holds it for its whole duration, so
    an operation is a function of the registry. The state gauge of a role is
    part of the registry: one number per role and state. *)

From S2P Require Import Prelude Bytes Json Types Schema Operation CatalogError.
Import CatalogError.

Module Health.

(** ** Roles (config.rs) *)

Inductive Role :=
| Ingest
| Mv
| Query
| Compactor
| Gc.

#[global] Instance role_eq_dec : EqDecision Role.
Proof. solve_decision. Defined.

Definition role_label (role : Role) : string :=
  match role with
  | Ingest => "ingest"
  | Mv => "mv"
  | Query => "query"
  | Compactor => "compactor"
  | Gc => "gc"
  end.

#[global] Instance role_label_inj : Inj (=) (=) role_label.
Proof. by intros [] []. Qed.

(** ** States *)

Inductive CatalogState :=
| CatalogHealthy
| Unavailable.

#[global] Instance catalog_state_eq_dec : EqDecision CatalogState.
Proof. solve_decision. Defined.

Inductive RoleState :=
| Starting
| Healthy
| Degraded
| Reconciling
| Failed
| Stopped.

#[global] Instance role_state_eq_dec : EqDecision RoleState.
Proof. solve_decision. Defined.

Definition state_label (s : RoleState) : string :=
  match s with
  | Starting => "starting"
  | Healthy => "healthy"
  | Degraded => "degraded"
  | Reconciling => "reconciling"
  | Failed => "failed"
  | Stopped => "stopped"
  end.

#[global] Instance state_label_inj : Inj (=) (=) state_label.
Proof. by intros [] []. Qed.

(** [RoleState::ALL]. *)
Definition ALL : list RoleState := [Starting; Healthy; Degraded; Reconciling; Failed; Stopped].

Definition is_terminal (s : RoleState) : bool :=
  match s with Failed | Stopped => true | _ => false end.

(** ** The registry *)

Record RoleEntry := mkEntry {
  state : RoleState;
  since : Z;
  recovery_attempts : Z;
  last_error_class : option CatalogErrorClass;
}.

Record HealthRegistry := mkRegistry {
  catalog : CatalogState;
  catalog_last_success : option Z;
  roles : gmap string RoleEntry;
  state_gauge : gmap (string * string) Z;
}.

Definition set_state_gauge (role : string) (s : RoleState) (g : gmap (string * string) Z)
  : gmap (string * string) Z :=
  fold_left (fun (g : gmap (string * string) Z) candidate =>
    <[(role, state_label candidate) := if bool_decide (candidate = s) then 1 else 0]> g) ALL g.

(** [HealthRegistry::new]. *)
Definition new (now : Z) (roles : list Role) : HealthRegistry :=
  fold_left (fun h role =>
    let label := role_label role in
    mkRegistry (catalog h) (catalog_last_success h)
      (<[label := mkEntry Starting now 0 None]> (Health.roles h))
      (set_state_gauge label Starting (state_gauge h)))
    roles (mkRegistry Unavailable None ∅ ∅).

Definition catalog_reachable (now : Z) (h : HealthRegistry) : HealthRegistry :=
  mkRegistry CatalogHealthy (Some now) (roles h) (state_gauge h).

Definition catalog_unavailable (h : HealthRegistry) : HealthRegistry :=
  mkRegistry Unavailable (catalog_last_success h) (roles h) (state_gauge h).

(** [RoleHandle::transition]. *)
Definition transition (label : string) (to : RoleState) (class : option CatalogErrorClass)
    (adjust : RoleEntry -> RoleEntry) (now : Z) (h : HealthRegistry) : HealthRegistry :=
  match roles h !! label with
  | None => h
  | Some entry =>
      if is_terminal (state entry) then h
      else
        let since := if bool_decide (state entry <> to) then now else since entry in
        let class := match class with Some _ => class | None => last_error_class entry end in
        let entry := mkEntry to since (recovery_attempts entry) class in
        mkRegistry (catalog h) (catalog_last_success h) (<[label := adjust entry]> (roles h))
          (set_state_gauge label to (state_gauge h))
  end.

Definition set_attempts (f : Z -> Z) (e : RoleEntry) : RoleEntry :=
  mkEntry (state e) (since e) (f (recovery_attempts e)) (last_error_class e).

Definition healthy (label : string) : Z -> HealthRegistry -> HealthRegistry :=
  transition label Healthy None (set_attempts (fun _ => 0)).

Definition degraded (label : string) (class : CatalogErrorClass) : Z -> HealthRegistry -> HealthRegistry :=
  transition label Degraded (Some class) id.

(** [recovery_attempts += 1] on a [u32], wrapping as a release build does. *)
Definition reconciling (label : string) : Z -> HealthRegistry -> HealthRegistry :=
  transition label Reconciling None (set_attempts (fun n => (n + 1) mod 2 ^ 32)).

Definition failed (label : string) (class : option CatalogErrorClass) : Z -> HealthRegistry -> HealthRegistry :=
  transition label Failed class id.

Definition stopped (label : string) : Z -> HealthRegistry -> HealthRegistry :=
  transition label Stopped None id.

(** [RoleHandle::state]. *)
Definition role_state (label : string) (h : HealthRegistry) : RoleState :=
  default Stopped (state <$> roles h !! label).

(** ** Snapshots *)

Record RoleSnapshot := mkRoleSnapshot {
  rs_state : RoleState;
  state_age_seconds : Z;
  rs_recovery_attempts : Z;
  rs_last_error_class : option string;
}.

Record HealthSnapshot := mkSnapshot {
  ready : bool;
  sn_catalog : CatalogState;
  catalog_last_success_seconds : option Z;
  sn_roles : gmap string RoleSnapshot;
}.

(** [now.duration_since(t).as_secs()], zero where [t] is later. *)
Definition age_seconds (now t : Z) : Z := Z.max 0 (now - t) / 10 ^ 9.

Definition snapshot (now : Z) (h : HealthRegistry) : HealthSnapshot :=
  let roles := (fun e => mkRoleSnapshot (state e) (age_seconds now (since e)) (recovery_attempts e)
                           (as_label <$> last_error_class e)) <$> roles h in
  mkSnapshot
    (bool_decide (catalog h = CatalogHealthy)
     && bool_decide (map_Forall (fun _ r => rs_state r = Healthy) roles))
    (catalog h)
    (age_seconds now <$> catalog_last_success h)
    roles.

(** ** What holds of every operation *)

(** The operations on the registry: the probes' two and one role's five. *)
Inductive HealthOp :=
| OpReachable (now : Z)
| OpUnavailable
| OpHealthy (label : string) (now : Z)
| OpDegraded (label : string) (class : CatalogErrorClass) (now : Z)
| OpReconciling (label : string) (now : Z)
| OpFailed (label : string) (class : option CatalogErrorClass) (now : Z)
| OpStopped (label : string) (now : Z).

Definition run_op (o : HealthOp) (h : HealthRegistry) : HealthRegistry :=
  match o with
  | OpReachable now => catalog_reachable now h
  | OpUnavailable => catalog_unavailable h
  | OpHealthy l now => healthy l now h
  | OpDegraded l c now => degraded l c now h
  | OpReconciling l now => reconciling l now h
  | OpFailed l c now => failed l c now h
  | OpStopped l now => stopped l now h
  end.

Definition run_ops (os : list HealthOp) (h : HealthRegistry) : HealthRegistry :=
  fold_left (fun h o => run_op o h) os h.

(** The role an operation is performed by; the probes belong to none. *)
Definition op_label (o : HealthOp) : option string :=
  match o with
  | OpReachable _ | OpUnavailable => None
  | OpHealthy l _ | OpDegraded l _ _ | OpReconciling l _ | OpFailed l _ _ | OpStopped l _ => Some l
  end.

Lemma gauge_fold (label : string) (s : RoleState) (cs : list RoleState) (g : gmap (string * string) Z) (k : string * string) :
  fold_left (fun (g : gmap (string * string) Z) candidate =>
    <[(label, state_label candidate) := if bool_decide (candidate = s) then 1 else 0]> g) cs g !! k
  = match List.find (fun c => bool_decide (k = (label, state_label c))) (rev cs) with
    | Some c => Some (if bool_decide (c = s) then 1 else 0)
    | None => g !! k
    end.
Proof.
  revert g. induction cs as [|c cs IH] using rev_ind; intros g; [done|].
  rewrite fold_left_app, rev_app_distr. simpl. destruct (decide (k = (label, state_label c))) as [E|N].
  - by rewrite (bool_decide_true _ E), E, lookup_insert_eq.
  - rewrite (bool_decide_false _ N), lookup_insert_ne by done. apply IH.
Qed.

Lemma gauge_same (label : string) s g s' :
  set_state_gauge label s g !! (label, state_label s') = Some (if bool_decide (s' = s) then 1 else 0).
Proof.
  unfold set_state_gauge. rewrite gauge_fold. destruct s'; simpl;
    repeat match goal with
    | |- context [bool_decide ((label, ?a) = (label, ?b))] =>
        first [rewrite (bool_decide_true ((label, a) = (label, b))) by done
              |rewrite (bool_decide_false ((label, a) = (label, b))) by congruence]
    end; done.
Qed.

Lemma gauge_other label s g label' k : label' <> label ->
  set_state_gauge label s g !! (label', k) = g !! (label', k).
Proof.
  intros N. unfold set_state_gauge. rewrite gauge_fold. simpl.
  by repeat (rewrite bool_decide_false by congruence).
Qed.

Lemma transition_other label to class adjust now h label' : label' <> label ->
  roles (transition label to class adjust now h) !! label' = roles h !! label'.
Proof.
  intros N. unfold transition. destruct (roles h !! label); [|done].
  destruct (is_terminal _); [done|]. simpl. by rewrite lookup_insert_ne.
Qed.

Lemma transition_terminal label to class adjust now h e :
  roles h !! label = Some e -> is_terminal (state e) = true ->
  transition label to class adjust now h = h.
Proof. intros E T. unfold transition. by rewrite E, T. Qed.

Lemma transition_state label to class adjust now h e :
  (forall e, state (adjust e) = state e) ->
  roles h !! label = Some e -> is_terminal (state e) = false ->
  role_state label (transition label to class adjust now h) = to.
Proof.
  intros A E T. unfold transition, role_state. rewrite E, T. simpl. by rewrite lookup_insert_eq; simpl; rewrite A.
Qed.

Lemma transition_dom label to class adjust now h :
  dom (roles (transition label to class adjust now h)) = dom (roles h).
Proof.
  unfold transition. destruct (roles h !! label) eqn:E; [|done]. destruct (is_terminal _); [done|]. simpl.
  rewrite dom_insert_L. apply elem_of_dom_2 in E. set_solver.
Qed.

#[export] Hint Rewrite gauge_same transition_dom : ukiel.

(** One operation moves at most its own role's entry. *)
Lemma run_op_other o h label : op_label o <> Some label ->
  roles (run_op o h) !! label = roles h !! label.
Proof.
  destruct o; simpl; intros N; try done; apply transition_other; congruence.
Qed.

Lemma run_op_terminal o h label : is_terminal (role_state label h) = true ->
  role_state label (run_op o h) = role_state label h.
Proof.
  intros T. destruct (decide (op_label o = Some label)) as [E|N].
  - unfold role_state in *. destruct (roles h !! label) as [e|] eqn:R.
    + assert (run_op o h = h) as ->; [|by rewrite R].
      destruct o; simpl in E; try done; injection E as ->; by eapply transition_terminal.
    + assert (run_op o h = h) as ->; [|by rewrite R].
      destruct o; simpl in E; try done; injection E as ->; simpl;
        unfold healthy, degraded, reconciling, failed, stopped, transition; by rewrite R.
  - unfold role_state. by rewrite run_op_other.
Qed.

(** The invariant of the gauges: what an operator reads is the state. *)
Definition one_hot (h : HealthRegistry) : Prop :=
  forall label e s, roles h !! label = Some e ->
    state_gauge h !! (label, state_label s) = Some (if bool_decide (s = state e) then 1 else 0).

Lemma transition_one_hot label to class adjust now h :
  (forall e, state (adjust e) = state e) -> one_hot h -> one_hot (transition label to class adjust now h).
Proof.
  intros A I. unfold transition. destruct (roles h !! label) as [e0|] eqn:R; [|done].
  destruct (is_terminal _); [done|]. intros l e s. simpl.
  destruct (decide (l = label)) as [->|N].
  - rewrite lookup_insert_eq, gauge_same. intros [= <-]. by rewrite A.
  - rewrite lookup_insert_ne, gauge_other by done. apply I.
Qed.

Lemma run_op_one_hot o h : one_hot h -> one_hot (run_op o h).
Proof.
  intros I. destruct o; simpl; try exact I; by apply transition_one_hot.
Qed.

Lemma new_one_hot now rs : one_hot (new now rs).
Proof.
  unfold new. cut (one_hot (mkRegistry Unavailable None ∅ ∅)); [|intros ???; simpl; by rewrite lookup_empty].
  generalize (mkRegistry Unavailable None ∅ ∅). induction rs as [|r rs IH]; intros h I; simpl; [done|].
  apply IH. intros l e s. simpl. destruct (decide (l = role_label r)) as [->|N].
  - rewrite lookup_insert_eq, gauge_same. by intros [= <-].
  - rewrite lookup_insert_ne, gauge_other by done. apply I.
Qed.

Lemma new_roles now rs label e : roles (new now rs) !! label = Some e -> state e = Starting.
Proof.
  unfold new. cut (forall l e, roles (mkRegistry Unavailable None ∅ ∅) !! l = Some e -> state e = Starting);
    [|intros ??; simpl; by rewrite lookup_empty].
  generalize (mkRegistry Unavailable None ∅ ∅). induction rs as [|r rs IH]; intros h I; simpl; [apply I|].
  apply IH. intros l e'. simpl. destruct (decide (l = role_label r)) as [->|N].
  - rewrite lookup_insert_eq. by intros [= <-].
  - rewrite lookup_insert_ne by done. apply I.
Qed.

(** When a process says it is ready. *)
Lemma ready_iff now h :
  ready (snapshot now h) = true <->
  catalog h = CatalogHealthy /\ (forall label e, roles h !! label = Some e -> state e = Healthy).
Proof.
  unfold snapshot. simpl. rewrite andb_true_iff, !bool_decide_eq_true. split; intros [A B]; (split; [done|]).
  - intros l e E. specialize (B l _ ltac:(by rewrite lookup_fmap, E)). done.
  - intros l r (e & <- & E)%lookup_fmap_Some. simpl. by eapply B.
Qed.

End Health.
