(* ===== verification/Recovery.v ===== *)
(** * Waiting out a catalog outage (crates/ukield/src/recovery.rs)

    The backoff every wait shares and the probe loop. A [Duration] is its
    nanoseconds; an [f64] is Rocq's executable binary64 ([SpecFloat] at
    precision 53), so a delay is computed bit for bit. [wait_for_catalog] is cut
    at its awaits: what it does between two of them is one definition, and the
    step relation of a supervised role (Supervisor.v) strings them together. *)

From Stdlib Require Import SpecFloat.
From S2P Require Import Prelude Bytes Json Types Schema Operation CatalogError Health.
Import CatalogError Health.

Module Recovery.

(** ** [f64] and [Duration] *)

Definition f64 : Type := spec_float.
Definition f64_of_Z (z : Z) : f64 := binary_normalize 53 1024 z 0 false.
Definition fadd : f64 -> f64 -> f64 := SFadd 53 1024.
Definition fsub : f64 -> f64 -> f64 := SFsub 53 1024.
Definition fmul : f64 -> f64 -> f64 := SFmul 53 1024.
Definition fdiv : f64 -> f64 -> f64 := SFdiv 53 1024.

Definition is_nan (x : f64) : bool := match x with S754_nan => true | _ => false end.

(** [f64::min] and [f64::max]: the other operand where one is not a number. *)
Definition fmin (x y : f64) : f64 := if is_nan x then y else if is_nan y then x else if SFleb x y then x else y.
Definition fmax (x y : f64) : f64 := if is_nan x then y else if is_nan y then x else if SFleb y x then x else y.

Definition NANOS_PER_SEC : Z := 10 ^ 9.

Definition DURATION_MAX : Z := (2 ^ 64 - 1) * NANOS_PER_SEC + 999999999.

(** [Duration::saturating_mul]. *)
Definition saturating_mul (d : Z) (k : Z) : Z := Z.min (d * k) DURATION_MAX.

Definition as_secs_f64 (d : Z) : f64 :=
  fadd (f64_of_Z (d / NANOS_PER_SEC)) (fdiv (f64_of_Z (d mod NANOS_PER_SEC)) (f64_of_Z NANOS_PER_SEC)).

(** The integer nearest to [num / 2 ^ k], ties to the even one. *)
Definition round_half_even (num k : Z) : Z :=
  let q := num / 2 ^ k in
  let r := num mod 2 ^ k in
  if 2 * r <? 2 ^ k then q
  else if 2 ^ k <? 2 * r then q + 1
  else if Z.even q then q else q + 1.

(** [Duration::from_secs_f64]; [None] where it panics. *)
Definition from_secs_f64 (x : f64) : option Z :=
  match x with
  | S754_zero _ => Some 0
  | S754_finite false m e =>
      let d := if 0 <=? e then Z.pos m * 2 ^ e * NANOS_PER_SEC
               else round_half_even (Z.pos m * NANOS_PER_SEC) (- e) in
      if d <=? DURATION_MAX then Some d else None
  | _ => None
  end.

Definition mul_f64 (d : Z) (k : f64) : option Z := from_secs_f64 (fmul k (as_secs_f64 d)).

(** ** The policy and its backoff *)

Record RecoveryPolicy := mkPolicy {
  base : Z;
  max : Z;
  jitter_ratio : f64;
  probe_timeout : Z;
  seed : Z;
}.

Record Backoff := mkBackoff {
  policy : RecoveryPolicy;
  attempt : Z;
}.

Definition backoff (p : RecoveryPolicy) : Backoff := mkBackoff p 0.

Definition wrap_u64 (z : Z) : Z := z mod 2 ^ 64.

(** SplitMix64's finalizer. *)
Definition mix (seed attempt : Z) : Z :=
  let x := Z.lxor seed (wrap_u64 (attempt * 0x9E3779B97F4A7C15)) in
  let x := wrap_u64 (Z.lxor x (Z.shiftr x 30) * 0xBF58476D1CE4E5B9) in
  let x := wrap_u64 (Z.lxor x (Z.shiftr x 27) * 0x94D049BB133111EB) in
  Z.lxor x (Z.shiftr x 31).

(** [jitter]; [None] where the product panics. *)
Definition jitter (delay : Z) (ratio : f64) (seed attempt : Z) : option Z :=
  if SFleb ratio (f64_of_Z 0) || (delay =? 0) then Some delay
  else
    let x := mix seed attempt in
    let unit := fsub (fmul (fdiv (f64_of_Z x) (f64_of_Z (2 ^ 64 - 1))) (f64_of_Z 2)) (f64_of_Z 1) in
    let factor := fmax (fadd (f64_of_Z 1) (fmul unit (fmin ratio (f64_of_Z 1)))) (f64_of_Z 0) in
    mul_f64 delay factor.

(** [base.saturating_mul(1 << attempt.min(31)).min(max)]. *)
Definition capped_delay (b : Backoff) : Z :=
  Z.min (saturating_mul (base (policy b)) (Z.shiftl 1 (Z.min (attempt b) 31))) (max (policy b)).

Definition next_delay (b : Backoff) : option Z * Backoff :=
  let capped := capped_delay b in
  let b := mkBackoff (policy b) (Z.min (attempt b + 1) (2 ^ 32 - 1)) in
  (jitter capped (jitter_ratio (policy b)) (seed (policy b)) (attempt b), b).

Definition reset (b : Backoff) : Backoff := mkBackoff (policy b) 0.

(** The delays of [n] waits in a row. *)
Fixpoint delays (n : nat) (b : Backoff) : list (option Z) :=
  match n with
  | O => []
  | S n => let '(d, b) := next_delay b in d :: delays n b
  end.

(** ** The probe loop, cut at its awaits *)

(** What [timeout(probe_timeout, catalog.ping()).await] came back with. *)
Inductive ProbeOutcome :=
| Answered
| Refused (e : CatalogError)
| Elapsed.

(** Where a wait is: at the probe, or at the [select!] over the sleep. *)
Inductive Wait :=
| AtProbe (b : Backoff)
| AtSleep (b : Backoff) (delay : Z).

Inductive WaitResult :=
| Waiting (w : Wait)
| Reached
| Shutdown
| Panicked.

(** The top of the loop: the shutdown flag is read before every probe. *)
Definition wait_top (is_cancelled : bool) (b : Backoff) : WaitResult :=
  if is_cancelled then Shutdown else Waiting (AtProbe b).

(** [wait_for_catalog], up to its first await. *)
Definition wait_for_catalog (is_cancelled : bool) (p : RecoveryPolicy) : WaitResult :=
  wait_top is_cancelled (backoff p).

(** The arms of the probe's match, and the delay drawn for the sleep. *)
Definition wait_probed (o : ProbeOutcome) (b : Backoff) (now : Z) (h : HealthRegistry)
  : WaitResult * HealthRegistry :=
  match o with
  | Answered => (Reached, catalog_reachable now h)
  | Refused _ | Elapsed =>
      let '(d, b) := next_delay b in
      (match d with Some d => Waiting (AtSleep b d) | None => Panicked end, catalog_unavailable h)
  end.

(** The two branches of the [select!]. *)
Definition wait_slept (is_cancelled : bool) (b : Backoff) : WaitResult := wait_top is_cancelled b.
Definition wait_cancelled : WaitResult := Shutdown.

(** ** What the backoff guarantees *)

Definition policy_wf (p : RecoveryPolicy) : Prop := 0 <= base p <= DURATION_MAX /\ 0 <= max p.

Lemma capped_delay_spec b : policy_wf (policy b) -> 0 <= attempt b ->
  max (policy b) <= DURATION_MAX ->
  capped_delay b = Z.min (base (policy b) * 2 ^ Z.min (attempt b) 31) (max (policy b)).
Proof. intros [B M] A L. unfold capped_delay, saturating_mul. rewrite Z.shiftl_1_l. lia. Qed.

Lemma next_delay_plain b : SFleb (jitter_ratio (policy b)) (f64_of_Z 0) = true ->
  (next_delay b).1 = Some (capped_delay b).
Proof. intros J. unfold next_delay, jitter. cbn [fst snd policy]. by rewrite J. Qed.

Lemma next_delay_state b : (next_delay b).2 = mkBackoff (policy b) (Z.min (attempt b + 1) (2 ^ 32 - 1)).
Proof. done. Qed.

Fixpoint nth_backoff (n : nat) (b : Backoff) : Backoff :=
  match n with O => b | S n => nth_backoff n (next_delay b).2 end.

Lemma nth_backoff_spec n b : 0 <= attempt b <= 2 ^ 32 - 1 ->
  nth_backoff n b = mkBackoff (policy b) (Z.min (attempt b + Z.of_nat n) (2 ^ 32 - 1)).
Proof.
  revert b. induction n as [|n IH]; intros b A; cbn [nth_backoff].
  - destruct b as [p a]. cbn [attempt policy] in *. f_equal. lia.
  - rewrite IH; rewrite next_delay_state; cbn [policy attempt]; [f_equal; lia|lia].
Qed.

Lemma delays_length n b : length (delays n b) = n.
Proof. revert b. induction n as [|n IH]; intros b; [done|]. cbn [delays].
  destruct (next_delay b). simpl. by rewrite IH.
Qed.

Lemma delays_lookup n b i : (i < n)%nat -> delays n b !! i = Some (next_delay (nth_backoff i b)).1.
Proof.
  revert b i. induction n as [|n IH]; intros b i L; [lia|]. cbn [delays].
  destruct (next_delay b) as [d b'] eqn:E.
  destruct i as [|i]; cbn [nth_backoff]; rewrite E; [done|]. cbn. by apply IH; lia.
Qed.

(** However long an outage lasts, the [i]-th delay a wait draws, before
    jitter, is the policy's base doubled [i] times and never more than its
    ceiling: it never overflows to a short delay, it never shrinks as the
    outage goes on, and once at the ceiling it stays there. *)
Theorem backoff_is_capped p n :
  policy_wf p -> base p <= max p -> max p <= DURATION_MAX ->
  SFleb (jitter_ratio p) (f64_of_Z 0) = true ->
  length (delays n (backoff p)) = n /\
  (forall i, (i < n)%nat ->
    delays n (backoff p) !! i = Some (Some (Z.min (base p * 2 ^ Z.min (Z.of_nat i) 31) (max p)))) /\
  (forall i j d e, (i <= j)%nat -> delays n (backoff p) !! i = Some (Some d) ->
    delays n (backoff p) !! j = Some (Some e) -> base p <= d <= e /\ e <= max p).
Proof.
  intros W BM M J.
  assert (P : forall i, (i < n)%nat -> delays n (backoff p) !! i
     = Some (Some (Z.min (base p * 2 ^ Z.min (Z.of_nat i) 31) (max p)))).
  { intros i L. rewrite delays_lookup, nth_backoff_spec by (done || (simpl; lia)).
    rewrite next_delay_plain, capped_delay_spec by (simpl; done || lia).
    simpl. do 2 f_equal. f_equal. f_equal. f_equal. lia. }
  split_and!; [apply delays_length|exact P|]. intros i j d e L D E.
    pose proof (lookup_lt_Some _ _ _ D) as Li. pose proof (lookup_lt_Some _ _ _ E) as Lj. rewrite delays_length in Li, Lj.
    rewrite P in D, E by done. injection D as <-. injection E as <-. destruct W as [[W1 W2] W3].
    assert (2 ^ Z.min (Z.of_nat i) 31 <= 2 ^ Z.min (Z.of_nat j) 31) by (apply Z.pow_le_mono_r; lia).
    assert (1 <= 2 ^ Z.min (Z.of_nat i) 31) by (apply (Z.pow_le_mono_r 2 0); lia).
    nia.
Qed.

Definition default_policy : RecoveryPolicy :=
  mkPolicy (100 * 10 ^ 6) (5000 * 10 ^ 6) (f64_of_Z 0) (2000 * 10 ^ 6) 7.

Lemma backoff_is_capped_witness :
  length (delays 8 (backoff default_policy)) = 8%nat /\
  (forall i, (i < 8)%nat -> delays 8 (backoff default_policy) !! i
     = Some (Some (Z.min (base default_policy * 2 ^ Z.min (Z.of_nat i) 31) (max default_policy)))).
Proof.
  destruct (backoff_is_capped default_policy 8) as (A & B & _);
    [by split; vm_compute|by vm_compute|by vm_compute|by vm_compute|]. by split.
Defined.

(** A fifth of jitter on the default schedule, as the process of seed 7 draws
    it: within 80% and 120% of the plain delays, and never beyond the ceiling's
    own jitter. *)
Definition jittered : RecoveryPolicy :=
  mkPolicy (100 * 10 ^ 6) (5000 * 10 ^ 6) (fdiv (f64_of_Z 1) (f64_of_Z 5)) (2000 * 10 ^ 6) 7.

Example jittered_delays :
  Forall2 (fun d plain => match d, plain with
             | Some d, Some plain => 8 * plain <= 10 * d /\ 10 * d <= 12 * plain
             | _, _ => False end)
    (delays 10 (backoff jittered)) (delays 10 (backoff default_policy)).
Proof. vm_compute. repeat constructor; discriminate. Qed.

End Recovery.
