(* ===== verification/Float64.v ===== *)
(** * Doubles: whole numbers are exact, and comparisons are of values

    What a claim about an [f64] setting needs of binary64 ([Recovery.f64], Rocq's
    [SpecFloat]): a whole number under 2^53 is represented exactly, and two
    finite doubles compare as the numbers they stand for. *)

From Stdlib Require Import SpecFloat.
From S2P Require Import Prelude Recovery.
Import Recovery.

Module Float64.

(** What a double is: finite ones have a canonical mantissa. *)
Definition valid (x : f64) : Prop := valid_binary 53 1024 x = true.

(** A nonnegative finite double's value, in the smallest unit there is. *)
Definition units (m : positive) (e : Z) : Z := Z.pos m * 2 ^ (e + 1074).

Abbreviation digits m := (Z.pos (digits2_pos m)).

Lemma digits_spec p : 2 ^ (digits p - 1) <= Z.pos p < 2 ^ digits p.
Proof.
  assert (S : forall q, 2 ^ (Z.succ (digits q) - 1) = 2 * 2 ^ (digits q - 1) /\ 2 ^ Z.succ (digits q) = 2 * 2 ^ digits q).
  { intros q. rewrite <- !Z.pow_succ_r by lia. split; f_equal; lia. }
  induction p as [p IH|p IH|]; simpl digits2_pos; rewrite ?Pos2Z.inj_succ; [| |done]; destruct (S p) as [-> ->]; lia.
Qed.

Lemma shifted p k :
  Z.pos (Pos.iter xO p k) = Z.pos p * 2 ^ Z.pos k /\ digits (Pos.iter xO p k) = digits p + Z.pos k.
Proof.
  induction k as [|k [V D]] using Pos.peano_ind; [simpl; lia|].
  rewrite Pos.iter_succ. simpl digits2_pos. rewrite Pos2Z.inj_xO, !Pos2Z.inj_succ, Z.pow_succ_r, V, D by lia. lia.
Qed.

Lemma bounded_spec m e : bounded 53 1024 m e = true <-> Z.max (digits m + e - 53) (-1074) = e /\ e <= 971.
Proof. unfold bounded, canonical_mantissa, fexp, emin. rewrite andb_true_iff, Z.eqb_eq, Z.leb_le. simpl. lia. Qed.

(** Rounding keeps a number that fits. *)
Lemma round_exact s m e : bounded 53 1024 m e = true -> binary_round_aux 53 1024 s (Z.pos m) e loc_Exact = S754_finite s m e.
Proof.
  intros B. pose proof B as [C L]%bounded_spec.
  assert (S : shr_fexp 53 1024 (Z.pos m) e loc_Exact = (Build_shr_record (Z.pos m) false false, e)).
  { unfold shr_fexp, fexp, emin. simpl Zdigits2. change (3 - 1024 - 53) with (-1074). rewrite C, Z.sub_diag. done. }
  unfold binary_round_aux. rewrite S. cbn [shr_m loc_of_shr_record round_nearest_even]. rewrite S. cbn [shr_m].
  change (1024 - 53) with 971. by rewrite (proj2 (Z.leb_le _ _) L).
Qed.

(** Whole numbers of at most 53 bits are exact. *)
Lemma whole_exact p :
  digits p <= 53 ->
  exists m e, f64_of_Z (Z.pos p) = S754_finite false m e /\ bounded 53 1024 m e = true /\ units m e = Z.pos p * 2 ^ 1074.
Proof.
  intros D. set (k := 53 - digits p). assert (K : 0 <= k <= 52) by lia.
  assert (Al : exists m, shl_align p 0 (- k) = (m, - k) /\ Z.pos m = Z.pos p * 2 ^ k /\ digits m = 53).
  { destruct k as [|q|q] eqn:Eq; [| |lia].
    - exists p. split_and!; [done|simpl; lia|lia].
    - exists (Pos.iter xO p q). destruct (shifted p q) as [V Dg]. split_and!; [done|exact V|lia]. }
  destruct Al as (m & Al & V & Dm).
  assert (B : bounded 53 1024 m (- k) = true) by (apply bounded_spec; lia).
  exists m, (- k). split_and!; [|exact B|].
  - unfold f64_of_Z, binary_normalize, binary_round, fexp, emin.
    replace (Z.max (digits p + 0 - 53) (3 - 1024 - 53)) with (- k) by lia. rewrite Al. by apply round_exact.
  - unfold units. rewrite V, <- Z.mul_assoc, <- Z.pow_add_r by lia. do 2 f_equal. lia.
Qed.

Lemma digits_le p n : 0 <= n -> Z.pos p < 2 ^ n -> digits p <= n.
Proof.
  intros N L. destruct (digits_spec p) as [G _]. destruct (Z.le_gt_cases (digits p) n) as [|G']; [done|].
  assert (2 ^ n <= 2 ^ (digits p - 1)) by (apply Z.pow_le_mono_r; lia). lia.
Qed.

(** A whole number as a double: zero, or the exact finite one. *)
Lemma whole_number n :
  0 <= n < 2 ^ 53 ->
  valid (f64_of_Z n) /\
  (n = 0 /\ f64_of_Z n = S754_zero false \/
   exists m e, f64_of_Z n = S754_finite false m e /\ bounded 53 1024 m e = true /\ units m e = n * 2 ^ 1074).
Proof.
  intros [N L]. destruct n as [|p|p]; [by split; [|left]| |lia].
  destruct (whole_exact p) as (m & e & E & B & U); [by apply digits_le|].
  split; [unfold valid; by rewrite E|right]. eauto.
Qed.

(** Comparing two doubles that are numbers decides. *)
Lemma not_le_ge x y : is_nan x = false -> is_nan y = false -> SFleb x y = false -> SFleb y x = true.
Proof.
  intros X Y. unfold SFleb.
  assert (A : forall mx my, Pos.compare_cont Eq my mx = CompOpp (Pos.compare_cont Eq mx my)) by (intros mx my; apply (Pos.compare_antisym mx my)).
  destruct x as [[]|[]| |[] mx ex], y as [[]|[]| |[] my ey]; try done; cbn [SFcompare];
    rewrite (Z.compare_antisym ex ey), (A mx my); destruct (ex ?= ey), (Pos.compare_cont Eq mx my); done.
Qed.

(** Canonical doubles compare as their values. *)
Lemma le_units m1 e1 m2 e2 :
  bounded 53 1024 m1 e1 = true -> bounded 53 1024 m2 e2 = true ->
  SFleb (S754_finite false m1 e1) (S754_finite false m2 e2) = true -> units m1 e1 <= units m2 e2.
Proof.
  intros [C1 _]%bounded_spec [C2 _]%bounded_spec. unfold SFleb, units. simpl.
  destruct (Z.compare_spec e1 e2) as [->|L|L]; [| |done].
  - change (Pos.compare_cont Eq m1 m2) with (Pos.compare m1 m2). intros H.
    assert (Z.pos m1 <= Z.pos m2) by (destruct (Pos.compare_spec m1 m2); try done; lia). nia.
  - intros _. assert (D2 : digits m2 = 53) by lia. assert (D1 : digits m1 <= 53) by lia.
    destruct (digits_spec m1) as [_ U1], (digits_spec m2) as [U2 _]. rewrite D2 in U2.
    assert (Z.pos m1 <= 2 ^ 53) by (assert (2 ^ digits m1 <= 2 ^ 53) by (apply Z.pow_le_mono_r; lia); lia).
    assert (E : 2 ^ (e2 + 1074) = 2 * 2 ^ (e2 + 1074 - 1)).
    { rewrite <- Z.pow_succ_r by lia. f_equal. lia. }
    assert (2 ^ (e1 + 1074) <= 2 ^ (e2 + 1074 - 1)) by (apply Z.pow_le_mono_r; lia).
    assert (0 < 2 ^ (e1 + 1074)) by (apply Z.pow_pos_nonneg; lia). rewrite E. simpl in U2 |- *. nia.
Qed.

End Float64.
