(* ===== verification/Supervisor.v ===== *)
(** * Role supervision (crates/ukield/src/supervisor.rs)

    One supervised role as a state machine: a state per await of
    [supervise_role], [wait_for_catalog] and [reconcile], a step per answer an
    await can get. What the code does between two awaits is one definition, so a
    step is the source's straight-line code. Steps of other roles and of the
    shutdown token interleave with the role's own; the worker's readiness signal
    is the one call into the registry a worker makes. Log lines and counters are
    not modelled. *)

From S2P Require Import Prelude Bytes Json Types Schema Operation CatalogError CatalogDb Commit Gc Merge Ingest Mv Health Recovery.
Import CatalogError Health Recovery.

(** ** Worker errors (trait [RoleFailure]) *)

Class RoleFailure (E : Type) := catalog_error : E -> option CatalogError.

Module Supervisor.

Definition ambiguous_operation {E} `{RoleFailure E} (e : E) : option Operation.OperationIdentity :=
  match catalog_error e with
  | Some (AmbiguousMutation identity _ _) => Some identity
  | _ => None
  end.

Definition ingest_failure : RoleFailure Ingest.IngestError :=
  fun e => match e with Ingest.IgCatalog e => Some e | _ => None end.

Definition compactor_failure : RoleFailure Merge.CompactorError :=
  fun e => match e with Merge.CatalogErr e => Some e | _ => None end.

Definition gc_failure : RoleFailure Gc.GcError :=
  fun e => match e with Gc.Catalog e => Some e | _ => None end.

Definition mv_failure : RoleFailure Mv.MvError := Mv.catalog_error.

Definition catalog_failure : RoleFailure CatalogError := fun e => Some e.

(** An [anyhow::Error] by its chain of causes, outermost first; a cause that is
    not a [CatalogError] is [None]. *)
Definition AnyhowError : Type := list (option CatalogError).

Definition anyhow_failure : RoleFailure AnyhowError :=
  fun chain => head (omap id chain).

#[export] Existing Instances ingest_failure compactor_failure gc_failure mv_failure catalog_failure anyhow_failure.

Section role.
Context {E : Type} `{RF : RoleFailure E}.

(** How [supervise_role] returns an error. *)
Inductive SupError :=
| WorkerFailed (e : E) (label : string)
| ReconciliationFailed (e : CatalogError) (label : string).

(** What a wait goes back to: the failure arm of [supervise_role], or the
    lookup loop of [reconcile]. *)
Inductive Resume :=
| AfterFailure (ambiguous : option Operation.OperationIdentity)
| AfterLookup (identity : Operation.OperationIdentity).

Inductive Phase :=
| Building
| WaitingFor (k : Resume) (w : Wait)
| AskingFor (identity : Operation.OperationIdentity)
| Ended (r : result string SupError)
| Crashed.

Record Sup := mkSup {
  label : string;
  sup_policy : RecoveryPolicy;
  phase : Phase;
  health : HealthRegistry;
  is_cancelled : bool;
}.

Definition with_phase (p : Phase) (h : HealthRegistry) (s : Sup) : Sup :=
  mkSup (label s) (sup_policy s) p h (is_cancelled s).

(** A clean stop. *)
Definition stop (now : Z) (s : Sup) : Sup :=
  with_phase (Ended (Ok (label s))) (stopped (label s) now (health s)) s.

(** The catalog answers again: [handle.reconciling()], then the open question
    if there is one, else the rebuild. *)
Definition on_reached (now : Z) (k : Resume) (s : Sup) : Sup :=
  let h := reconciling (label s) now (health s) in
  match k with
  | AfterFailure None => with_phase Building h s
  | AfterFailure (Some identity) | AfterLookup identity => with_phase (AskingFor identity) h s
  end.

Definition after_wait (now : Z) (r : WaitResult) (k : Resume) (s : Sup) : Sup :=
  match r with
  | Waiting w => with_phase (WaitingFor k w) (health s) s
  | Reached => on_reached now k s
  | Shutdown => stop now s
  | Panicked => with_phase Crashed (health s) s
  end.

(** [build().await] returned an error. *)
Definition worker_failed (now : Z) (e : E) (s : Sup) : Sup :=
  let recoverable :=
    match catalog_error e with
    | Some c => if is_recoverable_transport c then Some (class c) else None
    | None => None
    end in
  match recoverable with
  | None =>
      with_phase (Ended (Err (WorkerFailed e (label s))))
        (failed (label s) (class <$> catalog_error e) now (health s)) s
  | Some class =>
      after_wait now (wait_for_catalog (is_cancelled s) (sup_policy s))
        (AfterFailure (ambiguous_operation e))
        (with_phase (phase s) (degraded (label s) class now (health s)) s)
  end.

(** [reconcile]: one answer of [catalog.lookup_operation(identity)]. *)
Definition looked_up (now : Z) (identity : Operation.OperationIdentity)
    (r : result Commit.OperationLookup CatalogError) (s : Sup) : Sup :=
  match r with
  | Ok _ => with_phase Building (health s) s
  | Err e =>
      if is_recoverable_transport e then
        after_wait now (wait_for_catalog (is_cancelled s) (sup_policy s)) (AfterLookup identity) s
      else
        with_phase (Ended (Err (ReconciliationFailed e (label s))))
          (failed (label s) (Some (class e)) now (health s)) s
  end.

Inductive Event :=
| WorkerReady
| WorkerDone (r : result unit E)
| Probed (o : ProbeOutcome)
| Slept
| CancelSeen
| LookedUp (r : result Commit.OperationLookup CatalogError)
| Cancel
| Elsewhere (o : HealthOp).

(** [supervise_role]: what one event does; [None] where it cannot happen. *)
Definition sup_step (now : Z) (ev : Event) (s : Sup) : option Sup :=
  match ev, phase s with
  | WorkerReady, Building => Some (with_phase Building (healthy (label s) now (health s)) s)
  | WorkerDone (Ok _), Building => Some (stop now s)
  | WorkerDone (Err e), Building => Some (worker_failed now e s)
  | Probed o, WaitingFor k (AtProbe b) =>
      let '(r, h) := wait_probed o b now (health s) in
      Some (after_wait now r k (with_phase (phase s) h s))
  | Slept, WaitingFor k (AtSleep b _) => Some (after_wait now (wait_slept (is_cancelled s) b) k s)
  | CancelSeen, WaitingFor k (AtSleep _ _) =>
      if is_cancelled s then Some (after_wait now wait_cancelled k s) else None
  | LookedUp r, AskingFor identity => Some (looked_up now identity r s)
  | Cancel, _ => Some (mkSup (label s) (sup_policy s) (phase s) (health s) true)
  | Elsewhere o, _ =>
      if bool_decide (op_label o = Some (label s)) then None
      else Some (with_phase (phase s) (run_op o (health s)) s)
  | _, _ => None
  end.

(** A role of a fresh process. *)
Definition supervise_role (role : Role) (policy : RecoveryPolicy) (h : HealthRegistry) : Sup :=
  mkSup (role_label role) policy Building h false.

Fixpoint sup_run (evs : list (Z * Event)) (s : Sup) : option Sup :=
  match evs with
  | [] => Some s
  | (now, ev) :: evs => s' ← sup_step now ev s; sup_run evs s'
  end.
End role.
Arguments Sup : clear implicits.
Arguments Event : clear implicits.
Arguments Phase : clear implicits.
Arguments SupError : clear implicits.

(** ** Startup steps ([with_catalog_recovery]) *)

Section startup.
Context {T E : Type} `{RF : RoleFailure E}.

Inductive StartupPhase :=
| Trying
| StartupWait (w : Wait)
| Started (value : T)
| StartupFailed (e : E) (what : string)
| ShutdownWhileWaiting (what : string)
| StartupCrashed.

Record Startup := mkStartup {
  what : string;
  st_policy : RecoveryPolicy;
  st_phase : StartupPhase;
  st_health : HealthRegistry;
  st_cancelled : bool;
}.

Definition st_with (p : StartupPhase) (h : HealthRegistry) (s : Startup) : Startup :=
  mkStartup (what s) (st_policy s) p h (st_cancelled s).

Definition st_after_wait (r : WaitResult) (s : Startup) : Startup :=
  match r with
  | Waiting w => st_with (StartupWait w) (st_health s) s
  | Reached => st_with Trying (st_health s) s
  | Shutdown => st_with (ShutdownWhileWaiting (what s)) (st_health s) s
  | Panicked => st_with StartupCrashed (st_health s) s
  end.

(** One answer of [step().await]. *)
Definition step_done (now : Z) (r : result T E) (s : Startup) : Startup :=
  match r with
  | Ok value => st_with (Started value) (catalog_reachable now (st_health s)) s
  | Err e =>
      let transient := match catalog_error e with Some c => is_recoverable_transport c | None => false end in
      if negb transient then st_with (StartupFailed e (what s)) (st_health s) s
      else
        st_after_wait (wait_for_catalog (st_cancelled s) (st_policy s))
          (st_with (st_phase s) (catalog_unavailable (st_health s)) s)
  end.

Inductive StartupEvent :=
| StepDone (r : result T E)
| StProbed (o : ProbeOutcome)
| StSlept
| StCancelSeen
| StCancel.

(** [with_catalog_recovery]. *)
Definition startup_step (now : Z) (ev : StartupEvent) (s : Startup) : option Startup :=
  match ev, st_phase s with
  | StepDone r, Trying => Some (step_done now r s)
  | StProbed o, StartupWait (AtProbe b) =>
      let '(r, h) := wait_probed o b now (st_health s) in
      Some (st_after_wait r (st_with (st_phase s) h s))
  | StSlept, StartupWait (AtSleep b _) => Some (st_after_wait (wait_slept (st_cancelled s) b) s)
  | StCancelSeen, StartupWait (AtSleep _ _) =>
      if st_cancelled s then Some (st_after_wait wait_cancelled s) else None
  | StCancel, _ => Some (mkStartup (what s) (st_policy s) (st_phase s) (st_health s) true)
  | _, _ => None
  end.

Fixpoint startup_run (evs : list (Z * StartupEvent)) (s : Startup) : option Startup :=
  match evs with
  | [] => Some s
  | (now, ev) :: evs => s' ← startup_step now ev s; startup_run evs s'
  end.
End startup.
Arguments Startup : clear implicits.
Arguments StartupEvent : clear implicits.

End Supervisor.
