(* ===== verification/SupervisorSpec.v ===== *)
(** * What supervision guarantees

    The state a role reports matches where its supervisor is; a role is healthy
    only because its own worker said so after its last rebuild; a worker that
    died not knowing whether its commit landed is rebuilt only after the catalog
    answered for that very operation; a role's end is final and is the one it
    reports; a role never moves another's state. *)

From S2P Require Import Prelude Bytes Json Types Schema Operation CatalogError CatalogDb Commit Health Recovery Supervisor.
Import CatalogError Health Recovery Supervisor.

Module SupervisorSpec.

Section role.
Context {E : Type} `{RF : RoleFailure E}.
Implicit Types s : Sup E.

Lemma sup_run_app evs evs' s : sup_run (evs ++ evs') s = (s' ← sup_run evs s; sup_run evs' s').
Proof.
  revert s. induction evs as [|[now ev] evs IH]; intros s; [done|]. simpl.
  destruct (sup_step now ev s); simpl; [apply IH|done].
Qed.

Definition permanent (e : E) : bool :=
  match catalog_error e with Some c => negb (is_recoverable_transport c) | None => true end.

(** The role state each phase of the supervisor reports. *)
Definition phase_state (l : string) (p : Phase E) (rs : RoleState) : Prop :=
  match p with
  | Building => rs = Starting \/ rs = Healthy \/ rs = Reconciling
  | WaitingFor (AfterFailure _) _ => rs = Degraded
  | WaitingFor (AfterLookup _) _ | AskingFor _ => rs = Reconciling
  | Ended (Ok l') => rs = Stopped /\ l' = l
  | Ended (Err (WorkerFailed e l')) => rs = Failed /\ l' = l /\ permanent e = true
  | Ended (Err (ReconciliationFailed e l')) => rs = Failed /\ l' = l /\ is_recoverable_transport e = false
  | Crashed => rs = Degraded \/ rs = Reconciling
  end.

Definition reported s : RoleState := role_state (label s) (health s).

Definition sup_inv s : Prop :=
  is_Some (roles (health s) !! label s) /\ phase_state (label s) (phase s) (reported s).

(** A live entry takes the state it is moved to. *)
Lemma moved l to class adjust now h rs :
  (forall e, state (adjust e) = state e) ->
  is_Some (roles h !! l) -> role_state l h = rs -> is_terminal rs = false ->
  is_Some (roles (transition l to class adjust now h) !! l) /\
  role_state l (transition l to class adjust now h) = to.
Proof.
  intros A [e R] S T. split.
  - apply elem_of_dom. rewrite transition_dom. by apply elem_of_dom_2 in R.
  - eapply transition_state; [done|exact R|]. unfold role_state in S. rewrite R in S. simpl in S. by rewrite S.
Qed.

Lemma probed_roles o b now h : roles (wait_probed o b now h).2 = roles h.
Proof. destruct o; simpl; [done| |]; by destruct (next_delay b). Qed.

Lemma phase_live l p rs : phase_state l p rs ->
  (forall r, p <> Ended r) -> is_terminal rs = false.
Proof. destruct p as [|[] ?| |[?|[]]|]; simpl; naive_solver. Qed.

Lemma stop_inv now s : is_Some (roles (health s) !! label s) -> is_terminal (reported s) = false ->
  sup_inv (stop now s).
Proof.
  intros I T. destruct (moved (label s) Stopped None id now (health s) (reported s)) as [A B]; [done..|].
  split; [exact A|]. by split.
Qed.

(** Whatever a wait comes back with, the phase and the state still agree. *)
Lemma after_wait_inv now r k s : is_Some (roles (health s) !! label s) ->
  phase_state (label s) (WaitingFor k (AtProbe (backoff (sup_policy s)))) (reported s) ->
  sup_inv (after_wait now r k s).
Proof.
  intros I P. assert (T : is_terminal (reported s) = false) by (eapply phase_live; [exact P|done]).
  destruct r as [w| | |]; simpl.
  - split; [exact I|]. by destruct k.
  - destruct (moved (label s) Reconciling None (set_attempts (fun n => (n + 1) mod 2 ^ 32)) now (health s)
      (reported s)) as [A B]; [done..|].
    destruct k as [[i|]|i]; (split; [exact A|]); unfold reported; simpl; unfold reconciling; rewrite B; auto.
  - by apply stop_inv.
  - split; [exact I|]. destruct k; simpl in *; auto.
Qed.

(** What each event needs and what it does. *)
Lemma sup_step_inv now ev s s' : sup_step now ev s = Some s' ->
  match ev with
  | WorkerReady => phase s = Building /\ s' = with_phase Building (healthy (label s) now (health s)) s
  | WorkerDone (Ok _) => phase s = Building /\ s' = stop now s
  | WorkerDone (Err e) => phase s = Building /\ s' = worker_failed now e s
  | Probed o => exists k b, phase s = WaitingFor k (AtProbe b) /\
      s' = after_wait now (wait_probed o b now (health s)).1 k
             (with_phase (phase s) (wait_probed o b now (health s)).2 s)
  | Slept => exists k b d, phase s = WaitingFor k (AtSleep b d) /\
      s' = after_wait now (wait_slept (Supervisor.is_cancelled s) b) k s
  | CancelSeen => exists k b d, phase s = WaitingFor k (AtSleep b d) /\
      Supervisor.is_cancelled s = true /\ s' = stop now s
  | LookedUp r => exists i, phase s = AskingFor i /\ s' = looked_up now i r s
  | Cancel => s' = mkSup (label s) (sup_policy s) (phase s) (health s) true
  | Elsewhere o => op_label o <> Some (label s) /\ s' = with_phase (phase s) (run_op o (health s)) s
  end.
Proof.
  destruct ev as [|[?|e]|o| | |r| |o]; simpl.
  1-7: destruct (phase s) as [|k [b|b d]|i|r'|] eqn:P; simpl; try done.
  1-3: intros [= <-]; auto.
  - destruct (wait_probed o b now (health s)) as [w h] eqn:W. simpl. intros [= <-]. exists k, b. by rewrite W.
  - intros [= <-]. eauto.
  - destruct (Supervisor.is_cancelled s) eqn:C; [|done]. intros [= <-]. exists k, b, d. auto.
  - intros [= <-]. eauto.
  - by intros [= <-].
  - case_bool_decide; [done|]. intros [= <-]. auto.
Qed.

Lemma after_wait_label now r k s :
  label (after_wait now r k s) = label s /\ sup_policy (after_wait now r k s) = sup_policy s.
Proof. by destruct r, k as [[]|]. Qed.

Lemma sup_step_label now ev s s' : sup_step now ev s = Some s' ->
  label s' = label s /\ sup_policy s' = sup_policy s.
Proof.
  intros R%sup_step_inv. destruct ev as [|[?|e]|o| | |[?|e]| |o]; destruct_and?; destruct_or?;
    repeat match goal with H : exists _, _ |- _ => destruct H as [? H] end; destruct_and?; subst s'; try done;
    unfold worker_failed, looked_up; try (by apply after_wait_label).
  - destruct (match catalog_error e with Some c => _ | None => _ end) as [c|]; [|done].
    exact (after_wait_label _ _ _ _).
  - by destruct (after_wait_label now (wait_probed o x0 now (health s)).1 x
      (with_phase (phase s) (wait_probed o x0 now (health s)).2 s)) as [-> ->].
  - destruct (is_recoverable_transport e); [apply after_wait_label|done].
Qed.

Lemma sup_run_label evs s s' : sup_run evs s = Some s' -> label s' = label s.
Proof.
  revert s. induction evs as [|[t ev] evs IH]; intros s; simpl; [by intros [= <-]|].
  destruct (sup_step t ev s) as [s1|] eqn:S; [|done]. simpl. intros Q. rewrite (IH _ Q).
  by apply sup_step_label in S as [-> _].
Qed.

(** A step by another role: the supervised role's own entry is untouched. *)
Lemma elsewhere_reported o s : op_label o <> Some (label s) ->
  reported (with_phase (phase s) (run_op o (health s)) s) = reported s /\
  roles (run_op o (health s)) !! label s = roles (health s) !! label s.
Proof. intros N. unfold reported, role_state. simpl. by rewrite run_op_other. Qed.

Lemma worker_failed_inv now e s : phase s = Building -> sup_inv s -> sup_inv (worker_failed now e s).
Proof.
  intros P [I V]. unfold worker_failed.
  assert (T : is_terminal (reported s) = false) by (eapply phase_live; [exact V|by rewrite P]).
  destruct (match catalog_error e with Some c => _ | None => _ end) as [c|] eqn:R.
  - destruct (moved (label s) Degraded (Some c) id now (health s) (reported s)) as [A B]; [done..|].
    apply after_wait_inv; [exact A|]. simpl. exact B.
  - destruct (moved (label s) Failed (class <$> catalog_error e) id now (health s) (reported s)) as [A B]; [done..|].
    split; [exact A|]. simpl. split_and!; [exact B|done|]. unfold permanent.
    destruct (catalog_error e) as [c|]; [|done]. by destruct (is_recoverable_transport c).
Qed.

Lemma looked_up_inv now i r s : phase s = AskingFor i -> sup_inv s -> sup_inv (looked_up now i r s).
Proof.
  intros P [I V]. rewrite P in V. simpl in V.
  assert (T : is_terminal (reported s) = false) by (by rewrite V).
  unfold looked_up. destruct r as [a|e].
  - split; [exact I|]. simpl. auto.
  - destruct (is_recoverable_transport e) eqn:R.
    + by apply after_wait_inv.
    + destruct (moved (label s) Failed (Some (class e)) id now (health s) (reported s)) as [A B]; [done..|].
      split; [exact A|]. simpl. auto.
Qed.

Lemma sup_step_keeps now ev s s' : sup_inv s -> sup_step now ev s = Some s' -> sup_inv s'.
Proof.
  intros V R%sup_step_inv. pose proof V as [I P]. destruct ev as [|[?|e]|o| | |r| |o].
  - destruct R as [Q ->]. rewrite Q in P. destruct (moved (label s) Healthy None (set_attempts (fun _ => 0)) now
      (health s) (reported s)) as [A B]; [done..|by destruct P as [->|[->| ->]]|].
    split; [exact A|]. simpl. right. left. exact B.
  - destruct R as [Q ->]. apply stop_inv; [done|]. rewrite Q in P. by destruct P as [->|[->| ->]].
  - destruct R as [Q ->]. by apply worker_failed_inv.
  - destruct R as (k & b & Q & ->). rewrite Q in P.
    apply after_wait_inv; unfold reported, role_state in *; simpl; by rewrite probed_roles.
  - destruct R as (k & b & d & Q & ->). rewrite Q in P. by apply after_wait_inv.
  - destruct R as (k & b & d & Q & C & ->). apply stop_inv; [done|]. eapply phase_live; [exact P|by rewrite Q].
  - destruct R as (i & Q & ->). by apply looked_up_inv.
  - subst s'. exact V.
  - destruct R as [N ->]. destruct (elsewhere_reported o s N) as [A B]. split; simpl; [by rewrite B|by rewrite A].
Qed.

Lemma sup_run_keeps evs s s' : sup_inv s -> sup_run evs s = Some s' -> sup_inv s'.
Proof.
  revert s. induction evs as [|[now ev] evs IH]; intros s V; simpl; [by intros [= <-]|].
  destruct (sup_step now ev s) as [s1|] eqn:S; simpl; [|done]. eauto using sup_step_keeps.
Qed.

(** A role as its process starts it. *)
Definition fresh (role : Role) (h : HealthRegistry) : Prop :=
  exists e, roles h !! role_label role = Some e /\ state e = Starting.

Lemma fresh_inv role policy h : fresh role h -> sup_inv (supervise_role (E := E) role policy h).
Proof.
  intros (e & R & S). split; simpl; [by rewrite R|]. left. unfold reported, role_state. simpl. by rewrite R.
Qed.

(** ** Health is the worker's own word *)

Definition not_done (te : Z * Event E) : Prop := match te.2 with WorkerDone _ => False | _ => True end.

(** The worker said it was ready, and has not ended since. *)
Definition vouched (evs : list (Z * Event E)) : Prop :=
  exists pre t post, evs = pre ++ (t, WorkerReady) :: post /\ Forall not_done post.

Lemma vouched_snoc evs te : vouched evs -> not_done te -> vouched (evs ++ [te]).
Proof.
  intros (pre & t & post & -> & F) N. exists pre, t, (post ++ [te]). rewrite <-app_assoc.
  split; [done|]. apply Forall_app. auto.
Qed.

(** Nothing a wait comes back with is health. *)
Lemma after_wait_unhealthy now r k s : is_Some (roles (health s) !! label s) ->
  phase_state (label s) (WaitingFor k (AtProbe (backoff (sup_policy s)))) (reported s) ->
  reported (after_wait now r k s) <> Healthy.
Proof.
  intros I P. destruct (after_wait_inv now r k s I P) as [_ V].
  assert (N : reported s <> Healthy) by (destruct k; simpl in P; congruence).
  assert (T : is_terminal (reported s) = false) by (eapply phase_live; [exact P|done]).
  destruct r as [w| | |]; simpl; try done.
  - destruct (moved (label s) Reconciling None (set_attempts (fun n => (n + 1) mod 2 ^ 32)) now (health s)
      (reported s)) as [_ B]; [done..|].
    destruct k as [[i|]|i]; unfold reported; simpl; unfold reconciling; by rewrite B.
  - destruct V as [V _]. change (reported (after_wait now Shutdown k s) <> Healthy). by rewrite V.
Qed.

Lemma worker_failed_unhealthy now e s : phase s = Building -> sup_inv s ->
  reported (worker_failed now e s) <> Healthy.
Proof.
  intros P V. pose proof V as [I Q]. unfold worker_failed.
  assert (T : is_terminal (reported s) = false) by (eapply phase_live; [exact Q|by rewrite P]).
  destruct (match catalog_error e with Some c => _ | None => _ end) as [c|].
  - destruct (moved (label s) Degraded (Some c) id now (health s) (reported s)) as [A B]; [done..|].
    apply after_wait_unhealthy; [exact A|]. exact B.
  - destruct (moved (label s) Failed (class <$> catalog_error e) id now (health s) (reported s)) as [A B]; [done..|].
    unfold reported. simpl. unfold failed. by rewrite B.
Qed.

Lemma sup_step_vouched now ev s s' evs : sup_inv s -> (reported s = Healthy -> vouched evs) ->
  sup_step now ev s = Some s' -> reported s' = Healthy -> vouched (evs ++ [(now, ev)]).
Proof.
  intros V G R%sup_step_inv H. pose proof V as [I P]. destruct ev as [|[?|e]|o| | |r| |o].
  - exists evs, now, []. auto.
  - destruct R as [Q ->]. destruct (stop_inv now s) as [_ W]; [done|by eapply phase_live; [exact P|rewrite Q]|].
    destruct W as [W _]. by rewrite W in H.
  - destruct R as [Q ->]. by apply worker_failed_unhealthy in H.
  - destruct R as (k & b & Q & ->). rewrite Q in P. apply after_wait_unhealthy in H;
      [done|..]; unfold reported, role_state in *; simpl; by rewrite probed_roles.
  - destruct R as (k & b & d & Q & ->). rewrite Q in P. by apply after_wait_unhealthy in H.
  - destruct R as (k & b & d & Q & C & ->). rewrite Q in P.
    destruct (stop_inv now s) as [_ [W _]]; [done|by eapply phase_live; [exact P|]|]. by rewrite W in H.
  - destruct R as (i & Q & ->). rewrite Q in P. destruct r as [a|e]; simpl in H.
    + unfold reported in *. simpl in *. congruence.
    + destruct (is_recoverable_transport e); [by apply after_wait_unhealthy in H|].
      destruct (moved (label s) Failed (Some (class e)) id now (health s) (reported s)) as [_ B]; [done..|by rewrite P|].
      unfold reported in H. simpl in H. unfold failed in H. by rewrite B in H.
  - subst s'. by apply vouched_snoc; [apply G|].
  - destruct R as [N ->]. destruct (elsewhere_reported o s N) as [A _]. rewrite A in H.
    by apply vouched_snoc; [apply G|].
Qed.

Lemma run_snoc_ind (Q : list (Z * Event E) -> Sup E -> Prop) s0 :
  Q [] s0 ->
  (forall evs now ev s s', sup_run evs s0 = Some s -> Q evs s -> sup_step now ev s = Some s' ->
     Q (evs ++ [(now, ev)]) s') ->
  forall evs s, sup_run evs s0 = Some s -> Q evs s.
Proof.
  intros Q0 QS evs. induction evs as [|[now ev] evs IH] using rev_ind; intros s R.
  - by injection R as <-.
  - rewrite sup_run_app in R. apply bind_Some in R as (s1 & R1 & R2). simpl in R2.
    apply bind_Some in R2 as (s2 & R2 & [= <-]). eauto.
Qed.

(** A role reports itself healthy only on its own worker's word, given
    since the worker was last rebuilt: no probe, no recovered outage, no
    reconciled operation and no other role ever makes it healthy. *)
Theorem healthy_only_by_its_worker role policy h evs s :
  fresh role h -> sup_run evs (supervise_role role policy h) = Some s ->
  role_state (role_label role) (health s) = Healthy ->
  phase s = Building /\ vouched evs.
Proof.
  intros F R H.
  assert (L : sup_inv s /\ label s = role_label role /\ (reported s = Healthy -> vouched evs)).
  { apply (run_snoc_ind (fun evs s => sup_inv s /\ label s = role_label role /\ (reported s = Healthy -> vouched evs))
      (supervise_role role policy h)); [|..|done].
    - split_and!; [by apply fresh_inv|done|]. destruct F as (e & E1 & E2). unfold reported, role_state. simpl.
      rewrite E1. simpl. by rewrite E2.
    - intros evs1 now ev s1 s2 _ (V & L & G) S. destruct (sup_step_label _ _ _ _ S) as [-> _].
      split_and!; [by eapply sup_step_keeps|done|]. by eapply sup_step_vouched. }
  destruct L as ((_ & V) & L & G). rewrite <-L in H. split; [|by apply G].
  unfold reported in V. rewrite H in V. destruct (phase s) as [|[] ?| |[?|[]]|]; simpl in V; naive_solver.
Qed.

(** ** No rebuild past an open question *)

(** The wait or the lookup a role is in, and the operation it must learn the
    outcome of before it rebuilds. *)
Definition owes (q : option Operation.OperationIdentity) s : Prop :=
  match phase s with
  | WaitingFor (AfterFailure q') _ => q' = q
  | WaitingFor (AfterLookup i) _ | AskingFor i => q = Some i
  | _ => False
  end.

(** [evs], run from [s], holds an event of the kind [f] while the role is in a
    phase of the kind [g]. *)
Definition passed (f : Event E -> Prop) (g : Phase E -> Prop) (evs : list (Z * Event E)) s : Prop :=
  exists pre t ev post s1, evs = pre ++ (t, ev) :: post /\ sup_run pre s = Some s1 /\ f ev /\ g (phase s1).

Lemma passed_now f g now ev evs s : f ev -> g (phase s) -> passed f g ((now, ev) :: evs) s.
Proof. intros F G. by exists [], now, ev, evs, s. Qed.

Lemma passed_later f g now ev evs s s1 : sup_step now ev s = Some s1 -> passed f g evs s1 ->
  passed f g ((now, ev) :: evs) s.
Proof.
  intros S (pre & t & ev' & post & s2 & -> & R & F & G).
  exists ((now, ev) :: pre), t, ev', post, s2. split_and!; try done. simpl. by rewrite S.
Qed.

Definition answered (ev : Event E) : Prop := ev = Probed Answered.
Definition told (ev : Event E) : Prop := exists a, ev = LookedUp (Ok a).
Definition waiting (p : Phase E) : Prop := match p with WaitingFor _ _ => True | _ => False end.

Lemma after_wait_owes now r k s q :
  match k with AfterFailure q' => q' = q | AfterLookup i => q = Some i end ->
  (r = Reached /\ q = None /\ phase (after_wait now r k s) = Building) \/
  owes q (after_wait now r k s) \/ (exists e, phase (after_wait now r k s) = Ended e) \/
  phase (after_wait now r k s) = Crashed.
Proof. unfold owes. destruct r, k as [[i|]|i]; simpl; intros K; subst; eauto 6. Qed.

Lemma stays_out evs s s' : (exists e, phase s = Ended e) \/ phase s = Crashed ->
  sup_run evs s = Some s' -> phase s' = phase s.
Proof.
  revert s. induction evs as [|[now ev] evs IH]; intros s P; simpl; [by intros [= <-]|].
  destruct (sup_step now ev s) as [s1|] eqn:S; simpl; [|done]. apply sup_step_inv in S.
  assert (phase s1 = phase s) as Q.
  { destruct P as [[e P]|P], ev as [|[?|?]|o| | |r| |o]; try (by subst s1); destruct_and?; subst; try done;
      repeat match goal with H : exists _, _ |- _ => destruct H as [? H] end; destruct_and?; congruence. }
  intros R. apply IH in R; rewrite ?Q in *; done.
Qed.

Lemma probed_reached o b now h : (wait_probed o b now h).1 = Reached -> o = Answered.
Proof. unfold wait_probed. destruct o; [done|..]; by destruct (next_delay b) as [[d|] b']. Qed.

Lemma top_not_reached c b : wait_top c b <> Reached.
Proof. by destruct c. Qed.

Lemma after_wait_stays now r k s : r <> Reached ->
  waiting (phase (after_wait now r k s)) \/
  (exists e, phase (after_wait now r k s) = Ended e) \/ phase (after_wait now r k s) = Crashed.
Proof. destruct r; simpl; eauto; done. Qed.

Lemma wait_is_answered evs s s' : waiting (phase s) -> sup_run evs s = Some s' -> phase s' = Building ->
  passed answered waiting evs s.
Proof.
  revert s. induction evs as [|[now ev] evs IH]; intros s O.
  { simpl. intros [= ->] P. by rewrite P in O. }
  simpl. destruct (sup_step now ev s) as [s1|] eqn:S; [|done]. simpl. intros R P.
  assert (Next : waiting (phase s1) \/ (exists e, phase s1 = Ended e) \/ phase s1 = Crashed ->
    passed answered waiting ((now, ev) :: evs) s).
  { intros [O1|X]; [by eapply passed_later; [exact S|apply IH]|].
    apply stays_out in R; [|done]. rewrite P in R. destruct X as [[e X]|X]; congruence. }
  apply sup_step_inv in S.
  destruct ev as [|[?|e]|o| | |r| |o]; try (destruct S as [Q _]; by rewrite Q in O).
  - destruct S as (k & b & Q & ->). assert (o = Answered \/ o <> Answered) as [->|N] by (destruct o; auto).
    + apply passed_now; [done|by rewrite Q].
    + apply Next, after_wait_stays. by intros ?%probed_reached.
  - destruct S as (k & b & d & Q & ->). apply Next, after_wait_stays, top_not_reached.
  - destruct S as (k & b & d & Q & C & ->). apply Next. simpl. eauto.
  - destruct S as (i & Q & ->). by rewrite Q in O.
  - subst s1. by apply Next; left.
  - destruct S as [N ->]. by apply Next; left.
Qed.

Lemma debt_is_paid q evs s s' : owes q s -> sup_run evs s = Some s' -> phase s' = Building ->
  match q with
  | Some i => passed told (fun p => p = AskingFor i) evs s
  | None => passed answered waiting evs s
  end.
Proof.
  revert s. induction evs as [|[now ev] evs IH]; intros s O.
  { simpl. intros [= ->] P. unfold owes in O. by rewrite P in O. }
  simpl. destruct (sup_step now ev s) as [s1|] eqn:S; [|done]. simpl. intros R P.
  assert (Later : owes q s1 -> match q with Some i => passed told (fun p => p = AskingFor i) ((now, ev) :: evs) s
                               | None => passed answered waiting ((now, ev) :: evs) s end).
  { intros O1. specialize (IH _ O1 R P). destruct q; by eapply passed_later. }
  assert (Out : (exists e, phase s1 = Ended e) \/ phase s1 = Crashed -> False).
  { intros X. apply stays_out in R; [|done]. rewrite P in R. destruct X as [[e X]|X]; congruence. }
  apply sup_step_inv in S. unfold owes in O.
  destruct ev as [|[?|e]|o| | |r| |o]; try (destruct S as [Q _]; by rewrite Q in O).
  - destruct S as (k & b & Q & ->). rewrite Q in O.
    edestruct (after_wait_owes now (wait_probed o b now (health s)).1 k) as [(W & -> & B)|[X|X]];
      [destruct k; exact O| |by apply Later|by apply Out in X].
    apply probed_reached in W as ->. apply passed_now; [done|by rewrite Q].
  - destruct S as (k & b & d & Q & ->). rewrite Q in O.
    edestruct (after_wait_owes now (wait_slept (Supervisor.is_cancelled s) b) k s q) as [(W & _)|[X|X]];
      [destruct k; exact O| |by apply Later|by apply Out in X].
    by apply top_not_reached in W.
  - destruct S as (k & b & d & Q & C & ->). destruct Out. simpl. eauto.
  - destruct S as (i & Q & ->). rewrite Q in O. subst q. destruct r as [a|e].
    + apply passed_now; [by exists a|done].
    + simpl in *. destruct (is_recoverable_transport e); [|destruct Out; simpl; eauto].
      edestruct (after_wait_owes now (wait_for_catalog (Supervisor.is_cancelled s) (sup_policy s)) (AfterLookup i) s
        (Some i)) as [(_ & W & _)|[X|X]]; [done|done|by apply Later|by apply Out in X].
  - subst s1. by apply Later.
  - destruct S as [N ->]. by apply Later.
Qed.

(** C25: After a worker dies on a recoverable catalog failure, its role rebuilds
    only once a probe has been answered; and if the worker died not knowing
    whether its commit landed, only once the catalog has answered for that very
    operation, however often the outage comes back in between. *)
Theorem no_rebuild_past_an_open_question now e s s1 evs s2 :
  sup_step now (WorkerDone (Err e)) s = Some s1 ->
  sup_run evs s1 = Some s2 -> phase s2 = Building ->
  permanent e = false /\ passed answered waiting evs s1 /\
  forall identity, ambiguous_operation e = Some identity ->
    passed told (fun p => p = AskingFor identity) evs s1.
Proof.
  intros (P0 & S)%sup_step_inv R P. unfold worker_failed in S.
  destruct (match catalog_error e with Some c => _ | None => _ end) as [c|] eqn:C.
  - assert (W : waiting (phase s1) /\ owes (ambiguous_operation e) s1).
    { destruct (wait_for_catalog (Supervisor.is_cancelled s) (sup_policy s)) as [w| | |] eqn:W; subst s1; try done.
      - by apply top_not_reached in W.
      - apply stays_out in R; [by rewrite P in R|]. left. by eexists.
      - unfold wait_for_catalog, wait_top in W. by destruct (Supervisor.is_cancelled s). }
    destruct W as [W O]. split_and!.
    + unfold permanent. destruct (catalog_error e) as [x|]; [|done]. by destruct (is_recoverable_transport x).
    + by eapply wait_is_answered.
    + intros i A. rewrite A in O. by eapply (debt_is_paid (Some i)).
  - subst s1. apply stays_out in R; [by rewrite P in R|]. left. by eexists.
Qed.

(** A supervised role's end is final and is the end its health reports: a
    clean stop leaves it stopped, a permanent worker error or an irreconcilable
    operation leaves it failed, only those two end it with an error, and
    whatever any other role or a late call does afterwards changes neither. *)
Theorem supervision_ends_as_reported role policy h evs s r later s' :
  fresh role h -> sup_run evs (supervise_role role policy h) = Some s -> phase s = Ended r ->
  sup_run later s = Some s' ->
  phase s' = Ended r /\
  role_state (role_label role) (health s) = role_state (role_label role) (health s') /\
  match r with
  | Ok l => l = role_label role /\ role_state l (health s) = Stopped
  | Err (WorkerFailed e l) => l = role_label role /\ role_state l (health s) = Failed /\ permanent e = true
  | Err (ReconciliationFailed e l) =>
      l = role_label role /\ role_state l (health s) = Failed /\ is_recoverable_transport e = false
  end.
Proof.
  intros F R P L. assert (V : sup_inv s) by (eapply sup_run_keeps; [by eapply fresh_inv|exact R]).
  pose proof (sup_run_label _ _ _ R) as L1. pose proof (sup_run_label _ _ _ L) as L2. simpl in L1.
  assert (P' : phase s' = Ended r) by (rewrite <-P; eapply stays_out; [by left; eexists|exact L]).
  assert (V' : sup_inv s') by by eapply sup_run_keeps.
  destruct V as [_ V], V' as [_ V']. rewrite P in V. rewrite P' in V'. unfold reported in V, V'.
  rewrite L2, L1 in V'. rewrite L1 in V. split; [done|]. destruct r as [l|[e l|e l]]; simpl in V, V'; naive_solver congruence.
Qed.

End role.
(** ** A run: the acknowledgement of a commit is lost in a failover *)

Definition ident : Operation.OperationIdentity := Operation.mkIdentity 1 "mv:1:1" [7].
Definition lost : CatalogError := AmbiguousMutation ident "mv:1:1" Io.
Definition registry : HealthRegistry := new 0 [Compactor; Query].
Definition sup0 : Sup CatalogError := supervise_role Compactor default_policy registry.

Definition outage : list (Z * Event CatalogError) :=
  [(3, Probed Elapsed); (4, Elsewhere (OpHealthy "query" 4)); (5, Slept); (6, Probed Answered);
   (7, LookedUp (Err (Db PoolTimedOut))); (8, Probed (Refused (Db Io))); (9, Slept); (10, Probed Answered);
   (11, LookedUp (Ok (Commit.LookupCommitted 41)))].

Definition working : Sup CatalogError :=
  default sup0 (sup_run [(1, WorkerReady)] sup0).
Definition degraded_sup : Sup CatalogError := default sup0 (sup_step 2 (WorkerDone (Err lost)) working).
Definition rebuilt : Sup CatalogError := default sup0 (sup_run outage degraded_sup).

Lemma degraded_eq : sup_step 2 (WorkerDone (Err lost)) working = Some degraded_sup.
Proof. vm_compute. reflexivity. Qed.

Lemma rebuilt_eq : sup_run outage degraded_sup = Some rebuilt.
Proof. vm_compute. reflexivity. Qed.

Lemma no_rebuild_past_an_open_question_witness :
  permanent lost = false /\ passed answered waiting outage degraded_sup /\
  passed told (fun p => p = AskingFor ident) outage degraded_sup.
Proof.
  destruct (no_rebuild_past_an_open_question 2 lost working degraded_sup outage rebuilt degraded_eq rebuilt_eq
    ltac:(vm_compute; reflexivity)) as (A & B & C).
  split_and!; [exact A|exact B|]. apply C. reflexivity.
Defined.

Lemma fresh_registry : fresh Compactor registry.
Proof. eexists. split; vm_compute; reflexivity. Qed.

Definition healthy_run : list (Z * Event CatalogError) :=
  (1, WorkerReady) :: (2, WorkerDone (Err lost)) :: outage ++ [(12, WorkerReady); (13, Elsewhere OpUnavailable)].
Definition healthy_again : Sup CatalogError := default sup0 (sup_run healthy_run sup0).

Lemma healthy_again_eq : sup_run healthy_run sup0 = Some healthy_again.
Proof. vm_compute. reflexivity. Qed.

Lemma healthy_only_by_its_worker_witness : phase healthy_again = Building /\ vouched healthy_run.
Proof.
  exact (healthy_only_by_its_worker Compactor default_policy registry healthy_run healthy_again fresh_registry
    healthy_again_eq ltac:(vm_compute; reflexivity)).
Defined.

(** The rebuilt worker meets a permanent error; a late probe and another role go on. *)
Definition collided : CatalogError := OperationKeyCollision "mv:1:1".
Definition failed_sup : Sup CatalogError :=
  default sup0 (sup_run [(1, WorkerReady); (2, WorkerDone (Err collided))] sup0).
Definition late : list (Z * Event CatalogError) := [(3, Elsewhere OpUnavailable); (4, Cancel); (5, Elsewhere (OpStopped "query" 5))].
Definition after_all : Sup CatalogError := default sup0 (sup_run late failed_sup).

Lemma failed_sup_eq : sup_run [(1, WorkerReady); (2, WorkerDone (Err collided))] sup0 = Some failed_sup.
Proof. vm_compute. reflexivity. Qed.

Lemma after_all_eq : sup_run late failed_sup = Some after_all.
Proof. vm_compute. reflexivity. Qed.

Lemma supervision_ends_as_reported_witness :
  phase after_all = Ended (Err (WorkerFailed collided "compactor")) /\
  role_state "compactor" (health failed_sup) = role_state "compactor" (health after_all) /\
  role_state "compactor" (health failed_sup) = Failed.
Proof.
  destruct (supervision_ends_as_reported Compactor default_policy registry
    [(1, WorkerReady); (2, WorkerDone (Err collided))] failed_sup (Err (WorkerFailed collided "compactor")) late after_all
    fresh_registry failed_sup_eq ltac:(vm_compute; reflexivity) after_all_eq) as (A & B & (_ & C & _)).
  split_and!; [exact A|exact B|exact C].
Defined.

End SupervisorSpec.
