(* ===== verification/Query.v ===== *)
(** * The table provider (crates/ukiel-query/src: provider.rs, view_types.rs, context.rs)

    How a SQL scan of a table becomes a physical plan: which live parts and row
    groups it opens, what it reads of them, the isolation filter, the final
    projection. The catalog's listing is the class [PartListing]; DataFusion's
    expressions and plans are data the code takes apart or builds, and compiling
    an alias is Expr.v's. *)

From S2P Require Import Prelude Bytes Json Types Arrow Schema Stats CatalogError CatalogDb Tables Expr.
Import CatalogError CatalogDb.

(** What the provider asks of the catalog: [live_parts_pruned]. *)
Class PartListing :=
  live_parts_pruned : HypertableId -> option Z -> list ColumnRange -> result (list Part) CatalogError.

Module Query.

(** ** view_types.rs *)

Definition view_typed (schema : ArrowSchema) : ArrowSchema :=
  List.map (fun f => match f_type f with
                     | Utf8 => mkField (f_name f) Utf8View (f_nullable f) (f_metadata f)
                     | _ => f
                     end) schema.

(** ** Ranges of pushed-down filters *)

(** [Operator], by the ones the code tells apart. *)
Inductive Operator := OpEq | OpGt | OpGtEq | OpLt | OpLtEq | OpOther (symbol : string).

(** [Expr], by the shapes the code tells apart: a column, a non-null [Int64]
    literal, a binary expression, any other. *)
Inductive DfExpr :=
| Column (name : string)
| LitInt64 (v : Z)
| BinaryExpr (left : DfExpr) (op : Operator) (right : DfExpr)
| OtherExpr (sql : string).

Abbreviation Bounds := (gmap string (option Z * option Z)).

(** [m.map_or(v, |m| m.max(v))] and its dual. *)
Definition tighten_min (m : option Z) (v : Z) : option Z := Some (match m with Some m => Z.max m v | None => v end).
Definition tighten_max (m : option Z) (v : Z) : option Z := Some (match m with Some m => Z.min m v | None => v end).

(** One entry under one comparison; [value + 1] and [value - 1] on [i64]. *)
Definition tighten (entry : option Z * option Z) (op : Operator) (value : Z) : option Z * option Z :=
  match op with
  | OpEq => (tighten_min entry.1 value, tighten_max entry.2 value)
  | OpGt => (tighten_min entry.1 (wrap_i64 (value + 1)), entry.2)
  | OpGtEq => (tighten_min entry.1 value, entry.2)
  | OpLt => (entry.1, tighten_max entry.2 (wrap_i64 (value - 1)))
  | OpLtEq => (entry.1, tighten_max entry.2 value)
  | OpOther _ => entry
  end.

(** The closure [apply]. *)
Definition apply_bound (schema : ArrowSchema) (bounds : Bounds) (name : string) (op : Operator) (value : Z) : Bounds :=
  match index_of schema name ≫= (fun j => (schema : list Field) !! j) with
  | None => bounds
  | Some field =>
      if bool_decide (f_type field = Int64)
      then <[name := tighten (default (None, None) (bounds !! name)) op value]> bounds
      else bounds
  end.

Definition mirrored (op : Operator) : Operator :=
  match op with OpLt => OpGt | OpLtEq => OpGtEq | OpGt => OpLt | OpGtEq => OpLtEq | other => other end.

(** A filter comparing a column with a literal, the column on the left. *)
Definition comparison (filter : DfExpr) : option (string * Operator * Z) :=
  match filter with
  | BinaryExpr (Column c) op (LitInt64 v) => Some (c, op, v)
  | BinaryExpr (LitInt64 v) op (Column c) => Some (c, mirrored op, v)
  | _ => None
  end.

Definition apply_filter (schema : ArrowSchema) (bounds : Bounds) (filter : DfExpr) : Bounds :=
  match comparison filter with
  | Some (c, op, v) => apply_bound schema bounds c op v
  | None => bounds
  end.

(** The order of a [HashMap]'s entries is unspecified; theirs is a conjunction. *)
Definition extract_int64_ranges (filters : list DfExpr) (schema : ArrowSchema) : list ColumnRange :=
  List.map (fun e => mkColumnRange e.1 e.2.1 e.2.2)
    (map_to_list (List.fold_left (apply_filter schema) filters (∅ : Bounds))).

(** ** The key index of a part *)

Section index.
Context (tm_deserialize : list Z -> option (gset Z)) (b64_decode : string -> option (list Z)).

Definition part_excludes_key (part : Part) (key : Z) : bool :=
  let present :=
    stats ← column_stats (meta part);
    v ← jget stats Stats.PACKING_KEYS_STAT;
    encoded ← as_str v;
    Stats.bitmap_contains tm_deserialize b64_decode encoded key in
  match present with Some present => negb present | None => false end.
End index.

(** [ParquetAccessPlan]: of every row group, whether it is scanned. *)
Definition ParquetAccessPlan := list bool.

(** [span.get(i).and_then(as_i64)]. *)
Definition span_bound (span : json) (i : nat) : option Z :=
  items ← as_array span; v ← items !! i; as_i64 v.

(** Whether the group of one span is scanned; a malformed span decides nothing. *)
Definition scans_span (key : Z) (span : json) : option bool :=
  lo ← span_bound span 0; hi ← span_bound span 1; Some (negb ((key <? lo) || (hi <? key))).

Definition access_plan_for (part : Part) (key : Z) : option ParquetAccessPlan :=
  stats ← column_stats (meta part);
  v ← jget stats Stats.KEY_ROW_GROUPS_STAT;
  spans ← as_array v;
  match spans with
  | [] => None
  | _ =>
      plan ← mapM (scans_span key) spans;
      if List.existsb negb plan then Some plan else None
  end.

(** [plan.row_group_indexes().is_empty()]. *)
Definition scans_nothing (plan : ParquetAccessPlan) : bool := negb (List.existsb id plan).

(** ** The physical plan *)

Inductive ScanError :=
| ExtCatalog (e : CatalogError)
| ExtExpr (e : Expr.ExprError)
| SchemaErr (column : string)
| OutOfRange (index : nat).   (* a panic *)

Record PartitionedFile := mkFile {
  pf_path : string;
  pf_size : Z;
  pf_plan : option ParquetAccessPlan;
}.

(** [col(name) = lit(key)], the column by its index. *)
Record KeyPredicate := mkKeyPredicate { kp_column : nat; kp_key : Z }.

Record FileScanConfig := mkScan {
  file_schema : ArrowSchema;
  file_groups : list (list PartitionedFile);
  projection : list nat;
  predicate : option KeyPredicate;
  output_ordering : option (list nat);
}.

Record UkielTableProvider := mkProvider {
  hypertable : Hypertable;
  pv_physical : ArrowSchema;
  pv_query : ArrowSchema;
  columns : Schema.TableColumns;
  slice : option Z;
}.

Section provider.
Context `{DF : Expr.DataFusionOps}.
Context (tm_deserialize : list Z -> option (gset Z)) (b64_decode : string -> option (list Z)).

Inductive PhysicalExpr :=
| ColumnRef (index : nat)
| AliasExpr (compiled : Expr.Compiled).

Inductive ExecutionPlan :=
| DataSourceExec (config : FileScanConfig)
| FilterExec (p : KeyPredicate) (input : ExecutionPlan)
| ProjectionExec (exprs : list (PhysicalExpr * string)) (input : ExecutionPlan)
| GlobalLimitExec (skip : nat) (fetch : option nat) (input : ExecutionPlan).

Definition try_new (hypertable : Hypertable) (slice : option Z) : result UkielTableProvider Schema.SchemaError :=
  let? columns := Schema.parse (table_schema hypertable) in
  Ok (mkProvider hypertable (view_typed (Schema.physical_schema columns))
        (view_typed (Schema.query_schema columns)) columns slice).

Definition col (schema : ArrowSchema) (name : string) : result nat ScanError :=
  ok_or (index_of schema name) (SchemaErr name).

(** One round of the loop over the listed parts. *)
Definition file_of_part (slice : option Z) (p : Part) : option PartitionedFile :=
  let file := mkFile (path (meta p)) (size_bytes (meta p) mod 2 ^ 64) in
  match slice with
  | None => Some (file None)
  | Some key =>
      if part_excludes_key tm_deserialize b64_decode p key then None
      else match access_plan_for p key with
           | Some plan => if scans_nothing plan then None else Some (file (Some plan))
           | None => Some (file None)
           end
  end.

(** What one requested column needs of the files. *)
Definition needs (provider : UkielTableProvider) (i : nat) : result (list string) ScanError :=
  let? spec := ok_or (Schema.specs (columns provider) !! i) (OutOfRange i) in
  match Schema.column_kind spec with
  | Schema.Alias sql => map_err ExtExpr (Expr.column_refs sql (pv_physical provider))
  | _ => Ok [Schema.name spec]
  end.

Definition project (schema : ArrowSchema) (indices : list nat) : ArrowSchema :=
  omap (fun i => (schema : list Field) !! i) indices.

(** The requested sort order, up to the first column the files lack. *)
Fixpoint ordering_prefix (schema : ArrowSchema) (names : list string) : list nat :=
  match names with
  | [] => []
  | name :: names =>
      match index_of schema name with
      | Some i => i :: ordering_prefix schema names
      | None => []
      end
  end.

Definition output_expr (provider : UkielTableProvider) (scanned : ArrowSchema) (i : nat)
  : result (PhysicalExpr * string) ScanError :=
  let? field := ok_or (pv_query provider !! i) (OutOfRange i) in
  let? spec := ok_or (Schema.specs (columns provider) !! i) (OutOfRange i) in
  let? expr :=
    match Schema.column_kind spec with
    | Schema.Alias sql => let? c := map_err ExtExpr (Expr.compile_for_field sql scanned field) in Ok (AliasExpr c)
    | _ => let? j := col scanned (f_name field) in Ok (ColumnRef j)
    end in
  Ok (expr, f_name field).

Definition key_predicate (provider : UkielTableProvider) (schema : ArrowSchema) : result (option KeyPredicate) ScanError :=
  match slice provider with
  | None => Ok None
  | Some key => let? j := col schema (packing_key (hypertable provider)) in Ok (Some (mkKeyPredicate j key))
  end.

(** [sort_unstable] then [dedup]. *)
Definition sort_dedup (l : list nat) : list nat := remove_dups (merge_sort Nat.le l).

Definition scan `{PartListing} (provider : UkielTableProvider) (requested : option (list nat))
    (filters : list DfExpr) (limit : option nat) : result ExecutionPlan ScanError :=
  let physical := pv_physical provider in
  let ranges := extract_int64_ranges filters physical in
  let? parts := map_err ExtCatalog (live_parts_pruned (ht_id (hypertable provider)) (slice provider) ranges) in
  let files := omap (file_of_part (slice provider)) parts in
  let indices := default (seq 0 (length (pv_query provider))) requested in
  let? refs := mapr (needs provider) indices in
  let needed := (match slice provider with Some _ => [packing_key (hypertable provider)] | None => [] end) ++ concat refs in
  let? positions := mapr (col physical) needed in
  let scan_projection := sort_dedup positions in
  let scanned := project physical scan_projection in
  let? pushdown := key_predicate provider physical in
  let ordering :=
    match pushdown, ordering_prefix physical (sort_key (hypertable provider)) with
    | None, _ | _, [] => None
    | Some _, order => Some order
    end in
  let scan := DataSourceExec (mkScan physical (List.map (fun f => [f]) files) scan_projection pushdown ordering) in
  let? isolation := key_predicate provider scanned in
  let filtered := match isolation with Some p => FilterExec p scan | None => scan end in
  let? exprs := mapr (output_expr provider scanned) indices in
  let plan := ProjectionExec exprs filtered in
  Ok (match limit with Some n => GlobalLimitExec 0 (Some n) plan | None => plan end).

End provider.

(** ** context.rs *)

(** [UkielSchemaProvider::table], over what its two calls of the catalog see. *)
Definition table (namespace : NamespaceId) (name : string) (t t' : Tables)
  : result (option UkielTableProvider) (CatalogError + Schema.SchemaError) :=
  match Registry.get_logical_table namespace name t with
  | Err (NotFound _) => Ok None
  | Err e => Err (inl e)
  | Ok logical =>
      let? hypertable := map_err inl (Registry.get_hypertable_by_id (lt_hypertable_id logical) t') in
      let? provider := map_err inr (try_new hypertable (Some namespace)) in
      Ok (Some provider)
  end.

Definition table_exist (table_names : list string) (name : string) : bool :=
  List.existsb (fun n => String.eqb n name) table_names.

(** The names [session_for_namespace] gives its schema provider. *)
Definition session_for_namespace (namespace : NamespaceId) (t : Tables) : list string :=
  List.map lt_name (Registry.list_logical_tables namespace t).

(** [operator_session]: every hypertable, unscoped. *)
Definition operator_session (t : Tables) : result (list (string * UkielTableProvider)) Schema.SchemaError :=
  mapr (fun h => let? provider := try_new h None in Ok (ht_name h, provider)) (Registry.list_hypertables t).

End Query.
