(* ===== verification/QuerySpec.v ===== *)
(** * What a scan answers (theorems about [Query] and its catalog)

    A physical plan read as DataFusion runs it -- the reader may apply the
    pushed-down predicates exactly, in part or not at all; row order is free --
    and two facts of every plan the provider builds: a namespace sees its own
    rows only, and reading the pruned parts and row groups answers what reading
    every live part would ([QueryTheorems]). *)

From S2P Require Import Prelude Bytes Json Types KeyFilter Arrow Schema Stats CatalogError CatalogDb Commit CommitSpec Feed Parts Pruning Tables Batches Expr PartRead Query.
Import CatalogError CatalogDb Commit CommitSpec CommitTheorems Feed Parts Pruning Batches Query.

Module QuerySpec.

Abbreviation Row := (list Cell).

(** ** Rows of stored files *)

(** A row group as the reader serves it under the provider's schema. *)
Definition adapt (schema : ArrowSchema) (g : RecordBatch) : RecordBatch :=
  mkBatch schema (List.map (PartRead.adapt_column g) schema).
Definition group_rows (schema : ArrowSchema) (g : RecordBatch) : list Row := batch_rows (adapt schema g).

Definition cell_at (j : nat) (r : Row) : Cell := default (CInt None) (r !! j).
Definition project_row (proj : list nat) (r : Row) : Row := List.map (fun j => cell_at j r) proj.

(** [col = lit]: true of a non-null equal value. *)
Definition cell_is (key : Z) (c : Cell) : bool := match c with CInt (Some v) => v =? key | _ => false end.
Definition holds (p : option KeyPredicate) (r : Row) : bool :=
  match p with Some p => cell_is (kp_key p) (cell_at (kp_column p) r) | None => true end.

(** The row groups an access plan selects: one flag per group. *)
Definition selected (plan : option ParquetAccessPlan) (groups : list RecordBatch) : option (list RecordBatch) :=
  match plan with
  | None => Some groups
  | Some flags =>
      if Nat.eqb (length flags) (length groups)
      then Some (omap (fun fg : bool * RecordBatch => if fg.1 then Some fg.2 else None) (zip flags groups)) else None
  end.

Section run.
Context `{DF : Expr.DataFusionOps}.
(** The row groups of a stored object, the value of a compiled alias on a row,
    and the rows the statement asks for: DataFusion pushes its own filters down
    as well. *)
Context (groups_at : string -> option (list RecordBatch)).
Context (alias_value : Expr.Compiled -> Row -> Cell).
Context (wanted : Row -> bool).

(** A file's scan: some of the rows of the selected groups, every one of those
    that meet the predicates among them. *)
Definition reads (c : FileScanConfig) (f : PartitionedFile) (rows : list Row) : Prop :=
  exists groups sel kept,
    groups_at (pf_path f) = Some groups /\ selected (pf_plan f) groups = Some sel /\
    let all := concat (List.map (group_rows (file_schema c)) sel) in
    let due r := holds (predicate c) r && wanted r in
    kept `sublist_of` all /\ List.filter due kept = List.filter due all /\
    rows = List.map (project_row (projection c)) kept.

Definition expr_value (e : PhysicalExpr) (r : Row) : Cell :=
  match e with ColumnRef j => cell_at j r | AliasExpr c => alias_value c r end.

Definition output_row (exprs : list (PhysicalExpr * string)) (r : Row) : Row :=
  List.map (fun e => expr_value e.1 r) exprs.

Inductive executes : ExecutionPlan -> list Row -> Prop :=
| exec_source c outs rows :
    Forall2 (reads c) (concat (file_groups c)) outs -> rows ≡ₚ concat outs ->
    executes (DataSourceExec c) rows
| exec_filter p input rows :
    executes input rows -> executes (FilterExec p input) (List.filter (holds (Some p)) rows)
| exec_projection exprs input rows :
    executes input rows -> executes (ProjectionExec exprs input) (List.map (output_row exprs) rows)
| exec_limit skip fetch input rows :
    executes input rows ->
    executes (GlobalLimitExec skip fetch input)
      (match fetch with Some n => List.firstn n (List.skipn skip rows) | None => List.skipn skip rows end).
End run.

(** ** Indices and projections *)

Lemma index_from_least i s nm j :
  index_from i s nm = Some j -> forall k f, (i + k < j)%nat -> s !! k = Some f -> f_name f <> nm.
Proof.
  revert i. induction s as [|f s IH]; intros i; simpl; [done|].
  destruct (String.eqb_spec (f_name f) nm) as [|N]; [intros [= <-] k; lia|].
  intros I [|k] g L; simpl; [by intros [= <-]|]. apply (IH (S i) I). lia.
Qed.

(** The first column of the name. *)
Lemma index_of_first s nm j :
  index_of s nm = Some j <->
  (exists f, s !! j = Some f /\ f_name f = nm) /\ forall k f, (k < j)%nat -> s !! k = Some f -> f_name f <> nm.
Proof.
  split.
  - intros I. split; [pose proof (index_of_spec s nm) as S; by rewrite I in S|].
    intros k f L. eapply index_from_least; [exact I|simpl; lia].
  - intros [(f & Hf & N) First]. pose proof (index_of_spec s nm) as S. destruct (index_of s nm) as [i|] eqn:I.
    + destruct S as (g & Hg & Ng). destruct (lt_eq_lt_dec i j) as [[L| ->]|L]; [|done|].
      * by destruct (First i g L).
      * by destruct (index_from_least 0 s nm i I j f).
    + destruct S. rewrite <-N. apply list_elem_of_In, List.in_map, list_elem_of_In. by eapply list_elem_of_lookup_2.
Qed.

Lemma project_lookup s proj n j :
  Forall (fun i => (i < length s)%nat) proj -> proj !! n = Some j -> project s proj !! n = s !! j.
Proof.
  intros B. revert n. induction B as [|i proj L B IH]; intros n; simpl; [done|].
  unfold project. simpl. apply lookup_lt_is_Some_2 in L as [f Hf]. destruct n as [|n]; simpl.
  - intros [= ->]. rewrite Hf. reflexivity.
  - intros Hn. rewrite Hf. by apply IH.
Qed.

Lemma project_length s proj : Forall (fun i => (i < length s)%nat) proj -> length (project s proj) = length proj.
Proof.
  unfold project. induction 1 as [|i proj L B IH]; simpl; [done|]. apply lookup_lt_is_Some_2 in L as [f ->]. simpl. by f_equal.
Qed.

Lemma sorted_lookup {A} (R : relation A) l i j x y :
  StronglySorted R l -> l !! i = Some x -> l !! j = Some y -> (i < j)%nat -> R x y.
Proof.
  intros S. revert i j. induction S as [|z l S IH F]; intros [|i] [|j] Hx Hy L; simpl in *; try done; try lia.
  - injection Hx as ->. rewrite Forall_forall in F. apply F. by eapply list_elem_of_lookup_2.
  - by eapply (IH i j); [..|lia].
Qed.

(** A column the projection keeps is the same column of the projected schema. *)
Lemma project_index s proj nm j j' :
  Forall (fun i => (i < length s)%nat) proj -> StronglySorted Nat.lt proj ->
  index_of s nm = Some j -> j ∈ proj -> index_of (project s proj) nm = Some j' -> proj !! j' = Some j.
Proof.
  intros B Srt I In I'. apply index_of_first in I as [(f & Hf & Nf) First].
  apply index_of_first in I' as [(g & Hg & Ng) First'].
  assert (L : (j' < length proj)%nat) by (rewrite <-(project_length s) by done; by eapply lookup_lt_Some).
  apply lookup_lt_is_Some_2 in L as [k Hk]. rewrite (project_lookup s proj j' k B Hk) in Hg.
  apply list_elem_of_lookup in In as [n Hn]. destruct (lt_eq_lt_dec j' n) as [[L| <-]|L]; [|done|].
  - assert (k < j)%nat by (eapply (sorted_lookup Nat.lt); eassumption).
    by destruct (First k g).
  - destruct (First' n f L); [|done]. by rewrite (project_lookup s proj n j B Hn).
Qed.

Lemma cell_at_project proj r n j : proj !! n = Some j -> cell_at n (project_row proj r) = cell_at j r.
Proof. intros H. unfold cell_at at 1, project_row. by rewrite lookup_map, H. Qed.

Lemma sort_dedup_spec l : StronglySorted Nat.lt (sort_dedup l) /\ forall i, i ∈ sort_dedup l <-> i ∈ l.
Proof.
  unfold sort_dedup. split; [|intros i; by rewrite elem_of_remove_dups, (merge_sort_Permutation Nat.le)].
  assert (S : StronglySorted Nat.le (merge_sort Nat.le l)) by (apply StronglySorted_merge_sort; apply _).
  induction S as [|x k S IH F]; simpl; [constructor|]. destruct (decide_rel elem_of x k) as [H|N]; [done|].
  constructor; [done|]. rewrite Forall_forall in *. intros y Hy. rewrite elem_of_remove_dups in Hy.
  specialize (F y Hy). destruct (decide (x = y)) as [->|]; [done|lia].
Qed.

(** ** What a filter asks of a row *)

Definition int_column (schema : ArrowSchema) (c : string) (j : nat) : Prop :=
  index_of schema c = Some j /\ exists f, (schema : list Field) !! j = Some f /\ f_type f = Int64.

(** The [i64] a column or a literal denotes on a row. *)
Inductive denotes (schema : ArrowSchema) (r : Row) : DfExpr -> Z -> Prop :=
| denotes_lit v : in_i64 v -> denotes schema r (LitInt64 v) v
| denotes_col c j x : int_column schema c j -> r !! j = Some (CInt (Some x)) -> in_i64 x ->
    denotes schema r (Column c) x.

Definition op_holds (op : Operator) (a b : Z) : Prop :=
  match op with
  | OpEq => a = b | OpGt => b < a | OpGtEq => b <= a | OpLt => a < b | OpLtEq => a <= b
  | OpOther _ => True
  end.

Definition orders (op : Operator) : Prop := match op with OpOther _ => False | _ => True end.

(** An [Int64] column against a literal, either way round. *)
Definition int_comparison (schema : ArrowSchema) (l r : DfExpr) : Prop :=
  match l, r with
  | Column c, LitInt64 _ | LitInt64 _, Column c => exists j, int_column schema c j
  | _, _ => False
  end.

(** A filter is true of a row: what SQL says of an order between an [Int64]
    column and a literal; of any other filter nothing is assumed. *)
Definition meets (schema : ArrowSchema) (r : Row) (f : DfExpr) : Prop :=
  match f with
  | BinaryExpr a op b => orders op -> int_comparison schema a b ->
      exists x y, denotes schema r a x /\ denotes schema r b y /\ op_holds op x y
  | _ => True
  end.

Lemma meets_comparison schema r f c op v j :
  meets schema r f -> comparison f = Some (c, op, v) -> orders op -> int_column schema c j ->
  exists x, r !! j = Some (CInt (Some x)) /\ in_i64 x /\ in_i64 v /\ op_holds op x v.
Proof.
  intros M C O I. assert (U : forall j', int_column schema c j' -> j' = j).
  { intros j' [I' _]. destruct I as [I _]. congruence. }
  destruct f as [| |[c'|v'| |] op' [c''|v''| |]|]; try done; injection C as -> <- ->.
  - destruct M as (x & y & X & Y & H); [done|by exists j|]. inversion X as [|? j' ? I' R F]; subst. inversion Y; subst.
    apply U in I' as ->. by exists x.
  - destruct M as (x & y & X & Y & H); [by destruct op'|by exists j|]. inversion Y as [|? j' ? I' R F]; subst.
    inversion X; subst. apply U in I' as ->. exists y. split_and!; try done. by destruct op'.
Qed.

(** The bounds a row keeps. *)
Definition entry_holds (e : option Z * option Z) (x : Z) : Prop :=
  (forall m, e.1 = Some m -> m <= x) /\ (forall m, e.2 = Some m -> x <= m).

Definition bounds_hold (schema : ArrowSchema) (r : Row) (b : Bounds) : Prop :=
  forall c e, b !! c = Some e -> exists j, int_column schema c j /\
    (e = (None, None) \/ exists x, r !! j = Some (CInt (Some x)) /\ entry_holds e x).

Lemma tighten_holds e op x v :
  orders op -> in_i64 x -> in_i64 v -> op_holds op x v -> entry_holds e x -> entry_holds (tighten e op v) x.
Proof.
  intros O X V H [E1 E2].
  assert (W : forall z, i64_min <= z <= i64_max -> wrap_i64 z = z) by (intros; by apply wrap_i64_id).
  unfold in_i64 in *. destruct op; simpl in *; try done; rewrite ?W by lia; unfold entry_holds, tighten_min, tighten_max;
    destruct e as [[mn|] [mx|]]; simpl in *; split; intros m; intros [= <-];
    try specialize (E1 _ eq_refl); try specialize (E2 _ eq_refl); lia.
Qed.

Lemma apply_filter_holds schema r b f :
  meets schema r f -> bounds_hold schema r b -> bounds_hold schema r (apply_filter schema b f).
Proof.
  intros M B. unfold apply_filter. destruct (comparison f) as [[[c op] v]|] eqn:C; [|done]. unfold apply_bound.
  destruct (index_of schema c) as [j|] eqn:I; simpl; [|done].
  destruct ((schema : list Field) !! j) as [fl|] eqn:F; simpl; [|done]. case_bool_decide as T; [|done].
  assert (Ic : int_column schema c j) by (split; [done|by exists fl]).
  intros c' e. destruct (decide (c' = c)) as [->|N]; [rewrite lookup_insert_eq|rewrite lookup_insert_ne by done; apply B].
  intros [= <-]. exists j. split; [done|].
  assert (Old : forall x, r !! j = Some (CInt (Some x)) -> entry_holds (default (None, None) (b !! c)) x).
  { intros x Hx. destruct (b !! c) as [e|] eqn:E; simpl; [|done]. destruct (B _ _ E) as (j' & [I' _] & H).
    assert (j' = j) as -> by congruence. destruct H as [->|(y & Hy & H)]; [done|]. congruence. }
  assert (Ord : orders op -> exists x, r !! j = Some (CInt (Some x)) /\
    entry_holds (tighten (default (None, None) (b !! c)) op v) x).
  { intros O. destruct (meets_comparison _ _ _ _ _ _ _ M C O Ic) as (x & Hx & X & V & H).
    exists x. split; [done|]. apply tighten_holds; try done. by apply Old. }
  destruct op; try (right; by apply Ord).
  simpl. destruct (b !! c) as [e|] eqn:E; simpl; [|by left]. destruct (B _ _ E) as (j' & [I' _] & H).
  assert (j' = j) as -> by congruence. exact H.
Qed.

(** The extracted ranges hold of every row that meets the filters. *)
Lemma extracted_ranges_hold schema r filters :
  Forall (meets schema r) filters ->
  Forall (fun c => exists j, int_column schema (column c) j /\
    ((cr_min c = None /\ cr_max c = None) \/
     exists x, r !! j = Some (CInt (Some x)) /\ entry_holds (cr_min c, cr_max c) x))
    (extract_int64_ranges filters schema).
Proof.
  intros M. assert (B : bounds_hold schema r (List.fold_left (apply_filter schema) filters (∅ : Bounds))).
  { assert (B0 : bounds_hold schema r ∅) by (intros c e E; by rewrite lookup_empty in E).
    revert B0. generalize (∅ : Bounds). induction M as [|f filters Hf _ IH]; intros b B0; simpl; [done|].
    apply IH. by apply apply_filter_holds. }
  apply Forall_forall. intros c Hc. unfold extract_int64_ranges in Hc.
  apply list_elem_of_In, List.in_map_iff in Hc as ([nm [mn mx]] & <- & Hc%list_elem_of_In%elem_of_map_to_list).
  simpl. destruct (B _ _ Hc) as (j & I & H). exists j. split; [done|].
  destruct H as [[= -> ->]|H]; [by left|by right].
Qed.

(** ** Rows of a group and rows of its file *)

(** A non-null integer of an adapted row is the file's own. *)
Lemma adapted_int schema g i r j c x :
  group_rows schema g !! i = Some r -> index_of schema c = Some j -> r !! j = Some (CInt (Some x)) ->
  row_has g i c x.
Proof.
  unfold group_rows, batch_rows. rewrite lookup_map. intros (i' & Hi & ->)%fmap_Some I R.
  apply lookup_seq in Hi as [-> _]. apply index_of_first in I as [(f & Hf & <-) _].
  rewrite (heads_lookup _ _ j (array_cells (PartRead.adapt_column g f))) in R.
  2:{ by apply map_at, map_at. }
  injection R as R. unfold PartRead.adapt_column in R. simpl in R.
  destruct (index_of (rb_schema g) (f_name f)) as [k|] eqn:K; simpl in R.
  - destruct (rb_columns g !! k) as [a|] eqn:A; simpl in R.
    + destruct a as [vs|]; simpl in R; rewrite lookup_map in R; destruct (_ !! i) as [y|] eqn:Y; simpl in R; try done.
      injection R as ->. by exists k, vs.
    + destruct (f_type f); simpl in R; rewrite lookup_map in R; destruct (_ !! i) as [y|] eqn:Y; simpl in R; try done;
        injection R as ->; by apply lookup_replicate in Y as [? _].
  - destruct (f_type f); simpl in R; rewrite lookup_map in R; destruct (_ !! i) as [y|] eqn:Y; simpl in R; try done;
      injection R as ->; by apply lookup_replicate in Y as [? _].
Qed.

Lemma row_has_values b i c v : row_has b i c v <-> exists vs, column_values b c = Some vs /\ vs !! i = Some (Some v).
Proof.
  unfold row_has, column_values. split.
  - intros (k & vs & I & C & V). exists vs. rewrite I. simpl. by rewrite C.
  - intros (vs & C & V). destruct (index_of _ _) as [k|]; simpl in C; [|done].
    destruct (rb_columns b !! k) as [[ws|]|] eqn:E; simpl in C; [|done|done]. injection C as ->. by exists k, vs.
Qed.

(** Row [i] of group [n] is a row of the file, column by column. *)
Lemma group_row_of_file s groups n g i :
  all_ok s groups -> groups !! n = Some g ->
  exists i', forall c v, row_has g i c v -> row_has (cat s groups) i' c v.
Proof.
  intros A. revert n. induction A as [|b groups [m Hb] A IH]; intros n; [done|]. rewrite cat_cons.
  destruct (cat_ok s groups A) as [k Hk]. destruct n as [|n]; simpl.
  - intros [= ->]. exists i. intros c v (vs & V & Hv)%row_has_values. apply row_has_values.
    destruct (column_values_append _ _ _ _ _ _ _ Hb Hk V) as (ws & _ & ->). exists (vs ++ ws). split; [done|].
    rewrite lookup_app_l by (by eapply lookup_lt_Some). done.
  - intros Hg. destruct (IH n Hg) as [i' H]. exists (m + i')%nat. intros c v Hc. apply H, row_has_values in Hc as (ws & W & Hw).
    assert (exists vs, column_values b c = Some vs) as [vs V].
    { destruct (ok_columns s m b) as [Q _]. destruct (Q Hb) as [Eb Fb]. destruct (ok_columns s k (cat s groups)) as [Q' _].
      destruct (Q' Hk) as [Ec Fc]. unfold column_values in *. rewrite Ec in W. rewrite Eb.
      destruct (index_of s c) as [j|]; simpl in *; [|done].
      destruct (rb_columns (cat s groups) !! j) as [y|] eqn:Y; simpl in W; [|done].
      destruct (Forall2_lookup_r _ _ _ _ _ Fc Y) as (f & Hf & Ty & _).
      destruct (Forall2_lookup_l _ _ _ _ _ Fb Hf) as (x & -> & Tx & _). simpl.
      destruct y; [|done]. simpl in Ty. destruct x; [by eexists|naive_solver]. }
    destruct (column_values_append _ _ _ _ _ _ _ Hb Hk V) as (ws' & W' & E).
    assert (ws' = ws) as -> by congruence. apply row_has_values. exists (vs ++ ws). split; [done|].
    rewrite lookup_app_r by (rewrite (column_values_length _ _ _ _ _ Hb V); lia).
    rewrite (column_values_length _ _ _ _ _ Hb V). by replace (m + i' - m)%nat with i' by lia.
Qed.

(** ** What the key index leaves out holds no row of the key *)

(** A row group's recorded key statistics bound its keys. *)
Definition honest_group (pk : string) (rg : Stats.RowGroupMetaData) (g : RecordBatch) : Prop :=
  forall col mn mx, List.find (fun c => String.eqb (Stats.column_path c) pk) rg = Some col ->
    Stats.statistics col = Some (Stats.StatsInt64 (Some mn) (Some mx)) ->
    forall i v, row_has g i pk v -> mn <= v <= mx.

Section described.
Context (ser : gset Z -> option (list Z)) (deser : list Z -> option (gset Z)).
Context (enc : list Z -> string) (dec : string -> option (list Z)).
Context (deser_ser : forall m bytes, ser m = Some bytes -> deser bytes = Some m).
Context (dec_enc : forall bytes, dec (enc bytes) = Some bytes).

(** The part's metadata is what a writer records of a file of these row groups. *)
Record file_described (m : PartMeta) (s : ArrowSchema) (groups : list RecordBatch) (pk : string) : Prop := {
  fd_ok : all_ok s groups;
  fd_batch : describes ser enc m (cat s groups) pk;
  fd_spans : exists bitmap spans,
    column_stats m = Stats.with_key_index (Stats.int64_column_stats (cat s groups)) bitmap spans /\
    (spans = None \/ exists rgs, spans = Stats.key_row_groups rgs pk /\ Forall2 (honest_group pk) rgs groups);
}.

Lemma excluded_part m s groups pk p key :
  file_described m s groups pk -> meta p = m -> part_excludes_key deser dec p key = true ->
  forall n g i, groups !! n = Some g -> ~ row_has g i pk key.
Proof.
  intros [A D _] <- X n g i Hg Hr. destruct (group_row_of_file s groups n g i A Hg) as [i' L]. apply L in Hr.
  unfold part_excludes_key in X. destruct (column_stats (meta p)) as [st|] eqn:St; simpl in X; [|done].
  destruct (jget st Stats.PACKING_KEYS_STAT) as [v|] eqn:V; simpl in X; [|done].
  destruct (as_str v) as [e|] eqn:E; simpl in X; [|done].
  assert (B : Stats.key_bitmap ser enc (cat s groups) pk = Some e).
  { eapply recorded_bitmap; [exact D|]. rewrite St. simpl. by rewrite V. }
  destruct (Stats.key_bitmap_reads_back ser deser enc dec deser_ser dec_enc _ pk e B) as (vs & K & _ & _ & C & _).
  rewrite C in X. destruct (row_has_key_column _ _ _ _ Hr) as (vs' & K' & Hin). assert (vs' = vs) as -> by congruence.
  destruct (key <? 0); [done|]. by rewrite bool_decide_eq_true_2 in X.
Qed.

(** The spans a plan is made from are those the writer recorded. *)
Lemma recorded_spans m s groups pk l :
  file_described m s groups pk -> (column_stats m ≫= fun st => jget st Stats.KEY_ROW_GROUPS_STAT) ≫= as_array = Some l ->
  exists rgs, Stats.key_row_groups rgs pk = Some (JArray l) /\ Forall2 (honest_group pk) rgs groups.
Proof.
  intros [A D (bitmap & spans & Es & H)] L. rewrite Es in L. set (b := cat s groups) in *.
  set (m0 := match Stats.int64_column_stats b with Some (JObject m) => m | _ => [] end).
  assert (S0 : map_sorted m0).
  { unfold m0. destruct (int64_stats_shape b) as [E|[m' E]]; rewrite E; [constructor|].
    eapply int64_stats_sorted; [apply D|exact E]. }
  assert (A0 : assoc Stats.KEY_ROW_GROUPS_STAT m0 = Stats.int64_column_stats b ≫= fun st => jget st Stats.KEY_ROW_GROUPS_STAT).
  { unfold m0. destruct (int64_stats_shape b) as [E|[m' E]]; by rewrite E. }
  assert (NoArr : (assoc Stats.KEY_ROW_GROUPS_STAT m0 ≫= as_array) = Some l -> False).
  { rewrite A0, int64_stats_entry by apply D. by destruct (assoc _ (Stats.ranges_of b)). }
  assert (Neq : String.eqb Stats.KEY_ROW_GROUPS_STAT Stats.PACKING_KEYS_STAT = false) by reflexivity.
  destruct spans as [sp|].
  - destruct H as [|(rgs & R & F)]; [done|]. exists rgs. split; [|done]. rewrite <-R. f_equal.
    assert (as_array sp = Some l) as L'.
    { destruct bitmap as [bm|]; unfold Stats.with_key_index in L; fold m0 in L; cbn [mbind option_bind jget] in L;
        rewrite assoc_jinsert, String.eqb_refl in L by (done || by apply jinsert_sorted); exact L. }
    destruct sp; simpl in L'; congruence.
  - destruct NoArr. destruct bitmap as [bm|]; unfold Stats.with_key_index in L; fold m0 in L.
    + cbn [mbind option_bind jget] in L. by rewrite assoc_jinsert, Neq in L by done.
    + rewrite A0. exact L.
Qed.

Lemma planned_part s groups pk p key flags :
  file_described (meta p) s groups pk -> access_plan_for p key = Some flags ->
  Forall2 (fun (flag : bool) g => flag = false -> forall i, ~ row_has g i pk key) flags groups.
Proof.
  intros D X. unfold access_plan_for in X. destruct (column_stats (meta p)) as [st|] eqn:St; simpl in X; [|done].
  destruct (jget st Stats.KEY_ROW_GROUPS_STAT) as [v|] eqn:V; simpl in X; [|done].
  destruct (as_array v) as [l|] eqn:L; simpl in X; [|done].
  destruct (recorded_spans (meta p) s groups pk l D) as (rgs & R & F); [rewrite St; simpl; by rewrite V|].
  unfold Stats.key_row_groups in R. destruct l as [|sp l]; [done|].
  destruct (mapM (scans_span key) (sp :: l)) as [fl|] eqn:M; simpl in X; [|done].
  destruct (List.existsb negb fl); [|done]. injection X as ->. apply mapM_Some in M.
  destruct rgs as [|rg rgs]; [done|]. destruct (mapM (Stats.row_group_span pk) (rg :: rgs)) as [l'|] eqn:M'; simpl in R; [|done].
  injection R as ->. apply mapM_Some in M'. clear - M M' F. revert flags groups M F.
  generalize dependent (rg :: rgs). generalize (sp :: l). clear. intros l rgs M'.
  induction M' as [|rg span rgs l Hs M' IH]; intros flags groups M F; inversion M as [|? flag ? flags' Hf M2]; subst;
    inversion F as [|? g ? groups' Hg F']; subst; constructor; [|by apply IH].
  intros -> i Hr. unfold Stats.row_group_span in Hs. destruct (List.find _ rg) as [col|] eqn:C; simpl in Hs; [|done].
  destruct (Stats.statistics col) as [[[mn|] [mx|]|]|] eqn:Sc; try done. injection Hs as <-.
  pose proof (Hg col mn mx C Sc i key Hr) as B. unfold scans_span, span_bound in Hf. simpl in Hf.
  destruct (bool_decide (in_i64 mn)); [|done]. destruct (bool_decide (in_i64 mx)); [|done]. injection Hf as Hf.
  apply negb_false_iff, orb_true_iff in Hf as [Hf|Hf]; boolp; lia.
Qed.

End described.

(** ** Sieving the rows that are due *)

Lemma filter_map_comm {A B} (p : B -> bool) (f : A -> B) l :
  List.filter p (List.map f l) = List.map f (List.filter (fun x => p (f x)) l).
Proof. induction l as [|x l IH]; simpl; [done|]. destruct (p (f x)); simpl; by rewrite IH. Qed.

Lemma filter_ext_all {A} (p q : A -> bool) l : (forall x, p x = q x) -> List.filter p l = List.filter q l.
Proof. intros E. apply List.filter_ext. done. Qed.

Lemma filter_and {A} (p q : A -> bool) l : List.filter p (List.filter q l) = List.filter (fun x => q x && p x) l.
Proof. induction l as [|x l IH]; simpl; [done|]. destruct (q x); simpl; [destruct (p x)|]; by rewrite IH. Qed.

Lemma filter_none {A} (p : A -> bool) l : (forall x, x ∈ l -> p x = false) -> List.filter p l = [].
Proof.
  intros N. induction l as [|x l IH]; simpl; [done|]. rewrite N by left. apply IH. intros y Hy. apply N. by right.
Qed.

Lemma filter_perm {A} (p : A -> bool) l k : l ≡ₚ k -> List.filter p l ≡ₚ List.filter p k.
Proof.
  induction 1 as [|x l k _ IH|x y l|l k m _ IH _ IH']; simpl; [done|destruct (p x); by rewrite ?IH|..].
  - destruct (p x), (p y); try done. apply Permutation_swap.
  - by rewrite IH.
Qed.

#[export] Instance filter_Permutation {A} (p : A -> bool) : Proper ((≡ₚ) ==> (≡ₚ)) (List.filter p).
Proof. intros l k. apply filter_perm. Qed.

(** Row groups an access plan leaves out, none of whose rows is due. *)
Lemma selected_due (due : Row -> bool) (rows : RecordBatch -> list Row) plan groups sel :
  selected plan groups = Some sel ->
  (forall flags, plan = Some flags ->
     Forall2 (fun (flag : bool) g => flag = false -> List.filter due (rows g) = []) flags groups) ->
  List.filter due (concat (List.map rows sel)) = List.filter due (concat (List.map rows groups)).
Proof.
  unfold selected. destruct plan as [flags|]; [|by intros [= ->]]. destruct (Nat.eqb _ _); [|done]. intros [= <-] Q.
  specialize (Q flags eq_refl). induction Q as [|flag g flags groups Hg Q IH]; simpl; [done|].
  rewrite List.filter_app, <-IH. destruct flag; simpl; [by rewrite List.filter_app|]. by rewrite Hg.
Qed.

End QuerySpec.

(** * Two facts of every scan (theorems about [Query] and its catalog)

    A namespace's table answers with rows of that namespace only; and reading
    the pruned parts and row groups answers what reading every live part would. *)

Import CatalogError CatalogDb Commit CommitSpec CommitTheorems Feed Pruning Batches Query QuerySpec.

Module QueryTheorems.

(** ** What a provider is *)

Lemma view_typed_names s : List.map f_name (view_typed s) = List.map f_name s.
Proof. unfold view_typed. rewrite List.map_map. apply List.map_ext. intros f. by destruct (f_type f). Qed.

(** The query schema lists the specs in order. *)
Definition aligned (pv : UkielTableProvider) : Prop :=
  List.map f_name (pv_query pv) = List.map Schema.name (Schema.specs (columns pv)).

Lemma try_new_aligned h sl pv :
  try_new h sl = Ok pv -> aligned pv /\ hypertable pv = h /\ slice pv = sl.
Proof.
  unfold try_new. intros H. inv_ok. split_and!; try done. unfold aligned. simpl. rewrite view_typed_names.
  unfold Schema.query_schema, Schema.schema_where. rewrite List.map_map.
  induction (Schema.specs a) as [|sp l IH]; [done|]. simpl. f_equal. exact IH.
Qed.

Section scan.
Context `{DF : Expr.DataFusionOps}.
Context (deser : list Z -> option (gset Z)) (dec : string -> option (list Z)).
Context (groups_at : string -> option (list RecordBatch)).
Context (alias_value : Expr.Compiled -> Row -> Cell).
Context (wanted : Row -> bool).
#[local] Abbreviation executes := (executes groups_at alias_value wanted).
#[local] Abbreviation reads := (reads groups_at wanted).

(** The slice's predicate on a physical row. *)
Definition in_slice (pv : UkielTableProvider) (r : Row) : bool :=
  match slice pv with
  | None => true
  | Some key =>
      match index_of (pv_physical pv) (packing_key (hypertable pv)) with
      | Some j => cell_is key (cell_at j r)
      | None => false
      end
  end.

(** A row answers a request: every requested column that is no alias holds the
    physical value of its name. *)
Definition answers (pv : UkielTableProvider) (indices : list nat) (r o : Row) : Prop :=
  length o = length indices /\
  forall n i sp, indices !! n = Some i -> Schema.specs (columns pv) !! i = Some sp ->
    Schema.is_alias (Schema.column_kind sp) = false ->
    exists j, index_of (pv_physical pv) (Schema.name sp) = Some j /\ o !! n = Some (cell_at j r).

(** The plan [scan] builds, below its limit. *)
Record planned (pv : UkielTableProvider) (indices : list nat) (parts : list Part) (proj : list nat)
    (p p' : option KeyPredicate) (exprs : list (PhysicalExpr * string)) (order : option (list nat)) : Prop := {
  pl_sorted : StronglySorted Nat.lt proj;
  pl_bound : Forall (fun i => (i < length (pv_physical pv))%nat) proj;
  pl_names : forall i sp, i ∈ indices -> Schema.specs (columns pv) !! i = Some sp ->
    Schema.is_alias (Schema.column_kind sp) = false ->
    exists j, index_of (pv_physical pv) (Schema.name sp) = Some j /\ j ∈ proj;
  pl_key : slice pv <> None ->
    exists j, index_of (pv_physical pv) (packing_key (hypertable pv)) = Some j /\ j ∈ proj;
  pl_pushdown : key_predicate pv (pv_physical pv) = Ok p;
  pl_isolation : key_predicate pv (project (pv_physical pv) proj) = Ok p';
  pl_exprs : mapr (output_expr pv (project (pv_physical pv) proj)) indices = Ok exprs;
}.

Definition plan_of (pv : UkielTableProvider) (parts : list Part) (proj : list nat) (p p' : option KeyPredicate)
    (exprs : list (PhysicalExpr * string)) (order : option (list nat)) : ExecutionPlan :=
  let scan := DataSourceExec (mkScan (pv_physical pv)
    (List.map (fun f => [f]) (omap (file_of_part deser dec (slice pv)) parts)) proj p order) in
  ProjectionExec exprs (match p' with Some p => FilterExec p scan | None => scan end).

Lemma scan_Ok `{PartListing} pv requested filters limit plan :
  scan deser dec pv requested filters limit = Ok plan ->
  exists parts proj p p' exprs order,
    Query.live_parts_pruned (ht_id (hypertable pv)) (slice pv) (extract_int64_ranges filters (pv_physical pv)) = Ok parts /\
    planned pv (default (seq 0 (length (pv_query pv))) requested) parts proj p p' exprs order /\
    plan = match limit with
           | Some n => GlobalLimitExec 0 (Some n) (plan_of pv parts proj p p' exprs order)
           | None => plan_of pv parts proj p p' exprs order
           end.
Proof.
  unfold scan. intros S. inv_ok. rename a into parts, a0 into refs, a1 into positions, a2 into p, a3 into p', a4 into exprs.
  destruct (Query.live_parts_pruned _ _ _) as [ps|] eqn:L; simpl in E; [|done]. injection E as <-.
  set (indices := default (seq 0 (length (pv_query pv))) requested) in *.
  destruct (sort_dedup_spec positions) as [Srt In]. apply mapr_Forall2 in E0, E1.
  assert (Pos : forall nm, nm ∈ (match slice pv with Some _ => [packing_key (hypertable pv)] | None => [] end) ++ concat refs ->
    exists j, index_of (pv_physical pv) nm = Some j /\ j ∈ sort_dedup positions).
  { intros nm Hnm. apply list_elem_of_lookup in Hnm as [n Hn]. destruct (Forall2_lookup_l _ _ _ _ _ E1 Hn) as (j & Hj & C).
    exists j. unfold col in C. destruct (index_of _ nm) as [j'|]; simpl in C; [|done]. injection C as ->.
    split; [done|]. apply In. by eapply list_elem_of_lookup_2. }
  exists ps, (sort_dedup positions), p, p', exprs. eexists. split; [done|]. split; [split; try done|].
  - apply Forall_forall. intros j Hj%In%list_elem_of_lookup. destruct Hj as [n Hj].
    destruct (Forall2_lookup_r _ _ _ _ _ E1 Hj) as (nm & _ & C). unfold col in C.
    destruct (index_of _ nm) as [j'|] eqn:I; simpl in C; [|done]. injection C as ->.
    apply index_of_first in I as [(f & Hf & _) _]. by eapply lookup_lt_Some.
  - intros i sp Hi Sp A. apply Pos, elem_of_app. right. apply list_elem_of_lookup in Hi as [n Hi].
    destruct (Forall2_lookup_l _ _ _ _ _ E0 Hi) as (nms & Hn & N). unfold needs in N. rewrite Sp in N. simpl in N.
    apply list_elem_of_In, List.in_concat. exists nms.
    split; [apply list_elem_of_In; by eapply list_elem_of_lookup_2|].
    destruct (Schema.column_kind sp); try done; injection N as <-; by left.
  - intros Sl. apply Pos, elem_of_app. left. destruct (slice pv); [by left|done].
  - by destruct limit.
Qed.

Lemma concat_singletons {A} (l : list A) : concat (List.map (fun x => [x]) l) = l.
Proof. induction l as [|x l IH]; simpl; [done|]. by rewrite IH. Qed.

Section planned.
Context (pv : UkielTableProvider) (indices : list nat) (parts : list Part) (proj : list nat)
  (p p' : option KeyPredicate) (exprs : list (PhysicalExpr * string)) (order : option (list nat)).
Context (P : planned pv indices parts proj p p' exprs order).

Lemma pushdown_is_slice r : holds p r = in_slice pv r.
Proof.
  pose proof (pl_pushdown _ _ _ _ _ _ _ _ P) as K. unfold key_predicate, in_slice, col in *.
  destruct (slice pv) as [key|]; [|by injection K as <-].
  destruct (index_of _ _) as [j|]; simpl in K; [|done]. by injection K as <-.
Qed.

Lemma isolation_is_slice r : holds p' (project_row proj r) = in_slice pv r.
Proof.
  pose proof (pl_isolation _ _ _ _ _ _ _ _ P) as K. pose proof (pl_key _ _ _ _ _ _ _ _ P) as Key.
  unfold key_predicate, in_slice, col in *. destruct (slice pv) as [key|]; [|by injection K as <-].
  destruct (Key ltac:(done)) as (j & I & Hj). rewrite I.
  destruct (index_of (project _ _) _) as [j'|] eqn:I'; simpl in K; [|done]. injection K as <-. simpl.
  by rewrite (cell_at_project _ _ _ _ (project_index _ _ _ _ _ (pl_bound _ _ _ _ _ _ _ _ P) (pl_sorted _ _ _ _ _ _ _ _ P) I Hj I')).
Qed.

Lemma output_answers r : aligned pv -> answers pv indices r (output_row alias_value exprs (project_row proj r)).
Proof.
  intros Al. pose proof (mapr_Forall2 _ _ _ (pl_exprs _ _ _ _ _ _ _ _ P)) as F. split.
  - unfold output_row. rewrite List.length_map. symmetry. by eapply Forall2_length.
  - intros n i sp Hi Sp A.
    destruct (pl_names _ _ _ _ _ _ _ _ P i sp (list_elem_of_lookup_2 _ _ _ Hi) Sp A) as (j & I & Hj). exists j.
    split; [done|]. destruct (Forall2_lookup_l _ _ _ _ _ F Hi) as ([e nm] & He & O). unfold output_row.
    rewrite lookup_map, He. simpl. f_equal. unfold output_expr in O. rewrite Sp in O. simpl in O.
    destruct (pv_query pv !! i) as [fl|] eqn:Fl; simpl in O; [|done].
    assert (N : f_name fl = Schema.name sp).
    { assert (X : List.map f_name (pv_query pv) !! i = Some (f_name fl)) by by apply map_at.
      rewrite Al in X. assert (Y := map_at Schema.name _ _ _ Sp). congruence. }
    assert (C : exists j', e = ColumnRef j' /\ col (project (pv_physical pv) proj) (Schema.name sp) = Ok j').
    { rewrite <-N. destruct (Schema.column_kind sp); try done; apply rbind_Ok in O as (x & X & [= <- <-]);
        apply rbind_Ok in X as (j' & X & [= <-]); by eauto. }
    destruct C as (j' & -> & C). unfold col in C. destruct (index_of (project _ _) _) as [j2|] eqn:I'; simpl in C; [|done].
    injection C as ->. simpl. apply cell_at_project.
    by apply (project_index _ _ _ _ _ (pl_bound _ _ _ _ _ _ _ _ P) (pl_sorted _ _ _ _ _ _ _ _ P) I Hj I').
Qed.

(** What a run of the plan puts out: the projections of physical rows of its
    files, sieved by the slice. *)
Lemma planned_run out :
  executes (plan_of pv parts proj p p' exprs order) out ->
  exists kepts rows,
    Forall2 (fun f kept => exists groups sel,
      groups_at (pf_path f) = Some groups /\ selected (pf_plan f) groups = Some sel /\
      let all := concat (List.map (group_rows (pv_physical pv)) sel) in
      let due r := in_slice pv r && wanted r in
      kept `sublist_of` all /\ List.filter due kept = List.filter due all)
      (omap (file_of_part deser dec (slice pv)) parts) kepts /\
    rows ≡ₚ List.filter (in_slice pv) (concat kepts) /\
    out = List.map (fun r => output_row alias_value exprs (project_row proj r)) rows.
Proof.
  intros X. inversion X as [| |? ? scanned S|]; subst. clear X.
  assert (Src : exists rows, executes (DataSourceExec (mkScan (pv_physical pv)
      (List.map (fun f => [f]) (omap (file_of_part deser dec (slice pv)) parts)) proj p order)) rows /\
    scanned = List.filter (fun r => match p' with Some k => holds (Some k) r | None => true end) rows).
  { destruct p' as [k|].
    - inversion S as [|? ? rows S'| |]; subst. by exists rows.
    - exists scanned. split; [done|]. symmetry. clear. induction scanned as [|r l IH]; simpl; [done|]. by rewrite IH. }
  destruct Src as (rows & E & ->). clear S. inversion E as [? outs ? F Pm| | |]; subst. clear E. simpl in F.
  rewrite concat_singletons in F.
  assert (K : exists kepts, outs = List.map (List.map (project_row proj)) kepts /\
    Forall2 (fun f kept => exists groups sel,
      groups_at (pf_path f) = Some groups /\ selected (pf_plan f) groups = Some sel /\
      let all := concat (List.map (group_rows (pv_physical pv)) sel) in
      let due r := in_slice pv r && wanted r in
      kept `sublist_of` all /\ List.filter due kept = List.filter due all)
      (omap (file_of_part deser dec (slice pv)) parts) kepts).
  { clear Pm. induction F as [|f o fs outs R F (kepts & -> & IH)]; [by exists []; split; [|constructor]|].
    destruct R as (groups & sel & kept & G & Sl & Sub & Due & ->). exists (kept :: kepts). split; [done|].
    constructor; [|done]. exists groups, sel. simpl in *. split_and!; try done.
    rewrite <-(filter_ext_all _ _ kept (fun r => f_equal (fun b => b && wanted r) (pushdown_is_slice r))).
    by rewrite Due; apply filter_ext_all; intros r; rewrite pushdown_is_slice. }
  destruct K as (kepts & -> & K). rewrite <-List.concat_map in Pm.
  apply Permutation_map_inv in Pm as (rows' & -> & Pm). exists kepts, (List.filter (in_slice pv) rows').
  split_and!; [done|by apply filter_perm|]. rewrite filter_map_comm, List.map_map. f_equal. apply filter_ext_all.
  intros r. rewrite <-isolation_is_slice. by destruct p'.
Qed.

End planned.

Lemma sublist_In {A} (l k : list A) x : l `sublist_of` k -> x ∈ l -> x ∈ k.
Proof. intros S. induction S; intros X; [done|apply elem_of_cons in X as [->|X]; [by left|right; by auto]|right; by auto]. Qed.

Lemma In_concat {A} (l : list (list A)) x : x ∈ concat l <-> exists k, k ∈ l /\ x ∈ k.
Proof.
  rewrite list_elem_of_In, List.in_concat. split; intros (k & A1 & A2); exists k; by rewrite ?list_elem_of_In in *.
Qed.

Lemma selected_In plan groups sel g : selected plan groups = Some sel -> g ∈ sel -> g ∈ groups.
Proof.
  unfold selected. destruct plan as [flags|]; [|by intros [= ->]]. destruct (Nat.eqb _ _); [|done]. intros [= <-] G.
  apply list_elem_of_omap in G as ([[] g'] & Z & [= <-]). by apply elem_of_zip_r in Z.
Qed.

(** ** A namespace sees its own rows only *)

(** C5: Whatever the catalog lists, whatever a part's index says and whatever
    the reader does with a pushed-down predicate, every row a namespace's table
    answers with is a row of a live file listed for that table whose packing
    key is the namespace, with each requested stored column as it is in the
    file -- also when the request leaves the packing key out. *)
Theorem scans_are_isolated `{PartListing} namespace name t t' pv requested filters limit plan out o :
  Query.table namespace name t t' = Ok (Some pv) ->
  scan deser dec pv requested filters limit = Ok plan -> executes plan out -> o ∈ out ->
  exists parts part groups g r j,
    Query.live_parts_pruned (ht_id (hypertable pv)) (Some namespace) (extract_int64_ranges filters (pv_physical pv)) = Ok parts /\
    part ∈ parts /\ groups_at (path (meta part)) = Some groups /\ g ∈ groups /\ r ∈ group_rows (pv_physical pv) g /\
    index_of (pv_physical pv) (packing_key (hypertable pv)) = Some j /\ r !! j = Some (CInt (Some namespace)) /\
    answers pv (default (seq 0 (length (pv_query pv))) requested) r o.
Proof.
  intros Tb S X Ho. assert (W : aligned pv /\ slice pv = Some namespace).
  { unfold Query.table in Tb. destruct (Registry.get_logical_table _ _ _) as [lt|[]]; try done. inv_ok.
    destruct (try_new a (Some namespace)) as [pv'|] eqn:N; simpl in E0; [|done]. injection E0 as <-.
    apply try_new_aligned in N as (Al & _ & Sl). done. }
  destruct W as [Al Sl]. apply scan_Ok in S as (parts & proj & p & p' & exprs & order & L & P & ->). rewrite Sl in L.
  set (indices := default _ requested) in *.
  assert (Y : exists out', executes (plan_of pv parts proj p p' exprs order) out' /\ o ∈ out').
  { destruct limit as [n|]; [|by exists out]. inversion X as [| | |? ? ? rows X']; subst. exists rows. split; [done|].
    simpl in Ho. rewrite <-(List.firstn_skipn n rows). apply elem_of_app. by left. }
  destruct Y as (out' & X' & Ho'). apply (planned_run _ indices _ _ _ _ _ _ P) in X' as (kepts & rows & F & Pm & ->).
  apply list_elem_of_In, List.in_map_iff in Ho' as (r & <- & Hr%list_elem_of_In).
  rewrite Pm in Hr. apply filter_In_iff in Hr as [Hr Hs]. apply In_concat in Hr as (kept & Hk & Hr).
  apply list_elem_of_lookup in Hk as [n Hk]. destruct (Forall2_lookup_r _ _ _ _ _ F Hk) as (f & Hf & groups & sel & G & Sel & Sub & _).
  apply list_elem_of_lookup_2, list_elem_of_omap in Hf as (part & Hp & Hf).
  apply (sublist_In _ _ _ Sub), In_concat in Hr as (grows & Hg & Hr).
  apply list_elem_of_In, List.in_map_iff in Hg as (g & <- & Hg%list_elem_of_In).
  unfold in_slice in Hs. rewrite Sl in Hs. destruct (index_of _ (packing_key _)) as [j|] eqn:I; [|done].
  exists parts, part, groups, g, r, j. split_and!; try done.
  - rewrite <-G. f_equal. unfold file_of_part in Hf. rewrite Sl in Hf.
    destruct (part_excludes_key _ _ _ _); [done|]. destruct (access_plan_for _ _); [destruct (scans_nothing _); [done|]|]; by injection Hf as <-.
  - by eapply selected_In.
  - unfold cell_is, cell_at in Hs. destruct (r !! j) as [[[v|]|]|]; simpl in Hs; try done. apply Z.eqb_eq in Hs. by subst.
  - by eapply output_answers.
Qed.

(** ** Pruning is invisible *)

(** The rows of a part's file, under the provider's schema. *)
Definition part_rows (pv : UkielTableProvider) (m : PartMeta) : list Row :=
  concat (List.map (group_rows (pv_physical pv)) (default [] (groups_at (path m)))).

Section pruned.
Context (ser : gset Z -> option (list Z)) (enc : list Z -> string).
Context (deser_ser : forall m bytes, ser m = Some bytes -> deser bytes = Some m).
Context (dec_enc : forall bytes, dec (enc bytes) = Some bytes).
Context (pv : UkielTableProvider).
#[local] Abbreviation due := (fun r => in_slice pv r && wanted r).

(** The catalog's metadata of a part describes its stored file. *)
Definition stored_as_described (m : PartMeta) : Prop :=
  exists s groups, groups_at (path m) = Some groups /\ file_described ser enc m s groups (packing_key (hypertable pv)).

Lemma slice_row_has g i r key :
  slice pv = Some key -> group_rows (pv_physical pv) g !! i = Some r -> in_slice pv r = true ->
  row_has g i (packing_key (hypertable pv)) key.
Proof.
  unfold in_slice. intros -> Hr Hs. destruct (index_of _ _) as [j|] eqn:I; [|done]. eapply adapted_int; [done|exact I|].
  unfold cell_is, cell_at in Hs. destruct (r !! j) as [[[v|]|]|]; simpl in Hs; try done. apply Z.eqb_eq in Hs. by subst.
Qed.

Lemma group_without_key g key :
  slice pv = Some key -> (forall i, ~ row_has g i (packing_key (hypertable pv)) key) ->
  List.filter due (group_rows (pv_physical pv) g) = [].
Proof.
  intros Sl N. apply filter_none. intros r Hr. apply list_elem_of_lookup in Hr as [i Hi].
  destruct (in_slice pv r) eqn:Hs; [|done]. by destruct (N i (slice_row_has g i r key Sl Hi Hs)).
Qed.

(** A part's file, opened in part or not at all, yields all its due rows. *)
Lemma file_due part :
  stored_as_described (meta part) ->
  match file_of_part deser dec (slice pv) part with
  | Some f => pf_path f = path (meta part) /\ forall groups sel, groups_at (pf_path f) = Some groups ->
      selected (pf_plan f) groups = Some sel ->
      List.filter due (concat (List.map (group_rows (pv_physical pv)) sel)) = List.filter due (part_rows pv (meta part))
  | None => List.filter due (part_rows pv (meta part)) = []
  end.
Proof.
  intros (s & gs & G & D). unfold part_rows. rewrite G. simpl.
  assert (Quiet : forall key, slice pv = Some key ->
    (forall n g i, gs !! n = Some g -> ~ row_has g i (packing_key (hypertable pv)) key) ->
    List.filter due (concat (List.map (group_rows (pv_physical pv)) gs)) = []).
  { intros key Sl N. apply filter_none. intros r Hr. apply In_concat in Hr as (rs & Hrs & Hr).
    apply list_elem_of_In, List.in_map_iff in Hrs as (g & <- & Hg%list_elem_of_In).
    apply list_elem_of_lookup in Hg as [n Hg]. pose proof (group_without_key g key Sl (fun i => N n g i Hg)) as E.
    destruct (in_slice pv r && wanted r) eqn:Du; [|done]. exfalso.
    assert (X : r ∈ List.filter due (group_rows (pv_physical pv) g)) by by apply filter_In_iff. rewrite E in X. by apply elem_of_nil in X. }
  assert (Whole : forall plan f, file_of_part deser dec (slice pv) part = Some f -> pf_plan f = plan -> pf_path f = path (meta part) ->
    (forall flags, plan = Some flags -> Forall2 (fun (flag : bool) g => flag = false ->
       List.filter due (group_rows (pv_physical pv) g) = []) flags gs) ->
    forall groups sel, groups_at (pf_path f) = Some groups -> selected (pf_plan f) groups = Some sel ->
      List.filter due (concat (List.map (group_rows (pv_physical pv)) sel))
      = List.filter due (concat (List.map (group_rows (pv_physical pv)) gs))).
  { intros plan f _ <- Pt Fl groups sel G' Sel. rewrite Pt, G in G'. injection G' as <-. by eapply selected_due. }
  unfold file_of_part in *. destruct (slice pv) as [key|] eqn:Sl.
  2:{ split; [done|]. by apply (Whole None). }
  destruct (part_excludes_key deser dec part key) eqn:Ex.
  { apply (Quiet key eq_refl). by eapply (excluded_part ser deser enc dec deser_ser dec_enc (meta part)). }
  destruct (access_plan_for part key) as [flags|] eqn:Ap.
  2:{ split; [done|]. by apply (Whole None). }
  pose proof (planned_part ser enc s gs _ part key flags D Ap) as Fl.
  assert (Fl' : Forall2 (fun (flag : bool) g => flag = false -> List.filter due (group_rows (pv_physical pv) g) = []) flags gs).
  { eapply Forall2_impl; [exact Fl|]. intros flag g N ->. by apply (group_without_key g key Sl), N. }
  destruct (scans_nothing flags) eqn:Nothing.
  - apply (Quiet key eq_refl). intros n g i Hg. destruct (Forall2_lookup_r _ _ _ _ _ Fl Hg) as (flag & Hf & N).
    apply N. destruct flag; [|done]. unfold scans_nothing in Nothing. apply negb_true_iff in Nothing.
    rewrite <-Nothing. symmetry. apply List.existsb_exists. exists true. split; [|done].
    apply list_elem_of_In. by eapply list_elem_of_lookup_2.
  - split; [done|]. apply (Whole (Some flags)); try done. by intros ? [= <-].
Qed.

(** Over the listed parts, what is read holds every due row. *)
Lemma files_due parts kepts :
  Forall (fun part => stored_as_described (meta part)) parts ->
  Forall2 (fun f kept => exists groups sel,
      groups_at (pf_path f) = Some groups /\ selected (pf_plan f) groups = Some sel /\
      let all := concat (List.map (group_rows (pv_physical pv)) sel) in
      kept `sublist_of` all /\ List.filter due kept = List.filter due all)
    (omap (file_of_part deser dec (slice pv)) parts) kepts ->
  List.filter due (concat kepts) = List.filter due (concat (List.map (fun part => part_rows pv (meta part)) parts)).
Proof.
  intros D. revert kepts. induction D as [|part parts Hd D IH]; intros kepts F; simpl in F; [by inversion F|].
  pose proof (file_due part Hd) as Q. simpl. rewrite List.filter_app.
  destruct (file_of_part deser dec (slice pv) part) as [f|]; [|by rewrite Q; apply IH].
  inversion F as [|? kept ? kepts' (groups & sel & G & Sel & _ & E) F']; subst. simpl.
  destruct Q as [_ Q]. rewrite List.filter_app, E, (Q _ _ G Sel). by rewrite (IH kepts').
Qed.

(** *** The parts the catalog leaves out *)

Context (text_to_bigint : string -> option Z).

Lemma due_row_keeps_part filters m part r :
  (forall c, Pruning.reserved c -> index_of (pv_physical pv) c = None) ->
  (forall r, wanted r = true -> Forall (meets (pv_physical pv) r) filters) ->
  stored_as_described (pr_meta part) -> pr_key_filter part = key_filter dec deser (pr_meta part) -> m = pr_meta part ->
  r ∈ part_rows pv m -> in_slice pv r && wanted r = true ->
  Parts.key_clause (slice pv) part = true /\
  forall x, Parts.ranges_pass text_to_bigint (column_stats (pr_meta part))
              (extract_int64_ranges filters (pv_physical pv)) = Ok x -> x = true.
Proof.
  intros Res Wf (s & gs & G & D) Kf -> Hr [Hs Hw]%andb_true_iff. unfold part_rows in Hr. rewrite G in Hr. simpl in Hr.
  apply In_concat in Hr as (rs & Hrs & Hr). apply list_elem_of_In, List.in_map_iff in Hrs as (g & <- & Hg%list_elem_of_In).
  apply list_elem_of_lookup in Hg as [n Hg], Hr as [i Hi]. destruct D as [A Db Sp].
  destruct (group_row_of_file s gs n g i A Hg) as [i' Lift]. split.
  - destruct (slice pv) as [key|] eqn:Sl; [|done]. eapply key_clause_keeps; [exact deser_ser|exact dec_enc|exact Db|exact Kf|].
    apply Lift. by eapply slice_row_has.
  - intros x. eapply ranges_pass_described; [exact Db|]. unfold satisfies.
    eapply Forall_impl; [apply (extracted_ranges_hold _ r), Wf, Hw|]. intros c (j & [I _] & H).
    destruct H as [[N1 N2]|(v & Hv & E1 & E2)]; [by left|]. right. split.
    { intros R. rewrite (Res _ R) in I. done. }
    exists v. split; [|done]. apply Lift. by eapply adapted_int.
Qed.

Lemma filter_rows_In f rs out r : Parts.filter_rows f rs = Ok out -> r ∈ out -> r ∈ rs.
Proof.
  revert out. induction rs as [|x rs IH]; intros out F Hr; simpl in F; [by injection F as <-|]. inv_ok.
  destruct a; [apply elem_of_cons in Hr as [->|Hr]; [by left|]|]; right; by eapply IH.
Qed.

Lemma listed_due filters rows rows' :
  (forall c, Pruning.reserved c -> index_of (pv_physical pv) c = None) ->
  (forall r, wanted r = true -> Forall (meets (pv_physical pv) r) filters) ->
  Forall (fun part => stored_as_described (pr_meta part) /\ pr_key_filter part = key_filter dec deser (pr_meta part)) rows ->
  Parts.filter_rows (fun r => Parts.ranges_pass text_to_bigint (column_stats (pr_meta r))
      (extract_int64_ranges filters (pv_physical pv)))
    (List.filter (Parts.key_clause (slice pv)) rows) = Ok rows' ->
  List.filter due (concat (List.map (fun r => part_rows pv (pr_meta r)) rows'))
  = List.filter due (concat (List.map (fun r => part_rows pv (pr_meta r)) rows)).
Proof.
  intros Res Wf D. revert rows'. induction D as [|part rows [Hd Kf] D IH]; intros rows' F; simpl in F; [by injection F as <-|].
  assert (Gone : forall (b : bool), (forall r, r ∈ part_rows pv (pr_meta part) -> in_slice pv r && wanted r = true -> False) ->
    List.filter due (part_rows pv (pr_meta part)) = []).
  { intros _ N. apply filter_none. intros r Hr. destruct (in_slice pv r && wanted r) eqn:E; [|done]. by destruct (N r Hr). }
  pose proof (fun r => due_row_keeps_part filters _ part r Res Wf Hd Kf eq_refl) as Keep. simpl. rewrite List.filter_app.
  destruct (Parts.key_clause (slice pv) part) eqn:Kc.
  - simpl in F. inv_ok. destruct a; simpl; rewrite ?List.filter_app, (IH _ E0); [done|].
    rewrite (Gone true); [done|]. intros r Hr Du. destruct (Keep r Hr Du) as [_ N]. by specialize (N _ E).
  - rewrite (IH _ F), (Gone true); [done|]. intros r Hr Du. by destruct (Keep r Hr Du).
Qed.

(** C6: Pruning is invisible: the rows a scan answers with, of those the
    statement wants, are -- as a multiset -- the wanted rows of the table's
    slice in all its live parts, whatever the key filters, the statistics, the
    bitmaps and the row-group spans left unread and whatever the reader did
    with pushed-down predicates, each with its requested stored columns as the
    file has them; as long as no column bears a reserved statistics name. *)
Theorem pruned_scan_is_full_scan h sl t requested filters plan out :
  try_new h sl = Ok pv ->
  Forall (fun r => stored_as_described (pr_meta r) /\ pr_key_filter r = key_filter dec deser (pr_meta r))
    (live_rows (ht_id h) t) ->
  (forall c, Pruning.reserved c -> index_of (pv_physical pv) c = None) ->
  (forall r, wanted r = true -> Forall (meets (pv_physical pv) r) filters) ->
  scan (H := Parts.live_parts_pruned text_to_bigint t) deser dec pv requested filters None = Ok plan ->
  executes plan out ->
  exists rows,
    Forall2 (answers pv (default (seq 0 (length (pv_query pv))) requested)) rows out /\
    List.filter wanted rows
    ≡ₚ List.filter wanted (List.filter (in_slice pv)
         (concat (List.map (fun r => part_rows pv (pr_meta r)) (live_rows (ht_id h) t)))).
Proof.
  intros N D Res Wf S X. apply try_new_aligned in N as (Al & Hh & Sl).
  apply scan_Ok in S as (ps & proj & p & p' & exprs & order & L & P & ->).
  apply (planned_run _ _ _ _ _ _ _ _ P) in X as (kepts & rows & F & Pm & ->). exists rows. split.
  { apply Forall2_fmap_r, Forall_Forall2_diag, Forall_forall. intros r _. by eapply output_answers. }
  rewrite Pm, !filter_and. unfold Query.live_parts_pruned, Parts.live_parts_pruned in L. inv_ok.
  destruct (Parts.filter_rows _ _) as [rs|] eqn:Fr; simpl in E; [|done]. injection E as <-.
  assert (Split : List.filter (fun r => Parts.live_in (ht_id (hypertable pv)) r && Parts.key_clause (slice pv) r) (parts t)
    = List.filter (Parts.key_clause (slice pv)) (live_rows (ht_id (hypertable pv)) t)) by (apply eq_sym, filter_and).
  rewrite Split in Fr. clear Split.
  assert (Sub : Forall (fun part => stored_as_described (meta part)) (List.map part_of_row (merge_sort row_id_le rs))).
  { apply Forall_forall. intros part (r & <- & Hr%list_elem_of_In)%list_elem_of_In%List.in_map_iff.
    rewrite (merge_sort_Permutation row_id_le) in Hr. apply (filter_rows_In _ _ _ _ Fr), filter_In_iff in Hr as [Hr _].
    rewrite Forall_forall in D. by destruct (D r Hr). }
  rewrite (files_due _ _ Sub F), <-(listed_due filters _ _ Res Wf D Fr), List.map_map. simpl. apply filter_perm.
  rewrite <-!List.flat_map_concat_map. apply Permutation_flat_map, merge_sort_Permutation.
Qed.

End pruned.

End scan.
End QueryTheorems.

(** * A scan, run

    A namespace asks a shared file for its recent rows: the catalog lists the
    part, its key index leaves one of two row groups unread, and the packing key
    is read, filtered on and projected away. *)

Import CatalogDb Commit CommitTheorems Pruning Batches Query QuerySpec QueryTheorems.

Module QueryExamples.

#[local] Existing Instance Expr.ex_datafusion.

Definition ex_schema : ArrowSchema := [mkField "k" Int64 false []; mkField "ts" Int64 true []].
Definition group1 : RecordBatch := mkBatch ex_schema [Int64Array [Some 1; Some 5; Some 5]; Int64Array [Some 10; Some 20; Some 12]].
Definition group2 : RecordBatch := mkBatch ex_schema [Int64Array [Some 9]; Int64Array [Some 30]].
Definition ex_groups : list RecordBatch := [group1; group2].
Definition ex_file : RecordBatch := cat ex_schema ex_groups.

Definition key_column_of (mn mx : Z) : Stats.RowGroupMetaData :=
  [Stats.mkRgColumn "k" (Some (Stats.StatsInt64 (Some mn) (Some mx)))].
Definition ex_row_groups : list Stats.RowGroupMetaData := [key_column_of 1 5; key_column_of 9 9].

Definition ex_meta : PartMeta :=
  mkPartMeta "a" JNull 1 9 4 10 0
    (Stats.with_key_index (Stats.int64_column_stats ex_file) (Stats.key_bitmap Stats.w_ser Stats.w_enc ex_file "k")
       (Stats.key_row_groups ex_row_groups "k")).
Definition ex_part : PartRow := mkPartRow 1 1 ex_meta (key_filter Stats.w_dec Stats.w_deser ex_meta) 1 None None.

Definition ex_table_schema : json :=
  JObject [("fields"%string, JArray [Schema.field_json "k" "int64" [("nullable"%string, JBool false)];
    Schema.field_json "ts" "int64" []])].
Definition ex_table : Hypertable := mkHypertable 1 "events" ex_table_schema JNull ["k"; "ts"]%string "k" Packed.
Definition ex_tables : Tables :=
  with_parts (mkTables [ex_table] [mkLogicalTable 1 5 "logs" 1 None] [] [] ∅ ∅ [] [] [] []) [ex_part].

Definition ex_pv : UkielTableProvider :=
  match try_new ex_table (Some 5) with Ok pv => pv | Err _ => mkProvider ex_table [] [] (Schema.mkTableColumns []) None end.

(** [WHERE ts > 15], asked of column [ts] alone. *)
Definition ex_filters : list DfExpr := [BinaryExpr (LitInt64 15) OpLt (Column "ts")].
Definition ex_wanted (r : Row) : bool := match r !! 1%nat with Some (CInt (Some v)) => (15 <? v) && bool_decide (in_i64 v) | _ => false end.
Definition ex_store (p : string) : option (list RecordBatch) := if String.eqb p "a" then Some ex_groups else None.
Definition no_alias (c : Expr.Compiled) (r : Row) : Cell := CInt None.

Definition ex_scan : ExecutionPlan :=
  ProjectionExec [(ColumnRef 1, "ts"%string)]
    (FilterExec (mkKeyPredicate 0 5)
      (DataSourceExec (mkScan (pv_physical ex_pv) [[mkFile "a" 10 (Some [true; false])]] [0; 1]%nat
        (Some (mkKeyPredicate 0 5)) (Some [0; 1]%nat)))).

#[local] Instance ex_listing : PartListing := Parts.live_parts_pruned (fun _ => None) ex_tables.

Lemma ex_opened : Query.table 5 "logs" ex_tables ex_tables = Ok (Some ex_pv).
Proof. vm_compute. reflexivity. Qed.

Lemma ex_scanned : scan Stats.w_deser Stats.w_dec ex_pv (Some [1%nat]) ex_filters None = Ok ex_scan.
Proof. vm_compute. reflexivity. Qed.

(** The reader applied the pushed-down key, and not the range. *)
Definition ex_read : list Row := [[CInt (Some 5); CInt (Some 20)]; [CInt (Some 5); CInt (Some 12)]].

Lemma ex_runs : executes ex_store no_alias ex_wanted ex_scan [[CInt (Some 20)]; [CInt (Some 12)]].
Proof.
  change [[CInt (Some 20)]; [CInt (Some 12)]]
    with (List.map (output_row no_alias [(ColumnRef 1, "ts"%string)]) (List.filter (holds (Some (mkKeyPredicate 0 5))) ex_read)).
  apply exec_projection, exec_filter. apply (exec_source ex_store no_alias ex_wanted _ [ex_read]); [|done].
  constructor; [|constructor].
  exists ex_groups, [group1], ex_read.
  split; [done|]. split; [done|]. split; [|split; [vm_compute; reflexivity|done]].
  apply (sublist_cons [CInt (Some 1); CInt (Some 10)]). done.
Qed.

Lemma scans_are_isolated_witness :
  Query.table 5 "logs" ex_tables ex_tables = Ok (Some ex_pv) /\
  exists g r, g ∈ ex_groups /\ r ∈ group_rows (pv_physical ex_pv) g /\ r !! 0%nat = Some (CInt (Some 5)) /\
    answers ex_pv [1%nat] r [CInt (Some 20)].
Proof.
  split; [exact ex_opened|].
  destruct (scans_are_isolated Stats.w_deser Stats.w_dec ex_store no_alias ex_wanted 5 "logs" ex_tables ex_tables ex_pv
    (Some [1%nat]) ex_filters None ex_scan _ [CInt (Some 20)] ex_opened ex_scanned ex_runs ltac:(left))
    as (ps & part & groups & g & r & j & L & Hp & G & Hg & Hr & I & K & A).
  assert (P : path (meta part) = "a"%string).
  { vm_compute in L. injection L as <-. apply list_elem_of_singleton in Hp as ->. reflexivity. }
  rewrite P in G. injection G as <-. vm_compute in I. injection I as <-. exists g, r.
  split; [exact Hg|]. split; [exact Hr|]. split; [exact K|exact A].
Defined.

Lemma ex_described : file_described Stats.w_ser Stats.w_enc ex_meta ex_schema ex_groups "k".
Proof.
  split.
  - constructor; [|constructor; [|constructor]]; eexists; apply ok_columns; (split; [done|]);
      repeat (constructor; [by split|]); constructor.
  - split; [repeat constructor|by apply (bool_decide_unpack _); vm_compute| |].
    + intros i v (idx & vs & Hi & Hc & Hv). vm_compute in Hi. injection Hi as <-. injection Hc as <-.
      destruct i as [|[|[|[|i]]]]; simpl in Hv; [injection Hv as <-; simpl; lia..|done].
    + eexists _, _. split; [reflexivity|by right].
  - eexists _, _. split; [reflexivity|]. right. exists ex_row_groups. split; [reflexivity|].
    constructor; [|constructor; [|constructor]]; intros col mn mx [= <-] [= <- <-] i v (idx & vs & Hi & Hc & Hv);
      vm_compute in Hi; injection Hi as <-; injection Hc as <-.
    + destruct i as [|[|[|i]]]; simpl in Hv; [injection Hv as <-; lia..|done].
    + destruct i as [|i]; simpl in Hv; [injection Hv as <-; lia|done].
Qed.

Lemma pruned_scan_is_full_scan_witness :
  try_new ex_table (Some 5) = Ok ex_pv /\
  exists rows, List.filter ex_wanted rows ≡ₚ [[CInt (Some 5); CInt (Some 20)]].
Proof.
  assert (N : try_new ex_table (Some 5) = Ok ex_pv) by (vm_compute; reflexivity). split; [exact N|].
  destruct (pruned_scan_is_full_scan Stats.w_deser Stats.w_dec ex_store no_alias ex_wanted Stats.w_ser Stats.w_enc
    Stats.w_deser_ser Stats.w_dec_enc ex_pv (fun _ => None) ex_table (Some 5) ex_tables (Some [1%nat]) ex_filters ex_scan [[CInt (Some 20)]; [CInt (Some 12)]] N)
    as (rows & _ & Pm); [..|exact ex_scanned|exact ex_runs|].
  - constructor; [|constructor]. split; [|reflexivity]. exists ex_schema, ex_groups. split; [reflexivity|exact ex_described].
  - intros c [->| ->]; reflexivity.
  - intros r Hr. constructor; [|constructor]. intros _ _. unfold ex_wanted in Hr.
    destruct (r !! 1%nat) as [[[v|]|]|] eqn:E; try done. apply andb_true_iff in Hr as [Hr Hi].
    exists 15, v. split; [by constructor; apply (bool_decide_unpack _); vm_compute|].
    split; [|by apply Z.ltb_lt in Hr]. eapply denotes_col; [|exact E|by apply bool_decide_eq_true in Hi].
    split; [reflexivity|by eexists].
  - exists rows. exact Pm.
Defined.

End QueryExamples.
