(* ===== verification/QueryServer.v ===== *)
(** * The query server (crates/ukiel-query/src: server.rs, results.rs, error.rs)

    What a statement's client is told: the encodings of a result, how a failure
    is classified, and the two time limits a statement runs under. DataFusion's
    planning and execution, the time each takes and Arrow's own encoders are
    parameters; metrics and log lines are not modelled. *)

From S2P Require Import Prelude Bytes Json Arrow Schema CatalogError Batches Expr Query.
Import CatalogError Batches.

Module Results.

Inductive ResultFormat := Rows | Columns | Arrow.

#[global] Instance ResultFormat_eq_dec : EqDecision ResultFormat.
Proof. solve_decision. Defined.

Definition default_format : ResultFormat := Columns.

Definition ARROW_STREAM_CONTENT_TYPE : string := "application/vnd.apache.arrow.stream".

(** [json!({..})]. *)
Definition json_object (entries : list (string * json)) : json :=
  JObject (List.fold_left (fun m e => jinsert e.1 e.2 m) entries []).

Definition schema_block (schema : ArrowSchema) : json :=
  JArray (List.map (fun f => json_object [("name", JString (f_name f));
    ("type", JString (Schema.ukiel_type_of f)); ("nullable", JBool (f_nullable f))]%string) schema).

Section encoders.
(** The JSON of a non-null value that is no [Int64], by its type; Arrow's JSON
    array writer and its IPC stream writer. *)
Context (render : DataType -> Opaque -> json).
Context (array_writer : list RecordBatch -> result (list Z) string).
Context (parse_json : list Z -> option json).
Context (stream_writer : ArrowSchema -> list RecordBatch -> result (list Z) string).

Definition append_column_values (array : ArrayRef) : list json :=
  match array with
  | Int64Array vs => List.map (fun v => match v with Some z => jint z | None => JNull end) vs
  | OtherArray t vs => List.map (fun v => match v with Some o => render t o | None => JNull end) vs
  end.

(** One column over all batches; a batch without the column is a panic. *)
Definition column_json (batches : list RecordBatch) (idx : nat) : option (list json) :=
  (fun vs => concat vs) <$> mapM (fun b => append_column_values <$> rb_columns b !! idx) batches.

(** The loop over the fields: the columns so far and the last row count. *)
Fixpoint columns_loop (batches : list RecordBatch) (idx : nat) (fields : ArrowSchema)
    (columns : list (string * json)) (row_count : Z) : option (list (string * json) * Z) :=
  match fields with
  | [] => Some (columns, row_count)
  | field :: fields =>
      values ← column_json batches idx;
      columns_loop batches (S idx) fields (jinsert (f_name field) (JArray values) columns) (len values)
  end.

Definition to_columns (batches : list RecordBatch) (schema : ArrowSchema) : option json :=
  r ← columns_loop batches 0 schema [] 0;
  Some (json_object [("schema", schema_block schema); ("columns", JObject r.1); ("row_count", jint r.2)]%string).

Definition to_rows (batches : list RecordBatch) (schema : ArrowSchema) : result json string :=
  let? bytes := array_writer batches in
  let rows := default (JArray []) (parse_json bytes) in
  Ok (json_object [("schema", schema_block schema); ("rows", rows)]%string).

Definition to_arrow_ipc (batches : list RecordBatch) (schema : ArrowSchema) : result (list Z) string :=
  stream_writer schema batches.

End encoders.
End Results.

Module Errors.

(** [DataFusionError], by the variants the search goes through; an [External]
    error is a [CatalogError] or something else. *)
#[local] Unset Elimination Schemes.
Inductive DfError :=
| External (inner : option CatalogError)
| Context (context : string) (inner : DfError)
| Shared (inner : DfError)
| Diagnostic (inner : DfError)
| Collection (errors : list DfError)
| OtherDf (message : string).
#[local] Set Elimination Schemes.

(** [iter().find_map(f)]. *)
Fixpoint find_map {A B} (f : A -> option B) (l : list A) : option B :=
  match l with
  | [] => None
  | x :: l => match f x with Some y => Some y | None => find_map f l end
  end.

Fixpoint catalog_error_in (err : DfError) : option CatalogError :=
  match err with
  | External inner => inner
  | Context _ inner | Shared inner | Diagnostic inner => catalog_error_in inner
  | Collection errors => find_map catalog_error_in errors
  | OtherDf _ => None
  end.

Inductive QueryError :=
| QCatalog (e : CatalogError)
| QSchema (e : Schema.SchemaError)
| QDataFusion (e : DfError)
| QArrow (e : string)
| QExpr (e : Expr.ExprError)
| UnknownTable (name : string).

End Errors.
Import Results Errors.

(** [trait CatalogFailure], and how an error is rendered. *)
Class CatalogFailure (E : Type) := {
  catalog_failure : E -> option CatalogError;
  to_string : E -> string;
}.

Module Server.

Definition datafusion_failure (render : DfError -> string) : CatalogFailure DfError :=
  {| catalog_failure := catalog_error_in; to_string := render |}.

Definition query_failure (render : QueryError -> string) : CatalogFailure QueryError :=
  {| catalog_failure e :=
       match e with QCatalog e => Some e | QDataFusion e => catalog_error_in e | _ => None end;
     to_string := render |}.

(** [StatusCode], by the ones the server answers. *)
Inductive StatusCode := OK | BAD_REQUEST | REQUEST_TIMEOUT | INTERNAL_SERVER_ERROR | SERVICE_UNAVAILABLE.

#[global] Instance StatusCode_eq_dec : EqDecision StatusCode.
Proof. solve_decision. Defined.

Definition Failure : Type := StatusCode * string.

Definition bad_request {E} `{CatalogFailure E} (e : E) : Failure := (BAD_REQUEST, to_string e).

Definition unavailable (msg : string) : Failure := (SERVICE_UNAVAILABLE, msg).

Definition admission_error {E} `{CatalogFailure E} (err : E) : Failure :=
  match catalog_failure err with
  | Some c =>
      if is_recoverable_transport c then unavailable "catalog unavailable"
      else match c with
           | NotFound _ => bad_request err
           | _ => (INTERNAL_SERVER_ERROR, "catalog error"%string)
           end
  | None => bad_request err
  end.

(** ** Metric labels *)

(** [to_ascii_lowercase] and [str::contains]. *)
Definition lower_char (c : Ascii.ascii) : Ascii.ascii :=
  let n := Ascii.nat_of_ascii c in
  if (Nat.leb 65 n && Nat.leb n 90)%bool then Ascii.ascii_of_nat (n + 32) else c.
Fixpoint to_ascii_lowercase (s : string) : string :=
  match s with EmptyString => EmptyString | String c s => String (lower_char c) (to_ascii_lowercase s) end.
Definition contains (s pattern : string) : bool :=
  match String.index 0 pattern s with Some _ => true | None => false end.

Definition AGG : list string := ["count("; "sum("; "avg("; "min("; "max("]%string.

Definition query_class (sql : string) : string :=
  let lower := to_ascii_lowercase sql in
  if contains lower "information_schema" then "introspection"
  else if contains lower " group by " || List.existsb (contains lower) AGG then "aggregate"
  else "select".

Definition format_label (format : ResultFormat) : string :=
  match format with Rows => "rows" | Columns => "columns" | Arrow => "arrow" end.

(** ** A query *)

Record QueryRequest := mkRequest {
  namespace_id : Z;
  rq_sql : string;
  rq_format : option ResultFormat;
}.

Record AppState := mkAppState {
  statement_timeout : Z;
  admission_timeout : Z;
  retry_after_secs : Z;
}.

Inductive Body :=
| BodyJson (v : json)
| BodyArrow (bytes : list Z).

Record Response := mkResponse {
  status : StatusCode;
  retry_after : option Z;
  body : Body;
}.

(** A future that resolves after a time, or never. *)
Record Timed (A : Type) := mkTimed { elapsed : option Z; value : A }.
Arguments mkTimed {A}.
Arguments elapsed {A}.
Arguments value {A}.

Definition timed_bind {A B} (m : Timed A) (k : A -> Timed B) : Timed B :=
  let n := k (value m) in mkTimed (a ← elapsed m; b ← elapsed n; Some (a + b)) (value n).

(** [tokio::time::timeout]: the future's value if it is there by the deadline. *)
Definition timeout {A} (limit : Z) (m : Timed A) : Timed (option A) :=
  match elapsed m with
  | Some t => if t <=? limit then mkTimed (Some t) (Some (value m)) else mkTimed (Some limit) None
  | None => mkTimed (Some limit) None
  end.

Section server.
Context (render : DataType -> Opaque -> json).
Context (array_writer : list RecordBatch -> result (list Z) string).
Context (parse_json : list Z -> option json).
Context (stream_writer : ArrowSchema -> list RecordBatch -> result (list Z) string).
Context (render_df : DfError -> string) (render_query : QueryError -> string).

(** One statement's steps, as they come out and how long each takes: building
    the session, resolving the SQL, planning, and collecting the plan. *)
Record Steps := mkSteps {
  session : Timed (result unit QueryError);
  resolved : Timed (result ArrowSchema DfError);
  physical : Timed (result unit DfError);
  collected : Timed (result (list RecordBatch) DfError);
}.

(** A fallible step after others: it runs when they all succeeded. *)
Definition and_then {A B E} (m : Timed (result A E)) (k : A -> Timed (result B E)) : Timed (result B E) :=
  timed_bind m (fun r => match r with Ok a => k a | Err e => mkTimed (Some 0) (Err e) end).

Definition failing {A E} (f : E -> Failure) (m : Timed (result A E)) : Timed (result A Failure) :=
  mkTimed (elapsed m) (map_err f (value m)).

Definition admission (s : Steps) : Timed (result ArrowSchema Failure) :=
  and_then (failing (admission_error (H := query_failure render_query)) (session s)) (fun _ =>
  and_then (failing (admission_error (H := datafusion_failure render_df)) (resolved s)) (fun planned_schema =>
  and_then (failing (admission_error (H := datafusion_failure render_df)) (physical s)) (fun _ =>
  mkTimed (Some 0) (Ok planned_schema)))).

(** Admission under its own budget, then execution. *)
Definition admitted_run (state : AppState) (s : Steps) : Timed (result (ArrowSchema * list RecordBatch) Failure) :=
  and_then
    (timed_bind (timeout (admission_timeout state) (admission s)) (fun r =>
       mkTimed (Some 0) (default (Err (SERVICE_UNAVAILABLE, "catalog unavailable"%string)) r))) (fun planned_schema =>
  and_then (failing (bad_request (H := datafusion_failure render_df)) (collected s)) (fun batches =>
  mkTimed (Some 0) (Ok (planned_schema, batches)))).

(** [total_rows] only feeds a metric; [accepts_arrow]: whether the [Accept]
    header is readable text containing the stream's content type. *)
Definition negotiate (req : QueryRequest) (accept : option string) : ResultFormat :=
  match rq_format req with
  | Some f => f
  | None =>
      let accepts_arrow := match accept with Some s => contains s ARROW_STREAM_CONTENT_TYPE | None => false end in
      if accepts_arrow then Arrow else default_format
  end.

Definition result_schema (planned_schema : ArrowSchema) (batches : list RecordBatch) : ArrowSchema :=
  match batches with [] => planned_schema | b :: _ => rb_schema b end.

(** [None] is a panic of the column encoder. *)
Definition encode (format : ResultFormat) (schema : ArrowSchema) (batches : list RecordBatch)
  : option (result Body Failure) :=
  match format with
  | Rows => Some (let? v := map_err (fun e => (BAD_REQUEST, e)) (to_rows array_writer parse_json batches schema) in Ok (BodyJson v))
  | Columns => v ← to_columns render batches schema; Some (Ok (BodyJson v))
  | Arrow => Some (let? b := map_err (fun e => (BAD_REQUEST, e)) (to_arrow_ipc stream_writer batches schema) in Ok (BodyArrow b))
  end.

Definition timeout_message (limit : Z) : string :=
  ("query exceeded statement timeout (" +:+ pretty (limit / 10 ^ 9) +:+ "s)")%string.

Definition run_query_inner (state : AppState) (accept : option string) (req : QueryRequest) (s : Steps)
  : option (result Response Failure) :=
  match Server.value (timeout (statement_timeout state) (admitted_run state s)) with
  | None => Some (Err (REQUEST_TIMEOUT, timeout_message (statement_timeout state)))
  | Some (Err e) => Some (Err e)
  | Some (Ok (planned_schema, batches)) =>
      r ← encode (negotiate req accept) (result_schema planned_schema batches) batches;
      Some (let? b := r in Ok (mkResponse OK None b))
  end.

Definition run_query (state : AppState) (accept : option string) (req : QueryRequest) (s : Steps) : option Response :=
  r ← run_query_inner state accept req s;
  Some (match r with
        | Ok resp => resp
        | Err (status, msg) =>
            if bool_decide (status = SERVICE_UNAVAILABLE)
            then mkResponse status (Some (retry_after_secs state))
                   (BodyJson (json_object [("error", JString msg); ("retryable", JBool true);
                                           ("code", JString "catalog_unavailable")]%string))
            else mkResponse status None (BodyJson (json_object [("error"%string, JString msg)]))
        end).

(** ** Readiness *)

(** [object_store_reachable]: an answer or a [NotFound] on the sentinel. *)
Inductive HeadOutcome := HeadOk | HeadNotFound | HeadError.
Definition object_store_reachable (o : HeadOutcome) : bool :=
  match o with HeadOk | HeadNotFound => true | HeadError => false end.

(** [health]: the snapshot a registry reports; without one, whether a ping of
    the catalog answers. *)
Definition readyz (state : AppState) (head : HeadOutcome) (health : option json) (ping : bool) : Response :=
  let object_store_ok := object_store_reachable head in
  let body := [("object_store"%string, JString (if object_store_ok then "healthy" else "unavailable"))] in
  let '(ready, body) :=
    match health with
    | Some snapshot =>
        (object_store_ok && default false (jget snapshot "ready" ≫= as_bool),
         List.fold_left (fun m e => jinsert e.1 e.2 m) (default [] (as_object snapshot)) body)
    | None =>
        (object_store_ok && ping,
         jinsert "catalog" (JString (if ping then "healthy" else "unavailable")) body)
    end in
  let body := JObject (jinsert "ready" (JBool ready) body) in
  if ready then mkResponse OK None (BodyJson body)
  else mkResponse SERVICE_UNAVAILABLE (Some (retry_after_secs state)) (BodyJson body).

End server.
End Server.
