(* ===== verification/QueryServerSpec.v ===== *)
(** * What a client is told (theorems about [QueryServer])

    A failure's status names its cause -- an outage of the catalog is never
    reported as a bad statement, nor the other way round --, and a result's
    columns read back as the columns it had. *)

From S2P Require Import Prelude Bytes Json Arrow Schema CatalogError Batches Expr Query QueryServer.
Import CatalogError Batches Results Errors Server.

Module QueryServerSpec.

(** ** Errors inside errors *)

(** A catalog error somewhere in a DataFusion error. *)
Inductive hides (c : CatalogError) : DfError -> Prop :=
| hides_external : hides c (External (Some c))
| hides_context m e : hides c e -> hides c (Context m e)
| hides_shared e : hides c e -> hides c (Shared e)
| hides_diagnostic e : hides c e -> hides c (Diagnostic e)
| hides_collection es e : e ∈ es -> hides c e -> hides c (Collection es).

Lemma DfError_nested_ind (P : DfError -> Prop) :
  (forall o, P (External o)) -> (forall m e, P e -> P (Context m e)) -> (forall e, P e -> P (Shared e)) ->
  (forall e, P e -> P (Diagnostic e)) -> (forall es, Forall P es -> P (Collection es)) -> (forall m, P (OtherDf m)) ->
  forall e, P e.
Proof.
  intros H1 H2 H3 H4 H5 H6. fix IH 1. intros [o|m e|e|e|es|m]; [apply H1|apply H2, IH|apply H3, IH|apply H4, IH| |apply H6].
  apply H5. induction es as [|e es IHes]; constructor; [apply IH|exact IHes].
Qed.

Lemma find_map_Some {A B} (f : A -> option B) l y : find_map f l = Some y -> exists x, x ∈ l /\ f x = Some y.
Proof.
  induction l as [|x l IH]; simpl; [done|]. destruct (f x) eqn:E.
  - intros [= <-]. exists x. split; [left|done].
  - intros H. destruct (IH H) as (z & Hz & E'). exists z. split; [by right|done].
Qed.

Lemma find_map_None {A B} (f : A -> option B) l : find_map f l = None -> forall x, x ∈ l -> f x = None.
Proof.
  induction l as [|x l IH]; simpl; [by intros _ x ?%elem_of_nil|]. destruct (f x) eqn:E; [done|].
  intros H y [->|Hy]%elem_of_cons; [done|by apply IH].
Qed.

(** The search finds a hidden catalog error exactly when there is one. *)
Lemma search_finds err :
  match catalog_error_in err with Some c => hides c err | None => forall c, ~ hides c err end.
Proof.
  induction err as [o|m e IH|e IH|e IH|es IH|m] using DfError_nested_ind; simpl.
  - destruct o; [constructor|]. intros c H. inversion H.
  - destruct (catalog_error_in e); [by constructor|]. intros c H. inversion H; subst. by eapply IH.
  - destruct (catalog_error_in e); [by constructor|]. intros c H. inversion H; subst. by eapply IH.
  - destruct (catalog_error_in e); [by constructor|]. intros c H. inversion H; subst. by eapply IH.
  - rewrite Forall_forall in IH. destruct (find_map catalog_error_in es) as [c|] eqn:F.
    + apply find_map_Some in F as (e & He & E). specialize (IH e He). rewrite E in IH. by eapply hides_collection.
    + intros c H. inversion H as [| | | |? e He H']; subst. specialize (IH e He).
      rewrite (find_map_None _ _ F e He) in IH. by eapply IH.
  - intros c H. inversion H.
Qed.

(** ** Statuses *)

Section server.
Context (render : DataType -> Opaque -> json).
Context (array_writer : list RecordBatch -> result (list Z) string).
Context (parse_json : list Z -> option json).
Context (stream_writer : ArrowSchema -> list RecordBatch -> result (list Z) string).
Context (render_df : DfError -> string) (render_query : QueryError -> string).
#[local] Abbreviation run_query := (run_query render array_writer parse_json stream_writer render_df render_query).
#[local] Abbreviation encode := (encode render array_writer parse_json stream_writer).
#[local] Abbreviation admission := (admission render_df render_query).
#[local] Abbreviation admitted_run := (admitted_run render_df render_query).

(** The first step of the admission that failed: the catalog error behind it,
    if there is one. *)
Definition admission_failure (s : Steps) : option (option CatalogError) :=
  match Server.value (session s) with
  | Err e => Some (catalog_failure (CatalogFailure := query_failure render_query) e)
  | Ok _ =>
      match Server.value (resolved s) with
      | Err e => Some (catalog_error_in e)
      | Ok _ => match Server.value (physical s) with Err e => Some (catalog_error_in e) | Ok _ => None end
      end
  end.

Definition on_time {A} (limit : Z) (m : Timed A) : Prop :=
  exists t, elapsed m = Some t /\ t <= limit.

Lemma timeout_spec {A} limit (m : Timed A) :
  match Server.value (timeout limit m) with Some v => on_time limit m /\ v = Server.value m | None => ~ on_time limit m end.
Proof.
  unfold timeout, on_time. destruct (elapsed m) as [t|]; simpl.
  - destruct (Z.leb_spec t limit); simpl; [by split; [exists t|]|]. intros (t' & [= <-] & L). lia.
  - by intros (t & ? & _).
Qed.

Definition error_body (msg : string) : Body := BodyJson (json_object [("error"%string, JString msg)]).
Definition outage_body : Body :=
  BodyJson (json_object [("error", JString "catalog unavailable"); ("retryable", JBool true);
                         ("code", JString "catalog_unavailable")]%string).

Definition is_not_found (c : CatalogError) : bool := match c with NotFound _ => true | _ => false end.

Lemma admission_error_status {E} `{CatalogFailure E} (e : E) :
  let '(st, msg) := admission_error e in
  match catalog_failure e with
  | Some c =>
      if is_recoverable_transport c then st = SERVICE_UNAVAILABLE /\ msg = "catalog unavailable"%string
      else if is_not_found c then st = BAD_REQUEST else st = INTERNAL_SERVER_ERROR /\ msg = "catalog error"%string
  | None => st = BAD_REQUEST
  end.
Proof.
  unfold admission_error. destruct (catalog_failure e) as [c|]; [|done].
  destruct (is_recoverable_transport c); [done|]. by destruct c.
Qed.

(** How a failed admission is told. *)
Definition told (f : option CatalogError) (x : Failure) : Prop :=
  match f with
  | Some c =>
      if is_recoverable_transport c then x = (SERVICE_UNAVAILABLE, "catalog unavailable"%string)
      else if is_not_found c then x.1 = BAD_REQUEST else x = (INTERNAL_SERVER_ERROR, "catalog error"%string)
  | None => x.1 = BAD_REQUEST
  end.

Lemma admission_error_told {E} `{CatalogFailure E} (e : E) : told (catalog_failure e) (admission_error e).
Proof.
  pose proof (admission_error_status e) as S. destruct (admission_error e) as [st msg]. unfold told.
  destruct (catalog_failure e) as [c|]; [|done]. destruct (is_recoverable_transport c); [by destruct S as [-> ->]|].
  destruct (is_not_found c); [done|by destruct S as [-> ->]].
Qed.

Lemma admission_value s :
  match admission_failure s with
  | Some f => exists x, Server.value (admission s) = Err x /\ told f x
  | None => exists schema, Server.value (resolved s) = Ok schema /\ Server.value (admission s) = Ok schema
  end.
Proof.
  unfold admission_failure, Server.admission, and_then, timed_bind, failing. simpl.
  destruct (Server.value (session s)) as [[]|e]; simpl.
  2:{ eexists. split; [done|]. apply (admission_error_told (H := query_failure render_query)). }
  destruct (Server.value (resolved s)) as [schema|e]; simpl.
  2:{ eexists. split; [done|]. apply (admission_error_told (H := datafusion_failure render_df)). }
  destruct (Server.value (physical s)) as [[]|e]; simpl; [by exists schema|].
  eexists. split; [done|]. apply (admission_error_told (H := datafusion_failure render_df)).
Qed.

Lemma admitted_value state s :
  Server.value (admitted_run state s)
  = match Server.value (timeout (admission_timeout state) (admission s)) with
    | None => Err (SERVICE_UNAVAILABLE, "catalog unavailable"%string)
    | Some (Err x) => Err x
    | Some (Ok schema) =>
        match Server.value (collected s) with
        | Ok batches => Ok (schema, batches)
        | Err e => Err (BAD_REQUEST, render_df e)
        end
    end.
Proof.
  unfold Server.admitted_run, and_then, timed_bind, failing. simpl.
  destruct (Server.value (timeout _ _)) as [[schema|x]|]; simpl; [|done..]. by destruct (Server.value (collected s)).
Qed.

Lemma encode_failure format schema batches x : encode format schema batches = Some (Err x) -> x.1 = BAD_REQUEST.
Proof.
  destruct format; simpl.
  - destruct (to_rows _ _ _ _); simpl; [done|]. by intros [= <-].
  - by destruct (to_columns _ _ _).
  - destruct (to_arrow_ipc _ _ _); simpl; [done|]. by intros [= <-].
Qed.

(** C24: A response's status names its cause. A statement is told to come back
    (503, with a delay and a fixed body) exactly for an outage: its admission
    ran out of time, or the first step of it that failed had a recoverable
    catalog failure behind it, however deeply DataFusion wrapped it; a permanent
    catalog failure is the server's (500) and says nothing of its text; the
    client is only blamed (400) when no catalog failure, or an absent resource,
    is behind it, or the statement failed after its admission; 408 is the
    statement's own time limit; and a result is answered only within both
    limits, encoded as negotiated. *)
Theorem status_tells_the_cause state accept req s resp :
  run_query state accept req s = Some resp ->
  (forall c, admission_failure s = Some (Some c) -> is_recoverable_transport c = true ->
     status resp = SERVICE_UNAVAILABLE \/ status resp = REQUEST_TIMEOUT) /\
  match status resp with
  | REQUEST_TIMEOUT => ~ on_time (statement_timeout state) (admitted_run state s)
  | SERVICE_UNAVAILABLE =>
      retry_after resp = Some (retry_after_secs state) /\ body resp = outage_body /\
      (~ on_time (admission_timeout state) (admission s) \/
       exists c, admission_failure s = Some (Some c) /\ is_recoverable_transport c = true)
  | INTERNAL_SERVER_ERROR =>
      body resp = error_body "catalog error" /\
      exists c, admission_failure s = Some (Some c) /\ is_recoverable_transport c = false /\ is_not_found c = false
  | BAD_REQUEST =>
      on_time (admission_timeout state) (admission s) /\
      match admission_failure s with
      | Some f => f = None \/ exists m, f = Some (NotFound m)
      | None => (exists e, Server.value (collected s) = Err e) \/
          exists schema batches e, Server.value (resolved s) = Ok schema /\ Server.value (collected s) = Ok batches /\
            encode (negotiate req accept) (result_schema schema batches) batches = Some (Err e)
      end
  | OK =>
      on_time (statement_timeout state) (admitted_run state s) /\ on_time (admission_timeout state) (admission s) /\
      admission_failure s = None /\
      exists schema batches, Server.value (resolved s) = Ok schema /\ Server.value (collected s) = Ok batches /\
        encode (negotiate req accept) (result_schema schema batches) batches = Some (Ok (body resp))
  end.
Proof.
  unfold Server.run_query, run_query_inner. intros R.
  pose proof (timeout_spec (statement_timeout state) (admitted_run state s)) as T.
  destruct (Server.value (timeout (statement_timeout state) _)) as [v|].
  2:{ injection R as <-. simpl. split; [by right|done]. }
  destruct T as [T ->]. rewrite admitted_value in R.
  pose proof (timeout_spec (admission_timeout state) (admission s)) as A.
  destruct (Server.value (timeout (admission_timeout state) (admission s))) as [v|].
  2:{ injection R as <-. simpl. split; [by left|]. split_and!; try done. by left. }
  destruct A as [A ->]. pose proof (admission_value s) as V. destruct (admission_failure s) as [f|].
  - destruct V as (x & E & Tl). rewrite E in R. unfold told in Tl. destruct x as [st msg]. simpl in R.
    destruct f as [c|]; [destruct (is_recoverable_transport c) eqn:Rc; [|destruct (is_not_found c) eqn:Nf]|]; simpl in Tl.
    + injection Tl as -> ->. injection R as <-. simpl. split; [by left|]. split_and!; try done. right. by exists c.
    + subst st. injection R as <-. simpl. split; [intros c' [= <-]; congruence|]. split; [done|]. right.
      destruct c; try done. by eexists.
    + injection Tl as -> ->. injection R as <-. simpl. split; [intros c' [= <-]; congruence|]. split; [done|]. by exists c.
    + subst st. injection R as <-. simpl. split; [done|]. split; [done|]. by left.
  - destruct V as (schema & Rs & E). rewrite E in R. split; [done|].
    destruct (Server.value (collected s)) as [batches|e] eqn:C.
    2:{ injection R as <-. simpl. split; [done|]. left. by exists e. }
    destruct (encode (negotiate req accept) (result_schema schema batches) batches) as [r|] eqn:En; [|done].
    simpl in R. destruct r as [b|x]; simpl in R.
    + injection R as <-. simpl. split_and!; try done. by exists schema, batches.
    + pose proof (encode_failure _ _ _ _ En) as X. destruct x as [st msg]. simpl in X. subst st. injection R as <-. simpl.
      split; [done|]. right. by exists schema, batches, (BAD_REQUEST, msg).
Qed.

End server.

(** ** Columns read back *)

Section columns.
Context (render : DataType -> Opaque -> json).

(** The values of a JSON column of integers. *)
Definition read_int (v : json) : option (option Z) :=
  match v with JNull => Some None | v => Some <$> as_i64 v end.
Definition read_column (columns : json) (name : string) : option (list json) := jget columns name ≫= as_array.

Definition columns_of (v : json) : option json := jget v "columns".
Definition row_count_of (v : json) : option Z := jget v "row_count" ≫= as_i64.

Lemma append_values t a b :
  array_has_type t a -> array_has_type t b ->
  append_column_values render (array_append a b) = append_column_values render a ++ append_column_values render b.
Proof.
  destruct a, b; simpl; intros H1 H2; [apply List.map_app|by destruct H2 as [-> []]|by destruct H1 as [-> []]|].
  destruct H1 as [<- _], H2 as [<- _]. apply List.map_app.
Qed.

(** Column [i] of the response is column [i] of all the rows. *)
Lemma column_json_cat s batches i f :
  all_ok s batches -> s !! i = Some f ->
  exists a, rb_columns (cat s batches) !! i = Some a /\ array_has_type (f_type f) a /\
    column_json render batches i = Some (append_column_values render a).
Proof.
  intros A Hf. induction A as [|b batches [n Hb] A (a & Ha & Ta & IH)].
  - exists (empty_array (f_type f)). split_and!; [by apply (map_at (fun g => empty_array (f_type g)))| |].
    + by destruct (f_type f).
    + unfold column_json. simpl. by destruct (f_type f).
  - destruct (proj1 (ok_columns s n b) Hb) as [_ F]. destruct (Forall2_lookup_l _ _ _ _ _ F Hf) as (c & Hc & Tc & _).
    exists (array_append c a). split_and!; [|by apply array_append_type|].
    + rewrite cat_cons. simpl. rewrite lookup_zip_with, Hc, Ha. done.
    + unfold column_json in *. simpl. rewrite Hc. simpl. destruct (mapM _ batches); simpl in *; [|done].
      injection IH as IH. simpl. by rewrite (append_values (f_type f)), <-IH.
Qed.

Lemma columns_loop_spec batches fields : forall idx columns n columns' n',
  map_sorted columns -> NoDup (List.map f_name fields) ->
  columns_loop render batches idx fields columns n = Some (columns', n') ->
  (forall nm, nm ∉ List.map f_name fields -> assoc nm columns' = assoc nm columns) /\
  (forall i f, fields !! i = Some f -> exists values, column_json render batches (idx + i) = Some values /\
    assoc (f_name f) columns' = Some (JArray values)) /\
  (fields = [] -> n' = n) /\
  (fields <> [] -> exists values, column_json render batches (idx + (length fields - 1)) = Some values /\ n' = len values).
Proof.
  induction fields as [|f fields IH]; intros idx columns n columns' n' Srt Nd L; simpl in L.
  - injection L as <- <-. split_and!; [done| |done|done]. intros i f' H. by rewrite lookup_nil in H.
  - destruct (column_json render batches idx) as [values|] eqn:C; simpl in L; [|done].
    simpl in Nd. apply NoDup_cons in Nd as [Nf Nd].
    destruct (IH (S idx) _ _ _ _ (jinsert_sorted _ _ _ Srt) Nd L) as (Out & A & Z & Last). split_and!; [| |done|].
    + intros nm [Ne Nn]%not_elem_of_cons. rewrite Out, assoc_jinsert by done. by apply String.eqb_neq in Ne as ->.
    + intros [|i] g H; simpl in H.
      * injection H as ->. exists values. rewrite Nat.add_0_r. split; [done|].
        by rewrite Out, assoc_jinsert, String.eqb_refl by done.
      * destruct (A i g H) as (vs & Cv & Av). exists vs. split; [|done]. by rewrite <-Cv; f_equal; lia.
    + intros _. destruct fields as [|g fields].
      * exists values. rewrite (Z eq_refl). simpl. by rewrite Nat.add_0_r.
      * destruct (Last ltac:(done)) as (vs & Cv & ->). exists vs. split; [|done]. simpl in *. rewrite <-Cv. f_equal. lia.
Qed.

Lemma json_object_get (entries : list (string * json)) nm v :
  NoDup (List.map fst entries) -> (nm, v) ∈ entries -> jget (json_object entries) nm = Some v.
Proof.
  unfold json_object. simpl. intros Nd Hin.
  assert (G : forall m, map_sorted m -> map_sorted (List.fold_left (fun m e => jinsert e.1 e.2 m) entries m) /\
    (nm ∉ List.map fst entries -> assoc nm (List.fold_left (fun m e => jinsert e.1 e.2 m) entries m) = assoc nm m) /\
    ((nm, v) ∈ entries -> assoc nm (List.fold_left (fun m e => jinsert e.1 e.2 m) entries m) = Some v)).
  { clear Hin. induction entries as [|[k x] entries IH]; intros m Srt; simpl in *.
    - split_and!; [done..|]. by intros ?%elem_of_nil.
    - apply NoDup_cons in Nd as [Nk Nd]. destruct (IH Nd _ (jinsert_sorted k x m Srt)) as (S' & Out & Get). split_and!; [done| |].
      + intros [Ne Nn]%not_elem_of_cons. rewrite Out, assoc_jinsert by done. by apply String.eqb_neq in Ne as ->.
      + intros [[= <- <-]|H]%elem_of_cons; [|by apply Get]. by rewrite Out, assoc_jinsert, String.eqb_refl by done. }
  apply (G [] ltac:(constructor)); done.
Qed.

Lemma read_ints zs : Forall (fun v => forall z, v = Some z -> in_i64 z) zs ->
  mapM read_int (append_column_values render (Int64Array zs)) = Some zs.
Proof.
  intros F. apply mapM_Some_2. simpl. apply Forall2_fmap_l, Forall_Forall2_diag. eapply Forall_impl; [exact F|].
  intros [z|] H; simpl; [|done]. by rewrite bool_decide_eq_true_2 by by apply H.
Qed.

(** A columnar response reads back: with distinct column names, every column
    stands under its name with the JSON of its values in row order over all
    batches, an [Int64] column decodes to exactly its values and NULLs, and the
    row count is the length of every column. *)
Theorem columns_read_back s batches v :
  distinct_names s -> s <> [] -> all_ok s batches -> to_columns render batches s = Some v ->
  (exists k, jget v "row_count" = Some (jint (Z.of_nat k)) /\ batch_ok s k (cat s batches)) /\
  jget v "schema" = Some (schema_block s) /\
  forall i f, s !! i = Some f -> exists columns values a,
    jget v "columns" = Some columns /\ jget columns (f_name f) = Some (JArray values) /\
    rb_columns (cat s batches) !! i = Some a /\ values = append_column_values render a /\
    (forall zs, a = Int64Array zs -> Forall (fun v => forall z, v = Some z -> in_i64 z) zs ->
       mapM read_int values = Some zs).
Proof.
  intros D Ne A T. unfold to_columns in T. destruct (columns_loop _ _ _ _ _ _) as [[columns n]|] eqn:L; simpl in T; [|done].
  injection T as <-. apply columns_loop_spec in L as (_ & Cols & _ & Last); [|constructor|done].
  destruct (cat_ok s batches A) as [k Hk]. destruct (proj1 (ok_columns s k _) Hk) as [_ F].
  assert (Get : forall nm x, (nm, x) ∈ [("schema", schema_block s); ("columns", JObject columns); ("row_count", jint n)]%string ->
    jget (json_object [("schema", schema_block s); ("columns", JObject columns); ("row_count", jint n)]%string) nm = Some x).
  { intros nm x Hin. apply json_object_get; [|done]. apply (bool_decide_unpack _). vm_compute. done. }
  split_and!.
  - exists k. split; [|done]. rewrite (Get "row_count"%string (jint n)) by set_solver. do 2 f_equal.
    destruct (Last Ne) as (values & Cv & ->).
    assert (Lt : (length s - 1 < length s)%nat) by (destruct s; simpl in *; [done|lia]).
    apply lookup_lt_is_Some_2 in Lt as [f Hf]. destruct (column_json_cat s batches _ f A Hf) as (a & Ha & _ & E).
    simpl in Cv. rewrite E in Cv. injection Cv as <-. destruct (Forall2_lookup_r _ _ _ _ _ F Ha) as (g & _ & _ & La).
    unfold len. f_equal. rewrite <-La. destruct a; simpl; apply List.length_map.
  - apply Get. set_solver.
  - intros i f Hf. destruct (Cols i f Hf) as (values & Cv & Av). destruct (column_json_cat s batches i f A Hf) as (a & Ha & _ & E).
    simpl in Cv. rewrite E in Cv. injection Cv as <-. exists (JObject columns), (append_column_values render a), a.
    split; [apply Get; set_solver|]. split_and!; try done. intros zs -> Fz. by apply read_ints.
Qed.

End columns.
Definition field_block : json := json_object [("name", JString "id"); ("type", JString "int64"); ("nullable", JBool false)]%string.

(** Two result columns of one name -- [SELECT a.id, b.id] of a join -- are
    not both answered: the schema block lists two, the columns object holds one
    entry, the last, and the first column's values are gone. *)
Theorem duplicate_columns_collapse (render : DataType -> Opaque -> json) :
  exists s batches v,
    all_ok s batches /\ to_columns render batches s = Some v /\
    (jget v "schema" ≫= as_array) = Some [field_block; field_block] /\
    jget v "columns" = Some (JObject [("id"%string, JArray [jint 3; jint 4])]) /\
    List.map (fun b => rb_columns b !! 0%nat) batches = [Some (Int64Array [Some 1; Some 2])].
Proof.
  exists [mkField "id" Int64 false []; mkField "id" Int64 false []],
    [mkBatch [mkField "id" Int64 false []; mkField "id" Int64 false []] [Int64Array [Some 1; Some 2]; Int64Array [Some 3; Some 4]]].
  eexists. split; [|split; [reflexivity|split_and!; reflexivity]].
  constructor; [|constructor]. exists 2%nat. apply ok_columns. split; [done|]. repeat (constructor; [by split|]). constructor.
Qed.

(** ** The theorems applied *)

Definition ex_failover : DfError :=
  Errors.Context "planning" (Collection [OtherDf "no field"; Shared (External (Some (Db Io)))]).
Definition ex_steps : Steps :=
  mkSteps (mkTimed (Some 10) (Ok tt)) (mkTimed (Some 5) (Err ex_failover)) (mkTimed None (Ok tt)) (mkTimed None (Ok [])).
Definition ex_state : AppState := mkAppState 1000 100 1.
Definition ex_request : QueryRequest := mkRequest 5 "SELECT 1" None.

Lemma ex_answer :
  run_query (fun _ _ => JNull) (fun _ => Ok []) (fun _ => None) (fun _ _ => Ok []) (fun _ => EmptyString) (fun _ => EmptyString)
    ex_state None ex_request ex_steps = Some (mkResponse SERVICE_UNAVAILABLE (Some 1) outage_body).
Proof. vm_compute. reflexivity. Qed.

Lemma status_tells_the_cause_witness :
  is_recoverable_transport (Db Io) = true /\
  exists c, admission_failure (fun _ => EmptyString) ex_steps = Some (Some c) /\ is_recoverable_transport c = true.
Proof.
  split; [reflexivity|].
  destruct (proj2 (status_tells_the_cause _ _ _ _ _ _ _ _ _ _ _ ex_answer)) as (_ & _ & [N|(c & E & R)]).
  - destruct N. exists 15. split; [reflexivity|]. simpl. lia.
  - exists c. split; [exact E|exact R].
Defined.

Definition ex_columns_schema : ArrowSchema := [mkField "a" Int64 true []; mkField "b" Int64 false []].
Definition ex_columns : list RecordBatch :=
  [mkBatch ex_columns_schema [Int64Array [Some 1]; Int64Array [Some 7]];
   mkBatch ex_columns_schema [Int64Array [None]; Int64Array [Some 8]]].
Definition ex_columns_json : json :=
  match to_columns (fun _ _ => JNull) ex_columns ex_columns_schema with Some v => v | None => JNull end.

Lemma ex_columns_eq : to_columns (fun _ _ => JNull) ex_columns ex_columns_schema = Some ex_columns_json.
Proof. vm_compute. reflexivity. Qed.

Lemma ex_columns_ok : all_ok ex_columns_schema ex_columns.
Proof.
  constructor; [|constructor; [|constructor]]; exists 1%nat; apply ok_columns; (split; [done|]);
    repeat (constructor; [by split|]); constructor.
Qed.

Lemma columns_read_back_witness :
  jget ex_columns_json "schema" = Some (schema_block ex_columns_schema) /\
  exists values, mapM read_int values = Some [Some 1; None].
Proof.
  destruct (columns_read_back (fun _ _ => JNull) ex_columns_schema ex_columns ex_columns_json) as (_ & S & C);
    [apply (bool_decide_unpack _); vm_compute; exact I|done|exact ex_columns_ok|exact ex_columns_eq|].
  split; [exact S|]. destruct (C 0%nat _ eq_refl) as (columns & values & a & _ & _ & A & _ & R).
  exists values. apply R; [vm_compute in A; injection A as <-; reflexivity|].
  constructor; [intros z [= <-]; apply (bool_decide_unpack _); vm_compute; exact I|].
  constructor; [by intros z|constructor].
Defined.

End QueryServerSpec.
