(* ===== verification/DiskCache.v ===== *)
(** * The disk cache (crates/ukiel-query/src/cache/disk.rs)

    One budget of bytes and entries for published files and fills in progress.
    The state is the index under the mutex and the files of the directory; every
    filesystem call may fail ([Io]). Offsets and lengths are [u64], reader
    counts [usize], with the arithmetic of a release build. Metrics are not
    modelled. *)

From S2P Require Import Prelude.

(** The filesystem's answers to one call: the calls that fail though the file is
    as they need it; a write that fails may have written some bytes. *)
Record Io := mkIo {
  remove_fails : string -> bool;
  open_fails : string -> bool;
  create_fails : string -> bool;
  write_fails : string -> option nat;
  sync_fails : string -> bool;
  rename_fails : string -> bool;
}.

Module DiskCache.

Definition LOCK : string := ".ukiel-cache.lock".

Record CacheConfig := mkCacheConfig {
  large_object_threshold : Z;
  chunk_size : Z;
  write_through : bool;
  cf_max_bytes : Z;
  cf_max_entries : Z;
  cf_size_entries : Z;
}.

Definition default_config : CacheConfig :=
  mkCacheConfig (64 * 1024 * 1024) (8 * 1024 * 1024) true (16 * 1024 * 1024 * 1024) 100000 10000.

Record Entry := mkEntry { e_bytes : Z; readers : Z }.

Abbreviation Files := (gmap string (list Z)).

(** [entries]: most recently used first. *)
Record State := mkState {
  entries : list (string * Entry);
  pending : gmap string Z;
  resident : Z;
  reserved : Z;
}.

Record DiskCache := mkCache {
  max_bytes : Z;
  max_entries : Z;
  state : State;
  files : Files;
}.

Record CacheStats := mkStats {
  resident_bytes : Z;
  reserved_bytes : Z;
  st_entries : Z;
  inflight_entries : Z;
  st_size_entries : Z;
}.

Definition with_state (c : DiskCache) (s : State) (f : Files) : DiskCache :=
  mkCache (max_bytes c) (max_entries c) s f.

Definition wrap_usize (z : Z) : Z := z mod 2 ^ 64.
Definition saturating_sub (a b : Z) : Z := Z.max (a - b) 0.
Definition sat_add (a b : Z) : Z := Z.min (a + b) (2 ^ 64 - 1).

(** ** The LRU index: the [lru] crate's map, a list by recency *)

Fixpoint peek {A} (path : string) (l : list (string * A)) : option A :=
  match l with
  | [] => None
  | (p, e) :: l => if String.eqb p path then Some e else peek path l
  end.
Definition pop {A} (path : string) (l : list (string * A)) : list (string * A) :=
  List.filter (fun e => negb (String.eqb e.1 path)) l.
(** [put], and [get_mut] writing the entry back: most recently used. *)
Definition put {A} (path : string) (e : A) (l : list (string * A)) : list (string * A) := (path, e) :: pop path l.
Definition replace_entry (path : string) (e : Entry) (l : list (string * Entry)) : list (string * Entry) :=
  List.map (fun x => if String.eqb x.1 path then (x.1, e) else x) l.

(** ** Names *)

Fixpoint has_prefix (p s : list Ascii.ascii) : option (list Ascii.ascii) :=
  match p, s with
  | [], s => Some s
  | a :: p, b :: s => if Ascii.eqb a b then has_prefix p s else None
  | _, [] => None
  end.

Fixpoint split_once_chars (pat s : list Ascii.ascii) : option (list Ascii.ascii * list Ascii.ascii) :=
  match has_prefix pat s with
  | Some rest => Some ([], rest)
  | None =>
      match s with
      | [] => None
      | c :: s => r ← split_once_chars pat s; Some (c :: r.1, r.2)
      end
  end.

(** [rsplit_once], [strip_suffix], [strip_prefix], [split]. *)
Definition rsplit_once (s pat : string) : option (string * string) :=
  r ← split_once_chars (rev (String.list_ascii_of_string pat)) (rev (String.list_ascii_of_string s));
  Some (String.string_of_list_ascii (rev r.2), String.string_of_list_ascii (rev r.1)).
Definition strip_suffix (s suffix : string) : option string :=
  r ← has_prefix (rev (String.list_ascii_of_string suffix)) (rev (String.list_ascii_of_string s));
  Some (String.string_of_list_ascii (rev r)).
Definition strip_prefix (s prefix : string) : option string :=
  r ← has_prefix (String.list_ascii_of_string prefix) (String.list_ascii_of_string s);
  Some (String.string_of_list_ascii r).
Fixpoint split_chars (fuel : nat) (pat s : list Ascii.ascii) : list (list Ascii.ascii) :=
  match fuel with
  | O => [s]
  | S fuel =>
      match split_once_chars pat s with
      | Some (a, rest) => a :: split_chars fuel pat rest
      | None => [s]
      end
  end.
Definition split (s pat : string) : list string :=
  List.map String.string_of_list_ascii
    (split_chars (String.length s) (String.list_ascii_of_string pat) (String.list_ascii_of_string s)).

Definition is_ascii_hexdigit (c : Ascii.ascii) : bool :=
  let n := Ascii.nat_of_ascii c in
  (Nat.leb 48 n && Nat.leb n 57) || (Nat.leb 65 n && Nat.leb n 70) || (Nat.leb 97 n && Nat.leb n 102).

Definition hash (s : string) : bool :=
  Nat.eqb (String.length s) 64 && List.forallb is_ascii_hexdigit (String.list_ascii_of_string s).

(** [str::parse] of the integer types: an optional sign, then digits. *)
Fixpoint digits (acc : Z) (s : list Ascii.ascii) : option Z :=
  match s with
  | [] => Some acc
  | c :: s =>
      let n := Z.of_nat (Ascii.nat_of_ascii c) - 48 in
      if (0 <=? n) && (n <=? 9) then digits (10 * acc + n) s else None
  end.
Definition parse_digits (s : list Ascii.ascii) : option Z := match s with [] => None | _ => digits 0 s end.
Definition parse_int (lo hi : Z) (s : string) : option Z :=
  z ← match String.list_ascii_of_string s with
      | c :: rest =>
          if Nat.eqb (Ascii.nat_of_ascii c) 43 then parse_digits rest
          else if Nat.eqb (Ascii.nat_of_ascii c) 45 && (lo <? 0) then Z.opp <$> parse_digits rest
          else parse_digits (c :: rest)
      | [] => None
      end;
  if (lo <=? z) && (z <=? hi) then Some z else None.
Definition parse_u64 : string -> option Z := parse_int 0 (2 ^ 64 - 1).
Definition parse_u16 : string -> option Z := parse_int 0 (2 ^ 16 - 1).
Definition parse_i64 : string -> option Z := parse_int i64_min i64_max.

Section cache.
(** [uuid::Uuid::parse_str(s).is_ok()]. *)
Context (is_uuid : string -> bool).

Definition managed_name (name : string) : bool :=
  match (match rsplit_once name ".tmp-" with
         | Some (base, id) => if is_uuid id then Some (base, true) else None
         | None => Some (name, false)
         end) with
  | None => false
  | Some (base, temporary) =>
      if match strip_suffix base ".file" with Some h => hash h | None => false end then true
      else
        let legacy (object : string) :=
          match (match strip_suffix object ".parquet" with
                 | Some part => Some part
                 | None => if temporary : bool then Some object else None
                 end) with
          | None => false
          | Some part =>
              match split part "__" with
              | [f0; f1; f2; f3] =>
                  String.eqb f0 "ht" && bool_decide (is_Some (parse_i64 f1))
                  && match strip_prefix f2 "L" with Some l => bool_decide (is_Some (parse_u16 l)) | None => false end
                  && is_uuid f3
              | _ => false
              end
          end in
        match rsplit_once base ".chunk-" with
        | Some (object, chunk) =>
            if bool_decide (parse_u64 chunk = None) then false
            else if match rsplit_once object "." with
                    | Some (key, size) => hash key && match parse_u64 size with Some n => 0 <? n | None => false end
                    | None => false
                    end then true
            else legacy object
        | None => legacy base
        end
  end.

Definition is_temporary (name : string) : bool :=
  match rsplit_once name ".tmp-" with Some (_, id) => is_uuid id | None => false end.

(** ** Room *)

(** [std::fs::remove_file]: whether the file is gone, and the files after. *)
Inductive RemoveOutcome := Removed | RemoveNotFound | RemoveError.
Definition remove_file (io : Io) (path : string) (f : Files) : RemoveOutcome * Files :=
  if remove_fails io path then (RemoveError, f)
  else match f !! path with
       | Some _ => (Removed, delete path f)
       | None => (RemoveNotFound, f)
       end.

Definition over (c : DiskCache) (s : State) (bytes : Z) (entry : bool) : bool :=
  (saturating_sub (max_bytes c) (resident s + reserved s) <? bytes)
  || (max_entries c <?
        sat_add (sat_add (len (entries s)) (Z.of_nat (size (pending s)))) (if entry then 1 else 0)).

(** The least recently used entry nobody reads. *)
Definition victim (s : State) : option (string * Entry) :=
  List.find (fun e => readers e.2 =? 0) (rev (entries s)).

(** The eviction loop: each round drops one entry. *)
Fixpoint evict (fuel : nat) (io : Io) (c : DiskCache) (bytes : Z) (entry : bool) (s : State) (f : Files)
  : bool * State * Files :=
  if negb (over c s bytes entry) then (true, s, f)
  else
    match fuel with
    | O => (false, s, f)
    | S fuel =>
        match victim s with
        | None => (false, s, f)
        | Some (path, e) =>
            match remove_file io path f with
            | (RemoveError, f) => (false, s, f)
            | (_, f) =>
                evict fuel io c bytes entry
                  (mkState (pop path (entries s)) (pending s) (resident s - e_bytes e) (reserved s)) f
            end
        end
    end.

Definition make_room (io : Io) (c : DiskCache) (bytes : Z) (entry : bool) (s : State) (f : Files) : bool * State * Files :=
  if max_bytes c <? bytes then (false, s, f)
  else evict (S (length (entries s))) io c bytes entry s f.

(** ** Opening a directory *)

(** An item of the directory: a regular file and its contents, or anything else. *)
Abbreviation DirItem := (string * option (list Z))%type.

Definition unmanaged (item : DirItem) : bool :=
  if String.eqb item.1 LOCK then false
  else match item.2 with Some _ => negb (managed_name item.1) | None => true end.

(** One item of the reindexing pass. *)
Definition reindex (io : Io) (c : DiskCache) (item : DirItem) : result DiskCache string :=
  let '(name, content) := item in
  if String.eqb name LOCK then Ok c
  else match content with
       | None => Err "cache directory must contain only regular cache files"%string
       | Some data =>
           let bytes := len data in
           if is_temporary name || (max_bytes c <? bytes) then
             match remove_file io name (files c) with
             | (Removed, f) => Ok (with_state c (state c) f)
             | _ => Err "remove_file"%string
             end
           else
             match make_room io c bytes true (state c) (files c) with
             | (false, _, _) => Err "cannot trim cache to configured limits"%string
             | (true, s, f) =>
                 Ok (with_state c (mkState (put name (mkEntry bytes 0) (entries s)) (pending s) (resident s + bytes) (reserved s)) f)
             end
       end.

Fixpoint reindex_all (io : Io) (c : DiskCache) (items : list DirItem) : result DiskCache string :=
  match items with
  | [] => Ok c
  | item :: items => let? c := reindex io c item in reindex_all io c items
  end.

(** [DiskCache::open] over a directory whose lock it could take ([locked]), its
    listing in the order [read_dir] gives it. *)
Definition open (io : Io) (config : CacheConfig) (locked : bool) (items : list DirItem) : result DiskCache string :=
  if (cf_max_bytes config =? 0) || (cf_max_entries config =? 0) || (chunk_size config =? 0)
  then Err "cache capacities must be positive"%string
  else if negb locked then Err "lock"%string
  else if List.existsb unmanaged items then Err "unrecognized contents in cache directory"%string
  else
    let content := omap (fun item => if String.eqb item.1 LOCK then None else (fun d => (item.1, d)) <$> item.2) items in
    reindex_all io (mkCache (cf_max_bytes config) (cf_max_entries config) (mkState [] ∅ 0 0) (list_to_map content)) items.

Definition stats (c : DiskCache) : CacheStats :=
  mkStats (resident (state c)) (reserved (state c)) (len (entries (state c))) (Z.of_nat (size (pending (state c)))) 0.

(** ** Reads *)

(** An open file -- it survives its unlinking -- and the entry its lease pins. *)
Record CachedRead := mkRead { cr_data : list Z; cr_bytes : Z; cr_lease : string }.

Definition read (io : Io) (name : string) (c : DiskCache) : option CachedRead * DiskCache :=
  let s := state c in
  match peek name (entries s) with
  | None => (None, c)
  | Some e =>
      let touched := put name e (entries s) in
      let opened :=
        if open_fails io name then None
        else data ← files c !! name; if len data =? e_bytes e then Some data else None in
      match opened with
      | Some data =>
          (Some (mkRead data (e_bytes e) name),
           with_state c (mkState (put name (mkEntry (e_bytes e) (wrap_usize (readers e + 1))) touched)
                           (pending s) (resident s) (reserved s)) (files c))
      | None =>
          let '(outcome, f) := remove_file io name (files c) in
          let gone := match outcome with Removed => true | _ => bool_decide (f !! name = None) end in
          if gone
          then (None, with_state c (mkState (pop name touched) (pending s) (resident s - e_bytes e) (reserved s)) f)
          else (None, with_state c (mkState touched (pending s) (resident s) (reserved s)) f)
      end
  end.

(** [Drop for ReadLease]: [readers -= 1] on whatever entry has the path. *)
Definition drop_lease (path : string) (c : DiskCache) : DiskCache :=
  let s := state c in
  match peek path (entries s) with
  | None => c
  | Some e =>
      with_state c (mkState (replace_entry path (mkEntry (e_bytes e) (wrap_usize (readers e - 1))) (entries s))
                      (pending s) (resident s) (reserved s)) (files c)
  end.

(** [read_exact] of a range: an error past the end. *)
Definition read_range (r : CachedRead) (start stop : Z) : option (list Z) :=
  if stop <=? len (cr_data r)
  then Some (List.firstn (Z.to_nat (stop - start)) (List.skipn (Z.to_nat start) (cr_data r))) else None.

(** [CachedRead::stream]: pieces of at most a mebibyte. *)
Fixpoint stream (fuel : nat) (r : CachedRead) (start stop : Z) : list (option (list Z)) :=
  match fuel with
  | O => []
  | S fuel =>
      if start =? stop then []
      else
        let n := Z.min (stop - start) (1024 * 1024) in
        match read_range r start (start + n) with
        | Some bytes => Some bytes :: stream fuel r (start + n) stop
        | None => [None]
        end
  end.

(** ** Fills *)

Record Fill := mkFill { fl_path : string; fl_tmp : string; fl_bytes : Z }.

Definition tmp_name (name uuid : string) : string := (name +:+ ".tmp-" +:+ uuid)%string.

Definition reserve (io : Io) (name : string) (bytes : Z) (uuid : string) (c : DiskCache) : option Fill * DiskCache :=
  let s := state c in
  if bool_decide (is_Some (peek name (entries s))) || bool_decide (is_Some (pending s !! name)) then (None, c)
  else
    match make_room io c bytes true s (files c) with
    | (false, s, f) => (None, with_state c s f)
    | (true, s, f) =>
        let tmp := tmp_name name uuid in
        if create_fails io tmp || bool_decide (is_Some (f !! tmp)) then (None, with_state c s f)
        else
          (Some (mkFill name tmp bytes),
           with_state c (mkState (entries s) (<[name := bytes]> (pending s)) (resident s) (reserved s + bytes)) (<[tmp := []]> f))
    end.

Definition grow (io : Io) (fill : Fill) (bytes : Z) (c : DiskCache) : bool * Fill * DiskCache :=
  match make_room io c bytes false (state c) (files c) with
  | (false, s, f) => (false, fill, with_state c s f)
  | (true, s, f) =>
      let fill := mkFill (fl_path fill) (fl_tmp fill) (fl_bytes fill + bytes) in
      (true, fill,
       with_state c (mkState (entries s) (<[fl_path fill := fl_bytes fill]> (pending s)) (resident s) (reserved s + bytes)) f)
  end.

(** Bytes written at an offset; a gap reads as zeros. *)
Definition write_bytes (data : list Z) (offset : nat) (payload : list Z) : list Z :=
  match payload with
  | [] => data
  | _ => List.firstn offset data ++ replicate (offset - length data) 0 ++ payload ++ List.skipn (offset + length payload) data
  end.

Definition write_at (io : Io) (fill : Fill) (payload : list Z) (offset : Z) (c : DiskCache) : bool * DiskCache :=
  let finish := offset + len payload in
  if (2 ^ 64 <=? finish) || (fl_bytes fill <? finish) then (false, c)
  else
    match files c !! fl_tmp fill with
    | Some data =>
        let written := match write_fails io (fl_tmp fill) with Some n => List.firstn n payload | None => payload end in
        (bool_decide (write_fails io (fl_tmp fill) = None),
         with_state c (state c) (<[fl_tmp fill := write_bytes data (Z.to_nat offset) written]> (files c)))
    | None => (true, c)
    end.

(** [Drop for Fill] of a fill that was not published. *)
Definition drop_fill (io : Io) (fill : Fill) (c : DiskCache) : DiskCache :=
  match remove_file io (fl_tmp fill) (files c) with
  | (RemoveError, f) => with_state c (state c) f
  | (_, f) =>
      let s := state c in
      with_state c (mkState (entries s) (delete (fl_path fill) (pending s)) (resident s) (reserved s - fl_bytes fill)) f
  end.

(** [publish] consumes the fill: what is not published is dropped. *)
Definition publish (io : Io) (fill : Fill) (c : DiskCache) : bool * DiskCache :=
  match files c !! fl_tmp fill with
  | Some data =>
      if sync_fails io (fl_tmp fill) || negb (len data =? fl_bytes fill) || rename_fails io (fl_tmp fill)
      then (false, drop_fill io fill c)
      else
        let s := state c in
        (true, with_state c
          (mkState (put (fl_path fill) (mkEntry (fl_bytes fill) 0) (entries s)) (delete (fl_path fill) (pending s))
             (resident s + fl_bytes fill) (reserved s - fl_bytes fill))
          (<[fl_path fill := data]> (delete (fl_tmp fill) (files c))))
  | None => (false, drop_fill io fill c)
  end.

End cache.
End DiskCache.
