(* ===== verification/DiskCacheSpec.v ===== *)
(** * The disk cache keeps its budget (theorems about [DiskCache])

    The cache as its users drive it: reads and their leases, fills that grow,
    are written, published or dropped, in any interleaving, while filesystem
    calls fail and published files are removed or cut short behind its back. And
    opening a directory ([DiskCacheOpen]): [open] reindexes it one file at a time
    and returns a cache within its limits, which [step] keeps. *)

From S2P Require Import Prelude DiskCache.
Import DiskCache.

Module DiskCacheSpec.

(** ** The system *)

(** The cache, the fills in progress, the fills whose staging file could not be
    removed, and the leases of reads under way. *)
Record Sys := mkSys {
  cache : DiskCache;
  fills : list Fill;
  leaked : list Fill;
  leases : list string;
}.

Inductive Op :=
| OpRead (name : string)
| OpDropLease (k : nat)
| OpReserve (name : string) (bytes : Z) (uuid : string)
| OpGrow (k : nat) (bytes : Z)
| OpWrite (k : nat) (payload : list Z) (offset : Z)
| OpPublish (k : nat)
| OpDropFill (k : nat)
| OpDisturb (name : string) (keep : option nat).

Definition remove_nth {A} (k : nat) (l : list A) : list A := List.firstn k l ++ List.skipn (S k) l.

(** Whether dropping a fill leaves its staging file, and the charge for it. *)
Definition leaks (io : Io) (fill : Fill) (c : DiskCache) : bool :=
  match remove_file io (fl_tmp fill) (files c) with (RemoveError, _) => true | _ => false end.

Definition end_fill (io : Io) (k : nat) (fill : Fill) (published : bool) (c : DiskCache) (s : Sys) : Sys :=
  mkSys c (remove_nth k (fills s))
    (if negb published && leaks io fill (cache s) then fill :: leaked s else leaked s) (leases s).

(** One operation; a fill or a lease that is not there is no operation. *)
Definition step (io : Io) (op : Op) (s : Sys) : Sys :=
  match op with
  | OpRead name =>
      match read io name (cache s) with
      | (Some r, c) => mkSys c (fills s) (leaked s) (cr_lease r :: leases s)
      | (None, c) => mkSys c (fills s) (leaked s) (leases s)
      end
  | OpDropLease k =>
      match leases s !! k with
      | Some path => mkSys (drop_lease path (cache s)) (fills s) (leaked s) (remove_nth k (leases s))
      | None => s
      end
  | OpReserve name bytes uuid =>
      match reserve io name bytes uuid (cache s) with
      | (Some fill, c) => mkSys c (fill :: fills s) (leaked s) (leases s)
      | (None, c) => mkSys c (fills s) (leaked s) (leases s)
      end
  | OpGrow k bytes =>
      match fills s !! k with
      | Some fill => let '(_, fill, c) := grow io fill bytes (cache s) in mkSys c (<[k := fill]> (fills s)) (leaked s) (leases s)
      | None => s
      end
  | OpWrite k payload offset =>
      match fills s !! k with
      | Some fill => mkSys (write_at io fill payload offset (cache s)).2 (fills s) (leaked s) (leases s)
      | None => s
      end
  | OpPublish k =>
      match fills s !! k with
      | Some fill => let '(ok, c) := publish io fill (cache s) in end_fill io k fill ok c s
      | None => s
      end
  | OpDropFill k =>
      match fills s !! k with
      | Some fill => end_fill io k fill false (drop_fill io fill (cache s)) s
      | None => s
      end
  | OpDisturb name keep =>
      let c := cache s in
      match peek name (entries (state c)), files c !! name with
      | Some _, Some data =>
          let f := match keep with Some n => <[name := List.firstn n data]> (files c) | None => delete name (files c) end in
          mkSys (with_state c (state c) f) (fills s) (leaked s) (leases s)
      | _, _ => s
      end
  end.

Definition run (ops : list (Io * Op)) (s : Sys) : Sys := List.fold_left (fun s o => step o.1 o.2 s) ops s.

(** The store's names hold no staging suffix, and its lengths are sizes. *)
Definition plain (name : string) : Prop := forall a b, name <> (a +:+ ".tmp-" +:+ b)%string.
Definition op_ok (op : Op) : Prop :=
  match op with
  | OpReserve name bytes _ => plain name /\ 0 <= bytes
  | OpGrow _ bytes => 0 <= bytes
  | OpWrite _ _ offset => 0 <= offset
  | _ => True
  end.

(** ** Index lemmas *)

Definition names {A} (l : list (string * A)) : list string := List.map fst l.
Definition total (l : list (string * Entry)) : Z := List.fold_right (fun e n => e_bytes e.2 + n) 0 l.
Definition charged (l : list Fill) : Z := List.fold_right (fun f n => fl_bytes f + n) 0 l.

Lemma peek_In {A} p (e : A) l : NoDup (names l) -> peek p l = Some e <-> (p, e) ∈ l.
Proof.
  induction l as [|[q x] l IH]; simpl; intros Nd; [split; [done|by intros ?%elem_of_nil]|].
  apply NoDup_cons in Nd as [Nq Nd]. rewrite elem_of_cons. destruct (String.eqb_spec q p) as [->|Ne].
  - split; [intros [= ->]; by left|]. intros [[= ->]|H]; [done|]. destruct Nq. apply list_elem_of_In, List.in_map_iff.
    exists (p, e). split; [done|by apply list_elem_of_In].
  - rewrite IH by done. split; [by right|]. by intros [[= ? ?]|?]; [congruence|].
Qed.

Lemma peek_None {A} p (l : list (string * A)) : peek p l = None <-> p ∉ names l.
Proof.
  induction l as [|[q x] l IH]; simpl; [split; [intros _; apply not_elem_of_nil|done]|].
  rewrite not_elem_of_cons, <-IH. destruct (String.eqb_spec q p) as [->|Ne]; split; try done; naive_solver.
Qed.

Lemma pop_names {A} p q (l : list (string * A)) : q ∈ names (pop p l) <-> q ∈ names l /\ q <> p.
Proof.
  unfold names, pop. rewrite !list_elem_of_In, !List.in_map_iff. setoid_rewrite List.filter_In. split.
  - intros ([q' x] & <- & H & N). simpl in *. apply negb_true_iff, String.eqb_neq in N. split; [by exists (q', x)|done].
  - intros (([q' x] & <- & H) & N). exists (q', x). simpl in *. split_and!; try done. by apply negb_true_iff, String.eqb_neq.
Qed.

Lemma pop_NoDup {A} p (l : list (string * A)) : NoDup (names l) -> NoDup (names (pop p l)).
Proof.
  induction l as [|[q x] l IH]; simpl; intros Nd; [constructor|]. apply NoDup_cons in Nd as [Nq Nd].
  destruct (negb (String.eqb q p)); simpl; [|by apply IH]. constructor; [|by apply IH]. by intros [H _]%pop_names.
Qed.

Lemma peek_pop {A} p q (l : list (string * A)) : peek q (pop p l) = if String.eqb q p then None else peek q l.
Proof.
  induction l as [|[r x] l IH]; simpl; [by destruct (String.eqb q p)|].
  destruct (String.eqb_spec r p) as [->|Ne]; simpl; rewrite IH; destruct (String.eqb_spec q p) as [->|Nq]; try done.
  - by rewrite (proj2 (String.eqb_neq p q)) by congruence.
  - by rewrite (proj2 (String.eqb_neq r p)).
Qed.

Lemma pop_absent {A} p (l : list (string * A)) : peek p l = None -> pop p l = l.
Proof.
  induction l as [|[r x] l IH]; simpl; [done|]. destruct (String.eqb_spec r p) as [->|Ne]; [done|]. simpl. intros H. by rewrite IH.
Qed.

Lemma pop_total p e l : NoDup (names l) -> peek p l = Some e ->
  total (pop p l) = total l - e_bytes e /\ length (pop p l) = (length l - 1)%nat.
Proof.
  induction l as [|[r x] l IH]; simpl; intros Nd H; [done|]. apply NoDup_cons in Nd as [Nr Nd].
  destruct (String.eqb_spec r p) as [->|Ne]; simpl.
  - injection H as ->. rewrite pop_absent by by apply peek_None. simpl. lia.
  - destruct (IH Nd H) as [-> ->]. simpl. split; [lia|]. destruct l; [done|]. simpl. lia.
Qed.

Lemma replace_names p e l : names (replace_entry p e l) = names l.
Proof.
  unfold names, replace_entry. rewrite List.map_map. apply List.map_ext. intros [q x]. simpl. by destruct (String.eqb q p).
Qed.

Lemma replace_total p e e' l : NoDup (names l) -> peek p l = Some e -> e_bytes e' = e_bytes e -> total (replace_entry p e' l) = total l.
Proof.
  intros Nd H Eb. induction l as [|[r x] l IH]; simpl in *; [done|]. apply NoDup_cons in Nd as [Nr Nd].
  destruct (String.eqb_spec r p) as [->|Ne]; simpl.
  - injection H as ->. rewrite Eb. f_equal. clear IH. induction l as [|[q y] l IH]; simpl in *; [done|].
    apply not_elem_of_cons in Nr as [Nq Nr]. apply NoDup_cons in Nd as [_ Nd].
    rewrite (proj2 (String.eqb_neq q p)) by done. simpl. by rewrite IH.
  - by rewrite IH.
Qed.

Lemma peek_replace p q e l :
  peek q (replace_entry p e l) = if String.eqb p q then (fun _ => e) <$> peek q l else peek q l.
Proof.
  induction l as [|[r x] l IH]; simpl; [by destruct (String.eqb p q)|].
  destruct (String.eqb_spec r p) as [->|Ne]; simpl; rewrite IH.
  - by destruct (String.eqb p q).
  - destruct (String.eqb_spec r q) as [->|Nr]; [|done]. by rewrite (proj2 (String.eqb_neq p q)) by congruence.
Qed.

(** ** The budget invariant *)

Definition pend (own : list Fill) : gmap string Z := list_to_map (List.map (fun f => (fl_path f, fl_bytes f)) own).

Record fill_ok (s : State) (f : Files) (x : Fill) : Prop := {
  fo_fresh : peek (fl_path x) (entries s) = None;
  fo_plain : plain (fl_path x);
  fo_staged : ~ plain (fl_tmp x);
  fo_size : 0 <= fl_bytes x;
  fo_file : exists d, f !! fl_tmp x = Some d /\ len d <= fl_bytes x;
}.

(** The index of a cache of some limits, its files, and the fills that own the
    rest. *)
Record within (mb me : Z) (own : list Fill) (s : State) (f : Files) : Prop := {
  w_names : NoDup (names (entries s));
  w_entries : forall p e, peek p (entries s) = Some e -> plain p /\ 0 <= e_bytes e;
  w_resident : resident s = total (entries s);
  w_paths : NoDup (List.map fl_path own);
  w_tmps : NoDup (List.map fl_tmp own);
  w_fills : Forall (fill_ok s f) own;
  w_pending : pending s = pend own;
  w_reserved : reserved s = charged own;
  w_bytes : resident s + reserved s <= mb;
  w_count : len (entries s) + len own <= me;
  w_files : forall n d, f !! n = Some d ->
    (exists e, peek n (entries s) = Some e /\ len d <= e_bytes e) \/ (exists x, x ∈ own /\ fl_tmp x = n);
}.

Lemma within_perm mb me own own' s f : own ≡ₚ own' -> within mb me own s f -> within mb me own' s f.
Proof.
  intros P []. split; try done.
  - by rewrite <-P.
  - by rewrite <-P.
  - by rewrite <-P.
  - rewrite w_pending0. unfold pend. apply list_to_map_proper; [|by rewrite P].
    unfold fst. rewrite <-list_fmap_compose. exact w_paths0.
  - rewrite w_reserved0. clear - P. induction P; simpl; lia.
  - unfold len in *. by rewrite <-P.
  - intros n d H. destruct (w_files0 n d H) as [?|(x & Hx & ?)]; [by left|]. right. exists x. by rewrite <-P.
Qed.

Lemma pend_size own : NoDup (List.map fl_path own) -> size (pend own) = length own.
Proof.
  induction own as [|x own IH]; intros Nd; [done|]. simpl in Nd. apply NoDup_cons in Nd as [Nx Nd].
  unfold pend. simpl. rewrite map_size_insert_None; [by f_equal; apply IH|].
  apply not_elem_of_list_to_map. by rewrite <-list_fmap_compose.
Qed.

Lemma charged_nonneg s f own : Forall (fill_ok s f) own -> 0 <= charged own.
Proof. induction 1 as [|x own []]; simpl; lia. Qed.

Lemma total_nonneg l : NoDup (names l) -> (forall p e, peek p l = Some e -> 0 <= e_bytes e) -> 0 <= total l.
Proof.
  induction l as [|[p e] l IH]; simpl; intros Nd H; [done|]. apply NoDup_cons in Nd as [Np Nd].
  pose proof (H p e) as H0. rewrite String.eqb_refl in H0. specialize (H0 eq_refl).
  assert (0 <= total l); [|lia]. apply IH; [done|]. intros q x Hx. apply (H q x).
  destruct (String.eqb_spec p q) as [->|]; [|done]. destruct Np. apply peek_In, list_elem_of_In in Hx; [|done].
  apply list_elem_of_In, List.in_map_iff. by exists (q, x).
Qed.

(** Dropping an entry, and its file if it is there. *)
Lemma within_pop mb me own s f p e f' :
  within mb me own s f -> peek p (entries s) = Some e ->
  (forall n d, f' !! n = Some d -> n <> p /\ f !! n = Some d) -> (forall n, n <> p -> f' !! n = f !! n) ->
  within mb me own (mkState (pop p (entries s)) (pending s) (resident s - e_bytes e) (reserved s)) f'.
Proof.
  intros [] Hp F1 F2. destruct (pop_total p e _ w_names0 Hp) as [Tt Ln]. destruct (w_entries0 p e Hp) as [Pp Sz].
  split; simpl; try done.
  - by apply pop_NoDup.
  - intros q x. rewrite peek_pop. destruct (String.eqb q p); [done|]. apply w_entries0.
  - lia.
  - rewrite Forall_forall in *. intros x Hx. destruct (w_fills0 x Hx) as [A B C D (d & G & L)]. split; simpl; try done.
    + rewrite peek_pop, A. by destruct (String.eqb _ _).
    + exists d. split; [|done]. rewrite F2; [done|]. intros <-. done.
  - lia.
  - unfold len in *. rewrite Ln. lia.
  - intros n d H. destruct (F1 n d H) as [Ne H']. destruct (w_files0 n d H') as [(x & Hx & L)|(x & Hx & E)].
    + left. exists x. rewrite peek_pop, (proj2 (String.eqb_neq n p)) by done. done.
    + right. by exists x.
Qed.

Lemma remove_file_spec io p f outcome f' :
  remove_file io p f = (outcome, f') ->
  match outcome with
  | RemoveError => f' = f
  | _ => f' = delete p f
  end.
Proof.
  unfold remove_file. destruct (remove_fails io p); [by intros [= <- <-]|]. destruct (f !! p) eqn:E; intros [= <- <-]; [done|].
  by rewrite delete_id.
Qed.

Lemma within_unlink mb me own s f p e :
  within mb me own s f -> peek p (entries s) = Some e ->
  within mb me own (mkState (pop p (entries s)) (pending s) (resident s - e_bytes e) (reserved s)) (delete p f).
Proof.
  intros W Hp. eapply within_pop; [exact W|exact Hp|..].
  - intros n d [Ne H]%lookup_delete_Some. done.
  - intros n Ne. by rewrite lookup_delete_ne.
Qed.

Lemma victim_peek s p e : NoDup (names (entries s)) -> victim s = Some (p, e) -> peek p (entries s) = Some e /\ readers e = 0.
Proof.
  intros Nd V. unfold victim in V. apply List.find_some in V as [H R]. apply Z.eqb_eq in R. split; [|done].
  apply peek_In; [done|]. by apply list_elem_of_In, List.in_rev.
Qed.

Lemma evict_within mb me own io c bytes entry n : forall s f b s' f',
  within mb me own s f -> evict n io c bytes entry s f = (b, s', f') ->
  within mb me own s' f' /\ pending s' = pending s /\ (b = true -> over c s' bytes entry = false) /\
  (forall p, peek p (entries s) = None -> peek p (entries s') = None) /\
  (forall p e, peek p (entries s') = Some e -> peek p (entries s) = Some e) /\
  (forall p e, peek p (entries s) = Some e -> readers e <> 0 -> peek p (entries s') = Some e).
Proof.
  induction n as [|n IH]; intros s f b s' f' W E; simpl in E; destruct (over c s bytes entry) eqn:O; simpl in E.
  - injection E as <- <- <-. by split_and!.
  - injection E as <- <- <-. by split_and!.
  - destruct (victim s) as [[p e]|] eqn:V; [|injection E as <- <- <-; by split_and!].
    destruct (victim_peek s p e (w_names _ _ _ _ _ W) V) as [Hp R].
    destruct (remove_file io p f) as [o f1] eqn:Rm. apply remove_file_spec in Rm. pose proof (within_unlink _ _ _ _ _ _ _ W Hp) as W'.
    assert (Go : evict n io c bytes entry (mkState (pop p (entries s)) (pending s) (resident s - e_bytes e) (reserved s)) (delete p f)
        = (b, s', f') ->
      within mb me own s' f' /\ pending s' = pending s /\ (b = true -> over c s' bytes entry = false) /\
      (forall q, peek q (entries s) = None -> peek q (entries s') = None) /\
      (forall q x, peek q (entries s') = Some x -> peek q (entries s) = Some x) /\
      (forall q x, peek q (entries s) = Some x -> readers x <> 0 -> peek q (entries s') = Some x)).
    { intros E'. destruct (IH _ _ _ _ _ W' E') as (A & B & C & D & F & G). simpl in *. split_and!; try done.
      - intros q H. apply D. rewrite peek_pop, H. by destruct (String.eqb q p).
      - intros q x H. apply F in H. rewrite peek_pop in H. by destruct (String.eqb q p).
      - intros q x H N. apply G; [|done]. rewrite peek_pop. destruct (String.eqb_spec q p) as [->|]; [congruence|done]. }
    destruct o; subst f1; [by apply Go|by apply Go|]. injection E as <- <- <-. by split_and!.
  - injection E as <- <- <-. by split_and!.
Qed.

End DiskCacheSpec.

(** * Every operation of the disk cache keeps its budget

    One lemma per operation of [DiskCache]: the invariant [within] of
    [DiskCacheSpec] holds after it, whatever the filesystem answers. *)

Import DiskCache DiskCacheSpec.

Module DiskCacheSteps.

Lemma pend_None own p : NoDup (List.map fl_path own) -> pend own !! p = None <-> p ∉ List.map fl_path own.
Proof.
  intros Nd. unfold pend. split; intros H.
  - apply not_elem_of_list_to_map_2 in H. by rewrite <-list_fmap_compose in H.
  - apply not_elem_of_list_to_map_1. by rewrite <-list_fmap_compose.
Qed.

(** ** Room *)

Lemma make_room_within own io c bytes entry s f b s' f' :
  max_entries c < 2 ^ 64 - 1 ->
  within (max_bytes c) (max_entries c) own s f -> make_room io c bytes entry s f = (b, s', f') ->
  within (max_bytes c) (max_entries c) own s' f' /\ pending s' = pending s /\
  (b = true -> resident s' + reserved s' + bytes <= max_bytes c /\
    len (entries s') + len own + (if entry then 1 else 0) <= max_entries c) /\
  (forall p, peek p (entries s) = None -> peek p (entries s') = None) /\
  (forall p e, peek p (entries s') = Some e -> peek p (entries s) = Some e) /\
  (forall p e, peek p (entries s) = Some e -> readers e <> 0 -> peek p (entries s') = Some e).
Proof.
  intros Me W E. unfold make_room in E. destruct (max_bytes c <? bytes); [injection E as <- <- <-; by split_and!|].
  destruct (evict_within _ _ _ _ _ _ _ _ _ _ _ _ _ W E) as (W' & P & R & D & F & G). split_and!; try done.
  intros B. specialize (R B). clear - R Me W'. destruct W'. unfold over, saturating_sub, sat_add in R. apply orb_false_iff in R as [R1 R2].
  apply Z.ltb_ge in R1, R2. rewrite w_pending0, pend_size in R2 by done. unfold len in *. split; [lia|]. destruct entry; lia.
Qed.

(** An entry that stays is what it was, and so is its file. *)
Lemma evict_sub n io c bytes entry : forall s f b s' f',
  evict n io c bytes entry s f = (b, s', f') ->
  forall p e, peek p (entries s') = Some e -> peek p (entries s) = Some e /\ f' !! p = f !! p.
Proof.
  induction n as [|n IH]; intros s f b s' f' E p e H; simpl in E; destruct (negb _); try by injection E as <- <- <-.
  destruct (victim s) as [[q x]|]; [|by injection E as <- <- <-]. destruct (remove_file io q f) as [o f1] eqn:Rm.
  apply remove_file_spec in Rm. set (s1 := mkState (pop q (entries s)) (pending s) (resident s - e_bytes x) (reserved s)) in *.
  assert (Go : evict n io c bytes entry s1 (delete q f) = (b, s', f') -> peek p (entries s) = Some e /\ f' !! p = f !! p).
  { intros E'. destruct (IH s1 _ _ _ _ E' p e H) as [A B]. simpl in A. rewrite peek_pop in A.
    destruct (String.eqb_spec p q) as [->|Ne]; [done|]. by rewrite lookup_delete_ne in B. }
  destruct o; subst f1; [by apply Go|by apply Go|]. by injection E as <- <- <-.
Qed.

Lemma make_room_sub io c bytes entry s f b s' f' :
  make_room io c bytes entry s f = (b, s', f') ->
  forall p e, peek p (entries s') = Some e -> peek p (entries s) = Some e /\ f' !! p = f !! p.
Proof. unfold make_room. destruct (max_bytes c <? bytes); [by intros [= <- <- <-]|]. apply evict_sub. Qed.

(** Making room touches no file that is not of an entry. *)
Lemma make_room_other io c bytes entry s f b s' f' p :
  make_room io c bytes entry s f = (b, s', f') -> (forall e, peek p (entries s) <> Some e) -> f' !! p = f !! p.
Proof.
  unfold make_room. destruct (max_bytes c <? bytes); [by intros [= <- <- <-]|]. generalize (S (length (entries s))) as n.
  intros n. revert s f. induction n as [|n IH]; intros s f E Np; simpl in E; destruct (negb _); try by injection E as <- <- <-.
  destruct (victim s) as [[q x]|] eqn:V; [|by injection E as <- <- <-]. destruct (remove_file io q f) as [o f1] eqn:Rm.
  apply remove_file_spec in Rm.
  assert (Ne : q <> p).
  { intros ->. apply List.find_some in V as [V _]. apply List.in_rev, list_elem_of_In in V.
    destruct (peek p (entries s)) as [e|] eqn:Pk; [by apply (Np e)|]. apply peek_None in Pk. apply Pk.
    by apply (list_elem_of_fmap_2 fst _ _ V). }
  assert (Go : evict n io c bytes entry (mkState (pop q (entries s)) (pending s) (resident s - e_bytes x) (reserved s)) (delete q f)
    = (b, s', f') -> f' !! p = f !! p).
  { intros E'. rewrite (IH _ _ E'); [by rewrite lookup_delete_ne|]. intros e. simpl. rewrite peek_pop.
    destruct (String.eqb p q); [done|]. apply Np. }
  destruct o; subst f1; [by apply Go|by apply Go|]. by injection E as <- <- <-.
Qed.

(** ** Entries that move, or change their readers *)

Record same_index (l l' : list (string * Entry)) : Prop := {
  si_names : NoDup (names l');
  si_peek : forall p, e_bytes <$> peek p l' = e_bytes <$> peek p l;
  si_total : total l' = total l;
  si_length : length l' = length l;
}.

Lemma same_index_trans l1 l2 l3 : same_index l1 l2 -> same_index l2 l3 -> same_index l1 l3.
Proof. intros [] []. split; [done|..]; try congruence. Qed.

Lemma same_index_put l p e e' : NoDup (names l) -> peek p l = Some e -> e_bytes e' = e_bytes e -> same_index l (put p e' l).
Proof.
  intros Nd H Eb. destruct (pop_total p e l Nd H) as [T L]. unfold put. split; simpl.
  - constructor; [by intros [_ ?]%pop_names|]. by apply pop_NoDup.
  - intros q. rewrite String.eqb_sym. destruct (String.eqb_spec q p) as [->|Ne]; [by rewrite H; simpl; f_equal|].
    by rewrite peek_pop, (proj2 (String.eqb_neq q p)).
  - lia.
  - rewrite L. destruct l; [done|]. simpl. lia.
Qed.

Lemma same_index_replace l p e e' : NoDup (names l) -> peek p l = Some e -> e_bytes e' = e_bytes e -> same_index l (replace_entry p e' l).
Proof.
  intros Nd H Eb. split.
  - by rewrite replace_names.
  - intros q. rewrite peek_replace. destruct (String.eqb_spec p q) as [->|]; [|done]. rewrite H. simpl. by f_equal.
  - by eapply replace_total.
  - apply List.length_map.
Qed.

Lemma fmap_Some_1 {A B} (g : A -> B) o o' x : g <$> o = g <$> o' -> o = Some x -> exists y, o' = Some y /\ g y = g x.
Proof. intros E ->. destruct o' as [y|]; [|done]. injection E as E. by exists y. Qed.

Lemma within_entries mb me own s f l : same_index (entries s) l -> within mb me own s f ->
  within mb me own (mkState l (pending s) (resident s) (reserved s)) f.
Proof.
  intros [N P T L] []. split; simpl; try done.
  - intros p e H. destruct (fmap_Some_1 _ _ _ _ (P p) H) as (y & Hy & Ey). rewrite <-Ey. by apply (w_entries0 p).
  - congruence.
  - rewrite Forall_forall in *. intros x Hx. destruct (w_fills0 x Hx). split; simpl; try done.
    specialize (P (fl_path x)). rewrite fo_fresh0 in P. by destruct (peek _ l).
  - unfold len in *. by rewrite L.
  - intros n d H. destruct (w_files0 n d H) as [(e & He & Ld)|?]; [|by right]. left.
    destruct (fmap_Some_1 _ _ _ _ (eq_sym (P n)) He) as (y & Hy & Ey). exists y. by rewrite Ey.
Qed.

(** Files other than those of the cache's fills may get shorter or go. *)
Lemma within_files mb me own s f f' : within mb me own s f ->
  (forall n d, f' !! n = Some d -> exists d0, f !! n = Some d0 /\ len d <= len d0) ->
  (forall n, ~ plain n -> f' !! n = f !! n) ->
  within mb me own s f'.
Proof.
  intros [] F1 F2. split; try done.
  - rewrite Forall_forall in *. intros x Hx. destruct (w_fills0 x Hx). split; try done. by rewrite F2.
  - intros n d H. destruct (F1 n d H) as (d0 & H0 & L). destruct (w_files0 n d0 H0) as [(e & He & Ld)|?]; [|by right].
    left. exists e. split; [done|]. lia.
Qed.

(** ** Reads and leases *)

Lemma gone_spec io p f o f' : remove_file io p f = (o, f') ->
  match o with Removed => true | _ => bool_decide (f' !! p = None) end = true -> f' = delete p f.
Proof.
  unfold remove_file. destruct (remove_fails io p).
  - intros [= <- <-] H. apply bool_decide_eq_true in H. by rewrite delete_id.
  - destruct (f !! p) eqn:E; intros [= <- <-] _; [done|]. by rewrite delete_id.
Qed.

Lemma read_within mb me own io name c r c' :
  within mb me own (state c) (files c) -> read io name c = (r, c') ->
  within mb me own (state c') (files c') /\ max_bytes c' = max_bytes c /\ max_entries c' = max_entries c.
Proof.
  intros W E. unfold read in E. destruct (peek name (entries (state c))) as [e|] eqn:He; [|by injection E as <- <-].
  pose proof (w_names _ _ _ _ _ W) as Nd. pose proof (same_index_put _ name e e Nd He eq_refl) as S1.
  destruct (if open_fails io name then None else _) as [data|].
  - injection E as <- <-. split_and!; try done. simpl. apply within_entries; [|done].
    eapply same_index_trans; [exact S1|]. apply (same_index_put _ name e); [apply S1| |done]. simpl. by rewrite String.eqb_refl.
  - destruct (remove_file io name (files c)) as [o f] eqn:Rm.
    pose proof (within_entries _ _ _ _ _ _ S1 W) as W1.
    assert (He1 : peek name (put name e (entries (state c))) = Some e) by (simpl; by rewrite String.eqb_refl).
    destruct (match o with Removed => true | _ => bool_decide (f !! name = None) end) eqn:G; injection E as <- <-; split_and!; try done.
    + rewrite (gone_spec _ _ _ _ _ Rm G). apply (within_unlink _ _ _ _ _ name e W1 He1).
    + simpl. assert (f = files c) as ->; [|done]. destruct o; [done| |by apply (remove_file_spec _ _ _ _ _ Rm)].
      apply remove_file_spec in Rm. subst f. by rewrite lookup_delete_eq in G.
Qed.

Lemma drop_lease_within mb me own p c :
  within mb me own (state c) (files c) -> within mb me own (state (drop_lease p c)) (files (drop_lease p c)).
Proof.
  intros W. unfold drop_lease. destruct (peek p (entries (state c))) as [e|] eqn:He; [|done]. apply within_entries; [|done].
  apply (same_index_replace _ p e); [by apply W|done|done].
Qed.

(** ** Fills *)

Lemma tmp_not_plain name uuid : ~ plain (tmp_name name uuid).
Proof. intros H. by apply (H name uuid). Qed.

(** Fills are kept by what leaves their names and staging files alone. *)
Lemma fills_move s s' f f' l :
  (forall y, y ∈ l -> peek (fl_path y) (entries s) = None -> peek (fl_path y) (entries s') = None) ->
  (forall y, y ∈ l -> ~ plain (fl_tmp y) -> f' !! fl_tmp y = f !! fl_tmp y) ->
  Forall (fill_ok s f) l -> Forall (fill_ok s' f') l.
Proof.
  rewrite !Forall_forall. intros E F H y Hy. destruct (H y Hy) as [A B C D G]. split; try done; [by apply E|]. by rewrite F.
Qed.

(** A fill that starts: its staging file is new and empty. *)
Lemma within_reserve mb me own s f x :
  within mb me own s f -> peek (fl_path x) (entries s) = None -> pending s !! fl_path x = None -> plain (fl_path x) ->
  ~ plain (fl_tmp x) -> f !! fl_tmp x = None -> 0 <= fl_bytes x ->
  resident s + reserved s + fl_bytes x <= mb -> len (entries s) + len own + 1 <= me ->
  within mb me (x :: own) (mkState (entries s) (<[fl_path x := fl_bytes x]> (pending s)) (resident s) (reserved s + fl_bytes x))
    (<[fl_tmp x := []]> f).
Proof.
  intros [] Fr Pe Pl St Ft Sz Bm Cm.
  assert (Nt : forall y, y ∈ own -> fl_tmp y <> fl_tmp x).
  { intros y Hy E. rewrite Forall_forall in w_fills0. destruct (w_fills0 y Hy) as [_ _ _ _ (d & F & _)]. congruence. }
  split; simpl; try done.
  - constructor; [|done]. rewrite w_pending0 in Pe. by apply pend_None in Pe.
  - constructor; [|done]. intros (y & E & Hy)%list_elem_of_fmap. by apply (Nt y Hy).
  - constructor.
    + split; try done. exists []. rewrite lookup_insert_eq. by split.
    + revert w_fills0. apply fills_move; [done|]. intros y Hy _. rewrite lookup_insert_ne; [done|]. intros E. by apply (Nt y Hy).
  - by rewrite w_pending0.
  - lia.
  - lia.
  - unfold len in *. simpl. lia.
  - intros n d [[<- <-]|[Ne H]]%lookup_insert_Some.
    + right. exists x. split; [by left|done].
    + destruct (w_files0 n d H) as [?|(y & Hy & E)]; [by left|]. right. exists y. split; [by right|done].
Qed.

(** A fill that is charged more. *)
Lemma within_grow mb me rest s f x bytes :
  within mb me (x :: rest) s f -> 0 <= bytes -> resident s + reserved s + bytes <= mb ->
  within mb me (mkFill (fl_path x) (fl_tmp x) (fl_bytes x + bytes) :: rest)
    (mkState (entries s) (<[fl_path x := fl_bytes x + bytes]> (pending s)) (resident s) (reserved s + bytes)) f.
Proof.
  intros [] Sz Bm. apply Forall_cons in w_fills0 as [[A B C D (d & F & L)] Fr]. split; simpl; try done.
  - constructor; [|by revert Fr; apply fills_move]. split; simpl; try done; [lia|]. exists d. split; [done|]. lia.
  - rewrite w_pending0. unfold pend. simpl. by rewrite insert_insert_eq.
  - rewrite w_reserved0. simpl. lia.
  - lia.
  - intros n dn H. destruct (w_files0 n dn H) as [?|(y & [-> | Hy]%elem_of_cons & E)]; [by left|right..].
    + eexists. split; [by left|done].
    + exists y. split; [by right|done].
Qed.

Lemma tmps_differ x y rest : NoDup (List.map fl_tmp (x :: rest)) -> y ∈ rest -> fl_tmp x <> fl_tmp y.
Proof. intros [N _]%NoDup_cons Hy E. destruct N. rewrite E. by apply list_elem_of_fmap_2. Qed.

(** A staging file that is written, within what was reserved. *)
Lemma within_write mb me rest s f x d :
  within mb me (x :: rest) s f -> len d <= fl_bytes x -> within mb me (x :: rest) s (<[fl_tmp x := d]> f).
Proof.
  intros [] L. pose proof w_fills0 as Fs. apply Forall_cons in Fs as [[A B C D F] Fr]. split; try done.
  - constructor.
    + split; try done. exists d. by rewrite lookup_insert_eq.
    + revert Fr. apply fills_move; [done|]. intros y Hy _. rewrite lookup_insert_ne; [done|]. by apply (tmps_differ x y rest).
  - intros n dn [[<- <-]|[Ne H]]%lookup_insert_Some; [|by apply w_files0]. right. exists x. split; [by left|done].
Qed.

(** A fill that is given up, its staging file gone. *)
Lemma within_unreserve mb me rest s f x :
  within mb me (x :: rest) s f ->
  within mb me rest (mkState (entries s) (delete (fl_path x) (pending s)) (resident s) (reserved s - fl_bytes x)) (delete (fl_tmp x) f).
Proof.
  intros []. pose proof w_fills0 as Fs. apply Forall_cons in Fs as [[A B C D F] Fr].
  pose proof w_paths0 as Pn. apply NoDup_cons in Pn as [Np Pn]. pose proof w_tmps0 as Tn. apply NoDup_cons in Tn as [Nt Tn].
  split; simpl; try done.
  - revert Fr. apply fills_move; [done|]. intros y Hy _. rewrite lookup_delete_ne; [done|]. by apply (tmps_differ x y rest).
  - rewrite w_pending0. unfold pend. simpl. rewrite delete_insert_id; [done|]. by apply pend_None.
  - rewrite w_reserved0. simpl. lia.
  - lia.
  - unfold len in *. simpl in *. lia.
  - intros n d [Ne H]%lookup_delete_Some. destruct (w_files0 n d H) as [?|(y & [-> | Hy]%elem_of_cons & E)]; [by left|done|].
    right. by exists y.
Qed.

(** A fill that becomes an entry, its staging file renamed. *)
Lemma within_publish mb me rest s f x d :
  within mb me (x :: rest) s f -> len d = fl_bytes x ->
  within mb me rest
    (mkState (put (fl_path x) (mkEntry (fl_bytes x) 0) (entries s)) (delete (fl_path x) (pending s))
       (resident s + fl_bytes x) (reserved s - fl_bytes x))
    (<[fl_path x := d]> (delete (fl_tmp x) f)).
Proof.
  intros W L. pose proof (within_unreserve _ _ _ _ _ _ W) as [].
  pose proof (w_fills _ _ _ _ _ W) as [[A B C D F] Fr]%Forall_cons. pose proof (w_paths _ _ _ _ _ W) as [Np Pn]%NoDup_cons.
  pose proof (w_count _ _ _ _ _ W) as Cn. pose proof (w_bytes _ _ _ _ _ W) as Bn. simpl in *.
  assert (Pop : put (fl_path x) (mkEntry (fl_bytes x) 0) (entries s) = (fl_path x, mkEntry (fl_bytes x) 0) :: entries s)
    by (unfold put; by rewrite pop_absent).
  rewrite Pop. split; simpl; try done.
  - constructor; [by apply peek_None|done].
  - intros p e. destruct (String.eqb_spec (fl_path x) p) as [<-|]; [intros [= <-]; by split|]. apply w_entries0.
  - lia.
  - revert w_fills0. apply fills_move; intros y Hy H; simpl.
    + rewrite (proj2 (String.eqb_neq _ _)); [done|]. intros E. destruct Np. rewrite E. by apply list_elem_of_fmap_2.
    + rewrite lookup_insert_ne; [done|]. intros E. by rewrite <-E in H.
  - lia.
  - unfold len in *. simpl in *. lia.
  - intros n dn [[<- <-]|[Ne H]]%lookup_insert_Some.
    + left. exists (mkEntry (fl_bytes x) 0). rewrite String.eqb_refl. split; [done|]. simpl. lia.
    + destruct (w_files0 n dn H) as [(e & He & Le)|?]; [|by right]. left. exists e. by rewrite (proj2 (String.eqb_neq _ _)).
Qed.

End DiskCacheSteps.

(** * Opening a cache directory, and running the cache, within its limits

    [open] reindexes a directory one file at a time; what it returns is within
    the configured limits. [step] keeps it there. *)

Import DiskCache DiskCacheSpec DiskCacheSteps.

Module DiskCacheOpen.

(** ** Names *)

Lemma has_prefix_app p s : has_prefix p (p ++ s) = Some s.
Proof. induction p as [|a p IH]; simpl; [done|]. by rewrite Ascii.eqb_refl. Qed.

Lemma split_once_found pat a b : split_once_chars pat (a ++ pat ++ b) <> None.
Proof.
  induction a as [|c a IH].
  - simpl. destruct pat as [|x pat]; simpl; [by destruct b|]. by rewrite Ascii.eqb_refl, has_prefix_app.
  - change ((c :: a) ++ pat ++ b) with (c :: a ++ pat ++ b). set (s := a ++ pat ++ b) in *. simpl.
    destruct (has_prefix pat (c :: s)); [done|]. by destruct (split_once_chars pat s).
Qed.

Lemma list_ascii_app a b : String.list_ascii_of_string (a +:+ b)%string = String.list_ascii_of_string a ++ String.list_ascii_of_string b.
Proof. induction a as [|c a IH]; simpl; [done|]. by rewrite IH. Qed.

Lemma rsplit_none_plain name : rsplit_once name ".tmp-" = None -> plain name.
Proof.
  intros H a b ->. unfold rsplit_once in H. rewrite !list_ascii_app, !rev_app_distr, <-app_assoc in H.
  destruct (split_once_chars _ _) as [r|] eqn:E; [done|]. by apply split_once_found in E.
Qed.

Lemma indexed_plain is_uuid name : managed_name is_uuid name = true -> is_temporary is_uuid name = false -> plain name.
Proof.
  unfold managed_name, is_temporary. intros M T. apply rsplit_none_plain. destruct (rsplit_once name ".tmp-") as [[b id]|]; [|done].
  by rewrite T in M.
Qed.

(** ** Reindexing *)

(** The files of names already seen. *)
Definition seen (U : list string) (f : Files) : Files := filter (fun e => e.1 ∉ U) f.

Lemma seen_lookup U f n : n ∉ U -> seen U f !! n = f !! n.
Proof.
  intros N. unfold seen. destruct (f !! n) eqn:E.
  - by apply map_lookup_filter_Some.
  - apply map_lookup_filter_None. by left.
Qed.

Lemma seen_unseen U f n : n ∈ U -> seen U f !! n = None.
Proof. intros N. apply map_lookup_filter_None. right. intros x _ H. by apply H. Qed.

Lemma remove_seen io U p f : p ∉ U -> remove_file io p (seen U f) = ((remove_file io p f).1, seen U (remove_file io p f).2).
Proof.
  intros N. unfold remove_file. destruct (remove_fails io p); [done|]. rewrite seen_lookup by done.
  destruct (f !! p); simpl; [|done]. f_equal. unfold seen. by rewrite map_filter_delete.
Qed.

Lemma remove_other io p q f : q <> p -> (remove_file io p f).2 !! q = f !! q.
Proof.
  intros N. unfold remove_file. destruct (remove_fails io p); [done|]. destruct (f !! p); simpl; [|done]. by rewrite lookup_delete_ne.
Qed.

(** Room is made among the files seen. *)
Lemma evict_seen io c bytes entry U n : forall s f b s' f',
  (forall q, q ∈ U -> peek q (entries s) = None) -> NoDup (names (entries s)) ->
  evict n io c bytes entry s f = (b, s', f') ->
  evict n io c bytes entry s (seen U f) = (b, s', seen U f') /\ (forall q, q ∈ U -> f' !! q = f !! q).
Proof.
  induction n as [|n IH]; intros s f b s' f' Hu Nd E; simpl in *; destruct (negb _); try by injection E as <- <- <-.
  destruct (victim s) as [[p e]|] eqn:V; [|by injection E as <- <- <-].
  destruct (victim_peek s p e Nd V) as [Hp _]. assert (Np : p ∉ U) by (intros H; rewrite Hu in Hp by done; done).
  rewrite remove_seen by done. pose proof (fun q => remove_other io p q f) as Ro.
  destruct (remove_file io p f) as [o f1]. simpl in *.
  set (s1 := mkState (pop p (entries s)) (pending s) (resident s - e_bytes e) (reserved s)) in *.
  assert (Hu' : forall q, q ∈ U -> peek q (entries s1) = None).
  { intros q Hq. simpl. rewrite peek_pop, Hu by done. by destruct (String.eqb q p). }
  assert (Go : evict n io c bytes entry s1 f1 = (b, s', f') ->
    evict n io c bytes entry s1 (seen U f1) = (b, s', seen U f') /\ (forall q, q ∈ U -> f' !! q = f !! q)).
  { intros E'. destruct (IH s1 f1 b s' f' Hu' (pop_NoDup _ _ Nd) E') as [A B]. split; [done|]. intros q Hq. rewrite B by done.
    apply Ro. congruence. }
  destruct o; [by apply Go|by apply Go|]. injection E as <- <- <-. split; [done|]. intros q Hq. apply Ro. congruence.
Qed.

Lemma make_room_seen io c bytes entry U s f b s' f' :
  (forall q, q ∈ U -> peek q (entries s) = None) -> NoDup (names (entries s)) ->
  make_room io c bytes entry s f = (b, s', f') ->
  make_room io c bytes entry s (seen U f) = (b, s', seen U f') /\ (forall q, q ∈ U -> f' !! q = f !! q).
Proof. unfold make_room. intros Hu Nd. destruct (max_bytes c <? bytes); [by intros [= <- <- <-]|]. by apply evict_seen. Qed.

(** A file that is indexed. *)
Lemma within_add mb me s f p d :
  within mb me [] s f -> peek p (entries s) = None -> plain p ->
  resident s + reserved s + len d <= mb -> len (entries s) + 1 <= me ->
  within mb me [] (mkState (put p (mkEntry (len d) 0) (entries s)) (pending s) (resident s + len d) (reserved s)) (<[p := d]> f).
Proof.
  intros [] Fr Pl Bm Cm. unfold put. rewrite pop_absent by done. split; simpl; try done.
  - constructor; [by apply peek_None|done].
  - intros q e. destruct (String.eqb_spec p q) as [<-|]; [intros [= <-]; split; [done|simpl; unfold len; lia]|]. apply w_entries0.
  - lia.
  - lia.
  - unfold len in *. simpl. lia.
  - intros n dn [[<- <-]|[Ne H]]%lookup_insert_Some.
    + left. exists (mkEntry (len d) 0). rewrite String.eqb_refl. split; [done|]. simpl. lia.
    + destruct (w_files0 n dn H) as [(e & He & Le)|?]; [|by right]. left. exists e. by rewrite (proj2 (String.eqb_neq _ _)).
Qed.

Lemma seen_next U p f d : p ∉ U -> f !! p = Some d -> seen U f = <[p := d]> (seen (p :: U) f).
Proof.
  intros N H. apply map_eq. intros n. destruct (decide (n = p)) as [->|Ne]; [by rewrite lookup_insert_eq, seen_lookup|].
  rewrite lookup_insert_ne by done. destruct (decide (n ∈ U)) as [Hn|Hn].
  - rewrite !seen_unseen; [done|by right|done].
  - rewrite !seen_lookup; try done. by rewrite not_elem_of_cons.
Qed.

Lemma seen_gone U p f : f !! p = None -> seen U f = seen (p :: U) f.
Proof.
  intros H. apply map_eq. intros n. destruct (decide (n ∈ U)) as [Hn|Hn]; [by rewrite !seen_unseen; [|right|]|].
  destruct (decide (n = p)) as [->|Ne]; [by rewrite (seen_unseen (p :: U)), seen_lookup by (by left || done)|].
  rewrite !seen_lookup; try done. by rewrite not_elem_of_cons.
Qed.

(** ** The reindexing pass *)

Definition dir_files (items : list (string * option (list Z))) : list (string * list Z) :=
  omap (fun item => if String.eqb item.1 LOCK then None else (fun d => (item.1, d)) <$> item.2) items.

Lemma seen_nil f : seen [] f = f.
Proof. apply map_eq. intros n. apply seen_lookup, not_elem_of_nil. Qed.

(** The pass with [items] to come: what it has seen is within the limits. *)
Record passing (items : list (string * option (list Z))) (c : DiskCache) : Prop := {
  pa_within : within (max_bytes c) (max_entries c) [] (state c) (seen (List.map fst (dir_files items)) (files c));
  pa_idle : forall p e, peek p (entries (state c)) = Some e ->
    readers e = 0 /\ exists d, files c !! p = Some d /\ len d = e_bytes e;
  pa_ahead : forall q d, (q, d) ∈ dir_files items -> peek q (entries (state c)) = None /\ files c !! q = Some d;
}.

Lemma dir_files_cons name content items :
  dir_files ((name, content) :: items) =
  (if String.eqb name LOCK then [] else match content with Some d => [(name, d)] | None => [] end) ++ dir_files items.
Proof. unfold dir_files. simpl. destruct (String.eqb name LOCK); [done|]. by destruct content. Qed.

Lemma passing_gone name data items c :
  dir_files ((name, Some data) :: items) = (name, data) :: dir_files items -> NoDup (List.map fst (dir_files ((name, Some data) :: items))) ->
  passing ((name, Some data) :: items) c -> passing items (with_state c (state c) (delete name (files c))).
Proof.
  intros D Nd [W Id Ah]. rewrite D in Nd, W, Ah. simpl in *. apply NoDup_cons in Nd as [Nn Nd]. split; simpl.
  - rewrite (seen_gone _ name) by apply lookup_delete_eq.
    replace (seen (name :: _) (delete name _)) with (seen (name :: List.map fst (dir_files items)) (files c)); [done|].
    apply map_eq. intros n. destruct (decide (n ∈ name :: List.map fst (dir_files items))) as [?|Hn]; [by rewrite !seen_unseen|].
    rewrite !seen_lookup by done. rewrite lookup_delete_ne; [done|]. intros ->. apply Hn. by left.
  - intros p e H. destruct (Id p e H) as (R & d & F & L). split; [done|]. exists d. rewrite lookup_delete_ne; [done|].
    intros <-. destruct (Ah name data) as [A1 _]; [by left|]. congruence.
  - intros q d Hq. destruct (Ah q d) as [A1 A2]; [by right|]. split; [done|]. rewrite lookup_delete_ne; [done|].
    intros ->. destruct Nn. by apply (list_elem_of_fmap_2 fst _ _ Hq).
Qed.

Lemma passing_add is_uuid io c name data items s f :
  max_entries c < 2 ^ 64 - 1 ->
  dir_files ((name, Some data) :: items) = (name, data) :: dir_files items -> NoDup (List.map fst (dir_files ((name, Some data) :: items))) ->
  managed_name is_uuid name = true -> is_temporary is_uuid name = false ->
  passing ((name, Some data) :: items) c -> make_room io c (len data) true (state c) (files c) = (true, s, f) ->
  passing items (with_state c (mkState (put name (mkEntry (len data) 0) (entries s)) (pending s) (resident s + len data) (reserved s)) f).
Proof.
  intros Me D Nd Mn Tm [W Id Ah] Mr. pose proof (make_room_sub _ _ _ _ _ _ _ _ _ Mr) as Sub. rewrite D in Nd, W, Ah. simpl in Nd, W. apply NoDup_cons in Nd as [Nn Nd].
  destruct (Ah name data) as [Fr Fn]; [by left|].
  assert (Hu : forall q, q ∈ name :: List.map fst (dir_files items) -> peek q (entries (state c)) = None).
  { intros q [->|([q' d] & -> & Hq)%list_elem_of_fmap]%elem_of_cons; [done|]. by apply (Ah q' d); right. }
  destruct (make_room_seen _ _ _ _ _ _ _ _ _ _ Hu (w_names _ _ _ _ _ W) Mr) as [Ms Ml].
  destruct (make_room_within _ _ _ _ _ _ _ _ _ _ Me W Ms) as (W' & _ & Ro & Ke & _ & _). destruct (Ro eq_refl) as [Ro1 Ro2].
  split; simpl.
  - rewrite (seen_next _ name f data); [|done|by rewrite Ml by left]. apply within_add; try done; [by apply Ke|by apply (indexed_plain is_uuid)|].
    unfold len in *. simpl in *. lia.
  - intros p e. rewrite peek_pop, (String.eqb_sym p name). destruct (String.eqb_spec name p) as [<-|Ne].
    + intros [= <-]. split; [done|]. exists data. by rewrite Ml by left.
    + intros H. destruct (Sub p e H) as [H0 F]. rewrite F. by apply Id.
  - intros q d Hq. destruct (Ah q d) as [A1 A2]; [by right|].
    assert (Ne : name <> q) by (intros <-; destruct Nn; by apply (list_elem_of_fmap_2 fst _ _ Hq)). split.
    + rewrite (proj2 (String.eqb_neq name q)) by done. rewrite peek_pop, Ke by done. by destruct (String.eqb q name).
    + rewrite Ml; [done|]. right. by apply (list_elem_of_fmap_2 fst _ _ Hq).
Qed.

Lemma reindex_passing is_uuid io c item items c' :
  max_entries c < 2 ^ 64 - 1 -> unmanaged is_uuid item = false -> NoDup (List.map fst (dir_files (item :: items))) ->
  passing (item :: items) c -> reindex is_uuid io c item = Ok c' ->
  passing items c' /\ max_bytes c' = max_bytes c /\ max_entries c' = max_entries c.
Proof.
  destruct item as [name content]. unfold unmanaged, reindex. cbn [fst snd]. intros Me Um Nd P R.
  pose proof (dir_files_cons name content items) as D. destruct (String.eqb name LOCK).
  - injection R as <-. split; [|done]. destruct P as [W Id Ah]. rewrite D in W, Ah. by split.
  - destruct content as [data|]; [|done]. apply negb_false_iff in Um. cbn [app] in D.
    assert (Gone : forall r : string, (match remove_file io name (files c) with (Removed, f) => Ok (with_state c (state c) f) | _ => Err r end) = Ok c' ->
      passing items c' /\ max_bytes c' = max_bytes c /\ max_entries c' = max_entries c).
    { intros r E. destruct (remove_file io name (files c)) as [o f] eqn:Rm. destruct o; try done. injection E as <-.
      apply remove_file_spec in Rm. subst f. split; [|done]. by apply (passing_gone name data). }
    destruct (is_temporary is_uuid name) eqn:T; cbn [orb] in R; [by eapply Gone|]. destruct (max_bytes c <? len data); [by eapply Gone|].
    destruct (make_room io c (len data) true (state c) (files c)) as [[b s] f] eqn:Mr. destruct b; [|done]. injection R as <-.
    split; [|done]. by eapply passing_add.
Qed.

Lemma reindex_all_passing is_uuid io items : forall c c',
  max_entries c < 2 ^ 64 - 1 -> Forall (fun i => unmanaged is_uuid i = false) items -> NoDup (List.map fst (dir_files items)) ->
  passing items c -> reindex_all is_uuid io c items = Ok c' ->
  passing [] c' /\ max_bytes c' = max_bytes c /\ max_entries c' = max_entries c.
Proof.
  induction items as [|item items IH]; intros c c' Me Um Nd P R; cbn [reindex_all] in R.
  - by injection R as <-.
  - destruct (reindex is_uuid io c item) as [c1|] eqn:R1; cbn [rbind] in R; [|done]. apply Forall_cons in Um as [Ui Um].
    destruct (reindex_passing _ _ _ _ _ _ Me Ui Nd P R1) as (P1 & B1 & N1).
    assert (Nd1 : NoDup (List.map fst (dir_files items))).
    { destruct item as [n d]. rewrite dir_files_cons, List.map_app in Nd. by apply NoDup_app in Nd as (_ & _ & ?). }
    destruct (IH c1 c' ltac:(lia) Um Nd1 P1 R) as (W & B & N). split; [done|]. lia.
Qed.

(** What [open] returns is within the configured limits. *)
Lemma open_within is_uuid io config locked items c :
  cf_max_entries config < 2 ^ 64 - 1 -> 0 <= cf_max_bytes config -> 0 <= cf_max_entries config ->
  NoDup (List.map fst items) -> open is_uuid io config locked items = Ok c ->
  within (cf_max_bytes config) (cf_max_entries config) [] (state c) (files c) /\
  (forall p e, peek p (entries (state c)) = Some e -> readers e = 0 /\ exists d, files c !! p = Some d /\ len d = e_bytes e) /\
  max_bytes c = cf_max_bytes config /\ max_entries c = cf_max_entries config.
Proof.
  intros Me Bp Ep Nd O. unfold open in O. destruct (_ || _); [done|]. destruct (negb locked); [done|].
  destruct (List.existsb _ items) eqn:X; [done|]. fold (dir_files items) in O.
  assert (Um : Forall (fun i => unmanaged is_uuid i = false) items).
  { apply Forall_forall. intros i Hi. apply not_true_iff_false. intros U. apply not_true_iff_false in X. apply X, List.existsb_exists.
    exists i. by rewrite <-list_elem_of_In. }
  assert (Nf : NoDup (List.map fst (dir_files items))).
  { clear - Nd. induction items as [|[n d] items IH]; [constructor|]. simpl in Nd. apply NoDup_cons in Nd as [Nn Nd].
    rewrite dir_files_cons, List.map_app. destruct (String.eqb n LOCK), d; simpl; try by apply IH. constructor; [|by apply IH].
    intros ([q x] & -> & (i & Hi & E)%list_elem_of_omap)%list_elem_of_fmap. apply Nn, list_elem_of_fmap. exists i. split; [|done].
    destruct (String.eqb i.1 LOCK); [done|]. destruct i.2; [|done]. by injection E as <- _. }
  set (c0 := mkCache _ _ _ _) in O.
  assert (P0 : passing items c0).
  { split; simpl.
    - split; simpl; try done; try apply NoDup_nil_2; try apply Forall_nil_2. intros n d [H Hn]%map_lookup_filter_Some. destruct Hn.
      apply elem_of_list_to_map_2 in H. by apply (list_elem_of_fmap_2 fst _ _ H).
    - done.
    - intros q d H. split; [done|]. by apply elem_of_list_to_map_1. }
  destruct (reindex_all_passing is_uuid io items c0 c Me Um Nf P0 O) as ([W Id _] & B & N). simpl in W.
  by rewrite seen_nil, B, N in W.
Qed.

End DiskCacheOpen.
