(* ===== verification/DiskCacheTheorems.v ===== *)
(** * The disk cache: what it promises

    Whatever its users do and the filesystem answers, the directory stays within
    its byte and entry limits; while reads are not disturbed, a file under a
    lease stays; and the fault that breaks the reader count. The last module runs
    the cache on concrete files. *)

From S2P Require Import Prelude DiskCache DiskCacheSpec.
Import DiskCache DiskCacheSpec DiskCacheSteps DiskCacheOpen.

Module DiskCacheTheorems.

(** ** The budget over a run *)

Definition sys_within (mb me : Z) (s : Sys) : Prop :=
  max_bytes (cache s) = mb /\ max_entries (cache s) = me /\
  within mb me (fills s ++ leaked s) (state (cache s)) (files (cache s)).

Lemma remove_nth_perm {A} k (l : list A) x : l !! k = Some x -> l ≡ₚ x :: remove_nth k l.
Proof. intros H. rewrite <-(take_drop_middle l k x H) at 1. unfold remove_nth. by rewrite <-Permutation_middle. Qed.

Lemma insert_perm {A} k (l : list A) x y : l !! k = Some x -> <[k := y]> l ≡ₚ y :: remove_nth k l.
Proof.
  intros H. rewrite insert_take_drop by by apply lookup_lt_Some in H. unfold remove_nth. by rewrite <-Permutation_middle.
Qed.

Lemma lookup_pick {A} k (l l' : list A) x : l !! k = Some x -> l ++ l' ≡ₚ x :: (remove_nth k l ++ l').
Proof. intros H. exact (Permutation_app_tail l' (remove_nth_perm _ _ _ H)). Qed.

Lemma write_bytes_len data offset payload :
  len (write_bytes data offset payload) <= Z.max (len data) (Z.of_nat offset + len payload).
Proof.
  unfold write_bytes, len. destruct payload as [|x payload]; [lia|]. rewrite !length_app, length_replicate, List.length_firstn, List.length_skipn. simpl. lia.
Qed.

(** Dropping a fill gives its charge back, or leaves its staging file charged. *)
Lemma drop_fill_within mb me io fill rest lk c :
  within mb me (fill :: rest ++ lk) (state c) (files c) ->
  within mb me (rest ++ (if leaks io fill c then fill :: lk else lk)) (state (drop_fill io fill c)) (files (drop_fill io fill c)).
Proof.
  intros W. unfold drop_fill, leaks. destruct (remove_file io (fl_tmp fill) (files c)) as [o f] eqn:Rm.
  apply remove_file_spec in Rm. destruct o; subst f; simpl; try by apply within_unreserve.
  revert W. apply within_perm. by rewrite Permutation_middle.
Qed.

Lemma drop_fill_limits io fill c : max_bytes (drop_fill io fill c) = max_bytes c /\ max_entries (drop_fill io fill c) = max_entries c.
Proof. unfold drop_fill. by destruct (remove_file _ _ _) as [[] ?]. Qed.

Lemma reserve_within mb me own io name bytes uuid c r c' :
  mb = max_bytes c -> me = max_entries c -> me < 2 ^ 64 - 1 -> plain name -> 0 <= bytes ->
  within mb me own (state c) (files c) -> reserve io name bytes uuid c = (r, c') ->
  within mb me (match r with Some x => x :: own | None => own end) (state c') (files c') /\ max_bytes c' = mb /\ max_entries c' = me.
Proof.
  intros -> -> Me Pl Sz W R. unfold reserve in R. destruct (_ || _) eqn:Dup; [by injection R as <- <-|].
  apply orb_false_iff in Dup as [D1 D2]. apply bool_decide_eq_false, eq_None_not_Some in D1, D2.
  destruct (make_room io c bytes true (state c) (files c)) as [[b s] f] eqn:Mr.
  destruct (make_room_within _ _ _ _ _ _ _ _ _ _ Me W Mr) as (W' & Pe & Ro & Ke & _ & _).
  destruct b; [|by injection R as <- <-]. destruct (Ro eq_refl) as [R1 R2].
  destruct (_ || _) eqn:Cr; [by injection R as <- <-|]. apply orb_false_iff in Cr as [_ Nx].
  apply bool_decide_eq_false, eq_None_not_Some in Nx. injection R as <- <-. split; [|done]. simpl.
  apply (within_reserve _ _ _ _ _ (mkFill name (tmp_name name uuid) bytes)); simpl; try done; [by apply Ke|by rewrite Pe|apply tmp_not_plain].
Qed.

Lemma step_within mb me io op s :
  me < 2 ^ 64 - 1 -> op_ok op -> sys_within mb me s -> sys_within mb me (step io op s).
Proof.
  intros Me Ok (Mb & Mn & W). unfold sys_within. destruct op as [name|k|name bytes uuid|k bytes|k payload offset|k|k|name keep]; simpl in *.
  - destruct (read io name (cache s)) as [r c] eqn:R. destruct (read_within _ _ _ _ _ _ _ _ W R) as (W' & B & N).
    destruct r; simpl; (split_and!; [congruence|congruence|done]).
  - destruct (leases s !! k) as [p|]; [|done]. simpl. split_and!; [unfold drop_lease; by destruct (peek _ _)..|]. by apply drop_lease_within.
  - destruct Ok as [Pl Sz]. destruct (reserve io name bytes uuid (cache s)) as [r c] eqn:R.
    destruct (reserve_within mb me _ _ _ _ _ _ _ _ (eq_sym Mb) (eq_sym Mn) Me Pl Sz W R) as (W' & B & N). by destruct r.
  - destruct (fills s !! k) as [x|] eqn:K; [|done]. unfold grow.
    destruct (make_room io (cache s) bytes false (state (cache s)) (files (cache s))) as [[b st] f] eqn:Mr. subst mb me.
    destruct (make_room_within _ _ _ _ _ _ _ _ _ _ Me W Mr) as (W' & Pe & Ro & Ke & _ & _). destruct b; simpl; split_and!; try done.
    + apply (within_perm _ _ _ _ _ _ (lookup_pick _ _ _ _ K)) in W'. apply (within_grow _ _ _ _ _ _ bytes) in W'; [|done|by apply Ro].
      revert W'. apply within_perm. by rewrite (insert_perm _ _ _ _ K).
    + by rewrite list_insert_id.
  - destruct (fills s !! k) as [x|] eqn:K; [|done]. simpl. unfold write_at.
    destruct (_ || (fl_bytes x <? _)) eqn:Ov; [done|].
    destruct (files (cache s) !! fl_tmp x) as [d|] eqn:F; [|done]. simpl. split_and!; try done.
    apply orb_false_iff in Ov as [_ Ov]. apply Z.ltb_ge in Ov. apply (within_perm _ _ _ _ _ _ (lookup_pick _ _ _ _ K)) in W.
    pose proof (w_fills _ _ _ _ _ W) as [[_ _ _ _ (d' & F' & L)] _]%Forall_cons. rewrite F in F'. injection F' as <-.
    set (written := match write_fails _ _ with Some n => _ | None => _ end).
    assert (Lw : len written <= len payload) by (unfold written, len; destruct (write_fails _ _); [rewrite List.length_firstn|]; lia).
    apply (within_write _ _ _ _ _ _ (write_bytes d (Z.to_nat offset) written)) in W.
    + revert W. apply within_perm. symmetry. by apply lookup_pick.
    + pose proof (write_bytes_len d (Z.to_nat offset) written). lia.
  - destruct (fills s !! k) as [x|] eqn:K; [|done]. apply (within_perm _ _ _ _ _ _ (lookup_pick _ _ _ _ K)) in W.
    pose proof (drop_fill_within _ _ io _ _ _ _ W) as D. destruct (drop_fill_limits io x (cache s)) as [L1 L2].
    unfold publish. destruct (files (cache s) !! fl_tmp x) as [d|]; [|simpl; split_and!; [congruence..|done]].
    destruct (_ || rename_fails _ _) eqn:X; [simpl; split_and!; [congruence..|done]|]. simpl. split_and!; try done.
    apply orb_false_iff in X as [[_ X]%orb_false_iff _]. apply negb_false_iff, Z.eqb_eq in X. by apply within_publish.
  - destruct (fills s !! k) as [x|] eqn:K; [|done]. apply (within_perm _ _ _ _ _ _ (lookup_pick _ _ _ _ K)) in W.
    pose proof (drop_fill_within _ _ io _ _ _ _ W) as D. destruct (drop_fill_limits io x (cache s)) as [L1 L2]. simpl.
    split_and!; [congruence..|done].
  - destruct (peek name (entries (state (cache s)))) as [e|] eqn:He; [|done]. destruct (files (cache s) !! name) as [d|] eqn:F; [|done].
    simpl. split_and!; try done. destruct (w_entries _ _ _ _ _ W _ _ He) as [Pl _]. revert W. destruct keep as [n|]; intros W.
    + eapply within_files; [exact W|..].
      * intros q dq [[<- <-]|[Ne H]]%lookup_insert_Some; [|by exists dq]. exists d. split; [done|]. unfold len. rewrite List.length_firstn. lia.
      * intros q Np. rewrite lookup_insert_ne; [done|]. by intros <-.
    + eapply within_files; [exact W|..].
      * intros q dq [Ne H]%lookup_delete_Some. by exists dq.
      * intros q Np. rewrite lookup_delete_ne; [done|]. by intros <-.
Qed.

Lemma run_within mb me ops : forall s,
  me < 2 ^ 64 - 1 -> Forall (fun o => op_ok o.2) ops -> sys_within mb me s -> sys_within mb me (run ops s).
Proof.
  induction ops as [|[io op] ops IH]; intros s Me Ok W; [done|]. apply Forall_cons in Ok as [O1 O2].
  apply (IH (step io op s)); try done. by apply step_within.
Qed.

(** ** The directory *)

Definition disk_bytes (f : Files) : Z := map_fold (fun _ d n => len d + n) 0 f.
Definition bound (l : list (string * Z)) : Z := List.fold_right (fun x n => x.2 + n) 0 l.

Lemma disk_bytes_delete f p d : f !! p = Some d -> disk_bytes f = len d + disk_bytes (delete p f).
Proof.
  intros H. unfold disk_bytes. rewrite <-(insert_delete_id f p d H) at 1. apply (map_fold_insert_L (fun _ d n => len d + n) 0 p d (delete p f)).
  - intros. lia.
  - apply lookup_delete_eq.
Qed.

(** Files that a list of names and lengths covers. *)
Lemma disk_covered l : forall f,
  NoDup (List.map fst l) -> Forall (fun x => 0 <= x.2) l ->
  (forall n d, f !! n = Some d -> exists b, (n, b) ∈ l /\ len d <= b) ->
  disk_bytes f <= bound l /\ Z.of_nat (size f) <= len l.
Proof.
  induction l as [|[p b] l IH]; intros f Nd Nn H.
  - assert (f = ∅) as ->; [|done]. apply map_empty. intros n. destruct (f !! n) as [d|] eqn:E; [|done].
    by destruct (H n d E) as (b & ?%elem_of_nil & _).
  - simpl in *. apply NoDup_cons in Nd as [Np Nd]. apply Forall_cons in Nn as [Nb Nn]. simpl in Nb.
    destruct (IH (delete p f) Nd Nn) as [B S].
    { intros n d [Ne E]%lookup_delete_Some. destruct (H n d E) as (b' & [[= -> ->]|Hb]%elem_of_cons & L); [done|]. by exists b'. }
    unfold len in *. simpl. destruct (f !! p) as [d|] eqn:E.
    + rewrite (disk_bytes_delete _ _ _ E). rewrite map_size_delete_Some in S by by exists d.
      assert (0 < size f)%nat by (apply Nat.neq_0_lt_0; intros ->%map_size_empty_inv; done).
      destruct (H p d E) as (b' & [[= ->]|Hb]%elem_of_cons & L); [unfold len in *; lia|].
      destruct Np. by apply (list_elem_of_fmap_2 fst _ _ Hb).
    + rewrite delete_id in B, S by done. lia.
Qed.

Lemma within_disk mb me own s f : within mb me own s f ->
  disk_bytes f <= resident s + reserved s /\ Z.of_nat (size f) <= len (entries s) + len own /\ 0 <= resident s /\ 0 <= reserved s.
Proof.
  intros []. set (l := List.map (fun e => (e.1, e_bytes e.2)) (entries s) ++ List.map (fun x => (fl_tmp x, fl_bytes x)) own).
  assert (Bl : bound l = resident s + reserved s).
  { rewrite w_resident0, w_reserved0. unfold l. clear. induction (entries s) as [|e es IH]; simpl; [|lia].
    induction own as [|x own IH]; simpl; lia. }
  assert (Ll : len l = len (entries s) + len own) by (unfold l, len; rewrite length_app, !List.length_map; lia).
  rewrite Forall_forall in w_fills0. destruct (disk_covered l f) as [D S].
  - unfold l. rewrite List.map_app, !List.map_map. simpl. apply NoDup_app. split_and!; [done| |done].
    intros p Hp (x & -> & Hx)%list_elem_of_fmap. destruct (w_fills0 x Hx) as [_ _ N _ _]. apply N.
    apply list_elem_of_fmap in Hp as ([q e] & E & Hq). simpl in E. apply peek_In in Hq; [|done]. rewrite E. by apply (w_entries0 q e).
  - apply Forall_app. split; apply Forall_fmap, Forall_forall.
    + intros [q e] Hq. apply peek_In in Hq; [|done]. by apply (w_entries0 q e).
    + intros x Hx. by destruct (w_fills0 x Hx).
  - intros n d H. unfold l. setoid_rewrite elem_of_app. destruct (w_files0 n d H) as [(e & He & L)|(x & Hx & <-)].
    + exists (e_bytes e). split; [left|done]. apply peek_In in He; [|done]. by apply (list_elem_of_fmap_2 (fun e => (e.1, e_bytes e.2)) _ _ He).
    + destruct (w_fills0 x Hx) as [_ _ _ _ (d' & F & L)]. exists (fl_bytes x).
      split; [right; by apply (list_elem_of_fmap_2 (fun x => (fl_tmp x, fl_bytes x)) _ _ Hx)|congruence].
  - rewrite <-Bl, <-Ll. split_and!; [done|done| |]; [rewrite w_resident0|rewrite w_reserved0].
    + apply total_nonneg; [done|]. intros p e H. by apply (w_entries0 p e).
    + apply (charged_nonneg s f). by apply Forall_forall.
Qed.

(** C22: A disk cache opened over any directory it accepts, and then used in any
    order -- reads and their leases, fills that grow, are written, published or
    dropped -- while any filesystem call fails and published files disappear or
    are cut short, never holds more bytes or files than its configuration: what
    is on disk is at most what it accounts for, resident and reserved, neither
    counter underflows, and their sum is within the budget. *)
Theorem cache_stays_in_budget is_uuid io config locked items c ops :
  0 <= cf_max_bytes config -> 0 <= cf_max_entries config < 2 ^ 64 - 1 -> NoDup (List.map fst items) ->
  open is_uuid io config locked items = Ok c -> Forall (fun o => op_ok o.2) ops ->
  let s := run ops (mkSys c [] [] []) in
  disk_bytes (files (cache s)) <= resident_bytes (stats (cache s)) + reserved_bytes (stats (cache s)) <= cf_max_bytes config /\
  Z.of_nat (size (files (cache s))) <= st_entries (stats (cache s)) + inflight_entries (stats (cache s)) <= cf_max_entries config /\
  0 <= resident_bytes (stats (cache s)) /\ 0 <= reserved_bytes (stats (cache s)).
Proof.
  intros Mb [Mn Me] Nd O Ok. cbv zeta. set (s := run ops _).
  destruct (open_within _ _ _ _ _ _ Me Mb Mn Nd O) as (W & _ & B & N).
  destruct (run_within (cf_max_bytes config) (cf_max_entries config) ops (mkSys c [] [] []) Me Ok) as (B' & N' & W'); [by split_and!|].
  fold s in W'. destruct (within_disk _ _ _ _ _ W') as (D & S & R1 & R2). simpl.
  pose proof (w_bytes _ _ _ _ _ W'). pose proof (w_count _ _ _ _ _ W').
  rewrite (w_pending _ _ _ _ _ W'), pend_size by apply (w_paths _ _ _ _ _ W'). unfold len in *. lia.
Qed.

End DiskCacheTheorems.

(** * Leases of the disk cache

    A file under a lease stays in the cache, and its reader count is the number
    of its leases, as long as opening a published file does not fail; when it
    does, the count can wrap around. *)

Import DiskCache DiskCacheSpec DiskCacheSteps DiskCacheOpen DiskCacheTheorems.

Module DiskCacheLeases.

(** No published file is touched from outside, and none fails to open. *)
Definition calm (o : Io * Op) : Prop :=
  (forall name, open_fails o.1 name = false) /\ match o.2 with OpDisturb _ _ => False | _ => True end.

Definition held (p : string) (l : list string) : Z := Z.of_nat (count_occ String.string_dec l p).

Record pinned (s : Sys) : Prop := {
  pn_index : forall p e, peek p (entries (state (cache s))) = Some e ->
    readers e = held p (leases s) /\ exists d, files (cache s) !! p = Some d /\ len d = e_bytes e;
  pn_leases : forall p, p ∈ leases s -> peek p (entries (state (cache s))) <> None;
}.

Lemma held_perm p l l' : l ≡ₚ l' -> held p l = held p l'.
Proof. intros P. unfold held. f_equal. induction P; simpl; repeat destruct (String.string_dec _ _); congruence. Qed.

Lemma held_elem p l : p ∈ l <-> 0 < held p l.
Proof. unfold held. rewrite list_elem_of_In, (count_occ_In String.string_dec). lia. Qed.

Lemma held_cons p q l : held q (p :: l) = (if String.eqb p q then 1 else 0) + held q l.
Proof. unfold held. simpl. destruct (String.string_dec p q), (String.eqb_spec p q); try done; lia. Qed.

Lemma held_le p l : 0 <= held p l <= len l.
Proof. unfold held, len. pose proof (count_occ_bound String.string_dec p l). lia. Qed.

(** What leaves the entries under a lease, and the files of those it keeps. *)
Lemma pinned_keep s s' : pinned s -> leases s' = leases s ->
  (forall p e, peek p (entries (state (cache s'))) = Some e ->
    peek p (entries (state (cache s))) = Some e /\ files (cache s') !! p = files (cache s) !! p) ->
  (forall p e, peek p (entries (state (cache s))) = Some e -> readers e <> 0 -> peek p (entries (state (cache s'))) = Some e) ->
  pinned s'.
Proof.
  intros [Ix Ls] L Sub Keep. split; rewrite L.
  - intros p e H. destruct (Sub p e H) as [H0 F]. rewrite F. by apply Ix.
  - intros p Hp. specialize (Ls p Hp). destruct (peek p (entries (state (cache s)))) as [e|] eqn:E; [|done].
    rewrite (Keep p e E); [done|]. destruct (Ix p e E) as [-> _]. apply held_elem in Hp. lia.
Qed.

(** Files that belong to no entry come and go. *)
Lemma pinned_files s s' : pinned s -> leases s' = leases s -> entries (state (cache s')) = entries (state (cache s)) ->
  (forall p, peek p (entries (state (cache s))) <> None -> files (cache s') !! p = files (cache s) !! p) -> pinned s'.
Proof. intros P L E F. apply (pinned_keep s); try done; rewrite E; [|done]. intros p e H. split; [done|]. apply F. by rewrite H. Qed.

Lemma tmp_not_entry mb me own s f x p : within mb me own s f -> x ∈ own -> peek p (entries s) <> None -> p <> fl_tmp x.
Proof.
  intros W Hx Hp ->. destruct (peek (fl_tmp x) (entries s)) as [e|] eqn:E; [|done]. destruct (w_entries _ _ _ _ _ W _ _ E) as [Pl _].
  pose proof (w_fills _ _ _ _ _ W) as Fs. rewrite Forall_forall in Fs. by destruct (Fs x Hx) as [_ _ N _ _].
Qed.

Lemma read_pinned io name s :
  (forall n, open_fails io n = false) -> len (leases s) + 1 < 2 ^ 64 -> pinned s -> pinned (step io (OpRead name) s).
Proof.
  intros Op Lt [Ix Ls]. simpl. unfold read.
  destruct (peek name (entries (state (cache s)))) as [e|] eqn:He; [|simpl; by split].
  destruct (Ix name e He) as [R (d & F & L)]. rewrite Op, F. simpl. rewrite L, Z.eqb_refl. split; simpl.
  - intros p x. rewrite held_cons, String.eqb_refl. simpl. destruct (String.eqb_spec name p) as [<-|Ne].
    + intros [= <-]. split; [|by exists d]. simpl. rewrite R. unfold wrap_usize. pose proof (held_le name (leases s)). rewrite Z.mod_small; lia.
    + rewrite !peek_pop, (proj2 (String.eqb_neq p name)) by done. intros H. by apply Ix.
  - intros p. rewrite String.eqb_refl. simpl. destruct (String.eqb_spec name p) as [<-|Ne]; [done|].
    intros [->|Hp]%elem_of_cons; [done|]. rewrite !peek_pop, (proj2 (String.eqb_neq p name)) by done. by apply Ls.
Qed.

Lemma drop_lease_pinned io k s : len (leases s) < 2 ^ 64 -> pinned s -> pinned (step io (OpDropLease k) s).
Proof.
  intros Lt [Ix Ls]. simpl. destruct (leases s !! k) as [name|] eqn:K; [|by split].
  pose proof (remove_nth_perm _ _ _ K) as Pm. pose proof (held_le name (leases s)) as Bd.
  assert (Hn : name ∈ leases s) by (by eapply list_elem_of_lookup_2).
  assert (Hh : forall p, held p (leases s) = (if String.eqb name p then 1 else 0) + held p (remove_nth k (leases s)))
    by (intros p; by rewrite (held_perm _ _ _ Pm), held_cons).
  unfold drop_lease. destruct (peek name (entries (state (cache s)))) as [e|] eqn:He; [|by destruct (Ls name)].
  split; simpl.
  - intros p x. rewrite peek_replace. destruct (String.eqb_spec name p) as [<-|Ne].
    + rewrite He. simpl. intros [= <-]. destruct (Ix name e He) as [R (d & F & L)]. split; [|by exists d]. simpl. rewrite R.
      pose proof (Hh name) as E. rewrite String.eqb_refl in E. unfold wrap_usize.
      pose proof (held_le name (remove_nth k (leases s))). rewrite Z.mod_small; lia.
    + intros H. destruct (Ix p x H) as [R X]. rewrite R, Hh, (proj2 (String.eqb_neq name p)) by done. split; [lia|done].
  - intros p Hp. rewrite peek_replace. assert (Hp' : p ∈ leases s) by (rewrite Pm; by right). specialize (Ls p Hp').
    destruct (String.eqb_spec name p) as [<-|Ne]; [by rewrite He|done].
Qed.

(** Making room, then changing no entry. *)
Lemma make_room_pinned own io bytes entry s b st f s' :
  max_entries (cache s) < 2 ^ 64 - 1 -> within (max_bytes (cache s)) (max_entries (cache s)) own (state (cache s)) (files (cache s)) ->
  make_room io (cache s) bytes entry (state (cache s)) (files (cache s)) = (b, st, f) -> pinned s ->
  leases s' = leases s -> entries (state (cache s')) = entries st -> files (cache s') = f -> pinned s'.
Proof.
  intros Me W Mr P L E F. destruct (make_room_within _ _ _ _ _ _ _ _ _ _ Me W Mr) as (_ & _ & _ & _ & _ & Keep).
  apply (pinned_keep s); try done; rewrite E; [|done]. rewrite F. by apply (make_room_sub _ _ _ _ _ _ _ _ _ Mr).
Qed.

Lemma drop_fill_pinned io mb me own x s s' : within mb me own (state (cache s)) (files (cache s)) -> x ∈ own -> pinned s ->
  leases s' = leases s -> cache s' = drop_fill io x (cache s) -> pinned s'.
Proof.
  intros W Hx P L E. unfold drop_fill in E. destruct (remove_file io (fl_tmp x) (files (cache s))) as [o f] eqn:Rm.
  apply remove_file_spec in Rm. apply (pinned_files s); try done; rewrite E; destruct o; subst f; try done; simpl; intros p Hp;
    rewrite lookup_delete_ne; try done; intros <-; by eapply tmp_not_entry.
Qed.

Lemma publish_pinned io mb me k x s : within mb me (fills s ++ leaked s) (state (cache s)) (files (cache s)) ->
  fills s !! k = Some x -> pinned s -> pinned (step io (OpPublish k) s).
Proof.
  intros W K P. assert (Hx : x ∈ fills s ++ leaked s) by (apply elem_of_app; left; by eapply list_elem_of_lookup_2).
  simpl. rewrite K. unfold publish. destruct (files (cache s) !! fl_tmp x) as [d|]; [|simpl; by eapply drop_fill_pinned].
  destruct (_ || rename_fails _ _) eqn:X; [simpl; by eapply drop_fill_pinned|].
  apply orb_false_iff in X as [[_ X]%orb_false_iff _]. apply negb_false_iff, Z.eqb_eq in X.
  pose proof (w_fills _ _ _ _ _ W) as Fs. rewrite Forall_forall in Fs. destruct (Fs x Hx) as [Fr _ _ _ _]. destruct P as [Ix Ls].
  split; simpl.
  - intros p e. destruct (String.eqb_spec (fl_path x) p) as [<-|Ne].
    + intros [= <-]. simpl. split; [|exists d; by rewrite lookup_insert_eq].
      assert (N : fl_path x ∉ leases s) by (intros H; by apply (Ls _ H)). rewrite held_elem in N. pose proof (held_le (fl_path x) (leases s)). lia.
    + rewrite peek_pop, (proj2 (String.eqb_neq p _)) by done. intros H. destruct (Ix p e H) as [R (dp & F & L)]. split; [done|].
      exists dp. rewrite lookup_insert_ne, lookup_delete_ne; try done. intros E. eapply tmp_not_entry; [exact W|exact Hx| |by symmetry]. by rewrite H.
  - intros p Hp. destruct (String.eqb_spec (fl_path x) p) as [<-|Ne]; [done|]. rewrite peek_pop, (proj2 (String.eqb_neq p _)) by done. by apply Ls.
Qed.

Lemma step_pinned mb me o s :
  me < 2 ^ 64 - 1 -> calm o -> len (leases s) + 1 < 2 ^ 64 -> sys_within mb me s -> pinned s -> pinned (step o.1 o.2 s).
Proof.
  destruct o as [io op]. intros Me [Op Cl] Lt (<- & <- & W) P. simpl in Op, Cl.
  assert (El : forall k x, fills s !! k = Some x -> x ∈ fills s ++ leaked s)
    by (intros k x K; apply elem_of_app; left; by eapply list_elem_of_lookup_2).
  destruct op as [name|k|name bytes uuid|k bytes|k payload offset|k|k|]; cbn [fst snd]; [| | | | | | |done].
  - by apply read_pinned.
  - apply drop_lease_pinned; [lia|done].
  - simpl. unfold reserve. destruct (_ || _); [by apply (pinned_files s)|].
    destruct (make_room io (cache s) bytes true (state (cache s)) (files (cache s))) as [[b st] f] eqn:Mr.
    pose proof (make_room_within _ _ _ _ _ _ _ _ _ _ Me W Mr) as (W' & _).
    pose proof (make_room_pinned _ _ _ _ _ _ _ _ (mkSys (with_state (cache s) st f) (fills s) (leaked s) (leases s)) Me W Mr P eq_refl eq_refl eq_refl) as P1.
    destruct b; [|exact P1]. destruct (_ || _) eqn:Cr; [exact P1|]. eapply pinned_files; [exact P1|done|done|].
    simpl. intros p Hp. rewrite lookup_insert_ne; [done|]. intros <-. destruct (peek _ (entries st)) as [e|] eqn:E; [|done].
    destruct (w_entries _ _ _ _ _ W' _ _ E) as [Pl _]. by apply (tmp_not_plain _ _ Pl).
  - simpl. destruct (fills s !! k) as [x|] eqn:K; [|done]. unfold grow.
    destruct (make_room io (cache s) bytes false (state (cache s)) (files (cache s))) as [[b st] f] eqn:Mr.
    destruct b; (eapply make_room_pinned; [exact Me|exact W|exact Mr|exact P|done..]).
  - simpl. destruct (fills s !! k) as [x|] eqn:K; [|done]. apply (pinned_files s); try done; simpl; unfold write_at;
      destruct (_ || (fl_bytes x <? _)); try done; destruct (files (cache s) !! fl_tmp x); try done.
    intros p Hp. simpl. rewrite lookup_insert_ne; [done|]. intros <-. by eapply tmp_not_entry; [exact W|by eapply El|..].
  - destruct (fills s !! k) as [x|] eqn:K; [by eapply publish_pinned|]. simpl. by rewrite K.
  - simpl. destruct (fills s !! k) as [x|] eqn:K; [|done]. eapply drop_fill_pinned; [exact W|by eapply El|done|done|done].
Qed.

Lemma step_leases io op s : len (leases (step io op s)) <= len (leases s) + 1.
Proof.
  unfold len. destruct op as [name|k|name bytes uuid|k bytes|k payload offset|k|k|name keep]; simpl.
  - destruct (read io name (cache s)) as [[] ?]; simpl; lia.
  - destruct (leases s !! k); simpl; [|lia]. unfold remove_nth. rewrite length_app, List.length_firstn, List.length_skipn. lia.
  - destruct (reserve _ _ _ _ _) as [[] ?]; simpl; lia.
  - destruct (fills s !! k); [|lia]. destruct (grow _ _ _ _) as [[? ?] ?]. simpl. lia.
  - destruct (fills s !! k); simpl; lia.
  - destruct (fills s !! k); [|lia]. destruct (publish _ _ _). simpl. lia.
  - destruct (fills s !! k); simpl; lia.
  - destruct (peek _ _); [|lia]. destruct (_ !! name); simpl; lia.
Qed.

Lemma run_pinned mb me ops : forall s,
  me < 2 ^ 64 - 1 -> Forall (fun o => op_ok o.2) ops -> Forall calm ops -> len (leases s) + len ops < 2 ^ 64 ->
  sys_within mb me s -> pinned s -> pinned (run ops s).
Proof.
  induction ops as [|o ops IH]; intros s Me Ok Cl Lt W P; [done|]. apply Forall_cons in Ok as [O1 O2]. apply Forall_cons in Cl as [C1 C2].
  pose proof (step_leases o.1 o.2 s) as L. unfold len in *. simpl in Lt.
  apply (IH (step o.1 o.2 s)); try done; [unfold len; lia|by apply step_within|]. eapply step_pinned; try done. unfold len. lia.
Qed.

(** C23: In a disk cache opened over any directory it accepts and used in any
    order, evictions included, as long as published files are left alone and can
    be opened: every lease has its entry, whose reader count is the number of
    its leases, and the file is there with its full length -- a file that is
    being read is never evicted, and one that is not can be. *)
Theorem leased_files_stay is_uuid io config locked items c ops :
  0 <= cf_max_bytes config -> 0 <= cf_max_entries config < 2 ^ 64 - 1 -> NoDup (List.map fst items) ->
  open is_uuid io config locked items = Ok c -> Forall (fun o => op_ok o.2) ops -> Forall calm ops -> len ops < 2 ^ 64 ->
  let s := run ops (mkSys c [] [] []) in
  (forall p, p ∈ leases s -> exists e d, peek p (entries (state (cache s))) = Some e /\
    readers e = held p (leases s) /\ files (cache s) !! p = Some d /\ len d = e_bytes e) /\
  (forall p e, peek p (entries (state (cache s))) = Some e -> readers e = 0 <-> p ∉ leases s).
Proof.
  intros Mb [Mn Me] Nd O Ok Cl Lt. cbv zeta. set (s := run ops _).
  destruct (open_within _ _ _ _ _ _ Me Mb Mn Nd O) as (W & Id & B & N).
  assert (P : pinned s).
  { apply (run_pinned (cf_max_bytes config) (cf_max_entries config)); try done. split; [exact Id|]. intros p H. by apply elem_of_nil in H. }
  destruct P as [Ix Ls]. split.
  - intros p Hp. specialize (Ls p Hp). destruct (peek p (entries (state (cache s)))) as [e|] eqn:E; [|done].
    destruct (Ix p e E) as [R (d & F & L)]. by exists e, d.
  - intros p e H. destruct (Ix p e H) as [-> _]. rewrite held_elem. pose proof (held_le p (leases s)). lia.
Qed.

End DiskCacheLeases.

(** * The disk cache at work: concrete runs *)

Import DiskCache DiskCacheSpec DiskCacheSteps DiskCacheOpen DiskCacheTheorems DiskCacheLeases.

Module DiskCacheExamples.

Definition never : string -> bool := fun _ => false.
Definition always : string -> bool := fun _ => true.
Definition written : string -> option nat := fun _ => None.
Definition io_ok : Io := mkIo never never never written never never.
Definition io_no_open : Io := mkIo never always never written never never.
Definition io_no_remove : Io := mkIo always never never written never never.

Definition demo_uuid (s : string) : bool := String.eqb s "u1" || String.eqb s "u2" || String.eqb s "u3".
Definition demo_config : CacheConfig := mkCacheConfig 64 8 true 10 2 4.

Definition zeros : string := "0000000000000000000000000000000000000000000000000000000000000000".
Definition file_name : string := (zeros +:+ ".file")%string.
Definition chunk_name : string := (zeros +:+ ".9.chunk-0")%string.
Definition stale_name : string := (file_name +:+ ".tmp-u1")%string.

(** A published file, a staging file a crash left, and the lock. *)
Definition demo_dir : list (string * option (list Z)) :=
  [(LOCK, Some []); (file_name, Some [1; 2; 3; 4]); (stale_name, Some [9; 9])].

Definition demo_cache : DiskCache :=
  match open demo_uuid io_ok demo_config true demo_dir with Ok c => c | Err _ => mkCache 0 0 (mkState [] ∅ 0 0) ∅ end.

Lemma demo_open : open demo_uuid io_ok demo_config true demo_dir = Ok demo_cache.
Proof. reflexivity. Defined.

Example demo_indexed :
  entries (state demo_cache) = [(file_name, mkEntry 4 0)] /\ map_to_list (files demo_cache) = [(file_name, [1; 2; 3; 4])].
Proof. by vm_compute. Qed.

Example unmanaged_refused :
  open demo_uuid io_ok demo_config true [("notes.txt"%string, Some [1])] = Err "unrecognized contents in cache directory"%string.
Proof. by vm_compute. Qed.

Lemma demo_plain name : rsplit_once name ".tmp-" = None -> plain name.
Proof. apply rsplit_none_plain. Defined.

(** A chunk is fetched and published while the file is read: room for it takes
    no file that is read; a third fill finds no room. *)
Definition demo_ops : list (Io * Op) :=
  [(io_ok, OpRead file_name);
   (io_ok, OpReserve chunk_name 5 "u2"); (io_ok, OpWrite 0 [5; 6] 0); (io_ok, OpGrow 0 1); (io_ok, OpWrite 0 [7; 8; 9; 10] 2);
   (io_ok, OpPublish 0);
   (io_ok, OpReserve "other" 7 "u3"); (io_ok, OpRead file_name); (io_ok, OpDropLease 0)].

Example demo_run :
  let s := run demo_ops (mkSys demo_cache [] [] []) in
  entries (state (cache s)) = [(file_name, mkEntry 4 1)] /\ leases s = [file_name] /\ fills s = [] /\
  disk_bytes (files (cache s)) = 4.
Proof. by vm_compute. Qed.

Lemma demo_ops_ok : Forall (fun o => op_ok o.2) demo_ops.
Proof. repeat constructor; simpl; try lia; by apply demo_plain. Defined.

Lemma demo_names : NoDup (List.map fst demo_dir).
Proof. apply (bool_decide_unpack _). by vm_compute. Defined.

Definition rough_ops : list (Io * Op) :=
  [(io_ok, OpReserve chunk_name 5 "u2"); (io_no_remove, OpDropFill 0); (io_no_open, OpRead file_name)].

Lemma cache_stays_in_budget_witness :
  let s := run rough_ops (mkSys demo_cache [] [] []) in
  (disk_bytes (files (cache s)) <= resident_bytes (stats (cache s)) + reserved_bytes (stats (cache s)) <= 10 /\
   Z.of_nat (size (files (cache s))) <= st_entries (stats (cache s)) + inflight_entries (stats (cache s)) <= 2 /\
   0 <= resident_bytes (stats (cache s)) /\ 0 <= reserved_bytes (stats (cache s))) /\
  reserved_bytes (stats (cache s)) = 5 /\ resident_bytes (stats (cache s)) = 0.
Proof.
  split; [|by vm_compute].
  apply (cache_stays_in_budget demo_uuid io_ok demo_config true demo_dir demo_cache rough_ops);
    [simpl; lia|simpl; lia|exact demo_names|exact demo_open|].
  repeat constructor; simpl; try lia; by apply demo_plain.
Defined.

Lemma leased_files_stay_witness :
  let s := run demo_ops (mkSys demo_cache [] [] []) in
  exists e d, peek file_name (entries (state (cache s))) = Some e /\
    readers e = held file_name (leases s) /\ files (cache s) !! file_name = Some d /\ len d = e_bytes e.
Proof.
  apply (leased_files_stay demo_uuid io_ok demo_config true demo_dir demo_cache demo_ops);
    [simpl; lia|simpl; lia|exact demo_names|exact demo_open|exact demo_ops_ok|repeat constructor|reflexivity|].
  vm_compute. apply list_elem_of_here.
Defined.

(** A read whose open fails takes away an entry that is being read. *)
Definition stale_ops : list (Io * Op) :=
  [(io_ok, OpRead file_name); (io_no_open, OpRead file_name);
   (io_ok, OpReserve file_name 4 "u2"); (io_ok, OpWrite 0 [1; 2; 3; 4] 0); (io_ok, OpPublish 0);
   (io_ok, OpDropLease 0)].

(** A read that cannot open a published file -- out of descriptors, say --
    removes its entry although another read has a lease on it. When the file is
    published again and that lease is dropped, the new entry's reader count goes
    from zero below it: it wraps to the largest [usize], so the entry that nobody
    reads is never evicted, and a fill that needs its room is refused. *)
Theorem stale_lease_pins_entry :
  let s := run stale_ops (mkSys demo_cache [] [] []) in
  leases s = [] /\ peek file_name (entries (state (cache s))) = Some (mkEntry 4 (2 ^ 64 - 1)) /\
  (reserve io_ok chunk_name 9 "u3" (cache s)).1 = None /\
  (reserve io_ok chunk_name 9 "u3" demo_cache).1 <> None.
Proof. by vm_compute. Qed.

End DiskCacheExamples.
