(* ===== verification/ObjectCache.v ===== *)
(** * The caching object store (crates/ukiel-query/src/cache.rs)

    Reads and writes of objects through the disk cache. A call runs in a small
    monad over what its process shares -- the disk cache, the memoized sizes --
    and other tasks change that between any two of its steps ([others]). The
    backing store, its ranges and the BLAKE3 hash are parameters. Metrics are
    not modelled. *)

From S2P Require Import Prelude DiskCache.
Import DiskCache.

Module ObjectCache.

Abbreviation Path := string.

(** The request and its answer, of the [object_store] crate. *)
Record GetOptions {GetRange : Type} := mkOptions {
  if_match : option string;
  if_none_match : option string;
  if_modified_since : option Z;
  if_unmodified_since : option Z;
  o_range : option GetRange;
  o_version : option string;
  o_head : bool;
}.
Arguments GetOptions : clear implicits.
Arguments mkOptions {GetRange}.

Record ObjectMeta := mkMeta {
  m_location : Path;
  m_last_modified : Z;
  m_size : Z;
  m_e_tag : option string;
  m_version : option string;
}.

(** [gr_pieces]: what the payload's stream yields, an error as its last piece;
    [gr_lease]: the lease the stream holds until it is dropped. *)
Record GetResult := mkGet {
  gr_meta : ObjectMeta;
  gr_pieces : list (option (list Z));
  gr_range : Z * Z;
  gr_attributes : list (string * string);
  gr_lease : option string;
}.

(** [GetResult::bytes]. *)
Definition collect (r : GetResult) : option (list Z) := (fun ps => concat ps) <$> mapM id (gr_pieces r).

Inductive Error :=
| Backing (e : string)
| BadRange
| Panicked.

(** What a process shares: the disk cache, and the memoized sizes with their
    capacity. The clock orders the steps of a call. *)
Record Shared := mkShared {
  sh_disk : option DiskCache;
  sh_sizes : option (Z * list (string * Z));
  sh_clock : nat;
}.

(** What happens around a call at each of its steps. *)
Record World := mkWorld {
  w_io : nat -> Io;
  w_others : nat -> DiskCache -> DiskCache;
  w_sizes : nat -> list (string * Z) -> list (string * Z);
  w_uuid : nat -> string;
  w_now : nat -> Z;
  w_read_stops : nat -> option nat;
}.

(** The backing store's answers at a step. *)
Record Backend {GetRange : Type} := mkBackend {
  b_get_opts : nat -> Path -> GetOptions GetRange -> result GetResult string;
  b_head : nat -> Path -> result ObjectMeta string;
  b_get_range : nat -> Path -> Z -> Z -> result (list Z) string;
  b_put_opts : nat -> Path -> list Z -> result string string;
}.
Arguments Backend : clear implicits.

Definition Task A : Type := Shared -> result A Error * Shared.
Definition ret {A} (a : A) : Task A := fun s => (Ok a, s).
Definition fail {A} (e : Error) : Task A := fun s => (Err e, s).
Definition bind {A B} (m : Task A) (k : A -> Task B) : Task B := fun s =>
  let '(r, s) := m s in match r with Ok a => k a s | Err e => (Err e, s) end.
Notation "'do' x <- m ; k" := (bind m (fun x => k)) (at level 90, x pattern, m at level 100, k at level 200, right associativity).

Section store.
Context {GetRange : Type} (as_range : GetRange -> Z -> option (Z * Z)).
Context (blake3_hex : Path -> string).
Context (inner : Backend GetRange) (config : CacheConfig) (w : World).

(** A step that takes the cache's mutex, or its files: others were there first. *)
Definition disk_call {A} (none : A) (f : Io -> DiskCache -> A * DiskCache) : Task A := fun s =>
  match sh_disk s with
  | None => (Ok none, mkShared None (sh_sizes s) (S (sh_clock s)))
  | Some d =>
      let '(a, d) := f (w_io w (sh_clock s)) (w_others w (sh_clock s) d) in
      (Ok a, mkShared (Some d) (sh_sizes s) (S (sh_clock s)))
  end.

(** An awaited call of the backing store. *)
Definition backing {A} (f : nat -> result A string) : Task A := fun s =>
  (map_err Backing (f (sh_clock s)), mkShared (sh_disk s) (sh_sizes s) (S (sh_clock s))).

Definition clock : Task nat := fun s => (Ok (sh_clock s), s).

Definition key (location : Path) : string := blake3_hex location.
Definition whole_name (location : Path) : string := (key location +:+ ".file")%string.
Definition chunk_name (location : Path) (chunk index : Z) : string :=
  (key location +:+ "." +:+ pretty chunk +:+ ".chunk-" +:+ pretty index)%string.

(** [bytes.slice(a..b)]: panics past the end. *)
Definition slice (bytes : list Z) (a b : Z) : option (list Z) :=
  if (0 <=? a) && (a <=? b) && (b <=? len bytes)
  then Some (List.firstn (Z.to_nat (b - a)) (List.skipn (Z.to_nat a) bytes)) else None.

(** ** Sizes *)

(** [LruCache::put] at capacity. *)
Definition sizes_put (cap : Z) (k : string) (size : Z) (l : list (string * Z)) : list (string * Z) :=
  if bool_decide (is_Some (peek k l)) || (len l <? cap) then put k size l else put k size (removelast l).

(** A step that takes the mutex of the sizes. *)
Definition size_call {A} (none : A) (f : Z -> list (string * Z) -> A * list (string * Z)) : Task A := fun s =>
  match sh_sizes s with
  | None => (Ok none, mkShared (sh_disk s) None (S (sh_clock s)))
  | Some (cap, l) =>
      let '(a, l) := f cap (w_sizes w (sh_clock s) l) in
      (Ok a, mkShared (sh_disk s) (Some (cap, l)) (S (sh_clock s)))
  end.

Definition memoize_size (location : Path) (size : Z) : Task unit :=
  size_call tt (fun cap l => (tt, sizes_put cap (key location) size l)).

Definition known_size (location : Path) : Task (option Z) :=
  size_call None (fun _ l =>
    match peek (key location) l with
    | Some size => (Some size, put (key location) size l)
    | None => (None, l)
    end).

Definition object_size (location : Path) : Task Z :=
  do known <- known_size location;
  match known with
  | Some size => ret size
  | None =>
      do meta <- backing (fun n => b_head inner n location);
      do _ <- memoize_size location (m_size meta);
      ret (m_size meta)
  end.

(** ** Fills *)

Definition drop (fill : Fill) : Task unit := disk_call tt (fun io c => (tt, drop_fill io fill c)).

(** A fill is dropped when the call it is held over fails. *)
Definition or_drop {A} (fill : Fill) (m : Task A) : Task A := fun s =>
  let '(r, s) := m s in
  match r with
  | Ok a => (Ok a, s)
  | Err e => (Err e, (drop fill s).2)
  end.

Definition save (fill : Fill) (payload : list Z) : Task bool :=
  do written <- disk_call false (fun io c => write_at io fill payload 0 c);
  if written : bool then disk_call false (fun io c => publish io fill c)
  else do _ <- drop fill; ret false.

Definition cache_read (name : string) : Task (option CachedRead) := disk_call None (fun io c => read io name c).
Definition cache_reserve (name : string) (bytes : Z) : Task (option Fill) :=
  do n <- clock; disk_call None (fun io c => reserve io name bytes (w_uuid w n) c).
Definition end_read (r : CachedRead) : Task unit := disk_call tt (fun _ c => (tt, drop_lease (cr_lease r) c)).

(** [CachedRead::range]: the descriptor may fail though the file is whole. *)
Definition cached_range (r : CachedRead) (start stop : Z) : Task (option (list Z)) :=
  do n <- clock;
  do _ <- end_read r;
  ret (match w_read_stops w n with Some _ => None | None => read_range r start stop end).

(** ** Chunked reads of a large object *)

Fixpoint chunks_loop (location : Path) (size start stop : Z) (index : Z) (fuel : nat) (out : list Z) : Task (list Z) :=
  match fuel with
  | O => ret out
  | S fuel =>
      let chunk_start := index * chunk_size config in
      let chunk_end := Z.min (sat_add chunk_start (chunk_size config)) size in
      let lo := Z.max start chunk_start in
      let hi := Z.min stop chunk_end in
      let name := chunk_name location (chunk_size config) index in
      do read <- cache_read name;
      do hit <- match read with
                | Some r => cached_range r (lo - chunk_start) (hi - chunk_start)
                | None => ret None
                end;
      match hit with
      | Some bytes => chunks_loop location size start stop (index + 1) fuel (out ++ bytes)
      | None =>
          do fill <- cache_reserve name (chunk_end - chunk_start);
          match fill with
          | Some fill =>
              do bytes <- or_drop fill (backing (fun n => b_get_range inner n location chunk_start chunk_end));
              match slice bytes (lo - chunk_start) (hi - chunk_start) with
              | None => or_drop fill (fail Panicked)
              | Some piece =>
                  do _ <- save fill bytes;
                  chunks_loop location size start stop (index + 1) fuel (out ++ piece)
              end
          | None =>
              do bytes <- backing (fun n => b_get_range inner n location lo hi);
              chunks_loop location size start stop (index + 1) fuel (out ++ bytes)
          end
      end
  end.

Definition read_range_chunked (location : Path) (size start stop : Z) : Task (list Z) :=
  if start =? stop then ret []
  else
    let first := start / chunk_size config in
    let last := (stop - 1) / chunk_size config in
    chunks_loop location size start stop first (Z.to_nat (last - first + 1)) [].

(** ** Requests *)

Definition conditional (options : GetOptions GetRange) : bool :=
  bool_decide (is_Some (o_version options)) || bool_decide (is_Some (if_match options))
  || bool_decide (is_Some (if_none_match options)) || bool_decide (is_Some (if_modified_since options))
  || bool_decide (is_Some (if_unmodified_since options)).

Definition requested (options : GetOptions GetRange) (size : Z) : option (Z * Z) :=
  match o_range options with None => Some (0, size) | Some r => as_range r size end.

Definition whole_options : GetOptions GetRange := mkOptions None None None None None None false.

(** The pieces of a cached file, up to where its descriptor fails. *)
Definition cached_pieces (stops : option nat) (r : CachedRead) (start stop : Z) : list (option (list Z)) :=
  let pieces := stream (S (Z.to_nat ((stop - start) / (1024 * 1024) + 1))) r start stop in
  match stops with
  | None => pieces
  | Some n => if (n <? length pieces)%nat then List.firstn n pieces ++ [None] else pieces
  end.

Definition get_cached (location : Path) (options : GetOptions GetRange) (r : CachedRead) : Task GetResult :=
  do n <- clock;
  match requested options (cr_bytes r) with
  | None => do _ <- end_read r; fail BadRange
  | Some (start, stop) =>
      ret (mkGet (mkMeta location (w_now w n) (cr_bytes r) None None)
                 (cached_pieces (w_read_stops w n) r start stop) (start, stop) [] (Some (cr_lease r)))
  end.

(** A small object: fetched whole, kept, and cut. *)
Definition get_small (location : Path) (options : GetOptions GetRange) (size : Z) : Task GetResult :=
  do fill <- cache_reserve (whole_name location) size;
  match fill with
  | None => backing (fun n => b_get_opts inner n location options)
  | Some fill =>
      do result <- or_drop fill (backing (fun n => b_get_opts inner n location whole_options));
      do bytes <- or_drop fill (match collect result with Some bytes => ret bytes | None => fail (Backing "stream") end);
      if negb (len bytes =? size) then
        do _ <- drop fill;
        backing (fun n => b_get_opts inner n location options)
      else
        match requested options size with
        | None => or_drop fill (fail BadRange)
        | Some (start, stop) =>
            match slice bytes start stop with
            | None => or_drop fill (fail Panicked)
            | Some piece =>
                do _ <- save fill bytes;
                ret (mkGet (gr_meta result) [Some piece] (start, stop) (gr_attributes result) None)
            end
        end
  end.

Definition get_large (location : Path) (options : GetOptions GetRange) (size : Z) : Task GetResult :=
  match o_range options with
  | None => backing (fun n => b_get_opts inner n location options)
  | Some requested =>
      match as_range requested size with
      | None => fail BadRange
      | Some (start, stop) =>
          do bytes <- read_range_chunked location size start stop;
          do n <- clock;
          ret (mkGet (mkMeta location (w_now w n) size None None) [Some bytes] (start, stop) [] None)
      end
  end.

Definition has_disk : Task bool := fun s => (Ok (bool_decide (is_Some (sh_disk s))), s).

Definition get_opts (location : Path) (options : GetOptions GetRange) : Task GetResult :=
  do enabled <- has_disk;
  if negb enabled || conditional options then backing (fun n => b_get_opts inner n location options)
  else
    do read <- cache_read (whole_name location);
    match read with
    | Some r => get_cached location options r
    | None =>
        if o_head options then
          do result <- backing (fun n => b_get_opts inner n location options);
          do _ <- memoize_size location (m_size (gr_meta result));
          ret result
        else
          do size <- object_size location;
          if size <=? large_object_threshold config then get_small location options size
          else get_large location options size
    end.

(** The stream of a cached file is dropped. *)
Definition finish (r : GetResult) : Task unit :=
  match gr_lease r with
  | Some path => disk_call tt (fun _ c => (tt, drop_lease path c))
  | None => ret tt
  end.

Definition put_opts (location : Path) (payload : list Z) : Task string :=
  do result <- backing (fun n => b_put_opts inner n location payload);
  if write_through config then
    do fill <- cache_reserve (whole_name location) (len payload);
    match fill with
    | Some fill => do _ <- save fill payload; ret result
    | None => ret result
    end
  else ret result.

End store.

(** [with_config]: a directory that cannot be opened disables the disk cache. *)
Definition with_config (is_uuid : string -> bool) (io : Io) (config : CacheConfig) (locked : bool)
    (items : list (string * option (list Z))) : Shared :=
  mkShared (match open is_uuid io config locked items with Ok d => Some d | Err _ => None end)
    (if cf_size_entries config =? 0 then None else Some (cf_size_entries config, [])) 0.

Definition shared_stats (s : Shared) : CacheStats :=
  let st := match sh_disk s with Some d => stats d | None => mkStats 0 0 0 0 0 end in
  mkStats (resident_bytes st) (reserved_bytes st) (st_entries st) (inflight_entries st)
    (match sh_sizes s with Some (_, l) => len l | None => 0 end).

End ObjectCache.
