(* ===== verification/ObjectCacheSpec.v ===== *)
(** * Reads through the cache are reads of the backing store

    What tells a whole object from a chunk of one, one object from another, and a
    published file from a staging file ([ObjectCacheNames]); the invariant of a
    process's caches ([ObjectCacheSpec]); and a small program logic for the calls
    of [ObjectCache], each of which keeps it while other tasks and failing
    filesystem calls interfere ([ObjectCacheTheorems]). *)

From S2P Require Import Prelude DiskCache DiskCacheSpec ObjectCache.
Import DiskCache DiskCacheSpec DiskCacheOpen ObjectCache.

Module ObjectCacheNames.

Abbreviation chars := String.list_ascii_of_string.

Definition dot : Ascii.ascii := Ascii.Ascii false true true true false true false false.
Definition no_dot (s : string) : Prop := dot ∉ chars s.

Ltac dotless := intros D; unfold dot in D; simpl in D; repeat (apply elem_of_cons in D as [D|D]; [discriminate D|]); by apply elem_of_nil in D.

Lemma no_dot_app a b : no_dot (a +:+ b) <-> no_dot a /\ no_dot b.
Proof. unfold no_dot. rewrite list_ascii_app, elem_of_app. tauto. Qed.

(** Two names cut at their first dot. *)
Lemma cut_at_dot a a' b b' : no_dot a -> no_dot a' -> (a +:+ "." +:+ b = a' +:+ "." +:+ b')%string -> a = a' /\ b = b'.
Proof.
  revert a'. induction a as [|c a IH]; intros [|c' a'] N N' E; simpl in *.
  - injection E as E. by split.
  - injection E as <- _. destruct N'. left.
  - injection E as -> _. destruct N. left.
  - injection E as <- E. destruct (IH a') as [<- <-]; try done; intros H; [apply N|apply N']; by right.
Qed.

(** A dot-free prefix moves past a staging suffix. *)
Lemma plain_after_dot a b : no_dot a -> plain ("." +:+ b) -> plain (a +:+ "." +:+ b).
Proof.
  intros N P. induction a as [|c a IH]; [done|]. intros [|x y] z E; simpl in E.
  - injection E as -> _. destruct N. left.
  - injection E as <- E. apply (IH ltac:(intros H; apply N; by right) y z). done.
Qed.

Lemma plain_no_dot a : no_dot a -> plain a.
Proof. intros N x y ->. apply no_dot_app in N as [_ N]. destruct N. left. Qed.

(** Decimal digits. *)
Definition numeral (s : string) : Prop := Forall (fun c => exists x, c = pretty_N_char x) (chars s).

Lemma pretty_go_numeral x : forall s, numeral s -> numeral (pretty_N_go x s).
Proof.
  induction (N.lt_wf_0 x) as [x _ IH]; intros s H. assert (x = 0 \/ 0 < x)%N as [->|L] by lia; [done|].
  rewrite pretty_N_go_step by done. apply IH; [by apply N.div_lt|]. constructor; [by eexists|done].
Qed.

Lemma pretty_numeral (z : Z) : 0 <= z -> numeral (pretty z).
Proof.
  assert (N : forall x : N, numeral (pretty x)).
  { intros x. unfold pretty, pretty_N. case_decide; [apply Forall_singleton; by exists 0%N|]. apply pretty_go_numeral, Forall_nil_2. }
  destruct z; [intros _; apply (N 0%N)|intros _; apply (N (N.pos p))|done].
Qed.

Lemma numeral_no_dot s : numeral s -> no_dot s.
Proof.
  unfold numeral. rewrite Forall_forall. intros H D. destruct (H _ D) as [x E].
  by destruct x as [|[[[|[]|]|[|[]|]|]|[[|[]|]|[|[]|]|]|]].
Qed.

Lemma numeral_not_tmp s b y : numeral s -> (s +:+ "." +:+ b <> "tmp-" +:+ y)%string.
Proof.
  intros N E. destruct s as [|c s]; simpl in E; [done|]. injection E as E _. apply Forall_cons in N as [[x Hx] _].
  subst c. by destruct x as [|[[[|[]|]|[|[]|]|]|[[|[]|]|[|[]|]|]|]].
Qed.

Lemma plain_dot b : (forall y, b <> "tmp-" +:+ y)%string -> plain b -> plain ("." +:+ b).
Proof. intros H P [|c x] y E; simpl in E; injection E as E; [by apply (H y)|by apply (P x y)]. Qed.

Lemma hash_no_dot s : hash s = true -> no_dot s.
Proof.
  unfold hash. intros [_ H]%andb_true_iff D. rewrite List.forallb_forall in H. apply list_elem_of_In in D. by apply H in D.
Qed.

Section names.
Context (blake3_hex : Path -> string) (Hx : forall l, hash (blake3_hex l) = true).

Lemma key_no_dot l : no_dot (key blake3_hex l).
Proof. apply hash_no_dot, Hx. Qed.

Lemma whole_name_inj l l' : whole_name blake3_hex l = whole_name blake3_hex l' -> key blake3_hex l = key blake3_hex l'.
Proof. intros E. by apply (cut_at_dot _ _ "file" "file" (key_no_dot l) (key_no_dot l')) in E as [? _]. Qed.

Lemma whole_not_chunk l l' chunk i : 0 <= chunk -> whole_name blake3_hex l <> chunk_name blake3_hex l' chunk i.
Proof.
  intros C E. apply (cut_at_dot _ _ "file" _ (key_no_dot l) (key_no_dot l')) in E as [_ E].
  assert (N : no_dot "file") by dotless.
  rewrite E in N. apply no_dot_app in N as [_ N]. destruct N. left.
Qed.

Lemma chunk_name_inj l l' chunk chunk' i i' : 0 <= chunk -> 0 <= chunk' ->
  chunk_name blake3_hex l chunk i = chunk_name blake3_hex l' chunk' i' ->
  key blake3_hex l = key blake3_hex l' /\ chunk = chunk' /\ i = i'.
Proof.
  intros C C' E. apply (cut_at_dot _ _ _ _ (key_no_dot l) (key_no_dot l')) in E as [K E].
  apply (cut_at_dot _ _ ("chunk-" +:+ pretty i) ("chunk-" +:+ pretty i') (numeral_no_dot _ (pretty_numeral _ C)) (numeral_no_dot _ (pretty_numeral _ C'))) in E as [P E].
  apply (inj (@pretty Z _)) in P. simpl in E. injection E as E. change (pretty i = pretty i') in E. apply (inj (@pretty Z _)) in E. by split_and!.
Qed.

Lemma whole_name_plain l : plain (whole_name blake3_hex l).
Proof.
  apply (plain_after_dot _ "file"); [apply key_no_dot|]. apply plain_dot; [done|]. apply plain_no_dot.
  dotless.
Qed.

Lemma chunk_name_plain l chunk i : 0 <= chunk -> 0 <= i -> plain (chunk_name blake3_hex l chunk i).
Proof.
  intros C P. pose proof (pretty_numeral _ C) as N. pose proof (pretty_numeral _ P) as N'.
  apply (plain_after_dot _ (pretty chunk +:+ ".chunk-" +:+ pretty i)); [apply key_no_dot|].
  apply plain_dot; [intros y; by apply (numeral_not_tmp _ ("chunk-" +:+ pretty i))|].
  apply (plain_after_dot _ ("chunk-" +:+ pretty i)); [by apply numeral_no_dot|]. apply plain_dot; [done|].
  apply plain_no_dot, no_dot_app. split; [|by apply numeral_no_dot].
  dotless.
Qed.

End names.
End ObjectCacheNames.

(** * What the caching object store keeps true

    Every published file holds what its name says of an immutable object, and
    every memoized size is an object's; each step of a call keeps that, and what
    it reads is right. *)

Import DiskCache DiskCacheSpec DiskCacheSteps DiskCacheOpen ObjectCache.

Module ObjectCacheSpec.

(** ** Pieces of an object *)

Definition sub (obj : list Z) (a b : Z) : list Z := List.firstn (Z.to_nat (b - a)) (List.skipn (Z.to_nat a) obj).

Lemma slice_Some obj a b bytes : slice obj a b = Some bytes <-> 0 <= a <= b /\ b <= len obj /\ bytes = sub obj a b.
Proof.
  unfold slice. destruct (_ && _) eqn:E.
  - boolp. split; [intros [= <-]; split_and!; done || lia|by intros (_ & _ & ->)].
  - split; [done|]. intros (H1 & H2 & ->). exfalso. apply not_true_iff_false in E. apply E. rewrite !andb_true_iff, !Z.leb_le. lia.
Qed.

Lemma sub_app obj a b c : 0 <= a <= b -> b <= c -> sub obj a b ++ sub obj b c = sub obj a c.
Proof.
  intros H1 H2. unfold sub. replace (Z.to_nat b) with (Z.to_nat (b - a) + Z.to_nat a)%nat by lia.
  replace (Z.to_nat (c - a)) with (Z.to_nat (b - a) + Z.to_nat (c - b))%nat by lia.
  rewrite <-skipn_skipn. generalize (List.skipn (Z.to_nat a) obj) as l, (Z.to_nat (b - a)) as n, (Z.to_nat (c - b)) as m. clear.
  intros l n m. revert l. induction n as [|n IH]; intros l; [done|]. destruct l; simpl; [by rewrite firstn_nil|]. by rewrite IH.
Qed.

Lemma sub_sub obj s e a b : 0 <= s -> s <= a <= b -> b <= e -> sub (sub obj s e) (a - s) (b - s) = sub obj a b.
Proof.
  intros H0 H1 H2. unfold sub. replace (b - s - (a - s)) with (b - a) by lia.
  replace (Z.to_nat a) with (Z.to_nat (a - s) + Z.to_nat s)%nat by lia. rewrite <-skipn_skipn.
  rewrite skipn_firstn_comm, firstn_firstn. f_equal. lia.
Qed.

Lemma sub_nil obj a : sub obj a a = [].
Proof. unfold sub. by rewrite Z.sub_diag. Qed.

Lemma sub_len obj a b : 0 <= a <= b -> b <= len obj -> len (sub obj a b) = b - a.
Proof. intros. unfold sub, len in *. rewrite List.length_firstn, List.length_skipn. lia. Qed.

Lemma sub_all obj : sub obj 0 (len obj) = obj.
Proof. unfold sub, len. rewrite Z.sub_0_r, Nat2Z.id. simpl. apply firstn_all. Qed.

Section truth.
Context {GetRange : Type} (as_range : GetRange -> Z -> option (Z * Z)).
Context (blake3_hex : Path -> string).
(** The objects ever stored: their contents never change. *)
Context (object : Path -> option (list Z)).

Notation key := (key blake3_hex).
Notation whole_name := (whole_name blake3_hex).
Notation chunk_name := (chunk_name blake3_hex).
Notation requested := (requested as_range).

(** ** The backing store, the hash, ranges: what they document *)

Record immutable (inner : Backend GetRange) : Prop := {
  im_get : forall n l o r, b_get_opts inner n l o = Ok r -> exists obj, object l = Some obj /\ m_size (gr_meta r) = len obj /\
    (conditional o = false -> o_head o = false -> exists a b, requested o (len obj) = Some (a, b) /\ gr_range r = (a, b) /\
      forall bytes, collect r = Some bytes -> bytes = sub obj a b);
  im_head : forall n l m, b_head inner n l = Ok m -> exists obj, object l = Some obj /\ m_size m = len obj;
  im_range : forall n l a b bytes, b_get_range inner n l a b = Ok bytes -> exists obj, object l = Some obj /\
    (0 <= a < b -> b <= len obj -> bytes = sub obj a b);
  im_put : forall n l payload r, b_put_opts inner n l payload = Ok r -> object l = Some payload;
}.

Definition sized : Prop := forall l obj, object l = Some obj -> len obj < 2 ^ 64.
Definition hex_keys : Prop := forall l, hash (blake3_hex l) = true.
Definition ranges_ok : Prop := forall r n a b, 0 <= n -> as_range r n = Some (a, b) -> 0 <= a <= b /\ b <= n.
(** No object is stored under another location with the hash of this one. *)
Definition uncontested (l : Path) : Prop := forall l', is_Some (object l') -> key l' = key l -> l' = l.

(** ** The invariant *)

Definition whole_right (name : string) (d : list Z) : Prop :=
  forall l, name = whole_name l -> exists l', key l' = key l /\ object l' = Some d.
Definition chunk_right (name : string) (d : list Z) : Prop :=
  forall l chunk i, 0 < chunk -> 0 <= i -> name = chunk_name l chunk i -> exists l' obj, key l' = key l /\ object l' = Some obj /\
    d = sub obj (i * chunk) (Z.min (i * chunk + chunk) (len obj)).
Definition right (name : string) (d : list Z) : Prop := whole_right name d /\ chunk_right name d.

Definition truthful (c : DiskCache) : Prop :=
  forall name e, peek name (entries (state c)) = Some e -> plain name /\
    forall d, files c !! name = Some d -> len d = e_bytes e -> right name d.

Definition sizes_right (l : list (string * Z)) : Prop :=
  forall k size, peek k l = Some size -> exists l' obj, key l' = k /\ object l' = Some obj /\ len obj = size.

Definition Inv (s : Shared) : Prop :=
  (forall d, sh_disk s = Some d -> truthful d) /\ (forall cap l, sh_sizes s = Some (cap, l) -> sizes_right l).

(** The staging files of this process's calls. *)
Definition mine (w : World) (tmp : string) : Prop := exists n name, tmp = tmp_name name (w_uuid w n).

(** Other tasks keep the invariant and leave these files alone. *)
Record polite (w : World) : Prop := {
  po_disk : forall n c, truthful c -> truthful (w_others w n c);
  po_tmp : forall n c tmp, mine w tmp -> files (w_others w n c) !! tmp = files c !! tmp;
  po_sizes : forall n l, sizes_right l -> sizes_right (w_sizes w n l);
}.

(** ** Steps of the disk cache keep it *)

(** Entries that were there, with the files they had or none. *)
Lemma truthful_sub c c' :
  (forall p e, peek p (entries (state c')) = Some e ->
    (exists e0, peek p (entries (state c)) = Some e0 /\ e_bytes e0 = e_bytes e) /\
    (plain p -> files c' !! p = files c !! p \/ files c' !! p = None)) ->
  truthful c -> truthful c'.
Proof.
  intros H T p e Hp. destruct (H p e Hp) as [(e0 & H0 & Eb) F]. destruct (T p e0 H0) as [Pl R]. split; [done|].
  intros d Hd Ld. destruct (F Pl) as [E|E]; rewrite E in Hd; [|done]. apply R; [done|]. congruence.
Qed.

Lemma read_truthful io name c r c' : truthful c -> read io name c = (r, c') ->
  truthful c' /\ (forall x, r = Some x -> plain name /\ right name (cr_data x) /\ len (cr_data x) = cr_bytes x /\ cr_lease x = name).
Proof.
  intros T E. unfold read in E. destruct (peek name (entries (state c))) as [e|] eqn:He; [|by injection E as <- <-].
  assert (Put : forall e' q x, e_bytes e' = e_bytes e -> peek q (put name e' (put name e (entries (state c)))) = Some x ->
    exists e0, peek q (entries (state c)) = Some e0 /\ e_bytes e0 = e_bytes x).
  { intros e' q x Eb. simpl. destruct (String.eqb_spec name q) as [<-|Ne]; [intros [= <-]; by exists e|].
    rewrite String.eqb_refl. simpl. rewrite !peek_pop, (proj2 (String.eqb_neq q name)) by done. intros H. by exists x. }
  assert (Keep : forall q x, peek q (put name e (entries (state c))) = Some x ->
    exists e0, peek q (entries (state c)) = Some e0 /\ e_bytes e0 = e_bytes x).
  { intros q x. simpl. destruct (String.eqb_spec name q) as [<-|Ne]; [intros [= <-]; by exists e|].
    rewrite !peek_pop, (proj2 (String.eqb_neq q name)) by done. intros H. by exists x. }
  destruct (if open_fails io name then None else _) as [data|] eqn:Op.
  - injection E as <- <-. split.
    + apply (truthful_sub c); [|done]. intros p x Hp. split; [|by left]. by eapply Put; [|exact Hp].
    + intros x [= <-]. simpl. destruct (T name e He) as [Pl R]. destruct (open_fails io name); [done|].
      destruct (files c !! name) as [d|]; [|done]. simpl in Op. destruct (len d =? e_bytes e) eqn:L; [|done]. injection Op as <-.
      apply Z.eqb_eq in L. by split_and!; [|apply R| |].
  - destruct (remove_file io name (files c)) as [o f] eqn:Rm.
    assert (Ff : forall p, f !! p = files c !! p \/ f !! p = None).
    { intros p. apply remove_file_spec in Rm. destruct o; subst f; try (by left);
        (destruct (decide (p = name)) as [->|]; [right; apply lookup_delete_eq|left; by rewrite lookup_delete_ne]). }
    destruct (match o with Removed => true | _ => _ end); injection E as <- <-; (split; [|done]);
      (apply (truthful_sub c); [|done]); cbn [state with_state entries files]; intros p x Hp; (split; [|by auto]).
    + rewrite String.eqb_refl in Hp. simpl in Hp. rewrite !peek_pop in Hp. destruct (String.eqb p name); [done|]. by exists x.
    + by apply Keep.
Qed.

Lemma drop_lease_truthful p c : truthful c -> truthful (drop_lease p c).
Proof.
  intros T. unfold drop_lease. destruct (peek p (entries (state c))) as [e|] eqn:He; [|done].
  apply (truthful_sub c); [|done]. simpl. intros q x. rewrite peek_replace. intros H. split; [|by left].
  destruct (String.eqb_spec p q) as [<-|Ne]; [|by exists x]. rewrite He in H. simpl in H. injection H as <-. by exists e.
Qed.

Lemma make_room_truthful io c bytes entry b s f :
  truthful c -> make_room io c bytes entry (state c) (files c) = (b, s, f) -> truthful (with_state c s f).
Proof.
  intros T Mr. apply (truthful_sub c); [|done]. simpl. intros p e H. destruct (make_room_sub _ _ _ _ _ _ _ _ _ Mr p e H) as [A B].
  split; [by exists e|]. by left.
Qed.

Lemma reserve_truthful io name bytes uuid c r c' : truthful c -> reserve io name bytes uuid c = (r, c') ->
  truthful c' /\ (forall x, r = Some x -> x = mkFill name (tmp_name name uuid) bytes /\ files c' !! fl_tmp x = Some []).
Proof.
  intros T R. unfold reserve in R. destruct (_ || _); [by injection R as <- <-|].
  destruct (make_room io c bytes true (state c) (files c)) as [[b s] f] eqn:Mr. pose proof (make_room_truthful _ _ _ _ _ _ _ T Mr) as T1.
  destruct b; [|by injection R as <- <-]. destruct (_ || _); [by injection R as <- <-|]. injection R as <- <-. split.
  - apply (truthful_sub (with_state c s f)); [|done]. simpl. intros p e H. split; [by exists e|]. intros Pl. left.
    rewrite lookup_insert_ne; [done|]. intros <-. by apply (tmp_not_plain _ _ Pl).
  - intros x [= <-]. split; [done|]. simpl. apply lookup_insert_eq.
Qed.

Lemma files_truthful c s f tmp : ~ plain tmp -> entries s = entries (state c) -> (forall p, p <> tmp -> f !! p = files c !! p) ->
  truthful c -> truthful (with_state c s f).
Proof.
  intros Np E F. apply truthful_sub. simpl. rewrite E. intros p e H. split; [by exists e|]. intros Pl. left. apply F. by intros ->.
Qed.

Lemma drop_fill_truthful io fill c : ~ plain (fl_tmp fill) -> truthful c -> truthful (drop_fill io fill c).
Proof.
  intros Np T. unfold drop_fill. destruct (remove_file io (fl_tmp fill) (files c)) as [o f] eqn:Rm. apply remove_file_spec in Rm.
  destruct o; subst f; apply (files_truthful _ _ _ (fl_tmp fill)); try done; intros p Ne; by rewrite lookup_delete_ne.
Qed.

Lemma write_at_truthful io fill payload offset c b c' : ~ plain (fl_tmp fill) -> truthful c ->
  write_at io fill payload offset c = (b, c') -> truthful c' /\
  (forall d, files c !! fl_tmp fill = Some d -> b = true -> files c' !! fl_tmp fill = Some (write_bytes d (Z.to_nat offset) payload)).
Proof.
  intros Np T E. unfold write_at in E. destruct (_ || _); [by injection E as <- <-|].
  destruct (files c !! fl_tmp fill) as [d|]; [|by injection E as <- <-]. injection E as <- <-. split.
  - apply (files_truthful _ _ _ (fl_tmp fill)); try done. intros p Ne. by rewrite lookup_insert_ne.
  - simpl. intros d' [= <-] W. apply bool_decide_eq_true in W. rewrite W. apply lookup_insert_eq.
Qed.

Lemma publish_truthful io fill c b c' : ~ plain (fl_tmp fill) -> plain (fl_path fill) -> truthful c ->
  (forall d, files c !! fl_tmp fill = Some d -> len d = fl_bytes fill -> right (fl_path fill) d) ->
  publish io fill c = (b, c') -> truthful c'.
Proof.
  intros Np Pl T R E. unfold publish in E.
  destruct (files c !! fl_tmp fill) as [d|] eqn:F; [|injection E as _ <-; by apply drop_fill_truthful].
  destruct (_ || rename_fails _ _) eqn:X; [injection E as _ <-; by apply drop_fill_truthful|]. injection E as _ <-.
  apply orb_false_iff in X as [[_ X]%orb_false_iff _]. apply negb_false_iff, Z.eqb_eq in X.
  intros p e. simpl. destruct (String.eqb_spec (fl_path fill) p) as [<-|Ne].
  - intros [= <-]. split; [done|]. intros d'. rewrite lookup_insert_eq. intros [= <-] _. by apply R.
  - rewrite peek_pop, (proj2 (String.eqb_neq p _)) by done. intros H. destruct (T p e H) as [Pp Rp]. split; [done|].
    intros d'. rewrite lookup_insert_ne by done. intros [_ H']%lookup_delete_Some. by apply Rp.
Qed.

End truth.
End ObjectCacheSpec.

(** * Reads through the cache are reads of the backing store

    A small program logic for the calls of [ObjectCache]: each keeps the
    invariant of [ObjectCacheSpec] while other tasks and failing filesystem
    calls interfere. *)

Import DiskCache DiskCacheSpec DiskCacheSteps DiskCacheOpen ObjectCache ObjectCacheNames ObjectCacheSpec.

Module ObjectCacheTheorems.

(** ** Triples *)

Definition triple {A} (P : Shared -> Prop) (m : Task A) (Q : result A Error -> Shared -> Prop) : Prop :=
  forall s r s', P s -> m s = (r, s') -> Q r s'.

(** A postcondition from one of values and one of errors. *)
Definition post {A} (V : A -> Shared -> Prop) (X : Error -> Shared -> Prop) (r : result A Error) (s : Shared) : Prop :=
  match r with Ok a => V a s | Err e => X e s end.

Lemma triple_bind {A B} (P : Shared -> Prop) (m : Task A) (k : A -> Task B) R V X :
  triple P m (post R X) -> (forall a, triple (R a) (k a) (post V X)) -> triple P (bind m k) (post V X).
Proof.
  intros Hm Hk s r s' Hs E. unfold bind in E. destruct (m s) as [[a|e] s1] eqn:M.
  - apply (Hk a s1); [|done]. by apply (Hm s (Ok a)).
  - injection E as <- <-. by apply (Hm s (Err e)).
Qed.

Lemma triple_ret {A} (P : Shared -> Prop) (a : A) V X : (forall s, P s -> V a s) -> triple P (ret a) (post V X).
Proof. intros H s r s' Hs [= <- <-]. by apply H. Qed.

Lemma triple_fail {A} (P : Shared -> Prop) e (V : A -> _) X : (forall s, P s -> X e s) -> triple P (fail e) (post V X).
Proof. intros H s r s' Hs [= <- <-]. by apply H. Qed.

Lemma triple_weaken {A} (P P' : Shared -> Prop) (m : Task A) (V V' : A -> _) (X X' : Error -> _) :
  triple P' m (post V' X') -> (forall s, P s -> P' s) -> (forall a s, V' a s -> V a s) -> (forall e s, X' e s -> X e s) ->
  triple P m (post V X).
Proof. intros T H1 H2 H3 s r s' Hs E. specialize (T s r s' (H1 s Hs) E). destruct r; [by apply H2|by apply H3]. Qed.

Lemma triple_pre {A} (P P' : Shared -> Prop) (m : Task A) Q : triple P' m Q -> (forall s, P s -> P' s) -> triple P m Q.
Proof. intros T H s r s' Hs. by apply T, H. Qed.

Lemma triple_pure {A} (F : Prop) (P : Shared -> Prop) (m : Task A) Q : (F -> triple P m Q) -> triple (fun s => F /\ P s) m Q.
Proof. intros H s r s' [HF HP] E. by apply (H HF s). Qed.

Section store.
Context {GetRange : Type} (as_range : GetRange -> Z -> option (Z * Z)).
Context (blake3_hex : Path -> string) (object : Path -> option (list Z)).
Context (inner : Backend GetRange) (config : CacheConfig) (w : World).
Context (Im : immutable as_range object inner) (Sz : sized object) (Hx : hex_keys blake3_hex) (Rg : ranges_ok as_range).
Context (Po : polite blake3_hex object w) (Ck : 0 < chunk_size config).

Notation Inv := (Inv blake3_hex object).
Notation truthful := (truthful blake3_hex object).
Notation right := (right blake3_hex object).
Notation key := (key blake3_hex).
Notation whole_name := (whole_name blake3_hex).
Notation chunk_name := (chunk_name blake3_hex).
Notation requested := (requested as_range).

(** What the backing store refused. *)
Definition refused (x : string) : Prop := exists n,
  (exists l o, b_get_opts inner n l o = Err x) \/ (exists l, b_head inner n l = Err x) \/
  (exists l a b, b_get_range inner n l a b = Err x) \/ (exists l p, b_put_opts inner n l p = Err x) \/
  (exists l o r, b_get_opts inner n l o = Ok r /\ collect r = None).

Definition legit (F : Prop) (e : Error) (s : Shared) : Prop :=
  Inv s /\ match e with Backing x => refused x | BadRange => F | Panicked => False end.

(** ** Steps *)

Lemma disk_call_triple {A} (P : DiskCache -> Prop) (Q : A -> DiskCache -> Prop) none f X :
  (forall n c, truthful c -> P c -> P (w_others w n c)) ->
  (forall n c a c', truthful c -> P c -> f (w_io w n) c = (a, c') -> truthful c' /\ Q a c') ->
  triple (fun s => Inv s /\ forall c, sh_disk s = Some c -> P c) (disk_call w none f)
    (post (fun a s => Inv s /\ (forall c, sh_disk s = Some c -> Q a c) /\ (sh_disk s = None -> a = none)) X).
Proof.
  intros Po' Hf s r s' [[I1 I2] Ps] E. unfold disk_call in E. destruct (sh_disk s) as [d|] eqn:D.
  - destruct (f (w_io w (sh_clock s)) (w_others w (sh_clock s) d)) as [a d'] eqn:F. injection E as <- <-. simpl.
    destruct (Hf _ _ _ _ (po_disk _ _ _ Po _ _ (I1 d eq_refl)) (Po' _ _ (I1 d eq_refl) (Ps d eq_refl)) F) as [T Q'].
    split_and!; [|by intros c [= <-]|done]. split; [by intros c [= <-]|done].
  - injection E as <- <-. simpl. split_and!; [|done|done]. by split.
Qed.

Lemma backing_triple {A} (P : Shared -> Prop) (f : nat -> result A string) (V : A -> Prop) F :
  (forall s, P s -> Inv s) -> (forall s k, P s -> P (mkShared (sh_disk s) (sh_sizes s) k)) ->
  (forall n a, f n = Ok a -> V a) -> (forall n x, f n = Err x -> refused x) ->
  triple P (backing f) (post (fun a s => P s /\ V a) (fun e s => P s /\ legit F e s)).
Proof.
  intros Pi Pk Hv Hr s r s' Hs E. unfold backing in E. injection E as <- <-. specialize (Pk s (S (sh_clock s)) Hs).
  destruct (f (sh_clock s)) as [a|x] eqn:Ef; simpl; (split; [done|]); [by eapply Hv|]. split; [by apply Pi|by eapply Hr].
Qed.

Lemma clock_triple (P : Shared -> Prop) X : triple P clock (post (fun _ s => P s) X).
Proof. by intros s r s' Hs [= <- <-]. Qed.

Lemma cache_read_triple name X :
  triple Inv (cache_read w name) (post (fun o s => Inv s /\ forall x, o = Some x ->
    plain name /\ right name (cr_data x) /\ len (cr_data x) = cr_bytes x /\ cr_lease x = name) X).
Proof.
  eapply triple_weaken; [apply (disk_call_triple (fun _ => True) (fun o _ => forall x, o = Some x ->
    plain name /\ right name (cr_data x) /\ len (cr_data x) = cr_bytes x /\ cr_lease x = name) None _ X)|..]; try done.
  - intros n c a c' T _ E. by destruct (read_truthful _ _ _ _ _ _ _ T E).
  - intros o s (I & H & N). split; [done|]. destruct (sh_disk s) as [c|]; [by apply (H c)|]. by rewrite N.
Qed.

(** A staging file of this call, and what it holds. *)
Definition staged (fill : Fill) (d : list Z) (s : Shared) : Prop :=
  Inv s /\ (mine w (fl_tmp fill) /\ plain (fl_path fill)) /\ forall c, sh_disk s = Some c -> files c !! fl_tmp fill = Some d.

Lemma mine_not_plain tmp : mine w tmp -> ~ plain tmp.
Proof. intros (n & name & ->). apply tmp_not_plain. Qed.

Lemma cache_reserve_triple name bytes X : plain name ->
  triple Inv (cache_reserve w name bytes) (post (fun o s => match o with
    | Some fill => staged fill [] s /\ fl_path fill = name /\ fl_bytes fill = bytes
    | None => Inv s end) X).
Proof.
  intros Pl. unfold cache_reserve. eapply triple_bind; [apply clock_triple|]. intros n.
  eapply triple_weaken; [apply (disk_call_triple (fun _ => True) (fun o c => forall x, o = Some x ->
    x = mkFill name (tmp_name name (w_uuid w n)) bytes /\ files c !! fl_tmp x = Some []) None _ X)|..]; try done.
  - intros n' c a c' T _ E. by destruct (reserve_truthful _ _ _ _ _ _ _ _ _ T E).
  - intros [x|] s (I & H & N); [|done]. destruct (sh_disk s) as [c|] eqn:D; [|by discriminate N].
    destruct (H c eq_refl x eq_refl) as [-> F]. split_and!; try done. split; [done|]. split; [split; [by exists n, name|done]|]. intros c'. rewrite D. by intros [= <-].
Qed.

Lemma drop_triple fill X : mine w (fl_tmp fill) -> triple Inv (drop w fill) (post (fun _ s => Inv s) X).
Proof.
  intros Mi. eapply triple_weaken; [apply (disk_call_triple (fun _ => True) (fun _ _ => True) tt _ X)|..]; try done.
  - intros n c a c' T _ [= _ <-]. split; [|done]. by apply drop_fill_truthful; [apply mine_not_plain|].
  - by intros a s (I & _).
Qed.

Lemma or_drop_triple {A} fill (P : Shared -> Prop) (m : Task A) V F : mine w (fl_tmp fill) ->
  triple P m (post V (legit F)) -> triple P (or_drop w fill m) (post V (legit F)).
Proof.
  intros Mi T s r s' Hs E. unfold or_drop in E. destruct (m s) as [[a|e] s1] eqn:M.
  - injection E as <- <-. by apply (T s (Ok a)).
  - injection E as <- <-. destruct (T s (Err e) s1 Hs M) as [I L]. destruct (drop w fill s1) as [r2 s2] eqn:D. simpl. split; [|done].
    pose proof (drop_triple fill (fun _ _ => False) Mi s1 r2 s2 I D) as H. by destruct r2.
Qed.

Lemma end_read_triple r X : triple Inv (end_read w r) (post (fun _ s => Inv s) X).
Proof.
  eapply triple_weaken; [apply (disk_call_triple (fun _ => True) (fun _ _ => True) tt _ X)|..]; try done.
  - intros n c a c' T _ [= _ <-]. split; [|done]. by apply drop_lease_truthful.
  - by intros a s (I & _).
Qed.

Lemma write_all payload : write_bytes [] 0 payload = payload.
Proof. destruct payload as [|x p]; [done|]. unfold write_bytes. simpl. by rewrite app_nil_r. Qed.

(** What is staged and right is published, or nothing is. *)
Lemma save_triple fill payload X : (len payload = fl_bytes fill -> right (fl_path fill) payload) ->
  triple (staged fill []) (save w fill payload) (post (fun _ s => Inv s) X).
Proof.
  intros R. apply (triple_weaken _ (fun s => (mine w (fl_tmp fill) /\ plain (fl_path fill)) /\
    (Inv s /\ forall c, sh_disk s = Some c -> files c !! fl_tmp fill = Some [])) _ (fun _ s => Inv s) (fun _ s => Inv s) X X);
    [|by intros s (I & Mi & H)|done|done].
  apply triple_pure. intros [Mi Pl]. unfold save.
  assert (Keep : forall d n c, truthful c -> files c !! fl_tmp fill = Some d -> files (w_others w n c) !! fl_tmp fill = Some d)
    by (intros d n c _ F; by rewrite (po_tmp _ _ _ Po)).
  eapply triple_bind.
  - apply (disk_call_triple (fun c => files c !! fl_tmp fill = Some [])
      (fun (b : bool) c => b = true -> files c !! fl_tmp fill = Some payload)); [by apply Keep|].
    intros n c b c' T F E. destruct (write_at_truthful _ _ _ _ _ _ _ _ _ (mine_not_plain _ Mi) T E) as [T' H]. split; [done|].
    intros ->. rewrite (H [] F eq_refl). by rewrite write_all.
  - intros [].
    + eapply triple_weaken; [apply (disk_call_triple (fun c => files c !! fl_tmp fill = Some payload) (fun _ _ => True) false _ X)|..]; try done.
      * by apply Keep.
      * intros n c b c' T F E. split; [|done]. eapply publish_truthful; [by apply mine_not_plain|exact Pl|exact T| |exact E].
        intros d. rewrite F. intros [= <-]. apply R.
      * intros s (I & H & N). split; [done|]. intros c D. by apply H.
      * by intros a s (I & _).
    + apply (triple_bind _ _ _ (fun _ s => Inv s)); [|intros _; by apply triple_ret].
      eapply triple_weaken; [by apply (drop_triple fill X)|by intros s (I & _)|done|done].
Qed.

(** ** Sizes *)

Definition size_of (l : Path) (size : Z) : Prop := exists l' obj, key l' = key l /\ object l' = Some obj /\ len obj = size.

Lemma sizes_right_put k l size sz : (exists l' obj, key l' = k /\ object l' = Some obj /\ len obj = size) ->
  (forall q z, peek q l = Some z -> peek q sz = Some z) -> sizes_right blake3_hex object sz ->
  sizes_right blake3_hex object (put k size l).
Proof.
  intros Ok Sub R q z. simpl. destruct (String.eqb_spec k q) as [<-|Ne]; [by intros [= <-]|].
  rewrite peek_pop, (proj2 (String.eqb_neq q k)) by done. intros H. by apply R, Sub.
Qed.

Lemma peek_removelast {A} q (l : list (string * A)) x : peek q (removelast l) = Some x -> peek q l = Some x.
Proof. induction l as [|[p y] [|z l] IH]; [done|done|]. simpl in *. by destruct (String.eqb p q). Qed.

Lemma size_call_triple {A} (Q : A -> Prop) none f X :
  (forall cap l a l', sizes_right blake3_hex object l -> f cap l = (a, l') -> sizes_right blake3_hex object l' /\ Q a) -> Q none ->
  triple Inv (size_call w none f) (post (fun a s => Inv s /\ Q a) X).
Proof.
  intros Hf Hn s r s' [I1 I2] E. unfold size_call in E. destruct (sh_sizes s) as [[cap l]|] eqn:D.
  - destruct (f cap (w_sizes w (sh_clock s) l)) as [a l'] eqn:F. injection E as <- <-. simpl.
    destruct (Hf _ _ _ _ (po_sizes _ _ _ Po _ _ (I2 cap l eq_refl)) F) as [T Q']. split; [|done]. split; [done|]. by intros cap' l0 [= <- <-].
  - injection E as <- <-. simpl. split; [by split|done].
Qed.

Lemma memoize_triple l size X : size_of l size -> triple Inv (memoize_size blake3_hex w l size) (post (fun _ s => Inv s) X).
Proof.
  intros Ok. eapply triple_weaken; [apply (size_call_triple (fun _ => True) tt _ X); [|done]|done|by intros a s [I _]|done].
  intros cap sz a sz' R [= _ <-]. split; [|done]. unfold sizes_put. destruct (_ || _); apply (sizes_right_put _ _ _ sz); try done.
  intros q z. apply peek_removelast.
Qed.

Lemma object_size_triple l F :
  triple Inv (object_size blake3_hex inner w l) (post (fun size s => size_of l size /\ Inv s) (legit F)).
Proof.
  eapply triple_bind.
  - apply (size_call_triple (fun o => forall z, o = Some z -> size_of l z)); [|done].
    intros _ sz a sz' R E. destruct (peek (key l) sz) as [z|] eqn:P; injection E as <- <-; [|done]. split.
    + apply (sizes_right_put _ _ _ sz); [by apply (R (key l))|done|done].
    + intros z' [= <-]. by apply (R (key l)).
  - intros [z|]; [apply triple_ret; intros s [I H]; split; [by apply H|done]|].
    eapply triple_bind; [eapply triple_weaken; [apply (backing_triple Inv _ (fun m => size_of l (m_size m)) F); try done|..]|].
    + intros n m E. destruct (im_head _ _ _ Im _ _ _ E) as (obj & O & M). by exists l, obj.
    + intros n x E. exists n. right; left. by exists l.
    + by intros s [I _].
    + intros m s [I H]. exact (conj H I).
    + by intros e s [_ L].
    + intros m. apply triple_pure. intros Ok. apply (triple_bind _ _ _ (fun _ s => Inv s)); [by apply memoize_triple|].
      intros _. apply triple_ret. by intros s I.
Qed.

Lemma size_known l size obj : uncontested blake3_hex object l -> object l = Some obj -> size_of l size -> size = len obj.
Proof. intros U O (l' & obj' & K & O' & <-). rewrite (U l' ltac:(by rewrite O') K) in O'. congruence. Qed.

Lemma size_exists l size : uncontested blake3_hex object l -> size_of l size -> exists obj, object l = Some obj /\ size = len obj.
Proof. intros U (l' & obj' & K & O' & <-). rewrite (U l' ltac:(by rewrite O') K) in O'. by exists obj'. Qed.

(** ** What names say *)

Lemma whole_right_of l obj : object l = Some obj -> right (whole_name l) obj.
Proof.
  intros O. split.
  - intros l0 E. apply whole_name_inj in E; [|done]. by exists l.
  - intros l0 ck i C _ E. by apply whole_not_chunk in E; [|done|lia].
Qed.

Lemma chunk_right_of l obj ck i : 0 < ck -> object l = Some obj ->
  right (chunk_name l ck i) (sub obj (i * ck) (Z.min (i * ck + ck) (len obj))).
Proof.
  intros C O. split.
  - intros l0 E. symmetry in E. by apply whole_not_chunk in E; [|done|lia].
  - intros l0 ck0 i0 C0 _ E. apply chunk_name_inj in E as (K & <- & <-); [|done|lia|lia]. by exists l, obj.
Qed.

Lemma whole_found l d : uncontested blake3_hex object l -> right (whole_name l) d -> object l = Some d.
Proof. intros U [R _]. destruct (R l eq_refl) as (l' & K & O). by rewrite (U l' ltac:(by rewrite O) K) in O. Qed.

Lemma chunk_found l obj d ck i : uncontested blake3_hex object l -> object l = Some obj -> 0 < ck -> 0 <= i ->
  right (chunk_name l ck i) d -> d = sub obj (i * ck) (Z.min (i * ck + ck) (len obj)).
Proof.
  intros U O C I [_ R]. destruct (R l ck i C I eq_refl) as (l' & obj' & K & O' & ->).
  rewrite (U l' ltac:(by rewrite O') K) in O'. congruence.
Qed.

(** ** Chunks *)

Lemma cached_range_triple r a b X :
  triple Inv (cached_range w r a b) (post (fun o s => Inv s /\ forall bytes, o = Some bytes -> b <= len (cr_data r) /\ bytes = sub (cr_data r) a b) X).
Proof.
  eapply triple_bind; [apply clock_triple|]. intros n. apply (triple_bind _ _ _ (fun _ s => Inv s)); [apply end_read_triple|]. intros _.
  apply triple_ret. intros s I. split; [done|]. intros bytes. destruct (w_read_stops w n); [done|]. unfold read_range.
  destruct (b <=? len (cr_data r)) eqn:E; [|done]. intros [= <-]. split; [lia|done].
Qed.

Section large.
Context (l : Path) (obj : list Z) (U : uncontested blake3_hex object l) (O : object l = Some obj).
Context (start stop : Z) (Hs : 0 <= start < stop) (He : stop <= len obj) (F : Prop).

Let ck := chunk_size config.

(** One chunk: from the cache, through the cache, or past it. *)
Lemma chunk_piece index (k : list Z -> Task (list Z)) V :
  let cs := index * ck in let ce := Z.min (sat_add cs ck) (len obj) in
  let lo := Z.max start cs in let hi := Z.min stop ce in
  0 <= index -> cs < stop -> start < cs + ck ->
  triple Inv (k (sub obj lo hi)) (post V (legit F)) ->
  triple Inv
    (do read <- cache_read w (chunk_name l ck index);
     do hit <- match read with Some r => cached_range w r (lo - cs) (hi - cs) | None => ret None end;
     match hit with
     | Some bytes => k bytes
     | None =>
         do fill <- cache_reserve w (chunk_name l ck index) (ce - cs);
         match fill with
         | Some fill =>
             do bytes <- or_drop w fill (backing (fun n => b_get_range inner n l cs ce));
             match slice bytes (lo - cs) (hi - cs) with
             | None => or_drop w fill (fail Panicked)
             | Some piece => do _ <- save w fill bytes; k piece
             end
         | None => do bytes <- backing (fun n => b_get_range inner n l lo hi); k bytes
         end
     end) (post V (legit F)).
Proof.
  cbv zeta. set (cs := index * ck). set (ce := Z.min (sat_add cs ck) (len obj)). set (lo := Z.max start cs). set (hi := Z.min stop ce).
  intros Hi H1 H2 Tk. pose proof (Sz l obj O) as Bd. assert (Hck : 0 < ck) by exact Ck.
  assert (Ce : ce = Z.min (cs + ck) (len obj)) by (unfold ce, sat_add; lia).
  assert (Lt : 0 <= cs /\ cs < ce /\ cs <= lo < hi /\ hi <= ce /\ ce <= len obj) by (unfold lo, hi, cs in *; rewrite Ce; nia).
  assert (Range : forall n a b bytes, b_get_range inner n l a b = Ok bytes -> 0 <= a < b -> b <= len obj -> bytes = sub obj a b).
  { intros n a b bytes E Hab Hb. destruct (im_range _ _ _ Im _ _ _ _ _ E) as (o & O' & H). rewrite O in O'. injection O' as <-. by apply H. }
  eapply triple_bind; [apply cache_read_triple|]. intros read.
  eapply (triple_bind _ _ _ (fun o s => (forall bytes, o = Some bytes -> bytes = sub obj lo hi) /\ Inv s)).
  { destruct read as [r|]; [|apply triple_ret; by intros s [I _]]. intros s res s' [I H] E. destruct (H r eq_refl) as (_ & R & _ & _).
    apply (chunk_found l obj _ _ _ U O Hck Hi) in R. pose proof (cached_range_triple r (lo - cs) (hi - cs) (legit F) s res s' I E) as T.
    destruct res as [o|e]; [|exact T]. destruct T as [I' T]. split; [|done]. intros bytes Eb. destruct (T bytes Eb) as [_ ->].
    rewrite R. fold cs. rewrite <-Ce. apply sub_sub; lia. }
  intros [bytes|]; apply triple_pure; intros Eb; [by rewrite (Eb bytes eq_refl)|].
  eapply triple_bind; [apply cache_reserve_triple, chunk_name_plain; [done|lia|done]|]. intros [fill|].
  - intros s res s' (St & Fp & Fb). revert s res s' St. change (triple (staged fill []) (bind (or_drop w fill (backing (fun n => b_get_range inner n l cs ce)))
      (fun bytes => match slice bytes (lo - cs) (hi - cs) with None => or_drop w fill (fail Panicked)
         | Some piece => bind (save w fill bytes) (fun _ => k piece) end)) (post V (legit F))).
    assert (Mi : mine w (fl_tmp fill) -> triple (staged fill []) (or_drop w fill (backing (fun n => b_get_range inner n l cs ce)))
      (post (fun bytes s => bytes = sub obj cs ce /\ staged fill [] s) (legit F))).
    { intros Mi. apply or_drop_triple; [done|]. eapply triple_weaken; [apply (backing_triple (staged fill []) _ (fun bytes => bytes = sub obj cs ce) F)|..].
      - by intros s (I & _).
      - by intros s n (I & M & H).
      - intros n bytes E. apply (Range _ _ _ _ E); lia.
      - intros n x E. exists n. right; right; left. by exists l, cs, ce.
      - done.
      - by intros bytes s [S H].
      - by intros e s [_ L]. }
    eapply (triple_bind _ _ _ (fun bytes s => bytes = sub obj cs ce /\ staged fill [] s)).
    + intros s res s' St. by apply (Mi ltac:(apply St) s).
    + intros bytes. apply triple_pure. intros ->. assert (Ss : slice (sub obj cs ce) (lo - cs) (hi - cs) = Some (sub obj lo hi)).
      { apply slice_Some. rewrite sub_len by lia. rewrite sub_sub by lia. split_and!; try done; lia. }
      rewrite Ss. apply (triple_bind _ _ _ (fun _ s => Inv s)); [|by intros _].
      apply save_triple. intros _. rewrite Fp, Ce. by apply chunk_right_of.
  - eapply triple_bind; [eapply triple_weaken; [apply (backing_triple Inv _ (fun bytes => bytes = sub obj lo hi) F); try done|..]|].
    + intros n bytes E. apply (Range _ _ _ _ E); lia.
    + intros n x E. exists n. right; right; left. by exists l, lo, hi.
    + done.
    + intros bytes s [I H]. exact (conj H I).
    + by intros e s [_ L].
    + intros bytes. apply triple_pure. by intros ->.
Qed.

Lemma chunks_triple fuel : forall index out,
  0 <= index -> start / ck <= index -> index + Z.of_nat fuel = (stop - 1) / ck + 1 ->
  out = sub obj start (Z.max start (Z.min stop (index * ck))) ->
  triple Inv (chunks_loop blake3_hex inner config w l (len obj) start stop index fuel out)
    (post (fun bytes s => Inv s /\ bytes = sub obj start stop) (legit F)).
Proof.
  pose proof (Ck : 0 < ck) as Hck. induction fuel as [|fuel IH]; intros index out Hi H1 H2 ->; cbn [chunks_loop].
  - apply triple_ret. intros s I. split; [done|]. f_equal.
    pose proof (Z.mul_succ_div_gt (stop - 1) ck Hck). assert (index = (stop - 1) / ck + 1) as -> by lia. nia.
  - assert (C1 : index * ck < stop).
    { pose proof (Z.mul_div_le (stop - 1) ck Hck). assert (index <= (stop - 1) / ck) by lia. nia. }
    assert (C2 : start < index * ck + ck) by (pose proof (Z.mul_succ_div_gt start ck Hck); nia).
    apply (chunk_piece index (fun bytes => chunks_loop blake3_hex inner config w l (len obj) start stop (index + 1) fuel (_ ++ bytes))); try done.
    pose proof (Sz l obj O) as Bd. apply IH; [lia|lia|lia|].
    replace (Z.min (sat_add (index * ck) ck) (len obj)) with (Z.min (index * ck + ck) (len obj)) by (unfold sat_add; lia).
    replace (Z.max start (Z.min stop (index * ck))) with (Z.max start (index * ck)) by lia.
    rewrite sub_app by nia. f_equal. nia.
Qed.

End large.

(** ** Requests *)

(** What a right answer to a request is. *)
Definition answer (l : Path) (o : GetOptions GetRange) (r : GetResult) : Prop :=
  exists obj, object l = Some obj /\ m_size (gr_meta r) = len obj /\
    (conditional o = false -> o_head o = false -> exists a b, requested o (len obj) = Some (a, b) /\ gr_range r = (a, b) /\
      forall bytes, collect r = Some bytes -> bytes = sub obj a b).
Definition bad_range (l : Path) (o : GetOptions GetRange) : Prop := exists obj, object l = Some obj /\ requested o (len obj) = None.

Lemma stream_whole r b fuel : forall a, 0 <= a <= b -> b <= len (cr_data r) -> b - a <= (Z.of_nat fuel - 1) * (1024 * 1024) ->
  (fun ps => concat ps) <$> mapM id (stream fuel r a b) = Some (sub (cr_data r) a b).
Proof.
  induction fuel as [|fuel IH]; intros a Ha Hb Hf; [lia|]. cbn [stream]. destruct (a =? b) eqn:E.
  - apply Z.eqb_eq in E. subst. simpl. by rewrite sub_nil.
  - apply Z.eqb_neq in E. remember (Z.min (b - a) (1024 * 1024)) as n eqn:Hn. unfold read_range.
    destruct (a + n <=? len (cr_data r)) eqn:L; [|apply Z.leb_gt in L; lia].
    specialize (IH (a + n) ltac:(lia) Hb ltac:(lia)). cbn [mapM]. destruct (mapM id (stream fuel r (a + n) b)) as [ps|]; simpl in IH; [|done].
    injection IH as IH. simpl. f_equal. rewrite IH. apply (sub_app (cr_data r) a (a + n) b); lia.
Qed.

Lemma cached_pieces_sub stops r a b bytes : 0 <= a <= b -> b <= len (cr_data r) ->
  (fun ps => concat ps) <$> mapM id (cached_pieces stops r a b) = Some bytes -> bytes = sub (cr_data r) a b.
Proof.
  intros Ha Hb. unfold cached_pieces.
  assert (W : (fun ps => concat ps) <$> mapM id (stream (S (Z.to_nat ((b - a) / (1024 * 1024) + 1))) r a b) = Some (sub (cr_data r) a b)).
  { apply stream_whole; [done|done|]. pose proof (Z.mul_succ_div_gt (b - a) (1024 * 1024) ltac:(done)).
    assert (0 <= (b - a) / (1024 * 1024)) by (apply Z.div_pos; lia). lia. }
  destruct stops as [n|]; [|rewrite W; congruence]. destruct (n <? _)%nat; [|rewrite W; congruence].
  destruct (mapM id (List.firstn n _ ++ [None])) as [ps|] eqn:M; [|done]. apply mapM_Some in M.
  apply Forall2_app_inv_l in M as (p1 & p2 & _ & M & _). by inversion M.
Qed.

Lemma inner_answer l o :
  (forall n r, b_get_opts inner n l o = Ok r -> answer l o r) /\ (forall n x, b_get_opts inner n l o = Err x -> refused x).
Proof.
  split; intros n r E; [by apply (im_get _ _ _ Im _ _ _ _ E)|]. exists n. left. by exists l, o.
Qed.

Lemma inner_get_triple l o F : triple Inv (backing (fun n => b_get_opts inner n l o)) (post (fun r s => Inv s /\ answer l o r) (legit F)).
Proof.
  destruct (inner_answer l o) as [A R]. eapply triple_weaken; [apply (backing_triple Inv _ (answer l o) F); done|done|done|].
  by intros e s [_ L].
Qed.

Lemma requested_ok o n a b : 0 <= n -> requested o n = Some (a, b) -> 0 <= a <= b /\ b <= n.
Proof. unfold ObjectCache.requested. destruct (o_range o) as [g|]; [apply Rg|]. intros N [= <- <-]. lia. Qed.

Lemma get_cached_triple l o r : object l = Some (cr_data r) -> len (cr_data r) = cr_bytes r ->
  triple Inv (get_cached as_range w l o r) (post (fun a s => Inv s /\ answer l o a) (legit (bad_range l o))).
Proof.
  intros O L. eapply triple_bind; [apply clock_triple|]. intros n. rewrite <-L.
  destruct (requested o (len (cr_data r))) as [[a b]|] eqn:Rq.
  - destruct (requested_ok _ _ _ _ (len_nonneg _) Rq) as [H1 H2]. apply triple_ret. intros s I. split; [done|].
    exists (cr_data r). split_and!; [done|done|]. intros _ _. exists a, b. split_and!; try done. intros bytes. by apply cached_pieces_sub.
  - apply (triple_bind _ _ _ (fun _ s => Inv s)); [apply end_read_triple|]. intros _. apply triple_fail. intros s I. split; [done|]. by exists (cr_data r).
Qed.

Lemma get_large_triple l o obj : uncontested blake3_hex object l -> object l = Some obj ->
  triple Inv (get_large as_range blake3_hex inner config w l o (len obj)) (post (fun a s => Inv s /\ answer l o a) (legit (bad_range l o))).
Proof.
  intros U O. unfold get_large. pose proof (requested_ok o (len obj)) as Rk. destruct (o_range o) as [g|] eqn:Eo; [|apply inner_get_triple].
  assert (Rq : requested o (len obj) = as_range g (len obj)) by (unfold ObjectCache.requested; by rewrite Eo).
  destruct (as_range g (len obj)) as [[a b]|] eqn:E; [|apply triple_fail; intros s I; split; [done|by exists obj]].
  destruct (Rk a b (len_nonneg _) Rq) as [H1 H2].
  eapply (triple_bind _ _ _ (fun bytes s => bytes = sub obj a b /\ Inv s)).
  - unfold read_range_chunked. destruct (a =? b) eqn:Eb.
    + apply Z.eqb_eq in Eb. subst. apply triple_ret. intros s I. by rewrite sub_nil.
    + apply Z.eqb_neq in Eb. eapply triple_weaken; [apply (chunks_triple l obj U O a b ltac:(lia) H2 (bad_range l o))|done| |done].
      * apply Z.div_pos; lia.
      * lia.
      * assert (a / chunk_size config <= (b - 1) / chunk_size config) by (apply Z.div_le_mono; lia). lia.
      * pose proof (Z.mul_div_le a (chunk_size config) Ck). rewrite Z.max_l by nia. by rewrite sub_nil.
      * by intros bytes s [I ->].
  - intros bytes. apply triple_pure. intros ->. eapply triple_bind; [apply clock_triple|]. intros n. apply triple_ret.
    intros s I. split; [done|]. exists obj. split_and!; [done|done|]. intros _ _. exists a, b. split_and!; [done|done|].
    intros bytes. unfold collect. simpl. rewrite app_nil_r. by intros [= <-].
Qed.

(** The fetch of a small object under its fill. *)
Lemma fetch_triple l obj fill (F : Prop) : object l = Some obj ->
  mine w (fl_tmp fill) ->
  triple (staged fill []) (or_drop w fill (backing (fun n => b_get_opts inner n l whole_options)))
    (post (fun r s => (m_size (gr_meta r) = len obj /\ forall bytes, collect r = Some bytes -> bytes = obj) /\
       ((exists n, b_get_opts inner n l whole_options = Ok r) /\ staged fill [] s)) (legit F)).
Proof.
  intros O Mi. apply or_drop_triple; [done|].
  eapply triple_weaken; [apply (backing_triple (staged fill []) _ (fun r => exists n, b_get_opts inner n l whole_options = Ok r) F)|..].
  - by intros s (I & _).
  - by intros s n (I & M & H).
  - intros n r E. by exists n.
  - intros n x E. exists n. left. by exists l, whole_options.
  - done.
  - intros r s [S [n E]]. destruct (im_get _ _ _ Im _ _ _ _ E) as (obj' & O' & M & A). rewrite O in O'. injection O' as <-.
    split; [|split; [by exists n|done]]. split; [done|]. destruct (A eq_refl eq_refl) as (a & b & Q & _ & C).
    unfold ObjectCache.requested in Q. simpl in Q. injection Q as <- <-. intros bytes Eb. rewrite (C bytes Eb). apply sub_all.
  - by intros e s [_ L].
Qed.

Lemma get_small_triple l o obj : uncontested blake3_hex object l -> object l = Some obj ->
  triple Inv (get_small as_range blake3_hex inner w l o (len obj)) (post (fun a s => Inv s /\ answer l o a) (legit (bad_range l o))).
Proof.
  intros U O. unfold get_small. eapply triple_bind; [apply cache_reserve_triple, whole_name_plain, Hx|]. intros [fill|]; [|apply inner_get_triple].
  intros s res s' (St & Fp & Fb). pose proof (proj1 (proj1 (proj2 St))) as Mi. revert s res s' St.
  match goal with |- forall s res s', staged fill [] s -> ?m s = (res, s') -> _ => change (triple (staged fill []) m (post (fun a s => Inv s /\ answer l o a) (legit (bad_range l o)))) end.
  eapply triple_bind; [by apply (fetch_triple l obj fill)|]. intros r. apply triple_pure. intros [Ms Cs]. apply triple_pure. intros [n0 E0].
  eapply (triple_bind _ _ _ (fun bytes s => bytes = obj /\ staged fill [] s)).
  { apply or_drop_triple; [done|]. destruct (collect r) as [bytes|] eqn:C.
    - apply triple_ret. intros s S. by rewrite (Cs bytes eq_refl).
    - apply triple_fail. intros s (I & _). split; [done|]. exists n0. right; right; right; right. by exists l, whole_options, r. }
  intros bytes. apply triple_pure. intros ->. rewrite Z.eqb_refl. cbn [negb].
  destruct (requested o (len obj)) as [[a b]|] eqn:Rq.
  - destruct (requested_ok _ _ _ _ (len_nonneg _) Rq) as [H1 H2].
    replace (slice obj a b) with (Some (sub obj a b)) by (symmetry; by apply slice_Some).
    apply (triple_bind _ _ _ (fun _ s => Inv s)); [apply save_triple; intros _; rewrite Fp; by apply whole_right_of|].
    intros _. apply triple_ret. intros s I. split; [done|]. exists obj. split_and!; [done|done|]. intros _ _. exists a, b. split_and!; [done|done|].
    intros bytes. unfold collect. simpl. rewrite app_nil_r. by intros [= <-].
  - apply or_drop_triple; [done|]. apply triple_fail. intros s (I & _). split; [done|]. by exists obj.
Qed.

Lemma get_opts_triple l o : uncontested blake3_hex object l ->
  triple Inv (get_opts as_range blake3_hex inner config w l o) (post (fun a s => Inv s /\ answer l o a) (legit (bad_range l o))).
Proof.
  intros U. unfold get_opts. apply (triple_bind _ _ _ (fun _ s => Inv s)); [by intros s r s' I [= <- <-]|]. intros enabled.
  destruct (_ || _); [apply inner_get_triple|]. eapply triple_bind; [apply cache_read_triple|]. intros [r|].
  - intros s res s' [I H] E. destruct (H r eq_refl) as (_ & R & L & _). apply (whole_found l) in R; [|done].
    by apply (get_cached_triple l o r R L s res s').
  - apply (triple_pre _ Inv); [|by intros s [I _]]. destruct (o_head o) eqn:Hd.
    + eapply triple_bind; [apply inner_get_triple|]. intros r.
      apply (triple_pre _ (fun s => answer l o r /\ Inv s)); [|by intros s [? ?]]. apply triple_pure. intros A.
      apply (triple_bind _ _ _ (fun _ s => Inv s)); [|intros _; by apply triple_ret].
      apply memoize_triple. destruct A as (obj & O & M & _). by exists l, obj.
    + eapply triple_bind; [apply object_size_triple|]. intros size. apply triple_pure. intros Sk.
      destruct (size_exists l size U Sk) as (obj & O & ->). destruct (_ <=? _); [by apply get_small_triple|by apply get_large_triple].
Qed.

Lemma put_opts_triple l payload F :
  triple Inv (put_opts blake3_hex inner config w l payload) (post (fun _ s => Inv s /\ object l = Some payload) (legit F)).
Proof.
  unfold put_opts. apply (triple_bind _ _ _ (fun _ s => object l = Some payload /\ Inv s)).
  - eapply triple_weaken; [apply (backing_triple Inv _ (fun _ => object l = Some payload) F); try done|..].
    + intros n r E. by apply (im_put _ _ _ Im _ _ _ _ E).
    + intros n x E. exists n. right; right; right; left. by exists l, payload.
    + done.
    + by intros a s [I H].
    + by intros e s [_ L].
  - intros result. apply triple_pure. intros O. destruct (write_through config); [|by apply triple_ret].
    eapply triple_bind; [apply cache_reserve_triple, whole_name_plain, Hx|]. intros [fill|]; [|by apply triple_ret].
    apply (triple_bind _ _ _ (fun _ s => Inv s)); [|intros _; by apply triple_ret].
    intros s res s' (St & Fp & Fb). revert s res s' St. apply save_triple. intros _. rewrite Fp. by apply whole_right_of.
Qed.

End store.
End ObjectCacheTheorems.
