(* ===== verification/CachedReads.v ===== *)
(** * A process over the caching store: every read is right

    The calls of a process, from a cache directory a former run may have left:
    each answer is the backing store's. *)

From S2P Require Import Prelude DiskCache DiskCacheSpec ObjectCache ObjectCacheSpec DiskCacheTheorems.
Import DiskCache DiskCacheSpec DiskCacheSteps DiskCacheOpen ObjectCache ObjectCacheNames ObjectCacheSpec ObjectCacheTheorems.

Module CachedReads.

(** ** Opening a directory leaves no file that was not there *)

Lemma remove_file_sub io p f o f' : remove_file io p f = (o, f') -> forall q d, f' !! q = Some d -> f !! q = Some d.
Proof.
  intros E q d. apply remove_file_spec in E. destruct o; subst f'; try done; by intros [_ H]%lookup_delete_Some.
Qed.

Lemma evict_files_sub n io c bytes entry : forall s f b s' f',
  evict n io c bytes entry s f = (b, s', f') -> forall q d, f' !! q = Some d -> f !! q = Some d.
Proof.
  induction n as [|n IH]; intros s f b s' f' E q d H; simpl in E; destruct (negb _); try by injection E as <- <- <-.
  destruct (victim s) as [[p e]|]; [|by injection E as <- <- <-]. destruct (remove_file io p f) as [o f1] eqn:Rm.
  destruct o; try (injection E as <- <- <-); apply (remove_file_sub _ _ _ _ _ Rm); try done; by eapply IH.
Qed.

Lemma reindex_files_sub is_uuid io c item c' : reindex is_uuid io c item = Ok c' ->
  forall q d, files c' !! q = Some d -> files c !! q = Some d.
Proof.
  destruct item as [name content]. unfold reindex. destruct (String.eqb name LOCK); [by intros [= <-]|].
  destruct content as [data|]; [|done]. destruct (_ || _).
  - destruct (remove_file io name (files c)) as [o f] eqn:Rm. destruct o; try done. intros [= <-]. by apply (remove_file_sub _ _ _ _ _ Rm).
  - unfold make_room. destruct (max_bytes c <? len data); [done|].
    destruct (evict _ io c (len data) true (state c) (files c)) as [[b s] f] eqn:Ev. destruct b; [|done]. intros [= <-]. by apply (evict_files_sub _ _ _ _ _ _ _ _ _ _ Ev).
Qed.

Lemma reindex_all_files_sub is_uuid io items : forall c c', reindex_all is_uuid io c items = Ok c' ->
  forall q d, files c' !! q = Some d -> files c !! q = Some d.
Proof.
  induction items as [|item items IH]; intros c c' R q d H; cbn [reindex_all] in R; [by injection R as <-|].
  apply rbind_Ok in R as (c1 & R1 & R). apply (reindex_files_sub _ _ _ _ _ R1). by apply (IH c1 c').
Qed.

Lemma open_files_sub is_uuid io config locked items c : open is_uuid io config locked items = Ok c ->
  forall q d, files c !! q = Some d -> (q, Some d) ∈ items.
Proof.
  unfold open. destruct (_ || _); [done|]. destruct (negb locked); [done|]. destruct (List.existsb _ items); [done|].
  intros R q d H. apply (reindex_all_files_sub _ _ _ _ _ R) in H. simpl in H.
  apply elem_of_list_to_map_2, list_elem_of_omap in H as ([n o] & Hi & E). simpl in E.
  destruct (String.eqb n LOCK); [done|]. destruct o as [x|]; [|done]. by injection E as -> ->.
Qed.

(** ** The calls of a process *)

Inductive Call {GetRange : Type} :=
| CallGet (location : Path) (options : GetOptions GetRange)
| CallPut (location : Path) (payload : list Z).
Arguments Call : clear implicits.

Inductive Reply :=
| GotReply (r : result GetResult Error)
| PutReply (r : result string Error).

Section process.
Context {GetRange : Type} (as_range : GetRange -> Z -> option (Z * Z)) (blake3_hex : Path -> string).
Context (inner : Backend GetRange) (config : CacheConfig) (w : World).

Definition serve (call : Call GetRange) (s : Shared) : Reply * Shared :=
  match call with
  | CallGet l o => let '(r, s) := get_opts as_range blake3_hex inner config w l o s in (GotReply r, s)
  | CallPut l p => let '(r, s) := put_opts blake3_hex inner config w l p s in (PutReply r, s)
  end.

Fixpoint serve_all (calls : list (Call GetRange)) (s : Shared) : list Reply :=
  match calls with
  | [] => []
  | call :: calls => let '(r, s) := serve call s in r :: serve_all calls s
  end.

Definition call_location (call : Call GetRange) : Path := match call with CallGet l _ => l | CallPut l _ => l end.

(** A reply that an uncached store could have given. *)
Definition reply_ok (object : Path -> option (list Z)) (call : Call GetRange) (reply : Reply) : Prop :=
  match call, reply with
  | CallGet l o, GotReply (Ok r) => answer as_range object l o r
  | CallGet l o, GotReply (Err (Backing x)) => refused inner x
  | CallGet l o, GotReply (Err BadRange) => bad_range as_range object l o
  | CallPut l p, PutReply (Ok _) => object l = Some p
  | CallPut l p, PutReply (Err (Backing x)) => refused inner x
  | _, _ => False
  end.

Context (object : Path -> option (list Z)).
Context (Im : immutable as_range object inner) (Sz : sized object) (Hx : hex_keys blake3_hex) (Rg : ranges_ok as_range).
Context (Po : polite blake3_hex object w) (Ck : 0 < chunk_size config).

Lemma serve_ok call s r s' : uncontested blake3_hex object (call_location call) -> Inv blake3_hex object s ->
  serve call s = (r, s') -> Inv blake3_hex object s' /\ reply_ok object call r.
Proof.
  intros U I E. destruct call as [l o|l p]; simpl in *.
  - destruct (get_opts as_range blake3_hex inner config w l o s) as [res s1] eqn:G. injection E as <- <-.
    pose proof (get_opts_triple as_range blake3_hex object inner config w Im Sz Hx Rg Po Ck l o U s res s1 I G) as T.
    destruct res as [a|[x| |]]; [done|..]; by destruct T as [T1 T2].
  - destruct (put_opts blake3_hex inner config w l p s) as [res s1] eqn:G. injection E as <- <-.
    pose proof (put_opts_triple as_range blake3_hex object inner config w Im Hx Po l p False s res s1 I G) as T.
    destruct res as [a|[x| |]]; [done|..]; by destruct T as [T1 T2].
Qed.

Lemma serve_all_ok calls : forall s, Forall (fun c => uncontested blake3_hex object (call_location c)) calls -> Inv blake3_hex object s ->
  Forall2 (reply_ok object) calls (serve_all calls s).
Proof.
  induction calls as [|call calls IH]; intros s U I; simpl; [constructor|]. apply Forall_cons in U as [U1 U2].
  destruct (serve call s) as [r s1] eqn:E. destruct (serve_ok call s r s1 U1 I E) as [I1 R]. constructor; [done|]. by apply IH.
Qed.
End process.

(** A cache opened over a directory whose files are right starts right. *)
Lemma with_config_inv is_uuid blake3_hex object io config locked items :
  cf_max_entries config < 2 ^ 64 - 1 -> 0 <= cf_max_bytes config -> 0 <= cf_max_entries config -> NoDup (List.map fst items) ->
  (forall name d, (name, Some d) ∈ items -> right blake3_hex object name d) ->
  Inv blake3_hex object (with_config is_uuid io config locked items).
Proof.
  intros Me Mb Mn Nd R. split.
  - simpl. destruct (open is_uuid io config locked items) as [c|] eqn:O; [|done]. intros d [= <-] name e H.
    destruct (open_within _ _ _ _ _ _ Me Mb Mn Nd O) as (W & _). split; [by apply (w_entries _ _ _ _ _ W name e)|].
    intros data F _. apply R. by apply (open_files_sub _ _ _ _ _ _ O).
  - simpl. destruct (cf_size_entries config =? 0); [done|]. by intros cap l [= <- <-].
Qed.

(** C7: A process that reads and writes immutable objects through the cache gets
    the backing store's answers: a read that succeeds has the object's size, the
    range asked for, and exactly those bytes when its stream ends well; a read
    fails only if the backing store refused a call or the range is not one of
    the object; nothing panics. It holds whole or chunked, hit or miss, whatever
    other tasks, evictions and failing filesystem calls do in between, from any
    directory whose files are right, and with the disk cache disabled -- as long
    as no object asked for shares its BLAKE3 hash with another. *)
Theorem cached_reads_are_backing_reads {GetRange} (as_range : GetRange -> Z -> option (Z * Z)) blake3_hex object inner config w
    is_uuid io locked items calls :
  immutable as_range object inner -> sized object -> hex_keys blake3_hex -> ranges_ok as_range -> polite blake3_hex object w ->
  0 < chunk_size config -> 0 <= cf_max_bytes config -> 0 <= cf_max_entries config < 2 ^ 64 - 1 ->
  NoDup (List.map fst items) -> (forall name d, (name, Some d) ∈ items -> right blake3_hex object name d) ->
  Forall (fun c => uncontested blake3_hex object (call_location c)) calls ->
  Forall2 (reply_ok as_range inner object) calls
    (serve_all as_range blake3_hex inner config w calls (with_config is_uuid io config locked items)).
Proof.
  intros Im Sz Hx Rg Po Ck Mb [Mn Me] Nd R U. apply serve_all_ok; try done. by apply with_config_inv.
Qed.

End CachedReads.

(** * The caching store at work: a concrete process *)

Import DiskCache DiskCacheSpec DiskCacheExamples ObjectCache ObjectCacheSpec ObjectCacheTheorems CachedReads.

Module CachedReadsExamples.

Definition demo_object (l : Path) : option (list Z) :=
  if String.eqb l "a" then Some [1; 2; 3; 4] else if String.eqb l "b" then Some [10; 11; 12; 13; 14; 15; 16; 17; 18; 19] else None.

(** Bounded ranges, cut at the object's end. *)
Definition demo_range (r : Z * Z) (n : Z) : option (Z * Z) :=
  if (0 <=? r.1) && (r.1 <=? r.2) && (r.1 <=? n) then Some (r.1, Z.min r.2 n) else None.

Definition ones : string := "1111111111111111111111111111111111111111111111111111111111111111".
Definition demo_hex (l : Path) : string := if String.eqb l "a" then zeros else ones.

Definition demo_meta (l : Path) (obj : list Z) : ObjectMeta := mkMeta l 7 (len obj) None None.
Definition demo_backend : Backend (Z * Z) :=
  mkBackend (Z * Z)
    (fun _ l o => match demo_object l with
      | None => Err "not found"%string
      | Some obj => match requested demo_range o (len obj) with
        | None => Err "range"%string
        | Some (a, b) => Ok (mkGet (demo_meta l obj) [Some (sub obj a b)] (a, b) [] None)
        end
      end)
    (fun _ l => match demo_object l with None => Err "not found"%string | Some obj => Ok (demo_meta l obj) end)
    (fun _ l a b => match demo_object l with
      | None => Err "not found"%string
      | Some obj => match slice obj a b with Some bytes => Ok bytes | None => Err "range"%string end
      end)
    (fun _ l payload => if bool_decide (demo_object l = Some payload) then Ok "etag"%string else Err "exists"%string).

(** At its seventeenth step another task has emptied the index; at its seventh
    no file can be opened. *)
Definition demo_world : World :=
  mkWorld (fun n => if Nat.eqb n 7 then io_no_open else io_ok)
    (fun n c => if Nat.eqb n 17 then with_state c (mkState [] ∅ 0 0) (files c) else c)
    (fun _ l => l) (fun n => pretty n) (fun n => Z.of_nat n) (fun _ => None).

Definition small_config : CacheConfig := mkCacheConfig 4 4 true 64 8 4.

Lemma demo_immutable : immutable demo_range demo_object demo_backend.
Proof.
  split; simpl.
  - intros n l o r. destruct (demo_object l) as [obj|]; [|done]. destruct (requested demo_range o (len obj)) as [[a b]|] eqn:R; [|done].
    intros [= <-]. exists obj. split_and!; [done|done|]. intros _ _. exists a, b. split_and!; [done|done|].
    intros bytes. unfold collect. simpl. rewrite app_nil_r. by intros [= <-].
  - intros n l m. destruct (demo_object l) as [obj|]; [|done]. intros [= <-]. by exists obj.
  - intros n l a b bytes. destruct (demo_object l) as [obj|]; [|done]. destruct (slice obj a b) as [p|] eqn:S; [|done].
    intros [= <-]. exists obj. split; [done|]. intros _ _. by apply slice_Some in S as (_ & _ & ->).
  - intros n l payload r. case_bool_decide; [done|]. done.
Qed.

Lemma demo_polite : polite demo_hex demo_object demo_world.
Proof.
  split; simpl; intros n; [| |done].
  - intros c T. destruct (Nat.eqb n 17); [|done]. intros name e. done.
  - intros c tmp _. by destruct (Nat.eqb n 17).
Qed.

Lemma demo_uncontested l : l = "a"%string \/ l = "b"%string -> uncontested demo_hex demo_object l.
Proof.
  intros L l' [obj O] K. unfold demo_object in O. destruct (String.eqb_spec l' "a") as [->|]; [by destruct L as [->| ->]|].
  destruct (String.eqb_spec l' "b") as [->|]; [|done]. by destruct L as [->| ->].
Qed.

Definition plain_options (r : option (Z * Z)) : GetOptions (Z * Z) := mkOptions None None None None r None false.

Definition demo_calls : list (Call (Z * Z)) :=
  [CallPut "a" [1; 2; 3; 4]; CallGet "a" (plain_options (Some (1, 3))); CallGet "a" (plain_options None);
   CallGet "b" (plain_options (Some (3, 9))); CallGet "b" (plain_options (Some (2, 6))); CallGet "b" (plain_options (Some (4, 5)));
   CallGet "b" (plain_options (Some (11, 12)))].

Definition bytes_of (r : Reply) : option (list Z) :=
  match r with GotReply (Ok r) => collect r | _ => None end.

Definition demo_replies : list Reply :=
  serve_all demo_range demo_hex demo_backend small_config demo_world demo_calls (with_config demo_uuid io_ok small_config true []).

Lemma cached_reads_are_backing_reads_witness :
  Forall2 (reply_ok demo_range demo_backend demo_object) demo_calls demo_replies /\
  List.map bytes_of demo_replies =
    [None; Some [2; 3]; Some [1; 2; 3; 4]; Some [13; 14; 15; 16; 17; 18]; Some [12; 13; 14; 15]; Some [14]; None].
Proof.
  split; [|by vm_compute].
  apply (cached_reads_are_backing_reads demo_range demo_hex demo_object demo_backend small_config demo_world demo_uuid io_ok true [] demo_calls).
  - exact demo_immutable.
  - intros l obj. unfold demo_object. destruct (String.eqb l "a"); [by intros [= <-]|]. destruct (String.eqb l "b"); [by intros [= <-]|done].
  - intros l. unfold demo_hex. by destruct (String.eqb l "a").
  - intros r n a b Hn. unfold demo_range. destruct (_ && _) eqn:E; [|done]. boolp. intros [= <- <-]. lia.
  - exact demo_polite.
  - simpl. lia.
  - simpl. lia.
  - simpl. lia.
  - constructor.
  - intros name d H. by apply elem_of_nil in H.
  - repeat constructor; apply demo_uncontested; by (left + right).
Defined.

(** A file whose hash is another object's serves that object's bytes. *)
Example contested_read :
  List.map bytes_of (serve_all demo_range (fun _ => zeros) demo_backend small_config demo_world
    [CallPut "a" [1; 2; 3; 4]; CallGet "b" (plain_options None)] (with_config demo_uuid io_ok small_config true [])) = [None; Some [1; 2; 3; 4]].
Proof. by vm_compute. Qed.

End CachedReadsExamples.
