(* ===== verification/ObjectUpload.v ===== *)
(** * Multipart uploads through the cache (crates/ukiel-query/src/cache.rs)

    [PrewarmingUpload]: the parts of an upload are written to a staging file as
    they are sent, and the file is published when the upload completes. The
    staged fill is shared ([Arc]) by the upload and the part futures that have
    not ended; the last of them to go drops it. *)

From S2P Require Import Prelude DiskCache DiskCacheSpec ObjectCache DiskCacheTheorems ObjectCacheSpec CachedReads.
Import DiskCache DiskCacheSpec ObjectCache.

Module ObjectUpload.

Record Tee := mkTee { t_fill : Fill; t_poisoned : bool }.

(** [u_tee]: the upload still holds the shared [Tee]; [u_parts]: the payloads
    and offsets of the part futures that hold it. *)
Record PrewarmingUpload := mkUpload {
  u_tee : bool;
  u_shared : option Tee;
  u_offset : Z;
  u_parts : list (list Z * Z);
}.

Section upload.
Context (blake3_hex : Path -> string) (config : CacheConfig) (w : World).

Definition held_tee (u : PrewarmingUpload) : option Tee := if u_tee u then u_shared u else None.

(** A holder of the [Tee] went: the last one drops the fill. *)
Definition release (u : PrewarmingUpload) : Task PrewarmingUpload :=
  match u_tee u, u_parts u, u_shared u with
  | false, [], Some tee => do _ <- drop w (t_fill tee); ret (mkUpload false None (u_offset u) [])
  | _, _, _ => ret u
  end.

Definition put_part (data : list Z) (u : PrewarmingUpload) : Task PrewarmingUpload :=
  let after := u_offset u + len data in
  match held_tee u with
  | None => ret (mkUpload false (u_shared u) after (u_parts u))
  | Some tee =>
      do grown <- disk_call w (false, t_fill tee)
                    (fun io c => let '(ok, fill, c) := grow io (t_fill tee) (len data) c in ((ok, fill), c));
      if grown.1 : bool
      then ret (mkUpload true (Some (mkTee grown.2 (t_poisoned tee))) after (u_parts u ++ [(data, u_offset u)]))
      else release (mkUpload false (Some (mkTee grown.2 true)) after (u_parts u))
  end.

(** A part future runs its write, and ends. *)
Definition run_part (k : nat) (u : PrewarmingUpload) : Task PrewarmingUpload :=
  match u_parts u !! k, u_shared u with
  | Some (payload, offset), Some tee =>
      do poisoned <- (if t_poisoned tee then ret true
                      else do ok <- disk_call w false (fun io c => write_at io (t_fill tee) payload offset c); ret (negb ok));
      release (mkUpload (u_tee u) (Some (mkTee (t_fill tee) poisoned)) (u_offset u) (remove_nth k (u_parts u)))
  | _, _ => ret u
  end.

(** [complete], with the backing store's answer: whether the file was published. *)
Definition complete (inner_ok : bool) (u : PrewarmingUpload) : Task (bool * PrewarmingUpload) :=
  if negb inner_ok then ret (false, u)
  else
    match held_tee u, u_parts u with
    | Some tee, [] =>
        let u := mkUpload false None (u_offset u) [] in
        if t_poisoned tee then do _ <- drop w (t_fill tee); ret (false, u)
        else do saved <- disk_call w false (fun io c => publish io (t_fill tee) c); ret (saved, u)
    | Some tee, parts => ret (false, mkUpload false (Some tee) (u_offset u) parts)
    | None, _ => ret (false, u)
    end.

Definition abort (u : PrewarmingUpload) : Task PrewarmingUpload :=
  release (mkUpload false (u_shared u) (u_offset u) (u_parts u)).

(** [put_multipart_opts] once the backing store has opened its upload: [None] is
    the backing store's upload alone. *)
Definition put_multipart_opts (location : Path) : Task (option PrewarmingUpload) :=
  if write_through config then
    do fill <- cache_reserve w (whole_name blake3_hex location) 0;
    ret ((fun fill => mkUpload true (Some (mkTee fill false)) 0 []) <$> fill)
  else ret None.

End upload.
End ObjectUpload.

(** * What an upload publishes

    Parts are written at their offsets in any order; what is published under the
    object's name is all of them, in the order they were sent. *)

Import DiskCache DiskCacheSpec DiskCacheSteps DiskCacheTheorems ObjectCache ObjectCacheNames ObjectCacheSpec ObjectCacheTheorems ObjectUpload.

Module ObjectUploadSpec.

(** ** Bytes written at an offset *)

Lemma write_inside data o payload i : (o <= i < o + length payload)%nat -> write_bytes data o payload !! i = payload !! (i - o)%nat.
Proof.
  intros H. unfold write_bytes. destruct payload as [|x p] eqn:E; [simpl in H; lia|]. rewrite <-E in *. clear E.
  assert (L : length (List.firstn o data ++ replicate (o - length data) 0) = o)
    by (rewrite length_app, List.length_firstn, length_replicate; lia).
  rewrite app_assoc, lookup_app_r by lia. rewrite L. by rewrite lookup_app_l by lia.
Qed.

Lemma write_outside data o payload i x : data !! i = Some x -> (i < o \/ o + length payload <= i)%nat ->
  write_bytes data o payload !! i = Some x.
Proof.
  intros H D. assert (Li := lookup_lt_Some _ _ _ H). unfold write_bytes. destruct payload as [|y p] eqn:E; [done|]. rewrite <-E in *. clear E y p.
  destruct D as [D|D].
  - rewrite lookup_app_l by (rewrite List.length_firstn; lia). by rewrite lookup_take_lt.
  - assert (L : length (List.firstn o data ++ replicate (o - length data) 0) = o)
      by (rewrite length_app, List.length_firstn, length_replicate; lia).
    rewrite app_assoc, lookup_app_r by lia. rewrite L, lookup_app_r by lia. rewrite lookup_drop. rewrite <-H. f_equal. lia.
Qed.

(** ** The invariant of an upload *)

(** Where a part that has not been written yet will be. *)
Definition waiting (parts : list (list Z * Z)) (i : nat) : Prop :=
  exists p, p ∈ parts /\ (Z.to_nat p.2 <= i < Z.to_nat p.2 + length p.1)%nat.

(** Every byte sent is staged at its place, or waits. *)
Definition staging (sent staged : list Z) (parts : list (list Z * Z)) : Prop :=
  (forall i, (i < length sent)%nat -> ~ waiting parts i -> staged !! i = sent !! i) /\
  (forall p, p ∈ parts -> 0 <= p.2 /\ forall i x, p.1 !! i = Some x -> sent !! (Z.to_nat p.2 + i)%nat = Some x).

Lemma staging_sent sent staged parts data : staging sent staged parts -> staging (sent ++ data) staged (parts ++ [(data, len sent)]).
Proof.
  intros [S P]. split.
  - intros i Hi W. assert (Ls : (i < length sent)%nat).
    { destruct (decide (i < length sent)%nat) as [|N]; [done|]. destruct W. exists (data, len sent). split; [apply elem_of_app; right; by left|].
      simpl. rewrite length_app in Hi. unfold len. lia. }
    rewrite lookup_app_l by done. apply S; [done|]. intros (p & Hp & R). apply W. exists p. split; [apply elem_of_app; by left|done].
  - intros p [Hp|Hp%list_elem_of_singleton]%elem_of_app.
    + destruct (P p Hp) as [O V]. split; [done|]. intros i x H. by apply lookup_app_l_Some, V.
    + subst p. simpl. split; [unfold len; lia|]. intros i x H. rewrite lookup_app_r by (unfold len; lia). rewrite <-H. f_equal. unfold len. lia.
Qed.

Lemma staging_written sent staged parts k p : parts !! k = Some p -> staging sent staged parts ->
  staging sent (write_bytes staged (Z.to_nat p.2) p.1) (remove_nth k parts).
Proof.
  intros K [S P]. pose proof (remove_nth_perm _ _ _ K) as Pm.
  assert (Hp : p ∈ parts) by (by eapply list_elem_of_lookup_2). split.
  - intros i Hi W. destruct (decide (Z.to_nat p.2 <= i < Z.to_nat p.2 + length p.1)%nat) as [R|R].
    + rewrite write_inside by done. destruct (p.1 !! (i - Z.to_nat p.2)%nat) as [x|] eqn:E; [|apply lookup_ge_None in E; lia].
      destruct (P p Hp) as [_ V]. rewrite <-(V _ _ E). f_equal. lia.
    + assert (Wi : ~ waiting parts i).
      { intros (q & Hq & Rq). rewrite Pm in Hq. apply elem_of_cons in Hq as [->|Hq]; [done|]. apply W. by exists q. }
      specialize (S i Hi Wi). destruct (lookup_lt_is_Some_2 sent i Hi) as [x Hx]. rewrite Hx in S |- *. apply write_outside; [done|]. lia.
  - intros q Hq. apply P. rewrite Pm. by right.
Qed.

Lemma staging_done sent staged : staging sent staged [] -> len staged = len sent -> staged = sent.
Proof.
  intros [S _] L. apply list_eq. intros i. destruct (decide (i < length sent)%nat) as [H|H].
  - apply S; [done|]. by intros (p & ?%elem_of_nil & _).
  - unfold len in L. rewrite !lookup_ge_None_2 by lia. done.
Qed.

Section spec.
Context (blake3_hex : Path -> string) (object : Path -> option (list Z)) (config : CacheConfig) (w : World).
Context (Hx : hex_keys blake3_hex) (Po : polite blake3_hex object w).

Notation Inv := (Inv blake3_hex object).

(** An upload of [l] that was sent [sent]. *)
Definition uploading (l : Path) (sent : list Z) (u : PrewarmingUpload) (s : Shared) : Prop :=
  Inv s /\ match u_shared u with
  | None => True
  | Some tee =>
      (mine w (fl_tmp (t_fill tee)) /\ fl_path (t_fill tee) = whole_name blake3_hex l) /\
      (u_tee u = true -> t_poisoned tee = false -> u_offset u = len sent /\ fl_bytes (t_fill tee) = len sent /\
        forall c, sh_disk s = Some c -> exists staged, files c !! fl_tmp (t_fill tee) = Some staged /\ staging sent staged (u_parts u))
  end.

Definition up_post {A} (l : Path) (sent : list Z) (view : A -> PrewarmingUpload) : result A Error -> Shared -> Prop :=
  post (fun a s => uploading l sent (view a) s) (fun _ _ => False).

(** ** Operations *)

Lemma release_triple l sent u : triple (uploading l sent u) (release w u) (up_post l sent (fun u => u)).
Proof.
  unfold release. destruct (u_tee u) eqn:T, (u_parts u) eqn:Pt, (u_shared u) as [tee|] eqn:Sh; try by apply triple_ret.
  intros s r s' [I R] E. rewrite Sh in R. destruct R as [[Mi _] _].
  revert s r s' I E. apply (triple_bind _ _ _ (fun _ s => Inv s)); [by eapply drop_triple|]. intros _. apply triple_ret. by intros s I.
Qed.

Lemma grow_truthful io fill bytes c ok fill' c' : ~ plain (fl_tmp fill) -> truthful blake3_hex object c -> grow io fill bytes c = (ok, fill', c') ->
  truthful blake3_hex object c' /\ files c' !! fl_tmp fill = files c !! fl_tmp fill /\
  fill' = (if ok then mkFill (fl_path fill) (fl_tmp fill) (fl_bytes fill + bytes) else fill).
Proof.
  intros Np T E. unfold grow in E. destruct (make_room io c bytes false (state c) (files c)) as [[b st] f] eqn:Mr.
  pose proof (make_room_truthful blake3_hex object _ _ _ _ _ _ _ T Mr) as T1.
  assert (Fk : f !! fl_tmp fill = files c !! fl_tmp fill).
  { apply (make_room_other _ _ _ _ _ _ _ _ _ _ Mr). intros e He. apply Np. by apply (T _ e). }
  destruct b; injection E as <- <- <-; by split_and!.
Qed.

(** What the staging file holds. *)
Definition staged_as (fill : Fill) (sent : list Z) (parts : list (list Z * Z)) (c : DiskCache) : Prop :=
  exists staged, files c !! fl_tmp fill = Some staged /\ staging sent staged parts.

Lemma staged_as_others fill sent parts n c : mine w (fl_tmp fill) -> staged_as fill sent parts c -> staged_as fill sent parts (w_others w n c).
Proof. intros Mi (st & F & S). exists st. by rewrite (po_tmp _ _ _ Po). Qed.

Lemma grow_triple fill bytes (F : DiskCache -> Prop) X : mine w (fl_tmp fill) ->
  (forall n c, F c -> F (w_others w n c)) -> (forall c c', F c -> files c' !! fl_tmp fill = files c !! fl_tmp fill -> F c') ->
  triple (fun s => Inv s /\ forall c, sh_disk s = Some c -> F c)
    (disk_call w (false, fill) (fun io c => let '(ok, fill, c) := grow io fill bytes c in ((ok, fill), c)))
    (post (fun g s => (g.2 = if g.1 : bool then mkFill (fl_path fill) (fl_tmp fill) (fl_bytes fill + bytes) else fill) /\
       Inv s /\ forall c, sh_disk s = Some c -> F c) X).
Proof.
  intros Mi Fo Fk. eapply triple_weaken; [apply (disk_call_triple blake3_hex object w Po F (fun g c => F c /\
    g.2 = (if g.1 : bool then mkFill (fl_path fill) (fl_tmp fill) (fl_bytes fill + bytes) else fill)) _ _ X)|done| |done].
  - intros n c _. apply Fo.
  - intros n c g c' T H E. destruct (grow (w_io w n) fill bytes c) as [[ok fill'] c1] eqn:G. injection E as <- <-.
    destruct (grow_truthful _ _ _ _ _ _ _ (mine_not_plain w _ Mi) T G) as (T' & Ft & ->). split_and!; [done| |done]. by apply (Fk c).
  - intros [ok fill'] s (I & H & N). split; [|split; [done|intros c D; by apply H]].
    destruct (sh_disk s) as [c|]; [by apply (H c)|]. by injection (N eq_refl) as -> ->.
Qed.

Lemma put_part_triple l sent u data :
  triple (uploading l sent u) (put_part w data u) (up_post l (sent ++ data) (fun u => u)).
Proof.
  unfold put_part, held_tee. destruct (if u_tee u then u_shared u else None) as [tee|] eqn:Sh.
  - assert (T : u_tee u = true /\ u_shared u = Some tee) by (by destruct (u_tee u)). destruct T as [T Sh']. clear Sh.
    intros s r s' [I R] E. rewrite Sh' in R. destruct R as [[Mi Pth] R]. revert s r s' I R E.
    set (F := fun c => t_poisoned tee = false -> staged_as (t_fill tee) sent (u_parts u) c).
    match goal with |- forall s r s', _ -> _ -> ?m s = (r, s') -> _ =>
      enough (Tr : (t_poisoned tee = false -> u_offset u = len sent /\ fl_bytes (t_fill tee) = len sent) ->
        triple (fun s => Inv s /\ forall c, sh_disk s = Some c -> F c) m (up_post l (sent ++ data) (fun u => u))) end.
    { intros s r s' I R E. apply (Tr ltac:(intros Np; by destruct (R T Np) as (A & B & _)) s r s'); [|done].
      split; [done|]. intros c D Np. by apply (R T Np). }
    intros Pure.
    eapply triple_bind; [apply (grow_triple (t_fill tee) (len data) F); [done|..]|].
    + intros n c H Np. by apply staged_as_others, H.
    + intros c c' H Ft Np. destruct (H Np) as (st & S & G). exists st. by rewrite Ft.
    + intros [ok fill]. apply triple_pure. simpl. intros ->. destruct ok.
      * apply triple_ret. intros s [I H]. split; [done|]. simpl. split; [done|]. intros _ Np. rewrite len_app.
        destruct (Pure Np) as [A B]. split_and!; [lia|lia|]. intros c D. destruct (H c D Np) as (st & S & G). exists st.
        split; [done|]. rewrite A. by apply staging_sent.
      * eapply triple_pre; [apply (release_triple l (sent ++ data))|]. intros s [I _]. split; [done|]. simpl. by split.
  - apply triple_ret. intros s [I R]. split; [done|]. simpl. destruct (u_shared u) as [tee|]; [|done]. by split; [apply R|].
Qed.

Lemma write_triple fill payload offset (F F' : DiskCache -> Prop) X : mine w (fl_tmp fill) ->
  (forall n c, F c -> F (w_others w n c)) ->
  (forall c c', F c -> (forall d, files c !! fl_tmp fill = Some d ->
     files c' !! fl_tmp fill = Some (write_bytes d (Z.to_nat offset) payload)) -> F' c') ->
  triple (fun s => Inv s /\ forall c, sh_disk s = Some c -> F c) (disk_call w false (fun io c => write_at io fill payload offset c))
    (post (fun (ok : bool) s => Inv s /\ forall c, sh_disk s = Some c -> ok = true -> F' c) X).
Proof.
  intros Mi Fo Fw. eapply triple_weaken; [apply (disk_call_triple blake3_hex object w Po F (fun ok c => ok = true -> F' c) _ _ X)|done| |done].
  - intros n c _. apply Fo.
  - intros n c ok c' T H E. destruct (write_at_truthful _ _ _ _ _ _ _ _ _ (mine_not_plain w _ Mi) T E) as [T' W]. split; [done|].
    intros ->. apply (Fw c); [done|]. intros d Fd. by apply W.
  - intros ok s (I & H & _). by split.
Qed.

Lemma run_part_triple l sent u k : triple (uploading l sent u) (run_part w k u) (up_post l sent (fun u => u)).
Proof.
  unfold run_part. destruct (u_parts u !! k) as [[payload offset]|] eqn:K; [|by apply triple_ret].
  destruct (u_shared u) as [tee|] eqn:Sh; [|by apply triple_ret]. set (rest := remove_nth k (u_parts u)).
  set (F := fun c => u_tee u = true -> t_poisoned tee = false -> staged_as (t_fill tee) sent (u_parts u) c).
  set (F' := fun c => u_tee u = true -> t_poisoned tee = false -> staged_as (t_fill tee) sent rest c).
  intros s r s' [I R] E. rewrite Sh in R. destruct R as [[Mi Pth] R]. revert s r s' I R E.
  match goal with |- forall s r s', _ -> _ -> ?m s = (r, s') -> _ =>
    enough (Tr : (u_tee u = true -> t_poisoned tee = false -> u_offset u = len sent /\ fl_bytes (t_fill tee) = len sent) ->
      triple (fun s => Inv s /\ forall c, sh_disk s = Some c -> F c) m (up_post l sent (fun u => u))) end.
  { intros s r s' I R E. apply (Tr ltac:(intros T Np; by destruct (R T Np) as (A & B & _)) s r s'); [|done].
    split; [done|]. intros c D T Np. by apply (R T Np). }
  intros Pure. apply (triple_bind _ _ _ (fun (poisoned : bool) s => Inv s /\ (poisoned = false -> t_poisoned tee = false) /\
    forall c, sh_disk s = Some c -> poisoned = false -> F' c)).
  - destruct (t_poisoned tee) eqn:Np; [apply triple_ret; by intros s [I _]|].
    eapply triple_bind; [apply (write_triple (t_fill tee) payload offset F F'); [done|..]|].
    + intros n c H T Np'. by apply staged_as_others, H.
    + intros c c' H Fw T Np'. destruct (H T Np') as (st & S & G). exists (write_bytes st (Z.to_nat offset) payload). split; [by apply Fw|].
      by apply (staging_written _ _ _ k (payload, offset)).
    + intros ok. apply triple_ret. intros s [I H]. split_and!; [done|done|]. intros c D Eo. apply (H c D). by destruct ok.
  - intros poisoned. eapply triple_pre; [apply (release_triple l sent)|]. intros s (I & Np & H). split; [done|]. simpl. split; [done|].
    intros T Ep. destruct (Pure T (Np Ep)) as [A B]. split_and!; [done|done|]. intros c D. by apply (H c D Ep T), Np.
Qed.

(** What is published under the name of [l]. *)
Definition published_as (l : Path) (d : list Z) (s : Shared) : Prop :=
  exists c, sh_disk s = Some c /\ files c !! whole_name blake3_hex l = Some d /\
    peek (whole_name blake3_hex l) (entries (state c)) = Some (mkEntry (len d) 0).

Lemma publish_triple fill sent F X : mine w (fl_tmp fill) -> plain (fl_path fill) ->
  (forall n c, F c -> F (w_others w n c)) -> right blake3_hex object (fl_path fill) sent -> fl_bytes fill = len sent ->
  (forall c, F c -> staged_as fill sent [] c) ->
  triple (fun s => Inv s /\ forall c, sh_disk s = Some c -> F c) (disk_call w false (fun io c => publish io fill c))
    (post (fun (ok : bool) s => Inv s /\ (ok = true -> exists c, sh_disk s = Some c /\ files c !! fl_path fill = Some sent /\
       peek (fl_path fill) (entries (state c)) = Some (mkEntry (len sent) 0))) X).
Proof.
  intros Mi Pl Fo Rt Fb Fs. eapply triple_weaken; [apply (disk_call_triple blake3_hex object w Po F (fun (ok : bool) c => ok = true ->
    files c !! fl_path fill = Some sent /\ peek (fl_path fill) (entries (state c)) = Some (mkEntry (len sent) 0)) _ _ X)|done| |done].
  - intros n c _. apply Fo.
  - intros n c ok c' T H E. destruct (Fs c H) as (st & Ft & G).
    assert (Done : len st = fl_bytes fill -> st = sent) by (intros L; apply staging_done; [done|congruence]). split.
    + eapply publish_truthful; [by apply (mine_not_plain w)|exact Pl|exact T| |exact E]. intros d. rewrite Ft. intros [= <-] L. by rewrite (Done L).
    + intros ->. unfold publish in E. rewrite Ft in E. destruct (_ || rename_fails _ _) eqn:Z0; [done|]. injection E as <-.
      apply orb_false_iff in Z0 as [[_ Z0]%orb_false_iff _]. apply negb_false_iff, Z.eqb_eq in Z0. simpl.
      rewrite lookup_insert_eq, String.eqb_refl, (Done Z0), Fb. by split.
  - intros ok s (I & H & N). split; [done|]. intros ->. destruct (sh_disk s) as [c|] eqn:D; [|by specialize (N eq_refl)].
    exists c. by destruct (H c eq_refl eq_refl).
Qed.

Lemma complete_triple l sent u : object l = Some sent ->
  triple (uploading l sent u) (complete w true u) (post (fun r s => Inv s /\ (r.1 = true -> published_as l sent s)) (fun _ _ => False)).
Proof.
  intros O. unfold complete, held_tee. cbn [negb]. destruct (if u_tee u then u_shared u else None) as [tee|] eqn:Sh.
  2: { apply triple_ret. by intros s [I _]. }
  assert (T : u_tee u = true /\ u_shared u = Some tee) by (by destruct (u_tee u)). destruct T as [T Sh']. clear Sh.
  destruct (u_parts u) as [|p parts] eqn:Ep; [|apply triple_ret; by intros s [I _]].
  intros s r s' [I R] E. rewrite Sh', Ep in R. destruct R as [[Mi Pth] R]. destruct (t_poisoned tee) eqn:Np.
  - clear R. revert s r s' I E. apply (triple_bind _ _ _ (fun _ s => Inv s)); [by apply (drop_triple blake3_hex object w Po)|]. intros _. by apply triple_ret.
  - specialize (R T eq_refl). destruct R as (_ & Fb & R). pose proof (conj I R) as IR. clear I R. revert s r s' IR E.
    match goal with |- forall s r s', _ -> ?m s = (r, s') -> _ =>
      change (triple (fun s => Inv s /\ forall c, sh_disk s = Some c -> staged_as (t_fill tee) sent [] c) m
        (post (fun r s => Inv s /\ (r.1 = true -> published_as l sent s)) (fun _ _ => False))) end.
    eapply triple_bind.
    + apply (publish_triple (t_fill tee) sent (staged_as (t_fill tee) sent [])); try done.
      * rewrite Pth. apply whole_name_plain, Hx.
      * intros n c. by apply staged_as_others.
      * rewrite Pth. by apply whole_right_of.
    + intros saved. apply triple_ret. intros s [I H]. split; [done|]. simpl. intros E. specialize (H E). by rewrite Pth in H.
Qed.

(** ** An upload from its start to its end *)

Inductive UploadOp :=
| Send (data : list Z)
| RunPart (k : nat).

Definition upload_op (op : UploadOp) (u : PrewarmingUpload) : Task PrewarmingUpload :=
  match op with Send data => put_part w data u | RunPart k => run_part w k u end.
Fixpoint upload_ops (ops : list UploadOp) (u : PrewarmingUpload) : Task PrewarmingUpload :=
  match ops with [] => ret u | op :: ops => do u <- upload_op op u; upload_ops ops u end.
Definition sent_of (ops : list UploadOp) : list Z := concat (List.map (fun op => match op with Send d => d | RunPart _ => [] end) ops).

Definition upload (l : Path) (ops : list UploadOp) : Task bool :=
  do started <- put_multipart_opts blake3_hex config w l;
  match started with
  | None => ret false
  | Some u => do u <- upload_ops ops u; do r <- complete w true u; ret r.1
  end.

Lemma upload_ops_triple l ops : forall sent u,
  triple (uploading l sent u) (upload_ops ops u) (up_post l (sent ++ sent_of ops) (fun u => u)).
Proof.
  induction ops as [|op ops IH]; intros sent u; cbn [upload_ops].
  - unfold sent_of. simpl. rewrite app_nil_r. by apply triple_ret.
  - destruct op as [data|k]; unfold sent_of; simpl; fold (sent_of ops).
    + eapply triple_bind; [apply put_part_triple|]. intros u'. rewrite app_assoc. apply IH.
    + eapply triple_bind; [apply run_part_triple|]. intros u'. apply IH.
Qed.

Lemma start_triple l : triple Inv (put_multipart_opts blake3_hex config w l)
  (post (fun o s => match o with Some u => uploading l [] u s | None => Inv s end) (fun _ _ => False)).
Proof.
  unfold put_multipart_opts. destruct (write_through config); [|by apply triple_ret].
  eapply triple_bind; [by apply (cache_reserve_triple blake3_hex object w Po), whole_name_plain|]. intros o. apply triple_ret.
  intros s. destruct o as [fill|]; [|done]. simpl. intros ((I & (Mi & Pl) & F) & Fp & Fb). split; [done|]. simpl. split; [done|].
  intros _ _. split_and!; [done|done|]. intros c D. exists []. split; [by apply F|]. split; [intros i Hi; simpl in Hi; lia|by intros p ?%elem_of_nil].
Qed.

End spec.

(** C8: An object uploaded in parts: whatever order the part futures are run in,
    between and after the sends, and whatever other tasks and the filesystem do,
    if the cache publishes a file when the upload completes, it is the parts in
    the order they were sent, whole, under the object's name -- never a prefix,
    a hole or parts in another order -- and the cache stays right. *)
Theorem upload_publishes_whole_object blake3_hex object config w l ops s r s' :
  hex_keys blake3_hex -> polite blake3_hex object w -> Inv blake3_hex object s -> object l = Some (sent_of ops) ->
  upload blake3_hex config w l ops s = (r, s') ->
  Inv blake3_hex object s' /\ exists published, r = Ok published /\
    (published = true -> published_as blake3_hex l (sent_of ops) s').
Proof.
  intros Hx Po I O E.
  assert (T : triple (Inv blake3_hex object) (upload blake3_hex config w l ops)
    (post (fun published s => Inv blake3_hex object s /\ (published = true -> published_as blake3_hex l (sent_of ops) s)) (fun _ _ => False))).
  { eapply triple_bind; [by apply start_triple|]. intros [u|]; [|by apply triple_ret].
    eapply triple_bind; [by apply (upload_ops_triple blake3_hex object w Po l ops [])|]. intros u'.
    eapply triple_bind; [by apply (complete_triple blake3_hex object w Hx Po l)|]. intros r'. by apply triple_ret. }
  specialize (T s r s' I E). destruct r as [published|]; [|done]. destruct T as [I' H]. split; [done|]. by exists published.
Qed.

End ObjectUploadSpec.

(** * An upload whose parts are written out of order *)

Import DiskCache DiskCacheSpec DiskCacheExamples ObjectCache ObjectCacheSpec CachedReads CachedReadsExamples ObjectUpload ObjectUploadSpec.

Module ObjectUploadExamples.

Definition demo_upload : list UploadOp :=
  [Send [10; 11; 12]; Send [13; 14; 15; 16]; RunPart 1; RunPart 0; Send [17; 18; 19]; RunPart 0].

Definition demo_start : Shared := with_config demo_uuid io_ok small_config true [].

Lemma demo_start_inv : Inv demo_hex demo_object demo_start.
Proof.
  apply with_config_inv; simpl; try lia; [apply NoDup_nil_2|]. intros name d H. by apply elem_of_nil in H.
Qed.

Lemma upload_publishes_whole_object_witness :
  exists r s', upload demo_hex small_config demo_world "b" demo_upload demo_start = (r, s') /\ r = Ok true /\
    published_as demo_hex "b" [10; 11; 12; 13; 14; 15; 16; 17; 18; 19] s'.
Proof.
  destruct (upload demo_hex small_config demo_world "b" demo_upload demo_start) as [r s'] eqn:E.
  assert (Hr : r = Ok true) by (apply (f_equal fst) in E; vm_compute in E; by rewrite <-E).
  exists r, s'. split; [reflexivity|]. split; [exact Hr|].
  destruct (upload_publishes_whole_object demo_hex demo_object small_config demo_world "b" demo_upload demo_start r s') as (_ & p & Hp & H).
  - intros l. unfold demo_hex. by destruct (String.eqb l "a").
  - exact demo_polite.
  - exact demo_start_inv.
  - reflexivity.
  - exact E.
  - apply H. rewrite Hr in Hp. by injection Hp as <-.
Defined.

(** A file the disk refuses to write is not published. *)
Example failed_write_unpublished :
  (upload demo_hex small_config
     (mkWorld (fun n => if Nat.eqb n 4 then mkIo never never never (fun _ => Some 1%nat) never never else io_ok) (fun _ c => c) (fun _ l => l)
        (fun n => pretty n) (fun n => Z.of_nat n) (fun _ => None))
     "b" demo_upload demo_start).1 = Ok false.
Proof. by vm_compute. Qed.

End ObjectUploadExamples.
