(* ===== verification/MetadataCache.v ===== *)
(** * The footer cache (crates/ukiel-query/src/metadata_cache.rs)

    A bounded map from object paths to parsed Parquet footers. A reader looks a
    path up, and stores what it had to parse itself; readers interleave between
    the two steps. The footers and the inner reader are parameters. *)

From S2P Require Import Prelude DiskCache DiskCacheSpec.
Import DiskCache DiskCacheSpec.

Module MetadataCache.

Definition DEFAULT_METADATA_CACHE_ENTRIES : Z := 10000.

(** [PageIndexPolicy], and a reader's options. *)
Inductive PageIndexPolicy := Skip | Optional | Required.
Record ArrowReaderOptions := mkReaderOptions { column_index_policy : PageIndexPolicy; offset_index_policy : PageIndexPolicy }.

Definition is_skip (p : PageIndexPolicy) : bool := match p with Skip => true | _ => false end.
Definition wants_index (options : option ArrowReaderOptions) : bool :=
  match options with Some o => negb (is_skip (column_index_policy o)) || negb (is_skip (offset_index_policy o)) | None => false end.

Section cache.
(** A parsed footer, and whether it carries a column or an offset index. *)
Context {Meta : Type} (column_index offset_index : Meta -> bool).

Record ParquetMetadataCache := mkMetadataCache {
  mc_capacity : Z;
  mc_entries : list (string * Meta);
  mc_hits : Z;
  mc_misses : Z;
}.

Definition new (capacity : Z) : ParquetMetadataCache :=
  mkMetadataCache (if capacity =? 0 then DEFAULT_METADATA_CACHE_ENTRIES else capacity) [] 0 0.

(** [fetch_add] on an [AtomicU64] wraps around. *)
Definition bump (n : Z) : Z := (n + 1) mod 2 ^ 64.

Definition get (path : string) (wants_page_index : bool) (c : ParquetMetadataCache) : option Meta * ParquetMetadataCache :=
  match peek path (mc_entries c) with
  | None => (None, mkMetadataCache (mc_capacity c) (mc_entries c) (mc_hits c) (bump (mc_misses c)))
  | Some meta =>
      let touched := put path meta (mc_entries c) in
      if negb wants_page_index || column_index meta || offset_index meta
      then (Some meta, mkMetadataCache (mc_capacity c) touched (bump (mc_hits c)) (mc_misses c))
      else (None, mkMetadataCache (mc_capacity c) touched (mc_hits c) (bump (mc_misses c)))
  end.

Definition put_meta (path : string) (meta : Meta) (c : ParquetMetadataCache) : ParquetMetadataCache :=
  let l := mc_entries c in
  let l := if bool_decide (is_Some (peek path l)) || (len l <? mc_capacity c) then put path meta l else put path meta (removelast l) in
  mkMetadataCache (mc_capacity c) l (mc_hits c) (mc_misses c).

Definition cached (c : ParquetMetadataCache) : Z := len (mc_entries c).
Definition is_empty (c : ParquetMetadataCache) : bool := cached c =? 0.

(** ** Readers

    [get_metadata] is a lookup, then -- on a miss -- the inner reader, awaited,
    and a store. A reader between the two has its path and options. *)
Context (inner : nat -> string -> option ArrowReaderOptions -> result Meta string).

Record Readers := mkReaders {
  r_cache : ParquetMetadataCache;
  r_fetching : list (string * option ArrowReaderOptions);
  r_served : list (string * option ArrowReaderOptions * result Meta string);
}.

Inductive ReaderOp :=
| Lookup (path : string) (options : option ArrowReaderOptions)
| Fetched (k : nat).

Definition reader_step (n : nat) (op : ReaderOp) (s : Readers) : Readers :=
  match op with
  | Lookup path options =>
      let '(hit, c) := get path (wants_index options) (r_cache s) in
      match hit with
      | Some meta => mkReaders c (r_fetching s) ((path, options, Ok meta) :: r_served s)
      | None => mkReaders c (r_fetching s ++ [(path, options)]) (r_served s)
      end
  | Fetched k =>
      match r_fetching s !! k with
      | None => s
      | Some (path, options) =>
          let r := inner n path options in
          mkReaders (match r with Ok meta => put_meta path meta (r_cache s) | Err _ => r_cache s end)
            (remove_nth k (r_fetching s)) ((path, options, r) :: r_served s)
      end
  end.

Fixpoint readers_run (n : nat) (ops : list ReaderOp) (s : Readers) : Readers :=
  match ops with [] => s | op :: ops => readers_run (S n) ops (reader_step n op s) end.

(** ** What readers are served *)

(** A footer the inner reader gave for the path. *)
Definition parsed (path : string) (meta : Meta) : Prop := exists n options, inner n path options = Ok meta.

Definition served_ok (served : string * option ArrowReaderOptions * result Meta string) : Prop :=
  let '(path, options, r) := served in
  match r with
  | Ok meta => parsed path meta /\ (wants_index options = true -> column_index meta = false -> offset_index meta = false ->
      exists n, inner n path options = Ok meta)
  | Err e => exists n, inner n path options = Err e
  end.

Record readers_ok (s : Readers) : Prop := {
  ro_names : NoDup (names (mc_entries (r_cache s)));
  ro_entries : forall path meta, peek path (mc_entries (r_cache s)) = Some meta -> parsed path meta;
  ro_bound : cached (r_cache s) <= mc_capacity (r_cache s);
  ro_served : Forall served_ok (r_served s);
}.

Lemma put_length {A} p (e : A) l : NoDup (names l) -> len (put p e l) = len l + (if bool_decide (is_Some (peek p l)) then 0 else 1).
Proof.
  unfold put, len. simpl. induction l as [|[q x] l IH]; intros Nd; [done|]. simpl in Nd. apply NoDup_cons in Nd as [Nq Nd]. simpl.
  destruct (String.eqb_spec q p) as [->|Ne]; simpl.
  - rewrite pop_absent by by apply peek_None. lia.
  - specialize (IH Nd). case_bool_decide; lia.
Qed.

Lemma put_names {A} p (e : A) l : NoDup (names l) -> NoDup (names (put p e l)).
Proof. intros Nd. unfold put. simpl. constructor; [by intros [_ ?]%pop_names|by apply pop_NoDup]. Qed.

Lemma removelast_names {A} (l : list (string * A)) : NoDup (names l) -> NoDup (names (removelast l)).
Proof.
  destruct l as [|x l] using rev_ind; [done|]. rewrite removelast_last. unfold names. rewrite List.map_app. by intros [? _]%NoDup_app.
Qed.

Lemma peek_put {A} p q (e : A) l x : peek q (put p e l) = Some x -> (q = p /\ x = e) \/ peek q l = Some x.
Proof.
  simpl. destruct (String.eqb_spec p q) as [->|Ne]; [intros [= ->]; by left|]. rewrite peek_pop.
  destruct (String.eqb q p); [done|]. by right.
Qed.

Lemma peek_sub_removelast {A} q (l : list (string * A)) x : peek q (removelast l) = Some x -> peek q l = Some x.
Proof. induction l as [|[p y] [|z l] IH]; [done|done|]. simpl in *. by destruct (String.eqb p q). Qed.

Lemma put_meta_ok path meta c : 0 < mc_capacity c -> NoDup (names (mc_entries c)) -> cached c <= mc_capacity c ->
  NoDup (names (mc_entries (put_meta path meta c))) /\ cached (put_meta path meta c) <= mc_capacity c /\
  (forall q m, peek q (mc_entries (put_meta path meta c)) = Some m -> (q = path /\ m = meta) \/ peek q (mc_entries c) = Some m).
Proof.
  unfold put_meta, cached. intros Cp Nd B. simpl. destruct (_ || _) eqn:F.
  - split_and!; [by apply put_names| |intros q m; apply peek_put]. rewrite put_length by done.
    apply orb_true_iff in F as [F|F]; [rewrite F; simpl; lia|]. apply Z.ltb_lt in F. case_bool_decide; lia.
  - apply orb_false_iff in F as [F1 F2]. split_and!; [by apply put_names, removelast_names| |].
    + rewrite put_length by by apply removelast_names. apply Z.ltb_ge in F2.
      assert (L : len (removelast (mc_entries c)) = len (mc_entries c) - 1).
      { unfold len in *. destruct (mc_entries c) as [|x l _] using rev_ind; [simpl in *; lia|]. rewrite removelast_last, length_app. simpl. lia. }
      clear F1. rewrite L. destruct (bool_decide _); lia.
    + intros q m [H|H]%peek_put; [by left|]. right. by apply peek_sub_removelast.
Qed.

Lemma reader_step_ok n op s : 0 < mc_capacity (r_cache s) -> readers_ok s ->
  readers_ok (reader_step n op s) /\ mc_capacity (r_cache (reader_step n op s)) = mc_capacity (r_cache s).
Proof.
  intros Cp [Nd En Bd Sv]. destruct op as [path options|k]; simpl.
  - unfold get. destruct (peek path (mc_entries (r_cache s))) as [meta|] eqn:P; [|split; [by split|done]].
    assert (Bp : len (put path meta (mc_entries (r_cache s))) = len (mc_entries (r_cache s))).
    { rewrite put_length by done. rewrite P. rewrite bool_decide_true by done. lia. }
    assert (Ep : forall q m, peek q (put path meta (mc_entries (r_cache s))) = Some m -> parsed q m).
    { intros q m [[-> ->]|H]%peek_put; by apply En. }
    destruct (_ || offset_index meta) eqn:W; (split; [|done]);
      (split; cbn [r_cache r_served mc_entries mc_capacity]; [by apply put_names|exact Ep|unfold cached; cbn [mc_entries]; by rewrite Bp|]); [|done].
    constructor; [|done]. split; [by apply En|]. intros Wi C O. by rewrite Wi, C, O in W.
  - destruct (r_fetching s !! k) as [[path options]|]; [|by split]. simpl. destruct (inner n path options) as [meta|e] eqn:I.
    + destruct (put_meta_ok path meta (r_cache s) Cp Nd Bd) as (N' & B' & E'). split; [|done]. split; simpl; try done.
      * intros q m [[-> ->]|H]%E'; [by exists n, options|by apply En].
      * constructor; [|done]. split; [by exists n, options|]. intros _ _ _. by exists n.
    + split; [|done]. split; simpl; try done. constructor; [|done]. by exists n.
Qed.

Lemma readers_run_ok ops : forall n s, 0 < mc_capacity (r_cache s) -> readers_ok s ->
  readers_ok (readers_run n ops s) /\ mc_capacity (r_cache (readers_run n ops s)) = mc_capacity (r_cache s).
Proof.
  induction ops as [|op ops IH]; intros n s Cp H; [by split|]. simpl. destruct (reader_step_ok n op s Cp H) as [H1 C1].
  destruct (IH (S n) (reader_step n op s) ltac:(lia) H1) as [H2 C2]. split; [done|]. lia.
Qed.

(** However readers interleave, each is served a footer the inner reader
    parsed for its path -- from the cache only with a page index when it wants
    one -- or its own inner reader's error, and the cache never holds more
    footers than its capacity. *)
Theorem footers_served_are_parsed capacity ops :
  0 <= capacity ->
  let s := readers_run 0 ops (mkReaders (new capacity) [] []) in
  Forall served_ok (r_served s) /\ cached (r_cache s) <= (if capacity =? 0 then DEFAULT_METADATA_CACHE_ENTRIES else capacity).
Proof.
  intros Cp s. destruct (readers_run_ok ops 0 (mkReaders (new capacity) [] [])) as [[_ _ B Sv] C].
  - simpl. destruct (capacity =? 0) eqn:E; [done|]. lia.
  - split; simpl; [apply NoDup_nil_2|done| |constructor]. unfold cached, len. simpl. destruct (capacity =? 0); [done|]. lia.
  - fold s in B, Sv, C. split; [done|]. rewrite C in B. exact B.
Qed.

End cache.

(** A footer is what the options asked for: its file has an index. *)
Definition demo_inner (n : nat) (path : string) (options : option ArrowReaderOptions) : result bool string :=
  if String.eqb path "gone" then Err "not found"%string else Ok (wants_index options).
Definition with_index : option ArrowReaderOptions := Some (mkReaderOptions Optional Skip).

Lemma footers_served_are_parsed_witness :
  let s := readers_run (fun b => b) (fun b => b) demo_inner 0
             [Lookup "a" None; Fetched 0; Lookup "a" with_index; Fetched 0; Lookup "a" None; Lookup "b" None; Fetched 0; Lookup "gone" None; Fetched 0]
             (mkReaders (new 1) [] []) in
  Forall (served_ok (fun b => b) (fun b => b) demo_inner) (r_served s) /\ cached (r_cache s) <= 1 /\
  List.map (fun x => x.2) (r_served s) = [Err "not found"; Ok false; Ok true; Ok true; Ok false]%string.
Proof.
  intros s. destruct (footers_served_are_parsed (fun b : bool => b) (fun b => b) demo_inner 1
    [Lookup "a" None; Fetched 0; Lookup "a" with_index; Fetched 0; Lookup "a" None; Lookup "b" None; Fetched 0; Lookup "gone" None; Fetched 0]
    ltac:(lia)) as [A B].
  split; [exact A|]. split; [exact B|]. by vm_compute.
Defined.

(** Two readers that miss at once: the one without an index stores last, and the
    richer footer of the other is replaced by its own. *)
Example replacement_can_trim :
  mc_entries (r_cache (readers_run (fun b => b) (fun b => b) demo_inner 0
    [Lookup "a" None; Lookup "a" with_index; Fetched 1; Fetched 0] (mkReaders (new 4) [] []))) = [("a"%string, false)].
Proof. by vm_compute. Qed.

End MetadataCache.
