(* ===== verification/Collector.v ===== *)
(** * The metrics collector (crates/ukield/src/collector.rs)

    The gauges a process sets every tick, family by family, and what those of the
    compactor say about its sweeps. A gauge is set to an integer, an age in
    microseconds or a ratio of blocks; what every call of a family comes to -- the
    tables a statement reads, or its error -- is an input. Kafka's watermarks and
    the file system's figures are inputs too. *)

From S2P Require Import Prelude Json Types CatalogError CatalogDb Commit CommitSpec Feed Leases CatalogGc Tables Parts CompactorPlan CommitExamples.
Import CatalogError CatalogDb Commit CommitSpec CommitTheorems Feed CatalogGc Parts.

Module Collector.

Inductive GaugeValue :=
| Number (n : Z)
| Age (micros : Z)
| Ratio (available total : Z).

Definition Gauge : Type := string * list (string * string).
Definition Gauges : Type := gmap Gauge GaugeValue.

Record Collector := mkCollector {
  cache_walk_every : Z;
  co_l0_fanout : Z;
  co_fanout : Z;
  co_finalize_after : Z;   (* microseconds *)
  co_cache_dir : string;
  routes : list (string * string);
  kafka : bool;
}.

(** What a call to the catalog reads, or its error. *)
Definition Read : Type := result Tables CatalogError.

Inductive FamilyError :=
| CatalogFamily (e : CatalogError)
| IoFamily (e : string)
| KafkaFamily (e : string).

(** A family sets gauges as it goes and may stop at an error. *)
Definition Family : Type := Gauges -> result unit FamilyError * Gauges.

Definition done_with (g : Gauges) : result unit FamilyError * Gauges := (Ok tt, g).

(** [let x = catalog.f().await?]. *)
Definition ask {A} (r : Read) (f : Tables -> result A CatalogError) (k : A -> Family) : Family := fun g =>
  match (let? t := r in f t) with
  | Ok a => k a g
  | Err e => (Err (CatalogFamily e), g)
  end.

Definition set (name : string) (labels : list (string * string)) (v : GaugeValue) (k : Family) : Family :=
  fun g => k (<[(name, labels) := v]> g).

(** The body of a [for] that only sets gauges. *)
Definition set_all {A} (f : A -> Gauge * GaugeValue) (l : list A) (k : Family) : Family :=
  fun g => k (List.fold_left (fun g a => let '(n, v) := f a in <[n := v]> g) l g).

Section collector.
Context `{Jsonb}.
Context (c : Collector).

(** [HypertableId]'s [Display] is its number. *)
Definition name_of (hs : list Hypertable) (ht : HypertableId) : string :=
  match (list_to_map (List.map (fun h => (ht_id h, ht_name h)) (rev hs)) : gmap Z string) !! ht with
  | Some name => name
  | None => pretty ht
  end.

Record PoolStats := mkPoolStats { pool_size : Z; pool_idle : Z }.

Definition catalog_family (r1 r2 r3 : Read) (pool : PoolStats) : Family :=
  ask r1 (fun t => Ok (Registry.list_hypertables t)) (fun hs =>
  ask r2 (fun t => Ok (live_part_counts t)) (fun counts =>
  set_all (fun '(ht, level, n) => (("catalog_live_parts", [("hypertable", name_of hs ht); ("level", pretty level)])%string, Number n)) counts (
  ask r3 (fun t => Ok (feed_lags t)) (fun lags =>
  set_all (fun '(worker, ht, lag) => (("catalog_feed_lag", [("worker", worker); ("hypertable", name_of hs ht)])%string, Number lag)) lags (
  set "catalog_pool_connections" [("state", "size")]%string (Number (pool_size pool)) (
  set "catalog_pool_connections" [("state", "idle")]%string (Number (pool_idle pool)) done_with)))))).

Definition compactor_family (r1 r2 r3 : Read) (now clock : Z) : Family :=
  ask r1 (fun t => Ok (backlog_groups t (co_l0_fanout c) (co_fanout c))) (fun backlog =>
  set "compactor_backlog_groups" [] (Number backlog) (
  ask r2 (fun t => Ok (unfinalized_partitions t now (co_finalize_after c))) (fun '(unfinalized, oldest) =>
  set "compactor_unfinalized_partitions" [] (Number unfinalized) (
  set "compactor_oldest_unfinalized_age_seconds" [] (Age oldest) (
  ask r3 (fun t => Ok (Leases.compaction_lease_stats clock t)) (fun '(active, oldest_expired) =>
  set "catalog_compaction_leases_active" [] (Number active) (
  set "catalog_compaction_lease_oldest_expired_age_seconds" [] (Age oldest_expired) done_with))))))).

Definition gc_family (r : Read) (now : Z) : Family :=
  ask r (fun t => Ok (gc_backlogs t now)) (fun b =>
  set "catalog_pending_objects" [] (Number (pending b)) (
  set "gc_pending_object_age_seconds" [] (Age (pending_oldest b)) (
  set "catalog_unpurged_tombstones" [] (Number (unpurged_tombstones b)) (
  set "gc_reap_fence_age_seconds" [] (Age (oldest_tombstone b)) done_with)))).

(** The tree under the cache's directory, as [read_dir] and [metadata] show it. *)
Inductive Entry := Dir (entries : list Entry) | File (bytes : Z) | Other.

Fixpoint entry_bytes (e : Entry) : Z :=
  match e with
  | Dir entries => (fix sum l := match l with [] => 0 | e :: l => entry_bytes e + sum l end) entries
  | File bytes => bytes
  | Other => 0
  end.

(** The directories of a tree, itself included. *)
Fixpoint dir_count (e : Entry) : nat :=
  match e with
  | Dir entries => S ((fix sum l := match l with [] => 0%nat | e :: l => (dir_count e + sum l)%nat end) entries)
  | _ => O
  end.

(** The loop over the stack of directories; [n] bounds its turns. *)
Fixpoint walk (n : nat) (stack : list (list Entry)) (total : Z) : option Z :=
  match stack with
  | [] => Some total
  | d :: stack =>
      match n with
      | O => None
      | S n =>
          let dirs := omap (fun e => match e with Dir l => Some l | _ => None end) d in
          let files := omap (fun e => match e with File b => Some b | _ => None end) d in
          walk n (rev dirs ++ stack) (total + List.fold_right Z.add 0 files)
      end
  end.

(** A directory that is not there holds nothing. *)
Definition dir_bytes (tree : option Entry) : option Z :=
  match tree with
  | Some (Dir entries) => walk (dir_count (Dir entries)) [entries] 0
  | _ => Some 0
  end.

Definition cache_family (n : Z) (free : result (Z * Z) string) (tree : result (option Entry) string) : Family := fun g =>
  if String.eqb (co_cache_dir c) EmptyString then done_with g
  else
    match free with
    | Err e => (Err (IoFamily e), g)
    | Ok (available, total) =>
        let g := <[("ukield_cache_dir_free_ratio", [])%string := if total =? 0 then Ratio 0 1 else Ratio available total]> g in
        if (0 <? cache_walk_every c) && (n mod cache_walk_every c =? 0) then
          match tree with
          | Err e => (Err (IoFamily e), g)
          | Ok tree => done_with (<[("ukield_cache_dir_bytes", [])%string := Number (default 0 (dir_bytes tree))]> g)
          end
        else done_with g
    end.

(** One topic: the tables read twice, and the high watermark of each partition. *)
Record TopicAnswers := mkTopicAnswers { ta_table : Read; ta_offsets : Read; ta_highs : result (list (Z * Z)) string }.

Fixpoint kafka_family (rs : list (string * string)) (answers : nat -> TopicAnswers) (i : nat) : Family :=
  match rs with
  | [] => done_with
  | (topic, ht_name) :: rs =>
      ask (ta_table (answers i)) (Registry.get_hypertable ht_name) (fun h =>
      ask (ta_offsets (answers i)) (fun t => Ok (ingest_offsets_of t (ht_id h) topic)) (fun offsets g =>
      match ta_highs (answers i) with
      | Err e => (Err (KafkaFamily e), g)
      | Ok highs =>
          set_all (fun '(partition, high) =>
            (("ingest_consumer_lag", [("topic", topic); ("partition", pretty partition)])%string,
             Number (Z.max (high - default 0 (offsets !! partition)) 0))) highs (kafka_family rs answers (S i)) g
      end))
  end.

(** [run_families]: an error is counted and goes no further. *)
Record Metrics := mkMetrics { gauges : Gauges; collector_errors : gmap string Z }.

Fixpoint run_families (families : list (string * Family)) (m : Metrics) : Metrics :=
  match families with
  | [] => m
  | (name, family) :: families =>
      let '(r, g) := family (gauges m) in
      let errors := match r with
        | Ok _ => collector_errors m
        | Err _ => <[name := default 0 (collector_errors m !! name) + 1]> (collector_errors m)
        end in
      run_families families (mkMetrics g errors)
  end.

(** What the calls of one tick come to. *)
Record TickAnswers := mkTickAnswers {
  tk_catalog : Read * Read * Read;
  tk_pool : PoolStats;
  tk_compactor : Read * Read * Read;
  tk_now : Z;
  tk_clock : Z;
  tk_gc : Read;
  tk_free : result (Z * Z) string;
  tk_tree : result (option Entry) string;
  tk_topics : nat -> TopicAnswers;
}.

Definition families (n : Z) (a : TickAnswers) : list (string * Family) :=
  let '(a1, a2, a3) := tk_catalog a in
  let '(c1, c2, c3) := tk_compactor a in
  [("catalog", catalog_family a1 a2 a3 (tk_pool a));
   ("compactor", compactor_family c1 c2 c3 (tk_now a) (tk_clock a));
   ("gc", gc_family (tk_gc a) (tk_now a));
   ("cache", cache_family n (tk_free a) (tk_tree a))]%string
  ++ (if kafka c then [("consumer_lag"%string, kafka_family (routes c) (tk_topics a) 0)] else []).

Definition tick (n : Z) (a : TickAnswers) (m : Metrics) : Metrics := run_families (families n a) m.

(** The ticks up to the cancellation; [n] wraps at 64 bits. *)
Fixpoint run (ticks : list TickAnswers) (n : Z) (m : Metrics) : Metrics :=
  match ticks with
  | [] => m
  | a :: ticks => run ticks ((n + 1) mod 2 ^ 64) (tick n a m)
  end.
End collector.

End Collector.

(** * What the gauges say *)

Module CollectorSpec.
Import Collector CommitExamples.

Definition zsum (l : list Z) : Z := List.fold_right Z.add 0 l.

Lemma len_flat_map {A B} (f : A -> list B) l : len (List.flat_map f l) = zsum (List.map (fun x => len (f x)) l).
Proof. induction l as [|x l IH]; [done|]. simpl. by rewrite len_app, IH. Qed.

Lemma filter_flat_map {A B} (p : B -> bool) (f : A -> list B) l :
  List.filter p (List.flat_map f l) = List.flat_map (fun x => List.filter p (f x)) l.
Proof. induction l as [|x l IH]; [done|]. simpl. by rewrite List.filter_app, IH. Qed.

Lemma zsum_le {A} (f g : A -> Z) l : (forall x, f x <= g x) -> zsum (List.map f l) <= zsum (List.map g l).
Proof. intros F. induction l as [|x l IH]; simpl; [lia|]. specialize (F x). lia. Qed.

Lemma zsum_nonneg {A} (f : A -> Z) l : (forall x, 0 <= f x) -> 0 <= zsum (List.map f l).
Proof. intros F. induction l as [|x l IH]; simpl; [lia|]. specialize (F x). lia. Qed.

Lemma zsum_0 {A} (f : A -> Z) l : (forall x, 0 <= f x) -> zsum (List.map f l) = 0 <-> forall x, x ∈ l -> f x = 0.
Proof.
  intros F. induction l as [|x l IH]; simpl.
  - split; [intros _ x Hx; by apply elem_of_nil in Hx|done].
  - pose proof (zsum_nonneg f l F). specialize (F x) as Fx. split.
    + intros E y [->|Hy]%elem_of_cons; [lia|]. apply IH; [lia|done].
    + intros E. rewrite (E x) by left. apply IH. intros y Hy. apply E. by right.
Qed.

(** A filter counts at most what it has witnesses for. *)
Lemma filter_le_sum {A} (q : A -> bool) (f : A -> Z) l : (forall x, 0 <= f x) -> (forall x, q x = true -> 1 <= f x) ->
  len (List.filter q l) <= zsum (List.map f l).
Proof.
  intros N W. induction l as [|x l IH]; simpl; [by rewrite len_nil|]. specialize (N x). specialize (W x).
  destruct (q x); rewrite ?len_cons; [specialize (W eq_refl)|]; lia.
Qed.

(** The groups of a key hold every element once. *)
Lemma groups_cover {A} (f : A -> Z) (l : list A) :
  zsum (List.map (fun k => len (List.filter (fun x => f x =? k) l)) (remove_dups (List.map f l))) = len l.
Proof.
  assert (G : forall ks l, NoDup ks -> (forall x, x ∈ l -> f x ∈ ks) -> zsum (List.map (fun k => len (List.filter (fun x => f x =? k) l)) ks) = len l).
  { clear l. intros ks. induction ks as [|k ks IH]; intros l N C.
    - destruct l as [|x l]; [done|]. specialize (C x ltac:(left)). by apply elem_of_nil in C.
    - apply NoDup_cons in N as [N1 N2]. simpl.
      assert (E : zsum (List.map (fun k => len (List.filter (fun x => f x =? k) l)) ks) = len (List.filter (fun x => negb (f x =? k)) l)).
      { rewrite <-(IH (List.filter (fun x => negb (f x =? k)) l)); [|done|].
        - f_equal. apply List.map_ext_in. intros k' Hk'%list_elem_of_In. f_equal.
          induction l as [|x l IHl]; [done|]. simpl. assert (Cl : forall y, y ∈ l -> f y ∈ k :: ks) by (intros y Hy; apply C; by right).
          specialize (IHl Cl). destruct (Z.eqb_spec (f x) k) as [Ek|Nk]; simpl.
          + destruct (Z.eqb_spec (f x) k') as [Ek'|]; [|done]. subst. by destruct N1.
          + destruct (f x =? k'); [by f_equal|done].
        - intros x [Hx Nx]%filter_In_iff. apply C in Hx as [E|?]%elem_of_cons; [|done]. rewrite E, Z.eqb_refl in Nx. done. }
      rewrite E. clear. induction l as [|x l IH]; [done|]. simpl. destruct (f x =? k); simpl; rewrite ?len_cons; lia. }
  apply G; [apply NoDup_remove_dups|]. intros x Hx. apply elem_of_remove_dups, list_elem_of_In, List.in_map. by apply list_elem_of_In.
Qed.

(** ** The gauges of the sweeps *)

Section gauges.
Context `{Jsonb}.
Context (t : Tables).

Lemma levels_In rs l : l ∈ live_levels rs <-> exists r, r ∈ rs /\ level (pr_meta r) = l.
Proof.
  unfold live_levels. rewrite elem_of_remove_dups, list_elem_of_In, List.in_map_iff. split; intros (r & A & B); exists r; rewrite list_elem_of_In in *; tauto.
Qed.

Lemma other_hypertables ht : ht ∉ live_hypertables t -> live_partitions t ht = [].
Proof.
  intros N. unfold live_partitions. replace (List.filter (live_in ht) (parts t)) with (@nil PartRow); [done|]. symmetry.
  destruct (List.filter (live_in ht) (parts t)) as [|r rs] eqn:E; [done|]. destruct N.
  assert (I : r ∈ List.filter (live_in ht) (parts t)) by (rewrite E; left). apply filter_In_iff in I as [I L]. unfold live_in in L. boolp.
  unfold live_hypertables. rewrite elem_of_remove_dups, list_elem_of_In, List.in_map_iff. exists r. split; [done|].
  by apply list_elem_of_In, filter_In_iff.
Qed.

Definition partition_backlog (l0_fanout fanout : Z) (ht : HypertableId) (p : json) : Z :=
  let rs := List.filter (fun r => live_in ht r && in_partition p r) (parts t) in
  len (List.filter (fun lvl => trigger l0_fanout fanout lvl <=? runs (List.filter (fun r => level (pr_meta r) =? lvl) rs)) (live_levels rs)).

Lemma backlog_sum l0_fanout fanout : backlog_groups t l0_fanout fanout =
  zsum (List.map (fun ht => zsum (List.map (partition_backlog l0_fanout fanout ht) (live_partitions t ht))) (live_hypertables t)).
Proof.
  unfold backlog_groups, run_groups. rewrite filter_flat_map, len_flat_map. f_equal. apply List.map_ext. intros ht.
  rewrite filter_flat_map, len_flat_map. f_equal. apply List.map_ext. intros p. unfold partition_backlog.
  induction (live_levels _) as [|lvl lvls IH]; [done|]. simpl. destruct (_ <=? _); rewrite ?len_cons; by rewrite IH.
Qed.

Definition at_trigger (l0_fanout fanout : Z) (ht : HypertableId) (p : json) : bool :=
  let rs := List.filter (fun r => live_in ht r && in_partition p r) (parts t) in
  List.existsb (fun lvl => trigger l0_fanout fanout lvl <=? runs (List.filter (fun r => level (pr_meta r) =? lvl) rs))
    (List.map (fun r => level (pr_meta r)) rs).

Lemma ladder_eligible_filter l0_fanout fanout ht : ladder_eligible t ht l0_fanout fanout = List.filter (at_trigger l0_fanout fanout ht) (live_partitions t ht).
Proof. reflexivity. Qed.

Lemma at_trigger_backlog l0_fanout fanout ht p : at_trigger l0_fanout fanout ht p = true <-> 1 <= partition_backlog l0_fanout fanout ht p.
Proof.
  unfold at_trigger, partition_backlog. set (rs := List.filter _ (parts t)). set (hit := fun lvl => _ <=? _). cbv zeta. rewrite List.existsb_exists. split.
  - intros (l & Hl & Tl). assert (I : l ∈ List.filter hit (live_levels rs)).
    { apply filter_In_iff. split; [|done]. apply levels_In. apply List.in_map_iff in Hl as (r & <- & Hr). exists r. by rewrite list_elem_of_In. }
    destruct (List.filter hit _); [by apply elem_of_nil in I|]. rewrite len_cons. pose proof (len_nonneg l0). lia.
  - destruct (List.filter hit (live_levels rs)) as [|l ls] eqn:E; [rewrite len_nil; lia|]. intros _.
    assert (I : l ∈ List.filter hit (live_levels rs)) by (rewrite E; left). apply filter_In_iff in I as [(r & Hr & <-)%levels_In T].
    exists (level (pr_meta r)). split; [|done]. apply List.in_map_iff. exists r. by rewrite <-list_elem_of_In.
Qed.

Lemma partition_backlog_eligible l0_fanout fanout ht p : p ∈ live_partitions t ht ->
  p ∈ ladder_eligible t ht l0_fanout fanout <-> 1 <= partition_backlog l0_fanout fanout ht p.
Proof. intros P. rewrite ladder_eligible_filter, filter_In_iff, at_trigger_backlog. tauto. Qed.

Lemma partition_backlog_nonneg l0_fanout fanout ht p : 0 <= partition_backlog l0_fanout fanout ht p.
Proof. apply len_nonneg. Qed.

(** The backlog is zero exactly when the ladder's sweep finds no partition. *)
Lemma backlog_zero l0_fanout fanout : backlog_groups t l0_fanout fanout = 0 <-> forall ht, ladder_eligible t ht l0_fanout fanout = [].
Proof.
  rewrite backlog_sum, zsum_0 by (intros ht; apply zsum_nonneg; intros p; apply partition_backlog_nonneg).
  assert (P : forall ht, zsum (List.map (partition_backlog l0_fanout fanout ht) (live_partitions t ht)) = 0 <-> ladder_eligible t ht l0_fanout fanout = []).
  { intros ht. rewrite zsum_0 by apply partition_backlog_nonneg. split.
    - intros Z0. destruct (ladder_eligible t ht l0_fanout fanout) as [|p ps] eqn:E; [done|]. exfalso.
      assert (I : p ∈ ladder_eligible t ht l0_fanout fanout) by (rewrite E; left). pose proof I as [L _]%filter_In_iff.
      apply partition_backlog_eligible in I; [|done]. rewrite Z0 in I by done. lia.
    - intros E p Hp. pose proof (partition_backlog_nonneg l0_fanout fanout ht p). destruct (Z.eq_dec (partition_backlog l0_fanout fanout ht p) 0) as [|N]; [done|].
      exfalso. assert (I : p ∈ ladder_eligible t ht l0_fanout fanout) by (apply partition_backlog_eligible; [done|lia]). rewrite E in I. by apply elem_of_nil in I. }
  split; intros A ht.
  - destruct (decide (ht ∈ live_hypertables t)) as [I|N]; [by apply P, A|]. unfold ladder_eligible. by rewrite other_hypertables.
  - intros _. by apply P.
Qed.

Lemma quiet_agrees ht p now quiet : is_quiet now quiet (max_id (l0_arrivals t ht p)) = negb (List.existsb (fun a => now - quiet <=? a) (l0_arrivals t ht p)).
Proof.
  destruct (max_id _) as [m|] eqn:M; simpl.
  - apply max_id_spec in M as [I M]. symmetry. destruct (Z.ltb_spec m (now - quiet)) as [L|L].
    + apply negb_true_iff, not_true_iff_false. intros (a & Ha%list_elem_of_In & La)%List.existsb_exists. boolp. specialize (M a Ha). lia.
    + apply negb_false_iff, List.existsb_exists. exists m. split; [by apply list_elem_of_In|]. by apply Z.leb_le.
  - destruct (l0_arrivals t ht p); done.
Qed.

(** The unfinalized partitions are those the finalization sweep would take. *)
Lemma unfinalized_count now quiet : (unfinalized_partitions t now quiet).1 =
  zsum (List.map (fun ht => len (finalize_eligible t ht now quiet)) (live_hypertables t)).
Proof.
  unfold unfinalized_partitions, unfinalized_rows. simpl. rewrite filter_flat_map, len_flat_map. f_equal. apply List.map_ext. intros ht.
  unfold finalize_eligible. induction (live_partitions t ht) as [|p ps IH]; [done|]. simpl. destruct (2 <=? _); simpl; [|done].
  rewrite quiet_agrees. destruct (negb _); simpl; rewrite ?len_cons; by rewrite IH.
Qed.

Lemma counts_cover : zsum (List.map snd (live_part_counts t)) = len (List.filter is_live (parts t)).
Proof.
  unfold live_part_counts, live_hypertables. set (live := List.filter is_live (parts t)).
  rewrite <-(groups_cover pr_hypertable live). 
  assert (S : forall (f : Z -> list (Z * Z * Z)) l, zsum (List.map snd (List.flat_map f l)) = zsum (List.map (fun x => zsum (List.map snd (f x))) l)).
  { clear. intros f l. induction l as [|x l IH]; [done|]. simpl. rewrite List.map_app. unfold zsum in *. rewrite List.fold_right_app, IH.
    clear. induction (List.map snd (f x)) as [|y ys IH]; simpl; [lia|]. rewrite IH. lia. }
  rewrite S. f_equal. apply List.map_ext. intros ht. rewrite List.map_map. simpl.
  replace (List.filter (live_in ht) (parts t)) with (List.filter (fun r => pr_hypertable r =? ht) live); [apply (groups_cover (fun r => level (pr_meta r)))|].
  unfold live, live_in. induction (parts t) as [|r rs IH]; [done|]. simpl. destruct (is_live r); simpl; rewrite ?andb_true_r, ?andb_false_r; [|done].
  by destruct (pr_hypertable r =? ht); rewrite IH.
Qed.
End gauges.

(** ** Families do not touch each other's gauges *)

(** A family that leaves the gauges of name [x] alone. *)
Definition spares (x : string) (f : Family) : Prop := forall g labels, (f g).2 !! (x, labels) = g !! (x, labels).

Lemma spares_done x : spares x done_with.
Proof. done. Qed.

Lemma spares_ask {A} x r (f : Tables -> result A CatalogError) k : (forall a, spares x (k a)) -> spares x (ask r f k).
Proof. intros K g labels. unfold ask. destruct (let? t := r in f t); [apply K|done]. Qed.

Lemma spares_set x name labels v k : name <> x -> spares x k -> spares x (set name labels v k).
Proof. intros N K g l. unfold set. rewrite K. apply lookup_insert_ne. congruence. Qed.

Lemma spares_set_all {A} x (f : A -> Gauge * GaugeValue) l k : (forall a, (f a).1.1 <> x) -> spares x k -> spares x (set_all f l k).
Proof.
  intros N K g labels. unfold set_all. rewrite K. clear k K. revert g. induction l as [|a l IH]; intros g; [done|]. simpl. rewrite IH.
  specialize (N a). destruct (f a) as [n v]. apply lookup_insert_ne. intros ->. done.
Qed.
#[local] Hint Resolve spares_done : core.

Ltac spare := repeat first [apply spares_done | apply spares_ask; intros | apply spares_set; [done|]
  | apply spares_set_all; [by intros [[? ?] ?] || by intros [? ?]|] | case_match].

Section tick.
Context `{Jsonb}.
Context (c : Collector).

Definition compactor_gauges : list string :=
  ["compactor_backlog_groups"; "compactor_unfinalized_partitions"; "compactor_oldest_unfinalized_age_seconds"]%string.

Lemma spares_cache x n free tree : x ∈ compactor_gauges -> spares x (cache_family c n free tree).
Proof.
  intros X g labels. assert (N : (x <> "ukield_cache_dir_free_ratio" /\ x <> "ukield_cache_dir_bytes")%string).
  { unfold compactor_gauges in X. set_unfold. naive_solver. }
  assert (L : forall name v (g : Gauges), name <> x -> <[(name, []) := v]> g !! (x, labels) = g !! (x, labels)) by (intros; apply lookup_insert_ne; congruence).
  unfold cache_family, done_with. destruct N as [N1 N2]. repeat case_match; simpl; rewrite ?L by congruence; done.
Qed.

Lemma spares_kafka x answers rs : forall i, x ∈ compactor_gauges -> spares x (kafka_family rs answers i).
Proof.
  induction rs as [|[topic ht_name] rs IH]; intros i X; [apply spares_done|]. cbn [kafka_family]. apply spares_ask. intros h. apply spares_ask. intros offsets g labels.
  destruct (ta_highs (answers i)) as [highs|]; [|done].
  apply (spares_set_all x (fun '(partition, high) => (("ingest_consumer_lag", [("topic", topic); ("partition", pretty partition)])%string,
    Number (Z.max (high - default 0 (offsets !! partition)) 0))) highs (kafka_family rs answers (S i))); [|by apply IH].
  intros [p high]. simpl. unfold compactor_gauges in X. set_unfold. naive_solver.
Qed.

Lemma spares_catalog x r1 r2 r3 pool : x ∈ compactor_gauges -> spares x (catalog_family r1 r2 r3 pool).
Proof.
  intros X. assert (N : (x <> "catalog_live_parts" /\ x <> "catalog_feed_lag" /\ x <> "catalog_pool_connections")%string).
  { unfold compactor_gauges in X. set_unfold. naive_solver. }
  destruct N as (N1 & N2 & N3). unfold catalog_family. apply spares_ask. intros hs. apply spares_ask. intros counts.
  apply spares_set_all; [intros [[? ?] ?]; by apply not_eq_sym|]. apply spares_ask. intros lags.
  apply spares_set_all; [intros [[? ?] ?]; by apply not_eq_sym|]. by repeat (apply spares_set; [by apply not_eq_sym|]).
Qed.

Lemma spares_gc x r now : x ∈ compactor_gauges -> spares x (gc_family r now).
Proof.
  intros X. unfold gc_family. apply spares_ask. intros b. unfold compactor_gauges in X. 
  repeat (apply spares_set; [intros <-; set_unfold; naive_solver|]). done.
Qed.

Lemma run_families_spares x fs : forall m labels, Forall (fun f => spares x f.2) fs -> gauges (run_families fs m) !! (x, labels) = gauges m !! (x, labels).
Proof.
  induction fs as [|[name f] fs IH]; intros m labels F; [done|]. inversion F as [|? ? F1 F2]; subst. simpl in *. specialize (F1 (gauges m) labels).
  destruct (f (gauges m)) as [r g]. by rewrite IH.
Qed.

Lemma run_families_app fs gs m : run_families (fs ++ gs) m = run_families gs (run_families fs m).
Proof. revert m. induction fs as [|[name f] fs IH]; intros m; [done|]. simpl. destruct (f (gauges m)). apply IH. Qed.

(** Errors are counted by family. *)
Lemma run_families_errors name fs : forall m, name ∉ List.map fst fs -> collector_errors (run_families fs m) !! name = collector_errors m !! name.
Proof.
  induction fs as [|[n f] fs IH]; intros m N; [done|]. simpl in *. apply not_elem_of_cons in N as [N1 N2]. destruct (f (gauges m)) as [[] g]; rewrite IH by done; simpl; [done|].
  by rewrite lookup_insert_ne.
Qed.

Definition failed {A E} (r : result A E) : Z := match r with Ok _ => 0 | Err _ => 1 end.

(** whatever every other family of a tick comes to, the gauges of the compactor
    report the sweeps of the catalog they were read from: no backlog exactly when
    the ladder's sweep finds nothing to merge in any hypertable, at least a group
    for every partition it would offer, and as many unfinalized partitions as the
    finalization sweep would take. The family counts one error when a call of its
    own failed, and none otherwise. *)
Theorem collector_reports_the_sweeps n a m t1 t2 r3 :
  tk_compactor a = (Ok t1, Ok t2, r3) ->
  let m' := tick c n a m in
  exists backlog unfinalized,
    gauges m' !! ("compactor_backlog_groups"%string, []) = Some (Number backlog) /\
    gauges m' !! ("compactor_unfinalized_partitions"%string, []) = Some (Number unfinalized) /\
    (backlog = 0 <-> forall ht, ladder_eligible t1 ht (co_l0_fanout c) (co_fanout c) = []) /\
    zsum (List.map (fun ht => len (ladder_eligible t1 ht (co_l0_fanout c) (co_fanout c))) (live_hypertables t1)) <= backlog /\
    unfinalized = zsum (List.map (fun ht => len (finalize_eligible t2 ht (tk_now a) (co_finalize_after c))) (live_hypertables t2)) /\
    default 0 (collector_errors m' !! "compactor"%string) = default 0 (collector_errors m !! "compactor"%string) + failed r3.
Proof.
  intros E m'. exists (backlog_groups t1 (co_l0_fanout c) (co_fanout c)), (unfinalized_partitions t2 (tk_now a) (co_finalize_after c)).1.
  unfold m', tick, families. destruct (tk_catalog a) as [[a1 a2] a3]. rewrite E. cbn [app]. cbv zeta.
  set (rest := ("gc"%string, _) :: _). cbn [run_families].
  destruct (catalog_family a1 a2 a3 (tk_pool a) (gauges m)) as [r0 g0]. cbn [gauges collector_errors].
  assert (Sp : forall x, x ∈ compactor_gauges -> Forall (fun f => spares x f.2) rest).
  { intros x X. unfold rest. constructor; [by apply spares_gc|]. constructor; [by apply spares_cache|].
    destruct (kafka c); [|constructor]. constructor; [by apply spares_kafka|constructor]. }
  assert (Nm : "compactor"%string ∉ List.map fst rest) by (unfold rest; destruct (kafka c); simpl; set_solver).
  destruct (compactor_family c (Ok t1) (Ok t2) r3 (tk_now a) (tk_clock a) g0) as [r g] eqn:F.
  assert (W : g !! ("compactor_backlog_groups"%string, []) = Some (Number (backlog_groups t1 (co_l0_fanout c) (co_fanout c))) /\
    g !! ("compactor_unfinalized_partitions"%string, []) = Some (Number (unfinalized_partitions t2 (tk_now a) (co_finalize_after c)).1) /\
    failed r = failed r3).
  { assert (L : forall x y v (g : Gauges), x <> y -> <[(x, []) := v]> g !! (y, []) = g !! (y, [])) by (intros; apply lookup_insert_ne; congruence).
    unfold compactor_family, ask in F. cbn [rbind] in F. destruct (unfinalized_partitions _ _ _) as [u o]. unfold set in F.
    destruct r3 as [t3|e]; cbn [rbind] in F; [destruct (Leases.compaction_lease_stats _ _) as [x y]; unfold set in F|]; injection F as <- <-;
      (split_and!; [rewrite ?L by discriminate; apply lookup_insert_eq|rewrite ?L by discriminate; apply lookup_insert_eq|done]). }
  destruct W as (W1 & W2 & W3). rewrite !run_families_spares by (apply Sp; unfold compactor_gauges; set_solver). rewrite run_families_errors by done. cbn [gauges collector_errors].
  split_and!; [exact W1|exact W2|apply backlog_zero| |apply unfinalized_count|].
  - rewrite backlog_sum. apply zsum_le. intros ht. rewrite ladder_eligible_filter.
    apply filter_le_sum; [apply partition_backlog_nonneg|by intros p ?%at_trigger_backlog].
  - rewrite <-W3. destruct r, r0; simpl; rewrite ?lookup_insert_eq; simpl; rewrite ?lookup_insert_ne by discriminate; lia.
Qed.
End tick.

(** ** The directory walk *)

Definition list_bytes (l : list Entry) : Z := zsum (List.map entry_bytes l).
Definition dirs_of (l : list Entry) : list (list Entry) := omap (fun e => match e with Dir l => Some l | _ => None end) l.
Definition files_of (l : list Entry) : list Z := omap (fun e => match e with File b => Some b | _ => None end) l.
Definition list_dirs (l : list Entry) : nat := sum_list (List.map dir_count l).

Lemma entry_bytes_dir l : entry_bytes (Dir l) = list_bytes l.
Proof. unfold list_bytes. simpl. induction l as [|e l IH]; [done|]. simpl. by rewrite IH. Qed.

Lemma dir_count_dir l : dir_count (Dir l) = S (list_dirs l).
Proof. unfold list_dirs. simpl. f_equal. induction l as [|e l IH]; [done|]. simpl. by rewrite IH. Qed.

(** One directory: its files and what its directories hold. *)
Lemma list_bytes_split l : list_bytes l = zsum (files_of l) + zsum (List.map list_bytes (dirs_of l)).
Proof.
  induction l as [|e l IH]; [done|]. change (list_bytes (e :: l)) with (entry_bytes e + list_bytes l). rewrite IH.
  destruct e as [es|b|].
  - rewrite entry_bytes_dir. change (dirs_of (Dir es :: l)) with (es :: dirs_of l). change (files_of (Dir es :: l)) with (files_of l). simpl. lia.
  - change (files_of (File b :: l)) with (b :: files_of l). change (dirs_of (File b :: l)) with (dirs_of l). simpl. lia.
  - reflexivity.
Qed.

Lemma list_dirs_split l : list_dirs l = sum_list (List.map (fun d => S (list_dirs d)) (dirs_of l)).
Proof.
  induction l as [|e l IH]; [done|]. change (list_dirs (e :: l)) with (dir_count e + list_dirs l)%nat. rewrite IH.
  destruct e as [es|b|]; [rewrite dir_count_dir|..]; reflexivity.
Qed.

Lemma zsum_perm l k : l ≡ₚ k -> zsum l = zsum k.
Proof. induction 1; simpl; lia. Qed.
Lemma zsum_app l k : zsum (l ++ k) = zsum l + zsum k.
Proof. induction l as [|x l IH]; simpl; lia. Qed.
Lemma sum_list_app l k : sum_list (l ++ k) = (sum_list l + sum_list k)%nat.
Proof. induction l as [|x l IH]; simpl; lia. Qed.

Lemma sum_list_rev {A} (f : A -> nat) l : sum_list (List.map f (rev l)) = sum_list (List.map f l).
Proof. induction l as [|x l IH]; [done|]. simpl rev. rewrite List.map_app, sum_list_app, IH. simpl. lia. Qed.

Lemma walk_total n : forall stack total, (sum_list (List.map (fun d => S (list_dirs d)) stack) <= n)%nat ->
  walk n stack total = Some (total + zsum (List.map list_bytes stack)).
Proof.
  induction n as [|n IH]; intros [|d stack] total B; cbn [walk].
  - simpl. f_equal. lia.
  - simpl in B. lia.
  - simpl. f_equal. lia.
  - fold (dirs_of d) (files_of d). change (List.fold_right Z.add 0 (files_of d)) with (zsum (files_of d)). rewrite IH.
    + f_equal. rewrite List.map_app, zsum_app, (zsum_perm (List.map list_bytes (rev (dirs_of d))) (List.map list_bytes (dirs_of d))) by (by rewrite <-Permutation_rev).
      change (zsum (List.map list_bytes (d :: stack))) with (list_bytes d + zsum (List.map list_bytes stack)). rewrite (list_bytes_split d). lia.
    + rewrite List.map_app, sum_list_app. change (S (list_dirs d) + sum_list (List.map (fun d => S (list_dirs d)) stack) <= S n)%nat in B.
      rewrite list_dirs_split in B. rewrite sum_list_rev. lia.
Qed.

(** the walk over a directory tree ends, and the bytes it reports are those of all
    the regular files under it. *)
Theorem dir_bytes_of_tree entries : dir_bytes (Some (Dir entries)) = Some (entry_bytes (Dir entries)).
Proof.
  unfold dir_bytes. rewrite walk_total; [|rewrite dir_count_dir; simpl; lia]. simpl List.map. rewrite entry_bytes_dir. simpl. f_equal. lia.
Qed.

(** ** A tick *)

(** The catalog of [CommitExamples] with two L0 parts of one commit and ten messages
    consumed; the statements of the gc family fail. *)
Definition demo_collector : Collector := mkCollector 10 1 10 (3600 * 10 ^ 6) EmptyString [("events", "events")]%string true.
Definition seen : Read := Ok (tables db1).
Definition lost : Read := Err (Db Io).
Definition demo_answers : TickAnswers :=
  mkTickAnswers (seen, seen, seen) (mkPoolStats 4 3) (seen, seen, lost) (7200 * 10 ^ 6) 7 lost (Ok (1, 2)) (Ok None)
    (fun _ => mkTopicAnswers seen seen (Ok [(0, 25); (1, 4)])).
Definition demo_metrics : Metrics := tick demo_collector 0 demo_answers (mkMetrics ∅ ∅).

Example demo_gauges :
  gauges demo_metrics !! ("ingest_consumer_lag"%string, [("topic", "events"); ("partition", "0")]%string) = Some (Number 15) /\
  gauges demo_metrics !! ("ingest_consumer_lag"%string, [("topic", "events"); ("partition", "1")]%string) = Some (Number 4) /\
  gauges demo_metrics !! ("catalog_live_parts"%string, [("hypertable", "events"); ("level", "0")]%string) = Some (Number 2) /\
  gauges demo_metrics !! ("compactor_backlog_groups"%string, []) = Some (Number 1) /\
  (fun name => collector_errors demo_metrics !! name) <$> ["catalog"; "compactor"; "gc"; "cache"; "consumer_lag"]%string = [None; Some 1; Some 1; None; None].
Proof. split_and!; vm_compute; reflexivity. Qed.

Example collector_reports_the_sweeps_witness :
  exists backlog unfinalized,
    gauges demo_metrics !! ("compactor_backlog_groups"%string, []) = Some (Number backlog) /\
    gauges demo_metrics !! ("compactor_unfinalized_partitions"%string, []) = Some (Number unfinalized) /\
    (backlog = 0 <-> forall ht, ladder_eligible (tables db1) ht 1 10 = []).
Proof.
  destruct (collector_reports_the_sweeps demo_collector 0 demo_answers (mkMetrics ∅ ∅) (tables db1) (tables db1) lost eq_refl) as (b & u & A & B & C & _).
  exists b, u. split; [exact A|]. split; [exact B|exact C].
Defined.

End CollectorSpec.
