(* ===== verification/Config.v ===== *)
(** * Daemon configuration (crates/ukield/src/config.rs)

    The sections with their defaults, what startup refuses, and what each worker
    is configured with. Parsing TOML is a parameter; unsigned fields are
    nonnegative integers of their width, [f64] is [Recovery]'s. *)

From Stdlib Require Import SpecFloat.
From S2P Require Import Prelude Json Types Schema CatalogError DiskCache SqlPipeline Health Recovery QueryServer.
From S2P Require Mv.
Import Schema CatalogError DiskCache SqlPipeline Health Recovery.

Module Config.

Record CatalogConfig := mkCatalog {
  url : string;
  max_connections : Z;
  min_connections : Z;
  acquire_timeout_ms : Z;
  lock_timeout_ms : Z;
  idle_timeout_secs : Z;
  max_lifetime_secs : Z;
  test_before_acquire : bool;
  retry_base_ms : Z;
  retry_max_ms : Z;
  retry_jitter_ratio : f64;
  recovery_probe_timeout_ms : Z;
  query_admission_timeout_ms : Z;
  c_retry_after_secs : Z;
}.

Definition DEFAULT_POOL_SIZE : Z := 16.

Definition default_catalog : CatalogConfig :=
  mkCatalog EmptyString DEFAULT_POOL_SIZE 0 2000 2000 600 1800 true 100 5000 (fdiv (f64_of_Z 1) (f64_of_Z 5)) 2000 1000 1.

(** Durations are nanoseconds. *)
Record CatalogPoolConfig := mkPool {
  pc_max_connections : Z;
  pc_min_connections : Z;
  acquire_timeout : Z;
  lock_timeout : Z;
  idle_timeout : option Z;
  max_lifetime : option Z;
  pc_test_before_acquire : bool;
}.

Definition pool_config (c : CatalogConfig) : CatalogPoolConfig :=
  mkPool (max_connections c) (min_connections c) (acquire_timeout_ms c * 10 ^ 6) (lock_timeout_ms c * 10 ^ 6)
    (Some (idle_timeout_secs c * 10 ^ 9)) (Some (max_lifetime_secs c * 10 ^ 9)) (test_before_acquire c).

(** [RecoveryPolicy::from_config]. *)
Definition from_config (c : CatalogConfig) (seed : Z) : Recovery.RecoveryPolicy :=
  Recovery.mkPolicy (retry_base_ms c * 10 ^ 6) (retry_max_ms c * 10 ^ 6) (retry_jitter_ratio c)
    (recovery_probe_timeout_ms c * 10 ^ 6) seed.

Record ObjectStoreConfig := mkStore {
  kind : string;
  endpoint : string;
  bucket : string;
  access_key_id : string;
  secret_access_key : string;
  region : string;
  allow_http : bool;
}.

Definition default_store_kind : string := "s3".
Definition default_bucket : string := "ukiel".
Definition default_region : string := "us-east-1".

Record QueryConfig := mkQuery {
  listen : string;
  cache_dir : string;
  cache_write_through : bool;
  cache_large_object_threshold : Z;
  cache_chunk_size : Z;
  cache_max_bytes : Z;
  cache_max_entries : Z;
  cache_size_entries : Z;
  statement_timeout_secs : Z;
}.

Definition default_query : QueryConfig :=
  let cache := DiskCache.default_config in
  mkQuery "127.0.0.1:8080" EmptyString (write_through cache) (large_object_threshold cache) (chunk_size cache)
    (cf_max_bytes cache) (cf_max_entries cache) (cf_size_entries cache) 300.

Record IngestSection := mkIngest {
  brokers : string;
  group_id : string;
  flush_interval_ms : Z;
  i_max_buffer_rows : Z;
  i_l0_slowdown_parts : Z;
  i_l0_stop_parts : Z;
  warn_partitions_per_flush : Z;
  i_max_event_age_days : Z;
  i_max_event_future_secs : Z;
}.

Definition default_ingest : IngestSection := mkIngest "127.0.0.1:9092" "ukield" 10000 100000 30 200 64 3650 3600.

Record MvSection := mkMv {
  mv_pipelines : list string;
  mv_poll_interval_ms : Z;
  mv_input_bytes : Z;
  mv_output_bytes : Z;
  mv_output_rows : Z;
  mv_operator_memory_bytes : Z;
}.

Definition default_mv : MvSection :=
  let l := default_limits in mkMv [] 1000 (input_bytes l) (output_bytes l) (output_rows l) (operator_memory_bytes l).

Definition worker_config (m : MvSection) : Mv.Mv.MvConfig :=
  Mv.Mv.mkMvConfig (mv_pipelines m) (mv_poll_interval_ms m)
    (mkLimits (mv_input_bytes m) (mv_output_bytes m) (mv_output_rows m) (mv_operator_memory_bytes m)).

Record MvPipelineConfig := mkPipelineConfig {
  p_name : string;
  p_source : string;
  p_target : string;
  p_sql : string;
  p_error_policy : ErrorPolicy;
}.

Record CompactorSection := mkCompactor {
  co_poll_interval_ms : Z;
  co_l0_fanout : Z;
  co_fanout : Z;
  co_finalize_after_secs : Z;
  co_finalize_poll_interval_ms : Z;
  lease_ttl_secs : Z;
  lease_renew_interval_secs : Z;
  co_candidate_limit : Z;
}.

Definition default_compactor : CompactorSection := mkCompactor 5000 4 10 3600 60000 60 20 64.

Record GcSection := mkGc {
  gc_poll_interval_ms : Z;
  tombstone_grace_secs : f64;
  orphan_grace_secs : Z;
}.

Definition default_gc : GcSection := mkGc 60000 (f64_of_Z 900) 3600.

Record CollectorSection := mkCollector { interval_ms : Z; cache_walk_every : Z }.
Definition default_collector : CollectorSection := mkCollector 30000 10.

Record ColumnConfig := mkColumn {
  cc_name : string;
  type_name : string;
  cc_nullable : option bool;
  cc_default : option string;
  cc_materialized : option string;
  cc_alias : option string;
}.

Record TableConfig := mkTable {
  t_name : string;
  topic : option string;
  t_ts_column : string;
  t_packing_key : string;
  t_sort_key : list string;
  partition_columns : list string;
  placement : option string;
  target_file_mb : option Z;
  namespaces : list Z;
  columns : list ColumnConfig;
}.

Record UkieldConfig := mkUkield {
  roles : list Role;
  catalog : CatalogConfig;
  object_store : ObjectStoreConfig;
  query : QueryConfig;
  ingest : IngestSection;
  mv : MvSection;
  compactor : CompactorSection;
  gc : GcSection;
  collector : CollectorSection;
  metrics_listen : string;
  u_tables : list TableConfig;
  u_pipelines : list MvPipelineConfig;
}.

Definition default_roles : list Role := [Ingest; Query; Compactor; Gc].

(** ** What startup refuses *)

(** The messages of [validate], by the rule they report. *)
Inductive ConfigError :=
| CacheCapacities
| NoMvPipelines
| MvLimits
| TimeoutPastGrace (timeout : Z) (grace : f64)
| LeaseZero (ttl renew : Z)
| RenewTooSlow (renew third : Z)
| CandidateLimit (limit : Z)
| UrlRequired
| MaxConnections
| MinConnections (lo hi : Z)
| ZeroCatalogSetting (name : string)
| LockTimeoutTooLong
| RetryBase (base max : Z)
| JitterRatio (ratio : f64)
| LoadFailed (why : string).

Definition has_role (r : Role) (l : list Role) : bool := bool_decide (r ∈ l).
Definition is_empty (s : string) : bool := String.eqb s EmptyString.
Definition check (bad : bool) (e : ConfigError) : result unit ConfigError := if bad then Err e else Ok tt.

(** [a >= b] of two [f64]: false of what is not a number. *)
Definition fge (a b : f64) : bool := SFleb b a.

Definition validate_catalog (cat : CatalogConfig) : result unit ConfigError :=
  let? _ := check (is_empty (url cat)) UrlRequired in
  let? _ := check (max_connections cat =? 0) MaxConnections in
  let? _ := check (max_connections cat <? min_connections cat) (MinConnections (min_connections cat) (max_connections cat)) in
  let? _ := mapr (fun nv => check (nv.2 =? 0) (ZeroCatalogSetting nv.1))
    [("acquire_timeout_ms", acquire_timeout_ms cat); ("lock_timeout_ms", lock_timeout_ms cat);
     ("retry_base_ms", retry_base_ms cat); ("retry_max_ms", retry_max_ms cat);
     ("recovery_probe_timeout_ms", recovery_probe_timeout_ms cat);
     ("query_admission_timeout_ms", query_admission_timeout_ms cat)]%string in
  let? _ := check (i32_max <? lock_timeout_ms cat) LockTimeoutTooLong in
  let? _ := check (retry_max_ms cat <? retry_base_ms cat) (RetryBase (retry_base_ms cat) (retry_max_ms cat)) in
  check (negb (SFleb (f64_of_Z 0) (retry_jitter_ratio cat) && SFleb (retry_jitter_ratio cat) (f64_of_Z 1)))
    (JitterRatio (retry_jitter_ratio cat)).

Definition validate (cfg : UkieldConfig) : result unit ConfigError :=
  let? _ := check (negb (is_empty (cache_dir (query cfg)))
    && ((cache_max_bytes (query cfg) =? 0) || (cache_max_entries (query cfg) =? 0)
        || (cache_size_entries (query cfg) =? 0) || (cache_chunk_size (query cfg) =? 0))) CacheCapacities in
  let? _ := check (has_role Mv (roles cfg) && bool_decide (mv_pipelines (mv cfg) = [])) NoMvPipelines in
  let? _ := check ((mv_poll_interval_ms (mv cfg) =? 0)
    || bool_decide (0 ∈ [mv_input_bytes (mv cfg); mv_output_bytes (mv cfg); mv_output_rows (mv cfg); mv_operator_memory_bytes (mv cfg)]))
    MvLimits in
  let? _ := check (has_role Query (roles cfg) && has_role Gc (roles cfg)
    && fge (f64_of_Z (statement_timeout_secs (query cfg))) (tombstone_grace_secs (gc cfg)))
    (TimeoutPastGrace (statement_timeout_secs (query cfg)) (tombstone_grace_secs (gc cfg))) in
  let ttl := lease_ttl_secs (compactor cfg) in
  let renew := lease_renew_interval_secs (compactor cfg) in
  let? _ := check ((ttl =? 0) || (renew =? 0)) (LeaseZero ttl renew) in
  let? _ := check (ttl <? wrap_u64 (renew * 3)) (RenewTooSlow renew (ttl / 3)) in
  let? _ := check (co_candidate_limit (compactor cfg) <=? 0) (CandidateLimit (co_candidate_limit (compactor cfg))) in
  validate_catalog (catalog cfg).

(** ** Loading *)

Definition set_url (u : string) (c : CatalogConfig) : CatalogConfig :=
  mkCatalog u (max_connections c) (min_connections c) (acquire_timeout_ms c) (lock_timeout_ms c) (idle_timeout_secs c)
    (max_lifetime_secs c) (test_before_acquire c) (retry_base_ms c) (retry_max_ms c) (retry_jitter_ratio c)
    (recovery_probe_timeout_ms c) (query_admission_timeout_ms c) (c_retry_after_secs c).
Definition set_keys (key secret : option string) (o : ObjectStoreConfig) : ObjectStoreConfig :=
  mkStore (kind o) (endpoint o) (bucket o) (default (access_key_id o) key) (default (secret_access_key o) secret) (region o) (allow_http o).

(** [load], of the file's text and the environment. *)
Definition load (from_toml : string -> option UkieldConfig) (raw : option string) (env : string -> option string)
  : result UkieldConfig ConfigError :=
  let? raw := ok_or raw (LoadFailed "reading config") in
  let? cfg := ok_or (from_toml raw) (LoadFailed "parsing config") in
  Ok (mkUkield (roles cfg)
    (match env "UKIELD_CATALOG_URL"%string with Some u => set_url u (catalog cfg) | None => catalog cfg end)
    (set_keys (env "UKIELD_S3_ACCESS_KEY_ID"%string) (env "UKIELD_S3_SECRET_ACCESS_KEY"%string) (object_store cfg))
    (query cfg) (ingest cfg) (mv cfg) (compactor cfg) (gc cfg) (collector cfg) (metrics_listen cfg) (u_tables cfg) (u_pipelines cfg)).

(** ** Tables *)

Definition insert_if (k : string) (v : option json) (m : list (string * json)) : list (string * json) :=
  match v with Some v => jinsert k v m | None => m end.

Definition column_json (c : ColumnConfig) : json :=
  JObject
    (insert_if "alias" (JString <$> cc_alias c)
    (insert_if "materialized" (JString <$> cc_materialized c)
    (insert_if "default" (JString <$> cc_default c)
    (insert_if "nullable" (JBool <$> cc_nullable c)
    (jinsert "type" (JString (type_name c)) (jinsert "name" (JString (cc_name c)) [])))))).

Definition schema_json (t : TableConfig) : json := JObject [("fields"%string, JArray (List.map column_json (columns t)))].
Definition partition_spec (t : TableConfig) : json := JObject [("columns"%string, JArray (List.map JString (partition_columns t)))].

(** ** What the workers are configured with (run.rs) *)

Definition cache_config (q : QueryConfig) : CacheConfig :=
  mkCacheConfig (cache_large_object_threshold q) (cache_chunk_size q) (cache_write_through q) (cache_max_bytes q)
    (cache_max_entries q) (cache_size_entries q).

(** The query server's state, its durations in nanoseconds. *)
Definition app_state (cfg : UkieldConfig) : Server.AppState :=
  Server.mkAppState (statement_timeout_secs (query cfg) * 10 ^ 9) (query_admission_timeout_ms (catalog cfg) * 10 ^ 6)
    (c_retry_after_secs (catalog cfg)).

End Config.
