(* ===== verification/ConfigSpec.v ===== *)
(** * What a validated configuration guarantees (theorems about [Config])

    What startup accepts, every worker accepts; an accepted grace covers the
    statement timeout, so answered statements end before what is deleted under
    them is reaped; a declared schema survives its JSON; and the checks that do
    not hold: a product that wraps, a grace that is not a number, a margin that
    is too thin for a deletion in flight. *)

From Stdlib Require Import SpecFloat.
From S2P Require Import Prelude Json Types Arrow Schema CatalogError CatalogDb CatalogGc DiskCache SqlPipeline Health Recovery Float64 Write QueryServer QueryServerSpec Config IngestExamples MvSpec.
Import Schema CatalogError CatalogDb DiskCache SqlPipeline Health Recovery Config.

Module ConfigSpec.

(** ** Table schemas read back *)

(** A configured column, read directly. *)
Definition configured (c : ColumnConfig) : result ColumnSpec SchemaError :=
  let? data_type := type_of_name (type_name c) in
  let? kind :=
    match cc_default c, cc_materialized c, cc_alias c with
    | None, None, None => Ok Stored
    | Some e, None, None => Ok (Default e)
    | None, Some e, None => Ok (Materialized e)
    | None, None, Some e => Ok (Alias e)
    | _, _, _ => Err (Invalid "default/materialized/alias are mutually exclusive" (cc_name c))
    end in
  Ok (mkColumnSpec (cc_name c) data_type (default true (cc_nullable c)) kind (type_name c) false).

Lemma column_reads_back c : parse_field (column_json c) = configured c.
Proof.
  destruct c as [n ty nl de ma al]. unfold configured, parse_field. simpl.
  destruct nl, de, ma, al; simpl; by destruct (type_of_name ty).
Qed.

Lemma mapr_ext {A B E} (f g : A -> result B E) l : (forall x, f x = g x) -> mapr f l = mapr g l.
Proof. intros H. induction l as [|x l IH]; simpl; [done|]. by rewrite H, IH. Qed.

Lemma mapr_map {A B C E} (f : B -> result C E) (g : A -> B) l : mapr f (List.map g l) = mapr (fun x => f (g x)) l.
Proof. induction l as [|x l IH]; simpl; [done|]. by rewrite IH. Qed.

(** The catalog's schema JSON of a configured table parses back to exactly its
    columns: their names, types, nullability -- true unless it is set -- and the
    one expression that makes a column default, materialized or alias; it is
    refused exactly when a column's type is unknown or it has two expressions. *)
Theorem table_schema_round_trip t :
  parse (schema_json t) = (let? specs := mapr configured (columns t) in Ok (mkTableColumns specs)).
Proof.
  unfold parse, schema_json. simpl. rewrite mapr_map. by rewrite (mapr_ext _ configured) by apply column_reads_back.
Qed.

(** ** Settings that passed *)

Lemma check_Ok bad e : check bad e = Ok tt <-> bad = false.
Proof. unfold check. by destruct bad. Qed.

(** The rules of [validate], as propositions. *)
Record validated (cfg : UkieldConfig) : Prop := {
  vd_cache : cache_dir (query cfg) <> EmptyString -> cache_max_bytes (query cfg) <> 0 /\ cache_max_entries (query cfg) <> 0 /\
    cache_size_entries (query cfg) <> 0 /\ cache_chunk_size (query cfg) <> 0;
  vd_mv : Mv ∈ roles cfg -> mv_pipelines (mv cfg) <> [];
  vd_limits : mv_poll_interval_ms (mv cfg) <> 0 /\
    0 ∉ [mv_input_bytes (mv cfg); mv_output_bytes (mv cfg); mv_output_rows (mv cfg); mv_operator_memory_bytes (mv cfg)];
  vd_grace : Query ∈ roles cfg -> Gc ∈ roles cfg ->
    fge (f64_of_Z (statement_timeout_secs (query cfg))) (tombstone_grace_secs (gc cfg)) = false;
  vd_lease : lease_ttl_secs (compactor cfg) <> 0 /\ lease_renew_interval_secs (compactor cfg) <> 0 /\
    wrap_u64 (lease_renew_interval_secs (compactor cfg) * 3) <= lease_ttl_secs (compactor cfg);
  vd_candidates : 0 < co_candidate_limit (compactor cfg);
  vd_url : url (catalog cfg) <> EmptyString;
  vd_pool : max_connections (catalog cfg) <> 0 /\ min_connections (catalog cfg) <= max_connections (catalog cfg);
  vd_waits : acquire_timeout_ms (catalog cfg) <> 0 /\ lock_timeout_ms (catalog cfg) <> 0 /\ retry_base_ms (catalog cfg) <> 0 /\
    retry_max_ms (catalog cfg) <> 0 /\ recovery_probe_timeout_ms (catalog cfg) <> 0 /\ query_admission_timeout_ms (catalog cfg) <> 0;
  vd_lock : lock_timeout_ms (catalog cfg) <= i32_max;
  vd_retry : retry_base_ms (catalog cfg) <= retry_max_ms (catalog cfg);
  vd_jitter : SFleb (f64_of_Z 0) (retry_jitter_ratio (catalog cfg)) = true /\ SFleb (retry_jitter_ratio (catalog cfg)) (f64_of_Z 1) = true;
}.

Lemma bind_unit {E} (a b : result unit E) : (let? _ := a in b) = Ok tt <-> a = Ok tt /\ b = Ok tt.
Proof. destruct a as [[]|]; simpl; [|naive_solver]. split; [by intros ->|by intros [_ ->]]. Qed.

Lemma bind_list_unit {A E} (a : result (list A) E) (b : result unit E) : (let? _ := a in b) = Ok tt <-> is_ok a = true /\ b = Ok tt.
Proof. destruct a; simpl; naive_solver. Qed.

Lemma is_empty_spec s : is_empty s = false <-> s <> EmptyString.
Proof. apply String.eqb_neq. Qed.

Lemma has_role_spec r l : has_role r l = true <-> r ∈ l.
Proof. apply bool_decide_eq_true. Qed.

Lemma waits_ok (l : list (string * Z)) : is_ok (mapr (fun nv => check (nv.2 =? 0) (ZeroCatalogSetting nv.1)) l) = true <-> Forall (fun nv => nv.2 <> 0) l.
Proof.
  induction l as [|x l IH]; simpl; [by split; [constructor|]|]. rewrite Forall_cons, <-IH. unfold check. destruct (x.2 =? 0) eqn:E; simpl.
  - apply Z.eqb_eq in E. split; [done|by intros [? _]].
  - apply Z.eqb_neq in E. destruct (mapr _ l); simpl; split; try done; by intros [_ ?].
Qed.

Lemma validate_spec cfg : validate cfg = Ok tt -> validated cfg.
Proof.
  unfold validate, validate_catalog. rewrite !bind_unit, bind_list_unit, !check_Ok, waits_ok, !bind_unit, !check_Ok.
  intros (H1 & H2 & H3 & H4 & H5 & H6 & H7 & H8 & H9 & H10 & H11 & H12 & H13 & H14).
  rewrite !Forall_cons in H11. simpl in H11. apply orb_false_iff in H3 as [P1 P2], H5 as [L1 L2]. apply negb_false_iff, andb_true_iff in H14.
  apply Z.eqb_neq in P1, L1, L2, H9. apply Z.ltb_ge in H6, H10, H12, H13. apply Z.leb_gt in H7. apply bool_decide_eq_false in P2.
  split; try (done || tauto || lia).
  - intros Nd. apply is_empty_spec in Nd. rewrite Nd in H1. simpl in H1. apply orb_false_iff in H1 as [[[A B]%orb_false_iff C]%orb_false_iff D].
    by apply Z.eqb_neq in A, B, C, D.
  - intros R. apply has_role_spec in R. rewrite R in H2. by apply bool_decide_eq_false in H2.
  - intros Q G. apply has_role_spec in Q, G. by rewrite Q, G in H4.
  - by apply is_empty_spec.
Qed.

Lemma reindex_all_error is_uuid io items : forall c,
  reindex_all is_uuid io c items <> Err "cache capacities must be positive"%string.
Proof.
  induction items as [|[name content] items IH]; intros c; cbn [reindex_all]; [done|]. intros R. apply rbind_Err in R as [R|(c1 & _ & R)]; [|by apply IH in R].
  unfold reindex in R. destruct (String.eqb name LOCK); [done|]. destruct content as [d|]; [|done]. destruct (_ || _).
  - by destruct (remove_file io name (files c)) as [[] f].
  - by destruct (make_room io c (len d) true (DiskCache.state c) (files c)) as [[[] s] f].
Qed.

(** What startup accepts, the parts accept: the cache directory is not
    refused for its capacities, a connection is not refused for its lock
    timeout, a view's statement is not refused for its limits, retries back off
    from a positive base up to no less than it, and a lease is renewed three
    times within its life as long as three renewal intervals fit a [u64]. *)
Theorem validated_settings_are_accepted `{WP : WritePlatform} `{SE : SqlEngine} cfg :
  validate cfg = Ok tt ->
  (forall is_uuid io locked items, cache_dir (query cfg) <> EmptyString ->
     open is_uuid io (cache_config (query cfg)) locked items <> Err "cache capacities must be positive"%string) /\
  (forall (O : Type) (parse_url : string -> result O SqlxError) with_options u t, 0 <= lock_timeout_ms (catalog cfg) ->
     connect_options parse_url with_options (lock_timeout (pool_config (catalog cfg))) u <> Err (InvalidLockTimeout t)) /\
  (forall source schema input, Execute.context source schema input (Mv.Mv.mv_limits (worker_config (mv cfg))) <> Err InvalidLimits) /\
  (forall seed, 0 <= retry_base_ms (catalog cfg) -> 0 < base (from_config (catalog cfg) seed) <= Recovery.max (from_config (catalog cfg) seed)) /\
  (0 <= lease_renew_interval_secs (compactor cfg) < 2 ^ 64 / 3 ->
     3 * lease_renew_interval_secs (compactor cfg) <= lease_ttl_secs (compactor cfg)).
Proof.
  intros V%validate_spec. split_and!.
  - intros is_uuid io locked items Nd. destruct (vd_cache _ V Nd) as (A & B & C & D). unfold open, cache_config. simpl.
    rewrite (proj2 (Z.eqb_neq _ _) A), (proj2 (Z.eqb_neq _ _) B), (proj2 (Z.eqb_neq _ _) D). simpl.
    destruct (negb locked); [done|]. destruct (List.existsb _ items); [done|]. intros R.
    by apply reindex_all_error in R.
  - intros O parse_url with_options u t Nn. unfold connect_options, pool_config, as_millis, from_millis. cbn [lock_timeout]. change (10 ^ 6) with 1000000.
    pose proof (vd_lock _ V) as L. destruct (vd_waits _ V) as (_ & W & _). unfold i32_max in *.
    replace (lock_timeout_ms (catalog cfg) * 1000000 / 1000000) with (lock_timeout_ms (catalog cfg)) by (rewrite Z.div_mul; lia).
    rewrite Z.mod_small by lia. rewrite (proj2 (Z.eqb_neq _ 0) W), (proj2 (Z.ltb_ge _ _) L), Z.eqb_refl. cbn [orb negb]. by destruct (parse_url u).
  - intros source schema input. unfold Execute.context. simpl. destruct (vd_limits _ V) as [_ L]. rewrite bool_decide_false by done.
    by destruct (build_session _).
  - intros seed Nn. pose proof (vd_retry _ V). destruct (vd_waits _ V) as (_ & _ & W & _). cbn [base Recovery.max from_config]. nia.
  - intros B. destruct (vd_lease _ V) as (_ & _ & L). unfold wrap_u64 in L. rewrite Z.mod_small in L; [lia|].
    pose proof (Z.mul_div_le (2 ^ 64) 3 ltac:(lia)). lia.
Qed.

End ConfigSpec.

(** * Queries and the reaper in one process; what validation lets through *)

Import CatalogDb CatalogGc Health Recovery Float64 Results Errors Server QueryServerSpec Config ConfigSpec.

Module ConfigTheorems.

(** What PostgreSQL documents of [make_interval]: it refuses what is not a
    number, takes whole seconds exactly -- while their microseconds fit a
    double's 53 bits -- and never makes more seconds a shorter interval. *)
Record takes_seconds (interval : f64 -> option Z) : Prop := {
  ti_number g us : interval g = Some us -> is_nan g = false;
  ti_whole n : 0 <= n -> n * 10 ^ 6 <= 2 ^ 53 -> interval (f64_of_Z n) = Some (n * 10 ^ 6);
  ti_monotone g g' us us' : valid g -> valid g' -> SFleb g g' = true ->
    interval g = Some us -> interval g' = Some us' -> us <= us';
}.

Section timing.
(** [make_interval(secs => g)] of PostgreSQL, in microseconds; [None] where it
    raises an error. *)
Context (interval : f64 -> option Z).
Context (render : DataType -> Opaque -> json) (array_writer : list RecordBatch -> result (list Z) string).
Context (parse_json : list Z -> option json) (stream_writer : ArrowSchema -> list RecordBatch -> result (list Z) string).
Context (render_df : DfError -> string) (render_query : QueryError -> string).

Notation run_query := (run_query render array_writer parse_json stream_writer render_df render_query).
Notation admitted_run := (admitted_run render_df render_query).

(** A statement that is answered ended within its timeout. *)
Lemma answered_on_time state accept req s resp :
  run_query state accept req s = Some resp -> status resp = OK -> on_time (statement_timeout state) (admitted_run state s).
Proof.
  unfold Server.run_query, run_query_inner. pose proof (timeout_spec (statement_timeout state) (admitted_run state s)) as T.
  destruct (Server.value (timeout (statement_timeout state) (admitted_run state s))) as [v|]; [by destruct T|].
  simpl. intros [= <-]. done.
Qed.

Lemma not_reapable t ht now grace r :
  (forall c row, pr_deleted_by r = Some c -> row ∈ commits t -> c_id row = c -> now - grace < c_created_at row) ->
  is_reapable t ht now grace r = false.
Proof.
  intros H. apply not_true_iff_false. intros (_ & _ & c & row & D & R & I & L & _)%is_reapable_spec.
  specialize (H c row D R I). lia.
Qed.

(** The check of [validate] compares the settings as PostgreSQL will. *)
Lemma grace_covers_timeout cfg grace :
  takes_seconds interval -> validated cfg -> Query ∈ roles cfg -> Gc ∈ roles cfg ->
  0 <= statement_timeout_secs (query cfg) -> statement_timeout_secs (query cfg) * 10 ^ 6 <= 2 ^ 53 ->
  valid (tombstone_grace_secs (gc cfg)) -> interval (tombstone_grace_secs (gc cfg)) = Some grace ->
  statement_timeout_secs (query cfg) * 10 ^ 6 <= grace.
Proof.
  intros Iv V Q G N L Vg Eg. pose proof (ti_whole _ Iv _ N L) as Et.
  assert (Vt : valid (f64_of_Z (statement_timeout_secs (query cfg)))) by (apply whole_number; lia).
  eapply (ti_monotone _ Iv _ _ _ _ Vt Vg); [|exact Et|exact Eg].
  apply not_le_ge; [by eapply (ti_number _ Iv)..|exact (vd_grace _ V Q G)].
Qed.

(** C28: in a process that runs both the query and the gc role under a
    configuration that startup accepts, the tombstone grace is, as PostgreSQL
    takes it, no shorter than the statement timeout.  Call the difference the
    margin: at no instant before an answered statement ends does the reaper take
    a part whose deletion is stamped no earlier than the margin before the
    statement listed its parts -- so none whose deleting transaction, whose
    start is its stamp, began after the listing.  (A deletion that began longer
    before the listing than the margin, and committed after it, is not
    covered: see [a_thin_margin_is_not_enough].) *)
Theorem queries_end_before_reaping cfg accept req s resp grace e :
  takes_seconds interval ->
  validate cfg = Ok tt -> Query ∈ roles cfg -> Gc ∈ roles cfg ->
  0 <= statement_timeout_secs (query cfg) -> statement_timeout_secs (query cfg) * 10 ^ 6 <= 2 ^ 53 ->
  valid (tombstone_grace_secs (gc cfg)) -> interval (tombstone_grace_secs (gc cfg)) = Some grace ->
  run_query (app_state cfg) accept req s = Some resp -> status resp = OK ->
  Server.elapsed (admitted_run (app_state cfg) s) = Some e ->
  let margin := grace - statement_timeout_secs (query cfg) * 10 ^ 6 in
  0 <= margin /\
  forall t ht r planned now,
    now * 1000 < planned * 1000 + e ->
    (forall c row, pr_deleted_by r = Some c -> row ∈ commits t -> c_id row = c -> planned - margin <= c_created_at row) ->
    is_reapable t ht now grace r = false.
Proof.
  intros Iv V%validate_spec Q G N L Vg Eg R A El margin.
  pose proof (grace_covers_timeout cfg grace Iv V Q G N L Vg Eg) as Gt. split; [unfold margin; lia|].
  intros t ht r planned now Now Del.
  destruct (answered_on_time _ _ _ _ _ R A) as (e' & El' & Le). rewrite El in El'. injection El' as <-.
  simpl in Le. apply not_reapable. intros c row D Rw I. specialize (Del c row D Rw I). unfold margin in Del. lia.
Qed.
End timing.

(** ** What validation lets through *)

Definition overflowing : UkieldConfig :=
  mkUkield default_roles
    (set_url "postgres://db" default_catalog)
    (mkStore default_store_kind EmptyString default_bucket EmptyString EmptyString default_region false)
    default_query default_ingest default_mv
    (mkCompactor 5000 4 10 3600 60000 60 (2 ^ 64 / 3 + 1) 64)
    default_gc default_collector EmptyString [] [].

(** [validate] multiplies the renewal interval by three in [u64]: an interval
    just past a third of the width wraps to a small product, so a lease that
    lives a minute and is renewed never is accepted. *)
Theorem renewal_check_wraps :
  validate overflowing = Ok tt /\
  lease_ttl_secs (compactor overflowing) < lease_renew_interval_secs (compactor overflowing) < 2 ^ 64.
Proof. by vm_compute. Qed.

(** ** Examples *)

Definition demo_cfg : UkieldConfig :=
  mkUkield default_roles (set_url "postgres://db" default_catalog)
    (mkStore default_store_kind EmptyString default_bucket EmptyString EmptyString default_region false)
    default_query default_ingest default_mv default_compactor default_gc default_collector EmptyString [] [].

Example defaults_need_a_url : validate (mkUkield default_roles default_catalog (object_store demo_cfg)
    default_query default_ingest default_mv default_compactor default_gc default_collector EmptyString [] []) = Err UrlRequired.
Proof. by vm_compute. Qed.

Example equal_grace_refused :
  validate (mkUkield default_roles (catalog demo_cfg) (object_store demo_cfg) default_query default_ingest default_mv default_compactor
    (mkGc 60000 (f64_of_Z 300) 3600) default_collector EmptyString [] []) = Err (TimeoutPastGrace 300 (f64_of_Z 300)).
Proof. by vm_compute. Qed.

(** A grace of NaN passes: no comparison with it holds. *)
Example nan_grace_accepted :
  validate (mkUkield default_roles (catalog demo_cfg) (object_store demo_cfg) default_query default_ingest default_mv default_compactor
    (mkGc 60000 S754_nan 3600) default_collector EmptyString [] []) = Ok tt.
Proof. by vm_compute. Qed.

(** Seconds to microseconds, the fraction of one dropped. *)
Definition demo_interval (g : f64) : option Z :=
  match g with
  | S754_zero _ => Some 0
  | S754_finite false m e => Some (units m e * 10 ^ 6 / 2 ^ 1074)
  | _ => None
  end.

Lemma demo_takes_seconds : takes_seconds demo_interval.
Proof.
  assert (P : 0 < 2 ^ 1074) by (apply Z.pow_pos_nonneg; lia). split.
  - by intros [[]|[]| |[] m e] us.
  - intros n N L. assert (Lt : n < 2 ^ 53) by lia. destruct (whole_number n (conj N Lt)) as [_ [[-> ->]|(m & e & -> & _ & U)]]; [done|].
    unfold demo_interval. f_equal. rewrite U.
    replace (n * 2 ^ 1074 * 10 ^ 6) with (n * 10 ^ 6 * 2 ^ 1074) by ring. apply Z.div_mul. lia.
  - assert (Nn : forall m e, 0 <= units m e * 10 ^ 6).
    { intros m e. unfold units. apply Z.mul_nonneg_nonneg; [|done]. apply Z.mul_nonneg_nonneg; [done|]. apply Z.pow_nonneg. lia. }
    intros [[]|[]| |[] m e] [[]|[]| |[] m' e'] us us' V V' L; try done; intros [= <-] [= <-]; try done;
      try (by apply Z.div_pos).
    apply Z.div_le_mono; [done|]. apply Z.mul_le_mono_nonneg_r; [done|]. by apply le_units.
Qed.

Definition demo_steps : Steps :=
  mkSteps (mkTimed (Some (10 ^ 6)) (Ok tt)) (mkTimed (Some (10 ^ 6)) (Ok [])) (mkTimed (Some (10 ^ 6)) (Ok tt))
    (mkTimed (Some (299 * 10 ^ 9)) (Ok [])).

(** A part deleted a second after it was listed, while the statement runs. *)
Definition demo_row : PartRow :=
  mkPartRow 7 1 (mkPartMeta "ht/1/L0/x.parquet" JNull 0 1 10 100 0 None) None 1 (Some 2) None.
Definition demo_tables : Tables :=
  with_parts (with_commits empty_tables [mkCommitRow 2 1 "replace" None None 1000000]) [demo_row].
Definition demo_request : QueryRequest := mkRequest 5 "SELECT 1" None.

Definition demo_grace : Z := 900 * 10 ^ 6.

Lemma queries_end_before_reaping_witness :
  is_reapable demo_tables 1 298000000 demo_grace demo_row = false /\
  is_reapable demo_tables 1 901000000 demo_grace demo_row = true.
Proof.
  split; [|by vm_compute].
  refine (proj2 (queries_end_before_reaping demo_interval (fun _ _ => JNull) (fun _ => Ok []) (fun _ => Some JNull) (fun _ _ => Ok [])
    (fun _ => EmptyString) (fun _ => EmptyString) demo_cfg None demo_request demo_steps _ demo_grace (299 * 10 ^ 9 + 3 * 10 ^ 6)
    demo_takes_seconds _ _ _ _ _ _ _ _ _ _) demo_tables 1 demo_row 0 298000000 _ _).
  - by vm_compute.
  - apply (bool_decide_unpack _). by vm_compute.
  - apply (bool_decide_unpack _). by vm_compute.
  - by vm_compute.
  - by vm_compute.
  - vm_compute. reflexivity.
  - vm_compute. reflexivity.
  - vm_compute. reflexivity.
  - reflexivity.
  - reflexivity.
  - lia.
  - intros c row [= <-] R I. apply list_elem_of_singleton in R as ->. by vm_compute.
Defined.

(** A grace barely above the timeout is accepted, and a part whose deletion
    began a second before a statement listed it is then reaped while the
    statement runs: at half a second before its end. *)
Definition thin_cfg : UkieldConfig :=
  mkUkield default_roles (catalog demo_cfg) (object_store demo_cfg) default_query default_ingest default_mv default_compactor
    (mkGc 60000 (fadd (f64_of_Z 300) (fdiv (f64_of_Z 1) (f64_of_Z 1000))) 3600) default_collector EmptyString [] [].

Example a_thin_margin_is_not_enough :
  validate thin_cfg = Ok tt /\
  exists grace, demo_interval (tombstone_grace_secs (gc thin_cfg)) = Some grace /\
    let planned := 2000000 in
    let ends := planned + statement_timeout_secs (query thin_cfg) * 10 ^ 6 in
    is_reapable demo_tables 1 (ends - 500000) grace demo_row = true.
Proof. split; [by vm_compute|]. eexists. split; [vm_compute; reflexivity|by vm_compute]. Qed.

End ConfigTheorems.

(** * The accepted settings of an example configuration *)

Import CatalogError Config ConfigSpec ConfigTheorems IngestExamples MvExamples.

Module ConfigExamples.

Lemma validated_settings_are_accepted_witness :
  validate demo_cfg = Ok tt /\
  3 * lease_renew_interval_secs (compactor demo_cfg) <= lease_ttl_secs (compactor demo_cfg) /\
  connect_options (fun u => Ok u) (fun u _ => u) (lock_timeout (pool_config (catalog demo_cfg))) "postgres://db" <> Err (InvalidLockTimeout 7).
Proof.
  split; [reflexivity|].
  destruct (validated_settings_are_accepted demo_cfg eq_refl) as (_ & C & _ & _ & L). split.
  - apply L. simpl. split; [lia|reflexivity].
  - apply C. simpl. lia.
Defined.

(** Three columns, one of them an expression, as the catalog stores and reads
    them. *)
Definition demo_table : TableConfig :=
  mkTable "events" (Some "events"%string) "ts" "tenant" ["tenant"; "ts"]%string ["day"]%string None (Some 64) [1; 2]
    [mkColumn "tenant" "int64" (Some false) None None None; mkColumn "ts" "timestamp_ms" None None None None;
     mkColumn "day" "utf8" None None (Some "to_day(ts)"%string) None].

Example demo_columns_read_back :
  Schema.Schema.parse (schema_json demo_table) = Ok (Schema.Schema.mkTableColumns
    [Schema.Schema.mkColumnSpec "tenant" Int64 false Schema.Schema.Stored "int64" false;
     Schema.Schema.mkColumnSpec "ts" Int64 true Schema.Schema.Stored "timestamp_ms" false;
     Schema.Schema.mkColumnSpec "day" Utf8 true (Schema.Schema.Materialized "to_day(ts)") "utf8" false]).
Proof. by vm_compute. Qed.

End ConfigExamples.
