(* ===== verification/Bootstrap.v ===== *)
(** * Bootstrapping tables and pipelines (crates/ukield/src/bootstrap.rs)

    What a boot makes of the configuration in the catalog, between the steps of
    the other processes and under calls that fail, and the same under the
    recovery of startup steps (Supervisor.v). Log lines are not modelled. *)

From S2P Require Import Prelude Json Types Arrow Schema CatalogError CatalogDb Tables Pipelines Batches Expr Compactor Write Publish SqlPipeline Health Recovery Supervisor Config.
Import CatalogError CatalogDb Batches Write Publish SqlPipeline Execute Config.

Module Bootstrap.

(** The [anyhow] errors of a boot, by the context they carry. *)
Inductive BootError :=
| InvalidSchema (table : string) (e : Expr.ExprError)
| ParsingSchema (table : string) (e : Schema.SchemaError)
| InvalidSortKey (table : string) (e : Schema.SortKeyError)
| BootCatalog (e : CatalogError)
| CreatingHypertable (table : string) (e : CatalogError)
| CreatingLogicalTable (table : string) (ns : Z) (e : CatalogError)
| ExclusivePlacement (table : string)
| UnknownPlacement (table other : string)
| BootExpr (e : Expr.ExprError)
| BootSchema (e : Schema.SchemaError)
| PreparingPipeline (pipeline : string) (e : PipelineError)
| BootWrite (e : WriteError).

(** What a [downcast] through the chain finds. *)
Definition boot_catalog_error (e : BootError) : option CatalogError :=
  match e with
  | BootCatalog e | CreatingHypertable _ e | CreatingLogicalTable _ _ e => Some e
  | _ => None
  end.
#[export] Instance boot_failure : Supervisor.RoleFailure BootError := boot_catalog_error.

(** [mb as i64 * 1024 * 1024], in a release build. *)
Definition target_bytes (mb : Z) : Z := wrap_i64 (wrap_i64 (wrap_i64 mb * 1024) * 1024).

Definition placement_from (table : TableConfig) : result Placement BootError :=
  match placement table, target_file_mb table with
  | Some _, Some _ => Err (ExclusivePlacement (t_name table))
  | None, Some mb => Ok (SizeTargeted (target_bytes mb))
  | None, None => Ok Packed
  | Some p, None =>
      if String.eqb p "separated" then Ok Separated
      else if String.eqb p "packed" then Ok Packed
      else Err (UnknownPlacement (t_name table) p)
  end.

#[export] Instance Placement_eq_dec : EqDecision Placement.
Proof. solve_decision. Defined.

Section boot.
Context `{Jsonb} `{WritePlatform} `{SqlEngine}.
Context (env : WriteEnv).

(** What is checked of a table before the catalog is asked anything. *)
Definition check_table (table : TableConfig) : result unit BootError :=
  let schema := schema_json table in
  let? _ := map_err (InvalidSchema (t_name table)) (Expr.validate_table_schema schema) in
  let? cols := map_err (ParsingSchema (t_name table)) (Schema.parse schema) in
  map_err (InvalidSortKey (t_name table))
    (Schema.validate_sort_key (Schema.physical_schema cols) (t_sort_key table) (t_packing_key table) (Some (t_ts_column table))).

(** The arm of a table that is not there. *)
Definition create_table (table : TableConfig) : St BootError Hypertable :=
  st_bind (st_map_err (CreatingHypertable (t_name table))
    (catalog_write env (fun _ => Registry.create_hypertable (t_name table) (schema_json table) (partition_spec table)
       (t_sort_key table) (t_packing_key table)))) (fun id =>
  st_bind (st_lift (placement_from table)) (fun placement =>
  st_bind (if decide (placement = Packed) then st_ret tt
           else st_map_err BootCatalog (catalog_write env (fun _ => Registry.set_placement id placement))) (fun _ =>
  st_map_err BootCatalog (catalog_read env (Registry.get_hypertable (t_name table)))))).

Definition ensure_hypertable (table : TableConfig) : St BootError Hypertable := fun s =>
  match catalog_read env (Registry.get_hypertable (t_name table)) s with
  | (Ok existing, s) => (Ok existing, s)
  | (Err (NotFound _), s) => create_table table s
  | (Err e, s) => (Err (BootCatalog e), s)
  end.

Definition ensure_logical_table (table : TableConfig) (hypertable : Hypertable) (ns : Z) : St BootError unit := fun s =>
  match catalog_read env (Registry.get_logical_table ns (t_name table)) s with
  | (Ok _, s) => (Ok tt, s)
  | (Err (NotFound _), s) =>
      st_bind (st_map_err (CreatingLogicalTable (t_name table) ns)
        (catalog_write env (fun _ => Registry.create_logical_table ns (t_name table) (ht_id hypertable)))) (fun _ => st_ret tt) s
  | (Err e, s) => (Err (BootCatalog e), s)
  end.

(** [for x in l]: the body of each, in order, until one fails. *)
Fixpoint st_for {A} (body : A -> St BootError unit) (l : list A) : St BootError unit :=
  match l with
  | [] => st_ret tt
  | x :: l => st_bind (body x) (fun _ => st_for body l)
  end.

Definition apply_table (table : TableConfig) : St BootError unit :=
  st_bind (st_lift (check_table table)) (fun _ =>
  st_bind (ensure_hypertable table) (fun hypertable =>
  st_for (ensure_logical_table table hypertable) (namespaces table))).

Definition apply (tables : list TableConfig) : St BootError unit := st_for apply_table tables.

(** ** Pipelines *)

Definition definition_of (p : MvPipelineConfig) (source target : Hypertable) : PipelineDefinition :=
  mkPipelineDefinition (p_name p) (Parquet (ht_id source)) (ht_id target) (p_sql p) ExactlyOnce (p_error_policy p) None.

Definition apply_pipeline (clock : nat -> Z) (limits : ExecutionLimits) (p : MvPipelineConfig) : St BootError unit :=
  st_bind (st_map_err BootCatalog (catalog_read env (Registry.get_hypertable (p_source p)))) (fun source =>
  st_bind (st_map_err BootCatalog (catalog_read env (Registry.get_hypertable (p_target p)))) (fun target =>
  st_bind (st_lift (map_err BootExpr (Expr.validate_table_schema (table_schema source)))) (fun _ =>
  st_bind (st_lift (map_err BootExpr (Expr.validate_table_schema (table_schema target)))) (fun _ =>
  st_bind (st_lift (map_err BootSchema (Schema.parse (table_schema source)))) (fun cols =>
  st_bind (fun s => (map_err (PreparingPipeline (p_name p))
     (prepare_pipeline (clock (sy_calls s)) (ht_name source) (p_sql p) (Schema.query_schema cols) limits), s)) (fun prepared =>
  st_bind (st_lift (map_err BootWrite (validate_output_schema (output_schema prepared) target))) (fun _ =>
  st_bind (st_map_err BootCatalog (catalog_write env (fun _ => Pipelines.ensure_pipeline (definition_of p source target)))) (fun _ =>
  st_ret tt)))))))).

Definition apply_pipelines (clock : nat -> Z) (limits : ExecutionLimits) (ps : list MvPipelineConfig) : St BootError unit :=
  st_for (apply_pipeline clock limits) ps.

End boot.
End Bootstrap.
