(* ===== verification/BootstrapSpec.v ===== *)
(** * What a boot leaves in the catalog

    It adds what is missing and alters nothing that was there; what it reported
    made is there, and a later boot only reads it. *)

From S2P Require Import Prelude Json Types Arrow Schema CatalogError CatalogDb Tables Pipelines Batches Expr Compactor Write Publish SqlPipeline Config Bootstrap Health Recovery Supervisor ConfigSpec CommitExamples CompactorSpec IngestExamples MvSpec.
Import CatalogError CatalogDb Batches Write Publish SqlPipeline Execute Config Bootstrap.

Module BootstrapSpec.

(** ** Steps that keep an invariant of the catalog *)

Section invariant.
Context (Inv : DbState -> Prop).

(** From the invariant to the invariant, and to [P] of a value it returns. *)
Definition spec {E A} (m : St E A) (P : A -> Prop) : Prop :=
  forall s r s', Inv (sy_db s) -> m s = (r, s') -> Inv (sy_db s') /\ forall a, r = Ok a -> P a.

Lemma spec_pure {E A} (m : St E A) (P : A -> Prop) : (forall s, (m s).2 = s /\ forall a, (m s).1 = Ok a -> P a) -> spec m P.
Proof. intros H s r s' I E1. specialize (H s). rewrite E1 in H. simpl in H. destruct H as [-> H]. by split. Qed.

Lemma spec_bind {E A B} (m : St E A) (k : A -> St E B) P Q : spec m P -> (forall a, P a -> spec (k a) Q) -> spec (st_bind m k) Q.
Proof.
  intros M K s r s' I. unfold st_bind. destruct (m s) as [[a|e] s1] eqn:E1; destruct (M _ _ _ I E1) as [I1 Pa].
  - by apply K; [apply Pa|].
  - by intros [= <- <-].
Qed.

Lemma spec_map_err {E F A} (f : E -> F) (m : St E A) P : spec m P -> spec (st_map_err f m) P.
Proof.
  intros M s r s' I. unfold st_map_err. destruct (m s) as [[a|e] s1] eqn:E1; intros [= <- <-]; destruct (M _ _ _ I E1) as [I1 Pa]; split; try done.
  intros x [= <-]. by apply Pa.
Qed.

Lemma spec_for {A} (body : A -> St BootError unit) l :
  (forall x, x ∈ l -> spec (body x) (fun _ => True)) -> spec (st_for body l) (fun _ => True).
Proof.
  induction l as [|x l IH]; intros B; simpl; [by apply spec_pure|]. eapply spec_bind; [apply B; left|].
  intros _ _. apply IH. intros y Hy. apply B. by right.
Qed.

Context (env : WriteEnv).
Context (peers_Inv : forall n d, Inv d -> Inv (peers_at env n d)).

Lemma spec_read {A} (f : Tables -> result A CatalogError) : spec (catalog_read env f) (fun _ => True).
Proof. intros s r s' I. unfold catalog_read. destruct (read_fails env _); intros [= <- <-]; split; try done; by apply peers_Inv. Qed.

Lemma spec_write {A} (f : Z -> DbState -> result A CatalogError * DbState) (P : A -> Prop) :
  (forall t d, Inv d -> Inv (f t d).2 /\ forall a, (f t d).1 = Ok a -> P a) -> spec (catalog_write env f) P.
Proof.
  intros F s r s' I. unfold catalog_write. specialize (peers_Inv (sy_calls s) _ I) as I1.
  destruct (F (clock_at env (sy_calls s)) _ I1) as [I2 Pa]. unfold autocommit.
  destruct (outcome_at env (sy_calls s)) as [|e []].
  - destruct (f _ _) as [x d]; intros [= <- <-]. by split.
  - by intros [= <- <-].
  - by intros [= <- <-].
Qed.

(** What the statements of a boot are held to; [ok_id]: of the tables it may alter. *)
Context `{Jsonb} `{WritePlatform} `{SqlEngine}.
Context (ok_id : HypertableId -> Prop).
Context (create_Inv : forall name schema part sk pk d, Inv d ->
  Inv (Registry.create_hypertable name schema part sk pk d).2 /\
  forall id, (Registry.create_hypertable name schema part sk pk d).1 = Ok id -> ok_id id).
Context (place_Inv : forall id p d, ok_id id -> Inv d -> Inv (Registry.set_placement id p d).2).
Context (logical_Inv : forall ns name ht d, Inv d -> Inv (Registry.create_logical_table ns name ht d).2).
Context (pipeline_Inv : forall def d, Inv d -> Inv (Pipelines.ensure_pipeline def d).2).

Lemma create_table_spec table : spec (create_table env table) (fun _ => True).
Proof.
  eapply spec_bind; [apply spec_map_err, (spec_write _ ok_id); intros _ d I; by apply create_Inv|].
  intros id Hid. eapply (spec_bind _ _ (fun _ => True)); [by apply spec_pure|]. intros placement _.
  eapply (spec_bind _ _ (fun _ => True)); [|intros _ _; apply spec_map_err, spec_read].
  case_decide; [by apply spec_pure|]. apply spec_map_err, spec_write. intros _ d I. split; [by apply place_Inv|done].
Qed.

Lemma ensure_hypertable_spec table : spec (ensure_hypertable env table) (fun _ => True).
Proof.
  intros s r s' I. unfold ensure_hypertable. destruct (catalog_read env _ s) as [r1 s1] eqn:E1. apply spec_read in E1 as [I1 _]; [|done].
  destruct r1 as [h|[]]; try (by intros [= <- <-]). by apply create_table_spec.
Qed.

Lemma ensure_logical_spec table h ns : spec (ensure_logical_table env table h ns) (fun _ => True).
Proof.
  intros s r s' I. unfold ensure_logical_table. destruct (catalog_read env _ s) as [r1 s1] eqn:E1. apply spec_read in E1 as [I1 _]; [|done].
  destruct r1 as [l|[]]; try (by intros [= <- <-]).
  intros R. refine (spec_bind _ _ (fun _ => True) (fun _ => True) _ _ _ _ _ I1 R); [|intros _ _; by apply spec_pure].
  apply spec_map_err, spec_write. intros _ d Hd. split; [by apply logical_Inv|done].
Qed.

Lemma apply_table_spec table : spec (apply_table env table) (fun _ => True).
Proof.
  eapply (spec_bind _ _ (fun _ => True)); [by apply spec_pure|]. intros _ _. eapply spec_bind; [apply ensure_hypertable_spec|].
  intros h _. apply spec_for. intros ns _. apply ensure_logical_spec.
Qed.

Lemma apply_spec tables : spec (apply env tables) (fun _ => True).
Proof. apply spec_for. intros t _. apply apply_table_spec. Qed.

Lemma apply_pipeline_spec clock limits p : spec (apply_pipeline env clock limits p) (fun _ => True).
Proof.
  unfold apply_pipeline. do 2 (eapply spec_bind; [apply spec_map_err, spec_read|intros ? _]).
  do 5 (eapply (spec_bind _ _ (fun _ => True)); [by apply spec_pure|intros ? _]).
  eapply (spec_bind _ _ (fun _ => True)); [|intros ? _; by apply spec_pure].
  apply spec_map_err, spec_write. intros _ d I. split; [by apply pipeline_Inv|done].
Qed.

Lemma apply_pipelines_spec clock limits ps : spec (apply_pipelines env clock limits ps) (fun _ => True).
Proof. apply spec_for. intros p _. apply apply_pipeline_spec. Qed.
End invariant.

End BootstrapSpec.

(** * A boot adds and alters nothing; what it made is there *)

Import CatalogError CatalogDb Batches Write Publish SqlPipeline Execute Config Bootstrap BootstrapSpec.

Module BootstrapTheorems.

(** ** Nothing that exists is altered *)

Record adds (d d' : DbState) : Prop := {
  ad_hypertables : forall h, h ∈ hypertables (tables d) -> h ∈ hypertables (tables d');
  ad_logical : forall l, l ∈ logical_tables (tables d) -> l ∈ logical_tables (tables d');
  ad_pipelines : forall p, p ∈ pipelines (tables d) -> p ∈ pipelines (tables d');
  ad_ids : hypertables_id_seq (seqs d) <= hypertables_id_seq (seqs d');
}.

#[export] Instance adds_preorder : PreOrder adds.
Proof.
  split; [intros d; split; (done || lia)|]. intros a b c [A1 A2 A3 A4] [B1 B2 B3 B4]. split; [auto..|lia].
Qed.

Lemma adds_same d d' : tables d' = tables d -> hypertables_id_seq (seqs d) <= hypertables_id_seq (seqs d') -> adds d d'.
Proof. intros E L. split; rewrite ?E; done. Qed.

Lemma create_hypertable_adds name schema part sk pk d :
  adds d (Registry.create_hypertable name schema part sk pk d).2 /\
  forall id, (Registry.create_hypertable name schema part sk pk d).1 = Ok id -> hypertables_id_seq (seqs d) < id.
Proof.
  destruct (Registry.create_hypertable _ _ _ _ _ d) as [[id|e] d'] eqn:E1; apply Registry.create_hypertable_cases in E1; simpl.
  - destruct E1 as (-> & S & _ & _ & T). split; [|intros ? [= <-]; lia].
    split; rewrite ?T, ?S; simpl; (try done || lia). intros h Hh. apply elem_of_app. by left.
  - destruct E1. split; [|done]. by apply adds_same.
Qed.

Lemma create_logical_adds ns name ht d : adds d (Registry.create_logical_table ns name ht d).2.
Proof.
  unfold Registry.create_logical_table. simpl. destruct (List.existsb _ _); [by apply adds_same|].
  destruct (negb _); [by apply adds_same|]. split; simpl; (try done). intros l Hl. apply elem_of_app. by left.
Qed.

Lemma ensure_pipeline_adds def d : adds d (Pipelines.ensure_pipeline def d).2.
Proof.
  assert (S : hypertables_id_seq (seqs d) <= hypertables_id_seq (seqs (Pipelines.ensure_pipeline def d).2)).
  { unfold Pipelines.ensure_pipeline. destruct (Pipelines.pipeline_def_invalid def); [done|].
    destruct (Pipelines.find_pipeline _ _) as [row|]; [destruct (Pipelines.pipeline row); [|done]; by case_bool_decide|].
    destruct (_ || _); [done|]. destruct (Pipelines.would_cycle _ _); [done|]. simpl. by destruct (Pipelines.pipeline _). }
  destruct (Pipelines.ensure_pipeline def d) as [r d'] eqn:E1. simpl in *.
  apply Pipelines.ensure_pipeline_cases in E1 as [[T _]|(id & _ & _ & _ & _ & _ & T)]; [by apply adds_same|].
  split; rewrite ?T; simpl; try done. intros p Hp. apply elem_of_app. by left.
Qed.

(** Placing a table leaves the others. *)
Lemma set_placement_other id p d h :
  ht_id h <> id -> h ∈ hypertables (tables d) -> h ∈ hypertables (tables (Registry.set_placement id p d).2).
Proof.
  intros N I. unfold Registry.set_placement. destruct (_ && _); [done|]. simpl. apply list_elem_of_In, List.in_map_iff.
  exists h. rewrite (proj2 (Z.eqb_neq _ _) N). by rewrite <-list_elem_of_In.
Qed.

Lemma set_placement_rest id p d :
  logical_tables (tables (Registry.set_placement id p d).2) = logical_tables (tables d) /\
  pipelines (tables (Registry.set_placement id p d).2) = pipelines (tables d) /\
  seqs (Registry.set_placement id p d).2 = seqs d.
Proof. unfold Registry.set_placement. by destruct (_ && _). Qed.

Section theorems.
Context `{Jsonb} `{WritePlatform} `{SqlEngine}.
Context (env : WriteEnv).

(** A boot creates what is missing and alters nothing that exists: wherever
    it fails and whatever fails, every hypertable that was there -- its schema, its
    sort key, its placement -- every logical table and every pipeline is there as
    it was, as long as the other processes alter nothing either. *)
Theorem boots_only_add clock limits tables ps s r s' :
  (forall n d, adds d (peers_at env n d)) ->
  (forall h, h ∈ hypertables (CatalogDb.tables (sy_db s)) -> ht_id h <= hypertables_id_seq (seqs (sy_db s))) ->
  st_bind (apply env tables) (fun _ => apply_pipelines env clock limits ps) s = (r, s') ->
  adds (sy_db s) (sy_db s').
Proof.
  intros P Ids R. set (d0 := sy_db s) in *.
  assert (Pi : forall n d, adds d0 d -> adds d0 (peers_at env n d)) by (intros n d A; by rewrite A).
  set (ok := fun id => hypertables_id_seq (seqs d0) < id).
  assert (Ci : forall name schema part sk pk d, adds d0 d -> adds d0 (Registry.create_hypertable name schema part sk pk d).2 /\
    forall id, (Registry.create_hypertable name schema part sk pk d).1 = Ok id -> ok id).
  { intros name schema part sk pk d A. destruct (create_hypertable_adds name schema part sk pk d) as [B F]. split; [by rewrite A|].
    intros id Hid%F. unfold ok. pose proof (ad_ids _ _ A). lia. }
  assert (Si : forall id p d, ok id -> adds d0 d -> adds d0 (Registry.set_placement id p d).2).
  { intros id p d K [A1 A2 A3 A4]. destruct (set_placement_rest id p d) as (E1 & E2 & E3).
    split; rewrite ?E1, ?E2, ?E3; try done. intros h Hh. apply set_placement_other; [|by apply A1]. apply Ids in Hh. unfold ok in K. lia. }
  assert (Li : forall ns name ht d, adds d0 d -> adds d0 (Registry.create_logical_table ns name ht d).2)
    by (intros ns name ht d A; etrans; [exact A|apply create_logical_adds]).
  assert (Di : forall def d, adds d0 d -> adds d0 (Pipelines.ensure_pipeline def d).2)
    by (intros def d A; etrans; [exact A|apply ensure_pipeline_adds]).
  refine (proj1 (spec_bind (adds d0) _ _ (fun _ => True) (fun _ => True) _ _ s r s' _ R)); [| |done].
  - by apply (apply_spec (adds d0) env Pi ok Ci Si Li).
  - intros _ _. by apply (apply_pipelines_spec (adds d0) env Pi Di).
Qed.

End theorems.
End BootstrapTheorems.

(** * A boot that succeeds is settled: later boots only read *)

Import CatalogError CatalogDb Batches Write Publish SqlPipeline Execute Config Bootstrap BootstrapSpec.

Module BootstrapSettles.

(** ** Lookups that stay *)

Definition same_table (h h' : Hypertable) : Prop := h' = Registry.replace_placement (Types.placement h') h.

(** What a name finds, it goes on finding -- of a hypertable, up to its placement. *)
Record keeps (d d' : DbState) : Prop := {
  kp_hypertable : forall name h, Registry.get_hypertable name (tables d) = Ok h ->
    exists h', Registry.get_hypertable name (tables d') = Ok h' /\ same_table h h';
  kp_logical : forall ns name l, Registry.get_logical_table ns name (tables d) = Ok l ->
    Registry.get_logical_table ns name (tables d') = Ok l;
  kp_pipeline : forall name p, Pipelines.get_pipeline (tables d) name = Ok p -> Pipelines.get_pipeline (tables d') name = Ok p;
}.

#[local] Instance same_table_preorder : PreOrder same_table.
Proof. split; [by intros []|]. unfold same_table. intros a b c E1 E2. rewrite E2, E1. done. Qed.

#[export] Instance keeps_preorder : PreOrder keeps.
Proof.
  split; [intros d; split; eauto; intros name h Hh; by exists h|]. intros a b c [A1 A2 A3] [B1 B2 B3]. split; auto.
  intros name h (h' & F & S)%A1. destruct (B1 _ _ F) as (h'' & F' & S'). exists h''. split; [done|by etrans].
Qed.

Lemma keeps_same d d' : tables d' = tables d -> keeps d d'.
Proof. intros E. split; rewrite E; eauto. intros name h Hh. by exists h. Qed.

Lemma ok_or_Ok {A E} (o : option A) (e : E) a : ok_or o e = Ok a <-> o = Some a.
Proof. destruct o; simpl; naive_solver. Qed.

Lemma find_app_some {A} (g : A -> bool) l l' x : List.find g l = Some x -> List.find g (l ++ l') = Some x.
Proof. induction l as [|y l IH]; simpl; [done|]. by destruct (g y). Qed.

Lemma find_of_map {A} (g : A -> bool) (f : A -> A) l : (forall x, g (f x) = g x) ->
  List.find g (List.map f l) = f <$> List.find g l.
Proof. intros H. induction l as [|x l IH]; simpl; [done|]. rewrite H. by destruct (g x). Qed.

Lemma create_hypertable_keeps name schema part sk pk d : keeps d (Registry.create_hypertable name schema part sk pk d).2.
Proof.
  destruct (Registry.create_hypertable _ _ _ _ _ d) as [[id|e] d'] eqn:E1; apply Registry.create_hypertable_cases in E1; simpl.
  - destruct E1 as (-> & _ & _ & _ & T). split; rewrite ?T; eauto. intros nm h Hh. exists h. split; [|by destruct h].
    unfold Registry.get_hypertable in *. simpl. apply ok_or_Ok in Hh. by rewrite (find_app_some _ _ _ _ Hh).
  - destruct E1. by apply keeps_same.
Qed.

Lemma set_placement_keeps id p d : keeps d (Registry.set_placement id p d).2.
Proof.
  unfold Registry.set_placement. destruct (_ && _); [done|]. simpl. split; simpl; eauto. intros name h.
  unfold Registry.get_hypertable. simpl. rewrite !ok_or_Ok. intros F.
  rewrite find_of_map by (intros x; by destruct (ht_id x =? id)). rewrite F. simpl. eexists. split; [done|]. by destruct (ht_id h =? id), h.
Qed.

Lemma create_logical_keeps ns name ht d : keeps d (Registry.create_logical_table ns name ht d).2.
Proof.
  unfold Registry.create_logical_table. simpl. destruct (List.existsb _ _); [by apply keeps_same|].
  destruct (negb _); [by apply keeps_same|]. split; simpl; eauto; [intros nm h Hh; by exists h|]. intros n nm l.
  unfold Registry.get_logical_table. simpl. rewrite !ok_or_Ok. apply find_app_some.
Qed.

Lemma ensure_pipeline_keeps def d : keeps d (Pipelines.ensure_pipeline def d).2.
Proof.
  destruct (Pipelines.ensure_pipeline def d) as [r d'] eqn:E1. simpl.
  apply Pipelines.ensure_pipeline_cases in E1 as [[T _]|(id & _ & _ & _ & _ & _ & T)]; [by apply keeps_same|].
  split; rewrite ?T; simpl; eauto; [intros nm h Hh; by exists h|]. intros nm p. unfold Pipelines.get_pipeline.
  destruct (Pipelines.find_pipeline (tables d) nm) as [row|] eqn:F; simpl; [|done].
  unfold Pipelines.find_pipeline in *. simpl. by rewrite (find_app_some _ _ _ _ F).
Qed.

Section theorems.
Context `{Jsonb} `{WritePlatform} `{SqlEngine}.

(** ** What a step that succeeded leaves *)

Definition in_place (table : TableConfig) (d : DbState) : Prop :=
  check_table table = Ok tt /\
  (exists h, Registry.get_hypertable (t_name table) (tables d) = Ok h) /\
  forall ns, ns ∈ namespaces table -> exists l, Registry.get_logical_table ns (t_name table) (tables d) = Ok l.

Definition defined (p : MvPipelineConfig) (d : DbState) : Prop :=
  exists source target pl,
    Registry.get_hypertable (p_source p) (tables d) = Ok source /\ Registry.get_hypertable (p_target p) (tables d) = Ok target /\
    Pipelines.get_pipeline (tables d) (p_name p) = Ok pl /\ pl_definition pl = definition_of p source target.

Lemma in_place_keeps table d d' : keeps d d' -> in_place table d -> in_place table d'.
Proof.
  intros [K1 K2 _] (C & (h & (h' & Hh & _)%K1) & L). split; [done|]. split; [by exists h'|].
  intros ns (l & Hl%K2)%L. by exists l.
Qed.

Lemma defined_keeps p d d' : keeps d d' -> defined p d -> defined p d'.
Proof.
  intros [K1 _ K3] (s & t & pl & (s' & S & Es)%K1 & (t' & T & Et)%K1 & P%K3 & D). exists s', t', pl. split_and!; try done.
  rewrite D, Es, Et. done.
Qed.

Section boot.
Context (env : WriteEnv).

Lemma read_Ok {A} (f : Tables -> result A CatalogError) s a s' : catalog_read env f s = (Ok a, s') -> f (tables (sy_db s')) = Ok a.
Proof. unfold catalog_read. destruct (read_fails env _); [done|]. intros R. injection R as R <-. done. Qed.

Lemma write_Ok {A} (f : Z -> DbState -> result A CatalogError * DbState) s a s' :
  catalog_write env f s = (Ok a, s') -> exists d t, f t d = (Ok a, sy_db s').
Proof.
  unfold catalog_write, autocommit. destruct (outcome_at env _) as [|e []]; try done.
  destruct (f _ _) as [r d] eqn:E1. intros [= -> <-]. eauto.
Qed.

Context (peers_keep : forall n d, keeps d (peers_at env n d)).

Lemma spec_keeps {E A} (m : St E A) P : (forall d0, spec (keeps d0) m P) -> forall s r s', m s = (r, s') -> keeps (sy_db s) (sy_db s').
Proof. intros S s r s' R. by destruct (S (sy_db s) s r s' (reflexivity _) R). Qed.

Ltac keeps_tac := intros d0; repeat intro;
  first [split; [etrans; [eassumption|]|done]|etrans; [eassumption|]];
  first [apply peers_keep|apply create_hypertable_keeps|apply set_placement_keeps|apply create_logical_keeps|apply ensure_pipeline_keeps].

Lemma logical_keeps table h ns s r s' : ensure_logical_table env table h ns s = (r, s') -> keeps (sy_db s) (sy_db s').
Proof. apply spec_keeps with (P := fun _ => True). intros d0. apply ensure_logical_spec; revert d0; keeps_tac. Qed.

Lemma table_keeps table s r s' : apply_table env table s = (r, s') -> keeps (sy_db s) (sy_db s').
Proof. apply spec_keeps with (P := fun _ => True). intros d0. apply (apply_table_spec (keeps d0) env) with (ok_id := fun _ => True); revert d0; keeps_tac. Qed.

Lemma pipeline_keeps clock limits p s r s' : apply_pipeline env clock limits p s = (r, s') -> keeps (sy_db s) (sy_db s').
Proof. apply spec_keeps with (P := fun _ => True). intros d0. apply apply_pipeline_spec; revert d0; keeps_tac. Qed.

(** A loop leaves what each of its bodies left. *)
Lemma for_settles {A} (body : A -> St BootError unit) (Q : A -> DbState -> Prop) l :
  (forall x s r s', body x s = (r, s') -> keeps (sy_db s) (sy_db s')) ->
  (forall x d d', keeps d d' -> Q x d -> Q x d') ->
  (forall x s s', x ∈ l -> body x s = (Ok tt, s') -> Q x (sy_db s')) ->
  forall s s', st_for body l s = (Ok tt, s') -> (forall x, x ∈ l -> Q x (sy_db s')) /\ keeps (sy_db s) (sy_db s').
Proof.
  intros Kb KQ. induction l as [|x l IH]; intros B s s'; simpl; [intros [= <-]; by split; [intros x Hx%elem_of_nil|]|].
  intros ([] & s1 & R1 & R2)%st_bind_Ok. destruct (IH ltac:(intros y a b Hy; apply B; by right) s1 s' R2) as [Q1 K1].
  pose proof (Kb _ _ _ _ R1) as K0. split; [|by etrans]. intros y [->|Hy]%elem_of_cons; [|by apply Q1].
  eapply KQ; [exact K1|]. by eapply B; [left|].
Qed.

Lemma hypertable_settles table s h s' : ensure_hypertable env table s = (Ok h, s') ->
  Registry.get_hypertable (t_name table) (tables (sy_db s')) = Ok h.
Proof.
  unfold ensure_hypertable. destruct (catalog_read env _ s) as [[h1|[]] s1] eqn:E1; try done.
  - intros [= -> <-]. by apply read_Ok in E1.
  - unfold create_table. intros (id & s2 & _ & (pl & s3 & _ & ([] & s4 & _ & R)%st_bind_Ok)%st_bind_Ok)%st_bind_Ok.
    by apply st_map_err_Ok, read_Ok in R.
Qed.

Lemma logical_settles table h ns s s' : ensure_logical_table env table h ns s = (Ok tt, s') ->
  exists l, Registry.get_logical_table ns (t_name table) (tables (sy_db s')) = Ok l.
Proof.
  unfold ensure_logical_table. destruct (catalog_read env _ s) as [[l|[]] s1] eqn:E1; try done.
  - intros [= <-]. apply read_Ok in E1. by exists l.
  - intros (id & s2 & (d & t & R)%st_map_err_Ok%write_Ok & [_ <-]%st_lift_Ok)%st_bind_Ok.
    unfold Registry.create_logical_table in R. simpl in R. destruct (List.existsb _ (logical_tables _)) eqn:X; [done|]. destruct (negb _); [done|].
    injection R as <- D. rewrite <-D. unfold Registry.get_logical_table. simpl. eexists. apply ok_or_Ok.
    rewrite Pipelines.find_app_last. destruct (List.find _ (logical_tables _)) as [y|] eqn:F; [|by rewrite Z.eqb_refl, String.eqb_refl].
    apply List.find_some in F as [I F]. apply not_true_iff_false in X. destruct X. apply List.existsb_exists. by exists y.
Qed.

Lemma table_settles table s s' : apply_table env table s = (Ok tt, s') -> in_place table (sy_db s').
Proof.
  unfold apply_table. intros ([] & s1 & [C ->]%st_lift_Ok & (h & s2 & R & L)%st_bind_Ok)%st_bind_Ok.
  apply hypertable_settles in R.
  destruct (for_settles (ensure_logical_table env table h)
    (fun ns d => exists l, Registry.get_logical_table ns (t_name table) (tables d) = Ok l) (namespaces table)) with (s := s2) (s' := s') as [Q [K _ _]]; try done.
  - intros ns s0 r s0'. apply logical_keeps.
  - intros ns d d' K (l & Hl). exists l. by apply (kp_logical _ _ K).
  - intros ns s0 s0' _. apply logical_settles.
  - split; [done|]. split; [|done]. destruct (K _ _ R) as (h' & Hh & _). by exists h'.
Qed.

Lemma read_keeps {A} (f : Tables -> result A CatalogError) s r s' : catalog_read env f s = (r, s') -> keeps (sy_db s) (sy_db s').
Proof. unfold catalog_read. destruct (read_fails env _); intros [= _ <-]; apply peers_keep. Qed.

Lemma pipeline_settles clock limits p s s' : apply_pipeline env clock limits p s = (Ok tt, s') -> defined p (sy_db s').
Proof.
  unfold apply_pipeline. intros (source & s1 & S%st_map_err_Ok & (target & s2 & T%st_map_err_Ok & R)%st_bind_Ok)%st_bind_Ok.
  apply st_bind_Ok in R as ([] & s3 & [_ ->]%st_lift_Ok & R). apply st_bind_Ok in R as ([] & s3 & [_ ->]%st_lift_Ok & R).
  apply st_bind_Ok in R as (cols & s3 & [_ ->]%st_lift_Ok & R). apply st_bind_Ok in R as (prepared & s3 & P & R).
  injection P as _ <-. apply st_bind_Ok in R as ([] & s3 & [_ ->]%st_lift_Ok & R).
  apply st_bind_Ok in R as (pl & s3 & W%st_map_err_Ok & [_ ->]%st_lift_Ok).
  assert (K : keeps (sy_db s2) (sy_db s3)).
  { revert W. apply spec_keeps with (P := fun _ => True). intros d0. apply spec_write; revert d0; keeps_tac. }
  apply read_Ok in S. pose proof (read_keeps _ _ _ _ T) as K1. apply read_Ok in T.
  apply write_Ok in W as (d & t & (D & G & _)%Pipelines.pipeline_definition_round_trip).
  destruct (kp_hypertable _ _ K1 _ _ S) as (s1' & S1 & E1). destruct (kp_hypertable _ _ K _ _ S1) as (s' & S2 & E2).
  destruct (kp_hypertable _ _ K _ _ T) as (t' & T2 & E3). exists s', t', pl. split_and!; try done. rewrite D, E2, E1, E3. done.
Qed.

Lemma boot_settles clock limits tables ps s s' :
  st_bind (apply env tables) (fun _ => apply_pipelines env clock limits ps) s = (Ok tt, s') ->
  (forall t, t ∈ tables -> in_place t (sy_db s')) /\ (forall p, p ∈ ps -> defined p (sy_db s')).
Proof.
  intros ([] & s1 & R1 & R2)%st_bind_Ok.
  apply (for_settles _ in_place) in R1 as [Q1 _]; [|apply table_keeps|apply in_place_keeps|intros t a b _; apply table_settles].
  apply (for_settles _ defined) in R2 as [Q2 K]; [|apply pipeline_keeps|apply defined_keeps|intros t a b _; apply pipeline_settles].
  split; [|done]. intros t Ht%Q1. by eapply in_place_keeps.
Qed.
End boot.

(** ** A boot over it *)

Section again.
Context (env : WriteEnv).
Context (alone : forall n d, peers_at env n d = d).
Context (healthy : forall n, read_fails env n = None).

Lemma read_alone {A} (f : Tables -> result A CatalogError) s :
  exists s', catalog_read env f s = (f (tables (sy_db s)), s') /\ sy_db s' = sy_db s.
Proof. unfold catalog_read. rewrite healthy, alone. by eexists. Qed.

Lemma for_again {A} (body : A -> St BootError unit) d l :
  (forall x s, x ∈ l -> sy_db s = d -> exists s', body x s = (Ok tt, s') /\ sy_db s' = d) ->
  forall s, sy_db s = d -> exists s', st_for body l s = (Ok tt, s') /\ sy_db s' = d.
Proof.
  induction l as [|x l IH]; intros B s D; simpl; [by exists s|].
  destruct (B x s (list_elem_of_here _ _) D) as (s1 & R & D1). unfold st_bind. rewrite R. apply IH; [|done].
  intros y s2 Hy. apply B. by right.
Qed.

Lemma table_again table s : in_place table (sy_db s) -> exists s', apply_table env table s = (Ok tt, s') /\ sy_db s' = sy_db s.
Proof.
  intros (C & (h & Hh) & L). unfold apply_table, st_bind, st_lift. rewrite C. unfold ensure_hypertable.
  destruct (read_alone (Registry.get_hypertable (t_name table)) s) as (s1 & R & D). rewrite R, Hh. clear R.
  apply for_again; [|done]. intros ns s2 (l & Hl)%L D2. unfold ensure_logical_table.
  destruct (read_alone (Registry.get_logical_table ns (t_name table)) s2) as (s3 & R & D3).
  rewrite R, D2, Hl. exists s3. split; [done|by rewrite D3].
Qed.

(** Reading alone, in an unchanged catalog. *)
Lemma spec_read_alone {A} d (f : Tables -> result A CatalogError) : spec (eq d) (catalog_read env f) (fun a => f (tables d) = Ok a).
Proof. intros s r s' ->. destruct (read_alone f s) as (s1 & -> & E1). intros [= <- <-]. by split. Qed.

Lemma ensure_again def pl d : Pipelines.get_pipeline (tables d) (pl_name def) = Ok pl -> (Pipelines.ensure_pipeline def d).2 = d.
Proof.
  unfold Pipelines.ensure_pipeline, Pipelines.get_pipeline. destruct (Pipelines.pipeline_def_invalid def); [done|].
  destruct (Pipelines.find_pipeline _ _) as [row|]; simpl; [|done]. intros ->. by case_bool_decide.
Qed.

Lemma pipeline_again clock limits p d : defined p d -> spec (eq d) (apply_pipeline env clock limits p) (fun _ => True).
Proof.
  intros (source & target & pl & S & T & P & D). unfold apply_pipeline.
  eapply spec_bind; [apply spec_map_err, spec_read_alone|]. cbn beta. intros source' S'. rewrite S in S'. injection S' as <-.
  eapply spec_bind; [apply spec_map_err, spec_read_alone|]. cbn beta. intros target' T'. rewrite T in T'. injection T' as <-.
  do 5 (eapply (spec_bind _ _ _ (fun _ => True)); [by apply spec_pure|intros ? _]).
  eapply (spec_bind _ _ _ (fun _ => True)); [|intros ? _; by apply spec_pure].
  apply spec_map_err, spec_write; [by intros n d' <-|]. intros _ d' <-. split; [|done].
  by rewrite (ensure_again _ pl).
Qed.
End again.

(** C29: A boot that succeeds is settled. Whatever other processes do meanwhile --
    they drop no table and no pipeline -- every configured table passed its checks,
    is registered and has a logical table in each of its namespaces, and every
    configured pipeline is defined between its tables exactly as configured; and
    a later boot of the same configuration, left alone with a catalog that
    answers, finds its tables in place and changes nothing. *)
Theorem boot_is_settled env clock limits tables ps s s' :
  (forall n d, keeps d (peers_at env n d)) ->
  st_bind (apply env tables) (fun _ => apply_pipelines env clock limits ps) s = (Ok tt, s') ->
  (forall t, t ∈ tables -> in_place t (sy_db s')) /\ (forall p, p ∈ ps -> defined p (sy_db s')) /\
  forall env' clock' again, (forall n d, peers_at env' n d = d) -> (forall n, read_fails env' n = None) ->
    sy_db again = sy_db s' ->
    exists s1 r s2, apply env' tables again = (Ok tt, s1) /\ apply_pipelines env' clock' limits ps s1 = (r, s2) /\
      sy_db s1 = sy_db s' /\ sy_db s2 = sy_db s'.
Proof.
  intros K R. destruct (boot_settles env K _ _ _ _ _ _ R) as [Q1 Q2]. split; [done|]. split; [done|].
  intros env' clock' again Al He D.
  destruct (for_again (apply_table env') (sy_db s') tables) with (s := again) as (s1 & R1 & D1); [|done|].
  { intros t s0 Ht D0. destruct (table_again env' Al He t s0) as (s3 & R3 & D3); [rewrite D0; by apply Q1|]. exists s3. by rewrite D3. }
  destruct (apply_pipelines env' clock' limits ps s1) as [r s2] eqn:R2. exists s1, r, s2. split_and!; try done.
  symmetry. refine (proj1 (spec_for (eq (sy_db s')) _ ps _ s1 r s2 (eq_sym D1) R2)).
  intros p Hp. apply pipeline_again; [done..|by apply Q2].
Qed.

End theorems.
End BootstrapSettles.

(** * A boot at work, and a placement it loses *)

Import CatalogError CatalogDb Batches Write Publish SqlPipeline Execute Health Recovery Supervisor Config ConfigTheorems Bootstrap BootstrapTheorems BootstrapSettles CommitExamples CompactorExamples IngestExamples MvExamples.

Module BootstrapExamples.

Definition k_config (name : string) (placement : option string) (mb : option Z) : TableConfig :=
  mkTable name None "k" "k" ["k"%string] ["k"%string] placement mb [1; 2] [mkColumn "k" "int64" (Some false) None None None].
Definition copy_config : MvPipelineConfig := mkPipelineConfig "copy" "events" "copy" "SELECT" Stall.

Definition empty_sys : Sys := mkSys empty_db ∅ 0 0.

(** Nobody else acts; the [n]-th call, if any, finds the pool exhausted. *)
Definition boot_env (lost : option nat) : WriteEnv :=
  mkWriteEnv (fun _ d => d) (fun _ => None) (fun n => if decide (lost = Some n) then CatalogDb.Failed PoolTimedOut false else Acked)
    (fun _ => 7) (fun _ => quiet 7) (fun n => pretty n) (fun _ => None).

Definition demo_configs : list TableConfig := [k_config "events" None (Some 64); k_config "copy" None None].
Definition boot (env : WriteEnv) : St BootError unit :=
  st_bind (apply env demo_configs) (fun _ => apply_pipelines env (fun _ => 0) default_limits [copy_config]).
Definition booted := boot (boot_env None) empty_sys.

Example boots : booted.1 = Ok tt /\
  List.map (fun h => (ht_name h, Types.placement h)) (hypertables (tables (sy_db booted.2)))
    = [("events", SizeTargeted 67108864); ("copy", Packed)]%string /\
  len (logical_tables (tables (sy_db booted.2))) = 4 /\ len (pipelines (tables (sy_db booted.2))) = 1.
Proof. by vm_compute. Qed.

Lemma boots_only_add_witness :
  adds (sy_db booted.2) (sy_db (boot (boot_env (Some 9%nat)) booted.2).2).
Proof.
  apply (boots_only_add (boot_env (Some 9%nat)) (fun _ => 0) default_limits demo_configs [copy_config] booted.2
    (boot (boot_env (Some 9%nat)) booted.2).1).
  - by intros n d.
  - apply Forall_forall. vm_compute. repeat constructor; discriminate.
  - unfold boot. rewrite <-surjective_pairing. reflexivity.
Defined.

Lemma boot_is_settled_witness :
  (forall t, t ∈ demo_configs -> in_place t (sy_db booted.2)) /\ defined copy_config (sy_db booted.2).
Proof.
  destruct (boot_is_settled (boot_env None) (fun _ => 0) default_limits demo_configs [copy_config] empty_sys booted.2)
    as (A & B & _); [by intros n d|by vm_compute|].
  split; [exact A|apply B; left].
Defined.

(** ** A placement that is lost *)

(** The placement a table of the catalog has. *)
Definition placement_of (name : string) (s : Sys) : option Placement :=
  match Registry.get_hypertable name (tables (sy_db s)) with Ok h => Some (Types.placement h) | Err _ => None end.

Definition separated : TableConfig := k_config "events" (Some "separated"%string) None.
Definition misspelt : TableConfig := k_config "events" (Some "seperated"%string) None.

Definition first_try := apply (boot_env (Some 2%nat)) [separated] empty_sys.
Definition second_try := apply (boot_env None) [separated] first_try.2.
Definition refused := apply (boot_env None) [misspelt] empty_sys.
Definition restarted := apply (boot_env None) [misspelt] refused.2.

Definition starting : Startup unit BootError :=
  mkStartup "bootstrapping tables" (from_config (catalog demo_cfg) 7) Trying (Health.new 0 [Query]) false.

(** A table's placement is set only in the attempt that creates it. When the
    catalog goes away between the two statements, the recovery of the startup step
    tries again, finds the table and ends in success -- and the table configured
    as separated is packed, then and at every later boot. A misspelt placement
    is refused the same way only once: the table is created before it is read, and
    the restarted process accepts it. *)
Theorem placement_is_lost_on_retry :
  first_try.1 = Err (BootCatalog (Db PoolTimedOut)) /\
  (exists s, startup_run [(1, StepDone first_try.1); (2, StProbed Answered); (3, StepDone second_try.1)] starting = Some s /\
     st_phase s = Started tt) /\
  placement_from separated = Ok Separated /\ placement_of "events" second_try.2 = Some Packed /\
  refused.1 = Err (UnknownPlacement "events" "seperated") /\
  restarted.1 = Ok tt /\ placement_of "events" restarted.2 = Some Packed.
Proof. split_and!; try by vm_compute. eexists. split; [vm_compute; reflexivity|reflexivity]. Qed.

(** A target of 2^43 MiB wraps: the catalog refuses its sign, once. *)
Example target_wraps : target_bytes (2 ^ 43) = - 2 ^ 63 /\ target_bytes (2 ^ 44 + 64) = 67108864.
Proof. by vm_compute. Qed.

End BootstrapExamples.
