(* ===== verification/SkipIndex.v ===== *)
(** * Skip indexes (tools/parquet-skip-index-core, tools/parquet-skip-index, tools/parquet-lab-bench/src/skip_scan.rs)

    The sidecars that let a scan leave row groups out: the three kinds of index
    with their byte encodings, the builder of a manifest over the row groups of a
    variant's files, and the decisions a scan takes from it. The Parquet reader and
    BLAKE3 are parameters. *)

From S2P Require Import Prelude Bytes.

Module SkipIndex.

(** ** Values and predicates (predicate.rs) *)

Definition bytes : Type := list Z.

Inductive Value :=
| Int (i : Z)
| Str (s : bytes).

Inductive Predicate :=
| Eq (v : Value)
| In (vs : list Value)
| Range (lo hi : Value)
| Prefix (p : bytes).

Inductive Decision := NoMatch | Maybe | Unknown.

#[export] Instance Value_eq_dec : EqDecision Value.
Proof. solve_decision. Defined.
#[export] Instance Decision_eq_dec : EqDecision Decision.
Proof. solve_decision. Defined.

Definition skippable (d : Decision) : bool := bool_decide (d = NoMatch).

(** ** Order and bytes of a value (zone_map.rs) *)

(** [Ord] of byte slices. *)
Fixpoint bytes_cmp (a b : bytes) : comparison :=
  match a, b with
  | [], [] => Datatypes.Eq
  | [], _ :: _ => Lt
  | _ :: _, [] => Gt
  | x :: a, y :: b => match Z.compare x y with Datatypes.Eq => bytes_cmp a b | c => c end
  end.

Definition cmp (a b : Value) : option comparison :=
  match a, b with
  | Int x, Int y => Some (Z.compare x y)
  | Str x, Str y => Some (bytes_cmp x y)
  | _, _ => None
  end.

Definition u32_le (z : Z) : bytes := le_bytes 4 z.

(** [bytes.get(p..p + n)?]. *)
Definition get (bs : bytes) (p n : nat) : option bytes :=
  if Nat.leb (p + n) (length bs) then Some (take n (drop p bs)) else None.
Definition get_u32 (bs : bytes) (p : nat) : option nat := (fun b => Z.to_nat (of_le b)) <$> get bs p 4.

Definition encode_value (v : Value) : bytes :=
  match v with
  | Int i => 1 :: le_bytes 8 (i mod 2 ^ 64)
  | Str s => 2 :: u32_le (len s) ++ s
  end.

Definition decode_value (bs : bytes) (p : nat) : option (Value * nat) :=
  tag ← bs !! p;
  if tag =? 1 then raw ← get bs (p + 1) 8; Some (Int (wrap_i64 (of_le raw)), (p + 9)%nat)
  else if tag =? 2 then
    n ← get_u32 bs (p + 1);
    s ← get bs (p + 5) n;
    Some (Str s, (p + 5 + n)%nat)
  else None.

(** ** Zone maps *)

Record ZoneMap := mkZone { bounds : option (Value * Value) }.

Definition flatten {A} (l : list (option A)) : list A := omap id l.

Definition zone_step (acc : option (Value * Value)) (v : Value) : option (Value * Value) :=
  match acc with
  | None => Some (v, v)
  | Some (lo, hi) =>
      Some (match cmp v lo with Some Lt => v | _ => lo end, match cmp v hi with Some Gt => v | _ => hi end)
  end.

Definition zone_build (values : list (option Value)) : ZoneMap :=
  mkZone (List.fold_left zone_step (flatten values) None).

Definition zone_encode (z : ZoneMap) : bytes :=
  90 :: match bounds z with None => [0] | Some (lo, hi) => 1 :: encode_value lo ++ encode_value hi end.

Definition zone_decode (bs : bytes) : option ZoneMap :=
  first ← bs !! 0%nat;
  if negb (first =? 90) then None
  else
    tag ← bs !! 1%nat;
    if tag =? 0 then Some (mkZone None)
    else if tag =? 1 then
      '(lo, p) ← decode_value bs 2;
      '(hi, _) ← decode_value bs p;
      Some (mkZone (Some (lo, hi)))
    else None.

Definition outside (below above : option comparison) : Decision :=
  match below, above with
  | Some Lt, _ => NoMatch
  | _, Some Gt => NoMatch
  | Some _, Some _ => Maybe
  | _, _ => Unknown
  end.

Definition point_decision (v min max : Value) : Decision := outside (cmp v min) (cmp v max).

(** [p] with its last byte below 0xff incremented and the tail dropped. *)
Fixpoint upper_rev (rp : bytes) : option bytes :=
  match rp with
  | [] => None
  | b :: rp => if b <? 0xff then Some (rev ((b + 1) :: rp)) else upper_rev rp
  end.
Definition prefix_upper (p : bytes) : option bytes := upper_rev (rev p).

Definition prefix_decision (p : bytes) (min max : Value) : Decision :=
  match min, max with
  | Str min, Str max =>
      if bool_decide (p = []) then Maybe
      else if bool_decide (bytes_cmp max p = Lt) then NoMatch
      else match prefix_upper p with
           | Some u => if bool_decide (bytes_cmp u min <> Gt) then NoMatch else Maybe
           | None => Maybe
           end
  | _, _ => Unknown
  end.

Fixpoint in_decision (vs : list Value) (min max : Value) (any_maybe : bool) : Decision :=
  match vs with
  | [] => if any_maybe then Maybe else NoMatch
  | v :: vs =>
      match point_decision v min max with
      | NoMatch => in_decision vs min max any_maybe
      | Unknown => Unknown
      | Maybe => in_decision vs min max true
      end
  end.

Definition zone_evaluate (z : ZoneMap) (pred : Predicate) : Decision :=
  match bounds z with
  | None => NoMatch
  | Some (min, max) =>
      match pred with
      | Eq v => point_decision v min max
      | In vs => in_decision vs min max false
      | Range lo hi => outside (cmp hi min) (cmp lo max)
      | Prefix p => prefix_decision p min max
      end
  end.

(** ** Value sets and prefix sets (value_set.rs, prefix_set.rs) *)

(** The elements of a [BTreeSet<Vec<u8>>], in its order. *)
#[export] Instance comparison_eq_dec : EqDecision comparison.
Proof. solve_decision. Defined.
Definition bytes_le (a b : bytes) : Prop := bytes_cmp a b <> Gt.
#[export] Instance bytes_le_dec : RelDecision bytes_le.
Proof. intros a b. unfold bytes_le. apply _. Defined.
Definition iter (s : gset bytes) : list bytes := merge_sort bytes_le (elements s).

(** Inserts the keys until the budget is exceeded. *)
Fixpoint fill (keys : list (option bytes)) (budget : Z) (used : Z) (set : gset bytes) : option (gset bytes) :=
  match keys with
  | [] => Some set
  | None :: _ => None
  | Some k :: keys =>
      if bool_decide (k ∈ set) then fill keys budget used set
      else
        let used := used + len k + 4 in
        if budget <? used then None else fill keys budget used ({[k]} ∪ set)
  end.

Definition value_build (values : list (option Value)) (budget : Z) : option (gset bytes) :=
  fill (List.map (fun v => Some (encode_value v)) (flatten values)) budget 0 ∅.

Definition encode_items (l : list bytes) : bytes := List.flat_map (fun v => u32_le (len v) ++ v) l.

Definition value_encode (s : gset bytes) : bytes := 86 :: u32_le (len (iter s)) ++ encode_items (iter s).

Fixpoint decode_items (n : nat) (bs : bytes) (p : nat) (set : gset bytes) : option (gset bytes) :=
  match n with
  | O => Some set
  | S n =>
      l ← get_u32 bs p;
      v ← get bs (p + 4) l;
      decode_items n bs (p + 4 + l) ({[v]} ∪ set)
  end.

Definition value_decode (bs : bytes) : option (gset bytes) :=
  first ← bs !! 0%nat;
  if negb (first =? 86) then None
  else n ← get_u32 bs 1; decode_items n bs 5 ∅.

Definition value_evaluate (s : gset bytes) (pred : Predicate) : Decision :=
  match pred with
  | Eq v => if bool_decide (encode_value v ∈ s) then Maybe else NoMatch
  | In vs => if List.existsb (fun v => bool_decide (encode_value v ∈ s)) vs then Maybe else NoMatch
  | Range _ _ | Prefix _ => Unknown
  end.

Record PrefixSet := mkPrefixSet { prefix_len : Z; prefixes : gset bytes }.

Definition prefix_key (s : bytes) (l : Z) : bytes := take (Z.to_nat l) s.

Definition prefix_build (values : list (option Value)) (prefix_len budget : Z) : option PrefixSet :=
  mkPrefixSet prefix_len <$>
    fill (List.map (fun v => match v with Str s => Some (prefix_key s prefix_len) | Int _ => None end) (flatten values)) budget 0 ∅.

Definition prefix_encode (s : PrefixSet) : bytes :=
  80 :: u32_le (prefix_len s) ++ u32_le (len (iter (prefixes s))) ++ encode_items (iter (prefixes s)).

Definition prefix_decode (bs : bytes) : option PrefixSet :=
  first ← bs !! 0%nat;
  if negb (first =? 80) then None
  else
    l ← get_u32 bs 1;
    n ← get_u32 bs 5;
    set ← decode_items n bs 9 ∅;
    Some (mkPrefixSet (Z.of_nat l) set).

Definition prefix_evaluate (s : PrefixSet) (pred : Predicate) : Decision :=
  match pred with
  | Prefix p =>
      if len p <? prefix_len s then Unknown
      else if bool_decide (take (Z.to_nat (prefix_len s)) p ∈ prefixes s) then Maybe else NoMatch
  | Eq (Str x) => if bool_decide (prefix_key x (prefix_len s) ∈ prefixes s) then Maybe else NoMatch
  | _ => Unknown
  end.

(** ** Sidecars (sidecar.rs; tools/parquet-lab-contract/src/index.rs) *)

Inductive IndexKind := KZoneMap | KValueSet | KPrefixSet.

Section hash.
(** The hex of BLAKE3. *)
Context (payload_digest : bytes -> string).

Definition evaluate (kind : IndexKind) (payload : bytes) (expected_digest : string) (pred : Predicate) : Decision :=
  if negb (String.eqb (payload_digest payload) expected_digest) then Unknown
  else
    default Unknown
      (match kind with
       | KZoneMap => (fun z => zone_evaluate z pred) <$> zone_decode payload
       | KValueSet => (fun v => value_evaluate v pred) <$> value_decode payload
       | KPrefixSet => (fun p => prefix_evaluate p pred) <$> prefix_decode payload
       end).

Record RowGroupIndex := mkRowGroup {
  row_group : Z;
  rg_kind : IndexKind;
  payload_offset : Z;
  payload_length : Z;
  rg_digest : string;
}.

Record IndexedColumn := mkIndexed {
  ic_column : string;
  ic_kind : IndexKind;
  kind_version : string;
  ic_file : string;
  ic_row_groups : list RowGroupIndex;
}.

(** ** Building one (builder.rs) *)

Record ColumnIndexSpec := mkSpec {
  sp_name : string;
  sp_kind : string;
  budget_bytes : Z;
  sp_prefix_len : Z;
}.

Definition default_budget : Z := 4096.
Definition default_prefix_len : Z := 8.

Definition index_kind (s : string) : result IndexKind string :=
  if String.eqb s "zone_map" then Ok KZoneMap
  else if String.eqb s "value_set" then Ok KValueSet
  else if String.eqb s "prefix_set" then Ok KPrefixSet
  else Err ("unknown skip-index kind '" +:+ s +:+ "'")%string.

(** An Arrow column by its type; [is_null] is [None]. *)
Inductive Column :=
| Int64Col (l : list (option Z))
| Int32Col (l : list (option Z))
| Utf8Col (l : list (option bytes))
| Utf8ViewCol (l : list (option bytes))
| OtherCol (data_type : string).

Definition append_values (c : Column) : result (list (option Value)) string :=
  match c with
  | Int64Col l | Int32Col l => Ok (List.map (fmap Int) l)
  | Utf8Col l | Utf8ViewCol l => Ok (List.map (fmap Str) l)
  | OtherCol t => Err ("skip-index does not support column type " +:+ t)%string
  end.

(** The Parquet reader: a file's leaf columns, its row groups, and the batches
    of one leaf in one row group. *)
Context (leaves : bytes -> result (list string) string).
Context (num_row_groups : bytes -> result nat string).
Context (read_leaf : bytes -> nat -> nat -> result (list (result Column string)) string).

Definition column_values (file : bytes) (rg : nat) (column : string) : result (list (option Value)) string :=
  let? names := leaves file in
  let? leaf := ok_or (fst <$> list_find (fun n => n = column) names) ("column '" +:+ column +:+ "' not found")%string in
  let? batches := read_leaf file rg leaf in
  let? values := mapr (fun b => let? c := b in append_values c) batches in
  Ok (concat values).

Definition build_payload (spec : ColumnIndexSpec) (values : list (option Value)) : option (IndexKind * bytes) :=
  match index_kind (sp_kind spec) with
  | Err _ => None
  | Ok KZoneMap => Some (KZoneMap, zone_encode (zone_build values))
  | Ok KValueSet => (fun v => (KValueSet, value_encode v)) <$> value_build values (budget_bytes spec)
  | Ok KPrefixSet => (fun p => (KPrefixSet, prefix_encode p)) <$> prefix_build values (sp_prefix_len spec) (budget_bytes spec)
  end.

(** One column of one file, from row group [rg] on; the payload grows. *)
Fixpoint index_groups (spec : ColumnIndexSpec) (file : bytes) (rgs : list nat) (payload : bytes)
  : result (list RowGroupIndex * bytes) string :=
  match rgs with
  | [] => Ok ([], payload)
  | rg :: rgs =>
      let? values := column_values file rg (sp_name spec) in
      match build_payload spec values with
      | None => index_groups spec file rgs payload
      | Some (k, bs) =>
          let? (rest, final) := index_groups spec file rgs (payload ++ bs) in
          Ok (mkRowGroup (Z.of_nat rg mod 2 ^ 32) k (len payload) (len bs) (payload_digest bs) :: rest, final)
      end
  end.

Definition last_kind (k : IndexKind) (l : list RowGroupIndex) : IndexKind := default k (rg_kind <$> last l).

Fixpoint index_columns (specs : list ColumnIndexSpec) (path : string) (file : bytes) (n : nat) (payload : bytes)
  : result (list IndexedColumn * bytes) string :=
  match specs with
  | [] => Ok ([], payload)
  | spec :: specs =>
      let? kind := index_kind (sp_kind spec) in
      let? (rgs, payload) := index_groups spec file (seq 0 n) payload in
      let? (rest, payload) := index_columns specs path file n payload in
      Ok (mkIndexed (sp_name spec) (last_kind kind rgs) (sp_kind spec +:+ "/v1")%string path rgs :: rest, payload)
  end.

(** A variant's file: its path and digest, and what is on disk. *)
Record VariantFile := mkVariantFile { vf_path : string; vf_digest : string }.

Context (read_file : string -> result bytes string).

Fixpoint index_files (specs : list ColumnIndexSpec) (files : list VariantFile) (payload : bytes)
  : result (list IndexedColumn * bytes) string :=
  match files with
  | [] => Ok ([], payload)
  | f :: files =>
      let? bs := read_file (vf_path f) in
      if negb (String.eqb (payload_digest bs) (vf_digest f)) then Err (vf_path f)
      else
        let? n := num_row_groups bs in
        let? (columns, payload) := index_columns specs (vf_path f) bs n payload in
        let? (rest, payload) := index_files specs files payload in
        Ok (columns ++ rest, payload)
  end.

(** [build], up to the output directory: every kind must be valid up front. *)
Definition build (specs : list ColumnIndexSpec) (files : list VariantFile) : result (list IndexedColumn * bytes) string :=
  let? _ := mapr (fun s => index_kind (sp_kind s)) specs in
  index_files specs files [].

(** ** Scanning with one (skip_scan.rs) *)

(** [payload.get(a..b)]. *)
Definition slice (payload : bytes) (a b : Z) : option bytes :=
  if (a <=? b) && (b <=? len payload) then Some (take (Z.to_nat (b - a)) (drop (Z.to_nat a) payload)) else None.

Definition decide_group (payload : bytes) (r : RowGroupIndex) (pred : Predicate) : Decision :=
  match slice payload (payload_offset r) ((payload_offset r + payload_length r) mod 2 ^ 64) with
  | None => Unknown
  | Some bs => evaluate (rg_kind r) bs (rg_digest r) pred
  end.

Definition decide (columns : list IndexedColumn) (payload : bytes) (file : string) (rg : nat) (column : string)
    (pred : Predicate) : Decision :=
  match List.find (fun c => String.eqb (ic_column c) column && String.eqb (ic_file c) file) columns with
  | None => Unknown
  | Some c =>
      match List.find (fun r => row_group r =? Z.of_nat rg) (ic_row_groups c) with
      | None => Unknown
      | Some r => decide_group payload r pred
      end
  end.

Record Ledger := mkLedger {
  row_groups_total : Z;
  custom_no_match : Z;
  maybe : Z;
  unknown : Z;
  selected_row_groups : Z;
}.

Definition no_ledger : Ledger := mkLedger 0 0 0 0 0.

(** A file's decisions, without a sidecar every group is [Maybe]. *)
Definition decisions (sidecar : option (list IndexedColumn * bytes)) (file : string) (n : nat) (column : string)
    (pred : Predicate) : list Decision :=
  List.map (fun rg => match sidecar with
                      | Some (columns, payload) => decide columns payload file rg column pred
                      | None => Maybe
                      end) (seq 0 n).

(** The row groups of the access plan. *)
Definition selected (ds : list Decision) : list nat :=
  List.map fst (List.filter (fun x => negb (skippable x.2)) (zip (seq 0 (length ds)) ds)).

Definition count (d : Decision) (ds : list Decision) : Z := len (List.filter (fun x => bool_decide (x = d)) ds).

Definition ledger_file (l : Ledger) (ds : list Decision) : Ledger :=
  mkLedger (row_groups_total l + len ds) (custom_no_match l + count NoMatch ds) (maybe l + count Maybe ds)
    (unknown l + count Unknown ds) (selected_row_groups l + len (selected ds)).
End hash.

End SkipIndex.
