(* ===== verification/SkipIndexSpec.v ===== *)
(** * A skip index never hides a row

    Its payloads read back as built, and a row group it rules out holds no row
    that matches, whatever bytes a scan was handed as its payload -- unless they
    collide under BLAKE3. *)

From S2P Require Import Prelude Bytes SkipIndex.
Import SkipIndex.

Module SkipIndexSpec.

(** ** Little-endian integers *)

Lemma u32_round_trip z : 0 <= z < 2 ^ 32 -> of_le (u32_le z) = z.
Proof. intros B. unfold u32_le. rewrite of_le_bytes. by apply Z.mod_small. Qed.

Lemma i64_round_trip i : in_i64 i -> wrap_i64 (of_le (le_bytes 8 (i mod 2 ^ 64))) = i.
Proof.
  intros B. rewrite of_le_bytes. change (256 ^ Z.of_nat 8) with (2 ^ 64). rewrite Z.mod_mod by done.
  transitivity (wrap_i64 i); [|by apply wrap_i64_id]. unfold wrap_i64. by rewrite Z.add_mod_idemp_l.
Qed.

(** ** Reading at a position *)

Lemma get_mid (a b c : bytes) p n : p = length a -> n = length b -> get (a ++ b ++ c) p n = Some b.
Proof.
  intros -> ->. unfold get. rewrite !length_app. rewrite (proj2 (Nat.leb_le _ _)) by lia.
  by rewrite drop_app_length, take_app_length.
Qed.

Lemma get_u32_mid (a c : bytes) p n : p = length a -> n < 2 ^ 32 -> 0 <= n -> get_u32 (a ++ u32_le n ++ c) p = Some (Z.to_nat n).
Proof. intros -> B N. unfold get_u32. rewrite (get_mid a (u32_le n)) by done. cbn [fmap option_fmap option_map]. by rewrite u32_round_trip. Qed.

Lemma lookup_mid (a : bytes) x c p : p = length a -> (a ++ x :: c) !! p = Some x.
Proof. intros ->. by apply list_lookup_middle. Qed.

(** What a value's encoding can hold. *)
Definition fits (v : Value) : Prop :=
  match v with Int i => in_i64 i | Str s => len s < 2 ^ 32 end.

Lemma value_reads_back v (a c : bytes) p : fits v -> p = length a ->
  decode_value (a ++ encode_value v ++ c) p = Some (v, (p + length (encode_value v))%nat).
Proof.
  intros F ->. unfold decode_value. destruct v as [i|s].
  - cbn [encode_value]. cbn [app]. rewrite lookup_mid by done. cbn [mbind option_bind]. change (1 =? 1) with true. cbv iota.
    replace (a ++ 1 :: le_bytes 8 (i mod 2 ^ 64) ++ c) with ((a ++ [1]) ++ le_bytes 8 (i mod 2 ^ 64) ++ c) by by rewrite <-app_assoc.
    rewrite (get_mid (a ++ [1])); [|by rewrite length_app|by rewrite le_bytes_length].
    cbn [mbind option_bind]. rewrite i64_round_trip by done. do 2 f_equal; simpl; rewrite ?le_bytes_length; lia.
  - cbn [encode_value]. cbn [app]. rewrite lookup_mid by done. cbn [mbind option_bind]. change (2 =? 1) with false. change (2 =? 2) with true. cbv iota.
    replace (a ++ 2 :: (u32_le (len s) ++ s) ++ c) with ((a ++ [2]) ++ u32_le (len s) ++ s ++ c) by by rewrite <-!app_assoc.
    rewrite get_u32_mid; [|by rewrite length_app|done|unfold len; lia]. cbn [mbind option_bind].
    replace ((a ++ [2]) ++ u32_le (len s) ++ s ++ c) with (((a ++ [2]) ++ u32_le (len s)) ++ s ++ c) by by rewrite <-!app_assoc.
    rewrite get_mid; [|rewrite !length_app; unfold u32_le; rewrite le_bytes_length; simpl; lia|unfold len; lia].
    cbn [mbind option_bind]. do 2 f_equal; simpl; rewrite ?length_app; unfold u32_le; rewrite ?le_bytes_length; unfold len; lia.
Qed.

Definition zone_fits (z : ZoneMap) : Prop :=
  match bounds z with None => True | Some (lo, hi) => fits lo /\ fits hi end.

Lemma zone_reads_back z : zone_fits z -> zone_decode (zone_encode z) = Some z.
Proof.
  destruct z as [[[lo hi]|]]; [|done]. intros [F1 F2]. unfold zone_decode, zone_encode. simpl bounds. cbv iota.
  cbn [lookup list_lookup mbind option_bind]. change (negb (90 =? 90)) with false. cbv iota. cbn [lookup list_lookup mbind option_bind].
  change (1 =? 0) with false. change (1 =? 1) with true. cbv iota.
  change (90 :: 1 :: encode_value lo ++ encode_value hi) with ([90; 1] ++ encode_value lo ++ encode_value hi).
  rewrite value_reads_back by done. cbn [mbind option_bind].
  replace ([90; 1] ++ encode_value lo ++ encode_value hi) with (([90; 1] ++ encode_value lo) ++ encode_value hi ++ []) by by rewrite app_nil_r, <-app_assoc.
  by rewrite value_reads_back by (done || by rewrite length_app).
Qed.

Definition items_fit (l : list bytes) : Prop := len l < 2 ^ 32 /\ Forall (fun v => len v < 2 ^ 32) l.

Lemma items_read_back l : Forall (fun v => len v < 2 ^ 32) l -> forall a p set, p = length a ->
  decode_items (length l) (a ++ encode_items l) p set = Some (list_to_set l ∪ set).
Proof.
  intros F. induction F as [|v l B _ IH]; intros a p set ->; cbn [length decode_items encode_items List.flat_map].
  - f_equal. simpl. set_solver.
  - rewrite <-app_assoc. rewrite get_u32_mid; [|done|done|unfold len; lia]. cbn [mbind option_bind].
    rewrite app_assoc. rewrite get_mid; [|rewrite length_app; unfold u32_le; by rewrite le_bytes_length|unfold len; lia]. cbn [mbind option_bind].
    rewrite app_assoc. change (List.flat_map _ l) with (encode_items l). rewrite IH.
    + f_equal. simpl. set_solver.
    + rewrite !length_app. unfold u32_le. rewrite le_bytes_length. unfold len. lia.
Qed.

Lemma iter_set s : list_to_set (iter s) = s.
Proof. unfold iter. apply leibniz_equiv. rewrite (list_to_set_perm _ _ (merge_sort_Permutation _ _)). by rewrite list_to_set_elements. Qed.

Definition set_fits (s : gset bytes) : Prop := items_fit (iter s).

Lemma value_set_reads_back s : set_fits s -> value_decode (value_encode s) = Some s.
Proof.
  intros [L F]. unfold value_decode, value_encode. cbn [lookup list_lookup mbind option_bind]. change (negb (86 =? 86)) with false. cbv iota.
  change (86 :: u32_le (len (iter s)) ++ encode_items (iter s)) with ([86] ++ u32_le (len (iter s)) ++ encode_items (iter s)).
  rewrite get_u32_mid; [|done|done|unfold len; lia]. cbn [mbind option_bind]. rewrite app_assoc.
  replace (Z.to_nat (len (iter s))) with (length (iter s)) by (unfold len; lia).
  rewrite items_read_back; [|done|rewrite length_app; unfold u32_le; by rewrite le_bytes_length].
  f_equal. rewrite iter_set. set_solver.
Qed.

Lemma prefix_set_reads_back s : 0 <= prefix_len s < 2 ^ 32 -> set_fits (prefixes s) -> prefix_decode (prefix_encode s) = Some s.
Proof.
  intros Lp [L F]. unfold prefix_decode, prefix_encode. cbn [lookup list_lookup mbind option_bind]. change (negb (80 =? 80)) with false. cbv iota.
  set (l := iter (prefixes s)) in *. change (80 :: u32_le (prefix_len s) ++ u32_le (len l) ++ encode_items l) with ([80] ++ u32_le (prefix_len s) ++ u32_le (len l) ++ encode_items l).
  rewrite (get_u32_mid [80] _ 1); [|done|lia|lia]. cbn [mbind option_bind]. rewrite (app_assoc [80]).
  rewrite (get_u32_mid _ _ 5); [|rewrite length_app; unfold u32_le; by rewrite le_bytes_length|done|unfold len; lia]. cbn [mbind option_bind].
  rewrite app_assoc. replace (Z.to_nat (len l)) with (length l) by (unfold len; lia).
  rewrite items_read_back; [|done|rewrite !length_app; unfold u32_le; by rewrite !le_bytes_length]. cbn [mbind option_bind].
  f_equal. destruct s as [pl ps]. simpl in *. f_equal; [lia|]. unfold l. rewrite iter_set. set_solver.
Qed.

(** C40: The payload of an index reads back as it was built, for each of the three
    kinds, as long as its integers are [i64]s and its lengths fit the 32 bits they
    are written in -- which a build budget below 4 GiB ensures for the sets. *)
Theorem payloads_round_trip :
  (forall z, zone_fits z -> zone_decode (zone_encode z) = Some z) /\
  (forall s, set_fits s -> value_decode (value_encode s) = Some s) /\
  (forall s, 0 <= prefix_len s < 2 ^ 32 -> set_fits (prefixes s) -> prefix_decode (prefix_encode s) = Some s).
Proof. split; [apply zone_reads_back|]. split; [apply value_set_reads_back|apply prefix_set_reads_back]. Qed.

(** ** The order of values *)

Lemma bytes_cmp_refl a : bytes_cmp a a = Datatypes.Eq.
Proof. induction a as [|x a IH]; simpl; [done|]. by rewrite Z.compare_refl. Qed.

Lemma bytes_cmp_opp a b : bytes_cmp b a = CompOpp (bytes_cmp a b).
Proof. revert b. induction a as [|x a IH]; intros [|y b]; simpl; try done. rewrite (Z.compare_antisym x y). by destruct (x ?= y); simpl. Qed.

Lemma bytes_le_trans a b c : bytes_le a b -> bytes_le b c -> bytes_le a c.
Proof.
  unfold bytes_le. revert b c. induction a as [|x a IH]; intros [|y b] [|z c]; simpl; try done.
  destruct (Z.compare_spec x y), (Z.compare_spec y z), (Z.compare_spec x z); try done; try lia. apply IH.
Qed.

Definition kind (v : Value) : bool := match v with Int _ => true | Str _ => false end.

(** [a <= b], of values of one type. *)
Definition vle (a b : Value) : Prop := exists c, cmp a b = Some c /\ c <> Gt.

Lemma vle_kind a b : vle a b -> kind a = kind b.
Proof. intros (c & H & _). by destruct a, b. Qed.

Lemma cmp_kind a b c : cmp a b = Some c -> kind a = kind b.
Proof. by destruct a, b. Qed.

Lemma cmp_some a b : kind a = kind b -> exists c, cmp a b = Some c.
Proof. destruct a, b; simpl; (done || eauto). Qed.

Lemma vle_refl a : vle a a.
Proof. destruct a; eexists; split; try done; by rewrite ?Z.compare_refl, ?bytes_cmp_refl. Qed.

Lemma vle_trans a b c : vle a b -> vle b c -> vle a c.
Proof.
  intros (x & H1 & N1) (y & H2 & N2). destruct a as [a|a], b as [b|b], c as [c|c]; try done; simpl in *; injection H1 as <-; injection H2 as <-; eexists; (split; [done|]).
  - rewrite !Z.compare_le_iff in *. lia.
  - by eapply bytes_le_trans.
Qed.

Lemma cmp_Lt a b : cmp a b = Some Lt -> ~ vle b a.
Proof.
  intros H (c & H2 & N). destruct a as [a|a], b as [b|b]; try done; simpl in *; injection H as H; injection H2 as H2; subst c.
  - rewrite Z.compare_lt_iff in H. apply N. rewrite Z.compare_gt_iff. lia.
  - apply N. by rewrite bytes_cmp_opp, H.
Qed.

Lemma cmp_Gt a b : cmp a b = Some Gt -> ~ vle a b.
Proof. intros H (c & H2 & N). rewrite H in H2. congruence. Qed.

Lemma cmp_total a b c : cmp a b = Some c -> c <> Lt -> vle b a.
Proof.
  intros H N. destruct a as [a|a], b as [b|b]; try done; simpl in *; injection H as <-; eexists; (split; [done|]).
  - destruct (Z.compare_spec a b); try done; destruct (Z.compare_spec b a); try done; lia.
  - rewrite bytes_cmp_opp. by destruct (bytes_cmp a b).
Qed.

(** ** What a predicate matches, a row at a time *)

Definition vleb (a b : Value) : bool := match cmp a b with Some Lt | Some Datatypes.Eq => true | _ => false end.

Definition matches (v : Value) (pred : Predicate) : bool :=
  match pred with
  | Eq w => bool_decide (v = w)
  | In vs => bool_decide (v ∈ vs)
  | Range lo hi => vleb lo v && vleb v hi
  | Prefix p => match v with Str s => bool_decide (take (length p) s = p) | Int _ => false end
  end.

Lemma vleb_spec a b : vleb a b = true <-> vle a b.
Proof. unfold vleb, vle. destruct (cmp a b) as [[]|]; split; try done; intros; try naive_solver. Qed.

(** ** Zone maps *)

(** Every value of the bounds' type is between them. *)
Definition bounded (acc : option (Value * Value)) (l : list Value) : Prop :=
  match acc with
  | None => l = []
  | Some (lo, hi) => kind lo = kind hi /\ forall v, v ∈ l -> kind v = kind lo -> vle lo v /\ vle v hi
  end.

Lemma zone_step_bounded acc l v : bounded acc l -> bounded (zone_step acc v) (l ++ [v]).
Proof.
  destruct acc as [[lo hi]|]; simpl; [|intros ->].
  - intros [K B]. set (lo' := match cmp v lo with Some Lt => v | _ => lo end). set (hi' := match cmp v hi with Some Gt => v | _ => hi end).
    assert (Lo : kind lo' = kind lo /\ vle lo' lo /\ (kind v = kind lo -> vle lo' v)).
    { unfold lo'. destruct (cmp v lo) as [[]|] eqn:E.
      - split_and!; try done; [apply vle_refl|]. intros _. by apply (cmp_total _ _ _ E).
      - split_and!; [by eapply cmp_kind|by exists Lt|]. intros _. apply vle_refl.
      - split_and!; try done; [apply vle_refl|]. intros _. by apply (cmp_total _ _ _ E).
      - split_and!; try done; [apply vle_refl|]. intros Kv. by destruct (cmp_some v lo Kv) as (c & ?); congruence. }
    assert (Hi : kind hi' = kind hi /\ vle hi hi' /\ (kind v = kind hi -> vle v hi')).
    { unfold hi'. destruct (cmp v hi) as [[]|] eqn:E.
      - split_and!; try done; [apply vle_refl|]. intros _. by eexists.
      - split_and!; try done; [apply vle_refl|]. intros _. by eexists.
      - split_and!; [by eapply cmp_kind|by apply (cmp_total _ _ _ E)|]. intros _. apply vle_refl.
      - split_and!; try done; [apply vle_refl|]. intros Kv. by destruct (cmp_some v hi Kv) as (c & ?); congruence. }
    destruct Lo as (K1 & L1 & V1), Hi as (K2 & L2 & V2). split; [congruence|].
    intros w [Hw| ->%list_elem_of_singleton]%elem_of_app Kw; rewrite K1 in Kw.
    + destruct (B w Hw Kw). split; by etrans || (eapply vle_trans; eassumption).
    + split; [by apply V1|apply V2; congruence].
  - split; [done|]. intros w ->%list_elem_of_singleton _. split; apply vle_refl.
Qed.

Lemma zone_build_bounded values : bounded (bounds (zone_build values)) (flatten values).
Proof.
  unfold zone_build. simpl. assert (G : forall l acc pre, bounded acc pre -> bounded (List.fold_left zone_step l acc) (pre ++ l)).
  { induction l as [|v l IH]; intros acc pre B; simpl; [by rewrite app_nil_r|].
    replace (pre ++ v :: l) with ((pre ++ [v]) ++ l) by by rewrite <-app_assoc. by apply IH, zone_step_bounded. }
  by apply (G _ None []).
Qed.

Lemma outside_sound v lo hi mn mx : outside (cmp hi mn) (cmp lo mx) = NoMatch ->
  kind mn = kind mx -> (kind v = kind mn -> vle mn v /\ vle v mx) -> ~ (vle lo v /\ vle v hi).
Proof.
  intros O K B [L H]. pose proof (vle_kind _ _ L) as K1. pose proof (vle_kind _ _ H) as K2.
  assert (C : cmp hi mn = Some Lt \/ cmp lo mx = Some Gt) by (destruct (cmp hi mn) as [[]|], (cmp lo mx) as [[]|]; simpl in O; try done; auto).
  destruct C as [C|C]; pose proof (cmp_kind _ _ _ C) as K3; destruct B as [B1 B2]; try congruence.
  - apply (cmp_Lt _ _ C). by eapply vle_trans.
  - apply (cmp_Gt _ _ C). by eapply vle_trans.
Qed.

(** *** Prefixes *)

Lemma upper_spec p u : prefix_upper p = Some u -> exists q b t, p = q ++ b :: t /\ u = q ++ [b + 1].
Proof.
  enough (G : forall r, upper_rev r = Some u -> exists q b t, rev r = q ++ b :: t /\ u = q ++ [b + 1])
    by (intros U; rewrite <-(rev_involutive p); by apply G).
  induction r as [|b r IH]; simpl; [done|]. destruct (b <? 255).
  - intros [= <-]. by exists (rev r), b, [].
  - intros (q & b' & t & E & ->)%IH. exists q, b', (t ++ [b]). split; [|done]. rewrite E. by rewrite <-app_assoc.
Qed.

Lemma prefix_below p s : bytes_le p (p ++ s).
Proof. unfold bytes_le. induction p as [|x p IH]; simpl; [by destruct s|]. by rewrite Z.compare_refl. Qed.

Lemma prefix_above q b t s : bytes_cmp ((q ++ b :: t) ++ s) (q ++ [b + 1]) = Lt.
Proof. rewrite <-app_assoc. induction q as [|x q IH]; simpl; [|by rewrite Z.compare_refl]. by rewrite (proj2 (Z.compare_lt_iff _ _)) by lia. Qed.

Lemma bytes_le_cmp a b : bytes_le a b <-> bytes_cmp b a <> Lt.
Proof. unfold bytes_le. rewrite (bytes_cmp_opp a b). by destruct (bytes_cmp a b). Qed.

Lemma prefix_sound p s mn mx : prefix_decision p (Str mn) (Str mx) = NoMatch ->
  bytes_le mn s -> bytes_le s mx -> take (length p) s <> p.
Proof.
  intros D L H E. rewrite <-(take_drop (length p) s), E in L, H. set (r := drop (length p) s) in *. unfold prefix_decision in D.
  case_bool_decide; [done|]. case_bool_decide as C.
  - apply (proj1 (bytes_le_cmp p mx)); [|done]. eapply bytes_le_trans; [apply prefix_below|exact H].
  - destruct (prefix_upper p) as [u|] eqn:U; [|done]. case_bool_decide as C2; [|done]. apply upper_spec in U as (q & b & t & -> & ->).
    pose proof (bytes_le_trans _ _ _ C2 L) as C3. apply bytes_le_cmp in C3. by rewrite prefix_above in C3.
Qed.

Lemma in_decision_sound vs mn mx : forall m, in_decision vs mn mx m = NoMatch -> forall v, v ∈ vs -> point_decision v mn mx = NoMatch.
Proof.
  induction vs as [|w vs IH]; intros m D v Hv; [by apply elem_of_nil in Hv|]. simpl in D. destruct (point_decision w mn mx) eqn:P; try done.
  - apply elem_of_cons in Hv as [-> |Hv]; [done|by eapply IH].
  - exfalso. clear -D. revert D. induction vs as [|x vs IH]; simpl; [done|]. by destruct (point_decision x mn mx).
Qed.

Lemma zone_sound values pred v : zone_evaluate (zone_build values) pred = NoMatch -> v ∈ flatten values -> matches v pred = false.
Proof.
  intros D Hv. pose proof (zone_build_bounded values) as B. unfold zone_evaluate in D. destruct (bounds (zone_build values)) as [[mn mx]|]; simpl in B;
    [|rewrite B in Hv; by apply elem_of_nil in Hv].
  destruct B as [K B]. specialize (B v Hv). assert (Pt : forall w, point_decision w mn mx = NoMatch -> v <> w).
  { intros w P ->. eapply (outside_sound w w w); [exact P|done|done|]. split; apply vle_refl. }
  apply not_true_iff_false. destruct pred as [w|vs|lo hi|p]; simpl.
  - rewrite bool_decide_eq_true. by apply Pt.
  - rewrite bool_decide_eq_true. intros Hin. by apply (Pt v); [eapply in_decision_sound|].
  - rewrite andb_true_iff, !vleb_spec. by eapply outside_sound.
  - destruct v as [i|s]; [done|]. rewrite bool_decide_eq_true. destruct mn as [|mn], mx as [|mx]; try done.
    destruct (B eq_refl) as [(c1 & [= <-] & N1) (c2 & [= <-] & N2)]. by apply (prefix_sound p s mn mx).
Qed.

(** *** Sets *)

(** The bytes keys are charged for. *)
Fixpoint weight (l : list bytes) : Z := match l with [] => 0 | k :: l => len k + 4 + weight l end.

#[local] Instance weight_perm : Proper (Permutation ==> eq) weight.
Proof. intros l l' P. induction P; simpl; lia. Qed.

Lemma weight_fits l : weight l < 2 ^ 32 -> items_fit l.
Proof.
  intros W. assert (G : forall l, len l <= weight l /\ 0 <= weight l /\ Forall (fun v => len v <= weight l) l).
  { clear. induction l as [|k l (I1 & I2 & I3)]; simpl; [by rewrite len_nil|]. assert (0 <= len k) by (unfold len; lia).
    split_and!; [unfold len in *; simpl; lia|lia|]. constructor; [lia|]. eapply Forall_impl; [exact I3|]. simpl. lia. }
  destruct (G l) as (L & _ & F). split; [lia|]. eapply Forall_impl; [exact F|]. simpl. lia.
Qed.

Lemma fill_spec keys budget : forall used set out, fill keys budget used set = Some out -> weight (elements set) = used ->
  set ⊆ out /\ (forall k, k ∈ keys -> exists b, k = Some b /\ b ∈ out) /\ weight (elements out) <= Z.max used budget.
Proof.
  induction keys as [|[k|] keys IH]; intros used set out; simpl; [intros [= ->] <-; split_and!; [done|by intros k Hk%elem_of_nil|lia]| |done].
  intros F W. case_bool_decide as M.
  - apply IH in F as (S & K & B); [|done]. split_and!; [done| |done]. intros k' [-> |Hk]%elem_of_cons; [|by apply K]. exists k. split; [done|by apply S].
  - destruct (Z.ltb_spec budget (used + len k + 4)); [done|]. apply IH in F as (S & K & B).
    + split_and!; [set_solver| |lia]. intros k' [-> |Hk]%elem_of_cons; [|by apply K]. exists k. split; [done|set_solver].
    + rewrite elements_union_singleton by done. simpl. lia.
Qed.

Lemma filled_fits s budget : weight (elements s) <= budget -> budget < 2 ^ 32 -> set_fits s.
Proof. intros W B. apply weight_fits. unfold iter. rewrite merge_sort_Permutation. lia. Qed.

Lemma value_build_spec values budget s : value_build values budget = Some s -> 0 <= budget < 2 ^ 32 ->
  set_fits s /\ forall pred v, value_evaluate s pred = NoMatch -> v ∈ flatten values -> matches v pred = false.
Proof.
  intros F B. apply fill_spec in F as (_ & K & W); [|done].
  assert (M : forall v, v ∈ flatten values -> encode_value v ∈ s).
  { intros v Hv. destruct (K (Some (encode_value v))) as (b & [= <-] & Hb); [|done]. by apply list_elem_of_In, (List.in_map (fun v => Some (encode_value v))), list_elem_of_In. }
  split; [apply (filled_fits _ budget); lia|]. intros pred v D Hv%M. apply not_true_iff_false. destruct pred as [w|vs| |]; simpl in *; try done.
  - case_bool_decide as E; [done|]. rewrite bool_decide_eq_true. by intros ->.
  - destruct (List.existsb _ vs) eqn:X; [done|]. rewrite bool_decide_eq_true. intros Hin. apply not_true_iff_false in X. apply X, List.existsb_exists.
    exists v. rewrite bool_decide_eq_true. by rewrite <-list_elem_of_In.
Qed.

Lemma prefix_build_spec values l budget s : prefix_build values l budget = Some s -> 0 <= l -> 0 <= budget < 2 ^ 32 ->
  prefix_len s = l /\ set_fits (prefixes s) /\
  forall pred v, prefix_evaluate s pred = NoMatch -> v ∈ flatten values -> matches v pred = false.
Proof.
  unfold prefix_build. intros F%fmap_Some Lp B. destruct F as (set & F & ->). simpl. apply fill_spec in F as (_ & K & W); [|done].
  assert (M : forall v, v ∈ flatten values -> exists x, v = Str x /\ prefix_key x l ∈ set).
  { intros v Hv. destruct (K (match v with Str s => Some (prefix_key s l) | Int _ => None end)) as (b & E & Hb).
    - by apply list_elem_of_In, (List.in_map (fun v => match v with Str s => Some (prefix_key s l) | Int _ => None end)), list_elem_of_In.
    - destruct v as [|x]; [done|]. injection E as <-. by exists x. }
  split; [done|]. split; [apply (filled_fits _ budget); lia|]. intros pred v D (x & -> & Hx)%M. apply not_true_iff_false.
  destruct pred as [[|w]| | |p]; simpl in *; try done.
  - case_bool_decide as E; [done|]. rewrite bool_decide_eq_true. by intros [= ->].
  - destruct (Z.ltb_spec (len p) l) as [|L]; [done|]. case_bool_decide as E; [done|]. rewrite bool_decide_eq_true. intros P.
    apply E. rewrite <-P, take_take. unfold prefix_key in Hx. by replace (Z.to_nat l `min` length p)%nat with (Z.to_nat l) by (unfold len in L; lia).
Qed.

(** ** What is built *)

Section built.
Context (payload_digest : bytes -> string).
Context (leaves : bytes -> result (list string) string).
Context (num_row_groups : bytes -> result nat string).
Context (read_leaf : bytes -> nat -> nat -> result (list (result Column string)) string).
Context (read_file : string -> result bytes string).
Notation column_values := (column_values leaves read_leaf).

(** Budgets and prefix lengths that fit the 32 bits they are written in. *)
Definition spec_ok (s : ColumnIndexSpec) : Prop := 0 <= budget_bytes s < 2 ^ 32 /\ 0 <= sp_prefix_len s < 2 ^ 32.

(** What Parquet files can hold. *)
Definition readable : Prop :=
  (forall file rg column values, column_values file rg column = Ok values -> Forall fits (flatten values)) /\
  (forall file n, num_row_groups file = Ok n -> Z.of_nat n <= 2 ^ 32).

Lemma zone_build_fits values : Forall fits (flatten values) -> zone_fits (zone_build values).
Proof.
  intros F. unfold zone_fits, zone_build. simpl.
  assert (G : forall l acc, Forall fits l -> match acc with None => True | Some (lo, hi) => fits lo /\ fits hi end ->
    match List.fold_left zone_step l acc with None => True | Some (lo, hi) => fits lo /\ fits hi end).
  { induction l as [|v l IH]; intros acc Fl A; simpl; [done|]. inversion Fl as [|? ? Fv Fl']; subst. apply IH; [done|].
    destruct acc as [[lo hi]|]; simpl; [|done]. destruct A. destruct (cmp v lo) as [[]|], (cmp v hi) as [[]|]; done. }
  by apply G.
Qed.

(** An index built of values hides none of them, evaluated through its bytes. *)
Lemma payload_sound spec values k bs pred v : spec_ok spec -> Forall fits (flatten values) ->
  build_payload spec values = Some (k, bs) ->
  evaluate payload_digest k bs (payload_digest bs) pred = NoMatch -> v ∈ flatten values -> matches v pred = false.
Proof.
  intros [B P] F. unfold build_payload, evaluate. rewrite String.eqb_refl. destruct (index_kind _) as [[]|]; [| | |done]; simpl.
  - intros [= <- <-]. rewrite zone_reads_back by by apply zone_build_fits. simpl. apply zone_sound.
  - intros (s & S & [= -> ->])%fmap_Some. apply value_build_spec in S as [Sf S]; [|done]. rewrite value_set_reads_back by done. simpl. apply S.
  - intros (s & S & [= -> ->])%fmap_Some. apply prefix_build_spec in S as (L & Sf & S); [|lia|done]. rewrite prefix_set_reads_back; [|by rewrite L|done]. simpl. apply S.
Qed.

(** An entry of the manifest: a row group, its values, and their index. *)
Definition indexed (specs : list ColumnIndexSpec) (path column : string) (r : RowGroupIndex) : Prop :=
  exists spec file n rg values bs, spec ∈ specs /\ sp_name spec = column /\ read_file path = Ok file /\
    num_row_groups file = Ok n /\ (rg < n)%nat /\ row_group r = Z.of_nat rg mod 2 ^ 32 /\ column_values file rg column = Ok values /\
    build_payload spec values = Some (rg_kind r, bs) /\ rg_digest r = payload_digest bs.

Lemma index_groups_spec specs spec path file n : spec ∈ specs -> read_file path = Ok file -> num_row_groups file = Ok n ->
  forall rgs payload out, (forall rg, rg ∈ rgs -> (rg < n)%nat) ->
  index_groups payload_digest leaves read_leaf spec file rgs payload = Ok out -> Forall (indexed specs path (sp_name spec)) out.1.
Proof.
  intros Hs Rf Nf. induction rgs as [|rg rgs IH]; intros payload out Lt; simpl; [by intros [= <-]|]. intros R.
  destruct (column_values file rg (sp_name spec)) as [values|] eqn:V; [|done]. simpl in R.
  destruct (build_payload spec values) as [[k bs]|] eqn:Bp; [|eapply IH; [|exact R]; intros x Hx; apply Lt; by right].
  destruct (index_groups _ _ _ spec file rgs _) as [[rest final]|] eqn:R'; [|done]. injection R as <-. simpl. constructor.
  - exists spec, file, n, rg, values, bs. split_and!; try done. apply Lt. by left.
  - apply IH in R'; [done|]. intros x Hx. apply Lt. by right.
Qed.

Definition column_built (specs : list ColumnIndexSpec) (c : IndexedColumn) : Prop :=
  Forall (indexed specs (ic_file c) (ic_column c)) (ic_row_groups c).

Lemma index_columns_spec all path file n : read_file path = Ok file -> num_row_groups file = Ok n ->
  forall specs payload out, (forall s, s ∈ specs -> s ∈ all) ->
  index_columns payload_digest leaves read_leaf specs path file n payload = Ok out -> Forall (column_built all) out.1.
Proof.
  intros Rf Nf. induction specs as [|spec specs IH]; intros payload out Sub; simpl; [by intros [= <-]|].
  destruct (index_kind (sp_kind spec)) as [kd|]; [|done]. simpl.
  destruct (index_groups _ _ _ spec file (seq 0 n) payload) as [[rgs p1]|] eqn:G; [|done]. simpl.
  destruct (index_columns _ _ _ specs path file n p1) as [[rest p2]|] eqn:R; [|done]. simpl. intros [= <-]. simpl. constructor.
  - unfold column_built. simpl. apply (index_groups_spec all spec path file n) in G; [done|apply Sub; by left|done|done|].
    intros rg Hrg%list_elem_of_In%in_seq. lia.
  - apply IH in R; [done|]. intros s Hs. apply Sub. by right.
Qed.

Lemma index_files_spec all : forall files payload out,
  index_files payload_digest leaves num_row_groups read_leaf read_file all files payload = Ok out -> Forall (column_built all) out.1.
Proof.
  induction files as [|f files IH]; intros payload out; simpl; [by intros [= <-]|].
  destruct (read_file (vf_path f)) as [file|] eqn:Rf; [|done]. simpl. destruct (negb _); [done|].
  destruct (num_row_groups file) as [n|] eqn:Nf; [|done]. simpl.
  destruct (index_columns _ _ _ all (vf_path f) file n payload) as [[cs p1]|] eqn:C; [|done]. simpl.
  destruct (index_files _ _ _ _ _ all files p1) as [[rest p2]|] eqn:R; [|done]. simpl. intros [= <-]. simpl.
  apply Forall_app. split; [|by apply IH in R]. by apply (index_columns_spec all (vf_path f) file n) in C.
Qed.

Lemma evaluate_digest k b d pred : evaluate payload_digest k b d pred = NoMatch -> payload_digest b = d.
Proof. unfold evaluate. by destruct (String.eqb_spec (payload_digest b) d). Qed.

Definition collision : Prop := exists b1 b2, b1 <> b2 /\ payload_digest b1 = payload_digest b2.

Lemma decide_sound specs files columns blob payload path file rg column pred values :
  readable -> Forall spec_ok specs ->
  build payload_digest leaves num_row_groups read_leaf read_file specs files = Ok (columns, blob) ->
  read_file path = Ok file -> Z.of_nat rg < 2 ^ 32 -> column_values file rg column = Ok values ->
  decide payload_digest columns payload path rg column pred = NoMatch ->
  collision \/ forall v, v ∈ flatten values -> matches v pred = false.
Proof.
  intros [Rv Rn] Sp B Rf Lt V D. unfold build in B. destruct (mapr _ specs); [|done]. simpl in B. apply index_files_spec in B. simpl in B.
  unfold decide in D. destruct (List.find _ columns) as [c|] eqn:Fc; [|done]. apply List.find_some in Fc as [Hc Ec].
  apply andb_true_iff in Ec as [E1%String.eqb_eq E2%String.eqb_eq]. subst column path.
  destruct (List.find _ (ic_row_groups c)) as [r|] eqn:Fr; [|done]. apply List.find_some in Fr as [Hr Er%Z.eqb_eq].
  rewrite Forall_forall in B. specialize (B c (proj2 (list_elem_of_In _ _) Hc)). unfold column_built in B. rewrite Forall_forall in B.
  destruct (B r (proj2 (list_elem_of_In _ _) Hr)) as (spec & file' & n & rg' & values' & bs & Hs & _ & Rf' & Nf & Lt' & Erg & V' & Bp & Dg).
  rewrite Rf in Rf'. injection Rf' as <-. specialize (Rn _ _ Nf). rewrite Er, Z.mod_small in Erg by lia.
  replace rg' with rg in * by lia. rewrite V in V'. injection V' as <-.
  unfold decide_group in D. destruct (slice payload _ _) as [b|]; [|done]. pose proof (evaluate_digest _ _ _ _ D) as E.
  destruct (base.decide (b = bs)) as [->|N]; [|left; exists b, bs; split; [done|by rewrite E]]. right. intros v Hv.
  rewrite Forall_forall in Sp. rewrite Dg in D. apply (payload_sound spec values (rg_kind r) bs); [by apply Sp|by eapply Rv|done..].
Qed.

(** ** A scan with a sidecar *)

(** The values of a row group that match, over some of a file's groups. *)
Definition answer (file : bytes) (column : string) (pred : Predicate) (groups : list nat) : list Value :=
  List.flat_map (fun rg => match column_values file rg column with
                           | Ok values => List.filter (fun v => matches v pred) (flatten values)
                           | Err _ => []
                           end) groups.

Lemma selected_map {A} (f : A -> Decision) (l : list A) :
  List.map fst (List.filter (fun x => negb (skippable x.2)) (zip l (List.map f l))) = List.filter (fun a => negb (skippable (f a))) l.
Proof. induction l as [|a l IH]; simpl; [done|]. destruct (skippable (f a)); simpl; by rewrite IH. Qed.

Lemma flat_map_skip {A B} (g : A -> bool) (f : A -> list B) l : (forall a, a ∈ l -> g a = false -> f a = []) ->
  List.flat_map f (List.filter g l) = List.flat_map f l.
Proof.
  intros H. induction l as [|a l IH]; simpl; [done|]. rewrite <-IH by (intros b Hb; apply H; by right).
  destruct (g a) eqn:E; simpl; [done|]. by rewrite (H a) by (done || by left).
Qed.

Lemma filter_no_match {A} (g : A -> bool) l : (forall a, a ∈ l -> g a = false) -> List.filter g l = [].
Proof. intros H. induction l as [|a l IH]; simpl; [done|]. rewrite (H a) by by left. apply IH. intros b Hb. apply H. by right. Qed.

Lemma counts ds : len ds = count NoMatch ds + count Maybe ds + count Unknown ds /\ len (selected ds) = len ds - count NoMatch ds.
Proof.
  assert (G : forall (k : nat) ds, len (List.map fst (List.filter (fun x : nat * Decision => negb (skippable x.2)) (zip (seq k (length ds)) ds))) = len ds - count NoMatch ds).
  { clear. intros k ds. revert k. induction ds as [|d ds IH]; intros k; [done|]. unfold count, len in *. simpl. specialize (IH (S k)).
    unfold skippable in *. destruct d; simpl in *; lia. }
  split; [|apply (G 0%nat)]. clear. unfold count, len. induction ds as [|[] ds IH]; simpl in *; lia.
Qed.

(** C36: Leaving out the row groups a sidecar rules out changes no answer. For a
    manifest built over a variant's files, whatever bytes the scan is then handed
    as its payload, the groups it keeps of a file hold the same matching values, in
    the same order, as all of them -- or two byte strings collide under BLAKE3. The
    ledger accounts for every group: each is ruled out, kept, or not decided, and
    the ones selected are all but the first. *)
Theorem skip_scan_is_full_scan specs files columns blob payload path file n column pred :
  readable -> Forall spec_ok specs ->
  build payload_digest leaves num_row_groups read_leaf read_file specs files = Ok (columns, blob) ->
  read_file path = Ok file -> num_row_groups file = Ok n ->
  let ds := decisions payload_digest (Some (columns, payload)) path n column pred in
  let l := ledger_file no_ledger ds in
  (collision \/ answer file column pred (selected ds) = answer file column pred (seq 0 n)) /\
  row_groups_total l = Z.of_nat n /\ row_groups_total l = custom_no_match l + maybe l + unknown l /\
  selected_row_groups l = row_groups_total l - custom_no_match l.
Proof.
  intros Rd Sp B Rf Nf ds l. assert (L : len ds = Z.of_nat n) by (unfold ds, decisions, len; by rewrite List.length_map, length_seq).
  destruct (counts ds) as [C1 C2]. split; [|simpl; lia].
  unfold ds, decisions, selected. rewrite List.length_map, length_seq, selected_map.
  set (f := fun rg => decide payload_digest columns payload path rg column pred).
  assert (G : collision \/ forall rg, rg ∈ seq 0 n -> negb (skippable (f rg)) = false ->
      match column_values file rg column with Ok values => List.filter (fun v => matches v pred) (flatten values) | Err _ => [] end = []).
  { assert (Sub : forall rg, rg ∈ seq 0 n -> Z.of_nat rg < 2 ^ 32) by (intros rg Hrg%list_elem_of_In%in_seq; destruct Rd as [_ Rn]; specialize (Rn _ _ Nf); lia).
    revert Sub. clear -Rd Sp B Rf. induction (seq 0 n) as [|rg rgs IH]; intros Sub; [right; by intros x Hx%elem_of_nil|].
    destruct IH as [Co|IH]; [intros x Hx; apply Sub; by right|by left|].
    destruct (column_values file rg column) as [values|] eqn:V.
    - destruct (base.decide (f rg = NoMatch)) as [D|D].
      + destruct (decide_sound specs files columns blob payload path file rg column pred values Rd Sp B Rf) as [Co|S]; [apply Sub; by left|done|exact D|by left|].
        right. intros x [-> |Hx]%elem_of_cons K; [|by apply IH]. rewrite V. by apply filter_no_match.
      + right. intros x [-> |Hx]%elem_of_cons K; [|by apply IH]. unfold skippable in K. by rewrite bool_decide_eq_false_2 in K.
    - right. intros x [-> |Hx]%elem_of_cons K; [|by apply IH]. by rewrite V. }
  destruct G as [Co|G]; [by left|right]. unfold answer. by apply (flat_map_skip (fun rg => negb (skippable (f rg)))).
Qed.
End built.

(** ** An example *)

Definition toy_digest (b : bytes) : string := pretty (of_le b).
(** A file of two row groups, [k] in [{1, 3}] and [{7}], in a reader of its own. *)
Definition toy_leaf (file : bytes) (rg leaf : nat) : result (list (result Column string)) string :=
  match rg with
  | 0%nat => Ok [Ok (Int64Col [Some 1; None; Some 3])]
  | _ => Ok [Ok (Int64Col [Some 7])]
  end.
Definition toy_files : list VariantFile := [mkVariantFile "a.parquet" (toy_digest [1])].
Definition toy_specs : list ColumnIndexSpec := [mkSpec "k" "value_set" 64 8].
Definition toy_build : result (list IndexedColumn * bytes) string :=
  build toy_digest (fun _ => Ok ["k"%string]) (fun _ => Ok 2%nat) toy_leaf (fun _ => Ok [1]) toy_specs toy_files.
Definition toy_columns : list IndexedColumn := match toy_build with Ok r => r.1 | Err _ => [] end.
Definition toy_blob : bytes := match toy_build with Ok r => r.2 | Err _ => [] end.

Lemma toy_eq : toy_build = Ok (toy_columns, toy_blob).
Proof. vm_compute. reflexivity. Qed.

(** The second group is ruled out for [k = 3]; of a blob cut short, none is. *)
Example toy_decisions :
  decisions toy_digest (Some (toy_columns, toy_blob)) "a.parquet" 2 "k" (Eq (Int 3)) = [Maybe; NoMatch] /\
  decisions toy_digest (Some (toy_columns, take 9 toy_blob)) "a.parquet" 2 "k" (Eq (Int 3)) = [Unknown; Unknown].
Proof. by vm_compute. Qed.

Lemma toy_readable : readable (fun _ => Ok ["k"%string]) (fun _ => Ok 2%nat) toy_leaf.
Proof.
  split; [|intros file n [= <-]; lia]. intros file rg column values. unfold column_values. cbn [rbind]. destruct (ok_or _ _) as [leaf|]; [|done].
  simpl. destruct rg; simpl; intros [= <-]; repeat constructor; done.
Qed.

Lemma skip_scan_is_full_scan_witness :
  collision toy_digest \/
  answer (fun _ => Ok ["k"%string]) toy_leaf [1] "k" (Eq (Int 3))
    (selected (decisions toy_digest (Some (toy_columns, toy_blob)) "a.parquet" 2 "k" (Eq (Int 3)))) = [Int 3].
Proof.
  destruct (skip_scan_is_full_scan toy_digest (fun _ => Ok ["k"%string]) (fun _ => Ok 2%nat) toy_leaf (fun _ => Ok [1])
    toy_specs toy_files toy_columns toy_blob toy_blob "a.parquet" [1] 2 "k" (Eq (Int 3)) toy_readable) as [[C|E] _];
    [repeat constructor; done|exact toy_eq|reflexivity|reflexivity|left; exact C|right; rewrite E; vm_compute; reflexivity].
Defined.

(** A prefix length past 32 bits is written cut off: the set that is read back
    holds whole values, and rules out what it holds. *)
Lemma long_prefix_built : prefix_build [Some (Str [97; 98; 99])] (2 ^ 32 + 1) 64 = Some (mkPrefixSet (2 ^ 32 + 1) {[ [97; 98; 99] ]}).
Proof.
  assert (E : prefix_key [97; 98; 99] (2 ^ 32 + 1) = [97; 98; 99]) by (unfold prefix_key; apply take_ge; simpl; lia).
  unfold prefix_build. cbn [flatten omap list_omap id List.map]. rewrite E. by vm_compute.
Qed.

Example long_prefix_hides_rows :
  option_map (fun s => option_map (fun d => prefix_evaluate d (Eq (Str [97; 98; 99]))) (prefix_decode (prefix_encode s)))
    (prefix_build [Some (Str [97; 98; 99])] (2 ^ 32 + 1) 64) = Some (Some NoMatch).
Proof. rewrite long_prefix_built. by vm_compute. Qed.

End SkipIndexSpec.
