(* ===== verification/Fingerprints.v ===== *)
(** * Row fingerprints (tools/prod-synth-integrity, tools/parquet-lab-integrity)

    The order-independent aggregate of a set of rows, over canonical bytes of their
    physical values and over those of their declared logical values. BLAKE3 is a
    parameter; a float is its 64 bits. *)

From S2P Require Import Prelude Bytes.

Module Fingerprints.

Definition bytes : Type := list Z.

(** ** The accumulator ([RowMultiset], [LogicalRowMultiset]: the same code) *)

Record RowMultiset := mkMultiset {
  count : Z;
  xor : list Z;
  sum : list Z;
}.

#[export] Instance RowMultiset_eq_dec : EqDecision RowMultiset.
Proof. solve_decision. Defined.

Definition default_multiset : RowMultiset := mkMultiset 0 (List.repeat 0 32) (List.repeat 0 4).

(** [digest.as_chunks::<8>().0], each little-endian. *)
Fixpoint lanes (n : nat) (digest : bytes) : list Z :=
  match n with O => [] | S n => of_le (take 8 digest) :: lanes n (drop 8 digest) end.

Definition wrapping_add (a b : Z) : Z := (a + b) mod 2 ^ 64.

Definition fold (m : RowMultiset) (digest : bytes) : RowMultiset :=
  mkMultiset (wrapping_add (count m) 1) (zip_with Z.lxor (xor m) digest) (zip_with wrapping_add (sum m) (lanes 4 digest)).

Definition merge (m other : RowMultiset) : RowMultiset :=
  mkMultiset (wrapping_add (count m) (count other)) (zip_with Z.lxor (xor m) (xor other))
    (zip_with wrapping_add (sum m) (sum other)).

Section blake3.
Context (blake3 : bytes -> bytes).

(** What [digest] hashes, behind the version. *)
Definition digest (version : string) (m : RowMultiset) : bytes :=
  blake3 (str_bytes version ++ le_bytes 8 (count m) ++ xor m ++ List.flat_map (le_bytes 8) (sum m)).

(** Folds rows [0..num_rows] in, each the bytes its columns' encoders append. *)
Definition encode_row (encoders : list (nat -> bytes)) (row : nat) : bytes := List.flat_map (fun enc => enc row) encoders.

Definition fold_rows (encoders : list (nat -> bytes)) (num_rows : nat) (m : RowMultiset) : RowMultiset :=
  List.fold_left (fun m row => fold m (blake3 (encode_row encoders row))) (seq 0 num_rows) m.
End blake3.

(** ** Arrays *)

Inductive TimeUnit := Second | Millisecond | Microsecond | Nanosecond.

(** An Arrow array by its type; a null slot is [None], a float its bits. *)
Inductive Array :=
| Int8Array (l : list (option Z))
| Int16Array (l : list (option Z))
| Int32Array (l : list (option Z))
| Int64Array (l : list (option Z))
| TimestampArray (unit : TimeUnit) (l : list (option Z))
| Date32Array (l : list (option Z))
| StringArray (l : list (option bytes))
| LargeStringArray (l : list (option bytes))
| StringViewArray (l : list (option bytes))
| BooleanArray (l : list (option bool))
| Float64Array (l : list (option Z))
| OtherArray (data_type : string).

Record Batch := mkBatch { columns : list (string * Array); num_rows : nat }.

Definition at_row {A} (l : list (option A)) (row : nat) : option A := default None (l !! row).

(** A closure over an array: [NULL], or what is emitted of the value. *)
Definition enc {A} (l : list (option A)) (emit : A -> bytes) (row : nat) : bytes :=
  match at_row l row with None => [0] | Some a => emit a end.

(** [if v == 0.0 { 0.0 } else { v }]: the sign of a zero goes. *)
Definition canonical_bits (bits : Z) : Z := if bits =? 2 ^ 63 then 0 else bits.

(** A length-delimited string behind its tag. *)
Definition encode_str (tag : Z) (s : bytes) : bytes := tag :: le_bytes 8 (len s) ++ s.

(** ** Physical rows (prod-synth-integrity) *)

Inductive FingerprintError := UnsupportedType (column : string) (data_type : string).

Definition ROW_MULTISET_VERSION : string := "row-multiset/v1".

Definition type_name (a : Array) : string :=
  match a with
  | Int8Array _ => "Int8" | Int16Array _ => "Int16" | Int32Array _ => "Int32" | Int64Array _ => "Int64"
  | TimestampArray _ _ => "Timestamp" | Date32Array _ => "Date32" | StringArray _ => "Utf8"
  | LargeStringArray _ => "LargeUtf8" | StringViewArray _ => "Utf8View" | BooleanArray _ => "Boolean"
  | Float64Array _ => "Float64" | OtherArray t => t
  end.

Definition physical_encoder (name : string) (a : Array) : result (nat -> bytes) FingerprintError :=
  match a with
  | Int64Array l => Ok (enc l (fun v => 1 :: le_signed 8 v))
  | Float64Array l => Ok (enc l (fun v => 2 :: le_bytes 8 (canonical_bits v)))
  | StringArray l | StringViewArray l => Ok (enc l (encode_str 3))
  | BooleanArray l => Ok (enc l (fun b => [4; Z.b2z b]))
  | a => Err (UnsupportedType name (type_name a))
  end.

Definition physical_encoders (batch : Batch) : result (list (nat -> bytes)) FingerprintError :=
  mapr (fun c => physical_encoder c.1 c.2) (columns batch).

Definition physical_update (blake3 : bytes -> bytes) (m : RowMultiset) (batch : Batch) : result RowMultiset FingerprintError :=
  let? encoders := physical_encoders batch in Ok (fold_rows blake3 encoders (num_rows batch) m).

(** ** Logical rows (parquet-lab-integrity) *)

Definition LOGICAL_ROW_MULTISET_VERSION : string := "logical-row-multiset/v1".

Inductive LogicalType := SignedInt | TimestampMillis | DateDays | Utf8 | Boolean | Float64.

Inductive LogicalFingerprintError :=
| SchemaMismatch (expected found : list string)
| UnsupportedCast (column logical physical : string)
| LossyCast (column detail : string)
| UnknownLogicalType (spec : string).

Definition parse (name : string) : result LogicalType LogicalFingerprintError :=
  if bool_decide (name ∈ ["int8"; "int16"; "int32"; "int64"; "signed_int"]%string) then Ok SignedInt
  else if bool_decide (name ∈ ["timestamp_millis"; "timestamp_ms"]%string) then Ok TimestampMillis
  else if bool_decide (name ∈ ["date"; "date_days"; "date32"]%string) then Ok DateDays
  else if bool_decide (name ∈ ["utf8"; "string"]%string) then Ok Utf8
  else if bool_decide (name ∈ ["boolean"; "bool"]%string) then Ok Boolean
  else if bool_decide (name ∈ ["float64"; "double"]%string) then Ok Float64
  else Err (UnknownLogicalType name).

Definition LogicalSchema : Type := list (string * LogicalType).

Definition emit_signed (v : Z) : bytes := 1 :: le_signed 16 v.
Definition emit_ms (ms : Z) : bytes := 2 :: le_signed 8 ms.
Definition emit_days (days : Z) : bytes := 3 :: le_signed 8 days.

Definition signed_int_encoder (name : string) (a : Array) : result (nat -> bytes) LogicalFingerprintError :=
  match a with
  | Int8Array l | Int16Array l | Int32Array l | Int64Array l => Ok (enc l emit_signed)
  | a => Err (UnsupportedCast name "signed_int" (type_name a))
  end.

(** Some value that is not null is not a multiple. *)
Definition inexact (l : list (option Z)) (unit : Z) : bool :=
  List.existsb (fun v => match v with Some v => negb (Z.rem v unit =? 0) | None => false end) l.

Definition timestamp_ms_encoder (name : string) (a : Array) : result (nat -> bytes) LogicalFingerprintError :=
  match a with
  | Int64Array l | TimestampArray Millisecond l => Ok (enc l emit_ms)
  | TimestampArray Second l => Ok (enc l (fun v => emit_ms (wrap_i64 (v * 1000))))
  | TimestampArray Microsecond l =>
      if inexact l 1000 then Err (LossyCast name "microsecond timestamp not divisible into ms")
      else Ok (enc l (fun v => emit_ms (Z.quot v 1000)))
  | TimestampArray Nanosecond l =>
      if inexact l 1000000 then Err (LossyCast name "nanosecond timestamp not divisible into ms")
      else Ok (enc l (fun v => emit_ms (Z.quot v 1000000)))
  | a => Err (UnsupportedCast name "timestamp_millis" (type_name a))
  end.

Definition date_days_encoder (name : string) (a : Array) : result (nat -> bytes) LogicalFingerprintError :=
  match a with
  | Date32Array l | Int32Array l | Int64Array l => Ok (enc l emit_days)
  | a => Err (UnsupportedCast name "date_days" (type_name a))
  end.

Definition utf8_encoder (name : string) (a : Array) : result (nat -> bytes) LogicalFingerprintError :=
  match a with
  | StringArray l | LargeStringArray l | StringViewArray l => Ok (enc l (encode_str 4))
  | a => Err (UnsupportedCast name "utf8" (type_name a))
  end.

Definition boolean_encoder (name : string) (a : Array) : result (nat -> bytes) LogicalFingerprintError :=
  match a with
  | BooleanArray l => Ok (enc l (fun b => [5; Z.b2z b]))
  | a => Err (UnsupportedCast name "boolean" (type_name a))
  end.

Definition float64_encoder (name : string) (a : Array) : result (nat -> bytes) LogicalFingerprintError :=
  match a with
  | Float64Array l => Ok (enc l (fun v => 6 :: le_bytes 8 (canonical_bits v)))
  | a => Err (UnsupportedCast name "float64" (type_name a))
  end.

Definition encoder_for (name : string) (logical : LogicalType) (a : Array) : result (nat -> bytes) LogicalFingerprintError :=
  match logical with
  | SignedInt => signed_int_encoder name a
  | TimestampMillis => timestamp_ms_encoder name a
  | DateDays => date_days_encoder name a
  | Utf8 => utf8_encoder name a
  | Boolean => boolean_encoder name a
  | Float64 => float64_encoder name a
  end.

Definition schema_mismatch (batch : Batch) (schema : LogicalSchema) : LogicalFingerprintError :=
  SchemaMismatch (List.map fst schema) (List.map fst (columns batch)).

Fixpoint encoders_of (whole : LogicalFingerprintError) (cols : list (string * Array)) (schema : LogicalSchema)
  : result (list (nat -> bytes)) LogicalFingerprintError :=
  match cols, schema with
  | (name, a) :: cols, (declared, logical) :: schema =>
      if negb (String.eqb name declared) then Err whole
      else
        let? e := encoder_for declared logical a in
        let? rest := encoders_of whole cols schema in
        Ok (e :: rest)
  | _, _ => Ok []
  end.

Definition column_encoders (batch : Batch) (schema : LogicalSchema) : result (list (nat -> bytes)) LogicalFingerprintError :=
  if negb (Nat.eqb (length (columns batch)) (length schema)) then Err (schema_mismatch batch schema)
  else encoders_of (schema_mismatch batch schema) (columns batch) schema.

Definition logical_update (blake3 : bytes -> bytes) (schema : LogicalSchema) (m : RowMultiset) (batch : Batch)
  : result RowMultiset LogicalFingerprintError :=
  let? encoders := column_encoders batch schema in Ok (fold_rows blake3 encoders (num_rows batch) m).

End Fingerprints.

(** * What the fingerprints tell *)

Module FingerprintsSpec.
Import Fingerprints.

(** ** A commutative monoid *)

Record multiset_wf (m : RowMultiset) : Prop := {
  mw_count : 0 <= count m < 2 ^ 64;
  mw_xor : length (xor m) = 32%nat;
  mw_sum : length (sum m) = 4%nat;
  mw_lanes : Forall (fun s => 0 <= s < 2 ^ 64) (sum m);
}.

Lemma wrapping_add_range a b : 0 <= wrapping_add a b < 2 ^ 64.
Proof. by apply Z.mod_pos_bound. Qed.

Lemma wrapping_add_comm a b : wrapping_add a b = wrapping_add b a.
Proof. unfold wrapping_add. by rewrite Z.add_comm. Qed.

Lemma wrapping_add_assoc a b c : wrapping_add a (wrapping_add b c) = wrapping_add (wrapping_add a b) c.
Proof. unfold wrapping_add. rewrite Z.add_mod_idemp_r, Z.add_mod_idemp_l by done. by rewrite Z.add_assoc. Qed.

Lemma zip_with_comm_eq {A} (f : A -> A -> A) l k : (forall a b, f a b = f b a) -> zip_with f l k = zip_with f k l.
Proof. intros C. revert k. induction l as [|a l IH]; intros [|b k]; simpl; try done. by rewrite C, IH. Qed.

Lemma zip_with_assoc_eq {A} (f : A -> A -> A) l k m : (forall a b c, f a (f b c) = f (f a b) c) ->
  zip_with f l (zip_with f k m) = zip_with f (zip_with f l k) m.
Proof. intros C. revert k m. induction l as [|a l IH]; intros [|b k] [|c m]; simpl; try done. by rewrite C, IH. Qed.

Lemma merge_comm a b : merge a b = merge b a.
Proof. unfold merge. f_equal; [apply wrapping_add_comm|apply zip_with_comm_eq, Z.lxor_comm|apply zip_with_comm_eq, wrapping_add_comm]. Qed.

Lemma merge_assoc a b c : merge a (merge b c) = merge (merge a b) c.
Proof.
  unfold merge. simpl. f_equal; [apply wrapping_add_assoc| |apply zip_with_assoc_eq, wrapping_add_assoc].
  apply zip_with_assoc_eq. intros. by rewrite Z.lxor_assoc.
Qed.

Lemma zip_zeros (f : Z -> Z -> Z) l : forall n, length l = n -> Forall (fun x => f 0 x = x) l -> zip_with f (List.repeat 0 n) l = l.
Proof. induction l as [|x l IH]; intros [|n] L F; simpl in *; try done. inversion F; subst. rewrite IH by (done || lia). congruence. Qed.

Lemma lxor_zeros l n : length l = n -> zip_with Z.lxor (List.repeat 0 n) l = l.
Proof. intros L. apply zip_zeros; [done|]. by apply Forall_true. Qed.

Lemma merge_default m : multiset_wf m -> merge default_multiset m = m.
Proof.
  destruct m as [c x s]. intros [W1 W2 W3 W4]. cbn [count xor sum] in *. unfold merge, default_multiset. cbn [count xor sum]. f_equal.
  - unfold wrapping_add. by apply Z.mod_small.
  - by apply lxor_zeros.
  - apply zip_zeros; [done|]. eapply Forall_impl; [exact W4|]. intros y Hy. unfold wrapping_add. by apply Z.mod_small.
Qed.

Lemma default_wf : multiset_wf default_multiset.
Proof. split; simpl; [done|done|done|]. by repeat constructor. Qed.

Lemma lanes_length n d : length (lanes n d) = n.
Proof. revert d. induction n as [|n IH]; intros d; simpl; [done|]. by rewrite IH. Qed.

Lemma fold_is_merge m d : multiset_wf m -> length d = 32%nat -> fold m d = merge m (fold default_multiset d).
Proof.
  intros W L. unfold fold, merge, default_multiset. cbn [xor sum count]. f_equal.
  - by rewrite lxor_zeros.
  - apply list_eq. intros i. rewrite !lookup_zip_with. destruct (sum m !! i) as [x|] eqn:Hx; simpl; [|done].
    assert (i < 4)%nat by (rewrite <-(mw_sum _ W); by eapply lookup_lt_Some).
    destruct i as [|[|[|[|i]]]]; [..|lia]; simpl; f_equal; unfold wrapping_add; by rewrite Z.add_0_l, Z.add_mod_idemp_r.
Qed.

Lemma fold_wf m d : multiset_wf m -> length d = 32%nat -> multiset_wf (fold m d).
Proof.
  intros [W1 W2 W3 W4] L. split; simpl.
  - apply wrapping_add_range.
  - rewrite length_zip_with. lia.
  - rewrite length_zip_with. simpl. lia.
  - apply Forall_lookup_2. intros i x Hx. apply lookup_zip_with_Some in Hx as (a & b & -> & _). apply wrapping_add_range.
Qed.

(** ** The fingerprint of rows *)

Section rows.
Context (blake3 : bytes -> bytes).
Context (blake3_len : forall b, length (blake3 b) = 32%nat).

Definition of_rows (rows : list bytes) : RowMultiset :=
  List.fold_left (fun m b => fold m (blake3 b)) rows default_multiset.

Lemma fold_rows_wf rows m : multiset_wf m -> multiset_wf (List.fold_left (fun m b => fold m (blake3 b)) rows m).
Proof. revert m. induction rows as [|r rows IH]; intros m W; simpl; [done|]. by apply IH, fold_wf. Qed.

Lemma fold_rows_merge rows m : multiset_wf m -> List.fold_left (fun m b => fold m (blake3 b)) rows m = merge m (of_rows rows).
Proof.
  revert m. induction rows as [|r rows IH]; intros m W; simpl; [by rewrite merge_comm, merge_default|].
  unfold of_rows. simpl. rewrite (IH (fold m (blake3 r))) by by apply fold_wf.
  rewrite (IH (fold default_multiset (blake3 r))) by (apply fold_wf; [apply default_wf|done]).
  rewrite (fold_is_merge m) by done. by rewrite merge_assoc.
Qed.

Lemma multiset_of_app a b : of_rows (a ++ b) = merge (of_rows a) (of_rows b).
Proof. unfold of_rows. rewrite List.fold_left_app. apply fold_rows_merge, fold_rows_wf, default_wf. Qed.

#[local] Instance of_rows_perm : Proper (Permutation ==> eq) of_rows.
Proof.
  intros l l' P. induction P as [|x l l' _ IH|x y l|l l' l'' _ IH1 _ IH2]; [done| | |congruence].
  - change (of_rows ([x] ++ l) = of_rows ([x] ++ l')). by rewrite !multiset_of_app, IH.
  - change (of_rows ([y] ++ [x] ++ l) = of_rows ([x] ++ [y] ++ l)). rewrite !multiset_of_app, !merge_assoc. f_equal. apply merge_comm.
Qed.

Definition collision : Prop := exists a b, a <> b /\ blake3 a = blake3 b.

(** Replacing one row shows in the XOR. *)
Lemma one_change_shows a b rows : of_rows (a :: rows) = of_rows (b :: rows) -> a = b \/ collision.
Proof.
  change (of_rows ([a] ++ rows) = of_rows ([b] ++ rows) -> a = b \/ collision). rewrite !multiset_of_app. intros E. apply (f_equal xor) in E. unfold of_rows at 1 3 in E. cbn [List.fold_left merge fold xor default_multiset] in E.
  destruct (decide (a = b)) as [|N]; [by left|right]. exists a, b. split; [done|].
  assert (W : multiset_wf (of_rows rows)) by apply fold_rows_wf, default_wf.
  apply list_eq_same_length with (n := 32%nat); [done..|]. intros i x y Li Ha Hb.
  apply (f_equal (fun l => l !! i)) in E. change (List.repeat 0 32) with (replicate 32 0) in E.
  destruct (lookup_lt_is_Some_2 (xor (of_rows rows)) i) as [z Hz]; [rewrite (mw_xor _ W); lia|].
  rewrite !lookup_zip_with, !lookup_replicate_2, Ha, Hb, Hz in E by lia. cbn [mbind option_bind] in E. injection E as E. rewrite !Z.lxor_0_l in E.
  apply (f_equal (fun v => Z.lxor v z)) in E. by rewrite !Z.lxor_assoc, Z.lxor_nilpotent, !Z.lxor_0_r in E.
Qed.

Lemma count_of_rows rows : count (of_rows rows) = len rows mod 2 ^ 64.
Proof.
  assert (G : forall m, count (List.fold_left (fun m b => fold m (blake3 b)) rows m) mod 2 ^ 64 = (count m + len rows) mod 2 ^ 64 ).
  { induction rows as [|r rows IH]; intros m; simpl; [by rewrite len_nil, Z.add_0_r|]. rewrite IH. simpl. unfold wrapping_add, len. simpl length.
    rewrite Nat2Z.inj_succ, Z.add_mod_idemp_l by done. f_equal. lia. }
  rewrite <-(Z.mod_small (count (of_rows rows)) (2 ^ 64)) by apply fold_rows_wf, default_wf. unfold of_rows. by rewrite G.
Qed.
End rows.

(** ** Logical values *)

(** A value under a declared type; a timestamp in milliseconds, a float by its
    canonical bits. *)
Inductive LogicalValue :=
| LNull
| LInt (v : Z)
| LTimestamp (ms : Z)
| LDate (days : Z)
| LText (s : bytes)
| LBool (b : bool)
| LFloat (bits : Z).

#[export] Instance LogicalValue_eq_dec : EqDecision LogicalValue.
Proof. solve_decision. Defined.

Definition cell {A} (l : list (option A)) (f : A -> LogicalValue) (row : nat) : LogicalValue :=
  match at_row l row with None => LNull | Some a => f a end.

Definition logical_value (logical : LogicalType) (a : Array) (row : nat) : LogicalValue :=
  match logical, a with
  | SignedInt, (Int8Array l | Int16Array l | Int32Array l | Int64Array l) => cell l LInt row
  | TimestampMillis, (Int64Array l | TimestampArray Millisecond l) => cell l LTimestamp row
  | TimestampMillis, TimestampArray Second l => cell l (fun v => LTimestamp (v * 1000)) row
  | TimestampMillis, TimestampArray Microsecond l => cell l (fun v => LTimestamp (v / 1000)) row
  | TimestampMillis, TimestampArray Nanosecond l => cell l (fun v => LTimestamp (v / 1000000)) row
  | DateDays, (Date32Array l | Int32Array l | Int64Array l) => cell l LDate row
  | Utf8, (StringArray l | LargeStringArray l | StringViewArray l) => cell l LText row
  | Boolean, BooleanArray l => cell l LBool row
  | Float64, Float64Array l => cell l (fun v => LFloat (canonical_bits v)) row
  | _, _ => LNull
  end.

(** What the values of the arrays can be; seconds that are exact in milliseconds. *)
Definition value_ok (v : LogicalValue) : Prop :=
  match v with
  | LNull | LBool _ => True
  | LInt v | LTimestamp v | LDate v => in_i64 v
  | LText s => len s < 2 ^ 64
  | LFloat bits => 0 <= bits < 2 ^ 64
  end.

Definition encode_value (v : LogicalValue) : bytes :=
  match v with
  | LNull => [0]
  | LInt v => emit_signed v
  | LTimestamp ms => emit_ms ms
  | LDate d => emit_days d
  | LText s => encode_str 4 s
  | LBool b => [5; Z.b2z b]
  | LFloat bits => 6 :: le_bytes 8 bits
  end.

(** The bytes of a value say which it is, whatever follows. *)
Lemma pf_value : prefix_free value_ok eq encode_value.
Proof.
  intros [|v|v|v|s|b|v] [|w|w|w|s'|b'|w] r1 r2 Ha Hb H; simpl in Ha, Hb; try discriminate H; unfold in_i64, i64_min, i64_max in *.
  - injection H as ->. done.
  - apply tag_inv, (pf_le_signed 16) in H as [-> ->]; [done|lia|lia|lia].
  - apply tag_inv, (pf_le_signed 8) in H as [-> ->]; [done|lia|lia|lia].
  - apply tag_inv, (pf_le_signed 8) in H as [-> ->]; [done|lia|lia|lia].
  - apply tag_inv in H. rewrite <-!app_assoc in H. apply (pf_le 8) in H as [L H]; [|unfold len in *; lia..].
    apply app_same_length in H as [-> ->]; [done|]. unfold len in L. lia.
  - injection H as E ->. by destruct b, b'.
  - apply tag_inv, (pf_le 8) in H as [-> ->]; [done|lia|lia].
Qed.

Lemma encode_row_inj r r' : length r = length r' -> Forall value_ok r -> Forall value_ok r' ->
  List.flat_map encode_value r = List.flat_map encode_value r' -> r = r'.
Proof.
  intros L F F' E. destruct (pf_list_same_length value_ok eq encode_value r r' [] []) as [R _]; try done.
  - apply List.Forall_forall. intros x _. apply pf_value.
  - by rewrite !app_nil_r.
  - by apply Forall2_eq.
Qed.

(** An encoder that is built appends the bytes of its column's logical value. *)
Lemma enc_cell {A} (l : list (option A)) (emit : A -> bytes) (f : A -> LogicalValue) row :
  (forall a, at_row l row = Some a -> emit a = encode_value (f a)) -> enc l emit row = encode_value (cell l f row).
Proof. unfold enc, cell. destruct (at_row l row); [by intros H; apply H|done]. Qed.

Lemma exact_quot l unit row v : inexact l unit = false -> 0 < unit -> at_row l row = Some v -> Z.quot v unit = v / unit.
Proof.
  intros I U E. assert (R : Z.rem v unit = 0).
  { apply not_true_iff_false in I. destruct (Z.eqb_spec (Z.rem v unit) 0) as [|N]; [done|]. destruct I. apply List.existsb_exists.
    exists (Some v). split; [|by apply negb_true_iff, Z.eqb_neq]. unfold at_row in E. destruct (l !! row) as [x|] eqn:Hl; simpl in E; [|done]. subst x.
    by apply list_elem_of_lookup_2, list_elem_of_In in Hl. }
  apply Z.rem_divide in R as [k ->]; [|lia]. by rewrite Z.quot_mul, Z.div_mul by lia.
Qed.

Lemma encoder_is_logical name logical a e row : encoder_for name logical a = Ok e -> value_ok (logical_value logical a row) ->
  e row = encode_value (logical_value logical a row).
Proof.
  destruct logical, a as [l|l|l|l|[] l|l|l|l|l|l|l|t]; simpl; try done; try (destruct (inexact l _) eqn:I; [done|]);
    intros [= <-] V; apply enc_cell; intros v Hv; simpl; try done.
  - unfold cell in V. rewrite Hv in V. simpl in V. by rewrite wrap_i64_id.
  - by rewrite (exact_quot l 1000 row).
  - by rewrite (exact_quot l 1000000 row).
Qed.

(** ** Batches as logical rows *)

Definition logical_row (schema : LogicalSchema) (batch : Batch) (row : nat) : list LogicalValue :=
  zip_with (fun c d => logical_value d.2 c.2 row) (columns batch) schema.

Definition logical_rows (schema : LogicalSchema) (batch : Batch) : list (list LogicalValue) :=
  List.map (logical_row schema batch) (seq 0 (num_rows batch)).

Lemma encoders_are_logical whole cols : forall schema es row, encoders_of whole cols schema = Ok es ->
  Forall value_ok (zip_with (fun c d => logical_value d.2 c.2 row) cols schema) ->
  List.flat_map (fun e : nat -> bytes => e row) es = List.flat_map encode_value (zip_with (fun c d => logical_value d.2 c.2 row) cols schema).
Proof.
  induction cols as [|[n a] cols IH]; intros [|[d ty] schema] es row; simpl; try by intros [= <-].
  destruct (negb _); [done|]. intros R F. inv_ok. inversion F; subst. simpl. f_equal; [by eapply encoder_is_logical|by apply IH].
Qed.

Section logical.
Context (blake3 : bytes -> bytes).
Context (blake3_len : forall b, length (blake3 b) = 32%nat).
Context (schema : LogicalSchema).

(** A sequence of batches, folded from the default. *)
Fixpoint logical_updates (batches : list Batch) (m : RowMultiset) : result RowMultiset LogicalFingerprintError :=
  match batches with
  | [] => Ok m
  | b :: batches => let? m := logical_update blake3 schema m b in logical_updates batches m
  end.

Definition all_rows (batches : list Batch) : list (list LogicalValue) := List.flat_map (logical_rows schema) batches.
Definition rows_ok (batches : list Batch) : Prop := Forall (Forall value_ok) (all_rows batches).

Lemma update_is_rows batch m m' : logical_update blake3 schema m batch = Ok m' -> Forall (Forall value_ok) (logical_rows schema batch) ->
  m' = List.fold_left (fun m b => fold m (blake3 b)) (List.map (List.flat_map encode_value) (logical_rows schema batch)) m /\
  Forall (fun r => length r = length schema) (logical_rows schema batch).
Proof.
  unfold logical_update, column_encoders. destruct (Nat.eqb_spec (length (columns batch)) (length schema)) as [L|]; [|done]. simpl. intros R F. inv_ok. split.
  - unfold fold_rows, logical_rows in *. revert F. generalize m. induction (seq 0 (num_rows batch)) as [|row rows IH]; intros m1 F; simpl; [done|].
    inversion F as [|? ? F1 F2]; subst. 
    assert (Er : encode_row a row = List.flat_map encode_value (logical_row schema batch row)) by apply (encoders_are_logical _ _ _ _ _ E F1).
    rewrite Er. by apply IH.
  - apply Forall_map, Forall_true. intros row. unfold logical_row. rewrite length_zip_with. lia.
Qed.

Lemma updates_are_rows batches m m' : logical_updates batches m = Ok m' -> rows_ok batches ->
  m' = List.fold_left (fun m b => fold m (blake3 b)) (List.map (List.flat_map encode_value) (all_rows batches)) m /\
  Forall (fun r => length r = length schema) (all_rows batches).
Proof.
  unfold rows_ok, all_rows. revert m. induction batches as [|b batches IH]; intros m; simpl; [by intros [= <-]|].
  intros R [F1 F2]%Forall_app. inv_ok. apply update_is_rows in E as [-> L]; [|done]. apply IH in R as [-> L2]; [|done].
  split; [by rewrite List.map_app, List.fold_left_app|by apply Forall_app].
Qed.

(** The logical fingerprint is of the multiset of logical rows, and of nothing
    else. Two sequences of batches, cut and ordered as they may be, in whatever
    physical types carry their columns, have one fingerprint when they hold the
    same logical rows -- so a fingerprint of parts merges to that of the whole --
    and two that differ in one row have different ones, or exhibit a collision of
    BLAKE3; the count is the number of rows, mod 2^64. *)
Theorem logical_fingerprint_is_of_rows bs bs' m m' :
  rows_ok bs -> rows_ok bs' ->
  logical_updates bs default_multiset = Ok m -> logical_updates bs' default_multiset = Ok m' ->
  (all_rows bs ≡ₚ all_rows bs' -> m = m') /\
  (forall r r' rest, all_rows bs ≡ₚ r :: rest -> all_rows bs' ≡ₚ r' :: rest -> r <> r' -> m <> m' \/ collision blake3) /\
  (forall whole, logical_updates (bs ++ bs') default_multiset = Ok whole -> merge m m' = whole) /\
  count m = len (all_rows bs) mod 2 ^ 64.
Proof.
  intros F F' U U'. apply updates_are_rows in U as [-> L]; [|done]. apply updates_are_rows in U' as [-> L']; [|done].
  set (code := List.map (List.flat_map encode_value)). change (List.fold_left _ (code (all_rows bs)) _) with (of_rows blake3 (code (all_rows bs))).
  change (List.fold_left _ (code (all_rows bs')) _) with (of_rows blake3 (code (all_rows bs'))).
  pose proof (of_rows_perm blake3 blake3_len) as Pm. split_and!.
  - intros P. apply Pm. unfold code. by rewrite P.
  - intros r r' rest P P' N. destruct (decide (of_rows blake3 (code (all_rows bs)) = of_rows blake3 (code (all_rows bs')))) as [E|]; [|by left]. right.
    assert (E1 : of_rows blake3 (code (r :: rest)) = of_rows blake3 (code (r' :: rest))).
    { transitivity (of_rows blake3 (code (all_rows bs))); [apply Pm; unfold code; by rewrite P|]. etrans; [exact E|]. apply Pm. unfold code. by rewrite P'. }
    apply one_change_shows in E1 as [E1|]; [|done..]. exfalso. apply N. unfold rows_ok in *. rewrite P in F, L. rewrite P' in F', L'.
    inversion F; inversion F'; inversion L; inversion L'; subst. by apply encode_row_inj; [congruence|..].
  - intros whole W. apply updates_are_rows in W as [-> _]; [|unfold rows_ok, all_rows; rewrite List.flat_map_app; by apply Forall_app].
    unfold all_rows at 3. rewrite List.flat_map_app, List.map_app. symmetry. by apply multiset_of_app.
  - rewrite count_of_rows by done. unfold code, len. by rewrite List.length_map.
Qed.
End logical.

(** ** Seconds that are not exact *)

Lemma same_ms_same_update blake3 v w : wrap_i64 (v * 1000) = wrap_i64 (w * 1000) ->
  logical_update blake3 [("ts"%string, TimestampMillis)] default_multiset (mkBatch [("ts"%string, TimestampArray Second [Some v])] 1) =
  logical_update blake3 [("ts"%string, TimestampMillis)] default_multiset (mkBatch [("ts"%string, TimestampArray Second [Some w])] 1).
Proof.
  intros E. unfold logical_update. simpl. unfold fold_rows, encode_row. simpl. unfold enc, at_row. simpl. by rewrite E.
Qed.

(** The conversion of a timestamp in seconds, commented as always exact,
    multiplies in [i64] and wraps: two instants 2^61 seconds apart have one
    fingerprint under any hash, and rows that differ count as the same. *)
Theorem seconds_alias blake3 s : in_i64 s -> in_i64 (s + 2 ^ 61) ->
  let batch v := mkBatch [("ts"%string, TimestampArray Second [Some v])] 1 in
  logical_update blake3 [("ts"%string, TimestampMillis)] default_multiset (batch s) =
  logical_update blake3 [("ts"%string, TimestampMillis)] default_multiset (batch (s + 2 ^ 61)).
Proof.
  intros _ _. cbv zeta. apply same_ms_same_update. unfold wrap_i64. f_equal. rewrite Z.mul_add_distr_r.
  replace (s * 1000 + 2 ^ 61 * 1000 + 2 ^ 63) with (s * 1000 + 2 ^ 63 + 125 * 2 ^ 64) by lia. by rewrite Z.mod_add.
Qed.

(** ** An example *)

(** Four lanes of a byte string's value: no hash, but of 32 bytes. *)
Definition toy_blake3 (b : bytes) : bytes := le_bytes 32 (of_le b).
Lemma toy_len b : length (toy_blake3 b) = 32%nat.
Proof. apply le_bytes_length. Qed.

Definition toy_schema : LogicalSchema := [("k", SignedInt); ("v", Utf8)]%string.
(** Three rows as 64-bit integers and strings; the same in two batches, as 16-bit
    integers and views. *)
Definition wide : list Batch := [mkBatch [("k"%string, Int64Array [Some 1; None; Some (-2)]); ("v"%string, StringArray [Some [97]; Some []; None])] 3].
Definition narrow : list Batch :=
  [mkBatch [("k"%string, Int16Array [Some (-2); Some 1]); ("v"%string, StringViewArray [None; Some [97]])] 2;
   mkBatch [("k"%string, Int16Array [None]); ("v"%string, StringViewArray [Some []])] 1].
Definition toy_fingerprint (bs : list Batch) : RowMultiset :=
  match logical_updates toy_blake3 toy_schema bs default_multiset with Ok m => m | Err _ => default_multiset end.

Lemma toy_rows_ok bs : bs = wide \/ bs = narrow -> rows_ok toy_schema bs.
Proof. intros [-> | ->]; unfold rows_ok, all_rows; simpl; repeat constructor; done. Qed.

Lemma logical_fingerprint_is_of_rows_witness : toy_fingerprint wide = toy_fingerprint narrow.
Proof.
  destruct (logical_fingerprint_is_of_rows toy_blake3 toy_len toy_schema wide narrow (toy_fingerprint wide) (toy_fingerprint narrow)) as [P _];
    [apply toy_rows_ok; by left|apply toy_rows_ok; by right|by vm_compute|by vm_compute|].
  apply P. unfold all_rows. simpl. 
  apply (perm_trans (l' := [[LInt (-2); LNull]; [LInt 1; LText [97]]; [LNull; LText []]])); [|done].
  symmetry. apply (Permutation_cons_append [[LInt 1; LText [97]]; [LNull; LText []]] [LInt (-2); LNull]).
Defined.

Lemma seconds_alias_witness :
  logical_update toy_blake3 [("ts"%string, TimestampMillis)] default_multiset (mkBatch [("ts"%string, TimestampArray Second [Some 1700000000])] 1) =
  logical_update toy_blake3 [("ts"%string, TimestampMillis)] default_multiset (mkBatch [("ts"%string, TimestampArray Second [Some (1700000000 + 2 ^ 61)])] 1).
Proof. apply (seconds_alias toy_blake3 1700000000); by vm_compute. Defined.

End FingerprintsSpec.
