(* ===== verification/Synth.v ===== *)
(** * Synthetic fixtures (tools/prod-synth)

    The deterministic generator behind the benchmark fixtures: SplitMix64 with its
    bounded draws, shuffles and samples (rng.rs), and the graph of tenants and parts
    with the degrees a profile asks for (topology.rs). The floating-point scaling
    of a profile is not modelled. *)

From S2P Require Import Prelude Bytes.

(** A computation that draws numbers: [None] is a panic, or a draw that is never
    accepted. *)
Definition Draw (A : Type) : Type := Z -> option (A * Z).

Module Rng.

Definition wrap (z : Z) : Z := z mod 2 ^ 64.

Definition draw_ret {A} (a : A) : Draw A := fun s => Some (a, s).
Definition draw_bind {A B} (m : Draw A) (k : A -> Draw B) : Draw B := fun s =>
  match m s with Some (a, s) => k a s | None => None end.

(** SplitMix64's finalizer. *)
Definition mix (z : Z) : Z :=
  let z := wrap (Z.lxor z (Z.shiftr z 30) * 0xbf58476d1ce4e5b9) in
  let z := wrap (Z.lxor z (Z.shiftr z 27) * 0x94d049bb133111eb) in
  Z.lxor z (Z.shiftr z 31).

(** The FNV-1a hash of a domain. *)
Definition domain_hash (domain : string) : Z :=
  List.fold_left (fun h b => wrap (Z.lxor h b * 0x100000001b3)) (str_bytes domain) 0xcbf29ce484222325.

(** [StableRng::stream]: the state it starts from. *)
Definition stream (seed : Z) (domain : string) : Z := mix (Z.lxor seed (domain_hash domain)).

Definition next_state (s : Z) : Z := wrap (s + 0x9e3779b97f4a7c15).
Definition next_u64 (s : Z) : Z * Z := (mix (next_state s), next_state s).

(** [2 ^ k] steps of a loop, or fewer when it breaks. *)
Fixpoint steps {S R} (k : nat) (f : S -> S + R) (s : S) : S + R :=
  match k with
  | O => f s
  | Datatypes.S k => match steps k f s with inl s => steps k f s | inr r => inr r end
  end.

(** One turn of the rejection loop: the product that is kept, and the state. *)
Definition redraw (n threshold : Z) (s : Z) : Z + Z * Z :=
  let '(x, s) := next_u64 s in
  let m := x * n in
  if wrap m <? threshold then inl s else inr (m, s).

(** Lemire's bounded draw. The generator runs through all its states within 2^64
    draws, so that many turns are enough ([below_Some]). *)
Definition below (n : Z) : Draw Z := fun s =>
  if n <=? 0 then None
  else
    let '(x, s) := next_u64 s in
    let m := x * n in
    if wrap m <? n then
      let threshold := wrap (- n) mod n in
      if wrap m <? threshold then
        match steps 64 (redraw n threshold) s with
        | inr (m, s) => Some (Z.shiftr m 64, s)
        | inl _ => None
        end
      else Some (Z.shiftr m 64, s)
    else Some (Z.shiftr m 64, s).

Definition range_inclusive (lo hi : Z) : Draw Z :=
  if lo <=? hi then draw_bind (below (hi - lo + 1)) (fun v => draw_ret (lo + v)) else fun _ => None.

Definition swap {A} (i j : nat) (l : list A) : list A :=
  match l !! i, l !! j with Some x, Some y => <[j := x]> (<[i := y]> l) | _, _ => l end.

(** [for i in (1..len).rev()], [i] counting down. *)
Fixpoint shuffle_from {A} (i : nat) (l : list A) : Draw (list A) :=
  match i with
  | O => draw_ret l
  | S i' => draw_bind (below (Z.of_nat i + 1)) (fun j => shuffle_from i' (swap i (Z.to_nat j) l))
  end.
Definition shuffle {A} (l : list A) : Draw (list A) := shuffle_from (length l - 1) l.

(** Floyd's draws from [j] on, [k] of them. *)
Fixpoint sample_from (lo j : Z) (k : nat) (chosen : gset Z) (out : list Z) : Draw (list Z) :=
  match k with
  | O => draw_ret out
  | S k =>
      draw_bind (below (j + 1)) (fun t =>
      let t := lo + t in
      let v := if bool_decide (t ∈ chosen) then lo + j else t in
      sample_from lo (j + 1) k ({[v]} ∪ chosen) (out ++ [v]))
  end.

Definition sample_distinct (lo hi : Z) (k : nat) : Draw (list Z) :=
  let n := hi - lo + 1 in
  if Z.of_nat k <=? n
  then draw_bind (sample_from lo (n - Z.of_nat k) k ∅ []) (fun out => draw_ret (merge_sort Z.le out))
  else fun _ => None.

(** ** Every draw ends, in range *)

Lemma wrap_range z : 0 <= wrap z < 2 ^ 64.
Proof. by apply Z.mod_pos_bound. Qed.

Lemma log2_u64 a : 0 <= a < 2 ^ 64 -> Z.log2 a < 64.
Proof. intros B. destruct (Z.eq_dec a 0) as [->|]; [done|]. apply Z.log2_lt_pow2; lia. Qed.

Lemma lxor_range a b : 0 <= a < 2 ^ 64 -> 0 <= b < 2 ^ 64 -> 0 <= Z.lxor a b < 2 ^ 64.
Proof.
  intros A B. assert (N : 0 <= Z.lxor a b) by (apply Z.lxor_nonneg; lia). split; [exact N|].
  destruct (Z.eq_dec (Z.lxor a b) 0) as [->|]; [lia|]. apply Z.log2_lt_pow2; [lia|].
  pose proof (Z.log2_lxor a b ltac:(lia) ltac:(lia)). pose proof (log2_u64 a A). pose proof (log2_u64 b B). lia.
Qed.

Lemma lxor_shiftr_range z k : 0 <= z < 2 ^ 64 -> 0 <= k -> 0 <= Z.lxor z (Z.shiftr z k) < 2 ^ 64.
Proof.
  intros B K. apply lxor_range; [done|]. rewrite Z.shiftr_div_pow2 by done. assert (0 < 2 ^ k) by (apply Z.pow_pos_nonneg; lia).
  split; [apply Z.div_pos; lia|]. apply Z.div_lt_upper_bound; nia.
Qed.

Lemma mix_range z : 0 <= mix z < 2 ^ 64.
Proof. unfold mix. apply lxor_shiftr_range; [apply wrap_range|lia]. Qed.

(** The state after [i] draws. *)
Definition state_at (s i : Z) : Z := wrap (s + i * 0x9e3779b97f4a7c15).

Lemma state_at_next s i : next_state (state_at s i) = state_at s (i + 1).
Proof. unfold next_state, state_at, wrap. rewrite Z.add_mod_idemp_l by done. f_equal. lia. Qed.

(** While the loop goes on, it goes through the states. *)
Lemma redraw_steps n threshold k : forall s s', steps k (redraw n threshold) (state_at s 0) = inl s' -> 
  s' = state_at s (2 ^ Z.of_nat k) /\ forall i, 0 <= i < 2 ^ Z.of_nat k -> wrap (mix (state_at s (i + 1)) * n) < threshold.
Proof.
  assert (G : forall k s j s', steps k (redraw n threshold) (state_at s j) = inl s' ->
    s' = state_at s (j + 2 ^ Z.of_nat k) /\ forall i, 0 <= i < 2 ^ Z.of_nat k -> wrap (mix (state_at s (j + i + 1)) * n) < threshold);
    [|intros s s' R; by apply G in R].
  clear k. induction k as [|k IH]; intros s j s'.
  - simpl. unfold redraw, next_u64. rewrite state_at_next. destruct (Z.ltb_spec (wrap (mix (state_at s (j + 1)) * n)) threshold) as [L|]; [|done].
    intros [= <-]. split; [done|]. intros i Hi. by replace (j + i + 1) with (j + 1) by lia.
  - cbn [steps]. destruct (steps k _ _) as [s1|] eqn:R1; [|done]. apply IH in R1 as [-> P1]. intros R2. apply IH in R2 as [-> P2].
    rewrite Nat2Z.inj_succ, Z.pow_succ_r by lia. split; [f_equal; lia|]. intros i Hi.
    destruct (Z.lt_ge_cases i (2 ^ Z.of_nat k)) as [L|L]; [apply P1; lia|].
    specialize (P2 (i - 2 ^ Z.of_nat k) ltac:(lia)). by replace (j + 2 ^ Z.of_nat k + (i - 2 ^ Z.of_nat k) + 1) with (j + i + 1) in P2 by lia.
Qed.

(** Every state comes up: the increment is odd. *)
Lemma all_states s target : 0 <= target < 2 ^ 64 -> exists i, 0 <= i < 2 ^ 64 /\ state_at s (i + 1) = target.
Proof.
  intros B. exists (((target - s) * 0xf1de83e19937733d - 1) mod 2 ^ 64). split; [by apply Z.mod_pos_bound|].
  unfold state_at, wrap. rewrite <-(Z.mod_small target (2 ^ 64)) at 2 by done.
  set (g := 0x9e3779b97f4a7c15). set (v := (target - s) * 0xf1de83e19937733d - 1).
  rewrite <-Z.add_mod_idemp_r, <-Z.mul_mod_idemp_l, Z.add_mod_idemp_l, Z.mul_mod_idemp_l, Z.add_mod_idemp_r by done.
  unfold v. replace (s + ((target - s) * 0xf1de83e19937733d - 1 + 1) * g) with (target + (target - s) * (0xf1de83e19937733d * g - 1)) by lia.
  replace (0xf1de83e19937733d * g - 1) with ((0xf1de83e19937733d * g / 2 ^ 64) * 2 ^ 64) by (by vm_compute).
  by rewrite Z.mul_assoc, Z.mod_add.
Qed.

Lemma below_Some n s : 0 < n < 2 ^ 64 -> 0 <= s < 2 ^ 64 -> exists v s', below n s = Some (v, s') /\ 0 <= v < n /\ 0 <= s' < 2 ^ 64.
Proof.
  intros N B. unfold below. destruct (Z.leb_spec n 0) as [|_]; [lia|].
  assert (Kept : forall x s', 0 <= x < 2 ^ 64 -> 0 <= s' < 2 ^ 64 -> exists v t, Some (Z.shiftr (x * n) 64, s') = Some (v, t) /\ 0 <= v < n /\ 0 <= t < 2 ^ 64).
  { intros x s' X S'. exists (Z.shiftr (x * n) 64), s'. split; [done|]. split; [|exact S']. rewrite Z.shiftr_div_pow2 by done.
    split; [apply Z.div_pos; nia|apply Z.div_lt_upper_bound; nia]. }
  unfold next_u64. destruct (wrap _ <? n); [|apply Kept; [apply mix_range|apply wrap_range]].
  destruct (wrap _ <? _); [|apply Kept; [apply mix_range|apply wrap_range]].
  set (threshold := wrap (- n) mod n). assert (T : 0 <= threshold < n) by (apply Z.mod_pos_bound; lia).
  assert (S0 : next_state s = state_at (next_state s) 0) by (unfold state_at, next_state, wrap; rewrite Z.mul_0_l, Z.add_0_r; by rewrite Z.mod_mod).
  rewrite S0. destruct (steps 64 _ _) as [s1|[m s1]] eqn:R.
  - exfalso. apply redraw_steps in R as [_ R]. destruct (all_states (next_state s) 0x966dbfc16913c5d2 ltac:(done)) as (i & Hi & E).
    specialize (R i Hi). rewrite E in R. replace (mix 0x966dbfc16913c5d2) with 1 in R by (by vm_compute). unfold wrap in R. rewrite Z.mul_1_l, Z.mod_small in R; lia.
  - assert (G : forall k s, match steps k (redraw n threshold) s with inr (m, s1) => exists x, m = x * n /\ 0 <= x < 2 ^ 64 /\ 0 <= s1 < 2 ^ 64 | inl _ => True end).
    { clear. induction k as [|k IH]; intros s; cbn [steps].
      - unfold redraw, next_u64. destruct (_ <? _); [done|]. eexists. split; [done|]. split; [apply mix_range|apply wrap_range].
      - specialize (IH s) as H1. destruct (steps k _ s) as [s1|]; [apply IH|exact H1]. }
    specialize (G 64%nat (state_at (next_state s) 0)). rewrite R in G. destruct G as (x & -> & X & S1). by apply Kept.
Qed.

(** ** Draws that end *)

Definition seeded (s : Z) : Prop := 0 <= s < 2 ^ 64.

(** From any state a value that satisfies [P], and a state. *)
Definition draws {A} (m : Draw A) (P : A -> Prop) : Prop :=
  forall s, seeded s -> exists a s', m s = Some (a, s') /\ P a /\ seeded s'.

Lemma draws_ret {A} (a : A) (P : A -> Prop) : P a -> draws (draw_ret a) P.
Proof. intros Pa s S. by exists a, s. Qed.

Lemma draws_bind {A B} (m : Draw A) (k : A -> Draw B) P Q : draws m P -> (forall a, P a -> draws (k a) Q) -> draws (draw_bind m k) Q.
Proof. intros M K s S. destruct (M s S) as (a & s' & E & Pa & S'). unfold draw_bind. rewrite E. by apply K. Qed.

Lemma draws_below n : 0 < n < 2 ^ 64 -> draws (below n) (fun v => 0 <= v < n).
Proof. intros N s S. destruct (below_Some n s N S) as (v & s' & ?). by exists v, s'. Qed.

Lemma swap_perm {A} i j (l : list A) : swap i j l ≡ₚ l.
Proof.
  unfold swap. destruct (l !! i) as [x|] eqn:Hi; [|done]. destruct (l !! j) as [y|] eqn:Hj; [|done].
  destruct (decide (i = j)) as [->|N].
  - rewrite Hi in Hj. injection Hj as ->. by rewrite !list_insert_id by (rewrite ?list_lookup_insert_eq; (done || by eapply lookup_lt_Some)).
  - by apply Permutation_insert_swap.
Qed.

Lemma draws_shuffle_from {A} i : forall l : list A, Z.of_nat (length l) < 2 ^ 64 -> (i < length l)%nat \/ i = 0%nat -> draws (shuffle_from i l) (fun l' => l' ≡ₚ l).
Proof.
  induction i as [|i IH]; intros l L I; [by apply draws_ret|]. cbn [shuffle_from]. eapply draws_bind; [apply draws_below; lia|].
  intros j Hj. cbn beta in *. pose proof (swap_perm (S i) (Z.to_nat j) l) as P. pose proof (Permutation_length P) as PL. intros s Sd.
  destruct (IH (swap (S i) (Z.to_nat j) l) ltac:(lia) ltac:(lia) s Sd) as (l' & s' & E & P' & S'). exists l', s'. split; [done|]. split; [by rewrite P'|done].
Qed.

Lemma draws_shuffle {A} (l : list A) : Z.of_nat (length l) < 2 ^ 64 -> draws (shuffle l) (fun l' => l' ≡ₚ l).
Proof. intros L. apply draws_shuffle_from; [done|]. lia. Qed.

(** Floyd's invariant: what was chosen is below [lo + j], and is what was put out. *)
Lemma draws_sample_from lo k : forall j chosen out, 0 <= j -> j + Z.of_nat k < 2 ^ 64 ->
  (forall v, v ∈ chosen -> lo <= v < lo + j) -> NoDup out -> (forall v, v ∈ out <-> v ∈ chosen) ->
  draws (sample_from lo j k chosen out) (fun out' => length out' = (length out + k)%nat /\ NoDup out' /\ forall v, v ∈ out' -> lo <= v < lo + j + Z.of_nat k).
Proof.
  induction k as [|k IH]; intros j chosen out J B C N M; cbn [sample_from].
  - apply draws_ret. split_and!; [lia|done|]. intros v Hv%M%C. lia.
  - eapply draws_bind; [apply draws_below; lia|]. intros t Ht. cbn beta zeta in *.
    set (v := if bool_decide (lo + t ∈ chosen) then lo + j else lo + t).
    assert (V : v ∉ chosen /\ lo <= v < lo + j + 1).
    { unfold v. case_bool_decide as D; [split; [intros X%C; lia|lia]|split; [done|lia]]. }
    destruct V as [V1 V2]. intros s S.
    destruct (IH (j + 1) ({[v]} ∪ chosen) (out ++ [v]) ltac:(lia) ltac:(lia)) with (s := s) as (out' & s' & E & (P1 & P2 & P3) & S'); [| | |done|].
    + intros w [->%elem_of_singleton|Hw%C]%elem_of_union; lia.
    + apply NoDup_app. split_and!; [done| |apply NoDup_singleton]. intros w Hw ->%list_elem_of_singleton. by apply V1, M.
    + intros w. rewrite elem_of_app, list_elem_of_singleton, elem_of_union, elem_of_singleton, M. tauto.
    + exists out', s'. split; [done|]. split; [|done]. rewrite P1, length_app. simpl. split_and!; [lia|done|]. intros w Hw%P3. lia.
Qed.

Lemma strictly_sorted l : NoDup l -> StronglySorted Z.lt (merge_sort Z.le l).
Proof.
  intros N. assert (N' : NoDup (merge_sort Z.le l)) by (by rewrite merge_sort_Permutation).
  pose proof (StronglySorted_merge_sort Z.le l) as S. induction S as [|x m _ IH F]; [constructor|].
  apply NoDup_cons in N' as [X N']. constructor; [by apply IH|]. rewrite Forall_forall in *. intros y Hy. specialize (F y Hy).
  destruct (Z.eq_dec x y) as [->|]; [done|lia].
Qed.

Lemma draws_sample lo hi k : 0 <= lo -> hi < 2 ^ 64 - 1 -> Z.of_nat k <= hi - lo + 1 ->
  draws (sample_distinct lo hi k) (fun out => length out = k /\ StronglySorted Z.lt out /\ forall v, v ∈ out -> lo <= v <= hi).
Proof.
  intros L H K. unfold sample_distinct. rewrite (proj2 (Z.leb_le _ _)) by done.
  eapply draws_bind; [apply draws_sample_from|].
  - lia.
  - lia.
  - intros v Hv. by apply elem_of_empty in Hv.
  - constructor.
  - intros v. split; intros Hv; [by apply elem_of_nil in Hv|by apply elem_of_empty in Hv].
  - intros out (P1 & P2 & P3). apply draws_ret. split_and!; [by rewrite (Permutation_length (merge_sort_Permutation Z.le out))|by apply strictly_sorted|].
    intros v Hv. rewrite merge_sort_Permutation in Hv. specialize (P3 v Hv). lia.
Qed.

Lemma draws_range lo hi : lo <= hi -> hi - lo + 1 < 2 ^ 64 -> draws (range_inclusive lo hi) (fun v => lo <= v <= hi).
Proof.
  intros L B. unfold range_inclusive. rewrite (proj2 (Z.leb_le _ _)) by done. eapply draws_bind; [apply draws_below; lia|].
  intros v V. apply draws_ret. cbn beta in V. lia.
Qed.

(** SplitMix64's published outputs for seed 0. *)
Example reference_vectors :
  (fun s => let '(a, s) := next_u64 s in let '(b, s) := next_u64 s in let '(c, s) := next_u64 s in [a; b; c]) 0 =
  [0xe220a8397b1dcdaf; 0x6e789e6aa1b965f4; 0x06c45d188009454f].
Proof. by vm_compute. Qed.

(** no draw hangs, whatever the state: the rejection loop of a bounded draw is left
    within the 2^64 states of the generator and the value is below its bound; a
    shuffle is a permutation; a sample has the size asked for and is ascending,
    without repeats and within its bounds. *)
Theorem draws_end (s : Z) : seeded s ->
  (forall n, 0 < n < 2 ^ 64 -> exists v s', below n s = Some (v, s') /\ 0 <= v < n /\ seeded s') /\
  (forall lo hi, lo <= hi -> hi - lo + 1 < 2 ^ 64 -> exists v s', range_inclusive lo hi s = Some (v, s') /\ lo <= v <= hi /\ seeded s') /\
  (forall l : list Z, Z.of_nat (length l) < 2 ^ 64 -> exists l' s', shuffle l s = Some (l', s') /\ l' ≡ₚ l /\ seeded s') /\
  (forall lo hi k, 0 <= lo -> hi < 2 ^ 64 - 1 -> Z.of_nat k <= hi - lo + 1 ->
    exists out s', sample_distinct lo hi k s = Some (out, s') /\
      (length out = k /\ StronglySorted Z.lt out /\ forall v, v ∈ out -> lo <= v <= hi) /\ seeded s').
Proof.
  intros Sd. split_and!.
  - intros n N. by apply draws_below.
  - intros lo hi L B. by apply draws_range.
  - intros l L. by apply draws_shuffle.
  - intros lo hi k L H K. by apply draws_sample.
Qed.

Example draws_end_witness : exists v s', below 10 (stream 7 "tenants") = Some (v, s') /\ 0 <= v < 10 /\ seeded s'.
Proof.
  assert (Sd : seeded (stream 7 "tenants")) by apply mix_range.
  destruct (draws_end (stream 7 "tenants") Sd) as [D _]. exact (D 10 (conj eq_refl eq_refl)).
Defined.

End Rng.
