(* ===== verification/SynthTopology.v ===== *)
(** * Tenant and part graphs (tools/prod-synth/src/topology.rs, [repair], [realize])

    The repair that makes a sequence of tenant degrees add up, and the bipartite
    graph in which every part has the members its degree asks for and every
    tenant the parts its degree asks for: a greedy placement, and swaps of edges
    that keep both margins. Degrees are counts below 2^64 and tenant indexes fit
    the 32 bits they are kept in. *)

From S2P Require Import Prelude Synth.
Import Rng.

Module Topology.

Inductive TopologyError := NotBigraphic (why : string).

(** [sort_by_key(Reverse(key))]. *)
Definition key_le (a b : nat * nat) : Prop := (a.1 < b.1)%nat \/ (a.1 = b.1 /\ (a.2 <= b.2)%nat).
#[export] Instance key_le_dec a b : Decision (key_le a b).
Proof. unfold key_le. apply _. Defined.
Definition desc_by (key : nat -> nat * nat) (a b : nat) : Prop := key_le (key b) (key a).
#[export] Instance desc_by_dec key : RelDecision (desc_by key).
Proof. intros a b. unfold desc_by. apply _. Defined.

(** ** The bit matrix of tenants by parts *)

Section bits.
Context (words : nat).

Definition index (ti pi : nat) : nat := (ti * words + pi / 64)%nat.
Definition has (bits : list Z) (ti pi : nat) : bool := Z.testbit (default 0 (bits !! index ti pi)) (Z.of_nat (pi mod 64)).
Definition set_bit (bits : list Z) (ti pi : nat) : list Z :=
  alter (fun w => Z.lor w (Z.shiftl 1 (Z.of_nat (pi mod 64)))) (index ti pi) bits.
Definition clear_bit (bits : list Z) (ti pi : nat) : list Z :=
  alter (fun w => Z.ldiff w (Z.shiftl 1 (Z.of_nat (pi mod 64)))) (index ti pi) bits.
End bits.

(** ** Repairing the degrees of the tenants *)

(** The most edges [k] tenants can take. *)
Definition rhs (capacities : list nat) (k : nat) : nat := sum_list (List.map (fun c => Nat.min c k) capacities).

(** The first tenant, from the one of the highest degree, at which the degrees sum to
    more than that; the scan stops where no later one can. *)
Fixpoint scan (capacities degrees : list nat) (k running : nat) (order : list nat) : option nat :=
  match order with
  | [] => None
  | i :: order =>
      let running := (running + degrees !!! i)%nat in
      let k := S k in
      let part_count := length capacities in
      if Nat.ltb (rhs capacities k) running then Some i
      else if Nat.ltb part_count k && Nat.leb (running + (length degrees - k) * part_count) (rhs capacities k) then None
      else scan capacities degrees k running order
  end.

Definition tenant_order (tenant_degrees : list nat) : list nat :=
  merge_sort (desc_by (fun i => (tenant_degrees !!! i, i))) (seq 0 (length tenant_degrees)).

Definition Repair : Type := list nat * gset nat.

(** The first loop: it lowers the tenant at which the sums are too large. *)
Fixpoint lower (fuel : nat) (capacities : list nat) (st : Repair) : option (result Repair TopologyError) :=
  match fuel with
  | O => None
  | S fuel =>
      let '(degrees, repaired) := st in
      match scan capacities degrees 0 0 (tenant_order degrees) with
      | None => Some (Ok st)
      | Some i =>
          if Nat.leb (degrees !!! i) 1 then Some (Err (NotBigraphic "even a degree-1 tenant cannot be placed"))
          else lower fuel capacities (alter pred i degrees, {[i]} ∪ repaired)
      end
  end.

Definition desc (a b : nat) : Prop := (b <= a)%nat.
#[export] Instance desc_dec : RelDecision desc.
Proof. intros a b. unfold desc. apply _. Defined.

Fixpoint within (capacities : list nat) (k running : nat) (top : list nat) : bool :=
  match top with
  | [] => true
  | d :: top => Nat.leb (running + d) (rhs capacities (S k)) && within capacities (S k) (running + d) top
  end.

Definition feasible (capacities degrees : list nat) : bool :=
  within capacities 0 0 (take (length capacities * 4) (merge_sort desc degrees)).

(** The second loop: one degree at a time, in the order drawn, until the sum is right
    or no tenant can be changed. *)
Fixpoint balance (fuel : nat) (capacities order : list nat) (target_sum : nat) (current cursor stalled : nat) (st : Repair) :
    option (result Repair TopologyError) :=
  match fuel with
  | O => None
  | S fuel =>
      let '(degrees, repaired) := st in
      if Nat.eqb current target_sum then Some (Ok st)
      else if Nat.ltb (length degrees) stalled
      then Some (Err (NotBigraphic "no feasible single-degree change closes the gap"))
      else
        match order !! (cursor mod length order)%nat with
        | None => None
        | Some i =>
            let raised := alter S i degrees in
            if Nat.ltb current target_sum then
              if Nat.ltb (degrees !!! i) (length capacities) && feasible capacities raised
              then balance fuel capacities order target_sum (S current) (S cursor) 0 (raised, {[i]} ∪ repaired)
              else balance fuel capacities order target_sum current (S cursor) (S stalled) st
            else if Nat.ltb 1 (degrees !!! i)
            then balance fuel capacities order target_sum (pred current) (S cursor) 0 (alter pred i degrees, {[i]} ∪ repaired)
            else balance fuel capacities order target_sum current (S cursor) (S stalled) st
        end
  end.

(** Steps that are enough for both loops ([repair_reaches_the_sum]). *)
Definition turns (n gap stalled : nat) : nat := S (gap * (n + 2) + (n + 2 - stalled)).

(** [None]: no tenant or no part, where [clamp] and the remainder by zero panic. *)
Definition repair (degrees capacities : list nat) (target_sum : nat) (seed : Z) : option (result Repair TopologyError) :=
  match degrees, capacities with
  | [], _ | _, [] => None
  | _, _ =>
      let degrees := List.map (fun d => Nat.max 1 (Nat.min d (length capacities))) degrees in
      match lower (S (sum_list degrees)) capacities (degrees, ∅) with
      | Some (Ok (degrees, repaired)) =>
          '(order, _) ← shuffle (seq 0 (length degrees)) (stream seed "degree-repair");
          let current := sum_list degrees in
          balance (turns (length degrees) ((current - target_sum) + (target_sum - current)) 0) capacities order target_sum current 0 0 (degrees, repaired)
      | r => r
      end
  end.

(** ** Greedy placement *)

Record Greedy := mkGreedy {
  capacity : list nat;
  members : list (list nat);
  bits : list Z;
  slot : list nat;
}.

(** One tenant in one part. *)
Definition assign (words ti : nat) (g : Greedy) (pi : nat) : Greedy :=
  mkGreedy (alter pred pi (capacity g)) (alter (fun m => m ++ [ti]) pi (members g)) (set_bit words (bits g) ti pi) (slot g).

Definition sorted_slot (p : nat) (g : Greedy) : list nat :=
  merge_sort (desc_by (fun pi => (capacity g !!! pi, (p - pi)%nat))) (slot g).

Definition place (p words : nat) (tenant_degrees : list nat) (g : Greedy) (ti : nat) : result Greedy TopologyError :=
  let need := tenant_degrees !!! ti in
  let slot := sorted_slot p g in
  if Nat.ltb p need || List.existsb (fun pi => Nat.eqb (capacity g !!! pi) 0) (take need slot)
  then Err (NotBigraphic "tenant needs more parts than have capacity left")
  else Ok (List.fold_left (assign words ti) (take need slot) (mkGreedy (capacity g) (members g) (bits g) slot)).

Fixpoint place_all (p words : nat) (tenant_degrees : list nat) (order : list nat) (g : Greedy) : result Greedy TopologyError :=
  match order with
  | [] => Ok g
  | ti :: order => let? g := place p words tenant_degrees g ti in place_all p words tenant_degrees order g
  end.

(** ** Swapping edges *)

Definition edges_of (members : list (list nat)) : list (nat * nat) :=
  concat (imap (fun pi m => List.map (fun ti => (ti, pi)) m) members).

(** One attempt, of the edges drawn at [a] and [b]. *)
Definition swap_edges (words : nat) (a b : nat) (st : list (nat * nat) * list Z) : list (nat * nat) * list Z :=
  let '(edges, bits) := st in
  match edges !! a, edges !! b with
  | Some (t1, p1), Some (t2, p2) =>
      if Nat.eqb t1 t2 || Nat.eqb p1 p2 then st
      else if has words bits t1 p2 || has words bits t2 p1 then st
      else
        (<[b := (t2, p1)]> (<[a := (t1, p2)]> edges),
         set_bit words (set_bit words (clear_bit words (clear_bit words bits t1 p1) t2 p2) t1 p2) t2 p1)
  | _, _ => st
  end.

Fixpoint swaps (words attempts : nat) (st : list (nat * nat) * list Z) : Draw (list (nat * nat) * list Z) :=
  match attempts with
  | O => draw_ret st
  | S attempts =>
      draw_bind (below (Z.of_nat (length st.1))) (fun a =>
      draw_bind (below (Z.of_nat (length st.1))) (fun b =>
      swaps words attempts (swap_edges words (Z.to_nat a) (Z.to_nat b) st)))
  end.

(** The members by part, sorted. *)
Definition collect (p : nat) (edges : list (nat * nat)) : list (list nat) :=
  List.map (merge_sort Nat.le) (List.fold_left (fun out e => alter (fun m => m ++ [e.1]) e.2 out) edges (replicate p [])).

(** [None]: a draw that is never accepted, which does not happen. *)
Definition realize (part_degrees tenant_degrees : list nat) (seed : Z) : option (result (list (list nat)) TopologyError) :=
  let p := length part_degrees in
  let t := length tenant_degrees in
  let words := ((p + 63) / 64)%nat in
  match place_all p words tenant_degrees (tenant_order tenant_degrees)
          (mkGreedy part_degrees (replicate p []) (replicate (t * words) 0) (seq 0 p)) with
  | Err e => Some (Err e)
  | Ok g =>
      if List.existsb (fun c => negb (Nat.eqb c 0)) (capacity g)
      then Some (Err (NotBigraphic "part capacities left unfilled: the two margins do not agree"))
      else
        let edges := edges_of (members g) in
        '(st, _) ← swaps words (length edges * 10) (edges, bits g) (stream seed "edge-swap");
        Some (Ok (collect p st.1))
  end.

End Topology.

(** * The margins of a graph that is realized *)

Module TopologySpec.
Import Topology.

(** ** Bits *)

Section bits.
Context (words : nat).

Definition in_grid (t : nat) (bits : list Z) (ti pi : nat) : Prop := (ti < t /\ pi / 64 < words)%nat /\ length bits = (t * words)%nat.

Lemma index_lt t bits ti pi : in_grid t bits ti pi -> (index words ti pi < length bits)%nat.
Proof. intros [[A B] ->]. unfold index. nia. Qed.

Lemma index_inj ti pi tj pj : (pi / 64 < words)%nat -> (pj / 64 < words)%nat ->
  index words ti pi = index words tj pj -> (pi mod 64 = pj mod 64)%nat -> ti = tj /\ pi = pj.
Proof.
  unfold index. intros A B E M. assert (ti = tj) as -> by nia. split; [done|].
  pose proof (Nat.div_mod pi 64 ltac:(done)). pose proof (Nat.div_mod pj 64 ltac:(done)). lia.
Qed.

Lemma bit_at j k : 0 <= j -> 0 <= k -> Z.testbit (Z.shiftl 1 j) k = bool_decide (k = j).
Proof.
  intros J K. rewrite Z.shiftl_1_l, Z.pow2_bits_eqb by done. case_bool_decide as E; [by apply Z.eqb_eq|by apply Z.eqb_neq].
Qed.

Lemma has_alter f v t bits ti pi tj pj : in_grid t bits ti pi -> in_grid t bits tj pj ->
  (forall w k, 0 <= k -> Z.testbit (f w) k = if decide (k = Z.of_nat (pi mod 64)) then v else Z.testbit w k) ->
  has words (alter f (index words ti pi) bits) tj pj = if decide (ti = tj /\ pi = pj) then v else has words bits tj pj.
Proof.
  intros G G' F. unfold has. destruct (decide (index words ti pi = index words tj pj)) as [E|N].
  - rewrite E, list_lookup_alter_eq. pose proof (index_lt _ _ _ _ G') as L. apply lookup_lt_is_Some_2 in L as [w Hw]. rewrite Hw. unfold default. cbn [fmap option_fmap option_map id].
    rewrite F by lia. destruct (decide (Z.of_nat (pj mod 64) = Z.of_nat (pi mod 64))) as [M|M].
    + apply Nat2Z.inj in M. destruct G as [[_ P] _], G' as [[_ P'] _].
      destruct (index_inj ti pi tj pj P P' E (eq_sym M)) as [-> ->]. by rewrite decide_True.
    + rewrite decide_False; [done|]. by intros [-> ->].
  - rewrite list_lookup_alter_ne by done. rewrite decide_False; [done|]. by intros [-> ->].
Qed.

Lemma has_set t bits ti pi tj pj : in_grid t bits ti pi -> in_grid t bits tj pj ->
  has words (set_bit words bits ti pi) tj pj = if decide (ti = tj /\ pi = pj) then true else has words bits tj pj.
Proof.
  intros G G'. apply (has_alter _ _ t); [done..|]. intros w k K. rewrite Z.lor_spec, bit_at by lia.
  case_decide; [by rewrite bool_decide_true, orb_true_r|by rewrite bool_decide_false, orb_false_r].
Qed.

Lemma has_clear t bits ti pi tj pj : in_grid t bits ti pi -> in_grid t bits tj pj ->
  has words (clear_bit words bits ti pi) tj pj = if decide (ti = tj /\ pi = pj) then false else has words bits tj pj.
Proof.
  intros G G'. apply (has_alter _ _ t); [done..|]. intros w k K. rewrite Z.ldiff_spec, bit_at by lia.
  case_decide; [by rewrite bool_decide_true, andb_false_r|by rewrite bool_decide_false, andb_true_r].
Qed.

Lemma set_bit_keeps_length bits ti pi : length (set_bit words bits ti pi) = length bits.
Proof. apply length_alter. Qed.
Lemma clear_bit_keeps_length bits ti pi : length (clear_bit words bits ti pi) = length bits.
Proof. apply length_alter. Qed.
End bits.

(** ** Lists *)

Lemma elem_of_insert_NoDup {A} (l : list A) a x y e : NoDup l -> l !! a = Some y -> x ∉ l ->
  e ∈ <[a := x]> l <-> e = x \/ (e ∈ l /\ e <> y).
Proof.
  intros N Ha X. pose proof (lookup_lt_Some _ _ _ Ha) as L. split.
  - intros [i Hi]%list_elem_of_lookup. destruct (decide (i = a)) as [->|Ne].
    + rewrite list_lookup_insert_eq in Hi by done. injection Hi as <-. by left.
    + rewrite list_lookup_insert_ne in Hi by done. right. split; [by eapply list_elem_of_lookup_2|]. intros ->. apply Ne. by eapply NoDup_lookup.
  - intros [->|[[i Hi]%list_elem_of_lookup Ne]].
    + apply list_elem_of_lookup. exists a. by apply list_lookup_insert_eq.
    + apply list_elem_of_lookup. exists i. rewrite list_lookup_insert_ne; [done|]. intros ->. congruence.
Qed.

Lemma NoDup_insert_fresh {A} (l : list A) a x : NoDup l -> x ∉ l -> NoDup (<[a := x]> l).
Proof.
  intros N X. apply NoDup_alt. intros i j y Hi Hj. apply list_lookup_insert_Some in Hi as [(-> & <- & _)|[Ni Hi]];
    apply list_lookup_insert_Some in Hj as [(-> & E & _)|[Nj Hj]]; try done.
  - destruct X. by eapply list_elem_of_lookup_2.
  - subst y. destruct X. by eapply list_elem_of_lookup_2.
  - by eapply NoDup_lookup.
Qed.

(** ** Swaps keep the margins *)

(** The matrix and the edges are one graph, of [t] tenants and [p] parts. *)
Record graph (words t p : nat) (edges : list (nat * nat)) (bits : list Z) : Prop := {
  gr_distinct : NoDup edges;
  gr_range : forall e, e ∈ edges -> (e.1 < t /\ e.2 < p)%nat;
  gr_length : length bits = (t * words)%nat;
  gr_bits : forall ti pi, (ti < t)%nat -> (pi < p)%nat -> has words bits ti pi = true <-> (ti, pi) ∈ edges;
}.

Lemma swap_keeps words t p a b edges bits edges' bits' : (p <= 64 * words)%nat -> graph words t p edges bits ->
  swap_edges words a b (edges, bits) = (edges', bits') ->
  graph words t p edges' bits' /\ List.map fst edges' = List.map fst edges /\ List.map snd edges' ≡ₚ List.map snd edges.
Proof.
  intros Pw [G1 G2 G3 G4]. unfold swap_edges. destruct (edges !! a) as [[t1 p1]|] eqn:Ha; [|by intros [= <- <-]].
  destruct (edges !! b) as [[t2 p2]|] eqn:Hb; [|by intros [= <- <-]].
  destruct (Nat.eqb_spec t1 t2) as [|Nt]; [by intros [= <- <-]|]. destruct (Nat.eqb_spec p1 p2) as [|Np]; [by intros [= <- <-]|]. cbn [orb].
  destruct (has words bits t1 p2) eqn:B1; [by intros [= <- <-]|]. destruct (has words bits t2 p1) eqn:B2; [by intros [= <- <-]|]. cbn [orb].
  intros [= <- <-]. destruct (G2 (t1, p1)) as [T1 P1]; [by eapply list_elem_of_lookup_2|]. destruct (G2 (t2, p2)) as [T2 P2]; [by eapply list_elem_of_lookup_2|].
  simpl in T1, P1, T2, P2.
  assert (X1 : (t1, p2) ∉ edges) by (intros X; apply G4 in X; [congruence|done..]).
  assert (X2 : (t2, p1) ∉ edges) by (intros X; apply G4 in X; [congruence|done..]).
  assert (Nab : a <> b) by (intros ->; congruence).
  assert (N1 : NoDup (<[a := (t1, p2)]> edges)) by by apply NoDup_insert_fresh.
  assert (Hb' : <[a := (t1, p2)]> edges !! b = Some (t2, p2)) by by rewrite list_lookup_insert_ne.
  assert (X2' : (t2, p1) ∉ <[a := (t1, p2)]> edges) by (rewrite (elem_of_insert_NoDup _ _ _ (t1, p1)) by done; intros [?|[? _]]; simplify_eq; done).
  assert (M : forall e, e ∈ <[b := (t2, p1)]> (<[a := (t1, p2)]> edges) <-> e = (t2, p1) \/ e = (t1, p2) \/ (e ∈ edges /\ e <> (t1, p1) /\ e <> (t2, p2))).
  { intros e. rewrite (elem_of_insert_NoDup _ _ _ (t2, p2)) by done. rewrite (elem_of_insert_NoDup _ _ _ (t1, p1)) by done.
    split; [tauto|]. intros [?|[->|(? & ? & ?)]]; [tauto| |tauto]. right. split; [by left|]. intros ?; simplify_eq. }
  assert (W : forall pi, (pi < p)%nat -> (pi / 64 < words)%nat) by (intros pi Hpi; apply Nat.Div0.div_lt_upper_bound; lia).
  split; [split|split].
  - by apply NoDup_insert_fresh.
  - intros e [-> |[-> |[He _]]]%M; [done|done|by apply G2].
  - by rewrite !set_bit_keeps_length, !clear_bit_keeps_length.
  - intros ti pi Ti Pi. rewrite M.
    rewrite (has_set _ t) by (split; [split; [done|by apply W]|by rewrite ?set_bit_keeps_length, !clear_bit_keeps_length]).
    rewrite (has_set _ t) by (split; [split; [done|by apply W]|by rewrite ?set_bit_keeps_length, !clear_bit_keeps_length]).
    rewrite (has_clear _ t) by (split; [split; [done|by apply W]|by rewrite ?clear_bit_keeps_length]).
    rewrite (has_clear _ t) by (split; [split; [done|by apply W]|by rewrite ?clear_bit_keeps_length]).
    repeat case_decide; rewrite ?G4 by done; naive_solver.
  - rewrite !list_fmap_insert. simpl. rewrite list_insert_id; [rewrite list_insert_id; [done|]|].
    + by rewrite list_lookup_fmap, Ha.
    + rewrite list_insert_id; by rewrite list_lookup_fmap, ?Ha, ?Hb.
  - rewrite !list_fmap_insert. simpl. apply Permutation_insert_swap; by rewrite list_lookup_fmap, ?Ha, ?Hb.
Qed.

(** ** Degrees *)

(** How many of [l] are [x]. *)
Definition count (x : nat) (l : list nat) : nat := length (filter (eq x) l).

Lemma count_app x l k : count x (l ++ k) = (count x l + count x k)%nat.
Proof. unfold count. by rewrite filter_app, length_app. Qed.

#[export] Instance count_perm x : Proper ((≡ₚ) ==> (=)) (count x).
Proof. intros l k P. unfold count. by rewrite P. Qed.

Lemma count_cons x y l : count x (y :: l) = ((if decide (x = y) then 1 else 0) + count x l)%nat.
Proof. unfold count. rewrite filter_cons. by case_decide. Qed.

Lemma count_0 x l : x ∉ l -> count x l = 0%nat.
Proof.
  induction l as [|y l IH]; [done|]. rewrite not_elem_of_cons, count_cons. intros [N M]. by rewrite decide_False, IH.
Qed.

Lemma swaps_keep words t p : (p <= 64 * words)%nat -> forall k edges bits, Z.of_nat (length edges) < 2 ^ 64 -> (k <> 0 -> edges <> [])%nat ->
  graph words t p edges bits ->
  draws (swaps words k (edges, bits)) (fun st => graph words t p st.1 st.2 /\
    List.map fst st.1 = List.map fst edges /\ List.map snd st.1 ≡ₚ List.map snd edges).
Proof.
  intros Pw. induction k as [|k IH]; intros edges bits L N G; cbn [swaps]; [by apply draws_ret|].
  assert (0 < length edges)%nat by (destruct edges; [by destruct N|simpl; lia]). cbn [fst].
  eapply draws_bind; [apply draws_below; lia|]. intros a _. eapply draws_bind; [apply draws_below; lia|]. intros b _.
  destruct (swap_edges words (Z.to_nat a) (Z.to_nat b) (edges, bits)) as [edges' bits'] eqn:E.
  apply (swap_keeps words t p) in E as (G' & E1 & E2); [|done..].
  assert (EL : length edges' = length edges) by (by rewrite <-(length_map fst edges'), E1, length_map).
  intros s Sd. destruct (IH edges' bits') with (s := s) as (st & s' & R & (P1 & P2 & P3) & S'); [by rewrite EL| |done|done|].
  - intros _ ->. simpl in EL. lia.
  - exists st, s'. split; [done|]. split; [|done]. rewrite P2, E1, P3, E2. done.
Qed.

(** ** The lists of members *)

Lemma edges_of_alter pi ti members : (pi < length members)%nat ->
  edges_of (alter (fun m => m ++ [ti]) pi members) ≡ₚ edges_of members ++ [(ti, pi)].
Proof.
  unfold edges_of. intros L. apply lookup_lt_is_Some_2 in L as [m Hm].
  assert (Lt : length (take pi members) = pi) by (apply length_take_le; apply lookup_lt_Some in Hm; lia).
  rewrite <-(take_drop_middle members pi m Hm). revert Lt. generalize (take pi members), (drop (S pi) members). intros l1 l2 Lt.
  rewrite alter_app_r_alt by lia. rewrite Lt, Nat.sub_diag. cbn [alter list_alter].
  rewrite !imap_app. cbn [imap]. rewrite !concat_app. cbn [concat]. rewrite Lt, Nat.add_0_r, map_app. simpl.
  rewrite <-!app_assoc. do 2 f_equiv. apply Permutation_app_comm.
Qed.

Lemma count_const x y (m : list nat) : count x (List.map (fun _ => y) m) = if decide (x = y) then length m else 0%nat.
Proof. induction m as [|z m IH]; [by case_decide|]. simpl. rewrite count_cons, IH. by case_decide. Qed.

Lemma edges_of_snd pi members : count pi (List.map snd (edges_of members)) = length (members !!! pi).
Proof.
  assert (G : forall (members : list (list nat)) (k pi : nat),
    count pi (List.map snd (concat (imap (fun i m => List.map (fun ti => (ti, (k + i)%nat)) m) members))) =
    if decide (k <= pi)%nat then length (members !!! (pi - k)%nat : list nat) else 0%nat).
  { clear. intros ms. induction ms as [|m ms IH]; intros k pi; [by case_decide|]. cbn [imap concat].
    rewrite map_app, count_app, map_map. cbn [snd]. rewrite count_const, Nat.add_0_r.
    rewrite (imap_ext _ (fun i m => List.map (fun ti => (ti, (S k + i)%nat)) m)) by (intros i x _; simpl; by rewrite Nat.add_succ_r).
    rewrite IH. repeat case_decide; try lia.
    - subst. by rewrite Nat.sub_diag, Nat.add_0_r.
    - by replace (pi - k)%nat with (S (pi - S k)) by lia. }
  pose proof (G members 0%nat pi) as E. rewrite Nat.sub_0_r in E. exact E.
Qed.

(** ** The greedy placement *)

(** What has been placed: the capacity that is left makes up the degree of a part,
    and tenant [ti] is in [placed ti] parts. *)
Record greedy (words t : nat) (part_degrees : list nat) (placed : nat -> nat) (g : Greedy) : Prop := {
  gd_capacity : length (capacity g) = length part_degrees;
  gd_members : length (members g) = length part_degrees;
  gd_slot : slot g ≡ₚ seq 0 (length part_degrees);
  gd_graph : graph words t (length part_degrees) (edges_of (members g)) (bits g);
  gd_parts : forall pi, (capacity g !!! pi + length (members g !!! pi) = part_degrees !!! pi)%nat;
  gd_tenants : forall ti, count ti (List.map fst (edges_of (members g))) = placed ti;
}.

Lemma graph_add words t p edges bits ti pi edges' : (p <= 64 * words)%nat -> graph words t p edges bits -> (ti < t)%nat -> (pi < p)%nat ->
  (ti, pi) ∉ edges -> edges' ≡ₚ edges ++ [(ti, pi)] -> graph words t p edges' (set_bit words bits ti pi).
Proof.
  intros Pw [G1 G2 G3 G4] Ti Pi X P.
  assert (W : forall pi, (pi < p)%nat -> (pi / 64 < words)%nat) by (intros q Hq; apply Nat.Div0.div_lt_upper_bound; lia).
  split.
  - rewrite P. apply NoDup_app. split_and!; [done| |apply NoDup_singleton]. by intros e He ->%list_elem_of_singleton.
  - intros e. rewrite P, elem_of_app, list_elem_of_singleton. intros [He| ->]; [by apply G2|done].
  - by rewrite set_bit_keeps_length.
  - intros tj pj Tj Pj. rewrite (has_set _ t) by (split; [split; [done|by apply W]|done]).
    rewrite P, elem_of_app, list_elem_of_singleton. case_decide as D; [destruct D as [-> ->]; tauto|]. rewrite G4 by done. naive_solver.
Qed.

Definition one_more (ti : nat) (k : nat) (placed : nat -> nat) (x : nat) : nat := if decide (x = ti) then (placed x + k)%nat else placed x.

Lemma total_alter {A} `{Inhabited A} (f : A -> A) i j (l : list A) : (i < length l)%nat ->
  alter f i l !!! j = if decide (i = j) then f (l !!! j) else l !!! j.
Proof.
  intros L. rewrite !list_lookup_total_alt. case_decide as E.
  - subst j. rewrite list_lookup_alter_eq. apply lookup_lt_is_Some_2 in L as [x ->]. done.
  - by rewrite list_lookup_alter_ne.
Qed.

Section greedy.
Context (words t : nat) (part_degrees : list nat).
Context (Hwords : (length part_degrees <= 64 * words)%nat).

Lemma assign_step ti placed g pi : greedy words t part_degrees placed g -> (ti < t)%nat -> (pi < length part_degrees)%nat ->
  (0 < capacity g !!! pi)%nat -> (ti, pi) ∉ edges_of (members g) ->
  greedy words t part_degrees (one_more ti 1 placed) (assign words ti g pi).
Proof.
  intros [C M S G P T] Ti Pi Cap X.
  pose proof (edges_of_alter pi ti (members g) ltac:(lia)) as E. split; simpl; [by rewrite length_alter..|done| | |].
  - by eapply graph_add.
  - intros q. specialize (P q). rewrite !total_alter by lia. case_decide as D; [subst q|done]. rewrite length_app. simpl. lia.
  - intros x. rewrite E, map_app, count_app, T. simpl. rewrite count_cons. unfold one_more, count. simpl. repeat case_decide; try done; lia.
Qed.

Lemma assign_steps ti pis : forall placed g, greedy words t part_degrees placed g -> (ti < t)%nat -> NoDup pis ->
  (forall pi, pi ∈ pis -> (pi < length part_degrees)%nat /\ (0 < capacity g !!! pi)%nat /\ (ti, pi) ∉ edges_of (members g)) ->
  greedy words t part_degrees (one_more ti (length pis) placed) (List.fold_left (assign words ti) pis g).
Proof.
  induction pis as [|pi pis IH]; intros placed g G Ti N P; simpl.
  - destruct G. split; try done. intros x. unfold one_more. rewrite Nat.add_0_r. by case_decide.
  - apply NoDup_cons in N as [N1 N2]. destruct (P pi) as (P1 & P2 & P3); [left|].
    pose proof (assign_step ti placed g pi G Ti P1 P2 P3) as G'.
    destruct (IH _ _ G' Ti N2) as [C M S Gr Pa T].
    + intros q Hq. destruct (P q) as (Q1 & Q2 & Q3); [by right|]. split; [done|]. assert (q <> pi) by (intros ->; done). simpl.
      rewrite total_alter by (rewrite (gd_capacity _ _ _ _ _ G); lia). rewrite decide_False by done. split; [done|].
      rewrite edges_of_alter by (rewrite (gd_members _ _ _ _ _ G); lia).
      rewrite elem_of_app, list_elem_of_singleton. intros [?|?]; [done|]. simplify_eq.
    + split; try done. intros x. rewrite T. unfold one_more. case_decide; lia.
Qed.

Lemma place_step tenant_degrees placed g ti g' : greedy words t part_degrees placed g -> (ti < t)%nat -> placed ti = 0%nat ->
  place (length part_degrees) words tenant_degrees g ti = Ok g' ->
  greedy words t part_degrees (one_more ti (tenant_degrees !!! ti) placed) g'.
Proof.
  intros G Ti Z0. unfold place. destruct (Nat.ltb_spec (length part_degrees) (tenant_degrees !!! ti)) as [|L]; [done|]. cbn [orb].
  destruct (List.existsb _ _) eqn:E; [done|]. intros [= <-]. set (sl := sorted_slot _ g) in *.
  assert (Sl : sl ≡ₚ seq 0 (length part_degrees)) by (unfold sl, sorted_slot; rewrite merge_sort_Permutation; apply G).
  assert (G0 : greedy words t part_degrees placed (mkGreedy (capacity g) (members g) (bits g) sl)) by (destruct G; by split).
  assert (NS : NoDup sl) by (rewrite Sl; apply NoDup_seq).
  replace (tenant_degrees !!! ti) with (length (take (tenant_degrees !!! ti) sl)) at 1.
  2: { apply length_take_le. rewrite Sl, length_seq. done. }
  apply assign_steps; [done..| |].
  - eapply sublist_NoDup; [apply NS|]. apply sublist_take.
  - intros pi Hpi. assert (Hs : pi ∈ sl) by (eapply elem_of_take in Hpi as (i & Hi & _); by eapply list_elem_of_lookup_2).
    rewrite Sl, elem_of_seq in Hs. simpl. split_and!; [lia| |].
    + destruct (capacity g !!! pi) eqn:Cp; [|lia]. exfalso. revert E. apply not_false_iff_true. apply existsb_exists.
      exists pi. split; [by apply list_elem_of_In|]. by rewrite Cp.
    + intros X. pose proof (gd_tenants _ _ _ _ _ G ti) as T. rewrite Z0 in T. unfold count in T.
      apply length_zero_iff_nil in T. assert (ti ∈ filter (eq ti) (List.map fst (edges_of (members g)))) as Y; [|rewrite T in Y; by apply elem_of_nil in Y].
      apply list_elem_of_filter. split; [done|]. apply list_elem_of_fmap. by exists (ti, pi).
Qed.

Lemma place_all_step tenant_degrees order : forall placed g g', greedy words t part_degrees placed g -> NoDup order ->
  (forall ti, ti ∈ order -> (ti < t)%nat /\ placed ti = 0%nat) ->
  place_all (length part_degrees) words tenant_degrees order g = Ok g' ->
  greedy words t part_degrees (fun ti => if decide (ti ∈ order) then tenant_degrees !!! ti else placed ti) g'.
Proof.
  induction order as [|ti order IH]; intros placed g g' G N P; cbn [place_all].
  - intros [= <-]. destruct G. by split.
  - apply NoDup_cons in N as [N1 N2]. destruct (P ti) as [Ti Z0]; [left|]. destruct (place _ _ _ _ _) as [g1|] eqn:E; [|done]. cbn [rbind].
    intros R. apply (place_step _ placed) in E; [|done..]. eapply IH in R as [C M S Gr Pa T]; [|exact E|done|].
    + split; try done. intros x. rewrite T. unfold one_more. destruct (decide (x = ti)) as [->|D].
      * rewrite decide_False, decide_True by (done || left). lia.
      * destruct (decide (x ∈ order)); [by rewrite decide_True by by right|]. rewrite decide_False; [done|].
        by intros [?|?]%elem_of_cons.
    + intros x Hx. destruct (P x) as [P1 P2]; [by right|]. split; [done|]. unfold one_more. rewrite decide_False; [done|]. by intros ->.
Qed.

Lemma greedy_start : greedy words t part_degrees (fun _ => 0%nat)
  (mkGreedy part_degrees (replicate (length part_degrees) []) (replicate (t * words) 0) (seq 0 (length part_degrees))).
Proof.
  assert (E : edges_of (replicate (length part_degrees) []) = []).
  { unfold edges_of. generalize (length part_degrees). intros k.
    assert (F : forall (f : nat -> list nat -> list (nat * nat)), (forall i, f i [] = []) -> concat (imap f (replicate k [])) = []); [|by apply F].
    induction k as [|k IH]; intros f F; [done|]. simpl. rewrite F. apply IH. intros i. apply F. }
  split; simpl; rewrite ?E; try done.
  - by rewrite length_replicate.
  - split; [constructor|by intros e He%elem_of_nil|by rewrite length_replicate|].
    intros ti pi Ti Pi. split; [|by intros He%elem_of_nil]. unfold has.
    destruct (replicate (t * words) 0 !! index words ti pi) as [w|] eqn:W; simpl; [|by rewrite Z.bits_0].
    apply lookup_replicate in W as [-> _]. by rewrite Z.bits_0.
  - intros pi. rewrite (list_lookup_total_alt (replicate _ _)). destruct (replicate (length part_degrees) (@nil nat) !! pi) as [m|] eqn:W;
      [apply lookup_replicate in W as [-> _]|]; simpl; lia.
Qed.

End greedy.

(** ** The members that come out *)

Definition collected (out : list (list nat)) (edges : list (nat * nat)) : list (list nat) :=
  List.fold_left (fun out e => alter (fun m => m ++ [e.1]) e.2 out) edges out.

Lemma collected_length edges : forall out, length (collected out edges) = length out.
Proof. induction edges as [|e edges IH]; intros out; [done|]. simpl. rewrite IH. apply length_alter. Qed.

Lemma collected_at edges : forall out pi, (forall e, e ∈ edges -> (e.2 < length out)%nat) -> (pi < length out)%nat ->
  collected out edges !!! pi = out !!! pi ++ List.map fst (filter (fun e => pi = e.2) edges).
Proof.
  induction edges as [|e edges IH]; intros out pi R L; [by rewrite app_nil_r|]. simpl.
  rewrite IH; [|intros e' He'; rewrite length_alter; apply R; by right|by rewrite length_alter].
  rewrite (total_alter _ e.2 pi out) by (apply R; left).
  rewrite filter_cons. destruct (decide (e.2 = pi)) as [<-|D].
  - rewrite decide_True by done. by rewrite <-app_assoc.
  - by rewrite decide_False.
Qed.

Lemma filter_snd_length pi edges : length (filter (fun e : nat * nat => pi = e.2) edges) = count pi (List.map snd edges).
Proof. induction edges as [|e edges IH]; [done|]. simpl. rewrite filter_cons, count_cons. by case_decide; simpl; rewrite IH. Qed.

Lemma concat_alter_app pi (x : nat) (out : list (list nat)) : (pi < length out)%nat -> concat (alter (fun m => m ++ [x]) pi out) ≡ₚ concat out ++ [x].
Proof.
  revert pi. induction out as [|m out IH]; intros pi L; [simpl in L; lia|]. destruct pi as [|pi].
  - simpl. rewrite <-!app_assoc. f_equiv. apply Permutation_app_comm.
  - change (m ++ concat (alter (fun m => m ++ [x]) pi out) ≡ₚ (m ++ concat out) ++ [x]). simpl in L. by rewrite IH, app_assoc by lia.
Qed.

Lemma concat_collected edges : forall out, (forall e, e ∈ edges -> (e.2 < length out)%nat) ->
  concat (collected out edges) ≡ₚ concat out ++ List.map fst edges.
Proof.
  induction edges as [|e edges IH]; intros out R; [by rewrite app_nil_r|]. simpl.
  rewrite IH by (intros e' He'; rewrite length_alter; apply R; by right). rewrite concat_alter_app by (apply R; left).
  by rewrite <-app_assoc.
Qed.

Lemma concat_sorted (out : list (list nat)) : concat (List.map (merge_sort Nat.le) out) ≡ₚ concat out.
Proof. induction out as [|m out IH]; [done|]. simpl. by rewrite IH, merge_sort_Permutation. Qed.

Lemma count_NoDup x m : NoDup m -> count x m = if decide (x ∈ m) then 1%nat else 0%nat.
Proof.
  intros N. induction N as [|y m X N IH]; [done|]. rewrite count_cons, IH. destruct (decide (x = y)) as [->|D].
  - rewrite decide_False by done. rewrite decide_True by left. done.
  - destruct (decide (x ∈ m)); [by rewrite decide_True by by right|]. rewrite decide_False; [done|]. by intros [?|?]%elem_of_cons.
Qed.

(** The lists a tenant is in, when it is at most once in each. *)
Lemma lists_with ti (out : list (list nat)) : Forall NoDup out -> length (filter (fun m => ti ∈ m) out) = count ti (concat out).
Proof.
  intros F. induction F as [|m out N F IH]; [done|]. simpl. rewrite filter_cons, count_app, count_NoDup by done. case_decide; simpl; by rewrite IH.
Qed.

Lemma strictly_sorted_nat l : NoDup l -> StronglySorted Nat.lt (merge_sort Nat.le l).
Proof.
  intros N. assert (N' : NoDup (merge_sort Nat.le l)) by (by rewrite merge_sort_Permutation).
  pose proof (StronglySorted_merge_sort Nat.le l) as S. induction S as [|x m _ IH F]; [constructor|].
  apply NoDup_cons in N' as [X N']. constructor; [by apply IH|]. rewrite Forall_forall in *. intros y Hy. specialize (F y Hy).
  assert (x <> y) by (intros ->; done). unfold Nat.lt. lia.
Qed.

(** What [realize] is asked for. *)
Record margins (part_degrees tenant_degrees : list nat) (out : list (list nat)) : Prop := {
  mg_parts : length out = length part_degrees;
  mg_members : forall pi d, part_degrees !! pi = Some d -> exists m, out !! pi = Some m /\ length m = d /\ StronglySorted Nat.lt m /\
    forall ti, ti ∈ m -> (ti < length tenant_degrees)%nat;
  mg_tenants : forall ti d, tenant_degrees !! ti = Some d -> length (filter (fun m => ti ∈ m) out) = d;
}.

Lemma collect_margins words part_degrees tenant_degrees edges bits :
  graph words (length tenant_degrees) (length part_degrees) edges bits ->
  (forall pi d, part_degrees !! pi = Some d -> count pi (List.map snd edges) = d) ->
  (forall ti d, tenant_degrees !! ti = Some d -> count ti (List.map fst edges) = d) ->
  margins part_degrees tenant_degrees (collect (length part_degrees) edges).
Proof.
  intros [N R _ _] P T. unfold collect. change (List.fold_left _ edges ?o) with (collected o edges).
  set (p := length part_degrees) in *. set (cs := collected (replicate p []) edges).
  assert (L : length cs = p) by (unfold cs; by rewrite collected_length, length_replicate).
  assert (At : forall pi, (pi < p)%nat -> cs !! pi = Some (List.map fst (filter (fun e => pi = e.2) edges))).
  { intros pi Hpi. rewrite (list_lookup_lookup_total_lt cs) by lia. f_equal. unfold cs. rewrite collected_at; [|intros e He; rewrite length_replicate; by apply R|by rewrite length_replicate].
    by rewrite lookup_total_replicate_2. }
  assert (ND : forall pi, NoDup (List.map fst (filter (fun e : nat * nat => pi = e.2) edges))).
  { intros pi. apply NoDup_fmap_2_strong; [|by apply NoDup_filter]. intros [x1 x2] [y1 y2] [E1 _]%list_elem_of_filter [E2 _]%list_elem_of_filter. simpl in *. congruence. }
  split.
  - by rewrite length_map.
  - intros pi d Hd. pose proof (lookup_lt_Some _ _ _ Hd) as Hpi. exists (merge_sort Nat.le (List.map fst (filter (fun e => pi = e.2) edges))).
    split_and!.
    + change (List.map ?f cs) with (f <$> cs). rewrite list_lookup_fmap, At by done. done.
    + rewrite merge_sort_Permutation, length_map, filter_snd_length. by apply P.
    + apply strictly_sorted_nat, ND.
    + intros ti. rewrite merge_sort_Permutation. intros ([t1 p1] & -> & [_ He]%list_elem_of_filter)%list_elem_of_fmap. by apply R in He as [? _].
  - intros ti d Hd. rewrite lists_with.
    + rewrite concat_sorted. unfold cs. rewrite concat_collected by (intros e He; rewrite length_replicate; by apply R).
      rewrite count_app, (T ti d Hd). replace (concat (replicate p [])) with (@nil nat); [done|]. clear. induction p as [|p IH]; [done|]. exact IH.
    + apply Forall_forall. intros m (m' & -> & Hm)%list_elem_of_fmap. rewrite merge_sort_Permutation.
      apply list_elem_of_lookup in Hm as [pi Hpi]. pose proof (lookup_lt_Some _ _ _ Hpi) as Lt. rewrite At in Hpi by lia. injection Hpi as <-. apply ND.
Qed.

Lemma edges_of_length members : length (edges_of members) = sum_list (List.map length members).
Proof.
  unfold edges_of. assert (G : forall members (k : nat), length (concat (imap (fun i m => List.map (fun ti : nat => (ti, (k + i)%nat)) m) members)) = sum_list (List.map length members));
    [|apply (G members 0%nat)].
  clear. intros ms. induction ms as [|m ms IH]; intros k; [done|]. cbn [imap concat]. rewrite length_app, length_map. simpl. f_equal.
  rewrite <-(IH (S k)). f_equal. f_equal. apply imap_ext. intros i x _. simpl. by rewrite Nat.add_succ_r.
Qed.

Lemma greedy_filled words t part_degrees placed g : greedy words t part_degrees placed g ->
  List.existsb (fun c => negb (Nat.eqb c 0)) (capacity g) = false ->
  (forall pi, length (members g !!! pi) = part_degrees !!! pi) /\ List.map length (members g) = part_degrees.
Proof.
  intros [C M _ _ P _] E. assert (Z0 : forall pi, capacity g !!! pi = 0%nat).
  { intros pi. rewrite list_lookup_total_alt. destruct (capacity g !! pi) as [c|] eqn:Hc; [|done]. simpl.
    destruct (Nat.eqb_spec c 0) as [|N]; [done|]. exfalso. revert E. apply not_false_iff_true, existsb_exists. exists c.
    split; [apply list_elem_of_In; by eapply list_elem_of_lookup_2|]. by apply negb_true_iff, Nat.eqb_neq. }
  assert (Q : forall pi, length (members g !!! pi) = part_degrees !!! pi) by (intros pi; specialize (P pi); rewrite Z0 in P; lia).
  split; [exact Q|]. change (List.map length (members g)) with (length <$> members g). apply list_eq. intros i. rewrite list_lookup_fmap.
  destruct (decide (i < length part_degrees)%nat) as [L|L].
  - rewrite !list_lookup_lookup_total_lt by lia. simpl. f_equal. apply Q.
  - rewrite !lookup_ge_None_2 by lia. done.
Qed.

Lemma order_perm tenant_degrees : tenant_order tenant_degrees ≡ₚ seq 0 (length tenant_degrees).
Proof. apply merge_sort_Permutation. Qed.

(** C37: whatever the seed, the generator ends; and a graph that it returns is the one
    asked for: every part has exactly as many members as its degree, each once, in
    order, and every tenant is in exactly as many parts as its own degree. The
    swaps that wash out the greedy order change neither. *)
Theorem realize_margins part_degrees tenant_degrees seed : Z.of_nat (sum_list part_degrees) < 2 ^ 60 ->
  exists r, realize part_degrees tenant_degrees seed = Some r /\
    match r with Ok out => margins part_degrees tenant_degrees out | Err _ => True end.
Proof.
  intros B. unfold realize. set (p := length part_degrees). set (t := length tenant_degrees). set (words := ((p + 63) / 64)%nat).
  assert (W : (p <= 64 * words)%nat) by (unfold words; pose proof (Nat.div_mod (p + 63) 64 ltac:(done)); pose proof (Nat.mod_upper_bound (p + 63) 64 ltac:(done)); lia).
  pose proof (greedy_start words t part_degrees W) as G0. fold p in G0.
  destruct (place_all _ _ _ _ _) as [g|e] eqn:E; [|by exists (Err e)].
  apply (place_all_step words t part_degrees W _ _ (fun _ => 0%nat)) in E as G; [|exact G0|rewrite order_perm; apply NoDup_seq|].
  2: { intros ti. rewrite order_perm, elem_of_seq. lia. }
  destruct (List.existsb _ _) eqn:F; [by eexists|]. apply (greedy_filled _ _ _ _ _ G) in F as [Q L].
  destruct (swaps_keep words t p W (length (edges_of (members g)) * 10) (edges_of (members g)) (bits g)) with (s := stream seed "edge-swap") as ([edges bs] & s' & R & (P1 & P2 & P3) & _).
  - rewrite edges_of_length, L. lia.
  - intros N0 E0. apply N0. by rewrite E0.
  - apply G.
  - apply mix_range.
  - rewrite R. simpl. eexists. split; [done|]. cbn [fst snd] in P1, P2, P3. eapply collect_margins; [exact P1| |].
    + intros pi d Hd. rewrite P3, edges_of_snd, Q. by apply list_lookup_total_correct.
    + intros ti d Hd. rewrite P2, (gd_tenants _ _ _ _ _ G). rewrite decide_True; [by apply list_lookup_total_correct|].
      rewrite order_perm, elem_of_seq. apply lookup_lt_Some in Hd. lia.
Qed.

(** ** Repaired degrees *)

Definition within_parts (p : nat) (degrees : list nat) : Prop := forall i, (i < length degrees)%nat -> (1 <= degrees !!! i <= p)%nat.

(** [st'] is [st] with the degrees it names changed, all of them still between one
    part and all of them. *)
Record repairs (p : nat) (st st' : Repair) : Prop := {
  rp_length : length st'.1 = length st.1;
  rp_bounds : within_parts p st.1 -> within_parts p st'.1;
  rp_grows : st.2 ⊆ st'.2;
  rp_named : forall i, i ∉ st'.2 -> st'.1 !!! i = st.1 !!! i;
}.

#[export] Instance repairs_preorder p : PreOrder (repairs p).
Proof.
  split.
  - by intros st.
  - intros x y z [L1 B1 G1 N1] [L2 B2 G2 N2]. split; [congruence|auto|set_solver|]. intros i Hi. rewrite N2 by done. apply N1. set_solver.
Qed.

Lemma repairs_at p f i degrees repaired : (i < length degrees)%nat -> (1 <= f (degrees !!! i) <= p)%nat ->
  repairs p (degrees, repaired) (alter f i degrees, {[i]} ∪ repaired).
Proof.
  intros L B. split; simpl.
  - apply length_alter.
  - intros W j. rewrite length_alter. intros Hj. rewrite total_alter by done. case_decide; [subst; done|by apply W].
  - set_solver.
  - intros j Hj. rewrite total_alter by done. rewrite decide_False; [done|]. intros ->. apply Hj. set_solver.
Qed.

Lemma sum_alter f i (l : list nat) : (i < length l)%nat -> (sum_list (alter f i l) + l !!! i = sum_list l + f (l !!! i))%nat.
Proof.
  revert i. induction l as [|x l IH]; intros i L; [simpl in L; lia|]. destruct i as [|i]; simpl in *; [lia|].
  specialize (IH i ltac:(lia)). change (list_alter f i l) with (alter f i l) in *. lia.
Qed.

Lemma scan_in capacities degrees order : forall k running i, scan capacities degrees k running order = Some i -> i ∈ order.
Proof.
  induction order as [|j order IH]; intros k running i; [done|]. simpl. destruct (Nat.ltb _ _); [intros [= ->]; left|].
  destruct (Nat.ltb _ _ && _); [done|]. intros E%IH. by right.
Qed.

Lemma lower_ends capacities fuel : forall st, (sum_list st.1 < fuel)%nat -> within_parts (length capacities) st.1 ->
  exists r, lower fuel capacities st = Some r /\
    match r with
    | Ok st' => repairs (length capacities) st st' /\ scan capacities st'.1 0 0 (tenant_order st'.1) = None
    | Err _ => True
    end.
Proof.
  induction fuel as [|fuel IH]; intros [degrees repaired] F W; [lia|]. simpl in F, W. cbn [lower].
  destruct (scan _ _ _ _ _) as [i|] eqn:E; [|by eexists]. apply scan_in in E. rewrite order_perm, elem_of_seq in E.
  destruct (Nat.leb_spec (degrees !!! i) 1) as [|L]; [by eexists|]. specialize (W i ltac:(lia)) as Wi.
  pose proof (repairs_at (length capacities) pred i degrees repaired ltac:(lia) ltac:(lia)) as R.
  pose proof (sum_alter pred i degrees ltac:(lia)) as Sm.
  destruct (IH (alter pred i degrees, {[i]} ∪ repaired)) as (r & -> & P); [simpl; lia|by apply R|].
  exists r. split; [done|]. destruct r as [st'|]; [|done]. destruct P as [P Sc]. split; [by transitivity (alter pred i degrees, {[i]} ∪ repaired)|done].
Qed.

Definition gap (current target_sum : nat) : nat := ((current - target_sum) + (target_sum - current))%nat.

Lemma balance_ends capacities order target_sum : order <> [] -> forall fuel current cursor stalled st,
  order ≡ₚ seq 0 (length st.1) -> current = sum_list st.1 -> (stalled <= length st.1 + 1)%nat -> within_parts (length capacities) st.1 ->
  (turns (length st.1) (gap current target_sum) stalled <= fuel)%nat ->
  exists r, balance fuel capacities order target_sum current cursor stalled st = Some r /\
    match r with Ok st' => repairs (length capacities) st st' /\ sum_list st'.1 = target_sum | Err _ => True end.
Proof.
  intros NE. induction fuel as [|fuel IH]; intros current cursor stalled [degrees repaired] O C St W F; [unfold turns in F; lia|].
  simpl in O, C, St, W, F. cbn [balance]. destruct (Nat.eqb_spec current target_sum) as [->|N]; [by exists (Ok (degrees, repaired))|].
  destruct (Nat.ltb_spec (length degrees) stalled) as [|NS]; [by eexists|].
  assert (Lo : length order <> 0%nat) by (by destruct order).
  destruct (lookup_lt_is_Some_2 order (cursor mod length order)) as [i Hi]; [by apply Nat.mod_upper_bound|]. rewrite Hi.
  assert (Li : (i < length degrees)%nat) by (apply list_elem_of_lookup_2 in Hi; rewrite O, elem_of_seq in Hi; lia).
  assert (Skip : exists r, balance fuel capacities order target_sum current (Datatypes.S cursor) (Datatypes.S stalled) (degrees, repaired) = Some r /\
    match r with Ok st' => repairs (length capacities) (degrees, repaired) st' /\ sum_list st'.1 = target_sum | Err _ => True end).
  { apply IH; simpl; [done..|lia|done|]. unfold turns in *. lia. }
  assert (Change : forall f current', (1 <= f (degrees !!! i) <= length capacities)%nat -> (current' + degrees !!! i = current + f (degrees !!! i))%nat ->
    (S (gap current' target_sum) = gap current target_sum)%nat ->
    exists r, balance fuel capacities order target_sum current' (Datatypes.S cursor) 0 (alter f i degrees, {[i]} ∪ repaired) = Some r /\
    match r with Ok st' => repairs (length capacities) (degrees, repaired) st' /\ sum_list st'.1 = target_sum | Err _ => True end).
  { intros f current' B E G. pose proof (repairs_at (length capacities) f i degrees repaired Li B) as R. pose proof (sum_alter f i degrees Li) as Sm.
    destruct (IH current' (Datatypes.S cursor) 0%nat (alter f i degrees, {[i]} ∪ repaired)) as (r & -> & P); simpl.
    - by rewrite length_alter.
    - lia.
    - lia.
    - by apply R.
    - rewrite length_alter. rewrite <-G in F. unfold turns in *. nia.
    - exists r. split; [done|]. destruct r as [st'|]; [|done]. destruct P as [P ?]. split; [by etransitivity|done]. }
  specialize (W i Li) as Wi. unfold gap in *. destruct (Nat.ltb_spec current target_sum) as [L|L].
  - destruct (Nat.ltb_spec (degrees !!! i) (length capacities)) as [Lc|]; [|exact Skip]. cbn [andb].
    destruct (feasible _ _); [|exact Skip]. apply Change; lia.
  - destruct (Nat.ltb_spec 1 (degrees !!! i)) as [Lc|]; [|exact Skip]. apply Change; lia.
Qed.

(** repairing the degrees ends, and what it returns sums to the margin asked for,
    every tenant in one part at least and in no more than there are; a tenant it
    does not report has the degree it was sampled with. *)
Theorem repair_reaches_the_sum degrees capacities target_sum seed : degrees <> [] -> capacities <> [] -> Z.of_nat (length degrees) < 2 ^ 64 ->
  exists r, repair degrees capacities target_sum seed = Some r /\
    match r with
    | Ok (degrees', repaired) =>
        length degrees' = length degrees /\ sum_list degrees' = target_sum /\
        forall i, (i < length degrees)%nat -> (1 <= degrees' !!! i <= length capacities)%nat /\
          (i ∉ repaired -> degrees' !!! i = Nat.max 1 (Nat.min (degrees !!! i) (length capacities)))
    | Err _ => True
    end.
Proof.
  intros D C L. unfold repair. destruct degrees as [|d0 ds]; [done|]. destruct capacities as [|c0 cs]; [done|]. clear D C.
  set (degrees := d0 :: ds) in *. set (capacities := c0 :: cs) in *. set (clamp := fun d => Nat.max 1 (Nat.min d (length capacities))).
  assert (At : forall i, (i < length degrees)%nat -> List.map clamp degrees !!! i = clamp (degrees !!! i)).
  { intros i Hi. change (List.map clamp degrees) with (clamp <$> degrees). rewrite !list_lookup_total_alt, list_lookup_fmap. apply lookup_lt_is_Some_2 in Hi as [d ->]. done. }
  assert (W : within_parts (length capacities) (List.map clamp degrees)).
  { intros i. rewrite length_map. intros Hi. rewrite At by done. unfold clamp, capacities. simpl. lia. }
  destruct (lower_ends capacities (S (sum_list (List.map clamp degrees))) (List.map clamp degrees, ∅)) as (r1 & -> & P1); [simpl; lia|done|].
  destruct r1 as [[degrees1 repaired1]|e]; [|by eexists]. destruct P1 as [[L1 B1 _ N1] _]. simpl in L1, B1, N1. rewrite length_map in L1.
  destruct (draws_shuffle (seq 0 (length degrees1)) ltac:(rewrite length_seq, L1; done) (stream seed "degree-repair")) as (order & s' & -> & O & _); [apply mix_range|].
  cbn [mbind option_bind]. cbv zeta.
  destruct (balance_ends capacities order target_sum) with (st := (degrees1, repaired1)) (stalled := 0%nat) (cursor := 0%nat)
    (current := sum_list degrees1) (fuel := turns (length degrees1) (sum_list degrees1 - target_sum + (target_sum - sum_list degrees1)) 0) as (r & -> & P); simpl; [|done|done|lia|by apply B1|done|].
  - intros ->. apply Permutation_length in O. rewrite length_seq, L1 in O. done.
  - exists r. split; [done|]. destruct r as [[degrees2 repaired2]|]; [|done]. destruct P as [[L2 B2 G2 N2] Sm]. simpl in *.
    split_and!; [congruence|done|]. intros i Hi. split; [apply B2; [by apply B1|]; rewrite L2, L1; simpl; lia|].
    intros Hr. rewrite N2, N1, At; [done|simpl; lia|set_solver|done].
Qed.

Example repair_reaches_the_sum_witness : exists r, repair [5; 1; 2]%nat [3; 1; 2]%nat 6 7 = Some r /\
    match r with
    | Ok (degrees', repaired) =>
        length degrees' = length [5; 1; 2]%nat /\ sum_list degrees' = 6%nat /\
        forall i, (i < length [5; 1; 2])%nat -> (1 <= degrees' !!! i <= length [3; 1; 2])%nat /\
          (i ∉ repaired -> degrees' !!! i = Nat.max 1 (Nat.min ([5; 1; 2] !!! i) (length [3; 1; 2])))%nat
    | Err _ => True
    end.
Proof. apply (repair_reaches_the_sum [5; 1; 2]%nat [3; 1; 2]%nat 6 7); [done|done|vm_compute; reflexivity]. Defined.

(** ** The check is of a prefix *)

(** [k] tenants, all of them in every part. *)
Definition sums_fit (capacities degrees : list nat) : Prop :=
  forall k, (k <= length degrees)%nat -> (sum_list (take k (merge_sort desc degrees)) <= rhs capacities k)%nat.

(** Twenty tenants of two parts and twenty of one, as the draw of seed 1 meets them. *)
Definition met_first : list nat :=
  match shuffle (seq 0 40) (stream 1 "degree-repair") with Some (order, _) => take 20 order | None => [] end.
Definition blind_degrees : list nat := List.fold_left (fun degrees i => <[i := 2%nat]> degrees) met_first (replicate 40 1%nat).
Definition blind_capacities : list nat := [40; 30; 13]%nat.
Definition blind_repaired : list nat :=
  match repair blind_degrees blind_capacities 83 1 with Some (Ok (degrees, _)) => degrees | _ => [] end.

(** the check after each change looks at four times as many tenants as there are
    parts, and that is not enough: degrees that could be realized are repaired to
    some that cannot (twenty tenants in all three parts, one of which takes thirteen),
    and [realize] then refuses them. *)
Theorem feasible_is_blind :
  sums_fit blind_capacities blind_degrees /\ length blind_repaired = 40%nat /\ sum_list blind_repaired = sum_list blind_capacities /\
  feasible blind_capacities blind_repaired = true /\ ~ sums_fit blind_capacities blind_repaired /\
  realize blind_capacities blind_repaired 1 = Some (Err (NotBigraphic "tenant needs more parts than have capacity left")).
Proof.
  split_and!; [|by vm_compute..| |by vm_compute].
  - assert (F : List.forallb (fun k => Nat.leb (sum_list (take k (merge_sort desc blind_degrees))) (rhs blind_capacities k)) (seq 0 41) = true) by by vm_compute.
    intros k Hk. rewrite List.forallb_forall in F. apply Nat.leb_le, F, in_seq. change (length blind_degrees) with 40%nat in Hk. lia.
  - intros F. specialize (F 20%nat). vm_compute in F. lia.
Qed.

Example small_graph : realize [3; 1; 2; 2]%nat [2; 1; 2; 1; 2]%nat 7 = Some (Ok [[0; 2; 4]; [2]; [0; 1]; [3; 4]]%nat).
Proof. by vm_compute. Qed.

Example realize_margins_witness : exists r, realize [3; 1; 2; 2]%nat [2; 1; 2; 1; 2]%nat 7 = Some r /\
    match r with Ok out => margins [3; 1; 2; 2]%nat [2; 1; 2; 1; 2]%nat out | Err _ => True end.
Proof. apply (realize_margins [3; 1; 2; 2]%nat [2; 1; 2; 1; 2]%nat 7). vm_compute. reflexivity. Defined.

End TopologySpec.
