(* ===== verification/Variants.v ===== *)
(** * One-variable Parquet variants (tools/parquet-rewrite, tools/parquet-lab-write-core, tools/parquet-lab-contract)

    The laboratory that rewrites a control's files under a writer configuration:
    the configuration and its flat path map (config.rs, spec.rs, write.rs), the
    delta against a reconstruction and its gate (experiment.rs), the lossless
    projections (project.rs), and the rewrite that publishes a variant only when
    the logical fingerprint of the rows stays (rewrite.rs, reconstruct.rs, lib.rs).
    TOML and serde, the Parquet reader and writer, BLAKE3 and the file system are
    parameters. [trim] and [to_lowercase] are those of ASCII text; the census
    figures of a manifest are not modelled. *)

From S2P Require Import Prelude Bytes Json DiskCache Pipelines Fingerprints.

Module Variants.
Import Fingerprints.

(** ** Strings *)

Fixpoint strip_prefix (p s : string) : option string :=
  match p, s with
  | EmptyString, _ => Some s
  | String a p, String b s => if Ascii.eqb a b then strip_prefix p s else None
  | _, EmptyString => None
  end.

(** [strip_suffix] of one character. *)
Fixpoint strip_last (c : Ascii.ascii) (s : string) : option string :=
  match s with
  | EmptyString => None
  | String a EmptyString => if Ascii.eqb a c then Some EmptyString else None
  | String a s => String a <$> strip_last c s
  end.

Definition dot : Ascii.ascii := Ascii.ascii_of_nat 46.
Definition paren : Ascii.ascii := Ascii.ascii_of_nat 41.

(** [rsplit_once] at a dot. *)
Fixpoint rsplit_once (s : string) : option (string * string) :=
  match s with
  | EmptyString => None
  | String a s =>
      match rsplit_once s with
      | Some (l, r) => Some (String a l, r)
      | None => if Ascii.eqb a dot then Some (EmptyString, s) else None
      end
  end.

Fixpoint map_chars (f : Ascii.ascii -> Ascii.ascii) (s : string) : string :=
  match s with EmptyString => EmptyString | String a s => String (f a) (map_chars f s) end.

Definition lower (c : Ascii.ascii) : Ascii.ascii :=
  let n := Ascii.nat_of_ascii c in
  if Nat.leb 65 n && Nat.leb n 90 then Ascii.ascii_of_nat (n + 32) else c.
Definition to_lowercase : string -> string := map_chars lower.

Definition upper (c : Ascii.ascii) : Ascii.ascii :=
  let n := Ascii.nat_of_ascii c in
  if Nat.leb 97 n && Nat.leb n 122 then Ascii.ascii_of_nat (n - 32) else c.
Definition to_uppercase : string -> string := map_chars upper.

Definition is_space (c : Ascii.ascii) : bool := Pipelines.ascii_space (Z.of_nat (Ascii.nat_of_ascii c)).
Fixpoint trim_start (s : string) : string :=
  match s with String a s' => if is_space a then trim_start s' else s | _ => s end.
Fixpoint trim_end (s : string) : string :=
  match s with
  | EmptyString => EmptyString
  | String a s => match trim_end s with EmptyString => if is_space a then EmptyString else String a EmptyString | s => String a s end
  end.
Definition trim (s : string) : string := trim_end (trim_start s).

(** ** Errors *)

Inductive ContractError :=
| NonRelativePath (offending : string)
| DuplicateFile (duplicate : string)
| ParentMismatch (expected actual : string)
| AllowlistViolation (path : string)
| UnknownAllowlistPath (path : string)
| DigestMismatch (path : string)
| IncompleteProperties (column : string).

Inductive VariantError :=
| Contract (e : ContractError)
| NotUnsigned (field : string)
| NotBoolean (field : string)
| NotString (field : string)
| MalformedPath (path : string)
| UnknownSuffix (suffix path : string)
| UnsupportedStatistics (mode : string)
| UnsupportedCompression (codec : string)
| BadZstdLevel (level : string)
| UnsupportedEncoding (encoding : string)
| UnsupportedPhysicalType (name : string)
| BadToml
| NoLabel
| DeltaVersion (found : string)
| BadDelta (what : string)
| BadSchema (what : string)
| UnknownLogical (e : LogicalFingerprintError)
| ProjectionColumn (column : string)
| ProjectionRefused (column : string)
| Lossy (column : string) (value : Z)
| NotInt64 (column : string)
| ParquetError
| FingerprintError (e : LogicalFingerprintError)
| MembershipChanged (path : string)
| CodecIgnored (column : string)
| LogicalValueChanged
| Unreadable (path : string)
| BadManifest
| ImmutableControl
| OutputNotEmpty.

(** ** The writer's configuration *)

(** An [f64] by the text [serde_json] writes for it; it writes [null] for one that
    is not finite. *)
Inductive f64 := Finite (text : string) | NonFinite (text : string).

(** [ColumnSpec] and [ColumnConfig]: the same fields. *)
Record ColumnSpec := mkColumn {
  name : string;
  encoding : option string;
  dictionary : option bool;
  compression : option string;
  bloom_fpp : option f64;
  bloom_ndv : option Z;
  physical_type : option string;
}.

Definition empty_column (n : string) : ColumnSpec := mkColumn n None None None None None None.

Record WriterConfig := mkConfig {
  row_group_rows : Z;
  key_boundary_flush : bool;
  write_batch_rows : Z;
  data_page_bytes : Z;
  dictionary_page_bytes : Z;
  statistics : string;
  offset_index : bool;
  w_compression : string;
  w_columns : list ColumnSpec;
}.

(** A [VariantSpec] is a label and the fields of the configuration it converts to. *)
Record VariantSpec := mkSpec { label : string; to_writer_config : WriterConfig }.

Inductive Compression := LZ4_RAW | SNAPPY | UNCOMPRESSED | ZSTD (level : Z).
Inductive EnabledStatistics := StatsNone | StatsChunk | StatsPage.
Inductive Encoding := PLAIN | DELTA_BINARY_PACKED | DELTA_LENGTH_BYTE_ARRAY | DELTA_BYTE_ARRAY | BYTE_STREAM_SPLIT | RLE.
Inductive PhysicalType := Int8 | Int16 | Int32 | Int64 | TimestampMs | Date32.

Definition parse_statistics (s : string) : result EnabledStatistics VariantError :=
  if String.eqb s "none" then Ok StatsNone else if String.eqb s "chunk" then Ok StatsChunk
  else if String.eqb s "page" then Ok StatsPage else Err (UnsupportedStatistics s).

Definition parse_encoding (s : string) : result Encoding VariantError :=
  if String.eqb s "plain" then Ok PLAIN
  else if String.eqb s "delta_binary_packed" then Ok DELTA_BINARY_PACKED
  else if String.eqb s "delta_length_byte_array" then Ok DELTA_LENGTH_BYTE_ARRAY
  else if String.eqb s "delta_byte_array" then Ok DELTA_BYTE_ARRAY
  else if String.eqb s "byte_stream_split" then Ok BYTE_STREAM_SPLIT
  else if String.eqb s "rle" then Ok RLE
  else Err (UnsupportedEncoding s).

Definition parse_physical_type (s : string) : result PhysicalType VariantError :=
  if String.eqb s "int8" then Ok Int8 else if String.eqb s "int16" then Ok Int16
  else if String.eqb s "int32" then Ok Int32 else if String.eqb s "int64" then Ok Int64
  else if String.eqb s "timestamp_ms" || String.eqb s "timestamp_millis" then Ok TimestampMs
  else if String.eqb s "date32" || String.eqb s "date" then Ok Date32
  else Err (UnsupportedPhysicalType s).

Section zstd.
(** [ZstdLevel::try_new(level).is_ok()]. *)
Context (zstd_level : Z -> bool).

Definition zstd (level : Z) (text : string) : result Compression VariantError :=
  if zstd_level level then Ok (ZSTD level) else Err (BadZstdLevel text).

Definition parse_compression (s : string) : result Compression VariantError :=
  let s := to_lowercase (trim s) in
  if String.eqb s "lz4_raw" then Ok LZ4_RAW
  else if String.eqb s "snappy" then Ok SNAPPY
  else if String.eqb s "uncompressed" then Ok UNCOMPRESSED
  else if String.eqb s "zstd" then zstd 3 s
  else
    match (r ← strip_prefix "zstd(" s; strip_last paren r) with
    | Some rest =>
        let? level := ok_or (DiskCache.parse_int (- 2 ^ 31) (2 ^ 31 - 1) rest) (BadZstdLevel rest) in zstd level rest
    | None => Err (UnsupportedCompression s)
    end.

Definition checked {A B} (parse : A -> result B VariantError) (o : option A) : result unit VariantError :=
  match o with Some a => let? _ := parse a in Ok tt | None => Ok tt end.

(** [WriterConfig::validate]. *)
Definition validate (c : WriterConfig) : result unit VariantError :=
  let? _ := parse_compression (w_compression c) in
  let? _ := parse_statistics (statistics c) in
  let? _ := mapr (fun col =>
    let? _ := checked parse_compression (compression col) in
    let? _ := checked parse_encoding (encoding col) in
    checked parse_physical_type (physical_type col)) (w_columns c) in
  Ok tt.

(** The calls made on Parquet's builder, in order. *)
Inductive Setting :=
| MaxRowGroupRows (n : Z)
| WriteBatchSize (n : Z)
| DataPageLimit (n : Z)
| DictionaryPageLimit (n : Z)
| Statistics (s : EnabledStatistics)
| AllCompression (c : Compression)
| OffsetIndexDisabled (b : bool)
| SortingColumns (columns : list Z)
| ColumnEncoding (column : string) (e : Encoding)
| ColumnDictionary (column : string) (b : bool)
| ColumnCompression (column : string) (c : Compression)
| ColumnBloom (column : string) (fpp : f64) (ndv : option Z).

Definition set_opt {A B} (parse : A -> result B VariantError) (set : B -> Setting) (o : option A) : result (list Setting) VariantError :=
  match o with Some a => let? b := parse a in Ok [set b] | None => Ok [] end.

Definition column_properties (c : ColumnSpec) : result (list Setting) VariantError :=
  let? e := set_opt parse_encoding (ColumnEncoding (name c)) (encoding c) in
  let? d := set_opt Ok (ColumnDictionary (name c)) (dictionary c) in
  let? z := set_opt parse_compression (ColumnCompression (name c)) (compression c) in
  Ok (e ++ d ++ z ++ match bloom_fpp c with Some fpp => [ColumnBloom (name c) fpp (bloom_ndv c)] | None => [] end).

Definition writer_properties (c : WriterConfig) (sorting : list Z) : result (list Setting) VariantError :=
  let? s := parse_statistics (statistics c) in
  let? z := parse_compression (w_compression c) in
  let? columns := mapr column_properties (w_columns c) in
  Ok ([MaxRowGroupRows (row_group_rows c); WriteBatchSize (write_batch_rows c); DataPageLimit (data_page_bytes c);
       DictionaryPageLimit (dictionary_page_bytes c); Statistics s; AllCompression z;
       OffsetIndexDisabled (negb (offset_index c)); SortingColumns sorting] ++ List.concat columns).

(** A [BTreeMap] by column: the last column of a name counts. *)
Fixpoint projections_of (columns : list ColumnSpec) (m : list (string * PhysicalType)) : result (list (string * PhysicalType)) VariantError :=
  match columns with
  | [] => Ok m
  | c :: columns =>
      match physical_type c with
      | None => projections_of columns m
      | Some pt => let? t := parse_physical_type pt in projections_of columns (jinsert (name c) t m)
      end
  end.
Definition projections (c : WriterConfig) : result (list (string * PhysicalType)) VariantError := projections_of (w_columns c) [].

(** ** The flat map of a configuration *)

(** A [BTreeMap]: in key order, one entry per key. *)
Definition ResolvedConfig : Type := list (string * json).

Definition path (column suffix : string) : string := ("columns." +:+ column +:+ "." +:+ suffix)%string.

Definition f64_json (x : f64) : json := match x with Finite t => JNumber (NumFloat t) | NonFinite _ => JNull end.

Definition put {A} (k : string) (f : A -> json) (o : option A) (m : ResolvedConfig) : ResolvedConfig :=
  match o with Some a => jinsert k (f a) m | None => m end.

Definition put_column (m : ResolvedConfig) (c : ColumnSpec) : ResolvedConfig :=
  let p := path (name c) in
  put (p "physical_type") JString (physical_type c)
    (put (p "bloom_ndv") jint (bloom_ndv c)
    (put (p "bloom_fpp") f64_json (bloom_fpp c)
    (put (p "compression") JString (compression c)
    (put (p "dictionary") JBool (dictionary c)
    (put (p "encoding") JString (encoding c) m))))).

Definition globals (c : WriterConfig) : ResolvedConfig :=
  jinsert "global.compression" (JString (w_compression c))
    (jinsert "global.offset_index" (JBool (offset_index c))
    (jinsert "global.statistics" (JString (statistics c))
    (jinsert "global.dictionary_page_bytes" (jint (dictionary_page_bytes c))
    (jinsert "global.data_page_bytes" (jint (data_page_bytes c))
    (jinsert "global.write_batch_rows" (jint (write_batch_rows c))
    (jinsert "global.key_boundary_flush" (JBool (key_boundary_flush c))
    (jinsert "global.row_group_rows" (jint (row_group_rows c)) []))))))).

Definition spec_to_config (c : WriterConfig) : ResolvedConfig :=
  List.fold_left put_column (w_columns c) (globals c).

Section floats.
(** The text of an integer read as an [f64]. *)
Context (text_of_int : Z -> string).

Definition as_u64 (v : json) : option Z :=
  match v with JNumber (NumInt z) => if (0 <=? z) && (z <? 2 ^ 64) then Some z else None | _ => None end.
Definition as_f64 (v : json) : option f64 :=
  match v with JNumber (NumFloat t) => Some (Finite t) | JNumber (NumInt z) => Some (Finite (text_of_int z)) | _ => None end.

Definition get {A} (f : ResolvedConfig) (read : json -> option A) (e : string -> VariantError) (k : string) (d : A) : result A VariantError :=
  match assoc k f with None => Ok d | Some v => ok_or (read v) (e k) end.

(** The match on the suffix; [None] of another one. *)
Definition set_field (c : ColumnSpec) (suffix : string) (v : json) : option ColumnSpec :=
  let '(mkColumn n e d z fpp ndv pt) := c in
  if String.eqb suffix "encoding" then Some (mkColumn n (as_str v) d z fpp ndv pt)
  else if String.eqb suffix "dictionary" then Some (mkColumn n e (as_bool v) z fpp ndv pt)
  else if String.eqb suffix "compression" then Some (mkColumn n e d (as_str v) fpp ndv pt)
  else if String.eqb suffix "bloom_fpp" then Some (mkColumn n e d z (as_f64 v) ndv pt)
  else if String.eqb suffix "bloom_ndv" then Some (mkColumn n e d z fpp (as_u64 v) pt)
  else if String.eqb suffix "physical_type" then Some (mkColumn n e d z fpp ndv (as_str v))
  else None.

(** Grouping the per-column fields by column. *)
Fixpoint group_columns (f : ResolvedConfig) (columns : list (string * ColumnSpec)) : result (list (string * ColumnSpec)) VariantError :=
  match f with
  | [] => Ok columns
  | (p, v) :: f =>
      match strip_prefix "columns." p with
      | None => group_columns f columns
      | Some rest =>
          match rsplit_once rest with
          | None => Err (MalformedPath p)
          | Some (n, suffix) =>
              match set_field (default (empty_column n) (assoc n columns)) suffix v with
              | None => Err (UnknownSuffix suffix p)
              | Some c => group_columns f (jinsert n c columns)
              end
          end
      end
  end.

(** What [config_to_spec] and [from_resolved_config] read out of the map. *)
Definition resolve (f : ResolvedConfig) : result WriterConfig VariantError :=
  let? columns := group_columns f [] in
  let? rows := get f as_u64 NotUnsigned "global.row_group_rows" 1048576 in
  let? flush := get f as_bool NotBoolean "global.key_boundary_flush" false in
  let? batch := get f as_u64 NotUnsigned "global.write_batch_rows" 1024 in
  let? page := get f as_u64 NotUnsigned "global.data_page_bytes" (2 ^ 20) in
  let? dict := get f as_u64 NotUnsigned "global.dictionary_page_bytes" (2 ^ 20) in
  let? stats := get f as_str NotString "global.statistics" "page" in
  let? offset := get f as_bool NotBoolean "global.offset_index" true in
  let? codec := get f as_str NotString "global.compression" "zstd(3)" in
  Ok (mkConfig rows flush batch page dict stats offset codec (List.map snd columns)).

Definition from_resolved_config (f : ResolvedConfig) : result WriterConfig VariantError :=
  let? c := resolve f in
  let? _ := validate c in
  Ok c.

(** ** The spec as TOML *)

Section toml.
Context (to_toml : VariantSpec -> option string) (from_toml : string -> option VariantSpec).

Definition parse_spec (text : string) : result VariantSpec VariantError :=
  let? spec := ok_or (from_toml text) BadToml in
  if Pipelines.trim_is_empty (label spec) then Err NoLabel
  else
    let? _ := validate (to_writer_config spec) in
    Ok spec.

(** The spec is written out and read again for its checks; what is read is dropped. *)
Definition config_to_spec (l : string) (f : ResolvedConfig) : result VariantSpec VariantError :=
  let? c := resolve f in
  let spec := mkSpec l c in
  let? text := ok_or (to_toml spec) BadToml in
  let? _ := parse_spec text in
  Ok spec.
End toml.
End floats.
End zstd.

(** ** The delta against a reconstruction (experiment.rs) *)

Definition KNOWN_GLOBAL_PATHS : list string :=
  ["global.row_group_rows"; "global.key_boundary_flush"; "global.write_batch_rows"; "global.data_page_bytes";
   "global.dictionary_page_bytes"; "global.statistics"; "global.offset_index"; "global.compression"]%string.

Definition KNOWN_COLUMN_SUFFIXES : list string :=
  ["encoding"; "dictionary"; "compression"; "bloom_fpp"; "bloom_ndv"; "physical_type"]%string.

Definition is_known_config_path (p : string) : bool :=
  bool_decide (p ∈ KNOWN_GLOBAL_PATHS)
  || match (rest ← strip_prefix "columns." p; rsplit_once rest) with
     | Some (_, suffix) => bool_decide (suffix ∈ KNOWN_COLUMN_SUFFIXES)
     | None => false
     end.

(** [ResolvedConfig::diff]: the changed paths, ascending. *)
Definition diff (a b : ResolvedConfig) : list string :=
  let changed := List.filter (fun e => negb (bool_decide (assoc e.1 b = Some e.2))) a in
  let added := List.filter (fun e => bool_decide (assoc e.1 a = None)) b in
  List.map fst (List.fold_left (fun m e => jinsert e.1 tt m) (changed ++ added) []).

Record FileDigest := mkDigest { fd_path : string; fd_bytes : Z; fd_digest : string }.

(** A footer's facts by column: encodings, dictionary, codec, bytes, Bloom filter. *)
Record ResolvedColumn := mkResolved {
  encodings : list string;
  r_dictionary : bool;
  r_compression : string;
  compressed_bytes : Z;
  bloom : bool;
}.

Definition no_facts : ResolvedColumn := mkResolved [] false EmptyString 0 false.

Record VariantFileMap := mkFileMap {
  fm_input : FileDigest;
  fm_output : FileDigest;
  input_rows : Z;
  output_rows : Z;
}.

(** A manifest's fingerprint: an accumulator behind its version. *)
Record Fingerprint := mkFingerprint { version : string; rows : RowMultiset }.

Definition to_fingerprint (m : RowMultiset) : Fingerprint := mkFingerprint LOGICAL_ROW_MULTISET_VERSION m.

Definition agrees_with (a b : Fingerprint) : bool :=
  String.eqb (version a) (version b) && bool_decide (rows a = rows b).

Record ReconstructionManifest := mkReconstruction {
  parent_product_digest : string;
  baseline_spec_digest : string;
  rc_label : string;
  requested_config : ResolvedConfig;
  rc_config : ResolvedConfig;
  logical_projection : list (string * json);
  rc_sort_key : list string;
  rc_schema : json;
  rc_fingerprint : Fingerprint;
  rc_files : list VariantFileMap;
}.

Record VariantDeltaManifest := mkDelta {
  parent_reconstruction_digest : string;
  dl_label : string;
  allowed_changes : list string;
  changes : list (string * json);
  dl_config : ResolvedConfig;
  dl_fingerprint : Fingerprint;
  dl_files : list VariantFileMap;
}.

(** [path.split('/')]. *)
Fixpoint segments (s : string) : list string :=
  match s with
  | EmptyString => [EmptyString]
  | String a s =>
      if Ascii.eqb a (Ascii.ascii_of_nat 47) then EmptyString :: segments s
      else match segments s with [] => [String a EmptyString] | x :: l => String a x :: l end
  end.

(** [check_relative_path]: not absolute, and no [..] segment. *)
Definition check_relative_path (p : string) : result unit ContractError :=
  if (match strip_prefix "/" p with Some _ => true | None => false end) || bool_decide (".."%string ∈ segments p)
  then Err (NonRelativePath p) else Ok tt.

Fixpoint check_files (files : list VariantFileMap) (seen : list string) : result unit ContractError :=
  match files with
  | [] => Ok tt
  | f :: files =>
      let p := fd_path (fm_output f) in
      let? _ := check_relative_path p in
      if bool_decide (p ∈ seen) then Err (DuplicateFile p) else check_files files (p :: seen)
  end.

Definition check_all {A} (bad : A -> bool) (e : A -> ContractError) (l : list A) : result unit ContractError :=
  match List.find bad l with Some a => Err (e a) | None => Ok tt end.

(** [VariantDeltaManifest::validate]. *)
Definition validate_delta (m : VariantDeltaManifest) : result unit ContractError :=
  let? _ := check_all (fun p => negb (is_known_config_path p)) UnknownAllowlistPath (allowed_changes m) in
  let? _ := check_all (fun c => negb (bool_decide (c ∈ allowed_changes m))) AllowlistViolation (List.map fst (changes m)) in
  check_files (dl_files m) [].

Definition check_against_reconstruction (m : VariantDeltaManifest) (digest : string) (config : ResolvedConfig) : result unit ContractError :=
  if negb (String.eqb (parent_reconstruction_digest m) digest) then Err (ParentMismatch digest (parent_reconstruction_digest m))
  else check_all (fun c => negb (bool_decide (c ∈ allowed_changes m))) AllowlistViolation (diff config (dl_config m)).

(** ** The delta's TOML (reconstruct.rs)

    A leaf is the JSON value [serde_json::to_value] makes of it. *)
#[local] Unset Elimination Schemes.
Inductive toml :=
| TTable (t : list (string * toml))
| TLeaf (v : json).
#[local] Set Elimination Schemes.

Fixpoint flatten_toml (prefix : string) (v : toml) (out : list (string * json)) : list (string * json) :=
  match v with
  | TTable t =>
      (fix go (t : list (string * toml)) (out : list (string * json)) :=
         match t with
         | [] => out
         | (k, v) :: t => go t (flatten_toml (if String.eqb prefix EmptyString then k else (prefix +:+ "." +:+ k)%string) v out)
         end) t out
  | TLeaf v => jinsert prefix v out
  end.

Definition tget (v : toml) (k : string) : option toml := match v with TTable t => assoc k t | TLeaf _ => None end.
Definition leaf (v : option toml) : option json := match v with Some (TLeaf v) => Some v | _ => None end.

Definition VARIANT_DELTA_VERSION : string := "ukiel-parquet-variant-delta/v1".

Record ParsedDelta := mkParsedDelta { pd_label : string; pd_allowed : list string; pd_changes : list (string * json) }.

Definition parse_delta (value : toml) : result ParsedDelta VariantError :=
  let? _ := match leaf (tget value "version") ≫= as_str with
            | Some v => if String.eqb v VARIANT_DELTA_VERSION then Ok tt else Err (DeltaVersion v)
            | None => Ok tt
            end in
  let? l := ok_or (leaf (tget value "label") ≫= as_str) (BadDelta "delta has no label") in
  let? items := ok_or (leaf (tget value "allowed_changes") ≫= as_array) (BadDelta "delta has no allowed_changes array") in
  let? allowed := mapr (fun v => ok_or (as_str v) (BadDelta "allowed_changes entry is not a string")) items in
  Ok (mkParsedDelta l allowed (match tget value "changes" with Some t => flatten_toml EmptyString t [] | None => [] end)).

(** ** Lossless projections (project.rs) *)

Inductive DataType := DInt8 | DInt16 | DInt32 | DInt64 | DTimestamp (u : TimeUnit) | DDate32 | DOther (name : string).

#[export] Instance time_unit_eq_dec : EqDecision TimeUnit.
Proof. solve_decision. Defined.
#[export] Instance data_type_eq_dec : EqDecision DataType.
Proof. solve_decision. Defined.
#[export] Instance logical_type_eq_dec : EqDecision LogicalType.
Proof. solve_decision. Defined.

Record Field := mkField { f_name : string; data_type : DataType; nullable : bool }.

Definition data_type_of (a : Array) : DataType :=
  match a with
  | Int8Array _ => DInt8 | Int16Array _ => DInt16 | Int32Array _ => DInt32 | Int64Array _ => DInt64
  | TimestampArray u _ => DTimestamp u | Date32Array _ => DDate32 | a => DOther (type_name a)
  end.

Definition target_type (t : PhysicalType) : DataType :=
  match t with
  | Int8 => DInt8 | Int16 => DInt16 | Int32 => DInt32 | Int64 => DInt64
  | TimestampMs => DTimestamp Millisecond | Date32 => DDate32
  end.

Definition projected_schema (input : list Field) (ps : list (string * PhysicalType)) : list Field :=
  List.map (fun f => mkField (f_name f)
    (match assoc (f_name f) ps with None => data_type f | Some t => target_type t end) (nullable f)) input.

Definition validate_projection (declared : list (string * LogicalType)) (schema : list Field) (p : string * PhysicalType)
  : result unit VariantError :=
  let '(col, target) := p in
  let? field := ok_or (List.find (fun f => String.eqb (f_name f) col) schema) (ProjectionColumn col) in
  let logical := assoc col declared in
  let refuse (ok : bool) : result unit VariantError := if ok then Ok tt else Err (ProjectionRefused col) in
  match target with
  | Int8 | Int16 | Int32 | Int64 =>
      let? _ := refuse (bool_decide (logical = Some SignedInt)) in refuse (bool_decide (data_type field = DInt64))
  | TimestampMs =>
      let? _ := refuse (bool_decide (logical = Some TimestampMillis)) in refuse (bool_decide (data_type field = DInt64))
  | Date32 => refuse (bool_decide (logical = Some DateDays))
  end.

Definition validate_projections (ps : list (string * PhysicalType)) (declared : list (string * LogicalType)) (schema : list Field)
  : result unit VariantError :=
  let? _ := mapr (validate_projection declared schema) ps in Ok tt.

Definition min_of (l : list Z) : option Z := match l with [] => None | x :: l => Some (List.fold_left Z.min l x) end.
Definition max_of (l : list Z) : option Z := match l with [] => None | x :: l => Some (List.fold_left Z.max l x) end.

(** The values that are not null. *)
Definition check_int_range (column : string) (a : Array) (lo hi : Z) : result (list (option Z)) VariantError :=
  match a with
  | Int64Array l =>
      let vs := omap id l in
      let? _ := match min_of vs with Some m => if m <? lo then Err (Lossy column m) else Ok tt | None => Ok tt end in
      let? _ := match max_of vs with Some m => if hi <? m then Err (Lossy column m) else Ok tt | None => Ok tt end in
      Ok l
  | _ => Err (NotInt64 column)
  end.

(** Arrow's cast between integers: a value that does not fit becomes null. *)
Definition cast_int (lo hi : Z) (l : list (option Z)) : list (option Z) :=
  List.map (fun v => v ← v; if (lo <=? v) && (v <=? hi) then Some v else None) l.

Definition narrow (column : string) (lo hi : Z) (to : list (option Z) -> Array) (a : Array) : result Array VariantError :=
  let? l := check_int_range column a lo hi in Ok (to (cast_int lo hi l)).

Section parquet.
(** Arrow's cast of another array to milliseconds. *)
Context (cast_to_ms : Array -> option Array).

Definition project_column (column : string) (a : Array) (t : PhysicalType) : result Array VariantError :=
  match t with
  | Int8 => narrow column (- 2 ^ 7) (2 ^ 7 - 1) Int8Array a
  | Int16 => narrow column (- 2 ^ 15) (2 ^ 15 - 1) Int16Array a
  | Int32 => narrow column (- 2 ^ 31) (2 ^ 31 - 1) Int32Array a
  | Int64 => narrow column i64_min i64_max Int64Array a
  | TimestampMs =>
      match a with
      | Int64Array l => Ok (TimestampArray Millisecond l)
      | a => ok_or (cast_to_ms a) ParquetError
      end
  | Date32 => narrow column (- 2 ^ 31) (2 ^ 31 - 1) Date32Array a
  end.

Definition project_batch (b : Batch) (ps : list (string * PhysicalType)) : result Batch VariantError :=
  let? columns := mapr (fun '(n, a) =>
    match assoc n ps with
    | None => Ok (n, a)
    | Some t => let? a := project_column n a t in Ok (n, a)
    end) (columns b) in
  Ok (mkBatch columns (num_rows b)).

(** ** Writing one file (write.rs, rewrite.rs) *)

Definition Props : Type := list Setting.

(** What the Parquet library makes of bytes and batches: a file's schema, its
    row count and its batches; whether a batch is taken behind those before it;
    the bytes of a closed file; the columns of each row group of a footer. *)
Context (decode : bytes -> option (list Field * Z * list Batch)).
Context (accepts : Props -> list Field -> list Batch -> bool).
Context (closes : Props -> list Field -> list Batch -> option bytes).
Context (footer : bytes -> option (list (list (string * ResolvedColumn)))).
Context (blake3 : bytes -> bytes) (hex : bytes -> string).
Context (zstd_level : Z -> bool).

Definition digest_bytes (b : bytes) : string := hex (blake3 b).
Definition digest_of (p : string) (b : bytes) : FileDigest := mkDigest p (len b) (digest_bytes b).
Definition verify (d : FileDigest) (p : string) (b : bytes) : result unit ContractError :=
  if String.eqb (digest_bytes b) (fd_digest d) then Ok tt else Err (DigestMismatch p).

(** The positions of the sort key's columns that are there. *)
Fixpoint index_of (n : string) (schema : list Field) (i : Z) : option Z :=
  match schema with
  | [] => None
  | f :: schema => if String.eqb (f_name f) n then Some i else index_of n schema (i + 1)
  end.
Definition sorting_columns (schema : list Field) (sort_key : list string) : list Z :=
  omap (fun n => index_of n schema 0) sort_key.

(** The loop of [write_projected]: the written batches, the rows, the fingerprint. *)
Fixpoint write_batches (props : Props) (out_schema : list Field) (ps : list (string * PhysicalType)) (logical_schema : LogicalSchema)
    (batches written : list Batch) (rows : Z) (logical : RowMultiset) : result (list Batch * Z * RowMultiset) VariantError :=
  match batches with
  | [] => Ok (written, rows, logical)
  | b :: batches =>
      let? p := project_batch b ps in
      let? logical := map_err FingerprintError (logical_update blake3 logical_schema logical p) in
      let? _ := if accepts props out_schema (written ++ [p]) then Ok tt else Err ParquetError in
      write_batches props out_schema ps logical_schema batches (written ++ [p]) (rows + Z.of_nat (num_rows p)) logical
  end.

Definition write_projected (input : bytes) (ps : list (string * PhysicalType)) (props : Props) (out_schema : list Field)
    (logical_schema : LogicalSchema) (logical : RowMultiset) : result (bytes * Z * RowMultiset) VariantError :=
  let? (_, batches) := ok_or (decode input) ParquetError in
  let? (written, rows, logical) := write_batches props out_schema ps logical_schema batches [] 0 logical in
  let? out := ok_or (closes props out_schema written) ParquetError in
  Ok (out, rows, logical).

(** One column chunk of a footer, folded in. *)
Definition add_chunk (m : list (string * ResolvedColumn)) (c : string * ResolvedColumn) : list (string * ResolvedColumn) :=
  let '(n, c) := c in
  let e := default no_facts (assoc n m) in
  jinsert n (mkResolved (List.map fst (List.fold_left (fun m x => jinsert x tt m) (encodings c) (List.map (fun x => (x, tt)) (encodings e))))
    (r_dictionary e || r_dictionary c) (r_compression c) (compressed_bytes e + compressed_bytes c) (bloom e || bloom c)) m.

Definition resolve_footer (b : bytes) : result (list (string * ResolvedColumn)) VariantError :=
  let? groups := ok_or (footer b) ParquetError in
  Ok (List.fold_left add_chunk (List.concat groups) []).

Record RewrittenFile := mkRewritten { rw_map : VariantFileMap; rw_columns : list (string * ResolvedColumn) }.

Definition rewrite_file (input_digest : FileDigest) (input : bytes) (out_path : string) (config : WriterConfig)
    (ps : list (string * PhysicalType)) (declared : list (string * LogicalType)) (sort_key : list string)
    (logical_schema : LogicalSchema) (logical : RowMultiset) : result (RewrittenFile * RowMultiset) VariantError :=
  let? (schema, in_rows, _) := ok_or (decode input) ParquetError in
  let? _ := validate_projections ps declared schema in
  let out_schema := projected_schema schema ps in
  let? props := writer_properties zstd_level config (sorting_columns out_schema sort_key) in
  let? (out, out_rows, logical) := write_projected input ps props out_schema logical_schema logical in
  if negb (out_rows =? in_rows) then Err (MembershipChanged out_path)
  else
    let? columns := resolve_footer out in
    Ok (mkRewritten (mkFileMap input_digest (digest_of out_path out) in_rows out_rows) columns, logical).

(** ** A whole control (reconstruct.rs, lib.rs) *)

Definition merge_column (m : list (string * ResolvedColumn)) (c : string * ResolvedColumn) : list (string * ResolvedColumn) :=
  let '(n, c) := c in
  let e := default no_facts (assoc n m) in
  jinsert n (mkResolved (List.map fst (List.fold_left (fun m x => jinsert x tt m) (encodings c) (List.map (fun x => (x, tt)) (encodings e))))
    (r_dictionary e || r_dictionary c) (if String.eqb (r_compression e) EmptyString then r_compression c else r_compression e)
    (compressed_bytes e + compressed_bytes c) (bloom e || bloom c)) m.
Definition merge_resolved (into from : list (string * ResolvedColumn)) : list (string * ResolvedColumn) :=
  List.fold_left merge_column from into.

(** [{i:05}]. *)
Definition pad5 (i : nat) : string :=
  let s := pretty (Z.of_nat i) in
  (String.concat EmptyString (List.repeat "0"%string (5 - String.length s)) +:+ s)%string.
Definition out_rel (i : nat) : string := ("parquet/part-" +:+ pad5 i +:+ ".parquet")%string.

Record RewriteAll := mkAll {
  file_maps : list VariantFileMap;
  resolved : list (string * ResolvedColumn);
  logical : RowMultiset;
}.

(** Files are read relative to the control's directory. *)
Fixpoint rewrite_loop (read : string -> option bytes) (inputs : list (string * FileDigest)) (i : nat) (config : WriterConfig)
    (ps : list (string * PhysicalType)) (declared : list (string * LogicalType)) (sort_key : list string)
    (logical_schema : LogicalSchema) (out : RewriteAll) : result RewriteAll VariantError :=
  match inputs with
  | [] => Ok out
  | (rel, d) :: inputs =>
      let? b := ok_or (read rel) (Unreadable rel) in
      let? _ := map_err Contract (verify d rel b) in
      let? (f, l) := rewrite_file d b (out_rel i) config ps declared sort_key logical_schema (logical out) in
      rewrite_loop read inputs (S i) config ps declared sort_key logical_schema
        (mkAll (file_maps out ++ [rw_map f]) (merge_resolved (resolved out) (rw_columns f)) l)
  end.

Definition rewrite_all (read : string -> option bytes) (inputs : list (string * FileDigest)) (config : WriterConfig)
    (declared : list (string * LogicalType)) (sort_key : list string) (logical_schema : LogicalSchema) : result RewriteAll VariantError :=
  let? ps := projections config in
  rewrite_loop read inputs 0 config ps declared sort_key logical_schema (mkAll [] [] default_multiset).

(** The logical schema in physical column order, and the map by name. *)
Fixpoint declared_fields (fields : list json) (types : list (string * json)) (cols : LogicalSchema) (m : list (string * LogicalType))
  : result (LogicalSchema * list (string * LogicalType)) VariantError :=
  match fields with
  | [] => Ok (cols, m)
  | f :: fields =>
      let? n := ok_or (jget f "name" ≫= as_str) (BadSchema "physical field missing name") in
      let? t := ok_or (assoc n types ≫= as_str) (BadSchema n) in
      let? l := map_err UnknownLogical (Fingerprints.parse t) in
      declared_fields fields types (cols ++ [(n, l)]) (jinsert n l m)
  end.

Definition declared_from_projection (types : list (string * json)) (schema : json)
  : result (LogicalSchema * list (string * LogicalType)) VariantError :=
  let? fields := ok_or (jget schema "fields" ≫= as_array) (BadSchema "no fields") in
  declared_fields fields types [] [].

Definition codec_family (compression : string) : string :=
  let s := to_lowercase (trim compression) in
  match strip_prefix "zstd" s with
  | Some _ => "ZSTD"
  | None => if String.eqb s "lz4_raw" then "LZ4_RAW" else if String.eqb s "snappy" then "SNAPPY"
            else if String.eqb s "uncompressed" then "UNCOMPRESSED" else to_uppercase s
  end.

Fixpoint contains (s p : string) : bool :=
  match strip_prefix p s with
  | Some _ => true
  | None => match s with EmptyString => false | String _ s => contains s p end
  end.

Definition of_family (want : string) (c : ResolvedColumn) : bool := contains (to_uppercase (r_compression c)) want.

Definition assert_codec_family (cols : list (string * ResolvedColumn)) (requested : string) : result unit VariantError :=
  let want := codec_family requested in
  match List.find (fun c => negb (of_family want c.2) && negb (String.eqb want "UNCOMPRESSED")) cols with
  | Some (n, _) => if List.existsb (fun c => of_family want c.2) cols then Ok tt else Err (CodecIgnored n)
  | None => Ok tt
  end.

(** ** Publishing a variant (reconstruct.rs, lib.rs) *)

(** A path by its components; [..] is one, [.] is not. *)
Record Path := mkPath { absolute : bool; components : list string }.

(** [refuse_write_into] of a protected directory; [fs::canonicalize] answers the
    components of the real path, or fails where nothing is. The loop goes up the
    output's ancestors, the last component first. *)
Fixpoint resolve_path (canonicalize : Path -> option (list string)) (output : Path) (rev_comps tail : list string) : Path :=
  match canonicalize (mkPath (absolute output) (rev rev_comps)) with
  | Some c => mkPath true (c ++ tail)
  | None =>
      match rev_comps with
      | n :: rev_comps => if String.eqb n ".." then output else resolve_path canonicalize output rev_comps (n :: tail)
      | [] => output
      end
  end.

(** [Path::starts_with]; the empty path begins every path. *)
Definition starts_with (p prefix : Path) : bool :=
  match absolute prefix, components prefix with
  | false, [] => true
  | a, cs => Bool.eqb a (absolute p) && bool_decide (take (length cs) (components p) = cs)
  end.

Definition refuse_write_into (canonicalize : Path -> option (list string)) (protected output : Path) : result unit VariantError :=
  let protected := match canonicalize protected with Some c => mkPath true c | None => protected end in
  if starts_with (resolve_path canonicalize output (rev (components output)) []) protected then Err ImmutableControl else Ok tt.

Inductive Dir := Absent | EmptyDir | NonEmptyDir.

(** [publish]: the rename takes place unless something is there. *)
Definition publish (output : Dir) : result unit VariantError :=
  match output with NonEmptyDir => Err OutputNotEmpty | _ => Ok tt end.

(** What a run finds: the control's directory and the output's, and the file
    system that tells them apart. *)
Record Place := mkPlace {
  canonicalize : Path -> option (list string);
  control_dir : Path;
  output_dir : Path;
  output_state : Dir;
  read_file : string -> option bytes;   (* relative to the control's directory *)
}.

Context (to_toml : VariantSpec -> option string) (from_toml : string -> option VariantSpec).
Context (parse_toml : string -> option toml) (text_of_int : Z -> string).
(** serde of the manifests, after the version gates. *)
Context (parse_reconstruction : bytes -> option ReconstructionManifest).

Definition of_outputs (files : list VariantFileMap) : list (string * FileDigest) :=
  List.map (fun f => (fd_path (fm_output f), fm_output f)) files.

(** [run_vary]: a manifest is returned when it has been published. *)
Definition run_vary (place : Place) (reconstruction : option bytes) (delta : option string) : result VariantDeltaManifest VariantError :=
  let? _ := refuse_write_into (canonicalize place) (control_dir place) (output_dir place) in
  let? reco_bytes := ok_or reconstruction (Unreadable "reconstruction") in
  let? reco := ok_or (parse_reconstruction reco_bytes) BadManifest in
  let? _ := map_err Contract (check_files (rc_files reco) []) in
  let? text := ok_or delta (Unreadable "delta") in
  let? value := ok_or (parse_toml text) BadToml in
  let? d := parse_delta value in
  let config := List.fold_left (fun m c => jinsert c.1 c.2 m) (pd_changes d) (rc_config reco) in
  let? child := config_to_spec zstd_level text_of_int to_toml from_toml (pd_label d) config in
  let? (schema, declared) := declared_from_projection (logical_projection reco) (rc_schema reco) in
  let? out := rewrite_all (read_file place) (of_outputs (rc_files reco)) (to_writer_config child) declared (rc_sort_key reco) schema in
  let fp := to_fingerprint (logical out) in
  if negb (agrees_with fp (rc_fingerprint reco)) then Err LogicalValueChanged
  else
    let? _ := assert_codec_family (resolved out) (w_compression (to_writer_config child)) in
    let m := mkDelta (digest_bytes reco_bytes) (pd_label d) (pd_allowed d) (pd_changes d)
               (spec_to_config (to_writer_config child)) fp (file_maps out) in
    let? _ := map_err Contract (validate_delta m) in
    let? _ := map_err Contract (check_against_reconstruction m (digest_bytes reco_bytes) (rc_config reco)) in
    let? _ := publish (output_state place) in
    Ok m.

(** The snapshot manifest of a product control. *)
Record SnapshotManifest := mkSnapshot {
  sn_files : list FileDigest;
  sn_projection : option (list (string * json));
  sn_schema : json;
  sn_sort_key : list string;
  sn_fingerprint : Fingerprint;
}.

Definition declared_from_manifest (m : SnapshotManifest) : result (LogicalSchema * list (string * LogicalType)) VariantError :=
  let? types := ok_or (sn_projection m) (BadSchema "snapshot has no logical projection") in
  declared_from_projection types (sn_schema m).

Context (parse_snapshot : bytes -> option SnapshotManifest) (text_bytes : string -> bytes).

Definition of_snapshot (files : list FileDigest) : list (string * FileDigest) := List.map (fun f => (fd_path f, f)) files.

Definition run_reconstruct (place : Place) (product : option bytes) (baseline : option string) : result ReconstructionManifest VariantError :=
  let? _ := refuse_write_into (canonicalize place) (control_dir place) (output_dir place) in
  let? product_bytes := ok_or product (Unreadable "product") in
  let? product := ok_or (parse_snapshot product_bytes) BadManifest in
  let? text := ok_or baseline (Unreadable "baseline") in
  let? spec := parse_spec zstd_level from_toml text in
  let? (schema, declared) := declared_from_manifest product in
  let? out := rewrite_all (read_file place) (of_snapshot (sn_files product)) (to_writer_config spec) declared (sn_sort_key product) schema in
  let fp := to_fingerprint (logical out) in
  if negb (agrees_with fp (sn_fingerprint product)) then Err LogicalValueChanged
  else
    let? _ := assert_codec_family (resolved out) (w_compression (to_writer_config spec)) in
    let config := spec_to_config (to_writer_config spec) in
    let m := mkReconstruction (digest_bytes product_bytes) (digest_bytes (text_bytes text)) (label spec) config config
               (default [] (sn_projection product)) (sn_sort_key product) (sn_schema product) fp (file_maps out) in
    let? _ := map_err Contract (check_files (rc_files m) []) in
    let? _ := publish (output_state place) in
    Ok m.

(** The record of a column: what was requested of it and what its footers say. *)
Record ColumnProperties := mkColumnProperties { requested : ColumnSpec; found : ResolvedColumn }.

Definition build_column_properties (config : WriterConfig) (resolved : list (string * ResolvedColumn)) : list ColumnProperties :=
  List.map (fun '(n, r) =>
    mkColumnProperties (default (empty_column n) (List.find (fun c => String.eqb (name c) n) (w_columns config))) r) resolved.

Record VariantManifest := mkVariant {
  parent_snapshot_digest : string;
  spec_digest : string;
  vm_label : string;
  properties : WriterConfig;
  vm_columns : list ColumnProperties;
  vm_fingerprint : Fingerprint;
  vm_files : list VariantFileMap;
}.

(** [VariantManifest::validate]: a dictionary flag and a codec are always read back. *)
Definition validate_variant (m : VariantManifest) : result unit ContractError := check_files (vm_files m) [].

Definition prepare_output (output : Dir) (replace : bool) : result unit VariantError :=
  match output with NonEmptyDir => if replace then Ok tt else Err OutputNotEmpty | _ => Ok tt end.

Definition run (place : Place) (snapshot : option bytes) (spec : option string) (replace : bool) : result VariantManifest VariantError :=
  let? snap_bytes := ok_or snapshot (Unreadable "snapshot") in
  let? snap := ok_or (parse_snapshot snap_bytes) BadManifest in
  let? text := ok_or spec (Unreadable "spec") in
  let? spec := parse_spec zstd_level from_toml text in
  let? _ := projections (to_writer_config spec) in
  let? (schema, declared) := declared_from_manifest snap in
  let? _ := prepare_output (output_state place) replace in
  let? out := rewrite_all (read_file place) (of_snapshot (sn_files snap)) (to_writer_config spec) declared (sn_sort_key snap) schema in
  let fp := to_fingerprint (logical out) in
  if negb (agrees_with fp (sn_fingerprint snap)) then Err LogicalValueChanged
  else
    let m := mkVariant (digest_bytes snap_bytes) (digest_bytes (text_bytes text)) (label spec) (to_writer_config spec)
               (build_column_properties (to_writer_config spec) (resolved out)) fp (file_maps out) in
    let? _ := map_err Contract (validate_variant m) in
    Ok m.
End parquet.
End Variants.
