(* ===== verification/VariantsSpec.v ===== *)
(** * What a variant promises (theorems about [Variants])

    A configuration survives its flat map; a published variant differs from its
    control in what it declares and keeps every logical row; a projection that is
    not refused changes no logical value. And where the guards fail: a change of
    the wrong type, a relative output. *)

From S2P Require Import Prelude Bytes Json Fingerprints Variants.
Import Fingerprints Variants.

Module VariantsSpec.

(** ** Paths of columns *)

Lemma strip_prefix_iff p s r : strip_prefix p s = Some r <-> s = (p +:+ r)%string.
Proof.
  revert s. induction p as [|a p IH]; intros s; simpl.
  - split; [by intros [= ->]|]. by intros ->.
  - destruct s as [|b s]; [done|]. destruct (Ascii.eqb_spec a b) as [->|N].
    + rewrite IH. split; [by intros ->|by intros [= ->]].
    + split; [done|]. by intros [= -> _].
Qed.

#[local] Arguments strip_prefix : simpl never.
#[local] Arguments String.eqb : simpl never.

Definition dotless (s : string) : Prop := rsplit_once s = None.

Lemma rsplit_app n s : dotless s -> rsplit_once (n +:+ String dot s) = Some (n, s).
Proof.
  intros D. induction n as [|a n IH]; simpl; [by rewrite D|]. by rewrite IH.
Qed.

Lemma rsplit_inv x n s : rsplit_once x = Some (n, s) -> x = (n +:+ String dot s)%string /\ dotless s.
Proof.
  revert n s. induction x as [|a x IH]; intros n s; simpl; [done|].
  destruct (rsplit_once x) as [[l r]|] eqn:R.
  - intros [= <- <-]. destruct (IH l r eq_refl) as [-> D]. done.
  - destruct (Ascii.eqb_spec a dot) as [->|]; [|done]. by intros [= <- <-].
Qed.

(** The column and the field a path is of. *)
Definition is_column (p : string) : option (string * string) := rest ← strip_prefix "columns." p; rsplit_once rest.

Lemma is_column_path n s : dotless s -> is_column (path n s) = Some (n, s).
Proof.
  intros D. unfold is_column, path. rewrite (proj2 (strip_prefix_iff _ _ (n +:+ "." +:+ s)%string) eq_refl). simpl. by apply rsplit_app.
Qed.

Lemma is_column_inv p n s : is_column p = Some (n, s) -> p = path n s /\ dotless s.
Proof.
  unfold is_column. destruct (strip_prefix "columns." p) as [rest|] eqn:E; [|done]. simpl.
  intros [-> D]%rsplit_inv. apply strip_prefix_iff in E as ->. done.
Qed.

Lemma path_eqb p n s n' s' : is_column p = Some (n', s') -> dotless s -> String.eqb (path n s) p = String.eqb n n' && String.eqb s s'.
Proof.
  intros I D. pose proof (is_column_path n s D) as I'. apply is_column_inv in I as [-> D'].
  destruct (String.eqb_spec (path n s) (path n' s')) as [E|N].
  - rewrite E, is_column_path in I' by done. injection I' as -> ->. by rewrite !String.eqb_refl.
  - destruct (String.eqb_spec n n') as [->|]; [|done]. by destruct (String.eqb_spec s s') as [->|].
Qed.

Lemma not_column_eqb p n s : is_column p = None -> dotless s -> String.eqb (path n s) p = false.
Proof. intros I D. destruct (String.eqb_spec (path n s) p) as [<-|]; [|done]. by rewrite is_column_path in I. Qed.

(** ** Grouping by column *)

Section resolve.
Context (text_of_int : Z -> string).

(** A column's spec with the fields a map sets of it. *)
Definition over (f : ResolvedConfig) (n : string) (c : ColumnSpec) : ColumnSpec :=
  let field {A} (s : string) (read : json -> option A) (old : option A) :=
    match assoc (path n s) f with Some v => read v | None => old end in
  mkColumn (name c) (field "encoding"%string as_str (encoding c)) (field "dictionary"%string as_bool (dictionary c))
    (field "compression"%string as_str (compression c)) (field "bloom_fpp"%string (as_f64 text_of_int) (bloom_fpp c))
    (field "bloom_ndv"%string as_u64 (bloom_ndv c)) (field "physical_type"%string as_str (physical_type c)).

Definition touched (f : ResolvedConfig) (n : string) : bool :=
  List.existsb (fun e => match is_column e.1 with Some (n', _) => String.eqb n n' | None => false end) f.

Lemma over_cons_other p v f n c : (match is_column p with Some (n', _) => n <> n' | None => True end) ->
  over ((p, v) :: f) n c = over f n c.
Proof.
  intros I. unfold over. cbn [assoc].
  assert (E : forall s, dotless s -> String.eqb (path n s) p = false).
  { intros s D. destruct (is_column p) as [[n' s']|] eqn:C; [|by apply not_column_eqb].
    rewrite (path_eqb _ _ _ _ _ C D). destruct (String.eqb_spec n n'); [done|]. done. }
  by rewrite !E by done.
Qed.

Lemma over_cons_same p v f n s c c' : is_column p = Some (n, s) -> ~ List.In p (List.map fst f) ->
  set_field text_of_int c s v = Some c' -> over f n c' = over ((p, v) :: f) n c.
Proof.
  intros I N S. assert (A : assoc p f = None) by by apply assoc_not_In.
  apply is_column_inv in I as I'. destruct I' as [-> _]. unfold over. cbn [assoc]. rewrite !(path_eqb _ _ _ _ _ I), String.eqb_refl by done.
  destruct c as [cn ce cd cz cf cv cp]. unfold set_field in S.
  repeat (match type of S with context [String.eqb s ?x] => destruct (String.eqb_spec s x) as [->|] end;
    [injection S as <-; simpl; by rewrite A|]). done.
Qed.

Lemma over_untouched f n c : touched f n = false -> over f n c = c.
Proof.
  intros T. assert (E : forall s, dotless s -> assoc (path n s) f = None).
  { intros s D. apply assoc_not_In. intros ([p v] & E & I)%List.in_map_iff. simpl in E. subst p.
    apply not_true_iff_false in T. apply T, List.existsb_exists. exists (path n s, v). split; [done|].
    simpl. rewrite is_column_path by done. apply String.eqb_refl. }
  unfold over. rewrite !E by done. by destruct c.
Qed.

Lemma set_field_name c s v c' : set_field text_of_int c s v = Some c' -> name c' = name c.
Proof. destruct c. unfold set_field. intros H. repeat (case_match; [by injection H as <-|]). done. Qed.

Lemma group_spec f : NoDup (List.map fst f) -> forall m m', map_sorted m -> group_columns text_of_int f m = Ok m' ->
  map_sorted m' /\
  forall n, assoc n m' = if touched f n then Some (over f n (default (empty_column n) (assoc n m))) else assoc n m.
Proof.
  induction f as [|[p v] f IH]; simpl; intros ND m m' M G; [by injection G as <-|].
  apply NoDup_cons in ND as [N ND]. rewrite list_elem_of_In in N.
  destruct (is_column p) as [[n' s]|] eqn:C; unfold is_column in C; destruct (strip_prefix "columns." p) as [rest|] eqn:P; simpl in C.
  - rewrite C in G. destruct (set_field _ _ s v) as [c|] eqn:S; [|done].
    assert (C' : is_column p = Some (n', s)) by (unfold is_column; by rewrite P).
    destruct (IH ND _ _ (jinsert_sorted n' c m M) G) as [M' A]. split; [done|]. intros n. rewrite A, assoc_jinsert by done.
    destruct (String.eqb_spec n n') as [->|D]; simpl.
    + rewrite <-(over_cons_same _ _ _ _ _ _ _ C' N S).
      destruct (touched f n') eqn:T; [done|]. by rewrite over_untouched.
    + rewrite over_cons_other by (by rewrite C'). done.
  - done.
  - rewrite C in G. done.
  - destruct (IH ND _ _ M G) as [M' A]. split; [done|]. intros n. rewrite A. simpl.
    rewrite over_cons_other; [done|]. unfold is_column. by rewrite P.
Qed.
End resolve.

(** ** The map of a configuration *)

(** What a column writes under a field's suffix. *)
Definition field_of (c : ColumnSpec) (s : string) : option json :=
  if String.eqb s "encoding" then JString <$> encoding c
  else if String.eqb s "dictionary" then JBool <$> dictionary c
  else if String.eqb s "compression" then JString <$> compression c
  else if String.eqb s "bloom_fpp" then f64_json <$> bloom_fpp c
  else if String.eqb s "bloom_ndv" then jint <$> bloom_ndv c
  else if String.eqb s "physical_type" then JString <$> physical_type c
  else None.

Definition entry_of (c : ColumnSpec) (k : string) : option json :=
  match is_column k with Some (n, s) => if String.eqb n (name c) then field_of c s else None | None => None end.

(** Comparisons of closed strings, computed. *)
Ltac closed_eqb :=
  repeat match goal with
  | |- context [String.eqb ?a ?b] => let r := eval vm_compute in (String.eqb a b) in
      lazymatch r with true => change (String.eqb a b) with true | false => change (String.eqb a b) with false end
  end; cbv beta iota.

Lemma put_sorted {A} k (f : A -> json) o m : map_sorted m -> map_sorted (put k f o m).
Proof. intros M. destruct o; [by apply jinsert_sorted|done]. Qed.

Lemma assoc_put {A} k k' (f : A -> json) o m : map_sorted m ->
  assoc k' (put k f o m) = match (if String.eqb k' k then f <$> o else None) with Some v => Some v | None => assoc k' m end.
Proof.
  intros M. destruct o as [a|]; simpl.
  - rewrite assoc_jinsert by done. by destruct (String.eqb k' k).
  - by destruct (String.eqb k' k).
Qed.

Lemma put_column_spec m c : map_sorted m -> map_sorted (put_column m c) /\
  forall k, assoc k (put_column m c) = match entry_of c k with Some v => Some v | None => assoc k m end.
Proof.
  intros M. unfold put_column. cbv zeta. split; [by repeat apply put_sorted|]. intros k.
  rewrite !assoc_put by (by repeat apply put_sorted). unfold entry_of. rewrite !(String.eqb_sym k).
  destruct (is_column k) as [[n s]|] eqn:I.
  - rewrite !(path_eqb _ _ _ _ _ I), (String.eqb_sym n) by done. destruct (String.eqb (name c) n); [|done]. simpl. unfold field_of.
    rewrite !(String.eqb_sym s).
    repeat (match goal with |- context [String.eqb ?x s] => destruct (String.eqb x s) eqn:? end;
      [match goal with H : String.eqb _ s = true |- _ => apply String.eqb_eq in H; subst s end; closed_eqb; by destruct (_ <$> _)|]).
    done.
  - by rewrite !not_column_eqb.
Qed.

Lemma put_columns_spec cs m : map_sorted m -> map_sorted (List.fold_left put_column cs m) /\
  forall k, assoc k (List.fold_left put_column cs m) =
    List.fold_left (fun old c => match entry_of c k with Some v => Some v | None => old end) cs (assoc k m).
Proof.
  revert m. induction cs as [|c cs IH]; intros m M; simpl; [done|].
  destruct (put_column_spec m c M) as [M' A]. destruct (IH _ M') as [M'' A']. split; [done|]. intros k. by rewrite A', A.
Qed.

Lemma globals_sorted c : map_sorted (globals c).
Proof. unfold globals. repeat apply jinsert_sorted. constructor. Qed.

Lemma globals_not_columns c k : is_column k <> None -> assoc k (globals c) = None.
Proof.
  intros I. apply assoc_not_In. intros H. unfold globals in H. rewrite !jinsert_key_In in H. simpl in H.
  destruct_or?; subst k; done.
Qed.

(** Of columns of different names, one writes the entries under its name. *)
Lemma one_writer cs n s old : NoDup (List.map name cs) -> dotless s ->
  List.fold_left (fun old c => match entry_of c (path n s) with Some v => Some v | None => old end) cs old =
  match List.find (fun c => String.eqb n (name c)) cs with
  | Some c => match field_of c s with Some v => Some v | None => old end
  | None => old
  end.
Proof.
  intros ND D. revert old. induction cs as [|c cs IH]; intros old; simpl; [done|].
  apply NoDup_cons in ND as [N ND]. unfold entry_of at 2. rewrite is_column_path by done.
  destruct (String.eqb_spec n (name c)) as [->|E]; [|by apply IH].
  assert (Z : forall old, List.fold_left (fun old c0 => match entry_of c0 (path (name c) s) with Some v => Some v | None => old end) cs old = old).
  { clear IH ND. induction cs as [|c' cs IH]; intros o; simpl; [done|]. simpl in N. apply not_elem_of_cons in N as [N1 N2].
    unfold entry_of at 2. rewrite is_column_path by done. destruct (String.eqb_spec (name c) (name c')); [congruence|]. by apply IH. }
  by rewrite Z.
Qed.

Lemma assoc_config c k : assoc k (spec_to_config c) =
  List.fold_left (fun old col => match entry_of col k with Some v => Some v | None => old end) (w_columns c) (assoc k (globals c)).
Proof. by apply put_columns_spec, globals_sorted. Qed.

Lemma config_sorted c : map_sorted (spec_to_config c).
Proof. by apply put_columns_spec, globals_sorted. Qed.

Lemma assoc_global c k : is_column k = None -> assoc k (spec_to_config c) = assoc k (globals c).
Proof.
  intros I. rewrite assoc_config. generalize (assoc k (globals c)). induction (w_columns c) as [|col cs IH]; intros o; simpl; [done|].
  rewrite IH. unfold entry_of. by rewrite I.
Qed.

Lemma assoc_column c n s : NoDup (List.map name (w_columns c)) -> dotless s ->
  assoc (path n s) (spec_to_config c) = List.find (fun col => String.eqb n (name col)) (w_columns c) ≫= (fun col => field_of col s).
Proof.
  intros ND D. rewrite assoc_config, one_writer by done. rewrite globals_not_columns by (by rewrite is_column_path).
  destruct (List.find _ _) as [col|]; [|done]. simpl. by destruct (field_of col s).
Qed.

(** ** A configuration read back *)

Definition known_suffix (s : string) : Prop := s ∈ KNOWN_COLUMN_SUFFIXES.

Lemma known_dotless s : known_suffix s -> dotless s.
Proof. unfold known_suffix, KNOWN_COLUMN_SUFFIXES. rewrite !elem_of_cons, elem_of_nil. intros H. by destruct_or?; subst s. Qed.

Lemma field_known c s v : field_of c s = Some v -> known_suffix s.
Proof.
  unfold field_of, known_suffix, KNOWN_COLUMN_SUFFIXES. intros H.
  repeat (match type of H with context [String.eqb s ?x] => destruct (String.eqb s x) eqn:? end;
    [match goal with H' : String.eqb s _ = true |- _ => apply String.eqb_eq in H'; subst s end; set_solver|]). done.
Qed.

Lemma set_field_known text c s v : known_suffix s -> is_Some (set_field text c s v).
Proof.
  unfold known_suffix, KNOWN_COLUMN_SUFFIXES. rewrite !elem_of_cons, elem_of_nil. destruct c. intros H.
  by destruct_or?; subst s; eexists.
Qed.

Definition readable (p : string) : Prop :=
  strip_prefix "columns." p = None \/ exists n s, is_column p = Some (n, s) /\ known_suffix s.

Lemma group_ok text f : Forall readable (List.map fst f) -> forall m, exists m', group_columns text f m = Ok m'.
Proof.
  induction f as [|[p v] f IH]; simpl; intros F m; [eauto|]. inversion F as [|? ? R F']; subst.
  destruct R as [->|(n & s & C & K)]; [by apply IH|]. unfold is_column in C.
  destruct (strip_prefix "columns." p) as [rest|]; [|done]. simpl in C. rewrite C.
  destruct (set_field_known text (default (empty_column n) (assoc n m)) s v K) as [c ->]. by apply IH.
Qed.

Lemma config_keys c k v : assoc k (spec_to_config c) = Some v ->
  (exists col s, col ∈ w_columns c /\ is_column k = Some (name col, s) /\ known_suffix s) \/ assoc k (globals c) = Some v.
Proof.
  rewrite assoc_config. generalize (assoc k (globals c)). induction (w_columns c) as [|col cs IH]; intros o; simpl; [auto|].
  intros H. destruct (IH _ H) as [(col' & s & I & E)|E]; [left; exists col', s; set_solver|].
  destruct (entry_of col k) as [w|] eqn:N; [|auto]. left. unfold entry_of in N.
  destruct (is_column k) as [[n s]|] eqn:C; [|done]. destruct (String.eqb_spec n (name col)) as [->|]; [|done].
  exists col, s. split; [set_solver|]. split; [done|]. by eapply field_known.
Qed.

Lemma global_readable c k v : assoc k (globals c) = Some v -> strip_prefix "columns." k = None.
Proof.
  intros H%assoc_Some_In. apply (List.in_map fst) in H. unfold globals in H. rewrite !jinsert_key_In in H. simpl in H.
  by destruct_or?; subst k.
Qed.

Lemma sorted_nodup l : StronglySorted slt l -> NoDup l.
Proof.
  induction 1 as [|a l _ IH F]; constructor; [|done]. intros I. rewrite Forall_forall in F. by apply F, slt_irrefl in I.
Qed.

Lemma config_readable c : Forall readable (List.map fst (spec_to_config c)).
Proof.
  apply Forall_forall. intros k I. apply list_elem_of_In, List.in_map_iff in I as ([k' v] & <- & I). simpl.
  assert (A : assoc k' (spec_to_config c) = Some v).
  { apply assoc_In; [|done]. apply sorted_nodup, config_sorted. }
  destruct (config_keys _ _ _ A) as [(col & s & _ & C & K)|G]; [right; eauto|left; by eapply global_readable].
Qed.

Definition u64 (z : Z) : Prop := 0 <= z < 2 ^ 64.

(** A configuration its map tells apart: columns in order, each with a setting,
    no float that JSON cannot hold, sizes of 64 bits. *)
Record canonical (c : WriterConfig) : Prop := mkCanonical {
  cn_sorted : StronglySorted slt (List.map name (w_columns c));
  cn_set : Forall (fun col => exists s, is_Some (field_of col s)) (w_columns c);
  cn_fpp : Forall (fun col => forall t, bloom_fpp col <> Some (NonFinite t)) (w_columns c);
  cn_ndv : Forall (fun col => forall n, bloom_ndv col = Some n -> u64 n) (w_columns c);
  cn_sizes : Forall u64 [row_group_rows c; write_batch_rows c; data_page_bytes c; dictionary_page_bytes c];
}.

Lemma as_u64_jint z : u64 z -> as_u64 (jint z) = Some z.
Proof. unfold u64, as_u64, jint. intros U. by rewrite (proj2 (Z.leb_le _ _)), (proj2 (Z.ltb_lt _ _)) by lia. Qed.

Lemma find_name cs col : NoDup (List.map name cs) -> col ∈ cs -> List.find (fun c => String.eqb (name col) (name c)) cs = Some col.
Proof.
  induction cs as [|c cs IH]; simpl; intros ND I; [by apply elem_of_nil in I|]. apply NoDup_cons in ND as [N ND].
  apply elem_of_cons in I as [->|I]; [by rewrite String.eqb_refl|].
  destruct (String.eqb_spec (name col) (name c)) as [E|]; [|by apply IH]. exfalso. apply N. rewrite <-E.
  apply list_elem_of_In, List.in_map. by apply list_elem_of_In.
Qed.

(** What is read of a column's entries is the column. *)
Lemma over_config text c col : canonical c -> col ∈ w_columns c -> over text (spec_to_config c) (name col) (empty_column (name col)) = col.
Proof.
  intros K I. pose proof (sorted_nodup _ (cn_sorted _ K)) as ND. pose proof (cn_fpp _ K) as P. pose proof (cn_ndv _ K) as V.
  rewrite Forall_forall in P, V. specialize (P col I). specialize (V col I).
  unfold over. rewrite !assoc_column, !(find_name _ _ ND I) by done. cbn [option_bind mbind].
  destruct col as [n e d z fpp ndv pt]. cbn in P, V |- *. unfold field_of. closed_eqb. cbn.
  f_equal; [by destruct e|by destruct d|by destruct z| | |by destruct pt].
  - destruct fpp as [[t|t]|]; [done| |done]. by destruct (P t).
  - destruct ndv as [n'|]; [|done]. simpl. by apply as_u64_jint, V.
Qed.

Lemma touched_config c n : canonical c ->
  touched (spec_to_config c) n = match List.find (fun col => String.eqb n (name col)) (w_columns c) with Some _ => true | None => false end.
Proof.
  intros K. pose proof (sorted_nodup _ (cn_sorted _ K)) as ND. destruct (List.find _ _) as [col|] eqn:F.
  - apply List.find_some in F as [I E]. apply String.eqb_eq in E as ->. pose proof (cn_set _ K) as S. rewrite Forall_forall in S.
    destruct (S col) as [s [v Hv]]; [by apply list_elem_of_In|]. pose proof (known_dotless _ (field_known _ _ _ Hv)) as D.
    apply List.existsb_exists. exists (path (name col) s, v). simpl. rewrite is_column_path by done. split; [|apply String.eqb_refl].
    apply assoc_Some_In. rewrite assoc_column, find_name; try done. by apply list_elem_of_In.
  - apply not_true_iff_false. intros ([k v] & I & E)%List.existsb_exists. simpl in E.
    destruct (is_column k) as [[n' s]|] eqn:C; [|done]. apply String.eqb_eq in E as <-.
    apply assoc_In in I; [|apply sorted_nodup, config_sorted]. destruct (config_keys _ _ _ I) as [(col & s' & I' & C' & _)|G].
    + rewrite C in C'. injection C' as ->. by rewrite find_name in F.
    + apply global_readable in G. unfold is_column in C. by rewrite G in C.
Qed.

Lemma assoc_named cs n : assoc n (List.map (fun c => (name c, c)) cs) = List.find (fun c => String.eqb n (name c)) cs.
Proof. induction cs as [|c cs IH]; simpl; [done|]. by rewrite IH. Qed.

(** Nothing of a configuration is lost in the flat map the structural diff
    compares: read back it is the configuration that was written, every global
    setting and every setting of every column, whatever the columns' names. So two
    configurations of one map make the writer do the same. *)
Theorem config_round_trip text c : canonical c -> resolve text (spec_to_config c) = Ok c.
Proof.
  intros K. destruct (group_ok text (spec_to_config c) (config_readable c) []) as [m G]. unfold resolve. rewrite G. simpl.
  destruct (group_spec text (spec_to_config c) (sorted_nodup _ (config_sorted c)) [] m (SSorted_nil _) G) as [M A].
  assert (m = List.map (fun c => (name c, c)) (w_columns c)) as ->.
  { apply map_sorted_assoc_eq; [done| |].
    - unfold map_sorted. rewrite List.map_map. exact (cn_sorted _ K).
    - intros n. rewrite A, (touched_config _ _ K), assoc_named. destruct (List.find _ _) as [col|] eqn:F; [|done].
      apply List.find_some in F as [I E]. apply String.eqb_eq in E as ->. simpl. f_equal. apply over_config; [done|]. by apply list_elem_of_In. }
  pose proof (cn_sizes _ K) as Z. rewrite !Forall_cons in Z. destruct_and!. unfold get. rewrite !assoc_global by done.
  unfold globals. rewrite !assoc_jinsert by (repeat apply jinsert_sorted; constructor). closed_eqb.
  rewrite !as_u64_jint by done. cbn. rewrite List.map_map, List.map_id. by destruct c.
Qed.

(** Every column a map resolves to is the one its entries write. *)
Lemma resolved_columns text f c : NoDup (List.map fst f) -> resolve text f = Ok c ->
  exists m, w_columns c = List.map snd m /\ map_sorted m /\ List.map name (w_columns c) = List.map fst m /\
    forall n, assoc n m = if touched f n then Some (over text f n (empty_column n)) else None.
Proof.
  intros ND R. unfold resolve in R. destruct (group_columns text f []) as [m|] eqn:G; [|done]. simpl in R. inv_ok.
  destruct (group_spec text f ND [] m (SSorted_nil _) G) as [M A]. exists m. split_and!; [done|done| |done].
  simpl. rewrite List.map_map. apply List.map_ext_in. intros [k col] I. simpl.
  apply assoc_In in I; [|by apply sorted_nodup]. rewrite A in I. destruct (touched f k); [by injection I as <-|done].
Qed.

(** A change of a column's setting to a value of another type is not refused:
    the setting is dropped. The resolved configuration of such a map says nothing
    at the path: the column is written as if it had never been set. *)
Theorem mistyped_change_is_dropped text f n v c : NoDup (List.map fst f) -> resolve text f = Ok c ->
  assoc (path n "dictionary") f = Some v -> as_bool v = None ->
  assoc (path n "dictionary") (spec_to_config c) = None.
Proof.
  intros ND R A B. destruct (resolved_columns _ _ _ ND R) as (m & W & M & N & S).
  rewrite assoc_column by (done || by rewrite N; apply sorted_nodup).
  destruct (List.find _ _) as [col|] eqn:F; [|done]. simpl. apply List.find_some in F as [I E]. apply String.eqb_eq in E as ->.
  rewrite W in I. apply List.in_map_iff in I as ([k col'] & <- & I). simpl in A |- *.
  apply assoc_In in I as I'; [|by apply sorted_nodup]. rewrite S in I'. destruct (touched f k); [|done]. injection I' as <-.
  unfold field_of. closed_eqb. simpl in A |- *. by rewrite A, B.
Qed.

(** ** The structural diff *)

Lemma diff_complete a b p : assoc p a <> assoc p b -> p ∈ diff a b.
Proof.
  intros N. unfold diff. set (changed := List.filter _ a). set (added := List.filter _ b).
  assert (K : forall (l : list (string * json)) m, (exists v, List.In (p, v) l) \/ List.In p (List.map fst m) ->
    List.In p (List.map fst (List.fold_left (fun m e => jinsert e.1 tt m) l m))).
  { intros l. induction l as [|[k v] l IH]; intros m H; simpl; [destruct H as [[v []]|H]; done|]. apply IH.
    destruct H as [[w [E|I]]|H]; [injection E as -> ->| |]; rewrite ?jinsert_key_In; eauto. }
  apply list_elem_of_In, K. left. destruct (assoc p a) as [v|] eqn:A.
  - exists v. apply List.in_app_iff. left. apply List.filter_In. split; [by apply assoc_Some_In|]. simpl.
    apply negb_true_iff, bool_decide_eq_false. congruence.
  - destruct (assoc p b) as [w|] eqn:B; [|done]. exists w. apply List.in_app_iff. right. apply List.filter_In.
    split; [by apply assoc_Some_In|]. simpl. by apply bool_decide_eq_true.
Qed.

Lemma check_all_Ok {A} (bad : A -> bool) e l : check_all bad e l = Ok tt -> Forall (fun a => bad a = false) l.
Proof.
  unfold check_all. destruct (List.find bad l) as [a|] eqn:F; [done|]. intros _. apply Forall_forall. intros a I.
  apply (List.find_none _ _ F). by apply list_elem_of_In.
Qed.

(** ** Projections *)

Lemma min_of_le l : forall m, min_of l = Some m -> Forall (fun x => m <= x) l.
Proof.
  assert (H : forall l x, List.fold_left Z.min l x <= x /\ Forall (fun y => List.fold_left Z.min l x <= y) l).
  { clear l. induction l as [|y l IH]; intros x; simpl; [split; [lia|done]|]. destruct (IH (Z.min x y)) as [A B].
    split; [lia|]. constructor; [lia|done]. }
  destruct l as [|x l]; intros m; [done|]. simpl. intros [= <-]. destruct (H l x). by constructor.
Qed.

Lemma max_of_ge l : forall m, max_of l = Some m -> Forall (fun x => x <= m) l.
Proof.
  assert (H : forall l x, x <= List.fold_left Z.max l x /\ Forall (fun y => y <= List.fold_left Z.max l x) l).
  { clear l. induction l as [|y l IH]; intros x; simpl; [split; [lia|done]|]. destruct (IH (Z.max x y)) as [A B].
    split; [lia|]. constructor; [lia|done]. }
  destruct l as [|x l]; intros m; [done|]. simpl. intros [= <-]. destruct (H l x). by constructor.
Qed.

(** What passes the range check loses nothing in the cast. *)
Lemma checked_range column l lo hi l' : check_int_range column (Int64Array l) lo hi = Ok l' ->
  l' = l /\ forall v, Some v ∈ l -> lo <= v <= hi.
Proof.
  simpl. intros H.
  assert (B : match min_of (omap id l) with Some m => lo <= m | None => True end /\
              match max_of (omap id l) with Some m => m <= hi | None => True end /\ l' = l).
  { destruct (min_of _) as [m|], (max_of _) as [x|]; simpl in H;
      repeat match type of H with context [if ?b then _ else _] => destruct b eqn:? end; try discriminate H; injection H as <-;
      boolp; split_and!; done || lia. }
  destruct B as (B1 & B2 & ->). split; [done|]. intros v I.
  assert (J : v ∈ omap id l) by (apply list_elem_of_omap; by exists (Some v)).
  destruct (min_of (omap id l)) as [m|] eqn:Mn; [|destruct (omap id l); [by apply elem_of_nil in J|done]].
  destruct (max_of (omap id l)) as [x|] eqn:Mx; [|destruct (omap id l); [by apply elem_of_nil in J|done]].
  apply min_of_le in Mn. apply max_of_ge in Mx. rewrite Forall_forall in Mn, Mx. specialize (Mn v J). specialize (Mx v J). lia.
Qed.

Lemma cast_exact lo hi l : (forall v, Some v ∈ l -> lo <= v <= hi) -> cast_int lo hi l = l.
Proof.
  induction l as [|[v|] l IH]; intros R; simpl; [done| |]; rewrite IH by (intros w I; apply R; by right); [|done].
  destruct (R v) as [A B]; [left|]. by rewrite (proj2 (Z.leb_le _ _) A), (proj2 (Z.leb_le _ _) B).
Qed.

Lemma narrow_exact column lo hi to a a' : narrow column lo hi to a = Ok a' -> exists l, a = Int64Array l /\ a' = to l.
Proof.
  unfold narrow. destruct a as [l|l|l|l|u l|l|l|l|l|l|l|t]; try done. intros H.
  destruct (check_int_range column (Int64Array l) lo hi) as [l'|] eqn:C; [|done]. injection H as <-.
  apply checked_range in C as [-> R]. exists l. by rewrite cast_exact.
Qed.

Section projections.
Context (cast_to_ms : Array -> option Array).

(** The declared type a projection asks for. *)
Definition asks (t : PhysicalType) : LogicalType :=
  match t with TimestampMs => TimestampMillis | Date32 => DateDays | _ => SignedInt end.

Lemma projected_encoder n a t a' logical e :
  project_column cast_to_ms n a t = Ok a' -> logical = asks t -> (t = TimestampMs -> data_type_of a = DInt64) ->
  encoder_for n logical a = Ok e -> encoder_for n logical a' = Ok e.
Proof.
  intros P -> D E. destruct t; simpl in P, E |- *;
    try (apply narrow_exact in P as (l & -> & ->); simpl in *; exact E).
  specialize (D eq_refl). destruct a as [l|l|l|l|u l|l|l|l|l|l|l|t]; try done. by injection P as <-.
Qed.

(** The values of a column under the type asked for: the same, one for one. *)
Definition recast (t : PhysicalType) (a a' : Array) : Prop :=
  match t with
  | Int8 => exists l, a = Int64Array l /\ a' = Int8Array l
  | Int16 => exists l, a = Int64Array l /\ a' = Int16Array l
  | Int32 => exists l, a = Int64Array l /\ a' = Int32Array l
  | Int64 => exists l, a = Int64Array l /\ a' = Int64Array l
  | Date32 => exists l, a = Int64Array l /\ a' = Date32Array l
  | TimestampMs => (exists l, a = Int64Array l /\ a' = TimestampArray Millisecond l) \/ cast_to_ms a = Some a'
  end.

(** A batch with every row of another, in order: the columns projected hold the
    same values in their new types, the others are untouched. *)
Definition values_kept (ps : list (string * PhysicalType)) (b p : Batch) : Prop :=
  num_rows p = num_rows b /\
  Forall2 (fun c c' => c'.1 = c.1 /\ match assoc c.1 ps with None => c'.2 = c.2 | Some t => recast t c.2 c'.2 end)
    (columns b) (columns p).

Lemma project_column_recast n a t a' : project_column cast_to_ms n a t = Ok a' -> recast t a a'.
Proof.
  destruct t; simpl; try apply narrow_exact. intros H.
  destruct a; simpl in H; try (by left; injection H as <-; eauto);
    right; by destruct (cast_to_ms _) as [x|]; simpl in H; [injection H as ->|].
Qed.

Lemma project_batch_values ps b p : project_batch cast_to_ms b ps = Ok p -> values_kept ps b p.
Proof.
  unfold project_batch. intros P. inv_ok. split; [done|]. apply mapr_Forall2 in E. simpl.
  eapply Forall2_impl; [exact E|]. intros [n x] [n' x'] H. simpl. destruct (assoc n ps) as [t|]; [|by injection H as <- <-].
  apply rbind_Ok in H as (y & H & Q). injection Q as <- <-. split; [done|]. by eapply project_column_recast.
Qed.

(** A batch has the columns of its file's schema. *)
Definition of_schema (schema : list Field) (b : Batch) : Prop :=
  List.map (fun c => (c.1, data_type_of c.2)) (columns b) = List.map (fun f => (f_name f, data_type f)) schema.

Lemma find_field schema n d : NoDup (List.map f_name schema) -> (n, d) ∈ List.map (fun f => (f_name f, data_type f)) schema ->
  exists f, List.find (fun f => String.eqb (f_name f) n) schema = Some f /\ data_type f = d.
Proof.
  induction schema as [|f schema IH]; simpl; intros ND I; [by apply elem_of_nil in I|]. apply NoDup_cons in ND as [N ND].
  destruct (String.eqb_spec (f_name f) n) as [E|E].
  - exists f. split; [done|]. apply elem_of_cons in I as [I|I]; [by injection I|]. exfalso. apply N. rewrite E.
    apply list_elem_of_In, List.in_map_iff in I as (f' & Q & I). injection Q as <- _. apply list_elem_of_In, List.in_map, I.
  - apply elem_of_cons in I as [I|I]; [by injection I as -> _|]. by apply IH.
Qed.

Lemma projection_asked ps declared schema n t : validate_projections ps declared schema = Ok tt -> assoc n ps = Some t ->
  assoc n declared = Some (asks t) /\
  (t = TimestampMs -> exists f, List.find (fun f => String.eqb (f_name f) n) schema = Some f /\ data_type f = DInt64).
Proof.
  unfold validate_projections. intros V A. inv_ok. apply mapr_Forall2 in E. apply assoc_Some_In in A.
  assert (H : validate_projection declared schema (n, t) = Ok tt).
  { clear -E A. induction E as [|x u l k H _ IH]; [done|]. destruct A as [->|A]; [by destruct u|by apply IH]. }
  unfold validate_projection in H. destruct (List.find _ schema) as [f|] eqn:F; [|done]. simpl in H.
  destruct t; simpl in H; repeat (case_bool_decide; simpl in H; [|done]); split; try done; intros; eauto.
Qed.

Lemma projected_encoders ps declared schema whole whole' cols cols' ls es :
  validate_projections ps declared schema = Ok tt -> NoDup (List.map f_name schema) ->
  Forall (fun c => (c.1, data_type_of c.2) ∈ List.map (fun f => (f_name f, data_type f)) schema) cols ->
  Forall (fun d => assoc d.1 declared = Some d.2) ls ->
  mapr (fun '(n, a) => match assoc n ps with None => Ok (n, a) | Some t => let? a := project_column cast_to_ms n a t in Ok (n, a) end) cols = Ok cols' ->
  encoders_of whole cols ls = Ok es -> encoders_of whole' cols' ls = Ok es.
Proof.
  intros V ND. revert cols' ls es. induction cols as [|[n a] cols IH]; intros cols' [|[d l] ls] es F D M E; simpl in M;
    [injection M as <-; exact E|injection M as <-; exact E| |]; inv_ok; [by destruct a0|].
  apply Forall_cons in F as [F1 F]. apply Forall_cons in D as [D1 D]. simpl in E, F1, D1.
  destruct (String.eqb_spec n d) as [->|]; [|done]. simpl in E. inv_ok.
  assert (Q : exists a', a0 = (d, a') /\ encoder_for d l a' = Ok a2).
  { destruct (assoc d ps) as [t|] eqn:A; [|by injection E0 as <-; eauto]. inv_ok. eexists. split; [done|].
    destruct (projection_asked _ _ _ _ _ V A) as [K T]. eapply projected_encoder; [done|congruence| |done]. intros ->.
    destruct (find_field _ _ _ ND F1) as (f & Ff & <-). destruct (T eq_refl) as (f' & Ff' & <-). congruence. }
  destruct Q as (a' & -> & Q). simpl. rewrite String.eqb_refl. simpl. rewrite Q. simpl. erewrite IH; done.
Qed.

Lemma projected_length ps (cols cols' : list (string * Array)) :
  mapr (fun '(n, a) => match assoc n ps with None => Ok (n, a) | Some t => let? a := project_column cast_to_ms n a t in Ok (n, a) end) cols = Ok cols' ->
  length cols' = length cols.
Proof. intros M%mapr_Forall2. symmetry. by eapply Forall2_length. Qed.

(** A projection that is accepted and that fits gives the fingerprint of the
    batch it was made of. *)
Lemma projected_update blake3 ps declared schema ls b p m m' :
  validate_projections ps declared schema = Ok tt -> NoDup (List.map f_name schema) -> of_schema schema b ->
  Forall (fun d => assoc d.1 declared = Some d.2) ls ->
  project_batch cast_to_ms b ps = Ok p -> logical_update blake3 ls m b = Ok m' -> logical_update blake3 ls m p = Ok m'.
Proof.
  intros V ND O D P U. unfold project_batch in P. inv_ok. unfold logical_update, column_encoders in U |- *.
  cbn [columns num_rows]. rewrite (projected_length _ _ _ E). destruct (Nat.eqb _ _); [|done]. simpl in U |- *.
  destruct (encoders_of _ (columns b) ls) as [es|] eqn:Es; [|done]. simpl in U.
  assert (F : Forall (fun c => (c.1, data_type_of c.2) ∈ List.map (fun f => (f_name f, data_type f)) schema) (columns b)).
  { rewrite <-O. apply Forall_forall. intros c I. apply list_elem_of_In.
    apply (List.in_map (fun c => (c.1, data_type_of c.2))). by apply list_elem_of_In. }
  by rewrite (projected_encoders _ _ _ _ _ _ _ _ _ V ND F D E Es).
Qed.

Context (accepts : Props -> list Field -> list Batch -> bool).

Lemma written_logical blake3 props out_schema ps declared schema ls batches :
  validate_projections ps declared schema = Ok tt -> NoDup (List.map f_name schema) -> Forall (of_schema schema) batches ->
  Forall (fun d => assoc d.1 declared = Some d.2) ls ->
  forall written n m w n' l m', write_batches cast_to_ms accepts blake3 props out_schema ps ls batches written n m = Ok (w, n', l) ->
  FingerprintsSpec.logical_updates blake3 ls batches m = Ok m' -> l = m'.
Proof.
  intros V ND F D. induction F as [|b batches O F IH]; intros written n m w n' l m' W U; simpl in W, U.
  - injection W as _ _ <-. by injection U.
  - inv_ok. rewrite (projected_update _ _ _ _ _ _ _ _ _ V ND O D E0 E) in E1. injection E1 as <-. by eapply IH.
Qed.

(** The loop hands the writer every batch, projected, and counts its rows. *)
Lemma write_batches_written blake3 props out_schema ps ls batches : forall written n m w n' l,
  write_batches cast_to_ms accepts blake3 props out_schema ps ls batches written n m = Ok (w, n', l) ->
  exists projected, w = written ++ projected /\ Forall2 (values_kept ps) batches projected /\
    n' = n + Z.of_nat (list_sum (num_rows <$> projected)).
Proof.
  induction batches as [|b batches IH]; intros written n m w n' l W; simpl in W.
  - injection W as <- <- _. exists []. rewrite app_nil_r. split_and!; [done|constructor|simpl; lia].
  - inv_ok. apply IH in W as (projected & -> & F & ->). exists (a :: projected). rewrite <-app_assoc.
    split_and!; [done|constructor; [by apply project_batch_values|done]|]. rewrite fmap_cons.
    change (list_sum (num_rows a :: (num_rows <$> projected))) with (num_rows a + list_sum (num_rows <$> projected))%nat. lia.
Qed.
End projections.

(** ** A whole control *)

Section control.
Context (cast_to_ms : Array -> option Array).
Context (decode : bytes -> option (list Field * Z * list Batch)).
Context (accepts : Props -> list Field -> list Batch -> bool).
Context (closes : Props -> list Field -> list Batch -> option bytes).
Context (footer : bytes -> option (list (list (string * ResolvedColumn)))).
Context (blake3 : bytes -> bytes) (hex : bytes -> string) (zstd_level : Z -> bool).

#[local] Notation rewrite_file := (rewrite_file cast_to_ms decode accepts closes footer blake3 hex zstd_level).
#[local] Notation rewrite_loop := (rewrite_loop cast_to_ms decode accepts closes footer blake3 hex zstd_level).
#[local] Notation rewrite_all := (rewrite_all cast_to_ms decode accepts closes footer blake3 hex zstd_level).
#[local] Notation digest_bytes := (digest_bytes blake3 hex).

(** One file rewritten: the bytes read were those the manifest names; every
    batch of them, each value kept, was handed to the Parquet writer set up as
    configured, in order; and the manifest describes the bytes it made of them,
    with as many rows as there were. *)
Record rewritten_file (read : string -> option bytes) (config : WriterConfig) (ps : list (string * PhysicalType)) (key : list string)
    (out : string) (i : string * FileDigest) (f : VariantFileMap) : Prop := mkIsRewritten {
  rn_input : fm_input f = i.2;
  rn_bytes : exists input schema batches projected props bytes,
    read i.1 = Some input /\ digest_bytes input = fd_digest i.2 /\
    decode input = Some (schema, input_rows f, batches) /\
    Forall2 (values_kept cast_to_ms ps) batches projected /\
    writer_properties zstd_level config (sorting_columns (projected_schema schema ps) key) = Ok props /\
    closes props (projected_schema schema ps) projected = Some bytes /\
    fm_output f = digest_of blake3 hex out bytes /\
    output_rows f = Z.of_nat (list_sum (num_rows <$> projected));
  rn_rows : output_rows f = input_rows f;
}.

(** Each file of a control is rewritten once, in the manifest's order, to the
    next name. *)
Definition rewritten (read : string -> option bytes) (config : WriterConfig) (ps : list (string * PhysicalType)) (key : list string)
    (inputs : list (string * FileDigest)) (files : list VariantFileMap) (first : nat) : Prop :=
  length files = length inputs /\
  forall k i f, inputs !! k = Some i -> files !! k = Some f -> rewritten_file read config ps key (out_rel (first + k)) i f.

Lemma rewrite_file_written read rel d input out config ps declared key ls m f l :
  read rel = Some input -> verify blake3 hex d rel input = Ok tt ->
  rewrite_file d input out config ps declared key ls m = Ok (f, l) ->
  rewritten_file read config ps key out (rel, d) (rw_map f).
Proof.
  intros Rd Vf. unfold Variants.rewrite_file, write_projected. intros H. destruct (decode input) as [[[schema n] batches]|] eqn:D; [|done]. simpl in H.
  destruct (validate_projections ps declared schema); [|done]. simpl in H.
  destruct (writer_properties _ _ _) as [props|] eqn:Pr; [|done]. simpl in H.
  destruct (write_batches _ _ _ _ _ _ _ _ _ _ _) as [[[w n'] l']|] eqn:W; [|done]. simpl in H.
  apply write_batches_written in W as (projected & -> & F & ->). simpl in H.
  destruct (closes _ _ _) as [bytes|] eqn:Cl; [|done]. simpl in H.
  destruct (negb _) eqn:E; [done|]. boolp. simpl in E. destruct (resolve_footer _ _) as [cols|]; [|done]. injection H as <- <-.
  constructor; simpl; [done| |done]. exists input, schema, batches, projected, props, bytes. split_and!; try done.
  unfold verify in Vf.
  by destruct (String.eqb_spec (digest_bytes input) (fd_digest d)).
Qed.

Lemma loop_rewritten read inputs config ps declared key ls : forall i out out',
  rewrite_loop read inputs i config ps declared key ls out = Ok out' ->
  exists files, file_maps out' = file_maps out ++ files /\ rewritten read config ps key inputs files i.
Proof.
  induction inputs as [|[rel d] inputs IH]; intros i out out' R; simpl in R.
  - injection R as <-. exists []. rewrite app_nil_r. split; [done|]. by split.
  - inv_ok. destruct a1 as [f l]. apply IH in R as (files & -> & L & F).
    exists (rw_map f :: files). simpl. rewrite <-app_assoc. split; [done|]. split; [simpl; congruence|].
    destruct (read rel) as [b|] eqn:Rd; simpl in E; [injection E as ->|done].
    destruct (verify blake3 hex d rel a) as [[]|] eqn:Vf; [|done].
    intros [|k] i' f' Hi Hf; simpl in Hi, Hf.
    + injection Hi as <-. injection Hf as <-. rewrite Nat.add_0_r. by eapply rewrite_file_written.
    + rewrite Nat.add_succ_r. by apply F.
Qed.

(** The rows of a control, in order. *)
Definition batches_of (read : string -> option bytes) (i : string * FileDigest) : list Batch :=
  match read i.1 ≫= decode with Some (_, _, bs) => bs | None => [] end.
Definition source_batches (read : string -> option bytes) (inputs : list (string * FileDigest)) : list Batch :=
  List.flat_map (batches_of read) inputs.

(** A decoded file's batches have its schema's columns, of different names. *)
Definition decodes_well : Prop := forall b schema n bs, decode b = Some (schema, n, bs) ->
  NoDup (List.map f_name schema) /\ Forall (of_schema schema) bs.

Lemma updates_app ls l k : forall m, FingerprintsSpec.logical_updates blake3 ls (l ++ k) m =
  let? m := FingerprintsSpec.logical_updates blake3 ls l m in FingerprintsSpec.logical_updates blake3 ls k m.
Proof. induction l as [|b l IH]; intros m; simpl; [done|]. destruct (logical_update blake3 ls m b); simpl; [apply IH|done]. Qed.

Lemma rewrite_file_logical d input out config ps declared key ls m f l schema n bs m' :
  decodes_well -> decode input = Some (schema, n, bs) -> Forall (fun d => assoc d.1 declared = Some d.2) ls ->
  rewrite_file d input out config ps declared key ls m = Ok (f, l) -> FingerprintsSpec.logical_updates blake3 ls bs m = Ok m' -> l = m'.
Proof.
  intros W D A. unfold Variants.rewrite_file. rewrite D. simpl. destruct (W _ _ _ _ D) as [ND O]. intros H U.
  destruct (validate_projections ps declared schema) as [[]|] eqn:V; [|done]. simpl in H.
  destruct (writer_properties _ _ _) as [props|]; [|done]. simpl in H. unfold write_projected in H. rewrite D in H. simpl in H.
  destruct (write_batches _ _ _ _ _ _ _ _ _ _ _) as [[[w n'] l']|] eqn:Wr; [|done]. simpl in H.
  destruct (closes _ _ _); [|done]. simpl in H. destruct (negb _); [done|]. destruct (resolve_footer _ _); [|done].
  injection H as _ <-. by eapply written_logical.
Qed.

Lemma loop_logical read inputs config ps declared key ls : decodes_well -> Forall (fun d => assoc d.1 declared = Some d.2) ls ->
  forall i out out' m, rewrite_loop read inputs i config ps declared key ls out = Ok out' ->
  FingerprintsSpec.logical_updates blake3 ls (source_batches read inputs) (logical out) = Ok m -> logical out' = m.
Proof.
  intros W A. induction inputs as [|[rel d] inputs IH]; intros i out out' m R U; simpl in R, U.
  - injection R as <-. by injection U.
  - inv_ok. destruct a1 as [f l]. rewrite updates_app in U. inv_ok. unfold batches_of in E2. simpl in E2.
    destruct (read rel) as [b|]; simpl in E, E2; [|done]. injection E as ->.
    destruct (decode a) as [[[schema n] bs]|] eqn:D; [|unfold Variants.rewrite_file in E1; rewrite D in E1; done].
    apply (IH _ _ _ _ R). simpl. by rewrite (rewrite_file_logical _ _ _ _ _ _ _ _ _ _ _ _ _ _ _ W D A E1 E2).
Qed.

(** A rewrite keeps every logical value: whatever the encodings, codecs and
    projected physical types a configuration asks for, a rewrite that succeeds
    folds into the fingerprint that of the rows it read, in the types the control
    declares, however the rows were spread over its files, and hands every one of
    those rows, its values kept, to the writer of its file. A column too wide for
    the type asked for fails the rewrite; it never changes the fingerprint. *)
Theorem rewrite_keeps_the_rows read inputs config declared key ls out m :
  decodes_well -> Forall (fun d => assoc d.1 declared = Some d.2) ls ->
  rewrite_all read inputs config declared key ls = Ok out ->
  FingerprintsSpec.logical_updates blake3 ls (source_batches read inputs) default_multiset = Ok m ->
  logical out = m /\ exists ps, projections config = Ok ps /\ rewritten read config ps key inputs (file_maps out) 0.
Proof.
  intros W A R U. unfold Variants.rewrite_all in R. inv_ok. split; [by apply (loop_logical _ _ _ _ _ _ _ W A _ _ _ _ R)|].
  apply loop_rewritten in R as (files & -> & F). by exists a.
Qed.


Context (to_toml : VariantSpec -> option string) (from_toml : string -> option VariantSpec).
Context (parse_toml : string -> option toml) (text_of_int : Z -> string).
Context (parse_reconstruction : bytes -> option ReconstructionManifest).

#[local] Notation run_vary := (run_vary cast_to_ms decode accepts closes footer blake3 hex zstd_level to_toml from_toml parse_toml text_of_int
  parse_reconstruction).

Lemma checked_files files : forall seen, check_files files seen = Ok tt ->
  NoDup (List.map (fun f => fd_path (fm_output f)) files) /\ Forall (fun f => fd_path (fm_output f) ∉ seen) files.
Proof.
  induction files as [|f files IH]; intros seen C; simpl in C |- *; [split; constructor|].
  destruct (check_relative_path _) as [[]|]; [|done]. simpl in C. case_bool_decide as S; [done|]. apply IH in C as [N F].
  rewrite Forall_forall in F. split.
  - constructor; [|done]. intros I. apply list_elem_of_In, List.in_map_iff in I as (g & E & I%list_elem_of_In).
    apply (F g I). rewrite E. left.
  - constructor; [done|]. apply Forall_forall. intros g I J. apply (F g I). by right.
Qed.

(** What a published variant has been held to. *)
Record declared_delta (place : Place) (raw : bytes) (reco : ReconstructionManifest) (m : VariantDeltaManifest) : Prop := mkDeclaredDelta {
  dd_parent : parent_reconstruction_digest m = digest_bytes raw;
  dd_paths : forall p, p ∉ allowed_changes m -> assoc p (dl_config m) = assoc p (rc_config reco);
  dd_known : Forall (fun p => is_known_config_path p = true) (allowed_changes m);
  dd_declared : Forall (fun c => c.1 ∈ allowed_changes m) (changes m);
  dd_rows : rows (dl_fingerprint m) = rows (rc_fingerprint reco);
  dd_files : exists child ps, dl_config m = spec_to_config child /\ projections child = Ok ps /\
    rewritten (read_file place) child ps (rc_sort_key reco) (of_outputs (rc_files reco)) (dl_files m) 0;
  dd_names : NoDup (List.map (fun f => fd_path (fm_output f)) (dl_files m));
  dd_place : output_state place <> NonEmptyDir;
}.

(** C38: A variant is published only if it is the experiment it declares: its writer
    differs from its parent control's at no path outside its allow-list, every path
    of which names a setting of the writer; its logical rows are its parent's; each
    of the parent's files, checked against the digest the parent recorded, was
    rewritten once, in order, under a name of its own, to the bytes that the
    Parquet writer, set up as the variant's configuration says, makes of all its
    rows -- every batch handed over, its values kept in the types asked for; and
    nothing was there to be replaced. *)
Theorem vary_changes_what_it_declares place reconstruction delta m : run_vary place reconstruction delta = Ok m ->
  exists raw reco, reconstruction = Some raw /\ parse_reconstruction raw = Some reco /\ declared_delta place raw reco m.
Proof.
  unfold Variants.run_vary. intros H. destruct (refuse_write_into _ _ _); [|done]. simpl in H.
  destruct reconstruction as [raw|]; [|done]. simpl in H. destruct (parse_reconstruction raw) as [reco|] eqn:P; [|done]. simpl in H.
  exists raw, reco. split_and!; try done. inv_ok. destruct a5 as [schema declared]. inv_ok.
  destruct (agrees_with _ (rc_fingerprint reco)) eqn:Ag; [|done]. simpl in H. inv_ok. destruct a7, a8, a9.
  match type of E7 with context [validate_delta ?x] => destruct (validate_delta x) as [[]|] eqn:V; [|done] end.
  match type of E8 with context [check_against_reconstruction ?x ?y ?z] =>
    destruct (check_against_reconstruction x y z) as [[]|] eqn:C; [|done] end.
  unfold check_against_reconstruction in C. destruct (negb _); [done|]. apply check_all_Ok in C. rewrite Forall_forall in C.
  unfold validate_delta in V. inv_ok. destruct a7, a8. apply check_all_Ok in E10, E11. apply checked_files in V as [N _].
  unfold Variants.rewrite_all in E5. inv_ok. apply loop_rewritten in E5 as (files & F & R). simpl in F. subst files.
  constructor; simpl in *; try done.
  - intros p I. destruct (decide (assoc p (rc_config reco) = assoc p (spec_to_config (to_writer_config a4)))) as [|D]; [done|].
    apply diff_complete, C in D. apply negb_false_iff, bool_decide_eq_true in D. done.
  - apply (Forall_impl _ _ _ E10). intros p. apply negb_false_iff.
  - apply Forall_forall. intros c I. rewrite Forall_forall in E11. specialize (E11 c.1). rewrite negb_false_iff, bool_decide_eq_true in E11.
    apply E11. apply list_elem_of_In, List.in_map. by apply list_elem_of_In.
  - unfold agrees_with in Ag. apply andb_prop in Ag as [_ Ag]. by apply bool_decide_eq_true in Ag.
  - eexists _, _. split_and!; [done|exact E12|exact R].
  - intros Z. by rewrite Z in E9.
Qed.
End control.

(** ** The guard of the controls *)

(** A file system: the directories there are, by their real paths, and the
    process's own; the empty path names nothing. *)
Definition canonical_in (dirs : list (list string)) (cwd : list string) (p : Path) : option (list string) :=
  let real := if absolute p then components p else cwd ++ components p in
  if negb (absolute p) && bool_decide (components p = []) then None
  else if bool_decide (real ∈ dirs) then Some real else None.

Lemma starts_below control rest : control <> [] -> starts_with (mkPath true (control ++ rest)) (mkPath true control) = true.
Proof.
  intros N. unfold starts_with. simpl. rewrite take_app_length. by apply bool_decide_eq_true.
Qed.

Lemma resolve_there canon o rc c tail : canon (mkPath (absolute o) (rev rc)) = Some c ->
  resolve_path canon o rc tail = mkPath true (c ++ tail).
Proof. intros E. destruct rc; unfold resolve_path; by rewrite E. Qed.

Lemma resolve_new canon o n rc tail : canon (mkPath (absolute o) (rev (n :: rc))) = None -> n <> ".."%string ->
  resolve_path canon o (n :: rc) tail = resolve_path canon o rc (n :: tail).
Proof. intros E N%String.eqb_neq. cbn [resolve_path]. by rewrite E, N. Qed.

Lemma real_of_there dirs cwd p : p ∈ dirs -> canonical_in dirs cwd (mkPath true p) = Some p.
Proof. intros I. unfold canonical_in. simpl. by rewrite bool_decide_eq_true_2. Qed.

Lemma absent_nowhere dirs cwd p : p ∉ dirs -> canonical_in dirs cwd (mkPath true p) = None.
Proof. intros I. unfold canonical_in. simpl. by rewrite bool_decide_eq_false_2. Qed.

Lemma absent_bare dirs cwd p : cwd ++ p ∉ dirs -> canonical_in dirs cwd (mkPath false p) = None.
Proof. intros I. unfold canonical_in. cbn [absolute components negb andb]. rewrite (bool_decide_eq_false_2 (cwd ++ p ∈ dirs)) by done. by destruct (bool_decide _). Qed.

(** The control's directory is guarded against an output named in full and not
    against the same output named from inside it: a process running in the control
    is refused the new directory by its absolute path, and is given it, the
    control's own subdirectory, by its bare name. *)
Theorem bare_output_is_not_refused dirs cwd control rest n :
  control <> [] -> cwd = control ++ rest -> control ∈ dirs -> cwd ∈ dirs -> cwd ++ [n] ∉ dirs -> n <> ".."%string ->
  refuse_write_into (canonical_in dirs cwd) (mkPath true control) (mkPath true (cwd ++ [n])) = Err ImmutableControl /\
  refuse_write_into (canonical_in dirs cwd) (mkPath true control) (mkPath false [n]) = Ok tt.
Proof.
  intros C E Dc Dw Dn N. unfold refuse_write_into. cbn [components absolute].
  rewrite (real_of_there _ _ control) by done. rewrite rev_app_distr. simpl (rev [n] ++ _). change (rev [n]) with [n]. split.
  - rewrite resolve_new by (done || simpl; rewrite rev_involutive; by apply absent_nowhere).
    rewrite (resolve_there _ _ _ cwd) by (simpl; rewrite rev_involutive; by apply real_of_there).
    rewrite E, <-app_assoc. by rewrite starts_below.
  - rewrite resolve_new by (done || by apply (absent_bare dirs cwd [n])). done.
Qed.

(** A manifest named without a directory: its parent is the empty path, which
    exists nowhere and begins every path, so every output is refused. *)
Lemma bare_manifest_refuses_every_output canon output : canon (mkPath false []) = None ->
  refuse_write_into canon (mkPath false []) output = Err ImmutableControl.
Proof. intros E. unfold refuse_write_into. by rewrite E. Qed.

(** ** A control of two files *)

Module demo.
(** A file is the list of its values; its footer tells its codec. *)
Definition schema : list Field := [mkField "x" DInt64 true].
Definition decode (b : bytes) : option (list Field * Z * list Batch) :=
  Some (schema, Z.of_nat (length b), [mkBatch [("x"%string, Int64Array (List.map Some b))] (length b)]).
Definition values (b : Batch) : list Z :=
  List.flat_map (fun c => match c.2 with Int64Array l | Int8Array l => omap id l | _ => [] end) (columns b).
Definition closes (_ : Props) (_ : list Field) (bs : list Batch) : option bytes := Some (List.flat_map values bs).
Definition footer (b : bytes) : option (list (list (string * ResolvedColumn))) :=
  Some [[("x"%string, mkResolved ["RLE_DICTIONARY"%string] true "ZSTD(ZstdLevel(3))" (Z.of_nat (length b)) false)]].
Definition hex (b : bytes) : string := String.concat "," (List.map pretty b).
Definition digest (p : string) (b : bytes) : FileDigest := digest_of FingerprintsSpec.toy_blake3 hex p b.

Definition column : ColumnSpec := mkColumn "x" (Some "plain"%string) (Some false) None (Some (Finite "0.01"%string)) (Some 1000) None.
Definition parent : WriterConfig := mkConfig 1048576 false 1024 1048576 1048576 "page" true "zstd(3)" [column].
Definition child : WriterConfig := mkConfig 1048576 false 1024 1048576 1048576 "page" true "zstd(3)"
  [mkColumn "x" (Some "plain"%string) (Some true) None (Some (Finite "0.01"%string)) (Some 1000) (Some "int8"%string)].

Definition ls : LogicalSchema := [("x"%string, SignedInt)].
Definition control (rel : string) : option bytes :=
  if String.eqb rel "parquet/part-00000.parquet" then Some [3; -5] else if String.eqb rel "parquet/part-00001.parquet" then Some [127] else None.
Definition inputs : list (string * FileDigest) :=
  [("parquet/part-00000.parquet", digest "parquet/part-00000.parquet" [3; -5]);
   ("parquet/part-00001.parquet", digest "parquet/part-00001.parquet" [127])]%string.
Definition batches : list Batch := source_batches decode control inputs.
Definition multiset : RowMultiset :=
  match FingerprintsSpec.logical_updates FingerprintsSpec.toy_blake3 ls batches default_multiset with Ok m => m | Err _ => default_multiset end.

Definition reco : ReconstructionManifest := mkReconstruction "p" "b" "control" (spec_to_config parent) (spec_to_config parent)
  [("x"%string, JString "signed_int"%string)] ["x"%string] (JObject [("fields", JArray [JObject [("name", JString "x")]])]%string)
  (to_fingerprint multiset) (List.map (fun i => mkFileMap i.2 i.2 1 1) inputs).
Definition delta : toml :=
  TTable [("label", TLeaf (JString "narrow"));
          ("allowed_changes", TLeaf (JArray [JString "columns.x.dictionary"; JString "columns.x.physical_type"]));
          ("changes", TTable [("columns", TTable [("x", TTable [("dictionary", TLeaf (JBool true)); ("physical_type", TLeaf (JString "int8"))])])])]%string.

Definition root : list string := ["data"; "control"]%string.
Definition place : Place := mkPlace (canonical_in [root] root) (mkPath true root) (mkPath true ["data"; "narrow"]%string) Absent control.
Definition published : result VariantDeltaManifest VariantError :=
  run_vary (fun _ => None) decode (fun _ _ _ => true) closes footer FingerprintsSpec.toy_blake3 hex (fun _ => true) (fun _ => Some "spec"%string)
    (fun _ => Some (mkSpec "narrow" child)) (fun _ => Some delta) pretty (fun _ => Some reco) place (Some [1]) (Some "delta"%string).
End demo.

Lemma demo_publishes : exists m, demo.published = Ok m.
Proof. vm_compute. eexists. reflexivity. Qed.

Lemma vary_changes_what_it_declares_witness : exists m raw reco, demo.published = Ok m /\
  declared_delta (fun _ => None) demo.decode demo.closes FingerprintsSpec.toy_blake3 demo.hex (fun _ => true) demo.place raw reco m.
Proof.
  destruct demo_publishes as [m E]. exists m. pose proof E as P. unfold demo.published in P.
  destruct (vary_changes_what_it_declares _ _ _ _ _ _ _ _ _ _ _ _ _ _ _ _ _ P) as (raw & reco & _ & _ & D).
  exists raw, reco. exact (conj E D).
Defined.

Lemma demo_decodes : decodes_well demo.decode.
Proof.
  intros b schema n bs [= <- <- <-]. split; [apply (bool_decide_unpack _); by vm_compute|]. by repeat constructor.
Qed.

Definition demo_rewritten : result RewriteAll VariantError :=
  rewrite_all (fun _ => None) demo.decode (fun _ _ _ => true) demo.closes demo.footer FingerprintsSpec.toy_blake3 demo.hex (fun _ => true)
    demo.control demo.inputs demo.child [("x"%string, SignedInt)] ["x"%string] demo.ls.

Lemma demo_rewrites : exists out, demo_rewritten = Ok out.
Proof. vm_compute. eexists. reflexivity. Qed.

Lemma demo_multiset : FingerprintsSpec.logical_updates FingerprintsSpec.toy_blake3 demo.ls demo.batches default_multiset = Ok demo.multiset.
Proof. by vm_compute. Qed.

Lemma rewrite_keeps_the_rows_witness : exists out, demo_rewritten = Ok out /\ logical out = demo.multiset.
Proof.
  destruct demo_rewrites as [out E]. exists out. split; [exact E|]. unfold demo_rewritten in E.
  refine (proj1 (rewrite_keeps_the_rows _ _ _ _ _ _ _ _ _ _ _ _ _ _ _ _ demo_decodes _ E demo_multiset)). by repeat constructor.
Defined.

Lemma config_round_trip_witness : resolve pretty (spec_to_config demo.child) = Ok demo.child.
Proof.
  apply config_round_trip. constructor; simpl.
  - repeat constructor.
  - constructor; [|done]. exists "encoding"%string. by eexists.
  - by constructor.
  - constructor; [|done]. intros n. simpl. intros [= <-]. unfold u64. lia.
  - by repeat constructor.
Defined.

Definition mistyped : ResolvedConfig := jinsert "columns.x.dictionary" (JString "false") (spec_to_config demo.parent).

Lemma mistyped_change_is_dropped_witness : exists c, resolve pretty mistyped = Ok c /\ assoc "columns.x.dictionary" (spec_to_config c) = None.
Proof.
  eexists. split; [by vm_compute|]. apply (mistyped_change_is_dropped pretty mistyped "x" (JString "false")); try by vm_compute.
  apply sorted_nodup. apply jinsert_sorted, config_sorted.
Defined.

Lemma bare_output_is_not_refused_witness :
  refuse_write_into (canonical_in [demo.root] demo.root) (mkPath true demo.root) (mkPath true (demo.root ++ ["out"%string])) = Err ImmutableControl /\
  refuse_write_into (canonical_in [demo.root] demo.root) (mkPath true demo.root) (mkPath false ["out"%string]) = Ok tt.
Proof.
  apply (bare_output_is_not_refused [demo.root] demo.root demo.root []); try done; [by left|by left|].
  apply (bool_decide_unpack _). by vm_compute.
Defined.

End VariantsSpec.
