(* ===== verification/Staging.v ===== *)
(** * Staging synthetic rows as level-0 files (tools/prod-synth-contract, tools/prod-synth-l0)

    The manifests the fixture tools speak through, and the tool that regroups the
    rows of a fixture: flushes of a fixed size, cut by UTC day, sorted, one
    level-0 file each, checked by census and by row fingerprint before the
    manifest is written. The Parquet library, serde and the file system are
    parameters; the calendar arithmetic is at its 32 bits. *)

From S2P Require Import Prelude Bytes Json Types Arrow Schema Stats Batches Expr Rewrite Compactor Write Fingerprints.
Import Batches Write.

Module Calendar.

Definition wrap_i32 (z : Z) : Z := (z + 2 ^ 31) mod 2 ^ 32 - 2 ^ 31.

(** [div_euclid] by a positive number, [as i32]. *)
Definition days_since_epoch (ms : Z) : Z := wrap_i32 (ms / 86400000).

(** A sum in [i32] wraps; [/] truncates. *)
Definition civil_date (days : Z) : Z * Z * Z :=
  let z := wrap_i32 (days + 719468) in
  let era := Z.quot (if 0 <=? z then z else wrap_i32 (z - 146096)) 146097 in
  let doe := wrap_i32 (z - era * 146097) in
  let yoe := Z.quot (doe - Z.quot doe 1460 + Z.quot doe 36524 - Z.quot doe 146096) 365 in
  let year := wrap_i32 (yoe + era * 400) in
  let doy := doe - (365 * yoe + Z.quot yoe 4 - Z.quot yoe 100) in
  let mp := Z.quot (5 * doy + 2) 153 in
  let day := doy - Z.quot (153 * mp + 2) 5 + 1 in
  let month := if mp <? 10 then mp + 3 else mp - 9 in
  ((if month <=? 2 then wrap_i32 (year + 1) else year), month, day).

(** [{n:0w$}]. *)
Definition zeros (n : nat) : string := String.concat EmptyString (List.repeat "0"%string n).
Definition padded (w : nat) (n : Z) : string :=
  if n <? 0 then let s := pretty (- n) in ("-" +:+ zeros (w - 1 - String.length s) +:+ s)%string
  else let s := pretty n in (zeros (w - String.length s) +:+ s)%string.

Definition civil_from_days (days : Z) : string :=
  let '(year, month, day) := civil_date days in (padded 4 year +:+ "-" +:+ padded 2 month +:+ "-" +:+ padded 2 day)%string.

End Calendar.

Module Staging.
Import Calendar.
#[local] Existing Instance Fingerprints.RowMultiset_eq_dec.

(** ** The contract *)

Definition MANIFEST_VERSION : string := "ukiel-prod-synth/v1".
Definition PROD_SYNTH_L0_VERSION : string := "ukiel-prod-synth-l0/v1".
Definition SYNTHETIC_DISCLAIMER : string := "Synthetic, profile-derived fixture. Reproduces the geometry of an observed workload (tenant skew, part membership, key sparsity) from anonymized aggregates only. Contains no production rows, no real tenant identifiers, and no real column values. Not a production copy.".
Definition FIXTURE_WINDOW_START_MS : Z := 1782864000000.
Definition FIXTURE_WINDOW_DAYS : Z := 14.
Definition FIXTURE_WINDOW_END_MS : Z := FIXTURE_WINDOW_START_MS + FIXTURE_WINDOW_DAYS * 24 * 60 * 60 * 1000.

Inductive ContractError :=
| Version (found : string)
| Parse
| Digest (path expected actual : string)
| MissingDisclaimer.

Record FileDigest := mkDigest { fd_path : string; fd_bytes : Z; fd_digest : string }.

Record TableSpec := mkTable { t_packing_key : string; t_sort_key : list string; t_ts_column : string; t_schema : json }.

Inductive Tier := Smoke | Baseline | Shape.

#[export] Instance tier_eq_dec : EqDecision Tier.
Proof. solve_decision. Defined.

Definition default_tenants (t : Tier) : option Z := match t with Smoke => Some 1000 | Baseline => Some 10000 | Shape => None end.
Definition default_rows_per_shard (t : Tier) : Z := match t with Smoke => 100000 | Baseline => 30000000 | Shape => 100000000 end.
Definition tier_str (t : Tier) : string := match t with Smoke => "smoke" | Baseline => "baseline" | Shape => "shape" end.
Definition tier_from (s : string) : option Tier :=
  if String.eqb s "smoke" then Some Smoke else if String.eqb s "baseline" then Some Baseline
  else if String.eqb s "shape" then Some Shape else None.

Record GenerationConfig := mkConfig {
  tier : Tier; tenants : Z; rows_per_shard : Z; shards : Z; seed : Z; overrides : list string;
}.

#[export] Instance config_eq_dec : EqDecision GenerationConfig.
Proof. solve_decision. Defined.

Record ManifestPart := mkManifestPart {
  mp_index : Z; mp_path : string; mp_rows : Z; mp_bytes : Z; mp_digest : string;
  mp_key_min : Z; mp_key_max : Z; mp_source_partition : Z;
}.

Record Representatives := mkRepresentatives {
  heavy : Z; median : Z; light : Z; high_overfetch : Z; low_overfetch : Z; sample : list Z;
}.

(** The fields the tools read. *)
Record Manifest := mkManifest {
  m_disclaimer : string;
  m_config : GenerationConfig;
  m_table : TableSpec;
  m_topology : FileDigest;
  m_parts : list ManifestPart;
  m_representatives : Representatives;
}.

Record Membership := mkMembership { mb_part : Z; mb_tenants : list Z; mb_rows : list Z }.
Record Topology := mkTopology { tp_config : GenerationConfig; tp_tenants : list (Z * Z); tp_shards : list (list Membership) }.

(** [Topology::edges]: every tenant of every part, with its rows. *)
Definition edges (t : Topology) : list (Z * Z * Z) :=
  List.flat_map (List.flat_map (fun m => List.map (fun tr => (tr.1, mb_part m, tr.2)) (zip (mb_tenants m) (mb_rows m)))) (tp_shards t).

Record RowFingerprint := mkRowFingerprint { rf_version : string; rf_count : Z; rf_xor : string; rf_sum : list Z; rf_digest : string }.

Definition agrees_with (a b : RowFingerprint) : bool :=
  String.eqb (rf_version a) (rf_version b) && (rf_count a =? rf_count b) && String.eqb (rf_xor a) (rf_xor b)
  && bool_decide (rf_sum a = rf_sum b).

Record L0File := mkL0File {
  lf_path : string; lf_day : string; flush_index : Z; lf_rows : Z; lf_bytes : Z; lf_digest : string;
  lf_key_min : Z; lf_key_max : Z; lf_ts_min : Z; lf_ts_max : Z;
}.

Record L0StagingConfig := mkStagingConfig { st_flush_rows : Z; day_policy : string; st_seed : Z }.

Record L0Manifest := mkL0Manifest {
  l0_version : string;
  l0_disclaimer : string;
  source_manifest : FileDigest;
  source_topology : FileDigest;
  l0_staging : L0StagingConfig;
  l0_table : TableSpec;
  l0_representatives : Representatives;
  l0_input_rows : Z;
  l0_output_rows : Z;
  l0_fingerprint : RowFingerprint;
  l0_files : list L0File;
}.

(** The compaction-input load's contract. *)
Definition PART_SHAPE_RECEIPT_VERSION : string := "ukiel-prod-part-shape/v1".

Inductive PlacementSpec := SpecPacked | SpecSeparated | SpecSizeTargeted (n : Z).

Definition placement_label (p : PlacementSpec) : string :=
  match p with SpecPacked => "packed" | SpecSeparated => "separated" | SpecSizeTargeted _ => "size-targeted" end.
Definition placement_bytes (p : PlacementSpec) : option Z :=
  match p with SpecPacked => None | SpecSeparated => Some 0 | SpecSizeTargeted n => Some n end.

Record ExpectedCompactorConfig := mkExpected {
  ex_l0_fanout : Z; ex_fanout : Z; ex_finalize_after_secs : Z; ex_finalize_poll_interval_ms : Z; ex_lease_ttl_secs : Z;
  ex_lease_renew_interval_secs : Z; ex_candidate_limit : Z;
}.

Record PartShapeReceipt := mkReceipt {
  rc_version : string;
  rc_disclaimer : string;
  rc_source_manifest : FileDigest;
  rc_l0_manifest : FileDigest;
  rc_label : string;
  rc_hypertable : string;
  rc_hypertable_id : Z;
  rc_placement : PlacementSpec;
  rc_input_parts : Z;
  rc_input_rows : Z;
  rc_input_bytes : Z;
  rc_packing_key : string;
  rc_sort_key : list string;
  rc_partition_marker_digest : string;
  rc_compactor : ExpectedCompactorConfig;
  rc_fingerprint : RowFingerprint;
}.

Definition partition_marker (l0_manifest_digest day : string) : json :=
  JObject [("l0_manifest", JString l0_manifest_digest); ("utc_day", JString day)]%string.

(** [format!("{b:02x}")] of every byte. *)
Definition hex_digit (d : Z) : string :=
  String (Ascii.ascii_of_N (Z.to_N (if d <? 10 then 48 + d else 87 + d))) EmptyString.
Definition hex (bs : list Z) : string :=
  String.concat EmptyString (List.map (fun b => hex_digit (b / 16) +:+ hex_digit (b mod 16))%string bs).

Section contract.
Context (blake3 : list Z -> list Z).

Definition digest_bytes (bs : list Z) : string := hex (blake3 bs).
Definition digest_of (path : string) (bs : list Z) : FileDigest := mkDigest path (len bs) (digest_bytes bs).
Definition verify (d : FileDigest) (path : string) (bs : list Z) : result unit ContractError :=
  let actual := digest_bytes bs in
  if String.eqb actual (fd_digest d) then Ok tt else Err (Digest path (fd_digest d) actual).

Definition marker_digest (l0_manifest_digest : string) : string := digest_bytes (str_bytes l0_manifest_digest).

(** A fingerprint as a manifest carries it. *)
Definition row_fingerprint (m : Fingerprints.RowMultiset) : RowFingerprint :=
  mkRowFingerprint Fingerprints.ROW_MULTISET_VERSION (Fingerprints.count m) (hex (Fingerprints.xor m)) (Fingerprints.sum m)
    (hex (Fingerprints.digest blake3 Fingerprints.ROW_MULTISET_VERSION m)).
End contract.

Section parse.
(** serde: the text of a value, and a value as each of the files. *)
Context (from_slice : list Z -> option json) (manifest_of : json -> option Manifest) (topology_of : json -> option Topology).
Context (l0_of : json -> option L0Manifest) (receipt_of : json -> option PartShapeReceipt).

(** The version field is read before anything else is. *)
Definition check_version (value : json) (expected field : string) : result unit ContractError :=
  let found := default "<absent>"%string (jget value field ≫= as_str) in
  if String.eqb found expected then Ok tt else Err (Version found).

Definition parse_manifest (bs : list Z) : result Manifest ContractError :=
  let? value := ok_or (from_slice bs) Parse in
  let? _ := check_version value MANIFEST_VERSION "manifest_version" in
  let? manifest := ok_or (manifest_of value) Parse in
  if String.eqb (m_disclaimer manifest) SYNTHETIC_DISCLAIMER then Ok manifest else Err MissingDisclaimer.

Definition parse_topology (bs : list Z) : result Topology ContractError :=
  let? value := ok_or (from_slice bs) Parse in
  let? _ := check_version value MANIFEST_VERSION "manifest_version" in
  ok_or (topology_of value) Parse.

Definition parse_l0 (bs : list Z) : result L0Manifest ContractError :=
  let? value := ok_or (from_slice bs) Parse in
  let? _ := check_version value PROD_SYNTH_L0_VERSION "manifest_version" in
  let? manifest := ok_or (l0_of value) Parse in
  if String.eqb (l0_disclaimer manifest) SYNTHETIC_DISCLAIMER then Ok manifest else Err MissingDisclaimer.

Definition parse_receipt (bs : list Z) : result PartShapeReceipt ContractError :=
  let? value := ok_or (from_slice bs) Parse in
  let? _ := check_version value PART_SHAPE_RECEIPT_VERSION "receipt_version" in
  let? receipt := ok_or (receipt_of value) Parse in
  if String.eqb (rc_disclaimer receipt) SYNTHETIC_DISCLAIMER then Ok receipt else Err MissingDisclaimer.
End parse.

(** ** Staging (stage.rs) *)

Inductive StageError :=
| SIo (path : string)
| SParquet (e : string)
| SArrow (e : string)
| SSort (e : Schema.SortKeyError)
| SSchema (e : Schema.SchemaError)
| SContract (e : ContractError)
| SFingerprint (e : Fingerprints.FingerprintError)
| Exists
| TimestampOutOfWindow (ts : Z)
| CensusMismatch (source_rows staged_rows : Z)
| FingerprintMismatch
| UnknownTimeColumn (name : string)
| UnknownKeyColumn (name : string)
| Panicked
| Hangs.

(** A batch as the fingerprint sees it. *)
Definition physical_array (a : ArrayRef) : Fingerprints.Array :=
  match a with
  | Int64Array vs => Fingerprints.Int64Array vs
  | OtherArray t vs =>
      match t with
      | Float64 => Fingerprints.Float64Array (List.map (option_map of_le) vs)
      | Utf8 => Fingerprints.StringArray vs
      | Utf8View => Fingerprints.StringViewArray vs
      | Boolean => Fingerprints.BooleanArray (List.map (option_map (fun v => bool_decide (v = [1]))) vs)
      | Int64 => Fingerprints.OtherArray "Int64"
      | OtherType t => Fingerprints.OtherArray t
      end
  end.
Definition physical_batch (b : RecordBatch) : Fingerprints.Batch :=
  Fingerprints.mkBatch (zip (List.map f_name (rb_schema b)) (List.map physical_array (rb_columns b))) (num_rows b).

(** A [BTreeMap] of the rows of each day. *)
Fixpoint day_push (day : Z) (row : nat) (m : list (Z * list nat)) : list (Z * list nat) :=
  match m with
  | [] => [(day, [row])]
  | (d, rows) :: m' =>
      if day <? d then (day, [row]) :: m
      else if day =? d then (d, rows ++ [row]) :: m'
      else (d, rows) :: day_push day row m'
  end.

(** The writer: the files recorded, the files on disk, both sides of the checks. *)
Record Writer := mkWriter {
  w_files : list L0File;
  w_disk : list (string * list Z);
  input_fp : Fingerprints.RowMultiset;
  output_fp : Fingerprints.RowMultiset;
  input_rows : Z;
  output_rows : Z;
}.

Section stage.
Context `{WritePlatform}.
(** The Parquet reader over a file's bytes, the bytes of a file of one batch, and
    the files that cannot be made. *)
Context (open_parquet : list Z -> result (list (result RecordBatch string)) string).
Context (parquet_bytes : Schema.WriterProperties -> ArrowSchema -> RecordBatch -> result (list Z) string).
Context (create_fails : string -> bool).

Definition update (m : Fingerprints.RowMultiset) (b : RecordBatch) : result Fingerprints.RowMultiset StageError :=
  map_err SFingerprint (Fingerprints.physical_update blake3 m (physical_batch b)).

(** Arrow's [concat_batches]: column by column under the schema given. *)
Definition concat_columns (bs : list RecordBatch) (j : nat) : result ArrayRef StageError :=
  let? arrays := mapr (fun b => ok_or (rb_columns b !! j) Panicked) bs in
  match arrays with
  | [] => Err Panicked
  | a :: rest =>
      if bool_decide (Forall (fun c => array_type c = array_type a) rest)
      then Ok (List.fold_left array_append rest a) else Err (SArrow "concat of arrays of different types")
  end.
Definition concat_batches (s : ArrowSchema) (bs : list RecordBatch) : result RecordBatch StageError :=
  let? columns := mapr (concat_columns bs) (seq 0 (length s)) in
  match Expr.try_new_error s columns with Some e => Err (SArrow e) | None => Ok (mkBatch s columns) end.

Section writer.
Context (cols : Schema.TableColumns) (sort_key : list string) (ts_idx key_idx : nat).
#[local] Notation schema := (Schema.physical_schema cols).

(** [ts.value(row)]: a null slot has a value too. *)
Definition ts_value (vs : list (option Z)) (row : nat) : Z := match vs !! row with Some (Some v) => v | _ => under_null row end.

Fixpoint group_days (vs : list (option Z)) (rows : list nat) (by_day : list (Z * list nat)) : result (list (Z * list nat)) StageError :=
  match rows with
  | [] => Ok by_day
  | row :: rows =>
      let t := ts_value vs row in
      if (FIXTURE_WINDOW_START_MS <=? t) && (t <? FIXTURE_WINDOW_END_MS)
      then group_days vs rows (day_push (days_since_epoch t) (Z.to_nat (Z.of_nat row mod 2 ^ 32)) by_day)
      else Err (TimestampOutOfWindow t)
  end.

Definition int64_range (b : RecordBatch) (idx : nat) : result (Z * Z) StageError :=
  let? vs := ok_or (rb_columns b !! idx ≫= as_int64) Panicked in
  let? lo := ok_or (column_min vs) Panicked in
  let? hi := ok_or (column_max vs) Panicked in
  Ok (lo, hi).

(** The bytes written are read back for their size and digest. *)
Definition write_file (b : RecordBatch) (path : string) : result (list Z * (Z * Z) * (Z * Z)) StageError :=
  let props := Schema.writer_props schema sort_key (Schema.from_columns cols sort_key 0) in
  if create_fails path then Err (SIo path)
  else
    let? raw := map_err SParquet (parquet_bytes props schema b) in
    let? keys := int64_range b key_idx in
    let? times := int64_range b ts_idx in
    Ok (raw, keys, times).

Definition l0_path (day : string) (index : Z) : string :=
  ("parquet/" +:+ day +:+ "/flush-" +:+ padded 5 index +:+ ".parquet")%string.

Definition write_day (index : Z) (flushed : RecordBatch) (w : Writer) (day : Z * list nat) : result Writer StageError :=
  let day_batch := batch_take day.2 flushed in
  let? sorted := map_err SSort (sort_batch day_batch sort_key) in
  let? fp := update (output_fp w) sorted in
  let day_str := civil_from_days day.1 in
  let rel := l0_path day_str index in
  let? (raw, keys, times) := write_file sorted rel in
  let n := Z.of_nat (num_rows sorted) in
  Ok (mkWriter (w_files w ++ [mkL0File rel day_str index n (len raw) (digest_bytes blake3 raw) keys.1 keys.2 times.1 times.2])
        (w_disk w ++ [(rel, raw)]) (input_fp w) fp (input_rows w) (output_rows w + n)).

Fixpoint write_days (index : Z) (flushed : RecordBatch) (days : list (Z * list nat)) (w : Writer) : result Writer StageError :=
  match days with
  | [] => Ok w
  | day :: days => let? w := write_day index flushed w day in write_days index flushed days w
  end.

Definition flush (index : Z) (flushed : RecordBatch) (w : Writer) : result Writer StageError :=
  let? vs := ok_or (rb_columns flushed !! ts_idx ≫= as_int64) Panicked in
  let? days := group_days vs (seq 0 (num_rows flushed)) [] in
  write_days index flushed days w.

(** The reader's loop: what is pending, and the index of the next flush. *)
Record Buffer := mkBuffer { pending : list RecordBatch; pending_rows : nat; next_flush : Z; writer : Writer }.

Section loop.
Context (flush_rows : nat).

(** Each round takes [flush_rows] rows off; without any the loop would not end. *)
Fixpoint drain (fuel : nat) (p : Buffer) : result Buffer StageError :=
  if (flush_rows <=? pending_rows p)%nat then
    match fuel with
    | O => Err Hangs
    | S fuel =>
        let? all := concat_batches schema (pending p) in
        let flushed := batch_slice 0 flush_rows all in
        let rest := batch_slice flush_rows (num_rows all - flush_rows) all in
        let? w := flush (next_flush p) flushed (writer p) in
        let pending := if Nat.eqb (num_rows rest) 0 then [] else [rest] in
        drain fuel (mkBuffer pending (match pending with b :: _ => num_rows b | [] => 0 end) ((next_flush p + 1) mod 2 ^ 32) w)
    end
  else Ok p.

Definition read_batch (p : Buffer) (item : result RecordBatch string) : result Buffer StageError :=
  let? b := map_err SParquet item in
  let w := writer p in
  let? fp := update (input_fp w) b in
  let w := mkWriter (w_files w) (w_disk w) fp (output_fp w) (input_rows w + Z.of_nat (num_rows b)) (output_rows w) in
  let rows := (pending_rows p + num_rows b)%nat in
  drain (S rows) (mkBuffer (pending p ++ [b]) rows (next_flush p) w).

Fixpoint read_batches (p : Buffer) (items : list (result RecordBatch string)) : result Buffer StageError :=
  match items with
  | [] => Ok p
  | item :: items => let? p := read_batch p item in read_batches p items
  end.

Fixpoint read_parts (read : string -> option (list Z)) (p : Buffer) (parts : list ManifestPart) : result Buffer StageError :=
  match parts with
  | [] => Ok p
  | part :: parts =>
      let? raw := ok_or (read (mp_path part)) (SIo (mp_path part)) in
      let? items := map_err SParquet (open_parquet raw) in
      let? p := read_batches p items in
      read_parts read p parts
  end.

Definition empty_writer : Writer := mkWriter [] [] Fingerprints.default_multiset Fingerprints.default_multiset 0 0.

(** The rest of the buffer, then the two checks. *)
Definition finish (p : Buffer) : result Writer StageError :=
  let? w := if (0 <? pending_rows p)%nat
            then let? all := concat_batches schema (pending p) in flush (next_flush p) all (writer p)
            else Ok (writer p) in
  if negb (input_rows w =? output_rows w) then Err (CensusMismatch (input_rows w) (output_rows w))
  else if bool_decide (input_fp w = output_fp w) then Ok w
  else Err FingerprintMismatch.

Definition regroup (read : string -> option (list Z)) (parts : list ManifestPart) : result Writer StageError :=
  let? p := read_parts read (mkBuffer [] 0 0 empty_writer) parts in finish p.
End loop.
End writer.

Definition write_all (manifest : Manifest) (manifest_bytes : list Z) (topology : FileDigest) (read : string -> option (list Z))
    (flush_rows : nat) : result (L0Manifest * list (string * list Z)) StageError :=
  let t := m_table manifest in
  let? cols := map_err SSchema (Schema.parse (t_schema t)) in
  let schema := Schema.physical_schema cols in
  let? ts_idx := ok_or (index_of schema (t_ts_column t)) (UnknownTimeColumn (t_ts_column t)) in
  let? key_idx := ok_or (index_of schema (t_packing_key t)) (UnknownKeyColumn (t_packing_key t)) in
  let? w := regroup cols (t_sort_key t) ts_idx key_idx flush_rows read (m_parts manifest) in
  let l0 := mkL0Manifest PROD_SYNTH_L0_VERSION SYNTHETIC_DISCLAIMER (digest_of blake3 "manifest.json" manifest_bytes) topology
              (mkStagingConfig (Z.of_nat flush_rows) "utc-day-from-timestamp" (seed (m_config manifest)))
              t (m_representatives manifest) (input_rows w) (output_rows w) (row_fingerprint blake3 (output_fp w)) (w_files w) in
  if create_fails "l0-manifest.json" then Err (SIo "l0-manifest.json") else Ok (l0, w_disk w).

(** A directory: nothing, a staged artifact, or what a removal cut short left. *)
Inductive Dir := NoDir | Artifact (a : L0Manifest * list (string * list Z)) | Remains.

(** The calls on directories that may fail. *)
Record DirIo := mkDirIo { removes : bool; makes : bool; renames : bool }.

(** The staging directory beside the output is built anew and renamed at the end. *)
Definition stage (manifest : Manifest) (manifest_bytes : list Z) (topology : FileDigest) (read : string -> option (list Z))
    (flush_rows : nat) (replace : bool) (io : DirIo) (output : Dir) : result L0Manifest StageError * Dir :=
  let build (output : Dir) :=
    if negb (makes io) then (Err (SIo "staging"), output)
    else
      match write_all manifest manifest_bytes topology read flush_rows with
      | Ok a => if renames io then (Ok a.1, Artifact a) else (Err (SIo "output"), output)
      | Err e => (Err e, output)
      end in
  match output with
  | NoDir => build NoDir
  | _ => if negb replace then (Err Exists, output) else if removes io then build NoDir else (Err (SIo "output"), Remains)
  end.

Context (from_slice : list Z -> option json) (manifest_of : json -> option Manifest).

Fixpoint verify_parts (read : string -> option (list Z)) (parts : list ManifestPart) : result unit StageError :=
  match parts with
  | [] => Ok tt
  | p :: parts =>
      let? raw := ok_or (read (mp_path p)) (SIo (mp_path p)) in
      let? _ := map_err SContract (verify blake3 (mkDigest (mp_path p) (mp_bytes p) (mp_digest p)) (mp_path p) raw) in
      verify_parts read parts
  end.

(** [stage_source]: the source is verified as one read finds it, and staged as
    the next one does. *)
Definition stage_source (manifest_bytes : option (list Z)) (read reread : string -> option (list Z)) (flush_rows : nat)
    (replace : bool) (io : DirIo) (output : Dir) : result L0Manifest StageError * Dir :=
  match
    (let? raw := ok_or manifest_bytes (SIo "manifest") in
     let? manifest := map_err SContract (parse_manifest from_slice manifest_of raw) in
     let? topology := ok_or (read (fd_path (m_topology manifest))) (SIo (fd_path (m_topology manifest))) in
     let? _ := map_err SContract (verify blake3 (m_topology manifest) (fd_path (m_topology manifest)) topology) in
     let? _ := verify_parts read (m_parts manifest) in
     Ok (raw, manifest))
  with
  | Ok (raw, manifest) => stage manifest raw (m_topology manifest) reread flush_rows replace io output
  | Err e => (Err e, output)
  end.

End stage.
End Staging.
