(* ===== verification/StagingSpec.v ===== *)
(** * What staging promises (theorems about [Staging])

    The days of a staged file are the calendar's; and a staged artifact holds the
    rows of its source, no more and no fewer, each in one sorted file of its own
    day and flush, so the two checks staging ends with never refuse a source. *)

From S2P Require Import Prelude Bytes Json Types Arrow Schema Stats CatalogError CatalogDb Commit CatalogGc Pruning Batches Expr Merge Rewrite RewriteSpec Compactor CompactorSpec Deletion Write Publish WriteSpec Ingest IngestSpec IngestExamples Fingerprints Staging.
Import CatalogError Batches Rewrite RewriteSpec CompactorSpec DeletionSpec Write WriteSpec.

Module CalendarSpec.
Import Calendar.

(** ** The civil calendar *)

Definition leap (y : Z) : bool := (y mod 4 =? 0) && (negb (y mod 100 =? 0) || (y mod 400 =? 0)).
Definition days_in_month (y m : Z) : Z :=
  if m =? 2 then (if leap y then 29 else 28) else if (m =? 4) || (m =? 6) || (m =? 9) || (m =? 11) then 30 else 31.

(** The day after. *)
Definition next_date (date : Z * Z * Z) : Z * Z * Z :=
  let '(y, m, d) := date in
  if d <? days_in_month y m then (y, m, d + 1) else if m <? 12 then (y, m + 1, 1) else (y + 1, 1, 1).

(** The computation within an era of 400 years. *)
Definition within (era doe : Z) : Z * Z * Z :=
  let yoe := Z.quot (doe - Z.quot doe 1460 + Z.quot doe 36524 - Z.quot doe 146096) 365 in
  let doy := doe - (365 * yoe + Z.quot yoe 4 - Z.quot yoe 100) in
  let mp := Z.quot (5 * doy + 2) 153 in
  let month := if mp <? 10 then mp + 3 else mp - 9 in
  ((if month <=? 2 then yoe + era * 400 + 1 else yoe + era * 400), month, doy - Z.quot (153 * mp + 2) 5 + 1).

Definition i32 (z : Z) : Prop := - 2 ^ 31 <= z < 2 ^ 31.

Lemma wrap_i32_id z : i32 z -> wrap_i32 z = z.
Proof. unfold i32, wrap_i32. intros. rewrite Z.mod_small; lia. Qed.

Lemma era_of z : (if 0 <=? z then z else z - 146096) ÷ 146097 = z / 146097.
Proof.
  destruct (Z.leb_spec 0 z) as [P|N]; [by apply Z.quot_div_nonneg|].
  assert (E : (z - 146096) ÷ 146097 = - ((146096 - z) / 146097)) by (rewrite <-Z.quot_div_nonneg, <-Z.quot_opp_l by lia; f_equal; lia).
  rewrite E. pose proof (Z.div_mod z 146097 ltac:(lia)). pose proof (Z.mod_pos_bound z 146097 ltac:(lia)).
  rewrite <-(Z.div_unique (146096 - z) 146097 (- (z / 146097)) (146096 - z mod 146097)); lia.
Qed.

(** Nothing wraps where the sum with the epoch's day number does not. *)
Lemma civil_within z : i32 z -> z + 719468 < 2 ^ 31 -> civil_date z = within ((z + 719468) / 146097) ((z + 719468) mod 146097).
Proof.
  unfold i32. intros B L. unfold civil_date. rewrite (wrap_i32_id (z + 719468)) by (unfold i32; lia). set (x := z + 719468) in *.
  assert (wrap_i32 (x - 146096) = x - 146096) as -> by (apply wrap_i32_id; unfold i32; lia). rewrite era_of.
  pose proof (Z.div_mod x 146097 ltac:(lia)) as D. pose proof (Z.mod_pos_bound x 146097 ltac:(lia)) as M.
  assert (x - x / 146097 * 146097 = x mod 146097) as -> by lia. rewrite wrap_i32_id by (unfold i32; lia).
  set (doe := x mod 146097) in *. set (era := x / 146097) in *.
  assert (Y : 0 <= (doe - doe ÷ 1460 + doe ÷ 36524 - doe ÷ 146096) ÷ 365 <= 401).
  { rewrite !(Z.quot_div_nonneg doe) by lia.
    assert (0 <= doe / 1460 <= 101) by (split; [apply Z.div_pos; lia|]; assert (doe / 1460 < 102) by (apply Z.div_lt_upper_bound; lia); lia).
    assert (0 <= doe / 36524 <= 4) by (split; [apply Z.div_pos; lia|]; assert (doe / 36524 < 5) by (apply Z.div_lt_upper_bound; lia); lia).
    assert (0 <= doe / 146096 <= 1) by (split; [apply Z.div_pos; lia|]; assert (doe / 146096 < 2) by (apply Z.div_lt_upper_bound; lia); lia).
    assert (doe / 1460 + doe / 146096 <= doe).
    { destruct (Z.lt_ge_cases doe 1460); [rewrite !Z.div_small; lia|lia]. }
    rewrite Z.quot_div_nonneg by lia. split; [apply Z.div_pos; lia|]. apply Z.div_le_upper_bound; lia. }
  set (yoe := (doe - doe ÷ 1460 + doe ÷ 36524 - doe ÷ 146096) ÷ 365) in *.
  assert (-20000 <= era <= 20000) by (subst era; split; [apply Z.div_le_lower_bound; lia|apply Z.div_le_upper_bound; lia]).
  unfold within. fold yoe. rewrite !wrap_i32_id by (unfold i32; rewrite ?wrap_i32_id; unfold i32; lia). done.
Qed.

Lemma leap_era y e : leap (y + e * 400) = leap y.
Proof.
  unfold leap. replace (y + e * 400) with (y + (e * 100) * 4) at 1 by lia. rewrite Z.mod_add by lia.
  replace (y + e * 400) with (y + (e * 4) * 100) at 1 by lia. rewrite Z.mod_add by lia. by rewrite Z.mod_add by lia.
Qed.

Definition shift (e : Z) (date : Z * Z * Z) : Z * Z * Z := let '(y, m, d) := date in (y + e * 400, m, d).

Lemma within_era e doe : within e doe = shift e (within 0 doe).
Proof. unfold within, shift. f_equal. f_equal. destruct (_ <=? 2); lia. Qed.

Lemma next_shift e date : next_date (shift e date) = shift e (next_date date).
Proof.
  destruct date as [[y m] d]. unfold next_date, shift. unfold days_in_month. rewrite leap_era.
  destruct (d <? _); [done|]. destruct (m <? 12); [done|]. do 2 f_equal. lia.
Qed.

(** Years of an era begin in March; a year's first day, and a day's year. *)
Definition start (y : Z) : Z := 365 * y + y / 4 - y / 100.
Definition year_len (y : Z) : Z := if leap (y + 1) then 366 else 365.
Definition year_of (doe : Z) : Z := (doe - doe / 1460 + doe / 36524 - doe / 146096) / 365.
Definition month_day (doy : Z) : Z * Z :=
  let mp := (5 * doy + 2) / 153 in ((if mp <? 10 then mp + 3 else mp - 9), doy - (153 * mp + 2) / 5 + 1).

(** The day after, and whether the year turns. *)
Definition next_day (lp : bool) (md : Z * Z) : Z * (Z * Z) :=
  let '(m, d) := md in
  let n := if m =? 2 then (if lp then 29 else 28) else if (m =? 4) || (m =? 6) || (m =? 9) || (m =? 11) then 30 else 31 in
  if d <? n then (0, (m, d + 1)) else if m <? 12 then (0, (m + 1, 1)) else (1, (1, 1)).

Lemma next_date_day y md : next_date (y, md.1, md.2) = (y + (next_day (leap y) md).1, (next_day (leap y) md).2.1, (next_day (leap y) md).2.2).
Proof.
  destruct md as [m d]. unfold next_date, next_day, days_in_month. cbn [fst snd].
  destruct (d <? _); [|destruct (m <? 12)]; cbn [fst snd]; by rewrite ?Z.add_0_r.
Qed.

Fixpoint months (n : nat) (doy : Z) : bool :=
  match n with
  | O => true
  | S n =>
      let turn := if (2 <? (month_day doy).1) && ((month_day (doy + 1)).1 <=? 2) then 1 else 0 in
      bool_decide (next_day true (month_day doy) = (turn, month_day (doy + 1))) &&
      bool_decide (next_day false (month_day doy) = (turn, month_day (doy + 1))) &&
      implb ((month_day doy).1 <=? 2) ((month_day (doy + 1)).1 <=? 2) && months n (doy + 1)
  end.

Lemma months_spec n : forall doy k lp, months n doy = true -> doy <= k < doy + Z.of_nat n ->
  next_day lp (month_day k) = ((if (2 <? (month_day k).1) && ((month_day (k + 1)).1 <=? 2) then 1 else 0), month_day (k + 1)) /\
  implb ((month_day k).1 <=? 2) ((month_day (k + 1)).1 <=? 2) = true.
Proof.
  induction n as [|n IH]; intros doy k lp W K; [lia|]. cbn [months] in W. apply andb_prop in W as [W W2]. apply andb_prop in W as [W W1].
  apply andb_prop in W as [W0 W]. apply bool_decide_eq_true in W0, W. destruct (Z.eq_dec k doy) as [->|]; [by destruct lp|]. apply (IH (doy + 1)); [done|lia].
Qed.

Fixpoint years (n : nat) (y : Z) : bool :=
  match n with
  | O => true
  | S n => (0 <=? start y) && (start (y + 1) <=? 145731) && (start (y + 1) =? start y + year_len y) && (year_of (start y) =? y) && (year_of (start (y + 1) - 1) =? y) && years n (y + 1)
  end.

Lemma years_spec n : forall y k, years n y = true -> y <= k < y + Z.of_nat n ->
  0 <= start k /\ start (k + 1) <= 145731 /\ start (k + 1) = start k + year_len k /\ year_of (start k) = k /\ year_of (start (k + 1) - 1) = k.
Proof.
  induction n as [|n IH]; intros y k W K; [lia|]. cbn [years] in W. boolp. destruct (Z.eq_dec k y) as [->|]; [done|]. apply (IH (y + 1)); [done|lia].
Qed.

Lemma year_table : years 399 0 = true.
Proof. vm_compute. reflexivity. Qed.
Lemma month_table : months 364 0 = true.
Proof. vm_compute. reflexivity. Qed.

Lemma year_of_mono a b : 0 <= a <= b -> b < 146096 -> year_of a <= year_of b.
Proof.
  intros A B. unfold year_of. apply Z.div_le_mono; [lia|]. rewrite (Z.div_small a 146096), (Z.div_small b 146096) by lia.
  assert (a / 36524 <= b / 36524) by (apply Z.div_le_mono; lia).
  assert (b / 1460 - a / 1460 <= b - a); [|lia].
  pose proof (Z.div_mod a 1460 ltac:(lia)). pose proof (Z.div_mod b 1460 ltac:(lia)).
  pose proof (Z.mod_pos_bound a 1460 ltac:(lia)). pose proof (Z.mod_pos_bound b 1460 ltac:(lia)). nia.
Qed.

(** A day of an era is a day of one of its years. *)
Lemma year_exists n doe : start 0 <= doe < start (Z.of_nat n) -> exists y, 0 <= y < Z.of_nat n /\ start y <= doe < start (y + 1).
Proof.
  induction n as [|n IH]; [intros B; change (Z.of_nat 0) with 0 in B; lia|]. intros B. destruct (Z.lt_ge_cases doe (start (Z.of_nat n))) as [L|G].
  - destruct IH as (y & Y & D); [lia|]. exists y. lia.
  - exists (Z.of_nat n). replace (Z.of_nat (S n)) with (Z.of_nat n + 1) in B by lia. lia.
Qed.

Lemma year_is y doe : 0 <= y < 400 -> start y <= doe < start y + year_len y -> 0 <= doe < 146097 /\ year_of doe = y.
Proof.
  intros Y D. destruct (Z.eq_dec y 399) as [->|N].
  - change (start 399) with 145731 in *. change (year_len 399) with 366 in *. split; [lia|].
    destruct (Z.eq_dec doe 146096) as [->|]; [by vm_compute|].
    pose proof (year_of_mono 145731 doe ltac:(lia) ltac:(lia)). pose proof (year_of_mono doe 146095 ltac:(lia) ltac:(lia)).
    change (year_of 145731) with 399 in *. change (year_of 146095) with 399 in *. lia.
  - destruct (years_spec 399 0 y year_table) as (P & Q & S1 & F1 & F2); [lia|]. split; [lia|].
    pose proof (year_of_mono (start y) doe ltac:(lia) ltac:(lia)). pose proof (year_of_mono doe (start (y + 1) - 1) ltac:(lia) ltac:(lia)). lia.
Qed.

Lemma year_follows y : 0 <= y < 400 -> 0 <= start y /\ start y + year_len y <= 146097 /\ (y < 399 -> start (y + 1) = start y + year_len y).
Proof.
  intros Y. destruct (Z.eq_dec y 399) as [->|N]; [by vm_compute|].
  destruct (years_spec 399 0 y year_table) as (P & Q & S1 & _); lia.
Qed.

Lemma day_of_era doe : 0 <= doe < 146097 -> exists y, 0 <= y < 400 /\ start y <= doe < start y + year_len y.
Proof.
  intros D. destruct (Z.lt_ge_cases doe (start 399)) as [L|G].
  - destruct (year_exists 399 doe) as (y & Y & B); [split; [apply D|exact L]|]. exists y.
    destruct (year_follows y) as (P & Q & S1); [lia|]. split; lia.
  - exists 399. change (start 399) with 145731 in *. change (year_len 399) with 366. lia.
Qed.

(** The date of a day of a year. *)
Lemma within_year y doy : 0 <= y < 400 -> 0 <= doy < year_len y ->
  within 0 (start y + doy) = ((if (month_day doy).1 <=? 2 then y + 1 else y), (month_day doy).1, (month_day doy).2).
Proof.
  intros Y D. destruct (year_is y (start y + doy) Y ltac:(lia)) as [B E]. unfold year_of in E. unfold within.
  assert (0 <= (start y + doy - (start y + doy) / 1460 + (start y + doy) / 36524 - (start y + doy) / 146096)).
  { assert (0 <= (start y + doy) / 36524) by (apply Z.div_pos; lia). destruct (Z.lt_ge_cases (start y + doy) 1460) as [L|G].
    - rewrite (Z.div_small _ 1460), (Z.div_small _ 146096) by lia. lia.
    - assert ((start y + doy) / 1460 <= 101) by (apply Z.lt_succ_r, Z.div_lt_upper_bound; lia).
      assert ((start y + doy) / 146096 <= 1) by (apply Z.lt_succ_r, Z.div_lt_upper_bound; lia). lia. }
  rewrite !(Z.quot_div_nonneg (start y + doy)) by lia. rewrite (Z.quot_div_nonneg (start y + doy - _ + _ - _)) by lia. rewrite E.
  rewrite !(Z.quot_div_nonneg y) by lia. assert (start y + doy - (365 * y + y / 4 - y / 100) = doy) as -> by (unfold start; lia).
  rewrite (Z.quot_div_nonneg (5 * doy + 2)) by lia. assert (0 <= (5 * doy + 2) / 153) by (apply Z.div_pos; lia).
  rewrite Z.quot_div_nonneg by lia. unfold month_day. cbn [fst snd]. by rewrite Z.mul_0_l, Z.add_0_r.
Qed.

Lemma year_len_cases y : year_len y = (if leap (y + 1) then 366 else 365).
Proof. done. Qed.

Lemma year_len_pos y : 0 < year_len y.
Proof. unfold year_len. by destruct (leap (y + 1)). Qed.

Lemma era_walks doe : 0 <= doe < 146096 -> within 0 (doe + 1) = next_date (within 0 doe).
Proof.
  intros D. destruct (day_of_era doe) as (y & Y & S); [lia|]. set (doy := doe - start y).
  replace doe with (start y + doy) by (unfold doy; lia). assert (L : 0 <= doy < year_len y) by (unfold doy; lia).
  rewrite (within_year y doy Y L), next_date_day. pose proof (year_len_cases y) as YL.
  destruct (Z.lt_ge_cases (doy + 1) (year_len y)) as [N|N].
  - rewrite <-Z.add_assoc, (within_year y (doy + 1) Y) by lia. destruct (Z.lt_ge_cases doy 364) as [K|K].
    + destruct (months_spec 364 0 doy (leap (if (month_day doy).1 <=? 2 then y + 1 else y)) month_table) as [-> I]; [lia|].
      cbn [fst snd]. f_equal. f_equal.
      destruct (Z.ltb_spec 2 (month_day doy).1), (Z.leb_spec (month_day (doy + 1)).1 2), (Z.leb_spec (month_day doy).1 2); simpl in I |- *; lia || done.
    + destruct (leap (y + 1)) eqn:Lp; [|lia]. assert (doy = 364) as -> by lia. change (month_day 364) with (2, 28). cbn [fst snd Z.leb].
      change (2 <=? 2) with true. cbv iota. rewrite Lp. change (month_day (364 + 1)) with (2, 29). cbn. by rewrite Z.add_0_r.
  - destruct (year_follows y Y) as (_ & B & F). assert (y < 399) as Y'.
    { unfold doy in N. destruct (Z.eq_dec y 399) as [->|]; [|lia]. change (start 399) with 145731 in *. change (year_len 399) with 366 in *. lia. }
    assert (doy = year_len y - 1) as -> by lia. specialize (F Y').
    replace (start y + (year_len y - 1) + 1) with (start (y + 1) + 0) by lia.
    pose proof (year_len_pos (y + 1)). rewrite (within_year (y + 1) 0) by lia.
    change (month_day 0) with (3, 1). cbn [fst snd]. change (3 <=? 2) with false. cbv iota. rewrite YL. clear -y.
    destruct (leap (y + 1)) eqn:Lp; [change (month_day (366 - 1)) with (2, 29)|change (month_day (365 - 1)) with (2, 28)];
      cbn [fst snd]; change (2 <=? 2) with true; cbv iota; rewrite Lp; simpl; by rewrite Z.add_0_r.
Qed.

(** The day of a staged file is the calendar's: day 0 is the first of January
    1970, and each day number is written as the date after that of the day before
    it, leap years included, over all day numbers of 32 bits whose sum with the
    epoch's fits. *)
Theorem civil_days_walk_the_calendar z : i32 z -> z + 719469 < 2 ^ 31 ->
  civil_date 0 = (1970, 1, 1) /\ civil_date (z + 1) = next_date (civil_date z).
Proof.
  unfold i32. intros B L. split; [by vm_compute|]. rewrite !civil_within by (unfold i32; lia).
  replace (z + 1 + 719468) with (z + 719468 + 1) by lia. set (x := z + 719468).
  pose proof (Z.div_mod x 146097 ltac:(lia)) as D. pose proof (Z.mod_pos_bound x 146097 ltac:(lia)) as M.
  set (q := x / 146097) in *. set (r := x mod 146097) in *.
  rewrite (within_era q r), next_shift. destruct (Z.eq_dec r 146096) as [E|E].
  - rewrite <-(Z.div_unique (x + 1) 146097 (q + 1) 0), <-(Z.mod_unique (x + 1) 146097 (q + 1) 0) by lia.
    rewrite E, within_era. change (next_date (within 0 146096)) with (400, 3, 1). change (within 0 0) with (0, 3, 1).
    unfold shift. do 2 f_equal. lia.
  - rewrite <-(Z.div_unique (x + 1) 146097 q (r + 1)), <-(Z.mod_unique (x + 1) 146097 q (r + 1)) by lia.
    rewrite (within_era q (r + 1)). f_equal. apply era_walks. lia.
Qed.

Lemma civil_days_walk_the_calendar_witness : i32 20634 /\ civil_date 20635 = next_date (civil_date 20634).
Proof. split; [done|]. apply (civil_days_walk_the_calendar 20634); by vm_compute. Defined.

End CalendarSpec.

Module StagingSpec.
Import Calendar Staging.

(** ** The fingerprint of rows *)

Definition cell_bytes (t : DataType) (c : Cell) : list Z :=
  match t, c with
  | Int64, CInt (Some v) => 1 :: le_signed 8 v
  | Float64, COther (Some v) => 2 :: le_bytes 8 (Fingerprints.canonical_bits (of_le v))
  | Utf8, COther (Some v) | Utf8View, COther (Some v) => Fingerprints.encode_str 3 v
  | Boolean, COther (Some v) => [4; Z.b2z (bool_decide (v = [1]))]
  | _, _ => [0]
  end.

Definition row_bytes (s : ArrowSchema) (r : list Cell) : list Z := List.flat_map (fun fc => cell_bytes (f_type fc.1) fc.2) (zip s r).

(** The types the fingerprint knows. *)
Definition fingerprinted (s : ArrowSchema) : Prop := Forall (fun f => match f_type f with OtherType _ => False | _ => True end) s.

Lemma enc_opaque (vs : list (option (list Z))) emit row v out : vs !! row = Some v ->
  match v with None => [0] | Some a => emit a end = out -> Fingerprints.enc vs emit row = out.
Proof. intros E <-. unfold Fingerprints.enc, Fingerprints.at_row. by rewrite E. Qed.
Lemma enc_mapped {A} (vs : list (option (list Z))) (g : list Z -> A) emit row v out : vs !! row = Some v ->
  match v with None => [0] | Some a => emit (g a) end = out -> Fingerprints.enc (List.map (option_map g) vs) emit row = out.
Proof. intros E <-. unfold Fingerprints.enc, Fingerprints.at_row. rewrite lookup_map, E. by destruct v. Qed.

Lemma column_encoder nm t n a : (match t with OtherType _ => False | _ => True end) -> array_has_type t a -> array_len a = n ->
  exists e, Fingerprints.physical_encoder nm (physical_array a) = Ok e /\
    forall row, (row < n)%nat -> e row = cell_bytes t (default (CInt None) (array_cells a !! row)).
Proof.
  intros K T L. destruct a as [vs|t' vs]; simpl in T.
  - subst t. eexists. split; [done|]. intros row R. simpl. unfold Fingerprints.enc, Fingerprints.at_row. rewrite list_lookup_fmap.
    simpl in L. destruct (lookup_lt_is_Some_2 vs row) as [v Hv]; [lia|]. rewrite Hv. simpl. by destruct v.
  - destruct T as [-> N]. simpl in L. subst n.
    destruct t'; try done; eexists; (split; [reflexivity|]); intros row R; destruct (lookup_lt_is_Some_2 vs row R) as [v Hv];
      [refine (enc_mapped vs _ _ row v _ Hv _)|refine (enc_opaque vs _ row v _ Hv _)|refine (enc_opaque vs _ row v _ Hv _)
      |refine (enc_mapped vs _ _ row v _ Hv _)]; cbn [array_cells]; rewrite lookup_map, Hv; by destruct v.
Qed.

Lemma batch_encoders s n cols : fingerprinted s -> Forall2 (fun f c => array_has_type (f_type f) c /\ array_len c = n) s cols ->
  exists es, mapr (fun c => Fingerprints.physical_encoder c.1 c.2) (zip (List.map f_name s) (List.map physical_array cols)) = Ok es /\
    forall row, (row < n)%nat -> Fingerprints.encode_row es row = row_bytes s (heads (List.map array_cells cols) row).
Proof.
  intros K F. induction F as [|f c s cols [T L] F IH]; [by exists []|]. apply Forall_cons in K as [Kf K].
  destruct (IH K) as (es & E & R). destruct (column_encoder (f_name f) (f_type f) n c Kf T L) as (e & Ee & Re).
  exists (e :: es). simpl. rewrite Ee. simpl. rewrite E. split; [done|]. intros row H. unfold Fingerprints.encode_row in *. simpl.
  rewrite R, Re by done. done.
Qed.

#[local] Existing Instance Fingerprints.RowMultiset_eq_dec.
Section spec.
Context `{WritePlatform}.
Context (open_parquet : list Z -> result (list (result RecordBatch string)) string).
Context (parquet_bytes : Schema.WriterProperties -> ArrowSchema -> RecordBatch -> result (list Z) string).
Context (create_fails : string -> bool).
Context (blake3_len : forall b, length (blake3 b) = 32%nat) (orders : lexsort_orders).

(** The fingerprint of some rows. *)
Definition multiset (s : ArrowSchema) (rows : list (list Cell)) : Fingerprints.RowMultiset :=
  FingerprintsSpec.of_rows blake3 (List.map (row_bytes s) rows).

Lemma multiset_perm s rows rows' : rows ≡ₚ rows' -> multiset s rows = multiset s rows'.
Proof. intros P. apply FingerprintsSpec.of_rows_perm; [done|]. by apply Permutation_map. Qed.

Lemma update_rows s rows more m : s <> [] -> fingerprinted s -> Forall (wf_row s) more ->
  m = multiset s rows -> update m (of_rows s more) = Ok (multiset s (rows ++ more)).
Proof.
  intros Ne K W ->. pose proof (of_rows_ok s more) as B. apply ok_columns in B as B'. destruct B' as [_ F].
  destruct (batch_encoders s (length more) _ K F) as (es & E & R).
  unfold update, Fingerprints.physical_update, Fingerprints.physical_encoders, physical_batch. cbn [rb_schema of_rows Fingerprints.columns].
  rewrite E. simpl. f_equal. unfold multiset, FingerprintsSpec.of_rows. rewrite List.map_app, List.fold_left_app.
  unfold Fingerprints.fold_rows. rewrite <-(batch_rows_of_rows s more Ne W) at 2. unfold batch_rows.
  change (num_rows (of_rows s more)) with (num_rows (of_rows s more)). rewrite (ok_num_rows s _ _ Ne B).
  cbn [Fingerprints.num_rows]. rewrite List.map_map. generalize (List.fold_left (fun m b => Fingerprints.fold m (blake3 b)) (List.map (row_bytes s) rows) Fingerprints.default_multiset).
  assert (G : forall rs m, Forall (fun r => (r < length more)%nat) rs ->
    List.fold_left (fun m row => Fingerprints.fold m (blake3 (Fingerprints.encode_row es row))) rs m =
    List.fold_left (fun m b => Fingerprints.fold m (blake3 b)) (List.map (fun x => row_bytes s (heads (List.map array_cells (rb_columns (of_rows s more))) x)) rs) m).
  { induction rs as [|r rs IH]; intros m F'; simpl; [done|]. apply Forall_cons in F' as [Fr F']. rewrite R by done. by apply IH. }
  intros m. apply G. apply Forall_forall. intros r Hr. apply list_elem_of_In, List.in_seq in Hr. lia.
Qed.

(** ** Rows under Arrow's kernels *)

Lemma slice_rows s rows o k : batch_slice o k (of_rows s rows) = of_rows s (take k (drop o rows)).
Proof.
  unfold batch_slice, of_rows. simpl. f_equal. generalize 0%nat. induction s as [|f s IH]; intros j; simpl; [done|]. rewrite IH. f_equal.
  unfold cells_array, row_column. destruct (f_type f); simpl; by rewrite !skipn_map, !firstn_map.
Qed.

Lemma num_rows_of_rows s rows : s <> [] -> num_rows (of_rows s rows) = length rows.
Proof. intros Ne. by eapply ok_num_rows, of_rows_ok. Qed.

Lemma append_columns t rowss j rows : List.fold_left array_append (List.map (fun r => cells_array t (row_column r j)) rowss) (cells_array t (row_column rows j)) =
  cells_array t (row_column (rows ++ concat rowss) j).
Proof.
  revert rows. induction rowss as [|r rowss IH]; intros rows; simpl; [by rewrite app_nil_r|].
  rewrite <-cells_array_app. assert (row_column rows j ++ row_column r j = row_column (rows ++ r) j) as -> by (unfold row_column; by rewrite List.map_app).
  by rewrite IH, app_assoc.
Qed.

Lemma concat_of_rows s rowss b : rowss <> [] -> concat_batches s (List.map (of_rows s) rowss) = Ok b -> b = of_rows s (concat rowss).
Proof.
  intros Ne C. unfold concat_batches in C. inv_ok. destruct (Expr.try_new_error _ _); [done|]. injection C as <-. unfold of_rows. f_equal.
  apply mapr_Forall2 in E. apply list_eq_Forall2. apply Forall2_same_length_lookup_2.
  { apply Forall2_length in E. rewrite List.length_seq in E. rewrite <-E. pose proof (of_rows_ok s (concat rowss)) as B.
    apply ok_columns in B as [_ F]. by apply Forall2_length in F. }
  intros j c c' Hc Hc'. destruct (Forall2_lookup_r _ _ _ _ _ E Hc) as (j' & Hj & Ej). apply lookup_seq in Hj as [-> Hj]. simpl in Ej.
  destruct (lookup_lt_is_Some_2 s j Hj) as [f Hf]. pose proof (rows_columns_lookup s (concat rowss) 0 j f Hf) as Q. simpl in Q.
  rewrite Q in Hc'. injection Hc' as <-. unfold concat_columns in Ej. inv_ok. apply mapr_Forall2 in E0.
  assert (a0 = List.map (fun r => cells_array (f_type f) (row_column r j)) rowss) as ->.
  { clear -E0 Hf. revert a0 E0. induction rowss as [|r rowss IH]; intros cs F; inversion F as [|? c ? cs' Hc F']; subst; [done|]. simpl. f_equal; [|by apply IH].
    simpl in Hc. rewrite (rows_columns_lookup s r 0 j f Hf) in Hc. simpl in Hc. by injection Hc. }
  destruct rowss as [|r rowss]; [done|]. simpl in Ej. case_bool_decide; [|done]. injection Ej as <-. by rewrite append_columns.
Qed.

(** ** The days of a flush *)

Lemma day_push_rows day row m : concat (List.map snd (day_push day row m)) ≡ₚ concat (List.map snd m) ++ [row].
Proof.
  induction m as [|[d rows] m IH]; simpl; [done|]. destruct (day <? d); [by rewrite Permutation_app_comm|].
  destruct (day =? d); simpl; [by rewrite <-!app_assoc, (Permutation_app_comm [row])|]. by rewrite IH, app_assoc.
Qed.

Section days.
Context (vs : list (option Z)).

Definition day_of (row : nat) : Z := days_since_epoch (ts_value vs row).
Definition in_window (t : Z) : Prop := FIXTURE_WINDOW_START_MS <= t < FIXTURE_WINDOW_END_MS.

(** The groups of the rows seen: ascending days, the rows of each. *)
Definition day_groups (days : list (Z * list nat)) : Prop :=
  StronglySorted Z.lt (List.map fst days) /\
  Forall (fun g => g.2 <> [] /\ Forall (fun row => day_of row = g.1 /\ in_window (ts_value vs row)) g.2) days.

Lemma day_push_keys day row m : Forall (fun d => d = day \/ d ∈ List.map fst m) (List.map fst (day_push day row m)).
Proof.
  induction m as [|[d rows] m IH]; simpl; [by repeat constructor|]. destruct (day <? d).
  { constructor; [by left|]. apply Forall_forall. intros x I. by right. }
  destruct (day =? d); [apply Forall_forall; intros x I; by right|]. constructor; [right; left|].
  apply (Forall_impl _ _ _ IH). intros x [|]; [by left|right; by right].
Qed.

Lemma day_push_groups row m : in_window (ts_value vs row) -> day_groups m -> day_groups (day_push (day_of row) row m).
Proof.
  intros W [S F]. induction m as [|[d rows] m IH]; simpl in *.
  { split; [by repeat constructor|]. apply Forall_singleton. split; [done|]. by apply Forall_singleton. }
  apply Forall_cons in F as [[F1 F2] F]. inversion S as [|? ? S' L]; subst. simpl in F1, F2. destruct (Z.ltb_spec (day_of row) d) as [Lt|Ge].
  - split; [|constructor; [split; [done|by apply Forall_singleton]|by constructor]]. constructor; [done|]. constructor; [done|]. apply (Forall_impl _ _ _ L). intros x I. simpl. lia.
  - destruct (Z.eqb_spec (day_of row) d) as [E|Ne].
    + split; [done|]. constructor; [|done]. simpl. split; [by destruct rows|]. apply Forall_app. split; [done|]. by apply Forall_singleton.
    + destruct (IH S' F) as [S'' F'']. split; [|by constructor]. constructor; [done|]. rewrite Forall_forall. intros x I.
      pose proof (day_push_keys (day_of row) row m) as K. rewrite Forall_forall in K. simpl. destruct (K x I) as [->|I']; [lia|].
      rewrite Forall_forall in L. by apply L.
Qed.

Lemma group_days_spec rows : Forall (fun row => Z.of_nat row < 2 ^ 32) rows -> forall m days, day_groups m ->
  group_days vs rows m = Ok days -> day_groups days /\ concat (List.map snd days) ≡ₚ concat (List.map snd m) ++ rows.
Proof.
  induction rows as [|row rows IH]; intros B m days D G; simpl in G; [injection G as <-; by rewrite app_nil_r|].
  apply Forall_cons in B as [B1 B]. destruct (Z.leb_spec FIXTURE_WINDOW_START_MS (ts_value vs row)); [|done].
  destruct (Z.ltb_spec (ts_value vs row) FIXTURE_WINDOW_END_MS); [|done]. simpl in G.
  rewrite Z.mod_small, Nat2Z.id in G by lia. destruct (IH B _ _ (day_push_groups row m ltac:(done) D) G) as [D' P].
  split; [done|]. rewrite P, (day_push_rows _ row m), <-app_assoc. done.
Qed.
End days.

(** ** One flush *)

(** A sorted day of a flush. *)
Record run := mkRun { r_flush : Z; r_day : Z; r_rows : list (list Cell) }.

Section table.
Context (cols : Schema.TableColumns) (sort_key : list string) (ts_idx key_idx : nat) (ix : list nat) (flush_rows : nat).
#[local] Notation s := (Schema.physical_schema cols).
Context (Ix : sort_indices s sort_key ix) (known : fingerprinted s).
Context (ts_int : exists f, s !! ts_idx = Some f /\ f_type f = Int64) (key_int : exists f, s !! key_idx = Some f /\ f_type f = Int64).

Lemma schema_cons : s <> [].
Proof. destruct ts_int as (f & E & _). by intros Z; rewrite Z in E. Qed.

Lemma int_column idx rows : (exists f, s !! idx = Some f /\ f_type f = Int64) ->
  rb_columns (of_rows s rows) !! idx = Some (Int64Array (List.map (int_at idx) rows)).
Proof.
  intros (f & E & T). cbn [rb_columns of_rows]. rewrite (rows_columns_lookup s rows 0 idx f E), T. simpl. unfold row_column.
  by rewrite List.map_map.
Qed.

(** What a staged file is. *)
Record staged (r : run) (f : L0File) (disk : string * list Z) : Prop := mkStaged {
  sg_path : lf_path f = l0_path (civil_from_days (r_day r)) (r_flush r) /\ disk.1 = lf_path f;
  sg_name : lf_day f = civil_from_days (r_day r) /\ flush_index f = r_flush r;
  sg_rows : lf_rows f = len (r_rows r) /\ r_rows r <> [] /\ (length (r_rows r) <= flush_rows)%nat;
  sg_bytes : parquet_bytes (Schema.writer_props s sort_key (Schema.from_columns cols sort_key 0)) s (of_rows s (r_rows r)) = Ok disk.2 /\
    lf_bytes f = len disk.2 /\ lf_digest f = digest_bytes blake3 disk.2;
  sg_sorted : StronglySorted row_le (List.map (row_key ix) (r_rows r));
  sg_window : 20635 <= r_day r <= 20648;
  sg_times : Forall (fun row => forall t, int_at ts_idx row = Some t ->
    days_since_epoch t = r_day r /\ in_window t /\ lf_ts_min f <= t <= lf_ts_max f) (r_rows r);
  sg_keys : Forall (fun row => forall k, int_at key_idx row = Some k -> lf_key_min f <= k <= lf_key_max f) (r_rows r);
}.

(** What a writer has done between two points. *)
Record wrote (w w' : Writer) (runs : list run) (fds : list (L0File * (string * list Z))) : Prop := mkWrote {
  wr_files : w_files w' = w_files w ++ List.map fst fds;
  wr_disk : w_disk w' = w_disk w ++ List.map snd fds;
  wr_input : input_fp w' = input_fp w /\ input_rows w' = input_rows w;
  wr_output : forall R, output_fp w = multiset s R -> output_fp w' = multiset s (R ++ concat (List.map r_rows runs));
  wr_rows : output_rows w' = output_rows w + len (concat (List.map r_rows runs));
  wr_staged : Forall2 (fun r fd => staged r fd.1 fd.2) runs fds;
}.

Lemma wrote_nil w : wrote w w [] [].
Proof. constructor; simpl; rewrite ?app_nil_r, ?len_nil, ?Z.add_0_r; try done. intros R. by rewrite app_nil_r. Qed.

Lemma wrote_trans w1 w2 w3 r1 f1 r2 f2 : wrote w1 w2 r1 f1 -> wrote w2 w3 r2 f2 -> wrote w1 w3 (r1 ++ r2) (f1 ++ f2).
Proof.
  intros [A1 A2 [A3 A4] A5 A6 A7] [B1 B2 [B3 B4] B5 B6 B7]. constructor.
  - by rewrite B1, A1, List.map_app, app_assoc.
  - by rewrite B2, A2, List.map_app, app_assoc.
  - split; congruence.
  - intros R E. rewrite (B5 _ (A5 R E)), List.map_app, concat_app, app_assoc. done.
  - rewrite B6, A6, List.map_app, concat_app, len_app. lia.
  - by apply Forall2_app.
Qed.

Lemma range_spec idx rows lo hi : (exists f, s !! idx = Some f /\ f_type f = Int64) ->
  int64_range (of_rows s rows) idx = Ok (lo, hi) -> Forall (fun row => forall k, int_at idx row = Some k -> lo <= k <= hi) rows.
Proof.
  intros T. unfold int64_range. rewrite (int_column idx rows T). simpl. intros R.
  destruct (column_min _) as [a|] eqn:Mn; [|done]. destruct (column_max _) as [b|] eqn:Mx; [|done]. simpl in R. injection R as <- <-.
  apply Forall_forall. intros row I k K. apply (Pruning.value_range_spec (List.map (int_at idx) rows)); [unfold value_range; by rewrite Mn, Mx|].
  rewrite <-K. apply list_elem_of_In, List.in_map. by apply list_elem_of_In.
Qed.

(** The window's days. *)
Lemma window_days t : in_window t -> 20635 <= days_since_epoch t <= 20648.
Proof.
  unfold in_window, FIXTURE_WINDOW_END_MS, FIXTURE_WINDOW_START_MS, FIXTURE_WINDOW_DAYS. intros W. unfold days_since_epoch.
  assert (20635 <= t / 86400000 <= 20648) by (split; [apply Z.div_le_lower_bound; lia|apply Z.lt_succ_r, Z.div_lt_upper_bound; lia]).
  rewrite CalendarSpec.wrap_i32_id; [done|]. unfold CalendarSpec.i32. lia.
Qed.

Section flush.
Context (rows : list (list Cell)) (wf : Forall (wf_row s) rows) (few : (length rows <= flush_rows)%nat).
#[local] Notation times := (List.map (int_at ts_idx) rows).

Lemma picked_wf idxs : Forall (wf_row s) (omap (rows !!.) idxs).
Proof. apply Forall_forall. intros r I. apply list_elem_of_omap in I as (i & _ & E). rewrite Forall_forall in wf. eapply wf, list_elem_of_lookup_2, E. Qed.

Lemma write_day_spec index w day w' :
  day.2 <> [] -> Forall (fun row => (row < length rows)%nat) day.2 -> NoDup day.2 ->
  Forall (fun row => day_of times row = day.1 /\ in_window (ts_value times row)) day.2 ->
  write_day parquet_bytes create_fails cols sort_key ts_idx key_idx index (of_rows s rows) w day = Ok w' ->
  exists rows' fd, wrote w w' [mkRun index day.1 rows'] [fd] /\ rows' ≡ₚ omap (rows !!.) day.2.
Proof.
  intros Ne Lt ND Dy. unfold write_day. rewrite take_rows. set (picked := omap (rows !!.) day.2). intros W.
  destruct (sort_batch (of_rows s picked) sort_key) as [sb|] eqn:Sb; [|done]. simpl in W.
  destruct (sort_batch_spec s (length picked) _ _ ix _ orders schema_cons (of_rows_ok s picked) Ix Sb) as (rows' & -> & P & So).
  rewrite (batch_rows_of_rows s picked schema_cons (picked_wf day.2)) in P.
  assert (W' : Forall (wf_row s) rows') by (rewrite P; apply picked_wf).
  destruct (update (output_fp w) (of_rows s rows')) as [fp|] eqn:U; [|done]. simpl in W.
  destruct (write_file _ _ _ _ _ _ _ _) as [[[raw keys] times]|] eqn:F; [|done]. simpl in W. injection W as <-.
  unfold write_file in F. destruct (create_fails _); [done|]. destruct (parquet_bytes _ _ _) as [raw'|] eqn:Pb; [|done]. simpl in F.
  destruct (int64_range _ key_idx) as [[klo khi]|] eqn:K; [|done]. simpl in F.
  destruct (int64_range _ ts_idx) as [[tlo thi]|] eqn:T; [|done]. simpl in F. injection F as -> <- <-.
  assert (Len : length picked = length day.2).
  { unfold picked. clear -Lt. induction Lt as [|i l H _ IH]; csimpl; [done|]. apply lookup_lt_is_Some_2 in H as [r ->]. csimpl. by rewrite IH. }
  assert (Few : (length day.2 <= length rows)%nat).
  { rewrite <-(List.length_seq (length rows) 0). apply NoDup_incl_length; [by apply NoDup_ListNoDup|]. intros i I. apply List.in_seq.
    apply list_elem_of_In in I. rewrite Forall_forall in Lt. specialize (Lt i I). lia. }
  assert (Nr : r_rows (mkRun index day.1 rows') <> []).
  { simpl. intros ->. apply Permutation_nil_l, (f_equal length) in P. rewrite Len in P. by destruct day.2. }
  exists rows'. eexists (_, (_, _)). split; [|exact P]. rewrite (num_rows_of_rows s rows' schema_cons). constructor; simpl; try done.
  - intros R E. rewrite app_nil_r. rewrite (update_rows s R rows' _ schema_cons known W' E) in U. by injection U.
  - rewrite app_nil_r. unfold len. done.
  - constructor; [|constructor]. simpl. constructor; simpl; try done.
    + split_and!; [done|done|]. rewrite (Permutation_length P), Len. lia.
    + destruct day.2 as [|i l]; [done|]. apply Forall_cons in Dy as [[<- Wi] _]. by apply window_days.
    + apply Forall_forall. intros row I t E. pose proof I as I'. rewrite P in I. apply list_elem_of_omap in I as (i & Ii & Hi).
      rewrite Forall_forall in Dy. destruct (Dy i Ii) as [D1 D2]. unfold day_of, ts_value in D1, D2. rewrite lookup_map, Hi in D1, D2. simpl in D1, D2.
      rewrite E in D1, D2. split; [done|split; [done|]]. pose proof (range_spec ts_idx rows' tlo thi ts_int T) as Q. rewrite Forall_forall in Q. by apply (Q row).
    + by apply range_spec.
Qed.

Lemma write_days_spec index days : forall w w',
  Forall (fun g => g.2 <> [] /\ Forall (fun row => day_of times row = g.1 /\ in_window (ts_value times row)) g.2) days ->
  Forall (fun row => (row < length rows)%nat) (concat (List.map snd days)) -> NoDup (concat (List.map snd days)) ->
  write_days parquet_bytes create_fails cols sort_key ts_idx key_idx index (of_rows s rows) days w = Ok w' ->
  exists runs fds, wrote w w' runs fds /\ Forall (fun r => r_flush r = index) runs /\ List.map r_day runs = List.map fst days /\
    concat (List.map r_rows runs) ≡ₚ omap (rows !!.) (concat (List.map snd days)).
Proof.
  induction days as [|day days IH]; intros w w' G L ND W; simpl in W.
  { injection W as <-. exists [], []. split_and!; [apply wrote_nil|constructor|done|done]. }
  simpl in L, ND. apply Forall_app in L as [L1 L]. apply NoDup_app in ND as (N1 & _ & ND). apply Forall_cons in G as [[G1 G2] G].
  destruct (write_day _ _ _ _ _ _ _ _ _ _) as [w1|] eqn:W1; [|done]. simpl in W.
  destruct (write_day_spec index w day w1 G1 L1 N1 G2 W1) as (rows' & fd & Wr & P).
  destruct (IH _ _ G L ND W) as (runs & fds & Wr' & Fl & Dy & P'). exists (mkRun index day.1 rows' :: runs), (fd :: fds). split_and!.
  - by apply (wrote_trans _ _ _ [_] [_] _ _ Wr).
  - by constructor.
  - simpl. by rewrite Dy.
  - simpl. rewrite P, P', omap_app. done.
Qed.

Lemma flush_wrote index w w' : Z.of_nat (length rows) <= 2 ^ 32 ->
  flush parquet_bytes create_fails cols sort_key ts_idx key_idx index (of_rows s rows) w = Ok w' ->
  exists runs fds, wrote w w' runs fds /\ Forall (fun r => r_flush r = index) runs /\ NoDup (List.map r_day runs) /\
    concat (List.map r_rows runs) ≡ₚ rows.
Proof.
  intros B. unfold flush. rewrite (int_column ts_idx rows ts_int). simpl. rewrite (num_rows_of_rows s rows schema_cons).
  destruct (group_days times _ []) as [days|] eqn:G; [|done]. simpl. intros W.
  destruct (group_days_spec times (seq 0 (length rows))) with (m := @nil (Z * list nat)) (days := days) as [D P]; try done.
  { apply Forall_forall. intros i I. apply list_elem_of_In, List.in_seq in I. lia. }
  { split; constructor. }
  simpl in P. destruct D as [So D]. apply (write_days_spec index days w w' D) in W as (runs & fds & Wr & Fl & Dy & P').
  - exists runs, fds. split_and!; [done|done| |].
    + rewrite Dy. clear -So. induction So as [|d l _ IH F]; constructor; [|done]. intros I. rewrite Forall_forall in F. specialize (F d I). lia.
    + rewrite P', P. by rewrite omap_lookup_seq.
  - rewrite P. apply Forall_forall. intros i I. apply list_elem_of_In, List.in_seq in I. lia.
  - rewrite P. apply NoDup_ListNoDup, List.seq_NoDup.
Qed.
End flush.

(** ** Failures *)

(** The failures that would blame the tool: the two checks, and the loop. *)
Definition benign (e : StageError) : Prop := match e with CensusMismatch _ _ | FingerprintMismatch | Hangs => False | _ => True end.

Definition benign_result {A} (r : result A StageError) : Prop := match r with Ok _ => True | Err e => benign e end.

Lemma benign_bind {A B} (r : result A StageError) (k : A -> result B StageError) :
  benign_result r -> (forall a, r = Ok a -> benign_result (k a)) -> benign_result (rbind r k).
Proof. destruct r; simpl; auto. Qed.
Lemma benign_map {A E} (f : E -> StageError) (r : result A E) : (forall e, benign (f e)) -> benign_result (map_err f r).
Proof. destruct r; simpl; auto. Qed.
Lemma benign_ok_or {A} (o : option A) e : benign e -> benign_result (ok_or o e).
Proof. destruct o; simpl; auto. Qed.
Lemma benign_mapr {A B} (f : A -> result B StageError) l : (forall a, benign_result (f a)) -> benign_result (mapr f l).
Proof. intros F. induction l as [|a l IH]; simpl; [done|]. apply benign_bind; [done|]. intros b _. by apply benign_bind. Qed.

#[local] Hint Resolve benign_bind benign_map benign_ok_or benign_mapr : staging.
#[local] Hint Extern 1 (benign _) => exact I : staging.
#[local] Hint Extern 1 (benign_result (Ok _)) => exact I : staging.
#[local] Hint Extern 1 (benign_result (Err _)) => exact I : staging.

Lemma concat_benign bs : benign_result (concat_batches s bs).
Proof.
  unfold concat_batches, concat_columns. apply benign_bind; [|intros c _; by destruct (Expr.try_new_error _ _)].
  apply benign_mapr. intros j. apply benign_bind; [apply benign_mapr; auto with staging|]. intros [|a l] _; [done|]. by case_bool_decide.
Qed.

Lemma range_benign b idx : benign_result (int64_range b idx).
Proof. unfold int64_range. repeat (apply benign_bind; [by apply benign_ok_or|intros ? _]). done. Qed.

Lemma group_benign vs rows : forall m, benign_result (group_days vs rows m).
Proof. induction rows as [|row rows IH]; intros m; simpl; [done|]. by destruct (_ && _). Qed.

Lemma flush_benign index b w : benign_result (flush parquet_bytes create_fails cols sort_key ts_idx key_idx index b w).
Proof.
  unfold flush. apply benign_bind; [by apply benign_ok_or|]. intros vs _. apply benign_bind; [apply group_benign|]. intros days _.
  revert w. induction days as [|day days IH]; intros w; simpl; [done|]. apply benign_bind; [|intros w' _; apply IH].
  unfold write_day. apply benign_bind; [by apply benign_map|]. intros sb _. apply benign_bind; [by apply benign_map|]. intros fp _.
  apply benign_bind; [|by intros [[raw keys] times] _]. unfold write_file. destruct (create_fails _); [done|].
  apply benign_bind; [by apply benign_map|]. intros raw _. apply benign_bind; [apply range_benign|]. intros k _. apply benign_bind; [apply range_benign|done].
Qed.

(** ** The loops *)

(** What a writer holds of the rows read, and the rows still to come. *)
Record holds (R : list (list Cell)) (w : Writer) (runs : list run) (fds : list (L0File * (string * list Z))) (rest : list (list Cell)) : Prop := mkHolds {
  ho_files : w_files w = List.map fst fds;
  ho_disk : w_disk w = List.map snd fds;
  ho_in : input_fp w = multiset s R /\ input_rows w = len R;
  ho_out : output_fp w = multiset s (concat (List.map r_rows runs)) /\ output_rows w = len (concat (List.map r_rows runs));
  ho_staged : Forall2 (fun r fd => staged r fd.1 fd.2) runs fds;
  ho_all : R ≡ₚ concat (List.map r_rows runs) ++ rest;
  ho_keys : NoDup (List.map (fun r => (r_flush r, r_day r)) runs);
}.

Lemma holds_flush R w runs fds rows rest w' index :
  holds R w runs fds (rows ++ rest) -> Forall (wf_row s) rows -> (length rows <= flush_rows)%nat -> Z.of_nat (length rows) <= 2 ^ 32 ->
  Forall (fun r => r_flush r < index) runs ->
  flush parquet_bytes create_fails cols sort_key ts_idx key_idx index (of_rows s rows) w = Ok w' ->
  exists new fds', holds R w' (runs ++ new) (fds ++ fds') rest /\ Forall (fun r => r_flush r = index) new /\ concat (List.map r_rows new) ≡ₚ rows.
Proof.
  intros [A1 A2 [A3 A4] [A5 A6] A7 A8 A9] W F B Lt E. destruct (flush_wrote rows W F index w w' B E) as (new & fds' & [B1 B2 [B3 B4] B5 B6 B7] & Fl & Dy & P).
  exists new, fds'. split_and!; [|done|done]. constructor.
  - by rewrite B1, A1, List.map_app.
  - by rewrite B2, A2, List.map_app.
  - split; congruence.
  - rewrite List.map_app, concat_app, len_app. split; [by apply B5|lia].
  - by apply Forall2_app.
  - rewrite A8, List.map_app, concat_app, P, app_assoc. done.
  - rewrite List.map_app. apply NoDup_app. split_and!; [done| |].
    + intros [i d] I J. apply list_elem_of_In, List.in_map_iff in I as (r & [= <- <-] & I). apply list_elem_of_In, List.in_map_iff in J as (r' & [= E1 _] & J).
      rewrite Forall_forall in Lt, Fl. apply list_elem_of_In in I, J. specialize (Lt r I). specialize (Fl r' J). lia.
    + apply (NoDup_fmap_1 snd). rewrite <-list_fmap_compose. exact Dy.
Qed.

Context (flush_pos : (0 < flush_rows)%nat).

Record buffered (R : list (list Cell)) (p : Buffer) (runs : list run) (fds : list (L0File * (string * list Z))) (pend : list (list (list Cell))) : Prop := mkBuffered {
  bu_holds : holds R (writer p) runs fds (concat pend);
  bu_pending : pending p = List.map (of_rows s) pend;
  bu_rows : pending_rows p = length (concat pend);
  bu_wf : Forall (wf_row s) (concat pend);
  bu_next : 0 <= next_flush p <= len (concat (List.map r_rows runs));
  bu_flushes : Forall (fun r => 0 <= r_flush r < next_flush p) runs;
}.

Definition buffer_inv (R : list (list Cell)) (p : Buffer) : Prop := exists runs fds pend, buffered R p runs fds pend.

#[local] Notation drain := (drain parquet_bytes create_fails cols sort_key ts_idx key_idx flush_rows).
#[local] Notation read_batch := (read_batch parquet_bytes create_fails cols sort_key ts_idx key_idx flush_rows).
#[local] Notation read_batches := (read_batches parquet_bytes create_fails cols sort_key ts_idx key_idx flush_rows).

(** What a stage of the loop answers. *)
Definition keeps (R : list (list Cell)) (r : result Buffer StageError) : Prop :=
  match r with Ok p => buffer_inv R p /\ (pending_rows p < flush_rows)%nat | Err e => benign e end.

Lemma rest_rows rows : of_rows s (drop flush_rows rows) = batch_slice flush_rows (length rows - flush_rows) (of_rows s rows).
Proof. rewrite slice_rows, take_ge; [done|]. by rewrite length_drop. Qed.

Lemma drain_buffer R : len R < 2 ^ 32 -> forall fuel p, (pending_rows p < fuel)%nat -> buffer_inv R p -> keeps R (drain fuel p).
Proof.
  intros B. induction fuel as [|fuel IH]; intros p L I; [lia|]. simpl. destruct (Nat.leb_spec flush_rows (pending_rows p)) as [G|G]; [|done].
  destruct I as (runs & fds & pend & [Ho Pe Ro Wf [N1 N2] Fl]). rewrite Pe.
  pose proof (concat_benign (List.map (of_rows s) pend)) as Cb. destruct (concat_batches s _) as [all|e] eqn:C; [|exact Cb]. simpl.
  apply concat_of_rows in C as ->; [|intros ->; simpl in Ro; lia]. set (rows := concat pend) in *.
  rewrite (num_rows_of_rows s rows schema_cons), <-rest_rows, slice_rows, drop_0, (num_rows_of_rows s _ schema_cons).
  pose proof (flush_benign (next_flush p) (of_rows s (take flush_rows rows)) (writer p)) as Fb.
  destruct (flush _ _ _ _ _ _ _ _ _) as [w|e] eqn:F; [|exact Fb]. simpl.
  assert (Len : (len (concat (List.map r_rows runs)) + len rows = len R)%Z).
  { unfold len. rewrite (Permutation_length (ho_all _ _ _ _ _ Ho)), length_app. lia. }
  assert (Tk : length (take flush_rows rows) = flush_rows) by (rewrite length_take; lia).
  rewrite <-(take_drop flush_rows rows) in Ho, Wf. apply Forall_app in Wf as [Wt Wd].
  destruct (holds_flush R _ runs fds _ _ w _ Ho Wt ltac:(lia) ltac:(unfold len in *; lia) ltac:(apply (Forall_impl _ _ _ Fl); intros x [_ Hx]; exact Hx) F) as (new & fds' & Ho' & Nw & P).
  assert (M : (next_flush p + 1) mod 2 ^ 32 = next_flush p + 1) by (apply Z.mod_small; unfold len in *; lia). rewrite M.
  apply IH.
  { simpl. destruct (Nat.eqb_spec (length (drop flush_rows rows)) 0); rewrite ?(num_rows_of_rows s _ schema_cons), ?length_drop; lia. }
  exists (runs ++ new), (fds ++ fds'), (if Nat.eqb (length (drop flush_rows rows)) 0 then [] else [drop flush_rows rows]).
  assert (Cc : concat (if Nat.eqb (length (drop flush_rows rows)) 0 then [] else [drop flush_rows rows]) = drop flush_rows rows).
  { destruct (Nat.eqb_spec (length (drop flush_rows rows)) 0) as [Z|]; simpl; [by destruct (drop _ _)|by rewrite app_nil_r]. }
  constructor; rewrite ?Cc; simpl.
  - exact Ho'.
  - by destruct (Nat.eqb _ 0).
  - destruct (Nat.eqb_spec (length (drop flush_rows rows)) 0) as [Z|]; [by rewrite Z|by rewrite (num_rows_of_rows s _ schema_cons)].
  - done.
  - rewrite List.map_app, concat_app, len_app. unfold len in *. rewrite (Permutation_length P). lia.
  - apply Forall_app. split; [apply (Forall_impl _ _ _ Fl)|apply (Forall_impl _ _ _ Nw)]; intros x Hx; cbv beta in Hx |- *; lia.
Qed.
(** ** The source's rows *)

Definition item_rows (item : result RecordBatch string) : list (list Cell) := match item with Ok b => batch_rows b | Err _ => [] end.
Definition file_rows (raw : option (list Z)) : list (list Cell) :=
  match raw with Some raw => match open_parquet raw with Ok items => List.flat_map item_rows items | Err _ => [] end | None => [] end.
Definition source_rows (read : string -> option (list Z)) (parts : list ManifestPart) : list (list Cell) :=
  List.flat_map (fun p => file_rows (read (mp_path p))) parts.

(** A source's batches have the declared schema. *)
Definition typed_item (item : result RecordBatch string) : Prop := match item with Ok b => exists n, batch_ok s n b | Err _ => True end.
Definition typed_file (raw : list Z) : Prop := match open_parquet raw with Ok items => Forall typed_item items | Err _ => True end.
Definition typed_source (read : string -> option (list Z)) (parts : list ManifestPart) : Prop :=
  Forall (fun p => match read (mp_path p) with Some raw => typed_file raw | None => True end) parts.

Lemma read_batch_keeps R p item : buffer_inv R p -> typed_item item -> len (R ++ item_rows item) < 2 ^ 32 ->
  keeps (R ++ item_rows item) (read_batch p item).
Proof.
  intros (runs & fds & pend & [Ho Pe Ro Wf [N1 N2] Fl]) T B. destruct item as [b|e]; [|done]. simpl in T, B |- *. destruct T as [n Bo].
  pose proof (ok_num_rows s n b schema_cons Bo) as Nb. pose proof (of_rows_batch s n b Bo Nb) as Eb.
  assert (Wb : Forall (wf_row s) (batch_rows b)) by (apply Forall_forall; intros r I; by eapply batch_rows_wf).
  destruct Ho as [A1 A2 [A3 A4] A5 A7 A8 A9].
  unfold Staging.read_batch. cbn [map_err rbind]. assert (update (input_fp (writer p)) b = Ok (multiset s (R ++ batch_rows b))) as ->.
  { rewrite <-Eb at 1. by apply (update_rows s R (batch_rows b) _ schema_cons known Wb). }
  cbn [rbind].
  apply drain_buffer; [done|cbn [pending_rows]; lia|]. exists runs, fds, (pend ++ [batch_rows b]). constructor; simpl.
  - constructor; simpl; try done.
    + split; [done|]. rewrite A4, len_app. unfold len. by rewrite batch_rows_length.
    + rewrite concat_app. simpl. by rewrite app_nil_r, app_assoc, A8.
  - by rewrite Pe, List.map_app, <-Eb at 1.
  - rewrite concat_app, length_app. simpl. rewrite app_nil_r, batch_rows_length. lia.
  - rewrite concat_app. simpl. rewrite app_nil_r. by apply Forall_app.
  - done.
  - done.
Qed.

Lemma read_batches_keeps items : forall R p, buffer_inv R p -> (pending_rows p < flush_rows)%nat -> Forall typed_item items ->
  len (R ++ List.flat_map item_rows items) < 2 ^ 32 -> keeps (R ++ List.flat_map item_rows items) (read_batches p items).
Proof.
  induction items as [|item items IH]; intros R p I L T B; simpl in B |- *; [by rewrite app_nil_r|].
  apply Forall_cons in T as [T1 T]. rewrite app_assoc in B |- *.
  pose proof (read_batch_keeps R p item I T1 ltac:(rewrite len_app in B; unfold len in *; lia)) as K.
  destruct (read_batch p item) as [p'|e]; [|exact K]. destruct K as [I' L']. by apply IH.
Qed.

Lemma read_parts_keeps read parts : forall R p, buffer_inv R p -> (pending_rows p < flush_rows)%nat -> typed_source read parts ->
  len (R ++ source_rows read parts) < 2 ^ 32 ->
  keeps (R ++ source_rows read parts) (read_parts open_parquet parquet_bytes create_fails cols sort_key ts_idx key_idx flush_rows read p parts).
Proof.
  induction parts as [|part parts IH]; intros R p I L T B; simpl in B |- *; [by rewrite app_nil_r|].
  apply Forall_cons in T as [T1 T]. destruct (read (mp_path part)) as [raw|]; [|done]. simpl in B, T1 |- *. unfold typed_file in T1.
  destruct (open_parquet raw) as [items|e]; [|done]. simpl in B |- *. rewrite app_assoc in B |- *.
  pose proof (read_batches_keeps items R p I L T1 ltac:(rewrite len_app in B; unfold len in *; lia)) as K.
  destruct (read_batches p items) as [p'|e]; [|exact K]. destruct K as [I' L']. by apply IH.
Qed.

(** An artifact that holds the rows [R]. *)
Record artifact (R : list (list Cell)) (files : list L0File) (disk : list (string * list Z)) (runs : list run) : Prop := mkArtifact {
  af_staged : exists fds, files = List.map fst fds /\ disk = List.map snd fds /\ Forall2 (fun r fd => staged r fd.1 fd.2) runs fds;
  af_rows : concat (List.map r_rows runs) ≡ₚ R;
  af_keys : NoDup (List.map (fun r => (r_flush r, r_day r)) runs);
  af_flushes : Forall (fun r => 0 <= r_flush r < 2 ^ 32) runs;
}.

Lemma finish_keeps R p : buffer_inv R p -> (pending_rows p < flush_rows)%nat -> len R < 2 ^ 32 ->
  match finish parquet_bytes create_fails cols sort_key ts_idx key_idx p with
  | Ok w => (exists runs, artifact R (w_files w) (w_disk w) runs) /\
      input_rows w = len R /\ output_rows w = len R /\ output_fp w = multiset s R
  | Err e => benign e
  end.
Proof.
  intros (runs & fds & pend & [Ho Pe Ro Wf [N1 N2] Fl]) L B. unfold finish.
  assert (Done : forall w runs fds, holds R w runs fds [] -> Forall (fun r => 0 <= r_flush r < 2 ^ 32) runs ->
    match (if negb (input_rows w =? output_rows w) then Err (CensusMismatch (input_rows w) (output_rows w))
           else if bool_decide (input_fp w = output_fp w) then Ok w else Err FingerprintMismatch) with
    | Ok w => (exists runs, artifact R (w_files w) (w_disk w) runs) /\ input_rows w = len R /\ output_rows w = len R /\ output_fp w = multiset s R
    | Err e => benign e
    end).
  { clear -blake3_len. intros w runs fds [A1 A2 [A3 A4] [A5 A6] A7 A8 A9] Fl. rewrite app_nil_r in A8.
    assert (input_rows w = output_rows w) as Q by (rewrite A4, A6; unfold len; by rewrite (Permutation_length A8)).
    assert (output_fp w = multiset s R) as Q' by (rewrite A5; by apply multiset_perm). rewrite Q, Z.eqb_refl. simpl.
    rewrite bool_decide_eq_true_2 by congruence. split_and!; [|congruence|congruence|done].
    exists runs. constructor; [by exists fds|by rewrite A8|exact A9|exact Fl]. }
  destruct (Nat.ltb_spec 0 (pending_rows p)) as [G|G].
  - rewrite Pe. pose proof (concat_benign (List.map (of_rows s) pend)) as Cb. destruct (concat_batches s _) as [all|e] eqn:C; [|exact Cb]. simpl.
    apply concat_of_rows in C as ->; [|intros ->; simpl in Ro; lia].
    pose proof (flush_benign (next_flush p) (of_rows s (concat pend)) (writer p)) as Fb.
    destruct (flush _ _ _ _ _ _ _ _ _) as [w|e] eqn:F; [|exact Fb]. simpl.
    assert (Len : (len (concat (List.map r_rows runs)) + len (concat pend) = len R)%Z).
    { unfold len. rewrite (Permutation_length (ho_all _ _ _ _ _ Ho)), length_app. lia. }
    rewrite <-(app_nil_r (concat pend)) in Ho.
    destruct (holds_flush R _ runs fds _ _ w _ Ho Wf ltac:(lia) ltac:(unfold len in *; lia) ltac:(apply (Forall_impl _ _ _ Fl); intros x [_ Hx]; exact Hx) F) as (new & fds' & Ho' & Nw & P).
    apply (Done w _ _ Ho'). apply Forall_app. unfold len in *.
    split; [apply (Forall_impl _ _ _ Fl)|apply (Forall_impl _ _ _ Nw)]; intros x Hx; cbv beta in Hx |- *; lia.
  - simpl. assert (concat pend = []) as Z by (destruct (concat pend); simpl in Ro; [done|lia]). rewrite Z in Ho.
    apply (Done _ _ _ Ho). assert (len (concat (List.map r_rows runs)) <= len R).
    { unfold len. rewrite (Permutation_length (ho_all _ _ _ _ _ Ho)), length_app. lia. }
    unfold len in *. apply (Forall_impl _ _ _ Fl). intros x Hx. cbv beta in Hx |- *. lia.
Qed.
End table.

(** ** Names of files *)

(** The number at the head of a text. *)
Fixpoint number (acc : N) (t : string) : N :=
  match t with
  | String c t => let d := Ascii.N_of_ascii c in if (48 <=? d)%N && (d <=? 57)%N then number (10 * acc + (d - 48)) t else acc
  | EmptyString => acc
  end.

Lemma number_digit acc x t : (x < 10)%N -> number acc (String (pretty_N_char x) t) = number (10 * acc + x) t.
Proof.
  intros L. assert (x = 0 \/ x = 1 \/ x = 2 \/ x = 3 \/ x = 4 \/ x = 5 \/ x = 6 \/ x = 7 \/ x = 8 \/ x = 9)%N as D by lia.
  by destruct_or! D; subst x.
Qed.

Lemma go_app x : forall a b, (pretty_N_go x a +:+ b)%string = pretty_N_go x (a +:+ b).
Proof.
  induction (N.lt_wf_0 x) as [x _ IH]; intros a b. destruct (N.eq_dec x 0) as [->|Ne]; [done|].
  rewrite !(pretty_N_go_step x) by lia. rewrite IH by (apply N.div_lt; lia). done.
Qed.
Lemma go_number x : forall t, number 0 (pretty_N_go x t) = number x t.
Proof.
  induction (N.lt_wf_0 x) as [x _ IH]; intros t. destruct (N.eq_dec x 0) as [->|Ne]; [done|].
  rewrite (pretty_N_go_step x), IH by (lia || apply N.div_lt; lia). rewrite number_digit by (apply N.mod_lt; lia).
  f_equal. pose proof (N.div_mod x 10). lia.
Qed.

Lemma zeros_number n t : number 0 (zeros n +:+ t) = number 0 t.
Proof. induction n as [|[|n] IH]; [done|done|exact IH]. Qed.

Lemma padded_number w n t : 0 <= n -> number 0 ((padded w n +:+ ("." +:+ t))%string) = Z.to_N n.
Proof.
  intros P. unfold padded. destruct (Z.ltb_spec n 0); [lia|].
  assert (E : forall a b c : string, ((a +:+ b) +:+ c = a +:+ (b +:+ c))%string) by (intros a b c; induction a as [|x a IH]; [done|exact (f_equal (String x) IH)]).
  rewrite E, zeros_number. destruct n as [|n|]; [done| |lia].
  change (pretty (Z.pos n)) with (if decide (N.pos n = 0%N) then "0" else pretty_N_go (N.pos n) EmptyString)%string.
  destruct (decide (N.pos n = 0%N)); [done|]. rewrite go_app, go_number. done.
Qed.

Lemma append_eq_len (a b c d : string) : String.length a = String.length c -> (a +:+ b = c +:+ d)%string -> a = c /\ b = d.
Proof. revert c. induction a as [|x a IH]; intros [|y c] L E; try done. injection E as -> E. injection L as L. by destruct (IH c L E) as [-> ->]. Qed.

(** The fixture window's days. *)
Lemma window_names : Forall (fun d => String.length (civil_from_days d) = 10%nat) (List.map (fun k => 20635 + Z.of_nat k) (seq 0 14)) /\
  NoDup (List.map (fun k => civil_from_days (20635 + Z.of_nat k)) (seq 0 14)).
Proof. split; apply (bool_decide_unpack _); by vm_compute. Qed.

Lemma window_index d : 20635 <= d <= 20648 -> exists k, seq 0 14 !! k = Some k /\ d = 20635 + Z.of_nat k.
Proof. intros B. exists (Z.to_nat (d - 20635)). split; [apply lookup_seq; lia|lia]. Qed.

Lemma window_name d d' : 20635 <= d <= 20648 -> 20635 <= d' <= 20648 ->
  String.length (civil_from_days d) = String.length (civil_from_days d') /\ (civil_from_days d = civil_from_days d' -> d = d').
Proof.
  intros (k & K & ->)%window_index (k' & K' & ->)%window_index. destruct window_names as [L U].
  assert (N : forall k, seq 0 14 !! k = Some k -> String.length (civil_from_days (20635 + Z.of_nat k)) = 10%nat).
  { intros j J. rewrite Forall_forall in L. apply L. apply list_elem_of_In, List.in_map_iff. exists j. split; [done|]. apply list_elem_of_In. by eapply list_elem_of_lookup_2. }
  split; [by rewrite !N|]. intros E. do 2 f_equal. apply (NoDup_lookup _ k k' (civil_from_days (20635 + Z.of_nat k)) U).
  - by rewrite lookup_map, K.
  - rewrite lookup_map, K', E. done.
Qed.

Lemma l0_path_inj d d' i i' : 20635 <= d <= 20648 -> 20635 <= d' <= 20648 -> 0 <= i -> 0 <= i' ->
  l0_path (civil_from_days d) i = l0_path (civil_from_days d') i' -> (i, d) = (i', d').
Proof.
  intros D D' I I' E. destruct (window_name d d' D D') as [L U]. unfold l0_path in E. apply (inj (String.append _)) in E.
  destruct (append_eq_len _ _ _ _ L E) as [E1 E2]. apply (inj (String.append _)) in E2.
  assert (Z.to_N i = Z.to_N i').
  { rewrite <-(padded_number 5 i "parquet" I), <-(padded_number 5 i' "parquet" I'). exact (f_equal (number 0) E2). }
  f_equal; [lia|auto].
Qed.

Lemma runs_paths cols sort_key ts_idx key_idx ix flush_rows runs fds :
  Forall2 (fun r fd => staged cols sort_key ts_idx key_idx ix flush_rows r fd.1 fd.2) runs fds -> Forall (fun r => 0 <= r_flush r < 2 ^ 32) runs ->
  NoDup (List.map (fun r => (r_flush r, r_day r)) runs) -> NoDup (List.map (fun fd => lf_path fd.1) fds).
Proof.
  intros F B U. induction F as [|r fd runs fds S F IH]; simpl; [constructor|].
  apply Forall_cons in B as [B1 B]. apply NoDup_cons in U as [U1 U]. apply NoDup_cons. split; [|by apply IH].
  intros I. apply list_elem_of_In, List.in_map_iff in I as (fd' & E & I). apply U1.
  apply list_elem_of_In in I. apply list_elem_of_lookup_1 in I as (k & K). destruct (Forall2_lookup_r _ _ _ _ _ F K) as (r' & K' & S').
  apply list_elem_of_In, List.in_map_iff. exists r'. pose proof (Forall_lookup_1 _ _ _ _ B K') as B'. split.
  - destruct S as [[P _] _ _ _ _ W _ _], S' as [[P' _] _ _ _ _ W' _ _]. rewrite P, P' in E. exact (l0_path_inj _ _ _ _ W' W (proj1 B') (proj1 B1) E).
  - apply list_elem_of_In. by eapply list_elem_of_lookup_2.
Qed.

(** ** An artifact *)

(** A source whose batches have the schema its manifest declares. *)
Record stageable (m : Manifest) (read : string -> option (list Z)) (flush_rows : nat) (cols : Schema.TableColumns) (ts_idx key_idx : nat) (ix : list nat) : Prop := mkStageable {
  so_cols : Schema.parse (t_schema (m_table m)) = Ok cols;
  so_ts : index_of (Schema.physical_schema cols) (t_ts_column (m_table m)) = Some ts_idx;
  so_key : index_of (Schema.physical_schema cols) (t_packing_key (m_table m)) = Some key_idx;
  so_ints : (exists f, Schema.physical_schema cols !! ts_idx = Some f /\ f_type f = Int64) /\
    (exists f, Schema.physical_schema cols !! key_idx = Some f /\ f_type f = Int64);
  so_sort : sort_indices (Schema.physical_schema cols) (t_sort_key (m_table m)) ix;
  so_types : fingerprinted (Schema.physical_schema cols);
  so_source : typed_source cols read (m_parts m);
  so_rows : len (source_rows read (m_parts m)) < 2 ^ 32;
  so_flush : (0 < flush_rows)%nat;
}.

(** The manifest and the files hold the source's rows. *)
Definition conserves (m : Manifest) (read : string -> option (list Z)) (flush_rows : nat) (cols : Schema.TableColumns) (ts_idx key_idx : nat)
    (ix : list nat) (a : L0Manifest * list (string * list Z)) : Prop :=
  let R := source_rows read (m_parts m) in
  l0_input_rows a.1 = len R /\ l0_output_rows a.1 = len R /\
  l0_fingerprint a.1 = row_fingerprint blake3 (multiset (Schema.physical_schema cols) R) /\
  List.map fst a.2 = List.map lf_path (l0_files a.1) /\ NoDup (List.map lf_path (l0_files a.1)) /\
  exists runs, artifact cols (t_sort_key (m_table m)) ts_idx key_idx ix flush_rows R (l0_files a.1) a.2 runs.

#[local] Notation write_all := (write_all open_parquet parquet_bytes create_fails).

Lemma write_all_spec m raw topology read flush_rows cols ts_idx key_idx ix : stageable m read flush_rows cols ts_idx key_idx ix ->
  match write_all m raw topology read flush_rows with
  | Ok a => conserves m read flush_rows cols ts_idx key_idx ix a
  | Err e => benign e
  end.
Proof.
  intros [Ec Et Ek [It Ik] Es Ef Ty B Fp]. unfold Staging.write_all. rewrite Ec. cbn [map_err rbind]. rewrite Et. cbn [ok_or rbind]. rewrite Ek. cbn [ok_or rbind].
  unfold regroup. set (R := source_rows read (m_parts m)) in *.
  assert (I0 : buffer_inv cols (t_sort_key (m_table m)) ts_idx key_idx ix flush_rows [] (mkBuffer [] 0 0 empty_writer)).
  { exists [], [], []. constructor; simpl; [constructor; simpl|..]; try done; constructor. }
  pose proof (read_parts_keeps cols (t_sort_key (m_table m)) ts_idx key_idx ix flush_rows Es Ef It Ik Fp read (m_parts m) [] _ I0 Fp Ty B) as K.
  destruct (read_parts _ _ _ _ _ _ _ _ _ _ _) as [p|e]; [|exact K]. destruct K as [I L]. cbn [rbind].
  pose proof (finish_keeps cols (t_sort_key (m_table m)) ts_idx key_idx ix flush_rows Es Ef It Ik Fp R p I L B) as F.
  destruct (finish _ _ _ _ _ _ _) as [w|e]; [|exact F]. cbn [rbind]. destruct F as ((runs & A) & In & Out & Fw).
  destruct (create_fails "l0-manifest.json"); [done|]. unfold conserves. cbn [fst snd l0_input_rows l0_output_rows l0_fingerprint l0_files].
  rewrite Fw. split_and!; [done|done|done| | |by exists runs].
  - destruct A as [(fds & -> & -> & F) _ _ _]. clear -F. induction F as [|r fd runs fds [[_ P] _ _ _ _ _ _ _] _ IH]; simpl; [done|]. by rewrite P, IH.
  - destruct A as [(fds & -> & _ & F) _ U Fl]. rewrite List.map_map. by eapply runs_paths.
Qed.
(** ** The tool *)

Context (from_slice : list Z -> option json) (manifest_of : json -> option Manifest).

(** A part whose bytes are those of the manifest. *)
Definition verified (read : string -> option (list Z)) (p : ManifestPart) : Prop :=
  exists bs, read (mp_path p) = Some bs /\ digest_bytes blake3 bs = mp_digest p.

Lemma verify_parts_spec read parts :
  match verify_parts read parts with Ok _ => Forall (verified read) parts | Err e => benign e end.
Proof.
  induction parts as [|p parts IH]; simpl; [constructor|]. destruct (read (mp_path p)) as [bs|] eqn:R; [|done]. simpl.
  unfold verify. cbn [fd_digest]. destruct (String.eqb_spec (digest_bytes blake3 bs) (mp_digest p)) as [E|E]; [|done]. simpl.
  destruct (verify_parts read parts) as [[]|e]; [|exact IH]. constructor; [by exists bs|exact IH].
Qed.

(** What is left of an output: it is untouched, or was to be replaced. *)
Definition spared (replace : bool) (output output' : Dir) : Prop :=
  output' = output \/ output <> NoDir /\ replace = true /\ (output' = NoDir \/ output' = Remains).

Lemma stage_spec m raw topology read flush_rows cols ts_idx key_idx ix replace io output :
  stageable m read flush_rows cols ts_idx key_idx ix ->
  match stage open_parquet parquet_bytes create_fails m raw topology read flush_rows replace io output with
  | (Ok l0, output') => (output = NoDir \/ replace = true) /\
      exists disk, output' = Artifact (l0, disk) /\ conserves m read flush_rows cols ts_idx key_idx ix (l0, disk)
  | (Err e, output') => benign e /\ spared replace output output'
  end.
Proof.
  intros S. pose proof (write_all_spec m raw topology read flush_rows cols ts_idx key_idx ix S) as W. unfold stage, spared.
  destruct output as [|a|], replace; cbn [negb]; try (split; [done|by left]).
  all: repeat match goal with |- context [if ?b then _ else _] => destruct b end; cbn [negb]; try (split; [done|by auto]).
  all: try (split; [done|right; split; [done|by auto]]).
  all: destruct (write_all _ _ _ _ _) as [[l0 disk]|e]; repeat match goal with |- context [if ?b then _ else _] => destruct b end; cbn [fst].
  all: first [split; [by auto|exists disk; by split] | split; [exact W|auto] | split; [done|auto]].
  all: right; split; [done|by auto].
Qed.

(** C39: Staging regroups the rows of its source and loses none: from a source whose
    batches have the declared schema, a tool that answers a manifest has checked
    every part's digest and put in the output's place the files of a list of
    flushes and days, each file the sorted rows of one day of one flush of at
    most the configured size, named as no other, with the ranges of its keys and
    times; all of them together hold the source's rows, each once, and the census
    and the fingerprint written are the source's. A tool that fails does so for
    the source, the sort or the store, never because its own checks found a row
    missing or its loop did not end; and it leaves the output alone, or removed
    where it was told to replace it. *)
Theorem staging_conserves_rows raw m read reread flush_rows replace io output cols ts_idx key_idx ix :
  parse_manifest from_slice manifest_of raw = Ok m -> stageable m reread flush_rows cols ts_idx key_idx ix ->
  match stage_source open_parquet parquet_bytes create_fails from_slice manifest_of (Some raw) read reread flush_rows replace io output with
  | (Ok l0, output') => Forall (verified read) (m_parts m) /\ (output = NoDir \/ replace = true) /\
      exists disk, output' = Artifact (l0, disk) /\ conserves m reread flush_rows cols ts_idx key_idx ix (l0, disk)
  | (Err e, output') => benign e /\ spared replace output output'
  end.
Proof.
  intros P S. unfold stage_source. cbn [ok_or rbind]. rewrite P. cbn [map_err rbind].
  destruct (read (fd_path (m_topology m))) as [bs|]; [|by split; [|left]]. cbn [ok_or rbind].
  destruct (verify _ _ _ _) as [[]|e]; [|by split; [|left]]. cbn [map_err rbind].
  pose proof (verify_parts_spec read (m_parts m)) as V. destruct (verify_parts _ _) as [[]|e]; [|by split; [|left]]. cbn [rbind].
  pose proof (stage_spec m raw (m_topology m) reread flush_rows cols ts_idx key_idx ix replace io output S) as G.
  destruct (stage _ _ _ _ _ _ _ _ _ _ _) as [[l0|e] output']; [by split|done].
Qed.
End spec.
End StagingSpec.

Module StagingExamples.
Import Staging StagingSpec IngestExamples.

(** A part of five rows, of two days in turn. *)
Definition demo_time (k : Z) : Z := FIXTURE_WINDOW_START_MS + 86400000 * (k mod 2) + k.
Definition demo_batch (ks : list Z) : RecordBatch :=
  mkBatch (Schema.physical_schema event_cols) [Int64Array (List.map Some ks); Int64Array (List.map (fun k => Some (demo_time k)) ks)].
Definition demo_open (raw : list Z) : result (list (result RecordBatch string)) string := Ok [Ok (demo_batch raw)].
Definition demo_bytes (_ : Schema.WriterProperties) (_ : ArrowSchema) (b : RecordBatch) : result (list Z) string :=
  Ok (List.map (fun r => default 0 (int_at 0 r)) (batch_rows b)).
Definition no_failure (_ : string) : bool := false.

Definition demo_keys : list Z := [5; 4; 3; 2; 1].
Definition demo_read (_ : string) : option (list Z) := Some demo_keys.
Definition demo_digest : string := digest_bytes blake3 demo_keys.
Definition demo_manifest : Manifest :=
  mkManifest SYNTHETIC_DISCLAIMER (mkConfig Smoke 5 5 1 1 []) (mkTable "k" ["k"; "ts"]%string "ts" ts_schema)
    (mkDigest "topology.json" 5 demo_digest) [mkManifestPart 0 "part" 5 5 demo_digest 1 5 0] (mkRepresentatives 1 2 3 4 5 []).
Definition demo_json (_ : list Z) : option json := Some (JObject [("manifest_version", JString MANIFEST_VERSION)]%string).
Definition demo_manifest_of (_ : json) : option Manifest := Some demo_manifest.

Definition staged_demo : result L0Manifest StageError * Dir :=
  stage_source demo_open demo_bytes no_failure demo_json demo_manifest_of (Some []) demo_read demo_read 3 false (mkDirIo true true true) NoDir.

Example demo_files :
  match staged_demo.1 with
  | Ok l0 => List.map (fun f => (lf_path f, lf_rows f, lf_key_min f, lf_key_max f)) (l0_files l0)
  | Err _ => []
  end = [("parquet/2026-07-01/flush-00000.parquet", 1, 4, 4); ("parquet/2026-07-02/flush-00000.parquet", 2, 3, 5);
         ("parquet/2026-07-01/flush-00001.parquet", 1, 2, 2); ("parquet/2026-07-02/flush-00001.parquet", 1, 1, 1)]%string.
Proof. vm_compute. reflexivity. Qed.

Lemma demo_stageable : stageable demo_open demo_manifest demo_read 3 event_cols 1 0 [0%nat; 1%nat].
Proof.
  constructor; [vm_compute; reflexivity|reflexivity|reflexivity| |exact event_indices|repeat constructor| |vm_compute; reflexivity|lia].
  - split; eexists; split; reflexivity.
  - constructor; [|constructor]. constructor; [|constructor]. exists 5%nat. apply ok_columns. split; [reflexivity|repeat constructor].
Qed.

Lemma staging_conserves_rows_witness :
  exists l0 disk, staged_demo = (Ok l0, Artifact (l0, disk)) /\
    conserves demo_open demo_bytes demo_manifest demo_read 3 event_cols 1 0 [0%nat; 1%nat] (l0, disk).
Proof.
  pose proof (staging_conserves_rows demo_open demo_bytes no_failure (fun b => List.repeat_length _ _) demo_lexsorts
    demo_json demo_manifest_of [] demo_manifest demo_read demo_read 3 false (mkDirIo true true true) NoDir event_cols 1 0 [0%nat; 1%nat]
    eq_refl demo_stageable) as S.
  change (stage_source _ _ _ _ _ _ _ _ _ _ _ _) with staged_demo in S.
  assert (E : match staged_demo.1 with Ok _ => true | Err _ => false end = true) by (vm_compute; reflexivity).
  destruct staged_demo as [[l0|e] out]; [|discriminate E]. destruct S as (_ & _ & disk & -> & C). exists l0, disk. split; [reflexivity|exact C].
Defined.

End StagingExamples.
