(* ===== verification/Run.v ===== *)
(** * The process (crates/ukield/src/run.rs and main.rs)

    The command line, what is built before anything is awaited, the startup
    steps under catalog recovery (Supervisor.v), the tasks and the join loop that
    ends the process, as one state machine over the one health registry and the
    one shutdown token. What a task does between two awaits is its own model's
    definition; here it runs against the shared registry. Binding a listener,
    building a client and parsing a URL are answers. Gauges and log lines are
    not modelled, except that the joined results are kept in order. *)

From S2P Require Import Prelude Bytes Json Types Schema Operation CatalogError CatalogDb Commit Gc Merge Ingest Mv Health Recovery Supervisor QueryServer Config Bootstrap.
From S2P Require Compactor Collector.
Import CatalogError Health Recovery Supervisor Config.

Module Run.

(** ** The command line (main.rs) *)

Inductive Usage :=
| ConfigRequiresPath
| UnknownArgument (arg : string).

Fixpoint parse_args_from (args : list string) (config_path : string) (bootstrap_only : bool)
  : result (string * bool) Usage :=
  match args with
  | [] => Ok (config_path, bootstrap_only)
  | arg :: args =>
      if String.eqb arg "--config" then
        match args with
        | path :: args => parse_args_from args path bootstrap_only
        | [] => Err ConfigRequiresPath
        end
      else if String.eqb arg "--bootstrap-only" then parse_args_from args config_path true
      else Err (UnknownArgument arg)
  end.

(** Of the arguments after the program's name. *)
Definition parse_args (args : list string) : result (string * bool) Usage :=
  parse_args_from args "ukield.toml" false.

(** ** The object store *)

Inductive StoreError :=
| BuildingS3
| InvalidUrl
| UnknownKind (other : string).

Inductive StoreBackend :=
| MemoryStore
| S3Store (o : ObjectStoreConfig).

Definition build_store {Url} (s3_builds : ObjectStoreConfig -> bool) (parse : string -> option Url)
    (o : ObjectStoreConfig) : result (StoreBackend * Url) StoreError :=
  if String.eqb (kind o) "memory" then
    let? url := ok_or (parse "mem://ukiel/"%string) InvalidUrl in Ok (MemoryStore, url)
  else if String.eqb (kind o) "s3" then
    let? _ := if s3_builds o then Ok tt else Err BuildingS3 in
    let? url := ok_or (parse ("s3://" +:+ bucket o +:+ "/")) InvalidUrl in Ok (S3Store o, url)
  else Err (UnknownKind (kind o)).

(** ** What the workers are built with *)

Definition routes (cfg : UkieldConfig) : list Ingest.TableRoute :=
  omap (fun t => (fun topic => Ingest.mkRoute topic (t_name t) (t_ts_column t)) <$> topic t) (u_tables cfg).

Definition ingest_config (cfg : UkieldConfig) : Ingest.IngestConfig :=
  let i := ingest cfg in
  Ingest.mkIngestConfig (i_max_buffer_rows i) (i_l0_slowdown_parts i) (i_l0_stop_parts i)
    (i_max_event_age_days i) (i_max_event_future_secs i).

Definition compactor_config (cfg : UkieldConfig) : Compactor.Compactor.CompactorConfig :=
  let c := compactor cfg in
  Compactor.Compactor.mkConfig (Compactor.Compactor.worker_name Compactor.Compactor.default_config) (co_l0_fanout c) (co_fanout c)
    (co_finalize_after_secs c) (co_candidate_limit c) (wrap_u64 (lease_ttl_secs c * 1000)).

(** [Collector::from_config], of whether the Kafka client builds. The seconds become
    an [f64], exact below 2^53 of them. *)
Definition collector_of (kafka_builds : bool) (cfg : UkieldConfig) : Collector.Collector.Collector :=
  let routes := omap (fun t => (fun topic => (topic, t_name t)) <$> topic t) (u_tables cfg) in
  Collector.Collector.mkCollector (cache_walk_every (collector cfg)) (wrap_i64 (co_l0_fanout (compactor cfg)))
    (wrap_i64 (co_fanout (compactor cfg))) (co_finalize_after_secs (compactor cfg) * 10 ^ 6)
    (cache_dir (Config.query cfg)) routes (negb (bool_decide (routes = [])) && kafka_builds).

(** ** Errors *)

Inductive StartError :=
| MigrateFailed (e : CatalogError)
| BootFailed (e : Bootstrap.BootError)
| ViewsFailed (e : Mv.MvError).

Definition start_catalog_error (e : StartError) : option CatalogError :=
  match e with
  | MigrateFailed e => Some e
  | BootFailed e => Bootstrap.boot_catalog_error e
  | ViewsFailed e => Mv.catalog_error e
  end.
#[export] Instance start_failure : RoleFailure StartError := start_catalog_error.

(** The error of whichever worker a supervised task runs. *)
Inductive WorkerError :=
| OfMv (e : Mv.MvError)
| OfIngest (e : Ingest.IngestError)
| OfCompactor (e : Merge.CompactorError)
| OfGc (e : Gc.GcError).

Definition worker_catalog_error (e : WorkerError) : option CatalogError :=
  match e with
  | OfMv e => mv_failure e
  | OfIngest e => ingest_failure e
  | OfCompactor e => compactor_failure e
  | OfGc e => gc_failure e
  end.
#[export] Instance worker_failure : RoleFailure WorkerError := worker_catalog_error.

Inductive RunError :=
| Invalid (e : ConfigError)
| BuildingPool
| BuildingStore (e : StoreError)
| Binding (address : string)
| StartupError (e : StartError) (what : string)
| ShutdownDuring (what : string)
| ServerError (label : string)
| RoleError (e : SupError WorkerError).

(** ** The tasks and the process *)

Inductive Task :=
| QueryTask
| MetricsTask
| RoleTask (s : Sup WorkerError)
| CollectorTask
| UpkeepTask.

Inductive StartupStep :=
| RunningMigrations
| BootstrappingTables
| BootstrappingPipelines
| RegisteringViews.

Definition step_what (s : StartupStep) : string :=
  match s with
  | RunningMigrations => "running migrations"
  | BootstrappingTables => "bootstrapping tables"
  | BootstrappingPipelines => "bootstrapping pipelines"
  | RegisteringViews => "registering materialized views"
  end.

(** What is awaited after a first step, in order. *)
Definition steps_after_migrations (cfg : UkieldConfig) : list StartupStep :=
  [BootstrappingTables; BootstrappingPipelines] ++ (if has_role Health.Mv (roles cfg) then [RegisteringViews] else []).

Inductive Stage :=
| StartingUp (s : Startup unit StartError) (rest : list StartupStep)
| Joining
| Exited (r : result unit RunError)
| Panicking.

(** What [join_next] hands out: a task's result, or [None] of one that panicked. *)
Definition Joinable : Type := option (result string RunError).

Record Process := mkProcess {
  p_cfg : UkieldConfig;
  p_policy : RecoveryPolicy;
  stage : Stage;
  registry : HealthRegistry;
  cancelled : bool;
  running : list Task;
  finished : list Joinable;
  joined : list (result string RunError);
  outcome : result unit RunError;
}.

Definition with_stage (st : Stage) (p : Process) : Process :=
  mkProcess (p_cfg p) (p_policy p) st (registry p) (cancelled p) (running p) (finished p) (joined p) (outcome p).

(** Returning from [run_with_catalog]: dropping the [JoinSet] aborts what is left. *)
Definition leave (r : result unit RunError) (p : Process) : Process :=
  mkProcess (p_cfg p) (p_policy p) (Exited r) (registry p) (cancelled p) [] [] (joined p) (outcome p).

Definition begin_step (s : StartupStep) (policy : RecoveryPolicy) (h : HealthRegistry) (c : bool)
  : Startup unit StartError := mkStartup (step_what s) policy Trying h c.

(** ** Up to the first call to the catalog *)

(** The answers of everything built and bound on the way. *)
Record Boot := mkBoot {
  instance_seed : Z;
  pool_builds : bool;
  s3_builds : ObjectStoreConfig -> bool;
  url_parses : string -> bool;
  query_binds : bool;
  metrics_binds : bool;
}.

Definition guard_ok (ok : bool) (e : RunError) : result unit RunError := if ok then Ok tt else Err e.

(** [run_with_catalog], until the migrations are awaited. *)
Definition start (b : Boot) (now : Z) (cancelled : bool) (cfg : UkieldConfig) : result Process RunError :=
  let? _ := map_err Invalid (validate cfg) in
  let h := new now (roles cfg) in
  let policy := from_config (catalog cfg) (instance_seed b) in
  let? _ := guard_ok (pool_builds b) BuildingPool in
  let? _ := map_err BuildingStore
    (build_store (s3_builds b) (fun u => if url_parses b u then Some u else None) (object_store cfg)) in
  let query := has_role Health.Query (roles cfg) in
  let? _ := guard_ok (negb query || query_binds b) (Binding (listen (Config.query cfg))) in
  let h := if query then healthy (role_label Health.Query) now h else h in
  let metrics := negb (is_empty (metrics_listen cfg)) in
  let? _ := guard_ok (negb metrics || metrics_binds b) (Binding (metrics_listen cfg)) in
  Ok (mkProcess cfg policy
        (StartingUp (begin_step RunningMigrations policy h cancelled) (steps_after_migrations cfg))
        h cancelled ((if query then [QueryTask] else []) ++ (if metrics then [MetricsTask] else [])) [] [] (Ok tt)).

(** ** The startup steps *)

(** The roles run under the supervisor, in the order they are spawned. *)
Definition supervised (cfg : UkieldConfig) : list Role :=
  (if has_role Health.Mv (roles cfg) then [Health.Mv] else [])
  ++ (if has_role Health.Ingest (roles cfg) then if bool_decide (routes cfg = []) then [] else [Health.Ingest] else [])
  ++ (if has_role Health.Compactor (roles cfg) then [Health.Compactor] else [])
  ++ (if has_role Health.Gc (roles cfg) then [Health.Gc] else []).

(** [spawn_supervised]. *)
Definition spawn_supervised (p : Process) (role : Role) : Task :=
  RoleTask (supervise_role role (p_policy p) (registry p)).

(** What runs between the last startup step and the join loop. *)
Definition spawn_workers (p : Process) : Process :=
  mkProcess (p_cfg p) (p_policy p) Joining (registry p) (cancelled p)
    (running p ++ List.map (spawn_supervised p) (supervised (p_cfg p)) ++ [CollectorTask; UpkeepTask])
    (finished p) (joined p) (outcome p).

(** A step's future moved on: the next step begins where it returned. *)
Definition settle (s : Startup unit StartError) (rest : list StartupStep) (p : Process) : Process :=
  let p := mkProcess (p_cfg p) (p_policy p) (StartingUp s rest) (st_health s) (st_cancelled s) (running p)
             (finished p) (joined p) (outcome p) in
  match st_phase s with
  | Started _ =>
      match rest with
      | [] => spawn_workers p
      | next :: rest =>
          with_stage (StartingUp (begin_step next (p_policy p) (registry p) (cancelled p)) rest) p
      end
  | StartupFailed e what => leave (Err (StartupError e what)) p
  | ShutdownWhileWaiting what => leave (Err (ShutdownDuring what)) p
  | StartupCrashed => with_stage Panicking p
  | Trying | StartupWait _ => p
  end.

(** ** One task *)

Inductive TaskEvent :=
| RoleDoes (ev : Event WorkerError)
| ServerReturned (ok : bool)
| SawCancel
| TaskPanicked.

(** A role sees the process's registry and token. *)
Definition on_shared (h : HealthRegistry) (c : bool) (s : Sup WorkerError) : Sup WorkerError :=
  mkSup (label s) (sup_policy s) (phase s) h c.

Definition own_event {E} (ev : Event E) : bool :=
  match ev with Cancel | Elsewhere _ => false | _ => true end.

Inductive Progress :=
| Runs (t : Task)
| Finishes (o : Joinable).

Definition role_progress (s : Sup WorkerError) : Progress :=
  match phase s with
  | Ended (Ok l) => Finishes (Some (Ok l))
  | Ended (Err e) => Finishes (Some (Err (RoleError e)))
  | Crashed => Finishes None
  | _ => Runs (RoleTask s)
  end.

Definition server_result (ok : bool) (label : string) : Joinable :=
  Some (if ok then Ok label else Err (ServerError label)).

Definition task_step (now : Z) (ev : TaskEvent) (t : Task) (h : HealthRegistry) (c : bool)
  : option (Progress * HealthRegistry) :=
  match ev, t with
  | RoleDoes ev, RoleTask s =>
      if own_event ev then s' ← sup_step now ev (on_shared h c s); Some (role_progress s', Supervisor.health s') else None
  | ServerReturned ok, QueryTask => Some (Finishes (server_result ok "query"), h)
  | ServerReturned ok, MetricsTask => Some (Finishes (server_result ok "metrics-listener"), h)
  | SawCancel, CollectorTask => if c then Some (Finishes (Some (Ok "collector"%string)), h) else None
  | SawCancel, UpkeepTask => if c then Some (Finishes (Some (Ok "metrics-upkeep"%string)), h) else None
  | TaskPanicked, _ => Some (Finishes None, h)
  | _, _ => None
  end.

(** ** One step of the process *)

Inductive ProcessEvent :=
| OfStartup (ev : StartupEvent unit StartError)
| OfTask (i : nat) (ev : TaskEvent)
| JoinNext
| ShutdownSignal.

Definition progressed (i : nat) (r : Progress) (h : HealthRegistry) (p : Process) : Process :=
  match r with
  | Runs t => mkProcess (p_cfg p) (p_policy p) (stage p) h (cancelled p) (<[i := t]> (running p)) (finished p) (joined p) (outcome p)
  | Finishes o => mkProcess (p_cfg p) (p_policy p) (stage p) h (cancelled p) (delete i (running p)) (finished p ++ [o]) (joined p) (outcome p)
  end.

(** The body of the join loop, and what ends it. *)
Definition join_next (p : Process) : option Process :=
  match finished p with
  | None :: _ => Some (with_stage Panicking p)
  | Some (Ok label) :: rest =>
      Some (mkProcess (p_cfg p) (p_policy p) Joining (registry p) (cancelled p) (running p) rest
              (joined p ++ [Ok label]) (outcome p))
  | Some (Err e) :: rest =>
      Some (mkProcess (p_cfg p) (p_policy p) Joining (registry p) true (running p) rest
              (joined p ++ [Err e]) (match outcome p with Ok _ => Err e | Err e => Err e end))
  | [] => match running p with [] => Some (leave (outcome p) p) | _ => None end
  end.

Definition process_step (now : Z) (ev : ProcessEvent) (p : Process) : option Process :=
  match ev, stage p with
  | _, Exited _ | _, Panicking => None
  | ShutdownSignal, _ =>
      Some (mkProcess (p_cfg p) (p_policy p) (stage p) (registry p) true (running p) (finished p) (joined p) (outcome p))
  | OfTask i ev, _ =>
      t ← running p !! i;
      '(r, h) ← task_step now ev t (registry p) (cancelled p);
      Some (progressed i r h p)
  | OfStartup StCancel, _ => None
  | OfStartup ev, StartingUp s rest =>
      s' ← startup_step now ev (mkStartup (what s) (st_policy s) (st_phase s) (registry p) (cancelled p));
      Some (settle s' rest p)
  | JoinNext, Joining => join_next p
  | _, _ => None
  end.

Fixpoint process_run (evs : list (Z * ProcessEvent)) (p : Process) : option Process :=
  match evs with
  | [] => Some p
  | (now, ev) :: evs => p' ← process_step now ev p; process_run evs p'
  end.

End Run.
