(* ===== verification/RunSpec.v ===== *)
(** * What a process guarantees (theorems about [Run])

    The invariant of a process -- its tasks stand as their supervisors do, each
    moves its own entry of the shared registry, none is lost between the set of
    tasks and the joined results -- carried along every run, and what follows for
    who watches it: what readiness means, what may stop it, how it ends. *)

From S2P Require Import Prelude Bytes Json Types Schema Operation CatalogError CatalogDb Commit Gc Merge Ingest Mv Health Recovery Supervisor SupervisorSpec QueryServer Config Bootstrap Run.
Import CatalogError Health Recovery Supervisor SupervisorSpec Config.

Module RunSpec.
Import Run.

(** ** What a step of one machine touches of the shared registry *)

Lemma after_wait_other {E} `{RoleFailure E} now r k (s : Sup E) l : l <> label s ->
  Health.roles (Supervisor.health (after_wait now r k s)) !! l = Health.roles (Supervisor.health s) !! l.
Proof.
  intros N. destruct r, k as [[i|]|i]; simpl; try done; by apply transition_other.
Qed.

(** Its own role's entry and no other. *)
Lemma sup_step_other {E} `{RoleFailure E} now ev (s s' : Sup E) l :
  own_event ev = true -> sup_step now ev s = Some s' -> l <> label s ->
  Health.roles (Supervisor.health s') !! l = Health.roles (Supervisor.health s) !! l.
Proof.
  intros O R%sup_step_inv N. destruct ev as [|[?|e]|o| | |[?|e]| |o]; try done;
    repeat match goal with H : exists _, _ |- _ => destruct H as [? H] end; destruct_and?; subst s'.
  - by apply transition_other.
  - by apply transition_other.
  - unfold worker_failed. destruct (match catalog_error e with Some c => _ | None => _ end); simpl.
    + rewrite after_wait_other by done. by apply transition_other.
    + by apply transition_other.
  - rewrite after_wait_other by done. simpl. by rewrite probed_roles.
  - by rewrite after_wait_other.
  - by apply transition_other.
  - done.
  - unfold looked_up. destruct (is_recoverable_transport e); [by apply after_wait_other|by apply transition_other].
Qed.

Lemma sup_step_dom {E} `{RoleFailure E} now ev (s s' : Sup E) :
  own_event ev = true -> sup_inv s -> sup_step now ev s = Some s' ->
  dom (Health.roles (Supervisor.health s')) = dom (Health.roles (Supervisor.health s)).
Proof.
  intros O V R. apply set_eq. intros l. rewrite !elem_of_dom. destruct (decide (l = label s)) as [->|N].
  - pose proof (sup_step_keeps _ _ _ _ V R) as [I _]. destruct V as [I' _].
    apply sup_step_label in R as [L _]. rewrite L in I. done.
  - by rewrite (sup_step_other _ _ _ _ _ O R N).
Qed.

(** A startup step moves no role. *)
Lemma startup_step_roles {T E} `{RoleFailure E} now ev (s s' : Startup T E) :
  startup_step now ev s = Some s' -> Health.roles (st_health s') = Health.roles (st_health s).
Proof.
  assert (W : forall r (s : Startup T E), Health.roles (st_health (st_after_wait r s)) = Health.roles (st_health s)) by (by intros []).
  unfold startup_step. destruct ev as [[v|e]|o| | |], (st_phase s) as [|[b|b d]| | | |];
    try done; try (by intros [= <-]).
  - intros [= <-]. unfold step_done. destruct (negb _); [done|]. by rewrite W.
  - destruct (wait_probed o b now (st_health s)) as [r h] eqn:P. intros [= <-]. rewrite W. simpl.
    by rewrite <-(probed_roles o b now (st_health s)), P.
  - destruct (st_cancelled s); [|done]. by intros [= <-].
Qed.

(** ** The invariant of a process *)

Definition labels (rs : list Role) : list string := List.map role_label rs.

Definition worker_label (t : Task) : option string := match t with RoleTask s => Some (label s) | _ => None end.
Definition worker_labels (ts : list Task) : list string := omap worker_label ts.

Definition permanent_end (e : SupError WorkerError) : Prop :=
  match e with
  | WorkerFailed e _ => permanent e = true
  | ReconciliationFailed e _ => is_recoverable_transport e = false
  end.
Definition permanent_result (r : result string RunError) : Prop :=
  match r with Err (RoleError e) => permanent_end e | _ => True end.

Definition live (p : Process) : Prop := match stage p with StartingUp _ _ | Joining => True | _ => False end.
Definition starting_up (p : Process) : Prop := match stage p with StartingUp _ _ => True | _ => False end.

Fixpoint first_failure (rs : list (result string RunError)) : result unit RunError :=
  match rs with
  | [] => Ok tt
  | Ok _ :: rs => first_failure rs
  | Err e :: _ => Err e
  end.

(** The tasks a process of a configuration has once it has started. *)
Definition task_count (cfg : UkieldConfig) : nat :=
  ((if has_role Health.Query (roles cfg) then 1 else 0) + (if is_empty (metrics_listen cfg) then 0 else 1)
   + length (supervised cfg) + 2)%nat.

Definition tasks_seen (p : Process) : nat := (length (running p) + length (finished p) + length (joined p))%nat.

Record process_inv (p : Process) : Prop := mkInv {
  inv_nodup : NoDup (worker_labels (running p));
  inv_known : forall l, l ∈ worker_labels (running p) -> l ∈ labels (supervised (p_cfg p));
  inv_workers : forall i s, running p !! i = Some (RoleTask s) -> sup_inv (on_shared (registry p) (cancelled p) s);
  inv_healthy : forall l e, Health.roles (registry p) !! l = Some e -> state e = Healthy -> l <> role_label Health.Query ->
    l ∈ worker_labels (running p) \/ None ∈ finished p;
  inv_idle : forall l e, Health.roles (registry p) !! l = Some e -> l ∉ labels (supervised (p_cfg p)) ->
    l <> role_label Health.Query -> state e = Starting;
  inv_dom : forall r, r ∈ roles (p_cfg p) -> is_Some (Health.roles (registry p) !! role_label r);
  inv_fresh : starting_up p -> worker_labels (running p) = [] /\
    (forall l e, Health.roles (registry p) !! l = Some e -> l <> role_label Health.Query -> state e = Starting);
  inv_ends : (forall r, Some r ∈ finished p -> permanent_result r) /\ (forall r, r ∈ joined p -> permanent_result r);
  inv_outcome : outcome p = first_failure (joined p);
  inv_count : (tasks_seen p + (if match stage p with StartingUp _ _ => true | _ => false end
                               then length (supervised (p_cfg p)) + 2 else 0))%nat = task_count (p_cfg p);
}.

(** ** It holds of a process as it comes up *)

Lemma new_dom now rs r : r ∈ rs -> is_Some (Health.roles (new now rs) !! role_label r).
Proof.
  unfold new. generalize (mkRegistry Unavailable None ∅ ∅).
  induction rs as [|r' rs IH]; intros h E; [by apply elem_of_nil in E|]. simpl.
  destruct (decide (r ∈ rs)) as [I|N]; [by apply IH|].
  apply elem_of_cons in E as [<-|E]; [|done]. clear IH. revert h.
  cut (forall h, is_Some (Health.roles h !! role_label r) ->
         is_Some (Health.roles (fold_left (fun h role => mkRegistry (Health.catalog h) (catalog_last_success h)
           (<[role_label role := mkEntry Starting now 0 None]> (Health.roles h))
           (set_state_gauge (role_label role) Starting (state_gauge h))) rs h) !! role_label r)).
  { intros K h. apply K. simpl. rewrite lookup_insert_eq. eauto. }
  clear N. induction rs as [|r' rs IH]; intros h I; simpl; [done|]. apply IH. simpl.
  destruct (decide (role_label r' = role_label r)) as [->|N]; [rewrite lookup_insert_eq; eauto|by rewrite lookup_insert_ne].
Qed.

Lemma server_tasks_workers (a b : bool) :
  worker_labels ((if a then [QueryTask] else []) ++ (if b then [MetricsTask] else [])) = [].
Proof. by destruct a, b. Qed.

Lemma process_start_inv b now c cfg p : start b now c cfg = Ok p -> process_inv p /\ p_cfg p = cfg /\ starting_up p /\ joined p = [].
Proof.
  unfold start. destruct (map_err Invalid (validate cfg)); [|done]. simpl.
  destruct (guard_ok (pool_builds b) _); [|done]. simpl. destruct (map_err BuildingStore _); [|done]. simpl.
  destruct (guard_ok _ (Binding (listen _))); [|done]. simpl.
  destruct (guard_ok _ (Binding (metrics_listen cfg))); [|done]. simpl. intros [= <-]. split; [|done].
  set (q := has_role Health.Query (roles cfg)). set (m := is_empty (metrics_listen cfg)).
  set (h := if q then _ else _).
  assert (H : forall l e, Health.roles h !! l = Some e -> l <> role_label Health.Query -> state e = Starting).
  { intros l e L N. apply (new_roles now (roles cfg) l). unfold h in L. destruct q; [|done].
    unfold healthy in L. by rewrite transition_other in L. }
  pose proof (server_tasks_workers q (negb m)) as W.
  constructor; simpl; rewrite ?W.
  - constructor.
  - intros l L. by apply elem_of_nil in L.
  - intros i s L. destruct q, m; simpl in L; repeat (destruct i as [|i]; simpl in L; try done).
  - intros l e L S N. by rewrite (H _ _ L N) in S.
  - intros l e L _ N. by apply (H _ _ L).
  - intros r I. apply new_dom with (now := now) in I. unfold h. destruct q; [|done].
    rewrite <-elem_of_dom. unfold healthy. rewrite transition_dom. by apply elem_of_dom.
  - intros _. split; [done|]. apply H.
  - split; intros r I; by apply elem_of_nil in I.
  - done.
  - unfold tasks_seen, task_count. simpl. fold q m. destruct q, m; simpl; lia.
Qed.

(** ** And is kept *)

Lemma worker_labels_insert ts i t t' : ts !! i = Some t -> worker_label t' = worker_label t ->
  worker_labels (<[i := t']> ts) = worker_labels ts.
Proof.
  revert i. induction ts as [|x ts IH]; intros [|i] L W; simpl in *; try done.
  - injection L as ->. unfold worker_labels. simpl. by rewrite W.
  - unfold worker_labels in *. simpl. by rewrite (IH i).
Qed.

Lemma worker_labels_delete ts i t : ts !! i = Some t ->
  worker_labels ts ≡ₚ match worker_label t with Some l => [l] | None => [] end ++ worker_labels (delete i ts).
Proof.
  intros L. unfold worker_labels. rewrite (delete_Permutation _ _ _ L) at 1. simpl. by destruct (worker_label t).
Qed.

Lemma worker_labels_in ts i s : ts !! i = Some (RoleTask s) -> label s ∈ worker_labels ts.
Proof.
  intros L. apply list_elem_of_omap. exists (RoleTask s). split; [|done]. by eapply list_elem_of_lookup_2.
Qed.

Lemma lookup_delete_other (ts : list Task) i j t : delete i ts !! j = Some t -> exists k, k <> i /\ ts !! k = Some t.
Proof.
  intros L. destruct (decide (j < i)%nat) as [G|G].
  - rewrite list_lookup_delete_lt in L by done. exists j. split; [lia|done].
  - rewrite list_lookup_delete_ge in L by lia. exists (S j). split; [lia|done].
Qed.

(** A task and the ones beside it have labels of their own. *)
Lemma labels_apart ts i j s s' : NoDup (worker_labels ts) -> ts !! i = Some (RoleTask s) ->
  ts !! j = Some (RoleTask s') -> i <> j -> label s' <> label s.
Proof.
  intros N I J D E. rewrite (worker_labels_delete _ _ _ I) in N. simpl in N. apply NoDup_cons in N as [N _].
  apply N. rewrite <-E. assert (exists k, delete i ts !! k = Some (RoleTask s')) as [k K].
  { destruct (decide (j < i)%nat); [exists j; by rewrite list_lookup_delete_lt|].
    destruct j as [|j]; [lia|]. exists j. rewrite list_lookup_delete_ge by lia. done. }
  by eapply worker_labels_in.
Qed.

Lemma sup_inv_shared h h' c c' s : Health.roles h' !! label s = Health.roles h !! label s ->
  sup_inv (on_shared h c s) -> sup_inv (on_shared h' c' s).
Proof. unfold sup_inv, reported, role_state. simpl. by intros ->. Qed.

(** The registry moved at one label only, and the tasks beside it stand. *)
Lemma workers_beside p i s h : process_inv p -> running p !! i = Some (RoleTask s) ->
  (forall l, l <> label s -> Health.roles h !! l = Health.roles (registry p) !! l) ->
  forall j s', j <> i -> running p !! j = Some (RoleTask s') -> sup_inv (on_shared h (cancelled p) s').
Proof.
  intros V I O j s' N J. eapply sup_inv_shared, (inv_workers _ V _ _ J). apply O.
  by eapply labels_apart; [apply (inv_nodup _ V)|exact I|exact J|].
Qed.

Lemma role_progress_cases s : match role_progress s with
  | Runs t => t = RoleTask s /\ (forall r, phase s <> Ended r) /\ phase s <> Crashed
  | Finishes (Some (Ok l)) => phase s = Ended (Ok l)
  | Finishes (Some (Err e)) => exists e', e = RoleError e' /\ phase s = Ended (Err e')
  | Finishes None => phase s = Crashed
  end.
Proof. unfold role_progress. destruct (phase s) as [| | |[l|e]|]; eauto. Qed.

Lemma ended_not_healthy s r : sup_inv (E := WorkerError) s -> phase s = Ended r -> reported s <> Healthy.
Proof. intros [_ P] Q. rewrite Q in P. destruct r as [l|[e l|e l]]; simpl in P; destruct P as [-> _]; done. Qed.

Lemma crashed_not_healthy s : sup_inv (E := WorkerError) s -> phase s = Crashed -> reported s <> Healthy.
Proof. intros [_ P] Q. rewrite Q in P. by destruct P as [-> | ->]. Qed.

Lemma ended_permanent s e : sup_inv (E := WorkerError) s -> phase s = Ended (Err e) -> permanent_end e.
Proof. intros [_ P] Q. rewrite Q in P. by destruct e; simpl in P; destruct P as (_ & _ & P). Qed.

Lemma reported_not_healthy h c s l e : sup_inv (on_shared h c s) -> reported (on_shared h c s) <> Healthy ->
  l = label s -> Health.roles h !! l = Some e -> state e <> Healthy.
Proof. intros _ R -> L. unfold reported, role_state in R. simpl in R. by rewrite L in R. Qed.

(** The registry after a task's step: only the task's own entry moved. *)
Definition moved_only (t : Task) (h h' : HealthRegistry) : Prop :=
  (forall l, worker_label t <> Some l -> Health.roles h' !! l = Health.roles h !! l)
  /\ dom (Health.roles h') = dom (Health.roles h).

Lemma moved_only_refl t h : moved_only t h h.
Proof. done. Qed.

Lemma idle_moved p i t h : process_inv p -> running p !! i = Some t -> moved_only t (registry p) h ->
  forall l e, Health.roles h !! l = Some e -> l ∉ labels (supervised (p_cfg p)) ->
    l <> role_label Health.Query -> state e = Starting.
Proof.
  intros V I [O _] l e L K N. rewrite O in L; [by apply (inv_idle _ V l)|]. intros E. apply K, (inv_known _ V).
  destruct t as [| |s| |]; try done. injection E as <-. by eapply worker_labels_in.
Qed.

Lemma dom_moved p t h : process_inv p -> moved_only t (registry p) h ->
  forall r, r ∈ roles (p_cfg p) -> is_Some (Health.roles h !! role_label r).
Proof. intros V [_ D] r I. apply elem_of_dom. rewrite D. apply elem_of_dom. by apply (inv_dom _ V). Qed.

Lemma fresh_moved p i t h : process_inv p -> running p !! i = Some t -> moved_only t (registry p) h -> starting_up p ->
  worker_label t = None /\ worker_labels (running p) = [] /\
  (forall l e, Health.roles h !! l = Some e -> l <> role_label Health.Query -> state e = Starting).
Proof.
  intros V I [O _] S. destruct (inv_fresh _ V S) as [W F].
  assert (N : worker_label t = None).
  { destruct t as [| |s| |]; try done. apply worker_labels_in in I. rewrite W in I. by apply elem_of_nil in I. }
  split_and!; [done..|]. intros l e L. apply F. by rewrite O in L by (by rewrite N).
Qed.

(** A task that has ended leaves its entry in a terminal state, unless it
    panicked. *)
Lemma finish_inv p i t o h : process_inv p -> running p !! i = Some t -> moved_only t (registry p) h ->
  (forall l e, worker_label t = Some l -> Health.roles h !! l = Some e -> state e = Healthy -> o = None) ->
  (forall r, o = Some r -> permanent_result r) ->
  process_inv (progressed i (Finishes o) h p).
Proof.
  intros V I M HH HP. pose proof (worker_labels_delete _ _ _ I) as W. constructor; simpl.
  - pose proof (inv_nodup _ V) as N. rewrite W in N. by apply NoDup_app in N as (_ & _ & N).
  - intros l L. apply (inv_known _ V). rewrite W. set_solver.
  - intros j s' (k & N & K)%lookup_delete_other. eapply sup_inv_shared, (inv_workers _ V _ _ K).
    apply M. intros E. destruct t as [| |s| |]; try done. injection E as E.
    by eapply (labels_apart (running p) i k); [apply (inv_nodup _ V)|exact I|exact K|lia|].
  - intros l e L S N. destruct (decide (worker_label t = Some l)) as [E|E].
    + right. rewrite (HH l e E L S). set_solver.
    + destruct M as [O _]. rewrite O in L by done. destruct (inv_healthy _ V l e L S N) as [C|C]; [|set_solver].
      left. rewrite W in C. destruct (worker_label t); set_solver.
  - by eapply idle_moved.
  - by eapply dom_moved.
  - intros S. destruct (fresh_moved p i t h V I M S) as (N & Z & F). split; [|exact F].
    rewrite Z, N in W. by apply Permutation_nil_l in W.
  - destruct (inv_ends _ V) as [A B]. split; [|done]. intros r [C|C%list_elem_of_singleton]%elem_of_app; auto.
  - apply (inv_outcome _ V).
  - pose proof (inv_count _ V) as C. unfold tasks_seen in *. simpl.
    rewrite length_app, length_delete by eauto. simpl. apply lookup_lt_Some in I. lia.
Qed.

Lemma runs_inv p i s s' h : process_inv p -> running p !! i = Some (RoleTask s) ->
  moved_only (RoleTask s) (registry p) h -> label s' = label s -> sup_inv (on_shared h (cancelled p) s') ->
  process_inv (progressed i (Runs (RoleTask s')) h p).
Proof.
  intros V I M E S. pose proof (worker_labels_insert _ _ _ (RoleTask s') I ltac:(simpl; by rewrite E)) as W.
  constructor; simpl; rewrite ?W.
  - apply (inv_nodup _ V).
  - apply (inv_known _ V).
  - intros j s2 L. destruct (decide (i = j)) as [<-|N].
    + rewrite list_lookup_insert_eq in L by (by eapply lookup_lt_Some). by injection L as <-.
    + rewrite list_lookup_insert_ne in L by done. eapply workers_beside; [done|exact I| |by apply not_eq_sym|exact L].
      intros l K. apply M. simpl. congruence.
  - intros l e L H N. destruct (decide (l = label s)) as [->|K]; [left; by eapply worker_labels_in|].
    destruct M as [O _]. rewrite O in L by (simpl; congruence). by apply (inv_healthy _ V l e).
  - by eapply idle_moved.
  - by eapply dom_moved.
  - intros U. by destruct (fresh_moved p i _ h V I M U) as [? _].
  - apply (inv_ends _ V).
  - apply (inv_outcome _ V).
  - pose proof (inv_count _ V) as C. unfold tasks_seen in *. simpl. by rewrite length_insert.
Qed.

Lemma role_step_moved now ev s s' h c : own_event ev = true -> sup_inv (on_shared h c s) ->
  sup_step now ev (on_shared h c s) = Some s' ->
  moved_only (RoleTask s) h (Supervisor.health s') /\ label s' = label s /\ sup_inv s'.
Proof.
  intros O V R. split_and!.
  - split; [|by apply (sup_step_dom _ _ _ _ O V R)]. intros l N. apply (sup_step_other _ _ _ _ _ O R). simpl in *. congruence.
  - by apply sup_step_label in R as [-> _].
  - by eapply sup_step_keeps.
Qed.

Lemma task_step_inv now i ev t p r h : process_inv p -> running p !! i = Some t ->
  task_step now ev t (registry p) (cancelled p) = Some (r, h) -> process_inv (progressed i r h p).
Proof.
  intros V I. destruct ev as [ev|ok| |], t as [| |s| |]; simpl; try done;
    try (destruct (cancelled p); [|done]); try (intros [= <- <-]; apply (finish_inv _ _ _ _ _ V I (moved_only_refl _ _));
      [naive_solver|first [by intros ? [= <-]|by destruct ok; intros ? [= <-]]]).
  destruct (own_event ev) eqn:O; [|done]. destruct (sup_step _ _ _) as [s'|] eqn:R; [|done]. simpl. intros [= <- <-].
  destruct (role_step_moved _ _ _ _ _ _ O (inv_workers _ V _ _ I) R) as (M & E & S).
  pose proof (role_progress_cases s') as C. destruct (role_progress s') as [t|[[l|e]|]].
  - destruct C as [-> _]. by eapply runs_inv.
  - eapply finish_inv; [done..| |by intros ? [= <-]]. intros l' e [= <-] L H. exfalso.
    apply (ended_not_healthy _ _ S C). unfold reported, role_state. by rewrite E, L.
  - destruct C as (e' & -> & C). eapply finish_inv; [done..| |intros ? [= <-]; by eapply ended_permanent].
    intros l' e [= <-] L H. exfalso. apply (ended_not_healthy _ _ S C). unfold reported, role_state. by rewrite E, L.
  - by eapply finish_inv.
Qed.

(** ** The startup steps, the join loop, every event *)

Lemma NoDup_supervised cfg : NoDup (labels (supervised cfg)).
Proof.
  unfold supervised. destruct (has_role Health.Mv _), (has_role Health.Ingest _), (bool_decide (routes cfg = [])),
    (has_role Health.Compactor _), (has_role Health.Gc _); by apply (bool_decide_unpack _).
Qed.

Lemma spawned_labels p rs : worker_labels (List.map (spawn_supervised p) rs) = labels rs.
Proof. induction rs as [|r rs IH]; [done|]. unfold worker_labels in *. cbn. f_equal. exact IH. Qed.

Lemma worker_labels_app a b : worker_labels (a ++ b) = worker_labels a ++ worker_labels b.
Proof. apply omap_app. Qed.

Lemma supervised_roles cfg r : r ∈ supervised cfg -> r ∈ roles cfg /\ r <> Health.Query.
Proof.
  unfold supervised, has_role. intros H.
  repeat (case_bool_decide; try (simpl in H; done)); simpl in H; set_solver.
Qed.

Lemma in_labels l rs : l ∈ labels rs <-> exists r, l = role_label r /\ r ∈ rs.
Proof. unfold labels. rewrite list_elem_of_fmap. done. Qed.

Lemma spawn_workers_inv p : process_inv p -> starting_up p -> process_inv (spawn_workers p).
Proof.
  intros V S. destruct (inv_fresh _ V S) as [W F].
  assert (L : worker_labels (running (spawn_workers p)) = labels (supervised (p_cfg p))).
  { simpl. rewrite !worker_labels_app, W, spawned_labels. simpl. by rewrite app_nil_r. }
  constructor; simpl in L |- *; rewrite ?L; simpl.
  - apply NoDup_supervised.
  - done.
  - intros i s I. apply list_elem_of_lookup_2 in I. rewrite !elem_of_app, list_elem_of_fmap in I.
    destruct I as [I|[(r & E & I)|I]]; [|injection E as ->|set_solver].
    + assert (label s ∈ worker_labels (running p)) as Z by (apply list_elem_of_lookup_1 in I as [j I]; by eapply worker_labels_in).
      rewrite W in Z. by apply elem_of_nil in Z.
    + apply supervised_roles in I as [I N]. destruct (inv_dom _ V _ I) as [e E].
      apply (fresh_inv r (p_policy p) (registry p)). exists e. split; [done|]. apply (F _ _ E).
      by intros Q%(inj role_label).
  - intros l e Q H N. by rewrite (F _ _ Q N) in H.
  - apply (inv_idle _ V).
  - apply (inv_dom _ V).
  - done.
  - apply (inv_ends _ V).
  - apply (inv_outcome _ V).
  - pose proof (inv_count _ V) as C. unfold starting_up in S. destruct (stage p) eqn:G; try done.
    unfold tasks_seen in *. simpl. rewrite !length_app, length_map. simpl. lia.
Qed.

(** Fields the stage and the token are no part of. *)
Lemma inv_same p p' : process_inv p -> p_cfg p' = p_cfg p -> Health.roles (registry p') = Health.roles (registry p) ->
  running p' = running p -> finished p' = finished p -> joined p' = joined p -> outcome p' = outcome p ->
  (starting_up p <-> starting_up p') -> process_inv p'.
Proof.
  intros V C H R F J O S. constructor; rewrite ?C, ?H, ?R, ?F, ?J, ?O; try apply V.
  - intros i s I. eapply sup_inv_shared, (inv_workers _ V _ _ I). by rewrite H.
  - rewrite <-S. apply (inv_fresh _ V).
  - pose proof (inv_count _ V) as K. unfold tasks_seen, starting_up in *. rewrite R, F, J.
    by destruct (stage p), (stage p'); try tauto; destruct S as [S1 S2]; (done || (exfalso; auto)).
Qed.

Lemma settle_inv s rest p : process_inv p -> starting_up p -> Health.roles (st_health s) = Health.roles (registry p) ->
  live (settle s rest p) -> process_inv (settle s rest p).
Proof.
  intros V S H. unfold settle. cbv zeta. set (q := mkProcess _ _ _ _ _ _ _ _ _).
  assert (Q : process_inv q) by (by apply (inv_same p)).
  destruct (st_phase s); try done. destruct rest as [|next rest]; [intros _; by apply spawn_workers_inv|].
  intros _. by apply (inv_same q).
Qed.

Lemma first_failure_snoc rs r : first_failure (rs ++ [r]) =
  match first_failure rs with Ok _ => match r with Ok _ => Ok tt | Err e => Err e end | Err e => Err e end.
Proof. induction rs as [|[l|e] rs IH]; [by destruct r|exact IH|done]. Qed.

Lemma join_next_inv p p' : process_inv p -> stage p = Joining -> join_next p = Some p' -> live p' -> process_inv p'.
Proof.
  intros V G. unfold join_next. destruct (finished p) as [|[r|] rest] eqn:F; [by destruct (running p); intros [= <-]| |by intros [= <-]].
  intros J _. assert (exists c o, p' = mkProcess (p_cfg p) (p_policy p) Joining (registry p) c (running p) rest (joined p ++ [r]) o
    /\ o = first_failure (joined p ++ [r])) as (c & o & -> & Eo).
  { pose proof (inv_outcome _ V) as O. destruct r as [l|e]; injection J as <-; eexists _, _;
      (split; [done|]); rewrite first_failure_snoc, <-O; by destruct (outcome p) as [[]|]. }
  destruct (inv_ends _ V) as [A B]. constructor; simpl.
  - apply V.
  - apply V.
  - apply (inv_workers _ V).
  - intros l e L S N. destruct (inv_healthy _ V l e L S N) as [C|C]; [auto|]. rewrite F in C. set_solver.
  - apply V.
  - apply V.
  - done.
  - split; [intros r' I; apply A; rewrite F; set_solver|].
    intros r' [I|I%list_elem_of_singleton]%elem_of_app; [auto|]. subst r'. apply A. rewrite F. set_solver.
  - exact Eo.
  - pose proof (inv_count _ V) as C. rewrite G in C. unfold tasks_seen in *. simpl. rewrite length_app, F in *. simpl in *. lia.
Qed.

(** What one step is, by its event. *)
Lemma process_step_cases now ev p p' : process_step now ev p = Some p' -> live p /\
  match ev with
  | ShutdownSignal => p' = mkProcess (p_cfg p) (p_policy p) (stage p) (registry p) true (running p) (finished p) (joined p) (outcome p)
  | OfTask i ev => exists t r h, running p !! i = Some t /\
      task_step now ev t (registry p) (cancelled p) = Some (r, h) /\ p' = progressed i r h p
  | OfStartup ev => exists s rest s', stage p = StartingUp s rest /\ ev <> StCancel /\
      startup_step now ev (mkStartup (what s) (st_policy s) (st_phase s) (registry p) (cancelled p)) = Some s' /\
      p' = settle s' rest p
  | JoinNext => stage p = Joining /\ join_next p = Some p'
  end.
Proof.
  unfold process_step, live. destruct ev as [ev|i ev| |], (stage p) as [s rest| | |] eqn:G; try done;
    try (by destruct ev); try (by intros [= <-]).
  - intros S. split; [done|]. assert (ev <> StCancel) as N by (by intros ->).
    destruct ev; try done; (destruct (startup_step _ _ _) as [s'|] eqn:R; [|done]); simpl in S; injection S as <-; eauto 10.
  - destruct (running p !! i) as [t|] eqn:I; [|done]. simpl.
    destruct (task_step _ _ _ _ _) as [[r h]|] eqn:T; [|done]. intros [= <-]. eauto 10.
  - destruct (running p !! i) as [t|] eqn:I; [|done]. simpl.
    destruct (task_step _ _ _ _ _) as [[r h]|] eqn:T; [|done]. intros [= <-]. eauto 10.
Qed.

Lemma process_step_inv now ev p p' : process_inv p -> process_step now ev p = Some p' -> live p' -> process_inv p'.
Proof.
  intros V [L C]%process_step_cases L'. destruct ev as [ev|i ev| |].
  - destruct C as (s & rest & s' & G & _ & R & ->). apply settle_inv; [done|by unfold starting_up; rewrite G| |done].
    by apply startup_step_roles in R.
  - destruct C as (t & r & h & I & T & ->). by eapply task_step_inv.
  - destruct C as [G J]. by eapply join_next_inv.
  - subst p'. by apply (inv_same p).
Qed.

(** ** Along a run *)

Lemma process_run_app evs evs' p : process_run (evs ++ evs') p = (p' ← process_run evs p; process_run evs' p').
Proof.
  revert p. induction evs as [|[now ev] evs IH]; intros p; [done|]. simpl.
  destruct (process_step now ev p); simpl; [apply IH|done].
Qed.

Lemma process_ind (Q : list (Z * ProcessEvent) -> Process -> Prop) p0 :
  Q [] p0 ->
  (forall evs now ev p p', Q evs p -> process_step now ev p = Some p' -> Q (evs ++ [(now, ev)]) p') ->
  forall evs p, process_run evs p0 = Some p -> Q evs p.
Proof.
  intros Q0 QS evs. induction evs as [|[now ev] evs IH] using rev_ind; intros p R.
  - by injection R as <-.
  - rewrite process_run_app in R. destruct (process_run evs p0) as [p1|] eqn:E; [|done]. simpl in R.
    destruct (process_step now ev p1) as [p2|] eqn:S; [|done]. injection R as <-. eauto.
Qed.

(** The startup steps a trace saw through. *)
Definition step_ok (ev : ProcessEvent) : bool := match ev with OfStartup (StepDone (Ok _)) => true | _ => false end.
Definition steps_ok (evs : list (Z * ProcessEvent)) : nat := length (List.filter (fun te => step_ok te.2) evs).

Lemma steps_ok_snoc evs now ev : steps_ok (evs ++ [(now, ev)]) = (steps_ok evs + if step_ok ev then 1 else 0)%nat.
Proof. unfold steps_ok. rewrite List.filter_app, length_app. simpl. by destruct (step_ok ev). Qed.

Definition signalled (evs : list (Z * ProcessEvent)) : Prop := exists now, (now, ShutdownSignal) ∈ evs.

Lemma signalled_snoc evs te : signalled evs -> signalled (evs ++ [te]).
Proof. intros [now I]. exists now. set_solver. Qed.

Lemma startup_step_fields {T E} `{RoleFailure E} now ev (s s' : Startup T E) : ev <> StCancel ->
  startup_step now ev s = Some s' ->
  st_cancelled s' = st_cancelled s /\
  (forall v, st_phase s' = Started v -> exists w, ev = StepDone (Ok w)) /\
  (forall w, ev = StepDone (Ok w) -> st_phase s' = Started w).
Proof.
  assert (W : forall r (s : Startup T E), st_cancelled (st_after_wait r s) = st_cancelled s /\
    forall v, st_phase (st_after_wait r s) <> Started v) by (by intros []).
  intros N. unfold startup_step. destruct ev as [[v|e]|o| | |], (st_phase s) as [|[b|b d]| | | |]; try done.
  - intros [= <-]. simpl. split_and!; [done|eauto|naive_solver].
  - intros [= <-]. unfold step_done. destruct (negb _); [done|].
    destruct (W (wait_for_catalog (st_cancelled s) (st_policy s)) (st_with (st_phase s) (catalog_unavailable (st_health s)) s)) as [-> K].
    split_and!; [done| |done]. intros v C. by apply K in C.
  - destruct (wait_probed o b now (st_health s)) as [r h] eqn:P. intros [= <-].
    destruct (W r (st_with (StartupWait (AtProbe b)) h s)) as [-> K]. split_and!; [done| |done]. intros v C. by apply K in C.
  - intros [= <-]. destruct (W (wait_slept (st_cancelled s) b) s) as [-> K]. split_and!; [done| |done].
    intros v C. by apply K in C.
  - destruct (st_cancelled s) eqn:C; [|done]. intros [= <-]. simpl. by rewrite C.
Qed.

(** Every startup step a configuration asks for. *)
Definition step_count (cfg : UkieldConfig) : nat := S (length (steps_after_migrations cfg)).

(** What holds of every process a trace leads to, also of one that has ended. *)
Record trace_inv (cfg : UkieldConfig) (c : bool) (evs : list (Z * ProcessEvent)) (p : Process) : Prop := mkTrace {
  tr_cfg : p_cfg p = cfg;
  tr_live : live p -> process_inv p;
  tr_start : starting_up p -> joined p = [];
  tr_ends : forall r, r ∈ joined p -> permanent_result r;
  tr_cancel : cancelled p = true -> c = true \/ signalled evs \/ exists e, Err e ∈ joined p;
  tr_steps : forall s rest, stage p = StartingUp s rest -> (steps_ok evs + S (length rest))%nat = step_count cfg;
  tr_workers : worker_labels (running p) <> [] \/ stage p = Joining -> steps_ok evs = step_count cfg;
  tr_exit : forall r, stage p = Exited r ->
    (joined p = [] /\ exists what, (exists e, r = Err (StartupError e what)) \/ r = Err (ShutdownDuring what)) \/
    (r = first_failure (joined p) /\ length (joined p) = task_count cfg);
}.

Lemma settle_fields s rest p : starting_up p -> worker_labels (running p) = [] ->
  joined (settle s rest p) = joined p /\ p_cfg (settle s rest p) = p_cfg p /\
  cancelled (settle s rest p) = st_cancelled s /\
  (forall r, stage (settle s rest p) = Exited r ->
     exists what, (exists e, r = Err (StartupError e what)) \/ r = Err (ShutdownDuring what)) /\
  match st_phase s with
  | Started _ => match rest with
                 | [] => stage (settle s rest p) = Joining
                 | _ :: rest' => (exists s', stage (settle s rest p) = StartingUp s' rest') /\ worker_labels (running (settle s rest p)) = []
                 end
  | Trying | StartupWait _ => stage (settle s rest p) = StartingUp s rest /\ worker_labels (running (settle s rest p)) = []
  | _ => ~ live (settle s rest p) /\ worker_labels (running (settle s rest p)) = []
  end.
Proof.
  intros _ W. unfold settle. cbv zeta. destruct (st_phase s) as [|w|v|e what|what|]; [| |destruct rest as [|next rest]| | |];
    simpl; split_and!; try done; try (intros r [= <-]); eauto.
Qed.

Lemma start_trace b now c cfg p : start b now c cfg = Ok p -> trace_inv cfg c [] p.
Proof.
  intros S. destruct (process_start_inv _ _ _ _ _ S) as (V & C & U & J). constructor; try done.
  - intros r I. rewrite J in I. by apply elem_of_nil in I.
  - revert S. unfold start. intros S H. left. revert S H.
    repeat (destruct (map_err _ _); [simpl|done]); repeat (destruct (guard_ok _ _); [simpl|done]).
    repeat (destruct (map_err _ _); [simpl|done]); repeat (destruct (guard_ok _ _); [simpl|done]).
    by intros [= <-].
  - intros s rest G. revert S. unfold start.
    repeat (destruct (map_err _ _); [simpl|done]); repeat (destruct (guard_ok _ _); [simpl|done]).
    repeat (destruct (map_err _ _); [simpl|done]); repeat (destruct (guard_ok _ _); [simpl|done]).
    intros S. injection S as <-. simpl in G. by injection G as <- <-.
  - intros [W|G]; [|unfold starting_up in U; by rewrite G in U].
    destruct (inv_fresh _ V U) as [W' _]. done.
  - intros r G. unfold starting_up in U. by rewrite G in U.
Qed.

(** The fields a step leaves to the ones before it. *)
Ltac carried V :=
  try exact (tr_cfg _ _ _ _ V); try exact (tr_start _ _ _ _ V); try exact (tr_ends _ _ _ _ V);
  try exact (tr_steps _ _ _ _ V); try exact (tr_workers _ _ _ _ V); try exact (tr_exit _ _ _ _ V).

Lemma startup_trace cfg c evs now ev p s rest s' : trace_inv cfg c evs p -> stage p = StartingUp s rest -> ev <> StCancel ->
  startup_step now ev (mkStartup (what s) (st_policy s) (st_phase s) (registry p) (cancelled p)) = Some s' ->
  trace_inv cfg c (evs ++ [(now, OfStartup ev)]) (settle s' rest p).
Proof.
  intros V G N R. assert (U : starting_up p) by (unfold starting_up; by rewrite G).
  assert (L : live p) by (unfold live; by rewrite G). pose proof (tr_live _ _ _ _ V L) as I.
  destruct (inv_fresh _ I U) as [W _]. destruct (settle_fields s' rest p U W) as (J & C & K & X & P).
  destruct (startup_step_fields _ _ _ _ N R) as (D & A & B). simpl in D. pose proof (tr_steps _ _ _ _ V _ _ G) as T.
  assert (O : steps_ok (evs ++ [(now, OfStartup ev)]) = (steps_ok evs + match st_phase s' with Started _ => 1 | _ => 0 end)%nat).
  { rewrite steps_ok_snoc. f_equal. destruct (st_phase s') eqn:F.
    3: { by destruct (A _ eq_refl) as [w ->]. }
    all: destruct ev as [[v0|?]|?| | |]; try done; by specialize (B v0 eq_refl). }
  pose proof (tr_start _ _ _ _ V U) as Z. constructor; rewrite ?J, ?C, ?K; carried V.
  - intros H. apply settle_inv; [done..| |exact H]. by apply startup_step_roles in R.
  - auto.
  - rewrite D. intros H. destruct (tr_cancel _ _ _ _ V H) as [?|[?|?]]; auto using signalled_snoc.
  - intros s1 rest1 H. rewrite O. destruct (st_phase s') as [|w|v|e wh|wh|].
    3: destruct rest as [|next rest]; [by rewrite H in P|]; destruct P as [[s2 P] _].
    1,2: destruct P as [P _].
    1-3: rewrite P in H; injection H as <- <-; simpl in *; lia.
    all: destruct P as [P _]; exfalso; apply P; unfold live; by rewrite H.
  - intros H. rewrite O. destruct (st_phase s') as [|w|v|e wh|wh|].
    3: destruct rest as [|next rest]; [simpl in *; lia|]; destruct P as [[s2 P] Q].
    1,2: destruct P as [P Q].
    1-3: destruct H as [H|H]; [by rewrite Q in H|by rewrite P in H].
    all: destruct P as [P Q], H as [H|H]; [by rewrite Q in H|exfalso; apply P; unfold live; by rewrite H].
  - intros r H. left. split; [by rewrite Z|by apply X].
Qed.

Lemma progressed_fields i r h p : p_cfg (progressed i r h p) = p_cfg p /\ stage (progressed i r h p) = stage p /\
  joined (progressed i r h p) = joined p /\ cancelled (progressed i r h p) = cancelled p.
Proof. by destruct r. Qed.

Lemma no_new_worker i ev t now p r h : process_inv p -> running p !! i = Some t ->
  task_step now ev t (registry p) (cancelled p) = Some (r, h) ->
  worker_labels (running p) = [] -> worker_labels (running (progressed i r h p)) = [].
Proof.
  intros V I T W. assert (worker_label t = None) as N.
  { destruct t as [| |s| |]; try done. apply worker_labels_in in I. rewrite W in I. by apply elem_of_nil in I. }
  pose proof (worker_labels_delete _ _ _ I) as P. rewrite W, N in P. apply Permutation_nil_l in P.
  destruct r as [t'|o]; [|done]. exfalso. destruct ev as [ev|ok| |], t as [| |s| |]; try done; simpl in T; by destruct (cancelled p).
Qed.

Lemma join_trace cfg c evs now p p' : trace_inv cfg c evs p -> stage p = Joining -> join_next p = Some p' ->
  trace_inv cfg c (evs ++ [(now, JoinNext)]) p'.
Proof.
  intros V G J. assert (L : live p) by (unfold live; by rewrite G). pose proof (tr_live _ _ _ _ V L) as I.
  pose proof (join_next_inv p p' I G J) as K. pose proof (tr_workers _ _ _ _ V (or_intror G)) as S.
  destruct (inv_ends _ I) as [A B]. unfold join_next in J. destruct (finished p) as [|[r|] rest] eqn:F.
  - destruct (running p) as [|t ts] eqn:Q; [|done]. injection J as <-.
    constructor; simpl; try done; carried V.
    + intros H. destruct (tr_cancel _ _ _ _ V H) as [?|[?|?]]; auto using signalled_snoc.
    + by intros [H|H].
    + intros r [= <-]. right. split; [apply (inv_outcome _ I)|]. pose proof (inv_count _ I) as T.
      rewrite G in T. unfold tasks_seen in T. rewrite Q, F, (tr_cfg _ _ _ _ V) in T. simpl in T. lia.
  - assert (E : p_cfg p' = cfg /\ stage p' = Joining /\ running p' = running p /\ joined p' = joined p ++ [r]
      /\ (cancelled p' = true -> cancelled p = true \/ exists e, r = Err e)).
    { rewrite <-(tr_cfg _ _ _ _ V). destruct r as [l|e]; injection J as <-; simpl; eauto 10. }
    clear J. destruct E as (E1 & E2 & E3 & E4 & E5). constructor; rewrite ?E2, ?E3, ?E4; try done.
    + intros U. unfold starting_up in U. by rewrite E2 in U.
    + intros r' [H|H%list_elem_of_singleton]%elem_of_app; [by apply B|]. subst r'. apply A. set_solver.
    + intros [H|[e ->]]%E5; [|right; right; exists e; set_solver].
      destruct (tr_cancel _ _ _ _ V H) as [?|[?|[e H']]]; auto using signalled_snoc. right. right. exists e. set_solver.
    + intros _. rewrite steps_ok_snoc. simpl. lia.
  - injection J as <-. constructor; simpl; try done; carried V.
    + intros H. destruct (tr_cancel _ _ _ _ V H) as [?|[?|?]]; auto using signalled_snoc.
    + intros _. rewrite steps_ok_snoc. simpl. lia.
Qed.

Lemma step_trace cfg c evs now ev p p' : trace_inv cfg c evs p -> process_step now ev p = Some p' ->
  trace_inv cfg c (evs ++ [(now, ev)]) p'.
Proof.
  intros V S. pose proof (process_step_cases _ _ _ _ S) as [L C]. pose proof (tr_live _ _ _ _ V L) as I.
  destruct ev as [ev|i ev| |].
  - destruct C as (s & rest & s' & G & N & R & ->). by eapply startup_trace.
  - destruct C as (t & r & h & Q & T & ->). destruct (progressed_fields i r h p) as (F1 & F2 & F3 & F4).
    constructor; unfold starting_up; rewrite ?F1, ?F2, ?F3, ?F4, ?steps_ok_snoc; simpl; rewrite ?Nat.add_0_r; carried V.
    + intros _. by eapply task_step_inv.
    + intros H. destruct (tr_cancel _ _ _ _ V H) as [?|[?|?]]; auto using signalled_snoc.
    + intros [H|H]; apply (tr_workers _ _ _ _ V); [left|by right]. contradict H. by eapply no_new_worker.
  - destruct C as [G J]. by eapply join_trace.
  - subst p'. constructor; simpl; rewrite ?steps_ok_snoc; simpl; rewrite ?Nat.add_0_r; carried V.
    + intros _. by apply (inv_same p).
    + intros _. right. left. exists now. set_solver.
Qed.

Lemma run_trace b now c cfg p0 evs p : start b now c cfg = Ok p0 -> process_run evs p0 = Some p -> trace_inv cfg c evs p.
Proof.
  intros S. revert evs p. apply process_ind; [by eapply start_trace|]. intros. by eapply step_trace.
Qed.

(** ** What an operator can rely on *)

(** How a process ends. It exits either out of a startup step -- one that
    failed for good, or one it was waiting to retry when the shutdown came --
    with no task ever joined, or out of the join loop: then every task it
    spawned has been joined, none is left running, and it returns the first
    failure in the order the tasks came back, success only if all of them
    succeeded. *)
Theorem exit_is_the_first_failure b now c cfg p0 evs p r :
  start b now c cfg = Ok p0 -> process_run evs p0 = Some p -> stage p = Exited r ->
  (joined p = [] /\ exists what, (exists e, r = Err (StartupError e what)) \/ r = Err (ShutdownDuring what)) \/
  (r = first_failure (joined p) /\ length (joined p) = task_count cfg).
Proof. intros S R X. by apply (tr_exit _ _ _ _ (run_trace _ _ _ _ _ _ _ S R)). Qed.

(** C26: What can stop a process. Whatever its roles run into, the shutdown token
    is cancelled only by whoever started the process or by a task that returned
    an error; and a role's task returns only errors that waiting cannot mend: no
    recoverable catalog failure of a role reaches the join loop. *)
Theorem only_permanent_failures_stop_it b now c cfg p0 evs p :
  start b now c cfg = Ok p0 -> process_run evs p0 = Some p ->
  (cancelled p = true -> c = true \/ signalled evs \/ exists e, Err e ∈ joined p) /\
  (forall e l, Err (RoleError (WorkerFailed e l)) ∈ joined p ->
     forall ce, worker_catalog_error e = Some ce -> is_recoverable_transport ce = false) /\
  (forall e l, Err (RoleError (ReconciliationFailed e l)) ∈ joined p -> is_recoverable_transport e = false).
Proof.
  intros S R. pose proof (run_trace _ _ _ _ _ _ _ S R) as V. split_and!.
  - apply (tr_cancel _ _ _ _ V).
  - intros e l I ce E. pose proof (tr_ends _ _ _ _ V _ I) as P. simpl in P. unfold permanent in P.
    change (catalog_error e) with (worker_catalog_error e) in P. rewrite E in P. by apply negb_true_iff.
  - intros e l I. apply (tr_ends _ _ _ _ V _ I).
Qed.

(** C27: What readiness is worth. When a process says it is ready, the catalog
    answered last and every configured role other than the query server has a
    task in the body of its worker -- not waiting out an outage, not resolving
    an ambiguous mutation, not ended -- and all the startup steps were seen
    through before any of them ran; the one exception is a task that panicked
    and has not been joined. *)
Theorem ready_means_running b now c cfg p0 evs p t role :
  start b now c cfg = Ok p0 -> process_run evs p0 = Some p -> live p ->
  ready (snapshot t (registry p)) = true -> role ∈ roles cfg -> role <> Health.Query ->
  None ∈ finished p \/
  exists s, RoleTask s ∈ running p /\ label s = role_label role /\ phase s = Building /\ steps_ok evs = step_count cfg.
Proof.
  intros S R L [_ H]%ready_iff I N. pose proof (run_trace _ _ _ _ _ _ _ S R) as V. pose proof (tr_live _ _ _ _ V L) as W.
  destruct (inv_dom _ W role) as [e E]; [by rewrite (tr_cfg _ _ _ _ V)|]. pose proof (H _ _ E) as K.
  destruct (inv_healthy _ W _ _ E K) as [C|C]; [by intros Q%(inj role_label)| |by left]. right.
  apply list_elem_of_omap in C as (x & C & D). destruct x as [| |s| |]; try done. injection D as D.
  exists s. split_and!; [done..| |].
  - apply list_elem_of_lookup_1 in C as [i C]. destruct (inv_workers _ W _ _ C) as [_ P]. simpl in P.
    unfold reported, role_state in P. simpl in P. rewrite D, E in P. simpl in P. rewrite K in P.
    destruct (phase s) as [|[] ?| |[?|[]]|]; simpl in P; destruct_and?; destruct_or?; done.
  - apply (tr_workers _ _ _ _ V). left. intros Z. apply list_elem_of_lookup_1 in C as [i C].
    apply worker_labels_in in C. rewrite Z in C. by apply elem_of_nil in C.
Qed.

(** A process that never becomes ready. With the ingest role enabled -- it is
    among the default roles -- and no table that declares a topic, the role is
    entered in the health registry but never spawned: it stays in its starting
    state, so the process reports itself not ready at every point of its life,
    however healthy the catalog and the other roles are. *)
Theorem unrouted_ingest_is_never_ready b now c cfg p0 evs p t :
  start b now c cfg = Ok p0 -> process_run evs p0 = Some p -> live p ->
  Health.Ingest ∈ roles cfg -> routes cfg = [] ->
  ready (snapshot t (registry p)) = false.
Proof.
  intros S R L I E. apply not_true_iff_false. intros [_ H]%ready_iff.
  pose proof (run_trace _ _ _ _ _ _ _ S R) as V. pose proof (tr_live _ _ _ _ V L) as W. pose proof (tr_cfg _ _ _ _ V) as C.
  destruct (inv_dom _ W Health.Ingest) as [e D]; [by rewrite C|].
  pose proof (inv_idle _ W _ _ D) as K. rewrite (H _ _ D) in K. discriminate K; [|done].
  rewrite C, in_labels. intros (r & Q%(inj role_label) & M). subst r. unfold supervised in M. rewrite E in M.
  destruct (has_role Health.Mv _), (has_role Health.Ingest _), (has_role Health.Compactor _), (has_role Health.Gc _);
    apply (bool_decide_eq_true_2 _) in M; vm_compute in M; discriminate M.
Qed.

(** ** A configuration, and its process *)

Definition demo_table (name : string) (topic : option string) : TableConfig :=
  mkTable name topic "ts" "tenant" ["tenant"; "ts"]%string [] None None [] [].

Definition demo_cfg (topic : option string) : UkieldConfig :=
  mkUkield [Health.Ingest; Health.Query; Health.Gc] (set_url "postgres://db" default_catalog)
    (mkStore "memory" EmptyString default_bucket EmptyString EmptyString default_region false)
    default_query default_ingest default_mv default_compactor default_gc default_collector EmptyString
    [demo_table "events" topic] [].

Definition demo_boot : Boot := mkBoot 7 true (fun _ => true) (fun _ => true) true true.

Definition step_done_at (t : Z) : Z * ProcessEvent := (t, OfStartup (StepDone (Ok tt))).

(** Migrations meet an outage; the step is tried again and the others follow. *)
Definition demo_startup : list (Z * ProcessEvent) :=
  [(1, OfStartup (StepDone (Err (MigrateFailed (Db Io))))); (2, OfStartup (StProbed Answered));
   step_done_at 3; step_done_at 4; step_done_at 5].

(** The tasks by then: the query server, the supervised roles, the collector
    and the upkeep. *)
Definition demo_ready : list (Z * ProcessEvent) :=
  demo_startup ++ [(6, OfTask 1 (RoleDoes WorkerReady)); (7, OfTask 2 (RoleDoes WorkerReady))].

(** The ingest worker fails for good; the failure is joined, and the rest stop
    on the token it cancels. *)
Definition demo_failure : list (Z * ProcessEvent) :=
  demo_ready ++
  [(8, OfTask 1 (RoleDoes (WorkerDone (Err (OfIngest (Ingest.IgCatalog (NotFound "events")))))));
   (9, JoinNext); (10, OfTask 1 (RoleDoes (WorkerDone (Ok tt)))); (10, OfTask 0 (ServerReturned true));
   (11, OfTask 0 SawCancel); (11, OfTask 0 SawCancel); (12, JoinNext); (12, JoinNext); (12, JoinNext);
   (12, JoinNext); (13, JoinNext)].

Definition demo_run (topic : option string) (evs : list (Z * ProcessEvent)) : option Process :=
  match start demo_boot 0 false (demo_cfg topic) with Ok p => process_run evs p | Err _ => None end.

Example demo_becomes_ready : (fun p => ready (snapshot 8 (registry p))) <$> demo_run (Some "t"%string) demo_ready = Some true.
Proof. vm_compute. reflexivity. Qed.

Example demo_not_ready : (fun p => ready (snapshot 8 (registry p))) <$>
  demo_run None (demo_startup ++ [(6, OfTask 1 (RoleDoes WorkerReady))]) = Some false.
Proof. vm_compute. reflexivity. Qed.

Example demo_args : parse_args ["--bootstrap-only"; "--config"; "a"; "--config"; "b"]%string = Ok ("b"%string, true)
  /\ parse_args ["--config"]%string = Err ConfigRequiresPath /\ parse_args ["a"]%string = Err (UnknownArgument "a").
Proof. done. Qed.

Example demo_startup_interrupted : (fun p => stage p) <$> demo_run None
  [(1, OfStartup (StepDone (Err (MigrateFailed (Db Io))))); (2, ShutdownSignal); (2, OfStartup (StProbed Elapsed));
   (3, OfStartup StCancelSeen)] = Some (Exited (Err (ShutdownDuring "running migrations"))).
Proof. vm_compute. reflexivity. Qed.

(** The start and the runs the witnesses are about. *)
Definition demo_start (topic : option string) : Process :=
  match start demo_boot 0 false (demo_cfg topic) with
  | Ok p => p
  | Err _ => mkProcess (demo_cfg topic) (from_config default_catalog 0) Panicking (new 0 []) false [] [] [] (Ok tt)
  end.
Definition demo_end (topic : option string) (evs : list (Z * ProcessEvent)) : Process :=
  default (demo_start topic) (process_run evs (demo_start topic)).

Lemma demo_started topic : start demo_boot 0 false (demo_cfg topic) = Ok (demo_start topic).
Proof.
  assert (C : match start demo_boot 0 false (demo_cfg topic) with Ok _ => true | Err _ => false end = true) by (vm_compute; reflexivity).
  unfold demo_start. by destruct (start demo_boot 0 false (demo_cfg topic)).
Qed.

Lemma demo_ran topic evs : match process_run evs (demo_start topic) with Some _ => true | None => false end = true ->
  process_run evs (demo_start topic) = Some (demo_end topic evs).
Proof. unfold demo_end. by destruct (process_run evs (demo_start topic)). Qed.

Lemma demo_failure_ran : process_run demo_failure (demo_start (Some "t"%string)) = Some (demo_end (Some "t"%string) demo_failure).
Proof. apply demo_ran. vm_compute. reflexivity. Qed.

Lemma demo_ready_ran : process_run demo_ready (demo_start (Some "t"%string)) = Some (demo_end (Some "t"%string) demo_ready).
Proof. apply demo_ran. vm_compute. reflexivity. Qed.

Lemma exit_is_the_first_failure_witness :
  stage (demo_end (Some "t"%string) demo_failure)
    = Exited (Err (RoleError (WorkerFailed (OfIngest (Ingest.IgCatalog (NotFound "events"))) "ingest"))) /\
  length (joined (demo_end (Some "t"%string) demo_failure)) = 5%nat.
Proof.
  assert (E : stage (demo_end (Some "t"%string) demo_failure)
    = Exited (Err (RoleError (WorkerFailed (OfIngest (Ingest.IgCatalog (NotFound "events"))) "ingest"))))
    by (vm_compute; reflexivity).
  split; [exact E|].
  destruct (exit_is_the_first_failure demo_boot 0 false (demo_cfg (Some "t"%string)) (demo_start (Some "t"%string)) demo_failure
    (demo_end (Some "t"%string) demo_failure) _ (demo_started _) demo_failure_ran E) as [[A _]|[_ B]].
  - exfalso. revert A. vm_compute. discriminate.
  - rewrite B. vm_compute. reflexivity.
Defined.

Lemma only_permanent_failures_stop_it_witness :
  cancelled (demo_end (Some "t"%string) demo_failure) = true /\
  exists e, Err e ∈ joined (demo_end (Some "t"%string) demo_failure).
Proof.
  assert (E : cancelled (demo_end (Some "t"%string) demo_failure) = true) by (vm_compute; reflexivity).
  split; [exact E|].
  destruct (only_permanent_failures_stop_it demo_boot 0 false (demo_cfg (Some "t"%string)) (demo_start (Some "t"%string))
    demo_failure (demo_end (Some "t"%string) demo_failure) (demo_started _) demo_failure_ran) as [A _].
  destruct (A E) as [B|[[t B]|B]]; [discriminate B| |exact B].
  exfalso. revert B. unfold demo_failure, demo_ready, demo_startup, step_done_at. simpl. rewrite !elem_of_cons, elem_of_nil.
  intros B. repeat (destruct B as [B|B]; [discriminate B|]). exact B.
Defined.

Lemma ready_means_running_witness :
  exists s, RoleTask s ∈ running (demo_end (Some "t"%string) demo_ready) /\ label s = role_label Health.Ingest /\
    phase s = Building /\ steps_ok demo_ready = step_count (demo_cfg (Some "t"%string)).
Proof.
  destruct (ready_means_running demo_boot 0 false (demo_cfg (Some "t"%string)) (demo_start (Some "t"%string)) demo_ready
    (demo_end (Some "t"%string) demo_ready) 8 Health.Ingest (demo_started _) demo_ready_ran
    ltac:(vm_compute; exact I) ltac:(vm_compute; reflexivity) ltac:(left) ltac:(discriminate)) as [A|A]; [|exact A].
  exfalso. revert A. vm_compute. intros A. inversion A.
Defined.

Lemma unrouted_ingest_is_never_ready_witness :
  ready (snapshot 60 (registry (demo_end None demo_startup))) = false.
Proof.
  apply (unrouted_ingest_is_never_ready demo_boot 0 false (demo_cfg None) (demo_start None) demo_startup
    (demo_end None demo_startup) 60).
  - apply demo_started.
  - apply demo_ran. vm_compute. reflexivity.
  - vm_compute. exact I.
  - left.
  - reflexivity.
Defined.

End RunSpec.
